(* ===== verification/_CoqProject ===== *)
-Q . S2P
Prelude.v
Types.v
Block.v
Pow.v
ParallelPow.v
Error.v
Storage.v
DagStorage.v
GhostDag.v
Sponsorship.v
PrivacyPool.v
Recurring.v
Governance.v
Wallet.v
Verkle.v
Ledger.v
BlockIndex.v
Execution.v
AccountFrame.v
Chain.v
ChainAccounts.v
ChainReference.v
Economics.v
Messaging.v
Sharding.v
ShardTheorems.v
ShardAccounting.v
ShardReference.v
Float64.v
Ordering.v
TxPool.v
TxPoolTheorems.v
NodeRegistry.v
Miner.v
MinerTheorems.v
MinerReference.v
Multisig.v
Recovery.v
Batch.v
WalletFactory.v
AccountReference.v
EvmParallel.v
SyncPool.v
TopoSort.v
SyncProtocol.v
SyncServing.v
FullSync.v
FullSyncTheorems.v
SyncReference.v
Oracles.v
StopLoss.v
Kzg.v
VerkleProofs.v
Shielded.v
RateLimit.v
Reputation.v
Snapshot.v
NodePool.v
Hardening.v
Security.v
Forensics.v
PeerScore.v
Wire.v
PeerTables.v
Gossip.v
PeerLoop.v
GossipFrame.v
GossipTheorems.v
GossipReference.v
Json.v
RpcServer.v
RpcEth.v
RpcFeatures.v
Rpc.v
RpcTheorems.v
RpcReference.v
