(* ===== verification/Prelude.v ===== *)
(** * IronDAG: a verification of the node's core

    IronDAG is a Rust blockchain node ([irondag-blockchain/src] in the
    repository): blocks of three proof-of-work streams form a DAG, a
    GhostDAG-style engine colours and orders them, a chain state executes
    their transactions, and everything is kept in a [sled] key-value store.
    This development translates the core of that code into executable Rocq
    definitions and proves the properties it relies on.

    ** The parts and their files, in dependency order

    - [Prelude] (this file): machine integers with the wrap-around of the
      release build, [Result] as [result], the state-and-error monad [SE] the
      mutating code is written in, byte encodings, stable sorting, [Vec]
      operations, and the interfaces of the pieces of the Rust library whose
      behaviour is not determined: [HashIter] (iteration order of
      [HashMap]/[HashSet]), [SliceSearch] ([binary_search_by]), [Codec]
      ([bincode]).
    - [Types] ([types.rs]): [Address], [Hash], hex text, genesis allocations,
      stream tags, Keccak-256 and address derivation.
    - [Block] ([blockchain/block.rs]): headers, transactions, blocks; transaction
      hashing, signing and verification (Ed25519, ECDSA, post-quantum).
    - [Pow] ([pow.rs], hashes of [block.rs]): difficulty test and adjustment,
      Blake3 and B3MemHash, the SIMD xor kernels, the transactions root, the
      sequential mining loop.
    - [ParallelPow] ([pow.rs], [mine_block_parallel]): the worker threads as
      atomic steps interleaved by an arbitrary schedule.
    - [Error] ([error.rs]): the error values, with [Panic] for a Rust panic and
      [OutOfFuel] for a loop cut short by the model.
    - [Storage] ([storage.rs]): key layout, compression, version check, the
      block, state and parent/child stores, batches, snapshots, the v0 key
      migrator, over a finite map standing for the [sled] tree.
    - [DagStorage] ([consensus/storage.rs]): the hot cache with its eviction
      queue, the child index, pruning, and the consensus checkpoints.
    - [GhostDag] ([consensus/mod.rs]): the consensus engine: insertion, full,
      incremental and recovery colouring, ordering, finality, pruning, tips.
    - [Sponsorship] ([gas_sponsorship.rs]), [PrivacyPool] ([privacy_pool.rs]),
      [Recurring] ([recurring/]), [Governance] ([governance/scheduler.rs]),
      [Wallet] ([account_abstraction/wallet.rs], [registry.rs]), [Verkle]
      ([verkle/tree.rs]): the components the chain state calls.
    - [Ledger], [BlockIndex], [Execution], [Chain], [ChainAccounts]
      ([blockchain/mod.rs]): the accounts behind memory, database and Verkle
      tree; the block index and the checks on blocks; validation and execution
      of transactions; adding blocks locally and from peers, loading, resync,
      recurring payments and pool withdrawals.  [AccountFrame] shows that the
      consensus engine, which writes to the same database, leaves the accounts
      alone; [ChainReference] is a concrete chain.
    - [Economics] ([mining.rs]): rewards, the base fee, tips, the split of fees,
      trimming a block to the size limit.
    - [Messaging] ([sharding/async_messaging.rs]), [Sharding], [ShardTheorems],
      [ShardAccounting] ([sharding/mod.rs]): channels, receipts and the
      write-ahead log; shards, routing, cross-shard transfers, retries and
      timeouts.  [ShardReference] has two funded shards.
    - [Float64]: binary64 arithmetic, exactly, on the Standard Library's
      [SpecFloat].
    - [Ordering] ([mining/ordering.rs], [mining/fairness.rs]): ordering policies
      and fairness metrics.
    - [TxPool], [TxPoolTheorems] ([mining.rs]): the pools, the future-nonce queue,
      eviction, submission, promotion and the selection for a block.
    - [NodeRegistry] ([governance/node_identity.rs], [longevity.rs],
      [registry.rs]): fingerprints, registration, participation and weight.
    - [Miner], [MinerTheorems] ([mining.rs]): block numbers, parents, one iteration
      of each mining stream, and [process_blocks].  [MinerReference] runs a miner
      on the chain of [ChainReference].
    - [Multisig], [Recovery], [Batch], [WalletFactory] ([account_abstraction/]):
      payloads with several signers, recovery by guardians, batches that
      revert, wallet addresses.  [AccountReference] runs them.
    - [EvmParallel] ([evm/parallel.rs]), [Snapshot] ([evm/state_snapshot.rs]):
      conflict analysis and batched execution; branch snapshots and their merge.
    - [SyncPool], [TopoSort], [SyncProtocol], [SyncServing], [FullSync],
      [FullSyncTheorems] ([network/sync.rs]): resync quorum, headers-first
      state, compact blocks and orphans; Kahn's sort; signed responses, batch
      selection and the server; the synchronisation loop against [Chain] and
      any transport.  [SyncReference] has a client and a server.
    - [Oracles] ([oracles/]), [StopLoss] ([stop_loss/]), [Reputation]
      ([reputation.rs]): price aggregation, stakes and randomness; orders and
      their monitor; reputation scores.
    - [Kzg] ([verkle/kzg.rs]), [VerkleProofs] ([verkle/proof.rs], [tree.rs],
      [light_client.rs]): polynomial commitments over the class [Curve], state
      proofs, the light client.
    - [Shielded] ([privacy/]): Pedersen commitments, nullifiers, the transfer
      circuit and the processing of privacy transactions.
    - [RateLimit] ([rpc/rate_limit.rs]), [NodePool] ([node/pool.rs]),
      [Hardening], [Security], [Forensics] ([security/]): token buckets, the
      node's pool, request windows and bans, risk scores and policies, tracing
      of funds.
    - [PeerScore], [Wire], [PeerTables], [Gossip], [PeerLoop] ([network.rs]):
      peer scores, message rates, penalties and bans; messages, signatures and
      frames; the tables of peers with their slots, subnets and eviction; what a
      node does with each message; the tasks that read from peers, broadcast,
      serve blocks over QUIC and run periodically.  [GossipFrame] is the
      interface between a message and the invariants it keeps (a class of
      relations its steps respect), [GossipTheorems] the theorems, and
      [GossipReference] two nodes that talk.
    - [Json], [RpcServer], [RpcEth], [RpcFeatures], [Rpc] ([rpc.rs], and the
      server and request handling of [node/mod.rs]): JSON values, texts and
      parameters; the server with its constructors, key and gates; the methods
      of Ethereum with submission and faucet; those of the components above;
      dispatch and batches.  [RpcTheorems] has the theorems, [RpcReference] a
      server that answers.

    Each file has the definitions, then the theorems, then a [..Reference]
    module with executable instances of its parameters and concrete runs.

    ** How state and effects correspond to the code

    A struct is a record with the source's fields; a [&mut self] method is a
    function on the record or a computation in [SE], which keeps the state
    reached when an error is returned, as the code does.  The database is an
    [Arc] shared by several components and is threaded as a separate part of
    the state.  Third-party code (hash functions, signature schemes, [zstd],
    [bincode], [hex], RLP) is a class parameter whose laws state its documented
    behaviour: digest lengths, decode-after-encode, verify-after-sign.
    Collision freedom of a hash is never assumed as such: a theorem that needs
    it asks that the digests of the inputs it hashes, which it lists, be
    distinct ([transactions_root_binding], [verkle_root_binding]).

    ** What the theorems show

    - Consensus: [add_block] preserves the engine invariant; scores are one more than
      the best blue parent while nothing is pruned; a finalized block of an
      engine that was started empty has its confirmations; the full
      recomputation terminates.  The incremental and
      the full ordering differ on equal scores ([rebuild_reorders_siblings]).
    - DAG storage: the cache stays bounded and consistent and no stored block is
      lost; checkpoints load back.
    - Storage: the state store refines abstract tables; snapshots, blocks and
      compressed values round-trip; the listing of blocks, the full clear and
      the version check are specified on every branch; four theorems pin down
      what happens to legacy formats.
    - Proof of work: the byte test is the numeric target test, sequential mining
      finds the least solution, parallel mining is sound and exhaustive under
      every schedule (and can pair a nonce with another's hash), the kernels
      agree, B3MemHash is deterministic, the Merkle root binds.
    - Transactions: a verified transaction was signed by its sender's key.
    - Accounts: a native transfer and a whole block of them refine the abstract
      accounts in each of the four configurations of memory, database and Verkle
      ([process_transaction_refines], [block_execution_refines]); execution
      destroys exactly fees and burned values; genesis allocations add up.
      Native means that the transaction carries no data or the EVM is off, and
      that there is no wallet registry, which no constructor sets; the theorems
      about whole blocks cover such blocks, and no contract calls.
    - Chain: along every sequence of operations but [clear_for_resync] the
      indices are sound and no lookup panics; an accepted block is indexed, in the replay window and
      survives a restart, a refused one leaves the index alone; along every
      sequence of native blocks no transaction runs twice.  The sync path is the local
      path without its upkeep; which blocks pass the two validations is
      characterised exactly.  [multisig_list_bypasses_signatures],
      [recurring_payment_effect] and [clear_for_resync_panics] prove defects.
    - Called components: spend limits hold per window, nullifiers are paid once,
      governance is deterministic across nodes, the Verkle root binds the
      accounts where the nodes on their paths have distinct digests.

    - Fees: emission stays bounded, the base fee moves by an eighth, a tip never
      exceeds the offer, a trimmed block fits.
    - Sharding: the manager keeps its invariant; balances and receipts on their
      way are conserved up to fees, except for the retry worker, whose timeout
      mints ([timeout_refund_mints]); the log redelivers what was sent, and
      doubles.
    - Pools: a submission is accepted exactly when it should be; a selection
      moves live transactions out of the pool, the cheapest first
      ([selection_takes_lowest_fees]).
    - Mining: chain, pools and allocator keep their invariants under every
      sequence of operations; numbers are issued once; a submission is settled
      on every path that does not panic, and one that panics ends the task
      ([zero_gas_block_ends_processing]); the reward is credited on the miner's node only.
    - Registry: registered nodes have valid and distinct fingerprints and
      addresses; the stated uniqueness can be evaded.
    - Account abstraction: a recovery completes only with its guardians'
      signatures and delay; a batch runs entirely, or every operation that ran
      is handed to its revert callback.
    - Parallel execution: batches give the results of sequential execution for
      transactions that stay within the accounts the analysis names, which
      calls between contracts do not ([nested_calls_not_serializable]);
      merging snapshots by maximum mints ([merge_mints]).
    - Synchronisation: a batch is sorted behind its parents, a served batch is
      connected and arrives as sent, the orphan pool refines a bounded queue, a
      synchronisation only adds blocks, and it ends with every peer that
      answers within the range asked for, though not with one that stalls
      ([stalling_peer_never_ends]).
    - Oracles: an honest majority determines the published price.
    - State proofs: openings and tree proofs are accepted; the fixed setup, the
      unbound key and the light client's check make forgeries possible
      ([kzg_seed_forges_openings], [light_client_forgeable]).
    - Shielded transfers: no nullifier is recorded twice, but one note has
      several nullifiers ([nullifier_encoding_malleable]).
    - Peers: whatever bytes a peer sends, the chain stays sound and only grows
      and queues, orphans and caches stay bounded ([peer_keeps_node_sound]); the
      loop that reads them ends; the tables of peers stay within their limits but
      for the peers registered outside them ([peer_limits]); a node's
      own block is handled by its peers; the QUIC server answers like the TCP
      one.  Defects: answers are never read ([answers_are_unread]), five bad
      messages block a node for ever ([five_bad_messages_block_node]), compact
      blocks are refused, and a claimed hash keeps the real block out.
    - Clients: without the key only public methods are served, and only the
      faucet changes anything ([requests_need_the_key]); the hash answered to a
      raw transaction is that of a signed, covered and acceptable one; the
      faucet pays an address once a minute; answers about accounts read back.
      Defects: a sharded node has no key ([sharded_node_has_no_key]), the
      encoding of Ethereum's wallets is refused ([standard_transactions_refused]),
      Verkle balances are not reported, multi-signature payloads are dropped and
      a refused snapshot has replaced the accounts.
    - Limits: request windows, token buckets, message rates and bans bound what
      a client gets through; scores stay in range; tracing terminates with
      simple paths.

    ** Fuel and bounds

    [mine_loop] takes fuel; [mine_block_correct] asks for one unit per
    admissible nonce.  [merkle_loop] uses the number of leaves, which is proved
    enough.  The traversals of [GhostDag] take fuel; [update_blue_set_terminates]
    shows that the number of reachable hashes is enough, and a new tip needs
    one unit.  The schedule of [mine_block_parallel] plays the same role for its
    workers.  Promotion from the future queue takes the size of the queue, a
    selection the length of the pool, both proved enough; the search of
    [trim_block_transactions] is bounded by its interval.  [download_loop] takes
    fuel; [full_sync_terminates] bounds it by the peer's height.  The queue of
    [trace_funds] is bounded by the branching of the graph and the hop limit.
    [handle_peer] needs as much fuel as there are bytes ([handle_peer_ends]).

    ** Not modelled

    Sockets, the QUIC and STUN libraries and the [kyber] feature of
    [network.rs], the RPC methods of [other_methods] in [Rpc] (reports on
    components, the EVM, oracles, orders, proofs and snapshots), the interfaces
    of [rpc/v2.rs] and [rpc/grpc.rs], HTTP and JSON parsing, node assembly and
    metrics (input/output), the EVM interpreter ([revm]) and proof systems
    (libraries), disk failures of [sled], wall-clock statistics, log output, and
    lock contention (the block processing lock serialises the writers).  The
    operations of pools, shards, miner and peers run one after the other; one
    lock matters and is modelled, that of the peer scores in [PeerLoop].  [Execution]
    has the [privacy] feature off; [Shielded] models what it adds. *)

From Stdlib Require Export ZArith Lia.
From stdpp Require Export sorting strings gmap list_numbers prelude.
Open Scope Z_scope.

(** ** Machine integers

    A [w]-bit unsigned integer is a [Z]; the wrap-around of the release build
    (the crate sets no [overflow-checks]) is written out where the source uses
    a plain operator, and the saturating and checked operators are the ones of
    the Rust standard library. *)

Abbreviation u8 := Z (only parsing).
Abbreviation u32 := Z (only parsing).
Abbreviation u64 := Z (only parsing).
Abbreviation u128 := Z (only parsing).
Abbreviation usize := Z (only parsing).

Definition u8_max : Z := 255.
Definition u64_max : Z := 18446744073709551615.
Definition u128_max : Z := 340282366920938463463374607431768211455.

Definition in_u64 (x : Z) : Prop := 0 <= x <= u64_max.
Definition in_u128 (x : Z) : Prop := 0 <= x <= u128_max.

(** [a + b] on [u64] / [u128] in a release build. *)
Definition add64 (a b : u64) : u64 := (a + b) mod (u64_max + 1).
Definition add128 (a b : u128) : u128 := (a + b) mod (u128_max + 1).
(** [a - b] on [u64] / [u128] in a release build. *)
Definition sub64 (a b : u64) : u64 := (a - b) mod (u64_max + 1).
Definition sub128 (a b : u128) : u128 := (a - b) mod (u128_max + 1).
(** [a as u8]. *)
(** The bytes of an ASCII literal. *)
Definition bytes_of_string (s : string) : list u8 := (λ c, Z.of_nat (Ascii.nat_of_ascii c)) <$> String.list_ascii_of_string s.
Definition as_u8 (a : Z) : u8 := a mod 256.

Definition sat_add64 (a b : u64) : u64 := Z.min u64_max (a + b).
Definition sat_add128 (a b : u128) : u128 := Z.min u128_max (a + b).
Definition sat_sub (a b : Z) : Z := Z.max 0 (a - b).
Definition checked_add128 (a b : u128) : option u128 :=
  if a + b <=? u128_max then Some (a + b) else None.

(** ** Results

    [Result<T, E>] of the source; [mret]/[mbind] give the [?] operator. *)

Inductive result (E A : Type) : Type :=
| Ok (a : A)
| Err (e : E).
Arguments Ok {E A} a.
Arguments Err {E A} e.

#[global] Instance result_ret E : MRet (result E) := λ A a, Ok a.
#[global] Instance result_bind E : MBind (result E) := λ A B f r,
  match r with Ok a => f a | Err e => Err e end.
#[global] Instance result_fmap E : FMap (result E) := λ A B f r,
  match r with Ok a => Ok (f a) | Err e => Err e end.

Definition map_err {E F A} (f : E → F) (r : result E A) : result F A :=
  match r with Ok a => Ok a | Err e => Err (f e) end.
Definition is_ok {E A} (r : result E A) : bool :=
  match r with Ok _ => true | Err _ => false end.
(** [r.ok()] *)
Definition ok {E A} (r : result E A) : option A :=
  match r with Ok a => Some a | Err _ => None end.
Definition ok_or {E A} (e : E) (o : option A) : result E A :=
  match o with Some a => Ok a | None => Err e end.
(** [if !b { return Err(e) }] *)
Definition ensure {E} (b : bool) (e : E) : result E unit :=
  if b then Ok tt else Err e.

Lemma bind_Ok {E A B} (f : A → result E B) (r : result E A) (b : B) :
  r ≫= f = Ok b ↔ ∃ a, r = Ok a ∧ f a = Ok b.
Proof. destruct r; cbn; naive_solver. Qed.

Lemma bind_Err {E A B} (f : A → result E B) (r : result E A) (e : E) :
  r ≫= f = Err e ↔ r = Err e ∨ ∃ a, r = Ok a ∧ f a = Err e.
Proof. destruct r; cbn; naive_solver. Qed.

Lemma ensure_Ok {E} (b : bool) (e : E) u : ensure b e = Ok u ↔ b = true.
Proof. destruct b, u; cbn; naive_solver. Qed.

Lemma map_err_Ok {E F A} (f : E → F) (r : result E A) a :
  map_err f r = Ok a ↔ r = Ok a.
Proof. destruct r; cbn; naive_solver. Qed.

(** ** State and errors

    An operation on [&mut self] that returns a [Result]: the state reached is
    kept when it fails, as the source leaves the fields it has written. *)

Definition SE (S E A : Type) : Type := S → result E A * S.

#[global] Instance SE_ret S E : MRet (SE S E) := λ A a s, (Ok a, s).
#[global] Instance SE_bind S E : MBind (SE S E) := λ A B f m s,
  match m s with (Ok a, s') => f a s' | (Err e, s') => (Err e, s') end.

Definition se_get {S E} : SE S E S := λ s, (Ok s, s).
Definition se_mod {S E} (f : S → S) : SE S E unit := λ s, (Ok tt, f s).
(** [.map_err(f)] *)
Definition se_map_err {S E F A} (f : E → F) (m : SE S E A) : SE S F A :=
  λ s, let '(r, s') := m s in (map_err f r, s').
(** [let _ = m;]: the outcome is discarded, the effects are not. *)
Definition se_try {S E F A} (m : SE S E A) : SE S F (option A) := λ s, let '(r, s') := m s in (Ok (ok r), s').
(** [return Err(e)] *)
Definition fail {S E A} (e : E) : SE S E A := λ s, (Err e, s).
(** A computation that only reads the state. *)
Definition se_read {S E A} (f : S → result E A) : SE S E A := λ s, (f s, s).
(** [for x in l { f(x)?; }] *)
Fixpoint se_for {S E A} (l : list A) (f : A → SE S E unit) : SE S E unit :=
  match l with
  | [] => mret tt
  | x :: l' => f x ≫= λ _, se_for l' f
  end.
(** An operation on a field of the state. *)
Definition zoom {S T E A} (get : S → T) (set : T → S → S) (m : SE T E A) : SE S E A :=
  λ s, match m (get s) with (r, t) => (r, set t s) end.

(** [while let Some(x) = queue.pop_front() { .. }]: the body returns the
    elements it pushes; [e] is the outcome of running out of fuel. *)
Fixpoint se_queue {S E A} (e : E) (fuel : nat) (body : A → SE S E (list A)) (queue : list A) :
    SE S E unit :=
  match queue with
  | [] => mret tt
  | x :: rest =>
      match fuel with
      | O => λ s, (Err e, s)
      | S fuel' => body x ≫= λ pushed, se_queue e fuel' body (rest ++ pushed)
      end
  end.
(** A block with a local variable: its last value is returned. *)
Definition with_local {S T E A} (x : T) (m : SE (S * T) E A) : SE S E (A * T) := λ s,
  match m (s, x) with
  | (Ok a, (s', x')) => (Ok (a, x'), s')
  | (Err e, (s', _)) => (Err e, s')
  end.

Lemma se_bind_Ok {S E A B} (m : SE S E A) (f : A → SE S E B) s b s' :
  (m ≫= f) s = (Ok b, s') ↔ ∃ a s1, m s = (Ok a, s1) ∧ f a s1 = (Ok b, s').
Proof. unfold mbind, SE_bind. destruct (m s) as [[a|e] s1]; naive_solver. Qed.

Lemma se_bind_step {S E A B} (m : SE S E A) (f : A → SE S E B) s a s' :
  m s = (Ok a, s') → (m ≫= f) s = f a s'.
Proof. unfold mbind, SE_bind. by intros ->. Qed.
Lemma se_bind_fail {S E A B} (m : SE S E A) (f : A → SE S E B) s e s' :
  m s = (Err e, s') → (m ≫= f) s = (Err e, s').
Proof. unfold mbind, SE_bind. by intros ->. Qed.

Lemma se_read_step {S E A B} (f : S → result E A) (k : A → SE S E B) s a :
  f s = Ok a → (se_read f ≫= k) s = k a s.
Proof. unfold mbind, SE_bind, se_read. by intros ->. Qed.
Lemma se_read_fail {S E A B} (f : S → result E A) (k : A → SE S E B) s e :
  f s = Err e → (se_read f ≫= k) s = (Err e, s).
Proof. unfold mbind, SE_bind, se_read. by intros ->. Qed.
Lemma se_get_step {S E B} (k : S → SE S E B) s : (se_get ≫= k) s = k s s.
Proof. done. Qed.
Lemma se_mod_step {S E B} f (k : unit → SE S E B) s : (se_mod f ≫= k) s = k tt (f s).
Proof. done. Qed.

(** A state predicate kept by the body is kept by the loop. *)
Lemma se_for_ind {S E A} (P : S → Prop) (l : list A) (f : A → SE S E unit) :
  (∀ x s r s', x ∈ l → P s → f x s = (r, s') → P s') →
  ∀ s r s', P s → se_for l f s = (r, s') → P s'.
Proof.
  induction l as [|x l IH]; intros Hf s r s' Hs Hr; cbn in Hr.
  { unfold mret, SE_ret in Hr. congruence. }
  unfold mbind, SE_bind in Hr. destruct (f x s) as [[[]|e] s1] eqn:Hx.
  - eapply IH; [|eapply Hf; [by left|exact Hs|exact Hx]|exact Hr].
    intros x0 s0 r0 s0' Hin. eapply Hf. by right.
  - injection Hr as <- <-. eapply Hf; [by left|exact Hs|exact Hx].
Qed.

(** *** Frames

    [respects R m]: whatever [m] returns, the state before and after are
    related by [R]. *)
Definition respects {S E A} (R : S → S → Prop) (m : SE S E A) : Prop :=
  ∀ s r s', m s = (r, s') → R s s'.

Section Respects.
Context {S E : Type} (R : S → S → Prop) `{!PreOrder R}.

Lemma respects_ret {A} (a : A) : respects (E:=E) R (mret a).
Proof. intros s r s' [= <- <-]. reflexivity. Qed.
Lemma respects_get : respects (E:=E) R se_get.
Proof. intros s r s' [= <- <-]. reflexivity. Qed.
Lemma respects_read {A} (f : S → result E A) : respects R (se_read f).
Proof. intros s r s' [= <- <-]. reflexivity. Qed.
Lemma respects_mod f : (∀ s, R s (f s)) → respects (E:=E) R (se_mod f).
Proof. intros Hf s r s' [= <- <-]. apply Hf. Qed.
Lemma respects_bind {A B} (m : SE S E A) (k : A → SE S E B) :
  respects R m → (∀ a, respects R (k a)) → respects R (m ≫= k).
Proof.
  intros Hm Hk s r s'. unfold mbind, SE_bind. destruct (m s) as [[a|e] s1] eqn:Hs.
  - intros Hr. transitivity s1; [by eapply Hm|by eapply Hk].
  - intros [= <- <-]. by eapply Hm.
Qed.
Lemma respects_for {A} (l : list A) (f : A → SE S E unit) :
  (∀ x, respects R (f x)) → respects R (se_for l f).
Proof.
  intros Hf. induction l; cbn; [apply respects_ret|]. by apply respects_bind; [|intros _].
Qed.
Lemma respects_queue {A} e fuel (body : A → SE S E (list A)) q :
  (∀ x, respects R (body x)) → respects R (se_queue e fuel body q).
Proof.
  intros Hf. revert q. induction fuel; intros [|x q]; cbn; try apply respects_ret.
  - intros s r s' [= <- <-]. reflexivity.
  - by apply respects_bind; [|intros ?].
Qed.
Lemma respects_local {T A} (x : T) (m : SE (S * T) E A) :
  respects (λ s s', R s.1 s'.1) m → respects R (with_local x m).
Proof.
  intros Hm s r s'. unfold with_local. destruct (m (s, x)) as [[a|e] [s1 x1]] eqn:Hs;
    intros [= <- <-]; apply (Hm _ _ _ Hs).
Qed.
Lemma respects_try {F A} (m : SE S F A) : respects R m → respects (E:=E) R (se_try m).
Proof. intros Hm s r s'. unfold se_try. destruct (m s) as [r1 s1] eqn:Hs. intros [= <- <-]. by eapply Hm. Qed.
Lemma respects_map_err {F A} (f : F → E) (m : SE S F A) : respects R m → respects R (se_map_err f m).
Proof. intros Hm s r s'. unfold se_map_err. destruct (m s) as [r1 s1] eqn:Hs. intros [= <- <-]. by eapply Hm. Qed.
End Respects.

Lemma respects_zoom {S T E A} (R : S → S → Prop) (get : S → T) (set : T → S → S) (m : SE T E A) :
  (∀ s t, (∃ r, m (get s) = (r, t)) → R s (set t s)) → respects R (zoom get set m).
Proof. intros Hm s r s'. unfold zoom. destruct (m (get s)) as [r1 t] eqn:Hs. intros [= <- <-]. eauto. Qed.

Create HintDb frame.
#[export] Hint Resolve respects_ret respects_get respects_read respects_local respects_for respects_queue
  respects_bind respects_try respects_map_err : frame.

(** Decompose the [Ok] equations of a monadic computation. *)
Ltac case_ok :=
  repeat match goal with
  | H : Ok _ = Ok _ |- _ => injection H as H
  | H : Err _ = Err _ |- _ => injection H as H
  | H : Err _ = Ok _ |- _ => discriminate H
  | H : Ok _ = Err _ |- _ => discriminate H
  | H : mbind _ _ = Ok _ |- _ => apply bind_Ok in H as (? & ? & ?)
  | H : ensure _ _ = Ok _ |- _ => apply ensure_Ok in H
  | H : map_err _ _ = Ok _ |- _ => apply map_err_Ok in H
  | H : (_, _) = (_, _) |- _ => injection H as H
  | x : _ * _ |- _ => destruct x
  end; try subst.

(** Turn boolean comparisons into propositions [lia] understands. *)
Ltac bool_to_prop :=
  repeat match goal with
  | H : (_ && _)%bool = true |- _ => apply andb_true_iff in H as [??]
  | H : (_ || _)%bool = false |- _ => apply orb_false_iff in H as [??]
  | H : negb _ = true |- _ => apply negb_true_iff in H
  | H : negb _ = false |- _ => apply negb_false_iff in H
  | H : (_ <? _) = true |- _ => apply Z.ltb_lt in H
  | H : (_ <? _) = false |- _ => apply Z.ltb_ge in H
  | H : (_ <=? _) = true |- _ => apply Z.leb_le in H
  | H : (_ <=? _) = false |- _ => apply Z.leb_gt in H
  | H : (_ =? _) = true |- _ => apply Z.eqb_eq in H
  | H : (_ =? _) = false |- _ => apply Z.eqb_neq in H
  | H : bool_decide _ = true |- _ => apply bool_decide_eq_true_1 in H
  | H : bool_decide _ = false |- _ => apply bool_decide_eq_false_1 in H
  end.

(** Arithmetic at machine width: unfold the operators and their bounds. *)
Ltac mlia :=
  unfold in_u64, in_u128, sat_add64, sat_add128, sat_sub, checked_add128,
    u8_max, u64_max, u128_max in *; lia.

Lemma add64_small a b : 0 <= a + b <= u64_max → add64 a b = a + b.
Proof. intros. unfold add64. apply Z.mod_small. mlia. Qed.
Lemma add128_small a b : 0 <= a + b <= u128_max → add128 a b = a + b.
Proof. intros. unfold add128. apply Z.mod_small. mlia. Qed.
Lemma sub64_small a b : 0 <= a - b <= u64_max → sub64 a b = a - b.
Proof. intros. unfold sub64. apply Z.mod_small. mlia. Qed.
Lemma sub128_small a b : 0 <= a - b <= u128_max → sub128 a b = a - b.
Proof. intros. unfold sub128. apply Z.mod_small. mlia. Qed.
Lemma add64_range a b : in_u64 (add64 a b).
Proof. unfold add64. pose proof (Z.mod_pos_bound (a + b) (u64_max + 1)). mlia. Qed.
Lemma add128_range a b : in_u128 (add128 a b).
Proof. unfold add128. pose proof (Z.mod_pos_bound (a + b) (u128_max + 1)). mlia. Qed.

Create HintDb machine.
#[export] Hint Rewrite add64_small add128_small sub64_small sub128_small
  using mlia : machine.
#[export] Hint Resolve add64_range add128_range : machine.

(** ** Clocks

    An [Instant] is a number of nanoseconds; [duration_since] is zero when the
    other instant is later. *)

Definition NANOS : Z := 1000000000.
Definition from_secs (n : u64) : Z := n * NANOS.
Definition duration_since (now earlier : Z) : Z := sat_sub now earlier.
Definition as_secs (d : Z) : u64 := d / NANOS.

(** ** Bytes *)

Definition is_u8 (b : Z) : bool := (0 <=? b) && (b <? 256).
(** [x.to_le_bytes()] of an [n]-byte integer, and its inverse. *)
Definition to_le_bytes (n : Z) (x : Z) : list u8 := Z_to_little_endian n 8 x.
Definition from_le_bytes (bs : list u8) : Z := little_endian_to_Z 8 bs.
(** [x.to_be_bytes()] and its inverse. *)
Definition to_be_bytes (n : Z) (x : Z) : list u8 := reverse (to_le_bytes n x).
Definition from_be_bytes (bs : list u8) : Z := from_le_bytes (reverse bs).

Lemma length_to_le_bytes n x : 0 <= n → Z.of_nat (length (to_le_bytes n x)) = n.
Proof. apply length_Z_to_little_endian. Qed.

Lemma from_to_le_bytes n x :
  0 <= n → 0 <= x < 2 ^ (8 * n) → from_le_bytes (to_le_bytes n x) = x.
Proof.
  intros Hn Hx. unfold from_le_bytes, to_le_bytes.
  rewrite little_endian_to_Z_to_little_endian by lia.
  apply Z.mod_small. by rewrite (Z.mul_comm n 8).
Qed.

Lemma from_to_be_bytes n x :
  0 <= n → 0 <= x < 2 ^ (8 * n) → from_be_bytes (to_be_bytes n x) = x.
Proof.
  intros. unfold from_be_bytes, to_be_bytes.
  by rewrite reverse_involutive, from_to_le_bytes.
Qed.

Lemma to_le_bytes_inj n x y :
  0 <= n → 0 <= x < 2 ^ (8 * n) → 0 <= y < 2 ^ (8 * n) →
  to_le_bytes n x = to_le_bytes n y → x = y.
Proof.
  intros Hn Hx Hy Heq. rewrite <- (from_to_le_bytes n x), Heq by lia.
  by apply from_to_le_bytes.
Qed.

Lemma length_le8 x : length (to_le_bytes 8 x) = 8%nat.
Proof. pose proof (length_to_le_bytes 8 x). lia. Qed.
Lemma length_le16 x : length (to_le_bytes 16 x) = 16%nat.
Proof. pose proof (length_to_le_bytes 16 x). lia. Qed.
Lemma length_be8 x : length (to_be_bytes 8 x) = 8%nat.
Proof. unfold to_be_bytes. by rewrite length_reverse, length_le8. Qed.

Lemma u64_le_roundtrip x : in_u64 x → from_le_bytes (to_le_bytes 8 x) = x.
Proof. intros. apply from_to_le_bytes; [lia|]. cbn. mlia. Qed.
Lemma u64_be_roundtrip x : in_u64 x → from_be_bytes (to_be_bytes 8 x) = x.
Proof. intros. apply from_to_be_bytes; [lia|]. cbn. mlia. Qed.
Lemma u128_le_roundtrip x : in_u128 x → from_le_bytes (to_le_bytes 16 x) = x.
Proof. intros. apply from_to_le_bytes; [lia|]. cbn. mlia. Qed.

#[export] Hint Rewrite length_le8 length_le16 length_be8 : machine.

Lemma u8_high_bit b n : 0 <= b < 256 → 8 <= n → Z.testbit b n = false.
Proof.
  intros Hb Hn. assert (b < 2 ^ 8) as Hbits by (cbn; lia).
  rewrite Z.bounded_iff_bits_nonneg in Hbits by lia. by apply Hbits.
Qed.

(** Little-endian value of bytes, digit by digit. *)
Lemma from_le_cons b bs :
  0 <= b < 256 → from_le_bytes (b :: bs) = b + 256 * from_le_bytes bs.
Proof.
  intros Hb. unfold from_le_bytes; cbn [little_endian_to_Z].
  set (x := little_endian_to_Z 8 bs). change 256 with (2 ^ 8).
  rewrite Z.mul_comm, <- Z.shiftl_mul_pow2, <- Z.add_lor_land by lia.
  enough (Z.land b (x ≪ 8) = 0) as -> by lia.
  apply Z.bits_inj_iff'. intros n Hn. rewrite Z.land_spec, Z.bits_0.
  destruct (decide (n < 8)).
  - by rewrite Z.shiftl_spec_low, andb_false_r.
  - by rewrite u8_high_bit by lia.
Qed.

Definition bytes_ok (bs : list u8) : Prop := Forall (λ b, 0 <= b < 256) bs.

Lemma from_le_snoc bs b :
  bytes_ok bs → 0 <= b < 256 →
  from_le_bytes (bs ++ [b]) = from_le_bytes bs + b * 256 ^ Z.of_nat (length bs).
Proof.
  intros Hbs Hb. induction Hbs as [|c bs Hc Hbs IH]; cbn [app length].
  - rewrite from_le_cons by done. cbn. lia.
  - rewrite !from_le_cons, IH by done.
    rewrite Nat2Z.inj_succ, Z.pow_succ_r by lia. lia.
Qed.

Lemma from_be_cons b bs :
  bytes_ok bs → 0 <= b < 256 →
  from_be_bytes (b :: bs) = b * 256 ^ Z.of_nat (length bs) + from_be_bytes bs.
Proof.
  intros Hbs Hb. unfold from_be_bytes. rewrite reverse_cons, from_le_snoc, length_reverse; [lia| |done].
  unfold bytes_ok. by rewrite Forall_reverse.
Qed.

Lemma from_be_range bs :
  bytes_ok bs → 0 <= from_be_bytes bs < 256 ^ Z.of_nat (length bs).
Proof.
  induction 1 as [|b bs Hb Hbs IH]; [cbn; lia|].
  rewrite from_be_cons by done. cbn [length]. rewrite Nat2Z.inj_succ, Z.pow_succ_r by lia. nia.
Qed.


(** ** Slices and vectors of the standard library *)

(** [v.sort_by(..)]: a stable sort by a boolean "not after" test. *)
Section SortBy.
Context {A : Type} (leb : A → A → bool).

Fixpoint insert_by (x : A) (l : list A) : list A :=
  match l with
  | [] => [x]
  | y :: l' => if leb x y then x :: l else y :: insert_by x l'
  end.

Definition sort_by (l : list A) : list A := foldr insert_by [] l.

Definition le_of (x y : A) : Prop := leb x y = true.

Lemma insert_by_perm x l : insert_by x l ≡ₚ x :: l.
Proof.
  induction l as [|y l IH]; cbn; [done|].
  destruct (leb x y); [done|]. rewrite IH. apply Permutation_swap.
Qed.

Lemma sort_by_perm l : sort_by l ≡ₚ l.
Proof.
  induction l as [|x l IH]; cbn; [done|]. by rewrite insert_by_perm, IH.
Qed.

Context (leb_total : ∀ x y, leb x y = true ∨ leb y x = true).
Context (leb_trans : ∀ x y z, leb x y = true → leb y z = true → leb x z = true).

Lemma insert_by_sorted x l :
  StronglySorted le_of l → StronglySorted le_of (insert_by x l).
Proof.
  induction 1 as [|y l Hl IH Hy]; cbn; [repeat constructor|].
  destruct (leb x y) eqn:Hxy.
  - constructor; [by constructor|]. constructor; [done|].
    eapply Forall_impl; [exact Hy|]. intros z Hz. by eapply leb_trans.
  - constructor; [done|]. rewrite insert_by_perm. constructor; [|done].
    destruct (leb_total x y); [congruence|done].
Qed.

Lemma sort_by_sorted l : StronglySorted le_of (sort_by l).
Proof. induction l; cbn; [constructor|by apply insert_by_sorted]. Qed.

(** Sorting leaves a sorted vector unchanged (stability on sorted input). *)
Lemma sort_by_id l : StronglySorted le_of l → sort_by l = l.
Proof.
  induction 1 as [|x l Hl IH Hx]; cbn; [done|]. fold (sort_by l). rewrite IH.
  destruct l as [|y l]; cbn; [done|].
  apply Forall_cons in Hx as [Hxy _]. unfold le_of in Hxy. by rewrite Hxy.
Qed.
End SortBy.

Lemma StronglySorted_mono {A} (R S : A → A → Prop) l :
  (∀ x y, R x y → S x y) → StronglySorted R l → StronglySorted S l.
Proof.
  intros Hrs. induction 1 as [|x l Hl IH Hx]; constructor; [done|].
  eapply Forall_impl; [done|]. auto.
Qed.

(** [sort_by_key(|x| k(x))] with an integer key. *)
Definition key_leb {A} (k : A → Z) (x y : A) : bool := k x <=? k y.
Definition sort_by_key {A} (k : A → Z) (l : list A) : list A := sort_by (key_leb k) l.

Lemma key_leb_total {A} (k : A → Z) x y : key_leb k x y = true ∨ key_leb k y x = true.
Proof. unfold key_leb. rewrite !Z.leb_le. lia. Qed.
Lemma key_leb_trans {A} (k : A → Z) x y z :
  key_leb k x y = true → key_leb k y z = true → key_leb k x z = true.
Proof. unfold key_leb. rewrite !Z.leb_le. lia. Qed.

(** [v.contains(&x)] *)
Definition contains {A} `{EqDecision A} (x : A) (l : list A) : bool :=
  bool_decide (x ∈ l).

Lemma forallb_drop {A} (p : A → bool) n l :
  forallb p l = true → forallb p (drop n l) = true.
Proof.
  rewrite <- (take_drop n l) at 1. rewrite forallb_app. by intros [_ ?]%andb_true_iff.
Qed.

(** [v.insert(i, x)]: elements from [i] on move one place to the right. *)
Definition vec_insert {A} (i : nat) (x : A) (l : list A) : list A :=
  take i l ++ x :: drop i l.
(** [v.remove(i)] for [i] in range. *)
Definition vec_remove {A} (i : nat) (l : list A) : list A :=
  take i l ++ drop (S i) l.

Lemma vec_insert_perm {A} i (x : A) l : vec_insert i x l ≡ₚ x :: l.
Proof.
  unfold vec_insert. rewrite <- Permutation_middle. by rewrite take_drop.
Qed.

Lemma vec_remove_perm {A} i (x : A) l :
  l !! i = Some x → l ≡ₚ x :: vec_remove i l.
Proof.
  intros Hi. unfold vec_remove. rewrite Permutation_middle.
  by rewrite <- (take_drop_middle l i x Hi) at 1.
Qed.

(** [v.iter().position(|x| p(x))] *)
Fixpoint position {A} (p : A → bool) (l : list A) : option nat :=
  match l with
  | [] => None
  | x :: l' => if p x then Some 0%nat else S <$> position p l'
  end.

Lemma position_Some {A} (p : A → bool) l i :
  position p l = Some i → ∃ x, l !! i = Some x ∧ p x = true.
Proof.
  revert i. induction l as [|y l IH]; intros i; cbn; [done|].
  destruct (p y) eqn:Hp; [naive_solver|].
  destruct (position p l) as [j|]; cbn; [|done].
  intros [= <-]. by apply IH.
Qed.

Lemma position_None {A} (p : A → bool) l :
  position p l = None ↔ Forall (λ x, p x = false) l.
Proof.
  induction l as [|y l IH]; cbn; [naive_solver|].
  rewrite Forall_cons, <- IH.
  destruct (p y), (position p l); cbn; naive_solver.
Qed.

(** Folding a fallible body over a slice ([for x in v { .. ?; }]). *)
Fixpoint try_fold {E A S} (f : S → A → result E S) (s : S) (l : list A) : result E S :=
  match l with
  | [] => Ok s
  | x :: l' => s' ← f s x; try_fold f s' l'
  end.

(** An invariant of the body is an invariant of the loop. *)
Lemma try_fold_ind {E A S} (f : S → A → result E S) (P : S → Prop) l s s' :
  (∀ t x t', x ∈ l → P t → f t x = Ok t' → P t') →
  P s → try_fold f s l = Ok s' → P s'.
Proof.
  revert s. induction l as [|x l IH]; cbn; intros s Hf Hs Hr; case_ok; [done|].
  eapply IH; [|eapply Hf; [by left|exact Hs|eassumption]|eassumption].
  intros ????. apply Hf. by right.
Qed.

Lemma try_fold_app {E A S} (f : S → A → result E S) l1 l2 s :
  try_fold f s (l1 ++ l2) = (s' ← try_fold f s l1; try_fold f s' l2).
Proof.
  revert s. induction l1 as [|x l1 IH]; intros s; cbn; [done|].
  destruct (f s x); cbn; [apply IH|done].
Qed.

(** ** Sums *)

Definition zsum {A} (f : A → Z) (l : list A) : Z := foldr (λ x, Z.add (f x)) 0 l.

Section Sum.
Context {A : Type} (f : A → Z).

Lemma zsum_cons x l : zsum f (x :: l) = f x + zsum f l.
Proof. done. Qed.
Lemma zsum_app l1 l2 : zsum f (l1 ++ l2) = zsum f l1 + zsum f l2.
Proof. induction l1 as [|x l1 IH]; [done|]. change ((x :: l1) ++ l2) with (x :: (l1 ++ l2)). rewrite !zsum_cons. lia. Qed.
Lemma zsum_snoc l x : zsum f (l ++ [x]) = zsum f l + f x.
Proof. rewrite zsum_app. cbn. lia. Qed.
Lemma zsum_insert l i x y : l !! i = Some x → zsum f (<[i := y]> l) = zsum f l - f x + f y.
Proof.
  revert i. induction l as [|z l IH]; intros [|i] Hi; try done.
  - injection Hi as <-. cbn [insert list_insert]. rewrite !zsum_cons. lia.
  - change (<[S i := y]> (z :: l)) with (z :: <[i := y]> l). rewrite !zsum_cons, (IH i) by done. lia.
Qed.
Lemma zsum_nonneg l : Forall (λ x, 0 <= f x) l → 0 <= zsum f l.
Proof. induction 1; [done|]. rewrite zsum_cons. lia. Qed.
Lemma zsum_elem l x : Forall (λ x, 0 <= f x) l → x ∈ l → f x <= zsum f l.
Proof.
  induction 1 as [|y l Hy Hl IH]; intros Hx; [by apply elem_of_nil in Hx|]. rewrite zsum_cons.
  pose proof (zsum_nonneg l Hl). apply elem_of_cons in Hx as [->|Hx]; [lia|]. specialize (IH Hx). lia.
Qed.
End Sum.

(** ** Loops that fill a map *)

Lemma foldl_filter {A X} (c : X → bool) (f : A → X → A) l a :
  foldl (λ a x, if c x then f a x else a) a l = foldl f a (List.filter c l).
Proof.
  revert a. induction l as [|x l IH]; intros a; cbn; [done|]. destruct (c x); cbn; apply IH.
Qed.

Section FoldInsert.
Context {X K V} `{Countable K} (kf : X → K) (vf : X → V).

Lemma foldl_insert_ne l (m : gmap K V) k :
  (∀ x, x ∈ l → kf x ≠ k) → foldl (λ m x, <[kf x := vf x]> m) m l !! k = m !! k.
Proof.
  revert m. induction l as [|x l IH]; intros m Hne; cbn; [done|].
  rewrite IH by (intros; apply Hne; by right).
  apply lookup_insert_ne, Hne. by left.
Qed.

Lemma foldl_insert_eq l (m : gmap K V) k v :
  (∃ x, x ∈ l ∧ kf x = k) → (∀ x, x ∈ l → kf x = k → vf x = v) →
  foldl (λ m x, <[kf x := vf x]> m) m l !! k = Some v.
Proof.
  induction l as [|y l IH] using rev_ind; intros (x & Hin & Hk) Huniq; [by apply elem_of_nil in Hin|].
  rewrite foldl_app. cbn. destruct (decide (kf y = k)) as [<-|Hne].
  - rewrite lookup_insert_eq. f_equal. apply Huniq; [|done]. apply elem_of_app. right. by left.
  - rewrite lookup_insert_ne by done. apply IH.
    + exists x. split; [|done]. apply elem_of_app in Hin as [?| ->%list_elem_of_singleton]; done.
    + intros z Hz. apply Huniq. apply elem_of_app. by left.
Qed.
End FoldInsert.

(** ** Filters and maps over lists *)

Lemma NoDup_fmap_eq {A B} (f : A → B) l x y : NoDup (f <$> l) → x ∈ l → y ∈ l → f x = f y → x = y.
Proof.
  intros Hnd [i Hi]%list_elem_of_lookup [j Hj]%list_elem_of_lookup Heq.
  assert (i = j) as ->; [|congruence].
  eapply (NoDup_lookup _ i j (f x)); [done|by rewrite list_lookup_fmap, Hi|by rewrite list_lookup_fmap, Hj, Heq].
Qed.

Lemma elem_of_filter_b {A} (f : A → bool) l x : x ∈ List.filter f l ↔ f x = true ∧ x ∈ l.
Proof. rewrite !list_elem_of_In, filter_In. tauto. Qed.

Lemma filter_sublist_split {A} (f : A → bool) l pre x suf : List.filter f l = pre ++ x :: suf →
  ∃ pre' suf', l = pre' ++ x :: suf' ∧ pre = List.filter f pre' ∧ suf = List.filter f suf' ∧ f x = true.
Proof.
  revert pre. induction l as [|a l IH]; intros pre Heq; [by destruct pre|]. cbn in Heq.
  destruct (f a) eqn:Ha.
  - destruct pre as [|b pre]; injection Heq as -> Heq.
    + exists [], l. by rewrite Heq.
    + destruct (IH pre Heq) as (pre' & suf' & -> & -> & -> & Hx). exists (b :: pre'), suf'. cbn. by rewrite Ha.
  - destruct (IH pre Heq) as (pre' & suf' & -> & -> & -> & Hx). exists (a :: pre'), suf'. cbn. by rewrite Ha.
Qed.

Lemma NoDup_filter_b {A B} (f : A → B) (p : A → bool) l : NoDup (f <$> l) → NoDup (f <$> List.filter p l).
Proof.
  induction l as [|x l IH]; [done|]. cbn. intros [Hx Hl]%NoDup_cons. specialize (IH Hl).
  destruct (p x); cbn; [|done]. apply NoDup_cons. split; [|done]. intros Hin. apply Hx.
  apply list_elem_of_fmap in Hin as (y & -> & Hy). apply elem_of_filter_b in Hy as [_ Hy]. by apply list_elem_of_fmap_2.
Qed.

Lemma filter_partition_length {A} (p : A → bool) l :
  (length (List.filter p l) + length (List.filter (λ x, negb (p x)) l) = length l)%nat.
Proof. induction l as [|x l IH]; [done|]. cbn. destruct (p x); cbn; lia. Qed.

Lemma filter_partition_perm {A} (p : A → bool) l : List.filter (λ x, negb (p x)) l ++ List.filter p l ≡ₚ l.
Proof.
  induction l as [|x l IH]; [done|]. cbn. destruct (p x); cbn; [|by rewrite IH].
  by rewrite <- Permutation_middle, IH.
Qed.

Lemma list_filter_none {A} (P : A → Prop) `{!∀ x, Decision (P x)} l : Forall (λ x, ¬ P x) l → filter P l = [].
Proof. induction 1 as [|x l Hx _ IH]; [done|]. by rewrite filter_cons_False. Qed.

Lemma bind_concat {A B} (f : A → list B) (l : list A) : l ≫= f = concat (f <$> l).
Proof. induction l as [|x l IH]; [done|]. cbn. by f_equal. Qed.

Lemma omap_of_fmap {A B C} (f : B → option C) (g : A → B) (l : list A) : omap f (g <$> l) = omap (f ∘ g) l.
Proof. induction l as [|x l IH]; [done|]. cbn. by rewrite IH. Qed.

(** ** Behaviour the standard library leaves open

    [HashSet] and [HashMap] iterate in an unspecified order, and
    [binary_search_by] may return any matching position.  The model takes both
    as operations with the documented contract as their law. *)

Class HashIter := {
  hs_iter : ∀ {A} `{Countable A}, gset A → list A;
  hs_iter_perm : ∀ {A} `{Countable A} (s : gset A), hs_iter s ≡ₚ elements s;
  hm_iter : ∀ {K V} `{Countable K}, gmap K V → list (K * V);
  hm_iter_perm : ∀ {K V} `{Countable K} (m : gmap K V), hm_iter m ≡ₚ map_to_list m;
}.

#[export] Hint Resolve hs_iter_perm hm_iter_perm : core.

Lemma elem_of_hs_iter `{HashIter} {A} `{Countable A} (s : gset A) x :
  x ∈ hs_iter s ↔ x ∈ s.
Proof. by rewrite hs_iter_perm, elem_of_elements. Qed.

Lemma NoDup_hs_iter `{HashIter} {A} `{Countable A} (s : gset A) : NoDup (hs_iter s).
Proof. rewrite hs_iter_perm. apply NoDup_elements. Qed.

Lemma hs_iter_singleton `{HashIter} {A} `{Countable A} (x : A) : hs_iter {[x]} = [x].
Proof.
  apply Permutation_singleton_r. by rewrite hs_iter_perm, elements_singleton.
Qed.

Lemma hs_iter_empty `{HashIter} {A} `{Countable A} : hs_iter (∅ : gset A) = [].
Proof. apply Permutation_nil_r. by rewrite hs_iter_perm, elements_empty. Qed.

(** One admissible order: the one of the finite-set representation. *)
#[refine] Definition canonical_iter : HashIter := {|
  hs_iter := λ _ _ _, elements;
  hm_iter := λ _ _ _ _, map_to_list |}.
Proof. all: done. Defined.

(** Positions are split by [f] into [Lt]s, then [Eq]s, then [Gt]s. *)
Definition partitioned {A} (f : A → comparison) (l : list A) : Prop :=
  ∃ l1 l2 l3, l = l1 ++ l2 ++ l3 ∧ Forall (λ x, f x = Lt) l1 ∧
    Forall (λ x, f x = Eq) l2 ∧ Forall (λ x, f x = Gt) l3.

Class SliceSearch := {
  binary_search_by : ∀ {A}, list A → (A → comparison) → nat + nat;
  (** [Ok(i)]: a matching element. *)
  search_ok : ∀ {A} (l : list A) f i,
    partitioned f l → binary_search_by l f = inl i →
    ∃ x, l !! i = Some x ∧ f x = Eq;
  (** [Err(i)]: no match, and [i] is where one could be inserted. *)
  search_err : ∀ {A} (l : list A) f i,
    partitioned f l → binary_search_by l f = inr i →
    Forall (λ x, f x = Lt) (take i l) ∧ Forall (λ x, f x = Gt) (drop i l);
}.

(** A search that meets the contract: the first position not before the key. *)
Definition linear_search {A} (l : list A) (f : A → comparison) : nat + nat :=
  match position (λ x, match f x with Lt => false | _ => true end) l with
  | Some i =>
      match f <$> l !! i with Some Eq => inl i | _ => inr i end
  | None => inr (length l)
  end.

Lemma position_partitioned {A} (f : A → comparison) l1 l2 :
  Forall (λ x, f x = Lt) l1 →
  position (λ x, match f x with Lt => false | _ => true end) (l1 ++ l2) =
    (λ i, (length l1 + i)%nat) <$>
      position (λ x, match f x with Lt => false | _ => true end) l2.
Proof.
  induction 1 as [|x l1 Hx _ IH]; cbn; [by destruct (position _ l2)|].
  rewrite Hx, IH. by destruct (position _ l2).
Qed.

Lemma linear_search_spec {A} (l : list A) f :
  partitioned f l →
  match linear_search l f with
  | inl i => ∃ x, l !! i = Some x ∧ f x = Eq
  | inr i => Forall (λ x, f x = Lt) (take i l) ∧ Forall (λ x, f x = Gt) (drop i l)
  end.
Proof.
  intros (l1 & l2 & l3 & -> & H1 & H2 & H3). unfold linear_search.
  rewrite (position_partitioned f l1 (l2 ++ l3)) by done.
  destruct l2 as [|y l2]; cbn.
  - destruct l3 as [|z l3]; cbn.
    + rewrite !app_nil_r, take_ge, drop_ge by done. by split; [|constructor].
    + apply Forall_cons in H3 as [Hz H3]. rewrite Hz; cbn.
      rewrite Nat.add_0_r, list_lookup_middle by done; cbn. rewrite Hz.
      rewrite take_app_length, drop_app_length. by split; [|constructor].
  - apply Forall_cons in H2 as [Hy H2]. rewrite Hy; cbn.
    rewrite Nat.add_0_r, list_lookup_middle by done; cbn. rewrite Hy.
    exists y. by rewrite list_lookup_middle.
Qed.

Definition canonical_search : SliceSearch.
Proof.
  refine {| binary_search_by := @linear_search |};
    intros A l f i Hp Hi; pose proof (linear_search_spec l f Hp) as Hs;
    by rewrite Hi in Hs.
Defined.

(** ** Serialization

    [bincode::serialize] / [bincode::deserialize] of a type: encoding may fail,
    and decoding inverts it. *)
Class Codec (A : Type) := {
  serialize : A → option (list u8);
  deserialize : list u8 → option A;
  deserialize_serialize : ∀ a bs, serialize a = Some bs → deserialize bs = Some a;
}.

(** An executable codec for any countable type, one bit per byte. *)
Fixpoint bits_of (p : positive) : list u8 :=
  match p with
  | xH => []
  | xO q => 0 :: bits_of q
  | xI q => 1 :: bits_of q
  end.
Fixpoint of_bits (bs : list u8) : positive :=
  match bs with
  | [] => xH
  | b :: bs' => if b =? 0 then xO (of_bits bs') else xI (of_bits bs')
  end.

Lemma of_bits_of p : of_bits (bits_of p) = p.
Proof. induction p; cbn; by f_equal. Qed.

Definition countable_codec A `{Countable A} : Codec A.
Proof.
  refine {| serialize := λ a, Some (bits_of (encode a));
            deserialize := λ bs, decode (of_bits bs) |}.
  intros a bs [= <-]. by rewrite of_bits_of, decode_encode.
Defined.

(** An executable codec for the entries of a table: the index is the encoding. *)
Definition table_codec {A} `{EqDecision A} (table : list A) : Codec A.
Proof.
  refine {| serialize := λ a, (λ i, [Z.of_nat i]) <$> position (λ x, bool_decide (x = a)) table;
            deserialize := λ bs, match bs with [z] => table !! Z.to_nat z | _ => None end |}.
  intros a bs Hs. destruct (position _ table) as [i|] eqn:Hi; [|done]. injection Hs as <-.
  rewrite Nat2Z.id. apply position_Some in Hi as (x & Hx & Hb). bool_to_prop. by subst.
Defined.
