(* ===== verification/Types.v ===== *)
(** * Types: addresses, hashes, streams and the genesis configuration

    Models [irondag-blockchain/src/types.rs].  An address and a hash are newtypes
    around their bytes; the array lengths (20 and 32) are the invariants
    [address_wf] and [hash_wf].  The [hex] and [sha3] crates are the classes
    [Hex] and [Keccak], with the behaviour the code relies on as their laws. *)

From Stdlib Require Import Ascii.
From S2P Require Import Prelude.

(** ** Addresses and hashes *)

Record Address := MkAddress { addr_bytes : list u8 }.
Record Hash := MkHash { hash_bytes : list u8 }.

#[global] Instance Address_eq_dec : EqDecision Address.
Proof. solve_decision. Defined.
#[global] Instance Hash_eq_dec : EqDecision Hash.
Proof. solve_decision. Defined.
#[global] Instance Address_countable : Countable Address.
Proof. by apply (inj_countable' addr_bytes MkAddress); intros []. Defined.
#[global] Instance Hash_countable : Countable Hash.
Proof. by apply (inj_countable' hash_bytes MkHash); intros []. Defined.

(** [std::net::IpAddr], four or sixteen bytes, and [SocketAddr]. *)
Record IpAddr := MkIp { ip_bytes : list u8 }.
Record SocketAddr := MkSocket { socket_ip : IpAddr; socket_port : Z }.
#[global] Instance IpAddr_eq_dec : EqDecision IpAddr.
Proof. solve_decision. Defined.
#[global] Instance IpAddr_countable : Countable IpAddr.
Proof. by apply (inj_countable' ip_bytes MkIp); intros []. Defined.
#[global] Instance SocketAddr_eq_dec : EqDecision SocketAddr.
Proof. solve_decision. Defined.
#[global] Instance SocketAddr_countable : Countable SocketAddr.
Proof. by apply (inj_countable' (λ s, (socket_ip s, socket_port s)) (λ p, MkSocket p.1 p.2)); intros []. Defined.

Definition bytes_wf (n : nat) (bs : list u8) : bool :=
  (length bs =? n)%nat && forallb is_u8 bs.
Definition address_wf (a : Address) : bool := bytes_wf 20 (addr_bytes a).
Definition hash_wf (h : Hash) : bool := bytes_wf 32 (hash_bytes h).

Lemma bytes_wf_ok n bs : bytes_wf n bs = true → length bs = n ∧ bytes_ok bs.
Proof.
  unfold bytes_wf. intros [Hl Hb]%andb_true_iff. split; [by apply Nat.eqb_eq|].
  apply Forall_forall. intros b Hin.
  rewrite forallb_forall in Hb. specialize (Hb b ltac:(by apply list_elem_of_In)).
  unfold is_u8 in Hb. bool_to_prop. lia.
Qed.

Lemma address_wf_length a : address_wf a = true → length (addr_bytes a) = 20%nat.
Proof. by intros [? _]%bytes_wf_ok. Qed.

Lemma addr_bytes_inj a b : addr_bytes a = addr_bytes b → a = b.
Proof. destruct a, b; cbn; by intros ->. Qed.

Lemma hash_bytes_inj a b : hash_bytes a = hash_bytes b → a = b.
Proof. destruct a, b; cbn; by intros ->. Qed.

Definition address_zero : Address := MkAddress (replicate 20 0).
Definition address_is_zero (a : Address) : bool :=
  bool_decide (addr_bytes a = replicate 20 0).
Definition hash_zero : Hash := MkHash (replicate 32 0).
Definition hash_is_zero (h : Hash) : bool :=
  bool_decide (hash_bytes h = replicate 32 0).

(** ** Hexadecimal text *)

Definition is_ascii_hexdigit (c : Ascii.ascii) : bool :=
  let n := Z.of_nat (Ascii.nat_of_ascii c) in
  ((48 <=? n) && (n <=? 57)) || ((65 <=? n) && (n <=? 70)) || ((97 <=? n) && (n <=? 102)).

Definition all_hexdigits (s : string) : bool :=
  forallb is_ascii_hexdigit (String.list_ascii_of_string s).

(** The [hex] crate: [hex::encode] writes two digits per byte and
    [hex::decode] inverts it; [hex::decode] accepts every even-length string of
    hexadecimal digits, and [hex::encode] writes nothing else. *)
Class Hex := {
  hex_encode : list u8 → string;
  hex_decode : string → option (list u8);
  hex_decode_encode : ∀ bs,
    forallb is_u8 bs = true → hex_decode (hex_encode bs) = Some bs;
  hex_encode_length : ∀ bs, String.length (hex_encode bs) = (2 * length bs)%nat;
  hex_decode_digits : ∀ s n,
    String.length s = (2 * n)%nat → all_hexdigits s = true →
    ∃ bs, hex_decode s = Some bs ∧ length bs = n ∧ forallb is_u8 bs = true;
  hex_encode_digits : ∀ bs, forallb is_u8 bs = true → all_hexdigits (hex_encode bs) = true;
}.

(** [s.strip_prefix("0x").unwrap_or(s)] *)
Definition strip_0x (s : string) : string :=
  match s with
  | String "0"%char (String "x"%char rest) => rest
  | _ => s
  end.

(** [c.to_ascii_lowercase()] and [str::to_lowercase] on ASCII text. *)
Definition to_lower (c : Ascii.ascii) : Ascii.ascii :=
  let n := Ascii.nat_of_ascii c in
  if ((65 <=? n) && (n <=? 90))%nat then Ascii.ascii_of_nat (n + 32) else c.
Fixpoint to_lowercase (s : string) : string :=
  match s with
  | EmptyString => EmptyString
  | String c s' => String (to_lower c) (to_lowercase s')
  end.

Section HexText.
Context `{Hex}.

Definition address_to_hex (a : Address) : string :=
  ("0x" +:+ hex_encode (addr_bytes a))%string.
Definition hash_to_hex (h : Hash) : string :=
  ("0x" +:+ hex_encode (hash_bytes h))%string.

Definition address_from_hex (s : string) : result string Address :=
  let s := strip_0x s in
  _ ← ensure (String.length s =? 40)%nat "Address must be 40 hex chars"%string;
  bytes ← ok_or "Invalid hex"%string (hex_decode s);
  Ok (MkAddress bytes).

Definition hash_from_hex (s : string) : result string Hash :=
  let s := strip_0x s in
  _ ← ensure (String.length s =? 64)%nat "Hash must be 64 hex chars"%string;
  bytes ← ok_or "Invalid hex"%string (hex_decode s);
  Ok (MkHash bytes).

(** ** Genesis configuration *)

Record GenesisAllocation := {
  ga_address : string;
  ga_balance : u128;
}.

Record GenesisConfig := {
  gc_chain_id : u64;
  gc_timestamp : u64;
  gc_allocations : list GenesisAllocation;
}.

Definition DEFAULT_CHAIN_ID : u64 := 11567.

Definition genesis_config_default : GenesisConfig := {|
  gc_chain_id := DEFAULT_CHAIN_ID;
  gc_timestamp := 1735689600;
  gc_allocations :=
    [{| ga_address := "0x7E5F4552091A69125d5DfCb7b8C2659029395Bdf";
        ga_balance := 1000 * 1000000000000000000 |}];
|}.

Definition allocation_validate (ga : GenesisAllocation) : result string unit :=
  let addr_hex := strip_0x (ga_address ga) in
  _ ← ensure (String.length addr_hex =? 40)%nat "Invalid address length"%string;
  _ ← ensure (all_hexdigits addr_hex) "Invalid address format"%string;
  ensure (negb (ga_balance ga =? 0)) "Invalid balance"%string.

Definition normalized_address (ga : GenesisAllocation) : string :=
  to_lowercase (strip_0x (ga_address ga)).

Definition address_bytes (ga : GenesisAllocation) : result string Address :=
  let addr_hex := strip_0x (ga_address ga) in
  _ ← ensure ((String.length addr_hex =? 40)%nat && all_hexdigits addr_hex)
        "Invalid address format"%string;
  bytes ← ok_or "Failed to decode address hex"%string (hex_decode addr_hex);
  Ok (MkAddress bytes).

(** [Ord for GenesisAllocation]: lexicographic on the normalized text. *)
Definition allocation_cmp (a b : GenesisAllocation) : comparison :=
  String.compare (normalized_address a) (normalized_address b).

(** ** Theorems *)

Lemma strip_0x_prefixed s : strip_0x ("0x" +:+ s)%string = s.
Proof. done. Qed.

Lemma bytes_wf_spec n bs :
  bytes_wf n bs = true ↔ length bs = n ∧ forallb is_u8 bs = true.
Proof. unfold bytes_wf. rewrite andb_true_iff, Nat.eqb_eq. done. Qed.

Lemma address_from_hex_wf s a :
  address_from_hex s = Ok a → String.length (strip_0x s) = 40%nat.
Proof. unfold address_from_hex. intros; case_ok. by apply Nat.eqb_eq. Qed.

(** Text round trip: [from_hex] inverts [to_hex] on well-formed values. *)
Lemma address_hex_roundtrip a :
  address_wf a = true → address_from_hex (address_to_hex a) = Ok a.
Proof.
  unfold address_wf. rewrite bytes_wf_spec. intros [Hlen Hu8].
  unfold address_from_hex, address_to_hex. rewrite strip_0x_prefixed.
  rewrite hex_encode_length, Hlen, hex_decode_encode by done. by destruct a.
Qed.

Lemma hash_hex_roundtrip h :
  hash_wf h = true → hash_from_hex (hash_to_hex h) = Ok h.
Proof.
  unfold hash_wf. rewrite bytes_wf_spec. intros [Hlen Hu8].
  unfold hash_from_hex, hash_to_hex. rewrite strip_0x_prefixed.
  rewrite hex_encode_length, Hlen, hex_decode_encode by done. by destruct h.
Qed.

(** A validated allocation always decodes, to a well-formed address. *)
Lemma validate_address_bytes ga :
  allocation_validate ga = Ok tt →
  ∃ a, address_bytes ga = Ok a ∧ address_wf a = true ∧ ga_balance ga ≠ 0.
Proof.
  unfold allocation_validate, address_bytes. intros; case_ok. bool_to_prop.
  apply Nat.eqb_eq in H0 as Hlen.
  destruct (hex_decode_digits _ 20 Hlen H1) as (bs & Hd & Hl & Hu).
  rewrite H0, H1, Hd; cbn. exists (MkAddress bs). split_and!; [done| |done].
  unfold address_wf. by apply bytes_wf_spec.
Qed.
End HexText.

(** ** Mining streams *)

Inductive StreamType := StreamA | StreamB | StreamC.
#[global] Instance StreamType_eq_dec : EqDecision StreamType.
Proof. solve_decision. Defined.

Definition stream_to_bytes (s : StreamType) : list u8 :=
  match s with StreamA => [0] | StreamB => [1] | StreamC => [2] end.

(** ** Keccak-256 *)

(** The [sha3] crate: a digest of 32 bytes. *)
Class Keccak := {
  keccak_digest : list u8 → list u8;
  keccak_digest_wf : ∀ bs, bytes_wf 32 (keccak_digest bs) = true;
}.

Section Derive.
Context `{Keccak}.

Definition keccak256 (data : list u8) : Hash := MkHash (keccak_digest data).

Definition derive_eth_address (public_key : list u8) : Address :=
  let hash := keccak256 public_key in
  MkAddress (drop 12 (hash_bytes hash)).

Lemma keccak256_wf data : hash_wf (keccak256 data) = true.
Proof. apply keccak_digest_wf. Qed.

(** No two of these inputs have the same digest.  Some inputs of any digest
    collide, so a theorem about digests names the inputs that were hashed. *)
Definition digests_distinct (inputs : list (list u8)) : Prop :=
  ∀ x y, x ∈ inputs → y ∈ inputs → keccak_digest x = keccak_digest y → x = y.

Lemma digests_distinct_incl l k : l ⊆ k → digests_distinct k → digests_distinct l.
Proof. intros Hi Hk x y Hx Hy. apply Hk; by apply Hi. Qed.

(** Decided on the list of inputs with their digests. *)
Definition digests_distinctb (inputs : list (list u8)) : bool :=
  let ds := (λ x, (x, keccak_digest x)) <$> inputs in
  forallb (λ a, forallb (λ b, if bool_decide (a.2 = b.2) then bool_decide (a.1 = b.1) else true) ds) ds.
Lemma digests_distinctb_ok l : digests_distinctb l = true → digests_distinct l.
Proof.
  unfold digests_distinctb. rewrite forallb_forall. intros Hd x y Hx Hy Heq.
  assert (∀ z, z ∈ l → In (z, keccak_digest z) ((λ x, (x, keccak_digest x)) <$> l)) as Hin.
  { intros z Hz. apply list_elem_of_In. by apply (list_elem_of_fmap_2 (λ x, (x, keccak_digest x))). }
  pose proof (Hd _ (Hin x Hx)) as Hr. rewrite forallb_forall in Hr. specialize (Hr _ (Hin y Hy)).
  cbn in Hr. rewrite bool_decide_true in Hr by done. by apply bool_decide_eq_true in Hr.
Qed.

Lemma derive_eth_address_wf pk : address_wf (derive_eth_address pk) = true.
Proof.
  unfold address_wf, derive_eth_address; cbn.
  pose proof (keccak_digest_wf pk) as Hwf.
  apply bytes_wf_spec in Hwf as [Hlen Hu]. apply bytes_wf_spec.
  rewrite length_drop, Hlen. split; [done|]. by apply forallb_drop.
Qed.
End Derive.

(** ** Executable instances

    Concrete functions that meet the laws of [Hex] and [Keccak]; they are used
    to evaluate the definitions on examples. *)
Module Reference.
Definition digit_of (n : Z) : ascii :=
  ascii_of_nat (Z.to_nat (if n <? 10 then 48 + n else 87 + n)).
Definition value_of (c : ascii) : option Z :=
  let n := Z.of_nat (nat_of_ascii c) in
  if (48 <=? n) && (n <=? 57) then Some (n - 48)
  else if (65 <=? n) && (n <=? 70) then Some (n - 55)
  else if (97 <=? n) && (n <=? 102) then Some (n - 87)
  else None.

Fixpoint enc (bs : list u8) : string :=
  match bs with
  | [] => EmptyString
  | b :: bs' => String (digit_of (b / 16)) (String (digit_of (b mod 16)) (enc bs'))
  end.
Fixpoint dec (s : string) : option (list u8) :=
  match s with
  | EmptyString => Some []
  | String c1 (String c2 s') =>
      h ← value_of c1; l ← value_of c2; bs ← dec s'; Some (16 * h + l :: bs)
  | _ => None
  end.

Lemma value_of_digit n : 0 <= n < 16 → value_of (digit_of n) = Some n.
Proof.
  intros Hn.
  assert (n = 0 ∨ n = 1 ∨ n = 2 ∨ n = 3 ∨ n = 4 ∨ n = 5 ∨ n = 6 ∨ n = 7 ∨ n = 8 ∨ n = 9 ∨
          n = 10 ∨ n = 11 ∨ n = 12 ∨ n = 13 ∨ n = 14 ∨ n = 15) as Hc by lia.
  by repeat destruct Hc as [-> | Hc]; subst.
Qed.

Lemma value_of_hexdigit c :
  is_ascii_hexdigit c = true → ∃ v, value_of c = Some v ∧ 0 <= v < 16.
Proof.
  unfold is_ascii_hexdigit, value_of. intros Hc.
  repeat case_match; bool_to_prop; first [done | by (eexists; split; [done|lia])].
Qed.

Lemma is_u8_spec b : is_u8 b = true ↔ 0 <= b < 256.
Proof. unfold is_u8. rewrite andb_true_iff, Z.leb_le, Z.ltb_lt. done. Qed.

Lemma dec_enc bs : forallb is_u8 bs = true → dec (enc bs) = Some bs.
Proof.
  induction bs as [|b bs IH]; cbn; [done|].
  intros [Hb Hbs]%andb_true_iff. apply is_u8_spec in Hb.
  pose proof (Z.mod_pos_bound b 16). pose proof (Z.div_mod b 16).
  rewrite (value_of_digit (b / 16)), (value_of_digit (b mod 16)), IH by (done || lia).
  cbn. do 2 f_equal. lia.
Qed.

Lemma enc_length bs : String.length (enc bs) = (2 * length bs)%nat.
Proof. induction bs as [|b bs IH]; cbn; [done|]. rewrite IH. lia. Qed.

Lemma dec_digits s n :
  String.length s = (2 * n)%nat → all_hexdigits s = true →
  ∃ bs, dec s = Some bs ∧ length bs = n ∧ forallb is_u8 bs = true.
Proof.
  revert s. induction n as [|n IH]; intros s Hlen Hd.
  { destruct s; [by exists []|done]. }
  destruct s as [|c1 [|c2 s]]; cbn in Hlen; [lia..|].
  cbn in Hd. apply andb_true_iff in Hd as [H1 Hd].
  apply andb_true_iff in Hd as [H2 Hd].
  destruct (value_of_hexdigit c1 H1) as (h & Hh & ?).
  destruct (value_of_hexdigit c2 H2) as (l & Hl & ?).
  destruct (IH s) as (bs & Hbs & Hn & Hu); [lia|done|].
  exists (16 * h + l :: bs). cbn. rewrite Hh, Hl, Hbs, Hn; cbn.
  split_and!; [done..|]. rewrite Hu, andb_true_r. apply is_u8_spec. lia.
Qed.

Lemma digit_hexdigit n : 0 <= n < 16 → is_ascii_hexdigit (digit_of n) = true.
Proof.
  intros Hn.
  assert (n = 0 ∨ n = 1 ∨ n = 2 ∨ n = 3 ∨ n = 4 ∨ n = 5 ∨ n = 6 ∨ n = 7 ∨ n = 8 ∨ n = 9 ∨
          n = 10 ∨ n = 11 ∨ n = 12 ∨ n = 13 ∨ n = 14 ∨ n = 15) as Hc by lia.
  by repeat destruct Hc as [-> | Hc]; subst.
Qed.
Lemma enc_digits bs : forallb is_u8 bs = true → all_hexdigits (enc bs) = true.
Proof.
  induction bs as [|b bs IH]; cbn; [done|]. intros [Hb Hbs]%andb_true_iff. apply is_u8_spec in Hb.
  pose proof (Z.mod_pos_bound b 16). pose proof (Z.div_mod b 16).
  rewrite !digit_hexdigit by lia. by apply IH.
Qed.

#[local] Instance hex : Hex := {|
  hex_encode := enc; hex_decode := dec; hex_decode_encode := dec_enc;
  hex_encode_length := enc_length; hex_decode_digits := dec_digits; hex_encode_digits := enc_digits |}.

(** A 32-byte digest: the data, folded byte by byte. *)
Definition toy_modulus : Z := Eval vm_compute in 2 ^ 256.
Definition toy_digest (data : list u8) : list u8 :=
  to_le_bytes 32 (foldl (λ acc b, (acc * 257 + b + 1) mod toy_modulus) 7 data).

Lemma le_bytes32_wf z : bytes_wf 32 (to_le_bytes 32 z) = true.
Proof.
  apply bytes_wf_spec. split.
  - pose proof (length_to_le_bytes 32 z). lia.
  - apply forallb_forall. intros b Hb%list_elem_of_In. apply is_u8_spec.
    revert b Hb. apply Forall_forall. change 256 with (2 ^ 8).
    by apply Z_to_little_endian_bound.
Qed.
Lemma toy_digest_wf data : bytes_wf 32 (toy_digest data) = true.
Proof. apply le_bytes32_wf. Qed.

#[local] Instance keccak : Keccak := {|
  keccak_digest := toy_digest; keccak_digest_wf := toy_digest_wf |}.
End Reference.
