(* ===== verification/Block.v ===== *)
(** * Block: transactions, headers and signature verification

    Models [irondag-blockchain/src/blockchain/block.rs] (without the [privacy]
    feature, which is off by default) and [PqAccount::verify_signature] of
    [src/pqc/accounts.rs].  The signature crates ([ed25519-dalek], [k256],
    [pqcrypto-mldsa]) and the RLP encoder are operations of the class [Crypto].
    [SigPanic] stands for a panic of the verifying thread. *)

From S2P Require Import Prelude Types.

(** ** Data *)

Inductive PqAccountType := Dilithium3 | SphincsPlus | PqEd25519.
#[global] Instance PqAccountType_eq_dec : EqDecision PqAccountType.
Proof. solve_decision. Defined.

Record PqSignature := MkPqSignature {
  pq_account_type : PqAccountType;
  pq_sig_bytes : list u8;
  pq_public_key : list u8;
}.
#[global] Instance PqSignature_eq_dec : EqDecision PqSignature.
Proof. solve_decision. Defined.

Definition HASH_VERSION_BLAKE3 : u8 := 1.

Record BlockHeader := MkHeader {
  parent_hashes : list Hash;
  block_number : u64;
  stream_type : StreamType;
  difficulty : u64;
  timestamp : u64;
  hdr_nonce : u64;
  base_fee_per_gas : u128;
  hash_version : u8;
  hdr_pq_signature : option PqSignature;
  miner_pq_pubkey : option (list u8);
}.
#[global] Instance BlockHeader_eq_dec : EqDecision BlockHeader.
Proof. solve_decision. Defined.

Record EcdsaSignature := MkEcdsa {
  ecdsa_r : list u8;
  ecdsa_s : list u8;
  ecdsa_v : u64;
}.
#[global] Instance EcdsaSignature_eq_dec : EqDecision EcdsaSignature.
Proof. solve_decision. Defined.

Record Transaction := MkTx {
  from : Address;
  to : Address;
  value : u128;
  fee : u128;
  nonce : u64;
  data : list u8;
  gas_limit : u64;
  tx_hash : Hash;
  max_fee_per_gas : option u128;
  max_priority_fee_per_gas : option u128;
  signature : list u8;
  public_key : list u8;
  pq_signature : option PqSignature;
  ecdsa_signature : option EcdsaSignature;
  chain_id : option u64;
  execute_at_block : option u64;
  execute_at_timestamp : option u64;
  sponsor : option Address;
  multisig_signatures : option (list (Address * list u8 * list u8));
}.
#[global] Instance Transaction_eq_dec : EqDecision Transaction.
Proof. solve_decision. Defined.

Record Block := MkBlock {
  header : BlockHeader;
  transactions : list Transaction;
  block_hash : Hash;
  zk_proof : option (list u8);
}.
#[global] Instance Block_eq_dec : EqDecision Block.
Proof. solve_decision. Defined.

(** The encoding of a block and of its parts as nested pairs gives the
    countable type an executable codec needs. *)
#[global] Instance PqAccountType_countable : Countable PqAccountType.
Proof.
  by apply (inj_countable'
    (λ t, match t with Dilithium3 => 0 | SphincsPlus => 1 | PqEd25519 => 2 end)
    (λ z, if z =? 0 then Dilithium3 else if z =? 1 then SphincsPlus else PqEd25519));
    intros [].
Defined.
#[global] Instance StreamType_countable : Countable StreamType.
Proof.
  by apply (inj_countable'
    (λ t, match t with StreamA => 0 | StreamB => 1 | StreamC => 2 end)
    (λ z, if z =? 0 then StreamA else if z =? 1 then StreamB else StreamC));
    intros [].
Defined.
#[global] Instance PqSignature_countable : Countable PqSignature.
Proof.
  by apply (inj_countable' (λ s, (pq_account_type s, pq_sig_bytes s, pq_public_key s))
    (λ '(a, b, c), MkPqSignature a b c)); intros [].
Defined.
#[global] Instance EcdsaSignature_countable : Countable EcdsaSignature.
Proof.
  by apply (inj_countable' (λ s, (ecdsa_r s, ecdsa_s s, ecdsa_v s))
    (λ '(a, b, c), MkEcdsa a b c)); intros [].
Defined.
#[global] Instance BlockHeader_countable : Countable BlockHeader.
Proof.
  by apply (inj_countable'
    (λ h, (parent_hashes h, block_number h, stream_type h, difficulty h, timestamp h,
           hdr_nonce h, base_fee_per_gas h, hash_version h, hdr_pq_signature h,
           miner_pq_pubkey h))
    (λ '(a, b, c, d, e, f, g, h, i, j), MkHeader a b c d e f g h i j)); intros [].
Defined.
#[global] Instance Transaction_countable : Countable Transaction.
Proof.
  by apply (inj_countable'
    (λ t, (from t, to t, value t, fee t, nonce t, data t, gas_limit t, tx_hash t,
           max_fee_per_gas t, max_priority_fee_per_gas t, signature t, public_key t,
           pq_signature t, ecdsa_signature t, chain_id t, execute_at_block t,
           execute_at_timestamp t, sponsor t, multisig_signatures t))
    (λ '(a, b, c, d, e, f, g, h, i, j, k, l, m, n, o, p, q, r, s),
       MkTx a b c d e f g h i j k l m n o p q r s)); intros [].
Defined.
#[global] Instance Block_countable : Countable Block.
Proof.
  by apply (inj_countable' (λ b, (header b, transactions b, block_hash b, zk_proof b))
    (λ '(a, b, c, d), MkBlock a b c d)); intros [].
Defined.

(** ** Functional updates of a transaction *)

Definition set_tx_hash (h : Hash) (t : Transaction) : Transaction :=
  MkTx (from t) (to t) (value t) (fee t) (nonce t) (data t) (gas_limit t) h
    (max_fee_per_gas t) (max_priority_fee_per_gas t) (signature t) (public_key t)
    (pq_signature t) (ecdsa_signature t) (chain_id t) (execute_at_block t)
    (execute_at_timestamp t) (sponsor t) (multisig_signatures t).

(** ** Third-party cryptography *)

Class Crypto := {
  (** [ed25519-dalek] *)
  ed25519_public : list u8 → list u8;
  ed25519_sign : list u8 → list u8 → list u8;
  ed25519_key_ok : list u8 → bool;
  ed25519_sig_ok : list u8 → bool;
  ed25519_verify : list u8 → list u8 → list u8 → bool;
  ed25519_verify_strict : list u8 → list u8 → list u8 → bool;
  (** [k256]: public key point recovered from a prehash, a 64-byte signature and
      a recovery id, in uncompressed encoding. *)
  k256_recover : list u8 → list u8 → u8 → option (list u8);
  (** [pqcrypto-mldsa]: the message opened from a signed message. *)
  mldsa65_open : list u8 → list u8 → option (list u8);
  (** [alloy-rlp]: an integer, a slice of bytes, and a [Vec<u8>], which the
      crate writes as a list of integers. *)
  rlp_uint : Z → list u8;
  rlp_bytes : list u8 → list u8;
  rlp_vec : list u8 → list u8;
  (** A signature made with a secret key verifies under its public key. *)
  ed25519_public_length : ∀ sk, length (ed25519_public sk) = 32%nat;
  ed25519_sign_length : ∀ sk m, length (ed25519_sign sk m) = 64%nat;
  ed25519_correct : ∀ sk m,
    ed25519_key_ok (ed25519_public sk) = true ∧
    ed25519_sig_ok (ed25519_sign sk m) = true ∧
    ed25519_verify (ed25519_public sk) m (ed25519_sign sk m) = true;
}.

Section Transactions.
Context `{Keccak, Crypto}.

Definition opt_bytes {A} (f : A → list u8) (o : option A) : list u8 :=
  match o with Some a => f a | None => [] end.

(** The bytes [Transaction::calculate_hash] feeds to the hasher. *)
Definition tx_preimage (t : Transaction) : list u8 :=
  addr_bytes (from t) ++ addr_bytes (to t)
  ++ to_le_bytes 16 (value t) ++ to_le_bytes 16 (fee t) ++ to_le_bytes 8 (nonce t)
  ++ data t ++ to_le_bytes 8 (gas_limit t)
  ++ opt_bytes (to_le_bytes 16) (max_fee_per_gas t)
  ++ opt_bytes (to_le_bytes 16) (max_priority_fee_per_gas t)
  ++ opt_bytes (to_le_bytes 8) (chain_id t)
  ++ opt_bytes (to_le_bytes 8) (execute_at_block t)
  ++ opt_bytes (to_le_bytes 8) (execute_at_timestamp t)
  ++ opt_bytes addr_bytes (sponsor t).

Definition tx_calculate_hash (t : Transaction) : Hash := keccak256 (tx_preimage t).

(** [tx.hash = tx.calculate_hash()] *)
Definition rehash (t : Transaction) : Transaction := set_tx_hash (tx_calculate_hash t) t.

Definition tx_with_data (from to : Address) (value fee : u128) (nonce : u64)
    (data : list u8) (gas_limit : u64) : Transaction :=
  rehash (MkTx from to value fee nonce data gas_limit hash_zero None None
    (replicate 64 0) [] None None None None None None None).

Definition tx_new (from to : Address) (value fee : u128) (nonce : u64) : Transaction :=
  rehash (MkTx from to value fee nonce [] 21000 hash_zero None None
    (replicate 64 0) [] None None None None None None None).

Definition with_chain_id (t : Transaction) (cid : u64) : Transaction :=
  rehash (MkTx (from t) (to t) (value t) (fee t) (nonce t) (data t) (gas_limit t)
    (tx_hash t) (max_fee_per_gas t) (max_priority_fee_per_gas t) (signature t)
    (public_key t) (pq_signature t) (ecdsa_signature t) (Some cid)
    (execute_at_block t) (execute_at_timestamp t) (sponsor t) (multisig_signatures t)).

Definition with_execute_at_block (t : Transaction) (n : u64) : Transaction :=
  rehash (MkTx (from t) (to t) (value t) (fee t) (nonce t) (data t) (gas_limit t)
    (tx_hash t) (max_fee_per_gas t) (max_priority_fee_per_gas t) (signature t)
    (public_key t) (pq_signature t) (ecdsa_signature t) (chain_id t)
    (Some n) (execute_at_timestamp t) (sponsor t) (multisig_signatures t)).

Definition with_execute_at_timestamp (t : Transaction) (n : u64) : Transaction :=
  rehash (MkTx (from t) (to t) (value t) (fee t) (nonce t) (data t) (gas_limit t)
    (tx_hash t) (max_fee_per_gas t) (max_priority_fee_per_gas t) (signature t)
    (public_key t) (pq_signature t) (ecdsa_signature t) (chain_id t)
    (execute_at_block t) (Some n) (sponsor t) (multisig_signatures t)).

Definition with_sponsor (t : Transaction) (s : Address) : Transaction :=
  rehash (MkTx (from t) (to t) (value t) (fee t) (nonce t) (data t) (gas_limit t)
    (tx_hash t) (max_fee_per_gas t) (max_priority_fee_per_gas t) (signature t)
    (public_key t) (pq_signature t) (ecdsa_signature t) (chain_id t)
    (execute_at_block t) (execute_at_timestamp t) (Some s) (multisig_signatures t)).

Definition with_multisig_signatures (t : Transaction)
    (sigs : list (Address * list u8 * list u8)) : Transaction :=
  rehash (MkTx (from t) (to t) (value t) (fee t) (nonce t) (data t) (gas_limit t)
    (tx_hash t) (max_fee_per_gas t) (max_priority_fee_per_gas t) (signature t)
    (public_key t) (pq_signature t) (ecdsa_signature t) (chain_id t)
    (execute_at_block t) (execute_at_timestamp t) (sponsor t) (Some sigs)).

(** [Transaction::sign]: the hash is signed and not recomputed. *)
Definition tx_sign (t : Transaction) (sk : list u8) : Transaction :=
  MkTx (from t) (to t) (value t) (fee t) (nonce t) (data t) (gas_limit t)
    (tx_hash t) (max_fee_per_gas t) (max_priority_fee_per_gas t)
    (ed25519_sign sk (hash_bytes (tx_hash t))) (ed25519_public sk)
    (pq_signature t) (ecdsa_signature t) (chain_id t)
    (execute_at_block t) (execute_at_timestamp t) (sponsor t) (multisig_signatures t).

Definition is_ready_to_execute (t : Transaction) (current_block current_timestamp : u64) : bool :=
  if match execute_at_block t with Some b => current_block <? b | None => false end
  then false
  else if match execute_at_timestamp t with Some s => current_timestamp <? s | None => false end
  then false
  else true.

(** ** Signature verification *)

Inductive SigOutcome := SigOk (b : bool) | SigErr (e : string) | SigPanic.

(** [PqAccount::verify_signature] (default features: no SPHINCS+). *)
Definition pq_verify_signature (message_hash : Hash) (s : PqSignature) : bool :=
  match pq_account_type s with
  | Dilithium3 =>
      match mldsa65_open (pq_sig_bytes s) (pq_public_key s) with
      | Some msg => bool_decide (msg = hash_bytes message_hash)
      | None => false
      end
  | SphincsPlus => false
  | PqEd25519 => false
  end.

(** The chain id and recovery id packed into [v]. *)
Definition split_v (v : u64) : option u64 * u8 :=
  if 35 <=? v then (Some ((v - 35) / 2), (v - 35) mod 2)
  else if 27 <=? v then (None, v - 27)
  else (None, v).

(** The RLP payload an ECDSA signature signs; [None] is the division by zero
    of [fee / gas_limit]. *)
Definition ecdsa_message (t : Transaction) (effective_chain_id : option u64) : option Hash :=
  match effective_chain_id with
  | Some cid =>
      if gas_limit t =? 0 then None else
      Some (keccak256 (rlp_uint (nonce t) ++ rlp_uint (fee t / gas_limit t)
        ++ rlp_uint (gas_limit t)
        ++ (if address_is_zero (to t) then rlp_bytes [] else rlp_bytes (addr_bytes (to t)))
        ++ rlp_uint (value t) ++ rlp_vec (data t)
        ++ rlp_uint cid ++ rlp_uint 0 ++ rlp_uint 0))
  | None =>
      let gas_price := if 0 <? gas_limit t then fee t / gas_limit t else 0 in
      Some (keccak256 (rlp_uint (nonce t) ++ rlp_uint gas_price
        ++ rlp_uint (gas_limit t) ++ rlp_bytes (addr_bytes (to t))
        ++ rlp_uint (value t) ++ rlp_vec (data t)))
  end.

Definition option_or {A} (a b : option A) : option A :=
  match a with Some _ => a | None => b end.

Definition verify_ecdsa_signature (t : Transaction) (es : EcdsaSignature) : SigOutcome :=
  let '(v_chain_id, recovery_id) := split_v (ecdsa_v es) in
  if 4 <=? recovery_id then SigOk false else
  match ecdsa_message t (option_or (chain_id t) v_chain_id) with
  | None => SigPanic
  | Some message_hash =>
      match k256_recover (hash_bytes message_hash) (ecdsa_r es ++ ecdsa_s es) recovery_id with
      | None => SigOk false
      | Some point =>
          match point with
          | b0 :: pub_key =>
              if (length point =? 65)%nat && (b0 =? 4)
              then SigOk (bool_decide (derive_eth_address pub_key = from t))
              else SigOk false
          | [] => SigOk false
          end
      end
  end.

Definition all_zero (bs : list u8) : bool := forallb (λ b, b =? 0) bs.

Definition is_system_shape (t : Transaction) : bool :=
  address_is_zero (from t)
  && ((length (signature t) =? 0)%nat || all_zero (signature t))
  && (length (public_key t) =? 0)%nat.

Definition verify_signature (t : Transaction) (block_height : u64) : SigOutcome :=
  match pq_signature t with
  | Some s => SigOk (pq_verify_signature (tx_hash t) s)
  | None =>
  match ecdsa_signature t with
  | Some es => verify_ecdsa_signature t es
  | None =>
      if is_system_shape t then
        if block_height =? 0 then SigOk true
        else SigErr "system transactions only valid at genesis"
      else if negb (length (signature t) =? 64)%nat then SigOk false
      else if negb (length (public_key t) =? 32)%nat then SigOk false
      else if negb (ed25519_key_ok (public_key t)) then SigOk false
      else if negb (ed25519_sig_ok (signature t)) then SigOk false
      else if ed25519_verify (public_key t) (hash_bytes (tx_hash t)) (signature t)
      then SigOk (bool_decide (derive_eth_address (public_key t) = from t))
      else SigOk false
  end
  end.
End Transactions.

(** ** Theorems *)

Section TransactionTheorems.
Context `{Keccak, Crypto}.

Lemma is_ready_spec t b s :
  is_ready_to_execute t b s = true ↔
  (∀ n, execute_at_block t = Some n → n <= b) ∧
  (∀ n, execute_at_timestamp t = Some n → n <= s).
Proof.
  unfold is_ready_to_execute.
  destruct (execute_at_block t) as [n|], (execute_at_timestamp t) as [m|];
    repeat case_match; bool_to_prop;
    (split; [intros ?; split; intros ? [=]; lia | intros [Hb Hs]; try done]);
    first [specialize (Hb _ eq_refl); lia | specialize (Hs _ eq_refl); lia].
Qed.

Lemma tx_preimage_ignores_signatures t1 t2 :
  from t1 = from t2 → to t1 = to t2 → value t1 = value t2 → fee t1 = fee t2 →
  nonce t1 = nonce t2 → data t1 = data t2 → gas_limit t1 = gas_limit t2 →
  max_fee_per_gas t1 = max_fee_per_gas t2 →
  max_priority_fee_per_gas t1 = max_priority_fee_per_gas t2 →
  chain_id t1 = chain_id t2 → execute_at_block t1 = execute_at_block t2 →
  execute_at_timestamp t1 = execute_at_timestamp t2 → sponsor t1 = sponsor t2 →
  tx_preimage t1 = tx_preimage t2.
Proof. unfold tx_preimage. by intros -> -> -> -> -> -> -> -> -> -> -> -> ->. Qed.

Lemma tx_sign_hash t sk : tx_calculate_hash (tx_sign t sk) = tx_calculate_hash t.
Proof. unfold tx_calculate_hash. f_equal. Qed.

Lemma rehash_hash t : tx_hash (rehash t) = tx_calculate_hash (rehash t).
Proof. reflexivity. Qed.

(** Field ranges of a transaction as the Rust types guarantee them. *)
Definition opt_in (P : Z → Prop) (o : option Z) : Prop :=
  match o with Some x => P x | None => True end.
Definition tx_in_range (t : Transaction) : Prop :=
  address_wf (from t) = true ∧ address_wf (to t) = true ∧
  in_u128 (value t) ∧ in_u128 (fee t) ∧ in_u64 (nonce t) ∧ in_u64 (gas_limit t) ∧
  opt_in in_u128 (max_fee_per_gas t) ∧ opt_in in_u128 (max_priority_fee_per_gas t) ∧
  opt_in in_u64 (chain_id t) ∧ opt_in in_u64 (execute_at_block t) ∧
  opt_in in_u64 (execute_at_timestamp t) ∧
  match sponsor t with Some a => address_wf a = true | None => True end.

(** Which optional fields are present. *)
Definition tx_shape (t : Transaction) : nat * list bool :=
  (length (data t),
   [bool_decide (is_Some (max_fee_per_gas t)); bool_decide (is_Some (max_priority_fee_per_gas t));
    bool_decide (is_Some (chain_id t)); bool_decide (is_Some (execute_at_block t));
    bool_decide (is_Some (execute_at_timestamp t)); bool_decide (is_Some (sponsor t))]).

Lemma le16_inj x y :
  in_u128 x → in_u128 y → to_le_bytes 16 x = to_le_bytes 16 y → x = y.
Proof. intros. apply (to_le_bytes_inj 16); [lia|cbn; mlia|cbn; mlia|done]. Qed.
Lemma le8_inj x y :
  in_u64 x → in_u64 y → to_le_bytes 8 x = to_le_bytes 8 y → x = y.
Proof. intros. apply (to_le_bytes_inj 8); [lia|cbn; mlia|cbn; mlia|done]. Qed.

(** An optional field of fixed width is determined by its bytes once its
    presence is known. *)
Lemma opt_bytes_app_inj {A} (f : A → list u8) (n : nat) (o1 o2 : option A) r1 r2 :
  (∀ a, o1 = Some a ∨ o2 = Some a → length (f a) = n) →
  (∀ a b, o1 = Some a → o2 = Some b → f a = f b → a = b) →
  bool_decide (is_Some o1) = bool_decide (is_Some o2) →
  opt_bytes f o1 ++ r1 = opt_bytes f o2 ++ r2 → o1 = o2 ∧ r1 = r2.
Proof.
  intros Hlen Hinj Hs Heq. destruct o1 as [a|], o2 as [b|]; cbn in *; try done.
  apply app_inj_1 in Heq as [Hab ->]; [|by rewrite !Hlen by auto].
  split; [|done]. f_equal. by apply Hinj.
Qed.

Lemma opt16_app_inj o1 o2 r1 r2 :
  opt_in in_u128 o1 → opt_in in_u128 o2 →
  bool_decide (is_Some o1) = bool_decide (is_Some o2) →
  opt_bytes (to_le_bytes 16) o1 ++ r1 = opt_bytes (to_le_bytes 16) o2 ++ r2 →
  o1 = o2 ∧ r1 = r2.
Proof.
  intros H1 H2. apply (opt_bytes_app_inj _ 16); [intros; apply length_le16|].
  intros a b -> ->. by apply le16_inj.
Qed.
Lemma opt8_app_inj o1 o2 r1 r2 :
  opt_in in_u64 o1 → opt_in in_u64 o2 →
  bool_decide (is_Some o1) = bool_decide (is_Some o2) →
  opt_bytes (to_le_bytes 8) o1 ++ r1 = opt_bytes (to_le_bytes 8) o2 ++ r2 →
  o1 = o2 ∧ r1 = r2.
Proof.
  intros H1 H2. apply (opt_bytes_app_inj _ 8); [intros; apply length_le8|].
  intros a b -> ->. by apply le8_inj.
Qed.

(** For a fixed set of optional fields and data length, two transactions
    with the same hash preimage agree on every field the hash is meant to
    cover. *)
Theorem tx_hash_covers_fields t1 t2 :
  tx_in_range t1 → tx_in_range t2 → tx_shape t1 = tx_shape t2 →
  tx_preimage t1 = tx_preimage t2 →
  from t1 = from t2 ∧ to t1 = to t2 ∧ value t1 = value t2 ∧ fee t1 = fee t2 ∧
  nonce t1 = nonce t2 ∧ data t1 = data t2 ∧ gas_limit t1 = gas_limit t2 ∧
  max_fee_per_gas t1 = max_fee_per_gas t2 ∧
  max_priority_fee_per_gas t1 = max_priority_fee_per_gas t2 ∧
  chain_id t1 = chain_id t2 ∧ execute_at_block t1 = execute_at_block t2 ∧
  execute_at_timestamp t1 = execute_at_timestamp t2 ∧ sponsor t1 = sponsor t2.
Proof.
  intros (F1&T1&V1&E1&N1&G1&M1&P1&C1&B1&S1&A1) (F2&T2&V2&E2&N2&G2&M2&P2&C2&B2&S2&A2) Hs Heq.
  injection Hs as Hd Hs1 Hs2 Hs3 Hs4 Hs5 Hs6. unfold tx_preimage in Heq.
  apply app_inj_1 in Heq as [Hf Heq]; [|by rewrite !address_wf_length].
  apply app_inj_1 in Heq as [Ht Heq]; [|by rewrite !address_wf_length].
  apply app_inj_1 in Heq as [Hv Heq]; [|by rewrite !length_le16].
  apply app_inj_1 in Heq as [He Heq]; [|by rewrite !length_le16].
  apply app_inj_1 in Heq as [Hn Heq]; [|by rewrite !length_le8].
  apply app_inj_1 in Heq as [Hda Heq]; [|done].
  apply app_inj_1 in Heq as [Hg Heq]; [|by rewrite !length_le8].
  apply opt16_app_inj in Heq as [Hm Heq]; [|done..].
  apply opt16_app_inj in Heq as [Hp Heq]; [|done..].
  apply opt8_app_inj in Heq as [Hc Heq]; [|done..].
  apply opt8_app_inj in Heq as [Hb Heq]; [|done..].
  apply opt8_app_inj in Heq as [Hts Heq]; [|done..].
  rewrite <- (app_nil_r (opt_bytes addr_bytes (sponsor t1))) in Heq.
  rewrite <- (app_nil_r (opt_bytes addr_bytes (sponsor t2))) in Heq.
  apply (opt_bytes_app_inj _ 20) in Heq as [Hsp _];
    [|intros a [Ha|Ha]; [rewrite Ha in A1|rewrite Ha in A2]; by apply address_wf_length
     |intros a b _ _; apply addr_bytes_inj|done].
  apply addr_bytes_inj in Hf, Ht. apply le16_inj in Hv, He; [|done..].
  apply le8_inj in Hn, Hg; [|done..]. done.
Qed.

(** What a successful verification establishes about the sender. *)
Definition authenticated (t : Transaction) : Prop :=
  ∃ pk, derive_eth_address pk = from t ∧
    (ed25519_verify pk (hash_bytes (tx_hash t)) (signature t) = true ∨
     ∃ es cid msg rid, ecdsa_signature t = Some es ∧
       split_v (ecdsa_v es) = (cid, rid) ∧
       ecdsa_message t (option_or (chain_id t) cid) = Some msg ∧
       k256_recover (hash_bytes msg) (ecdsa_r es ++ ecdsa_s es) rid = Some (4 :: pk)).

Lemma ecdsa_authenticates t es :
  ecdsa_signature t = Some es →
  verify_ecdsa_signature t es = SigOk true → authenticated t.
Proof.
  unfold verify_ecdsa_signature. intros Hes.
  destruct (split_v (ecdsa_v es)) as [cid rid] eqn:Hv.
  repeat case_match; try done. intros [= Hd]. bool_to_prop. subst.
  eexists. split; [exact Hd|]. right. by eauto 8.
Qed.

(** A transaction without a post-quantum signature that verifies, and is
    not an unsigned system transaction, was signed by the key its sender
    address is derived from (Ed25519 over the hash, or ECDSA over the RLP
    payload). *)
Theorem verify_signature_authenticates t h :
  pq_signature t = None → is_system_shape t = false ∨ ecdsa_signature t ≠ None →
  verify_signature t h = SigOk true → authenticated t.
Proof.
  unfold verify_signature. intros -> Hsys. destruct (ecdsa_signature t) as [es|] eqn:Hes.
  { by apply ecdsa_authenticates. }
  destruct Hsys as [->|?]; [|done].
  repeat case_match; try done. intros [= Hd]. bool_to_prop.
  exists (public_key t). eauto.
Qed.

(** Unsigned transactions of the zero address are accepted in block 0 and
    rejected with an error in every other block. *)
Theorem system_transactions_only_at_genesis t h :
  pq_signature t = None → ecdsa_signature t = None → is_system_shape t = true →
  verify_signature t h =
    if h =? 0 then SigOk true else SigErr "system transactions only valid at genesis".
Proof. unfold verify_signature. by intros -> -> ->. Qed.

(** Signing a transaction with the Ed25519 key of its sender makes it
    verify at every height, and does not change the hash that is checked
    against its fields. *)
Theorem sign_verify_roundtrip t sk h :
  pq_signature t = None → ecdsa_signature t = None →
  derive_eth_address (ed25519_public sk) = from t →
  verify_signature (tx_sign t sk) h = SigOk true ∧
  tx_hash (tx_sign t sk) = tx_hash t ∧
  tx_calculate_hash (tx_sign t sk) = tx_calculate_hash t.
Proof.
  intros Hp He Hd. split; [|by rewrite tx_sign_hash].
  destruct (ed25519_correct sk (hash_bytes (tx_hash t))) as (Hk & Hs & Hv).
  unfold verify_signature, is_system_shape; cbn. rewrite Hp, He.
  rewrite ed25519_public_length, ed25519_sign_length, andb_false_r; cbn.
  rewrite Hk, Hs, Hv, bool_decide_true by done. done.
Qed.

(** The hash does not say which optional field is present: setting the
    chain id, the execution block or the execution timestamp to the same
    number gives the same hash, whatever the other fields. *)
Theorem tx_hash_confuses_optional_fields t n :
  chain_id t = None → execute_at_block t = None → execute_at_timestamp t = None →
  tx_hash (with_chain_id t n) = tx_hash (with_execute_at_block t n) ∧
  tx_hash (with_execute_at_block t n) = tx_hash (with_execute_at_timestamp t n).
Proof.
  intros Hc Hb Hs. unfold with_chain_id, with_execute_at_block, with_execute_at_timestamp.
  cbn. unfold tx_calculate_hash, tx_preimage; cbn. by rewrite Hc, Hb, Hs.
Qed.

(** Post-quantum verification does not look at the sender: a signature of
    any key over the transaction hash is accepted for every sender address. *)
Theorem pq_signature_not_bound_to_sender t s h :
  pq_signature t = Some s → pq_verify_signature (tx_hash t) s = true →
  verify_signature t h = SigOk true.
Proof. unfold verify_signature. by intros -> ->. Qed.

(** An ECDSA-signed transaction with a chain id and gas limit 0 makes the
    verifier divide by zero. *)
Theorem ecdsa_zero_gas_limit_panics t es cid rid h :
  pq_signature t = None → ecdsa_signature t = Some es →
  split_v (ecdsa_v es) = (cid, rid) → rid < 4 →
  is_Some (option_or (chain_id t) cid) → gas_limit t = 0 →
  verify_signature t h = SigPanic.
Proof.
  unfold verify_signature, verify_ecdsa_signature. intros -> -> -> Hr [c ->] Hg.
  rewrite (proj2 (Z.leb_gt 4 rid) Hr). unfold ecdsa_message. by rewrite Hg.
Qed.
End TransactionTheorems.

(** ** Executable instances and examples *)

Module BlockReference.
Definition pad (n : nat) (bs : list u8) : list u8 := take n (bs ++ replicate n 0).

Lemma pad_length n bs : length (pad n bs) = n.
Proof. unfold pad. rewrite length_take, length_app, length_replicate. lia. Qed.

Definition toy_sign (sk m : list u8) : list u8 := pad 64 (pad 32 sk ++ m).

Definition crypto : Crypto.
Proof.
  refine {|
    ed25519_public := pad 32;
    ed25519_sign := toy_sign;
    ed25519_key_ok := λ _, true;
    ed25519_sig_ok := λ _, true;
    ed25519_verify := λ pk m s, bool_decide (s = pad 64 (pk ++ m));
    ed25519_verify_strict := λ pk m s, bool_decide (s = pad 64 (pk ++ m));
    k256_recover := λ h s _, Some (4 :: pad 64 s);
    mldsa65_open := λ sm pk, if bool_decide (take (length pk) sm = pk)
                             then Some (drop (length pk) sm) else None;
    rlp_uint := to_le_bytes 32;
    rlp_bytes := λ bs, bs;
    rlp_vec := λ bs, bs;
  |}.
  - apply pad_length.
  - intros. apply pad_length.
  - intros sk m. split_and!; [done..|]. by apply bool_decide_eq_true_2.
Defined.
#[local] Existing Instance crypto.
#[local] Existing Instance Reference.keccak.

Definition alice_key : list u8 := [1; 2; 3].
Definition alice : Address := derive_eth_address (pad 32 alice_key).
Definition bob : Address := MkAddress (replicate 20 9).
Definition transfer : Transaction := tx_new alice bob 100 10 0.
Definition ecdsa_transfer (gas : u64) : Transaction :=
  MkTx (derive_eth_address (pad 64 (replicate 32 5 ++ replicate 32 6))) bob 100 10 0 [] gas
    hash_zero None None [] [] None
    (Some (MkEcdsa (replicate 32 5) (replicate 32 6) 27)) (Some 11567) None None None None.

Lemma verify_signature_authenticates_witness :
  authenticated (ecdsa_transfer 21000).
Proof.
  apply (verify_signature_authenticates (ecdsa_transfer 21000) 5);
    [reflexivity|by right|vm_compute; reflexivity].
Defined.

Lemma system_transactions_only_at_genesis_witness :
  verify_signature (tx_new address_zero bob 100 0 0) 7 =
    SigErr "system transactions only valid at genesis".
Proof.
  apply (system_transactions_only_at_genesis (tx_new address_zero bob 100 0 0) 7);
    vm_compute; reflexivity.
Defined.

Lemma sign_verify_roundtrip_witness :
  verify_signature (tx_sign transfer alice_key) 3 = SigOk true.
Proof.
  refine (proj1 (sign_verify_roundtrip transfer alice_key 3 _ _ _)); vm_compute; reflexivity.
Defined.

Lemma tx_hash_covers_fields_witness :
  tx_in_range transfer ∧ value transfer = value (tx_sign transfer alice_key).
Proof.
  assert (Hr : tx_in_range transfer) by (vm_compute; split_and!; done).
  assert (Hs : tx_in_range (tx_sign transfer alice_key)) by (vm_compute; split_and!; done).
  assert (Hp : tx_preimage transfer = tx_preimage (tx_sign transfer alice_key))
    by (vm_compute; reflexivity).
  split; [exact Hr|].
  exact (proj1 (proj2 (proj2 (tx_hash_covers_fields transfer
           (tx_sign transfer alice_key) Hr Hs eq_refl Hp)))).
Defined.

Lemma tx_hash_confuses_optional_fields_witness :
  tx_hash (with_chain_id transfer 500) = tx_hash (with_execute_at_block transfer 500).
Proof.
  refine (proj1 (tx_hash_confuses_optional_fields transfer 500 _ _ _));
    vm_compute; reflexivity.
Defined.

(** A transfer out of Bob's account carrying a signature of Alice's PQ key. *)
Definition forged : Transaction :=
  MkTx bob alice 100 10 0 [] 21000 hash_zero None None [] []
    (Some (MkPqSignature Dilithium3 (alice_key ++ replicate 32 0) alice_key))
    None None None None None None.

Lemma pq_signature_not_bound_to_sender_witness : verify_signature forged 3 = SigOk true.
Proof.
  apply (pq_signature_not_bound_to_sender forged
           (MkPqSignature Dilithium3 (alice_key ++ replicate 32 0) alice_key) 3);
    vm_compute; reflexivity.
Defined.

Lemma ecdsa_zero_gas_limit_panics_witness :
  verify_signature (ecdsa_transfer 0) 3 = SigPanic.
Proof.
  apply (ecdsa_zero_gas_limit_panics (ecdsa_transfer 0)
           (MkEcdsa (replicate 32 5) (replicate 32 6) 27) None 0 3);
    first [reflexivity | lia | by eexists].
Defined.
End BlockReference.
