(* ===== verification/Pow.v ===== *)
(** * Pow: proof of work, difficulty and the transactions root

    Models [irondag-blockchain/src/pow.rs]: the difficulty test and its target,
    the header hashes of the three streams (Blake3, B3MemHash, Keccak), the SIMD
    and scalar XOR used by B3MemHash, the mining loop, the difficulty
    adjustment and the Merkle root of the transactions; and
    [Block::calculate_hash] of [src/blockchain/block.rs].  The [blake3] crate is
    the class [Blake3]; an incremental hasher is the digest of the
    concatenation of its updates. *)

From S2P Require Import Prelude Types Block.

Class Blake3 := {
  blake3_digest : list u8 → list u8;
  blake3_digest_wf : ∀ bs, bytes_wf 32 (blake3_digest bs) = true;
}.

(** ** Difficulty *)

Definition MAX_DIFFICULTY : u64 := 21.
Definition MAX_NONCE : u64 := u64_max.

Definition difficulty_to_target (d : u64) : list u8 :=
  let zero_bytes := Z.to_nat (d / 8) in
  let zero_bits_in_last_byte := d mod 8 in
  let target := replicate (Nat.min zero_bytes 32) 0 ++ replicate (32 - Nat.min zero_bytes 32) 255 in
  if (zero_bytes <? 32)%nat && (0 <? zero_bits_in_last_byte)
  then <[zero_bytes := Z.shiftr 255 zero_bits_in_last_byte]> target
  else target.

Definition meets_difficulty (h : Hash) (d : u64) : bool :=
  let zero_bytes := Z.to_nat (d / 8) in
  if negb (forallb (λ b, b =? 0) (take (Nat.min zero_bytes 32) (hash_bytes h))) then false
  else if (zero_bytes <? 32)%nat then
    let zero_bits_in_last_byte := d mod 8 in
    if 0 <? zero_bits_in_last_byte then
      let mask := Z.shiftr 255 zero_bits_in_last_byte in
      negb (mask <? nth zero_bytes (hash_bytes h) 0)
    else true
  else true.

(** [adjust_difficulty] *)
Definition adjust_difficulty (current target_time actual_time : u64) : u64 :=
  if actual_time =? 0 then current else
  let raw_adjustment := target_time * 1000 / actual_time in
  let clamped_adjustment := Z.min (Z.max raw_adjustment 667) 1500 in
  let new_difficulty := Z.min u128_max (current * clamped_adjustment) / 1000 in
  Z.max (Z.min new_difficulty MAX_DIFFICULTY) 1.

Definition adjust_difficulty_moving_average (current target_time : u64)
    (recent_block_times : list u64) : u64 :=
  match recent_block_times with
  | [] => current
  | _ =>
      let sum := foldr Z.add 0 recent_block_times in
      let avg_time := sum / Z.of_nat (length recent_block_times) in
      if avg_time =? 0 then current else
      let raw_adjustment := target_time * 1000 / avg_time in
      let clamped_adjustment := Z.min (Z.max raw_adjustment 667) 1500 in
      let new_difficulty := Z.min u128_max (current * clamped_adjustment) / 1000 in
      Z.max (Z.min new_difficulty MAX_DIFFICULTY) 1
  end.

(** ** XOR of byte slices *)

Definition slice {A} (off n : nat) (l : list A) : list A := take n (drop off l).
(** [dst[off..off + n].copy_from_slice(&w)] *)
Definition write_slice {A} (off n : nat) (w l : list A) : list A :=
  take off l ++ w ++ drop (off + n) l.

(** One machine operation on [n] bytes at [off]. *)
Definition xor_at (n : nat) (op : list u8 → list u8 → list u8) (src : list u8)
    (dst : list u8) (off : nat) : list u8 :=
  write_slice off n (op (slice off n dst) (slice off n src)) dst.

(** [u64] lanes: load little endian, xor, store. *)
Definition xor_u64 (a b : list u8) : list u8 :=
  to_le_bytes 8 (Z.lxor (from_le_bytes a) (from_le_bytes b)).
(** Vector registers and single bytes: every byte at once. *)
Definition xor_lanes (a b : list u8) : list u8 := zip_with Z.lxor a b.

(** The loop of [len / n] operations of [n] bytes, then the remaining bytes. *)
Definition xor_loop (n : nat) (op : list u8 → list u8 → list u8)
    (dst src : list u8) (len : nat) : list u8 :=
  let chunks := (len / n)%nat in
  let dst := foldl (λ d i, xor_at n op src d (i * n)) dst (seq 0 chunks) in
  foldl (xor_at 1 xor_lanes src) dst (seq (chunks * n) (len - chunks * n)).

Definition xor_bytes_scalar (dst src : list u8) (len : nat) : list u8 := xor_loop 8 xor_u64 dst src len.
Definition xor_bytes_avx2 (dst src : list u8) (len : nat) : list u8 := xor_loop 32 xor_lanes dst src len.
Definition xor_bytes_sse2 (dst src : list u8) (len : nat) : list u8 := xor_loop 16 xor_lanes dst src len.

(** [is_x86_feature_detected!] *)
Record CpuFeatures := { has_avx2 : bool; has_sse2 : bool }.

Definition xor_bytes (cpu : CpuFeatures) (dst src : list u8) : list u8 :=
  let len := Nat.min (length dst) (length src) in
  if has_avx2 cpu then xor_bytes_avx2 dst src len
  else if has_sse2 cpu then xor_bytes_sse2 dst src len
  else xor_bytes_scalar dst src len.

(** ** Header hashes *)

Definition set_nonce_hdr (n : u64) (h : BlockHeader) : BlockHeader :=
  MkHeader (parent_hashes h) (block_number h) (stream_type h) (difficulty h) (timestamp h)
    n (base_fee_per_gas h) (hash_version h) (hdr_pq_signature h) (miner_pq_pubkey h).

Definition set_base_fee (fee : u128) (h : BlockHeader) : BlockHeader :=
  MkHeader (parent_hashes h) (block_number h) (stream_type h) (difficulty h) (timestamp h)
    (hdr_nonce h) fee (hash_version h) (hdr_pq_signature h) (miner_pq_pubkey h).

Definition parent_bytes (h : BlockHeader) : list u8 := concat (hash_bytes <$> parent_hashes h).

(** The bytes committed by the Blake3 and B3MemHash proofs of work. *)
Definition pow_input (h : BlockHeader) (transactions_root : Hash) : list u8 :=
  parent_bytes h ++ to_le_bytes 8 (block_number h) ++ to_le_bytes 8 (difficulty h)
  ++ to_le_bytes 8 (timestamp h) ++ to_le_bytes 8 (hdr_nonce h)
  ++ stream_to_bytes (stream_type h) ++ hash_bytes transactions_root ++ [hash_version h].

Fixpoint chunks_fuel {A} (fuel n : nat) (l : list A) : list (list A) :=
  match fuel, l with
  | _, [] => []
  | O, _ => [l]
  | S fuel', _ => take n l :: chunks_fuel fuel' n (drop n l)
  end.
(** [v.chunks(n)] / [v.chunks_mut(n)] *)
Definition chunks {A} (n : nat) (l : list A) : list (list A) := chunks_fuel (length l) n l.

Definition B3MEM_MEMORY_SIZE : nat := Z.to_nat (256 * 1024).
Definition B3MEM_PASSES : nat := 2.

Section HeaderHash.
Context `{Keccak, Blake3}.

Definition hash_blake3 (h : BlockHeader) (transactions_root : Hash) : Hash :=
  MkHash (blake3_digest (pow_input h transactions_root)).

Definition hash_blake3_from_bytes (bs : list u8) : Hash := MkHash (blake3_digest bs).

(** First pass: the seed chain fills every chunk. *)
Fixpoint b3_fill (input seed : list u8) (cs : list (list u8)) : list (list u8) :=
  match cs with
  | [] => []
  | c :: cs' =>
      let hash := blake3_digest (seed ++ input) in
      take (length c) hash :: b3_fill input hash cs'
  end.

(** A mixing pass: the seed chain absorbs and is xored into every chunk. *)
Fixpoint b3_mix (cpu : CpuFeatures) (input mix_seed : list u8) (cs : list (list u8)) : list (list u8) :=
  match cs with
  | [] => []
  | c :: cs' =>
      let hash := blake3_digest (mix_seed ++ c ++ input) in
      xor_bytes cpu c hash :: b3_mix cpu input hash cs'
  end.

Definition b3_pass (cpu : CpuFeatures) (input : list u8) (cs : list (list u8)) (pass : nat) :
    list (list u8) :=
  b3_mix cpu input (blake3_digest (input ++ to_le_bytes 8 (Z.of_nat pass))) cs.

Definition hash_b3memhash_with_buffer (cpu : CpuFeatures) (h : BlockHeader)
    (transactions_root : Hash) (memory : list u8) : Hash :=
  let input := pow_input h transactions_root in
  let filled := b3_fill input (blake3_digest input) (chunks 32 memory) in
  let mixed := foldl (b3_pass cpu input) filled (seq 0 B3MEM_PASSES) in
  MkHash (blake3_digest (input ++ concat mixed)).

(** The thread-local buffer holds whatever the previous call left in it. *)
Definition hash_b3memhash (cpu : CpuFeatures) (buffer : list u8) (h : BlockHeader)
    (transactions_root : Hash) : Hash :=
  hash_b3memhash_with_buffer cpu h transactions_root buffer.

Definition header_preimage (h : BlockHeader) : list u8 :=
  parent_bytes h ++ to_le_bytes 8 (block_number h) ++ stream_to_bytes (stream_type h)
  ++ to_le_bytes 8 (difficulty h) ++ to_le_bytes 8 (timestamp h)
  ++ to_le_bytes 8 (hdr_nonce h) ++ to_le_bytes 16 (base_fee_per_gas h).

Definition calculate_header_hash (h : BlockHeader) : Hash :=
  keccak256 (header_preimage h ++ [hash_version h]).
Definition calculate_signing_hash (h : BlockHeader) : Hash :=
  keccak256 (header_preimage h).

(** ** Transactions root *)

Definition merkle_pair (a b : Hash) : Hash := keccak256 (hash_bytes a ++ hash_bytes b).

(** One level of the tree; an odd last element is paired with itself. *)
Fixpoint merkle_level (level : list Hash) : list Hash :=
  match level with
  | a :: b :: rest => merkle_pair a b :: merkle_level rest
  | [a] => [merkle_pair a a]
  | [] => []
  end.

(** [while current_level.len() > 1]; [None] when the fuel is not enough. *)
Fixpoint merkle_loop (fuel : nat) (level : list Hash) : option Hash :=
  match level with
  | [root] => Some root
  | [] => None
  | _ => match fuel with O => None | S fuel' => merkle_loop fuel' (merkle_level level) end
  end.

Definition calculate_transactions_root (hs : list Hash) : option Hash :=
  match hs with
  | [] => Some (keccak256 (replicate 32 0))
  | [h] => Some h
  | _ => merkle_loop (length hs) hs
  end.

(** The root as a total function ([calculate_transactions_root_total]). *)
Definition transactions_root (hs : list Hash) : Hash :=
  default hash_zero (calculate_transactions_root hs).

(** [Block::calculate_hash] *)
Definition block_calculate_hash (cpu : CpuFeatures) (buffer : list u8) (b : Block) : Hash :=
  let root := transactions_root (tx_hash <$> transactions b) in
  match stream_type (header b) with
  | StreamA => hash_blake3 (header b) root
  | StreamB => hash_b3memhash cpu buffer (header b) root
  | StreamC =>
      keccak256 (hash_bytes (calculate_header_hash (header b))
        ++ concat (hash_bytes <$> (tx_hash <$> transactions b)))
  end.

(** ** Mining loop *)

(** The template of [mine_block] up to and after the nonce placeholder. *)
Definition nonce_offset (h : BlockHeader) : nat :=
  length (parent_bytes h ++ to_le_bytes 8 (block_number h) ++ to_le_bytes 8 (difficulty h)
          ++ to_le_bytes 8 (timestamp h)).
Definition header_template_bytes (h : BlockHeader) (root : Hash) : list u8 :=
  parent_bytes h ++ to_le_bytes 8 (block_number h) ++ to_le_bytes 8 (difficulty h)
  ++ to_le_bytes 8 (timestamp h) ++ to_le_bytes 8 0
  ++ stream_to_bytes (stream_type h) ++ hash_bytes root ++ [hash_version h].

Definition mine_hash (cpu : CpuFeatures) (buffer : list u8) (h : BlockHeader) (root : Hash)
    (st : StreamType) (header_bytes : list u8) (nonce : u64) : Hash :=
  match st with
  | StreamA => hash_blake3_from_bytes header_bytes
  | StreamB => hash_b3memhash cpu buffer (set_nonce_hdr nonce h) root
  | StreamC => hash_blake3_from_bytes header_bytes
  end.

(** The [loop] of [mine_block]; the outer [None] is exhausted fuel. *)
Fixpoint mine_loop (fuel : nat) (cpu : CpuFeatures) (buffer : list u8) (h : BlockHeader)
    (root : Hash) (st : StreamType) (max_nonce nonce : u64) (header_bytes : list u8) :
    option (option (u64 * Hash)) :=
  match fuel with
  | O => None
  | S fuel' =>
      let header_bytes :=
        write_slice (nonce_offset h) 8 (to_le_bytes 8 nonce) header_bytes in
      let hash := mine_hash cpu buffer h root st header_bytes nonce in
      if meets_difficulty hash (difficulty h) then Some (Some (nonce, hash)) else
      let nonce := nonce + 1 in
      if max_nonce <=? nonce then Some None
      else mine_loop fuel' cpu buffer h root st max_nonce nonce header_bytes
  end.

Definition mine_block (fuel : nat) (cpu : CpuFeatures) (buffer : list u8) (h : BlockHeader)
    (root : Hash) (st : StreamType) (max_iterations : option u64) :
    option (option (u64 * Hash)) :=
  mine_loop fuel cpu buffer h root st (default MAX_NONCE max_iterations) 0
    (header_template_bytes h root).
End HeaderHash.

(** ** Difficulty theorems *)

(** The leading-zero test on a byte string of any length, and the value bound
    it is equivalent to. *)
Definition leading_zeros (l : list u8) (k : nat) (r : Z) : bool :=
  forallb (λ b, b =? 0) (take (Nat.min k (length l)) l)
  && (if (k <? length l)%nat && (0 <? r) then nth k l 0 <=? Z.shiftr 255 r else true).

(** The exponent of the bound: [8n - min (8k + r) 8n] bits remain free. *)
Definition free_bits (n k : nat) (r : Z) : Z :=
  8 * Z.of_nat n - Z.min (8 * Z.of_nat k + r) (8 * Z.of_nat n).

Lemma shiftr_255 r : 0 <= r < 8 → Z.shiftr 255 r = 2 ^ (8 - r) - 1.
Proof.
  intros Hr. assert (r = 0 ∨ r = 1 ∨ r = 2 ∨ r = 3 ∨ r = 4 ∨ r = 5 ∨ r = 6 ∨ r = 7) as Hc by lia.
  by repeat destruct Hc as [-> | Hc]; subst.
Qed.

Lemma pow_256 n : 256 ^ Z.of_nat n = 2 ^ (8 * Z.of_nat n).
Proof. by rewrite Z.pow_mul_r by lia. Qed.

Lemma leading_zeros_value l k r :
  bytes_ok l → 0 <= r < 8 →
  leading_zeros l k r = true ↔ from_be_bytes l < 2 ^ free_bits (length l) k r.
Proof.
  intros Hl Hr. revert k. unfold free_bits.
  induction Hl as [|b l Hb Hl IH]; intros k.
  { unfold leading_zeros. cbn [length take Nat.min]. rewrite Nat.min_0_r.
    replace (8 * Z.of_nat 0 - _) with 0 by lia. by cbn. }
  pose proof (from_be_range l Hl) as Hrange. rewrite pow_256 in Hrange.
  rewrite from_be_cons, pow_256 by done. cbn [length].
  destruct k as [|k].
  - unfold leading_zeros. cbn [Nat.min take forallb andb nth length].
    replace (0 <? S (length l))%nat with true by done. cbn [andb].
    replace (8 * Z.of_nat (S (length l)) - Z.min (8 * Z.of_nat 0 + r) (8 * Z.of_nat (S (length l))))
      with ((8 - r) + 8 * Z.of_nat (length l)) by lia.
    rewrite Z.pow_add_r by lia.
    assert (0 < 2 ^ (8 - r)) by (apply Z.pow_pos_nonneg; lia).
    rewrite shiftr_255 by lia. destruct (Z.ltb_spec 0 r).
    + rewrite Z.leb_le. split; nia.
    + replace r with 0 by lia. split; [intros _|done]. change (2 ^ (8 - 0)) with 256. nia.
  - specialize (IH k). unfold leading_zeros in *. cbn [Nat.min length take forallb nth].
    rewrite <- andb_assoc, andb_true_iff.
    change (S k <? S (length l))%nat with (k <? length l)%nat. rewrite IH, Z.eqb_eq.
    replace (8 * Z.of_nat (S (length l)) - Z.min (8 * Z.of_nat (S k) + r) (8 * Z.of_nat (S (length l))))
      with (8 * Z.of_nat (length l) - Z.min (8 * Z.of_nat k + r) (8 * Z.of_nat (length l))) by lia.
    set (e := 8 * Z.of_nat (length l) - _).
    assert (2 ^ e <= 2 ^ (8 * Z.of_nat (length l))) by (apply Z.pow_le_mono_r; lia).
    split; [intros [-> ?]; lia | intros; split; [nia | nia]].
Qed.

Lemma meets_difficulty_leading_zeros h d :
  length (hash_bytes h) = 32%nat →
  meets_difficulty h d = leading_zeros (hash_bytes h) (Z.to_nat (d / 8)) (d mod 8).
Proof.
  intros Hlen. unfold meets_difficulty, leading_zeros. rewrite Hlen.
  destruct (forallb _ _); [|done]. cbn [negb andb].
  destruct (Z.to_nat (d / 8) <? 32)%nat; [|done].
  destruct (0 <? d mod 8); [|done]. cbn [andb].
  destruct (Z.ltb_spec (255 ≫ (d mod 8)) (nth (Z.to_nat (d / 8)) (hash_bytes h) 0)); cbn; symmetry.
  - by apply Z.leb_gt.
  - by apply Z.leb_le.
Qed.

Lemma free_bits_difficulty d :
  0 <= d → free_bits 32 (Z.to_nat (d / 8)) (d mod 8) = 256 - Z.min d 256.
Proof.
  intros Hd. unfold free_bits. rewrite Z2Nat.id by (apply Z.div_pos; lia).
  pose proof (Z.div_mod d 8). lia.
Qed.

(** The target built byte by byte is [2^free - 1]. *)
Definition target_bytes (n k : nat) (r : Z) : list u8 :=
  let target := replicate (Nat.min k n) 0 ++ replicate (n - Nat.min k n) 255 in
  if (k <? n)%nat && (0 <? r) then <[k := Z.shiftr 255 r]> target else target.

Lemma bytes_ok_replicate n b : 0 <= b < 256 → bytes_ok (replicate n b).
Proof. intros. by apply Forall_replicate. Qed.

Lemma from_be_replicate_255 n : from_be_bytes (replicate n 255) = 2 ^ (8 * Z.of_nat n) - 1.
Proof.
  induction n as [|n IH]; [done|]. cbn [replicate].
  rewrite from_be_cons, IH, length_replicate, pow_256 by (try apply bytes_ok_replicate; lia).
  replace (8 * Z.of_nat (S n)) with (8 + 8 * Z.of_nat n) by lia. rewrite Z.pow_add_r by lia.
  change (2 ^ 8) with 256. lia.
Qed.

Lemma target_bytes_spec n k r :
  0 <= r < 8 →
  bytes_ok (target_bytes n k r) ∧ length (target_bytes n k r) = n ∧
  from_be_bytes (target_bytes n k r) = 2 ^ free_bits n k r - 1.
Proof.
  intros Hr. revert k. induction n as [|n IH]; intros k.
  { unfold target_bytes, free_bits. rewrite Nat.min_0_r. cbn [replicate app Nat.sub].
    replace (8 * Z.of_nat 0 - _) with 0 by lia.
    destruct (_ && _); repeat split; apply Forall_nil_2. }
  destruct k as [|k].
  - unfold target_bytes, free_bits. cbn [Nat.min replicate app Nat.sub].
    replace (0 <? S n)%nat with true by done. cbn [andb].
    assert ((if 0 <? r then <[0%nat:=255 ≫ r]> (replicate (S n) 255) else replicate (S n) 255)
            = (255 ≫ r) :: replicate n 255) as Heq.
    { destruct (Z.ltb_spec 0 r); [done|]. by replace r with 0 by lia. }
    cbn [replicate] in *. rewrite Heq.
    rewrite shiftr_255 by lia.
    assert (2 ^ 0 <= 2 ^ (8 - r) <= 2 ^ 8) as Hpow by (split; apply Z.pow_le_mono_r; lia).
    cbn in Hpow. pose proof (bytes_ok_replicate n 255 ltac:(lia)). split_and!.
    + by apply Forall_cons_2; [lia|].
    + cbn. by rewrite length_replicate.
    + rewrite from_be_cons, from_be_replicate_255, length_replicate, pow_256 by (done || lia).
      replace (8 * Z.of_nat (S n) - _) with ((8 - r) + 8 * Z.of_nat n) by lia.
      rewrite Z.pow_add_r by lia. lia.
  - destruct (IH k) as (Hok & Hlen & Hval).
    assert (target_bytes (S n) (S k) r = 0 :: target_bytes n k r) as ->.
    { unfold target_bytes. change (S k <? S n)%nat with (k <? n)%nat.
      cbn [Nat.min replicate app Nat.sub]. by destruct (_ && _). }
    split_and!; [constructor; [lia|exact Hok] | cbn; by rewrite Hlen |].
    rewrite from_be_cons, Hval by (done || lia).
    replace (free_bits (S n) (S k) r) with (free_bits n k r) by (unfold free_bits; lia). lia.
Qed.

Lemma difficulty_to_target_value d :
  0 <= d → from_be_bytes (difficulty_to_target d) = 2 ^ (256 - Z.min d 256) - 1.
Proof.
  intros Hd. rewrite <- free_bits_difficulty by done.
  apply (target_bytes_spec 32). apply Z.mod_pos_bound. lia.
Qed.

(** [meets_difficulty] decides exactly the numeric proof of work test: read
    as a big-endian 256-bit number, the hash passes when it is below
    [2^(256 - difficulty)] (every bit zero from difficulty 256 on), which is
    also when it does not exceed the target built by [difficulty_to_target]. *)
Theorem meets_difficulty_spec h d :
  hash_wf h = true → 0 <= d →
  (meets_difficulty h d = true ↔ from_be_bytes (hash_bytes h) < 2 ^ (256 - Z.min d 256)) ∧
  (meets_difficulty h d = true ↔
   from_be_bytes (hash_bytes h) <= from_be_bytes (difficulty_to_target d)).
Proof.
  intros [Hlen Hok]%bytes_wf_ok Hd.
  rewrite difficulty_to_target_value, meets_difficulty_leading_zeros by done.
  rewrite leading_zeros_value by (done || apply Z.mod_pos_bound; lia).
  rewrite Hlen, free_bits_difficulty by done. lia.
Qed.

(** ** Difficulty adjustment *)

Definition damped (current adjustment : Z) : Z :=
  Z.max (Z.min (current * Z.min (Z.max adjustment 667) 1500 / 1000) MAX_DIFFICULTY) 1.

Lemma adjust_difficulty_damped current target actual :
  in_u64 current → actual ≠ 0 →
  adjust_difficulty current target actual = damped current (target * 1000 / actual).
Proof.
  intros Hc Ha. unfold adjust_difficulty, damped.
  rewrite (proj2 (Z.eqb_neq _ _)) by done.
  set (m := Z.min (Z.max _ 667) 1500). assert (667 <= m <= 1500) by lia.
  rewrite (Z.min_r u128_max); [done|]. unfold in_u64, u64_max, u128_max in *. nia.
Qed.

(** The difficulty adjustment on every branch: a zero interval leaves the
    difficulty alone; otherwise the new difficulty lies between 1 and
    [MAX_DIFFICULTY], is never more than one and a half times the old one
    (or 1), never less than two thirds of it (up to rounding and the cap), and
    blocks slower than the target never raise it, blocks at least as fast never lower
    a difficulty within the cap. *)
Theorem adjust_difficulty_bounds current target actual :
  in_u64 current → in_u64 target → in_u64 actual →
  (actual = 0 → adjust_difficulty current target actual = current) ∧
  (actual ≠ 0 →
    let d := adjust_difficulty current target actual in
    1 <= d <= MAX_DIFFICULTY ∧
    (1 < d → 1000 * d <= 1500 * current) ∧
    (d < MAX_DIFFICULTY → 667 * current < 1000 * (d + 1)) ∧
    (target <= actual → 1 <= current → d <= current) ∧
    (actual <= target → current <= MAX_DIFFICULTY → current <= d)).
Proof.
  intros Hc Ht Ha. split.
  { intros ->. done. }
  intros Ha0. rewrite adjust_difficulty_damped by done. unfold damped, MAX_DIFFICULTY.
  unfold in_u64 in *. set (a := target * 1000 / actual).
  assert (target <= actual → a <= 1000)
    by (intros; apply Z.div_le_upper_bound; lia).
  assert (actual <= target → 1000 <= a)
    by (intros; apply Z.div_le_lower_bound; lia).
  set (m := Z.min (Z.max a 667) 1500). assert (667 <= m <= 1500) by lia.
  pose proof (Z.div_mod (current * m) 1000 ltac:(lia)).
  pose proof (Z.mod_pos_bound (current * m) 1000 ltac:(lia)).
  set (q := current * m / 1000) in *.
  split_and!; intros; try lia; try nia.
Qed.

(** Difficulty 1 is absorbing: one and a half times 1 rounds back to 1, so
    however fast the blocks come, a difficulty that has dropped to 1 stays 1. *)
Theorem difficulty_one_absorbing target actual :
  in_u64 actual → adjust_difficulty 1 target actual = 1.
Proof.
  intros Ha. destruct (decide (actual = 0)) as [-> | Hne]; [done|].
  rewrite adjust_difficulty_damped by (done || unfold in_u64; mlia).
  unfold damped, MAX_DIFFICULTY.
  set (m := Z.min (Z.max _ 667) 1500). assert (667 <= m <= 1500) by lia.
  assert (1 * m / 1000 <= 1) by (apply Z.lt_succ_r, Z.div_lt_upper_bound; lia). lia.
Qed.

(** The moving average is the single adjustment at the average time. *)
Lemma moving_average_adjust current target times :
  times ≠ [] →
  adjust_difficulty_moving_average current target times
  = adjust_difficulty current target (foldr Z.add 0 times / Z.of_nat (length times)).
Proof. by destruct times. Qed.

(** ** XOR kernels *)

Lemma length_slice {A} off n (l : list A) :
  (off + n <= length l)%nat → length (slice off n l) = n.
Proof. intros. unfold slice. rewrite length_take, length_drop. lia. Qed.

Lemma bytes_ok_slice off n l : bytes_ok l → bytes_ok (slice off n l).
Proof. intros. by apply Forall_take, Forall_drop. Qed.

(** Xor with zero on the right of a prefix: the reference of the loops is the
    first [k] bytes xored, the rest untouched. *)
Definition xor_prefix (k : nat) (dst src : list u8) : list u8 :=
  zip_with Z.lxor (take k dst) (take k src) ++ drop k dst.

Lemma length_xor_prefix k dst src :
  (k <= length dst)%nat → (k <= length src)%nat → length (xor_prefix k dst src) = length dst.
Proof.
  intros. unfold xor_prefix.
  rewrite length_app, length_zip_with, !length_take, length_drop. lia.
Qed.

Lemma to_from_le_bytes bs :
  bytes_ok bs → to_le_bytes (Z.of_nat (length bs)) (from_le_bytes bs) = bs.
Proof.
  intros Hbs. unfold to_le_bytes, from_le_bytes.
  by apply Z_to_little_endian_to_Z.
Qed.

Lemma lxor_u8 a b : 0 <= a < 256 → 0 <= b < 256 → 0 <= Z.lxor a b < 256.
Proof.
  intros Ha Hb. change 256 with (2 ^ 8) in *. split; [apply Z.lxor_nonneg; lia|].
  apply Z.bounded_iff_bits_nonneg; [lia | apply Z.lxor_nonneg; lia|].
  intros l Hl. rewrite Z.lxor_spec.
  destruct Ha as [? Ha], Hb as [? Hb].
  rewrite Z.bounded_iff_bits_nonneg in Ha, Hb by lia. by rewrite Ha, Hb.
Qed.

Lemma bytes_ok_zip_lxor a b : bytes_ok a → bytes_ok b → bytes_ok (zip_with Z.lxor a b).
Proof.
  intros Ha. revert b. induction Ha as [|x a Hx Ha IH]; intros b Hb; [constructor|].
  destruct Hb as [|y b Hy Hb]; constructor; [by apply lxor_u8 | by apply IH].
Qed.

Lemma from_le_lxor a b :
  bytes_ok a → bytes_ok b → length a = length b →
  Z.lxor (from_le_bytes a) (from_le_bytes b) = from_le_bytes (zip_with Z.lxor a b).
Proof.
  intros Ha. revert b. induction Ha as [|x a Hx Ha IH]; intros b Hb Hlen.
  { by destruct b. }
  destruct Hb as [|y b Hy Hb]; [done|].
  specialize (IH b Hb ltac:(by injection Hlen)). unfold from_le_bytes in *.
  cbn [zip_with little_endian_to_Z]. rewrite <- IH.
  apply Z.bits_inj_iff'. intros n Hn. rewrite ?Z.lxor_spec, ?Z.lor_spec, ?Z.lxor_spec.
  destruct (decide (n < 8)).
  - by rewrite !Z.shiftl_spec_low, !orb_false_r by done.
  - rewrite !Z.shiftl_spec, Z.lxor_spec by lia.
    by rewrite (u8_high_bit x), (u8_high_bit y) by lia.
Qed.

Lemma xor_u64_lanes a b :
  bytes_ok a → bytes_ok b → length a = 8%nat → length b = 8%nat → xor_u64 a b = xor_lanes a b.
Proof.
  intros Ha Hb Hla Hlb. unfold xor_u64, xor_lanes. rewrite from_le_lxor by congruence.
  rewrite <- (to_from_le_bytes (zip_with Z.lxor a b)) at 2 by by apply bytes_ok_zip_lxor.
  by rewrite length_zip_with, Hla, Hlb.
Qed.

(** One operation of [n] bytes extends the xored prefix by [n]. *)
Lemma xor_at_prefix n op k dst src :
  (∀ a b, bytes_ok a → bytes_ok b → length a = n → length b = n → op a b = xor_lanes a b) →
  bytes_ok dst → bytes_ok src → (k + n <= length dst)%nat → (k + n <= length src)%nat →
  xor_at n op src (xor_prefix k dst src) k = xor_prefix (k + n) dst src.
Proof.
  intros Hop Hd Hs Hld Hls. unfold xor_at.
  assert (length (zip_with Z.lxor (take k dst) (take k src)) = k) as Hlz
    by (rewrite length_zip_with, !length_take; lia).
  assert (slice k n (xor_prefix k dst src) = slice k n dst) as ->.
  { unfold slice, xor_prefix. by rewrite drop_app_length'. }
  rewrite Hop by (try apply bytes_ok_slice; done || apply length_slice; lia).
  unfold write_slice, xor_prefix, xor_lanes, slice.
  rewrite take_app_length' by done.
  rewrite drop_app_ge, Hlz by lia.
  replace (k + n - k)%nat with n by lia. rewrite drop_drop.
  rewrite app_assoc. f_equal.
  rewrite <- !take_take_drop. symmetry. apply zip_with_app. rewrite !length_take. lia.
Qed.

Lemma xor_fold_prefix n op dst src count start :
  (∀ a b, bytes_ok a → bytes_ok b → length a = n → length b = n → op a b = xor_lanes a b) →
  bytes_ok dst → bytes_ok src →
  ((start + count) * n <= length dst)%nat → ((start + count) * n <= length src)%nat →
  foldl (λ d i, xor_at n op src d (i * n)) (xor_prefix (start * n) dst src) (seq start count)
  = xor_prefix ((start + count) * n) dst src.
Proof.
  intros Hop Hd Hs. revert start. induction count as [|count IH]; intros start Hld Hls.
  { by rewrite Nat.add_0_r. }
  cbn [seq foldl]. rewrite xor_at_prefix by (done || nia).
  replace (start * n + n)%nat with (S start * n)%nat by lia.
  rewrite IH by (replace (S start + count)%nat with (start + S count)%nat by lia; done).
  f_equal. lia.
Qed.

Lemma zip_with_take_both' {A B C} (f : A → B → C) l k :
  zip_with f l k
  = zip_with f (take (Nat.min (length l) (length k)) l) (take (Nat.min (length l) (length k)) k).
Proof.
  revert k. induction l as [|x l IH]; intros [|y k]; cbn; [done..|]. by rewrite IH at 1.
Qed.

Lemma foldl_ext' {A B} (f g : A → B → A) l x :
  (∀ a b, f a b = g a b) → foldl f x l = foldl g x l.
Proof. intros Hfg. revert x. induction l as [|b l IH]; intros x; cbn; [done|]. by rewrite Hfg. Qed.

Lemma xor_loop_spec n op dst src len :
  (0 < n)%nat →
  (∀ a b, bytes_ok a → bytes_ok b → length a = n → length b = n → op a b = xor_lanes a b) →
  bytes_ok dst → bytes_ok src → (len <= length dst)%nat → (len <= length src)%nat →
  xor_loop n op dst src len = xor_prefix len dst src.
Proof.
  intros Hn Hop Hd Hs Hld Hls. unfold xor_loop.
  pose proof (Nat.div_mod len n ltac:(lia)) as Hdm.
  assert (len / n * n <= len)%nat by (rewrite Nat.mul_comm; lia).
  replace dst with (xor_prefix (0 * n) dst src) at 1 by done.
  rewrite xor_fold_prefix by (done || rewrite Nat.add_0_l; lia). rewrite Nat.add_0_l.
  set (c := (len / n * n)%nat) in *.
  pose proof (xor_fold_prefix 1 xor_lanes dst src (len - c) c) as Hrest.
  rewrite !Nat.mul_1_r in Hrest. replace (c + (len - c))%nat with len in Hrest by lia.
  rewrite <- Hrest by (done || lia).
  apply foldl_ext'. intros d i. by rewrite Nat.mul_1_r.
Qed.

Lemma xor_bytes_zip cpu dst src :
  bytes_ok dst → bytes_ok src →
  xor_bytes cpu dst src
  = zip_with Z.lxor dst src ++ drop (length src) dst.
Proof.
  intros Hd Hs. unfold xor_bytes, xor_bytes_avx2, xor_bytes_sse2, xor_bytes_scalar.
  set (len := Nat.min (length dst) (length src)).
  transitivity (xor_prefix len dst src).
  - destruct (has_avx2 cpu); [|destruct (has_sse2 cpu)];
      apply xor_loop_spec; (done || lia || auto using xor_u64_lanes).
  - unfold xor_prefix. unfold len. rewrite <- zip_with_take_both'. f_equal.
    destruct (Nat.min_spec (length dst) (length src)) as [[? ->] | [? ->]]; [|done].
    rewrite !drop_ge by lia. done.
Qed.

(** Whichever kernel the processor selects (AVX2, SSE2 or the [u64] lanes of
    the scalar fallback), [xor_bytes] xors byte by byte over the common length
    and leaves the rest of the destination alone; so B3MemHash does not depend
    on the machine. *)
Theorem xor_bytes_spec cpu dst src :
  bytes_ok dst → bytes_ok src →
  xor_bytes cpu dst src
  = zip_with Z.lxor dst src ++ drop (length src) dst.
Proof. apply xor_bytes_zip. Qed.

(** ** Mining *)

Section MiningTheorems.
Context `{Keccak, Blake3}.

(** The proof of work hash a block of stream [st] is mined against. *)
Definition pow_hash (cpu : CpuFeatures) (buffer : list u8) (root : Hash) (st : StreamType)
    (h : BlockHeader) : Hash :=
  match st with
  | StreamB => hash_b3memhash cpu buffer h root
  | _ => hash_blake3 h root
  end.

(** The nonce [n] solves the proof of work of [h]. *)
Definition solves (cpu : CpuFeatures) (buffer : list u8) (root : Hash) (st : StreamType)
    (h : BlockHeader) (n : u64) : bool :=
  meets_difficulty (pow_hash cpu buffer root st (set_nonce_hdr n h)) (difficulty h).

(** The nonce window of the mining buffer: everything else is fixed. *)
Definition mining_buffer (h : BlockHeader) (root : Hash) (w : list u8) : list u8 :=
  (parent_bytes h ++ to_le_bytes 8 (block_number h) ++ to_le_bytes 8 (difficulty h)
   ++ to_le_bytes 8 (timestamp h)) ++ w
  ++ stream_to_bytes (stream_type h) ++ hash_bytes root ++ [hash_version h].

Lemma write_nonce h root w n :
  length w = 8%nat →
  write_slice (nonce_offset h) 8 (to_le_bytes 8 n) (mining_buffer h root w)
  = mining_buffer h root (to_le_bytes 8 n).
Proof.
  intros Hw. unfold write_slice, mining_buffer, nonce_offset.
  set (pre := parent_bytes h ++ _).
  rewrite take_app_length, drop_app_ge by lia.
  replace (length pre + 8 - length pre)%nat with 8%nat by lia.
  by rewrite drop_app_length'.
Qed.

Lemma mining_buffer_input h root n :
  mining_buffer h root (to_le_bytes 8 n) = pow_input (set_nonce_hdr n h) root.
Proof. unfold mining_buffer, pow_input. cbn. by rewrite <- !app_assoc. Qed.

Lemma mine_hash_pow cpu buffer h root st n :
  mine_hash cpu buffer h root st (mining_buffer h root (to_le_bytes 8 n)) n
  = pow_hash cpu buffer root st (set_nonce_hdr n h).
Proof. rewrite mining_buffer_input. by destruct st. Qed.

Lemma mine_loop_spec fuel cpu buffer h root st max_nonce nonce w :
  length w = 8%nat → 0 <= nonce →
  Z.max 1 (max_nonce - nonce) <= Z.of_nat fuel →
  ∃ r, mine_loop fuel cpu buffer h root st max_nonce nonce (mining_buffer h root w) = Some r ∧
  match r with
  | Some (n, hash) =>
      nonce <= n < Z.max (nonce + 1) max_nonce ∧
      hash = pow_hash cpu buffer root st (set_nonce_hdr n h) ∧
      solves cpu buffer root st h n = true ∧
      (∀ m, nonce <= m < n → solves cpu buffer root st h m = false)
  | None => ∀ m, nonce <= m < Z.max (nonce + 1) max_nonce → solves cpu buffer root st h m = false
  end.
Proof.
  revert nonce w. induction fuel as [|fuel IH]; intros nonce w Hw Hn Hf; [lia|].
  cbn [mine_loop]. rewrite write_nonce, mine_hash_pow by done.
  fold (solves cpu buffer root st h nonce).
  destruct (solves cpu buffer root st h nonce) eqn:Hs.
  { eexists; split; [done|]; cbn. split_and!; try done; lia. }
  destruct (Z.leb_spec max_nonce (nonce + 1)) as [Hle|Hlt].
  { eexists; split; [done|]; cbn. intros m Hm. by replace m with nonce by lia. }
  destruct (IH (nonce + 1) (to_le_bytes 8 nonce)) as (r & Hr & Hspec);
    [by rewrite length_le8 | lia | lia |].
  exists r. split; [done|].
  assert (∀ m, nonce <= m → nonce + 1 <= m ∨ m = nonce) as Hcase by lia.
  destruct r as [[n hash]|].
  - destruct Hspec as (? & ? & ? & Hleast). split_and!; try done; try lia.
    intros m Hm. destruct (Hcase m) as [? | ->]; [lia | apply Hleast; lia | done].
  - intros m Hm. destruct (Hcase m) as [? | ->]; [lia | apply Hspec; lia | done].
Qed.

(** C25: sequential mining is correct, least and complete.  With fuel for every
    admissible nonce [mine_block] returns; a nonce it returns is the least
    one whose block hash, computed by the ordinary header hash of the stream, meets the
    difficulty, and the returned hash is that hash although the loop only patches eight bytes of a
    prepared buffer; it gives up only when no nonce below the limit (nonce 0
    at least) solves the block. *)
Theorem mine_block_correct fuel cpu buffer h root st max_iterations :
  Z.max 1 (default MAX_NONCE max_iterations) <= Z.of_nat fuel →
  ∃ r, mine_block fuel cpu buffer h root st max_iterations = Some r ∧
  match r with
  | Some (n, hash) =>
      0 <= n < Z.max 1 (default MAX_NONCE max_iterations) ∧
      hash = pow_hash cpu buffer root st (set_nonce_hdr n h) ∧
      meets_difficulty hash (difficulty h) = true ∧
      (∀ m, 0 <= m < n → solves cpu buffer root st h m = false)
  | None => ∀ m, 0 <= m < Z.max 1 (default MAX_NONCE max_iterations) →
              solves cpu buffer root st h m = false
  end.
Proof.
  intros Hf. unfold mine_block. set (mx := default MAX_NONCE max_iterations) in *.
  replace (header_template_bytes h root) with (mining_buffer h root (to_le_bytes 8 0))
    by (unfold mining_buffer, header_template_bytes; by rewrite <- !app_assoc).
  destruct (mine_loop_spec fuel cpu buffer h root st mx 0 (to_le_bytes 8 0))
    as (r & Hr & Hspec); [apply length_le8 | lia | lia |].
  exists r. split; [done|]. destruct r as [[n hash]|]; [|done].
  destruct Hspec as (? & -> & ? & ?). split_and!; try done; lia.
Qed.
End MiningTheorems.

(** ** The B3MemHash buffer *)

Section BufferTheorems.
Context `{Keccak, Blake3}.

Lemma length_chunks_fuel {A B} fuel n (l : list A) (k : list B) :
  length l = length k →
  length <$> chunks_fuel fuel n l = length <$> chunks_fuel fuel n k.
Proof.
  revert l k. induction fuel as [|fuel IH]; intros l k Hlen.
  { destruct l, k; cbn in *; [done.. | by simplify_eq; f_equal; f_equal]. }
  destruct l as [|x l], k as [|y k]; [done.. |]. cbn [chunks_fuel fmap list_fmap].
  f_equal; [by rewrite !length_take, Hlen|]. apply IH. by rewrite !length_drop, Hlen.
Qed.

Lemma b3_fill_lengths input seed cs cs' :
  length <$> cs = length <$> cs' → b3_fill input seed cs = b3_fill input seed cs'.
Proof.
  revert seed cs'. induction cs as [|c cs IH]; intros seed [|c' cs'] Heq; [done..|].
  cbn in *. injection Heq as Hc Hcs. rewrite Hc. f_equal. by apply IH.
Qed.

Lemma digest_ok bs : bytes_ok (blake3_digest bs).
Proof. by apply (bytes_wf_ok 32), blake3_digest_wf. Qed.

Lemma b3_fill_ok input seed cs : Forall bytes_ok (b3_fill input seed cs).
Proof.
  revert seed. induction cs as [|c cs IH]; intros seed; [constructor|].
  cbn. constructor; [|apply IH]. apply Forall_take, digest_ok.
Qed.

Lemma xor_bytes_ok cpu dst src : bytes_ok dst → bytes_ok src → bytes_ok (xor_bytes cpu dst src).
Proof.
  intros. rewrite xor_bytes_zip by done. apply Forall_app_2.
  - by apply bytes_ok_zip_lxor.
  - by apply Forall_drop.
Qed.

Lemma b3_mix_cpu cpu cpu' input seed cs :
  Forall bytes_ok cs →
  b3_mix cpu input seed cs = b3_mix cpu' input seed cs ∧ Forall bytes_ok (b3_mix cpu input seed cs).
Proof.
  intros Hcs. revert seed. induction Hcs as [|c cs Hc Hcs IH]; intros seed; [done|]. cbn.
  set (d := blake3_digest (seed ++ c ++ input)).
  pose proof (digest_ok (seed ++ c ++ input)) as Hd. fold d in Hd.
  destruct (IH d) as [Heq Hok]. split; [by rewrite !xor_bytes_zip, Heq|].
  constructor; [by apply xor_bytes_ok | done].
Qed.

Lemma b3_passes_cpu cpu cpu' input passes cs :
  Forall bytes_ok cs →
  foldl (b3_pass cpu input) cs passes = foldl (b3_pass cpu' input) cs passes.
Proof.
  revert cs. induction passes as [|p passes IH]; intros cs Hcs; cbn [foldl]; [done|].
  unfold b3_pass at 2 4. edestruct (b3_mix_cpu cpu cpu') as [Heq Hok]; [done|].
  rewrite <- Heq. by apply IH.
Qed.

(** The memory-hard hash is a function of the header and the transactions
    root alone: neither what the previous hash left in the reused
    thread-local buffer nor the vector unit of the processor changes it, so every node
    computes the same Stream B hash. *)
Theorem b3memhash_deterministic cpu cpu' buffer buffer' h root :
  length buffer = length buffer' →
  hash_b3memhash cpu buffer h root = hash_b3memhash cpu' buffer' h root.
Proof.
  intros Hlen. unfold hash_b3memhash, hash_b3memhash_with_buffer, chunks.
  rewrite Hlen.
  rewrite (b3_fill_lengths _ _ (chunks_fuel _ 32 buffer) (chunks_fuel (length buffer') 32 buffer'))
    by by apply length_chunks_fuel.
  rewrite (b3_passes_cpu cpu cpu'); [done | apply b3_fill_ok].
Qed.

(** The base fee of a block is outside the proof of work of the mined
    streams: two Stream A or B blocks that differ only in
    [base_fee_per_gas] have the same block hash. *)
Theorem block_hash_ignores_base_fee cpu buffer b fee :
  stream_type (header b) ≠ StreamC →
  block_calculate_hash cpu buffer b =
  block_calculate_hash cpu buffer
    (MkBlock (set_base_fee fee (header b)) (transactions b) (block_hash b) (zk_proof b)).
Proof. intros Hs. unfold block_calculate_hash. cbn. by destruct (stream_type (header b)). Qed.
End BufferTheorems.

(** ** Merkle root *)

Section MerkleTheorems.
Context `{Keccak}.

Lemma list_pair_ind {A} (P : list A → Prop) :
  P [] → (∀ a, P [a]) → (∀ a b l, P l → P (a :: b :: l)) → ∀ l, P l.
Proof.
  intros H0 H1 H2 l. enough (P l ∧ ∀ a, P (a :: l)) by tauto.
  induction l as [|a l [IH IH']]; split; auto.
Qed.

Lemma length_merkle_level l : length (merkle_level l) = ((length l + 1) / 2)%nat.
Proof.
  induction l as [|a|a b l IH] using list_pair_ind; [done..|].
  cbn [merkle_level length]. rewrite IH.
  replace (S (S (length l)) + 1)%nat with (length l + 1 + 1 * 2)%nat by lia.
  rewrite Nat.div_add by lia. lia.
Qed.

Lemma merkle_level_shrinks l : (2 <= length l)%nat → (1 <= length (merkle_level l) < length l)%nat.
Proof.
  intros Hl. rewrite length_merkle_level. split.
  - apply Nat.div_le_lower_bound; lia.
  - apply Nat.div_lt_upper_bound; lia.
Qed.

Lemma merkle_level_wf l : Forall (λ h, hash_wf h = true) (merkle_level l).
Proof.
  induction l as [|a|a b l IH] using list_pair_ind; repeat constructor; try done;
    apply keccak_digest_wf.
Qed.

Lemma merkle_loop_total fuel l :
  l ≠ [] → (length l <= S fuel)%nat → is_Some (merkle_loop fuel l).
Proof.
  revert l. induction fuel as [|fuel IH]; intros [|a [|b l]] Hne Hf; try done; cbn in Hf; [lia|].
  cbn [merkle_loop]. pose proof (merkle_level_shrinks (a :: b :: l) ltac:(cbn; lia)) as Hs.
  apply IH; [intros Hnil; rewrite Hnil in Hs; cbn in Hs; lia | cbn [length] in *; lia].
Qed.

Lemma calculate_transactions_root_total hs : is_Some (calculate_transactions_root hs).
Proof.
  destruct hs as [|a [|b hs]]; [done..|]. apply merkle_loop_total; [done|]. cbn; lia.
Qed.

(** What is hashed at one level of the tree, and at all of them. *)
Fixpoint level_inputs (level : list Hash) : list (list u8) :=
  match level with
  | a :: b :: rest => (hash_bytes a ++ hash_bytes b) :: level_inputs rest
  | [a] => [hash_bytes a ++ hash_bytes a]
  | [] => []
  end.
Fixpoint merkle_inputs (fuel : nat) (level : list Hash) : list (list u8) :=
  match level with
  | [] | [_] => []
  | _ => level_inputs level ++ match fuel with O => [] | S fuel' => merkle_inputs fuel' (merkle_level level) end
  end.

Lemma merkle_pair_inj inputs a b c d :
  hash_wf a = true → hash_wf c = true → digests_distinct inputs →
  (hash_bytes a ++ hash_bytes b) ∈ inputs → (hash_bytes c ++ hash_bytes d) ∈ inputs →
  merkle_pair a b = merkle_pair c d → a = c ∧ b = d.
Proof.
  intros [Ha _]%bytes_wf_ok [Hc _]%bytes_wf_ok Hd Hab Hcd [= Heq]. apply (Hd _ _ Hab Hcd) in Heq.
  apply app_inj_1 in Heq as [? ?]; [|congruence]. destruct a, b, c, d; naive_solver.
Qed.

Lemma merkle_level_inj l k :
  Forall (λ h, hash_wf h = true) l → Forall (λ h, hash_wf h = true) k →
  length l = length k → digests_distinct (level_inputs l ++ level_inputs k) →
  merkle_level l = merkle_level k → l = k.
Proof.
  revert k. induction l as [|a|a b l IH] using list_pair_ind;
    intros k Hl Hk Hlen Hdist Heq.
  - by destruct k.
  - destruct k as [|c [|]]; try done. inversion_clear Hl. inversion_clear Hk.
    cbn [merkle_level] in Heq. apply (inj2 cons) in Heq as [Hhd _].
    eapply merkle_pair_inj in Hhd as [-> _]; [done..|exact Hdist|set_solver|set_solver].
  - destruct k as [|c [|d k]]; try done.
    apply Forall_cons in Hl as [Ha [Hb Hl]%Forall_cons].
    apply Forall_cons in Hk as [Hc [Hd Hk]%Forall_cons].
    cbn [merkle_level] in Heq. apply (inj2 cons) in Heq as [Hhd Htl].
    eapply merkle_pair_inj in Hhd as [-> ->]; [|done..|exact Hdist|set_solver|set_solver].
    rewrite (IH k); [done|done|done|by injection Hlen| |done].
    eapply digests_distinct_incl; [|exact Hdist]. set_solver.
Qed.

Lemma merkle_loop_inj fuel l k :
  Forall (λ h, hash_wf h = true) l → Forall (λ h, hash_wf h = true) k →
  length l = length k → (length l <= S fuel)%nat → l ≠ [] →
  digests_distinct (merkle_inputs fuel l ++ merkle_inputs fuel k) →
  merkle_loop fuel l = merkle_loop fuel k → l = k.
Proof.
  revert l k. induction fuel as [|fuel IH]; intros l k Hl Hk Hlen Hf Hne Hd Heq;
    destruct l as [|a [|b l]], k as [|c [|d k]]; try done; cbn in Hf; try lia.
  - cbn in Heq. congruence.
  - cbn in Heq. congruence.
  - cbn [merkle_loop] in Heq.
    set (l' := a :: b :: l) in *. set (k' := c :: d :: k) in *.
    pose proof (merkle_level_shrinks l' ltac:(cbn; lia)) as Hs.
    assert (merkle_inputs (S fuel) l' = level_inputs l' ++ merkle_inputs fuel (merkle_level l')) as E1 by done.
    assert (merkle_inputs (S fuel) k' = level_inputs k' ++ merkle_inputs fuel (merkle_level k')) as E2 by done.
    rewrite E1, E2 in Hd. apply merkle_level_inj; [done..| |].
    { eapply digests_distinct_incl; [|exact Hd]. set_solver. }
    apply IH; [apply merkle_level_wf | apply merkle_level_wf | by rewrite !length_merkle_level, Hlen
      | unfold l' in Hs at 3; cbn [length] in Hs; lia | | | done].
    { intros Hnil. rewrite Hnil in Hs. cbn in Hs. lia. }
    eapply digests_distinct_incl; [|exact Hd]. set_solver.
Qed.

(** The transactions root exists for every list of transactions (the tree
    construction terminates) and, for blocks with the same number of
    transactions, binds them: equal roots mean the same hashes in the same
    order, provided Keccak tells apart the pairs hashed for the two trees. *)
Theorem transactions_root_binding l k :
  Forall (λ h, hash_wf h = true) l → Forall (λ h, hash_wf h = true) k → length l = length k →
  is_Some (calculate_transactions_root l) ∧
  (transactions_root l = transactions_root k →
   digests_distinct (merkle_inputs (length l) l ++ merkle_inputs (length k) k) → l = k).
Proof.
  intros Hl Hk Hlen. split; [apply calculate_transactions_root_total|]. unfold transactions_root.
  destruct (calculate_transactions_root_total l) as [x Hx], (calculate_transactions_root_total k) as [y Hy].
  rewrite Hx, Hy. cbn. intros <- Hd.
  destruct l as [|a [|b l]], k as [|c [|d k]]; try done.
  - cbn in Hx, Hy. congruence.
  - apply (merkle_loop_inj (length (a :: b :: l))); try done; [lia|by rewrite Hlen in Hd |- *|].
    unfold calculate_transactions_root in Hx, Hy. by rewrite Hx, Hlen, Hy.
Qed.

(** The root does not bind the number of transactions: because an odd last
    hash is paired with itself, repeating the last of three transactions
    leaves the root unchanged. *)
Theorem transactions_root_duplication a b c :
  transactions_root [a; b; c] = transactions_root [a; b; c; c].
Proof. reflexivity. Qed.
End MerkleTheorems.

(** ** Concrete instances *)

Module PowReference.
#[local] Instance blake3 : Blake3 := {|
  blake3_digest := Reference.toy_digest; blake3_digest_wf := Reference.toy_digest_wf |}.
#[local] Existing Instance Reference.keccak.

Definition low_hash : Hash := MkHash (replicate 2 0 ++ [31] ++ replicate 29 255).
Definition avx2 : CpuFeatures := {| has_avx2 := true; has_sse2 := true |}.
Definition plain : CpuFeatures := {| has_avx2 := false; has_sse2 := false |}.
Definition template : BlockHeader :=
  MkHeader [hash_zero] 165 StreamA 2 1000 0 7 1 None None.

Lemma meets_difficulty_spec_witness :
  hash_wf low_hash = true ∧ meets_difficulty low_hash 19 = true ∧
  from_be_bytes (hash_bytes low_hash) <= from_be_bytes (difficulty_to_target 19).
Proof.
  split; [reflexivity|]. split; [reflexivity|].
  refine (proj1 (proj2 (meets_difficulty_spec low_hash 19 _ _)) _); [reflexivity|lia|reflexivity].
Defined.

Lemma adjust_difficulty_bounds_witness : 1 <= adjust_difficulty 16 10 20 <= MAX_DIFFICULTY.
Proof.
  refine (proj1 (proj2 (adjust_difficulty_bounds 16 10 20 _ _ _) _)); [mlia|mlia|mlia|lia].
Defined.

Lemma difficulty_one_absorbing_witness : adjust_difficulty 1 10 1 = 1.
Proof. apply (difficulty_one_absorbing 10 1). mlia. Defined.

Definition sample (n : nat) (b : Z) : list u8 := (λ i, (Z.of_nat i * b) mod 256) <$> seq 0 n.
Lemma sample_ok n b : bytes_ok (sample n b).
Proof.
  apply Forall_fmap, Forall_forall. intros i _. cbn.
  pose proof (Z.mod_pos_bound (Z.of_nat i * b) 256). lia.
Qed.

Lemma xor_bytes_spec_witness :
  xor_bytes avx2 (sample 70 7) (sample 40 11)
  = zip_with Z.lxor (sample 70 7) (sample 40 11) ++ drop 40 (sample 70 7).
Proof. apply (xor_bytes_spec avx2 (sample 70 7) (sample 40 11)); apply sample_ok. Defined.

Lemma mine_block_correct_witness :
  fst <$> default None (mine_block 30 plain [] template hash_zero StreamA (Some 30)) = Some 4 ∧
  is_Some (mine_block 30 plain [] template hash_zero StreamA (Some 30)).
Proof.
  split; [vm_compute; reflexivity|].
  destruct (mine_block_correct 30 plain [] template hash_zero StreamA (Some 30))
    as (r & Hr & _); [cbn; lia|].
  by exists r.
Defined.

Lemma b3memhash_deterministic_witness :
  hash_b3memhash plain (replicate 100 0) template hash_zero
  = hash_b3memhash avx2 (sample 100 3) template hash_zero.
Proof. apply b3memhash_deterministic. reflexivity. Defined.

Lemma block_hash_ignores_base_fee_witness :
  block_calculate_hash plain [] (MkBlock template [] hash_zero None)
  = block_calculate_hash plain [] (MkBlock (set_base_fee 9 template) [] hash_zero None).
Proof. apply (block_hash_ignores_base_fee plain [] (MkBlock template [] hash_zero None) 9). done. Defined.

Lemma transactions_root_binding_witness :
  transactions_root [low_hash; hash_zero; low_hash] ≠ transactions_root [low_hash; hash_zero; hash_zero].
Proof.
  intros Heq.
  assert ([low_hash; hash_zero; low_hash] = [low_hash; hash_zero; hash_zero]) as Hl; [|discriminate Hl].
  refine (proj2 (transactions_root_binding [low_hash; hash_zero; low_hash] [low_hash; hash_zero; hash_zero] _ _ eq_refl) Heq _);
    [by repeat constructor|by repeat constructor|apply digests_distinctb_ok; vm_compute; reflexivity].
Defined.
End PowReference.
