(* ===== verification/ParallelPow.v ===== *)
(** * ParallelPow: the multi-threaded mining loop

    Models [mine_block_parallel] of [irondag-blockchain/src/pow.rs].  A batch
    starts one worker per thread; the workers share the atomic flag [found], the atomic
    [result_nonce] and the mutex-protected [result_hash].  Each access to
    a shared cell is one step of a worker, and an interleaving is the sequence
    of the worker indices that step ([run]); [thread::scope] joins the workers,
    so a batch counts only when every worker has returned. *)

From S2P Require Import Prelude Types Block Pow.

(** The cells shared by the workers. *)
Record Shared := MkShared { found : bool; result_nonce : u64; result_hash : Hash }.

(** Where a worker is in the body of its [for] loop. *)
Inductive Pc :=
  | Scan (nonce : u64)                     (* about to load [found] for this nonce *)
  | Try (nonce : u64)                      (* [found] was false: hash and test *)
  | StoreNonce (nonce : u64) (h : Hash)    (* [found] stored *)
  | StoreHash (nonce : u64) (h : Hash)     (* [result_nonce] stored *)
  | Returned.

Record Worker := MkWorker { w_pc : Pc; w_end : u64; w_bytes : list u8 }.

Section ParallelMining.
Context `{Keccak, Blake3}.
Context (cpu : CpuFeatures) (buffer : list u8) (hdr : BlockHeader) (root : Hash) (st : StreamType).

Definition worker_step (s : Shared) (w : Worker) : Shared * Worker :=
  match w_pc w with
  | Scan n =>
      if w_end w <=? n then (s, MkWorker Returned (w_end w) (w_bytes w))
      else if found s then (s, MkWorker Returned (w_end w) (w_bytes w))
      else (s, MkWorker (Try n) (w_end w) (w_bytes w))
  | Try n =>
      let bytes :=
        match st with
        | StreamB => w_bytes w
        | _ => write_slice (nonce_offset hdr) 8 (to_le_bytes 8 n) (w_bytes w)
        end in
      let hash := mine_hash cpu buffer hdr root st bytes n in
      if meets_difficulty hash (difficulty hdr)
      then (MkShared true (result_nonce s) (result_hash s), MkWorker (StoreNonce n hash) (w_end w) bytes)
      else (s, MkWorker (Scan (n + 1)) (w_end w) bytes)
  | StoreNonce n h =>
      (MkShared (found s) n (result_hash s), MkWorker (StoreHash n h) (w_end w) (w_bytes w))
  | StoreHash n h =>
      (MkShared (found s) (result_nonce s) h, MkWorker Returned (w_end w) (w_bytes w))
  | Returned => (s, w)
  end.

(** One scheduled step: worker [i] moves. *)
Definition sched_step (c : Shared * list Worker) (i : nat) : Shared * list Worker :=
  match snd c !! i with
  | Some w => let '(s', w') := worker_step (fst c) w in (s', <[i := w']> (snd c))
  | None => c
  end.
Definition run (c : Shared * list Worker) (schedule : list nat) : Shared * list Worker :=
  foldl sched_step c schedule.

Definition returned (w : Worker) : bool :=
  match w_pc w with Returned => true | _ => false end.

(** The workers of a batch: [batch_size / num_threads] nonces each. *)
Definition spawn (batch_start batch_size : u64) (num_threads : nat) : list Worker :=
  let nonces_per_thread := batch_size / Z.of_nat num_threads in
  (λ thread_id : nat,
     let start := add64 batch_start (Z.of_nat thread_id * nonces_per_thread) in
     MkWorker (Scan start) (add64 start nonces_per_thread) (header_template_bytes hdr root))
  <$> seq 0 num_threads.

(** The outer [while]: one schedule per batch; the outer [None] is a
    schedule that leaves a worker running, or a loop that would go on. *)
Fixpoint batches (schedules : list (list nat)) (s : Shared) (batch_start batch_size : u64)
    (num_threads : nat) (batch_count max_batch_count : u64) : option Shared :=
  if negb (found s) && (batch_count <? max_batch_count) then
    match schedules with
    | [] => None
    | schedule :: schedules' =>
        let '(s', ws) := run (s, spawn batch_start batch_size num_threads) schedule in
        if forallb returned ws
        then batches schedules' s' (add64 batch_start batch_size) batch_size num_threads
               (batch_count + 1) max_batch_count
        else None
    end
  else Some s.

Definition mine_block_parallel (schedules : list (list nat)) (available : nat)
    (batch_size : u64) (max_batches : option u64) : option (option (u64 * Hash)) :=
  let num_threads := Nat.max (available / 4) 1 in
  s ← batches schedules (MkShared false 0 hash_zero) 0 batch_size num_threads 0
        (default u64_max max_batches);
  Some (if found s then Some (result_nonce s, result_hash s) else None).


(** ** Invariant *)

Abbreviation solution n := (solves cpu buffer root st hdr n = true).
Abbreviation hash_of n := (pow_hash cpu buffer root st (set_nonce_hdr n hdr)).

Definition no_solution (lo hi : u64) : Prop :=
  ∀ m, lo <= m < hi → solves cpu buffer root st hdr m = false.

(** What a worker that started at [start] knows. *)
Definition worker_ok (s : Shared) (start : u64) (w : Worker) : Prop :=
  (∃ v, length v = 8%nat ∧ w_bytes w = mining_buffer hdr root v) ∧
  match w_pc w with
  | Scan n | Try n => start <= n ∧ no_solution start n
  | StoreNonce n h | StoreHash n h => solution n ∧ h = hash_of n ∧ found s = true
  | Returned => found s = true ∨ no_solution start (w_end w)
  end.

Definition owes_nonce (w : Worker) : Prop :=
  match w_pc w with StoreNonce _ _ => True | _ => False end.
Definition owes_hash (w : Worker) : Prop :=
  match w_pc w with StoreNonce _ _ | StoreHash _ _ => True | _ => False end.

(** Once [found] is set, each result cell holds a solution or some worker is
    still to write it. *)
Definition cells_ok (s : Shared) (ws : list Worker) : Prop :=
  found s = true →
  (solution (result_nonce s) ∨ ∃ (i : nat) w, ws !! i = Some w ∧ owes_nonce w) ∧
  ((∃ n, solution n ∧ result_hash s = hash_of n) ∨ ∃ (i : nat) w, ws !! i = Some w ∧ owes_hash w).

Definition batch_inv (starts : list u64) (c : Shared * list Worker) : Prop :=
  Forall2 (worker_ok (fst c)) starts (snd c) ∧ cells_ok (fst c) (snd c).

Lemma worker_step_found s w s' w' :
  worker_step s w = (s', w') → found s = true → found s' = true.
Proof.
  unfold worker_step. intros Hstep Hf.
  repeat case_match; simplify_eq; cbn; congruence.
Qed.

Lemma worker_ok_mono s s' start w :
  (found s = true → found s' = true) → worker_ok s start w → worker_ok s' start w.
Proof.
  intros Hf [Hb Hpc]. split; [done|]. destruct (w_pc w); naive_solver.
Qed.

Lemma try_hash v n :
  length v = 8%nat →
  let bytes := match st with
               | StreamB => mining_buffer hdr root v
               | _ => write_slice (nonce_offset hdr) 8 (to_le_bytes 8 n) (mining_buffer hdr root v)
               end in
  mine_hash cpu buffer hdr root st bytes n = hash_of n ∧
  ∃ v', length v' = 8%nat ∧ bytes = mining_buffer hdr root v'.
Proof.
  intros Hv. cbn. pose proof (mine_hash_pow cpu buffer hdr root st n) as Hm.
  destruct st; rewrite ?write_nonce by done; (split; [done|]); eauto using length_le8.
Qed.

Lemma worker_step_ok s start w s' w' :
  worker_step s w = (s', w') → worker_ok s start w → worker_ok s' start w'.
Proof.
  destruct w as [pc e bytes]. intros Hstep [[v [Hv Hb]] Hpc]. cbn in Hb. subst bytes.
  destruct pc as [n|n|n h|n h|]; cbn [worker_step w_pc w_end w_bytes] in *.
  - unfold worker_step in Hstep; cbn in Hstep. destruct Hpc as [Hle Hno].
    destruct (Z.leb_spec e n); [|destruct (found s) eqn:Hf]; simplify_eq; split; cbn; eauto.
    right. intros m Hm. apply Hno. lia.
  - destruct (try_hash v n Hv) as [Hh Hbytes]. unfold worker_step in Hstep; cbn in Hstep, Hh, Hbytes.
    rewrite Hh in Hstep. fold (solves cpu buffer root st hdr n) in Hstep.
    destruct (solves cpu buffer root st hdr n) eqn:Hsol; simplify_eq; (split; [done|]); cbn; [done|].
    destruct Hpc as [Hle Hno]. split; [lia|]. intros m Hm.
    destruct (decide (m = n)) as [->|]; [done|]. apply Hno. lia.
  - unfold worker_step in Hstep; cbn in Hstep. simplify_eq. split; cbn; eauto.
  - unfold worker_step in Hstep; cbn in Hstep. simplify_eq. split; cbn; [by eauto|]. naive_solver.
  - unfold worker_step in Hstep; cbn in Hstep. simplify_eq. split; cbn; eauto.
Qed.

Lemma owes_other (P : Worker → Prop) (ws : list Worker) (i : nat) w w' :
  ws !! i = Some w → ¬ P w → (∃ j v, ws !! j = Some v ∧ P v) →
  ∃ j v, <[i:=w']> ws !! j = Some v ∧ P v.
Proof.
  intros Hi Hw (j & v & Hj & Hv). exists j, v. split; [|done].
  rewrite list_lookup_insert_ne; [done|]. intros ->. congruence.
Qed.

Lemma owes_self (P : Worker → Prop) (ws : list Worker) (i : nat) w w' :
  ws !! i = Some w → P w' → ∃ j v, <[i:=w']> ws !! j = Some v ∧ P v.
Proof.
  intros Hi Hw. exists i, w'. split; [|done].
  apply list_lookup_insert_eq. by eapply lookup_lt_Some.
Qed.

Lemma worker_step_cells s start ws i w s' w' :
  worker_step s w = (s', w') → worker_ok s start w → ws !! i = Some w →
  cells_ok s ws → cells_ok s' (<[i := w']> ws).
Proof.
  intros Hstep Hok Hi Hc Hf'. destruct Hok as [_ Hpc]. unfold worker_step in Hstep.
  destruct w as [pc e bytes]; cbn in *.
  destruct pc as [n|n|n h|n h|].
  - assert (s' = s) as -> by (repeat case_match; simplify_eq; done).
    destruct (Hc Hf') as [[?|?] [?|?]]; split; eauto using owes_other.
  - case_match; simplify_eq; [split; right; by eapply owes_self|].
    destruct (Hc Hf') as [[?|?] [?|?]]; split; eauto using owes_other.
  - simplify_eq. cbn. split; [by left; apply Hpc | right; by eapply owes_self].
  - simplify_eq. cbn in *. split; [|left; exists n; naive_solver].
    destruct (Hc Hf') as [[?|?] _]; eauto using owes_other.
  - simplify_eq. destruct (Hc Hf') as [[?|?] [?|?]]; split; eauto using owes_other.
Qed.

Lemma sched_step_inv starts c i : batch_inv starts c → batch_inv starts (sched_step c i).
Proof.
  destruct c as [s ws]. intros [Hws Hc]. unfold sched_step. cbn in *.
  destruct (ws !! i) as [w|] eqn:Hi; [|done].
  destruct (worker_step s w) as [s' w'] eqn:Hstep.
  destruct (Forall2_lookup_r _ _ _ _ _ Hws Hi) as (start & Hstart & Hok).
  split; cbn; [|by eapply worker_step_cells].
  rewrite <- (list_insert_id starts i start) by done.
  apply Forall2_insert; [|by eapply worker_step_ok].
  eapply Forall2_impl; [done|]. intros. eapply worker_ok_mono; [|done].
  by eapply worker_step_found.
Qed.

Lemma run_inv starts schedule c : batch_inv starts c → batch_inv starts (run c schedule).
Proof.
  revert c. induction schedule as [|i schedule IH]; intros c Hc; [done|]. by apply IH, sched_step_inv.
Qed.

Definition batch_starts (batch_start batch_size : u64) (num_threads : nat) : list u64 :=
  (λ thread_id : nat,
     add64 batch_start (Z.of_nat thread_id * (batch_size / Z.of_nat num_threads)))
  <$> seq 0 num_threads.

Lemma spawn_inv s batch_start batch_size num_threads :
  found s = false →
  batch_inv (batch_starts batch_start batch_size num_threads)
    (s, spawn batch_start batch_size num_threads).
Proof.
  intros Hf. split; cbn; [|intros; congruence].
  apply Forall2_fmap, Forall_Forall2_diag, Forall_forall. intros i _. split; cbn.
  - exists (to_le_bytes 8 0). split; [apply length_le8|].
    unfold header_template_bytes, mining_buffer. by rewrite <- !app_assoc.
  - split; [lia|]. intros m Hm. lia.
Qed.

Lemma returned_owes ws :
  forallb returned ws = true →
  ¬ (∃ (i : nat) w, ws !! i = Some w ∧ owes_nonce w) ∧ ¬ (∃ (i : nat) w, ws !! i = Some w ∧ owes_hash w).
Proof.
  rewrite forallb_forall. intros Hret.
  assert (∀ (i : nat) w, ws !! i = Some w → w_pc w = Returned) as Hpc.
  { intros i w Hi. specialize (Hret w ltac:(by apply list_elem_of_In, (list_elem_of_lookup_2 _ i))).
    unfold returned in Hret. by destruct (w_pc w). }
  unfold owes_nonce, owes_hash.
  split; intros (i & w & Hi & Hw); by rewrite (Hpc i w Hi) in Hw.
Qed.

(** What a finished batch establishes. *)
Definition outcome_ok (s : Shared) : Prop :=
  found s = true →
  solution (result_nonce s) ∧ ∃ n, solution n ∧ result_hash s = hash_of n.

Lemma batch_outcome s batch_start batch_size num_threads schedule s' ws :
  found s = false →
  run (s, spawn batch_start batch_size num_threads) schedule = (s', ws) →
  forallb returned ws = true → outcome_ok s'.
Proof.
  intros Hf Hrun Hret.
  pose proof (run_inv _ schedule _ (spawn_inv s batch_start batch_size num_threads Hf)) as [_ Hc].
  rewrite Hrun in Hc. cbn in Hc. intros Hf'. destruct (returned_owes ws Hret) as [Hn Hh].
  destruct (Hc Hf') as [[?|?] [?|?]]; try tauto.
Qed.

Lemma batches_outcome schedules s batch_start batch_size num_threads count max s' :
  outcome_ok s →
  batches schedules s batch_start batch_size num_threads count max = Some s' → outcome_ok s'.
Proof.
  revert s batch_start count. induction schedules as [|sc schedules IH];
    intros s batch_start count Hs Hb; cbn [batches] in Hb;
    destruct (found s) eqn:Hf; destruct (count <? max); cbn in Hb; simplify_eq; try done.
  destruct (run _ sc) as [s1 ws] eqn:Hrun. destruct (forallb returned ws) eqn:Hret; [|done].
  eapply IH; [|done]. by eapply batch_outcome.
Qed.

(** Parallel mining is sound under every interleaving of the workers: the
    nonce it returns solves the block, and the hash it returns is the proof
    of work hash of some solving nonce (so it meets the difficulty). *)
Theorem mine_block_parallel_sound schedules available batch_size max_batches nonce hash :
  mine_block_parallel schedules available batch_size max_batches = Some (Some (nonce, hash)) →
  solution nonce ∧ ∃ n, solution n ∧ hash = hash_of n.
Proof.
  unfold mine_block_parallel. intros Hm.
  destruct (batches _ _ _ _ _ _ _) as [s|] eqn:Hb; [|done]. cbn in Hm.
  destruct (found s) eqn:Hf; simplify_eq.
  by apply (batches_outcome _ (MkShared false 0 hash_zero) _ _ _ _ _ _ ltac:(intros ?; done) Hb Hf).
Qed.

Lemma run_ends schedule c : w_end <$> snd (run c schedule) = w_end <$> snd c.
Proof.
  revert c. induction schedule as [|i schedule IH]; intros c; [done|].
  unfold run in *. cbn [foldl]. rewrite IH. unfold sched_step.
  destruct (snd c !! i) as [w|] eqn:Hi; [|done].
  destruct (worker_step (fst c) w) as [s' w'] eqn:Hstep. cbn.
  rewrite list_fmap_insert. apply list_insert_id. rewrite list_lookup_fmap, Hi. cbn. f_equal.
  unfold worker_step in Hstep. repeat case_match; by simplify_eq.
Qed.

(** The nonces thread [i] of a batch is given. *)
Definition thread_start (batch_start batch_size : u64) (num_threads i : nat) : u64 :=
  batch_start + Z.of_nat i * (batch_size / Z.of_nat num_threads).

Lemma thread_range batch_start batch_size num_threads i :
  (i < num_threads)%nat → 0 <= batch_start → 0 <= batch_size →
  batch_start <= thread_start batch_start batch_size num_threads i ∧
  thread_start batch_start batch_size num_threads i + batch_size / Z.of_nat num_threads
  <= batch_start + batch_size.
Proof.
  intros Hi Hs Hb. unfold thread_start.
  assert (0 <= batch_size / Z.of_nat num_threads) by (apply Z.div_pos; lia).
  pose proof (Z.mul_div_le batch_size (Z.of_nat num_threads)). nia.
Qed.

Lemma batch_exhausted s batch_start batch_size num_threads schedule s' ws i :
  found s = false → found s' = false →
  run (s, spawn batch_start batch_size num_threads) schedule = (s', ws) →
  forallb returned ws = true → (i < num_threads)%nat →
  0 <= batch_start → 0 <= batch_size → batch_start + batch_size <= u64_max →
  no_solution (thread_start batch_start batch_size num_threads i)
    (thread_start batch_start batch_size num_threads i + batch_size / Z.of_nat num_threads).
Proof.
  intros Hf Hf' Hrun Hret Hi Hs Hb Hmax.
  pose proof (thread_range batch_start batch_size num_threads i Hi Hs Hb) as Hr.
  assert (0 <= batch_size / Z.of_nat num_threads) by (apply Z.div_pos; lia).
  pose proof (run_inv _ schedule _ (spawn_inv s batch_start batch_size num_threads Hf)) as [Hws _].
  pose proof (run_ends schedule (s, spawn batch_start batch_size num_threads)) as Hends.
  rewrite Hrun in Hws, Hends. cbn in Hws, Hends.
  assert (batch_starts batch_start batch_size num_threads !! i
          = Some (add64 batch_start (Z.of_nat i * (batch_size / Z.of_nat num_threads)))) as Hst
    by (unfold batch_starts; by rewrite list_lookup_fmap, lookup_seq_lt).
  destruct (Forall2_lookup_l _ _ _ i _ Hws Hst) as (w & Hw & Hok).
  apply (f_equal (lookup i)) in Hends. unfold spawn in Hends.
  rewrite !list_lookup_fmap, Hw, lookup_seq_lt in Hends by done. cbn in Hends.
  unfold thread_start in *. injection Hends as Hend.
  rewrite (add64_small batch_start) in Hend by lia. rewrite add64_small in Hend by lia.
  rewrite forallb_forall in Hret.
  specialize (Hret w ltac:(by apply list_elem_of_In, (list_elem_of_lookup_2 _ i))).
  unfold returned in Hret. destruct Hok as [_ Hok]. destruct (w_pc w); try done.
  destruct Hok as [?|Hno]; [congruence|]. rewrite Hend in Hno. rewrite add64_small in Hno by lia.
  done.
Qed.

Lemma batches_exhausted schedules s batch_start batch_size num_threads count max s' b i :
  found s = false → found s' = false →
  batches schedules s batch_start batch_size num_threads count max = Some s' →
  (i < num_threads)%nat → 0 <= batch_start → 0 <= batch_size →
  batch_start + (max - count) * batch_size <= u64_max →
  0 <= b < max - count →
  let lo := thread_start (batch_start + b * batch_size) batch_size num_threads i in
  no_solution lo (lo + batch_size / Z.of_nat num_threads).
Proof.
  revert s batch_start count b. induction schedules as [|sc schedules IH];
    intros s batch_start count b Hf Hf' Hb Hi Hs Hbs Hmax Hrange; cbn [batches] in Hb;
    rewrite Hf in Hb; cbn in Hb; rewrite (proj2 (Z.ltb_lt count max)) in Hb by lia; [done|].
  destruct (run _ sc) as [s1 ws] eqn:Hrun. destruct (forallb returned ws) eqn:Hret; [|done].
  assert (found s1 = false) as Hf1.
  { destruct (found s1) eqn:Hf1; [|done]. destruct schedules; cbn in Hb; rewrite Hf1 in Hb; cbn in Hb;
      congruence. }
  assert (batch_size <= (max - count) * batch_size) by nia.
  destruct (decide (b = 0)) as [->|].
  - rewrite Z.mul_0_l, Z.add_0_r. apply (batch_exhausted s _ _ _ sc s1 ws); (done || lia).
  - replace (batch_start + b * batch_size)
      with (batch_start + batch_size + (b - 1) * batch_size) by lia.
    rewrite add64_small in Hb by lia.
    apply (IH s1 (batch_start + batch_size) (count + 1)); (done || lia).
Qed.

(** Parallel mining is complete for the nonces it hands out: when it gives
    up after [max_batches] batches, under whatever interleaving, no nonce of
    any thread's share of any batch solves the block. (A share is
    [batch_size / num_threads] nonces, so the remainder of the division is
    not searched.) *)
Theorem mine_block_parallel_exhaustive schedules available batch_size max_batches b i m :
  let num_threads := Nat.max (available / 4) 1 in
  let share := batch_size / Z.of_nat num_threads in
  mine_block_parallel schedules available batch_size (Some max_batches) = Some None →
  0 <= batch_size → max_batches * batch_size <= u64_max →
  0 <= b < max_batches → (i < num_threads)%nat → 0 <= m < share →
  solves cpu buffer root st hdr (b * batch_size + Z.of_nat i * share + m) = false.
Proof.
  intros num_threads share Hm Hbs Hmax Hb Hi Hr. unfold mine_block_parallel in Hm.
  destruct (batches _ _ _ _ _ _ _) as [s|] eqn:Hbt; [|done]. cbn in Hm.
  destruct (found s) eqn:Hf; simplify_eq.
  apply (batches_exhausted schedules (MkShared false 0 hash_zero) 0 batch_size num_threads
           0 max_batches s b i); try done; try lia.
  unfold thread_start. fold share. lia.
Qed.
End ParallelMining.

(** ** Concrete interleavings *)

Module ParallelReference.
#[local] Existing Instance Reference.keccak.
#[local] Existing Instance PowReference.blake3.

(** Difficulty 2 on eight threads' worth of cores: two workers. *)
Definition easy : BlockHeader := MkHeader [hash_zero] 172 StreamA 2 1000 0 7 1 None None.
Definition par := mine_block_parallel PowReference.plain [] easy hash_zero StreamA.

(** Both workers see [found] unset and find a solution; the first stores its
    nonce last and its hash first. *)
Definition race : list nat := [0; 1; 0; 1; 1; 0; 0; 1]%nat.
Definition race_template (n : u64) : Hash :=
  pow_hash PowReference.plain [] hash_zero StreamA (set_nonce_hdr n easy).

(** The nonce and the hash returned by parallel mining need not belong
    together: the two result cells are written separately after [found], and
    with two workers there is an interleaving whose result pairs the nonce of
    one with the hash of the other, so the block hash recomputed from the
    nonce differs from the one returned. *)
Theorem mine_block_parallel_race :
  ∃ schedules nonce hash,
    par schedules 8 8 (Some 1) = Some (Some (nonce, hash)) ∧
    hash ≠ race_template nonce.
Proof.
  exists [race]. eexists _, _. split; [vm_compute; reflexivity|].
  vm_compute. discriminate.
Qed.

Lemma mine_block_parallel_sound_witness :
  solves PowReference.plain [] hash_zero StreamA easy 0 = true.
Proof.
  assert (Hp : mine_block_parallel PowReference.plain [] easy hash_zero StreamA [race] 8 8 (Some 1)
               = Some (Some (0, race_template 4))) by (vm_compute; reflexivity).
  exact (proj1 (mine_block_parallel_sound _ _ _ _ _ _ _ _ _ _ _ Hp)).
Defined.

(** Difficulty 250: nothing to find. *)
Definition hard : BlockHeader := MkHeader [hash_zero] 172 StreamA 250 1000 0 7 1 None None.
Definition drain : list nat := concat (replicate 5 [0; 1])%nat.

Lemma mine_block_parallel_exhaustive_witness :
  solves PowReference.plain [] hash_zero StreamA hard
    (0 * 4 + Z.of_nat 1 * (4 / Z.of_nat (Nat.max (8 / 4) 1)) + 1) = false.
Proof.
  assert (Hp : mine_block_parallel PowReference.plain [] hard hash_zero StreamA [drain] 8 4 (Some 1)
               = Some None) by (vm_compute; reflexivity).
  assert (Hmax : 1 * 4 <= u64_max) by (vm_compute; discriminate).
  assert (Hm : 0 <= 1 < 4 / Z.of_nat (Nat.max (8 / 4) 1)) by (vm_compute; split; done).
  refine (mine_block_parallel_exhaustive _ _ _ _ _ _ _ _ _ 0 1 1 Hp _ Hmax _ _ Hm);
    [lia | lia | cbn; lia].
Defined.
End ParallelReference.
