(* ===== verification/Error.v ===== *)
(** * Error: the error types of the chain

    Models [irondag-blockchain/src/error.rs].  A message is kept as its constant text: the
    values the source interpolates into it are left out.  [Panic] is the
    outcome of an operation that panics (an index out of range, a division
    by zero), [OutOfFuel] that of a bounded loop of the model that was not
    given enough steps: the source has no error value for either. *)

From S2P Require Import Prelude.

Inductive BlockchainError :=
  | InvalidBlock (msg : string)
  | InvalidTransaction (msg : string)
  | Storage (msg : string)
  | Network (msg : string)
  | Evm (msg : string)
  | Consensus (msg : string)
  | Validation (msg : string)
  | Config (msg : string)
  | Io (msg : string)
  | Serialization (msg : string)
  | Unknown (msg : string)
  | CorruptedVersion (msg : string)
  | FutureVersion (found supported : u32)
  | MigrationFailed (from to : u32) (reason : string)
  | Panic (msg : string)
  | OutOfFuel.

#[global] Instance BlockchainError_eq_dec : EqDecision BlockchainError.
Proof. solve_decision. Defined.

Inductive BlockValidationError :=
  | InvalidTxRoot
  | UnknownParent
  | NoParents
  | DuplicateTransaction
  | TimestampTooFarInFuture (timestamp current max_future : u64)
  | TimestampTooOld (timestamp minimum : u64)
  | InvalidBlockNumber (number expected : u64)
  | MaxTransactionsExceeded (count max : usize)
  | BlockSizeExceeded (size max : usize)
  | TooManyParentHashes (count max : usize)
  | InvalidBlockHash
  | GenesisNotFirst
  | DuplicateBlock.

#[global] Instance BlockValidationError_eq_dec : EqDecision BlockValidationError.
Proof. solve_decision. Defined.
