(* ===== verification/Storage.v ===== *)
(** * Storage: the key-value layer

    Models [irondag-blockchain/src/storage.rs]: key encoding, value
    compression, batches, the version check of [Database::open], the block,
    state and parent/child stores with their legacy-key fallbacks, the
    snapshot manager and the v0 to v1 key migrator.

    The [sled] tree is a finite map from byte strings to byte strings, iterated
    in lexicographic key order as sled documents.  Every store holds a
    reference to the same [Database], so the stores' operations take and
    return that one map.  Failures of the device (the [sled::Error] branches)
    are outside the model; failures of decoding are in it.  [zstd] and
    [bincode] are the classes [Zstd] and [Codec]. *)

From Stdlib Require Import Ascii.
From S2P Require Import Prelude Types Block Error.

Class Zstd := {
  zstd_encode_all : list u8 → option (list u8);
  zstd_decode_all : list u8 → option (list u8);
  zstd_roundtrip : ∀ data c, zstd_encode_all data = Some c → zstd_decode_all c = Some data;
}.

(** ** Keys *)

Definition STORAGE_VERSION : u8 := 1.
Module key_prefix.
Definition BALANCE : u8 := 1.
Definition NONCE : u8 := 2.
Definition CONTRACT : u8 := 3.
Definition CONTRACT_STORAGE : u8 := 4.
Definition CHILDREN : u8 := 5.
Definition PARENTS : u8 := 6.
Definition BLOCK : u8 := 7.
Definition BLOCK_HEIGHT : u8 := 8.
Definition TRANSACTION : u8 := 9.
Definition DAG_NODE : u8 := 10.
Definition DAG_EDGE : u8 := 11.
Definition RECEIPT : u8 := 12.
End key_prefix.
Module legacy_prefix.
Definition BALANCE : u8 := 0.
Definition NONCE : u8 := 1.
Definition CONTRACT : u8 := 2.
Definition STORAGE : u8 := 3.
Definition CHILDREN : u8 := 4.
Definition PARENTS : u8 := 5.
Definition BLOCK : u8 := 6.
End legacy_prefix.

Definition make_key (type_tag : u8) (entity_key : list u8) : list u8 :=
  STORAGE_VERSION :: type_tag :: entity_key.
Definition make_prefix (type_tag : u8) : list u8 := [STORAGE_VERSION; type_tag].

Definition balance_key (a : Address) : list u8 := make_key key_prefix.BALANCE (addr_bytes a).
Definition nonce_key (a : Address) : list u8 := make_key key_prefix.NONCE (addr_bytes a).
Definition contract_key (a : Address) : list u8 := make_key key_prefix.CONTRACT (addr_bytes a).
Definition storage_key (a : Address) (k : list u8) : list u8 :=
  make_key key_prefix.CONTRACT_STORAGE (addr_bytes a ++ k).
Definition children_key (h : Hash) : list u8 := make_key key_prefix.CHILDREN (hash_bytes h).
Definition parents_key (h : Hash) : list u8 := make_key key_prefix.PARENTS (hash_bytes h).
Definition block_key (h : Hash) : list u8 := make_key key_prefix.BLOCK (hash_bytes h).
Definition block_height_key (n : u64) : list u8 := make_key key_prefix.BLOCK_HEIGHT (to_le_bytes 8 n).
Definition transaction_key (h : Hash) : list u8 := make_key key_prefix.TRANSACTION (hash_bytes h).

(** The bytes of an ASCII literal. *)
Fixpoint as_bytes (s : string) : list u8 :=
  match s with
  | EmptyString => []
  | String c s' => Z.of_nat (nat_of_ascii c) :: as_bytes s'
  end.

Definition DB_VERSION_KEY : list u8 := as_bytes "__db_version__".
Definition MIGRATION_IN_PROGRESS_KEY : list u8 := as_bytes "__migration_in_progress__".
Definition CURRENT_DB_VERSION : u32 := 1.

(** ** The tree *)

Abbreviation Sled := (gmap (list u8) (list u8)).

Fixpoint bytes_leb (a b : list u8) : bool :=
  match a, b with
  | [], _ => true
  | _ :: _, [] => false
  | x :: a', y :: b' => if x <? y then true else if y <? x then false else bytes_leb a' b'
  end.

(** [db.iter()] *)
Definition sled_iter (db : Sled) : list (list u8 * list u8) :=
  sort_by (λ p q, bytes_leb p.1 q.1) (map_to_list db).

Definition starts_with (k p : list u8) : bool := bool_decide (take (length p) k = p).

(** [db.scan_prefix(prefix)], [Database::scan_prefix_bytes] and
    [Database::scan_prefix_collect] *)
Definition scan_prefix (db : Sled) (p : list u8) : list (list u8 * list u8) :=
  List.filter (λ kv, starts_with kv.1 p) (sled_iter db).
Definition insert_raw (db : Sled) (k v : list u8) : Sled := <[k := v]> db.
Definition get_raw (db : Sled) (k : list u8) : option (list u8) := db !! k.
Definition remove_raw (db : Sled) (k : list u8) : Sled := delete k db.

(** ** Compression *)

Definition COMPRESSION_THRESHOLD : Z := 512.
Definition MAX_DECOMPRESS_SIZE : Z := 64 * 1024 * 1024.
Definition FLAG_COMPRESSED : u8 := 255.
Definition FLAG_UNCOMPRESSED : u8 := 0.

Section Compression.
Context `{Zstd}.

Definition compress_if_beneficial (data : list u8) : list u8 :=
  if Z.of_nat (length data) <? COMPRESSION_THRESHOLD then FLAG_UNCOMPRESSED :: data
  else match zstd_encode_all data with
       | Some compressed =>
           if (length compressed <? length data)%nat then FLAG_COMPRESSED :: compressed
           else FLAG_UNCOMPRESSED :: data
       | None => FLAG_UNCOMPRESSED :: data
       end.

Definition decompress_if_needed (data : list u8) : result string (list u8) :=
  match data with
  | [] => Ok []
  | flag :: rest =>
      if flag =? FLAG_COMPRESSED then
        match zstd_decode_all rest with
        | None => Err "Decompression failed"
        | Some d =>
            if MAX_DECOMPRESS_SIZE <? Z.of_nat (length d)
            then Err "Decompressed data exceeds limit" else Ok d
        end
      else if flag =? FLAG_UNCOMPRESSED then Ok rest
      else Ok data
  end.

Lemma decompress_compress data :
  Z.of_nat (length data) <= MAX_DECOMPRESS_SIZE →
  decompress_if_needed (compress_if_beneficial data) = Ok data.
Proof.
  intros Hl. unfold compress_if_beneficial. destruct (_ <? COMPRESSION_THRESHOLD); [done|].
  destruct (zstd_encode_all data) as [c|] eqn:Hc; [|done].
  destruct (length c <? length data)%nat; [|done].
  cbn. rewrite (zstd_roundtrip _ _ Hc). by rewrite (proj2 (Z.ltb_ge _ _)).
Qed.

(** Stored contract code reads back as it was written, whether or not it was
    worth compressing, up to the 64 MB limit of the decompression guard;
    beyond the limit a compressed value is refused rather than
    returned truncated. *)
Theorem compression_roundtrip data :
  decompress_if_needed (compress_if_beneficial data)
  = (if (MAX_DECOMPRESS_SIZE <? Z.of_nat (length data))
        && bool_decide (hd 0 (compress_if_beneficial data) = FLAG_COMPRESSED)
     then Err "Decompressed data exceeds limit" else Ok data).
Proof.
  unfold compress_if_beneficial.
  destruct (_ <? COMPRESSION_THRESHOLD); [cbn; by rewrite andb_false_r|].
  destruct (zstd_encode_all data) as [c|] eqn:Hc; [|cbn; by rewrite andb_false_r].
  destruct (length c <? length data)%nat; [|cbn; by rewrite andb_false_r].
  cbn. rewrite (zstd_roundtrip _ _ Hc), andb_true_r. done.
Qed.
End Compression.

(** ** Version check of [Database::open] *)

(** [migrate_v0_to_v1(db)]: version 1 only stamps the version. *)
Definition migrate_v0_to_v1 (db : Sled) : Sled * result BlockchainError unit := (db, Ok tt).

(** [while version < CURRENT_DB_VERSION] *)
Fixpoint migrate_loop (fuel : nat) (version : u32) (db : Sled) :
    Sled * result BlockchainError unit :=
  match fuel with
  | O => (db, Ok tt)
  | S fuel' =>
      if version <? CURRENT_DB_VERSION then
        let db := <[MIGRATION_IN_PROGRESS_KEY := to_le_bytes 4 version]> db in
        let '(db, r) :=
          if version =? 0 then migrate_v0_to_v1 db
          else (db, Err (MigrationFailed version (version + 1) "Unknown migration path")) in
        match r with
        | Err e => (db, Err e)
        | Ok _ =>
            let version := version + 1 in
            let db := <[DB_VERSION_KEY := to_le_bytes 4 version]> db in
            migrate_loop fuel' version (delete MIGRATION_IN_PROGRESS_KEY db)
        end
      else (db, Ok tt)
  end.

Definition check_and_migrate (db : Sled) : Sled * result BlockchainError unit :=
  let db := match db !! MIGRATION_IN_PROGRESS_KEY with
            | Some _ => delete MIGRATION_IN_PROGRESS_KEY db
            | None => db
            end in
  let current_version :=
    match db !! DB_VERSION_KEY with
    | Some bytes => if (length bytes =? 4)%nat then Ok (from_le_bytes bytes)
                    else Err (CorruptedVersion "Version key is not 4 bytes")
    | None => Ok 0
    end in
  match current_version with
  | Err e => (db, Err e)
  | Ok current_version =>
      if CURRENT_DB_VERSION <? current_version
      then (db, Err (FutureVersion current_version CURRENT_DB_VERSION))
      else migrate_loop (Z.to_nat CURRENT_DB_VERSION) current_version db
  end.

(** ** Block store *)

Definition de_error : BlockchainError := Serialization "bincode".

(** [bincode::deserialize(&value)?] *)
Definition decode_or {A} `{Codec A} (bs : list u8) : result BlockchainError A :=
  ok_or de_error (deserialize bs).

(** [if let Ok(block) = .. { if seen_hashes.insert(block.hash.0) { blocks.push(block) } }] *)
Definition push_new (blocks : list Block) (b : Block) : list Block :=
  if contains (block_hash b) (block_hash <$> blocks) then blocks else blocks ++ [b].

Section BlockStore.
Context `{Codec Block}.

Definition bs_put (db : Sled) (b : Block) : result BlockchainError Sled :=
  value ← ok_or de_error (serialize b);
  Ok (<[block_key (block_hash b) := value]> db).

Definition bs_get (db : Sled) (h : Hash) : result BlockchainError (option Block) :=
  match db !! block_key h with
  | Some value => b ← decode_or value; Ok (Some b)
  | None =>
      match db !! hash_bytes h with
      | Some value => b ← decode_or value; Ok (Some b)
      | None => Ok None
      end
  end.

(** The blocks among the values of some entries; undecodable values are
    skipped. *)
Definition decode_blocks (kvs : list (list u8 * list u8)) : list Block :=
  omap (λ kv, deserialize kv.2) kvs.

Definition collect_blocks (db : Sled) : list Block :=
  let blocks := foldl push_new [] (decode_blocks (scan_prefix db (make_prefix key_prefix.BLOCK))) in
  let blocks := foldl push_new blocks (decode_blocks (scan_prefix db [legacy_prefix.BLOCK])) in
  match blocks with
  | [] => foldl push_new []
            (decode_blocks (List.filter (λ kv, (length kv.1 =? 32)%nat) (sled_iter db)))
  | _ => blocks
  end.

Definition get_all_blocks_paginated (db : Sled) (offset limit : nat) : list Block :=
  let blocks := sort_by_key (λ b, block_number (header b)) (collect_blocks db) in
  take limit (drop (Nat.min offset (length blocks)) blocks).

(** The limit [usize::MAX] is never reached. *)
Definition get_all_blocks (db : Sled) : list Block :=
  get_all_blocks_paginated db 0 (length (collect_blocks db)).

(** Three scans, deduplicated by key. *)
Definition scan_new (seen_kvs : list (list u8 * list u8)) (kvs : list (list u8 * list u8)) :
    list (list u8 * list u8) :=
  foldl (λ acc kv, if contains kv.1 (fst <$> acc) then acc else acc ++ [kv]) seen_kvs kvs.

Definition get_blocks_from_number (db : Sled) (from_block : u64) (count : nat) : list Block :=
  let kvs := scan_new [] (scan_prefix db (make_prefix key_prefix.BLOCK)) in
  let kvs := scan_new kvs (scan_prefix db [legacy_prefix.BLOCK]) in
  let kvs := scan_new kvs (List.filter (λ kv, (length kv.1 =? 32)%nat) (sled_iter db)) in
  let blocks :=
    List.filter (λ b, from_block <=? block_number (header b)) (decode_blocks kvs) in
  take count (sort_by_key (λ b, block_number (header b)) blocks).

Definition delete_block (db : Sled) (h : Hash) : Sled * bool :=
  match db !! block_key h with
  | Some _ => (delete (block_key h) db, true)
  | None =>
      match db !! hash_bytes h with
      | Some _ => (delete (hash_bytes h) db, true)
      | None => (db, false)
      end
  end.

Definition clear_keys (db : Sled) : list (list u8) :=
  (fst <$> (tag ← [key_prefix.BALANCE; key_prefix.NONCE; key_prefix.CONTRACT;
                   key_prefix.CONTRACT_STORAGE; key_prefix.CHILDREN; key_prefix.PARENTS;
                   key_prefix.BLOCK; key_prefix.BLOCK_HEIGHT; key_prefix.TRANSACTION;
                   key_prefix.DAG_NODE; key_prefix.DAG_EDGE];
            scan_prefix db (make_prefix tag)))
  ++ (fst <$> (b ← [legacy_prefix.BALANCE; legacy_prefix.NONCE; legacy_prefix.CONTRACT;
                    legacy_prefix.STORAGE; legacy_prefix.CHILDREN; legacy_prefix.PARENTS;
                    legacy_prefix.BLOCK];
               scan_prefix db [b]))
  ++ (fst <$> List.filter (λ kv, (length kv.1 =? 32)%nat
                                 && bool_decide (is_Some (deserialize (A:=Block) kv.2)))
                (sled_iter db)).

(** The remaining tree and the reported count: every collected key counts,
    a key collected twice counts twice. *)
Definition clear_all (db : Sled) : Sled * usize :=
  let keys := clear_keys db in
  (foldl (λ db k, delete k db) db keys, Z.of_nat (length keys)).
End BlockStore.

(** ** State store *)

(** [if value.len() == n { .. from_le_bytes }] *)
Definition read_int (n : nat) (value : list u8) : option Z :=
  if (length value =? n)%nat then Some (from_le_bytes value) else None.

Record AccountState := MkAccountState {
  as_address : Address; as_balance : u128; as_nonce : u64; as_code : option (list u8) }.

Section StateStore.
Context `{Hex, Zstd}.

Definition legacy_key (name : string) (bs : list u8) : list u8 :=
  as_bytes name ++ as_bytes (hex_encode bs).

Definition put_balance (db : Sled) (a : Address) (balance : u128) : Sled :=
  <[balance_key a := to_le_bytes 16 balance]> db.

(** A versioned value of the right size wins; anything else falls back to
    the legacy key. *)
Definition get_int (db : Sled) (n : nat) (key lkey : list u8) : option Z :=
  match db !! key ≫= read_int n with
  | Some v => Some v
  | None => db !! lkey ≫= read_int n
  end.
Definition db_get_balance (db : Sled) (a : Address) : option u128 :=
  get_int db 16 (balance_key a) (legacy_key "balance:" (addr_bytes a)).

Definition put_nonce (db : Sled) (a : Address) (nonce : u64) : Sled :=
  <[nonce_key a := to_le_bytes 8 nonce]> db.
Definition db_get_nonce (db : Sled) (a : Address) : option u64 :=
  get_int db 8 (nonce_key a) (legacy_key "nonce:" (addr_bytes a)).

Definition put_contract_code (db : Sled) (a : Address) (code : list u8) : Sled :=
  <[contract_key a := compress_if_beneficial code]> db.
Definition get_contract_code (db : Sled) (a : Address) :
    result BlockchainError (option (list u8)) :=
  match db !! contract_key a with
  | Some value => d ← map_err Storage (decompress_if_needed value); Ok (Some d)
  | None => Ok (db !! legacy_key "contract:" (addr_bytes a))
  end.

Definition put_contract_storage (db : Sled) (a : Address) (k v : list u8) : Sled :=
  <[storage_key a k := v]> db.
Definition get_contract_storage (db : Sled) (a : Address) (k : list u8) : option (list u8) :=
  match db !! storage_key a k with
  | Some v => Some v
  | None => db !! (addr_bytes a ++ k)
  end.

Definition get_account_state (db : Sled) (a : Address) : result BlockchainError AccountState :=
  let balance := default 0 (db_get_balance db a) in
  let nonce := default 0 (db_get_nonce db a) in
  code ← get_contract_code db a;
  Ok (MkAccountState a balance nonce code).

Definition put_account_state (db : Sled) (st : AccountState) : Sled :=
  let db := put_balance db (as_address st) (as_balance st) in
  let db := put_nonce db (as_address st) (as_nonce st) in
  match as_code st with
  | Some code => put_contract_code db (as_address st) code
  | None => db
  end.

(** *** Batches: the writes in order, applied at once *)
Definition Batch := list (list u8 * list u8).
Definition batch_put_balance (b : Batch) (a : Address) (v : u128) : Batch :=
  b ++ [(balance_key a, to_le_bytes 16 v)].
Definition batch_put_nonce (b : Batch) (a : Address) (v : u64) : Batch :=
  b ++ [(nonce_key a, to_le_bytes 8 v)].
Definition batch_put_contract_code (b : Batch) (a : Address) (code : list u8) : Batch :=
  b ++ [(contract_key a, compress_if_beneficial code)].
Definition batch_put_storage (b : Batch) (a : Address) (k v : list u8) : Batch :=
  b ++ [(storage_key a k, v)].
Definition batch_put_account_state (b : Batch) (st : AccountState) : Batch :=
  let b := batch_put_balance b (as_address st) (as_balance st) in
  let b := batch_put_nonce b (as_address st) (as_nonce st) in
  match as_code st with
  | Some code => batch_put_contract_code b (as_address st) code
  | None => b
  end.
Definition commit_batch (db : Sled) (b : Batch) : Sled :=
  foldl (λ db kv, <[kv.1 := kv.2]> db) db b.
End StateStore.

(** ** Parent/child store *)

Section ParentChildStore.
Context `{Hex, Codec (list Hash)}.

Definition put_children (db : Sled) (p : Hash) (children : list Hash) :
    result BlockchainError Sled :=
  v ← ok_or de_error (serialize children); Ok (<[children_key p := v]> db).
Definition put_parents (db : Sled) (c : Hash) (parents : list Hash) :
    result BlockchainError Sled :=
  v ← ok_or de_error (serialize parents); Ok (<[parents_key c := v]> db).

Definition get_hashes (db : Sled) (key lkey : list u8) :
    result BlockchainError (option (list Hash)) :=
  match db !! key with
  | Some v => hs ← decode_or v; Ok (Some hs)
  | None =>
      match db !! lkey with
      | Some v => hs ← decode_or v; Ok (Some hs)
      | None => Ok None
      end
  end.
Definition get_children (db : Sled) (p : Hash) : result BlockchainError (option (list Hash)) :=
  get_hashes db (children_key p) (legacy_key "children:" (hash_bytes p)).
Definition get_parents (db : Sled) (c : Hash) : result BlockchainError (option (list Hash)) :=
  get_hashes db (parents_key c) (legacy_key "parents:" (hash_bytes c)).
End ParentChildStore.

(** ** Snapshots *)

Record TopAccountInfo := MkTop {
  top_address : Address; top_balance : u128; top_nonce : u64; has_code : bool }.
Record SnapshotMetadata := MkMeta {
  snap_version : u32; snap_block_number : u64; snap_block_hash : Hash; created_at : u64;
  account_count : nat; block_count : nat; state_size_bytes : u64;
  top_accounts : list TopAccountInfo }.
Record StorageEntry := MkEntry { se_address : Address; se_key : list u8; se_value : list u8 }.
Record BlockchainSnapshot := MkSnapshot {
  metadata : SnapshotMetadata; accounts : list AccountState; storage : list StorageEntry;
  snap_blocks : list Block }.

Definition SNAPSHOT_VERSION : u32 := 2.
Definition SNAPSHOT_MAGIC : list u8 := as_bytes "MDSN".

Definition size_bytes (accounts : list AccountState) (storage : list StorageEntry)
    (blocks : list Block) : u64 :=
  Z.of_nat (length accounts * 200 + length storage * 100 + length blocks * 500).

Section Snapshots.
Context `{Hex, Zstd, HashIter}.

(** The storage entries among keys of length [off + 52]: the address at
    [off], the slot after it. *)
Definition entries_at (off : nat) (kvs : list (list u8 * list u8)) : list StorageEntry :=
  (λ kv, MkEntry (MkAddress (take 20 (drop off kv.1))) (take 32 (drop (off + 20) kv.1)) kv.2)
  <$> List.filter (λ kv, (length kv.1 =? off + 52)%nat) kvs.

(** The versioned format first, the older formats only if it is empty. *)
Definition snapshot_storage (db : Sled) : list StorageEntry :=
  let storage := entries_at 2 (scan_prefix db (make_prefix key_prefix.CONTRACT_STORAGE)) in
  let storage := match storage with
                 | [] => entries_at 1 (scan_prefix db [legacy_prefix.STORAGE])
                 | _ => storage
                 end in
  match storage with
  | [] => entries_at 0 (sled_iter db)
  | _ => storage
  end.

Definition snapshot_account (db : Sled) (acc : Address * (u128 * u64)) :
    result BlockchainError AccountState :=
  code ← get_contract_code db acc.1;
  Ok (MkAccountState acc.1 acc.2.1 acc.2.2 code).

Definition create_snapshot (now : u64) (db : Sled) (current_block_number : u64)
    (current_block_hash : Hash) (accts : gmap Address (u128 * u64)) (recent_blocks : list Block) :
    result BlockchainError BlockchainSnapshot :=
  accs ← try_fold (λ acc kv, a ← snapshot_account db kv; Ok (acc ++ [a])) [] (hm_iter accts);
  let storage := snapshot_storage db in
  let top :=
    (λ a, MkTop (as_address a) (as_balance a) (as_nonce a) (bool_decide (is_Some (as_code a))))
    <$> take 10 (sort_by_key (λ a, - as_balance a) accs) in
  Ok (MkSnapshot
        (MkMeta SNAPSHOT_VERSION current_block_number current_block_hash now (length accs)
           (length recent_blocks) (size_bytes accs storage recent_blocks) top)
        accs storage recent_blocks).

Definition batch_put_block `{Codec Block} (b : Batch) (blk : Block) : result BlockchainError Batch :=
  v ← ok_or (Unknown "Serialization error") (serialize blk);
  Ok (b ++ [(block_key (block_hash blk), v)]).

Definition restore_snapshot `{Codec Block} (db : Sled) (s : BlockchainSnapshot) :
    result BlockchainError Sled :=
  let batch := foldl batch_put_account_state [] (accounts s) in
  let batch := foldl (λ b e, batch_put_storage b (se_address e) (se_key e) (se_value e))
                 batch (storage s) in
  batch ← try_fold batch_put_block batch (snap_blocks s);
  Ok (commit_batch db batch).

(** The bytes of a snapshot file. *)
Definition save_to_file `{Codec BlockchainSnapshot} (s : BlockchainSnapshot) :
    result BlockchainError (list u8) :=
  data ← ok_or (Serialization "Failed to serialize snapshot") (serialize s);
  compressed ← ok_or (Storage "Failed to compress snapshot") (zstd_encode_all data);
  Ok (SNAPSHOT_MAGIC ++ compressed).

Definition load_from_file `{Codec BlockchainSnapshot} (file : list u8) :
    result BlockchainError BlockchainSnapshot :=
  if (length file <? 4)%nat then Err (Storage "Failed to read snapshot header")
  else if starts_with file SNAPSHOT_MAGIC then
    decompressed ← ok_or (Storage "Failed to decompress snapshot") (zstd_decode_all (drop 4 file));
    ok_or (Serialization "Failed to deserialize snapshot") (deserialize decompressed)
  else ok_or (Serialization "Failed to deserialize snapshot") (deserialize file).
End Snapshots.

(** ** Migrator *)

(** [needs_migration]: does any key start with a v0 prefix byte? *)
Definition needs_migration (db : Sled) : bool :=
  existsb (λ b, negb (bool_decide (scan_prefix db [b] = [])))
    [legacy_prefix.BALANCE; legacy_prefix.NONCE; legacy_prefix.CONTRACT; legacy_prefix.STORAGE;
     legacy_prefix.CHILDREN; legacy_prefix.PARENTS; legacy_prefix.BLOCK].

(** The v1 key built from the part of a v0 key after its prefix byte: [copy_from_slice] panics on a length
    mismatch, a short storage key gives the empty vector. *)
Definition build_v1_key (v0 : u8) (entity : list u8) : result BlockchainError (list u8) :=
  let sized n key := if (length entity =? n)%nat then Ok key else Err (Panic "copy_from_slice") in
  if v0 =? legacy_prefix.BALANCE then sized 20%nat (balance_key (MkAddress entity))
  else if v0 =? legacy_prefix.NONCE then sized 20%nat (nonce_key (MkAddress entity))
  else if v0 =? legacy_prefix.CONTRACT then sized 20%nat (contract_key (MkAddress entity))
  else if v0 =? legacy_prefix.STORAGE then
    Ok (if (20 <=? length entity)%nat
        then storage_key (MkAddress (take 20 entity)) (drop 20 entity) else [])
  else if v0 =? legacy_prefix.CHILDREN then sized 32%nat (children_key (MkHash entity))
  else if v0 =? legacy_prefix.PARENTS then sized 32%nat (parents_key (MkHash entity))
  else sized 32%nat (block_key (MkHash entity)).

Definition migrate_entry (v0 : u8) (st : Sled * usize) (kv : list u8 * list u8) :
    result BlockchainError (Sled * usize) :=
  let '(db, migrated) := st in
  if starts_with kv.1 [STORAGE_VERSION] then Ok st else
  new_key ← build_v1_key v0 (drop 1 kv.1);
  if bool_decide (new_key = []) then Ok st
  else Ok (delete kv.1 (<[new_key := kv.2]> db), migrated + 1).

(** [StorageMigrator::migrate_v0_to_v1] *)
Definition migrator_v0_to_v1 (db : Sled) : result BlockchainError (Sled * usize) :=
  try_fold (λ st v0, try_fold (migrate_entry v0) st (scan_prefix st.1 [v0])) (db, 0)
    [legacy_prefix.BALANCE; legacy_prefix.NONCE; legacy_prefix.CONTRACT; legacy_prefix.STORAGE;
     legacy_prefix.CHILDREN; legacy_prefix.PARENTS; legacy_prefix.BLOCK].

(** ** Version check *)

Lemma version_key_ne_marker : DB_VERSION_KEY ≠ MIGRATION_IN_PROGRESS_KEY.
Proof. by vm_compute. Qed.

Lemma migrate_loop_done db : migrate_loop 1 1 db = (db, Ok tt).
Proof. done. Qed.

Lemma migrate_loop_stamp db :
  migrate_loop 1 0 db
  = (delete MIGRATION_IN_PROGRESS_KEY
       (<[DB_VERSION_KEY := to_le_bytes 4 1]>
          (<[MIGRATION_IN_PROGRESS_KEY := to_le_bytes 4 0]> db)), Ok tt).
Proof. done. Qed.

(** The version a database declares. *)
Definition declared_version (db : Sled) : option u32 :=
  match db !! DB_VERSION_KEY with
  | None => Some 0
  | Some bytes => if (length bytes =? 4)%nat then Some (from_le_bytes bytes) else None
  end.

Lemma check_and_migrate_unfold db :
  check_and_migrate db =
  let db1 := delete MIGRATION_IN_PROGRESS_KEY db in
  match declared_version db with
  | None => (db1, Err (CorruptedVersion "Version key is not 4 bytes"))
  | Some v => if CURRENT_DB_VERSION <? v then (db1, Err (FutureVersion v CURRENT_DB_VERSION))
              else migrate_loop 1 v db1
  end.
Proof.
  assert (match db !! MIGRATION_IN_PROGRESS_KEY with
          | Some _ => delete MIGRATION_IN_PROGRESS_KEY db | None => db end
          = delete MIGRATION_IN_PROGRESS_KEY db) as Hd.
  { destruct (db !! MIGRATION_IN_PROGRESS_KEY) eqn:Hm; [done|]. by rewrite delete_id. }
  unfold check_and_migrate, declared_version. rewrite Hd.
  rewrite lookup_delete_ne by apply not_eq_sym, version_key_ne_marker.
  destruct (db !! DB_VERSION_KEY) as [bytes|]; [|done].
  by destruct (length bytes =? 4)%nat.
Qed.

(** Opening a database.  A database without a version is stamped with the
    current one, a current database is left as it is, a future or malformed
    version is refused with the version untouched; in every case an
    interrupted-migration marker is cleared and no other key changes; and a
    database that opened once opens again without any change. *)
Theorem check_and_migrate_spec db :
  (∀ bytes, db !! DB_VERSION_KEY = Some bytes → bytes_ok bytes) →
  let '(db', r) := check_and_migrate db in
  db' !! MIGRATION_IN_PROGRESS_KEY = None ∧
  (∀ k, k ≠ DB_VERSION_KEY → k ≠ MIGRATION_IN_PROGRESS_KEY → db' !! k = db !! k) ∧
  match declared_version db with
  | None => r = Err (CorruptedVersion "Version key is not 4 bytes") ∧
            db' !! DB_VERSION_KEY = db !! DB_VERSION_KEY
  | Some v =>
      (1 < v ∧ r = Err (FutureVersion v 1) ∧ db' !! DB_VERSION_KEY = db !! DB_VERSION_KEY) ∨
      (v <= 1 ∧ r = Ok tt ∧ declared_version db' = Some 1 ∧ check_and_migrate db' = (db', Ok tt))
  end.
Proof.
  intros Hbytes.
  assert (∀ v, declared_version db = Some v → 0 <= v) as Hpos.
  { intros v. unfold declared_version. destruct (db !! DB_VERSION_KEY) as [bytes|] eqn:Hv;
      [|by intros [= <-]]. case_match; [|done]. intros [= <-].
    pose proof (from_be_range (reverse bytes)) as Hr. unfold from_be_bytes in Hr.
    rewrite reverse_involutive in Hr. apply Hr. apply Forall_reverse, Hbytes; done. }
  pose proof version_key_ne_marker as Hne.
  rewrite check_and_migrate_unfold. cbn zeta.
  destruct (declared_version db) as [v|] eqn:Hd;
    [|split_and!; [apply lookup_delete_eq | intros; by rewrite lookup_delete_ne |
                   done | by rewrite lookup_delete_ne by done]].
  specialize (Hpos v eq_refl). unfold CURRENT_DB_VERSION. destruct (Z.ltb_spec 1 v).
  { split_and!; [apply lookup_delete_eq | intros; by rewrite lookup_delete_ne |].
    left. split_and!; [done|done|]. by rewrite lookup_delete_ne. }
  assert (v = 0 ∨ v = 1) as [-> | ->] by lia.
  - rewrite migrate_loop_stamp. split_and!; [apply lookup_delete_eq | |].
    { intros k Hk Hk'. by rewrite lookup_delete_ne, !lookup_insert_ne, lookup_delete_ne. }
    right. split_and!; [lia | done | |].
    + unfold declared_version. rewrite lookup_delete_ne, lookup_insert_eq by done. done.
    + rewrite check_and_migrate_unfold. unfold declared_version.
      rewrite lookup_delete_ne, lookup_insert_eq by done. cbn -[lookup delete insert].
      by rewrite delete_delete_eq.
  - rewrite migrate_loop_done. split_and!; [apply lookup_delete_eq | intros; by rewrite lookup_delete_ne |].
    right. assert (declared_version (delete MIGRATION_IN_PROGRESS_KEY db) = Some 1) as Hd'.
    { unfold declared_version in *. by rewrite lookup_delete_ne. }
    split_and!; [lia | done | done |]. rewrite check_and_migrate_unfold, Hd'.
    cbn -[lookup delete insert]. by rewrite delete_delete_eq.
Qed.

(** ** State store *)

Lemma make_key_ne_legacy `{Hex} t e c s bs :
  c ≠ Ascii.ascii_of_nat 1 → make_key t e ≠ legacy_key (String c s) bs.
Proof.
  intros Hc Heq. apply (f_equal (hd 0)) in Heq. cbn in Heq. apply Hc.
  unfold STORAGE_VERSION in Heq.
  rewrite <- (ascii_nat_embedding c). f_equal. lia.
Qed.

Lemma make_key_ne_raw t e raw : length raw ≠ S (S (length e)) → make_key t e ≠ raw.
Proof. intros Hl <-. done. Qed.

Lemma make_key_inj t e t' e' : make_key t e = make_key t' e' → t = t' ∧ e = e'.
Proof. by intros [= -> ->]. Qed.

(** What the account tables hold, as seen through the store's reads. *)
Record StateView := MkView {
  v_balance : gmap Address u128;
  v_nonce : gmap Address u64;
  v_code : gmap Address (list u8);
  v_storage : gmap (Address * list u8) (list u8) }.

Section StateStoreTheorems.
Context `{Hex, Zstd}.

Record represents (db : Sled) (v : StateView) : Prop := {
  rep_balance : ∀ a, address_wf a = true → db_get_balance db a = v_balance v !! a;
  rep_nonce : ∀ a, address_wf a = true → db_get_nonce db a = v_nonce v !! a;
  rep_code : ∀ a, address_wf a = true → get_contract_code db a = Ok (v_code v !! a);
  rep_storage : ∀ a k, address_wf a = true → length k = 32%nat →
    get_contract_storage db a k = v_storage v !! (a, k) }.

(** A write to a versioned key is invisible to reads of other keys. *)
Lemma get_int_insert_ne db n key lkey t e v :
  make_key t e ≠ key → make_key t e ≠ lkey →
  get_int (<[make_key t e := v]> db) n key lkey = get_int db n key lkey.
Proof. intros. unfold get_int. by rewrite !lookup_insert_ne. Qed.

Lemma get_balance_insert_ne db t e v a :
  make_key t e ≠ balance_key a → db_get_balance (<[make_key t e := v]> db) a = db_get_balance db a.
Proof. intros. apply get_int_insert_ne; [done|]. by apply make_key_ne_legacy. Qed.
Lemma get_nonce_insert_ne db t e v a :
  make_key t e ≠ nonce_key a → db_get_nonce (<[make_key t e := v]> db) a = db_get_nonce db a.
Proof. intros. apply get_int_insert_ne; [done|]. by apply make_key_ne_legacy. Qed.
Lemma get_code_insert_ne db t e v a :
  make_key t e ≠ contract_key a →
  get_contract_code (<[make_key t e := v]> db) a = get_contract_code db a.
Proof.
  intros. unfold get_contract_code. rewrite lookup_insert_ne by done.
  by rewrite lookup_insert_ne by by apply make_key_ne_legacy.
Qed.
Lemma get_storage_insert_ne db t e v a k :
  make_key t e ≠ storage_key a k → length (addr_bytes a ++ k) ≠ S (S (length e)) →
  get_contract_storage (<[make_key t e := v]> db) a k = get_contract_storage db a k.
Proof.
  intros. unfold get_contract_storage. by rewrite !lookup_insert_ne by (done || by apply make_key_ne_raw).
Qed.

Lemma get_int_insert_eq db n key lkey bs v :
  read_int n bs = Some v → get_int (<[key := bs]> db) n key lkey = Some v.
Proof. intros Hr. unfold get_int. rewrite lookup_insert_eq. cbn. by rewrite Hr. Qed.

Lemma read_u128 v : in_u128 v → read_int 16 (to_le_bytes 16 v) = Some v.
Proof. intros. unfold read_int. rewrite length_le16. cbn. by rewrite u128_le_roundtrip. Qed.
Lemma read_u64 v : in_u64 v → read_int 8 (to_le_bytes 8 v) = Some v.
Proof. intros. unfold read_int. rewrite length_le8. cbn. by rewrite u64_le_roundtrip. Qed.

(** Discharges the key disequations of two different tables or addresses. *)
Ltac key_ne :=
  match goal with
  | |- make_key _ _ ≠ _ =>
      let Heq := fresh in
      intros Heq; unfold balance_key, nonce_key, contract_key, storage_key in Heq;
      apply make_key_inj in Heq as [? ?]; first [discriminate | by (exfalso; eauto using addr_bytes_inj)]
  | |- length _ ≠ _ => rewrite ?length_app, ?address_wf_length by done; lia
  end.

Lemma put_balance_represents db v a x :
  address_wf a = true → in_u128 x → represents db v →
  represents (put_balance db a x)
    (MkView (<[a := x]> (v_balance v)) (v_nonce v) (v_code v) (v_storage v)).
Proof.
  intros Ha Hx [Hb Hn Hc Hs]. unfold put_balance. split; cbn; intros.
  - destruct (decide (a = a0)) as [->|].
    + rewrite lookup_insert_eq. by apply get_int_insert_eq, read_u128.
    + rewrite lookup_insert_ne, <- Hb by done. apply get_balance_insert_ne. key_ne.
  - rewrite <- Hn by done. apply get_nonce_insert_ne. key_ne.
  - rewrite <- Hc by done. apply get_code_insert_ne. key_ne.
  - rewrite <- Hs by done. apply get_storage_insert_ne; key_ne.
Qed.

Lemma put_nonce_represents db v a x :
  address_wf a = true → in_u64 x → represents db v →
  represents (put_nonce db a x)
    (MkView (v_balance v) (<[a := x]> (v_nonce v)) (v_code v) (v_storage v)).
Proof.
  intros Ha Hx [Hb Hn Hc Hs]. unfold put_nonce. split; cbn; intros.
  - rewrite <- Hb by done. apply get_balance_insert_ne. key_ne.
  - destruct (decide (a = a0)) as [->|].
    + rewrite lookup_insert_eq. by apply get_int_insert_eq, read_u64.
    + rewrite lookup_insert_ne, <- Hn by done. apply get_nonce_insert_ne. key_ne.
  - rewrite <- Hc by done. apply get_code_insert_ne. key_ne.
  - rewrite <- Hs by done. apply get_storage_insert_ne; key_ne.
Qed.

Lemma put_contract_code_represents db v a code :
  address_wf a = true → Z.of_nat (length code) <= MAX_DECOMPRESS_SIZE → represents db v →
  represents (put_contract_code db a code)
    (MkView (v_balance v) (v_nonce v) (<[a := code]> (v_code v)) (v_storage v)).
Proof.
  intros Ha Hx [Hb Hn Hc Hs]. unfold put_contract_code. split; cbn; intros.
  - rewrite <- Hb by done. apply get_balance_insert_ne. key_ne.
  - rewrite <- Hn by done. apply get_nonce_insert_ne. key_ne.
  - destruct (decide (a = a0)) as [->|].
    + unfold get_contract_code. rewrite !lookup_insert_eq.
      rewrite decompress_compress by done. done.
    + rewrite lookup_insert_ne, <- Hc by done. apply get_code_insert_ne. key_ne.
  - rewrite <- Hs by done. apply get_storage_insert_ne; key_ne.
Qed.

Lemma storage_key_inj a k a' k' :
  length (addr_bytes a) = length (addr_bytes a') →
  storage_key a k = storage_key a' k' → a = a' ∧ k = k'.
Proof.
  intros Hl [_ Heq]%make_key_inj. apply app_inj_1 in Heq as [?%addr_bytes_inj ?]; done.
Qed.

Lemma put_contract_storage_represents db v a k x :
  address_wf a = true → length k = 32%nat → represents db v →
  represents (put_contract_storage db a k x)
    (MkView (v_balance v) (v_nonce v) (v_code v) (<[(a, k) := x]> (v_storage v))).
Proof.
  intros Ha Hk [Hb Hn Hc Hs]. unfold put_contract_storage. split; cbn; intros.
  - rewrite <- Hb by done. apply get_balance_insert_ne. key_ne.
  - rewrite <- Hn by done. apply get_nonce_insert_ne. key_ne.
  - rewrite <- Hc by done. apply get_code_insert_ne. key_ne.
  - destruct (decide ((a, k) = (a0, k0))) as [[= -> ->]|Hne].
    + rewrite lookup_insert_eq. unfold get_contract_storage. by rewrite lookup_insert_eq.
    + rewrite lookup_insert_ne, <- Hs by done. apply get_storage_insert_ne.
      * intros [-> ->]%storage_key_inj; [done|]. by rewrite !address_wf_length.
      * rewrite !length_app, !address_wf_length by done. lia.
Qed.

(** The store's writes, as commands. *)
Inductive StateWrite :=
  | WBalance (a : Address) (x : u128)
  | WNonce (a : Address) (x : u64)
  | WCode (a : Address) (code : list u8)
  | WStorage (a : Address) (k x : list u8).

Definition write_ok (w : StateWrite) : Prop :=
  match w with
  | WBalance a x => address_wf a = true ∧ in_u128 x
  | WNonce a x => address_wf a = true ∧ in_u64 x
  | WCode a code => address_wf a = true ∧ Z.of_nat (length code) <= MAX_DECOMPRESS_SIZE
  | WStorage a k x => address_wf a = true ∧ length k = 32%nat
  end.

Definition do_write (db : Sled) (w : StateWrite) : Sled :=
  match w with
  | WBalance a x => put_balance db a x
  | WNonce a x => put_nonce db a x
  | WCode a code => put_contract_code db a code
  | WStorage a k x => put_contract_storage db a k x
  end.

(** The specification: four independent tables. *)
Definition spec_write (v : StateView) (w : StateWrite) : StateView :=
  match w with
  | WBalance a x => MkView (<[a := x]> (v_balance v)) (v_nonce v) (v_code v) (v_storage v)
  | WNonce a x => MkView (v_balance v) (<[a := x]> (v_nonce v)) (v_code v) (v_storage v)
  | WCode a c => MkView (v_balance v) (v_nonce v) (<[a := c]> (v_code v)) (v_storage v)
  | WStorage a k x => MkView (v_balance v) (v_nonce v) (v_code v) (<[(a, k) := x]> (v_storage v))
  end.

Lemma do_write_represents db v w :
  write_ok w → represents db v → represents (do_write db w) (spec_write v w).
Proof.
  destruct w; cbn; intros [? ?] ?.
  - by apply put_balance_represents.
  - by apply put_nonce_represents.
  - by apply put_contract_code_represents.
  - by apply put_contract_storage_represents.
Qed.

Lemma represents_writes ws db v :
  Forall write_ok ws → represents db v →
  represents (foldl do_write db ws) (foldl spec_write v ws).
Proof.
  intros Hws. revert db v. induction Hws as [|w ws Hw Hws IH]; intros db v Hr; cbn; [done|].
  by apply IH, do_write_represents.
Qed.


(** The batch of an account is the sequence of its writes. *)
Lemma batch_account_state db st :
  commit_batch db (batch_put_account_state [] st) = put_account_state db st.
Proof. unfold batch_put_account_state, put_account_state. by destruct (as_code st). Qed.

Lemma represents_empty : represents ∅ (MkView ∅ ∅ ∅ ∅).
Proof.
  split; intros; cbn [v_balance v_nonce v_code v_storage];
    unfold db_get_balance, db_get_nonce, get_int, get_contract_code, get_contract_storage;
    by rewrite !lookup_empty.
Qed.
End StateStoreTheorems.

(** ** Iteration *)

Lemma elem_of_sled_iter db k v : (k, v) ∈ sled_iter db ↔ db !! k = Some v.
Proof. unfold sled_iter. by rewrite sort_by_perm, elem_of_map_to_list. Qed.

Lemma elem_of_scan_prefix db p k v :
  (k, v) ∈ scan_prefix db p ↔ db !! k = Some v ∧ starts_with k p = true.
Proof.
  unfold scan_prefix. rewrite list_elem_of_In, filter_In, <- list_elem_of_In, elem_of_sled_iter. done.
Qed.

Lemma starts_with_app p e : starts_with (p ++ e) p = true.
Proof. unfold starts_with. apply bool_decide_eq_true_2, take_app_length. Qed.

Lemma starts_with_make_key t e : starts_with (make_key t e) (make_prefix t) = true.
Proof. apply (starts_with_app [STORAGE_VERSION; t]). Qed.

(** ** Block store *)

Section BlockStoreTheorems.
Context `{Codec Block}.

Lemma elem_of_decode_blocks kvs b :
  b ∈ decode_blocks kvs ↔ ∃ k v, (k, v) ∈ kvs ∧ deserialize v = Some b.
Proof.
  unfold decode_blocks. rewrite list_elem_of_omap. split.
  - intros ([k v] & Hin & Hd). by exists k, v.
  - intros (k & v & Hin & Hd). by exists (k, v).
Qed.

(** Collecting new blocks keeps the hashes distinct, adds only given blocks
    and misses no hash. *)
Lemma push_new_fold bs acc :
  NoDup (block_hash <$> acc) →
  let out := foldl push_new acc bs in
  NoDup (block_hash <$> out) ∧
  (∀ b, b ∈ out → b ∈ acc ∨ b ∈ bs) ∧
  (∀ b, b ∈ acc ∨ b ∈ bs → block_hash b ∈ block_hash <$> out).
Proof.
  revert acc. induction bs as [|b bs IH]; intros acc Hnd; cbn.
  { split_and!; [done | by left |]. intros b [Hb|Hb%elem_of_nil]; [|done].
    by apply list_elem_of_fmap_2. }
  assert (NoDup (block_hash <$> push_new acc b) ∧
          (∀ c, c ∈ push_new acc b → c ∈ acc ∨ c = b) ∧
          (∀ c, c ∈ acc → c ∈ push_new acc b) ∧
          block_hash b ∈ block_hash <$> push_new acc b) as (Hnd' & Hsub & Hkeep & Hin).
  { unfold push_new, contains. case_bool_decide as Hc; [by auto|].
    split_and!; [|set_solver..]. rewrite fmap_app. apply NoDup_app. split_and!; [done | | ].
    - intros h Hh ->%list_elem_of_singleton. done.
    - apply NoDup_singleton. }
  destruct (IH _ Hnd') as (? & Hout & Hall). split_and!; [done| |].
  { intros c [Hc|Hc]%Hout; [|by right; right]. destruct (Hsub c Hc) as [?| ->]; [by left|by right; left]. }
  intros c [Hc|[->|Hc]%elem_of_cons]; [by auto| |by auto].
  apply list_elem_of_fmap in Hin as (b' & Heq & Hb'). rewrite Heq. by auto.
Qed.

Lemma collect_blocks_spec db :
  let out := collect_blocks db in
  NoDup (block_hash <$> out) ∧
  (∀ b, b ∈ out → ∃ k v, db !! k = Some v ∧ deserialize v = Some b) ∧
  (∀ k v b, db !! k = Some v → deserialize v = Some b →
     starts_with k (make_prefix key_prefix.BLOCK) = true ∨ starts_with k [legacy_prefix.BLOCK] = true →
     block_hash b ∈ block_hash <$> out).
Proof.
  unfold collect_blocks.
  set (s1 := scan_prefix db (make_prefix key_prefix.BLOCK)). set (s2 := scan_prefix db [legacy_prefix.BLOCK]).
  destruct (push_new_fold (decode_blocks s1) []) as (N1 & S1 & C1); [constructor|].
  destruct (push_new_fold (decode_blocks s2) _ N1) as (N2 & S2 & C2).
  set (o1 := foldl push_new [] (decode_blocks s1)) in *.
  set (o2 := foldl push_new o1 (decode_blocks s2)) in *.
  assert (∀ b p, b ∈ decode_blocks (scan_prefix db p) →
            ∃ k v, db !! k = Some v ∧ deserialize v = Some b) as Hscan.
  { intros b p (k & v & Hin & Hd)%elem_of_decode_blocks. apply elem_of_scan_prefix in Hin as [? _]. eauto. }
  assert (∀ k v b, db !! k = Some v → deserialize v = Some b →
     starts_with k (make_prefix key_prefix.BLOCK) = true ∨ starts_with k [legacy_prefix.BLOCK] = true →
     block_hash b ∈ block_hash <$> o2) as Hcov.
  { intros k v b Hk Hd [Hp|Hp].
    - assert (b ∈ decode_blocks s1) as Hb.
      { apply elem_of_decode_blocks. exists k, v. split; [|done]. by apply elem_of_scan_prefix. }
      destruct (list_elem_of_fmap_1 _ _ _ (C1 b (or_intror Hb))) as (b' & -> & Hb'). apply C2. by left.
    - apply C2. right. apply elem_of_decode_blocks. exists k, v. split; [|done].
      by apply elem_of_scan_prefix. }
  destruct o2 as [|b0 o2'] eqn:Ho.
  - destruct (push_new_fold (decode_blocks (List.filter (λ kv, (length kv.1 =? 32)%nat) (sled_iter db))) [])
      as (N3 & S3 & C3); [constructor|].
    split_and!; [done | |].
    + intros b [?%elem_of_nil|Hb]%S3; [done|].
      apply elem_of_decode_blocks in Hb as (k & v & Hin & Hd).
      apply list_elem_of_In, filter_In in Hin as [Hin%list_elem_of_In _].
      apply elem_of_sled_iter in Hin. eauto.
    + intros k v b Hk Hd Hp. specialize (Hcov k v b Hk Hd Hp). by apply elem_of_nil in Hcov.
  - split_and!; [done | | done].
    intros b [Hb|Hb]%S2; [|by eapply Hscan].
    destruct (S1 b Hb) as [?%elem_of_nil|?]; [done|by eapply Hscan].
Qed.

Definition by_number (b c : Block) : Prop :=
  block_number (header b) <= block_number (header c).

Lemma length_sort_by {A} (leb : A → A → bool) l : length (sort_by leb l) = length l.
Proof. by rewrite sort_by_perm. Qed.

Lemma get_all_blocks_sorted db :
  get_all_blocks db = sort_by_key (λ b, block_number (header b)) (collect_blocks db).
Proof.
  unfold get_all_blocks, get_all_blocks_paginated. cbn [Nat.min drop].
  apply take_ge. unfold sort_by_key. by rewrite length_sort_by.
Qed.

(** [get_all_blocks] lists the stored blocks in ascending block number, each hash
    once, nothing that is not in the tree, and no hash stored under a
    versioned or legacy block key is missed; and the pages of
    [get_all_blocks_paginated] are the consecutive slices of that list. *)
Theorem get_all_blocks_spec db :
  let out := get_all_blocks db in
  StronglySorted by_number out ∧
  NoDup (block_hash <$> out) ∧
  (∀ b, b ∈ out → ∃ k v, db !! k = Some v ∧ deserialize v = Some b) ∧
  (∀ k v b, db !! k = Some v → deserialize v = Some b →
     starts_with k (make_prefix key_prefix.BLOCK) = true ∨ starts_with k [legacy_prefix.BLOCK] = true →
     block_hash b ∈ block_hash <$> out) ∧
  (∀ offset limit, get_all_blocks_paginated db offset limit = take limit (drop offset out)).
Proof.
  cbn zeta. rewrite get_all_blocks_sorted.
  pose proof (sort_by_perm (key_leb (λ b, block_number (header b))) (collect_blocks db)) as Hp.
  fold (sort_by_key (λ b, block_number (header b)) (collect_blocks db)) in Hp.
  destruct (collect_blocks_spec db) as (Hnd & Hsub & Hcov). split_and!.
  - eapply StronglySorted_mono; [|apply sort_by_sorted; [apply key_leb_total | apply key_leb_trans]].
    intros b c. unfold le_of, key_leb, by_number. by rewrite Z.leb_le.
  - by rewrite Hp.
  - intros b. rewrite Hp. apply Hsub.
  - intros. rewrite Hp. by eapply Hcov.
  - intros offset limit. unfold get_all_blocks_paginated. f_equal.
    set (l := sort_by_key _ _). destruct (decide (offset <= length l)%nat).
    + by rewrite Nat.min_l.
    + rewrite Nat.min_r by lia. rewrite !drop_ge by lia. done.
Qed.

Lemma block_key_ne_raw h h' : hash_wf h = true → hash_wf h' = true → block_key h ≠ hash_bytes h'.
Proof.
  intros [Hl _]%bytes_wf_ok [Hl' _]%bytes_wf_ok. apply make_key_ne_raw. lia.
Qed.

Lemma bs_put_spec db b db' :
  hash_wf (block_hash b) = true → bs_put db b = Ok db' →
  bs_get db' (block_hash b) = Ok (Some b) ∧
  (∀ h, hash_wf h = true → h ≠ block_hash b → bs_get db' h = bs_get db h).
Proof.
  unfold bs_put. intros Hwf Hput. destruct (serialize b) as [v|] eqn:Hs; [|done].
  cbn in Hput. injection Hput as <-. apply deserialize_serialize in Hs. split.
  - unfold bs_get, decode_or. rewrite lookup_insert_eq, Hs. done.
  - intros h Hh Hne. unfold bs_get. rewrite lookup_insert_ne.
    + by rewrite lookup_insert_ne by by apply block_key_ne_raw.
    + intros [_ Heq]%make_key_inj. by apply Hne, hash_bytes_inj.
Qed.

(** A stored block is read back by its hash and listed by
    [get_all_blocks]; storing it changes no other block's lookup. *)
Theorem block_store_roundtrip db b db' :
  hash_wf (block_hash b) = true → bs_put db b = Ok db' →
  bs_get db' (block_hash b) = Ok (Some b) ∧
  block_hash b ∈ block_hash <$> get_all_blocks db' ∧
  (∀ h, hash_wf h = true → h ≠ block_hash b → bs_get db' h = bs_get db h).
Proof.
  intros Hwf Hput. destruct (bs_put_spec db b db' Hwf Hput) as [Hget Hother]. split_and!; try done.
  unfold bs_put in Hput. destruct (serialize b) as [v|] eqn:Hs; [|done].
  cbn in Hput. injection Hput as <-. apply deserialize_serialize in Hs.
  rewrite get_all_blocks_sorted. unfold sort_by_key. rewrite sort_by_perm.
  eapply (proj2 (proj2 (collect_blocks_spec _)) (block_key (block_hash b)) v b);
    [apply lookup_insert_eq | done | left; apply starts_with_make_key].
Qed.

(** Deleting a block that is present in both the versioned and the oldest
    raw-hash format reports success and leaves the old copy, which is still
    read back. *)
Theorem delete_block_keeps_legacy_copy db h v old b :
  hash_wf h = true → db !! block_key h = Some v → db !! hash_bytes h = Some old →
  deserialize old = Some b →
  let '(db', deleted) := delete_block db h in deleted = true ∧ bs_get db' h = Ok (Some b).
Proof.
  intros Hwf Hv Hold Hb. unfold delete_block. rewrite Hv. split; [done|].
  unfold bs_get, decode_or. rewrite lookup_delete_eq, lookup_delete_ne, Hold by by apply block_key_ne_raw.
  cbn. by rewrite Hb.
Qed.

Lemma lookup_foldl_delete (keys : list (list u8)) (db : Sled) k :
  foldl (λ db k, delete k db) db keys !! k = if decide (k ∈ keys) then None else db !! k.
Proof.
  revert db. induction keys as [|k' keys IH]; intros db; cbn.
  { by rewrite decide_False by apply not_elem_of_nil. }
  rewrite IH. destruct (decide (k ∈ keys)).
  - rewrite decide_True; [done|]. by constructor.
  - destruct (decide (k = k')) as [->|].
    + rewrite lookup_delete_eq, decide_True; [done|]. by constructor.
    + rewrite lookup_delete_ne, decide_False; [done| |done]. rewrite elem_of_cons. by intros [?|?].
Qed.

(** The entries a full clear removes: every key whose first byte is a v0
    prefix (the storage version is one of them), and raw-hash blocks. *)
Definition cleared_entry (k v : list u8) : bool :=
  match k with b :: _ => (0 <=? b) && (b <=? 6) | [] => false end
  || ((length k =? 32)%nat && bool_decide (is_Some (deserialize (A:=Block) v))).

Lemma starts_with_1 k b : starts_with k [b] = true ↔ ∃ k', k = b :: k'.
Proof.
  unfold starts_with. rewrite bool_decide_eq_true. split.
  - destruct k as [|c k]; cbn; [done|]. rewrite take_0. intros [= ->]. by exists k.
  - intros [k' ->]. cbn. by rewrite take_0.
Qed.

Lemma elem_of_scan_keys (db : Sled) (ps : list (list u8)) k :
  k ∈ fst <$> (p ← ps; scan_prefix db p) ↔
  is_Some (db !! k) ∧ ∃ p, p ∈ ps ∧ starts_with k p = true.
Proof.
  rewrite list_elem_of_fmap. split.
  - intros ([k' v] & -> & Hin). apply list_elem_of_bind in Hin as (p & Hin & Hp).
    apply elem_of_scan_prefix in Hin as [Hv Hs]. cbn. split; [by exists v|]. by exists p.
  - intros ([v Hv] & p & Hp & Hs). exists (k, v). split; [done|].
    apply list_elem_of_bind. exists p. split; [|done]. by apply elem_of_scan_prefix.
Qed.

Lemma elem_of_clear_keys db k :
  k ∈ clear_keys db ↔ ∃ v, db !! k = Some v ∧ cleared_entry k v = true.
Proof.
  unfold clear_keys.
  change (tag ← [key_prefix.BALANCE; _; _; _; _; _; _; _; _; _; _]; scan_prefix db (make_prefix tag))
    with (p ← make_prefix <$> [key_prefix.BALANCE; key_prefix.NONCE; key_prefix.CONTRACT;
            key_prefix.CONTRACT_STORAGE; key_prefix.CHILDREN; key_prefix.PARENTS;
            key_prefix.BLOCK; key_prefix.BLOCK_HEIGHT; key_prefix.TRANSACTION;
            key_prefix.DAG_NODE; key_prefix.DAG_EDGE]; scan_prefix db p).
  change (b ← [legacy_prefix.BALANCE; _; _; _; _; _; _]; scan_prefix db [b])
    with (p ← (λ b, [b]) <$> [legacy_prefix.BALANCE; legacy_prefix.NONCE; legacy_prefix.CONTRACT;
            legacy_prefix.STORAGE; legacy_prefix.CHILDREN; legacy_prefix.PARENTS;
            legacy_prefix.BLOCK]; scan_prefix db p).
  rewrite !elem_of_app, !elem_of_scan_keys.
  rewrite (list_elem_of_fmap fst). setoid_rewrite list_elem_of_In.
  setoid_rewrite filter_In. setoid_rewrite <- list_elem_of_In.
  unfold cleared_entry. split.
  - intros [([v Hv] & p & Hp & Hs) | [([v Hv] & p & Hp & Hs) | ([k' v] & -> & Hin & Hf)]].
    + exists v. split; [done|]. apply orb_true_iff. left.
      apply list_elem_of_fmap in Hp as (t & -> & _).
      destruct k as [|b k]; [done|]. unfold starts_with in Hs. bool_to_prop.
      cbn in Hs. injection Hs as -> _. done.
    + exists v. split; [done|]. apply orb_true_iff. left.
      apply list_elem_of_fmap in Hp as (b & -> & Hb). apply starts_with_1 in Hs as [k' ->].
      repeat (apply elem_of_cons in Hb as [->|Hb]; [done|]). by apply elem_of_nil in Hb.
    + exists v. split; [by apply elem_of_sled_iter|]. apply orb_true_iff. by right.
  - intros (v & Hv & [Hp|Hp]%orb_true_iff); [right; left|right; right].
    + destruct k as [|b k]; [done|]. split; [by exists v|]. bool_to_prop.
      exists [b]. split; [|by apply (starts_with_app [b])].
      apply list_elem_of_fmap. exists b. split; [done|].
      unfold legacy_prefix.BALANCE, legacy_prefix.NONCE, legacy_prefix.CONTRACT,
        legacy_prefix.STORAGE, legacy_prefix.CHILDREN, legacy_prefix.PARENTS, legacy_prefix.BLOCK.
      assert (b = 0 ∨ b = 1 ∨ b = 2 ∨ b = 3 ∨ b = 4 ∨ b = 5 ∨ b = 6) as Hc by lia.
      rewrite !elem_of_cons. tauto.
    + exists (k, v). split; [done|]. split; [by apply elem_of_sled_iter|done].
Qed.

Lemma clear_all_lookup db k :
  fst (clear_all db) !! k = v ← db !! k; if cleared_entry k v then None else Some v.
Proof.
  unfold clear_all. cbn. rewrite lookup_foldl_delete. destruct (decide _) as [Hin|Hin].
  - apply elem_of_clear_keys in Hin as (v & -> & Hc). cbn. by rewrite Hc.
  - destruct (db !! k) as [v|] eqn:Hk; [|done]. cbn. destruct (cleared_entry k v) eqn:Hc; [|done].
    exfalso. apply Hin, elem_of_clear_keys. eauto.
Qed.

(** A full clear removes every versioned key (blocks, balances, nonces,
    code, storage, DAG edges and indices), every v0 key and every raw-hash
    block, keeps all other entries, the database version among them; no
    block can be read afterwards; and the reported count is at least the number of
    entries that disappeared. *)
Theorem clear_all_spec db :
  let '(db', cleared) := clear_all db in
  (∀ k, db' !! k = v ← db !! k; if cleared_entry k v then None else Some v) ∧
  (∀ t e, db' !! make_key t e = None) ∧
  db' !! DB_VERSION_KEY = db !! DB_VERSION_KEY ∧
  (∀ h b, hash_wf h = true → bs_get db' h ≠ Ok (Some b)) ∧
  Z.of_nat (size db) <= Z.of_nat (size db') + cleared.
Proof.
  unfold clear_all. cbn zeta.
  pose proof (clear_all_lookup db) as Hl. unfold clear_all in Hl. cbn in Hl.
  assert (∀ t e, foldl (λ db k, delete k db) db (clear_keys db) !! make_key t e = None) as Hmk.
  { intros t e. rewrite Hl. by destruct (db !! make_key t e). }
  split_and!; [done | done | | |].
  - rewrite Hl. destruct (db !! DB_VERSION_KEY) as [v|]; [|done]. done.
  - intros h b Hh. unfold bs_get, block_key. rewrite Hmk, Hl.
    destruct (db !! hash_bytes h) as [v|]; cbn; [|done].
    destruct (cleared_entry (hash_bytes h) v) eqn:Hc; [done|]. unfold decode_or.
    destruct (deserialize v) as [b'|] eqn:Hd; [|done].
    unfold cleared_entry in Hc. apply bytes_wf_ok in Hh as [Hlen _].
    rewrite Hlen, Hd in Hc. cbn in Hc. by rewrite orb_true_r in Hc.
  - clear. induction (clear_keys db) as [|k keys IH] using rev_ind; [cbn; lia|].
    rewrite foldl_app, length_app. cbn [foldl].
    set (m := foldl _ db keys) in *.
    pose proof (map_size_delete (M := gmap (list u8)) k m) as Hs.
    destruct (m !! k) eqn:Hk; cbn in *; lia.
Qed.
End BlockStoreTheorems.

(** ** Snapshots *)

Section SnapshotTheorems.
Context `{Hex, Zstd, HashIter}.

Definition account_writes (st : AccountState) : list StateWrite :=
  WBalance (as_address st) (as_balance st) :: WNonce (as_address st) (as_nonce st)
  :: match as_code st with Some code => [WCode (as_address st) code] | None => [] end.
Definition entry_write (e : StorageEntry) : StateWrite :=
  WStorage (se_address e) (se_key e) (se_value e).
Definition snapshot_writes (s : BlockchainSnapshot) : list StateWrite :=
  (accounts s ≫= account_writes) ++ (entry_write <$> storage s).

Lemma commit_batch_app db b b' : commit_batch db (b ++ b') = commit_batch (commit_batch db b) b'.
Proof. unfold commit_batch. by rewrite foldl_app. Qed.

Lemma commit_accounts db b accs :
  commit_batch db (foldl batch_put_account_state b accs)
  = foldl do_write (commit_batch db b) (accs ≫= account_writes).
Proof.
  revert b. induction accs as [|a accs IH]; intros b; [done|].
  cbn [foldl]. rewrite bind_cons, IH, foldl_app. f_equal.
  unfold batch_put_account_state, account_writes, batch_put_balance, batch_put_nonce,
    batch_put_contract_code.
  destruct (as_code a); by rewrite !commit_batch_app.
Qed.

Lemma commit_entries db b es :
  commit_batch db (foldl (λ b e, batch_put_storage b (se_address e) (se_key e) (se_value e)) b es)
  = foldl do_write (commit_batch db b) (entry_write <$> es).
Proof.
  revert b. induction es as [|e es IH]; intros b; [done|]. cbn [foldl fmap list_fmap].
  rewrite IH. f_equal. unfold batch_put_storage. by rewrite commit_batch_app.
Qed.

(** Storing a block is invisible to the account tables. *)
Lemma insert_block_represents db v h bs :
  hash_wf h = true → represents db v → represents (<[block_key h := bs]> db) v.
Proof.
  intros Hh [Hb Hn Hc Hs]. unfold block_key. split; intros.
  - rewrite <- Hb by done. by apply get_balance_insert_ne.
  - rewrite <- Hn by done. by apply get_nonce_insert_ne.
  - rewrite <- Hc by done. by apply get_code_insert_ne.
  - rewrite <- Hs by done. apply get_storage_insert_ne; [done|].
    apply bytes_wf_ok in Hh as [Hl _]. rewrite length_app, address_wf_length by done. lia.
Qed.

(** The last write wins, so a value written consistently is the one held. *)
Lemma spec_writes_balance ws v a x :
  WBalance a x ∈ ws → (∀ y, WBalance a y ∈ ws → y = x) →
  v_balance (foldl spec_write v ws) !! a = Some x.
Proof.
  induction ws as [|w ws IH] using rev_ind; [by intros ?%elem_of_nil|].
  intros Hin Huniq. rewrite foldl_app. cbn.
  assert (∀ y, WBalance a y ∈ ws → y = x) as Hu by (intros; apply Huniq; set_solver).
  destruct w as [b z|b z|b z|b k z]; cbn; try (apply IH; [set_solver|done]).
  destruct (decide (b = a)) as [->|].
  - rewrite lookup_insert_eq. f_equal. apply Huniq. set_solver.
  - rewrite lookup_insert_ne by done. apply IH; [set_solver|done].
Qed.
Lemma spec_writes_nonce ws v a x :
  WNonce a x ∈ ws → (∀ y, WNonce a y ∈ ws → y = x) →
  v_nonce (foldl spec_write v ws) !! a = Some x.
Proof.
  induction ws as [|w ws IH] using rev_ind; [by intros ?%elem_of_nil|].
  intros Hin Huniq. rewrite foldl_app. cbn.
  assert (∀ y, WNonce a y ∈ ws → y = x) as Hu by (intros; apply Huniq; set_solver).
  destruct w as [b z|b z|b z|b k z]; cbn; try (apply IH; [set_solver|done]).
  destruct (decide (b = a)) as [->|].
  - rewrite lookup_insert_eq. f_equal. apply Huniq. set_solver.
  - rewrite lookup_insert_ne by done. apply IH; [set_solver|done].
Qed.

Lemma try_fold_map {E A B} (f : A → result E B) l acc out :
  try_fold (λ acc x, y ← f x; Ok (acc ++ [y])) acc l = Ok out →
  ∃ ys, out = acc ++ ys ∧ Forall2 (λ x y, f x = Ok y) l ys.
Proof.
  revert acc. induction l as [|x l IH]; intros acc Hf; cbn in Hf.
  - injection Hf as <-. exists []. by rewrite app_nil_r.
  - destruct (f x) as [y|] eqn:Hy; cbn in Hf; [|done].
    destruct (IH _ Hf) as (ys & -> & Hys). exists (y :: ys).
    rewrite <- app_assoc. split; [done|]. by constructor.
Qed.

(** The accounts of a snapshot are those of the map, each once. *)
Lemma create_snapshot_accounts now db n h accts blocks s :
  create_snapshot now db n h accts blocks = Ok s →
  snap_blocks s = blocks ∧
  (∀ st, st ∈ accounts s ↔
     ∃ code, accts !! as_address st = Some (as_balance st, as_nonce st) ∧
             get_contract_code db (as_address st) = Ok code ∧ as_code st = code).
Proof.
  unfold create_snapshot. intros Hs. destruct (try_fold _ _ _) as [accs|] eqn:Hf; [|done].
  cbn in Hs. injection Hs as <-. split; [done|]. cbn.
  apply try_fold_map in Hf as (ys & -> & Hys). cbn.
  assert (∀ kv st, snapshot_account db kv = Ok st ↔
            kv = (as_address st, (as_balance st, as_nonce st)) ∧
            get_contract_code db (as_address st) = Ok (as_code st)) as Hacc.
  { intros [a [bal nn]] [a' bal' nn' code']. unfold snapshot_account. cbn. split.
    - destruct (get_contract_code db a) as [c|] eqn:Hc; cbn; [|done]. intros [= -> -> -> ->]. done.
    - intros [[= -> -> ->] ->]. done. }
  assert (∀ kv, kv ∈ hm_iter accts ↔ accts !! kv.1 = Some kv.2) as Hiter.
  { intros [a p]. by rewrite hm_iter_perm, elem_of_map_to_list. }
  intros st. split.
  - intros [i Hi]%list_elem_of_lookup_1.
    destruct (Forall2_lookup_r _ _ _ _ _ Hys Hi) as (kv & Hkv & [-> Hc]%Hacc).
    exists (as_code st). split_and!; [|done..].
    by apply list_elem_of_lookup_2, Hiter in Hkv.
  - intros (code & Ha & Hc & <-).
    assert ((as_address st, (as_balance st, as_nonce st)) ∈ hm_iter accts) as [i Hi]%list_elem_of_lookup_1
      by by apply Hiter.
    destruct (Forall2_lookup_l _ _ _ _ _ Hys Hi) as (st' & Hst' & [Heq Hc']%Hacc).
    apply list_elem_of_lookup_2 in Hst'. destruct st, st'; cbn in *. simplify_eq.
    rewrite Hc in Hc'. by injection Hc' as <-.
Qed.

Lemma restore_blocks `{Codec Block} db batch blocks batch' v :
  Forall (λ b, hash_wf (block_hash b) = true) blocks →
  represents (commit_batch db batch) v →
  try_fold batch_put_block batch blocks = Ok batch' →
  represents (commit_batch db batch') v.
Proof.
  intros Hwf Hr Hf. revert batch Hr Hf.
  induction Hwf as [|b blocks Hb Hwf IH]; intros batch Hr Hf; cbn [try_fold] in Hf;
    [by injection Hf as <-|].
  apply bind_Ok in Hf as (batch1 & Hput & Hf). eapply IH; [|done].
  unfold batch_put_block in Hput. apply bind_Ok in Hput as (bs & _ & [= <-]).
  rewrite commit_batch_app. by apply insert_block_represents.
Qed.

(** A snapshot restores the state it was taken of.  Restoring it over any
    tree leaves tables that are the old ones overwritten with exactly the
    snapshot's entries; every account of the snapshotted map reads back its
    balance and its nonce, whatever the tree held for it before. *)
Theorem snapshot_restore `{Codec Block} now db n h accts blocks s db2 v2 db3 :
  create_snapshot now db n h accts blocks = Ok s →
  Forall write_ok (snapshot_writes s) →
  Forall (λ b, hash_wf (block_hash b) = true) blocks →
  represents db2 v2 → restore_snapshot db2 s = Ok db3 →
  represents db3 (foldl spec_write v2 (snapshot_writes s)) ∧
  (∀ a bal nn, accts !! a = Some (bal, nn) → is_ok (get_contract_code db a) = true →
     address_wf a = true → db_get_balance db3 a = Some bal ∧ db_get_nonce db3 a = Some nn).
Proof.
  intros Hcreate Hw Hwf Hr Hres.
  destruct (create_snapshot_accounts _ _ _ _ _ _ _ Hcreate) as [Hblocks Haccs].
  assert (represents db3 (foldl spec_write v2 (snapshot_writes s))) as Hrep.
  { unfold restore_snapshot in Hres. destruct (try_fold _ _ _) as [batch|] eqn:Hf; [|done].
    cbn in Hres. injection Hres as <-. rewrite Hblocks in Hf.
    eapply restore_blocks; [done| |done]. rewrite commit_entries, commit_accounts, <- foldl_app.
    fold (snapshot_writes s). by apply represents_writes. }
  split; [done|]. intros a bal nn Ha Hcode Hawf.
  destruct (get_contract_code db a) as [code|] eqn:Hc; [|done].
  assert (MkAccountState a bal nn code ∈ accounts s) as Hin by (apply Haccs; eauto).
  assert (∀ st, st ∈ accounts s → as_address st = a → as_balance st = bal ∧ as_nonce st = nn) as Huniq.
  { intros st (c & Hst & _)%Haccs <-. rewrite Ha in Hst. by injection Hst. }
  destruct Hrep as [Hb Hn _ _]. rewrite Hb, Hn by done.
  assert (∀ w, w ∈ snapshot_writes s ↔
            (∃ st, st ∈ accounts s ∧ w ∈ account_writes st) ∨
            (∃ e, e ∈ storage s ∧ w = entry_write e)) as Hws.
  { intros w. unfold snapshot_writes. rewrite elem_of_app, list_elem_of_fmap, list_elem_of_bind.
    naive_solver. }
  split.
  - apply spec_writes_balance.
    + apply Hws. left. exists (MkAccountState a bal nn code). split; [done|]. by left.
    + intros y [(st & Hst & Hy)|(e & _ & Heq)]%Hws; [|done].
      unfold account_writes in Hy. destruct (Huniq st Hst) as [<- _]; [|]; destruct (as_code st); set_solver.
  - apply spec_writes_nonce.
    + apply Hws. left. exists (MkAccountState a bal nn code). split; [done|]. right. by left.
    + intros y [(st & Hst & Hy)|(e & _ & Heq)]%Hws; [|done].
      unfold account_writes in Hy. destruct (Huniq st Hst) as [_ <-]; [|]; destruct (as_code st); set_solver.
Qed.
End SnapshotTheorems.

Section LegacyTheorems.
Context `{Hex, Zstd, Codec Block}.

Lemma length_as_bytes s : length (as_bytes s) = String.length s.
Proof. induction s; cbn; by f_equal. Qed.

Lemma build_v1_key_length v0 e k :
  build_v1_key v0 e = Ok k → k = [] ∨ (22 <= length k)%nat.
Proof.
  unfold build_v1_key. intros Hb.
  repeat case_match; simplify_eq; auto; right;
    repeat match goal with H : (_ =? _)%nat = true |- _ => apply Nat.eqb_eq in H
                         | H : (_ <=? _)%nat = true |- _ => apply Nat.leb_le in H end;
    unfold balance_key, nonce_key, contract_key, storage_key, children_key, parents_key,
      block_key, make_key; cbn -[take drop]; rewrite ?length_app, ?length_take; lia.
Qed.

(** A full clear does not clear hex-keyed legacy accounts: the balance such an
    entry holds is what the account reads as afterwards, even though the
    versioned balance that shadowed it is gone. *)
Theorem clear_all_revives_legacy_balance db a bs bal :
  db !! legacy_key "balance:" (addr_bytes a) = Some bs → read_int 16 bs = Some bal →
  address_wf a = true →
  db_get_balance (fst (clear_all db)) a = Some bal.
Proof.
  intros Hl Hr Ha. pose proof (clear_all_lookup db) as Hc.
  unfold db_get_balance, get_int. rewrite !Hc.
  assert (cleared_entry (legacy_key "balance:" (addr_bytes a)) bs = false) as Hne.
  { unfold cleared_entry. apply orb_false_iff. split; [done|].
    apply andb_false_iff. left. apply Nat.eqb_neq. unfold legacy_key. rewrite length_app.
    rewrite !length_as_bytes, hex_encode_length, address_wf_length by done. cbn. lia. }
  rewrite Hl. cbn -[cleared_entry legacy_key balance_key read_int]. rewrite Hne.
  destruct (db !! balance_key a) as [v|]; cbn -[read_int]; done.
Qed.

(** The v0 key migrator never migrates a nonce: the legacy nonce prefix is
    the same byte as the storage version, so every such key is taken for an
    already migrated one and stays as it is. *)
Theorem migrator_skips_nonces db db' n a :
  migrator_v0_to_v1 db = Ok (db', n) → address_wf a = true →
  db' !! (legacy_prefix.NONCE :: addr_bytes a) = db !! (legacy_prefix.NONCE :: addr_bytes a).
Proof.
  intros Hm Ha.
  set (k := legacy_prefix.NONCE :: addr_bytes a).
  refine (try_fold_ind _ (λ st, st.1 !! k = db !! k) _ _ _ _ eq_refl Hm).
  intros st v0 st' _ Hst Hf. refine (try_fold_ind _ (λ st, st.1 !! k = db !! k) _ _ _ _ Hst Hf).
  clear - Ha. intros [db1 m] [k0 v] st' _ Hst He. cbn in Hst. unfold migrate_entry in He. cbn in He.
  destruct (starts_with k0 [STORAGE_VERSION]) eqn:Hsw; [by injection He as <-|].
  apply bind_Ok in He as (nk & Hnk & He). case_bool_decide; injection He as <-; [done|]. cbn.
  rewrite lookup_delete_ne, lookup_insert_ne; [done| |].
  - intros ->. apply build_v1_key_length in Hnk as [->|Hnk]; [done|].
    unfold k in Hnk. cbn in Hnk. rewrite address_wf_length in Hnk by done. lia.
  - intros ->. cbn in Hsw. by rewrite (proj2 (starts_with_1 k STORAGE_VERSION)) in Hsw by by exists (addr_bytes a).
Qed.

(** [needs_migration] is true of every database that holds a versioned
    key, fully migrated or not, for the same reason. *)
Theorem needs_migration_of_current db t e v :
  db !! make_key t e = Some v → needs_migration db = true.
Proof.
  intros Hk. unfold needs_migration. apply existsb_exists.
  exists legacy_prefix.NONCE. split; [right; by left|].
  apply negb_true_iff, bool_decide_eq_false_2. intros Hnil.
  assert ((make_key t e, v) ∈ scan_prefix db [legacy_prefix.NONCE]) as Hin.
  { apply elem_of_scan_prefix. split; [done|]. apply starts_with_1. by exists (t :: e). }
  rewrite Hnil in Hin. by apply elem_of_nil in Hin.
Qed.

(** A saved snapshot file loads back. *)
Lemma snapshot_file_roundtrip `{Codec BlockchainSnapshot} s file :
  save_to_file s = Ok file → load_from_file file = Ok s.
Proof.
  unfold save_to_file. intros Hs. apply bind_Ok in Hs as (data & Hd & Hs).
  apply bind_Ok in Hs as (c & Hc & Hs). assert (file = SNAPSHOT_MAGIC ++ c) as -> by congruence.
  destruct (serialize s) as [bs|] eqn:Hser; [|done]. injection Hd as <-.
  destruct (zstd_encode_all bs) as [z|] eqn:Hz; [|done]. injection Hc as <-.
  unfold load_from_file. rewrite (starts_with_app SNAPSHOT_MAGIC). cbn.
  rewrite drop_0, (zstd_roundtrip _ _ Hz). cbn. by rewrite (deserialize_serialize _ _ Hser).
Qed.
End LegacyTheorems.

(** ** Concrete instances *)

Module StorageReference.
#[local] Existing Instance Reference.hex.
#[local] Existing Instance canonical_iter.

(** A compressor that never shortens: values are stored as they are. *)
Definition toy_encode (data : list u8) : option (list u8) := Some data.
Lemma toy_zstd_roundtrip data c : toy_encode data = Some c → Some c = Some data.
Proof. by intros [= ->]. Qed.
#[local] Instance zstd : Zstd := {|
  zstd_encode_all := toy_encode; zstd_decode_all := Some; zstd_roundtrip := toy_zstd_roundtrip |}.
#[local] Instance block_codec : Codec Block := countable_codec Block.

Definition sample_hash : Hash := MkHash (replicate 32 9).
Definition sample_block : Block :=
  MkBlock (MkHeader [hash_zero] 3 StreamA 1 0 0 0 1 None None) [] sample_hash None.
Definition sample_address : Address := MkAddress (replicate 20 9).
Definition sample_bytes : list u8 := bits_of (encode sample_block).

Definition future_db : Sled := {[DB_VERSION_KEY := to_le_bytes 4 7]}.
Lemma check_and_migrate_spec_witness :
  snd (check_and_migrate future_db) = Err (FutureVersion 7 1) ∧
  fst (check_and_migrate future_db) !! MIGRATION_IN_PROGRESS_KEY = None.
Proof.
  split; [vm_compute; reflexivity|].
  assert (Hb : ∀ bytes, future_db !! DB_VERSION_KEY = Some bytes → bytes_ok bytes).
  { intros bytes Hb. unfold future_db in Hb. rewrite lookup_singleton_eq in Hb. injection Hb as <-.
    change (bytes_ok [7; 0; 0; 0]). repeat (apply Forall_cons_2; [lia|]). apply Forall_nil_2. }
  pose proof (check_and_migrate_spec future_db Hb) as Hs.
  destruct (check_and_migrate future_db) as [db' r]. exact (proj1 Hs).
Defined.


Lemma block_store_roundtrip_witness :
  bs_get (<[block_key sample_hash := sample_bytes]> ∅) sample_hash = Ok (Some sample_block).
Proof.
  exact (proj1 (block_store_roundtrip ∅ sample_block
    (<[block_key sample_hash := sample_bytes]> ∅) eq_refl eq_refl)).
Defined.

Lemma delete_block_keeps_legacy_copy_witness :
  bs_get (fst (delete_block
    (<[hash_bytes sample_hash := sample_bytes]> {[block_key sample_hash := sample_bytes]})
    sample_hash)) sample_hash = Ok (Some sample_block).
Proof.
  set (db := <[hash_bytes sample_hash := sample_bytes]> {[block_key sample_hash := sample_bytes]}).
  assert (Hk : db !! block_key sample_hash = Some sample_bytes).
  { unfold db. rewrite lookup_insert_ne; [apply lookup_singleton_eq | by vm_compute]. }
  assert (Hl : db !! hash_bytes sample_hash = Some sample_bytes) by apply lookup_insert_eq.
  assert (Hd : deserialize sample_bytes = Some sample_block)
    by exact (deserialize_serialize sample_block sample_bytes eq_refl).
  pose proof (delete_block_keeps_legacy_copy db sample_hash sample_bytes sample_bytes
                sample_block eq_refl Hk Hl Hd) as Hdel.
  destruct (delete_block db sample_hash) as [db' d]. exact (proj2 Hdel).
Defined.

Definition accts : gmap Address (u128 * u64) := {[sample_address := (5, 6)]}.
Definition snap : BlockchainSnapshot :=
  match create_snapshot 7 ∅ 1 hash_zero accts [] with
  | Ok s => s
  | Err _ => MkSnapshot (MkMeta 0 0 hash_zero 0 0 0 0 []) [] [] []
  end.
Definition restored : Sled :=
  match restore_snapshot ∅ snap with Ok db => db | Err _ => ∅ end.

Lemma snapshot_restore_witness : db_get_balance restored sample_address = Some 5.
Proof.
  assert (Hc : create_snapshot 7 ∅ 1 hash_zero accts [] = Ok snap) by (vm_compute; reflexivity).
  assert (Hr : restore_snapshot ∅ snap = Ok restored) by (vm_compute; reflexivity).
  assert (Hw : snapshot_writes snap = [WBalance sample_address 5; WNonce sample_address 6])
    by (vm_compute; reflexivity).
  assert (Hok : Forall write_ok (snapshot_writes snap)).
  { rewrite Hw. repeat constructor; by vm_compute. }
  assert (Ha : accts !! sample_address = Some (5, 6)) by apply lookup_singleton_eq.
  assert (Hcode : is_ok (get_contract_code ∅ sample_address) = true) by (vm_compute; reflexivity).
  assert (Hwf : address_wf sample_address = true) by reflexivity.
  destruct (snapshot_restore 7 ∅ 1 hash_zero accts [] snap ∅ (MkView ∅ ∅ ∅ ∅) restored
              Hc Hok (Forall_nil_2 _) represents_empty Hr) as [_ Hbal].
  exact (proj1 (Hbal sample_address 5 6 Ha Hcode Hwf)).
Defined.

Lemma clear_all_revives_legacy_balance_witness :
  db_get_balance (fst (clear_all
    {[legacy_key "balance:" (addr_bytes sample_address) := to_le_bytes 16 5]})) sample_address = Some 5.
Proof.
  refine (clear_all_revives_legacy_balance _ sample_address (to_le_bytes 16 5) 5 _ _ _);
    [apply lookup_singleton_eq | vm_compute; reflexivity | reflexivity].
Defined.

Definition v0_db : Sled := {[legacy_prefix.NONCE :: addr_bytes sample_address := to_le_bytes 8 4]}.
Lemma migrator_skips_nonces_witness :
  v0_db !! (legacy_prefix.NONCE :: addr_bytes sample_address) = Some (to_le_bytes 8 4) ∧
  v0_db !! (legacy_prefix.NONCE :: addr_bytes sample_address)
  = v0_db !! (legacy_prefix.NONCE :: addr_bytes sample_address).
Proof.
  split; [apply lookup_singleton_eq|].
  assert (Hm : migrator_v0_to_v1 v0_db = Ok (v0_db, 0)) by (vm_compute; reflexivity).
  exact (migrator_skips_nonces v0_db v0_db 0 sample_address Hm eq_refl).
Defined.

Lemma needs_migration_of_current_witness :
  needs_migration {[balance_key sample_address := to_le_bytes 16 5]} = true.
Proof.
  apply (needs_migration_of_current _ key_prefix.BALANCE (addr_bytes sample_address) (to_le_bytes 16 5)).
  apply lookup_singleton_eq.
Defined.
End StorageReference.
