(* ===== verification/DagStorage.v ===== *)
(** * DagStorage: the hybrid store of the DAG

    Models [irondag-blockchain/src/consensus/storage.rs]: the hot cache of recent blocks
    with its eviction order, the parent/child index, pruning, and the
    consensus checkpoints kept in the database.

    The database is an [Arc] shared with the rest of the node: its tree is a
    separate component of the state the operations run on ([DsState]), [None] when the storage
    was built without a database. *)

From S2P Require Import Prelude Types Block Error.
From S2P Require Import Storage.

Definition PREFIX_BLUE_SCORE : u8 := 16.
Definition PREFIX_BLUE_SET : u8 := 17.
Definition PREFIX_ORDERING : u8 := 18.
Definition KEY_CHECKPOINT_META : list u8 := as_bytes "checkpoint_meta".

Record DagStorageConfig := MkDagConfig {
  hot_cache_size : nat; finalized_depth : nat; confirmations_for_checkpoint : nat }.
Definition dag_storage_config_default : DagStorageConfig := MkDagConfig 1000 500 100.

Record HybridDagStorage := MkDagStorage {
  hot_blocks : gmap Hash Block;
  hot_blocks_order : list Hash;
  hot_children : gmap Hash (list Hash);
  hot_blue_set : gset Hash;
  hot_blue_scores : gmap Hash u64;
  ds_config : DagStorageConfig;
  finalized_blocks : gset Hash;
  blocks_since_checkpoint : nat }.

Definition ds_new (c : DagStorageConfig) : HybridDagStorage :=
  MkDagStorage ∅ [] ∅ ∅ ∅ c ∅ 0.

Definition DsState : Type := option (gmap (list u8) (list u8)) * HybridDagStorage.

Section HybridDagStorage.
Context `{Hex, Codec Block, Codec (list Hash), HashIter}.

Definition ds_get_block (st : DsState) (h : Hash) : result BlockchainError (option Block) :=
  match hot_blocks st.2 !! h with
  | Some b => Ok (Some b)
  | None => match st.1 with Some db => bs_get db h | None => Ok None end
  end.

Definition ds_get_children (st : DsState) (p : Hash) : result BlockchainError (list Hash) :=
  match hot_children st.2 !! p with
  | Some cs => Ok cs
  | None =>
      match st.1 with
      | Some db => o ← Storage.get_children db p; Ok (default [] o)
      | None => Ok []
      end
  end.

Definition set_children (s : HybridDagStorage) (p : Hash) (cs : list Hash) : HybridDagStorage :=
  MkDagStorage (hot_blocks s) (hot_blocks_order s) (<[p := cs]> (hot_children s))
    (hot_blue_set s) (hot_blue_scores s) (ds_config s) (finalized_blocks s)
    (blocks_since_checkpoint s).

(** Drop a block from the hot maps and mark it finalized. *)
Definition evict (s : HybridDagStorage) (order : list Hash) (h : Hash) : HybridDagStorage :=
  MkDagStorage (delete h (hot_blocks s)) order (delete h (hot_children s))
    (hot_blue_set s ∖ {[h]}) (delete h (hot_blue_scores s)) (ds_config s)
    ({[h]} ∪ finalized_blocks s) (blocks_since_checkpoint s).

(** [while remove_count > 0]: the order queue shrinks at every turn. *)
Fixpoint prune_loop (order : list Hash) (remove_count : nat) (s : HybridDagStorage) :
    HybridDagStorage :=
  match remove_count, order with
  | O, _ | _, [] =>
      MkDagStorage (hot_blocks s) order (hot_children s) (hot_blue_set s) (hot_blue_scores s)
        (ds_config s) (finalized_blocks s) (blocks_since_checkpoint s)
  | S n, h :: order' =>
      match hot_blocks s !! h with
      | Some _ => prune_loop order' n (evict s order' h)
      | None => prune_loop order' (S n) s
      end
  end.

Definition prune_hot_cache (s : HybridDagStorage) : HybridDagStorage :=
  let remove_count := (size (hot_blocks s) - hot_cache_size (ds_config s))%nat in
  if (remove_count =? 0)%nat then s else prune_loop (hot_blocks_order s) remove_count s.

Definition insert_hot (s : HybridDagStorage) (b : Block) : HybridDagStorage :=
  let h := block_hash b in
  MkDagStorage (<[h := b]> (hot_blocks s))
    (if bool_decide (is_Some (hot_blocks s !! h)) then hot_blocks_order s
     else hot_blocks_order s ++ [h])
    (hot_children s) (hot_blue_set s) (hot_blue_scores s) (ds_config s) (finalized_blocks s)
    (blocks_since_checkpoint s).

(** A write to the database, when there is one. *)
Definition db_write (f : gmap (list u8) (list u8) → result BlockchainError (gmap (list u8) (list u8))) :
    SE DsState BlockchainError unit := λ st,
  match st.1 with
  | None => (Ok tt, st)
  | Some db => match f db with
               | Ok db' => (Ok tt, (Some db', st.2))
               | Err e => (Err e, st)
               end
  end.

(** The child list of one parent, on disk and, if cached, in the hot map. *)
Definition index_child (h p : Hash) : SE DsState BlockchainError unit :=
  children ← se_read (λ st, ds_get_children st p);
  if contains h children then mret tt else
  let children := children ++ [h] in
  _ ← db_write (λ db, put_children db p children);
  se_mod (λ st, (st.1, if bool_decide (is_Some (hot_children st.2 !! p))
                       then set_children st.2 p children else st.2)).

Definition ds_add_block (b : Block) : SE DsState BlockchainError unit :=
  let h := block_hash b in
  _ ← se_mod (λ st, (st.1, insert_hot st.2 b));
  st ← se_get;
  _ ← (match st.1 with
       | None => mret tt
       | Some _ =>
           _ ← db_write (λ db, bs_put db b);
           _ ← db_write (λ db, put_parents db h (parent_hashes (header b)));
           se_for (parent_hashes (header b)) (index_child h)
       end : SE DsState BlockchainError unit);
  se_mod (λ st, (st.1, if (hot_cache_size (ds_config st.2) <? size (hot_blocks st.2))%nat
                       then prune_hot_cache st.2 else st.2)).

Definition is_hot_blue (s : HybridDagStorage) (h : Hash) : bool := bool_decide (h ∈ hot_blue_set s).

Definition add_to_blue_set (s : HybridDagStorage) (h : Hash) : HybridDagStorage :=
  MkDagStorage (hot_blocks s) (hot_blocks_order s) (hot_children s) ({[h]} ∪ hot_blue_set s)
    (hot_blue_scores s) (ds_config s) (finalized_blocks s) (blocks_since_checkpoint s).

Definition set_blue_score (s : HybridDagStorage) (h : Hash) (score : u64) : HybridDagStorage :=
  MkDagStorage (hot_blocks s) (hot_blocks_order s) (hot_children s) (hot_blue_set s)
    (<[h := score]> (hot_blue_scores s)) (ds_config s) (finalized_blocks s)
    (blocks_since_checkpoint s).

Definition is_finalized (s : HybridDagStorage) (h : Hash) : bool :=
  bool_decide (h ∈ finalized_blocks s).

Definition ds_get_all_blocks (st : DsState) : list Block :=
  match st.1 with
  | None => snd <$> hm_iter (hot_blocks st.2)
  | Some db => Storage.get_all_blocks db
  end.

Definition prune_blocks_by_hash (s : HybridDagStorage) (hs : list Hash) : HybridDagStorage :=
  let s := foldl (λ s h, evict s (hot_blocks_order s) h) s hs in
  MkDagStorage (hot_blocks s) (List.filter (λ h, negb (contains h hs)) (hot_blocks_order s))
    (hot_children s) (hot_blue_set s) (hot_blue_scores s) (ds_config s) (finalized_blocks s)
    (blocks_since_checkpoint s).

(** The pruned hashes keep their place in [hot_blue_set] (they are not in
    it). *)
Definition drop_red (s : HybridDagStorage) (h : Hash) : HybridDagStorage :=
  MkDagStorage (delete h (hot_blocks s)) (hot_blocks_order s) (delete h (hot_children s))
    (hot_blue_set s) (delete h (hot_blue_scores s)) (ds_config s)
    ({[h]} ∪ finalized_blocks s) (blocks_since_checkpoint s).

Definition prune_red_blocks (s : HybridDagStorage) (current_height finality_depth : u64) :
    HybridDagStorage * usize :=
  if current_height <=? finality_depth then (s, 0) else
  let threshold := current_height - finality_depth in
  let to_prune :=
    fst <$> List.filter
      (λ hb : Hash * Block, negb (is_hot_blue s hb.1)
                            && (block_number (header hb.2) <? threshold))
      (hm_iter (hot_blocks s)) in
  let s := foldl drop_red s to_prune in
  (MkDagStorage (hot_blocks s) (List.filter (λ h, negb (contains h to_prune)) (hot_blocks_order s))
     (hot_children s) (hot_blue_set s) (hot_blue_scores s) (ds_config s) (finalized_blocks s)
     (blocks_since_checkpoint s),
   Z.of_nat (length to_prune)).

Definition ds_clear (s : HybridDagStorage) : HybridDagStorage :=
  MkDagStorage ∅ [] ∅ ∅ ∅ (ds_config s) ∅ 0.

Definition set_counter (s : HybridDagStorage) (n : nat) : HybridDagStorage :=
  MkDagStorage (hot_blocks s) (hot_blocks_order s) (hot_children s) (hot_blue_set s)
    (hot_blue_scores s) (ds_config s) (finalized_blocks s) n.
Definition increment_checkpoint_counter (s : HybridDagStorage) : HybridDagStorage :=
  set_counter s (S (blocks_since_checkpoint s)).
Definition reset_checkpoint_counter (s : HybridDagStorage) : HybridDagStorage := set_counter s 0.

(** *** Checkpoints: the writes and reads of the shared tree *)

Definition score_key (h : Hash) : list u8 := PREFIX_BLUE_SCORE :: hash_bytes h.
Definition blue_key (h : Hash) : list u8 := PREFIX_BLUE_SET :: hash_bytes h.
Definition order_key (i : nat) : list u8 := PREFIX_ORDERING :: to_be_bytes 8 (Z.of_nat i).

Definition save_blue_score (db : Sled) (h : Hash) (score : u64) : Sled :=
  <[score_key h := to_le_bytes 8 score]> db.

(** Remove the old entries of a table. *)
Definition clear_table (db : Sled) (prefix : u8) : Sled :=
  foldl (λ db k, delete k db) db (fst <$> scan_prefix db [prefix]).

Definition save_blue_set (db : Sled) (blue_set : gset Hash) : Sled :=
  foldl (λ db h, <[blue_key h := []]> db) (clear_table db PREFIX_BLUE_SET) (hs_iter blue_set).

Definition save_ordering (db : Sled) (ordering : list Hash) : Sled :=
  foldl (λ db ih, <[order_key ih.1 := hash_bytes ih.2]> db) (clear_table db PREFIX_ORDERING)
    (zip (seq 0 (length ordering)) ordering).

Definition save_checkpoint (db : Sled) (genesis : option Hash) (blue_set : gset Hash)
    (blue_scores : gmap Hash u64) (ordering : list Hash) : Sled :=
  let meta := (match genesis with Some g => hash_bytes g | None => replicate 32 0 end)
              ++ to_be_bytes 8 (Z.of_nat (length ordering)) in
  let db := <[KEY_CHECKPOINT_META := meta]> db in
  let db := save_blue_set db blue_set in
  let db := foldl (λ db hs, save_blue_score db hs.1 hs.2) db (hm_iter blue_scores) in
  save_ordering db ordering.

Definition load_blue_scores (db : Sled) : gmap Hash u64 :=
  foldl (λ m kv, if (length kv.1 =? 33)%nat && (length kv.2 =? 8)%nat
                 then <[MkHash (drop 1 kv.1) := from_le_bytes kv.2]> m else m)
    ∅ (scan_prefix db [PREFIX_BLUE_SCORE]).

Definition load_blue_set (db : Sled) : gset Hash :=
  foldl (λ s kv, if (length kv.1 =? 33)%nat then {[MkHash (drop 1 kv.1)]} ∪ s else s)
    ∅ (scan_prefix db [PREFIX_BLUE_SET]).

Definition load_ordering_map (db : Sled) : gmap nat Hash :=
  foldl (λ m kv, if (length kv.1 =? 9)%nat && (length kv.2 =? 32)%nat
                 then <[Z.to_nat (from_be_bytes (drop 1 kv.1)) := MkHash kv.2]> m else m)
    ∅ (scan_prefix db [PREFIX_ORDERING]).

(** The indices present, from 0 up to the greatest. *)
Definition load_ordering (db : Sled) : list Hash :=
  let m := load_ordering_map db in
  let max_idx := foldr Nat.max 0%nat (fst <$> hm_iter m) in
  omap (λ i, m !! i) (seq 0 (S max_idx)).

Definition load_checkpoint (db : Sled) :
    option (option Hash * gset Hash * gmap Hash u64 * list Hash) :=
  meta ← db !! KEY_CHECKPOINT_META;
  if (length meta <? 40)%nat then None else
  let g := take 32 meta in
  let genesis := if bool_decide (g = replicate 32 0) then None else Some (MkHash g) in
  let blue_set := load_blue_set db in
  let blue_scores := load_blue_scores db in
  let ordering := load_ordering db in
  if bool_decide (blue_set = ∅) && bool_decide (ordering = []) then None
  else Some (genesis, blue_set, blue_scores, ordering).
End HybridDagStorage.

(** ** The hot cache *)

Record cache_ok (s : HybridDagStorage) : Prop := {
  order_nodup : NoDup (hot_blocks_order s);
  order_dom : ∀ h, h ∈ hot_blocks_order s ↔ is_Some (hot_blocks s !! h);
  hot_keyed : ∀ h b, hot_blocks s !! h = Some b → block_hash b = h;
}.

Lemma cache_ok_length s : cache_ok s → length (hot_blocks_order s) = size (hot_blocks s).
Proof.
  intros [Hnd Hdom _]. rewrite <- size_dom, <- (size_list_to_set (C := gset Hash)) by done.
  f_equal. apply set_eq. intros h. rewrite elem_of_list_to_set, Hdom, elem_of_dom. done.
Qed.

Lemma cache_ok_new c : cache_ok (ds_new c).
Proof. split; cbn; [constructor | | done]. intros h. rewrite elem_of_nil, lookup_empty. by split; [|intros []]. Qed.

Lemma insert_hot_ok s b : cache_ok s → cache_ok (insert_hot s b).
Proof.
  intros [Hnd Hdom Hkey]. split; cbn.
  - case_bool_decide as Hb; [done|]. apply NoDup_app. split_and!; [done | |apply NoDup_singleton].
    intros h Hh ->%list_elem_of_singleton. by apply Hb, Hdom.
  - intros h. case_bool_decide as Hb.
    + rewrite Hdom, lookup_insert_is_Some'. split; [by right|]. intros [<-|?]; done.
    + rewrite elem_of_app, list_elem_of_singleton, Hdom, lookup_insert_is_Some'. naive_solver.
  - intros h c. rewrite lookup_insert_Some. intros [[<- <-]|[_ Hc]]; [done|by apply Hkey].
Qed.

(** Evicting from the front keeps the cache in sync and removes exactly the
    requested number of blocks, oldest first. *)
Lemma prune_loop_spec order n s :
  cache_ok (MkDagStorage (hot_blocks s) order (hot_children s) (hot_blue_set s) (hot_blue_scores s)
              (ds_config s) (finalized_blocks s) (blocks_since_checkpoint s)) →
  (n <= length order)%nat →
  let s' := prune_loop order n s in
  cache_ok s' ∧ hot_blocks_order s' = drop n order ∧ ds_config s' = ds_config s ∧
  (∀ h, h ∈ take n order → hot_blocks s' !! h = None) ∧
  (∀ h, h ∉ take n order → hot_blocks s' !! h = hot_blocks s !! h ∧
                           hot_children s' !! h = hot_children s !! h).
Proof.
  revert n s. induction order as [|h order IH]; intros n s Hok Hn.
  { destruct n; [|cbn in Hn; lia]. cbn. split_and!; try done. by intros h ?%elem_of_nil. }
  destruct n as [|n]; cbn.
  { split_and!; try done. by intros h' ?%elem_of_nil. }
  destruct Hok as [Hnd Hdom Hkey]; cbn in *.
  destruct (proj1 (Hdom h) ltac:(by left)) as [b Hb]. rewrite Hb.
  apply NoDup_cons in Hnd as [Hh Hnd].
  destruct (IH n (evict s order h)) as (Hok' & Hord & Hcfg & Hgone & Hkeep); [|lia|].
  { split; cbn; [done| |].
    - intros h'. rewrite lookup_delete_is_Some, <- Hdom, elem_of_cons. split; [|naive_solver].
      intros Hin. split; [|by right]. by intros ->.
    - intros h' c [_ Hc]%lookup_delete_Some. by apply Hkey. }
  split_and!; try done.
  - intros h' [->|Hin]%elem_of_cons; [|by apply Hgone].
    destruct (decide (h ∈ take n order)); [by apply Hgone|].
    rewrite (proj1 (Hkeep h ltac:(done))). apply lookup_delete_eq.
  - intros h' Hout. rewrite elem_of_cons in Hout.
    destruct (Hkeep h') as [-> ->]; [tauto|]. cbn. by rewrite !lookup_delete_ne by naive_solver.
Qed.

Lemma prune_hot_cache_spec s :
  cache_ok s →
  let s' := prune_hot_cache s in
  let n := (size (hot_blocks s) - hot_cache_size (ds_config s))%nat in
  cache_ok s' ∧ ds_config s' = ds_config s ∧
  hot_blocks_order s' = drop n (hot_blocks_order s) ∧
  (size (hot_blocks s') = Nat.min (size (hot_blocks s)) (hot_cache_size (ds_config s)))%nat ∧
  (∀ h, hot_blocks s' !! h = if decide (h ∈ take n (hot_blocks_order s)) then None
                             else hot_blocks s !! h).
Proof.
  intros Hok. unfold prune_hot_cache. cbn zeta.
  set (n := (size (hot_blocks s) - hot_cache_size (ds_config s))%nat).
  destruct (Nat.eqb_spec n 0) as [Hn|Hn].
  { rewrite Hn. split_and!; [done|done|done|lia|]. intros h. by rewrite decide_False by by apply not_elem_of_nil. }
  pose proof (cache_ok_length s Hok) as Hlen.
  destruct (prune_loop_spec (hot_blocks_order s) n s) as (Hok' & Hord & Hcfg & Hgone & Hkeep);
    [by destruct s | lia |].
  split_and!; try done.
  - rewrite <- (cache_ok_length _ Hok'), Hord, length_drop. lia.
  - intros h. destruct (decide _); [by apply Hgone|]. by apply Hkeep.
Qed.

Section DagStorageTheorems.
Context `{Hex, Codec Block, Codec (list Hash), HashIter}.

(** The block entries of two trees agree. *)
Definition same_entry (db db' : Sled) (h : Hash) : Prop :=
  db' !! block_key h = db !! block_key h ∧ db' !! hash_bytes h = db !! hash_bytes h.
Definition same_entries (db db' : Sled) : Prop := ∀ h, hash_wf h = true → same_entry db db' h.

Lemma same_entry_get db db' h : same_entry db db' h → bs_get db' h = bs_get db h.
Proof. intros [Hb Hr]. unfold bs_get. by rewrite Hb, Hr. Qed.

(** The part of the state the parent/child index does not touch. *)
Definition same_blocks (st st' : DsState) : Prop :=
  hot_blocks st'.2 = hot_blocks st.2 ∧ hot_blocks_order st'.2 = hot_blocks_order st.2 ∧
  ds_config st'.2 = ds_config st.2 ∧
  match st.1, st'.1 with
  | None, None => True
  | Some db, Some db' => same_entries db db'
  | _, _ => False
  end.

Lemma same_blocks_refl st : same_blocks st st.
Proof. unfold same_blocks, same_entries, same_entry. destruct (st.1); naive_solver. Qed.
Lemma same_blocks_trans st1 st2 st3 : same_blocks st1 st2 → same_blocks st2 st3 → same_blocks st1 st3.
Proof.
  unfold same_blocks. intros (? & ? & ? & H1') (? & ? & ? & H2'). split_and!; [congruence..|].
  destruct (st1.1), (st2.1), (st3.1); try done. intros h Hh.
  destruct (H1' h Hh), (H2' h Hh). split; congruence.
Qed.

Lemma put_hashes_blocks t h db v :
  hash_wf h = true → t ≠ key_prefix.BLOCK →
  same_entries db (<[make_key t (hash_bytes h) := v]> db).
Proof.
  intros [Hl _]%bytes_wf_ok Ht h' [Hl' _]%bytes_wf_ok. split; apply lookup_insert_ne.
  - by intros [? _]%make_key_inj.
  - apply make_key_ne_raw. lia.
Qed.

Lemma db_write_same f st r st' :
  (∀ db db', f db = Ok db' → same_entries db db') →
  db_write f st = (r, st') → same_blocks st st'.
Proof.
  intros Hf. unfold db_write. destruct st as [[db|] s]; cbn.
  - destruct (f db) as [db'|] eqn:Hdb; intros [= <- <-]; [|apply same_blocks_refl].
    unfold same_blocks; cbn. split_and!; try done. by apply Hf.
  - intros [= <- <-]. apply same_blocks_refl.
Qed.

Lemma index_child_same h p st r st' :
  hash_wf p = true → index_child h p st = (r, st') → same_blocks st st'.
Proof.
  intros Hp. unfold index_child, se_read, mbind, SE_bind.
  destruct (ds_get_children st p) as [cs|]; [|intros [= <- <-]; apply same_blocks_refl].
  destruct (contains h cs); [intros [= <- <-]; apply same_blocks_refl|].
  destruct (db_write _ st) as [[[]|] st1] eqn:Hw.
  - intros [= <- <-]. apply same_blocks_trans with st1.
    + eapply db_write_same; [|exact Hw]. intros db db' Hput.
      unfold put_children in Hput. apply bind_Ok in Hput as (v & _ & [= <-]).
      by apply put_hashes_blocks.
    + unfold same_blocks; cbn. destruct st1 as [[db|] s1]; cbn; case_bool_decide; by split_and!.
  - intros [= <- <-]. eapply db_write_same; [|exact Hw]. intros db db' Hput.
    unfold put_children in Hput. apply bind_Ok in Hput as (v & _ & [= <-]).
    by apply put_hashes_blocks.
Qed.

(** Every hot block is on disk too. *)
Definition on_disk (db : Sled) (h : Hash) (b : Block) : Prop :=
  hash_wf h = true ∧ ∃ v, db !! block_key h = Some v ∧ deserialize v = Some b.
Definition persisted (db : Sled) (s : HybridDagStorage) : Prop :=
  ∀ h b, hot_blocks s !! h = Some b → on_disk db h b.

Lemma on_disk_get db h b : on_disk db h b → bs_get db h = Ok (Some b).
Proof. intros (_ & v & Hv & Hd). unfold bs_get, decode_or. by rewrite Hv, Hd. Qed.
Lemma on_disk_same db db' h b : same_entry db db' h → on_disk db h b → on_disk db' h b.
Proof. intros [Hs _] (Hh & v & Hv & Hd). split; [done|]. exists v. by rewrite Hs. Qed.

Lemma bs_put_entries db b db' :
  hash_wf (block_hash b) = true → bs_put db b = Ok db' →
  on_disk db' (block_hash b) b ∧
  (∀ h, hash_wf h = true → h ≠ block_hash b → same_entry db db' h).
Proof.
  unfold bs_put. intros Hwf Hput. apply bind_Ok in Hput as (v & Hs & [= <-]).
  destruct (serialize b) as [v'|] eqn:Hser; [|done]. injection Hs as ->.
  apply deserialize_serialize in Hser. split.
  - split; [done|]. exists v. by rewrite lookup_insert_eq.
  - intros h Hh Hne. split; apply lookup_insert_ne; [|by apply block_key_ne_raw].
    intros [_ Heq]%make_key_inj. by apply Hne, hash_bytes_inj.
Qed.

(** The state after the writes of [add_block], before the cache is trimmed. *)
Lemma ds_add_block_steps b st st' :
  hash_wf (block_hash b) = true → Forall (λ p, hash_wf p = true) (parent_hashes (header b)) →
  ds_add_block b st = (Ok tt, st') →
  ∃ mid,
    hot_blocks mid.2 = hot_blocks (insert_hot st.2 b) ∧
    hot_blocks_order mid.2 = hot_blocks_order (insert_hot st.2 b) ∧
    ds_config mid.2 = ds_config st.2 ∧
    match st.1, mid.1 with
    | None, None => True
    | Some db, Some db' =>
        on_disk db' (block_hash b) b ∧
        (∀ h, hash_wf h = true → h ≠ block_hash b → same_entry db db' h)
    | _, _ => False
    end ∧
    st' = (mid.1, if (hot_cache_size (ds_config mid.2) <? size (hot_blocks mid.2))%nat
                  then prune_hot_cache mid.2 else mid.2).
Proof.
  intros Hwf Hps. unfold ds_add_block. intros Hrun.
  apply se_bind_Ok in Hrun as (u & st1 & Hst1 & Hrun). injection Hst1 as <- <-.
  apply se_bind_Ok in Hrun as (st1' & st2 & Hst2 & Hrun). injection Hst2 as <- <-.
  apply se_bind_Ok in Hrun as ([] & mid & Hmid & Hend). injection Hend as <-.
  exists mid. destruct st as [[db|] s]; cbn in *.
  - apply se_bind_Ok in Hmid as ([] & st2 & Hput & Hmid).
    apply se_bind_Ok in Hmid as ([] & st3 & Hpar & Hfor).
    unfold db_write in Hput; cbn in Hput.
    destruct (bs_put db b) as [db2|] eqn:Hbs; [|done]. injection Hput as <-.
    pose proof (bs_put_entries db b db2 Hwf Hbs) as (Hget & Hother).
    assert (same_blocks (Some db2, insert_hot s b) mid) as Hsame.
    { apply same_blocks_trans with st3.
      - eapply db_write_same; [|exact Hpar]. intros d d' Hd. unfold put_parents in Hd.
        apply bind_Ok in Hd as (v & _ & [= <-]). by apply put_hashes_blocks.
      - eapply (se_for_ind (λ t, same_blocks st3 t)); [|apply same_blocks_refl|exact Hfor].
        intros p t r t' Hp Ht Hidx. eapply same_blocks_trans; [exact Ht|].
        eapply index_child_same; [|exact Hidx]. by eapply Forall_forall in Hps. }
    destruct Hsame as (-> & -> & -> & Hdb). cbn in Hdb. destruct mid as [[db'|] sm]; [|done]. cbn.
    split_and!; try done; cbn.
    + eapply on_disk_same; [by apply Hdb|done].
    + intros h Hh Hne. destruct (Hother h Hh Hne), (Hdb h Hh). split; congruence.
  - injection Hmid as <-. done.
Qed.

Lemma insert_hot_lookup_ne s b h :
  h ≠ block_hash b → hot_blocks (insert_hot s b) !! h = hot_blocks s !! h.
Proof. intros. cbn. by rewrite lookup_insert_ne. Qed.

Lemma ds_add_block_spec b st st' :
  hash_wf (block_hash b) = true → Forall (λ p, hash_wf p = true) (parent_hashes (header b)) →
  cache_ok st.2 → ds_add_block b st = (Ok tt, st') →
  cache_ok st'.2 ∧
  (size (hot_blocks st'.2)
   = Nat.min (size (<[block_hash b := b]> (hot_blocks st.2))) (hot_cache_size (ds_config st.2)))%nat ∧
  match st.1, st'.1 with
  | Some db, Some db' =>
      persisted db st.2 →
      persisted db' st'.2 ∧ ds_get_block st' (block_hash b) = Ok (Some b) ∧
      ∀ h, hash_wf h = true → h ≠ block_hash b → ds_get_block st' h = ds_get_block st h
  | None, None =>
      hot_blocks st.2 !! block_hash b = None → (1 <= hot_cache_size (ds_config st.2))%nat →
      ds_get_block st' (block_hash b) = Ok (Some b)
  | _, _ => False
  end.
Proof.
  intros Hwf Hps Hok Hrun.
  destruct (ds_add_block_steps b st st' Hwf Hps Hrun) as (mid & Hhot & Hord & Hcfg & Hdb & ->).
  assert (cache_ok mid.2) as Hmid.
  { destruct (insert_hot_ok st.2 b Hok) as [A B C]. split; rewrite ?Hhot, ?Hord; done. }
  set (s' := if (hot_cache_size (ds_config mid.2) <? size (hot_blocks mid.2))%nat
             then prune_hot_cache mid.2 else mid.2).
  destruct (prune_hot_cache_spec mid.2 Hmid) as (Hok' & _ & Hord' & Hsz' & Hlk').
  assert (cache_ok s' ∧
          size (hot_blocks s') = Nat.min (size (hot_blocks mid.2)) (hot_cache_size (ds_config mid.2)) ∧
          ∀ h, hot_blocks s' !! h =
            if decide (h ∈ take (size (hot_blocks mid.2) - hot_cache_size (ds_config mid.2))
                             (hot_blocks_order mid.2))
            then None else hot_blocks mid.2 !! h) as (Hok'' & Hsz & Hlk).
  { unfold s'. destruct (Nat.ltb_spec (hot_cache_size (ds_config mid.2)) (size (hot_blocks mid.2))); [done|].
    split_and!; [done|lia|]. intros h. rewrite decide_False; [done|].
    replace (_ - _)%nat with 0%nat by lia. apply not_elem_of_nil. }
  clearbody s'. clear Hok' Hord' Hsz' Hlk'. cbn [fst snd].
  split; [done|]. split; [by rewrite Hsz, Hhot, Hcfg|].
  destruct st as [[db|] s], mid as [[db'|] sm]; try done; cbn in *.
  - destruct Hdb as [Hget Hother]. intros Hp.
    assert (∀ h c, hot_blocks s' !! h = Some c → hot_blocks sm !! h = Some c) as Hsub.
    { intros h c. rewrite Hlk. by destruct (decide _). }
    assert (∀ h c, hot_blocks sm !! h = Some c → on_disk db' h c) as Hpm.
    { intros h c. rewrite Hhot, lookup_insert_Some. intros [[<- <-]|[Hne Hc]]; [done|].
      pose proof (Hp h c Hc) as Hd. eapply on_disk_same; [apply Hother; [apply Hd|done]|done]. }
    split_and!.
    + intros h c Hc. by apply Hpm, Hsub.
    + unfold ds_get_block; cbn. destruct (hot_blocks s' !! block_hash b) as [c|] eqn:Hc; [|by apply on_disk_get].
      apply Hsub in Hc. rewrite Hhot, lookup_insert_eq in Hc. congruence.
    + intros h Hh Hne. unfold ds_get_block; cbn.
      destruct (hot_blocks s' !! h) as [c|] eqn:Hc.
      * apply Hsub in Hc. rewrite Hhot, lookup_insert_ne in Hc by done. by rewrite Hc.
      * rewrite (same_entry_get db db') by by apply Hother.
        destruct (hot_blocks s !! h) as [c|] eqn:Hs; [|done]. by apply on_disk_get, Hp.
  - intros Hnew Hsize. unfold ds_get_block; cbn. rewrite Hlk, decide_False.
    + by rewrite Hhot, lookup_insert_eq.
    + rewrite Hord. rewrite bool_decide_eq_false_2 by (rewrite Hnew; by intros []).
      rewrite Hhot, Hcfg, map_size_insert_None by done. pose proof (cache_ok_length s Hok) as Hlen. cbn in Hlen.
      rewrite take_app_le by lia. intros Hin%elem_of_take.
      destruct Hin as (i & Hi & _). apply list_elem_of_lookup_2 in Hi.
      apply (order_dom s Hok) in Hi. rewrite Hnew in Hi. by destruct Hi.
Qed.

Lemma ds_add_block_config b st st' :
  hash_wf (block_hash b) = true → Forall (λ p, hash_wf p = true) (parent_hashes (header b)) →
  cache_ok st.2 → ds_add_block b st = (Ok tt, st') → ds_config st'.2 = ds_config st.2.
Proof.
  intros Hwf Hps Hok Hrun.
  destruct (ds_add_block_steps b st st' Hwf Hps Hrun) as (mid & Hhot & Hord & Hcfg & _ & ->).
  assert (cache_ok mid.2) as Hmid.
  { destruct (insert_hot_ok st.2 b Hok) as [A B C]. split; rewrite ?Hhot, ?Hord; done. }
  destruct (prune_hot_cache_spec mid.2 Hmid) as (_ & Hc & _). cbn [snd].
  case_match; congruence.
Qed.

Lemma ds_add_block_disk b db s st' :
  hash_wf (block_hash b) = true → Forall (λ p, hash_wf p = true) (parent_hashes (header b)) →
  ds_add_block b (Some db, s) = (Ok tt, st') →
  ∃ db', st'.1 = Some db' ∧ on_disk db' (block_hash b) b ∧
    ∀ h, hash_wf h = true → h ≠ block_hash b → same_entry db db' h.
Proof.
  intros Hwf Hps Hrun.
  destruct (ds_add_block_steps b _ st' Hwf Hps Hrun) as ([[db'|] sm] & _ & _ & _ & Hdb & ->);
    cbn in Hdb; [|done]. exists db'. split; [done|]. done.
Qed.

(** Adding a block to the hybrid store.  The hot cache stays in step with
    its eviction order and never exceeds its size; with a database every
    block, hot or evicted, keeps being found: the new block is returned for
    its hash and the lookup of every other hash is unchanged, although the
    oldest blocks leave the cache; without one a new block is found as long as the cache
    has room for one block. *)
Theorem dag_store_add_block b st st' :
  hash_wf (block_hash b) = true → Forall (λ p, hash_wf p = true) (parent_hashes (header b)) →
  cache_ok st.2 → ds_add_block b st = (Ok tt, st') →
  cache_ok st'.2 ∧
  (size (hot_blocks st'.2)
   = Nat.min (size (<[block_hash b := b]> (hot_blocks st.2))) (hot_cache_size (ds_config st.2)))%nat ∧
  match st.1, st'.1 with
  | Some db, Some db' =>
      persisted db st.2 →
      persisted db' st'.2 ∧ ds_get_block st' (block_hash b) = Ok (Some b) ∧
      ∀ h, hash_wf h = true → h ≠ block_hash b → ds_get_block st' h = ds_get_block st h
  | None, None =>
      hot_blocks st.2 !! block_hash b = None → (1 <= hot_cache_size (ds_config st.2))%nat →
      ds_get_block st' (block_hash b) = Ok (Some b)
  | _, _ => False
  end.
Proof. apply ds_add_block_spec. Qed.
End DagStorageTheorems.

(** ** Checkpoints *)

Section CheckpointTheorems.
Context `{HashIter}.

Lemma clear_table_lookup db p k :
  clear_table db p !! k = if starts_with k [p] then None else db !! k.
Proof.
  unfold clear_table. rewrite lookup_foldl_delete. destruct (decide _) as [Hin|Hin].
  - apply list_elem_of_fmap in Hin as ([k' v] & -> & Hin).
    apply elem_of_scan_prefix in Hin as [_ Hs]. cbn. by rewrite Hs.
  - destruct (starts_with k [p]) eqn:Hs; [|done]. destruct (db !! k) as [v|] eqn:Hk; [|done].
    exfalso. apply Hin, list_elem_of_fmap. exists (k, v). split; [done|]. by apply elem_of_scan_prefix.
Qed.

Lemma starts_with_cons p q k : starts_with (p :: k) [q] = bool_decide (p = q).
Proof.
  unfold starts_with. cbn. rewrite take_0. apply bool_decide_ext. naive_solver.
Qed.

Lemma save_blue_set_lookup db blue k :
  save_blue_set db blue !! k =
  if decide (∃ h, h ∈ blue ∧ k = blue_key h) then Some []
  else if starts_with k [PREFIX_BLUE_SET] then None else db !! k.
Proof.
  unfold save_blue_set. destruct (decide _) as [(h & Hh & ->)|Hno].
  - apply (foldl_insert_eq (λ h, blue_key h) (λ _, [])); [|done]. exists h. by rewrite elem_of_hs_iter.
  - rewrite (foldl_insert_ne (λ h, blue_key h) (λ _, [])), clear_table_lookup; [done|].
    intros h Hh <-. apply Hno. exists h. by rewrite <- elem_of_hs_iter.
Qed.

Definition scores_saved (db : Sled) (scores : gmap Hash u64) : Sled :=
  foldl (λ db hs, save_blue_score db hs.1 hs.2) db (hm_iter scores).

Lemma scores_saved_lookup db scores h :
  scores_saved db scores !! score_key h =
  match scores !! h with Some v => Some (to_le_bytes 8 v) | None => db !! score_key h end.
Proof.
  unfold scores_saved, save_blue_score.
  assert (∀ x, x ∈ hm_iter scores → scores !! x.1 = Some x.2) as Hit.
  { intros [a v]. by rewrite hm_iter_perm, elem_of_map_to_list. }
  assert (∀ a b, score_key a = score_key b → a = b) as Hinj.
  { intros a b [= Heq]. by apply hash_bytes_inj. }
  destruct (scores !! h) as [v|] eqn:Hs.
  - apply (foldl_insert_eq (λ hs, score_key hs.1) (λ hs, to_le_bytes 8 hs.2)).
    + exists (h, v). split; [|done]. by rewrite hm_iter_perm, elem_of_map_to_list.
    + intros [a w] Hin Hk%Hinj. cbn in *. subst. apply Hit in Hin. cbn in Hin. congruence.
  - apply (foldl_insert_ne (λ hs, score_key hs.1) (λ hs, to_le_bytes 8 hs.2)).
    intros x Hin Hk%Hinj. apply Hit in Hin. congruence.
Qed.

Lemma scores_saved_other db scores k :
  starts_with k [PREFIX_BLUE_SCORE] = false → scores_saved db scores !! k = db !! k.
Proof.
  intros Hs. apply (foldl_insert_ne (λ hs, score_key hs.1) (λ hs, to_le_bytes 8 hs.2)).
  intros x _ <-. unfold score_key in Hs. by rewrite starts_with_cons in Hs.
Qed.

Lemma order_key_inj i j :
  Z.of_nat i <= u64_max → Z.of_nat j <= u64_max → order_key i = order_key j → i = j.
Proof.
  intros Hi Hj Hk. apply Nat2Z.inj.
  assert (to_be_bytes 8 (Z.of_nat i) = to_be_bytes 8 (Z.of_nat j)) as Heq
    by (unfold order_key in Hk; congruence).
  rewrite <- (u64_be_roundtrip (Z.of_nat i)), <- (u64_be_roundtrip (Z.of_nat j)) by mlia.
  by rewrite Heq.
Qed.

Lemma elem_of_zip_seq {A} (l : list A) n i x :
  (i, x) ∈ zip (seq n (length l)) l ↔ (n <= i)%nat ∧ l !! (i - n)%nat = Some x.
Proof.
  revert n. induction l as [|y l IH]; intros n; cbn [length seq zip].
  { split; [by intros ?%elem_of_nil|]. by intros [_ ?]. }
  change (zip_with pair (n :: seq (S n) (length l)) (y :: l))
    with ((n, y) :: zip (seq (S n) (length l)) l).
  rewrite elem_of_cons, IH. split.
  - intros [[= -> ->]|[Hle Hl]]; [by rewrite Nat.sub_diag|].
    split; [lia|]. by replace (i - n)%nat with (S (i - S n)) by lia.
  - intros [Hle Hl]. destruct (decide (i = n)) as [->|].
    + left. rewrite Nat.sub_diag in Hl. by injection Hl as ->.
    + right. split; [lia|]. by replace (i - n)%nat with (S (i - S n)) in Hl by lia.
Qed.

Lemma save_ordering_lookup db ordering i :
  Z.of_nat (length ordering) <= u64_max → Z.of_nat i <= u64_max →
  save_ordering db ordering !! order_key i = hash_bytes <$> ordering !! i.
Proof.
  intros Hlen Hi. unfold save_ordering.
  assert (∀ j h, (j, h) ∈ zip (seq 0 (length ordering)) ordering ↔ ordering !! j = Some h) as Hz.
  { intros j h. rewrite elem_of_zip_seq, Nat.sub_0_r. naive_solver lia. }
  destruct (ordering !! i) as [h|] eqn:Ho; cbn [fmap option_fmap option_map].
  - apply (foldl_insert_eq (λ ih, order_key ih.1) (λ ih, hash_bytes ih.2)).
    + exists (i, h). split; [|done]. by apply Hz.
    + intros [j h'] Hin Hk. apply Hz in Hin. cbn in *.
      apply order_key_inj in Hk; [congruence| |done]. apply lookup_lt_Some in Hin. lia.
  - rewrite (foldl_insert_ne (λ ih, order_key ih.1) (λ ih, hash_bytes ih.2)).
    + rewrite clear_table_lookup. unfold order_key. by rewrite starts_with_cons.
    + intros [j h'] Hin Hk. apply Hz in Hin. cbn in *.
      apply order_key_inj in Hk; [congruence| |done]. apply lookup_lt_Some in Hin. lia.
Qed.

Lemma save_ordering_other db ordering k :
  starts_with k [PREFIX_ORDERING] = false → save_ordering db ordering !! k = db !! k.
Proof.
  intros Hs. unfold save_ordering.
  rewrite (foldl_insert_ne (λ ih, order_key ih.1) (λ ih, hash_bytes ih.2)), clear_table_lookup, Hs; [done|].
  intros x _ <-. unfold order_key in Hs. by rewrite starts_with_cons in Hs.
Qed.

Lemma save_ordering_table db ordering k v :
  Z.of_nat (length ordering) <= u64_max →
  save_ordering db ordering !! k = Some v → starts_with k [PREFIX_ORDERING] = true →
  ∃ i h, ordering !! i = Some h ∧ k = order_key i ∧ v = hash_bytes h.
Proof.
  intros Hlen Hk Hs.
  destruct (decide (k ∈ (λ ih, order_key ih.1) <$> zip (seq 0 (length ordering)) ordering)) as [Hin|Hno].
  - apply list_elem_of_fmap in Hin as ([i h] & -> & Hin). cbn in *.
    apply elem_of_zip_seq in Hin as [_ Hi]. rewrite Nat.sub_0_r in Hi.
    rewrite save_ordering_lookup, Hi in Hk; [|done|apply lookup_lt_Some in Hi; lia].
    injection Hk as <-. by exists i, h.
  - unfold save_ordering in Hk.
    rewrite (foldl_insert_ne (λ ih, order_key ih.1) (λ ih, hash_bytes ih.2)), clear_table_lookup, Hs in Hk;
      [done|].
    intros x Hin <-. apply Hno, list_elem_of_fmap. eauto.
Qed.

Lemma elem_of_load_blue_set db h :
  h ∈ load_blue_set db ↔ length (hash_bytes h) = 32%nat ∧ is_Some (db !! blue_key h).
Proof.
  unfold load_blue_set. rewrite (foldl_filter (λ kv, (length kv.1 =? 33)%nat)
    (λ s kv, {[MkHash (drop 1 kv.1)]} ∪ s)).
  set (kvs := List.filter _ _).
  assert (∀ kvs (s0 : gset Hash), h ∈ foldl (λ s kv, {[MkHash (drop 1 kv.1)]} ∪ s) s0 kvs ↔
            h ∈ s0 ∨ ∃ kv : list Z * list Z, kv ∈ kvs ∧ h = MkHash (drop 1 kv.1)) as Hfold.
  { clear. induction kvs as [|kv kvs IH]; intros s0; cbn; [set_solver|].
    rewrite IH, elem_of_union, elem_of_singleton. set_solver. }
  rewrite Hfold. unfold kvs. setoid_rewrite list_elem_of_In. setoid_rewrite filter_In.
  setoid_rewrite <- list_elem_of_In. setoid_rewrite Nat.eqb_eq. split.
  - intros [?%elem_of_empty|([k v] & [Hin Hl] & ->)]; [done|]. cbn in *.
    apply elem_of_scan_prefix in Hin as [Hk Hs]. apply starts_with_1 in Hs as [k' ->]. cbn in *.
    rewrite drop_0. split; [by injection Hl|]. by exists v.
  - intros [Hl [v Hv]]. right. exists (blue_key h, v). cbn. rewrite drop_0, Hl. split; [|by destruct h].
    split; [|done]. apply elem_of_scan_prefix. split; [done|]. unfold blue_key. by rewrite starts_with_cons.
Qed.

Lemma load_blue_scores_lookup db h :
  length (hash_bytes h) = 32%nat →
  load_blue_scores db !! h = db !! score_key h ≫= read_int 8.
Proof.
  intros Hl. unfold load_blue_scores.
  rewrite (foldl_filter (λ kv, (length kv.1 =? 33)%nat && (length kv.2 =? 8)%nat)
    (λ m kv, <[MkHash (drop 1 kv.1) := from_le_bytes kv.2]> m)).
  set (kvs := List.filter _ _).
  assert (∀ k v, (k, v) ∈ kvs ↔ db !! k = Some v ∧ starts_with k [PREFIX_BLUE_SCORE] = true ∧
            length k = 33%nat ∧ length v = 8%nat) as Hkvs.
  { intros k v. unfold kvs. rewrite list_elem_of_In, filter_In, <- list_elem_of_In, elem_of_scan_prefix.
    cbn. rewrite andb_true_iff, !Nat.eqb_eq. tauto. }
  assert (∀ k v, (k, v) ∈ kvs → MkHash (drop 1 k) = h → k = score_key h) as Hinv.
  { intros k v (_ & Hs & _)%Hkvs <-. apply starts_with_1 in Hs as [k' ->]. cbn. by rewrite drop_0. }
  assert (starts_with (score_key h) [PREFIX_BLUE_SCORE] = true) as Hsk
    by (unfold score_key; by rewrite starts_with_cons).
  destruct (db !! score_key h ≫= read_int 8) as [x|] eqn:Hr.
  - destruct (db !! score_key h) as [v|] eqn:Hv; [|done]. cbn in Hr. unfold read_int in Hr.
    destruct (Nat.eqb_spec (length v) 8); [|done]. injection Hr as <-.
    apply (foldl_insert_eq (λ kv, MkHash (drop 1 kv.1)) (λ kv, from_le_bytes kv.2)).
    + exists (score_key h, v). split; [|cbn; rewrite drop_0; by destruct h].
      apply Hkvs. cbn. by rewrite Hl.
    + intros [k w] Hin Hk. cbn [fst snd] in *. pose proof (Hinv k w Hin Hk) as ->.
      apply Hkvs in Hin as [Hin _]. congruence.
  - rewrite (foldl_insert_ne (λ kv, MkHash (drop 1 kv.1)) (λ kv, from_le_bytes kv.2)); [done|].
    intros [k w] Hin Hk. cbn in Hk. pose proof (Hinv k w Hin Hk) as ->.
    apply Hkvs in Hin as (Hin & _ & _ & Hw). rewrite Hin in Hr. cbn in Hr. unfold read_int in Hr.
    by rewrite Hw in Hr.
Qed.

Lemma load_ordering_map_saved db ordering i :
  Z.of_nat (length ordering) <= u64_max →
  Forall (λ h, length (hash_bytes h) = 32%nat) ordering →
  load_ordering_map (save_ordering db ordering) !! i = ordering !! i.
Proof.
  intros Hlen Hwf. unfold load_ordering_map.
  rewrite (foldl_filter (λ kv, (length kv.1 =? 9)%nat && (length kv.2 =? 32)%nat)
    (λ m kv, <[Z.to_nat (from_be_bytes (drop 1 kv.1)) := MkHash kv.2]> m)).
  set (kvs := List.filter _ _).
  assert (∀ k v, (k, v) ∈ kvs ↔ ∃ j h, ordering !! j = Some h ∧ k = order_key j ∧ v = hash_bytes h) as Hkvs.
  { intros k v. unfold kvs. rewrite list_elem_of_In, filter_In, <- list_elem_of_In, elem_of_scan_prefix. split.
    - intros [[Hk Hs] _]. by eapply save_ordering_table.
    - intros (j & h & Hj & -> & ->). pose proof (lookup_lt_Some _ _ _ Hj).
      rewrite save_ordering_lookup, Hj by lia. cbn [fst snd]. split; [split; [done|]|].
      + unfold order_key. by rewrite starts_with_cons.
      + unfold order_key. cbn [length]. rewrite length_be8.
        by rewrite (Forall_lookup_1 _ _ _ _ Hwf Hj). }
  assert (∀ j, (j < length ordering)%nat → Z.to_nat (from_be_bytes (drop 1 (order_key j))) = j) as Hidx.
  { intros j Hj. change (drop 1 (order_key j)) with (to_be_bytes 8 (Z.of_nat j)). rewrite u64_be_roundtrip by mlia. lia. }
  destruct (ordering !! i) as [h|] eqn:Hi.
  - pose proof (lookup_lt_Some _ _ _ Hi).
    apply (foldl_insert_eq (λ kv, Z.to_nat (from_be_bytes (drop 1 kv.1))) (λ kv, MkHash kv.2)).
    + exists (order_key i, hash_bytes h). split; [apply Hkvs; eauto|]. by apply Hidx.
    + intros [k v] (j & h' & Hj & -> & ->)%Hkvs Hk. cbn [fst snd] in *.
      rewrite Hidx in Hk by by eapply lookup_lt_Some. subst j.
      rewrite Hi in Hj. injection Hj as <-. by destruct h.
  - rewrite (foldl_insert_ne (λ kv, Z.to_nat (from_be_bytes (drop 1 kv.1))) (λ kv, MkHash kv.2)); [done|].
    intros [k v] (j & h' & Hj & -> & ->)%Hkvs Hk. cbn [fst snd] in *.
    rewrite Hidx in Hk by by eapply lookup_lt_Some. congruence.
Qed.

Lemma omap_lookup_seq {A} (m : gmap nat A) (l : list A) n :
  (∀ i, m !! i = l !! i) → (length l <= n)%nat → omap (λ i, m !! i) (seq 0 n) = l.
Proof.
  intros Hm Hn. assert (∀ k start, (∀ i, m !! (start + i)%nat = k !! i) → ∀ n, (length k <= n)%nat →
    omap (λ i, m !! i) (seq start n) = k) as Hgen.
  { clear. intros k. induction k as [|x k IH]; intros start Hk n Hn.
    - revert start Hk. clear Hn. induction n as [|n IHn]; intros start Hk; cbn; [done|].
      rewrite <- (Nat.add_0_r start) at 1. rewrite Hk. cbn. apply IHn. intros i.
      replace (S start + i)%nat with (start + S i)%nat by lia. by rewrite Hk.
    - destruct n as [|n]; cbn in Hn; [lia|]. cbn.
      pose proof (Hk 0%nat) as H0. rewrite Nat.add_0_r in H0. rewrite H0. cbn. f_equal.
      apply IH; [|lia]. intros i. replace (S start + i)%nat with (start + S i)%nat by lia. by rewrite Hk. }
  apply Hgen; [done|done].
Qed.

Lemma foldr_max_ge l i : i ∈ l → (i <= foldr Nat.max 0 l)%nat.
Proof. induction 1 as [|j l x Hin IH]; cbn; lia. Qed.

Lemma load_save_ordering db ordering :
  Z.of_nat (length ordering) <= u64_max →
  Forall (λ h, length (hash_bytes h) = 32%nat) ordering →
  load_ordering (save_ordering db ordering) = ordering.
Proof.
  intros Hlen Hwf. unfold load_ordering. set (m := load_ordering_map _).
  assert (∀ i, m !! i = ordering !! i) as Hm by (intros; by apply load_ordering_map_saved).
  apply omap_lookup_seq; [done|].
  destruct (decide (ordering = [])) as [->|Hne]; [cbn; lia|].
  destruct (lookup_lt_is_Some_2 ordering (length ordering - 1)) as [h Hh].
  { destruct ordering; [done|]. cbn. lia. }
  pose proof (foldr_max_ge (fst <$> hm_iter m) (length ordering - 1)) as Hge.
  destruct ordering as [|o ordering]; [done|].
  apply le_n_S in Hge; [cbn [length] in *; lia|].
  apply list_elem_of_fmap. exists (length (o :: ordering) - 1, h)%nat. split; [done|].
  by rewrite hm_iter_perm, elem_of_map_to_list, Hm.
Qed.

(** A saved checkpoint loads back: the genesis hash (the zero hash stands for
    none), the blue set and the ordering exactly as saved, and every saved
    blue score; scores are never removed from the store, so a hash without a saved score
    loads the score of an older checkpoint if one is there. *)
Theorem checkpoint_roundtrip db genesis blue scores ordering :
  Z.of_nat (length ordering) <= u64_max →
  Forall (λ h, hash_wf h = true) ordering → (∀ h, h ∈ blue → hash_wf h = true) →
  (∀ h v, scores !! h = Some v → hash_wf h = true ∧ in_u64 v) →
  (∀ g, genesis = Some g → hash_wf g = true ∧ g ≠ hash_zero) →
  (blue ≠ ∅ ∨ ordering ≠ []) →
  ∃ scores',
    load_checkpoint (save_checkpoint db genesis blue scores ordering)
    = Some (genesis, blue, scores', ordering) ∧
    ∀ h, hash_wf h = true →
      scores' !! h = match scores !! h with
                     | Some v => Some v
                     | None => db !! score_key h ≫= read_int 8
                     end.
Proof.
  intros Hlen Hord Hblue Hsc Hgen Hne.
  assert (Forall (λ h, length (hash_bytes h) = 32%nat) ordering) as Hord32
    by (eapply Forall_impl; [exact Hord|]; by intros h [? _]%bytes_wf_ok).
  set (meta := (match genesis with Some g => hash_bytes g | None => replicate 32 0 end)
               ++ to_be_bytes 8 (Z.of_nat (length ordering))).
  set (db1 := <[KEY_CHECKPOINT_META := meta]> db).
  set (db2 := save_blue_set db1 blue).
  set (db3 := scores_saved db2 scores).
  assert (save_checkpoint db genesis blue scores ordering = save_ordering db3 ordering) as -> by done.
  assert (∀ h, blue_key h ≠ KEY_CHECKPOINT_META) as Hbm by done.
  assert (length (match genesis with Some g => hash_bytes g | None => replicate 32 0 end) = 32%nat) as Hg32.
  { destruct genesis as [g|]; [|done]. by destruct (Hgen g eq_refl) as [[Hg _]%bytes_wf_ok _]. }
  assert (save_ordering db3 ordering !! KEY_CHECKPOINT_META = Some meta) as Hmeta.
  { rewrite save_ordering_other by done. unfold db3. rewrite scores_saved_other by done.
    unfold db2. rewrite save_blue_set_lookup, decide_False by (intros (h & _ & Heq); by apply (Hbm h)).
    apply lookup_insert_eq. }
  assert (load_blue_set (save_ordering db3 ordering) = blue) as Hb.
  { apply set_eq. intros h. rewrite elem_of_load_blue_set.
    rewrite save_ordering_other by (unfold blue_key; by rewrite starts_with_cons).
    unfold db3. rewrite scores_saved_other by (unfold blue_key; by rewrite starts_with_cons).
    unfold db2. rewrite save_blue_set_lookup.
    assert (starts_with (blue_key h) [PREFIX_BLUE_SET] = true) as ->
      by (unfold blue_key; by rewrite starts_with_cons).
    destruct (decide _) as [(h' & Hh' & Hk)|Hno].
    - injection Hk as Hk%hash_bytes_inj. subst h'. split; [done|]. intros _. split; [|done].
      by destruct (bytes_wf_ok _ _ (Hblue h Hh')).
    - cbn. split; [by intros [_ []]|]. intros Hh. exfalso. apply Hno. eauto. }
  exists (load_blue_scores (save_ordering db3 ordering)). split.
  - unfold load_checkpoint. rewrite Hmeta. cbn [mbind option_bind].
    assert (length meta = 40%nat) as Hml.
    { unfold meta. rewrite length_app, Hg32, length_be8. done. }
    rewrite Hml. cbn [Nat.ltb Nat.leb]. rewrite Hb.
    rewrite load_save_ordering by done.
    assert (take 32 meta = match genesis with Some g => hash_bytes g | None => replicate 32 0 end) as ->.
    { unfold meta. by rewrite take_app_length'. }
    assert (bool_decide (blue = ∅) && bool_decide (ordering = []) = false) as ->.
    { destruct Hne; [rewrite (bool_decide_eq_false_2 (blue = ∅)) by done; done|].
      by rewrite (bool_decide_eq_false_2 (ordering = [])), andb_false_r by done. }
    destruct genesis as [g|]; [|by rewrite bool_decide_eq_true_2].
    rewrite bool_decide_eq_false_2; [by destruct g|]. destruct (Hgen g eq_refl) as [_ Hz].
    intros Heq. apply Hz. by apply hash_bytes_inj.
  - intros h Hh. pose proof (bytes_wf_ok _ _ Hh) as [Hh32 _]. rewrite load_blue_scores_lookup by done.
    rewrite save_ordering_other by (unfold score_key; by rewrite starts_with_cons).
    unfold db3. rewrite scores_saved_lookup. destruct (scores !! h) as [v|] eqn:Hv.
    + cbn -[read_int to_le_bytes]. apply read_u64. by destruct (Hsc _ _ Hv).
    + unfold db2. rewrite save_blue_set_lookup, decide_False; [|by intros (h' & _ & Hk)].
      assert (starts_with (score_key h) [PREFIX_BLUE_SET] = false) as ->
        by (unfold score_key; by rewrite starts_with_cons).
      unfold db1.
      by rewrite lookup_insert_ne.
Qed.

(** Checkpoints leave the versioned entries alone. *)
Lemma save_checkpoint_versioned db genesis blue scores ordering t e :
  save_checkpoint db genesis blue scores ordering !! make_key t e = db !! make_key t e.
Proof.
  unfold save_checkpoint. rewrite save_ordering_other by done. fold (scores_saved (save_blue_set
    (<[KEY_CHECKPOINT_META := (match genesis with Some g => hash_bytes g | None => replicate 32 0 end)
       ++ to_be_bytes 8 (Z.of_nat (length ordering))]> db) blue) scores).
  rewrite scores_saved_other by done.
  rewrite save_blue_set_lookup, decide_False by (by intros (h' & _ & Hk)).
  change (starts_with (make_key t e) [PREFIX_BLUE_SET]) with false.
  by rewrite lookup_insert_ne.
Qed.

(** Saving a checkpoint deletes legacy blocks: clearing the old ordering
    removes every key that starts with its prefix byte, and the raw-hash key
    of an old-format block whose hash starts with that byte is one of them; the block
    is then gone. *)
Theorem checkpoint_deletes_legacy_block `{Codec Block} db genesis blue scores ordering h rest :
  hash_bytes h = PREFIX_ORDERING :: rest → hash_wf h = true →
  Z.of_nat (length ordering) <= u64_max →
  db !! block_key h = None →
  bs_get (save_checkpoint db genesis blue scores ordering) h = Ok None.
Proof.
  intros Hh Hwf Hlen Hb. unfold bs_get.
  pose proof (bytes_wf_ok _ _ Hwf) as [Hl _].
  unfold block_key in *. rewrite save_checkpoint_versioned, Hb.
  destruct (save_checkpoint db genesis blue scores ordering !! hash_bytes h) as [v|] eqn:Hv; [|done].
  apply save_ordering_table in Hv as (i & x & _ & Hk & _); [|done|by rewrite Hh, starts_with_cons].
  rewrite Hk in Hl. cbn [order_key length] in Hl. by rewrite length_be8 in Hl.
Qed.
End CheckpointTheorems.

(** ** Pruning keeps the cache in step *)

Section PruningTheorems.
Context `{HashIter}.

Lemma elem_of_filter_not hs (l : list Hash) h :
  h ∈ List.filter (λ h, negb (contains h hs)) l ↔ h ∈ l ∧ h ∉ hs.
Proof.
  rewrite list_elem_of_In, filter_In, <- list_elem_of_In. unfold contains.
  rewrite negb_true_iff, bool_decide_eq_false. done.
Qed.

Lemma NoDup_list_filter {A} (f : A → bool) l : NoDup l → NoDup (List.filter f l).
Proof. rewrite !NoDup_ListNoDup. apply List.NoDup_filter. Qed.

(** Whatever a pruning step does to the other maps, deleting some hashes from
    the blocks and from the order keeps them in step. *)
Lemma cache_ok_remove s s' hs :
  cache_ok s →
  (∀ h, hot_blocks s' !! h = if decide (h ∈ hs) then None else hot_blocks s !! h) →
  hot_blocks_order s' = List.filter (λ h, negb (contains h hs)) (hot_blocks_order s) →
  cache_ok s'.
Proof.
  intros [Hnd Hdom Hkey] Hlk Hord. split.
  - rewrite Hord. by apply NoDup_list_filter.
  - intros h. rewrite Hord, elem_of_filter_not, Hlk, Hdom. destruct (decide (h ∈ hs)); [|naive_solver].
    split; [naive_solver|by intros []].
  - intros h b. rewrite Hlk. destruct (decide _); [done|apply Hkey].
Qed.

Lemma foldl_delete_blocks (f : HybridDagStorage → Hash → HybridDagStorage) hs s :
  (∀ s h, hot_blocks (f s h) = delete h (hot_blocks s) ∧ hot_blocks_order (f s h) = hot_blocks_order s) →
  hot_blocks_order (foldl f s hs) = hot_blocks_order s ∧
  ∀ h, hot_blocks (foldl f s hs) !! h = if decide (h ∈ hs) then None else hot_blocks s !! h.
Proof.
  intros Hf. revert s. induction hs as [|x hs IH]; intros s; cbn [foldl].
  { split; [done|]. intros h. by rewrite decide_False by apply not_elem_of_nil. }
  destruct (IH (f s x)) as [Ho Hl]. destruct (Hf s x) as [Hb Ho']. split; [congruence|].
  intros h. rewrite Hl, Hb. destruct (decide (h ∈ hs)).
  - by rewrite decide_True by by right.
  - destruct (decide (h = x)) as [->|].
    + by rewrite lookup_delete_eq, decide_True by by left.
    + rewrite lookup_delete_ne, decide_False; [done| |done]. rewrite elem_of_cons. by intros [?|?].
Qed.

Lemma prune_blocks_by_hash_ok s hs : cache_ok s → cache_ok (prune_blocks_by_hash s hs).
Proof.
  intros Hok. destruct (foldl_delete_blocks (λ s h, evict s (hot_blocks_order s) h) hs s) as [Ho Hl]; [done|].
  apply (cache_ok_remove s _ hs Hok); cbn; [done|]. by rewrite Ho.
Qed.

(** Pruning red blocks removes from the hot cache every old block that is
    not in [hot_blue_set], and keeps the cache in step; that set is filled
    by no operation of the consensus, so while it is empty blue blocks are pruned
    exactly like red ones. *)
Theorem prune_red_blocks_spec s height depth :
  cache_ok s →
  let '(s', pruned) := prune_red_blocks s height depth in
  cache_ok s' ∧
  (∀ h b, hot_blocks s !! h = Some b →
     hot_blocks s' !! h =
       if (depth <? height) && negb (is_hot_blue s h) && (block_number (header b) <? height - depth)
       then None else Some b) ∧
  (hot_blue_set s = ∅ → depth < height → ∀ h b, hot_blocks s !! h = Some b →
     block_number (header b) < height - depth → hot_blocks s' !! h = None).
Proof.
  intros Hok. unfold prune_red_blocks. destruct (Z.leb_spec height depth) as [Hle|Hlt].
  { assert ((depth <? height) = false) as -> by (apply Z.ltb_ge; lia).
    split_and!; [done | done | intros; lia]. }
  assert ((depth <? height) = true) as -> by (apply Z.ltb_lt; lia). cbn [andb].
  set (to_prune := fst <$> _).
  destruct (foldl_delete_blocks drop_red to_prune s) as [Ho Hl]; [done|].
  assert (∀ h b, hot_blocks s !! h = Some b →
            (h ∈ to_prune ↔ negb (is_hot_blue s h) && (block_number (header b) <? height - depth) = true))
    as Hprune.
  { intros h b Hb. unfold to_prune. rewrite list_elem_of_fmap. setoid_rewrite list_elem_of_In.
    setoid_rewrite filter_In. setoid_rewrite <- list_elem_of_In. split.
    - intros ([h' b'] & -> & Hin & Hc). rewrite hm_iter_perm, elem_of_map_to_list in Hin. cbn in *. congruence.
    - intros Hc. exists (h, b). by rewrite hm_iter_perm, elem_of_map_to_list. }
  assert (∀ h b, hot_blocks s !! h = Some b →
     hot_blocks (foldl drop_red s to_prune) !! h =
       if negb (is_hot_blue s h) && (block_number (header b) <? height - depth) then None else Some b) as Hkeep.
  { intros h b Hb. rewrite Hl, Hb. pose proof (Hprune h b Hb) as Hp.
    destruct (negb _ && _); destruct (decide _); naive_solver. }
  split_and!; [|done|].
  - apply (cache_ok_remove s _ to_prune Hok); cbn; [done|]. by rewrite Ho.
  - intros Hempty _ h b Hb Hnum. cbn [hot_blocks]. rewrite (Hkeep h b Hb). unfold is_hot_blue.
    rewrite Hempty, bool_decide_eq_false_2 by set_solver. cbn [negb andb].
    by rewrite (proj2 (Z.ltb_lt _ _)).
Qed.
End PruningTheorems.

(** ** Concrete instances *)

Module DagStorageReference.
#[local] Existing Instance Reference.hex.
#[local] Existing Instance canonical_iter.
#[local] Existing Instance StorageReference.block_codec.
#[local] Instance hashes_codec : Codec (list Hash) := countable_codec (list Hash).

Definition tiny : HybridDagStorage := ds_new (MkDagConfig 1 500 100).
Definition after_one : DsState := (None, insert_hot tiny StorageReference.sample_block).

Lemma dag_store_add_block_witness :
  ds_get_block after_one StorageReference.sample_hash = Ok (Some StorageReference.sample_block).
Proof.
  pose proof (dag_store_add_block StorageReference.sample_block (None, tiny) after_one eq_refl
                ltac:(by repeat constructor) (cache_ok_new _) eq_refl) as (_ & _ & Hget).
  exact (Hget eq_refl (le_n 1)).
Defined.

Lemma checkpoint_roundtrip_witness :
  ∃ scores,
    load_checkpoint (save_checkpoint ∅ None {[StorageReference.sample_hash]} ∅ [StorageReference.sample_hash])
    = Some (None, {[StorageReference.sample_hash]}, scores, [StorageReference.sample_hash]).
Proof.
  destruct (checkpoint_roundtrip ∅ None {[StorageReference.sample_hash]} ∅ [StorageReference.sample_hash])
    as (scores & Hload & _).
  - vm_compute. discriminate.
  - by repeat constructor.
  - intros h ->%elem_of_singleton. reflexivity.
  - intros h v Hv. by rewrite lookup_empty in Hv.
  - discriminate.
  - by right.
  - exists scores. exact Hload.
Defined.

Definition old_hash : Hash := MkHash (PREFIX_ORDERING :: replicate 31 9).
Lemma checkpoint_deletes_legacy_block_witness :
  bs_get {[hash_bytes old_hash := StorageReference.sample_bytes]} old_hash
    = Ok (Some StorageReference.sample_block) ∧
  bs_get (save_checkpoint {[hash_bytes old_hash := StorageReference.sample_bytes]} None ∅ ∅ []) old_hash
    = Ok None.
Proof.
  split.
  - unfold bs_get. rewrite lookup_singleton_ne by done. rewrite lookup_singleton_eq.
    assert (Hd : deserialize StorageReference.sample_bytes = Some StorageReference.sample_block)
      by exact (deserialize_serialize StorageReference.sample_block StorageReference.sample_bytes eq_refl).
    unfold decode_or. by rewrite Hd.
  - apply (checkpoint_deletes_legacy_block _ None ∅ ∅ [] old_hash (replicate 31 9));
      [reflexivity | reflexivity | vm_compute; discriminate | by rewrite lookup_singleton_ne].
Defined.

Lemma prune_red_blocks_spec_witness :
  hot_blocks (fst (prune_red_blocks (insert_hot tiny StorageReference.sample_block) 200 100))
    !! StorageReference.sample_hash = None.
Proof.
  pose proof (prune_red_blocks_spec (insert_hot tiny StorageReference.sample_block) 200 100
                (insert_hot_ok _ _ (cache_ok_new _))) as Hs.
  destruct (prune_red_blocks _ 200 100) as [s' n]. destruct Hs as (_ & _ & Hs).
  apply (Hs eq_refl ltac:(lia) StorageReference.sample_hash StorageReference.sample_block);
    [apply lookup_insert_eq | cbn; lia].
Defined.
End DagStorageReference.
