(* ===== verification/GhostDag.v ===== *)
(** * GhostDag: the DAG consensus engine

    Models [irondag-blockchain/src/consensus/mod.rs]: the blue and red sets,
    blue scores and the ordering of the blocks, with the full recomputation
    [update_blue_set], the incremental update of [add_block], recovery from
    storage, checkpoint pruning, finality and tip selection.

    The state is the engine together with the tree of the shared database
    ([DagState]).  Hash sets and maps are iterated in an unspecified order
    ([HashIter]) and [binary_search_by] is the class [SliceSearch].  The two
    breadth-first loops run on fuel. *)

From S2P Require Import Prelude Types Block Error.
From S2P Require Import Storage DagStorage.

Record GhostDAG := MkGhostDAG {
  dag_k : nat;
  dag_storage : HybridDagStorage;
  genesis_hash : option Hash;
  blue_set : gset Hash;
  red_set : gset Hash;
  blue_score : gmap Hash u64;
  block_timestamps : gmap Hash u64;
  ordering : list Hash;
  checkpoint_stale_rebuilt : bool }.

Definition DagState : Type := option (gmap (list u8) (list u8)) * GhostDAG.
Definition DagM := SE DagState BlockchainError.

Definition set_storage (s : HybridDagStorage) (g : GhostDAG) : GhostDAG :=
  MkGhostDAG (dag_k g) s (genesis_hash g) (blue_set g) (red_set g) (blue_score g)
    (block_timestamps g) (ordering g) (checkpoint_stale_rebuilt g).
Definition set_genesis (o : option Hash) (g : GhostDAG) : GhostDAG :=
  MkGhostDAG (dag_k g) (dag_storage g) o (blue_set g) (red_set g) (blue_score g)
    (block_timestamps g) (ordering g) (checkpoint_stale_rebuilt g).
Definition set_colors (blue red : gset Hash) (score : gmap Hash u64) (g : GhostDAG) : GhostDAG :=
  MkGhostDAG (dag_k g) (dag_storage g) (genesis_hash g) blue red score
    (block_timestamps g) (ordering g) (checkpoint_stale_rebuilt g).
Definition set_timestamps (ts : gmap Hash u64) (g : GhostDAG) : GhostDAG :=
  MkGhostDAG (dag_k g) (dag_storage g) (genesis_hash g) (blue_set g) (red_set g) (blue_score g)
    ts (ordering g) (checkpoint_stale_rebuilt g).
Definition set_ordering (o : list Hash) (g : GhostDAG) : GhostDAG :=
  MkGhostDAG (dag_k g) (dag_storage g) (genesis_hash g) (blue_set g) (red_set g) (blue_score g)
    (block_timestamps g) o (checkpoint_stale_rebuilt g).
Definition set_rebuilt (b : bool) (g : GhostDAG) : GhostDAG :=
  MkGhostDAG (dag_k g) (dag_storage g) (genesis_hash g) (blue_set g) (red_set g) (blue_score g)
    (block_timestamps g) (ordering g) b.

(** Modify the engine. *)
Definition upd (f : GhostDAG → GhostDAG) : DagM unit := se_mod (λ st, (st.1, f st.2)).
(** Run a storage operation. *)
Definition on_storage {A} (m : SE DsState BlockchainError A) : DagM A :=
  zoom (λ st : DagState, (st.1, dag_storage st.2)) (λ ds st, (ds.1, set_storage ds.2 st.2)) m.

(** [with_k]; the assertion panics outside [1, 64]. *)
Definition with_k (k : nat) : result BlockchainError GhostDAG :=
  if (1 <=? k)%nat && (k <=? 64)%nat then
    Ok (MkGhostDAG k (ds_new dag_storage_config_default) None ∅ ∅ ∅ ∅ [] false)
  else Err (Panic "GhostDAG K must be between 1 and 64").

(** The greatest of some scores. *)
Definition max_score (l : list u64) : u64 := foldr Z.max 0 l.

(** [ordered.sort_by(..)]: score descending, then timestamp ascending. *)
Definition order_leb (a b : Hash * u64 * u64) : bool :=
  (b.1.2 <? a.1.2) || ((b.1.2 =? a.1.2) && (a.2 <=? b.2)).

Section GhostDAG.
Context `{Hex, Codec Block, Codec (list Hash), HashIter, SliceSearch}.

Definition get_block (st : DagState) (h : Hash) : result BlockchainError (option Block) :=
  ds_get_block (st.1, dag_storage st.2) h.
Definition get_children (st : DagState) (h : Hash) : result BlockchainError (list Hash) :=
  ds_get_children (st.1, dag_storage st.2) h.

(** The scores of the blue parents of a block. *)
Definition parent_scores (g : GhostDAG) (parents : list Hash) : list u64 :=
  omap (λ p, if bool_decide (p ∈ blue_set g) then blue_score g !! p else None) parents.

(** *** Full recomputation *)

(** Colour a block reached by the traversal. *)
Definition color_child (child : Hash) : DagM unit :=
  o ← se_read (λ st, get_block st child);
  match o with
  | None => mret tt
  | Some block =>
      upd (λ g,
        match parent_scores g (parent_hashes (header block)) with
        | [] => set_colors (blue_set g) ({[child]} ∪ red_set g) (blue_score g) g
        | scores => set_colors ({[child]} ∪ blue_set g) (red_set g)
                      (<[child := add64 (max_score scores) 1]> (blue_score g)) g
        end)
  end.

(** One turn of the traversal; the local variables are [visited] and the
    hashes pushed in this turn. *)
Definition bfs_child (child : Hash) :
    SE (DagState * (gset Hash * list Hash)) BlockchainError unit := λ s,
  let '(st, (visited, pushed)) := s in
  if bool_decide (child ∈ visited) then (Ok tt, s)
  else zoom fst (λ st' _, (st', ({[child]} ∪ visited, pushed ++ [child]))) (color_child child) s.

Definition bfs_body (current : Hash) : SE (DagState * gset Hash) BlockchainError (list Hash) :=
  λ sv,
  match get_children sv.1 current with
  | Err e => (Err e, sv)
  | Ok children =>
      match se_for children bfs_child (sv.1, (sv.2, [])) with
      | (Ok _, (st, (visited, pushed))) => (Ok pushed, (st, visited))
      | (Err e, (st, (visited, _))) => (Err e, (st, visited))
      end
  end.

(** The blue blocks with their score and timestamp. *)
Definition blue_entries (st : DagState) : list (Hash * u64 * u64) :=
  omap (λ h, match get_block st h with
             | Ok (Some b) => Some (h, default 0 (blue_score st.2 !! h), timestamp (header b))
             | _ => None
             end) (hs_iter (blue_set st.2)).

Definition update_blue_set (fuel : nat) : DagM unit :=
  st ← se_get;
  match genesis_hash st.2 with
  | None => mret tt
  | Some g =>
      o ← se_read (λ st, get_block st g);
      match o with
      | None => mret tt
      | Some gb =>
          if negb (bool_decide (parent_hashes (header gb) = [])) then mret tt else
          _ ← upd (set_colors {[g]} ∅ {[g := 1]});
          _ ← with_local {[g]} (se_queue OutOfFuel fuel bfs_body [g]);
          se_mod (λ st, (st.1, set_ordering
            (fst ∘ fst <$> sort_by order_leb (blue_entries st)) st.2))
      end
  end.

Definition rebuild_from_scratch (fuel : nat) : DagM unit := update_blue_set fuel.

(** *** Recovery *)

Definition rebuild_ordering_from_storage (st : DagState) : DagState * nat :=
  let blocks := ds_get_all_blocks (st.1, dag_storage st.2) in
  match blocks with
  | [] => (st, 0%nat)
  | _ =>
      let sorted := sort_by_key (λ b, block_number (header b)) blocks in
      let g0 := st.2 in
      let g :=
        foldl (λ g pb,
          let '(position, b) := pb in
          let h := block_hash b in
          MkGhostDAG (dag_k g) (dag_storage g)
            (match parent_hashes (header b), genesis_hash g with
             | [], None => Some h
             | _, o => o
             end)
            ({[h]} ∪ blue_set g) (red_set g) (<[h := Z.of_nat (S position)]> (blue_score g))
            (<[h := timestamp (header b)]> (block_timestamps g)) (ordering g ++ [h])
            (checkpoint_stale_rebuilt g))
          (MkGhostDAG (dag_k g0) (dag_storage g0) (genesis_hash g0) ∅ ∅ ∅ ∅ []
             (checkpoint_stale_rebuilt g0))
          (zip (seq 0 (length sorted)) sorted) in
      let g := set_ordering (reverse (ordering g)) g in
      ((st.1, g), length (ordering g))
  end.

Definition with_database_and_k (db : Sled) (k : nat) : result BlockchainError DagState :=
  if (1 <=? k)%nat && (k <=? 64)%nat then
    let config := MkDagConfig 1000 500 100 in
    let finality_depth := confirmations_for_checkpoint config in
    let '(genesis, blue, scores, order) :=
      default (None, ∅, ∅, []) (load_checkpoint db) in
    let g := MkGhostDAG k (ds_new config) genesis blue ∅ scores ∅ order false in
    Ok (if (length order <=? finality_depth)%nat
        then fst (rebuild_ordering_from_storage (Some db, g)) else (Some db, g))
  else Err (Panic "GhostDAG K must be between 1 and 64").

Definition loaded_from_checkpoint (g : GhostDAG) : bool :=
  negb (bool_decide (blue_set g = ∅)) || negb (bool_decide (ordering g = [])).

(** *** Incremental update *)

(** The descendants of a block within reach, itself included. *)
Definition affected_body (current : Hash) : SE (DagState * gset Hash) BlockchainError (list Hash) :=
  λ sv,
  match get_children sv.1 current with
  | Err e => (Err e, sv)
  | Ok children =>
      let '(affected, pushed) :=
        foldl (λ ap child, if bool_decide (child ∈ ap.1) then ap
                           else ({[child]} ∪ ap.1, ap.2 ++ [child])) (sv.2, []) children in
      (Ok pushed, (sv.1, affected))
  end.

Definition affected_set (fuel : nat) (new : Hash) : DagM (gset Hash) :=
  children ← se_read (λ st, get_children st new);
  match children with
  | [] => mret {[new]}
  | _ => r ← with_local {[new]} (se_queue OutOfFuel fuel affected_body [new]); mret (r.2)
  end.

Definition in_degrees (st : DagState) (affected : gset Hash) : result BlockchainError (gmap Hash nat) :=
  try_fold (λ m h,
    o ← get_block st h;
    Ok (match o with
        | None => m
        | Some b => <[h := length (List.filter (λ p, bool_decide (p ∈ affected)) (parent_hashes (header b)))]> m
        end)) ∅ (hs_iter affected).

(** Kahn's loop; the local variables are the remaining in-degrees and the
    order built so far. *)
Definition topo_body (affected : gset Hash) (h : Hash) :
    SE (DagState * (gmap Hash nat * list Hash)) BlockchainError (list Hash) := λ s,
  let '(st, (deg, topo)) := s in
  match get_children st h with
  | Err e => (Err e, (st, (deg, topo ++ [h])))
  | Ok children =>
      let '(deg', pushed) :=
        foldl (λ dp child,
          if bool_decide (child ∈ affected) then
            match dp.1 !! child with
            | Some d => let d' := (d - 1)%nat in
                        (<[child := d']> dp.1, if (d' =? 0)%nat then dp.2 ++ [child] else dp.2)
            | None => dp
            end
          else dp) (deg, []) children in
      (Ok pushed, (st, (deg', topo ++ [h])))
  end.

Definition topo_order (fuel : nat) (affected : gset Hash) : DagM (list Hash) :=
  deg ← se_read (λ st, in_degrees st affected);
  let roots := List.filter (λ h, (default 1%nat (deg !! h) =? 0)%nat) (hs_iter affected) in
  r ← with_local (deg, []) (se_queue OutOfFuel fuel (topo_body affected) roots);
  mret (r.2.2).

(** Colour one affected block; the local variables are
    [blocks_added_to_blue] and [blocks_removed_from_blue]. *)
Definition recolor (h : Hash) : SE (DagState * (gset Hash * gset Hash)) BlockchainError unit := λ s,
  let '(st, (added, removed)) := s in
  match get_block st h with
  | Err e => (Err e, s)
  | Ok None => (Ok tt, s)
  | Ok (Some b) =>
      let g := st.2 in
      match parent_scores g (parent_hashes (header b)) with
      | [] =>
          match parent_hashes (header b) with
          | [] => (Ok tt, ((st.1, set_colors ({[h]} ∪ blue_set g) (red_set g) (<[h := 1]> (blue_score g)) g),
                           (added, removed)))
          | _ => (Ok tt, ((st.1, set_colors (blue_set g) ({[h]} ∪ red_set g) (blue_score g) g),
                          (added, removed)))
          end
      | scores =>
          let g := set_colors ({[h]} ∪ blue_set g) (red_set g)
                     (<[h := add64 (max_score scores) 1]> (blue_score g)) g in
          (Ok tt, ((st.1, g),
                   if bool_decide (h ∈ removed) then (added, removed ∖ {[h]})
                   else ({[h]} ∪ added, removed)))
      end
  end.

(** The parents of [h], when all of them are blue (or there are none). *)
Definition all_blue_parents (st : DagState) (h : Hash) : option (list Hash) :=
  match get_block st h with
  | Ok (Some b) =>
      let parents := parent_hashes (header b) in
      if forallb (λ p, bool_decide (p ∈ blue_set st.2)) parents then Some parents else None
  | _ => None
  end.

(** Make a block blue in the fallback. *)
Definition force_blue (g : GhostDAG) (h : Hash) (parents : list Hash) : GhostDAG :=
  let scores := omap (λ p, blue_score g !! p) parents in
  let score := match scores with [] => 1 | _ => add64 (max_score scores) 1 end in
  set_colors ({[h]} ∪ blue_set g) (red_set g ∖ {[h]}) (<[h := score]> (blue_score g)) g.

Definition fallback (new : Hash) (affected : gset Hash) (st : DagState) (added removed : gset Hash) :
    GhostDAG * gset Hash * gset Hash :=
  let g := st.2 in
  let new_block_parents :=
    if bool_decide (new ∈ blue_set g) then None else all_blue_parents st new in
  let affected_red_blocks :=
    omap (λ h, if bool_decide (h ∈ red_set g) && negb (bool_decide (h ∈ blue_set g))
               then (λ ps, (h, ps)) <$> all_blue_parents st h else None) (hs_iter affected) in
  let '(g, added) := match new_block_parents with
                     | Some parents => (force_blue g new parents, {[new]} ∪ added)
                     | None => (g, added)
                     end in
  foldl (λ gar hp, let '(g, added, removed) := gar in
                   (force_blue g hp.1 hp.2, {[hp.1]} ∪ added, removed ∖ {[hp.1]}))
    (g, added, removed) affected_red_blocks.

(** The comparison given to [binary_search_by]. *)
Definition search_cmp (g : GhostDAG) (h : Hash) (probe : Hash) : comparison :=
  match default 0 (blue_score g !! h) ?= default 0 (blue_score g !! probe) with
  | Eq => default 0 (block_timestamps g !! h) ?= default 0 (block_timestamps g !! probe)
  | c => c
  end.

Definition insert_ordered (g : GhostDAG) (h : Hash) : GhostDAG :=
  let idx := match binary_search_by (ordering g) (search_cmp g h) with inl i | inr i => i end in
  set_ordering (vec_insert idx h (ordering g)) g.

Definition remove_ordered (g : GhostDAG) (h : Hash) : GhostDAG :=
  match position (λ x, bool_decide (x = h)) (ordering g) with
  | Some pos => set_ordering (vec_remove pos (ordering g)) g
  | None => g
  end.

(** Parents that arrived out of order are made blue directly. *)
Definition insert_hot_parents (parents : list Hash) (g : GhostDAG) : GhostDAG :=
  let next_score := add64 (max_score (snd <$> hm_iter (blue_score g))) 1 in
  foldl (λ g p,
    if bool_decide (is_Some (hot_blocks (dag_storage g) !! p)) && negb (bool_decide (p ∈ blue_set g))
    then set_colors ({[p]} ∪ blue_set g) (red_set g)
           (match blue_score g !! p with Some _ => blue_score g | None => <[p := next_score]> (blue_score g) end) g
    else g) g parents.

(** Parents in the hot cache but none of them blue. *)
Definition stale_parents (st : DagState) (new : Hash) (nb : option Block) : option (list Hash) :=
  match nb with
  | Some b =>
      let parents := parent_hashes (header b) in
      if existsb (λ p, bool_decide (is_Some (hot_blocks (dag_storage st.2) !! p))) parents
         && negb (existsb (λ p, bool_decide (p ∈ blue_set st.2)) parents)
      then Some parents else None
  | None => None
  end.

(** Steps 2 to 4 and the ordering update. *)
Definition recompute (fuel : nat) (new : Hash) (affected : gset Hash) : DagM unit :=
  st ← se_get;
  let removed := affected ∩ blue_set st.2 in
  _ ← upd (λ g, set_colors (blue_set g ∖ affected) (red_set g ∖ affected)
                  (filter (λ hs, hs.1 ∉ affected) (blue_score g)) g);
  topo ← topo_order fuel affected;
  r ← with_local (∅, removed) (se_for topo recolor);
  let '(added, removed) := r.2 in
  se_mod (λ st,
    let '(g, added, removed) := fallback new affected st added removed in
    let g := foldl remove_ordered g (hs_iter removed) in
    (st.1, foldl insert_ordered g (hs_iter added))).

Definition update_blue_set_incremental (fuel : nat) (new : Hash) : DagM unit :=
  st ← se_get;
  match genesis_hash st.2 with
  | None => mret tt
  | Some gh =>
      o ← se_read (λ st, get_block st gh);
      match o with
      | None => mret tt
      | Some _ =>
          nb ← se_read (λ st, get_block st new);
          match stale_parents st new nb with
          | Some parents =>
              if checkpoint_stale_rebuilt st.2 then
                _ ← upd (insert_hot_parents parents);
                affected ← affected_set fuel new;
                recompute fuel new affected
              else
                _ ← upd (λ g, set_rebuilt true (set_ordering [] (set_colors ∅ ∅ ∅ g)));
                update_blue_set fuel
          | None =>
              affected ← affected_set fuel new;
              recompute fuel new affected
          end
      end
  end.

(** *** Adding a block *)

Definition prune_below_checkpoint (confirmations : nat) (g : GhostDAG) : GhostDAG :=
  let high_water_mark := (confirmations + confirmations)%nat in
  if (length (ordering g) <=? high_water_mark)%nat then g else
  let to_prune := drop high_water_mark (ordering g) in
  let gone : gset Hash := list_to_set to_prune in
  MkGhostDAG (dag_k g) (prune_blocks_by_hash (dag_storage g) to_prune) (genesis_hash g)
    (blue_set g ∖ gone) (red_set g ∖ gone) (filter (λ hs, hs.1 ∉ gone) (blue_score g))
    (filter (λ hs, hs.1 ∉ gone) (block_timestamps g)) (take high_water_mark (ordering g))
    (checkpoint_stale_rebuilt g).

(** The child lists kept in the hot map. *)
Definition link_parent (h p : Hash) : DagM unit :=
  children ← se_read (λ st, get_children st p);
  if contains h children then mret tt
  else upd (λ g, set_storage (set_children (dag_storage g) p (children ++ [h])) g).

Definition periodic_checkpoint (st : DagState) : DagState :=
  let g := st.2 in
  let interval := confirmations_for_checkpoint (ds_config (dag_storage g)) in
  if (interval =? 0)%nat then st else
  let s := increment_checkpoint_counter (dag_storage g) in
  let g := set_storage s g in
  if (blocks_since_checkpoint s <? interval)%nat then (st.1, g)
  else ((λ db, save_checkpoint db (genesis_hash g) (blue_set g) (blue_score g) (ordering g)) <$> st.1,
        set_storage (reset_checkpoint_counter s) g).

Definition add_block (fuel : nat) (b : Block) : DagM unit :=
  let h := block_hash b in
  _ ← upd (λ g, match genesis_hash g, parent_hashes (header b) with
                | None, [] => set_genesis (Some h) g
                | _, _ => g
                end);
  _ ← on_storage (ds_add_block b);
  _ ← upd (λ g, set_timestamps (<[h := timestamp (header b)]> (block_timestamps g)) g);
  _ ← se_for (parent_hashes (header b)) (link_parent h);
  _ ← upd (λ g, set_storage (set_children (dag_storage g) h []) g);
  st ← se_get;
  _ ← (if bool_decide (blue_set st.2 = ∅) then update_blue_set fuel
       else update_blue_set_incremental fuel h);
  _ ← upd (λ g, let n := confirmations_for_checkpoint (ds_config (dag_storage g)) in
                if (0 <? n)%nat then prune_below_checkpoint n g else g);
  se_mod periodic_checkpoint.

(** *** Queries *)

Definition get_ordered_blocks (st : DagState) : result BlockchainError (list Block) :=
  try_fold (λ acc h, o ← get_block st h; Ok (acc ++ match o with Some b => [b] | None => [] end))
    [] (ordering st.2).

Definition finality_depth (g : GhostDAG) : nat :=
  let n := confirmations_for_checkpoint (ds_config (dag_storage g)) in
  if (0 <? n)%nat then n else 1%nat.

Definition get_finalized_block_hash (g : GhostDAG) : option Hash :=
  let depth := finality_depth g in
  if (length (ordering g) <=? depth)%nat then None else ordering g !! depth.

Definition get_finalized_block_number (st : DagState) : result BlockchainError (option u64) :=
  match get_finalized_block_hash st.2 with
  | None => Ok None
  | Some h => o ← get_block st h; Ok (option_map (λ b, block_number (header b)) o)
  end.

Definition prune_old_blocks (current_height : u64) (g : GhostDAG) : GhostDAG :=
  set_storage (fst (prune_red_blocks (dag_storage g) current_height 100)) g.

Definition dag_clear (g : GhostDAG) : GhostDAG :=
  MkGhostDAG (dag_k g) (ds_clear (dag_storage g)) None ∅ ∅ ∅ ∅ [] (checkpoint_stale_rebuilt g).

(** Childless blocks with their score; a block whose children cannot be read
    counts as childless. *)
Definition tips_of (st : DagState) (score : Hash → u64) (hs : gset Hash) : list (Hash * u64) :=
  omap (λ h, match get_children st h with
             | Ok [] | Err _ => Some (h, score h)
             | Ok _ => None
             end) (hs_iter hs).

Definition get_tips (st : DagState) : list Hash :=
  let g := st.2 in
  if bool_decide (blue_set g = ∅) && bool_decide (red_set g = ∅) then [] else
  match genesis_hash g with
  | None => []
  | Some genesis =>
      let tips := tips_of st (λ h, default 0 (blue_score g !! h)) (blue_set g)
                  ++ tips_of st (λ _, 0) (red_set g) in
      match tips with
      | [] => [genesis]
      | _ => fst <$> take (dag_k g) (sort_by_key (λ t, - t.2) tips)
      end
  end.

(** [get_stats]: the counts, from the hot cache only. *)
Definition get_stats (g : GhostDAG) : usize * usize * usize * usize :=
  let total := Z.of_nat (size (hot_blocks (dag_storage g))) in
  let blue := Z.of_nat (size (blue_set g)) in
  let txs := foldr Z.add 0 ((λ hb, Z.of_nat (length (transactions hb.2))) <$> hm_iter (hot_blocks (dag_storage g))) in
  (total, blue, if blue <? total then total - blue else 0, txs).
End GhostDAG.

(** ** The incremental update of a tip *)

Section TipUpdate.
Context `{Hex, Codec Block, Codec (list Hash), HashIter, SliceSearch}.

(** Reads of the storage do not see colours, ordering or timestamps. *)
Lemma get_block_storage (db : option Sled) g g' h :
  dag_storage g = dag_storage g' → get_block (db, g) h = get_block (db, g') h.
Proof. unfold get_block. cbn. by intros ->. Qed.
Lemma get_children_storage (db : option Sled) g g' h :
  dag_storage g = dag_storage g' → get_children (db, g) h = get_children (db, g') h.
Proof. unfold get_children. cbn. by intros ->. Qed.

Lemma filter_self_nil (new : Hash) ps :
  new ∉ ps → List.filter (λ p, bool_decide (p ∈ ({[new]} : gset Hash))) ps = [].
Proof.
  induction ps as [|p ps IH]; intros Hn; cbn; [done|]. rewrite not_elem_of_cons in Hn.
  rewrite bool_decide_eq_false_2 by (rewrite elem_of_singleton; naive_solver). apply IH. naive_solver.
Qed.

Lemma topo_order_tip fuel new db g b :
  get_block (db, g) new = Ok (Some b) → get_children (db, g) new = Ok [] →
  new ∉ parent_hashes (header b) → (1 <= fuel)%nat →
  topo_order fuel {[new]} (db, g) = (Ok [new], (db, g)).
Proof.
  intros Hb Hc Hself Hf. destruct fuel as [|fuel]; [lia|].
  unfold topo_order, mbind, SE_bind, se_read, in_degrees.
  rewrite hs_iter_singleton. cbn [try_fold mbind result_bind]. rewrite Hb.
  cbn [mbind result_bind]. rewrite filter_self_nil by done. cbn [length List.filter].
  rewrite lookup_insert_eq. cbn [default Nat.eqb from_option id].
  unfold with_local. cbn [se_queue]. unfold mbind, SE_bind, topo_body. rewrite Hc. by destruct fuel.
Qed.

Definition tip_score (g : GhostDAG) (parents : list Hash) : u64 :=
  add64 (max_score (parent_scores g parents)) 1.

(** The engine after colouring a new blue tip. *)
Definition color_tip (g : GhostDAG) (new : Hash) (parents : list Hash) : GhostDAG :=
  set_colors ({[new]} ∪ blue_set g) (red_set g ∖ {[new]})
    (<[new := tip_score g parents]> (blue_score g)) g.

Lemma parent_scores_restrict g new parents :
  new ∉ parents →
  parent_scores (set_colors (blue_set g ∖ {[new]}) (red_set g ∖ {[new]})
    (filter (λ hs, hs.1 ∉ ({[new]} : gset Hash)) (blue_score g)) g) parents = parent_scores g parents.
Proof.
  unfold parent_scores. cbn. induction parents as [|p ps IH]; intros Hn; cbn; [done|].
  apply not_elem_of_cons in Hn as [Hp Hn]. specialize (IH Hn).
  assert (bool_decide (p ∈ blue_set g ∖ {[new]}) = bool_decide (p ∈ blue_set g)) as ->.
  { apply bool_decide_ext. set_solver. }
  assert (filter (λ hs : Hash * u64, hs.1 ∉ ({[new]} : gset Hash)) (blue_score g) !! p = blue_score g !! p) as ->.
  { destruct (blue_score g !! p) as [x|] eqn:Hx.
    - apply map_lookup_filter_Some. split; [done|]. cbn. set_solver.
    - apply map_lookup_filter_None. by left. }
  by rewrite IH.
Qed.

Lemma insert_filter (m : gmap Hash u64) new x :
  <[new := x]> (filter (λ hs, hs.1 ∉ ({[new]} : gset Hash)) m) = <[new := x]> m.
Proof.
  apply map_eq. intros h. destruct (decide (h = new)) as [->|].
  - by rewrite !lookup_insert_eq.
  - rewrite !lookup_insert_ne by done. destruct (m !! h) as [y|] eqn:Hy.
    + apply map_lookup_filter_Some. split; [done|]. cbn. set_solver.
    + apply map_lookup_filter_None. by left.
Qed.

Lemma recompute_tip fuel new db g b :
  get_block (db, g) new = Ok (Some b) → get_children (db, g) new = Ok [] →
  new ∉ parent_hashes (header b) → new ∉ blue_set g →
  parent_scores g (parent_hashes (header b)) ≠ [] → (1 <= fuel)%nat →
  recompute fuel new {[new]} (db, g)
  = (Ok tt, (db, insert_ordered (color_tip g new (parent_hashes (header b))) new)).
Proof.
  intros Hb Hc Hself Hnew Hps Hf.
  set (g1 := set_colors (blue_set g ∖ {[new]}) (red_set g ∖ {[new]})
    (filter (λ hs, hs.1 ∉ ({[new]} : gset Hash)) (blue_score g)) g).
  assert (get_block (db, g1) new = Ok (Some b)) as Hb1 by (by rewrite (get_block_storage db g1 g)).
  assert (get_children (db, g1) new = Ok []) as Hc1 by (by rewrite (get_children_storage db g1 g)).
  unfold recompute, mbind, SE_bind, se_get, upd, se_mod. cbn [fst snd]. fold g1.
  rewrite (topo_order_tip fuel new db g1 b) by done.
  assert ({[new]} ∩ blue_set g = ∅) as -> by set_solver.
  unfold with_local. cbn [se_for]. unfold mbind, SE_bind, recolor. rewrite Hb1. cbn [snd fst].
  unfold g1 at 1. rewrite parent_scores_restrict by done.
  destruct (parent_scores g (parent_hashes (header b))) as [|x xs] eqn:Hsc; [done|].
  rewrite bool_decide_eq_false_2 by set_solver. cbn [mret SE_ret fst snd].
  set (g2 := set_colors _ _ _ g1).
  assert (g2 = color_tip g new (parent_hashes (header b))) as ->.
  { unfold g2, color_tip, g1, tip_score. rewrite Hsc. unfold set_colors. cbn.
    rewrite insert_filter. f_equal. set_solver. }
  unfold fallback. cbn [snd fst blue_set red_set color_tip set_colors].
  rewrite bool_decide_eq_true_2 by set_solver. rewrite hs_iter_singleton. cbn [omap list_omap].
  rewrite bool_decide_eq_false_2 by set_solver. cbn [andb foldl fst snd].
  rewrite hs_iter_empty. cbn [foldl].
  assert (({[new]} : gset Hash) ∪ ∅ = {[new]}) as -> by set_solver.
  by rewrite hs_iter_singleton.
Qed.
End TipUpdate.

(** ** The ordering *)

Section Ordering.
Context `{SliceSearch}.

(** Score, then timestamp. *)
Definition rank (g : GhostDAG) (h : Hash) : Z * Z :=
  (default 0 (blue_score g !! h), default 0 (block_timestamps g !! h)).

(** [a] may stand before [b]: higher score, or the same score and a
    timestamp at least as late. *)
Definition before (g : GhostDAG) (a b : Hash) : Prop :=
  (rank g b).1 < (rank g a).1 ∨ ((rank g b).1 = (rank g a).1 ∧ (rank g b).2 <= (rank g a).2).

Lemma search_cmp_spec g h x :
  match search_cmp g h x with
  | Lt => before g x h ∧ ¬ before g h x
  | Eq => before g x h ∧ before g h x
  | Gt => before g h x ∧ ¬ before g x h
  end.
Proof.
  unfold search_cmp, before, rank. cbn.
  destruct (Z.compare_spec (default 0 (blue_score g !! h)) (default 0 (blue_score g !! x)));
    [destruct (Z.compare_spec (default 0 (block_timestamps g !! h)) (default 0 (block_timestamps g !! x)))| |];
    lia.
Qed.

Lemma before_trans g a b c : before g a b → before g b c → before g a c.
Proof. unfold before. lia. Qed.

Lemma sorted_partitioned g h l :
  StronglySorted (before g) l → partitioned (search_cmp g h) l.
Proof.
  induction 1 as [|x l Hl (l1 & l2 & l3 & -> & H1 & H2 & H3) Hx].
  { by exists [], [], []. }
  pose proof (search_cmp_spec g h x) as Hc.
  assert (∀ y, y ∈ l1 ++ l2 ++ l3 → before g x y) as Hxy by by apply Forall_forall.
  destruct (search_cmp g h x) eqn:Hcx.
  - assert (l1 = []) as ->.
    { destruct l1 as [|y l1]; [done|]. apply Forall_cons in H1 as [Hy _].
      pose proof (search_cmp_spec g h y) as Hcy. rewrite Hy in Hcy.
      exfalso. apply Hcy. eapply before_trans; [apply Hc|]. apply Hxy. by left. }
    exists [], (x :: l2), l3. by split_and!; [|constructor|constructor|].
  - exists (x :: l1), l2, l3. by split_and!; [|constructor| |].
  - assert (∀ y, y ∈ l1 ++ l2 ++ l3 → search_cmp g h y = Gt) as Hgt.
    { intros y Hy. pose proof (search_cmp_spec g h y) as Hcy. specialize (Hxy y Hy).
      destruct (search_cmp g h y); [| |done]; exfalso; apply Hc;
        (eapply before_trans; [exact Hxy|apply Hcy]). }
    exists [], [], (x :: l1 ++ l2 ++ l3). split_and!; [done|constructor|constructor|].
    constructor; [done|]. by apply Forall_forall.
Qed.

Lemma StronglySorted_insert {A} (R : A → A → Prop) i x l :
  StronglySorted R l → Forall (λ y, R y x) (take i l) → Forall (R x) (drop i l) →
  StronglySorted R (vec_insert i x l).
Proof.
  unfold vec_insert. revert i. induction l as [|y l IH]; intros i Hs Ht Hd.
  { rewrite take_nil, drop_nil. by repeat constructor. }
  apply StronglySorted_inv in Hs as [Hs Hy]. destruct i as [|i]; cbn in *.
  - constructor; [by constructor|done].
  - apply Forall_cons in Ht as [Hyx Ht]. constructor; [by apply IH|].
    rewrite <- (take_drop i l) in Hy. apply Forall_app in Hy as [Hy1 Hy2].
    apply Forall_app. split; [done|]. by constructor.
Qed.

Lemma StronglySorted_split {A} (R : A → A → Prop) l i x :
  StronglySorted R l → l !! i = Some x →
  Forall (λ y, R y x) (take i l) ∧ Forall (R x) (drop (S i) l).
Proof.
  intros Hs. revert i. induction Hs as [|y l Hs IH Hy]; intros i Hi; [done|].
  destruct i as [|i]; cbn in *.
  - injection Hi as <-. split; [constructor|done].
  - destruct (IH i Hi). split; [|done]. constructor; [|done].
    rewrite Forall_forall in Hy. by apply Hy, (list_elem_of_lookup_2 _ i).
Qed.

Lemma insert_ordered_sorted g h :
  StronglySorted (before g) (ordering g) →
  StronglySorted (before g) (ordering (insert_ordered g h)) ∧
  ordering (insert_ordered g h) ≡ₚ h :: ordering g.
Proof.
  intros Hs. unfold insert_ordered. cbn. split; [|apply vec_insert_perm].
  pose proof (sorted_partitioned g h _ Hs) as Hp.
  destruct (binary_search_by (ordering g) (search_cmp g h)) as [i|i] eqn:Hb.
  - destruct (search_ok _ _ _ Hp Hb) as (x & Hx & Hc).
    pose proof (search_cmp_spec g h x) as Hsp. rewrite Hc in Hsp. destruct Hsp as [Hxh Hhx].
    destruct (StronglySorted_split _ _ _ _ Hs Hx) as [Ht Hd].
    apply StronglySorted_insert; [done| |].
    + eapply Forall_impl; [exact Ht|]. intros y Hy. exact (before_trans g y x h Hy Hxh).
    + rewrite (drop_S _ x) by done. constructor; [done|].
      eapply Forall_impl; [exact Hd|]. intros y Hy. exact (before_trans g h x y Hhx Hy).
  - destruct (search_err _ _ _ Hp Hb) as [Ht Hd]. apply StronglySorted_insert; [done| |].
    + eapply Forall_impl; [exact Ht|]. intros y Hy. pose proof (search_cmp_spec g h y) as Hsp.
      cbn in Hy. rewrite Hy in Hsp. apply Hsp.
    + eapply Forall_impl; [exact Hd|]. intros y Hy. pose proof (search_cmp_spec g h y) as Hsp.
      cbn in Hy. rewrite Hy in Hsp. apply Hsp.
Qed.

(** Only the ranks of the listed hashes matter. *)
Lemma sorted_ext g g' l :
  (∀ h, h ∈ l → rank g h = rank g' h) → StronglySorted (before g) l → StronglySorted (before g') l.
Proof.
  intros Hr Hs. induction Hs as [|x l Hs IH Hx]; constructor.
  - apply IH. intros. apply Hr. by right.
  - apply Forall_forall. intros y Hy. rewrite Forall_forall in Hx. specialize (Hx y Hy).
    unfold before in *. rewrite <- (Hr x), <- (Hr y); [done | by right | by left].
Qed.
End Ordering.

(** ** The engine over a sequence of blocks *)

Section Engine.
Context `{Hex, Codec Block, Codec (list Hash), HashIter, SliceSearch}.

Lemma affected_set_tip fuel new st :
  get_children st new = Ok [] → affected_set fuel new st = (Ok {[new]}, st).
Proof. intros Hc. unfold affected_set, mbind, SE_bind, se_read. by rewrite Hc. Qed.

(** A block with a blue parent is not stale. *)
Lemma stale_parents_blue st new b p :
  p ∈ parent_hashes (header b) → p ∈ blue_set st.2 → stale_parents st new (Some b) = None.
Proof.
  intros Hp Hb. unfold stale_parents.
  assert (existsb (λ p, bool_decide (p ∈ blue_set st.2)) (parent_hashes (header b)) = true) as ->.
  { apply existsb_exists. exists p. split; [by apply list_elem_of_In|]. by apply bool_decide_eq_true_2. }
  by rewrite andb_false_r.
Qed.

Lemma parent_scores_nonempty g parents p :
  dom (blue_score g) = blue_set g → p ∈ parents → p ∈ blue_set g → parent_scores g parents ≠ [].
Proof.
  intros Hdom Hp Hb Hnil.
  assert (is_Some (blue_score g !! p)) as [x Hx] by (apply elem_of_dom; by rewrite Hdom).
  assert (x ∈ parent_scores g parents) as Hin.
  { unfold parent_scores. apply list_elem_of_omap. exists p. split; [done|].
    by rewrite bool_decide_eq_true_2. }
  rewrite Hnil in Hin. by apply elem_of_nil in Hin.
Qed.

(** The incremental update of a new block with a blue parent. *)
Lemma incremental_tip fuel new db g gh gb b p :
  genesis_hash g = Some gh → get_block (db, g) gh = Ok (Some gb) →
  get_block (db, g) new = Ok (Some b) → get_children (db, g) new = Ok [] →
  new ∉ parent_hashes (header b) → new ∉ blue_set g →
  p ∈ parent_hashes (header b) → p ∈ blue_set g → dom (blue_score g) = blue_set g →
  (1 <= fuel)%nat →
  update_blue_set_incremental fuel new (db, g)
  = (Ok tt, (db, insert_ordered (color_tip g new (parent_hashes (header b))) new)).
Proof.
  intros Hg Hgb Hb Hc Hself Hnew Hp Hpb Hdom Hf.
  unfold update_blue_set_incremental, mbind, SE_bind, se_get, se_read. cbn [snd]. rewrite Hg, Hgb, Hb.
  rewrite (stale_parents_blue (db, g) new b p) by done.
  rewrite affected_set_tip by done. apply recompute_tip; try done.
  by eapply parent_scores_nonempty.
Qed.

(** The traversal from a lone genesis block. *)
Lemma update_blue_set_genesis fuel db g gh gb :
  genesis_hash g = Some gh → get_block (db, g) gh = Ok (Some gb) →
  parent_hashes (header gb) = [] → get_children (db, g) gh = Ok [] → (1 <= fuel)%nat →
  update_blue_set fuel (db, g)
  = (Ok tt, (db, set_ordering [gh] (set_colors {[gh]} ∅ {[gh := 1]} g))).
Proof.
  intros Hg Hgb Hroot Hc Hf. destruct fuel as [|fuel]; [lia|].
  unfold update_blue_set, mbind, SE_bind, se_get, se_read, upd, se_mod. cbn [snd fst]. rewrite Hg, Hgb, Hroot.
  cbn [bool_decide negb]. rewrite bool_decide_eq_true_2 by done. cbn [negb].
  set (g1 := set_colors {[gh]} ∅ {[gh := 1]} g).
  unfold with_local. cbn [se_queue]. unfold mbind, SE_bind, bfs_body. cbn [fst snd].
  rewrite (get_children_storage db g1 g), Hc by done. cbn [se_for mret SE_ret app].
  destruct fuel; cbn [se_queue mret SE_ret fst snd].
  all: unfold blue_entries; cbn [fst snd blue_set g1 set_colors]; rewrite hs_iter_singleton; cbn [omap list_omap];
    rewrite (get_block_storage db g1 g), Hgb by done; done.
Qed.

Record engine_inv (db : Sled) (g : GhostDAG) : Prop := {
  inv_cache : cache_ok (dag_storage g);
  inv_persisted : persisted db (dag_storage g);
  inv_disjoint : blue_set g ## red_set g;
  inv_scores : dom (blue_score g) = blue_set g;
  inv_nodup : NoDup (ordering g);
  inv_blue : ∀ h, h ∈ ordering g ↔ h ∈ blue_set g;
  inv_sorted : StronglySorted (before g) (ordering g);
  inv_genesis : match genesis_hash g with
                | None => blue_set g = ∅
                | Some gh => ∃ gb, on_disk db gh gb
                end }.

(** A block the engine may be given: well-formed hashes, not yet blue, and either the
    first genesis block of an engine or a block with a blue parent. *)
Definition admissible (g : GhostDAG) (b : Block) : Prop :=
  hash_wf (block_hash b) = true ∧ Forall (λ p, hash_wf p = true) (parent_hashes (header b)) ∧
  block_hash b ∉ blue_set g ∧ block_hash b ∉ parent_hashes (header b) ∧
  match genesis_hash g with
  | None => parent_hashes (header b) = []
  | Some gh => block_hash b ≠ gh ∧ ∃ p, p ∈ parent_hashes (header b) ∧ p ∈ blue_set g
  end.

(** [g'] differs from [g] only in its child lists. *)
Definition same_but_children (st st' : DagState) : Prop :=
  st'.1 = st.1 ∧ ∃ s', st'.2 = set_storage s' st.2 ∧
  hot_blocks s' = hot_blocks (dag_storage st.2) ∧
  hot_blocks_order s' = hot_blocks_order (dag_storage st.2) ∧
  ds_config s' = ds_config (dag_storage st.2).

Lemma same_but_children_refl st : same_but_children st st.
Proof. split; [done|]. exists (dag_storage st.2). by destruct st as [db []]. Qed.

Lemma link_parent_same h p st r st' :
  link_parent h p st = (r, st') → same_but_children st st'.
Proof.
  unfold link_parent, mbind, SE_bind, se_read.
  destruct (get_children st p) as [cs|e]; [|intros [= <- <-]; apply same_but_children_refl].
  destruct (contains h cs); intros [= <- <-]; [apply same_but_children_refl|].
  split; [done|]. cbn. eexists. split; [done|]. done.
Qed.

Lemma link_parents_same h ps st r st' :
  se_for ps (link_parent h) st = (r, st') → same_but_children st st'.
Proof.
  intros Hf. eapply (se_for_ind (same_but_children st)); [|apply same_but_children_refl|exact Hf].
  intros p s1 r1 s2 _ [Hd (s' & Hs & Hb & Ho & Hc)] Hl.
  apply link_parent_same in Hl as [Hd' (s'' & Hs' & Hb' & Ho' & Hc')].
  split; [congruence|]. exists s''. rewrite Hs in *. cbn in *. by split_and!; [rewrite Hs'|congruence..].
Qed.

(** The state [add_block] hands to the consensus update. *)
Lemma add_block_prepare fuel b db g st' :
  engine_inv db g → admissible g b → add_block fuel b (Some db, g) = (Ok tt, st') →
  ∃ db1 g1,
    let h := block_hash b in
    engine_inv db1 (set_timestamps (block_timestamps g) (set_genesis (genesis_hash g) g1)) ∧
    genesis_hash g1 = match genesis_hash g with Some gh => Some gh | None => Some h end ∧
    blue_set g1 = blue_set g ∧ red_set g1 = red_set g ∧ blue_score g1 = blue_score g ∧
    ordering g1 = ordering g ∧ block_timestamps g1 = <[h := timestamp (header b)]> (block_timestamps g) ∧
    ds_config (dag_storage g1) = ds_config (dag_storage g) ∧
    on_disk db1 h b ∧ get_block (Some db1, g1) h = Ok (Some b) ∧ get_children (Some db1, g1) h = Ok [] ∧
    ∃ g2, (if bool_decide (blue_set g1 = ∅) then update_blue_set fuel
           else update_blue_set_incremental fuel h) (Some db1, g1) = (Ok tt, g2) ∧
    st' = periodic_checkpoint (g2.1,
            let n := confirmations_for_checkpoint (ds_config (dag_storage g2.2)) in
            if (0 <? n)%nat then prune_below_checkpoint n g2.2 else g2.2).
Proof.
  intros Hinv (Hwf & Hps & Hnew & Hself & Hgen) Hadd. unfold add_block in Hadd.
  apply se_bind_Ok in Hadd as (u1 & st1 & Hs1 & Hadd). injection Hs1 as <- <-.
  apply se_bind_Ok in Hadd as ([] & st2 & Hs2 & Hadd).
  apply se_bind_Ok in Hadd as (u3 & st3 & Hs3 & Hadd). injection Hs3 as <- <-.
  apply se_bind_Ok in Hadd as ([] & st4 & Hlink & Hadd).
  apply se_bind_Ok in Hadd as (u5 & st5 & Hs5 & Hadd). injection Hs5 as <- <-.
  apply se_bind_Ok in Hadd as (st5' & st6 & Hs6 & Hadd). injection Hs6 as <- <-.
  apply se_bind_Ok in Hadd as ([] & g2 & Hupd & Hadd).
  apply se_bind_Ok in Hadd as (u7 & st7 & Hs7 & Hend). injection Hs7 as <- <-. injection Hend as <-.
  cbn [fst snd] in *. set (gen := match genesis_hash g, parent_hashes (header b) with
    | None, [] => set_genesis (Some (block_hash b)) g | _, _ => g end) in *.
  assert (dag_storage gen = dag_storage g) as Hgs by (unfold gen; by repeat case_match).
  unfold on_storage, zoom in Hs2. cbn [fst snd] in Hs2. rewrite Hgs in Hs2.
  destruct (ds_add_block b (Some db, dag_storage g)) as [r [odb s2]] eqn:Hds.
  injection Hs2 as -> <-.
  pose proof (ds_add_block_spec b (Some db, dag_storage g) _ Hwf Hps (inv_cache _ _ Hinv) Hds) as (Hcache & _ & Hget).
  pose proof (ds_add_block_config b (Some db, dag_storage g) _ Hwf Hps (inv_cache _ _ Hinv) Hds) as Hcfg.
  destruct (ds_add_block_disk b _ _ _ Hwf Hps Hds) as (db1 & [= ->] & Hdisk & Hsame).
  cbn in Hget. destruct (Hget (inv_persisted _ _ Hinv)) as (Hpers & Hgetb & _).
  apply link_parents_same in Hlink as [Hdb4 (s4 & Hg4 & Hb4 & Ho4 & Hc4)].
  destruct st4 as [odb4 g4]. cbn [fst snd] in *. subst odb4.
  set (g1 := set_storage (set_children (dag_storage g4) (block_hash b) []) g4) in *.
  exists db1, g1. cbn zeta.
  assert (∃ s1, g1 = set_storage s1 (set_timestamps
            (<[block_hash b := timestamp (header b)]> (block_timestamps g)) gen) ∧
          hot_blocks s1 = hot_blocks s2 ∧ hot_blocks_order s1 = hot_blocks_order s2 ∧
          ds_config s1 = ds_config s2 ∧ hot_children s1 !! block_hash b = Some []) as
    (s1 & Hg1 & Hb1 & Ho1 & Hc1 & Hch).
  { exists (set_children s4 (block_hash b) []). unfold g1. rewrite Hg4. cbn.
    split_and!; try done; [|apply lookup_insert_eq].
    assert (block_timestamps gen = block_timestamps g) as Ht by (unfold gen; by repeat case_match).
    unfold set_storage, set_timestamps. cbn. by rewrite Ht. }
  rewrite Hg1 in *. clear g1 Hg1 Hg4 Hb4 Ho4 Hc4 g4.
  assert (genesis_hash gen = match genesis_hash g with Some gh => Some gh | None => Some (block_hash b) end)
    as Hgg.
  { unfold gen. destruct (genesis_hash g) as [gh|] eqn:E; [exact E|]. by rewrite Hgen. }
  assert (blue_set gen = blue_set g ∧ red_set gen = red_set g ∧ blue_score gen = blue_score g ∧
          ordering gen = ordering g) as (E1 & E2 & E3 & E4) by (unfold gen; by repeat case_match).
  split_and!; cbn; try done; [|congruence| | |].
  - destruct Hinv as [I1 I2 I3 I4 I5 I6 I7 I8]. split; cbn; rewrite ?E1, ?E2, ?E3, ?E4; try done.
    + destruct Hcache as [A B C]. by split; rewrite ?Hb1, ?Ho1.
    + unfold persisted. by rewrite Hb1.
    + eapply sorted_ext; [|exact I7]. intros x _. unfold rank. cbn. by rewrite E3.
    + destruct (genesis_hash g) as [gh|]; [|done]. destruct I8 as [gb Hgb]. exists gb.
      eapply on_disk_same; [|exact Hgb]. apply Hsame; [apply Hgb|]. naive_solver.
  - unfold get_block, ds_get_block. cbn. rewrite Hb1. exact Hgetb.
  - unfold get_children, ds_get_children. cbn. by rewrite Hch.
  - exists g2. split; [|done]. exact Hupd.
Qed.

Lemma engine_inv_genesis db g h b :
  cache_ok (dag_storage g) → persisted db (dag_storage g) →
  genesis_hash g = Some h → on_disk db h b →
  engine_inv db (set_ordering [h] (set_colors {[h]} ∅ {[h := 1]} g)).
Proof.
  intros I1 I2 Hg Hd. split; cbn; try done.
  - apply dom_singleton_L.
  - apply NoDup_singleton.
  - intros x. by rewrite list_elem_of_singleton, elem_of_singleton.
  - by repeat constructor.
  - rewrite Hg. eauto.
Qed.

Lemma engine_inv_tip db g ts h parents :
  engine_inv db (set_timestamps ts g) → is_Some (genesis_hash g) → h ∉ blue_set g →
  (∀ x, x ≠ h → block_timestamps g !! x = ts !! x) →
  engine_inv db (insert_ordered (color_tip g h parents) h).
Proof.
  intros [I1 I2 I3 I4 I5 I6 I7 I8] [gh Hgh] Hh Hts. cbn in *.
  assert (h ∉ ordering g) as Hord by (by rewrite I6).
  assert (StronglySorted (before (color_tip g h parents)) (ordering (color_tip g h parents))) as Hsort.
  { eapply sorted_ext; [|exact I7]. intros x Hx. assert (x ≠ h) by (intros ->; done).
    unfold rank. cbn. rewrite lookup_insert_ne by done. by rewrite Hts. }
  destruct (insert_ordered_sorted (color_tip g h parents) h Hsort) as [Hs Hp].
  split; try done.
  - cbn. set_solver.
  - cbn. rewrite dom_insert_L, I4. done.
  - rewrite Hp. by constructor.
  - intros x. rewrite Hp. cbn. rewrite elem_of_cons, I6. set_solver.
  - cbn. by rewrite Hgh in *.
Qed.

Lemma StronglySorted_take {A} (R : A → A → Prop) n l : StronglySorted R l → StronglySorted R (take n l).
Proof.
  intros Hs. revert n. induction Hs as [|x l Hs IH Hx]; intros [|n]; cbn; try constructor.
  - apply IH.
  - by apply Forall_take.
Qed.

Lemma filter_notin_lookup (m : gmap Hash u64) (gone : gset Hash) h :
  h ∉ gone → filter (λ hs, hs.1 ∉ gone) m !! h = m !! h.
Proof.
  intros Hh. destruct (m !! h) as [x|] eqn:Hx.
  - by apply map_lookup_filter_Some.
  - apply map_lookup_filter_None. by left.
Qed.

Lemma dom_filter_notin (m : gmap Hash u64) (gone : gset Hash) :
  dom (filter (λ hs, hs.1 ∉ gone) m) = dom m ∖ gone.
Proof.
  apply set_eq. intros h. rewrite elem_of_difference, !elem_of_dom. split.
  - intros [x [Hx Hn]%map_lookup_filter_Some]. by split; [exists x|].
  - intros [[x Hx] Hn]. exists x. by rewrite filter_notin_lookup.
Qed.

Lemma engine_inv_prune db g n : engine_inv db g → engine_inv db (prune_below_checkpoint n g).
Proof.
  intros [I1 I2 I3 I4 I5 I6 I7 I8]. unfold prune_below_checkpoint.
  destruct (_ <=? _)%nat; [by split|]. set (m := (n + n)%nat).
  set (gone := list_to_set (drop m (ordering g)) : gset Hash).
  assert (∀ x, x ∈ gone ↔ x ∈ drop m (ordering g)) as Hgone by (intros; apply elem_of_list_to_set).
  assert (NoDup (take m (ordering g) ++ drop m (ordering g))) as Hnd by by rewrite take_drop.
  apply NoDup_app in Hnd as (Hnd1 & Hdisj & _).
  assert (∀ x, x ∈ take m (ordering g) ↔ x ∈ blue_set g ∖ gone) as Hin.
  { intros x. rewrite elem_of_difference, <- I6, Hgone.
    rewrite <- (take_drop m (ordering g)) at 2. rewrite elem_of_app. naive_solver. }
  destruct (foldl_delete_blocks (λ s h, evict s (hot_blocks_order s) h) (drop m (ordering g)) (dag_storage g))
    as [_ Hl]; [done|].
  split; cbn; try done.
  - by apply prune_blocks_by_hash_ok.
  - intros h b. cbn. rewrite Hl. destruct (decide _); [done|apply I2].
  - set_solver.
  - by rewrite dom_filter_notin, I4.
  - eapply sorted_ext; [|by apply StronglySorted_take]. intros x Hx%Hin.
    unfold rank. cbn. by rewrite !filter_notin_lookup by set_solver.
  - destruct (genesis_hash g); [done|]. set_solver.
Qed.

Lemma engine_inv_checkpoint db g :
  engine_inv db g →
  ∃ db' g', periodic_checkpoint (Some db, g) = (Some db', g') ∧ engine_inv db' g' ∧
    ∃ s', g' = set_storage s' g.
Proof.
  intros [I1 I2 I3 I4 I5 I6 I7 I8]. unfold periodic_checkpoint. cbn [fst snd].
  assert (∀ n, cache_ok (set_counter (dag_storage g) n)) as Hcnt by (intros; by destruct I1; split).
  destruct (_ =? 0)%nat; [exists db, g; split_and!; [done|by split|exists (dag_storage g); by destruct g]|].
  destruct (_ <? _)%nat.
  - eexists _, _. split_and!; [done| |by eexists (set_counter (dag_storage g) _)].
    split; cbn; try done. apply Hcnt.
  - eexists _, _. split_and!; [done| |by eexists (set_counter (dag_storage g) _)].
    assert (∀ db x y ge bl sc o, on_disk db x y → on_disk (save_checkpoint db ge bl sc o) x y) as Hsave.
    { intros d x y ge bl sc o (Hx & v & Hv & Hd). split; [done|]. exists v. split; [|done].
      unfold block_key in *. by rewrite save_checkpoint_versioned. }
    split; [apply Hcnt| |exact I3|exact I4|exact I5|exact I6|exact I7|].
    + intros x y Hxy. apply Hsave, I2. exact Hxy.
    + cbn [genesis_hash set_storage]. destruct (genesis_hash g); [|exact I8].
      destruct I8 as [gb Hgb]. exists gb. apply Hsave. exact Hgb.
Qed.

(** The consensus update keeps the invariant and makes the block blue. *)
Lemma add_block_update fuel b db g st' :
  (1 <= fuel)%nat → engine_inv db g → admissible g b →
  add_block fuel b (Some db, g) = (Ok tt, st') →
  ∃ db1 g2,
    engine_inv db1 g2 ∧
    blue_set g2 = {[block_hash b]} ∪ blue_set g ∧
    blue_score g2 = <[block_hash b := if bool_decide (parent_hashes (header b) = []) then 1
                                      else tip_score g (parent_hashes (header b))]> (blue_score g) ∧
    ordering g2 ≡ₚ block_hash b :: ordering g ∧
    ds_config (dag_storage g2) = ds_config (dag_storage g) ∧
    st' = periodic_checkpoint (Some db1,
            let n := confirmations_for_checkpoint (ds_config (dag_storage g2)) in
            if (0 <? n)%nat then prune_below_checkpoint n g2 else g2).
Proof.
  intros Hf Hinv Hadm Hadd.
  destruct (add_block_prepare fuel b db g st' Hinv Hadm Hadd) as
    (db1 & g1 & Hinv1 & Hgen1 & E1 & E2 & E3 & E4 & E5 & Hcfg & Hdisk & Hget & Hch & [o2 g2] & Hupd & ->).
  destruct Hadm as (Hwf & _ & Hnew & Hself & Hadm). set (h := block_hash b) in *. cbn [fst snd].
  destruct (genesis_hash g) as [gh|] eqn:Hg.
  - destruct Hadm as (Hne & p & Hp & Hpb).
    rewrite bool_decide_eq_false_2 in Hupd by (rewrite E1; set_solver).
    destruct (inv_genesis _ _ Hinv1) as [gb Hgb].
    assert (∃ gb', get_block (Some db1, g1) gh = Ok (Some gb')) as [gb' Hgb'].
    { unfold get_block, ds_get_block. cbn. destruct (hot_blocks (dag_storage g1) !! gh) as [c|]; [by eexists|].
      exists gb. by apply on_disk_get. }
    rewrite (incremental_tip fuel h (Some db1) g1 gh gb' b p) in Hupd;
      try done; [|by rewrite E1|by rewrite E1|rewrite E3, E1; apply (inv_scores _ _ Hinv)].
    injection Hupd as <- <-.
    exists db1, (insert_ordered (color_tip g1 h (parent_hashes (header b))) h). split_and!; [..|exact Hcfg|done].
    + eapply engine_inv_tip; [|by rewrite Hgen1|by rewrite E1|].
      * destruct Hinv1 as [J1 J2 J3 J4 J5 J6 J7 J8].
        split; [exact J1|exact J2|exact J3|exact J4|exact J5|exact J6|exact J7|].
        cbn. rewrite Hgen1. exact J8.
      * intros x Hx. rewrite E5. by apply lookup_insert_ne.
    + cbn. by rewrite E1.
    + cbn. rewrite bool_decide_eq_false_2 by (intros Hnil; rewrite Hnil in Hp; by apply elem_of_nil in Hp).
      rewrite E3. f_equal. unfold tip_score, parent_scores. by rewrite E1, E3.
    + cbn. rewrite vec_insert_perm. cbn. by rewrite E4.
  - pose proof (inv_genesis _ _ Hinv) as Hblue. rewrite Hg in Hblue.
    rewrite bool_decide_eq_true_2 in Hupd by by rewrite E1.
    rewrite (update_blue_set_genesis fuel (Some db1) g1 h b) in Hupd by done.
    injection Hupd as <- <-.
    exists db1, (set_ordering [h] (set_colors {[h]} ∅ {[h := 1]} g1)). split_and!; [..|exact Hcfg|done].
    + eapply engine_inv_genesis; [apply (inv_cache _ _ Hinv1)|apply (inv_persisted _ _ Hinv1)|done|done].
    + cbn. rewrite Hblue. set_solver.
    + cbn. rewrite Hadm, bool_decide_eq_true_2 by done.
      assert (blue_score g = ∅) as ->; [|done]. apply dom_empty_inv_L. by rewrite (inv_scores _ _ Hinv).
    + cbn. assert (ordering g = []) as ->; [|done]. destruct (ordering g) as [|x l] eqn:Ho; [done|].
      assert (x ∈ blue_set g) as Hx by (apply (inv_blue _ _ Hinv); rewrite Ho; by left). set_solver.
Qed.

(** C4: the consensus invariant is inductive.  Adding a block with a blue
    parent (or the first genesis block) to an engine over a database keeps
    the hot cache in step with the disk, the blue and red sets disjoint, a
    score for exactly the blue blocks, and the ordering a duplicate-free
    list of exactly the blue blocks, sorted by score and timestamp, both
    descending; pruning and the periodic checkpoint included. *)
Theorem add_block_invariant fuel b db g st' :
  (1 <= fuel)%nat → engine_inv db g → admissible g b →
  add_block fuel b (Some db, g) = (Ok tt, st') →
  ∃ db' g', st' = (Some db', g') ∧ engine_inv db' g'.
Proof.
  intros Hf Hinv Hadm Hadd.
  destruct (add_block_update fuel b db g st' Hf Hinv Hadm Hadd) as (db1 & g2 & Hinv2 & _ & _ & _ & _ & ->).
  cbn zeta. set (n := confirmations_for_checkpoint (ds_config (dag_storage g2))).
  destruct (0 <? n)%nat.
  - destruct (engine_inv_checkpoint db1 _ (engine_inv_prune db1 g2 n Hinv2)) as (db' & g' & -> & ? & _). eauto.
  - destruct (engine_inv_checkpoint db1 g2 Hinv2) as (db' & g' & -> & ? & _). eauto.
Qed.

(** C8: the blue score.  For an engine over a database whose tables are
    consistent ([engine_inv]), an admissible block (fresh, with a blue parent
    unless it is the first), and an ordering of fewer than twice the
    confirmations of a checkpoint, so that nothing is pruned: adding the block makes it blue
    with score 1 for a genesis block and one more than the greatest score
    among its blue parents otherwise, enters it into the ordering and
    changes the score and the colour of no other block. *)
Theorem add_block_score fuel b db g st' :
  (1 <= fuel)%nat → engine_inv db g → admissible g b →
  add_block fuel b (Some db, g) = (Ok tt, st') →
  (length (ordering g) < 2 * confirmations_for_checkpoint (ds_config (dag_storage g)))%nat →
  blue_set st'.2 = {[block_hash b]} ∪ blue_set g ∧
  ordering st'.2 ≡ₚ block_hash b :: ordering g ∧
  (∀ h, blue_score st'.2 !! h =
     if decide (h = block_hash b)
     then Some (if bool_decide (parent_hashes (header b) = []) then 1
                else add64 (max_score (parent_scores g (parent_hashes (header b)))) 1)
     else blue_score g !! h).
Proof.
  intros Hf Hinv Hadm Hadd Hlen.
  destruct (add_block_update fuel b db g st' Hf Hinv Hadm Hadd) as
    (db1 & g2 & Hinv2 & Hblue & Hscore & Hord & Hcfg & ->).
  assert (∃ s, (periodic_checkpoint (Some db1,
            let n := confirmations_for_checkpoint (ds_config (dag_storage g2)) in
            if (0 <? n)%nat then prune_below_checkpoint n g2 else g2)).2 = set_storage s g2) as [s Hs].
  { cbn zeta. rewrite Hcfg. set (n := confirmations_for_checkpoint (ds_config (dag_storage g))) in *.
    assert ((if (0 <? n)%nat then prune_below_checkpoint n g2 else g2) = g2) as ->.
    { destruct (0 <? n)%nat; [|done]. unfold prune_below_checkpoint.
      rewrite (proj2 (Nat.leb_le _ _)); [done|]. rewrite Hord. cbn. lia. }
    destruct (engine_inv_checkpoint db1 g2 Hinv2) as (db' & g' & -> & _ & s & ->). by exists s. }
  rewrite Hs. cbn. split_and!; try done. intros h. rewrite Hscore. unfold tip_score.
  destruct (decide (h = block_hash b)) as [->|]; [apply lookup_insert_eq|by apply lookup_insert_ne].
Qed.

(** An engine that has seen no block; [with_k] builds one with the default
    configuration. *)
Definition empty_engine (k : nat) (config : DagStorageConfig) : GhostDAG :=
  MkGhostDAG k (ds_new config) None ∅ ∅ ∅ ∅ [] false.
Lemma with_k_empty k g : with_k k = Ok g → g = empty_engine k dag_storage_config_default.
Proof. unfold with_k. destruct (_ && _); [|done]. by intros [= <-]. Qed.

(** The states an engine over a database goes through when it is started empty
    and given admissible blocks.  An engine that is restarted from its database
    or from a checkpoint, or has no database, is not one of them, nor is one that
    was given a block without a blue parent. *)
Inductive reachable (fuel : nat) : DagState → Prop :=
  | reach_new db k config : reachable fuel (Some db, empty_engine k config)
  | reach_add db g b st' :
      reachable fuel (Some db, g) → admissible g b →
      add_block fuel b (Some db, g) = (Ok tt, st') → reachable fuel st'.

Lemma engine_inv_new db k config : engine_inv db (empty_engine k config).
Proof.
  split; cbn; try done; try (apply cache_ok_new); try constructor.
  - by intros ?%elem_of_nil.
  - set_solver.
Qed.

Lemma reachable_inv fuel st :
  (1 <= fuel)%nat → reachable fuel st → ∃ db g, st = (Some db, g) ∧ engine_inv db g.
Proof.
  intros Hf. induction 1 as [db k config|db g b st' Hr (db0 & g0 & [= -> ->] & Hinv) Hadm Hadd].
  - eexists _, _. split; [done|]. apply engine_inv_new.
  - destruct (add_block_update fuel b _ _ st' Hf Hinv Hadm Hadd) as (db1 & g2 & Hinv2 & _ & _ & _ & _ & ->).
    cbn zeta. set (n := confirmations_for_checkpoint (ds_config (dag_storage g2))).
    destruct (0 <? n)%nat.
    + destruct (engine_inv_checkpoint db1 _ (engine_inv_prune db1 g2 n Hinv2)) as (? & ? & -> & ? & _). eauto.
    + destruct (engine_inv_checkpoint db1 g2 Hinv2) as (? & ? & -> & ? & _). eauto.
Qed.

(** C5: finality.  An engine over a database that was started empty and has since
    added admissible blocks: its finalized block, when there is
    one, is a blue block with [finality_depth] distinct blue blocks before
    it in the ordering, none of which has a lower score. *)
Theorem finalized_block_confirmed fuel db g h :
  (1 <= fuel)%nat → reachable fuel (Some db, g) → get_finalized_block_hash g = Some h →
  h ∈ blue_set g ∧
  ∃ confirming, length confirming = finality_depth g ∧ NoDup (h :: confirming) ∧
    ∀ c, c ∈ confirming → c ∈ blue_set g ∧
      default 0 (blue_score g !! h) <= default 0 (blue_score g !! c).
Proof.
  intros Hf Hr Hfin. destruct (reachable_inv fuel _ Hf Hr) as (db0 & g0 & [= -> ->] & Hinv).
  unfold get_finalized_block_hash in Hfin.
  destruct (Nat.leb_spec (length (ordering g0)) (finality_depth g0)); [done|].
  set (d := finality_depth g0) in *.
  pose proof (list_elem_of_lookup_2 _ _ _ Hfin) as Hin.
  split; [by apply (inv_blue _ _ Hinv)|].
  exists (take d (ordering g0)). split_and!.
  - rewrite length_take. lia.
  - pose proof (inv_nodup _ _ Hinv) as Hnd. rewrite <- (take_drop_middle _ _ _ Hfin) in Hnd.
    apply NoDup_app in Hnd as (Hnd & Hdisj & _). constructor; [|done].
    intros Hc. apply (Hdisj h Hc). by left.
  - intros c Hc. destruct (StronglySorted_split _ _ _ _ (inv_sorted _ _ Hinv) Hfin) as [Ht _].
    rewrite Forall_forall in Ht. pose proof (Ht c Hc) as Hb. split.
    + apply (inv_blue _ _ Hinv). apply elem_of_take in Hc as (i & Hi & _).
      by apply list_elem_of_lookup_2 in Hi.
    + unfold before, rank in Hb. cbn in Hb. lia.
Qed.
End Engine.

(** ** The full traversal *)

Section Traversal.
Context `{Hex, Codec Block, Codec (list Hash), HashIter, SliceSearch}.

Definition same_store (st st' : DagState) : Prop :=
  st'.1 = st.1 ∧ dag_storage st'.2 = dag_storage st.2.

Lemma color_child_store c st r st' : color_child c st = (r, st') → same_store st st'.
Proof.
  unfold color_child, mbind, SE_bind, se_read.
  destruct (get_block st c) as [[b|]|e]; intros [= <- <-]; try done.
  split; [done|]. cbn. by case_match.
Qed.

(** The loop over the children visits new hashes only, each once. *)
Lemma bfs_children_spec children st visited pushed r st' visited' pushed' :
  se_for children bfs_child (st, (visited, pushed)) = (r, (st', (visited', pushed'))) →
  same_store st st' ∧
  ∃ fresh, pushed' = pushed ++ fresh ∧ visited' = list_to_set fresh ∪ visited ∧ NoDup fresh ∧
    ∀ h, h ∈ fresh → h ∉ visited ∧ h ∈ children.
Proof.
  revert st visited pushed. induction children as [|c children IH]; intros st visited pushed Hrun.
  { cbn in Hrun. injection Hrun as <- <- <- <-. split; [done|].
    exists []. rewrite app_nil_r. split_and!; [done|set_solver|constructor|]. by intros h ?%elem_of_nil. }
  cbn [se_for] in Hrun. unfold mbind, SE_bind, bfs_child at 1 in Hrun.
  destruct (bool_decide (c ∈ visited)) eqn:Hc; bool_to_prop.
  { apply IH in Hrun as (Hst & fresh & ? & ? & ? & Hfresh). split; [done|]. exists fresh.
    split_and!; try done. intros h Hh. destruct (Hfresh h Hh). split; [done|by right]. }
  unfold zoom in Hrun. cbn [fst] in Hrun. destruct (color_child c st) as [[[]|e] st1] eqn:Hcol.
  - apply color_child_store in Hcol as [Hd Hs].
    apply IH in Hrun as ([Hd' Hs'] & fresh & -> & -> & Hnd & Hfresh).
    split; [split; congruence|]. exists (c :: fresh). rewrite <- app_assoc. split_and!; [done| | |].
    + cbn. set_solver.
    + constructor; [|done]. intros Hin. apply Hfresh in Hin as [Hin _]. set_solver.
    + intros h [->|Hin]%elem_of_cons; [split; [done|by left]|].
      apply Hfresh in Hin as [Hn Hin]. split; [set_solver|by right].
  - injection Hrun as <- <- <- <-. apply color_child_store in Hcol. split; [done|].
    exists [c]. split_and!; [done|cbn; set_solver|apply NoDup_singleton|].
    intros h ->%list_elem_of_singleton. split; [done|by left].
Qed.

(** A set of hashes closed under the child lists of a state. *)
Definition closed_under_children (st : DagState) (U : gset Hash) : Prop :=
  ∀ h cs, h ∈ U → get_children st h = Ok cs → ∀ c, c ∈ cs → c ∈ U.

Lemma closed_same_store st st' U :
  same_store st st' → closed_under_children st U → closed_under_children st' U.
Proof.
  intros [Hd Hs] Hcl h cs Hh Hcs. apply (Hcl h cs Hh). unfold get_children in *. by rewrite Hd, Hs in Hcs.
Qed.

Lemma get_children_error st h e : get_children st h = Err e → e = de_error.
Proof.
  unfold get_children, ds_get_children, Storage.get_children, get_hashes, decode_or, ok_or. cbn.
  intros Hc. repeat (case_match; cbn in *); by simplify_eq.
Qed.
Lemma get_block_error st h e : get_block st h = Err e → e = de_error.
Proof.
  unfold get_block, ds_get_block, bs_get, decode_or, ok_or. cbn.
  intros Hc. repeat (case_match; cbn in *); by simplify_eq.
Qed.

Definition only_decode_error {A} (r : result BlockchainError A) : Prop :=
  match r with Ok _ => True | Err e => e = de_error end.

Lemma bfs_children_error children s r s' :
  se_for children bfs_child s = (r, s') → only_decode_error r.
Proof.
  revert s. induction children as [|c children IH]; intros s Hrun; [by injection Hrun as <- <-|].
  cbn [se_for] in Hrun. unfold mbind, SE_bind in Hrun.
  destruct (bfs_child c s) as [[[]|e] s1] eqn:Hc; [by eapply IH|]. injection Hrun as <- <-.
  destruct s as [st [visited pushed]]. unfold bfs_child in Hc. destruct (bool_decide _); [done|].
  unfold zoom in Hc. cbn in Hc. destruct (color_child c st) as [r1 st1] eqn:Hcol. injection Hc as -> <-.
  unfold color_child, mbind, SE_bind, se_read in Hcol.
  destruct (get_block st c) as [[b|]|e'] eqn:Hb; simplify_eq. by apply get_block_error in Hb.
Qed.

Lemma bfs_terminates U fuel queue st visited :
  closed_under_children st U → (∀ h, h ∈ queue → h ∈ U) → visited ⊆ U →
  (length queue + size (U ∖ visited) <= fuel)%nat →
  only_decode_error (se_queue OutOfFuel fuel bfs_body queue (st, visited)).1.
Proof.
  revert queue st visited. induction fuel as [|fuel IH]; intros queue st visited Hcl Hq Hv Hf;
    destruct queue as [|h queue]; cbn [length] in Hf; try done; [lia|].
  cbn [se_queue]. unfold mbind, SE_bind, bfs_body at 1. cbn [fst snd].
  destruct (get_children st h) as [cs|e] eqn:Hc; [|by apply get_children_error in Hc].
  destruct (se_for cs bfs_child (st, (visited, []))) as [r [st1 [v1 p1]]] eqn:Hfor.
  pose proof (bfs_children_error _ _ _ _ Hfor) as Herr.
  apply bfs_children_spec in Hfor as (Hst & fresh & -> & -> & Hnd & Hfresh). cbn [app].
  destruct r as [[]|e]; [|done].
  assert (∀ x, x ∈ fresh → x ∈ U) as Hfu.
  { intros x [_ Hx]%Hfresh. eapply Hcl; [apply Hq; by left|done|done]. }
  apply IH.
  - by eapply closed_same_store.
  - intros x [Hx|Hx]%elem_of_app; [apply Hq; by right|by apply Hfu].
  - intros x. rewrite elem_of_union, elem_of_list_to_set. intros [?|?]; auto.
  - rewrite length_app.
    assert (size (U ∖ visited) = length fresh + size (U ∖ (list_to_set fresh ∪ visited)))%nat as Hsz.
    { rewrite <- (size_list_to_set (C := gset Hash) fresh) by done. rewrite <- size_union by set_solver.
      f_equal. apply set_eq. intros x.
      rewrite elem_of_difference, elem_of_union, elem_of_difference, elem_of_union, elem_of_list_to_set.
      destruct (decide (x ∈ fresh)) as [Hx|Hx]; [|tauto].
      split; [tauto|]. intros _. split; [by apply Hfu|by apply Hfresh in Hx as [? _]]. }
    lia.
Qed.

(** C9: the full recomputation terminates.  If the hashes reachable from the
    genesis block through child lists lie in a finite set closed under
    children, a fuel of its size is enough: the traversal completes, and
    the only way [update_blue_set] can fail is a stored block or child list
    that does not decode. *)
Theorem update_blue_set_terminates U fuel st gh :
  genesis_hash st.2 = Some gh → gh ∈ U → closed_under_children st U → (size U <= fuel)%nat →
  only_decode_error (update_blue_set fuel st).1.
Proof.
  intros Hg Hgh Hcl Hf. destruct st as [db g]. cbn in Hg.
  unfold update_blue_set, mbind, SE_bind, se_get, se_read, upd, se_mod. cbn [snd fst]. rewrite Hg.
  destruct (get_block (db, g) gh) as [[gb|]|e] eqn:Hb; [|done|by apply get_block_error in Hb].
  destruct (negb _); [done|]. set (g1 := set_colors {[gh]} ∅ {[gh := 1]} g).
  assert (only_decode_error (se_queue OutOfFuel fuel bfs_body [gh] (db, g1, {[gh]})).1) as Hbfs.
  { apply (bfs_terminates U); [by eapply closed_same_store | | set_solver |].
    - by intros h ->%list_elem_of_singleton.
    - rewrite size_difference by set_solver. rewrite size_singleton. cbn [length].
      assert (1 <= size U)%nat; [|lia]. rewrite <- (size_singleton (C := gset Hash) gh).
      apply subseteq_size. set_solver. }
  unfold with_local. cbn [fst snd]. fold g1.
  match goal with |- context [se_queue ?e ?f ?b ?q ?s] =>
    change (only_decode_error (se_queue e f b q s).1) in Hbfs;
    destruct (se_queue e f b q s) as [[[]|?] [st' v']] end; done.
Qed.

(** Without its genesis block the engine stalls.  When the genesis block can
    no longer be read (an engine without a database drops it once the
    ordering is pruned), the incremental update of a new block does nothing: the
    block is neither blue nor red and never enters the ordering. *)
Theorem incremental_stalls_without_genesis fuel st gh new :
  genesis_hash st.2 = Some gh → get_block st gh = Ok None →
  update_blue_set_incremental fuel new st = (Ok tt, st).
Proof.
  intros Hg Hb. unfold update_blue_set_incremental, mbind, SE_bind, se_get, se_read.
  by rewrite Hg, Hb.
Qed.
End Traversal.

(** ** Concrete runs *)

Module GhostDagReference.
#[local] Existing Instance Reference.hex.
#[local] Existing Instance canonical_iter.
#[local] Existing Instance canonical_search.

Definition hash_of (n : Z) : Hash := MkHash (replicate 32 n).
Definition block_of (n : Z) (parents : list Hash) (ts : u64) : Block :=
  MkBlock (MkHeader parents n StreamA 1 ts 0 0 1 None None) [] (hash_of n) None.

Definition fresh : GhostDAG := empty_engine 4 dag_storage_config_default.
Definition genesis : Block := block_of 1 [] 100.
(** Two children of genesis, the second with the later timestamp. *)
Definition early : Block := block_of 2 [hash_of 1] 110.
Definition late : Block := block_of 3 [hash_of 1] 120.

#[local] Instance block_codec : Codec Block := table_codec [genesis; early; late].
#[local] Instance hashes_codec : Codec (list Hash) :=
  table_codec [[]; [hash_of 1]; [hash_of 2]; [hash_of 3]; [hash_of 2; hash_of 3]].

Definition after (bs : list Block) : DagState :=
  snd (se_for bs (add_block 5) (None, fresh)).
Definition siblings : DagState := after [genesis; early; late].

(** The incremental order is not the order of the full recomputation.  The
    binary search places blocks of equal score by descending timestamp, the
    sort of [update_blue_set] by ascending timestamp: on a genesis block
    with two children, rebuilding from scratch swaps them. *)
Theorem rebuild_reorders_siblings :
  ordering siblings.2 = [hash_of 3; hash_of 2; hash_of 1] ∧
  ordering (snd (rebuild_from_scratch 5 siblings)).2 = [hash_of 2; hash_of 3; hash_of 1] ∧
  fst (rebuild_from_scratch 5 siblings) = Ok tt.
Proof. vm_compute. split_and!; reflexivity. Qed.

Lemma update_blue_set_terminates_witness :
  only_decode_error (update_blue_set 3 siblings).1.
Proof.
  apply (update_blue_set_terminates {[hash_of 1; hash_of 2; hash_of 3]} 3 siblings (hash_of 1));
    [vm_compute; reflexivity | rewrite !elem_of_union, !elem_of_singleton; by left; left | | vm_compute; lia].
  intros h cs Hh Hcs c Hc. rewrite !elem_of_union, !elem_of_singleton in Hh |- *.
  assert (Hin : List.In h [hash_of 1; hash_of 2; hash_of 3])
    by (destruct Hh as [[->| ->]| ->]; [left|right; left|right; right; left]; reflexivity).
  assert (Hkids : forallb (λ h, match get_children siblings h with
                                | Ok cs => forallb (λ c, bool_decide (c = hash_of 2 ∨ c = hash_of 3)) cs
                                | Err _ => true
                                end) [hash_of 1; hash_of 2; hash_of 3] = true)
    by (vm_compute; reflexivity).
  rewrite forallb_forall in Hkids. specialize (Hkids h Hin).
  rewrite Hcs, forallb_forall in Hkids. specialize (Hkids c ltac:(by apply list_elem_of_In)).
  apply bool_decide_eq_true_1 in Hkids. tauto.
Defined.

Lemma admissible_genesis : admissible fresh genesis.
Proof.
  split_and!; [reflexivity | constructor | apply not_elem_of_empty | apply not_elem_of_nil | reflexivity].
Qed.

Lemma add_block_invariant_witness :
  ∃ st', add_block 5 genesis (Some ∅, fresh) = (Ok tt, st') ∧
  ∃ db' g', st' = (Some db', g') ∧ engine_inv db' g'.
Proof.
  assert (Hrun : (add_block 5 genesis (Some ∅, fresh)).1 = Ok tt) by (vm_compute; reflexivity).
  destruct (add_block 5 genesis (Some ∅, fresh)) as [r st'] eqn:Hadd. cbn in Hrun. subst r.
  exists st'. split; [reflexivity|].
  exact (add_block_invariant 5 genesis ∅ fresh st' ltac:(lia) (engine_inv_new ∅ 4 _)
           admissible_genesis Hadd).
Defined.

Lemma add_block_score_witness :
  ∃ st', add_block 5 genesis (Some ∅, fresh) = (Ok tt, st') ∧ blue_set st'.2 = {[hash_of 1]} ∪ ∅.
Proof.
  assert (Hrun : (add_block 5 genesis (Some ∅, fresh)).1 = Ok tt) by (vm_compute; reflexivity).
  destruct (add_block 5 genesis (Some ∅, fresh)) as [r st'] eqn:Hadd. cbn in Hrun. subst r.
  exists st'. split; [reflexivity|].
  exact (proj1 (add_block_score 5 genesis ∅ fresh st' ltac:(lia) (engine_inv_new ∅ 4 _)
           admissible_genesis Hadd ltac:(cbn; lia))).
Defined.

(** An engine that asks for one confirmation only. *)
Definition shallow : GhostDAG := empty_engine 4 (MkDagConfig 10 5 1).
Definition step1 : DagState := snd (add_block 5 genesis (Some ∅, shallow)).
Definition disk1 : Sled := default ∅ (fst step1).
Definition step2 : DagState := snd (add_block 5 early (Some disk1, snd step1)).
Definition disk2 : Sled := default ∅ (fst step2).

Lemma finalized_block_confirmed_witness :
  get_finalized_block_hash (snd step2) = Some (hash_of 1) ∧ hash_of 1 ∈ blue_set (snd step2).
Proof.
  assert (H1 : add_block 5 genesis (Some ∅, shallow) = (Ok tt, (Some disk1, snd step1)))
    by (vm_compute; reflexivity).
  assert (H2 : add_block 5 early (Some disk1, snd step1) = (Ok tt, (Some disk2, snd step2)))
    by (vm_compute; reflexivity).
  assert (R1 : reachable 5 (Some disk1, snd step1)).
  { eapply reach_add; [apply (reach_new 5 ∅ 4 (MkDagConfig 10 5 1)) | | exact H1].
    split_and!; [reflexivity | constructor | apply not_elem_of_empty | apply not_elem_of_nil | reflexivity]. }
  assert (A2 : admissible (snd step1) early).
  { split_and!; [reflexivity | by repeat constructor | | by intros ?%list_elem_of_singleton |].
    - apply (bool_decide_eq_false_1 (hash_of 2 ∈ blue_set step1.2)). vm_compute. reflexivity.
    - assert (Hg : genesis_hash step1.2 = Some (hash_of 1)) by (vm_compute; reflexivity). rewrite Hg.
      split; [discriminate|]. exists (hash_of 1). split; [by left|].
      apply (bool_decide_eq_true_1 (hash_of 1 ∈ blue_set step1.2)). vm_compute. reflexivity. }
  assert (R2 : reachable 5 (Some disk2, snd step2)) by exact (reach_add 5 disk1 (snd step1) early (Some disk2, snd step2) R1 A2 H2).
  assert (Hfin : get_finalized_block_hash (snd step2) = Some (hash_of 1)) by (vm_compute; reflexivity).
  split; [exact Hfin|].
  exact (proj1 (finalized_block_confirmed 5 disk2 (snd step2) (hash_of 1) ltac:(lia) R2 Hfin)).
Defined.

Lemma incremental_stalls_without_genesis_witness :
  update_blue_set_incremental 5 (hash_of 2) (None, set_genesis (Some (hash_of 1)) fresh)
  = (Ok tt, (None, set_genesis (Some (hash_of 1)) fresh)).
Proof. apply (incremental_stalls_without_genesis 5 _ (hash_of 1)); vm_compute; reflexivity. Defined.
End GhostDagReference.
