(* ===== verification/Sponsorship.v ===== *)
(** * Sponsorship: programmable gas sponsorship

    Models [irondag-blockchain/src/gas_sponsorship.rs]: the policy a sponsor
    publishes, the test a sponsored transaction has to pass, the spending
    window and the registry shared by the chain and the RPC server. *)

From S2P Require Import Prelude Types.

Definition BLOCKS_PER_DAY : u64 := 17280.

Record SponsorPolicy := MkPolicy {
  active : bool;
  allowed_senders : option (list Address);
  max_fee_per_tx : option u128;
  expires_at_block : option u64;
  daily_spend_limit : option u128;
  window_start_block : u64;
  spent_in_window : u128 }.

Definition is_expired (p : SponsorPolicy) (current_block : u64) : bool :=
  match expires_at_block p with Some exp => exp <? current_block | None => false end.

Definition allows_sender (p : SponsorPolicy) (sender : Address) : bool :=
  match allowed_senders p with None => true | Some l => contains sender l end.

Definition in_window (p : SponsorPolicy) (current_block : u64) : bool :=
  sat_sub current_block (window_start_block p) <? BLOCKS_PER_DAY.

Definition within_daily_limit (p : SponsorPolicy) (fee : u128) (current_block : u64) : bool :=
  match daily_spend_limit p with
  | None => true
  | Some limit =>
      let spent := if in_window p current_block then spent_in_window p else 0 in
      sat_add128 spent fee <=? limit
  end.

Definition policy_record_spend (p : SponsorPolicy) (fee : u128) (current_block : u64) : SponsorPolicy :=
  if BLOCKS_PER_DAY <=? sat_sub current_block (window_start_block p)
  then MkPolicy (active p) (allowed_senders p) (max_fee_per_tx p) (expires_at_block p)
         (daily_spend_limit p) current_block fee
  else MkPolicy (active p) (allowed_senders p) (max_fee_per_tx p) (expires_at_block p)
         (daily_spend_limit p) (window_start_block p) (sat_add128 (spent_in_window p) fee).

(** ** Registry *)

Definition SponsorRegistry : Type := gmap Address SponsorPolicy.

Definition register (r : SponsorRegistry) (sponsor : Address) (p : SponsorPolicy) : SponsorRegistry :=
  <[sponsor := p]> r.
Definition deregister (r : SponsorRegistry) (sponsor : Address) : SponsorRegistry * bool :=
  (delete sponsor r, bool_decide (is_Some (r !! sponsor))).

Definition check (r : SponsorRegistry) (sponsor sender : Address) (fee : u128) (current_block : u64) :
    result string unit :=
  policy ← ok_or "Sponsor has no registered policy" (r !! sponsor);
  _ ← ensure (active policy) "Sponsor policy is paused";
  _ ← ensure (negb (is_expired policy current_block)) "Sponsor policy expired";
  _ ← ensure (allows_sender policy sender) "Sender address is not in the sponsor's allowlist";
  _ ← ensure (match max_fee_per_tx policy with Some max => fee <=? max | None => true end)
        "Fee exceeds sponsor max_fee_per_tx";
  ensure (within_daily_limit policy fee current_block) "Sponsor daily spend limit would be exceeded".

Definition record_spend (r : SponsorRegistry) (sponsor : Address) (fee : u128) (current_block : u64) :
    SponsorRegistry :=
  match r !! sponsor with
  | Some p => <[sponsor := policy_record_spend p fee current_block]> r
  | None => r
  end.

(** ** Spending under a policy *)

(** A sponsored transaction as the chain handles it: refused by [check], or
    recorded. *)
Record SpendRequest := MkSpend { sr_sender : Address; sr_fee : u128; sr_block : u64 }.

Definition sponsor_tx (sponsor : Address) (r : SponsorRegistry) (q : SpendRequest) :
    SponsorRegistry * bool :=
  match check r sponsor (sr_sender q) (sr_fee q) (sr_block q) with
  | Ok _ => (record_spend r sponsor (sr_fee q) (sr_block q), true)
  | Err _ => (r, false)
  end.

(** The fees covered, grouped by the window that was open when they were
    recorded, the last group being the window still open. *)
Fixpoint covered (sponsor : Address) (r : SponsorRegistry) (open : list u128) (qs : list SpendRequest) :
    list (list u128) :=
  match qs with
  | [] => [open]
  | q :: qs' =>
      match r !! sponsor, sponsor_tx sponsor r q with
      | Some p, (r', true) =>
          if in_window p (sr_block q) then covered sponsor r' (open ++ [sr_fee q]) qs'
          else open :: covered sponsor r' [sr_fee q] qs'
      | _, (r', _) => covered sponsor r' open qs'
      end
  end.

Definition sum_fees (l : list u128) : Z := foldr Z.add 0 l.

Lemma sum_fees_app l k : sum_fees (l ++ k) = sum_fees l + sum_fees k.
Proof. unfold sum_fees. induction l; cbn; lia. Qed.

(** What an approval says about the registered policy. *)
Lemma check_Ok r sponsor sender fee block u :
  check r sponsor sender fee block = Ok u ↔
  ∃ p, r !! sponsor = Some p ∧ active p = true ∧
    (∀ exp, expires_at_block p = Some exp → block <= exp) ∧
    allows_sender p sender = true ∧
    (∀ max, max_fee_per_tx p = Some max → fee <= max) ∧
    within_daily_limit p fee block = true.
Proof.
  unfold check, ok_or. destruct (r !! sponsor) as [p|]; [|split; [done|naive_solver]].
  cbn [mbind result_bind]. unfold is_expired. split.
  - intros H. case_ok. bool_to_prop. exists p. split_and!; try done.
    + intros exp He. rewrite He in *. by bool_to_prop.
    + intros max Hm. rewrite Hm in *. by bool_to_prop.
  - intros (p' & [= <-] & Ha & He & Hs & Hm & Hd). rewrite Ha, Hs, Hd. cbn.
    destruct (expires_at_block p) as [exp|], (max_fee_per_tx p) as [max|], u; cbn;
      rewrite ?(proj2 (Z.ltb_ge _ _)) by (by apply He); cbn;
      rewrite ?(proj2 (Z.leb_le _ _)) by (by apply Hm); done.
Qed.

Lemma record_spend_limit p fee block :
  daily_spend_limit (policy_record_spend p fee block) = daily_spend_limit p.
Proof. unfold policy_record_spend. by destruct (_ <=? _). Qed.

Lemma sat_add_le a b limit :
  limit <= u128_max → 0 <= a → 0 <= b → sat_add128 a b <= limit → a + b <= limit ∨ limit = u128_max.
Proof. mlia. Qed.

Lemma covered_limit sponsor limit qs : limit < u128_max →
  Forall (λ q, 0 <= sr_fee q) qs →
  ∀ r p open, r !! sponsor = Some p → daily_spend_limit p = Some limit →
  sum_fees open = spent_in_window p → 0 <= spent_in_window p <= limit →
  Forall (λ w, sum_fees w <= limit) (covered sponsor r open qs).
Proof.
  intros Hlim. induction 1 as [|q qs Hq _ IH]; intros r p open Hp Hd Hsum Hle; cbn.
  { constructor; [lia|constructor]. }
  rewrite Hp. unfold sponsor_tx.
  destruct (check r sponsor (sr_sender q) (sr_fee q) (sr_block q)) as [u|e] eqn:Hc; [|by eapply IH].
  apply check_Ok in Hc as (p' & Hp' & _ & _ & _ & _ & Hw). replace p' with p in Hw by congruence.
  clear p' Hp'. unfold within_daily_limit in Hw. rewrite Hd in Hw. bool_to_prop.
  unfold record_spend. rewrite Hp.
  destruct (in_window p (sr_block q)) eqn:Hin.
  - eapply IH; [apply lookup_insert_eq|by rewrite record_spend_limit| |];
      unfold policy_record_spend, in_window in *; bool_to_prop;
      rewrite (proj2 (Z.leb_gt _ _)) by done; cbn; rewrite ?sum_fees_app, ?Hsum; cbn; mlia.
  - constructor; [lia|].
    eapply IH; [apply lookup_insert_eq|by rewrite record_spend_limit| |];
      unfold policy_record_spend, in_window in *; bool_to_prop;
      rewrite (proj2 (Z.leb_le _ _)) by done; cbn; mlia.
Qed.

(** A sponsor never covers more than its daily limit within one spending
    window: whatever requests arrive, in whatever block order, the fees of
    the approved ones add up to at most the limit in every window. *)
Theorem sponsor_window_limit sponsor r p limit qs :
  limit < u128_max → r !! sponsor = Some p → daily_spend_limit p = Some limit →
  spent_in_window p = 0 → 0 <= limit → Forall (λ q, 0 <= sr_fee q) qs →
  Forall (λ w, sum_fees w <= limit) (covered sponsor r [] qs).
Proof. intros. eapply covered_limit; try done; cbn; lia. Qed.

(** An approved request satisfies the published policy: registered and
    active, not expired, the sender allowed, the fee within the ceiling per
    transaction; and recording a spend changes no other sponsor. *)
Theorem sponsor_policy_enforced sponsor r q r' :
  sponsor_tx sponsor r q = (r', true) →
  (∃ p, r !! sponsor = Some p ∧ active p = true ∧
    (∀ exp, expires_at_block p = Some exp → sr_block q <= exp) ∧
    allows_sender p (sr_sender q) = true ∧
    (∀ max, max_fee_per_tx p = Some max → sr_fee q <= max)) ∧
  ∀ other, other ≠ sponsor → r' !! other = r !! other.
Proof.
  unfold sponsor_tx. destruct (check _ _ _ _ _) as [u|] eqn:Hc; [|by intros [=]].
  intros Heq. apply (f_equal fst) in Heq. cbn in Heq. subst r'.
  apply check_Ok in Hc as (p & Hp & ? & ? & ? & ? & _). split; [by exists p|].
  intros other Hne. unfold record_spend. rewrite Hp. by apply lookup_insert_ne.
Qed.

(** ** Executable examples *)

Module SponsorshipReference.
Definition sponsor : Address := MkAddress (replicate 20 7).
Definition sender : Address := MkAddress (replicate 20 8).
Definition policy : SponsorPolicy := MkPolicy true (Some [sender]) (Some 60) (Some 50000) (Some 100) 0 0.
Definition reg : SponsorRegistry := {[sponsor := policy]}.
Definition requests : list SpendRequest :=
  [MkSpend sender 60 17279; MkSpend sender 60 17279; MkSpend sender 40 17279;
   MkSpend sender 60 17280; MkSpend sender 40 17280].

(** The window is not a rolling one: it starts anew with the first spend a
    day after the last start, so a sponsor with a daily limit of 100 covers
    200 within two consecutive blocks. *)
Theorem daily_window_not_rolling :
  covered sponsor reg [] requests = [[60; 40]; [60; 40]].
Proof. vm_compute. reflexivity. Qed.

Lemma reg_lookup : reg !! sponsor = Some policy.
Proof. apply lookup_singleton_eq. Qed.

Lemma sponsor_window_limit_witness :
  Forall (λ w, sum_fees w <= 100) (covered sponsor reg [] requests).
Proof.
  exact (sponsor_window_limit sponsor reg policy 100 requests eq_refl reg_lookup eq_refl eq_refl
    ltac:(lia) ltac:(repeat constructor; cbn; lia)).
Defined.

Lemma sponsor_policy_enforced_witness :
  ∃ p, reg !! sponsor = Some p ∧ allows_sender p sender = true.
Proof.
  assert (sponsor_tx sponsor reg (MkSpend sender 60 17279)
          = ((sponsor_tx sponsor reg (MkSpend sender 60 17279)).1, true)) as Hs
    by (vm_compute; reflexivity).
  destruct (proj1 (sponsor_policy_enforced sponsor reg (MkSpend sender 60 17279) _ Hs))
    as (p & Hp & _ & _ & Ha & _).
  exists p. split; [exact Hp|exact Ha].
Defined.
End SponsorshipReference.
