(* ===== verification/PrivacyPool.v ===== *)
(** * PrivacyPool: the built-in fixed-denomination pool

    Models [irondag-blockchain/src/privacy_pool.rs]: commitments registered by
    deposits, nullifiers spent by withdrawals.  The transfer of funds between
    the pool account and the recipient is the chain's ([Ledger]). *)

From S2P Require Import Prelude Types.

Definition PRIVACY_POOL_ADDRESS : Address := MkAddress (replicate 19 0 ++ [2]).

Record PoolDeposit := MkDeposit { commitment : Hash; dep_block_number : u64; leaf_index : nat }.

Record PrivacyPool := MkPool {
  deposits : list PoolDeposit;
  commitment_set : gset Hash;
  spent_nullifiers : gset Hash;
  denomination : u128;
  require_proof : bool }.

Inductive PoolError :=
  | DuplicateCommitment
  | NullifierAlreadySpent
  | ProofRequired
  | ProofVerificationFailed
  | InsufficientPoolBalance.

Definition pool_new (denom : u128) (proof : bool) : PrivacyPool := MkPool [] ∅ ∅ denom proof.

Definition available_balance (p : PrivacyPool) : u128 :=
  let unspent := (length (deposits p)
                  - Nat.min (size (spent_nullifiers p)) (length (deposits p)))%nat in
  (Z.of_nat unspent * denomination p) mod (u128_max + 1).

Definition is_nullifier_spent (p : PrivacyPool) (n : Hash) : bool :=
  bool_decide (n ∈ spent_nullifiers p).
Definition contains_commitment (p : PrivacyPool) (c : Hash) : bool :=
  bool_decide (c ∈ commitment_set p).

Definition commitment_root `{Keccak} (p : PrivacyPool) : Hash :=
  match deposits p with
  | [] => hash_zero
  | ds => keccak256 (concat ((λ d, hash_bytes (commitment d)) <$> ds))
  end.

Definition deposit (p : PrivacyPool) (c : Hash) (block_number : u64) :
    PrivacyPool * result PoolError nat :=
  if bool_decide (c ∈ commitment_set p) then (p, Err DuplicateCommitment) else
  let leaf := length (deposits p) in
  (MkPool (deposits p ++ [MkDeposit c block_number leaf]) ({[c]} ∪ commitment_set p)
     (spent_nullifiers p) (denomination p) (require_proof p),
   Ok leaf).

Definition withdraw (p : PrivacyPool) (nullifier : Hash) (proof : option (list u8)) :
    PrivacyPool * result PoolError u128 :=
  if bool_decide (nullifier ∈ spent_nullifiers p) then (p, Err NullifierAlreadySpent)
  else if require_proof p then
    match default [] proof with
    | [] => (p, Err ProofRequired)
    | _ => (p, Err ProofVerificationFailed)
    end
  else
    (MkPool (deposits p) (commitment_set p) ({[nullifier]} ∪ spent_nullifiers p)
       (denomination p) (require_proof p),
     Ok (denomination p)).

(** ** Well-formed pools *)

Record pool_ok (p : PrivacyPool) : Prop := {
  leaves_positioned : ∀ i d, deposits p !! i = Some d → leaf_index d = i;
  commitments_distinct : NoDup (commitment <$> deposits p);
  commitments_indexed : ∀ c, c ∈ commitment_set p ↔ c ∈ commitment <$> deposits p }.

Lemma pool_new_ok d b : pool_ok (pool_new d b).
Proof. split; cbn; [done|constructor|]. intros c. rewrite elem_of_nil. set_solver. Qed.

Lemma deposit_ok p c n : pool_ok p → pool_ok (deposit p c n).1.
Proof.
  intros [Hl Hd Hi]. unfold deposit. case_bool_decide as Hc; [done|]. cbn. split; cbn.
  - intros i d [H|[Hge H]]%lookup_app_Some; [by apply Hl|].
    apply list_lookup_singleton_Some in H as [Hz <-]. cbn. lia.
  - rewrite fmap_app. apply NoDup_app. split_and!; [done| |apply NoDup_singleton].
    intros x Hx. cbn. rewrite list_elem_of_singleton. intros ->. by apply Hc, Hi.
  - intros x. rewrite fmap_app, elem_of_app, elem_of_union, elem_of_singleton, <- Hi. cbn.
    rewrite list_elem_of_singleton. tauto.
Qed.

Lemma withdraw_ok p n pr : pool_ok p → pool_ok (withdraw p n pr).1.
Proof. intros [Hl Hd Hi]. unfold withdraw. repeat case_match; by split. Qed.

(** ** Runs of the pool *)

Inductive PoolOp :=
  | OpDeposit (c : Hash) (block : u64)
  | OpWithdraw (n : Hash) (proof : option (list u8)).

(** One operation; the second component is the nullifier it paid out, if
    any. *)
Definition pool_step (p : PrivacyPool) (op : PoolOp) : PrivacyPool * option Hash :=
  match op with
  | OpDeposit c b => ((deposit p c b).1, None)
  | OpWithdraw n pr => match withdraw p n pr with
                       | (p', Ok _) => (p', Some n)
                       | (p', Err _) => (p', None)
                       end
  end.

Fixpoint pool_run (p : PrivacyPool) (ops : list PoolOp) : PrivacyPool * list Hash :=
  match ops with
  | [] => (p, [])
  | op :: ops' =>
      let '(p1, o) := pool_step p op in
      let '(p2, paid) := pool_run p1 ops' in
      (p2, match o with Some n => n :: paid | None => paid end)
  end.

Lemma withdraw_Ok p n pr p' amount :
  withdraw p n pr = (p', Ok amount) ↔
  n ∉ spent_nullifiers p ∧ require_proof p = false ∧ amount = denomination p ∧
  p' = MkPool (deposits p) (commitment_set p) ({[n]} ∪ spent_nullifiers p)
         (denomination p) (require_proof p).
Proof.
  unfold withdraw. repeat case_match; bool_to_prop; split; try done; naive_solver.
Qed.

Lemma withdraw_Err p n pr p' e : withdraw p n pr = (p', Err e) → p' = p.
Proof. unfold withdraw. repeat case_match; by intros [= <- _]. Qed.

(** No double withdrawal: along any sequence of deposits and withdrawals a
    nullifier is paid out at most once and never if it was spent before, the
    spent set grows by exactly the paid nullifiers, and the commitments stay
    distinct and in step with their leaf indices. *)
Theorem nullifier_paid_once ops p p' paid :
  pool_ok p → pool_run p ops = (p', paid) →
  pool_ok p' ∧ NoDup paid ∧ (∀ n, n ∈ paid → n ∉ spent_nullifiers p) ∧
  spent_nullifiers p' = list_to_set paid ∪ spent_nullifiers p.
Proof.
  revert p paid. induction ops as [|op ops IH]; intros p paid Hok Hrun; cbn in Hrun.
  { injection Hrun as <- <-. split_and!; [done|constructor| |set_solver].
    intros n Hn. by apply elem_of_nil in Hn. }
  destruct (pool_step p op) as [p1 o] eqn:Hstep. destruct (pool_run p1 ops) as [p2 paid2] eqn:Hr.
  injection Hrun as <- <-. destruct op as [c b|n pr]; cbn in Hstep.
  - injection Hstep as <- <-.
    assert (spent_nullifiers (deposit p c b).1 = spent_nullifiers p) as Hs
      by (unfold deposit; by case_match).
    destruct (IH _ _ (deposit_ok p c b Hok) Hr) as (? & ? & ? & ?). rewrite Hs in *. done.
  - pose proof (withdraw_ok p n pr Hok) as Hok1.
    destruct (withdraw p n pr) as [p1' [amount|e]] eqn:Hw; injection Hstep as <- <-;
      destruct (IH _ _ Hok1 Hr) as (? & Hnd & Hfresh & Hsp).
    + apply withdraw_Ok in Hw as (Hn & _ & _ & ->). cbn in *. split_and!; [done| | |set_solver].
      * constructor; [|done]. intros Hin. specialize (Hfresh n Hin). set_solver.
      * intros m [->|Hm]%elem_of_cons; [done|]. specialize (Hfresh m Hm). set_solver.
    + apply withdraw_Err in Hw as ->. done.
Qed.

Lemma pool_run_stub p ns :
  require_proof p = false → NoDup ns → (∀ n, n ∈ ns → n ∉ spent_nullifiers p) →
  (pool_run p ((λ n, OpWithdraw n None) <$> ns)).2 = ns.
Proof.
  intros Hreq Hnd. revert p Hreq. induction Hnd as [|n ns Hn Hnd IH]; intros p Hreq Hfresh; cbn; [done|].
  unfold withdraw. rewrite bool_decide_eq_false_2 by (apply Hfresh; by left). rewrite Hreq.
  set (p1 := MkPool _ _ _ _ _). specialize (IH p1 eq_refl).
  destruct (pool_run p1 _) as [p2 paid] eqn:Hr. cbn in *. f_equal. apply IH.
  intros m Hm. cbn. rewrite not_elem_of_union, not_elem_of_singleton. split; [by intros ->|].
  apply Hfresh. by right.
Qed.

(** Withdrawals are not backed by deposits: without proofs (the mode the
    chain is built with) any number of distinct fresh nullifiers is paid out,
    from a pool in which nothing was ever deposited. *)
Theorem withdrawals_need_no_deposit denom ns :
  NoDup ns → (pool_run (pool_new denom false) ((λ n, OpWithdraw n None) <$> ns)).2 = ns.
Proof. intros Hnd. apply pool_run_stub; [done|done|]. cbn. set_solver. Qed.

(** With proofs required no withdrawal succeeds. *)
Lemma withdraw_proof_mode p n pr : require_proof p = true → is_ok (withdraw p n pr).2 = false.
Proof. intros Hr. unfold withdraw. rewrite Hr. by repeat case_match. Qed.

(** ** Executable examples *)

Module PrivacyPoolReference.
Definition nul (k : Z) : Hash := MkHash (replicate 32 k).
Definition ops : list PoolOp :=
  [OpDeposit (nul 9) 1; OpWithdraw (nul 1) None; OpWithdraw (nul 1) None; OpWithdraw (nul 2) None].
Definition start : PrivacyPool := pool_new 100 false.

Lemma nullifier_paid_once_witness :
  pool_ok start ∧ pool_run start ops = ((pool_run start ops).1, [nul 1; nul 2]) ∧
  NoDup [nul 1; nul 2].
Proof.
  assert (pool_run start ops = ((pool_run start ops).1, [nul 1; nul 2])) as Hr
    by (vm_compute; reflexivity).
  split; [exact (pool_new_ok 100 false)|]. split; [exact Hr|].
  exact (proj1 (proj2 (nullifier_paid_once ops start _ _ (pool_new_ok 100 false) Hr))).
Defined.

Lemma withdrawals_need_no_deposit_witness :
  (pool_run (pool_new 100 false) ((λ n, OpWithdraw n None) <$> [nul 1; nul 2])).2 = [nul 1; nul 2].
Proof.
  assert (NoDup [nul 1; nul 2]) as Hnd
    by (apply (bool_decide_eq_true_1 (NoDup [nul 1; nul 2])); vm_compute; reflexivity).
  exact (withdrawals_need_no_deposit 100 [nul 1; nul 2] Hnd).
Defined.
End PrivacyPoolReference.
