(* ===== verification/Recurring.v ===== *)
(** * Recurring: recurring payments

    Models [irondag-blockchain/src/recurring/manager.rs] and
    [recurring/scheduler.rs]: the schedule of a recurring payment, its status
    and the manager that creates, pauses, resumes, cancels and advances
    them.  The transfers themselves are made by the chain ([Chain]). *)

From S2P Require Import Prelude Types Block.

Inductive Schedule :=
  | Daily (hour minute : u8)
  | Weekly (day_of_week hour minute : u8)
  | Monthly (day_of_month hour minute : u8)
  | Custom (interval_seconds : u64).

Inductive RecurringTxStatus := RtActive | RtPaused | RtCancelled | RtCompleted | RtFailed.

#[global] Instance RecurringTxStatus_eq_dec : EqDecision RecurringTxStatus.
Proof. solve_decision. Defined.

Record RecurringTransaction := MkRecurring {
  recurring_tx_id : Hash;
  rt_from : Address;
  rt_to : Address;
  rt_value : u128;
  schedule : Schedule;
  rt_created_at : u64;
  start_date : u64;
  end_date : option u64;
  next_execution : u64;
  max_executions : option u64;
  execution_count : u64;
  status : RecurringTxStatus;
  last_execution : option u64;
  last_execution_tx_hash : option Hash;
  failure_count : u64 }.

Definition should_execute (r : RecurringTransaction) (current_time : u64) : bool :=
  if negb (bool_decide (status r = RtActive)) then false
  else if current_time <? start_date r then false
  else if match end_date r with Some e => e <? current_time | None => false end then false
  else if match max_executions r with Some m => m <=? execution_count r | None => false end then false
  else next_execution r <=? current_time.

(** The distance to the next execution: hour, minute and day of a schedule
    are not consulted. *)
Definition interval (s : Schedule) : u64 :=
  match s with
  | Daily _ _ => 86400
  | Weekly _ _ _ => 604800
  | Monthly _ _ _ => 2592000
  | Custom n => n
  end.
Definition calculate_next_execution (r : RecurringTransaction) (current_time : u64) : u64 :=
  add64 current_time (interval (schedule r)).

(** [serde_json::to_string(schedule)] *)
Class ScheduleJson := schedule_json : Schedule → list u8.

Section Create.
Context `{Keccak, ScheduleJson}.

Definition calculate_id (from to : Address) (value : u128) (s : Schedule) (created_at : u64) : Hash :=
  keccak256 (addr_bytes from ++ addr_bytes to ++ to_le_bytes 16 value ++ schedule_json s
             ++ to_le_bytes 8 created_at).

Definition recurring_new (from to : Address) (value : u128) (s : Schedule) (start : u64)
    (end_ : option u64) (max : option u64) (created_at : u64) : RecurringTransaction :=
  MkRecurring (calculate_id from to value s created_at) from to value s created_at start end_
    start max 0 RtActive None None 0.

(** ** Manager *)

Definition Manager : Type := gmap Hash RecurringTransaction.

Definition create_recurring (m : Manager) (from to : Address) (value : u128) (s : Schedule)
    (start : u64) (end_ : option u64) (max : option u64) (created_at : u64) :
    Manager * RecurringTransaction :=
  let r := recurring_new from to value s start end_ max created_at in
  (<[recurring_tx_id r := r]> m, r).
End Create.

Definition set_status (s : RecurringTxStatus) (r : RecurringTransaction) : RecurringTransaction :=
  MkRecurring (recurring_tx_id r) (rt_from r) (rt_to r) (rt_value r) (schedule r) (rt_created_at r)
    (start_date r) (end_date r) (next_execution r) (max_executions r) (execution_count r) s
    (last_execution r) (last_execution_tx_hash r) (failure_count r).

Definition set_failures (n : u64) (r : RecurringTransaction) : RecurringTransaction :=
  MkRecurring (recurring_tx_id r) (rt_from r) (rt_to r) (rt_value r) (schedule r) (rt_created_at r)
    (start_date r) (end_date r) (next_execution r) (max_executions r) (execution_count r) (status r)
    (last_execution r) (last_execution_tx_hash r) n.

(** [self.transactions.get_mut(id).ok_or("..")?] followed by an update. *)
Definition update_tx (m : Manager) (id : Hash)
    (f : RecurringTransaction → result string RecurringTransaction) : Manager * result string unit :=
  match m !! id with
  | None => (m, Err "Recurring transaction not found")
  | Some r => match f r with
              | Ok r' => (<[id := r']> m, Ok tt)
              | Err e => (m, Err e)
              end
  end.

Definition cancel (m : Manager) (id : Hash) : Manager * result string unit :=
  update_tx m id (λ r,
    if bool_decide (status r = RtCancelled) then Err "Already cancelled"
    else Ok (set_status RtCancelled r)).

Definition pause (m : Manager) (id : Hash) : Manager * result string unit :=
  update_tx m id (λ r,
    if bool_decide (status r = RtActive) then Ok (set_status RtPaused r)
    else Err "Transaction is not active").

Definition resume (m : Manager) (id : Hash) : Manager * result string unit :=
  update_tx m id (λ r,
    if bool_decide (status r = RtPaused) then Ok (set_status RtActive r)
    else Err "Transaction is not paused").

Definition executed (tx_hash : Hash) (current_time : u64) (r : RecurringTransaction) :
    RecurringTransaction :=
  let count := add64 (execution_count r) 1 in
  let st := match max_executions r with
            | Some m => if m <=? count then RtCompleted else status r
            | None => status r
            end in
  let st := match end_date r with
            | Some e => if e <=? current_time then RtCompleted else st
            | None => st
            end in
  MkRecurring (recurring_tx_id r) (rt_from r) (rt_to r) (rt_value r) (schedule r) (rt_created_at r)
    (start_date r) (end_date r) (calculate_next_execution r current_time) (max_executions r) count st
    (Some current_time) (Some tx_hash) (failure_count r).

Definition mark_executed (m : Manager) (id tx_hash : Hash) (current_time : u64) :
    Manager * result string unit :=
  update_tx m id (λ r, Ok (executed tx_hash current_time r)).

Definition mark_failed (m : Manager) (id : Hash) : Manager * result string unit :=
  update_tx m id (λ r,
    let n := add64 (failure_count r) 1 in
    let r := set_failures n r in
    Ok (if 5 <=? n then set_status RtFailed r else r)).

Section Queries.
Context `{HashIter}.

Definition get_for_address (m : Manager) (a : Address) : list RecurringTransaction :=
  List.filter (λ r, bool_decide (rt_from r = a) || bool_decide (rt_to r = a)) (snd <$> hm_iter m).

Definition get_ready_to_execute (m : Manager) (current_time : u64) : list RecurringTransaction :=
  List.filter (λ r, should_execute r current_time) (snd <$> hm_iter m).

(** [RecurringScheduler::process_due_transactions] *)
Definition process_due_transactions `{Keccak} (m : Manager) (current_time : u64) : list Transaction :=
  (λ r, tx_new (rt_from r) (rt_to r) (rt_value r) 0 0) <$> get_ready_to_execute m current_time.
End Queries.

(** ** Runs *)

Inductive RtEvent :=
  | EvTick (tx_hash : Hash) (now : u64)
  | EvFail
  | EvPause
  | EvResume
  | EvCancel.

(** What happens to one payment; a tick executes it if it is due.  The log
    of execution times is kept with the latest first. *)
Definition rt_step (id : Hash) (s : Manager * list u64) (ev : RtEvent) : Manager * list u64 :=
  let '(m, log) := s in
  match ev with
  | EvTick h now =>
      match m !! id with
      | Some r => if should_execute r now then ((mark_executed m id h now).1, now :: log) else s
      | None => s
      end
  | EvFail => ((mark_failed m id).1, log)
  | EvPause => ((pause m id).1, log)
  | EvResume => ((resume m id).1, log)
  | EvCancel => ((cancel m id).1, log)
  end.

Definition rt_run (id : Hash) (m : Manager) (evs : list RtEvent) : Manager * list u64 :=
  foldl (rt_step id) (m, []) evs.

Lemma should_execute_true r t :
  should_execute r t = true ↔
  status r = RtActive ∧ start_date r <= t ∧ (∀ e, end_date r = Some e → t <= e) ∧
  (∀ m, max_executions r = Some m → execution_count r < m) ∧ next_execution r <= t.
Proof.
  unfold should_execute. case_bool_decide as Ha; cbn; [|split; [done|by intros [? _]]].
  destruct (Z.ltb_spec t (start_date r)); [split; [done|intros (_ & ? & _); lia]|].
  destruct (end_date r) as [e|]; [destruct (Z.ltb_spec e t)|];
    (destruct (max_executions r) as [m|]; [destruct (Z.leb_spec m (execution_count r))|]);
    (split;
     [intros Hx; first [discriminate Hx
       |apply Z.leb_le in Hx; split_and!; try done; intros ? [= <-]; lia]
     |intros (_ & _ & He & Hm & Hx); try specialize (He _ eq_refl); try specialize (Hm _ eq_refl);
      first [by apply Z.leb_le|exfalso; lia]]).
Qed.

(** The fixed terms of a payment. *)
Definition same_terms (r0 r : RecurringTransaction) : Prop :=
  schedule r = schedule r0 ∧ start_date r = start_date r0 ∧ end_date r = end_date r0 ∧
  max_executions r = max_executions r0 ∧ rt_from r = rt_from r0 ∧ rt_to r = rt_to r0 ∧
  rt_value r = rt_value r0.

(** What the log of a payment satisfies. *)
Record log_ok (r0 r : RecurringTransaction) (log : list u64) : Prop := {
  log_terms : same_terms r0 r;
  log_count : execution_count r = Z.of_nat (length log);
  log_spaced : Sorted (λ later earlier, earlier + interval (schedule r0) <= later) log;
  log_next : ∀ t, head log = Some t → next_execution r = t + interval (schedule r0);
  log_range : Forall (λ t, start_date r0 <= t ∧ ∀ e, end_date r0 = Some e → t <= e) log;
  log_max : ∀ m, max_executions r0 = Some m → 0 <= m → Z.of_nat (length log) <= m }.

(** Operations that do not execute keep the log right. *)
Definition keeps_log (f : RecurringTransaction → result string RecurringTransaction) : Prop :=
  ∀ r r', f r = Ok r' →
    same_terms r r' ∧ execution_count r' = execution_count r ∧ next_execution r' = next_execution r.

Lemma update_keeps r0 m id f log r :
  keeps_log f → m !! id = Some r → log_ok r0 r log →
  ∃ r', (update_tx m id f).1 !! id = Some r' ∧ log_ok r0 r' log.
Proof.
  intros Hf Hr [Ht Hc Hs Hn Hra Hm]. unfold update_tx. rewrite Hr.
  destruct (f r) as [r'|e] eqn:Hfr; [|exists r; split; [done|by split]].
  exists r'. split; [apply lookup_insert_eq|].
  destruct (Hf r r' Hfr) as (Hterms & Hcount & Hnext). unfold same_terms in *.
  destruct Hterms as (?&?&?&?&?&?&?), Ht as (?&?&?&?&?&?&?).
  split; [unfold same_terms; split_and!; congruence|congruence|done| |done|done].
  intros t Ht. rewrite Hnext. by apply Hn.
Qed.

Lemma executed_log r0 r log h now :
  should_execute r now = true → log_ok r0 r log → Z.of_nat (length log) < u64_max →
  0 <= now + interval (schedule r0) <= u64_max →
  log_ok r0 (executed h now r) (now :: log).
Proof.
  intros Hsh [(Hsc & Hst & He & Hmx & Hfr & Hto & Hv) Hc Hs Hn Hra Hm] Hlen Hov.
  apply should_execute_true in Hsh as (Hact & Hge & Hend & Hmax & Hnext). split.
  - unfold same_terms. cbn. done.
  - cbn. rewrite Hc, add64_small; [lia|]. lia.
  - constructor; [done|]. destruct log as [|t log]; constructor.
    specialize (Hn t eq_refl). lia.
  - intros t [= <-]. cbn. unfold calculate_next_execution. by rewrite Hsc, add64_small.
  - constructor; [|done]. rewrite <- Hst, <- He. done.
  - intros m Hm0 Hpos. rewrite <- Hmx in Hm0. specialize (Hmax m Hm0). cbn. lia.
Qed.

Lemma rt_step_ok id r0 m log r ev :
  m !! id = Some r → log_ok r0 r log → Z.of_nat (length log) < u64_max →
  (∀ h now, ev = EvTick h now → 0 <= now + interval (schedule r0) <= u64_max) →
  ∃ r', (rt_step id (m, log) ev).1 !! id = Some r' ∧ log_ok r0 r' (rt_step id (m, log) ev).2.
Proof.
  intros Hr Hok Hlen Hov. destruct ev as [h now| | | |]; cbn.
  - rewrite Hr. destruct (should_execute r now) eqn:Hsh; [|by exists r]. cbn.
    exists (executed h now r). split; [|by eapply executed_log; eauto].
    unfold mark_executed, update_tx. rewrite Hr. apply lookup_insert_eq.
  - eapply update_keeps; [|done|done]. intros ? ? [= <-]. destruct (_ <=? _); done.
  - eapply update_keeps; [|done|done]. intros ? ?. destruct (bool_decide _); [by intros [= <-]|done].
  - eapply update_keeps; [|done|done]. intros ? ?. destruct (bool_decide _); [by intros [= <-]|done].
  - eapply update_keeps; [|done|done]. intros ? ?. destruct (bool_decide _); [done|by intros [= <-]].
Qed.

Lemma rt_step_length id s ev : (length (rt_step id s ev).2 <= S (length s.2))%nat.
Proof. destruct s as [m log], ev; cbn; repeat case_match; cbn; lia. Qed.

(** A recurring payment keeps to its terms: whatever ticks, failures, pauses,
    resumptions and cancellations happen, it is executed at most
    [max_executions] times, only between its start and end dates, and two
    executions are at least one interval apart. *)
Theorem recurring_keeps_terms id m r evs m' log :
  m !! id = Some r → execution_count r = 0 → Z.of_nat (length evs) < u64_max →
  (∀ h now, EvTick h now ∈ evs → 0 <= now + interval (schedule r) <= u64_max) →
  rt_run id m evs = (m', log) →
  Sorted (λ later earlier, earlier + interval (schedule r) <= later) log ∧
  Forall (λ t, start_date r <= t ∧ ∀ e, end_date r = Some e → t <= e) log ∧
  (∀ max, max_executions r = Some max → 0 <= max → Z.of_nat (length log) <= max) ∧
  ∃ r', m' !! id = Some r' ∧ same_terms r r' ∧ execution_count r' = Z.of_nat (length log).
Proof.
  intros Hr H0 Hlen Hov Hrun. unfold rt_run in Hrun.
  assert (∀ evs s r1, s.1 !! id = Some r1 → log_ok r r1 s.2 →
    Z.of_nat (length s.2) + Z.of_nat (length evs) < u64_max →
    (∀ h now, EvTick h now ∈ evs → 0 <= now + interval (schedule r) <= u64_max) →
    ∃ r', (foldl (rt_step id) s evs).1 !! id = Some r' ∧ log_ok r r' (foldl (rt_step id) s evs).2) as Hgen.
  { clear. intros evs. induction evs as [|ev evs IH]; intros [m log] r1 H1 Hok Hlen Hov; [by exists r1|].
    destruct (rt_step_ok id r m log r1 ev) as (r2 & H2 & Hok2); [done|done|cbn in Hlen; lia| |].
    { intros h now ->. apply (Hov h). by left. }
    cbn [foldl]. eapply IH; [exact H2|exact Hok2| |].
    - pose proof (rt_step_length id (m, log) ev). cbn in *. lia.
    - intros h now Hin. apply (Hov h). by right. }
  destruct (Hgen evs (m, []) r) as (r' & Hr' & [Ht Hc Hs _ Hra Hm]); [done| |cbn; lia|done|].
  { split; [done|by rewrite H0|constructor|done|constructor|cbn; lia]. }
  rewrite Hrun in *. cbn in *. split_and!; eauto.
Qed.

(** A cancelled payment is never executed again, whatever follows: only
    execution could complete it, and it is no longer due. *)
Theorem cancelled_stays_cancelled id m r evs :
  m !! id = Some r → status r = RtCancelled → EvFail ∉ evs →
  (rt_run id m evs).2 = [] ∧
  ∃ r', (rt_run id m evs).1 !! id = Some r' ∧ status r' = RtCancelled.
Proof.
  intros Hr Hs Hf. unfold rt_run.
  assert (∀ log, (foldl (rt_step id) (m, log) evs).2 = log ∧
     ∃ r', (foldl (rt_step id) (m, log) evs).1 !! id = Some r' ∧ status r' = RtCancelled) as H;
    [|by apply H].
  intros log. induction evs as [|ev evs IH]; [by eauto|]. apply not_elem_of_cons in Hf as [Hne Hf].
  assert (rt_step id (m, log) ev = (m, log)) as Hstep; [|cbn [foldl]; rewrite Hstep; by apply IH].
  destruct ev; cbn; [| done | | |].
  - rewrite Hr. unfold should_execute. by rewrite Hs.
  - unfold pause, update_tx. by rewrite Hr, Hs.
  - unfold resume, update_tx. by rewrite Hr, Hs.
  - unfold cancel, update_tx. by rewrite Hr, Hs.
Qed.

(** ** Executable examples *)

Module RecurringReference.
Definition rid : Hash := MkHash (replicate 32 1).
Definition payment : RecurringTransaction :=
  MkRecurring rid (MkAddress (replicate 20 1)) (MkAddress (replicate 20 2)) 50 (Daily 9 0) 0 1000
    (Some 400000) 1000 (Some 2) 0 RtActive None None 0.
Definition book : Manager := {[rid := payment]}.
Definition events : list RtEvent :=
  [EvTick rid 1000; EvTick rid 2000; EvPause; EvTick rid 90000; EvResume; EvTick rid 90000;
   EvTick rid 200000].

Lemma book_lookup : book !! rid = Some payment.
Proof. apply lookup_singleton_eq. Qed.

Lemma recurring_keeps_terms_witness :
  rt_run rid book events = ((rt_run rid book events).1, [90000; 1000]) ∧
  Sorted (λ later earlier, earlier + 86400 <= later) [90000; 1000].
Proof.
  assert (rt_run rid book events = ((rt_run rid book events).1, [90000; 1000])) as Hr
    by (vm_compute; reflexivity).
  split; [exact Hr|].
  assert (∀ h now, EvTick h now ∈ events → 0 <= now + interval (schedule payment) <= u64_max) as Ht.
  { intros h now Hin. unfold events in Hin.
    repeat (apply elem_of_cons in Hin as [Hin|Hin]; [first [discriminate Hin|injection Hin as -> ->; cbn; mlia]|]).
    by apply elem_of_nil in Hin. }
  exact (proj1 (recurring_keeps_terms rid book payment events _ _ book_lookup eq_refl eq_refl Ht Hr)).
Defined.

Definition stopped : Manager := {[rid := set_status RtCancelled payment]}.

Lemma cancelled_stays_cancelled_witness : (rt_run rid stopped [EvResume; EvTick rid 5000]).2 = [].
Proof.
  assert (stopped !! rid = Some (set_status RtCancelled payment)) as Hl by apply lookup_singleton_eq.
  assert (EvFail ∉ [EvResume; EvTick rid 5000]) as Hn.
  { intros Hin. repeat (apply elem_of_cons in Hin as [Hin|Hin]; [discriminate Hin|]).
    by apply elem_of_nil in Hin. }
  exact (proj1 (cancelled_stays_cancelled rid stopped _ [EvResume; EvTick rid 5000] Hl eq_refl Hn)).
Defined.
End RecurringReference.
