(* ===== verification/Governance.v ===== *)
(** * Governance: scheduled protocol upgrades

    Models [irondag-blockchain/src/governance/scheduler.rs]: actions that
    activate at a block height.  [sort_unstable_by_key] may order equal keys
    freely; the duplicate guard keeps the heights distinct, so the sorted
    vector is unique ([key_sorted_unique]) and the stable sort of [Prelude]
    gives it. *)

From S2P Require Import Prelude Types Block.

Inductive GovernanceAction := SetHashAlgorithm (version : u8).

Record ScheduledAction := MkAction { activation_height : u64; action : GovernanceAction }.

Record GovernanceScheduler := MkScheduler {
  pending : list ScheduledAction;
  active_hash_version : u8 }.

Definition scheduler_new : GovernanceScheduler := MkScheduler [] HASH_VERSION_BLAKE3.

(** [mem::discriminant] of the only variant. *)
Definition same_kind (a b : GovernanceAction) : bool :=
  match a, b with SetHashAlgorithm _, SetHashAlgorithm _ => true end.

Definition schedule (s : GovernanceScheduler) (a : ScheduledAction) :
    GovernanceScheduler * result string unit :=
  if activation_height a =? 0 then (s, Err "activation_height must be > 0")
  else if existsb (λ b, (activation_height b =? activation_height a)
                        && same_kind (action b) (action a)) (pending s)
  then (s, Err "already scheduled")
  else (MkScheduler (sort_by_key activation_height (pending s ++ [a])) (active_hash_version s), Ok tt).

Definition apply_action (version : u8) (a : ScheduledAction) : u8 :=
  match action a with SetHashAlgorithm v => if v =? 0 then version else v end.

(** The index loop of [apply_at_height]: [kept] are the entries before [i]. *)
Fixpoint apply_loop (height : u64) (kept rest : list ScheduledAction) (version : u8) :
    list ScheduledAction * u8 :=
  match rest with
  | [] => (kept, version)
  | a :: rest' =>
      if activation_height a <=? height then apply_loop height kept rest' (apply_action version a)
      else apply_loop height (kept ++ [a]) rest' version
  end.

Definition apply_at_height (s : GovernanceScheduler) (height : u64) : GovernanceScheduler :=
  let '(p, v) := apply_loop height [] (pending s) (active_hash_version s) in MkScheduler p v.

(** ** Pending actions *)

Record pending_ok (p : list ScheduledAction) : Prop := {
  heights_sorted : StronglySorted (le_of (key_leb activation_height)) p;
  heights_distinct : NoDup (activation_height <$> p);
  heights_positive : Forall (λ a, activation_height a ≠ 0) p }.

Lemma same_kind_true a b : same_kind a b = true.
Proof. by destruct a, b. Qed.

Lemma key_sorted_unique {A} (k : A → Z) l1 l2 :
  NoDup (k <$> l1) → l1 ≡ₚ l2 →
  StronglySorted (le_of (key_leb k)) l1 → StronglySorted (le_of (key_leb k)) l2 → l1 = l2.
Proof.
  intros Hnd Hp H1 H2. apply (StronglySorted_unique_strong (le_of (key_leb k))); try done.
  intros x y Hx Hy Hxy Hyx. unfold le_of, key_leb in *. bool_to_prop.
  rewrite <- Hp in Hy. assert (k x = k y) as Hk by lia.
  apply list_elem_of_lookup in Hx as [i Hi], Hy as [j Hj].
  assert (i = j) as ->; [|congruence].
  apply (NoDup_lookup (k <$> l1) i j (k x)); [done|by rewrite list_lookup_fmap, Hi|].
  by rewrite list_lookup_fmap, Hj, Hk.
Qed.

Lemma sort_by_key_sorted {A} (k : A → Z) l : StronglySorted (le_of (key_leb k)) (sort_by_key k l).
Proof. apply sort_by_sorted; [apply key_leb_total|apply key_leb_trans]. Qed.

Lemma schedule_Ok s a s' :
  pending_ok (pending s) → schedule s a = (s', Ok tt) →
  pending s' ≡ₚ a :: pending s ∧ pending_ok (pending s') ∧
  active_hash_version s' = active_hash_version s.
Proof.
  intros [Hs Hd Hpos]. unfold schedule. destruct (Z.eqb_spec (activation_height a) 0); [done|].
  destruct (existsb _ _) eqn:He; [done|]. intros Heq. injection Heq as <-. cbn.
  assert (sort_by_key activation_height (pending s ++ [a]) ≡ₚ a :: pending s) as Hp.
  { unfold sort_by_key. rewrite sort_by_perm. by rewrite Permutation_app_comm. }
  split_and!; [done| |done]. split; [apply sort_by_key_sorted| |].
  - rewrite Hp. cbn. constructor; [|done].
    intros (b & Hb & Hin)%list_elem_of_fmap. apply not_true_iff_false in He. apply He.
    apply existsb_exists. exists b. split; [by apply list_elem_of_In|].
    by rewrite Hb, Z.eqb_refl, same_kind_true.
  - rewrite Hp. by constructor.
Qed.

(** ** Activation *)

Lemma apply_loop_split height kept rest version :
  apply_loop height kept rest version
  = (kept ++ List.filter (λ a, negb (activation_height a <=? height)) rest,
     foldl apply_action version (List.filter (λ a, activation_height a <=? height) rest)).
Proof.
  revert kept version. induction rest as [|a rest IH]; intros kept version; cbn; [by rewrite app_nil_r|].
  destruct (activation_height a <=? height); cbn; rewrite IH; [done|]. by rewrite <- app_assoc.
Qed.

Lemma apply_at_height_eq s h :
  apply_at_height s h
  = MkScheduler (List.filter (λ a, negb (activation_height a <=? h)) (pending s))
      (foldl apply_action (active_hash_version s)
         (List.filter (λ a, activation_height a <=? h) (pending s))).
Proof. unfold apply_at_height. by rewrite apply_loop_split. Qed.

Lemma filter_sub_ok (p : ScheduledAction → bool) l : pending_ok l → pending_ok (List.filter p l).
Proof.
  intros [Hs Hd Hpos]. revert Hs Hd Hpos. induction l as [|a l IH]; intros Hs Hd Hpos; cbn; [done|].
  apply StronglySorted_inv in Hs as [Hs Ha]. apply NoDup_cons in Hd as [Hna Hd].
  apply Forall_cons in Hpos as [Hpa Hpos]. specialize (IH Hs Hd Hpos) as [Hs' Hd' Hpos'].
  destruct (p a); [|done].
  assert (∀ b, b ∈ List.filter p l → b ∈ l) as Hsub.
  { intros b. rewrite !list_elem_of_In, filter_In. tauto. }
  split.
  - constructor; [done|]. apply Forall_forall. intros b Hb. rewrite Forall_forall in Ha. auto.
  - cbn. constructor; [|done]. intros (b & Hb & Hin)%list_elem_of_fmap. apply Hna.
    rewrite Hb. by apply list_elem_of_fmap_2, Hsub.
  - by constructor.
Qed.

(** A sorted list splits at a height. *)
Lemma sorted_split l h :
  StronglySorted (le_of (key_leb activation_height)) l →
  l = List.filter (λ a, activation_height a <=? h) l
      ++ List.filter (λ a, negb (activation_height a <=? h)) l.
Proof.
  induction 1 as [|a l Hl IH Ha]; cbn; [done|]. destruct (Z.leb_spec (activation_height a) h); cbn.
  - by f_equal.
  - assert (List.filter (λ b, activation_height b <=? h) l = []) as Hnil.
    { destruct (List.filter _ l) as [|b bs] eqn:Hb; [done|].
      assert (b ∈ List.filter (λ b, activation_height b <=? h) l) as Hin by (rewrite Hb; by left).
      apply list_elem_of_In, filter_In in Hin as [Hin Hle]. rewrite Forall_forall in Ha.
      specialize (Ha b ltac:(by apply list_elem_of_In)). unfold le_of, key_leb in Ha.
      bool_to_prop. lia. }
    rewrite Hnil in *. cbn in *. by f_equal.
Qed.

Lemma filter_true {A} (p : A → bool) l : (∀ x, x ∈ l → p x = true) → List.filter p l = l.
Proof.
  induction l as [|x l IH]; intros Hp; cbn; [done|]. rewrite Hp by (by left).
  f_equal. apply IH. intros y Hy. apply Hp. by right.
Qed.
Lemma filter_false {A} (p : A → bool) l : (∀ x, x ∈ l → p x = false) → List.filter p l = [].
Proof.
  induction l as [|x l IH]; intros Hp; cbn; [done|]. rewrite Hp by (by left).
  apply IH. intros y Hy. apply Hp. by right.
Qed.
Lemma filter_filter {A} (p q : A → bool) l :
  List.filter p (List.filter q l) = List.filter (λ x, q x && p x) l.
Proof. induction l as [|x l IH]; cbn; [done|]. destruct (q x), (p x) eqn:Hp; cbn; rewrite ?Hp, IH; done. Qed.

Lemma apply_twice s h1 h2 :
  pending_ok (pending s) →
  apply_at_height (apply_at_height s h1) h2 = apply_at_height s (Z.max h1 h2).
Proof.
  intros Hok. rewrite !apply_at_height_eq. cbn. f_equal.
  - rewrite filter_filter. apply List.filter_ext. intros a.
    destruct (Z.leb_spec (activation_height a) h1), (Z.leb_spec (activation_height a) h2),
      (Z.leb_spec (activation_height a) (Z.max h1 h2)); cbn; try done; lia.
  - rewrite <- foldl_app. f_equal.
    pose proof (heights_sorted _ (filter_sub_ok (λ a, activation_height a <=? Z.max h1 h2) _ Hok)) as Hs.
    rewrite (sorted_split _ h1 Hs), !filter_filter. f_equal; apply List.filter_ext; intros a;
      destruct (Z.leb_spec (activation_height a) h1), (Z.leb_spec (activation_height a) h2),
        (Z.leb_spec (activation_height a) (Z.max h1 h2)); cbn; try done; lia.
Qed.

(** Scheduling a list of actions, all of them accepted. *)
Inductive scheduled : GovernanceScheduler → list ScheduledAction → GovernanceScheduler → Prop :=
  | scheduled_nil s : scheduled s [] s
  | scheduled_cons s a s1 l s2 :
      schedule s a = (s1, Ok tt) → scheduled s1 l s2 → scheduled s (a :: l) s2.

Lemma scheduled_ok s l s' :
  scheduled s l s' → pending_ok (pending s) →
  pending s' ≡ₚ l ++ pending s ∧ pending_ok (pending s') ∧ active_hash_version s' = active_hash_version s.
Proof.
  induction 1 as [|s a s1 l s2 Ha Hl IH]; intros Hok; [done|].
  destruct (schedule_Ok s a s1 Hok Ha) as (Hp & Hok1 & Hv).
  destruct (IH Hok1) as (Hp2 & Hok2 & Hv2). split_and!; [|done|congruence].
  rewrite Hp2, Hp. cbn. by rewrite Permutation_middle.
Qed.

Definition apply_blocks (s : GovernanceScheduler) (heights : list u64) : GovernanceScheduler :=
  foldl apply_at_height s heights.

Lemma apply_at_height_ok s h : pending_ok (pending s) → pending_ok (pending (apply_at_height s h)).
Proof. intros Hok. rewrite apply_at_height_eq. cbn. by apply filter_sub_ok. Qed.

Lemma apply_blocks_max heights s h :
  pending_ok (pending s) →
  apply_blocks (apply_at_height s h) heights = apply_at_height s (foldr Z.max h heights).
Proof.
  revert s h. induction heights as [|h' heights IH]; intros s h Hok; cbn; [done|].
  rewrite apply_twice by done. unfold apply_blocks in IH. rewrite IH by done. f_equal.
  clear. induction heights as [|x heights IH]; cbn; lia.
Qed.

(** Governance is deterministic across nodes: two nodes that scheduled the
    same actions, in any order, and have committed the same heights, in any
    order and possibly repeatedly, agree on the active hash version and on
    what is still pending. *)
Theorem governance_agreement l1 l2 s1 s2 h1 h2 hs1 hs2 :
  scheduled scheduler_new l1 s1 → scheduled scheduler_new l2 s2 → l1 ≡ₚ l2 →
  foldr Z.max h1 hs1 = foldr Z.max h2 hs2 →
  apply_blocks s1 (h1 :: hs1) = apply_blocks s2 (h2 :: hs2).
Proof.
  intros H1 H2 Hl Hh. assert (pending_ok (pending scheduler_new)) as Hnew by (split; cbn; constructor).
  destruct (scheduled_ok _ _ _ H1 Hnew) as (Hp1 & [Hs1 Hd1 Hq1] & Hv1).
  destruct (scheduled_ok _ _ _ H2 Hnew) as (Hp2 & [Hs2 Hd2 Hq2] & Hv2).
  assert (s1 = s2) as ->.
  { destruct s1 as [p1 v1], s2 as [p2 v2]. cbn in *. subst. f_equal.
    apply (key_sorted_unique activation_height); try done.
    by rewrite Hp1, Hp2, Hl. }
  unfold apply_blocks. cbn [foldl].
  pose proof (apply_blocks_max hs1 s2 h1) as E1. pose proof (apply_blocks_max hs2 s2 h2) as E2.
  unfold apply_blocks in E1, E2. rewrite E1, E2 by done. by rewrite Hh.
Qed.

Lemma foldl_last_version l v a l' :
  (∀ b, b ∈ l' → action b = SetHashAlgorithm 0) →
  foldl apply_action v (l ++ a :: l') = apply_action (foldl apply_action v l) a.
Proof.
  intros Hz. rewrite foldl_app. cbn. generalize (apply_action (foldl apply_action v l) a). intros w.
  induction l' as [|b l' IH]; cbn; [done|].
  assert (apply_action w b = w) as -> by (unfold apply_action; by rewrite (Hz b) by (by left)).
  apply IH. intros c Hc. apply Hz. by right.
Qed.

(** The active version after a height is the one of the latest scheduled
    upgrade at or below that height (version 0, which is reserved, is
    ignored), and everything above the height stays pending. *)
Theorem governance_latest_upgrade s h a v :
  pending_ok (pending s) → a ∈ pending s → activation_height a <= h →
  action a = SetHashAlgorithm v → v ≠ 0 →
  (∀ b, b ∈ pending s → activation_height a < activation_height b <= h → action b = SetHashAlgorithm 0) →
  active_hash_version (apply_at_height s h) = v ∧
  ∀ b, b ∈ pending (apply_at_height s h) ↔ b ∈ pending s ∧ h < activation_height b.
Proof.
  intros Hok Ha Hle Hact Hv Hlast. rewrite apply_at_height_eq. cbn. split.
  - pose proof (filter_sub_ok (λ b, activation_height b <=? h) _ Hok) as [Hs Hd _].
    assert (a ∈ List.filter (λ b, activation_height b <=? h) (pending s)) as Hin.
    { apply list_elem_of_In, filter_In. split; [by apply list_elem_of_In|by apply Z.leb_le]. }
    apply list_elem_of_split in Hin as (l1 & l2 & Heq). rewrite Heq in *.
    rewrite foldl_last_version; [unfold apply_action; rewrite Hact; by destruct (Z.eqb_spec v 0)|].
    intros b Hb.
    assert (b ∈ List.filter (λ b, activation_height b <=? h) (pending s)) as Hbin
      by (rewrite Heq; apply elem_of_app; right; by right).
    apply list_elem_of_In, filter_In in Hbin as [Hbp Hbh%Z.leb_le]. apply Hlast; [by apply list_elem_of_In|].
    rewrite fmap_app in Hd. cbn in Hd. apply NoDup_app in Hd as (_ & _ & Hd).
    apply NoDup_cons in Hd as [Hna _].
    assert (activation_height a <> activation_height b)
      by (intros E; apply Hna; rewrite E; by apply list_elem_of_fmap_2).
    assert (StronglySorted (le_of (key_leb activation_height)) (a :: l2)) as Hs2.
    { clear -Hs. induction l1 as [|x l1 IH]; [done|]. apply StronglySorted_inv in Hs as [Hs _]. auto. }
    apply StronglySorted_inv in Hs2 as [_ Hall]. rewrite Forall_forall in Hall.
    specialize (Hall b Hb). unfold le_of, key_leb in Hall. bool_to_prop. lia.
  - intros b. rewrite list_elem_of_In, filter_In, <- list_elem_of_In, negb_true_iff, Z.leb_gt. done.
Qed.

(** ** Executable examples *)

Module GovernanceReference.
Definition up2 : ScheduledAction := MkAction 100 (SetHashAlgorithm 2).
Definition up3 : ScheduledAction := MkAction 200 (SetHashAlgorithm 3).
Definition both : GovernanceScheduler := MkScheduler [up2; up3] HASH_VERSION_BLAKE3.

Lemma scheduled_23 : scheduled scheduler_new [up2; up3] both.
Proof. econstructor; [vm_compute; reflexivity|]. econstructor; [vm_compute; reflexivity|]. constructor. Qed.
Lemma scheduled_32 : scheduled scheduler_new [up3; up2] both.
Proof. econstructor; [vm_compute; reflexivity|]. econstructor; [vm_compute; reflexivity|]. constructor. Qed.
Lemma both_ok : pending_ok (pending both).
Proof.
  apply (scheduled_ok _ _ _ scheduled_23). split; cbn; constructor.
Qed.

Lemma governance_agreement_witness :
  apply_blocks both [100; 200] = apply_blocks both [200; 100] ∧
  active_hash_version (apply_blocks both [200; 100]) = 3.
Proof.
  assert (active_hash_version (apply_blocks both [200; 100]) = 3) as Hv by (vm_compute; reflexivity).
  split; [|exact Hv].
  exact (governance_agreement [up2; up3] [up3; up2] both both 100 200 [200] [100] scheduled_23 scheduled_32
    (Permutation_swap up3 up2 []) eq_refl).
Defined.

Lemma governance_latest_upgrade_witness :
  active_hash_version (apply_at_height both 150) = 2.
Proof.
  assert (up2 ∈ pending both) as Hin by (left).
  assert (∀ b, b ∈ pending both → activation_height up2 < activation_height b <= 150 →
    action b = SetHashAlgorithm 0) as Hno.
  { intros b Hb. cbn in Hb. apply elem_of_cons in Hb as [->|Hb]; [cbn; lia|].
    apply elem_of_cons in Hb as [->|Hb]; [cbn; lia|]. by apply elem_of_nil in Hb. }
  exact (proj1 (governance_latest_upgrade both 150 up2 2 both_ok Hin ltac:(cbn; lia) eq_refl
    ltac:(lia) Hno)).
Defined.
End GovernanceReference.
