(* ===== verification/Wallet.v ===== *)
(** * Wallet: smart contract wallets

    Models [irondag-blockchain/src/account_abstraction/wallet.rs] and
    [account_abstraction/registry.rs]: wallet kinds, spending limits and the
    registry of wallets.  A 20-byte array of the source is an [Address]; the
    system clock is an argument. *)

From S2P Require Import Prelude Types.

Record SpendingLimits := MkLimits {
  daily_limit : u128;
  weekly_limit : u128;
  monthly_limit : u128;
  per_address_limits : list (Address * u128);
  current_period_spending : u128;
  last_reset : u64 }.

Inductive WalletType :=
  | WtBasic
  | WtMultiSig (signers : list Address) (threshold : u8)
  | WtSocialRecovery (guardians : list Address) (recovery_threshold : u8)
  | WtSpendingLimit (limits : SpendingLimits)
  | WtCombined (signers : list Address) (threshold : u8) (guardians : list Address)
      (recovery_threshold : u8) (limits : SpendingLimits).

Inductive AuthMethod :=
  | SingleSignature
  | MultiSignature (signers : list Address) (threshold : u8)
  | AuthSocialRecovery (guardians : list Address) (threshold : u8)
  | AuthCustom (name : string).

Record RecoveryRequest := MkRecoveryRequest {
  new_owner : Address; initiator : Address; initiated_at : u64;
  approvals : list (Address * u64); completed : bool }.

Record RecoveryConfig := MkRecoveryConfig {
  rc_guardians : list Address; rc_threshold : u8; time_delay : u64;
  pending_recoveries : list RecoveryRequest }.

Record WalletConfig := MkWalletConfig {
  auth_method : AuthMethod;
  spending_limits : option SpendingLimits;
  recovery_config : option RecoveryConfig }.

Record SmartContractWallet := MkWallet {
  w_address : Address;
  owner : Address;
  wallet_type : WalletType;
  config : WalletConfig;
  w_created_at : u64;
  w_nonce : u64 }.

Definition new_basic (now : u64) (address owner : Address) : SmartContractWallet :=
  MkWallet address owner WtBasic (MkWalletConfig SingleSignature None None) now 0.

(** [threshold == 0 || threshold > list.len() as u8], then the length tests. *)
Definition check_group (what_threshold what_empty what_max : string) (members : list Address)
    (threshold : u8) : result string unit :=
  _ ← ensure (negb ((threshold =? 0) || (as_u8 (Z.of_nat (length members)) <? threshold))) what_threshold;
  _ ← ensure (negb (bool_decide (members = []))) what_empty;
  ensure (Z.of_nat (length members) <=? 20) what_max.

Definition new_multisig (now : u64) (address owner : Address) (signers : list Address) (threshold : u8) :
    result string SmartContractWallet :=
  _ ← check_group "Invalid threshold" "Signers list cannot be empty" "Maximum 20 signers allowed"
        signers threshold;
  Ok (MkWallet address owner (WtMultiSig signers threshold)
        (MkWalletConfig (MultiSignature signers threshold) None None) now 0).

Definition new_social_recovery (now : u64) (address owner : Address) (guardians : list Address)
    (recovery_threshold : u8) (delay : u64) : result string SmartContractWallet :=
  _ ← check_group "Invalid recovery threshold" "Guardians list cannot be empty"
        "Maximum 20 guardians allowed" guardians recovery_threshold;
  Ok (MkWallet address owner (WtSocialRecovery guardians recovery_threshold)
        (MkWalletConfig SingleSignature None
           (Some (MkRecoveryConfig guardians recovery_threshold delay []))) now 0).

Definition is_multisig (w : SmartContractWallet) : bool :=
  match wallet_type w with WtMultiSig _ _ | WtCombined _ _ _ _ _ => true | _ => false end.
Definition has_social_recovery (w : SmartContractWallet) : bool :=
  match wallet_type w with WtSocialRecovery _ _ | WtCombined _ _ _ _ _ => true | _ => false end.
Definition has_spending_limits (w : SmartContractWallet) : bool :=
  match wallet_type w with WtSpendingLimit _ | WtCombined _ _ _ _ _ => true | _ => false end
  || bool_decide (is_Some (spending_limits (config w))).

Definition increment_nonce (w : SmartContractWallet) : SmartContractWallet :=
  MkWallet (w_address w) (owner w) (wallet_type w) (config w) (w_created_at w) (add64 (w_nonce w) 1).

(** ** Spending limits *)

Definition limits_new (now : u64) (daily weekly monthly : u128) : SpendingLimits :=
  MkLimits daily weekly monthly [] 0 now.

Definition set_period (spent : u128) (reset : u64) (l : SpendingLimits) : SpendingLimits :=
  MkLimits (daily_limit l) (weekly_limit l) (monthly_limit l) (per_address_limits l) spent reset.

Definition check_limit (now : u64) (l : SpendingLimits) (amount : u128) :
    SpendingLimits * result string unit :=
  let l := if 1 <=? sub64 now (last_reset l) / 86400 then set_period 0 now l else l in
  let total := add128 (current_period_spending l) amount in
  (l,
   _ ← ensure (total <=? daily_limit l) "Daily spending limit exceeded";
   _ ← ensure (total <=? weekly_limit l) "Weekly spending limit exceeded";
   ensure (total <=? monthly_limit l) "Monthly spending limit exceeded").

Definition record_spending (l : SpendingLimits) (amount : u128) : SpendingLimits :=
  set_period (add128 (current_period_spending l) amount) (last_reset l) l.

Definition check_and_record_spending (now : u64) (l : SpendingLimits) (amount : u128) :
    SpendingLimits * result string unit :=
  match check_limit now l amount with
  | (l', Ok _) => (record_spending l' amount, Ok tt)
  | (l', Err e) => (l', Err e)
  end.

(** ** Registry *)

Record WalletRegistry := MkRegistry {
  wallets : gmap Address SmartContractWallet;
  owner_wallets : gmap Address (list Address) }.

Definition registry_new : WalletRegistry := MkRegistry ∅ ∅.

Definition register_wallet (r : WalletRegistry) (w : SmartContractWallet) :
    WalletRegistry * result string unit :=
  match wallets r !! w_address w with
  | Some _ => (r, Err "Wallet address already registered")
  | None =>
      (MkRegistry (<[w_address w := w]> (wallets r))
         (<[owner w := default [] (owner_wallets r !! owner w) ++ [w_address w]]> (owner_wallets r)),
       Ok tt)
  end.

Definition get_wallet (r : WalletRegistry) (a : Address) : option SmartContractWallet := wallets r !! a.
Definition is_contract_wallet (r : WalletRegistry) (a : Address) : bool :=
  bool_decide (is_Some (wallets r !! a)).
Definition get_owner_wallets (r : WalletRegistry) (o : Address) : list SmartContractWallet :=
  omap (λ a, wallets r !! a) (default [] (owner_wallets r !! o)).

(** [get_wallet_mut] followed by an update in place. *)
Definition update_wallet (r : WalletRegistry) (a : Address)
    (f : SmartContractWallet → SmartContractWallet) : WalletRegistry :=
  match wallets r !! a with
  | Some w => MkRegistry (<[a := f w]> (wallets r)) (owner_wallets r)
  | None => r
  end.

Definition update_wallet_nonce (r : WalletRegistry) (a : Address) : WalletRegistry * result string unit :=
  match wallets r !! a with
  | Some _ => (update_wallet r a increment_nonce, Ok tt)
  | None => (r, Err "Wallet not found")
  end.

(** ** Construction *)

Lemma check_group_Ok e1 e2 e3 members threshold u :
  0 <= threshold → check_group e1 e2 e3 members threshold = Ok u ↔
  1 <= threshold <= Z.of_nat (length members) ∧ Z.of_nat (length members) <= 20.
Proof.
  intros Ht. unfold check_group, as_u8. destruct u. split.
  - intros H. case_ok. bool_to_prop. rewrite Z.mod_small in * by lia. lia.
  - intros [[H1 H2] H3]. rewrite Z.mod_small by lia.
    rewrite (proj2 (Z.eqb_neq threshold 0)), (proj2 (Z.ltb_ge _ _)) by lia. cbn.
    rewrite bool_decide_eq_false_2 by (intros ->; cbn in H2; lia). cbn.
    by rewrite (proj2 (Z.leb_le _ _)).
Qed.

(** Multi-signature and recovery wallets are created exactly when the
    threshold is between 1 and the number of members and there are at most 20
    of them; the narrowing of the length to a byte admits nothing else. *)
Theorem group_wallet_thresholds now a o members threshold delay :
  0 <= threshold →
  is_ok (new_multisig now a o members threshold)
  = bool_decide (1 <= threshold <= Z.of_nat (length members) ∧ Z.of_nat (length members) <= 20) ∧
  is_ok (new_social_recovery now a o members threshold delay)
  = bool_decide (1 <= threshold <= Z.of_nat (length members) ∧ Z.of_nat (length members) <= 20).
Proof.
  intros Ht. unfold new_multisig, new_social_recovery.
  split; (case_bool_decide as Hc;
    [rewrite (proj2 (check_group_Ok _ _ _ members threshold tt Ht) Hc); done
    |destruct (check_group _ _ _ members threshold) as [u|] eqn:Hg; [|done];
     by apply check_group_Ok in Hg]).
Qed.

(** ** Limits *)

(** The amounts accepted by [check_and_record_spending] at the given times,
    grouped by period, the last group being the open one. *)
Fixpoint spent_periods (l : SpendingLimits) (open : list u128) (reqs : list (u64 * u128)) :
    list (list u128) :=
  match reqs with
  | [] => [open]
  | (now, amount) :: reqs' =>
      let fresh := 1 <=? sub64 now (last_reset l) / 86400 in
      let closed := if fresh then [open] else [] in
      let open := if fresh then [] else open in
      match check_and_record_spending now l amount with
      | (l', Ok _) => closed ++ spent_periods l' (open ++ [amount]) reqs'
      | (l', Err _) => closed ++ spent_periods l' open reqs'
      end
  end.

Definition total (l : list u128) : Z := foldr Z.add 0 l.

Lemma total_app l k : total (l ++ k) = total l + total k.
Proof. unfold total. induction l; cbn; lia. Qed.

(** The smallest of the three limits. *)
Definition effective_limit (l : SpendingLimits) : Z :=
  Z.min (daily_limit l) (Z.min (weekly_limit l) (monthly_limit l)).

Lemma check_limit_shape now l amount :
  effective_limit (check_limit now l amount).1 = effective_limit l.
Proof. unfold check_limit. by destruct (_ <=? _). Qed.

Lemma check_limit_Ok now l amount l' u :
  check_limit now l amount = (l', Ok u) →
  add128 (current_period_spending l') amount <= effective_limit l'.
Proof.
  unfold check_limit, effective_limit. intros H. injection H as <- H.
  case_ok. bool_to_prop. lia.
Qed.

(** Checked and recorded together, spending stays within the limits: in
    every period the accepted amounts add up to at most the smallest of the
    daily, weekly and monthly limits. *)
Theorem spending_within_limit reqs l open :
  effective_limit l < u128_max / 2 → Forall (λ r, 0 <= r.2 <= u128_max / 2) reqs →
  total open = current_period_spending l → 0 <= current_period_spending l <= effective_limit l →
  Forall (λ p, total p <= effective_limit l) (spent_periods l open reqs).
Proof.
  intros Hlim Hreqs. revert l open Hlim.
  induction Hreqs as [|[now amount] reqs Hr _ IH]; intros l open Hlim Hopen Hle.
  { cbn. constructor; [lia|constructor]. }
  cbn [spent_periods]. set (fresh := 1 <=? _).
  assert (Forall (λ p, total p <= effective_limit l) (if fresh then [open] else [])) as Hclosed
    by (destruct fresh; repeat constructor; lia).
  pose proof (check_limit_shape now l amount) as Hshape.
  assert (current_period_spending (check_limit now l amount).1
          = total (if fresh then [] else open)) as Hspent
    by (unfold check_limit; fold fresh; destruct fresh; cbn; [done|lia]).
  assert (0 <= total (if fresh then [] else open) <= effective_limit l) as Hrange
    by (destruct fresh; unfold total in *; cbn [foldr]; lia).
  unfold check_and_record_spending.
  destruct (check_limit now l amount) as [l1 [u|e]] eqn:Hc; cbn in Hshape, Hspent;
    apply Forall_app; (split; [done|]).
  - apply check_limit_Ok in Hc. cbn in Hr.
    assert (u128_max / 2 + u128_max / 2 <= u128_max) by (vm_compute; discriminate).
    assert (add128 (current_period_spending l1) amount = current_period_spending l1 + amount) as Hadd
      by (apply add128_small; lia).
    assert (effective_limit (record_spending l1 amount) = effective_limit l) as Hrec by done.
    rewrite <- Hrec. apply IH; [lia| |]; cbn; rewrite ?Hadd, ?total_app; cbn; lia.
  - rewrite <- Hshape. apply IH; lia.
Qed.

(** The way the chain uses the limits of a wallet: the test runs on a clone,
    the spend is recorded on the original. *)
Definition chain_spend (now : u64) (l : SpendingLimits) (amount : u128) : SpendingLimits * bool :=
  match check_limit now l amount with
  | (_, Ok _) => (record_spending l amount, true)
  | (_, Err _) => (l, false)
  end.

Definition chain_step (s : SpendingLimits * list bool) (r : u64 * u128) : SpendingLimits * list bool :=
  ((chain_spend r.1 s.1 r.2).1, s.2 ++ [(chain_spend r.1 s.1 r.2).2]).
Definition chain_spends (l : SpendingLimits) (reqs : list (u64 * u128)) : SpendingLimits * list bool :=
  foldl chain_step (l, []) reqs.

Lemma chain_spend_reset now l amount : last_reset (chain_spend now l amount).1 = last_reset l.
Proof. unfold chain_spend. by destruct (check_limit now l amount) as [? []]. Qed.

Lemma chain_spend_limit now l amount :
  effective_limit (chain_spend now l amount).1 = effective_limit l.
Proof. unfold chain_spend. by destruct (check_limit now l amount) as [? []]. Qed.

Lemma chain_spend_stale now l amount :
  last_reset l + 86400 <= now <= u64_max → 0 <= last_reset l →
  0 <= amount <= effective_limit l → effective_limit l <= u128_max →
  (chain_spend now l amount).2 = true.
Proof.
  intros Hnow Hpos Ha Hlim. unfold chain_spend, check_limit.
  assert (1 <= sub64 now (last_reset l) / 86400) as Hd
    by (rewrite sub64_small by mlia; apply Z.div_le_lower_bound; lia).
  rewrite (proj2 (Z.leb_le _ _) Hd). unfold set_period. cbn [current_period_spending daily_limit weekly_limit monthly_limit].
  unfold effective_limit in *. rewrite add128_small by lia.
  rewrite !(proj2 (Z.leb_le _ _)) by lia. done.
Qed.

(** The chain stops enforcing a daily limit a day after the limits were set
    up.  The reset happens on the clone only, so from then on every check
    starts from zero: any sequence of payments, each within the limit, is
    accepted, whatever their sum. *)
Theorem chain_limit_lapses reqs l :
  0 <= last_reset l → 0 <= effective_limit l <= u128_max →
  Forall (λ r, last_reset l + 86400 <= r.1 <= u64_max ∧ 0 <= r.2 <= effective_limit l) reqs →
  (chain_spends l reqs).2 = replicate (length reqs) true.
Proof.
  intros Hpos Hlim Hreqs. unfold chain_spends.
  assert (∀ acc, (foldl chain_step (l, acc) reqs).2 = acc ++ replicate (length reqs) true) as H;
    [|apply (H [])].
  revert l Hpos Hlim Hreqs. induction reqs as [|[now amount] reqs IH]; intros l Hpos Hlim Hreqs acc.
  { cbn. by rewrite app_nil_r. }
  apply Forall_cons in Hreqs as [[Hn Ha] Hreqs]. cbn [fst snd] in Hn, Ha.
  cbn [foldl]. unfold chain_step at 2. cbn [fst snd].
  rewrite (chain_spend_stale now l amount Hn Hpos Ha (proj2 Hlim)).
  rewrite IH; rewrite ?chain_spend_reset, ?chain_spend_limit; try done. by rewrite <- app_assoc.
Qed.

(** ** The registry *)

Record registry_ok (r : WalletRegistry) : Prop := {
  reg_keyed : ∀ a w, wallets r !! a = Some w → w_address w = a;
  reg_owned : ∀ o a, a ∈ default [] (owner_wallets r !! o) ↔ ∃ w, wallets r !! a = Some w ∧ owner w = o;
  reg_nodup : ∀ o, NoDup (default [] (owner_wallets r !! o)) }.

Lemma registry_new_ok : registry_ok registry_new.
Proof.
  split; cbn; [done| |intros; rewrite lookup_empty; constructor].
  intros o a. rewrite lookup_empty, elem_of_nil. split; [done|]. intros (w & Hw & _).
  by rewrite lookup_empty in Hw.
Qed.

Lemma register_wallet_ok r w r' :
  registry_ok r → register_wallet r w = (r', Ok tt) → registry_ok r'.
Proof.
  intros [Hk Ho Hn]. unfold register_wallet. destruct (wallets r !! w_address w) as [?|] eqn:Hw; [done|].
  intros H. injection H as <-. split; cbn.
  - intros a w'. rewrite lookup_insert_Some. intros [[<- <-]|[_ H]]; [done|by apply Hk].
  - intros o a. destruct (decide (o = owner w)) as [->|Hne].
    + rewrite lookup_insert_eq. cbn. rewrite elem_of_app, list_elem_of_singleton, Ho. split.
      * intros [(w' & Hw' & Ho')| ->]; [|exists w; by rewrite lookup_insert_eq].
        exists w'. rewrite lookup_insert_ne by congruence. done.
      * intros (w' & Hw' & Ho'); apply lookup_insert_Some in Hw' as [[<- <-]|[Hne Hw']]; [by right|]. left. eauto.
    + rewrite lookup_insert_ne by done. rewrite Ho. split.
      * intros (w' & Hw' & Ho'). exists w'. rewrite lookup_insert_ne by congruence. done.
      * intros (w' & Hw' & Ho'); apply lookup_insert_Some in Hw' as [[<- <-]|[_ Hw']]; [congruence|]. eauto.
  - intros o. destruct (decide (o = owner w)) as [->|Hne].
    + rewrite lookup_insert_eq. cbn. apply NoDup_app. split_and!; [done| |apply NoDup_singleton].
      intros a Ha ->%list_elem_of_singleton. apply Ho in Ha as (w' & Hw' & _). congruence.
    + by rewrite lookup_insert_ne.
Qed.

Lemma update_wallet_ok r a f :
  (∀ w, w_address (f w) = w_address w ∧ owner (f w) = owner w) →
  registry_ok r → registry_ok (update_wallet r a f).
Proof.
  intros Hf [Hk Ho Hn]. unfold update_wallet. destruct (wallets r !! a) as [w|] eqn:Hw; [|by split].
  split; cbn; [| |done].
  - intros b w'. rewrite lookup_insert_Some. intros [[<- <-]|[_ H]]; [|by apply Hk].
    rewrite (proj1 (Hf w)). by apply Hk.
  - intros o b. rewrite Ho. split.
    + intros (w' & Hw' & Ho'). destruct (decide (b = a)) as [->|Hne].
      * exists (f w). rewrite lookup_insert_eq, (proj2 (Hf w)). split; congruence.
      * exists w'. by rewrite lookup_insert_ne.
    + intros (w' & Hw' & Ho'); apply lookup_insert_Some in Hw' as [[<- <-]|[_ Hw']]; [|eauto].
      exists w. rewrite <- (proj2 (Hf w)). done.
Qed.

(** The registry and its owner index agree: registering a wallet succeeds
    exactly for a fresh address, keeps the index exact and duplicate free,
    and then the wallets listed for an owner are exactly those it owns. *)
Theorem wallet_registry_index r w :
  registry_ok r →
  is_ok (register_wallet r w).2 = negb (is_contract_wallet r (w_address w)) ∧
  registry_ok (register_wallet r w).1 ∧
  (∀ o v, v ∈ get_owner_wallets (register_wallet r w).1 o ↔
     owner v = o ∧ get_wallet (register_wallet r w).1 (w_address v) = Some v).
Proof.
  intros Hok. assert (registry_ok (register_wallet r w).1) as Hok'.
  { pose proof (register_wallet_ok r w) as H. unfold register_wallet in *.
    destruct (wallets r !! w_address w); [done|]. by eapply H. }
  split; [|split; [done|]].
  - unfold register_wallet, is_contract_wallet. by destruct (wallets r !! w_address w).
  - intros o v. destruct Hok' as [Hk Ho Hn]. unfold get_owner_wallets, get_wallet.
    rewrite list_elem_of_omap. split.
    + intros (a & Ha & Hv). apply Ho in Ha as (w' & Hw' & How).
      rewrite Hw' in Hv. injection Hv as ->. split; [done|]. by rewrite (Hk a v Hw').
    + intros [How Hv]. exists (w_address v). split; [|done]. apply Ho. eauto.
Qed.

(** ** Executable examples *)

Module WalletReference.
Definition addr (k : Z) : Address := MkAddress (replicate 20 k).

Lemma group_wallet_thresholds_witness :
  is_ok (new_multisig 0 (addr 1) (addr 2) [addr 3; addr 4] 2) = true.
Proof.
  exact (proj1 (group_wallet_thresholds 0 (addr 1) (addr 2) [addr 3; addr 4] 2 0 ltac:(lia))).
Defined.

Definition limits : SpendingLimits := limits_new 1000 100 150 400.
Definition reqs : list (u64 * u128) := [(2000, 100); (2000, 1); (90000, 60); (90001, 60)].

Lemma spending_within_limit_witness :
  spent_periods limits [] reqs = [[100]; [60]] ∧
  Forall (λ p, total p <= 100) (spent_periods limits [] reqs).
Proof.
  assert (spent_periods limits [] reqs = [[100]; [60]]) as He by (vm_compute; reflexivity).
  split; [exact He|].
  exact (spending_within_limit reqs limits [] ltac:(vm_compute; reflexivity)
    ltac:(repeat constructor; vm_compute; discriminate) eq_refl
    ltac:(split; vm_compute; discriminate)).
Defined.

Lemma chain_limit_lapses_witness :
  (chain_spends limits [(90000, 100); (90000, 100); (90001, 100)]).2 = [true; true; true].
Proof.
  exact (chain_limit_lapses [(90000, 100); (90000, 100); (90001, 100)] limits
    ltac:(vm_compute; discriminate) ltac:(split; vm_compute; discriminate)
    ltac:(repeat constructor; vm_compute; discriminate)).
Defined.

Definition w1 : SmartContractWallet := new_basic 0 (addr 1) (addr 9).

Lemma wallet_registry_index_witness :
  is_ok (register_wallet registry_new w1).2 = negb (is_contract_wallet registry_new (w_address w1)).
Proof. exact (proj1 (wallet_registry_index registry_new w1 registry_new_ok)). Defined.
End WalletReference.
