(* ===== verification/Verkle.v ===== *)
(** * Verkle: the wide state tree

    Models [irondag-blockchain/src/verkle/tree.rs] without the [privacy]
    feature: the 256-way tree with its Keccak commitments, and the state
    manager that keeps a balance and a nonce per address in it.  A key is
    consumed byte by byte; [rest] is what is left of it at a node. *)

From S2P Require Import Prelude Types.

Inductive VerkleNode :=
  MkNode (width : nat) (children : list (option VerkleNode)) (values : list (option (list u8)))
    (commitment : option Hash).

Definition width (n : VerkleNode) : nat := let 'MkNode w _ _ _ := n in w.
Definition children (n : VerkleNode) : list (option VerkleNode) := let 'MkNode _ c _ _ := n in c.
Definition values (n : VerkleNode) : list (option (list u8)) := let 'MkNode _ _ v _ := n in v.
Definition commitment (n : VerkleNode) : option Hash := let 'MkNode _ _ _ h := n in h.

Definition node_new (w : nat) : VerkleNode := MkNode w (replicate w None) (replicate w None) None.

Definition key_index (w : nat) (b : u8) : nat := (Z.to_nat b mod w)%nat.
(** The slot of a value in its leaf: the first byte of the key. *)
Definition leaf_index (w : nat) (key : list u8) : nat :=
  match key with [] => 0%nat | b :: _ => key_index w b end.

Section Node.
Context `{Keccak}.

Definition child_bytes (o : option VerkleNode) : list u8 :=
  match o with
  | Some c => match commitment c with Some h => hash_bytes h | None => replicate 32 0 end
  | None => replicate 32 0
  end.
Definition value_bytes (o : option (list u8)) : list u8 := default (replicate 32 0) o.

Definition node_preimage (n : VerkleNode) : list u8 :=
  concat (child_bytes <$> children n) ++ concat (value_bytes <$> values n).

Definition update_commitment (n : VerkleNode) : VerkleNode :=
  MkNode (width n) (children n) (values n) (Some (keccak256 (node_preimage n))).

Fixpoint node_insert (key rest : list u8) (value : list u8) (n : VerkleNode) : VerkleNode :=
  update_commitment
    match rest with
    | [] =>
        MkNode (width n) (children n) (<[leaf_index (width n) key := Some value]> (values n)) (commitment n)
    | b :: rest' =>
        let index := key_index (width n) b in
        let child := match children n !! index with
                     | Some (Some c) => c
                     | _ => node_new (width n)
                     end in
        MkNode (width n) (<[index := Some (node_insert key rest' value child)]> (children n)) (values n)
          (commitment n)
    end.

Fixpoint node_get (key rest : list u8) (n : VerkleNode) : option (list u8) :=
  match rest with
  | [] => match values n !! leaf_index (width n) key with Some o => o | None => None end
  | b :: rest' =>
      match children n !! key_index (width n) b with
      | Some (Some c) => node_get key rest' c
      | _ => None
      end
  end.

(** The siblings along the path of a key. *)
Fixpoint node_get_proof (key rest : list u8) (n : VerkleNode) : list Hash :=
  match rest with
  | [] =>
      omap (λ iv : nat * option (list u8),
              if (iv.1 =? leaf_index (width n) key)%nat then None else keccak256 <$> iv.2)
        (zip (seq 0 (length (values n))) (values n))
  | b :: rest' =>
      let index := key_index (width n) b in
      omap (λ ic : nat * option VerkleNode,
              if (ic.1 =? index)%nat then None else c ← ic.2; commitment c)
        (zip (seq 0 (length (children n))) (children n))
      ++ match children n !! index with
         | Some (Some c) => node_get_proof key rest' c
         | _ => []
         end
  end.

(** ** Tree *)

Record VerkleTree := MkVerkleTree { root : VerkleNode; vt_size : usize }.

Definition tree_new : VerkleTree := MkVerkleTree (node_new 256) 0.
Definition tree_insert (t : VerkleTree) (key value : list u8) : VerkleTree :=
  MkVerkleTree (node_insert key key value (root t)) (add64 (vt_size t) 1).
Definition tree_get (t : VerkleTree) (key : list u8) : option (list u8) := node_get key key (root t).
Definition tree_get_proof (t : VerkleTree) (key : list u8) : list Hash := node_get_proof key key (root t).
Definition root_hash (t : VerkleTree) : option Hash := commitment (root t).

(** ** State manager *)

Record VerkleState := MkVerkleState { tree : VerkleTree; cache : gmap Address (u128 * u64) }.

Definition vs_new : VerkleState := MkVerkleState tree_new ∅.

Definition account_value (balance : u128) (nonce : u64) : list u8 :=
  to_le_bytes 16 balance ++ to_le_bytes 8 nonce.

Definition vs_set_balance (s : VerkleState) (a : Address) (balance : u128) : VerkleState :=
  let nonce := match cache s !! a with Some (_, n) => n | None => 0 end in
  MkVerkleState (tree_insert (tree s) (addr_bytes a) (account_value balance nonce))
    (<[a := (balance, (default (0, 0) (cache s !! a)).2)]> (cache s)).

Definition vs_set_nonce (s : VerkleState) (a : Address) (nonce : u64) : VerkleState :=
  let balance := match cache s !! a with Some (b, _) => b | None => 0 end in
  MkVerkleState (tree_insert (tree s) (addr_bytes a) (account_value balance nonce))
    (<[a := ((default (0, 0) (cache s !! a)).1, nonce)]> (cache s)).

Definition vs_get_balance (s : VerkleState) (a : Address) : u128 :=
  match cache s !! a with
  | Some (b, _) => b
  | None =>
      match tree_get (tree s) (addr_bytes a) with
      | Some v => if (16 <=? length v)%nat then from_le_bytes (take 16 v) else 0
      | None => 0
      end
  end.

Definition vs_get_nonce (s : VerkleState) (a : Address) : u64 :=
  match cache s !! a with
  | Some (_, n) => n
  | None =>
      match tree_get (tree s) (addr_bytes a) with
      | Some v => if (24 <=? length v)%nat then from_le_bytes (take 8 (drop 16 v)) else 0
      | None => 0
      end
  end.

Definition vs_get_balance_with_proof (s : VerkleState) (a : Address) : u128 * list Hash * Hash :=
  (vs_get_balance s a, tree_get_proof (tree s) (addr_bytes a), default hash_zero (root_hash (tree s))).
Definition vs_get_nonce_with_proof (s : VerkleState) (a : Address) : u64 * list Hash * Hash :=
  (vs_get_nonce s a, tree_get_proof (tree s) (addr_bytes a), default hash_zero (root_hash (tree s))).
Definition vs_state_root (s : VerkleState) : Hash := default hash_zero (root_hash (tree s)).
Definition vs_get_all_accounts (s : VerkleState) : gmap Address (u128 * u64) := cache s.
End Node.

(** ** Lookup after insertion *)

(** Every node down to depth [d] has 256 slots. *)
Fixpoint sized (d : nat) (n : VerkleNode) : Prop :=
  width n = 256%nat ∧ length (children n) = 256%nat ∧ length (values n) = 256%nat ∧
  match d with
  | O => True
  | S d' => ∀ i c, children n !! i = Some (Some c) → sized d' c
  end.

Lemma sized_new d : sized d (node_new 256).
Proof.
  destruct d; cbn [sized]; unfold node_new; cbn [width children values];
    rewrite !length_replicate; split_and!; try done.
  intros i c Hc. apply lookup_replicate_1 in Hc as [Hc _]. done.
Qed.

Lemma key_index_lt b : (key_index 256 b < 256)%nat.
Proof. apply Nat.mod_upper_bound. lia. Qed.
Lemma leaf_index_lt key : (leaf_index 256 key < 256)%nat.
Proof. destruct key; cbn; [lia|apply key_index_lt]. Qed.
Lemma key_index_inj b c : 0 <= b < 256 → 0 <= c < 256 → key_index 256 b = key_index 256 c → b = c.
Proof. intros Hb Hc. unfold key_index. rewrite !Nat.mod_small by lia. lia. Qed.

Section Lookup.
Context `{Keccak}.

Lemma node_get_new key rest w : node_get key rest (node_new w) = None.
Proof.
  destruct rest; cbn; [destruct (replicate w None !! _) as [o|] eqn:Ho|
    destruct (replicate w None !! _) as [o|] eqn:Ho]; try done;
    apply lookup_replicate_1 in Ho as [-> _]; done.
Qed.

Lemma child_sized n d b :
  sized (S d) n →
  sized d (match children n !! key_index (width n) b with Some (Some c) => c | _ => node_new (width n) end).
Proof.
  intros (Hw & Hc & Hv & Hch).
  destruct (children n !! key_index (width n) b) as [[c|]|] eqn:Hl; [by eapply Hch|..];
    rewrite Hw; apply sized_new.
Qed.

Lemma node_insert_sized key rest v n : sized (length rest) n → sized (length rest) (node_insert key rest v n).
Proof.
  revert n. induction rest as [|b rest IH]; intros n Hn; cbn [node_insert length].
  - destruct Hn as (Hw & Hc & Hv & _). cbn. by rewrite length_insert.
  - pose proof (child_sized n (length rest) b Hn) as Hchild. destruct Hn as (Hw & Hc & Hv & Hch).
    cbn [sized update_commitment width children values]. rewrite length_insert. split_and!; try done.
    intros i c [(<- & [= <-] & _)|[Hne Hi]]%list_lookup_insert_Some; [|by eapply Hch].
    apply IH. exact Hchild.
Qed.

(** Two keys of the same length under a common prefix. *)
Lemma node_get_insert p rest rest' v n :
  sized (length rest) n → length rest' = length rest → bytes_ok rest → bytes_ok rest' →
  node_get (p ++ rest') rest' (node_insert (p ++ rest) rest v n)
  = if decide (rest' = rest) then Some v else node_get (p ++ rest') rest' n.
Proof.
  revert p rest' n. induction rest as [|b rest IH]; intros p [|b' rest'] n Hn Hlen Hok Hok'; try done.
  - cbn. destruct Hn as (Hw & Hc & Hv & _).
    by rewrite Hw, list_lookup_insert_eq by (rewrite Hv; apply leaf_index_lt).
  - apply Forall_cons in Hok as [Hb Hok], Hok' as [Hb' Hok']. injection Hlen as Hlen.
    pose proof (child_sized n (length rest) b Hn) as Hchild.
    pose proof Hn as (Hw & Hc & Hv & Hch).
    cbn [node_insert node_get update_commitment width children values].
    destruct (decide (b' = b)) as [->|Hne].
    + rewrite list_lookup_insert_eq by (rewrite Hc, Hw; apply key_index_lt).
      specialize (IH (p ++ [b]) rest' _ Hchild Hlen Hok Hok').
      rewrite <- !app_assoc in IH. cbn [app] in IH. rewrite IH.
      destruct (decide (rest' = rest)) as [->|Hr]; [by rewrite decide_True|].
      rewrite decide_False by congruence.
      destruct (children n !! key_index (width n) b) as [[c|]|]; [done|by rewrite node_get_new..].
    + rewrite decide_False by congruence.
      rewrite list_lookup_insert_ne; [done|]. rewrite Hw. intros Hi.
      by apply Hne, key_index_inj.
Qed.

(** The tree is a map on keys of one length: after an insertion the key
    reads the new value, every other key of the same length reads what it
    read before, and the tree stays well formed. *)
Theorem verkle_get_insert t k k' v :
  sized (length k) (root t) → length k' = length k → bytes_ok k → bytes_ok k' →
  tree_get (tree_insert t k v) k' = (if decide (k' = k) then Some v else tree_get t k') ∧
  sized (length k) (root (tree_insert t k v)).
Proof.
  intros Hs Hl Hk Hk'. split; [|by apply node_insert_sized].
  apply (node_get_insert [] k k' v (root t)); done.
Qed.
End Lookup.

(** ** Commitments *)

Section Binding.
Context `{Keccak}.

(** What is hashed on the path of a key, from the root down. *)
Fixpoint path_inputs (rest : list u8) (n : VerkleNode) : list (list u8) :=
  node_preimage n ::
  match rest with
  | [] => []
  | b :: rest' =>
      match children n !! key_index (width n) b with
      | Some (Some c) => path_inputs rest' c
      | _ => []
      end
  end.

(** The digests of these inputs tell them apart, and none is the digest that
    stands for an empty slot. *)
Record hashes_apart (inputs : list (list u8)) : Prop := {
  ha_distinct : digests_distinct inputs;
  ha_nonzero : ∀ x, x ∈ inputs → keccak_digest x ≠ replicate 32 0 }.
Lemma hashes_apart_incl l k : l ⊆ k → hashes_apart k → hashes_apart l.
Proof. intros Hi [Hd Hz]. split; [by eapply digests_distinct_incl|]. intros x Hx. by apply Hz, Hi. Qed.

Definition sealed (n : VerkleNode) : Prop := commitment n = Some (keccak256 (node_preimage n)).

(** The nodes of a tree of accounts: 24-byte values, in the leaves only,
    each in the slot of the first key byte; every child sealed. *)
Fixpoint account_shape (slot : option nat) (d : nat) (n : VerkleNode) : Prop :=
  width n = 256%nat ∧ length (children n) = 256%nat ∧ length (values n) = 256%nat ∧
  match d with
  | O => (∀ i o, children n !! i = Some o → o = None) ∧
         (∀ i v, values n !! i = Some (Some v) → i = default 0%nat slot ∧ length v = 24%nat)
  | S d' => (∀ i o, values n !! i = Some o → o = None) ∧
            ∀ i c, children n !! i = Some (Some c) →
              sealed c ∧ account_shape (Some (default i slot)) d' c
  end.

Lemma account_shape_sized slot d n : account_shape slot d n → sized d n.
Proof.
  revert slot n. induction d as [|d IH]; intros slot n; cbn; [tauto|].
  intros (Hw & Hc & Hv & _ & Hch). split_and!; try done. intros i c Hi.
  destruct (Hch i c Hi) as [_ Hs]. by eapply IH.
Qed.

Lemma account_shape_new slot d : account_shape slot d (node_new 256).
Proof.
  destruct d; cbn [account_shape]; unfold node_new; cbn [width children values];
    rewrite !length_replicate; split_and!; try done;
    intros i o Ho; apply lookup_replicate_1 in Ho as [Ho _]; done.
Qed.

Lemma sealed_insert key rest v n : sealed (node_insert key rest v n).
Proof. destruct rest; reflexivity. Qed.

(** The slot of a node on the path of a key. *)
Definition on_path (slot : option nat) (key rest : list u8) : Prop :=
  match slot with Some s => leaf_index 256 key = s | None => rest = key end.

Lemma on_path_child slot key b rest :
  on_path slot key (b :: rest) → leaf_index 256 key = default (key_index 256 b) slot.
Proof. destruct slot; cbn; [done|]. by intros <-. Qed.

Lemma account_shape_insert slot key rest v n :
  on_path slot key rest → length v = 24%nat → account_shape slot (length rest) n →
  account_shape slot (length rest) (node_insert key rest v n).
Proof.
  intros Hpath Hv. revert slot n Hpath.
  induction rest as [|b rest IH]; intros slot n Hpath (Hw & Hc & Hvl & Hrest);
    cbn [node_insert length account_shape update_commitment width children values];
    rewrite length_insert; split_and!; try done.
  - destruct Hrest as [Hch _]. done.
  - destruct Hrest as [_ Hval]. intros i w [(<- & [= <-] & _)|[Hne Hi]]%list_lookup_insert_Some;
      [|by apply Hval]. split; [|done]. rewrite Hw. destruct slot; cbn in *; [done|by subst].
  - destruct Hrest as [Hval _]. done.
  - destruct Hrest as [_ Hch].
    intros i c [(<- & [= <-] & _)|[Hne Hi]]%list_lookup_insert_Some; [|by apply Hch].
    split; [apply sealed_insert|]. apply IH; [cbn; rewrite Hw; by apply (on_path_child _ _ _ rest)|].
    destruct (children n !! key_index (width n) b) as [[c|]|] eqn:Hl; [by apply Hch|..];
      rewrite Hw; apply account_shape_new.
Qed.

Lemma concat_chunks_inj (m : nat) (l k : list (list u8)) :
  Forall (λ c, length c = m) l → Forall (λ c, length c = m) k → length l = length k →
  concat l = concat k → l = k.
Proof.
  intros Hl. revert k. induction Hl as [|c l Hc Hl IH]; intros [|c' k] Hk Hlen Heq; try done.
  apply Forall_cons in Hk as [Hc' Hk]. cbn in Heq. apply app_inj_1 in Heq as [-> Heq]; [|congruence].
  f_equal. apply IH; [done|by injection Hlen|done].
Qed.

Lemma digest_length x : length (keccak_digest x) = 32%nat.
Proof. apply (bytes_wf_ok 32), keccak_digest_wf. Qed.

Lemma child_bytes_length slot d n :
  account_shape slot d n → Forall (λ c, length c = 32%nat) (child_bytes <$> children n).
Proof.
  intros Hs. apply Forall_fmap, Forall_lookup. intros i o Ho. unfold compose, child_bytes.
  destruct o as [c|]; [|done]. destruct d as [|d]; cbn in Hs.
  - destruct Hs as (_ & _ & _ & Hch & _). by apply Hch in Ho.
  - destruct Hs as (_ & _ & _ & _ & Hch). destruct (Hch i c Ho) as [-> _]. apply digest_length.
Qed.

Lemma preimage_split slot d n1 n2 :
  account_shape slot d n1 → account_shape slot d n2 → node_preimage n1 = node_preimage n2 →
  child_bytes <$> children n1 = child_bytes <$> children n2 ∧
  concat (value_bytes <$> values n1) = concat (value_bytes <$> values n2).
Proof.
  intros H1 H2 Heq. pose proof (child_bytes_length _ _ _ H1) as L1.
  pose proof (child_bytes_length _ _ _ H2) as L2.
  assert (length (children n1) = 256%nat ∧ length (children n2) = 256%nat) as [C1 C2]
    by (destruct d; cbn in H1, H2; tauto).
  assert (∀ l, Forall (λ c : list u8, length c = 32%nat) l → length (concat l) = (32 * length l)%nat) as Hcl.
  { clear. induction 1 as [|c l Hc Hl IH]; cbn; [done|]. rewrite length_app, IH, Hc. lia. }
  unfold node_preimage in Heq.
  apply app_inj_1 in Heq as [Hc Hv]; [|by rewrite !Hcl, !length_fmap, C1, C2].
  split; [|done]. apply (concat_chunks_inj 32); try done. by rewrite !length_fmap, C1, C2.
Qed.

(** A leaf is determined by the concatenation of its values. *)
Lemma leaf_values_inj (slot : nat) (l k : list (option (list u8))) :
  length l = length k →
  (∀ i v, l !! i = Some (Some v) → i = slot ∧ length v = 24%nat) →
  (∀ i v, k !! i = Some (Some v) → i = slot ∧ length v = 24%nat) →
  concat (value_bytes <$> l) = concat (value_bytes <$> k) → l = k.
Proof.
  revert slot k. induction l as [|o l IH]; intros slot [|o' k] Hlen Hl Hk Heq; try done.
  injection Hlen as Hlen. cbn in Heq. destruct slot as [|slot].
  - assert (∀ m : list (option (list u8)), (∀ i v, m !! S i = Some (Some v) → S i = 0%nat ∧ length v = 24%nat) →
      tail m = replicate (length (tail m)) None) as Hnone.
    { intros m Hm. symmetry. apply replicate_as_Forall. split; [done|]. apply Forall_lookup. intros i o0 Ho.
      destruct o0 as [v|]; [|done]. destruct m as [|x m]; [done|]. cbn in Ho.
      destruct (Hm i v) as [? _]; [done|lia]. }
    pose proof (Hnone (o :: l) (λ i v H, Hl (S i) v H)) as E1. cbn in E1.
    pose proof (Hnone (o' :: k) (λ i v H, Hk (S i) v H)) as E2. cbn in E2.
    rewrite E1, E2, Hlen in Heq. apply app_inv_tail in Heq. rewrite E1, E2, Hlen. f_equal.
    destruct o as [v|], o' as [v'|]; cbn in Heq; [congruence| | |done].
    + destruct (Hl 0%nat v eq_refl) as [_ Hv]. apply (f_equal length) in Heq.
      cbn in Heq. lia.
    + destruct (Hk 0%nat v' eq_refl) as [_ Hv]. apply (f_equal length) in Heq.
      cbn in Heq. lia.
  - destruct o as [v|]; [destruct (Hl 0%nat v eq_refl); lia|].
    destruct o' as [v|]; [destruct (Hk 0%nat v eq_refl); lia|].
    apply app_inv_head in Heq. f_equal. apply (IH slot); try done.
    + intros i v Hi. destruct (Hl (S i) v Hi). split; [lia|done].
    + intros i v Hi. destruct (Hk (S i) v Hi). split; [lia|done].
Qed.

Lemma sealed_binding d slot n1 n2 key rest :
  account_shape slot d n1 → account_shape slot d n2 → sealed n1 → sealed n2 →
  commitment n1 = commitment n2 → length rest = d →
  hashes_apart (path_inputs rest n1 ++ path_inputs rest n2) →
  node_get key rest n1 = node_get key rest n2.
Proof.
  revert slot n1 n2 rest. induction d as [|d IH]; intros slot n1 n2 rest H1 H2 S1 S2 Heq Hlen Hap.
  all: unfold sealed in S1, S2; rewrite S1, S2 in Heq; injection Heq as Heq.
  all: apply (ha_distinct _ Hap) in Heq; [|destruct rest; set_solver..].
  all: destruct (preimage_split _ _ _ _ H1 H2 Heq) as [Hch Hval].
  - destruct rest; [|done]. cbn.
    destruct H1 as (W1 & C1 & V1 & _ & L1), H2 as (W2 & C2 & V2 & _ & L2).
    rewrite W1, W2. by rewrite (leaf_values_inj (default 0%nat slot) (values n1) (values n2));
      [|congruence|..].
  - destruct rest as [|b rest]; [done|]. injection Hlen as Hlen. cbn [node_get].
    destruct H1 as (W1 & C1 & V1 & _ & L1), H2 as (W2 & C2 & V2 & _ & L2). rewrite W1, W2.
    set (i := key_index 256 b). assert (i < 256)%nat as Hi by apply key_index_lt.
    destruct (lookup_lt_is_Some_2 (children n1) i) as [o1 O1]; [lia|].
    destruct (lookup_lt_is_Some_2 (children n2) i) as [o2 O2]; [lia|]. rewrite O1, O2.
    assert (child_bytes o1 = child_bytes o2) as Hb.
    { apply (f_equal (lookup i)) in Hch. rewrite !list_lookup_fmap, O1, O2 in Hch. by injection Hch. }
    cbn [path_inputs] in Hap. rewrite W1, W2 in Hap. fold i in Hap. rewrite O1, O2 in Hap.
    destruct o1 as [c1|], o2 as [c2|]; [| | |done].
    + destruct (L1 i c1 O1) as [T1 A1], (L2 i c2 O2) as [T2 A2].
      eapply IH; try done; [|eapply hashes_apart_incl; [|exact Hap]; set_solver].
      unfold child_bytes in Hb. rewrite T1, T2 in Hb. rewrite T1, T2.
      unfold keccak256 in *. cbn in Hb. by rewrite Hb.
    + destruct (L1 i c1 O1) as [T1 _]. unfold child_bytes in Hb. rewrite T1 in Hb.
      destruct (ha_nonzero _ Hap (node_preimage c1)); [destruct rest; set_solver|exact Hb].
    + destruct (L2 i c2 O2) as [T2 _]. unfold child_bytes in Hb. rewrite T2 in Hb.
      destruct (ha_nonzero _ Hap (node_preimage c2)); [destruct rest; set_solver|exact (eq_sym Hb)].
Qed.
End Binding.

(** ** The state manager *)

Section State.
Context `{Keccak}.

(** The cache, the tree and the ranges of the stored accounts agree. *)
Record verkle_ok (s : VerkleState) : Prop := {
  vo_shape : account_shape None 20 (root (tree s));
  vo_sealed : sealed (root (tree s)) ∨ cache s = ∅ ∧ commitment (root (tree s)) = None;
  vo_tree : ∀ a, address_wf a = true →
    tree_get (tree s) (addr_bytes a) = (λ bn, account_value bn.1 bn.2) <$> cache s !! a;
  vo_range : ∀ a b n, cache s !! a = Some (b, n) → address_wf a = true ∧ in_u128 b ∧ in_u64 n }.

Lemma verkle_new_ok : verkle_ok vs_new.
Proof.
  split; unfold vs_new, tree_new; cbn [tree root cache].
  - apply account_shape_new.
  - right. done.
  - intros a _. rewrite lookup_empty. apply node_get_new.
  - intros a b n Hc. by rewrite lookup_empty in Hc.
Qed.

Lemma length_account_value b n : length (account_value b n) = 24%nat.
Proof. unfold account_value. by rewrite length_app, length_le16, length_le8. Qed.

Lemma account_value_inj b n b' n' :
  in_u128 b → in_u128 b' → in_u64 n → in_u64 n' → account_value b n = account_value b' n' → b = b' ∧ n = n'.
Proof.
  intros Hb Hb' Hn Hn' Heq. unfold account_value in Heq.
  apply app_inj_1 in Heq as [H1 H2]; [|by rewrite !length_le16]. split.
  - by rewrite <- (u128_le_roundtrip b), H1, u128_le_roundtrip.
  - by rewrite <- (u64_le_roundtrip n), H2, u64_le_roundtrip.
Qed.

(** Storing an account in the tree and the cache. *)
Lemma verkle_store_ok s a b n :
  verkle_ok s → address_wf a = true → in_u128 b → in_u64 n →
  verkle_ok (MkVerkleState (tree_insert (tree s) (addr_bytes a) (account_value b n))
               (<[a := (b, n)]> (cache s))).
Proof.
  intros [Hsh Hse Ht Hr] Ha Hb Hn. pose proof (bytes_wf_ok _ _ Ha) as [Hla Hoa].
  assert (account_shape None (length (addr_bytes a)) (root (tree s))) as Hsh' by (by rewrite Hla).
  split; cbn -[account_shape].
  - rewrite <- Hla. apply account_shape_insert; [done|apply length_account_value|done].
  - left. apply sealed_insert.
  - intros a' Ha'. pose proof (bytes_wf_ok _ _ Ha') as [Hla' Hoa'].
    unfold tree_get, tree_insert. cbn.
    pose proof (node_get_insert [] (addr_bytes a) (addr_bytes a') (account_value b n) (root (tree s))
      (account_shape_sized _ _ _ Hsh') ltac:(congruence) Hoa Hoa') as Hg. cbn [app] in Hg. rewrite Hg.
    destruct (decide (a' = a)) as [->|Hne].
    + by rewrite decide_True, lookup_insert_eq.
    + rewrite decide_False by (intros E; by apply Hne, addr_bytes_inj).
      rewrite lookup_insert_ne by done. by apply Ht.
  - intros a' b' n'. rewrite lookup_insert_Some. intros [[<- [= <- <-]]|[_ Hc]]; [done|by eapply Hr].
Qed.

Lemma vs_set_balance_store s a b :
  vs_set_balance s a b
  = MkVerkleState (tree_insert (tree s) (addr_bytes a) (account_value b (default (0, 0) (cache s !! a)).2))
      (<[a := (b, (default (0, 0) (cache s !! a)).2)]> (cache s)).
Proof. unfold vs_set_balance. by destruct (cache s !! a) as [[]|]. Qed.
Lemma vs_set_nonce_store s a n :
  vs_set_nonce s a n
  = MkVerkleState (tree_insert (tree s) (addr_bytes a) (account_value (default (0, 0) (cache s !! a)).1 n))
      (<[a := ((default (0, 0) (cache s !! a)).1, n)]> (cache s)).
Proof. unfold vs_set_nonce. by destruct (cache s !! a) as [[]|]. Qed.

(** What an account reads as. *)
Lemma vs_get_cache s a :
  verkle_ok s → address_wf a = true →
  (vs_get_balance s a, vs_get_nonce s a) = default (0, 0) (cache s !! a).
Proof.
  intros [_ _ Ht _] Ha. unfold vs_get_balance, vs_get_nonce. specialize (Ht a Ha).
  destruct (cache s !! a) as [[b n]|]; [done|]. cbn in Ht. by rewrite Ht.
Qed.

Lemma cache_range s a :
  verkle_ok s → in_u128 (default (0, 0) (cache s !! a)).1 ∧ in_u64 (default (0, 0) (cache s !! a)).2.
Proof.
  intros [_ _ _ Hr]. destruct (cache s !! a) as [[b n]|] eqn:Hc; [by apply (Hr a)|]. cbn. mlia.
Qed.

Lemma vs_set_balance_ok s a b :
  verkle_ok s → address_wf a = true → in_u128 b → verkle_ok (vs_set_balance s a b).
Proof. intros Hs Ha Hb. rewrite vs_set_balance_store. apply verkle_store_ok; try done. by apply cache_range. Qed.
Lemma vs_set_nonce_ok s a n :
  verkle_ok s → address_wf a = true → in_u64 n → verkle_ok (vs_set_nonce s a n).
Proof. intros Hs Ha Hn. rewrite vs_set_nonce_store. apply verkle_store_ok; try done. by apply cache_range. Qed.

Lemma vs_set_balance_get s a b a' :
  verkle_ok s → address_wf a = true → address_wf a' = true → in_u128 b →
  vs_get_balance (vs_set_balance s a b) a' = (if decide (a' = a) then b else vs_get_balance s a') ∧
  vs_get_nonce (vs_set_balance s a b) a' = vs_get_nonce s a'.
Proof.
  intros Hs Ha Ha' Hb. pose proof (vs_set_balance_ok s a b Hs Ha Hb) as Hs1.
  pose proof (vs_get_cache _ a' Hs Ha') as G. pose proof (vs_get_cache _ a' Hs1 Ha') as G1.
  rewrite vs_set_balance_store in G1. rewrite vs_set_balance_store. cbn [cache] in G1.
  destruct (decide (a' = a)) as [->|Hne].
  - rewrite lookup_insert_eq in G1. cbn in G1. injection G1 as -> ->. by rewrite <- G.
  - rewrite lookup_insert_ne in G1 by done. rewrite <- G in G1. by injection G1 as -> ->.
Qed.

Lemma vs_set_nonce_get s a n a' :
  verkle_ok s → address_wf a = true → address_wf a' = true → in_u64 n →
  vs_get_balance (vs_set_nonce s a n) a' = vs_get_balance s a' ∧
  vs_get_nonce (vs_set_nonce s a n) a' = (if decide (a' = a) then n else vs_get_nonce s a').
Proof.
  intros Hs Ha Ha' Hn. pose proof (vs_set_nonce_ok s a n Hs Ha Hn) as Hs1.
  pose proof (vs_get_cache _ a' Hs Ha') as G. pose proof (vs_get_cache _ a' Hs1 Ha') as G1.
  rewrite vs_set_nonce_store in G1. rewrite vs_set_nonce_store. cbn [cache] in G1.
  destruct (decide (a' = a)) as [->|Hne].
  - rewrite lookup_insert_eq in G1. cbn in G1. injection G1 as -> ->. by rewrite <- G.
  - rewrite lookup_insert_ne in G1 by done. rewrite <- G in G1. by injection G1 as -> ->.
Qed.

(** The Verkle state is a map of accounts: setting a balance or a nonce keeps
    the tree and its cache in agreement, changes that field of that account
    and nothing else, and the tree holds the encoding of exactly the current
    accounts. *)
Theorem verkle_state_accounts s a b n a' :
  verkle_ok s → address_wf a = true → address_wf a' = true → in_u128 b → in_u64 n →
  verkle_ok (vs_set_balance s a b) ∧ verkle_ok (vs_set_nonce s a n) ∧
  vs_get_balance (vs_set_balance s a b) a' = (if decide (a' = a) then b else vs_get_balance s a') ∧
  vs_get_nonce (vs_set_balance s a b) a' = vs_get_nonce s a' ∧
  vs_get_balance (vs_set_nonce s a n) a' = vs_get_balance s a' ∧
  vs_get_nonce (vs_set_nonce s a n) a' = (if decide (a' = a) then n else vs_get_nonce s a') ∧
  tree_get (tree (vs_set_balance s a b)) (addr_bytes a) = Some (account_value b (vs_get_nonce s a)).
Proof.
  intros Hs Ha Ha' Hb Hn. pose proof (vs_set_balance_ok s a b Hs Ha Hb) as Hs1.
  destruct (vs_set_balance_get s a b a' Hs Ha Ha' Hb), (vs_set_nonce_get s a n a' Hs Ha Ha' Hn).
  split_and!; try done; [by apply vs_set_nonce_ok|].
  rewrite (vo_tree _ Hs1 a Ha), vs_set_balance_store. cbn [cache].
  pose proof (vs_get_cache _ a Hs Ha) as Ga. by rewrite lookup_insert_eq, <- Ga.
Qed.

(** C40: The state root binds the state: two Verkle states with the same root
    agree on the balance and the nonce of an address, provided Keccak tells
    apart the nodes hashed on the path of that address in the two trees (at most
    42 inputs) and maps none of them to the all-zero digest. *)
Theorem verkle_root_binding s1 s2 a :
  verkle_ok s1 → verkle_ok s2 → vs_state_root s1 = vs_state_root s2 → address_wf a = true →
  hashes_apart (path_inputs (addr_bytes a) (root (tree s1)) ++ path_inputs (addr_bytes a) (root (tree s2))) →
  vs_get_balance s1 a = vs_get_balance s2 a ∧ vs_get_nonce s1 a = vs_get_nonce s2 a.
Proof.
  intros H1 H2 Hroot Ha Hap. pose proof (bytes_wf_ok _ _ Ha) as [Hla _].
  pose proof (vs_get_cache s1 a H1 Ha) as G1. pose proof (vs_get_cache s2 a H2 Ha) as G2.
  assert (∀ n, node_preimage n ∈ path_inputs (addr_bytes a) n) as Hroots by (intros n; destruct (addr_bytes a); left).
  enough (cache s1 !! a = cache s2 !! a) as Heq by (rewrite Heq, <- G2 in G1; by injection G1).
  unfold vs_state_root, root_hash in Hroot.
  destruct (vo_sealed _ H1) as [S1|[E1 C1]], (vo_sealed _ H2) as [S2|[E2 C2]].
  - rewrite S1, S2 in Hroot. cbn in Hroot.
    pose proof (sealed_binding 20 None (root (tree s1)) (root (tree s2)) (addr_bytes a) (addr_bytes a)
      ltac:(apply H1) ltac:(apply H2) S1 S2 ltac:(unfold sealed in S1, S2; rewrite S1, S2; by f_equal) Hla Hap) as Hg.
    pose proof (vo_tree _ H1 a Ha) as T1. pose proof (vo_tree _ H2 a Ha) as T2.
    unfold tree_get in T1, T2. rewrite Hg, T2 in T1.
    destruct (cache s1 !! a) as [[b n]|] eqn:K1, (cache s2 !! a) as [[b' n']|] eqn:K2; cbn -[account_value] in T1; try done.
    destruct (vo_range _ H1 a b n K1) as (_ & Rb & Rn), (vo_range _ H2 a b' n' K2) as (_ & Rb' & Rn').
    apply (inj Some) in T1. apply account_value_inj in T1 as [-> ->]; done.
  - rewrite S1, C2 in Hroot. injection Hroot as Hroot. edestruct (ha_nonzero _ Hap); [|exact Hroot]. set_solver.
  - rewrite C1, S2 in Hroot. injection Hroot as Hroot. edestruct (ha_nonzero _ Hap); [|exact (eq_sym Hroot)]. set_solver.
  - by rewrite E1, E2.
Qed.
End State.

(** ** Executable examples *)

Module VerkleReference.
#[local] Existing Instance Reference.keccak.

Definition va : Address := MkAddress (replicate 20 5).
Definition vb : Address := MkAddress (5 :: replicate 19 6).

Lemma verkle_get_insert_witness :
  tree_get (tree_insert tree_new [1; 2] [7]) [1; 2] = Some [7].
Proof.
  exact (proj1 (verkle_get_insert tree_new [1; 2] [1; 2] [7] (sized_new 2) eq_refl
    ltac:(repeat constructor; cbn; lia) ltac:(repeat constructor; cbn; lia))).
Defined.

Definition vs1 : VerkleState := vs_set_balance vs_new va 100.

Lemma vs1_ok : verkle_ok vs1.
Proof. apply vs_set_balance_ok; [apply verkle_new_ok|done|]. mlia. Qed.

Lemma verkle_state_accounts_witness :
  vs_get_balance (vs_set_balance vs1 vb 7) va = 100.
Proof.
  assert (vs_get_balance (vs_set_balance vs1 vb 7) va
          = (if decide (va = vb) then 7 else vs_get_balance vs1 va)) as Hw.
  { exact (proj1 (proj2 (proj2 (verkle_state_accounts vs1 vb 7 1 va vs1_ok eq_refl eq_refl
      ltac:(mlia) ltac:(mlia))))). }
  rewrite Hw, decide_False; [reflexivity|discriminate].
Defined.

End VerkleReference.

(** A digest that is quick on the mostly empty nodes of a tree: it depends on
    the positions and the values of the bytes that are not zero. *)
Module BindingReference.
Definition sparse_step (p : Z * Z) (b : u8) : Z * Z :=
  (p.1 + 1, if b =? 0 then p.2 else Z.land (p.2 * 65599 + p.1 * 256 + b) u64_max).
Definition sparse_digest (data : list u8) : list u8 := to_le_bytes 32 (foldl sparse_step (1, 7) data).2.
Lemma sparse_digest_wf data : bytes_wf 32 (sparse_digest data) = true.
Proof. apply Reference.le_bytes32_wf. Qed.
#[local] Instance sparse_keccak : Keccak := {| keccak_digest := sparse_digest; keccak_digest_wf := sparse_digest_wf |}.
Import VerkleReference.

(** The same account, written once and written over. *)
Definition vs_once : VerkleState := vs_set_balance vs_new va 100.
Definition vs_twice : VerkleState := vs_set_balance (vs_set_balance vs_new va 60) va 100.
Lemma vs_once_ok : verkle_ok vs_once.
Proof. repeat (apply vs_set_balance_ok; [|done|mlia]). apply verkle_new_ok. Qed.
Lemma vs_twice_ok : verkle_ok vs_twice.
Proof. repeat (apply vs_set_balance_ok; [|done|mlia]). apply verkle_new_ok. Qed.
Lemma vs_once_apart :
  hashes_apart (path_inputs (addr_bytes va) (root (tree vs_once)) ++ path_inputs (addr_bytes va) (root (tree vs_twice))).
Proof.
  split; [apply digests_distinctb_ok; vm_compute; reflexivity|].
  apply Forall_forall, (bool_decide_unpack _). vm_compute. exact I.
Qed.
Lemma vs_once_root : vs_state_root vs_once = vs_state_root vs_twice.
Proof. apply (bool_decide_unpack _). vm_compute. exact I. Qed.

Lemma verkle_root_binding_witness :
  vt_size (tree vs_once) ≠ vt_size (tree vs_twice) ∧ vs_get_balance vs_once va = vs_get_balance vs_twice va.
Proof.
  split; [discriminate|].
  exact (proj1 (verkle_root_binding vs_once vs_twice va vs_once_ok vs_twice_ok vs_once_root eq_refl vs_once_apart)).
Defined.
End BindingReference.
