(* ===== verification/Ledger.v ===== *)
(** * Ledger: balances and nonces

    Models the account state of [irondag-blockchain/src/blockchain/mod.rs]: the
    in-memory account map, the database and the optional Verkle state behind
    [get_balance] and [get_nonce], the write-through updates of a native
    transfer, the consistency check after it, receipts and the genesis
    allocations.

    A read may refill the in-memory map from the database, so reads are
    computations too.  [view] is the account state a caller observes; the
    theorems relate every operation to it, in all four configurations (with or
    without a database, with or without Verkle). *)

From S2P Require Import Prelude Types Block Error.
From S2P Require Import Storage Verkle.

(** [blockchain::AccountState] *)
Record Account := MkAccount { balance : u128; acc_nonce : u64 }.

Record Ledger := MkLedger {
  database : option (gmap (list u8) (list u8));
  accounts : gmap Address Account;
  verkle_state : option VerkleState }.

Record EvmLog := MkLog { log_address : Address; topics : list (list u8); log_data : list u8 }.
Record TxReceipt := MkReceipt {
  r_success : bool; r_gas_used : u64; r_logs : list EvmLog; r_contract_address : option Address }.

Definition LM := SE Ledger BlockchainError.

(** [if let Some(db) = &self.database { .. }] *)
Definition db_put (f : gmap (list u8) (list u8) → gmap (list u8) (list u8)) : LM unit :=
  se_mod (λ l, MkLedger (f <$> database l) (accounts l) (verkle_state l)).
(** [self.accounts.insert(a, ..)] *)
Definition insert_account (a : Address) (b : u128) (n : u64) : LM unit :=
  se_mod (λ l, MkLedger (database l) (<[a := MkAccount b n]> (accounts l)) (verkle_state l)).
Definition set_verkle (v : VerkleState) : LM unit :=
  se_mod (λ l, MkLedger (database l) (accounts l) (Some v)).

Section Ledger.
Context `{Hex, Keccak, Codec TxReceipt}.

Definition stored_balance (l : Ledger) (a : Address) : option u128 :=
  database l ≫= λ db, db_get_balance db a.
Definition stored_nonce (l : Ledger) (a : Address) : option u64 :=
  database l ≫= λ db, db_get_nonce db a.

Definition get_nonce (a : Address) : LM u64 :=
  l ← se_get;
  match verkle_state l with
  | Some v => mret (vs_get_nonce v a)
  | None =>
      match stored_nonce l a with
      | Some n =>
          _ ← match accounts l !! a with
              | Some acc => insert_account a (balance acc) n
              | None => insert_account a (default 0 (stored_balance l a)) n
              end;
          mret n
      | None => mret (match accounts l !! a with Some acc => acc_nonce acc | None => 0 end)
      end
  end.

Definition get_balance (a : Address) : LM u128 :=
  l ← se_get;
  match verkle_state l with
  | Some v => mret (vs_get_balance v a)
  | None =>
      match stored_balance l a with
      | Some b =>
          _ ← match accounts l !! a with
              | Some acc => insert_account a b (acc_nonce acc)
              | None => n ← get_nonce a; insert_account a b n
              end;
          mret b
      | None => mret (match accounts l !! a with Some acc => balance acc | None => 0 end)
      end
  end.

Definition set_balance (a : Address) (b : u128) : LM unit :=
  l ← se_get;
  _ ← match verkle_state l with
      | Some v => set_verkle (vs_set_balance v a b)
      | None => insert_account a b (match accounts l !! a with Some acc => acc_nonce acc | None => 0 end)
      end;
  db_put (λ db, put_balance db a b).

Definition set_nonce (a : Address) (n : u64) : LM unit :=
  l ← se_get;
  _ ← match verkle_state l with
      | Some v => set_verkle (vs_set_nonce v a n)
      | None => insert_account a (match accounts l !! a with Some acc => balance acc | None => 0 end) n
      end;
  db_put (λ db, put_nonce db a n).

(** ** The native transfer of [process_transaction] *)

(** A write-through update: the database, then the Verkle state or the
    in-memory map, with a nonce computed at that point. *)
Definition write_balance (a : Address) (b : u128) (nonce : LM u64) : LM unit :=
  _ ← db_put (λ db, put_balance db a b);
  l ← se_get;
  match verkle_state l with
  | Some v => set_verkle (vs_set_balance v a b)
  | None => n ← nonce; insert_account a b n
  end.

(** Sender and sponsor pay; the new nonce of the sender is returned. *)
Definition debit (t : Transaction) : LM u64 :=
  current_nonce ← get_nonce (from t);
  let new_nonce := sat_add64 current_nonce 1 in
  from_balance ← get_balance (from t);
  if from_balance <? value t
  then fail (InvalidTransaction "Insufficient balance for transaction value") else
  let new_from_balance := from_balance - value t in
  match sponsor t with
  | Some s =>
      sponsor_balance ← get_balance s;
      if sponsor_balance <? fee t
      then fail (InvalidTransaction "Insufficient sponsor balance for transaction fee") else
      _ ← write_balance s (sponsor_balance - fee t) (get_nonce s);
      _ ← write_balance (from t) new_from_balance (mret new_nonce);
      mret new_nonce
  | None =>
      if new_from_balance <? fee t
      then fail (InvalidTransaction "Insufficient balance for transaction fee") else
      _ ← write_balance (from t) (new_from_balance - fee t) (mret new_nonce);
      mret new_nonce
  end.

Definition credit (t : Transaction) : LM unit :=
  if bool_decide (to t = address_zero) then mret tt else
  to_balance ← get_balance (to t);
  write_balance (to t) (add128 to_balance (value t)) (get_nonce (to t)).

(** The nonce of an ordinary account; without Verkle the in-memory nonce was
    written together with the balance. *)
Definition persist_nonce (a : Address) (n : u64) : LM unit :=
  _ ← db_put (λ db, put_nonce db a n);
  l ← se_get;
  match verkle_state l with
  | Some v => set_verkle (vs_set_nonce v a n)
  | None => mret tt
  end.

Definition check_equal (stored : option Z) (seen : Z) (e : string) : LM unit :=
  if default 0 stored =? seen then mret tt else fail (Storage e).

Definition verify_post_transaction_consistency (t : Transaction) : LM unit :=
  l ← se_get;
  match database l with
  | None => mret tt
  | Some _ =>
      b ← get_balance (from t);
      _ ← check_equal (stored_balance l (from t)) b "Balance mismatch for sender";
      n ← get_nonce (from t);
      _ ← check_equal (stored_nonce l (from t)) n "Nonce mismatch for sender";
      if bool_decide (to t = address_zero) then mret tt else
      b' ← get_balance (to t);
      check_equal (stored_balance l (to t)) b' "Balance mismatch for receiver"
  end.

Definition receipt_key (h : Hash) : list u8 := make_key key_prefix.RECEIPT (hash_bytes h).

Definition store_receipt (h : Hash) (r : TxReceipt) : LM unit :=
  match serialize r with
  | Some bs => db_put (λ db, insert_raw db (receipt_key h) bs)
  | None => mret tt
  end.

Definition get_tx_receipt (l : Ledger) (h : Hash) : option TxReceipt :=
  db ← database l;
  bs ← get_raw db (receipt_key h);
  deserialize bs.

Definition native_receipt : TxReceipt := MkReceipt true 21000 [] None.

(** ** Genesis *)

Fixpoint apply_allocations (total : u128) (allocs : list GenesisAllocation) : SE Ledger string u128 :=
  match allocs with
  | [] => mret total
  | ga :: rest =>
      _ ← se_read (λ _, allocation_validate ga);
      a ← se_read (λ _, address_bytes ga);
      total ← se_read (λ _, ok_or "Total allocation overflow" (checked_add128 total (ga_balance ga)));
      _ ← (λ l, match set_balance a (ga_balance ga) l with
                | (Ok _, l') => (Ok tt, l')
                | (Err _, l') => (Err "Failed to set genesis balance", l')
                end);
      apply_allocations total rest
  end.

Definition apply_genesis_allocations (allocs : list GenesisAllocation) : SE Ledger string unit :=
  _ ← apply_allocations 0 allocs; mret tt.

Definition compute_genesis_state_hash (allocs : list GenesisAllocation) : Hash :=
  keccak256 (to_le_bytes 8 (Z.of_nat (length allocs))
    ++ concat ((λ ga, addr_bytes (match address_bytes ga with Ok a => a | Err _ => address_zero end)
                       ++ to_le_bytes 16 (ga_balance ga)) <$> allocs)).

(** ** Snapshots *)

(** The addresses of the hex-keyed balances. *)
Definition scanned_addresses (db : gmap (list u8) (list u8)) : list Address :=
  omap (λ kv : list u8 * list u8,
          bs ← hex_decode (String.string_of_list_ascii ((λ b, Ascii.ascii_of_nat (Z.to_nat b)) <$> drop 8 kv.1));
          if (length bs =? 20)%nat then Some (MkAddress bs) else None)
    (scan_prefix db (as_bytes "balance:")).

Definition add_scanned (db : gmap (list u8) (list u8)) (m : gmap Address (u128 * u64)) (a : Address) :
    gmap Address (u128 * u64) :=
  match m !! a with
  | Some _ => m
  | None => <[a := (default 0 (db_get_balance db a), default 0 (db_get_nonce db a))]> m
  end.

Definition get_all_accounts (l : Ledger) : gmap Address (u128 * u64) :=
  match verkle_state l with
  | Some v => vs_get_all_accounts v
  | None =>
      let cached := (λ acc, (balance acc, acc_nonce acc)) <$> accounts l in
      match database l with
      | Some db => foldl (add_scanned db) cached (scanned_addresses db)
      | None => cached
      end
  end.
End Ledger.

(** ** The observed account state *)

Section View.
Context `{Hex, Keccak, Codec TxReceipt}.

Definition cached (l : Ledger) (a : Address) : Account := default (MkAccount 0 0) (accounts l !! a).

(** What [get_balance] and [get_nonce] return. *)
Definition view (l : Ledger) (a : Address) : u128 * u64 :=
  match verkle_state l with
  | Some v => (vs_get_balance v a, vs_get_nonce v a)
  | None => (default (balance (cached l a)) (stored_balance l a),
             default (acc_nonce (cached l a)) (stored_nonce l a))
  end.

Definition has_db (l : Ledger) : bool := bool_decide (is_Some (database l)).
Definition has_verkle (l : Ledger) : bool := bool_decide (is_Some (verkle_state l)).

Definition verkle_good (l : Ledger) : Prop :=
  match verkle_state l with Some v => verkle_ok v | None => True end.

Record ledger_ok (l : Ledger) : Prop := {
  lo_verkle : verkle_good l;
  lo_range : ∀ a, address_wf a = true → in_u128 (view l a).1 ∧ in_u64 (view l a).2 }.

(** A read: only the in-memory map changes, and not what is observed. *)
Record reads (l l' : Ledger) : Prop := {
  rd_db : database l' = database l;
  rd_verkle : verkle_state l' = verkle_state l;
  rd_view : ∀ a, view l' a = view l a }.

#[global] Instance reads_preorder : PreOrder reads.
Proof.
  split; [done|]. intros l1 l2 l3 [A1 B1 C1] [A2 B2 C2]. split; [congruence..|]. intros a. by rewrite C2, C1.
Qed.

Lemma stored_balance_db l l' a : database l' = database l → stored_balance l' a = stored_balance l a.
Proof. unfold stored_balance. by intros ->. Qed.
Lemma stored_nonce_db l l' a : database l' = database l → stored_nonce l' a = stored_nonce l a.
Proof. unfold stored_nonce. by intros ->. Qed.
Lemma reads_stored_balance l l' a : reads l l' → stored_balance l' a = stored_balance l a.
Proof. intros [Hd _ _]. by apply stored_balance_db. Qed.
Lemma reads_stored_nonce l l' a : reads l l' → stored_nonce l' a = stored_nonce l a.
Proof. intros [Hd _ _]. by apply stored_nonce_db. Qed.
Lemma reads_has_db l l' : reads l l' → has_db l' = has_db l.
Proof. intros [Hd _ _]. unfold has_db. by rewrite Hd. Qed.
Lemma reads_has_verkle l l' : reads l l' → has_verkle l' = has_verkle l.
Proof. intros [_ Hv _]. unfold has_verkle. by rewrite Hv. Qed.
Lemma reads_good l l' : reads l l' → verkle_good l → verkle_good l'.
Proof. intros [_ Hv _]. unfold verkle_good. by rewrite Hv. Qed.

(** Filling the in-memory entry of an account with observed values. *)
Lemma refill_reads l a b n vs :
  verkle_state l = None → vs = None → (b, n) = view l a →
  reads l (MkLedger (database l) (<[a := MkAccount b n]> (accounts l)) vs).
Proof.
  intros Hv -> Hbn. split; [done..|]. intros a'. unfold view in *. cbn [verkle_state]. rewrite Hv in *.
  unfold stored_balance, stored_nonce, cached in *. cbn [database accounts] in *.
  destruct (decide (a' = a)) as [->|]; [|by rewrite lookup_insert_ne].
  rewrite lookup_insert_eq. injection Hbn as -> ->. cbn [default balance acc_nonce].
  by destruct (database l ≫= λ db, db_get_balance db a), (database l ≫= λ db, db_get_nonce db a).
Qed.

Lemma get_nonce_spec a l : ∃ l', get_nonce a l = (Ok (view l a).2, l') ∧ reads l l'.
Proof.
  unfold get_nonce, mbind, SE_bind, se_get, mret, SE_ret.
  destruct (verkle_state l) as [v|] eqn:Hv; [exists l; by unfold view; rewrite Hv|].
  destruct (stored_nonce l a) as [n|] eqn:Hn.
  - unfold insert_account, se_mod. destruct (accounts l !! a) as [acc|] eqn:Hacc.
    + eexists. split; [unfold view; by rewrite Hv, Hn|].
      (* the balance of the entry may lag behind the database *)
      split; [done..|]. intros a'. unfold view, stored_balance, stored_nonce, cached in *.
      cbn [verkle_state database accounts]. rewrite Hv.
      destruct (decide (a' = a)) as [->|]; [|by rewrite lookup_insert_ne].
      rewrite lookup_insert_eq, Hacc, Hn. done.
    + eexists. split; [unfold view; by rewrite Hv, Hn|]. apply refill_reads; [done..|].
      unfold view, cached. rewrite Hv, Hn, Hacc. done.
  - exists l. unfold view, cached. rewrite Hv, Hn. by destruct (accounts l !! a).
Qed.

Lemma get_balance_spec a l : ∃ l', get_balance a l = (Ok (view l a).1, l') ∧ reads l l'.
Proof.
  unfold get_balance, mbind, SE_bind, se_get, mret, SE_ret.
  destruct (verkle_state l) as [v|] eqn:Hv; [exists l; by unfold view; rewrite Hv|].
  destruct (stored_balance l a) as [b|] eqn:Hb.
  - destruct (accounts l !! a) as [acc|] eqn:Hacc.
    + unfold insert_account, se_mod. eexists. split; [unfold view; by rewrite Hv, Hb|].
      split; [done..|]. intros a'. unfold view, stored_balance, stored_nonce, cached in *.
      cbn [verkle_state database accounts]. rewrite Hv.
      destruct (decide (a' = a)) as [->|]; [|by rewrite lookup_insert_ne].
      rewrite lookup_insert_eq, Hacc, Hb. done.
    + destruct (get_nonce_spec a l) as (l1 & Hg & Hr). rewrite Hg. unfold insert_account, se_mod.
      eexists. split; [unfold view; by rewrite Hv, Hb|].
      transitivity l1; [done|]. apply refill_reads; [by rewrite (rd_verkle _ _ Hr)..|].
      rewrite (rd_view _ _ Hr). unfold view. by rewrite Hv, Hb.
  - exists l. unfold view, cached. rewrite Hv, Hb. by destruct (accounts l !! a).
Qed.

(** A balance was written: everything but the nonce of that account. *)
Record wrote (a : Address) (b : u128) (l l' : Ledger) : Prop := {
  wr_good : verkle_good l';
  wr_db : has_db l' = has_db l;
  wr_verkle : has_verkle l' = has_verkle l;
  wr_balance : ∀ a', address_wf a' = true →
    (view l' a').1 = if decide (a' = a) then b else (view l a').1;
  wr_nonce : ∀ a', address_wf a' = true → a' ≠ a → (view l' a').2 = (view l a').2;
  wr_stored : ∀ a', address_wf a' = true → stored_balance l' a'
    = if decide (a' = a) then (if has_db l then Some b else None) else stored_balance l a';
  wr_stored_nonce : ∀ a', stored_nonce l' a' = stored_nonce l a' }.

(** *** Writes, field by field *)

Lemma get_put_balance db a b a' :
  in_u128 b →
  db_get_balance (put_balance db a b) a' = if decide (a' = a) then Some b else db_get_balance db a'.
Proof.
  intros Hb. unfold put_balance. destruct (decide (a' = a)) as [->|Hne].
  - by apply get_int_insert_eq, read_u128.
  - apply get_balance_insert_ne. intros Heq. apply make_key_inj in Heq as [_ Heq].
    by apply Hne, addr_bytes_inj.
Qed.
Lemma get_put_nonce db a n a' :
  in_u64 n →
  db_get_nonce (put_nonce db a n) a' = if decide (a' = a) then Some n else db_get_nonce db a'.
Proof.
  intros Hn. unfold put_nonce. destruct (decide (a' = a)) as [->|Hne].
  - by apply get_int_insert_eq, read_u64.
  - apply get_nonce_insert_ne. intros Heq. apply make_key_inj in Heq as [_ Heq].
    by apply Hne, addr_bytes_inj.
Qed.
Lemma get_nonce_put_balance db a b a' : db_get_nonce (put_balance db a b) a' = db_get_nonce db a'.
Proof. apply get_nonce_insert_ne. intros Heq. by apply make_key_inj in Heq as [? _]. Qed.
Lemma get_balance_put_nonce db a n a' : db_get_balance (put_nonce db a n) a' = db_get_balance db a'.
Proof. apply get_balance_insert_ne. intros Heq. by apply make_key_inj in Heq as [? _]. Qed.

Lemma stored_balance_put l acc vs a b a' :
  in_u128 b →
  stored_balance (MkLedger ((λ db, put_balance db a b) <$> database l) acc vs) a'
  = if decide (a' = a) then (if has_db l then Some b else None) else stored_balance l a'.
Proof.
  intros Hb. unfold stored_balance, has_db. cbn [database].
  destruct (database l) as [db|]; [|by destruct (decide _)].
  etransitivity; [by apply get_put_balance|]. by destruct (decide _).
Qed.
Lemma stored_nonce_put_balance l acc vs a b a' :
  stored_nonce (MkLedger ((λ db, put_balance db a b) <$> database l) acc vs) a' = stored_nonce l a'.
Proof.
  unfold stored_nonce. cbn [database]. destruct (database l); [|done]. apply get_nonce_put_balance.
Qed.
Lemma stored_balance_put_nonce l acc vs a n a' :
  stored_balance (MkLedger ((λ db, put_nonce db a n) <$> database l) acc vs) a' = stored_balance l a'.
Proof.
  unfold stored_balance. cbn [database]. destruct (database l); [|done]. apply get_balance_put_nonce.
Qed.
Lemma stored_nonce_put l acc vs a n a' :
  in_u64 n →
  stored_nonce (MkLedger ((λ db, put_nonce db a n) <$> database l) acc vs) a'
  = if decide (a' = a) then (if has_db l then Some n else None) else stored_nonce l a'.
Proof.
  intros Hn. unfold stored_nonce, has_db. cbn [database].
  destruct (database l) as [db|]; [|by destruct (decide _)].
  etransitivity; [by apply get_put_nonce|]. by destruct (decide _).
Qed.
Lemma has_db_put l f acc vs : has_db (MkLedger (f <$> database l) acc vs) = has_db l.
Proof. unfold has_db. cbn [database]. by destruct (database l). Qed.

(** The write-through update in each configuration. *)
Lemma wrote_verkle l v a b :
  verkle_state l = Some v → verkle_ok v → address_wf a = true → in_u128 b →
  wrote a b l (MkLedger ((λ db, put_balance db a b) <$> database l) (accounts l)
                 (Some (vs_set_balance v a b))).
Proof.
  intros Hv Hok Ha Hb. split.
  - by apply vs_set_balance_ok.
  - apply has_db_put.
  - unfold has_verkle. by rewrite Hv.
  - intros a' Ha'. unfold view. cbn [verkle_state]. rewrite Hv.
    by destruct (vs_set_balance_get v a b a' Hok Ha Ha' Hb) as [-> _].
  - intros a' Ha' _. unfold view. cbn [verkle_state]. rewrite Hv.
    by destruct (vs_set_balance_get v a b a' Hok Ha Ha' Hb) as [_ ->].
  - intros a' _. by apply stored_balance_put.
  - intros a'. by apply stored_nonce_put_balance.
Qed.

Lemma wrote_cache l1 l a b n acc :
  verkle_state l = None → in_u128 b →
  (∀ a', a' ≠ a → view l1 a' = view l a') → (∀ a', a' ≠ a → stored_balance l1 a' = stored_balance l a') →
  stored_balance l1 a = (if has_db l then Some b else None) → (∀ a', stored_nonce l1 a' = stored_nonce l a') →
  has_db l1 = has_db l → verkle_state l1 = None → accounts l1 = acc →
  wrote a b l (MkLedger (database l1) (<[a := MkAccount b n]> acc) None).
Proof.
  intros Hv Hb Hview Hsb Hsa Hsn Hdb Hv1 <-.
  assert (∀ a', a' ≠ a → view (MkLedger (database l1) (<[a := MkAccount b n]> (accounts l1)) None) a' = view l a')
    as Hother.
  { intros a' Hne. rewrite <- Hview by done. unfold view, cached, stored_balance, stored_nonce.
    cbn [verkle_state database accounts]. by rewrite Hv1, lookup_insert_ne. }
  split; try done.
  - unfold has_verkle. by rewrite Hv.
  - intros a' _. destruct (decide (a' = a)) as [->|Hne]; [|by rewrite Hother].
    unfold view, cached. cbn [verkle_state accounts]. rewrite lookup_insert_eq.
    rewrite (stored_balance_db l1), Hsa by done. by destruct (has_db l).
  - intros a' _ Hne. by rewrite Hother.
  - intros a' _. rewrite (stored_balance_db l1) by done.
    destruct (decide (a' = a)) as [->|]; [done|by apply Hsb].
Qed.

(** The ledger right after the database write of a balance. *)
Lemma view_put_balance l a b a' :
  verkle_state l = None → in_u128 b →
  let m := MkLedger ((λ db, put_balance db a b) <$> database l) (accounts l) None in
  (a' ≠ a → view m a' = view l a') ∧ (view m a').2 = (view l a').2.
Proof.
  intros Hv Hb m. unfold m, view. cbn [verkle_state]. rewrite Hv, stored_nonce_put_balance.
  split; [|done]. intros Hne. by rewrite stored_balance_put, decide_False.
Qed.

Lemma write_balance_steps a b nm l m :
  m = MkLedger ((λ db, put_balance db a b) <$> database l) (accounts l) (verkle_state l) →
  write_balance a b nm l = match verkle_state l with
                           | Some v => set_verkle (vs_set_balance v a b) m
                           | None => (n ← nm; insert_account a b n) m
                           end.
Proof.
  intros ->. unfold write_balance, mbind, SE_bind, db_put, se_mod, se_get. cbn [verkle_state].
  by destruct (verkle_state l).
Qed.

Lemma write_balance_wrote a b nm l :
  verkle_good l → address_wf a = true → in_u128 b →
  (∀ m, ∃ k m', nm m = (Ok k, m') ∧ reads m m') →
  ∃ l', write_balance a b nm l = (Ok tt, l') ∧ wrote a b l l' ∧
    (∀ v, verkle_state l = Some v → (view l' a).2 = (view l a).2) ∧
    (verkle_state l = None → ∃ m k m', nm m = (Ok k, m') ∧ (view m a).2 = (view l a).2 ∧
       (view l' a).2 = default k (stored_nonce l a)).
Proof.
  intros Hg Ha Hb Hnm. rewrite (write_balance_steps a b nm l _ eq_refl).
  destruct (verkle_state l) as [v|] eqn:Hv.
  - unfold verkle_good in Hg. rewrite Hv in Hg. eexists. split; [done|].
    split; [by apply (wrote_verkle l v)|]. split; [|done]. intros ? [= <-].
    unfold view. cbn [verkle_state]. rewrite Hv. by destruct (vs_set_balance_get v a b a Hg Ha Ha Hb) as [_ ->].
  - set (m := MkLedger _ _ None). destruct (Hnm m) as (k & m' & Hk & Hr).
    destruct (view_put_balance l a b a Hv Hb) as [_ Hn]. fold m in Hn.
    unfold mbind, SE_bind. rewrite Hk. unfold insert_account, se_mod. eexists. split; [done|].
    assert (∀ a', stored_nonce m' a' = stored_nonce l a') as Hsn.
    { intros a'. rewrite (reads_stored_nonce _ _ a' Hr). apply stored_nonce_put_balance. }
    split; [|split; [done|]].
    + rewrite (rd_verkle _ _ Hr). apply (wrote_cache m' l); try done.
      * intros a' Hne. rewrite (rd_view _ _ Hr). by apply (view_put_balance l a b a' Hv Hb).
      * intros a' Hne. rewrite (reads_stored_balance _ _ a' Hr). unfold m.
        by rewrite stored_balance_put, decide_False.
      * rewrite (reads_stored_balance _ _ a Hr). unfold m. by rewrite stored_balance_put, decide_True.
      * rewrite (reads_has_db _ _ Hr). apply has_db_put.
      * by rewrite (rd_verkle _ _ Hr).
    + intros _. exists m, k, m'. split_and!; try done.
      unfold view, cached. cbn [verkle_state accounts]. rewrite (rd_verkle _ _ Hr).
      cbn [m verkle_state]. rewrite lookup_insert_eq, (stored_nonce_db m'), Hsn by done. done.
Qed.

Lemma write_balance_keep a b l :
  verkle_good l → address_wf a = true → in_u128 b →
  ∃ l', write_balance a b (get_nonce a) l = (Ok tt, l') ∧ wrote a b l l' ∧ (view l' a).2 = (view l a).2.
Proof.
  intros Hg Ha Hb. destruct (write_balance_wrote a b (get_nonce a) l Hg Ha Hb) as (l' & Hw & Hwr & Hs & Hn).
  { intros m. destruct (get_nonce_spec a m) as (m' & ? & ?). eauto. }
  exists l'. split_and!; try done. destruct (verkle_state l) as [v|] eqn:Hv; [by eapply Hs|].
  destruct (Hn eq_refl) as (m & k & m' & Hk & Hm & ->).
  destruct (get_nonce_spec a m) as (m2 & Hk2 & _). rewrite Hk2 in Hk. injection Hk as <- <-.
  rewrite Hm. unfold view. rewrite Hv. by destruct (stored_nonce l a).
Qed.

Lemma write_balance_bump a b n l :
  verkle_good l → address_wf a = true → in_u128 b →
  ∃ l', write_balance a b (mret n) l = (Ok tt, l') ∧ wrote a b l l' ∧
    (has_db l = false → has_verkle l = false → (view l' a).2 = n).
Proof.
  intros Hg Ha Hb. destruct (write_balance_wrote a b (mret n : LM u64) l Hg Ha Hb) as (l' & Hw & Hwr & Hs & Hn).
  { intros m. by exists n, m. }
  exists l'. split_and!; try done. intros Hd Hv. apply bool_decide_eq_false_1 in Hd, Hv.
  rewrite <- eq_None_not_Some in Hd. rewrite <- eq_None_not_Some in Hv. destruct (Hn Hv) as (m & k & m' & Hk & _ & ->).
  injection Hk as <- <-. unfold stored_nonce. by rewrite Hd.
Qed.

Lemma persist_nonce_spec a n l :
  verkle_good l → address_wf a = true → in_u64 n →
  (has_db l = false → has_verkle l = false → (view l a).2 = n) →
  ∃ l', persist_nonce a n l = (Ok tt, l') ∧ verkle_good l' ∧
    has_db l' = has_db l ∧ has_verkle l' = has_verkle l ∧
    (∀ a', address_wf a' = true →
       view l' a' = if decide (a' = a) then ((view l a).1, n) else view l a') ∧
    (∀ a', stored_balance l' a' = stored_balance l a') ∧
    (∀ a', stored_nonce l' a' = if decide (a' = a) then (if has_db l then Some n else None)
                                else stored_nonce l a').
Proof.
  intros Hg Ha Hn Hp. unfold persist_nonce, mbind, SE_bind, db_put, se_mod, se_get, set_verkle, mret, SE_ret.
  cbn [verkle_state]. destruct (verkle_state l) as [v|] eqn:Hv.
  - unfold verkle_good in Hg. rewrite Hv in Hg. eexists. split; [done|]. split_and!.
    + by apply vs_set_nonce_ok.
    + apply has_db_put.
    + unfold has_verkle. by rewrite Hv.
    + intros a' Ha'. unfold view. cbn [verkle_state database]. rewrite Hv.
      destruct (vs_set_nonce_get v a n a' Hg Ha Ha' Hn) as [-> ->]. by destruct (decide (a' = a)) as [->|].
    + intros a'. apply stored_balance_put_nonce.
    + intros a'. by apply stored_nonce_put.
  - eexists. split; [done|]. split_and!; try done.
    + apply has_db_put.
    + unfold has_verkle. by rewrite Hv.
    + intros a' Ha'. unfold view. cbn [verkle_state]. rewrite Hv, stored_balance_put_nonce, stored_nonce_put by done.
      change (cached (MkLedger _ (accounts l) None)) with (cached l).
      destruct (decide (a' = a)) as [->|]; [|done]. f_equal.
      destruct (has_db l) eqn:Hd; [done|]. specialize (Hp eq_refl).
      unfold has_verkle, view in Hp. rewrite Hv in Hp. specialize (Hp eq_refl).
      apply bool_decide_eq_false_1 in Hd. rewrite <- eq_None_not_Some in Hd.
      unfold stored_nonce in Hp. by rewrite Hd in Hp.
    + intros a'. apply stored_balance_put_nonce.
    + intros a'. by apply stored_nonce_put.
Qed.
End View.

(** ** The abstract transfer *)

Definition Accts : Type := Address → u128 * u64.

Definition put_acct (v : Accts) (a : Address) (x : u128 * u64) : Accts :=
  λ a', if decide (a' = a) then x else v a'.
Definition set_bal (v : Accts) (a : Address) (b : u128) : Accts := put_acct v a (b, (v a).2).

(** What a native transfer does to the accounts: the sender's nonce goes up,
    the sender pays the value and, without a sponsor, the fee; the receiver,
    unless it is the zero address, gets the value. *)
Definition spec_debit (t : Transaction) (v : Accts) : result BlockchainError Accts :=
  let b := (v (from t)).1 in
  let n := sat_add64 (v (from t)).2 1 in
  if b <? value t then Err (InvalidTransaction "Insufficient balance for transaction value") else
  match sponsor t with
  | Some s =>
      if (v s).1 <? fee t
      then Err (InvalidTransaction "Insufficient sponsor balance for transaction fee")
      else Ok (put_acct (set_bal v s ((v s).1 - fee t)) (from t) (b - value t, n))
  | None =>
      if b - value t <? fee t
      then Err (InvalidTransaction "Insufficient balance for transaction fee")
      else Ok (put_acct v (from t) (b - value t - fee t, n))
  end.
Definition spec_credit (t : Transaction) (v : Accts) : Accts :=
  if bool_decide (to t = address_zero) then v else set_bal v (to t) (add128 (v (to t)).1 (value t)).
Definition spec_transfer (t : Transaction) (v : Accts) : result BlockchainError Accts :=
  spec_credit t <$> spec_debit t v.

(** The values the Rust types of a transaction allow. *)
Record tx_ok (t : Transaction) : Prop := {
  txo_from : address_wf (from t) = true;
  txo_to : address_wf (to t) = true;
  txo_sponsor : ∀ s, sponsor t = Some s → address_wf s = true;
  txo_value : in_u128 (value t);
  txo_fee : in_u128 (fee t);
  txo_nonce : in_u64 (nonce t) }.

Definition accts_ok (v : Accts) : Prop :=
  ∀ a, address_wf a = true → in_u128 (v a).1 ∧ in_u64 (v a).2.

Lemma put_acct_ok v a x : accts_ok v → in_u128 x.1 → in_u64 x.2 → accts_ok (put_acct v a x).
Proof. intros Hv H1 H2 a' Ha'. unfold put_acct. destruct (decide _); [done|by apply Hv]. Qed.

Lemma spec_debit_ok t v v' : tx_ok t → accts_ok v → spec_debit t v = Ok v' → accts_ok v'.
Proof.
  intros Ht Hv. unfold spec_debit.
  pose proof (Hv _ (txo_from _ Ht)) as [Hb Hn]. pose proof (txo_value _ Ht). pose proof (txo_fee _ Ht).
  destruct (_ <? value t) eqn:H1; [done|]. destruct (sponsor t) as [s|] eqn:Hs.
  - destruct (_ <? fee t) eqn:H2; [done|]. intros [= <-]. bool_to_prop.
    pose proof (Hv _ (txo_sponsor _ Ht s Hs)) as [Hsb Hsn].
    apply put_acct_ok; [apply put_acct_ok; cbn; [done|mlia|done]|cbn; mlia..].
  - destruct (_ <? fee t) eqn:H2; [done|]. intros [= <-]. bool_to_prop.
    apply put_acct_ok; [done|cbn; mlia..].
Qed.
Lemma spec_credit_ok t v : tx_ok t → accts_ok v → accts_ok (spec_credit t v).
Proof.
  intros Ht Hv. unfold spec_credit. destruct (bool_decide _); [done|].
  apply put_acct_ok; cbn; [done|apply add128_range|by apply Hv, Ht].
Qed.
Lemma spec_transfer_ok t v v' : tx_ok t → accts_ok v → spec_transfer t v = Ok v' → accts_ok v'.
Proof.
  intros Ht Hv. unfold spec_transfer. destruct (spec_debit t v) as [v1|] eqn:Hd; cbn; [|done].
  intros [= <-]. by eapply spec_credit_ok, spec_debit_ok.
Qed.

Section Transfer.
Context `{Hex, Keccak, Codec TxReceipt}.

Definition agrees (l : Ledger) (v : Accts) : Prop := ∀ a, address_wf a = true → view l a = v a.

(** The database has the observed balance of an account. *)
Definition synced (l : Ledger) (a : Address) : Prop :=
  has_db l = true → stored_balance l a = Some (view l a).1.

(** The accounts are [v], but for the nonce of [a], which [persist_nonce] is
    still to write. *)
Record unsettled (l : Ledger) (v : Accts) (a : Address) : Prop := {
  pe_good : verkle_good l;
  pe_balance : ∀ a', address_wf a' = true → (view l a').1 = (v a').1;
  pe_nonce : ∀ a', address_wf a' = true → a' ≠ a → (view l a').2 = (v a').2;
  pe_mem : has_db l = false → has_verkle l = false → (view l a).2 = (v a).2;
  pe_synced : synced l a }.

Lemma wrote_synced a b l l' a' :
  wrote a b l l' → address_wf a' = true → a' = a ∨ synced l a' → synced l' a'.
Proof.
  intros Hw Ha' Hs Hd. rewrite (wr_db _ _ _ _ Hw) in Hd.
  rewrite (wr_stored _ _ _ _ Hw), (wr_balance _ _ _ _ Hw), Hd by done.
  destruct (decide (a' = a)) as [->|Hne]; [done|]. destruct Hs as [?|Hs]; [done|by apply Hs].
Qed.

Lemma agrees_reads l l' v : agrees l v → reads l l' → agrees l' v.
Proof. intros Ha Hr a Hwf. by rewrite (rd_view _ _ Hr), Ha. Qed.

Lemma unsettled_wrote l l' v a b :
  agrees l v → address_wf a = true → wrote a b l l' →
  (has_db l = false → has_verkle l = false → (view l' a).2 = sat_add64 (v a).2 1) →
  unsettled l' (put_acct v a (b, sat_add64 (v a).2 1)) a.
Proof.
  intros Hag Ha Hw Hn. split.
  - apply Hw.
  - intros a' Ha'. rewrite (wr_balance _ _ _ _ Hw) by done. unfold put_acct.
    destruct (decide (a' = a)); [done|by rewrite Hag].
  - intros a' Ha' Hne. rewrite (wr_nonce _ _ _ _ Hw) by done. unfold put_acct.
    by rewrite decide_False, Hag.
  - intros Hd Hv. rewrite (wr_db _ _ _ _ Hw) in Hd. rewrite (wr_verkle _ _ _ _ Hw) in Hv.
    unfold put_acct. rewrite decide_True by done. by apply Hn.
  - eapply wrote_synced; [done..|by left].
Qed.

(** A balance written together with the nonce the account has. *)
Lemma agrees_wrote l l' v a b :
  agrees l v → address_wf a = true → wrote a b l l' → (view l' a).2 = (view l a).2 →
  agrees l' (set_bal v a b).
Proof.
  intros Hag Ha Hw Hn a' Ha'. unfold set_bal, put_acct.
  pose proof (wr_balance _ _ _ _ Hw a' Ha') as Hb. destruct (decide (a' = a)) as [->|Hne].
  - rewrite (surjective_pairing (view l' a)), Hb, Hn. by rewrite Hag.
  - rewrite (surjective_pairing (view l' a')), Hb, (wr_nonce _ _ _ _ Hw), Hag by done. by destruct (v a').
Qed.

Lemma debit_spec t l v :
  tx_ok t → accts_ok v → verkle_good l → agrees l v →
  match spec_debit t v with
  | Ok v1 => ∃ l1, debit t l = (Ok (v1 (from t)).2, l1) ∧ unsettled l1 v1 (from t) ∧
               has_db l1 = has_db l ∧ has_verkle l1 = has_verkle l
  | Err e => ∃ l1, debit t l = (Err e, l1) ∧ reads l l1
  end.
Proof.
  intros Ht Hv Hg Hag. pose proof (txo_from _ Ht) as Hfrom. pose proof (Hv _ Hfrom) as [Hb _].
  pose proof (txo_value _ Ht) as Hval. pose proof (txo_fee _ Ht) as Hfee.
  destruct (get_nonce_spec (from t) l) as (la & Ga & Ra).
  destruct (get_balance_spec (from t) la) as (lb & Gb & Rb).
  assert (reads l lb) as Rab by (by transitivity la).
  assert (agrees lb v) as Hagb by (by eapply agrees_reads).
  rewrite (rd_view _ _ Ra), Hag in Gb by done. rewrite Hag in Ga by done.
  unfold debit. rewrite (se_bind_step _ _ _ _ _ Ga), (se_bind_step _ _ _ _ _ Gb). unfold spec_debit.
  destruct ((v (from t)).1 <? value t) eqn:Hlt; [by exists lb|]. bool_to_prop.
  destruct (sponsor t) as [s|] eqn:Hs.
  - pose proof (txo_sponsor _ Ht s Hs) as Hswf. pose proof (Hv _ Hswf) as [Hsb _].
    destruct (get_balance_spec s lb) as (lc & Gc & Rc). rewrite Hagb in Gc by done.
    rewrite (se_bind_step _ _ _ _ _ Gc). assert (reads l lc) as Rac by (by transitivity lb).
    destruct ((v s).1 <? fee t) eqn:Hf; [by exists lc|]. bool_to_prop.
    destruct (write_balance_keep s ((v s).1 - fee t) lc) as (ld & Gd & Wd & Nd);
      [by eapply reads_good|done|mlia|].
    assert (agrees ld (set_bal v s ((v s).1 - fee t))) as Hagd.
    { eapply agrees_wrote; [by apply (agrees_reads l)|done..]. }
    rewrite (se_bind_step _ _ _ _ _ Gd).
    destruct (write_balance_bump (from t) ((v (from t)).1 - value t) (sat_add64 (v (from t)).2 1) ld)
      as (le & Ge & We & Ne); [apply Wd|done|mlia|].
    rewrite (se_bind_step _ _ _ _ _ Ge). exists le. split_and!.
    + unfold put_acct. by rewrite decide_True.
    + assert ((set_bal v s ((v s).1 - fee t) (from t)).2 = (v (from t)).2) as Hk.
      { unfold set_bal, put_acct. by destruct (decide (from t = s)) as [->|]. }
      rewrite <- Hk. eapply unsettled_wrote; [done..|]. by rewrite Hk.
    + by rewrite (wr_db _ _ _ _ We), (wr_db _ _ _ _ Wd), (reads_has_db _ _ Rac).
    + by rewrite (wr_verkle _ _ _ _ We), (wr_verkle _ _ _ _ Wd), (reads_has_verkle _ _ Rac).
  - destruct ((v (from t)).1 - value t <? fee t) eqn:Hf; [by exists lb|]. bool_to_prop.
    destruct (write_balance_bump (from t) ((v (from t)).1 - value t - fee t)
      (sat_add64 (v (from t)).2 1) lb) as (le & Ge & We & Ne); [by eapply reads_good|done|mlia|].
    rewrite (se_bind_step _ _ _ _ _ Ge). exists le. split_and!.
    + unfold put_acct. by rewrite decide_True.
    + by eapply unsettled_wrote.
    + by rewrite (wr_db _ _ _ _ We), (reads_has_db _ _ Rab).
    + by rewrite (wr_verkle _ _ _ _ We), (reads_has_verkle _ _ Rab).
Qed.

Lemma credit_spec t l v :
  tx_ok t → accts_ok v → unsettled l v (from t) →
  ∃ l1, credit t l = (Ok tt, l1) ∧ unsettled l1 (spec_credit t v) (from t) ∧
    (to t ≠ address_zero → synced l1 (to t)) ∧ has_db l1 = has_db l ∧ has_verkle l1 = has_verkle l.
Proof.
  intros Ht Hv [Hg Hb Hn Hm Hs]. unfold credit, spec_credit. case_bool_decide as Hz; [by exists l|].
  pose proof (txo_to _ Ht) as Hto. pose proof (txo_from _ Ht) as Hfrom.
  destruct (get_balance_spec (to t) l) as (la & Ga & Ra). rewrite (se_bind_step _ _ _ _ _ Ga).
  rewrite Hb by done.
  destruct (write_balance_keep (to t) (add128 (v (to t)).1 (value t)) la) as (lb & Gb & Wb & Nb);
    [by eapply reads_good|done|apply add128_range|].
  assert (∀ a', address_wf a' = true → (view lb a').2 = (view l a').2) as Hnon.
  { intros a' Ha'. rewrite <- (rd_view _ _ Ra). destruct (decide (a' = to t)) as [->|Hne]; [done|].
    by apply (wr_nonce _ _ _ _ Wb). }
  assert (∀ a', (set_bal v (to t) (add128 (v (to t)).1 (value t)) a').2 = (v a').2) as Hsn.
  { intros a'. unfold set_bal, put_acct. by destruct (decide (a' = to t)) as [->|]. }
  exists lb. split_and!; [done| | |by rewrite (wr_db _ _ _ _ Wb), (reads_has_db _ _ Ra)|
    by rewrite (wr_verkle _ _ _ _ Wb), (reads_has_verkle _ _ Ra)].
  - split.
    + apply Wb.
    + intros a' Ha'. rewrite (wr_balance _ _ _ _ Wb) by done. unfold set_bal, put_acct.
      destruct (decide (a' = to t)); [done|]. by rewrite (rd_view _ _ Ra), Hb.
    + intros a' Ha' Hne. by rewrite Hsn, Hnon, Hn.
    + rewrite Hsn, Hnon, (wr_db _ _ _ _ Wb), (wr_verkle _ _ _ _ Wb), (reads_has_db _ _ Ra),
        (reads_has_verkle _ _ Ra) by done. exact Hm.
    + eapply wrote_synced; [done..|right]. intros Hd. rewrite (reads_has_db _ _ Ra) in Hd.
      by rewrite (reads_stored_balance _ _ _ Ra), (rd_view _ _ Ra), Hs.
  - intros _. eapply wrote_synced; [done..|by left].
Qed.

(** The consistency check passes when the database has what is observed. *)
Lemma verify_consistency_spec t l :
  synced l (from t) → (has_db l = true → stored_nonce l (from t) = Some (view l (from t)).2) →
  (to t ≠ address_zero → synced l (to t)) →
  ∃ l', verify_post_transaction_consistency t l = (Ok tt, l') ∧ reads l l'.
Proof.
  intros Hs Hn Hto. unfold verify_post_transaction_consistency, synced, has_db in *.
  rewrite (se_bind_step (E:=BlockchainError) se_get _ l l l eq_refl).
  destruct (database l) as [db|] eqn:Hd; [|by exists l].
  specialize (Hs eq_refl). specialize (Hn eq_refl).
  destruct (get_balance_spec (from t) l) as (la & Ga & Ra). rewrite (se_bind_step _ _ _ _ _ Ga).
  unfold check_equal. rewrite Hs. cbn [default]. rewrite Z.eqb_refl.
  rewrite (se_bind_step (mret tt : LM unit) _ la tt la eq_refl).
  destruct (get_nonce_spec (from t) la) as (lb & Gb & Rb). rewrite (se_bind_step _ _ _ _ _ Gb).
  rewrite Hn, (rd_view _ _ Ra). cbn [default]. rewrite Z.eqb_refl.
  rewrite (se_bind_step (mret tt : LM unit) _ lb tt lb eq_refl).
  assert (reads l lb) as Rab by (by transitivity la).
  destruct (bool_decide (to t = address_zero)) eqn:Hz; [by exists lb|]. bool_to_prop. specialize (Hto Hz eq_refl).
  destruct (get_balance_spec (to t) lb) as (lc & Gc & Rc). rewrite (se_bind_step _ _ _ _ _ Gc).
  rewrite Hto, (rd_view _ _ Rab). cbn [default]. rewrite Z.eqb_refl. exists lc. split; [done|].
  by transitivity lb.
Qed.

Lemma store_receipt_spec h r l :
  ∃ l', store_receipt h r l = (Ok tt, l') ∧ (∀ a, view l' a = view l a) ∧
    verkle_state l' = verkle_state l ∧ has_db l' = has_db l ∧
    (has_db l = true → is_Some (serialize r) → get_tx_receipt l' h = Some r).
Proof.
  unfold store_receipt. destruct (serialize r) as [bs|] eqn:Hser; [|exists l; by split_and!; try done; intros _ []].
  eexists. split; [done|]. split_and!; [|done|apply has_db_put|].
  - intros a. unfold view. cbn [verkle_state]. destruct (verkle_state l); [done|].
    unfold cached, stored_balance, stored_nonce. cbn [database accounts].
    destruct (database l) as [db|]; [|done]. cbn [fmap option_fmap option_map mbind option_bind].
    unfold insert_raw, receipt_key. rewrite get_balance_insert_ne, get_nonce_insert_ne; [done|..];
      intros Heq; by apply make_key_inj in Heq as [? _].
  - unfold has_db, get_tx_receipt. cbn [database]. destruct (database l) as [db|]; [|done]. intros _ _.
    unfold get_raw, insert_raw. cbn [fmap option_fmap option_map mbind option_bind].
    rewrite lookup_insert_eq. cbn. by apply deserialize_serialize.
Qed.

(** The last steps of a native transfer. *)
Definition settle (t : Transaction) (n : u64) : LM unit :=
  _ ← persist_nonce (from t) n;
  _ ← verify_post_transaction_consistency t;
  store_receipt (tx_hash t) native_receipt.

Lemma settle_spec t l v :
  tx_ok t → accts_ok v → unsettled l v (from t) → (to t ≠ address_zero → synced l (to t)) →
  ∃ l', settle t (v (from t)).2 l = (Ok tt, l') ∧ agrees l' v ∧ verkle_good l' ∧
    has_db l' = has_db l ∧ has_verkle l' = has_verkle l ∧
    (has_db l = true → is_Some (serialize native_receipt) →
     get_tx_receipt l' (tx_hash t) = Some native_receipt).
Proof.
  intros Ht Hv [Hg Hb Hn Hm Hs] Hto. pose proof (txo_from _ Ht) as Hfrom.
  destruct (persist_nonce_spec (from t) (v (from t)).2 l Hg Hfrom) as (la & Ga & Gooda & Da & Va & Viewa & Sa & Na);
    [by apply Hv|done|].
  assert (agrees la v) as Haga.
  { intros a' Ha'. rewrite Viewa by done. destruct (decide (a' = from t)) as [->|Hne].
    - rewrite Hb by done. by destruct (v (from t)).
    - rewrite (surjective_pairing (view l a')), Hb, Hn by done. by destruct (v a'). }
  assert (∀ a', address_wf a' = true → (view la a').1 = (view l a').1) as Hsame.
  { intros a' Ha'. rewrite Viewa by done. by destruct (decide (a' = from t)) as [->|]. }
  unfold settle. rewrite (se_bind_step _ _ _ _ _ Ga).
  destruct (verify_consistency_spec t la) as (lb & Gb & Rb).
  { intros Hd. rewrite Sa, Hsame by done. apply Hs. by rewrite <- Da. }
  { intros Hd. rewrite Na, decide_True, <- Da, Hd by done. by rewrite Haga. }
  { intros Hz Hd. rewrite Sa, Hsame by apply Ht. apply Hto; [done|]. by rewrite <- Da. }
  rewrite (se_bind_step _ _ _ _ _ Gb).
  destruct (store_receipt_spec (tx_hash t) native_receipt lb) as (lc & Gc & Viewc & Vc & Dc & Rc).
  exists lc. split_and!; [done| | | | |].
  - intros a' Ha'. by rewrite Viewc, (rd_view _ _ Rb), Haga.
  - unfold verkle_good. rewrite Vc. by apply (reads_good la).
  - by rewrite Dc, (reads_has_db _ _ Rb).
  - unfold has_verkle. rewrite Vc. by rewrite (rd_verkle _ _ Rb).
  - intros Hd. apply Rc. by rewrite (reads_has_db _ _ Rb), Da.
Qed.
End Transfer.

(** ** Conservation *)

Definition supply (v : Accts) (dom : list Address) : Z := foldr (λ a, Z.add (v a).1) 0 dom.

(** The fee a transfer takes out of circulation: none when the sender is its
    own sponsor; and the value sent to the zero address. *)
Definition fee_taken (t : Transaction) : Z :=
  if bool_decide (sponsor t = Some (from t)) then 0 else fee t.
Definition value_burned (t : Transaction) : Z :=
  if bool_decide (to t = address_zero) then value t else 0.

Definition touches (t : Transaction) (dom : list Address) : Prop :=
  from t ∈ dom ∧ to t ∈ dom ∧ ∀ s, sponsor t = Some s → s ∈ dom.

Lemma supply_cons v a dom : supply v (a :: dom) = (v a).1 + supply v dom.
Proof. done. Qed.
Lemma supply_put_notin v a x dom : a ∉ dom → supply (put_acct v a x) dom = supply v dom.
Proof.
  induction dom as [|c dom IH]; intros Ha; [done|]. apply not_elem_of_cons in Ha as [Hne Ha].
  rewrite !supply_cons, IH by done. unfold put_acct at 1. by rewrite decide_False.
Qed.
Lemma supply_put v a x dom :
  NoDup dom → a ∈ dom → supply (put_acct v a x) dom = supply v dom - (v a).1 + x.1.
Proof.
  induction 1 as [|c dom Hc Hnd IH]; intros Ha; [by apply elem_of_nil in Ha|].
  rewrite !supply_cons.
  destruct (decide (a = c)) as [->|Hne].
  - rewrite supply_put_notin by done. unfold put_acct at 1. rewrite decide_True by done. lia.
  - apply elem_of_cons in Ha as [?|Ha]; [done|]. rewrite IH by done.
    unfold put_acct at 1. rewrite decide_False by done. lia.
Qed.
Lemma supply_member v a dom :
  (∀ c, c ∈ dom → 0 <= (v c).1) → a ∈ dom → 0 <= (v a).1 <= supply v dom.
Proof.
  induction dom as [|c dom IH]; intros Hp Ha; [by apply elem_of_nil in Ha|].
  assert (0 <= supply v dom) as Hs.
  { clear -Hp. induction dom as [|d dom IH]; [done|]. rewrite supply_cons.
    assert (0 <= (v d).1) by (apply Hp; right; left).
    assert (0 <= supply v dom); [|lia]. apply IH. intros e [->|He]%elem_of_cons; apply Hp; [left|by right; right]. }
  rewrite supply_cons. assert (0 <= (v c).1) by (apply Hp; left).
  apply elem_of_cons in Ha as [->|Ha]; [lia|].
  assert (0 <= (v a).1 <= supply v dom); [|lia]. apply IH; [|done]. intros d Hd. apply Hp. by right.
Qed.

Lemma supply_ext v v' dom : (∀ a, a ∈ dom → v a = v' a) → supply v dom = supply v' dom.
Proof.
  induction dom as [|a dom IH]; intros He; [done|]. rewrite !supply_cons, IH, He by (left || intros; apply He; by right).
  done.
Qed.
Lemma supply_zero n dom : supply (λ _, (0, n)) dom = 0.
Proof. induction dom as [|a dom IH]; [done|]. by rewrite supply_cons, IH. Qed.

Lemma spec_debit_supply t v v' dom :
  NoDup dom → touches t dom → spec_debit t v = Ok v' →
  supply v' dom = supply v dom - value t - fee_taken t.
Proof.
  intros Hnd (Hf & _ & Hs). unfold spec_debit, fee_taken.
  destruct (_ <? value t); [done|]. destruct (sponsor t) as [s|] eqn:Hsp.
  - destruct (_ <? fee t); [done|]. intros [= <-]. specialize (Hs s eq_refl).
    rewrite supply_put by done. unfold set_bal. rewrite supply_put by done.
    unfold put_acct. cbn [fst]. case_bool_decide as He.
    + injection He as ->. rewrite decide_True by done. cbn. lia.
    + rewrite decide_False by congruence. cbn. lia.
  - destruct (_ <? fee t); [done|]. intros [= <-]. rewrite supply_put by done.
    rewrite bool_decide_eq_false_2 by done. cbn. lia.
Qed.

Lemma spec_transfer_supply t v v' dom :
  NoDup dom → touches t dom → tx_ok t → accts_ok v → Forall (λ a, address_wf a = true) dom →
  supply v dom <= u128_max → spec_transfer t v = Ok v' →
  supply v' dom = supply v dom - fee_taken t - value_burned t.
Proof.
  intros Hnd Ht Hok Hv Hwf Hmax. unfold spec_transfer, value_burned.
  destruct (spec_debit t v) as [v1|] eqn:Hd; cbn; [|done]. intros [= <-].
  pose proof (spec_debit_supply t v v1 dom Hnd Ht Hd) as Hs. pose proof (spec_debit_ok t v v1 Hok Hv Hd) as Hok1.
  unfold spec_credit. case_bool_decide as Hz; [lia|]. destruct Ht as (_ & Hto & _).
  unfold set_bal. rewrite supply_put by done. cbn [fst].
  assert (0 <= (v1 (to t)).1 <= supply v1 dom).
  { apply supply_member; [|done]. intros c Hc. apply Hok1. rewrite Forall_forall in Hwf. by apply Hwf. }
  assert (0 <= fee_taken t). { unfold fee_taken. pose proof (txo_fee _ Hok). case_bool_decide; mlia. }
  pose proof (txo_value _ Hok). rewrite add128_small by mlia. lia.
Qed.

(** ** Genesis *)

Section Genesis.
Context `{Hex, Keccak, Codec TxReceipt}.

Lemma set_balance_spec a b l :
  verkle_good l → address_wf a = true → in_u128 b →
  ∃ l', set_balance a b l = (Ok tt, l') ∧ wrote a b l l' ∧ (view l' a).2 = (view l a).2.
Proof.
  intros Hg Ha Hb. unfold set_balance, mbind, SE_bind, se_get, db_put, set_verkle, insert_account, se_mod.
  destruct (verkle_state l) as [v|] eqn:Hv; cbn [verkle_state accounts database].
  - unfold verkle_good in Hg. rewrite Hv in Hg. eexists. split; [done|]. split; [by apply (wrote_verkle l v)|].
    unfold view. cbn [verkle_state]. rewrite Hv. by destruct (vs_set_balance_get v a b a Hg Ha Ha Hb) as [_ ->].
  - eexists. split; [done|]. destruct (view_put_balance l a b a Hv Hb) as [_ Hn]. rewrite Hv. split.
    + pose proof (wrote_cache (MkLedger ((λ db, put_balance db a b) <$> database l) (accounts l) None) l a b
        (match accounts l !! a with Some acc => acc_nonce acc | None => 0 end) (accounts l)) as Hw.
      cbn [database] in Hw. apply Hw; try done.
      * intros a' Hne. by apply (view_put_balance l a b a' Hv Hb).
      * intros a' Hne. by rewrite stored_balance_put, decide_False.
      * by rewrite stored_balance_put, decide_True.
      * intros a'. by apply stored_nonce_put_balance.
      * apply has_db_put.
    + rewrite <- Hn. unfold view, cached. cbn [verkle_state accounts]. rewrite lookup_insert_eq.
      rewrite !stored_nonce_put_balance. by destruct (accounts l !! a).
Qed.

(** The address of an allocation. *)
Definition alloc_addr (ga : GenesisAllocation) : Address :=
  match address_bytes ga with Ok a => a | Err _ => address_zero end.
Definition spec_genesis (v : Accts) (allocs : list GenesisAllocation) : Accts :=
  foldl (λ v ga, set_bal v (alloc_addr ga) (ga_balance ga)) v allocs.

Definition allocated (allocs : list GenesisAllocation) : Z := foldr (λ ga, Z.add (ga_balance ga)) 0 allocs.

Lemma apply_allocations_spec allocs total l l' total' v :
  Forall (λ ga, in_u128 (ga_balance ga)) allocs → verkle_good l → agrees l v → 0 <= total →
  apply_allocations total allocs l = (Ok total', l') →
  agrees l' (spec_genesis v allocs) ∧ verkle_good l' ∧ total' = total + allocated allocs ∧
  (allocs ≠ [] → total' <= u128_max) ∧ Forall (λ ga, address_wf (alloc_addr ga) = true) allocs.
Proof.
  intros Hr. revert total l v. induction Hr as [|ga allocs Hga Hr IH]; intros total l v Hg Hag Ht Hrun.
  { injection Hrun as <- <-. cbn. rewrite Z.add_0_r. split_and!; done. }
  cbn [apply_allocations] in Hrun.
  apply se_bind_Ok in Hrun as ([] & l1 & Hval & Hrun). injection Hval as Hval <-.
  destruct (validate_address_bytes _ Hval) as (a & Ha & Hwf & _).
  apply se_bind_Ok in Hrun as (a1 & l1 & Haddr & Hrun). unfold se_read in Haddr. injection Haddr as Haddr <-.
  rewrite Ha in Haddr. injection Haddr as <-.
  apply se_bind_Ok in Hrun as (t1 & l1 & Hsum & Hrun). unfold se_read in Hsum. injection Hsum as Hsum <-.
  unfold checked_add128 in Hsum. destruct (_ <=? u128_max) eqn:Hle; [|done]. injection Hsum as <-. bool_to_prop.
  apply se_bind_Ok in Hrun as ([] & l1 & Hset & Hrun).
  destruct (set_balance_spec a (ga_balance ga) l Hg Hwf Hga) as (l2 & Hs & Hw & Hn).
  rewrite Hs in Hset. injection Hset as <-.
  destruct (IH (total + ga_balance ga) l2 (set_bal v a (ga_balance ga))) as (Hag' & Hg' & -> & Hmax & Hall);
    [apply Hw|by eapply agrees_wrote|mlia|exact Hrun|].
  assert (alloc_addr ga = a) as Haddr by (unfold alloc_addr; by rewrite Ha).
  split_and!; [|done|cbn; fold (allocated allocs); lia| |].
  - cbn [spec_genesis foldl]. by rewrite Haddr.
  - intros _. destruct allocs; [cbn; lia|]. by apply Hmax.
  - constructor; [by rewrite Haddr|done].
Qed.

Lemma spec_genesis_supply allocs v dom :
  NoDup dom → NoDup (alloc_addr <$> allocs) → (∀ ga, ga ∈ allocs → alloc_addr ga ∈ dom) →
  (∀ ga, ga ∈ allocs → (v (alloc_addr ga)).1 = 0) →
  supply (spec_genesis v allocs) dom = supply v dom + allocated allocs.
Proof.
  intros Hnd. revert v. induction allocs as [|ga allocs IH]; intros v Hu Hin Hz; [cbn; lia|].
  cbn [fmap list_fmap] in Hu. apply NoDup_cons in Hu as [Hna Hu]. cbn [spec_genesis foldl].
  fold (spec_genesis (set_bal v (alloc_addr ga) (ga_balance ga)) allocs).
  rewrite IH; [|done|intros; apply Hin; by right|].
  - unfold set_bal. rewrite supply_put by (done || apply Hin; left). rewrite (Hz ga) by left.
    change (allocated (ga :: allocs)) with (ga_balance ga + allocated allocs). cbn [fst]. lia.
  - intros gb Hgb. unfold set_bal, put_acct. rewrite decide_False; [apply Hz; by right|].
    intros Heq. apply Hna. rewrite <- Heq. by apply list_elem_of_fmap_2.
Qed.

Lemma spec_genesis_ok allocs :
  Forall (λ ga, in_u128 (ga_balance ga)) allocs → accts_ok (spec_genesis (λ _, (0, 0)) allocs).
Proof.
  intros Hr. assert (∀ v, (∀ a, in_u128 (v a).1 ∧ in_u64 (v a).2) →
    ∀ a, in_u128 (spec_genesis v allocs a).1 ∧ in_u64 (spec_genesis v allocs a).2) as Hgen.
  { induction Hr as [|ga allocs Hga Hr IH]; intros v Hv a; [apply Hv|]. apply IH. intros a'.
    unfold set_bal, put_acct. destruct (decide _); [|apply Hv]. split; [done|apply Hv]. }
  intros a _. apply Hgen. intros a'. cbn. mlia.
Qed.

Lemma spec_genesis_lookup allocs v ga :
  NoDup (alloc_addr <$> allocs) → ga ∈ allocs →
  spec_genesis v allocs (alloc_addr ga) = (ga_balance ga, (v (alloc_addr ga)).2).
Proof.
  revert v. induction allocs as [|gb allocs IH]; intros v Hu Hin; [by apply elem_of_nil in Hin|].
  cbn [fmap list_fmap] in Hu. apply NoDup_cons in Hu as [Hna Hu]. cbn [spec_genesis foldl].
  fold (spec_genesis (set_bal v (alloc_addr gb) (ga_balance gb)) allocs).
  apply elem_of_cons in Hin as [->|Hin].
  - assert (∀ w, spec_genesis w allocs (alloc_addr gb) = w (alloc_addr gb)) as ->.
    { clear -Hna. induction allocs as [|gc allocs IH]; intros w; [done|]. cbn [spec_genesis foldl].
      fold (spec_genesis (set_bal w (alloc_addr gc) (ga_balance gc)) allocs).
      cbn [fmap list_fmap] in Hna. apply not_elem_of_cons in Hna as [Hne Hna]. rewrite IH by done.
      unfold set_bal, put_acct. by rewrite decide_False. }
    unfold set_bal, put_acct. by rewrite decide_True.
  - rewrite IH by done. unfold set_bal, put_acct. destruct (decide _) as [Heq|]; [|done].
    exfalso. apply Hna. rewrite <- Heq. by apply list_elem_of_fmap_2.
Qed.

(** Applying the genesis allocations to an empty ledger gives every
    allocated address its amount and the others nothing, and the total supply
    is the sum of the allocations, which fits in 128 bits. *)
Theorem genesis_allocations_spec allocs l l' dom :
  Forall (λ ga, in_u128 (ga_balance ga)) allocs → verkle_good l → (∀ a, view l a = (0, 0)) →
  NoDup (alloc_addr <$> allocs) → NoDup dom → (∀ ga, ga ∈ allocs → alloc_addr ga ∈ dom) →
  Forall (λ a, address_wf a = true) dom →
  apply_genesis_allocations allocs l = (Ok tt, l') →
  (∀ ga, ga ∈ allocs → view l' (alloc_addr ga) = (ga_balance ga, 0)) ∧
  supply (view l') dom = allocated allocs ∧ allocated allocs <= u128_max ∧ ledger_ok l'.
Proof.
  intros Hr Hg Hv Hu Hnd Hin Hdom Hrun.
  apply se_bind_Ok in Hrun as (total & l1 & Hrun & Hret). injection Hret as <-.
  destruct (apply_allocations_spec allocs 0 l l1 total (λ _, (0, 0)) Hr Hg) as (Hag & Hg' & -> & Hmax & Hwf);
    [by intros a _|done|done|].
  assert (allocated allocs <= u128_max) as Hle by (destruct allocs; [done|by apply Hmax]).
  split; [|split; [|split; [done|]]].
  - intros ga Hga. rewrite Forall_forall in Hwf. rewrite Hag by by apply Hwf. by apply spec_genesis_lookup.
  - rewrite (supply_ext _ (spec_genesis (λ _, (0, 0)) allocs)).
    + rewrite spec_genesis_supply by done. rewrite supply_zero. lia.
    + intros a Ha. rewrite Forall_forall in Hdom. by apply Hag, Hdom.
  - split; [done|]. intros a Ha. rewrite Hag by done. by apply spec_genesis_ok.
Qed.
End Genesis.
