(* ===== verification/BlockIndex.v ===== *)
(** * BlockIndex: the blocks in memory and the checks a block has to pass

    Models [BlocksData] and the block validation of
    [irondag-blockchain/src/blockchain/mod.rs]: the vector of blocks with its
    indices by hash, height and transaction, the queries on it, the checks of a
    locally produced block ([validate_block_structure], [validate_parent_hashes])
    and those of a block received from a peer ([validate_block_enhanced]).
    [now] is the clock reading of the call.  An index out of range is a panic. *)

From S2P Require Import Prelude Types Block Pow Error.

Definition MAX_BLOCK_SIZE : usize := 4 * 1024 * 1024.
Definition MAX_PARENT_HASHES : usize := 10.
Definition MAX_TRANSACTIONS_PER_BLOCK : usize := 10000.
Definition MAX_TIMESTAMP_DRIFT : u64 := 15.
Definition MIN_TIMESTAMP : u64 := 1577836800.
Definition MAX_PARENT_AGE : u64 := 100000.

Record BlocksData := MkBlocksData {
  blocks : list Block;
  block_hashes : gset Hash;
  block_by_hash : gmap Hash nat;
  block_by_number : gmap u64 nat;
  tx_by_hash : gmap Hash (nat * nat) }.

Definition blocks_new : BlocksData := MkBlocksData [] ∅ ∅ ∅ ∅.

(** [for (tx_idx, tx) in block.transactions.iter().enumerate() { .. }] *)
Fixpoint index_txs (block_idx tx_idx : nat) (txs : list Transaction) (m : gmap Hash (nat * nat)) :
    gmap Hash (nat * nat) :=
  match txs with
  | [] => m
  | tx :: rest => index_txs block_idx (S tx_idx) rest (<[tx_hash tx := (block_idx, tx_idx)]> m)
  end.

Definition push_block (b : Block) (d : BlocksData) : BlocksData :=
  let block_idx := length (blocks d) in
  MkBlocksData (blocks d ++ [b]) ({[block_hash b]} ∪ block_hashes d)
    (<[block_hash b := block_idx]> (block_by_hash d))
    (<[block_number (header b) := block_idx]> (block_by_number d))
    (index_txs block_idx 0 (transactions b) (tx_by_hash d)).

(** A checkpoint block is pushed without indexing its transactions. *)
Definition push_checkpoint (b : Block) (d : BlocksData) : BlocksData :=
  let block_idx := length (blocks d) in
  MkBlocksData (blocks d ++ [b]) ({[block_hash b]} ∪ block_hashes d)
    (<[block_hash b := block_idx]> (block_by_hash d))
    (<[block_number (header b) := block_idx]> (block_by_number d)) (tx_by_hash d).

(** The part of [clear_for_resync] on the blocks in memory. *)
Definition clear_blocks (d : BlocksData) : BlocksData :=
  MkBlocksData [] ∅ (block_by_hash d) (block_by_number d) (tx_by_hash d).

(** ** Queries *)

(** [v[i]] *)
Definition index {A} (l : list A) (i : nat) : result BlockchainError A :=
  ok_or (Panic "index out of bounds") (l !! i).

(** The in-memory part of [get_block_by_hash]. *)
Definition find_by_hash (d : BlocksData) (h : Hash) : result BlockchainError (option Block) :=
  match block_by_hash d !! h with
  | Some i => b ← index (blocks d) i; Ok (Some b)
  | None => Ok None
  end.
Definition get_block_by_number (d : BlocksData) (n : u64) : result BlockchainError (option Block) :=
  match block_by_number d !! n with
  | Some i => b ← index (blocks d) i; Ok (Some b)
  | None => Ok None
  end.
Definition get_transaction_by_hash (d : BlocksData) (h : Hash) :
    result BlockchainError (option (Block * Transaction * nat)) :=
  match tx_by_hash d !! h with
  | Some (i, j) => b ← index (blocks d) i; t ← index (transactions b) j; Ok (Some (b, t, j))
  | None => Ok None
  end.
Definition get_latest_block (d : BlocksData) : option Block := last (blocks d).
Definition get_blocks_tail (d : BlocksData) (n : nat) : list Block :=
  drop (length (blocks d) - n) (blocks d).
(** [max_by_key] returns the last of several maximal elements. *)
Definition get_latest_block_for_stream (d : BlocksData) (s : StreamType) : option Block :=
  foldl (λ best b, match best with
                   | Some c => if block_number (header c) <=? block_number (header b) then Some b else best
                   | None => Some b
                   end) None
    (filter (λ b, stream_type (header b) = s) (blocks d)).
Definition transaction_count (d : BlocksData) : nat :=
  sum_list (length ∘ transactions <$> blocks d).

(** ** Locally produced blocks *)

Section Structure.
Context `{Codec Block}.

Definition size_of (b : Block) : option usize := (λ bs, Z.of_nat (length bs)) <$> serialize b.

Definition check_size_and_parents (b : Block) : result BlockchainError unit :=
  block_size ← ok_or (Serialization "bincode") (size_of b);
  _ ← ensure (block_size <=? MAX_BLOCK_SIZE) (InvalidBlock "Block size exceeds maximum");
  ensure (Z.of_nat (length (parent_hashes (header b))) <=? MAX_PARENT_HASHES)
    (InvalidBlock "Too many parent hashes").

(** The checks of a non-genesis block that need no chain state. *)
Definition check_not_genesis (now : u64) (b : Block) : result BlockchainError unit :=
  _ ← ensure (negb (bool_decide (parent_hashes (header b) = [])))
        (InvalidBlock "Non-genesis block must have at least one parent");
  _ ← ensure (timestamp (header b) <=? add64 now 600) (Validation "Block timestamp too far in future");
  ensure (1577836800 <=? timestamp (header b)) (Validation "Block timestamp too old").

Definition validate_block_structure_for_sync (now : u64) (b : Block) : result BlockchainError unit :=
  _ ← check_size_and_parents b;
  if block_number (header b) =? 0 then Ok tt else check_not_genesis now b.

(** [timestamps.sort(); timestamps[timestamps.len() / 2]] of the last blocks. *)
Definition recent_timestamps (d : BlocksData) : list u64 :=
  (λ b, timestamp (header b)) <$> take 11 (rev (blocks d)).
Definition median_timestamp (d : BlocksData) : u64 :=
  let timestamps := sort_by Z.leb (recent_timestamps d) in
  nth (length timestamps / 2) timestamps 0.

Definition validate_block_structure (now : u64) (d : BlocksData) (b : Block) :
    result BlockchainError unit :=
  _ ← check_size_and_parents b;
  if block_number (header b) =? 0 then
    ensure (bool_decide (blocks d = [])) (InvalidBlock "Genesis block must be first")
  else
    _ ← check_not_genesis now b;
    if bool_decide (blocks d = []) then Ok tt else
    ensure (negb (add64 (timestamp (header b)) 2 <? median_timestamp d))
      (Validation "Block timestamp is before median timestamp of recent blocks").
End Structure.

Definition validate_parent_hashes (d : BlocksData) (b : Block) : result BlockchainError unit :=
  if block_number (header b) =? 0 then Ok tt else
  ensure (existsb (λ p, bool_decide (p ∈ block_hashes d)) (parent_hashes (header b)))
    (InvalidBlock "No valid parent hash found").

(** ** Blocks received from a peer *)

(** [blocks.iter().find(|b| &b.hash == hash)] *)
Definition find_block (d : BlocksData) (h : Hash) : option Block :=
  List.find (λ b, bool_decide (block_hash b = h)) (blocks d).

Definition valid_parent (d : BlocksData) (current : u64) (p : Hash) : bool :=
  bool_decide (p ∈ block_hashes d) &&
  match find_block d p with
  | Some pb => (block_number (header pb) =? 0)
               || (sat_sub current (block_number (header pb)) <=? MAX_PARENT_AGE)
  | None => true
  end.

Definition validate_parent_hashes_enhanced (d : BlocksData) (b : Block) :
    result BlockValidationError unit :=
  if block_number (header b) =? 0 then Ok tt else
  _ ← ensure (negb (bool_decide (parent_hashes (header b) = []))) NoParents;
  let count := Z.of_nat (length (parent_hashes (header b))) in
  _ ← ensure (count <=? MAX_PARENT_HASHES) (TooManyParentHashes count MAX_PARENT_HASHES);
  ensure (existsb (valid_parent d (block_number (header b))) (parent_hashes (header b))) UnknownParent.

Fixpoint check_duplicates (seen : gset Hash) (txs : list Transaction) : result BlockValidationError unit :=
  match txs with
  | [] => Ok tt
  | tx :: rest =>
      if bool_decide (tx_hash tx ∈ seen) then Err DuplicateTransaction
      else check_duplicates ({[tx_hash tx]} ∪ seen) rest
  end.
Definition check_duplicate_transactions (b : Block) : result BlockValidationError unit :=
  check_duplicates ∅ (transactions b).

Definition validate_block_timestamp (now : u64) (b : Block) : result BlockValidationError unit :=
  let ts := timestamp (header b) in
  _ ← ensure (ts <=? add64 now MAX_TIMESTAMP_DRIFT) (TimestampTooFarInFuture ts now MAX_TIMESTAMP_DRIFT);
  ensure (MIN_TIMESTAMP <=? ts) (TimestampTooOld ts MIN_TIMESTAMP).

(** The parents' heights are looked at for a log message only. *)
Definition validate_block_number (d : BlocksData) (b : Block) : result BlockValidationError unit :=
  if block_number (header b) =? 0 then Ok tt else
  let valid_parent_found :=
    existsb (λ p, match find_block d p with
                  | Some pb => block_number (header pb) =? sat_sub (block_number (header b)) 1
                  | None => false
                  end) (parent_hashes (header b)) in
  if negb valid_parent_found && negb (bool_decide (parent_hashes (header b) = [])) then Ok tt else Ok tt.

Section Enhanced.
Context `{Keccak, Blake3, Codec Block}.

Definition verify_tx_root (cpu : CpuFeatures) (buffer : list u8) (b : Block) :
    result BlockValidationError unit :=
  let computed_root := transactions_root (tx_hash <$> transactions b) in
  let expected_hash :=
    match stream_type (header b) with
    | StreamA => hash_blake3 (header b) computed_root
    | StreamB => hash_b3memhash cpu buffer (header b) computed_root
    | StreamC => keccak256 (hash_bytes (calculate_header_hash (header b))
                   ++ concat (hash_bytes ∘ tx_hash <$> transactions b))
    end in
  ensure (bool_decide (block_hash b = expected_hash)) InvalidBlockHash.

Definition validate_block_limits (b : Block) : result BlockValidationError unit :=
  let count := Z.of_nat (length (transactions b)) in
  _ ← ensure (count <=? MAX_TRANSACTIONS_PER_BLOCK) (MaxTransactionsExceeded count MAX_TRANSACTIONS_PER_BLOCK);
  match serialize b with
  | Some bs => ensure (Z.of_nat (length bs) <=? MAX_BLOCK_SIZE)
                 (BlockSizeExceeded (Z.of_nat (length bs)) MAX_BLOCK_SIZE)
  | None => Err (BlockSizeExceeded u64_max MAX_BLOCK_SIZE)
  end.

(** [validate_pq_signature] only logs. *)
Definition validate_block_enhanced (cpu : CpuFeatures) (buffer : list u8) (now : u64) (d : BlocksData)
    (b : Block) : result BlockValidationError unit :=
  _ ← validate_block_limits b;
  _ ← validate_block_timestamp now b;
  _ ← validate_parent_hashes_enhanced d b;
  _ ← validate_block_number d b;
  _ ← check_duplicate_transactions b;
  verify_tx_root cpu buffer b.
End Enhanced.

(** ** The indices describe the vector *)

Record index_ok (d : BlocksData) : Prop := {
  io_hashes : ∀ h, h ∈ block_hashes d ↔ ∃ b, b ∈ blocks d ∧ block_hash b = h;
  io_by_hash : ∀ h i, block_by_hash d !! h = Some i ↔ ∃ b, blocks d !! i = Some b ∧ block_hash b = h;
  io_by_number : ∀ n i, block_by_number d !! n = Some i →
    ∃ b, blocks d !! i = Some b ∧ block_number (header b) = n;
  io_numbers : ∀ b, b ∈ blocks d → is_Some (block_by_number d !! block_number (header b));
  io_txs : ∀ h i j, tx_by_hash d !! h = Some (i, j) →
    ∃ b t, blocks d !! i = Some b ∧ transactions b !! j = Some t ∧ tx_hash t = h }.

Lemma index_new : index_ok blocks_new.
Proof.
  split; cbn; intros.
  - set_solver.
  - rewrite lookup_empty. split; [done|]. intros (b & Hb & _). by rewrite lookup_nil in Hb.
  - by rewrite lookup_empty in H.
  - by apply elem_of_nil in H.
  - by rewrite lookup_empty in H.
Qed.

Lemma index_txs_lookup idx k txs m h i j :
  index_txs idx k txs m !! h = Some (i, j) →
  (∃ t, i = idx ∧ (k <= j)%nat ∧ txs !! (j - k)%nat = Some t ∧ tx_hash t = h) ∨ m !! h = Some (i, j).
Proof.
  revert k m. induction txs as [|tx txs IH]; intros k m Hl; [by right|].
  cbn [index_txs] in Hl. apply IH in Hl as [(t & -> & Hk & Ht & Hh)|Hl].
  - left. exists t. replace (j - k)%nat with (S (j - S k)) by lia. split_and!; (done || lia).
  - apply lookup_insert_Some in Hl as [[<- [= <- <-]]|[_ Hl]]; [|by right].
    left. exists tx. by rewrite Nat.sub_diag.
Qed.

(** Pushing a block with a new hash, with any sound transaction index. *)
Lemma index_push b d txm :
  index_ok d → block_hash b ∉ block_hashes d →
  (∀ h i j, txm !! h = Some (i, j) → tx_by_hash d !! h = Some (i, j) ∨
     ∃ t, i = length (blocks d) ∧ transactions b !! j = Some t ∧ tx_hash t = h) →
  index_ok (MkBlocksData (blocks d ++ [b]) ({[block_hash b]} ∪ block_hashes d)
    (<[block_hash b := length (blocks d)]> (block_by_hash d))
    (<[block_number (header b) := length (blocks d)]> (block_by_number d)) txm).
Proof.
  intros [Hh Hbh Hbn Hn Ht] Hnew Htx. split; cbn [blocks block_hashes block_by_hash block_by_number tx_by_hash].
  - intros h. rewrite elem_of_union, elem_of_singleton, Hh. setoid_rewrite elem_of_app.
    setoid_rewrite list_elem_of_singleton. split.
    + intros [->|(c & Hc & <-)]; [exists b; auto|exists c; auto].
    + intros (c & [Hc| ->] & <-); [right; eauto|by left].
  - intros h i. rewrite lookup_insert_Some, Hbh. setoid_rewrite lookup_app_Some. split.
    + intros [[<- <-]|[Hne (c & Hc & Hh')]]; [exists b|exists c; split; [by left|done]].
      split; [right|done]. by rewrite Nat.sub_diag.
    + intros (c & [Hc|[Hi Hc]] & <-).
      * right. split; [|by exists c]. intros Heq. apply Hnew. apply Hh. exists c. split; [by eapply list_elem_of_lookup_2|done].
      * left. apply list_lookup_singleton_Some in Hc as [Hz <-]. split; [done|lia].
  - intros n i [[<- <-]|[Hne Hi]]%lookup_insert_Some.
    + exists b. by rewrite lookup_app_r, Nat.sub_diag.
    + destruct (Hbn n i Hi) as (c & Hc & ?). exists c. by rewrite lookup_app_l by by eapply lookup_lt_Some.
  - intros c [Hc| ->%list_elem_of_singleton]%elem_of_app; [|by rewrite lookup_insert_eq].
    destruct (decide (block_number (header c) = block_number (header b))) as [->|];
      [by rewrite lookup_insert_eq|rewrite lookup_insert_ne by done; by apply Hn].
  - intros h i j [Hold|(t & -> & Htj & Hth)]%Htx.
    + destruct (Ht h i j Hold) as (c & t & Hc & ?). exists c, t.
      by rewrite lookup_app_l by by eapply lookup_lt_Some.
    + exists b, t. by rewrite lookup_app_r, Nat.sub_diag.
Qed.

Lemma push_block_ok b d : index_ok d → block_hash b ∉ block_hashes d → index_ok (push_block b d).
Proof.
  intros Hd Hnew. apply index_push; [done..|]. intros h i j Hl.
  apply index_txs_lookup in Hl as [(t & -> & _ & Ht & Hh)|Hl]; [right|by left].
  exists t. by rewrite Nat.sub_0_r in Ht.
Qed.
Lemma push_checkpoint_ok b d : index_ok d → block_hash b ∉ block_hashes d → index_ok (push_checkpoint b d).
Proof. intros Hd Hnew. apply index_push; [done..|]. by left. Qed.

(** With sound indices no query panics, and a block is found by its hash. *)
Lemma find_by_hash_ok d h :
  index_ok d →
  (∀ b, find_by_hash d h = Ok (Some b) ↔ b ∈ blocks d ∧ block_hash b = h) ∧
  (find_by_hash d h = Ok None ↔ h ∉ block_hashes d).
Proof.
  intros [Hh Hbh _ _ _]. unfold find_by_hash, index.
  destruct (block_by_hash d !! h) as [i|] eqn:Hi.
  - pose proof Hi as Hi'. apply Hbh in Hi' as (c & Hc & Hch). rewrite Hc. cbn. split.
    + intros b. split; [intros [= <-]; split; [by eapply list_elem_of_lookup_2|done]|].
      intros [Hb Hbh']. apply list_elem_of_lookup in Hb as [k Hk].
      assert (block_by_hash d !! h = Some k) as Hi2 by (apply Hbh; eauto). congruence.
    + split; [done|]. intros Hn. exfalso. apply Hn, Hh. exists c. split; [by eapply list_elem_of_lookup_2|done].
  - assert (∀ b, b ∈ blocks d → block_hash b ≠ h) as Hno.
    { intros b [k Hk]%list_elem_of_lookup Hbh'. assert (block_by_hash d !! h = Some k) by (apply Hbh; eauto). congruence. }
    split.
    + intros b. split; [done|]. intros [Hb Hbh']. by destruct (Hno b Hb).
    + split; [|done]. intros _ (b & Hb & Hbh')%Hh. by destruct (Hno b Hb).
Qed.

Lemma queries_total d :
  index_ok d →
  (∀ n e, get_block_by_number d n ≠ Err e) ∧ (∀ h e, get_transaction_by_hash d h ≠ Err e).
Proof.
  intros [_ _ Hbn _ Ht]. split.
  - intros n e. unfold get_block_by_number, index. destruct (block_by_number d !! n) as [i|] eqn:Hi; [|done].
    destruct (Hbn n i Hi) as (b & -> & _). done.
  - intros h e. unfold get_transaction_by_hash, index. destruct (tx_by_hash d !! h) as [[i j]|] eqn:Hi; [|done].
    destruct (Ht h i j Hi) as (b & t & -> & Hj & _). cbn. by rewrite Hj.
Qed.

(** After [clear_for_resync] the blocks are gone and the indices are not:
    looking up a block or a transaction that was known panics. *)
Theorem clear_blocks_stale_index d h i b :
  index_ok d → blocks d !! i = Some b → block_hash b = h →
  find_by_hash (clear_blocks d) h = Err (Panic "index out of bounds") ∧
  get_block_by_number (clear_blocks d) (block_number (header b)) = Err (Panic "index out of bounds") ∧
  h ∉ block_hashes (clear_blocks d).
Proof.
  intros Hd Hi Hh. split_and!; [| |set_solver].
  - unfold find_by_hash. cbn [clear_blocks block_by_hash].
    by rewrite (proj2 (io_by_hash _ Hd h i)) by eauto.
  - unfold get_block_by_number. cbn [clear_blocks block_by_number].
    destruct (io_numbers _ Hd b) as [j ->]; [by eapply list_elem_of_lookup_2|]. done.
Qed.

(** ** The median rule *)

Lemma filter_none {A} (P : A → Prop) `{∀ x, Decision (P x)} l : (∀ x, x ∈ l → ¬ P x) → filter P l = [].
Proof.
  induction l as [|x l IH]; intros Hn; [done|]. rewrite filter_cons_False by (apply Hn; left).
  apply IH. intros y Hy. apply Hn. by right.
Qed.

Lemma sorted_filter_length (l : list Z) x k :
  StronglySorted (le_of Z.leb) l → (k < length l)%nat →
  nth k l 0 <= x ↔ (k < length (filter (λ y, (y <= x)%Z) l))%nat.
Proof.
  intros Hs. revert k. induction Hs as [|y l Hs IH Hy]; intros k Hk; [cbn in Hk; lia|].
  rewrite filter_cons. destruct k as [|k]; cbn [nth length] in *.
  - destruct (decide (y <= x)) as [Hle|Hgt]; [cbn; lia|]. split; [lia|].
    rewrite filter_none; [cbn; lia|]. rewrite Forall_forall in Hy. intros z Hz%Hy Hzx.
    unfold le_of in Hz. apply Z.leb_le in Hz. lia.
  - rewrite IH by lia. destruct (decide (y <= x)) as [Hle|Hgt]; [cbn; lia|].
    rewrite filter_none; [cbn; lia|]. rewrite Forall_forall in Hy. intros z Hz%Hy Hzx.
    unfold le_of in Hz. apply Z.leb_le in Hz. lia.
Qed.

Lemma median_le d x :
  blocks d ≠ [] →
  median_timestamp d <= x ↔
  (length (recent_timestamps d) / 2 < length (filter (λ y, (y <= x)%Z) (recent_timestamps d)))%nat.
Proof.
  intros Hne. unfold median_timestamp. pose proof (sort_by_perm Z.leb (recent_timestamps d)) as Hp.
  assert (0 < length (recent_timestamps d))%nat as Hlen.
  { unfold recent_timestamps. rewrite length_fmap, length_take, length_rev.
    destruct (blocks d); [done|cbn; lia]. }
  rewrite sorted_filter_length.
  - by rewrite Hp.
  - apply sort_by_sorted; intros *; rewrite !Z.leb_le; lia.
  - rewrite Hp. apply Nat.div_lt; lia.
Qed.

Section ValidationTheorems.
Context `{Keccak, Blake3, Codec Block}.

(** A local block is structurally valid exactly when it fits the size and
    parent limits, and is either the first block of the chain or has a
    parent, a plausible timestamp, and a timestamp at least two seconds short
    of no more than a minority of the last eleven blocks. *)
Theorem validate_block_structure_spec now d b :
  in_u64 now → now + 602 <= u64_max → in_u64 (timestamp (header b)) →
  validate_block_structure now d b = Ok tt ↔
  (∃ bs, serialize b = Some bs ∧ Z.of_nat (length bs) <= MAX_BLOCK_SIZE) ∧
  Z.of_nat (length (parent_hashes (header b))) <= MAX_PARENT_HASHES ∧
  (if decide (block_number (header b) = 0) then blocks d = [] else
     parent_hashes (header b) ≠ [] ∧ MIN_TIMESTAMP <= timestamp (header b) <= now + 600 ∧
     (blocks d = [] ∨
      length (recent_timestamps d) / 2
      < length (filter (λ ts, (ts <= timestamp (header b) + 2)%Z) (recent_timestamps d)))%nat).
Proof.
  intros Hnow Hmax Hts. unfold validate_block_structure, check_size_and_parents, size_of.
  assert (add64 now 600 = now + 600) as Hadd by (apply add64_small; mlia).
  destruct (serialize b) as [bs|]; cbn; [|by split; [|intros ((? & ? & _) & _)]].
  destruct (Z.of_nat (length bs) <=? MAX_BLOCK_SIZE) eqn:C1; cbn; bool_to_prop;
    [|split; [done|]; intros ((? & [= <-] & ?) & _); lia].
  destruct (_ <=? MAX_PARENT_HASHES) eqn:C2; cbn; bool_to_prop; [|split; [done|]; lia].
  transitivity (if decide (block_number (header b) = 0) then blocks d = [] else
     parent_hashes (header b) ≠ [] ∧ MIN_TIMESTAMP <= timestamp (header b) <= now + 600 ∧
     (blocks d = [] ∨
      length (recent_timestamps d) / 2
      < length (filter (λ ts, (ts <= timestamp (header b) + 2)%Z) (recent_timestamps d)))%nat);
    [|split; [|tauto]; intros; split_and!; eauto].
  destruct (block_number (header b) =? 0) eqn:C3; bool_to_prop.
  { rewrite decide_True by done. rewrite ensure_Ok. by rewrite bool_decide_eq_true. }
  rewrite decide_False by done. unfold check_not_genesis, MIN_TIMESTAMP. rewrite Hadd.
  destruct (bool_decide (parent_hashes (header b) = [])) eqn:C4; cbn; bool_to_prop;
    [by split; [|intros [? _]]|].
  destruct (_ <=? now + 600) eqn:C5; cbn; bool_to_prop; [|split; [done|]; lia].
  destruct (1577836800 <=? _) eqn:C6; cbn; bool_to_prop; [|split; [done|]; lia].
  destruct (bool_decide (blocks d = [])) eqn:C7; bool_to_prop;
    [split; [intros _; split_and!; auto|done]|]. rewrite ensure_Ok, negb_true_iff, Z.ltb_ge.
  rewrite add64_small by mlia. rewrite median_le by done. split; [intros ?; split_and!; auto|].
  by intros (_ & _ & [?|?]).
Qed.

Lemma check_duplicates_ok seen txs :
  check_duplicates seen txs = Ok tt ↔
  NoDup (tx_hash <$> txs) ∧ ∀ t, t ∈ txs → tx_hash t ∉ seen.
Proof.
  revert seen. induction txs as [|tx txs IH]; intros seen; cbn [check_duplicates fmap list_fmap].
  { split; [|done]. intros _. split; [constructor|]. by intros t Ht%elem_of_nil. }
  case_bool_decide as Hin.
  - split; [done|]. intros [_ Hs]. exfalso. by apply (Hs tx); [left|].
  - rewrite IH, NoDup_cons. split.
    + intros [Hnd Hs]. split_and!; [|done|].
      * intros (t & Heq & Ht)%list_elem_of_fmap. apply (Hs t Ht). set_solver.
      * intros t [->|Ht]%elem_of_cons; [done|]. specialize (Hs t Ht). set_solver.
    + intros [[Hni Hnd] Hs]. split; [done|]. intros t Ht.
      assert (tx_hash t ≠ tx_hash tx). { intros Heq. apply Hni. rewrite <- Heq. by apply list_elem_of_fmap_2. }
      assert (tx_hash t ∉ seen) by (apply Hs; by right). set_solver.
Qed.

Lemma validate_block_limits_ok b :
  validate_block_limits b = Ok tt ↔
  (∃ bs, serialize b = Some bs ∧ Z.of_nat (length bs) <= MAX_BLOCK_SIZE) ∧
  Z.of_nat (length (transactions b)) <= MAX_TRANSACTIONS_PER_BLOCK.
Proof.
  unfold validate_block_limits.
  destruct (_ <=? MAX_TRANSACTIONS_PER_BLOCK) eqn:Hc; cbn; bool_to_prop; [|split; [done|]; lia].
  destruct (serialize b) as [bs|]; [|by split; [|intros ((? & ? & _) & _)]].
  rewrite ensure_Ok, Z.leb_le. split; [by eauto|]. by intros ((? & [= <-] & ?) & _).
Qed.

Lemma validate_block_timestamp_ok now b :
  in_u64 now → now + MAX_TIMESTAMP_DRIFT <= u64_max →
  validate_block_timestamp now b = Ok tt ↔
  MIN_TIMESTAMP <= timestamp (header b) <= now + MAX_TIMESTAMP_DRIFT.
Proof.
  intros Hnow Hmax. unfold validate_block_timestamp.
  rewrite add64_small by (unfold MAX_TIMESTAMP_DRIFT in *; mlia).
  destruct (_ <=? now + _) eqn:Hc; cbn; bool_to_prop; [|split; [done|lia]].
  rewrite ensure_Ok, Z.leb_le. lia.
Qed.

Lemma validate_parent_hashes_enhanced_ok d b :
  validate_parent_hashes_enhanced d b = Ok tt ↔
  block_number (header b) = 0 ∨
  1 <= Z.of_nat (length (parent_hashes (header b))) <= MAX_PARENT_HASHES ∧
  ∃ p, p ∈ parent_hashes (header b) ∧ valid_parent d (block_number (header b)) p = true.
Proof.
  unfold validate_parent_hashes_enhanced. destruct (block_number (header b) =? 0) eqn:Hz; bool_to_prop;
    [by split; [left|]|].
  case_bool_decide as Hp; cbn; [rewrite Hp; split; [done|]; cbn; intros [?|[? _]]; [done|lia]|].
  destruct (_ <=? MAX_PARENT_HASHES) eqn:Hc; cbn; bool_to_prop; [|split; [done|]; intros [?|[? _]]; [done|lia]].
  rewrite ensure_Ok, existsb_exists. setoid_rewrite <- list_elem_of_In. split; [|by intros [?|[_ ?]]].
  intros Hex. right. split; [|done]. destruct (parent_hashes (header b)); [done|cbn in *; lia].
Qed.

Lemma verify_tx_root_ok cpu buffer b :
  verify_tx_root cpu buffer b = Ok tt ↔ block_hash b = block_calculate_hash cpu buffer b.
Proof.
  unfold verify_tx_root, block_calculate_hash. rewrite ensure_Ok, bool_decide_eq_true.
  by rewrite <- list_fmap_compose.
Qed.

Lemma check_duplicate_transactions_ok b :
  check_duplicate_transactions b = Ok tt ↔ NoDup (tx_hash <$> transactions b).
Proof. unfold check_duplicate_transactions. rewrite check_duplicates_ok. split; [by intros []|]. set_solver. Qed.

Lemma validate_block_number_ok d b : validate_block_number d b = Ok tt.
Proof. unfold validate_block_number. destruct (_ =? 0); [done|]. by destruct (negb _ && _). Qed.

(** C29: A peer's block passes validation exactly when it is within the size and
    count limits, its timestamp lies between 2020 and 15 seconds ahead of the
    clock, it is a genesis block or has between one and ten parents of which
    one is known and not too old, no transaction hash repeats, and its hash is
    the hash of its contents for its stream.  Neither the height nor the proof
    of work is constrained. *)
Theorem validate_block_enhanced_spec cpu buffer now d b :
  in_u64 now → now + MAX_TIMESTAMP_DRIFT <= u64_max →
  validate_block_enhanced cpu buffer now d b = Ok tt ↔
  (∃ bs, serialize b = Some bs ∧ Z.of_nat (length bs) <= MAX_BLOCK_SIZE) ∧
  Z.of_nat (length (transactions b)) <= MAX_TRANSACTIONS_PER_BLOCK ∧
  MIN_TIMESTAMP <= timestamp (header b) <= now + MAX_TIMESTAMP_DRIFT ∧
  (block_number (header b) = 0 ∨
   1 <= Z.of_nat (length (parent_hashes (header b))) <= MAX_PARENT_HASHES ∧
   ∃ p, p ∈ parent_hashes (header b) ∧ valid_parent d (block_number (header b)) p = true) ∧
  NoDup (tx_hash <$> transactions b) ∧
  block_hash b = block_calculate_hash cpu buffer b.
Proof.
  intros Hnow Hmax. rewrite <- check_duplicate_transactions_ok, <- verify_tx_root_ok,
    <- validate_parent_hashes_enhanced_ok, <- validate_block_timestamp_ok, (and_assoc (∃ bs, _)),
    <- validate_block_limits_ok by done.
  unfold validate_block_enhanced. rewrite validate_block_number_ok.
  destruct (validate_block_limits b) as [[]|]; cbn; [|by split; [|intros [? _]]].
  destruct (validate_block_timestamp now b) as [[]|]; cbn; [|by split; [|intros (_ & ? & _)]].
  destruct (validate_parent_hashes_enhanced d b) as [[]|]; cbn; [|by split; [|intros (_ & _ & ? & _)]].
  destruct (check_duplicate_transactions b) as [[]|]; cbn; [|by split; [|intros (_ & _ & _ & ? & _)]].
  split; [done|]. by intros (_ & _ & _ & _ & ?).
Qed.
End ValidationTheorems.
