(* ===== verification/Execution.v ===== *)
(** * Execution: validation and execution of the transactions of a block

    Models the chain state of [irondag-blockchain/src/blockchain/mod.rs] and
    its transaction path: double-spend detection, [verify_tx_stateless],
    [validate_tx_stateful_only], [validate_transaction] (with multi-signature
    wallets), [process_transaction] and [validate_and_process_transactions],
    without the [privacy] feature.

    The account fields of the [Blockchain] struct are grouped in [ledger].  The
    locks are uncontended: the block processing lock serialises the callers.
    The EVM executor is the class [Evm]: it runs a transaction against the
    shared database.  The parallel pre-pass over the transactions reports one of
    the errors it finds; the model reports the first. *)

From S2P Require Import Prelude Types Block Pow Error.
From S2P Require Import Storage DagStorage GhostDag.
From S2P Require Import Sponsorship PrivacyPool Recurring Governance Wallet Verkle.
From S2P Require Import Ledger BlockIndex.

Definition MAX_TX_DATA_SIZE : usize := 128 * 1024.
Definition MAX_NONCE_GAP : u64 := 16.
Definition MAX_TX_VALUE : u128 := u128_max / 2.
Definition MAX_GAS_LIMIT : u64 := 30000000.
Definition FINALITY_DEPTH : u64 := 100.

Record ExecutionResult := MkExec {
  e_success : bool; e_gas_used : u64; e_output : list u8; e_logs : list EvmLog }.

Class Evm := {
  EvmExecutor : Type;
  evm_execute : EvmExecutor → option (gmap (list u8) (list u8)) → Transaction → u64 → u64 →
    result string ExecutionResult * (EvmExecutor * option (gmap (list u8) (list u8)));
  evm_update_block_hash : EvmExecutor → u64 → Hash → EvmExecutor;
}.

Section Blockchain.
Context `{Evm}.

Record Blockchain := MkBlockchain {
  ledger : Ledger;
  ghostdag : option GhostDAG;
  blocks_data : BlocksData;
  cached_latest_block_number : u64;
  cached_total_tx_count : u64;
  recent_tx_hashes : list (list Hash);
  spent_outputs : gmap (Address * u64) (Hash * u64);
  evm_enabled : bool;
  evm_executor : option EvmExecutor;
  wallet_registry : option WalletRegistry;
  sponsor_registry : SponsorRegistry;
  recurring_manager : option Manager;
  privacy_pool : PrivacyPool;
  bc_chain_id : u64;
  total_fees_burned : u128;
  blockchain_ready : bool;
  governance_scheduler : GovernanceScheduler }.

Definition BM := SE Blockchain BlockchainError.

Definition set_ledger (l : Ledger) (c : Blockchain) : Blockchain :=
  MkBlockchain l (ghostdag c) (blocks_data c) (cached_latest_block_number c) (cached_total_tx_count c)
    (recent_tx_hashes c) (spent_outputs c) (evm_enabled c) (evm_executor c) (wallet_registry c)
    (sponsor_registry c) (recurring_manager c) (privacy_pool c) (bc_chain_id c) (total_fees_burned c)
    (blockchain_ready c) (governance_scheduler c).
Definition set_ghostdag (g : option GhostDAG) (c : Blockchain) : Blockchain :=
  MkBlockchain (ledger c) g (blocks_data c) (cached_latest_block_number c) (cached_total_tx_count c)
    (recent_tx_hashes c) (spent_outputs c) (evm_enabled c) (evm_executor c) (wallet_registry c)
    (sponsor_registry c) (recurring_manager c) (privacy_pool c) (bc_chain_id c) (total_fees_burned c)
    (blockchain_ready c) (governance_scheduler c).
Definition set_blocks (d : BlocksData) (latest count : u64) (recent : list (list Hash)) (c : Blockchain) :
    Blockchain :=
  MkBlockchain (ledger c) (ghostdag c) d latest count
    recent (spent_outputs c) (evm_enabled c) (evm_executor c) (wallet_registry c)
    (sponsor_registry c) (recurring_manager c) (privacy_pool c) (bc_chain_id c) (total_fees_burned c)
    (blockchain_ready c) (governance_scheduler c).
Definition set_spent (s : gmap (Address * u64) (Hash * u64)) (c : Blockchain) : Blockchain :=
  MkBlockchain (ledger c) (ghostdag c) (blocks_data c) (cached_latest_block_number c) (cached_total_tx_count c)
    (recent_tx_hashes c) s (evm_enabled c) (evm_executor c) (wallet_registry c)
    (sponsor_registry c) (recurring_manager c) (privacy_pool c) (bc_chain_id c) (total_fees_burned c)
    (blockchain_ready c) (governance_scheduler c).
Definition set_evm (e : option EvmExecutor) (c : Blockchain) : Blockchain :=
  MkBlockchain (ledger c) (ghostdag c) (blocks_data c) (cached_latest_block_number c) (cached_total_tx_count c)
    (recent_tx_hashes c) (spent_outputs c) (evm_enabled c) e (wallet_registry c)
    (sponsor_registry c) (recurring_manager c) (privacy_pool c) (bc_chain_id c) (total_fees_burned c)
    (blockchain_ready c) (governance_scheduler c).
Definition set_wallets (r : option WalletRegistry) (c : Blockchain) : Blockchain :=
  MkBlockchain (ledger c) (ghostdag c) (blocks_data c) (cached_latest_block_number c) (cached_total_tx_count c)
    (recent_tx_hashes c) (spent_outputs c) (evm_enabled c) (evm_executor c) r
    (sponsor_registry c) (recurring_manager c) (privacy_pool c) (bc_chain_id c) (total_fees_burned c)
    (blockchain_ready c) (governance_scheduler c).
Definition set_sponsors (r : SponsorRegistry) (c : Blockchain) : Blockchain :=
  MkBlockchain (ledger c) (ghostdag c) (blocks_data c) (cached_latest_block_number c) (cached_total_tx_count c)
    (recent_tx_hashes c) (spent_outputs c) (evm_enabled c) (evm_executor c) (wallet_registry c)
    r (recurring_manager c) (privacy_pool c) (bc_chain_id c) (total_fees_burned c)
    (blockchain_ready c) (governance_scheduler c).
Definition set_recurring (m : option Manager) (c : Blockchain) : Blockchain :=
  MkBlockchain (ledger c) (ghostdag c) (blocks_data c) (cached_latest_block_number c) (cached_total_tx_count c)
    (recent_tx_hashes c) (spent_outputs c) (evm_enabled c) (evm_executor c) (wallet_registry c)
    (sponsor_registry c) m (privacy_pool c) (bc_chain_id c) (total_fees_burned c)
    (blockchain_ready c) (governance_scheduler c).
Definition set_pool (p : PrivacyPool) (c : Blockchain) : Blockchain :=
  MkBlockchain (ledger c) (ghostdag c) (blocks_data c) (cached_latest_block_number c) (cached_total_tx_count c)
    (recent_tx_hashes c) (spent_outputs c) (evm_enabled c) (evm_executor c) (wallet_registry c)
    (sponsor_registry c) (recurring_manager c) p (bc_chain_id c) (total_fees_burned c)
    (blockchain_ready c) (governance_scheduler c).
Definition set_burned (b : u128) (c : Blockchain) : Blockchain :=
  MkBlockchain (ledger c) (ghostdag c) (blocks_data c) (cached_latest_block_number c) (cached_total_tx_count c)
    (recent_tx_hashes c) (spent_outputs c) (evm_enabled c) (evm_executor c) (wallet_registry c)
    (sponsor_registry c) (recurring_manager c) (privacy_pool c) (bc_chain_id c) b
    (blockchain_ready c) (governance_scheduler c).
Definition set_governance (s : GovernanceScheduler) (c : Blockchain) : Blockchain :=
  MkBlockchain (ledger c) (ghostdag c) (blocks_data c) (cached_latest_block_number c) (cached_total_tx_count c)
    (recent_tx_hashes c) (spent_outputs c) (evm_enabled c) (evm_executor c) (wallet_registry c)
    (sponsor_registry c) (recurring_manager c) (privacy_pool c) (bc_chain_id c) (total_fees_burned c)
    (blockchain_ready c) s.

Definition on_ledger {A} (m : LM A) : BM A := zoom ledger set_ledger m.

(** ** Spent outputs *)

Definition rollback_spent_outputs (h : Hash) (c : Blockchain) : Blockchain :=
  set_spent (filter (λ kv, kv.2.1 ≠ h) (spent_outputs c)) c.

Definition prune_spent_outputs (current_height : u64) (c : Blockchain) : Blockchain :=
  if current_height <=? FINALITY_DEPTH then c else
  let cutoff := current_height - FINALITY_DEPTH in
  set_spent (filter (λ kv, cutoff < kv.2.2) (spent_outputs c)) c.

Definition check_double_spend (c : Blockchain) (t : Transaction) (h : Hash) : result BlockchainError unit :=
  match spent_outputs c !! (from t, nonce t) with
  | Some (h', _) => ensure (bool_decide (h' = h)) (InvalidTransaction "Double-spend detected")
  | None => Ok tt
  end.

Definition record_spent_output (t : Transaction) (h : Hash) (n : u64) (c : Blockchain) : Blockchain :=
  set_spent (<[(from t, nonce t) := (h, n)]> (spent_outputs c)) c.
End Blockchain.

(** ** Checks of a transaction that need no state *)

Section Stateless.
Context `{Keccak, Crypto}.

(** [!tx.verify_signature(height).unwrap_or(false)] *)
Definition signature_ok (t : Transaction) (height : u64) : result BlockchainError unit :=
  match verify_signature t height with
  | SigOk true => Ok tt
  | SigOk false | SigErr _ => Err (InvalidTransaction "Invalid transaction signature")
  | SigPanic => Err (Panic "signature verification")
  end.

Definition check_fee (t : Transaction) : result BlockchainError unit :=
  ensure (negb ((fee t =? 0) && negb (address_is_zero (from t))))
    (InvalidTransaction "transaction fee must be greater than zero").
Definition check_data_size (t : Transaction) : result BlockchainError unit :=
  ensure (Z.of_nat (length (data t)) <=? MAX_TX_DATA_SIZE)
    (InvalidTransaction "transaction data size exceeds maximum").
Definition check_value (t : Transaction) : result BlockchainError unit :=
  ensure (value t <=? MAX_TX_VALUE) (InvalidTransaction "transaction value exceeds maximum allowed").
Definition check_total (t : Transaction) : result BlockchainError unit :=
  ensure (bool_decide (is_Some (checked_add128 (value t) (fee t))))
    (InvalidTransaction "transaction value + fee overflows").
Definition check_gas_max (t : Transaction) : result BlockchainError unit :=
  ensure (gas_limit t <=? MAX_GAS_LIMIT) (InvalidTransaction "gas_limit exceeds maximum").
Definition check_gas_zero (t : Transaction) : result BlockchainError unit :=
  ensure (negb (gas_limit t =? 0)) (Validation "Gas limit cannot be zero").
Definition check_chain_id (cid : u64) (t : Transaction) : result BlockchainError unit :=
  match chain_id t with
  | Some c => ensure (c =? cid) (InvalidTransaction "Invalid chain ID")
  | None => Ok tt
  end.
Definition check_hash (t : Transaction) : result BlockchainError unit :=
  ensure (bool_decide (tx_hash t = tx_calculate_hash t)) (InvalidTransaction "Invalid transaction hash").
Definition check_evm_gas (evm : bool) (t : Transaction) : result BlockchainError unit :=
  ensure (negb (evm && negb (bool_decide (data t = [])) && (gas_limit t <? 21000)))
    (Validation "Gas limit too low for contract interaction").

Definition verify_tx_stateless (t : Transaction) (cid : u64) (evm : bool) (current_block : u64) :
    result BlockchainError unit :=
  _ ← signature_ok t current_block;
  _ ← check_fee t;
  _ ← check_data_size t;
  _ ← check_value t;
  _ ← check_total t;
  _ ← check_gas_max t;
  _ ← check_gas_zero t;
  _ ← check_chain_id cid t;
  _ ← check_hash t;
  check_evm_gas evm t.

(** *** Multi-signature wallets *)

(** [seen] over the signers of a transaction. *)
Fixpoint check_signers (seen : gset Address) (l : list Address) : result BlockchainError unit :=
  match l with
  | [] => Ok tt
  | s :: rest =>
      if bool_decide (s ∈ seen) then Err (InvalidTransaction "Duplicate signer")
      else check_signers ({[s]} ∪ seen) rest
  end.

Definition check_multisig_entry (t : Transaction) (e : Address * list u8 * list u8) :
    result BlockchainError unit :=
  let '(signer, sig, key) := e in
  _ ← ensure (length sig =? 64)%nat (InvalidTransaction "Invalid signature length for signer");
  _ ← ensure (length key =? 32)%nat (InvalidTransaction "Invalid public key length for signer");
  _ ← ensure (ed25519_key_ok key) (InvalidTransaction "Invalid public key for signer");
  _ ← ensure (ed25519_sig_ok sig) (InvalidTransaction "Invalid signature for signer");
  _ ← ensure (ed25519_verify key (hash_bytes (tx_hash t)) sig)
        (InvalidTransaction "Invalid signature for signer");
  ensure (bool_decide (derive_eth_address key = signer))
    (InvalidTransaction "Public key does not match signer address").

Definition count_valid (t : Transaction) (n : nat) (e : Address * list u8 * list u8) :
    result BlockchainError nat :=
  _ ← check_multisig_entry t e; Ok (S n).

Definition check_multisig (signers : list Address) (threshold : u8) (t : Transaction)
    (sigs : list (Address * list u8 * list u8)) : result BlockchainError unit :=
  _ ← ensure (threshold <=? Z.of_nat (length sigs)) (InvalidTransaction "Insufficient signatures");
  let signed_by := (λ e, e.1.1) <$> sigs in
  _ ← ensure (forallb (λ s, bool_decide (s ∈ signers)) signed_by) (InvalidTransaction "Unknown signer");
  _ ← check_signers ∅ signed_by;
  valid ← try_fold (count_valid t) 0%nat sigs;
  ensure (threshold <=? Z.of_nat valid) (InvalidTransaction "Insufficient valid signatures").

Definition validate_multisig (r : WalletRegistry) (t : Transaction)
    (sigs : list (Address * list u8 * list u8)) : result BlockchainError unit :=
  match get_wallet r (from t) with
  | None => Err (InvalidTransaction "Multi-sig transaction from non-contract wallet")
  | Some w =>
      if is_multisig w then
        match wallet_type w with
        | WtMultiSig signers threshold | WtCombined signers threshold _ _ _ =>
            check_multisig signers threshold t sigs
        | _ => Err (InvalidTransaction "Multi-sig signatures provided but wallet is not multi-sig")
        end
      else Err (InvalidTransaction "Multi-sig signatures provided but wallet is not multi-sig")
  end.
End Stateless.

(** ** Checks against the chain state *)

Section Exec.
Context `{Hex, Keccak, Crypto, Codec TxReceipt, Evm}.

(** The nonce of a contract wallet, or of the account. *)
Definition expected_nonce (t : Transaction) : BM u64 :=
  c ← se_get;
  match wallet_registry c with
  | Some r => match get_wallet r (from t) with
              | Some w => mret (w_nonce w)
              | None => on_ledger (get_nonce (from t))
              end
  | None => on_ledger (get_nonce (from t))
  end.

Definition check_nonce (t : Transaction) : BM unit :=
  current_nonce ← expected_nonce t;
  if nonce t =? current_nonce then mret tt
  else if sat_add64 current_nonce MAX_NONCE_GAP <? nonce t
  then fail (InvalidTransaction "Nonce gap too large")
  else fail (InvalidTransaction "Invalid nonce").

(** The limit is tested on a clone of the wallet's limits. *)
Definition check_spending (now : u64) (t : Transaction) : BM unit :=
  c ← se_get;
  match wallet_registry c ≫= λ r, get_wallet r (from t) with
  | Some w =>
      if has_spending_limits w then
        match spending_limits (config w) with
        | Some limits =>
            match snd (check_limit now limits (value t)) with
            | Ok _ => mret tt
            | Err _ => fail (InvalidTransaction "Spending limit exceeded")
            end
        | None => mret tt
        end
      else mret tt
  | None => mret tt
  end.

Definition check_funds (t : Transaction) : BM unit :=
  sender_balance ← on_ledger (get_balance (from t));
  if sender_balance <? value t then fail (InvalidTransaction "Insufficient balance (value)") else
  match sponsor t with
  | Some s =>
      sponsor_balance ← on_ledger (get_balance s);
      if sponsor_balance <? fee t then fail (InvalidTransaction "Insufficient sponsor balance") else mret tt
  | None =>
      if sender_balance <? sat_add128 (value t) (fee t)
      then fail (InvalidTransaction "Insufficient balance (value + fee)") else mret tt
  end.

Definition validate_tx_stateful_only (now : u64) (t : Transaction) (current_block : u64) : BM unit :=
  c ← se_get;
  _ ← match sponsor t with
      | Some s => se_read (λ _, map_err (λ _, InvalidTransaction "Sponsor policy violation")
                                  (check (sponsor_registry c) s (from t) (fee t) current_block))
      | None => mret tt
      end;
  _ ← check_nonce t;
  _ ← check_spending now t;
  check_funds t.

Definition validate_transaction (now : u64) (t : Transaction) (current_block : u64) : BM unit :=
  c ← se_get;
  _ ← match multisig_signatures t with
      | Some sigs => match wallet_registry c with
                     | Some r => se_read (λ _, validate_multisig r t sigs)
                     | None => mret tt
                     end
      | None => se_read (λ _, signature_ok t current_block)
      end;
  _ ← se_read (λ _, check_fee t);
  _ ← se_read (λ _, check_data_size t);
  _ ← se_read (λ _, check_value t);
  _ ← se_read (λ _, check_total t);
  _ ← se_read (λ _, check_gas_max t);
  _ ← se_read (λ c, check_chain_id (bc_chain_id c) t);
  _ ← se_read (λ _, check_hash t);
  _ ← check_nonce t;
  _ ← check_spending now t;
  _ ← check_funds t;
  _ ← se_read (λ _, check_gas_zero t);
  se_read (λ c, check_evm_gas (evm_enabled c) t).

(** ** Execution *)

Definition max_number (d : BlocksData) : u64 :=
  foldr (λ b, Z.max (block_number (header b))) 0 (blocks d).

(** The EVM run of a transaction with data; [None] when it is not used. *)
Definition run_evm (now : u64) (t : Transaction) : BM (option TxReceipt) := λ c,
  if negb (bool_decide (data t = [])) && evm_enabled c then
    match evm_executor c with
    | None => (Ok None, c)
    | Some ex =>
        let ts := match last (blocks (blocks_data c)) with
                  | Some b => timestamp (header b)
                  | None => now
                  end in
        let '(r, (ex', db')) := evm_execute ex (database (ledger c)) t (max_number (blocks_data c)) ts in
        let c' := set_evm (Some ex')
                    (set_ledger (MkLedger db' (accounts (ledger c)) (verkle_state (ledger c))) c) in
        match r with
        | Err _ => (Err (Error.Evm "EVM execution error"), c')
        | Ok e =>
            if e_success e then
              let addr := if address_is_zero (to t) && negb (bool_decide (data t = []))
                             && (20 <=? length (e_output e))%nat
                          then Some (MkAddress (drop (length (e_output e) - 20) (e_output e)))
                          else None in
              (Ok (Some (MkReceipt true (e_gas_used e) (e_logs e) addr)), c')
            else (Err (Error.Evm "EVM execution failed"), c')
        end
    end
  else (Ok None, c).

(** The fee of a transaction the EVM handled. *)
Definition charge_evm_fee (t : Transaction) : LM unit :=
  if 0 <? fee t then
    sender_balance ← get_balance (from t);
    if sender_balance <? fee t
    then fail (InvalidTransaction "Insufficient balance for transaction fee after EVM execution")
    else write_balance (from t) (sender_balance - fee t) (get_nonce (from t))
  else mret tt.

(** A transfer to the pool with a commitment as data is a deposit; a
    rejected deposit is only logged. *)
Definition register_deposit (t : Transaction) : BM unit :=
  if bool_decide (to t = PRIVACY_POOL_ADDRESS) && (length (data t) =? 32)%nat then
    se_mod (λ c, set_pool (fst (deposit (privacy_pool c) (MkHash (data t)) (cached_latest_block_number c))) c)
  else mret tt.

Definition record_wallet_spend (amount : u128) (w : SmartContractWallet) : SmartContractWallet :=
  if has_spending_limits w then
    match spending_limits (config w) with
    | Some l => MkWallet (w_address w) (owner w) (wallet_type w)
                  (MkWalletConfig (auth_method (config w)) (Some (record_spending l amount))
                     (recovery_config (config w))) (w_created_at w) (w_nonce w)
    | None => w
    end
  else w.

Definition update_nonce (t : Transaction) (new_nonce : u64) : BM unit :=
  c ← se_get;
  match wallet_registry c with
  | Some r =>
      if is_contract_wallet r (from t) then
        match update_wallet_nonce r (from t) with
        | (r', Err _) => _ ← se_mod (set_wallets (Some r'));
                         fail (InvalidTransaction "Failed to update wallet nonce")
        | (r', Ok _) => se_mod (set_wallets (Some (update_wallet r' (from t) (record_wallet_spend (value t)))))
        end
      else on_ledger (persist_nonce (from t) new_nonce)
  | None => on_ledger (persist_nonce (from t) new_nonce)
  end.

Definition is_replay (c : Blockchain) (t : Transaction) : bool :=
  existsb (contains (tx_hash t)) (recent_tx_hashes c).

Definition process_transaction (now : u64) (t : Transaction) : BM unit :=
  c ← se_get;
  if is_replay c t then fail (InvalidTransaction "Transaction already processed (replay detected)") else
  evm_receipt ← run_evm now t;
  match evm_receipt with
  | Some receipt =>
      _ ← on_ledger (charge_evm_fee t);
      on_ledger (store_receipt (tx_hash t) receipt)
  | None =>
      new_nonce ← on_ledger (debit t);
      _ ← on_ledger (credit t);
      _ ← register_deposit t;
      _ ← update_nonce t new_nonce;
      _ ← on_ledger (verify_post_transaction_consistency t);
      on_ledger (store_receipt (tx_hash t) native_receipt)
  end.

(** One turn of the loop over the transactions of a block. *)
Definition execute_tx (now : u64) (b : Block) (t : Transaction) : BM unit :=
  let number := block_number (header b) in
  if negb (is_ready_to_execute t number (timestamp (header b)))
  then fail (InvalidTransaction "Time-locked transaction not ready") else
  _ ← se_read (λ c, check_double_spend c t (block_hash b));
  _ ← (if bool_decide (is_Some (multisig_signatures t)) then validate_transaction now t number
       else validate_tx_stateful_only now t number);
  _ ← process_transaction now t;
  _ ← se_mod (record_spent_output t (block_hash b) number);
  match sponsor t with
  | Some s => se_mod (λ c, set_sponsors (record_spend (sponsor_registry c) s (fee t) number) c)
  | None => mret tt
  end.

Definition validate_and_process_transactions (now : u64) (b : Block) : BM unit :=
  let number := block_number (header b) in
  _ ← se_for (filter (λ t, multisig_signatures t = None) (transactions b))
        (λ t, se_read (λ c, verify_tx_stateless t (bc_chain_id c) (evm_enabled c) number));
  _ ← se_for (transactions b) (execute_tx now b);
  se_mod (prune_spent_outputs number).

(** The transactions the two loops apply, whether or not all of them are: the
    loop stops at the first that fails and nothing is undone. *)
Fixpoint executed_txs (now : u64) (b : Block) (txs : list Transaction) (c : Blockchain) : list Transaction :=
  match txs with
  | [] => []
  | t :: txs' => match execute_tx now b t c with
                 | (Ok _, c') => t :: executed_txs now b txs' c'
                 | (Err _, _) => []
                 end
  end.
Definition executed_of (now : u64) (b : Block) (c : Blockchain) : list Transaction :=
  match se_for (filter (λ t, multisig_signatures t = None) (transactions b))
          (λ t, se_read (λ c, verify_tx_stateless t (bc_chain_id c) (evm_enabled c) (block_number (header b)))) c with
  | (Ok _, c) => executed_txs now b (transactions b) c
  | (Err _, _) => []
  end.
End Exec.

(** ** A native transfer refines the abstract one *)

Section Native.
Context `{Hex, Keccak, Crypto, Codec TxReceipt, Evm}.

(** What executing transactions changes of the chain. *)
Inductive exec_frame (c : Blockchain) : Blockchain → Prop :=
| ExecFrame l p s r : exec_frame c (set_sponsors r (set_spent s (set_pool p (set_ledger l c)))).

#[global] Instance exec_frame_preorder : PreOrder exec_frame.
Proof.
  split.
  - intros c. pose proof (ExecFrame c (ledger c) (privacy_pool c) (spent_outputs c) (sponsor_registry c)) as Hc.
    by destruct c.
  - intros c _ _ [l p s r] [l' p' s' r']. apply (ExecFrame c l' p' s' r').
Qed.

Lemma frame_ledger l c : exec_frame c (set_ledger l c).
Proof. apply (ExecFrame c l (privacy_pool c) (spent_outputs c) (sponsor_registry c)). Qed.
Lemma frame_pool p c : exec_frame c (set_pool p c).
Proof. apply (ExecFrame c (ledger c) p (spent_outputs c) (sponsor_registry c)). Qed.
Lemma frame_spent s c : exec_frame c (set_spent s c).
Proof. apply (ExecFrame c (ledger c) (privacy_pool c) s (sponsor_registry c)). Qed.
Lemma frame_sponsors r c : exec_frame c (set_sponsors r c).
Proof. apply (ExecFrame c (ledger c) (privacy_pool c) (spent_outputs c) r). Qed.

(** Neither a contract wallet nor the EVM is involved. *)
Definition native (c : Blockchain) (t : Transaction) : Prop :=
  wallet_registry c = None ∧ (evm_enabled c = false ∨ data t = []).

Lemma native_frame c c' t : exec_frame c c' → native c t → native c' t.
Proof. by intros []. Qed.

Lemma on_ledger_step {A} (m : LM A) c r l :
  m (ledger c) = (r, l) → on_ledger m c = (r, set_ledger l c).
Proof. unfold on_ledger, zoom. by intros ->. Qed.

Lemma run_evm_native now t c : native c t → run_evm now t c = (Ok None, c).
Proof.
  intros [_ Hn]. unfold run_evm. destruct Hn as [->|Hd]; [by rewrite andb_false_r|].
  by rewrite bool_decide_eq_true_2.
Qed.

Lemma register_deposit_step t c :
  register_deposit t c
  = (Ok tt, set_pool (privacy_pool (snd (register_deposit t c))) c).
Proof. unfold register_deposit. destruct (_ && _); by destruct c. Qed.

Lemma update_nonce_native t n c r l :
  wallet_registry c = None → persist_nonce (from t) n (ledger c) = (r, l) →
  update_nonce t n c = (r, set_ledger l c).
Proof.
  intros Hw Hp. unfold update_nonce. rewrite (se_bind_step (E:=BlockchainError) se_get _ c c c eq_refl), Hw.
  by apply on_ledger_step.
Qed.

Lemma settle_split t n l l' :
  settle t n l = (Ok tt, l') →
  ∃ l1 l2, persist_nonce (from t) n l = (Ok tt, l1) ∧
    verify_post_transaction_consistency t l1 = (Ok tt, l2) ∧
    store_receipt (tx_hash t) native_receipt l2 = (Ok tt, l').
Proof.
  unfold settle. intros ([] & l1 & Hp & Hr)%se_bind_Ok. apply se_bind_Ok in Hr as ([] & l2 & Hv & Hs). eauto.
Qed.

Lemma process_native now t c v :
  tx_ok t → native c t → is_replay c t = false →
  verkle_good (ledger c) → accts_ok v → agrees (ledger c) v →
  match spec_transfer t v with
  | Ok v' => ∃ l', process_transaction now t c
               = (Ok tt, set_pool (privacy_pool (snd (register_deposit t c))) (set_ledger l' c)) ∧
               agrees l' v' ∧ verkle_good l' ∧
               (has_db (ledger c) = true → is_Some (serialize native_receipt) →
                get_tx_receipt l' (tx_hash t) = Some native_receipt)
  | Err e => ∃ l', process_transaction now t c = (Err e, set_ledger l' c) ∧ agrees l' v ∧ verkle_good l'
  end.
Proof.
  intros Ht Hn Hrep Hg Hv Hag. unfold process_transaction.
  rewrite (se_bind_step (E:=BlockchainError) se_get _ c c c eq_refl), Hrep.
  rewrite (se_bind_step _ _ _ _ _ (run_evm_native now t c Hn)).
  pose proof (debit_spec t (ledger c) v Ht Hv Hg Hag) as Hd. unfold spec_transfer.
  destruct (spec_debit t v) as [v1|e] eqn:Hsd; cbn [fmap result_fmap].
  - destruct Hd as (l1 & Hd & Hp1 & Hdb1 & Hvk1). pose proof (spec_debit_ok t v v1 Ht Hv Hsd) as Hok1.
    destruct (credit_spec t l1 v1 Ht Hok1 Hp1) as (l2 & Hc & Hp2 & Hto & Hdb2 & Hvk2).
    destruct (settle_spec t l2 (spec_credit t v1) Ht (spec_credit_ok t v1 Ht Hok1) Hp2 Hto)
      as (l3 & Hs & Hag3 & Hg3 & _ & _ & Hrc).
    assert ((spec_credit t v1 (from t)).2 = (v1 (from t)).2) as Hk.
    { unfold spec_credit, set_bal, put_acct. case_bool_decide; [done|]. by destruct (decide (from t = to t)) as [->|]. }
    rewrite Hk in Hs. apply settle_split in Hs as (la & lb & Hpn & Hve & Hst).
    exists l3. split_and!; [|done|done|by rewrite <- Hdb1, <- Hdb2].
    rewrite (se_bind_step _ _ _ _ _ (on_ledger_step _ c _ _ Hd)).
    rewrite (se_bind_step _ _ _ _ _ (on_ledger_step _ (set_ledger l1 c) _ _ Hc)).
    rewrite (se_bind_step _ _ _ _ _ (register_deposit_step t (set_ledger l2 (set_ledger l1 c)))).
    set (p := privacy_pool _).
    assert (p = privacy_pool (snd (register_deposit t c))) as <-.
    { unfold p, register_deposit. by destruct (_ && _). }
    set (c2 := set_pool p _).
    rewrite (se_bind_step _ _ _ _ _ (update_nonce_native t _ c2 _ la (proj1 Hn) Hpn)).
    rewrite (se_bind_step _ _ _ _ _ (on_ledger_step _ (set_ledger la c2) _ _ Hve)).
    by rewrite (on_ledger_step _ (set_ledger lb (set_ledger la c2)) _ _ Hst).
  - destruct Hd as (l1 & Hd & Hr). exists l1.
    rewrite (se_bind_fail _ _ _ _ _ (on_ledger_step _ c _ _ Hd)). split_and!; [done|..].
    + by eapply agrees_reads.
    + by eapply reads_good.
Qed.

(** *** Validation of a native transaction *)

Lemma get_nonce_step a c : ∃ l, on_ledger (get_nonce a) c = (Ok (view (ledger c) a).2, set_ledger l c) ∧ reads (ledger c) l.
Proof. destruct (get_nonce_spec a (ledger c)) as (l & Hg & Hr). exists l. by rewrite (on_ledger_step _ _ _ _ Hg). Qed.
Lemma get_balance_step a c : ∃ l, on_ledger (get_balance a) c = (Ok (view (ledger c) a).1, set_ledger l c) ∧ reads (ledger c) l.
Proof. destruct (get_balance_spec a (ledger c)) as (l & Hg & Hr). exists l. by rewrite (on_ledger_step _ _ _ _ Hg). Qed.

(** A computation that only refreshes the in-memory accounts of [c], and
    succeeds exactly when [P] holds. *)
Definition checks (c : Blockchain) (m : BM unit) (P : Prop) : Prop :=
  ∀ l, reads (ledger c) l →
    ∃ r l', m (set_ledger l c) = (r, set_ledger l' c) ∧ reads (ledger c) l' ∧ (is_ok r = true ↔ P).

Lemma checks_bind c m k P Q : checks c m P → checks c k Q → checks c (m ≫= λ _, k) (P ∧ Q).
Proof.
  intros Hm Hk l Hl. destruct (Hm l Hl) as (r & l1 & Hm1 & Hr1 & HP). destruct r as [[]|e].
  - destruct (Hk l1 Hr1) as (r2 & l2 & Hk2 & Hr2 & HQ). exists r2, l2.
    rewrite (se_bind_step _ _ _ _ _ Hm1). split_and!; [done..|]. rewrite HQ. cbn in HP. tauto.
  - exists (Err e), l1. rewrite (se_bind_fail _ _ _ _ _ Hm1). split_and!; [done..|]. cbn in *.
    split; [done|]. intros [HP' _]. by apply HP in HP'.
Qed.

Lemma checks_read c f r P :
  (∀ l, f (set_ledger l c) = r) → (is_ok r = true ↔ P) → checks c (se_read f) P.
Proof. intros Hf HP l Hl. exists r, l. unfold se_read. by rewrite Hf. Qed.
Lemma checks_ret c : checks c (mret tt) True.
Proof. intros l Hl. by exists (Ok tt), l. Qed.
Lemma checks_get c k P : (∀ l, checks c (k (set_ledger l c)) P) → checks c (se_get ≫= k) P.
Proof. intros Hk l Hl. by apply Hk. Qed.

Lemma checks_run c m P : checks c m P → ∃ r l, m c = (r, set_ledger l c) ∧ reads (ledger c) l ∧ (is_ok r = true ↔ P).
Proof.
  intros Hm. destruct (Hm (ledger c)) as (r & l & Hr); [done|]. exists r, l.
  assert (set_ledger (ledger c) c = c) as Hid by (by destruct c). by rewrite Hid in Hr.
Qed.

Lemma is_ok_unit {E} (r : result E unit) : is_ok r = true ↔ r = Ok tt.
Proof. by destruct r as [[]|]. Qed.

Lemma check_nonce_native t c :
  wallet_registry c = None → checks c (check_nonce t) (nonce t = (view (ledger c) (from t)).2).
Proof.
  intros Hw l Hl. destruct (get_nonce_step (from t) (set_ledger l c)) as (l1 & Hg & Hr).
  cbn [set_ledger ledger] in Hr. rewrite (rd_view _ _ Hl) in Hg.
  assert (reads (ledger c) l1) as Hr1 by (by transitivity l).
  assert (expected_nonce t (set_ledger l c) = (Ok (view (ledger c) (from t)).2, set_ledger l1 c)) as He.
  { unfold expected_nonce. set (c1 := set_ledger l c). rewrite (se_bind_step (E:=BlockchainError) se_get _ c1 c1 c1 eq_refl).
    unfold c1. cbn [set_ledger wallet_registry]. by rewrite Hw. }
  unfold check_nonce. rewrite (se_bind_step _ _ _ _ _ He).
  destruct (_ =? _) eqn:Heq; bool_to_prop; [by exists (Ok tt), l1|].
  destruct (_ <? _); eexists _, l1; (split_and!; [done..|]); by split.
Qed.

Lemma check_spending_native now t c : wallet_registry c = None → checks c (check_spending now t) True.
Proof.
  intros Hw. apply checks_get. intros l. cbn [set_ledger wallet_registry]. rewrite Hw. apply checks_ret.
Qed.

(** The balances cover value and fee. *)
Definition funded (t : Transaction) (v : Accts) : Prop :=
  value t <= (v (from t)).1 ∧
  match sponsor t with
  | Some s => fee t <= (v s).1
  | None => value t + fee t <= (v (from t)).1
  end.

Lemma funded_transfer t v : funded t v ↔ is_ok (spec_transfer t v) = true.
Proof.
  unfold funded, spec_transfer, spec_debit.
  destruct (_ <? value t) eqn:Hv; cbn; bool_to_prop; [split; [lia|done]|].
  destruct (sponsor t) as [s|]; destruct (_ <? fee t) eqn:Hs; cbn; bool_to_prop; split; (done || lia).
Qed.

Lemma check_funds_native t c :
  in_u128 (view (ledger c) (from t)).1 → value t + fee t <= u128_max →
  checks c (check_funds t) (funded t (view (ledger c))).
Proof.
  intros Hb Hsum l Hl. destruct (get_balance_step (from t) (set_ledger l c)) as (l1 & Hg & Hr).
  cbn [set_ledger ledger] in Hr. rewrite (rd_view _ _ Hl) in Hg. assert (reads (ledger c) l1) as Hr1 by (by transitivity l).
  unfold check_funds, funded. rewrite (se_bind_step _ _ _ _ _ Hg).
  destruct (_ <? value t) eqn:Hlt; bool_to_prop.
  { eexists _, l1. split_and!; [done..|]. cbn. split; [done|lia]. }
  destruct (sponsor t) as [s|].
  - destruct (get_balance_step s (set_ledger l1 c)) as (l2 & Hg2 & Hr2). cbn [set_ledger ledger] in Hr2.
    rewrite (rd_view _ _ Hr1) in Hg2. rewrite (se_bind_step _ _ _ _ _ Hg2).
    destruct (_ <? fee t) eqn:Hlt2; bool_to_prop; eexists _, l2; (split_and!; [done|by transitivity l1|]);
      cbn; split; (done || lia).
  - destruct (_ <? sat_add128 _ _) eqn:Hlt2; bool_to_prop; eexists _, l1; (split_and!; [done..|]);
      cbn; split; try done; mlia.
Qed.

(** Without the bound on value and fee: some condition on the accounts. *)
Lemma check_funds_reads t c : ∃ P, checks c (check_funds t) P.
Proof.
  exists (is_ok (fst (check_funds t c)) = true).
  assert (∀ l, reads (ledger c) l → ∃ l', check_funds t (set_ledger l c)
    = (if (view (ledger c) (from t)).1 <? value t then Err (InvalidTransaction "Insufficient balance (value)")
       else match sponsor t with
            | Some s => if (view (ledger c) s).1 <? fee t
                        then Err (InvalidTransaction "Insufficient sponsor balance") else Ok tt
            | None => if (view (ledger c) (from t)).1 <? sat_add128 (value t) (fee t)
                      then Err (InvalidTransaction "Insufficient balance (value + fee)") else Ok tt
            end, set_ledger l' c) ∧ reads (ledger c) l') as Hrun.
  { intros l Hl. destruct (get_balance_step (from t) (set_ledger l c)) as (l1 & Hg & Hr).
    cbn [set_ledger ledger] in Hr. rewrite (rd_view _ _ Hl) in Hg. assert (reads (ledger c) l1) as Hr1 by (by transitivity l).
    unfold check_funds. rewrite (se_bind_step _ _ _ _ _ Hg). destruct (_ <? value t); [by exists l1|].
    destruct (sponsor t) as [s|]; [|destruct (_ <? _); by exists l1].
    destruct (get_balance_step s (set_ledger l1 c)) as (l2 & Hg2 & Hr2). cbn [set_ledger ledger] in Hr2.
    rewrite (rd_view _ _ Hr1) in Hg2. rewrite (se_bind_step _ _ _ _ _ Hg2).
    exists l2. split; [by destruct (_ <? fee t)|by transitivity l1]. }
  intros l Hl. destruct (Hrun l Hl) as (l' & -> & Hl').
  destruct (Hrun (ledger c)) as (l0 & Hc0 & _); [done|].
  assert (set_ledger (ledger c) c = c) as Hid by (by destruct c). rewrite Hid in Hc0.
  eexists _, l'. split_and!; [done..|]. by rewrite Hc0.
Qed.

(** *** The two validations as conditions on the accounts *)

Definition sponsor_ok (c : Blockchain) (t : Transaction) (n : u64) : Prop :=
  match sponsor t with
  | Some s => check (sponsor_registry c) s (from t) (fee t) n = Ok tt
  | None => True
  end.

Lemma validate_stateful_checks now t n c F :
  wallet_registry c = None → checks c (check_funds t) F →
  checks c (validate_tx_stateful_only now t n)
    (sponsor_ok c t n ∧ nonce t = (view (ledger c) (from t)).2 ∧ True ∧ F).
Proof.
  intros Hw HF. apply checks_get. intros l. apply checks_bind.
  { unfold sponsor_ok. destruct (sponsor t) as [s|]; [|apply checks_ret].
    eapply checks_read; [done|]. cbn [set_ledger sponsor_registry]. by destruct (check _ _ _ _ _) as [[]|]. }
  apply checks_bind; [by apply check_nonce_native|]. by apply checks_bind; [apply check_spending_native|].
Qed.

(** Without a wallet registry the signatures of a transaction that carries a
    multi-signature list are not looked at. *)
Lemma validate_transaction_checks now t n c F :
  wallet_registry c = None → checks c (check_funds t) F →
  checks c (validate_transaction now t n)
    ((multisig_signatures t = None → signature_ok t n = Ok tt) ∧
     check_fee t = Ok tt ∧ check_data_size t = Ok tt ∧ check_value t = Ok tt ∧ check_total t = Ok tt ∧
     check_gas_max t = Ok tt ∧ check_chain_id (bc_chain_id c) t = Ok tt ∧ check_hash t = Ok tt ∧
     nonce t = (view (ledger c) (from t)).2 ∧ True ∧ F ∧
     check_gas_zero t = Ok tt ∧ check_evm_gas (evm_enabled c) t = Ok tt).
Proof.
  intros Hw HF. apply checks_get. intros l. cbn [set_ledger wallet_registry]. rewrite Hw.
  apply checks_bind.
  { destruct (multisig_signatures t) as [sigs|]; [intros l1 Hl1; by exists (Ok tt), l1|].
    eapply checks_read; [done|]. rewrite is_ok_unit. tauto. }
  do 7 (apply checks_bind; [eapply checks_read; [intros ?; cbn [set_ledger bc_chain_id]; reflexivity|
                                                 apply is_ok_unit]|]).
  apply checks_bind; [by apply check_nonce_native|]. apply checks_bind; [by apply check_spending_native|].
  apply checks_bind; [done|].
  apply checks_bind; (eapply checks_read; [intros ?; cbn [set_ledger evm_enabled]; reflexivity|apply is_ok_unit]).
Qed.

(** ** Blocks *)

Definition spec_exec (v : Accts) (t : Transaction) : result BlockchainError Accts :=
  _ ← ensure (nonce t =? (v (from t)).2) (InvalidTransaction "Invalid nonce"); spec_transfer t v.

(** The chain's accounts are [v]. *)
Record holds (c : Blockchain) (v : Accts) : Prop := {
  ho_verkle : verkle_good (ledger c);
  ho_range : accts_ok v;
  ho_agrees : agrees (ledger c) v }.

Lemma validation_native now b t c v :
  tx_ok t → native c t → holds c v →
  ∃ r l, (if bool_decide (is_Some (multisig_signatures t)) then validate_transaction now t (block_number (header b))
          else validate_tx_stateful_only now t (block_number (header b))) c = (r, set_ledger l c) ∧
    holds (set_ledger l c) v ∧ (r = Ok tt → nonce t = (v (from t)).2).
Proof.
  intros Ht [Hw _] [Hg Hv Hag]. destruct (check_funds_reads t c) as [F HF].
  assert (∃ P, checks c (if bool_decide (is_Some (multisig_signatures t))
     then validate_transaction now t (block_number (header b))
     else validate_tx_stateful_only now t (block_number (header b))) P ∧
     (P → nonce t = (view (ledger c) (from t)).2)) as (P & Hc & HP).
  { case_bool_decide; eexists; (split; [by (apply validate_transaction_checks || apply validate_stateful_checks)|]);
      tauto. }
  destruct (checks_run _ _ _ Hc) as (r & l & Hrun & Hr & Hok). exists r, l. split_and!; [done| |].
  - split; [by eapply reads_good|done|by eapply agrees_reads].
  - intros ->. rewrite <- Hag by apply Ht. by apply HP, Hok.
Qed.

Record executed_tx (b : Block) (t : Transaction) (c c' : Blockchain) (v v' : Accts) : Prop := {
  et_spec : spec_exec v t = Ok v';
  et_holds : holds c' v';
  et_fresh : is_replay c t = false;
  et_ready : is_ready_to_execute t (block_number (header b)) (timestamp (header b)) = true;
  et_unspent : check_double_spend c t (block_hash b) = Ok tt;
  et_spent : spent_outputs c' = <[(from t, nonce t) := (block_hash b, block_number (header b))]> (spent_outputs c) }.

Lemma execute_tx_native now b t c v :
  tx_ok t → native c t → holds c v →
  ∃ r c', execute_tx now b t c = (r, c') ∧ exec_frame c c' ∧
    match r with
    | Ok _ => ∃ v', executed_tx b t c c' v v'
    | Err _ => holds c' v ∧ spent_outputs c' = spent_outputs c
    end.
Proof.
  intros Ht Hn Hh. unfold execute_tx.
  destruct (is_ready_to_execute _ _ _) eqn:Hready; cbn [negb]; [|by eexists _, c].
  destruct (check_double_spend c t (block_hash b)) as [[]|e] eqn:Hds.
  2:{ eexists (Err e), c. split; [|done]. unfold mbind at 1, SE_bind at 1, se_read at 1. by rewrite Hds. }
  rewrite (se_bind_step (se_read (λ c, check_double_spend c t (block_hash b))) _ c tt c) by (unfold se_read; by rewrite Hds).
  destruct (validation_native now b t c v Ht Hn Hh) as (r & l & Hval & Hh1 & Hnon).
  set (c1 := set_ledger l c) in *. assert (exec_frame c c1) as Hf1 by apply frame_ledger.
  destruct r as [[]|e].
  2:{ eexists (Err e), c1. rewrite (se_bind_fail _ _ _ _ _ Hval). done. }
  rewrite (se_bind_step _ _ _ _ _ Hval). specialize (Hnon eq_refl).
  destruct (is_replay c1 t) eqn:Hrep.
  { eexists (Err _), c1. split; [|done]. unfold process_transaction, mbind at 1, SE_bind at 1, mbind at 1, SE_bind at 1, se_get.
    by rewrite Hrep. }
  destruct Hh1 as [Hg1 Hv1 Hag1].
  pose proof (process_native now t c1 v Ht (native_frame _ _ _ Hf1 Hn) Hrep Hg1 Hv1 Hag1) as Hp.
  destruct (spec_transfer t v) as [v'|e] eqn:Hsp.
  - destruct Hp as (l2 & Hp & Hag2 & Hg2 & _). rewrite (se_bind_step _ _ _ _ _ Hp). set (c2 := set_pool _ _).
    set (c3 := record_spent_output t (block_hash b) (block_number (header b)) c2).
    assert (exec_frame c c3) as Hf3.
    { transitivity c1; [done|]. transitivity (set_ledger l2 c1); [apply frame_ledger|].
      transitivity c2; [apply frame_pool|apply frame_spent]. }
    assert (spec_exec v t = Ok v') as Hse.
    { unfold spec_exec. by rewrite Hnon, Z.eqb_refl. }
    assert (holds c3 v') as Hh3 by (split; [done|by eapply spec_transfer_ok|done]).
    rewrite (se_bind_step (se_mod _) _ c2 tt c3 eq_refl). destruct (sponsor t) as [sp|].
    + eexists (Ok tt), _. split; [done|]. split; [transitivity c3; [done|apply frame_sponsors]|].
      exists v'. split; [done|by destruct Hh3; split|exact Hrep|done..].
    + eexists (Ok tt), c3. split; [done|]. split; [done|].
      exists v'. split; [done|done|exact Hrep|done..].
  - destruct Hp as (l2 & Hp & Hag2 & Hg2). rewrite (se_bind_fail _ _ _ _ _ Hp).
    eexists (Err e), _. split; [done|]. split; [transitivity c1; [done|apply frame_ledger]|]. done.
Qed.

(** *** Nonces along a run of the specification *)

Definition spec_run (v : Accts) (txs : list Transaction) : result BlockchainError Accts := try_fold spec_exec v txs.

Lemma spec_exec_nonce v t v' :
  spec_exec v t = Ok v' →
  nonce t = (v (from t)).2 ∧ (v' (from t)).2 = sat_add64 (nonce t) 1 ∧ ∀ a, a ≠ from t → (v' a).2 = (v a).2.
Proof.
  unfold spec_exec, spec_transfer. destruct (nonce t =? _) eqn:Hn; cbn; bool_to_prop; [|done].
  destruct (spec_debit t v) as [v1|] eqn:Hd; cbn; [|done]. intros [= <-].
  assert (∀ a, (spec_credit t v1 a).2 = (v1 a).2) as Hc.
  { intros a. unfold spec_credit, set_bal, put_acct. case_bool_decide; [done|]. by destruct (decide _) as [->|]. }
  rewrite Hc. setoid_rewrite Hc. unfold spec_debit in Hd. destruct (_ <? value t); [done|].
  destruct (sponsor t) as [s|]; (destruct (_ <? fee t); [done|]); injection Hd as <-; rewrite Hn; unfold put_acct;
    rewrite decide_True by done; (split_and!; [done..|]); intros a Ha; rewrite decide_False by done; [|done].
  unfold set_bal, put_acct. by destruct (decide _) as [->|].
Qed.

Lemma spec_exec_ok v t v' : tx_ok t → accts_ok v → spec_exec v t = Ok v' → accts_ok v'.
Proof. intros Ht Hv. unfold spec_exec. destruct (_ =? _); [|done]. by apply spec_transfer_ok. Qed.

Lemma spec_run_nonces txs v v' :
  Forall tx_ok txs → spec_run v txs = Ok v' →
  (∀ a, (v a).2 <= u64_max → (v a).2 <= (v' a).2 <= u64_max) ∧
  ∀ t, t ∈ txs → (v (from t)).2 <= u64_max →
    (v (from t)).2 <= nonce t ∧ (nonce t < u64_max → nonce t < (v' (from t)).2).
Proof.
  intros Hok. revert v. induction Hok as [|t txs Ht Hok IH]; intros v Hrun.
  { injection Hrun as <-. split; [lia|]. by intros t Hin%elem_of_nil. }
  unfold spec_run in Hrun. cbn [try_fold] in Hrun. apply bind_Ok in Hrun as (v1 & Hx & Hrun).
  destruct (spec_exec_nonce _ _ _ Hx) as (Hn & Hn1 & Hother). destruct (IH v1 Hrun) as [Hmono Hin].
  assert (∀ a, (v a).2 <= u64_max → (v a).2 <= (v1 a).2 <= u64_max) as Hstep.
  { intros a Ha. destruct (decide (a = from t)) as [->|Hne]; [|rewrite Hother by done; lia].
    rewrite Hn1, Hn. unfold sat_add64. lia. }
  split.
  - intros a Ha. pose proof (Hstep a Ha). pose proof (Hmono a ltac:(lia)). lia.
  - intros t' [->|Ht']%elem_of_cons Hle.
    + split; [lia|]. intros Hmax. pose proof (Hstep _ Hle). pose proof (Hmono (from t) ltac:(lia)).
      rewrite Hn1 in *. unfold sat_add64 in *. lia.
    + pose proof (Hstep _ Hle). destruct (Hin t' Ht') as [H1' H2']; [lia|]. split; [lia|done].
Qed.

(** No (sender, nonce) pair runs twice. *)
Lemma spec_run_NoDup txs v v' :
  Forall tx_ok txs → Forall (λ t, nonce t < u64_max) txs → accts_ok v → spec_run v txs = Ok v' →
  NoDup ((λ t, (from t, nonce t)) <$> txs).
Proof.
  intros Hok Hmax. revert v. induction Hok as [|t txs Ht Hok IH]; intros v Hv Hrun; [constructor|].
  apply Forall_cons in Hmax as [Htm Hmax].
  unfold spec_run in Hrun. cbn [try_fold] in Hrun. apply bind_Ok in Hrun as (v1 & Hx & Hrun).
  pose proof (spec_exec_ok _ _ _ Ht Hv Hx) as Hv1. cbn [fmap list_fmap]. constructor; [|by eapply IH].
  intros (t' & [= Hf Hn'] & Hin)%list_elem_of_fmap.
  destruct (spec_exec_nonce _ _ _ Hx) as (Hn & Hn1 & _).
  destruct (spec_run_nonces _ _ _ Hok Hrun) as [_ Hge]. destruct (Hge t' Hin) as [Hle _].
  { rewrite <- Hf. apply Hv1, Ht. }
  rewrite <- Hf, Hn1, <- Hn' in Hle. unfold sat_add64 in Hle. lia.
Qed.

(** *** The value leaving circulation *)

Definition run_losses (txs : list Transaction) : Z := foldr (λ t, Z.add (fee_taken t + value_burned t)) 0 txs.

Lemma spec_run_supply txs v v' dom :
  NoDup dom → Forall (λ a, address_wf a = true) dom → Forall (λ t, touches t dom) txs → Forall tx_ok txs →
  accts_ok v → supply v dom <= u128_max → spec_run v txs = Ok v' →
  supply v' dom = supply v dom - run_losses txs.
Proof.
  intros Hnd Hwf Ht Hok. revert v Ht. induction Hok as [|t txs Htx Hok IH]; intros v Ht Hv Hmax Hrun.
  { injection Hrun as <-. cbn. lia. }
  apply Forall_cons in Ht as [Htt Ht]. unfold spec_run in Hrun. cbn [try_fold] in Hrun.
  apply bind_Ok in Hrun as (v1 & Hx & Hrun). pose proof (spec_exec_ok _ _ _ Htx Hv Hx) as Hv1.
  unfold spec_exec in Hx. destruct (_ =? _); [|done]. cbn in Hx.
  pose proof (spec_transfer_supply t v v1 dom Hnd Htt Htx Hv Hwf Hmax Hx) as Hs.
  assert (0 <= fee_taken t ∧ 0 <= value_burned t) as [].
  { unfold fee_taken, value_burned. destruct Htx as [_ _ _ Hval Hfee _]. split; case_bool_decide; mlia. }
  rewrite (IH v1) by (done || lia). change (run_losses (t :: txs)) with (fee_taken t + value_burned t + run_losses txs).
  lia.
Qed.

(** *** The loop over a block's transactions *)

Definition spends (t : Transaction) : Address * u64 := (from t, nonce t).

Lemma double_spend_ok c t h :
  check_double_spend c t h = Ok tt ↔ ∀ h' n, spent_outputs c !! spends t = Some (h', n) → h' = h.
Proof.
  unfold check_double_spend, spends. destruct (spent_outputs c !! _) as [[h' n]|]; [|naive_solver].
  rewrite ensure_Ok, bool_decide_eq_true. naive_solver.
Qed.

(** What the first transactions of a block did to the chain: the accounts
    are those of the abstract run, and the spent outputs are recorded. *)
Record executed_prefix (b : Block) (txs : list Transaction) (c c' : Blockchain) (v v' : Accts) : Prop := {
  ep_run : spec_run v txs = Ok v';
  ep_holds : holds c' v';
  ep_frame : exec_frame c c';
  ep_fresh : ∀ t, t ∈ txs → is_replay c t = false;
  ep_ready : ∀ t, t ∈ txs → is_ready_to_execute t (block_number (header b)) (timestamp (header b)) = true;
  ep_unspent : ∀ t h n, t ∈ txs → spent_outputs c !! spends t = Some (h, n) → h = block_hash b;
  ep_spent : ∀ t, t ∈ txs → spent_outputs c' !! spends t = Some (block_hash b, block_number (header b));
  ep_others : ∀ p, p ∉ spends <$> txs → spent_outputs c' !! p = spent_outputs c !! p }.

Lemma executed_nil b c c' v :
  holds c' v → exec_frame c c' → spent_outputs c' = spent_outputs c → executed_prefix b [] c c' v v.
Proof. intros Hh Hf Hs. split; try done; try (intros t; intros; by exfalso; eapply not_elem_of_nil). by rewrite Hs. Qed.

Lemma executed_cons b t txs c c1 c' v v1 v' :
  exec_frame c c1 → executed_tx b t c c1 v v1 → executed_prefix b txs c1 c' v1 v' →
  executed_prefix b (t :: txs) c c' v v'.
Proof.
  intros Hf [Hx Hh Hfr Hrd Hun Hsp] [Er Eh Ef Efr Erd Eun Esp Eot]. split.
  - unfold spec_run. cbn [try_fold]. by rewrite Hx.
  - done.
  - by transitivity c1.
  - intros t' [->|Ht']%elem_of_cons; [done|]. rewrite <- (Efr t' Ht'). by destruct Hf.
  - intros t' [->|Ht']%elem_of_cons; [done|by apply Erd].
  - intros t' h n [->|Ht']%elem_of_cons Hl; [by apply (proj1 (double_spend_ok _ _ _) Hun h n)|].
    destruct (decide (spends t' = spends t)) as [Heq|Hne].
    + apply (proj1 (double_spend_ok _ _ _) Hun h n). by rewrite <- Heq.
    + apply (Eun t' h n Ht'). by rewrite Hsp, lookup_insert_ne.
  - intros t' [->|Ht']%elem_of_cons; [|by apply Esp].
    destruct (decide (spends t ∈ spends <$> txs)) as [(t2 & Heq & Ht2)%list_elem_of_fmap|Hni].
    + rewrite Heq. by apply Esp.
    + rewrite Eot, Hsp by done. by rewrite lookup_insert_eq.
  - intros p [Hne Hni]%not_elem_of_cons. rewrite Eot, Hsp by done. by rewrite lookup_insert_ne.
Qed.

Lemma execute_txs_native now b txs c v :
  Forall tx_ok txs → Forall (native c) txs → holds c v →
  ∃ r c' k v', se_for txs (execute_tx now b) c = (r, c') ∧ executed_prefix b (take k txs) c c' v v' ∧
    executed_txs now b txs c = take k txs ∧
    match r with Ok _ => k = length txs | Err _ => (k < length txs)%nat end.
Proof.
  intros Hok. revert c v. induction Hok as [|t txs Ht Hok IH]; intros c v Hn Hh.
  { exists (Ok tt), c, 0%nat, v. split; [done|]. split; [by apply executed_nil|done]. }
  apply Forall_cons in Hn as [Hnt Hn]. cbn [se_for executed_txs].
  destruct (execute_tx_native now b t c v Ht Hnt Hh) as (r & c1 & Hx & Hf & Hr). destruct r as [[]|e].
  - destruct Hr as (v1 & Het). rewrite (se_bind_step _ _ _ _ _ Hx).
    destruct (IH c1 v1) as (r & c' & k & v' & Hrun & Hpre & Htk & Hk).
    { eapply Forall_impl; [done|]. intros t' Hn'. by eapply native_frame. }
    { apply Het. }
    exists r, c', (S k), v'. rewrite Hx, Htk. split; [done|]. split; [by eapply executed_cons|]. split; [done|]. cbn. destruct r; lia.
  - destruct Hr as [Hh1 Hs]. rewrite (se_bind_fail _ _ _ _ _ Hx), Hx. exists (Err e), c1, 0%nat, v.
    split; [done|]. split; [by apply executed_nil|]. split; [done|]. cbn. lia.
Qed.

Lemma prepass_reads {A} (f : A → Blockchain → result BlockchainError unit) l c :
  ∃ r, se_for l (λ x, se_read (f x)) c = (r, c) ∧
    (r = Ok tt ↔ Forall (λ x, f x c = Ok tt) l).
Proof.
  induction l as [|x l IH]; cbn [se_for]; [exists (Ok tt); split; [done|]; by split|].
  destruct (f x c) as [[]|e] eqn:Hx.
  - rewrite (se_bind_step (se_read (f x)) _ c tt c) by (unfold se_read; by rewrite Hx).
    destruct IH as (r & -> & Hr). exists r. split; [done|]. rewrite Forall_cons, Hr. tauto.
  - rewrite (se_bind_fail (se_read (f x)) _ c e c) by (unfold se_read; by rewrite Hx).
    exists (Err e). split; [done|]. rewrite Forall_cons. split; [done|]. intros []. congruence.
Qed.

Lemma prune_spent_lookup n c p :
  spent_outputs (prune_spent_outputs n c) !! p
  = match spent_outputs c !! p with
    | Some (h, k) => if bool_decide (FINALITY_DEPTH < n ∧ k <= n - FINALITY_DEPTH) then None else Some (h, k)
    | None => None
    end.
Proof.
  unfold prune_spent_outputs. destruct (n <=? FINALITY_DEPTH) eqn:Hn; bool_to_prop.
  - destruct (spent_outputs c !! p) as [[h k]|]; [|done]. rewrite bool_decide_eq_false_2; [done|lia].
  - cbn [set_spent spent_outputs]. rewrite map_lookup_filter.
    destruct (spent_outputs c !! p) as [[h k]|]; [|done]. cbn. case_guard as Hg; cbn in *.
    + rewrite bool_decide_eq_false_2; [done|lia].
    + rewrite bool_decide_eq_true_2; [done|lia].
Qed.

Lemma block_run now b c :
  Forall tx_ok (transactions b) → Forall (native c) (transactions b) → ledger_ok (ledger c) →
  ∃ r c' k v', validate_and_process_transactions now b c = (r, c') ∧ executed_of now b c = take k (transactions b) ∧
    spec_run (view (ledger c)) (take k (transactions b)) = Ok v' ∧
    ledger_ok (ledger c') ∧ agrees (ledger c') v' ∧ exec_frame c c' ∧
    match r with
    | Ok _ => k = length (transactions b) ∧
        Forall (λ t, is_replay c t = false ∧
          (multisig_signatures t = None → signature_ok t (block_number (header b)) = Ok tt) ∧
          (∀ h n, spent_outputs c !! spends t = Some (h, n) → h = block_hash b) ∧
          spent_outputs c' !! spends t = Some (block_hash b, block_number (header b))) (transactions b)
    | Err _ => (k < length (transactions b))%nat
    end.
Proof.
  intros Hok Hn [Hg Hr]. set (v := view (ledger c)).
  assert (holds c v) as Hh by (split; [done|exact Hr|by intros a]). unfold validate_and_process_transactions, executed_of.
  destruct (prepass_reads (λ t c, verify_tx_stateless t (bc_chain_id c) (evm_enabled c) (block_number (header b)))
    (filter (λ t, multisig_signatures t = None) (transactions b)) c) as (r1 & Hpre & Hpre_ok).
  destruct r1 as [[]|e].
  2:{ exists (Err e), c, 0%nat, v. rewrite (se_bind_fail _ _ _ _ _ Hpre), Hpre. split_and!; [done..|].
      destruct (transactions b); [done|cbn; lia]. }
  rewrite (se_bind_step _ _ _ _ _ Hpre), Hpre.
  destruct (execute_txs_native now b (transactions b) c v Hok Hn Hh) as (r & c1 & k & v' & Hrun & Hpf & Htk & Hk).
  rewrite Htk.
  destruct (ep_holds _ _ _ _ _ _ Hpf) as [Hg1 Hv1 Hag1].
  assert (ledger_ok (ledger c1)) as Hlo by (split; [done|]; intros a Ha; rewrite Hag1 by done; by apply Hv1).
  destruct r as [[]|e].
  - rewrite (se_bind_step _ _ _ _ _ Hrun). subst k. rewrite firstn_all in *.
    assert (∀ n, ledger (prune_spent_outputs n c1) = ledger c1) as Hpl.
    { intros n. unfold prune_spent_outputs. by destruct (_ <=? _). }
    eexists (Ok tt), _, (length (transactions b)), v'. split; [done|]. rewrite firstn_all, Hpl.
    split_and!; [done|apply Hpf|done..| |done|].
    { transitivity c1; [apply Hpf|]. unfold prune_spent_outputs. destruct (_ <=? _); [done|apply frame_spent]. }
    apply Forall_forall. intros t Ht. split_and!.
    + by eapply ep_fresh.
    + intros Hms. pose proof (proj1 Hpre_ok eq_refl) as Hpo. rewrite Forall_forall in Hpo.
      specialize (Hpo t). unfold verify_tx_stateless in Hpo.
      assert (t ∈ filter (λ t, multisig_signatures t = None) (transactions b)) as Hin by (by apply list_elem_of_filter).
      specialize (Hpo Hin). by destruct (signature_ok t _) as [[]|].
    + intros h n. by apply (ep_unspent _ _ _ _ _ _ Hpf t h n).
    + rewrite prune_spent_lookup, (ep_spent _ _ _ _ _ _ Hpf t Ht).
      rewrite bool_decide_eq_false_2; [done|]. unfold FINALITY_DEPTH. lia.
  - rewrite (se_bind_fail _ _ _ _ _ Hrun). exists (Err e), c1, k, v'. split_and!; [done|done|apply Hpf|done|done|apply Hpf|done].
Qed.

(** A native transfer behaves like the abstract one on the observed accounts,
    whatever mix of memory, database and Verkle state holds them: it
    succeeds exactly when the specification does, with the specified balances
    and nonces, a receipt in the database and, for a transfer to the pool, the
    deposit; when it fails it returns the specified error and no account has
    changed.  In particular the consistency check at its end never fires. *)
Theorem process_transaction_refines now t c :
  tx_ok t → native c t → is_replay c t = false → ledger_ok (ledger c) →
  ∃ r l', process_transaction now t c
    = (r, (if is_ok r then set_pool (privacy_pool (snd (register_deposit t c))) else id) (set_ledger l' c)) ∧
    match spec_transfer t (view (ledger c)) with
    | Ok v' => r = Ok tt ∧ agrees l' v' ∧ ledger_ok l' ∧
        (has_db (ledger c) = true → is_Some (serialize native_receipt) →
         get_tx_receipt l' (tx_hash t) = Some native_receipt)
    | Err e => r = Err e ∧ agrees l' (view (ledger c)) ∧ ledger_ok l'
    end.
Proof.
  intros Ht Hn Hrep [Hg Hr]. pose proof (process_native now t c (view (ledger c)) Ht Hn Hrep Hg Hr) as Hp.
  assert (∀ l v, verkle_good l → accts_ok v → agrees l v → ledger_ok l) as Hlo.
  { intros l v Hgl Hv Hag. split; [done|]. intros a Ha. rewrite Hag by done. by apply Hv. }
  destruct (spec_transfer t _) as [v'|e] eqn:Hs; destruct Hp as (l' & Hp & Hag & Hrest); try (by intros a).
  - exists (Ok tt), l'. destruct Hrest as [Hg' Hrc]. split_and!; try done.
    eapply Hlo; [done|by eapply spec_transfer_ok|done].
  - exists (Err e), l'. split_and!; try done. by eapply Hlo.
Qed.

(** C2: Executing a block without contract calls is running its transactions one
    after the other on the abstract accounts.  The transactions carry no data,
    or the EVM is off, and the chain has no wallet registry (no constructor
    gives it one); the accounts are well-formed.  When it succeeds all of them
    have run, each with the nonce its sender had at that point and none of them
    seen in a recent block or spent in another block, and their (sender, nonce)
    pairs are recorded; when it fails the accounts are those after a strict
    prefix, which stays applied.  The balances, in memory, in the database and
    in the Verkle tree, follow the specification in every configuration. *)
Theorem block_execution_refines now b c :
  Forall tx_ok (transactions b) → Forall (native c) (transactions b) → ledger_ok (ledger c) →
  ∃ r c' k v', validate_and_process_transactions now b c = (r, c') ∧
    executed_of now b c = take k (transactions b) ∧
    spec_run (view (ledger c)) (take k (transactions b)) = Ok v' ∧
    ledger_ok (ledger c') ∧ agrees (ledger c') v' ∧
    match r with
    | Ok _ => k = length (transactions b) ∧
        Forall (λ t, is_replay c t = false ∧
          (multisig_signatures t = None → signature_ok t (block_number (header b)) = Ok tt) ∧
          (∀ h n, spent_outputs c !! spends t = Some (h, n) → h = block_hash b) ∧
          spent_outputs c' !! spends t = Some (block_hash b, block_number (header b))) (transactions b)
    | Err _ => (k < length (transactions b))%nat
    end.
Proof.
  intros Hok Hn Hlo. destruct (block_run now b c Hok Hn Hlo) as (r & c' & k & v' & Hrun & Hx & Hs & Hl & Hag & _ & Hk).
  by exists r, c', k, v'.
Qed.

(** C3: Executing a block without contract calls (its transactions carry no data,
    or the EVM is off, and there is no wallet registry), successfully or not,
    takes out of circulation exactly the fees of the transactions that were
    applied and the values they sent to the zero address, and creates nothing.
    A transaction that names its sender as sponsor counts no fee: the code
    writes the fee back. *)
Theorem block_conserves_supply now b c dom :
  Forall tx_ok (transactions b) → Forall (native c) (transactions b) → ledger_ok (ledger c) →
  NoDup dom → Forall (λ a, address_wf a = true) dom → Forall (λ t, touches t dom) (transactions b) →
  supply (view (ledger c)) dom <= u128_max →
  ∃ r c', validate_and_process_transactions now b c = (r, c') ∧
    supply (view (ledger c')) dom = supply (view (ledger c)) dom - run_losses (executed_of now b c) ∧
    (r = Ok tt → executed_of now b c = transactions b).
Proof.
  intros Hok Hn Hlo Hnd Hwf Ht Hmax.
  destruct (block_run now b c Hok Hn Hlo) as (r & c' & k & v' & Hrun & -> & Hs & _ & Hag & _ & Hk).
  exists r, c'. split_and!; [done| |intros ->; destruct Hk as [-> _]; apply firstn_all].
  rewrite (supply_ext (view (ledger c')) v').
  - pose proof (lo_range _ Hlo). eapply spec_run_supply; try done; by apply Forall_take.
  - intros a Ha. rewrite Forall_forall in Hwf. by apply Hag, Hwf.
Qed.

(** A transaction that carries a multi-signature list, even an empty one, is
    executed without any signature being checked when the chain has no wallet
    registry: it moves the funds of its sender as long as its other fields are
    in order. *)
Theorem multisig_list_bypasses_signatures now b t c sigs :
  tx_ok t → native c t → ledger_ok (ledger c) →
  multisig_signatures t = Some sigs → sponsor t = None → tx_hash t = tx_calculate_hash t →
  is_ready_to_execute t (block_number (header b)) (timestamp (header b)) = true →
  check_double_spend c t (block_hash b) = Ok tt → is_replay c t = false →
  Z.of_nat (length (data t)) <= MAX_TX_DATA_SIZE → 0 < fee t → value t <= MAX_TX_VALUE →
  0 < gas_limit t <= MAX_GAS_LIMIT → check_chain_id (bc_chain_id c) t = Ok tt →
  check_evm_gas (evm_enabled c) t = Ok tt →
  nonce t = (view (ledger c) (from t)).2 → value t + fee t <= (view (ledger c) (from t)).1 →
  ∃ c', execute_tx now b t c = (Ok tt, c') ∧
    ∃ v', spec_transfer t (view (ledger c)) = Ok v' ∧ agrees (ledger c') v'.
Proof.
  intros Ht Hn Hlo Hms Hsp Hh Hrd Hds Hrep Hsz Hfee Hval Hgas Hcid Hevm Hnon Hfunds.
  pose proof (lo_range _ Hlo _ (txo_from _ Ht)) as [Hbal _]. pose proof (txo_value _ Ht) as Hv0.
  assert (holds c (view (ledger c))) as Hho by (split; [apply Hlo|exact (lo_range _ Hlo)|by intros a]).
  assert (funded t (view (ledger c))) as Hfd by (unfold funded; rewrite Hsp; lia).
  destruct (execute_tx_native now b t c (view (ledger c)) Ht Hn Hho) as (r & c' & Hx & _ & Hr).
  destruct r as [[]|e].
  { destruct Hr as (v' & [Hse [_ _ Hag] _ _ _ _]). exists c'. split; [done|]. exists v'. split; [|done].
    unfold spec_exec in Hse. rewrite Hnon, Z.eqb_refl in Hse. exact Hse. }
  exfalso. unfold execute_tx in Hx. rewrite Hrd in Hx. cbn [negb] in Hx.
  rewrite (se_bind_step (se_read (λ c, check_double_spend c t (block_hash b))) _ c tt c) in Hx
    by (unfold se_read; by rewrite Hds).
  rewrite bool_decide_eq_true_2 in Hx by (by rewrite Hms).
  pose proof (validate_transaction_checks now t (block_number (header b)) c _ (proj1 Hn)
    (check_funds_native t c Hbal ltac:(mlia))) as Hchk.
  destruct (checks_run _ _ _ Hchk) as (r & l & Hval1 & Hrd1 & Hok).
  assert (r = Ok tt) as ->.
  { apply is_ok_unit, Hok. split_and!; try done.
    - by rewrite Hms.
    - unfold check_fee. rewrite (proj2 (Z.eqb_neq _ _)) by lia. done.
    - unfold check_data_size. by rewrite (proj2 (Z.leb_le _ _)).
    - unfold check_value. by rewrite (proj2 (Z.leb_le _ _)).
    - unfold check_total, checked_add128. rewrite (proj2 (Z.leb_le _ _)) by mlia. done.
    - unfold check_gas_max. rewrite (proj2 (Z.leb_le _ _)) by lia. done.
    - unfold check_hash. by rewrite bool_decide_eq_true_2.
    - unfold check_gas_zero. rewrite (proj2 (Z.eqb_neq _ _)) by lia. done. }
  rewrite (se_bind_step _ _ _ _ _ Hval1) in Hx.
  pose proof (process_native now t (set_ledger l c) (view (ledger c)) Ht Hn Hrep
    (reads_good _ _ Hrd1 (lo_verkle _ Hlo)) (lo_range _ Hlo)
    (agrees_reads _ _ _ (λ a _, eq_refl) Hrd1)) as Hp.
  apply funded_transfer in Hfd. destruct (spec_transfer t _) as [v'|]; [|done].
  destruct Hp as (l' & Hp & _). rewrite (se_bind_step _ _ _ _ _ Hp) in Hx. by rewrite Hsp in Hx.
Qed.
End Native.
