(* ===== verification/AccountFrame.v ===== *)
(** * AccountFrame: what the consensus engine leaves alone

    The consensus engine of [consensus/mod.rs] and the account state of
    [blockchain/mod.rs] share one database.  The entries of the accounts are
    told apart by their key ([acct_entry]); every database write of the block
    store, of the DAG store and of the checkpoints keeps them, so that the
    account state observed by [Ledger.view] is not changed by consensus. *)

From S2P Require Import Prelude Types Block Error.
From S2P Require Import Storage DagStorage GhostDag Verkle Ledger.

(** Keys of balances and nonces: versioned, or hex-keyed legacy ones. *)
Definition acct_entry (k : list u8) : bool :=
  match k with
  | 1 :: t :: _ => (t =? key_prefix.BALANCE) || (t =? key_prefix.NONCE)
  | c :: _ => (c =? 98) || (c =? 110)
  | [] => false
  end.

(** The database kept its account entries. *)
Definition keeps (o o' : option (gmap (list u8) (list u8))) : Prop :=
  match o, o' with
  | None, None => True
  | Some db, Some db' => ∀ k, acct_entry k = true → db' !! k = db !! k
  | _, _ => False
  end.

#[global] Instance keeps_preorder : PreOrder keeps.
Proof.
  split; [by intros [db|]|]. intros [d1|] [d2|] [d3|]; cbn; try done.
  intros Ha Hb k Hk. by rewrite Hb, Ha.
Qed.
#[global] Instance keeps_fst_preorder {T} : PreOrder (λ s s' : option (gmap (list u8) (list u8)) * T, keeps s.1 s'.1).
Proof. split; [by intros s|]. intros s1 s2 s3. by apply transitivity. Qed.
#[global] Instance keeps_fst_fst_preorder {T U} :
  PreOrder (λ s s' : option (gmap (list u8) (list u8)) * T * U, keeps s.1.1 s'.1.1).
Proof. split; [by intros s|]. intros s1 s2 s3. by apply transitivity. Qed.

Lemma keeps_insert db k v : acct_entry k = false → keeps (Some db) (Some (<[k := v]> db)).
Proof. intros Hk k' Hk'. apply lookup_insert_ne. congruence. Qed.

Section View.
Context `{Hex}.

Lemma acct_balance_key a : acct_entry (balance_key a) = true.
Proof. done. Qed.
Lemma acct_nonce_key a : acct_entry (nonce_key a) = true.
Proof. done. Qed.
Lemma acct_legacy_balance a : acct_entry (legacy_key "balance:" (addr_bytes a)) = true.
Proof. done. Qed.
Lemma acct_legacy_nonce a : acct_entry (legacy_key "nonce:" (addr_bytes a)) = true.
Proof. done. Qed.

Lemma keeps_stored_balance l l' a :
  keeps (database l) (database l') → stored_balance l' a = stored_balance l a.
Proof.
  unfold stored_balance. destruct (database l) as [db|], (database l') as [db'|]; cbn; try done.
  intros Hk. unfold db_get_balance, get_int. by rewrite !Hk.
Qed.
Lemma keeps_stored_nonce l l' a :
  keeps (database l) (database l') → stored_nonce l' a = stored_nonce l a.
Proof.
  unfold stored_nonce. destruct (database l) as [db|], (database l') as [db'|]; cbn; try done.
  intros Hk. unfold db_get_nonce, get_int. by rewrite !Hk.
Qed.

(** Replacing the database by one with the same account entries. *)
Lemma keeps_view l db' :
  keeps (database l) db' → ∀ a, view (MkLedger db' (accounts l) (verkle_state l)) a = view l a.
Proof.
  intros Hk a. unfold view. cbn [verkle_state]. destruct (verkle_state l) as [v|]; [done|].
  by rewrite (keeps_stored_balance l), (keeps_stored_nonce l).
Qed.
Lemma keeps_ledger_ok l db' `{Keccak} :
  keeps (database l) db' → ledger_ok l → ledger_ok (MkLedger db' (accounts l) (verkle_state l)).
Proof. intros Hk [Hg Hr]. split; [done|]. intros a Ha. rewrite keeps_view by done. by apply Hr. Qed.
End View.

Section Frames.
Context `{Hex, Codec Block, Codec (list Hash), HashIter, SliceSearch}.

Lemma bs_put_keeps db b db' : bs_put db b = Ok db' → keeps (Some db) (Some db').
Proof. unfold bs_put. intros Hp. case_ok. by apply keeps_insert. Qed.
Lemma put_children_keeps db p cs db' : put_children db p cs = Ok db' → keeps (Some db) (Some db').
Proof. unfold put_children. intros Hp. case_ok. by apply keeps_insert. Qed.
Lemma put_parents_keeps db p cs db' : put_parents db p cs = Ok db' → keeps (Some db) (Some db').
Proof. unfold put_parents. intros Hp. case_ok. by apply keeps_insert. Qed.

Lemma acct_entry_prefix k p : acct_entry k = true → p ≠ 1 → p ≠ 98 → p ≠ 110 → starts_with k [p] = false.
Proof.
  intros Hk Hp1 Hp2 Hp3. unfold starts_with. apply bool_decide_eq_false. destruct k as [|c k]; [done|].
  cbn. rewrite take_0. intros [= ->]. destruct (decide (p = 1)); [done|].
  unfold acct_entry in Hk.
  assert ((p =? 98) || (p =? 110) = true) as Hp by (destruct p as [|[]|]; by destruct k).
  apply orb_true_iff in Hp as [?|?]; bool_to_prop; done.
Qed.

Lemma save_checkpoint_keeps db genesis blue scores ordering :
  keeps (Some db) (Some (save_checkpoint db genesis blue scores ordering)).
Proof.
  intros k Hk.
  assert (∀ p e, p ≠ 1 → p ≠ 98 → p ≠ 110 → k ≠ p :: e) as Hne.
  { intros p e ??? ->. pose proof (acct_entry_prefix _ p Hk) as Hs. rewrite starts_with_cons in Hs.
    rewrite bool_decide_eq_true_2 in Hs by done. by discriminate Hs. }
  unfold save_checkpoint.
  rewrite save_ordering_other by (by apply acct_entry_prefix).
  fold (scores_saved (save_blue_set
    (<[KEY_CHECKPOINT_META := (match genesis with Some g => hash_bytes g | None => replicate 32 0 end)
       ++ to_be_bytes 8 (Z.of_nat (length ordering))]> db) blue) scores).
  rewrite scores_saved_other by (by apply acct_entry_prefix).
  rewrite save_blue_set_lookup, decide_False by (intros (h' & _ & Hk'); by eapply (Hne PREFIX_BLUE_SET)).
  rewrite acct_entry_prefix by done. apply lookup_insert_ne. intros <-. by discriminate Hk.
Qed.

Lemma db_write_keeps f :
  (∀ db db', f db = Ok db' → keeps (Some db) (Some db')) →
  respects (λ s s' : DsState, keeps s.1 s'.1) (db_write f).
Proof.
  intros Hf [[db|] s] r s'; unfold db_write; cbn; [|by intros [= <- <-]].
  destruct (f db) as [db'|e] eqn:Hd; intros [= <- <-]; [by apply Hf|done].
Qed.

Notation Dk := (λ s s' : DsState, keeps s.1 s'.1).
Notation Gk := (λ s s' : DagState, keeps s.1 s'.1).

Lemma ds_mod_keeps (f : HybridDagStorage → HybridDagStorage) :
  respects (E:=BlockchainError) Dk (se_mod (λ st, (st.1, f st.2))).
Proof. apply respects_mod. by intros st. Qed.

Lemma index_child_keeps h p : respects Dk (index_child h p).
Proof.
  unfold index_child. apply respects_bind; [apply _|apply respects_read, _|]. intros cs.
  destruct (contains h cs); [apply respects_ret, _|]. apply respects_bind; [apply _| |].
  - apply db_write_keeps. intros db db'. apply put_children_keeps.
  - intros _. by apply respects_mod.
Qed.

Lemma ds_add_block_keeps b : respects Dk (ds_add_block b).
Proof.
  unfold ds_add_block. apply respects_bind; [apply _|by apply respects_mod|]. intros _.
  apply respects_bind; [apply _|apply respects_get, _|]. intros [[db|] s]; cbn.
  - apply respects_bind; [apply _| |intros _; by apply respects_mod].
    apply respects_bind; [apply _|apply db_write_keeps; intros ??; apply bs_put_keeps|]. intros _.
    apply respects_bind; [apply _|apply db_write_keeps; intros ??; apply put_parents_keeps|]. intros _.
    apply respects_for; [apply _|]. intros p. apply index_child_keeps.
  - apply respects_bind; [apply _|apply respects_ret, _|]. intros _. by apply respects_mod.
Qed.

(** The engine itself only touches its own fields. *)
Lemma upd_keeps f : respects Gk (upd f).
Proof. apply respects_mod. by intros st. Qed.
Lemma color_child_keeps h : respects Gk (color_child h).
Proof.
  unfold color_child. apply respects_bind; [apply _|apply respects_read, _|].
  intros [b|]; [apply upd_keeps|apply respects_ret, _].
Qed.
Lemma bfs_child_keeps h :
  respects (λ s s' : DagState * (gset Hash * list Hash), keeps s.1.1 s'.1.1) (bfs_child h).
Proof.
  intros [st [vis pushed]] r s'. unfold bfs_child. case_bool_decide; [by intros [= <- <-]|].
  unfold zoom. destruct (color_child h _) as [r1 st1] eqn:Hc. intros [= <- <-]. by eapply color_child_keeps in Hc.
Qed.
Lemma bfs_body_keeps h : respects (λ s s' : DagState * gset Hash, keeps s.1.1 s'.1.1) (bfs_body h).
Proof.
  intros [st vis] r s'. unfold bfs_body. cbn. destruct (get_children st h) as [cs|e]; [|by intros [= <- <-]].
  destruct (se_for cs bfs_child _) as [r1 [st1 [v1 p1]]] eqn:Hf.
  assert (keeps st.1 st1.1) as Hk.
  { eapply (respects_for (λ s s' : DagState * (gset Hash * list Hash), keeps s.1.1 s'.1.1)) in Hf;
      [exact Hf|exact bfs_child_keeps]. }
  by destruct r1; intros [= <- <-].
Qed.

Lemma update_blue_set_keeps fuel : respects Gk (update_blue_set fuel).
Proof.
  unfold update_blue_set. apply respects_bind; [apply _|apply respects_get, _|]. intros st0.
  destruct (genesis_hash _) as [g|]; [|apply respects_ret, _].
  apply respects_bind; [apply _|apply respects_read, _|]. intros [gb|]; [|apply respects_ret, _].
  destruct (negb _); [apply respects_ret, _|]. apply respects_bind; [apply _|apply upd_keeps|]. intros _.
  apply respects_bind; [apply _| |intros _; by apply respects_mod].
  apply respects_local. apply respects_queue; [apply _|exact bfs_body_keeps].
Qed.

Lemma affected_set_keeps fuel h : respects Gk (affected_set fuel h).
Proof.
  unfold affected_set. apply respects_bind; [apply _|apply respects_read, _|].
  intros [|c cs]; [apply respects_ret, _|]. apply respects_bind; [apply _| |intros ?; apply respects_ret, _].
  apply respects_local, respects_queue; [apply _|]. intros x [st vis] r s'. unfold affected_body. cbn.
  destruct (get_children st x); [|by intros [= <- <-]]. destruct (foldl _ _ _). by intros [= <- <-].
Qed.

Lemma topo_order_keeps fuel affected : respects Gk (topo_order fuel affected).
Proof.
  unfold topo_order. apply respects_bind; [apply _|apply respects_read, _|]. intros deg.
  apply respects_bind; [apply _| |intros ?; apply respects_ret, _].
  apply respects_local, respects_queue; [apply _|]. intros x [st [d t]] r s'. unfold topo_body. cbn.
  destruct (get_children st x); [|by intros [= <- <-]]. destruct (foldl _ _ _). by intros [= <- <-].
Qed.

Lemma recompute_keeps fuel h affected : respects Gk (recompute fuel h affected).
Proof.
  unfold recompute. apply respects_bind; [apply _|apply respects_get, _|]. intros st0.
  apply respects_bind; [apply _|apply upd_keeps|]. intros _.
  apply respects_bind; [apply _|apply topo_order_keeps|]. intros topo. apply respects_bind; [apply _| |].
  - apply respects_local, respects_for; [apply _|]. intros x [st [a rm]] r s'. unfold recolor. cbn.
    destruct (get_block st x) as [[b|]|]; [|by intros [= <- <-]..].
    destruct (parent_scores _ _); [destruct (parent_hashes _)|]; by intros [= <- <-].
  - intros [[] [added removed]]. apply respects_mod. intros st. cbn. by destruct (fallback _ _ _ _ _) as [[g a] rm].
Qed.

Lemma update_incremental_keeps fuel h : respects Gk (update_blue_set_incremental fuel h).
Proof.
  unfold update_blue_set_incremental. apply respects_bind; [apply _|apply respects_get, _|]. intros st0.
  destruct (genesis_hash _) as [g|]; [|apply respects_ret, _].
  apply respects_bind; [apply _|apply respects_read, _|]. intros [gb|]; [|apply respects_ret, _].
  apply respects_bind; [apply _|apply respects_read, _|]. intros nb.
  assert (respects Gk (affected ← affected_set fuel h; recompute fuel h affected)) as Hrec.
  { apply respects_bind; [apply _|apply affected_set_keeps|]. intros ?. apply recompute_keeps. }
  destruct (stale_parents _ _ _) as [ps|]; [|exact Hrec].
  destruct (checkpoint_stale_rebuilt _); (apply respects_bind; [apply _|apply upd_keeps|]; intros _);
    [exact Hrec|apply update_blue_set_keeps].
Qed.

(** Adding a block to the engine, successfully or not, keeps the account
    entries of the shared database. *)
Lemma add_block_keeps fuel b : respects Gk (GhostDag.add_block fuel b).
Proof.
  unfold GhostDag.add_block. apply respects_bind; [apply _|apply upd_keeps|]. intros _.
  apply respects_bind; [apply _| |intros _].
  { apply respects_zoom. intros st ds [r Hr]. by apply (ds_add_block_keeps b) in Hr. }
  apply respects_bind; [apply _|apply upd_keeps|]. intros _.
  apply respects_bind; [apply _|apply respects_for; [apply _|]|].
  { intros p. unfold link_parent. apply respects_bind; [apply _|apply respects_read, _|]. intros cs.
    destruct (contains _ cs); [apply respects_ret, _|apply upd_keeps]. }
  intros _. apply respects_bind; [apply _|apply upd_keeps|]. intros _.
  apply respects_bind; [apply _|apply respects_get, _|]. intros st.
  apply respects_bind; [apply _| |].
  { destruct (bool_decide _); [apply update_blue_set_keeps|apply update_incremental_keeps]. }
  intros _. apply respects_bind; [apply _|apply upd_keeps|]. intros _. apply respects_mod.
  intros [[db|] g]; unfold periodic_checkpoint; cbn [fst snd];
    destruct (_ =? 0)%nat; try done; destruct (_ <? _)%nat; try done. apply save_checkpoint_keeps.
Qed.
End Frames.
