(* ===== verification/Chain.v ===== *)
(** * Chain: accepting blocks

    Models the block-level operations of
    [irondag-blockchain/src/blockchain/mod.rs]: the constructors, loading from
    storage, [add_block_impl], the sync paths [add_block_for_sync] and
    [install_sync_checkpoint], [clear_for_resync], recurring payments, pool
    withdrawals and the queries, on top of [Execution].

    [now] is the clock, [cpu] and [buffer] are the parameters of the proof-of-work
    hash, [fuel] bounds the traversals of the consensus engine.  The chain and
    its consensus engine share one database. *)

From S2P Require Import Prelude Types Block Pow Error.
From S2P Require Import Storage DagStorage GhostDag.
From S2P Require Import Sponsorship PrivacyPool Recurring Governance Wallet Verkle.
From S2P Require Import Ledger BlockIndex Execution AccountFrame.

Section Chain.
Context `{Hex, Keccak, Blake3, Crypto, Evm, HashIter, SliceSearch}.
Context `{Codec Block, Codec (list Hash), Codec TxReceipt}.

Definition MAX_RECENT_BLOCKS : nat := 1000.
Definition ONE_IDAG : u128 := 1000000000000000000.

(** ** Construction *)

Definition chain_of (l : Ledger) (g : GhostDAG) (ready : bool) : Blockchain :=
  MkBlockchain l (Some g) blocks_new 0 0 [] ∅ false None None ∅ (Some ∅)
    (pool_new ONE_IDAG false) DEFAULT_CHAIN_ID 0 ready scheduler_new.

Definition ghostdag_default : GhostDAG :=
  MkGhostDAG 4 (ds_new dag_storage_config_default) None ∅ ∅ ∅ ∅ [] false.

Definition new : Blockchain := chain_of (MkLedger None ∅ None) ghostdag_default true.
Definition with_verkle : Blockchain := chain_of (MkLedger None ∅ (Some vs_new)) ghostdag_default true.

(** [self.cached_latest_block_number], .. after a block was pushed. *)
Definition push_loaded (d : BlocksData * u64 * u64) (b : Block) : BlocksData * u64 * u64 :=
  let '(d, latest, count) := d in
  (push_block b d, Z.max latest (block_number (header b)),
   add64 count (Z.of_nat (length (transactions b)))).

(** [if let Err(e) = block_store.put(block) { warn!(..) }] *)
Definition put_or_warn (db : gmap (list u8) (list u8)) (b : Block) : gmap (list u8) (list u8) :=
  match bs_put db b with Ok db' => db' | Err _ => db end.

Definition load_from_storage (c : Blockchain) : Blockchain :=
  match database (ledger c) with
  | None => c
  | Some db =>
      match sort_by_key (λ b, block_number (header b)) (get_all_blocks db) with
      | [] => c
      | stored =>
          let '(d, latest, count) := foldl push_loaded (blocks_data c, 0, 0) stored in
          let db' := foldl put_or_warn db (blocks d) in
          set_ledger (MkLedger (Some db') (accounts (ledger c)) (verkle_state (ledger c)))
            (set_blocks d latest count (recent_tx_hashes c) c)
      end
  end.

Definition set_ready (c : Blockchain) : Blockchain :=
  MkBlockchain (ledger c) (ghostdag c) (blocks_data c) (cached_latest_block_number c) (cached_total_tx_count c)
    (recent_tx_hashes c) (spent_outputs c) (evm_enabled c) (evm_executor c) (wallet_registry c)
    (sponsor_registry c) (recurring_manager c) (privacy_pool c) (bc_chain_id c) (total_fees_burned c)
    true (governance_scheduler c).

Definition with_storage_and_k (db : gmap (list u8) (list u8)) (k : nat) (verkle : option VerkleState) :
    result BlockchainError Blockchain :=
  st ← with_database_and_k db k;
  Ok (set_ready (load_from_storage (chain_of (MkLedger st.1 ∅ verkle) st.2 false))).
Definition with_storage (db : gmap (list u8) (list u8)) : result BlockchainError Blockchain :=
  with_storage_and_k db 4 None.
Definition with_storage_verkle_and_k (db : gmap (list u8) (list u8)) (k : nat) :
    result BlockchainError Blockchain :=
  with_storage_and_k db k (Some vs_new).

(** ** Committing a block *)

(** [self.with_ghostdag_write(|g| g.add_block(&block))] *)
Definition ghostdag_add (fuel : nat) (b : Block) : BM unit := λ c,
  match ghostdag c with
  | None => (Ok tt, c)
  | Some g =>
      let '(r, (db, g')) := GhostDag.add_block fuel b (database (ledger c), g) in
      (r, set_ghostdag (Some g')
            (set_ledger (MkLedger db (accounts (ledger c)) (verkle_state (ledger c))) c))
  end.

Definition persist_block (b : Block) (c : Blockchain) : Blockchain :=
  set_ledger (MkLedger ((λ db, put_or_warn db b) <$> database (ledger c))
    (accounts (ledger c)) (verkle_state (ledger c))) c.

(** [recent.push_back(hashes); while recent.len() > 1000 { recent.pop_front(); }] *)
Definition push_recent (recent : list (list Hash)) (hs : list Hash) : list (list Hash) :=
  let l := recent ++ [hs] in drop (length l - MAX_RECENT_BLOCKS) l.

(** The write of a block into memory, with the cached height and counts. *)
Definition commit_block (b : Block) (c : Blockchain) : Blockchain :=
  let c := set_evm ((λ ex, evm_update_block_hash ex (block_number (header b)) (block_hash b)) <$> evm_executor c) c in
  set_blocks (push_block b (blocks_data c))
    (Z.max (cached_latest_block_number c) (block_number (header b)))
    (add64 (cached_total_tx_count c) (Z.of_nat (length (transactions b))))
    (push_recent (recent_tx_hashes c) (tx_hash <$> transactions b)) c.

(** Every hundredth block. *)
Definition periodic_prune (n : u64) (c : Blockchain) : Blockchain :=
  if n mod 100 =? 0 then
    let c := prune_spent_outputs n c in set_ghostdag (prune_old_blocks n <$> ghostdag c) c
  else c.

(** *** Recurring payments *)

Definition exec_hash (r : RecurringTransaction) (current_block : u64) : Hash :=
  keccak256 (hash_bytes (recurring_tx_id r) ++ to_le_bytes 8 (execution_count r) ++ to_le_bytes 8 current_block).

Definition on_manager (f : Manager → Manager * result string unit) : BM unit :=
  se_mod (λ c, set_recurring ((λ m, fst (f m)) <$> recurring_manager c) c).

Definition pay_recurring (current_block current_timestamp : u64) (r : RecurringTransaction) : BM unit :=
  from_balance ← on_ledger (get_balance (rt_from r));
  if from_balance <? rt_value r then on_manager (λ m, mark_failed m (recurring_tx_id r)) else
  from_nonce ← on_ledger (get_nonce (rt_from r));
  to_balance ← on_ledger (get_balance (rt_to r));
  _ ← on_ledger (insert_account (rt_from r) (from_balance - rt_value r) (add64 from_nonce 1));
  to_nonce ← on_ledger (get_nonce (rt_to r));
  _ ← on_ledger (insert_account (rt_to r) (add128 to_balance (rt_value r)) to_nonce);
  on_manager (λ m, mark_executed m (recurring_tx_id r) (exec_hash r current_block) current_timestamp).

Definition process_recurring_transactions (current_block current_timestamp : u64) : BM unit :=
  c ← se_get;
  match recurring_manager c with
  | None => mret tt
  | Some m => se_for (get_ready_to_execute m current_timestamp) (pay_recurring current_block current_timestamp)
  end.

(** ** Adding a block *)

Definition check_block_hash (cpu : CpuFeatures) (buffer : list u8) (b : Block) : result BlockchainError unit :=
  let root := transactions_root (tx_hash <$> transactions b) in
  let calculated := match stream_type (header b) with
                    | StreamA => hash_blake3 (header b) root
                    | StreamB => hash_b3memhash cpu buffer (header b) root
                    | StreamC => block_calculate_hash cpu buffer b
                    end in
  ensure (bool_decide (block_hash b = calculated)) (InvalidBlock "Invalid block hash").

Definition add_block_impl (fuel : nat) (cpu : CpuFeatures) (buffer : list u8) (now : u64) (b : Block)
    (skip_pow_verify : bool) : BM unit :=
  let number := block_number (header b) in
  _ ← se_read (λ c, validate_block_structure now (blocks_data c) b);
  _ ← se_read (λ _, if (0 <? number) && negb skip_pow_verify then check_block_hash cpu buffer b else Ok tt);
  _ ← se_read (λ c, ensure (negb (bool_decide (block_hash b ∈ block_hashes (blocks_data c))))
                      (InvalidBlock "Block already exists"));
  _ ← se_read (λ c, validate_parent_hashes (blocks_data c) b);
  _ ← validate_and_process_transactions now b;
  _ ← ghostdag_add fuel b;
  _ ← se_mod (persist_block b);
  _ ← se_mod (commit_block b);
  _ ← se_mod (periodic_prune number);
  _ ← process_recurring_transactions number (timestamp (header b));
  se_mod (λ c, set_governance (apply_at_height (governance_scheduler c) number) c).

Definition add_block_for_sync (fuel : nat) (cpu : CpuFeatures) (buffer : list u8) (now : u64) (b : Block) :
    BM bool :=
  _ ← se_read (λ c, map_err (λ _, Validation "block failed enhanced validation")
                      (validate_block_enhanced cpu buffer now (blocks_data c) b));
  c ← se_get;
  if bool_decide (block_hash b ∈ block_hashes (blocks_data c)) then mret false else
  _ ← validate_and_process_transactions now b;
  _ ← ghostdag_add fuel b;
  _ ← se_mod (persist_block b);
  _ ← se_mod (commit_block b);
  mret true.

Definition install_sync_checkpoint (b : Block) (c : Blockchain) : Blockchain * bool :=
  if bool_decide (block_hash b ∈ block_hashes (blocks_data c)) then (c, false) else
  let c := persist_block b c in
  (set_blocks (push_checkpoint b (blocks_data c))
     (Z.max (cached_latest_block_number c) (block_number (header b)))
     (add64 (cached_total_tx_count c) (Z.of_nat (length (transactions b))))
     (recent_tx_hashes c) c, true).

Definition clear_for_resync (c : Blockchain) : Blockchain :=
  let c := set_blocks (clear_blocks (blocks_data c)) 0 0 (recent_tx_hashes c) c in
  let c := set_ledger (MkLedger ((λ db, fst (clear_all db)) <$> database (ledger c))
             (accounts (ledger c)) (verkle_state (ledger c))) c in
  set_spent ∅ (set_ghostdag (dag_clear <$> ghostdag c) c).

(** ** Other operations *)

Definition pool_withdraw (nullifier : Hash) (recipient : Address) (proof : option (list u8)) : BM u128 :=
  amount ← (λ c, match withdraw (privacy_pool c) nullifier proof with
                 | (p, Ok amount) => (Ok amount, set_pool p c)
                 | (p, Err _) => (Err (InvalidTransaction "Privacy pool withdrawal failed"), set_pool p c)
                 end);
  pool_balance ← on_ledger (get_balance PRIVACY_POOL_ADDRESS);
  if pool_balance <? amount
  then fail (InvalidTransaction "Privacy pool account balance inconsistent with pool state") else
  pool_nonce ← on_ledger (get_nonce PRIVACY_POOL_ADDRESS);
  _ ← on_ledger (insert_account PRIVACY_POOL_ADDRESS (pool_balance - amount) pool_nonce);
  recipient_balance ← on_ledger (get_balance recipient);
  recipient_nonce ← on_ledger (get_nonce recipient);
  _ ← on_ledger (insert_account recipient (add128 recipient_balance amount) recipient_nonce);
  mret amount.

Definition schedule_governance_action (a : ScheduledAction) (c : Blockchain) : Blockchain * result string unit :=
  let '(s, r) := Governance.schedule (governance_scheduler c) a in (set_governance s c, r).

Definition add_burned_fees (amount : u128) (c : Blockchain) : Blockchain :=
  set_burned (sat_add128 (total_fees_burned c) amount) c.

Definition get_block_by_hash (c : Blockchain) (h : Hash) : result BlockchainError (option Block) :=
  o ← find_by_hash (blocks_data c) h;
  match o with
  | Some b => Ok (Some b)
  | None =>
      match database (ledger c) with
      | Some db => match bs_get db h with Ok (Some b) => Ok (Some b) | _ => Ok None end
      | None => Ok None
      end
  end.

Definition get_blocks_from_storage (c : Blockchain) (from_block : u64) (count : nat) : list Block :=
  match database (ledger c) with
  | Some db => get_blocks_from_number db from_block count
  | None => take count (filter (λ b, from_block <= block_number (header b)) (blocks (blocks_data c)))
  end.

Definition has_blocks_in_storage (c : Blockchain) : bool :=
  match database (ledger c) with Some db => negb (bool_decide (get_all_blocks db = [])) | None => false end.
Definition get_storage_block_count (c : Blockchain) : nat :=
  match database (ledger c) with Some db => length (get_all_blocks db) | None => 0%nat end.
End Chain.

(** ** The block index *)

(** What execution and consensus leave alone: the index of the blocks. *)
Record same_index `{Evm} (c c' : Blockchain) : Prop := {
  si_blocks : blocks_data c' = blocks_data c;
  si_latest : cached_latest_block_number c' = cached_latest_block_number c;
  si_count : cached_total_tx_count c' = cached_total_tx_count c;
  si_recent : recent_tx_hashes c' = recent_tx_hashes c }.

#[global] Instance same_index_preorder `{Evm} : PreOrder same_index.
Proof. split; [done|]. intros c1 c2 c3 [] []. split; congruence. Qed.

Ltac frame_steps :=
  repeat lazymatch goal with
    | |- respects _ (mbind _ _) => apply respects_bind; [apply _|..]; [|intros ?]
    | |- respects _ (mret _) => apply respects_ret; apply _
    | |- respects _ se_get => apply respects_get; apply _
    | |- respects _ (se_read _) => apply respects_read; apply _
    | |- respects _ (se_for _ _) => apply respects_for; [apply _|intros ?]
    | |- respects _ (se_mod _) => apply respects_mod; intros ?; try done
    | |- respects _ (match ?x with _ => _ end) => destruct x
    end; auto with frame.

Section IndexFrame.
Context `{Hex, Keccak, Crypto, Codec TxReceipt, Evm}.

Lemma on_ledger_index {A} (m : LM A) : respects same_index (on_ledger m).
Proof. apply respects_zoom. by intros c l _. Qed.
Lemma fail_index {A} (e : BlockchainError) : respects same_index (fail (A:=A) e).
Proof. by intros c r c' [= <- <-]. Qed.
#[local] Hint Resolve on_ledger_index fail_index : frame.

Lemma run_evm_index now t : respects same_index (run_evm now t).
Proof.
  intros c r c'. unfold run_evm. destruct (_ && _); [|by intros [= <- <-]].
  destruct (evm_executor c) as [ex|]; [|by intros [= <- <-]].
  destruct (evm_execute _ _ _ _ _) as [[e|e] [ex' db']]; [|by intros [= <- <-]].
  destruct (e_success e); by intros [= <- <-].
Qed.

Lemma expected_nonce_index t : respects same_index (expected_nonce t).
Proof. unfold expected_nonce. frame_steps. Qed.
#[local] Hint Resolve run_evm_index expected_nonce_index : frame.
Lemma check_nonce_index t : respects same_index (check_nonce t).
Proof. unfold check_nonce. frame_steps. Qed.
Lemma check_spending_index now t : respects same_index (check_spending now t).
Proof. unfold check_spending. frame_steps. Qed.
Lemma check_funds_index t : respects same_index (check_funds t).
Proof. unfold check_funds. frame_steps. Qed.
#[local] Hint Resolve check_nonce_index check_spending_index check_funds_index : frame.

Lemma validate_stateful_index now t n : respects same_index (validate_tx_stateful_only now t n).
Proof. unfold validate_tx_stateful_only. frame_steps. Qed.
Lemma validate_transaction_index now t n : respects same_index (validate_transaction now t n).
Proof. unfold validate_transaction. frame_steps. Qed.
Lemma update_nonce_index t n : respects same_index (update_nonce t n).
Proof. unfold update_nonce. frame_steps. Qed.
Lemma register_deposit_index t : respects same_index (register_deposit t).
Proof. unfold register_deposit. frame_steps. Qed.
#[local] Hint Resolve validate_stateful_index validate_transaction_index update_nonce_index
  register_deposit_index : frame.

Lemma process_transaction_index now t : respects same_index (process_transaction now t).
Proof. unfold process_transaction. frame_steps. Qed.
#[local] Hint Resolve process_transaction_index : frame.
Lemma prune_spent_index n c : same_index c (prune_spent_outputs n c).
Proof. unfold prune_spent_outputs. by destruct (_ <=? _). Qed.
Lemma execute_tx_index now b t : respects same_index (execute_tx now b t).
Proof. unfold execute_tx. frame_steps. Qed.
#[local] Hint Resolve execute_tx_index prune_spent_index : frame.
Lemma validate_and_process_index now b : respects same_index (validate_and_process_transactions now b).
Proof. unfold validate_and_process_transactions. frame_steps. Qed.
End IndexFrame.

Section ChainTheorems.
Context `{Hex, Keccak, Blake3, Crypto, Evm, HashIter, SliceSearch}.
Context `{Codec Block, Codec (list Hash), Codec TxReceipt}.

Lemma ghostdag_add_index fuel b : respects same_index (ghostdag_add fuel b).
Proof.
  intros c r c'. unfold ghostdag_add. destruct (ghostdag c) as [g|]; [|by intros [= <- <-]].
  destruct (GhostDag.add_block _ _ _) as [r1 [db g']]. by intros [= <- <-].
Qed.
Lemma persist_block_index b c : same_index c (persist_block b c).
Proof. done. Qed.
Lemma periodic_prune_index n c : same_index c (periodic_prune n c).
Proof.
  unfold periodic_prune. destruct (_ =? 0); [|done]. cbn. etransitivity; [apply (prune_spent_index n)|done].
Qed.
#[local] Hint Resolve on_ledger_index ghostdag_add_index : frame.
Lemma pay_recurring_index n ts r : respects same_index (pay_recurring n ts r).
Proof. unfold pay_recurring, on_manager. frame_steps. Qed.
#[local] Hint Resolve pay_recurring_index : frame.
Lemma process_recurring_index n ts : respects same_index (process_recurring_transactions n ts).
Proof. unfold process_recurring_transactions. frame_steps. Qed.

(** [self.accounts.insert(..)], outside of any database. *)
Definition cache_account (a : Address) (x : u128) (n : u64) (c : Blockchain) : Blockchain :=
  set_ledger (MkLedger (database (ledger c)) (<[a := MkAccount x n]> (accounts (ledger c)))
    (verkle_state (ledger c))) c.
Lemma insert_step a x n c : on_ledger (insert_account a x n) c = (Ok tt, cache_account a x n c).
Proof. done. Qed.

(** Recurring payments never make a block fail. *)
Lemma pay_recurring_total n ts r c : fst (pay_recurring n ts r c) = Ok tt.
Proof.
  unfold pay_recurring. destruct (get_balance_step (rt_from r) c) as (l1 & Hb & _).
  rewrite (se_bind_step _ _ _ _ _ Hb). destruct (_ <? _); [done|].
  destruct (get_nonce_step (rt_from r) (set_ledger l1 c)) as (l2 & Hn & _). rewrite (se_bind_step _ _ _ _ _ Hn).
  destruct (get_balance_step (rt_to r) (set_ledger l2 (set_ledger l1 c))) as (l3 & Hb' & _).
  rewrite (se_bind_step _ _ _ _ _ Hb').
  rewrite (se_bind_step _ _ _ _ _ (insert_step _ _ _ _)).
  destruct (get_nonce_step (rt_to r) (cache_account (rt_from r) ((view (ledger c) (rt_from r)).1 - rt_value r)
    (add64 (view (ledger (set_ledger l1 c)) (rt_from r)).2 1) (set_ledger l3 (set_ledger l2 (set_ledger l1 c)))))
    as (l5 & Hn' & _). by rewrite (se_bind_step _ _ _ _ _ Hn').
Qed.
Lemma se_for_total {S E A} (f : A → SE S E unit) l s :
  (∀ x s, fst (f x s) = Ok tt) → fst (se_for l f s) = Ok tt.
Proof.
  intros Hf. revert s. induction l as [|x l IH]; intros s; [done|]. cbn [se_for].
  destruct (f x s) as [r s'] eqn:Hx. pose proof (Hf x s) as Hr. rewrite Hx in Hr. cbn in Hr. subst r.
  by rewrite (se_bind_step _ _ _ _ _ Hx).
Qed.
Lemma process_recurring_total n ts c : fst (process_recurring_transactions n ts c) = Ok tt.
Proof.
  unfold process_recurring_transactions. rewrite (se_bind_step (E:=BlockchainError) se_get _ c c c eq_refl).
  destruct (recurring_manager c); [|done]. apply se_for_total. intros r c1. apply pay_recurring_total.
Qed.

(** The block was appended to the index of [c]. *)
Record committed (b : Block) (c c' : Blockchain) : Prop := {
  cm_blocks : blocks_data c' = push_block b (blocks_data c);
  cm_latest : cached_latest_block_number c' = Z.max (cached_latest_block_number c) (block_number (header b));
  cm_count : cached_total_tx_count c'
             = add64 (cached_total_tx_count c) (Z.of_nat (length (transactions b)));
  cm_recent : recent_tx_hashes c' = push_recent (recent_tx_hashes c) (tx_hash <$> transactions b) }.

Lemma committed_frame b c c1 c2 c' : same_index c c1 → committed b c1 c2 → same_index c2 c' → committed b c c'.
Proof. intros [] [] []. split; congruence. Qed.
Lemma commit_block_committed b c : committed b c (commit_block b c).
Proof. by split. Qed.

(** What follows the commit of a locally added block. *)
Definition upkeep (b : Block) (c : Blockchain) : Blockchain :=
  let number := block_number (header b) in
  let c := snd (process_recurring_transactions number (timestamp (header b)) (periodic_prune number c)) in
  set_governance (apply_at_height (governance_scheduler c) number) c.

Lemma upkeep_index b c : same_index c (upkeep b c).
Proof.
  unfold upkeep. destruct (process_recurring_transactions _ _ _) as [r c1] eqn:Hr.
  transitivity (periodic_prune (block_number (header b)) c); [apply periodic_prune_index|].
  transitivity c1; [by apply process_recurring_index in Hr|done].
Qed.

(** The checks a locally added block passes before it is executed. *)
Definition admissible (cpu : CpuFeatures) (buffer : list u8) (now : u64) (b : Block) (skip : bool)
    (c : Blockchain) : Prop :=
  validate_block_structure now (blocks_data c) b = Ok tt ∧
  (0 < block_number (header b) → skip = false → check_block_hash cpu buffer b = Ok tt) ∧
  block_hash b ∉ block_hashes (blocks_data c) ∧
  validate_parent_hashes (blocks_data c) b = Ok tt.

(** The state a block leads to: executed, recorded by consensus, persisted
    and indexed. *)
Definition accepted (fuel : nat) (now : u64) (b : Block) (c c' : Blockchain) : Prop :=
  ∃ c1 c2, validate_and_process_transactions now b c = (Ok tt, c1) ∧
    ghostdag_add fuel b c1 = (Ok tt, c2) ∧ c' = commit_block b (persist_block b c2).

Lemma accepted_committed fuel now b c c' : accepted fuel now b c c' → committed b c c'.
Proof.
  intros (c1 & c2 & Hv & Hg & ->). eapply committed_frame; [|apply commit_block_committed|done].
  transitivity c1; [by eapply validate_and_process_index|].
  transitivity c2; [by eapply ghostdag_add_index|apply persist_block_index].
Qed.

(** The state a refused block leaves: unchanged when a check failed, with the
    transactions executed so far when execution or consensus failed. *)
Inductive rejected (fuel : nat) (now : u64) (b : Block) (c : Blockchain) : Blockchain → Prop :=
| RejectCheck : rejected fuel now b c c
| RejectExec e c1 : validate_and_process_transactions now b c = (Err e, c1) → rejected fuel now b c c1
| RejectDag e c1 c2 : validate_and_process_transactions now b c = (Ok tt, c1) →
    ghostdag_add fuel b c1 = (Err e, c2) → rejected fuel now b c c2.

Lemma rejected_index fuel now b c c' : rejected fuel now b c c' → same_index c c'.
Proof.
  intros [|e c1 Hv|e c1 c2 Hv Hg]; [done|by eapply validate_and_process_index|].
  transitivity c1; [by eapply validate_and_process_index|by eapply ghostdag_add_index].
Qed.

(** Both ways of adding a block, outcome by outcome. *)
Lemma add_block_run fuel cpu buffer now b skip c :
  ∃ r c', add_block_impl fuel cpu buffer now b skip c = (r, c') ∧
    match r with
    | Ok _ => admissible cpu buffer now b skip c ∧ ∃ c0, accepted fuel now b c c0 ∧ c' = upkeep b c0
    | Err _ => rejected fuel now b c c'
    end.
Proof.
  unfold add_block_impl.
  destruct (validate_block_structure now (blocks_data c) b) as [[]|e] eqn:Hs.
  2:{ exists (Err e), c. erewrite se_read_fail by exact Hs. split; [done|constructor]. }
  erewrite se_read_step by (by rewrite Hs).
  destruct (if (0 <? block_number (header b)) && negb skip then check_block_hash cpu buffer b else Ok tt)
    as [[]|e] eqn:Hh.
  2:{ exists (Err e), c. erewrite se_read_fail by reflexivity. split; [done|constructor]. }
  erewrite se_read_step by reflexivity.
  destruct (bool_decide (block_hash b ∈ block_hashes (blocks_data c))) eqn:Hd; bool_to_prop.
  { eexists (Err _), c. erewrite se_read_fail by (by rewrite bool_decide_eq_true_2). split; [done|constructor]. }
  erewrite se_read_step by (by rewrite bool_decide_eq_false_2).
  destruct (validate_parent_hashes (blocks_data c) b) as [[]|e] eqn:Hp.
  2:{ exists (Err e), c. erewrite se_read_fail by exact Hp. split; [done|constructor]. }
  erewrite se_read_step by exact Hp.
  destruct (validate_and_process_transactions now b c) as [[[]|e] c1] eqn:Hv.
  2:{ exists (Err e), c1. rewrite (se_bind_fail _ _ _ _ _ Hv). split; [done|]. by eapply RejectExec. }
  rewrite (se_bind_step _ _ _ _ _ Hv). destruct (ghostdag_add fuel b c1) as [[[]|e] c2] eqn:Hg.
  2:{ exists (Err e), c2. rewrite (se_bind_fail _ _ _ _ _ Hg). split; [done|]. by eapply RejectDag. }
  rewrite (se_bind_step _ _ _ _ _ Hg). exists (Ok tt), (upkeep b (commit_block b (persist_block b c2))).
  split; [|split; [|exists (commit_block b (persist_block b c2)); split; [by exists c1, c2|done]]].
  - rewrite !se_mod_step. set (c3 := periodic_prune _ _).
    pose proof (process_recurring_total (block_number (header b)) (timestamp (header b)) c3) as Ht.
    unfold upkeep. cbv zeta. fold c3. destruct (process_recurring_transactions _ _ c3) as [r c4] eqn:Hr.
    cbn [fst snd] in *. subst r. by rewrite (se_bind_step _ _ _ _ _ Hr).
  - split_and!; try done. intros Hn ->. rewrite (proj2 (Z.ltb_lt _ _)) in Hh by done. done.
Qed.

Lemma add_block_for_sync_run fuel cpu buffer now b c :
  ∃ r c', add_block_for_sync fuel cpu buffer now b c = (r, c') ∧
    match r with
    | Ok true => validate_block_enhanced cpu buffer now (blocks_data c) b = Ok tt ∧
                 block_hash b ∉ block_hashes (blocks_data c) ∧ accepted fuel now b c c'
    | Ok false => c' = c ∧ block_hash b ∈ block_hashes (blocks_data c)
    | Err _ => rejected fuel now b c c'
    end.
Proof.
  unfold add_block_for_sync. destruct (validate_block_enhanced cpu buffer now (blocks_data c) b) as [[]|e] eqn:Hs.
  2:{ eexists (Err _), c. erewrite se_read_fail by (rewrite Hs; reflexivity). split; [done|constructor]. }
  erewrite se_read_step by (by rewrite Hs).
  rewrite se_get_step.
  destruct (bool_decide (block_hash b ∈ block_hashes (blocks_data c))) eqn:Hd; bool_to_prop; [by eexists (Ok false), c|].
  destruct (validate_and_process_transactions now b c) as [[[]|e] c1] eqn:Hv.
  2:{ exists (Err e), c1. rewrite (se_bind_fail _ _ _ _ _ Hv). split; [done|]. by eapply RejectExec. }
  rewrite (se_bind_step _ _ _ _ _ Hv). destruct (ghostdag_add fuel b c1) as [[[]|e] c2] eqn:Hg.
  2:{ exists (Err e), c2. rewrite (se_bind_fail _ _ _ _ _ Hg). split; [done|]. by eapply RejectDag. }
  rewrite (se_bind_step _ _ _ _ _ Hg). exists (Ok true), (commit_block b (persist_block b c2)).
  split; [done|]. split_and!; [done..|]. by exists c1, c2.
Qed.

(** *** The invariant of the chain *)

Record chain_ok (c : Blockchain) : Prop := {
  ck_index : index_ok (blocks_data c);
  ck_latest : cached_latest_block_number c = max_number (blocks_data c);
  ck_count : cached_total_tx_count c = Z.of_nat (transaction_count (blocks_data c)) mod (u64_max + 1);
  ck_recent : (length (recent_tx_hashes c) <= MAX_RECENT_BLOCKS)%nat }.

(** The entry points that change the chain, apart from [clear_for_resync], which
    does not keep the index consistent ([clear_for_resync_panics]). *)
Inductive ChainOp :=
| OpAdd (now : u64) (b : Block) (skip : bool)
| OpSync (now : u64) (b : Block)
| OpCheckpoint (b : Block)
| OpWithdraw (nullifier : Hash) (recipient : Address) (proof : option (list u8))
| OpSetBalance (a : Address) (x : u128)
| OpSetNonce (a : Address) (n : u64)
| OpGenesis (allocs : list GenesisAllocation)
| OpSchedule (a : ScheduledAction)
| OpBurn (amount : u128).

Definition do_op (fuel : nat) (cpu : CpuFeatures) (buffer : list u8) (c : Blockchain) (op : ChainOp) : Blockchain :=
  match op with
  | OpAdd now b skip => snd (add_block_impl fuel cpu buffer now b skip c)
  | OpSync now b => snd (add_block_for_sync fuel cpu buffer now b c)
  | OpCheckpoint b => fst (install_sync_checkpoint b c)
  | OpWithdraw n r p => snd (pool_withdraw n r p c)
  | OpSetBalance a x => snd (on_ledger (set_balance a x) c)
  | OpSetNonce a n => snd (on_ledger (set_nonce a n) c)
  | OpGenesis allocs => set_ledger (snd (apply_genesis_allocations allocs (ledger c))) c
  | OpSchedule a => fst (schedule_governance_action a c)
  | OpBurn amount => add_burned_fees amount c
  end.

Lemma chain_ok_frame c c' : same_index c c' → chain_ok c → chain_ok c'.
Proof. intros [Hb Hl Hc Hr] [Hi Hm Hn Hk]. split; by rewrite ?Hb, ?Hl, ?Hc, ?Hr. Qed.

Lemma max_number_snoc bs b k h m t :
  max_number (MkBlocksData (bs ++ [b]) k h m t)
  = Z.max (max_number (MkBlocksData bs k h m t)) (block_number (header b)).
Proof.
  unfold max_number. cbn. induction bs as [|x bs IH]; cbn; [|rewrite IH]; lia.
Qed.
Lemma transaction_count_snoc bs b k h m t :
  transaction_count (MkBlocksData (bs ++ [b]) k h m t)
  = (transaction_count (MkBlocksData bs k h m t) + length (transactions b))%nat.
Proof. unfold transaction_count. cbn. rewrite fmap_app, sum_list_with_app. cbn. lia. Qed.

Lemma push_recent_length recent hs : (length (push_recent recent hs) <= MAX_RECENT_BLOCKS)%nat.
Proof. unfold push_recent. rewrite length_drop. lia. Qed.

Lemma committed_ok b c c' :
  chain_ok c → block_hash b ∉ block_hashes (blocks_data c) → committed b c c' → chain_ok c'.
Proof.
  intros [Hi Hm Hn Hk] Hnew [Hb Hl Hc Hr]. split; rewrite ?Hb, ?Hl, ?Hc, ?Hr.
  - by apply push_block_ok.
  - rewrite Hm. unfold push_block. by rewrite max_number_snoc.
  - rewrite Hn. unfold push_block. rewrite transaction_count_snoc. unfold add64.
    rewrite Zplus_mod_idemp_l, Nat2Z.inj_add. done.
  - apply push_recent_length.
Qed.

Lemma new_ok : chain_ok new ∧ chain_ok with_verkle.
Proof. split; split; cbn; (apply index_new || done || lia). Qed.

Lemma checkpoint_ok b c : chain_ok c → chain_ok (fst (install_sync_checkpoint b c)).
Proof.
  intros [Hi Hm Hn Hk]. unfold install_sync_checkpoint. case_bool_decide as Hd; [by split|]. cbn.
  split; cbn [blocks_data cached_latest_block_number cached_total_tx_count recent_tx_hashes set_blocks]; [| | |done].
  - by apply push_checkpoint_ok.
  - rewrite Hm. unfold push_checkpoint. by rewrite max_number_snoc.
  - rewrite Hn. unfold push_checkpoint. rewrite transaction_count_snoc. unfold add64.
    rewrite Zplus_mod_idemp_l, Nat2Z.inj_add. done.
Qed.

Lemma pool_withdraw_index n r p : respects same_index (pool_withdraw n r p).
Proof.
  unfold pool_withdraw. apply respects_bind; [apply _| |].
  - intros c x c'. destruct (withdraw _ _ _) as [q [a|e]]; by intros [= <- <-].
  - intros a. frame_steps. by intros c x c' [= <- <-].
Qed.

Lemma do_op_ok fuel cpu buffer c op : chain_ok c → chain_ok (do_op fuel cpu buffer c op).
Proof.
  intros Hc. destruct op; cbn [do_op].
  - destruct (add_block_run fuel cpu buffer now b skip c) as (r & c' & -> & Hr). destruct r as [[]|e]; [|by eapply chain_ok_frame; [eapply rejected_index|]].
    destruct Hr as [(_ & _ & Hnew & _) (c0 & Ha & ->)]. eapply chain_ok_frame; [apply upkeep_index|].
    by eapply committed_ok; [..|eapply accepted_committed].
  - destruct (add_block_for_sync_run fuel cpu buffer now b c) as (r & c' & -> & Hr).
    destruct r as [[]|e]; [|by destruct Hr as [-> _]|by eapply chain_ok_frame; [eapply rejected_index|]].
    destruct Hr as (_ & Hnew & Ha). by eapply committed_ok; [..|eapply accepted_committed].
  - by apply checkpoint_ok.
  - destruct (pool_withdraw _ _ _ c) as [r c'] eqn:Hw. by eapply chain_ok_frame; [eapply pool_withdraw_index|].
  - destruct (on_ledger _ c) as [r c'] eqn:Hw. by eapply chain_ok_frame; [eapply on_ledger_index|].
  - destruct (on_ledger _ c) as [r c'] eqn:Hw. by eapply chain_ok_frame; [eapply on_ledger_index|].
  - by eapply chain_ok_frame; [|done].
  - unfold schedule_governance_action. destruct (schedule _ _). by eapply chain_ok_frame; [|done].
  - by eapply chain_ok_frame; [|done].
Qed.

(** *** Loading from storage *)

Lemma push_loaded_ok stored d latest count d' latest' count' :
  NoDup (block_hash <$> stored) → (∀ b, b ∈ stored → block_hash b ∉ block_hashes d) →
  index_ok d → latest = max_number d → count = Z.of_nat (transaction_count d) mod (u64_max + 1) →
  foldl push_loaded (d, latest, count) stored = (d', latest', count') →
  index_ok d' ∧ latest' = max_number d' ∧ count' = Z.of_nat (transaction_count d') mod (u64_max + 1) ∧
  blocks d' = blocks d ++ stored.
Proof.
  revert d latest count. induction stored as [|b bs IH]; intros d latest count Hnd Hnew Hi Hl Hc Hf.
  { cbn in Hf. injection Hf as <- <- <-. by rewrite app_nil_r. }
  cbn [fmap list_fmap] in Hnd. apply NoDup_cons in Hnd as [Hb Hnd]. cbn [foldl push_loaded] in Hf.
  destruct (IH (push_block b d) (Z.max latest (block_number (header b)))
    (add64 count (Z.of_nat (length (transactions b)))) Hnd) as (Hi' & Hl' & Hc' & Hbs); try done.
  - intros b' Hb'. cbn. intros [Heq%elem_of_singleton|Hold]%elem_of_union.
    + apply Hb. rewrite <- Heq. by apply list_elem_of_fmap_2.
    + apply (Hnew b'); [by right|done].
  - apply push_block_ok; [done|]. apply Hnew. by left.
  - rewrite Hl. unfold push_block. by rewrite max_number_snoc.
  - rewrite Hc. unfold push_block. rewrite transaction_count_snoc. unfold add64.
    rewrite Zplus_mod_idemp_l, Nat2Z.inj_add. done.
  - split_and!; [done..|]. rewrite Hbs. cbn. by rewrite <- app_assoc.
Qed.

Lemma stored_blocks_NoDup db :
  NoDup (block_hash <$> sort_by_key (λ b, block_number (header b)) (get_all_blocks db)).
Proof.
  rewrite get_all_blocks_sorted. unfold sort_by_key. rewrite !sort_by_perm. apply collect_blocks_spec.
Qed.

(** The chain read back holds every block of the database. *)
Lemma load_from_storage_ok c :
  blocks_data c = blocks_new → cached_latest_block_number c = 0 → cached_total_tx_count c = 0 →
  (length (recent_tx_hashes c) <= MAX_RECENT_BLOCKS)%nat →
  chain_ok (load_from_storage c) ∧
  (∀ db, database (ledger c) = Some db → blocks (blocks_data (load_from_storage c)) ≡ₚ get_all_blocks db).
Proof.
  intros Hd Hl Hc Hr. assert (chain_ok c) as Hck.
  { split; rewrite ?Hd, ?Hl, ?Hc; [apply index_new|done..]. }
  unfold load_from_storage. destruct (database (ledger c)) as [db|]; [|split; [done|]; by intros].
  pose proof (stored_blocks_NoDup db) as Hnd.
  pose proof (sort_by_perm (λ b b', block_number (header b) <=? block_number (header b')) (get_all_blocks db)) as Hp.
  change (sort_by _ (get_all_blocks db)) with (sort_by_key (λ b, block_number (header b)) (get_all_blocks db)) in Hp.
  destruct (sort_by_key _ _) as [|b bs] eqn:Hs.
  { split; [done|]. intros db' [= <-]. by rewrite <- Hp, Hd. }
  destruct (foldl push_loaded _ _) as [[d' l'] n'] eqn:Hf.
  rewrite Hd in Hf. eapply push_loaded_ok in Hf as (Hi & Hm & Hn & Hbs);
    [|done|by intros; apply not_elem_of_empty|apply index_new|done..].
  split; [by split|]. intros db' [= <-]. cbn [blocks_data set_ledger set_blocks]. by rewrite Hbs.
Qed.

Lemma with_storage_ok db k verkle c :
  with_storage_and_k db k verkle = Ok c →
  chain_ok c ∧ blocks (blocks_data c) ≡ₚ get_all_blocks db.
Proof.
  unfold with_storage_and_k. intros (st & Hst & [= <-])%bind_Ok.
  assert (st.1 = Some db) as Hdb.
  { unfold with_database_and_k in Hst. destruct (_ && _); [|done]. destruct (default _ _) as [[[g bl] sc] o].
    injection Hst as <-. destruct (_ <=? _)%nat; [|done]. unfold rebuild_ordering_from_storage.
    by destruct (ds_get_all_blocks _). }
  destruct (load_from_storage_ok (chain_of (MkLedger st.1 ∅ verkle) st.2 false)) as [[]  Hp]; [done..|cbn; lia|].
  split; [by split|]. by apply Hp.
Qed.

(** A chain as the node starts it. *)
Definition started (c : Blockchain) : Prop :=
  c = new ∨ c = with_verkle ∨ ∃ db k verkle, with_storage_and_k db k verkle = Ok c.

(** *** Claims *)


(** C27: Adding a block either refuses it and leaves the index, the cached height
    and counts and the replay window as they were, or appends it: the block
    passed the structure, hash, duplicate and parent checks, is found by its
    hash and height, and its transactions are in the replay window. *)
Theorem add_block_outcome fuel cpu buffer now b skip c :
  index_ok (blocks_data c) →
  ∃ r c', add_block_impl fuel cpu buffer now b skip c = (r, c') ∧
    match r with
    | Ok _ => admissible cpu buffer now b skip c ∧ committed b c c' ∧
        get_block_by_hash c' (block_hash b) = Ok (Some b) ∧
        get_block_by_number (blocks_data c') (block_number (header b)) = Ok (Some b) ∧
        Forall (λ t, is_replay c' t = true) (transactions b)
    | Err _ => same_index c c'
    end.
Proof.
  intros Hi. destruct (add_block_run fuel cpu buffer now b skip c) as (r & c' & Hadd & Hr). exists r, c'.
  split; [done|]. destruct r as [[]|e]; [|by eapply rejected_index].
  destruct Hr as [Had (c0 & Hacc & ->)].
  assert (committed b c (upkeep b c0)) as Hcm
    by (eapply committed_frame; [done|by eapply accepted_committed|apply upkeep_index]).
  pose proof (cm_blocks _ _ _ Hcm) as Hb. pose proof (cm_recent _ _ _ Hcm) as Hrec.
  destruct Had as (Hs & Hh & Hnew & Hp). split_and!; [done..| | |].
  - unfold get_block_by_hash. rewrite Hb.
    rewrite (proj2 (proj1 (find_by_hash_ok _ _ (push_block_ok b _ Hi Hnew)) b)); [done|].
    split; [|done]. cbn. apply elem_of_app. right. by left.
  - rewrite Hb. unfold get_block_by_number, push_block, index. cbn [block_by_number blocks].
    by rewrite lookup_insert_eq, lookup_app_r, Nat.sub_diag by done.
  - apply Forall_forall. intros t Ht. unfold is_replay. rewrite Hrec. apply existsb_exists.
    exists (tx_hash <$> transactions b). split.
    + unfold push_recent. rewrite length_app. cbn. rewrite drop_app_le by (unfold MAX_RECENT_BLOCKS; lia).
      apply in_app_iff. right. by left.
    + unfold contains. by apply bool_decide_eq_true, list_elem_of_fmap_2.
Qed.

(** The sync path accepts and executes a block exactly like the local path,
    with the same error and the same state on failure, but stops before the
    upkeep: pruning, recurring payments and scheduled governance actions do not
    happen for blocks that arrive from peers. *)
Theorem sync_is_local_without_upkeep fuel cpu buffer now b skip c :
  admissible cpu buffer now b skip c → validate_block_enhanced cpu buffer now (blocks_data c) b = Ok tt →
  match add_block_for_sync fuel cpu buffer now b c with
  | (Ok fresh, c') => fresh = true ∧ add_block_impl fuel cpu buffer now b skip c = (Ok tt, upkeep b c')
  | (Err e, c') => add_block_impl fuel cpu buffer now b skip c = (Err e, c')
  end.
Proof.
  intros (Hs & Hh & Hnew & Hp) He. unfold add_block_for_sync, add_block_impl.
  erewrite se_read_step by (by rewrite He). rewrite se_get_step, bool_decide_eq_false_2 by done.
  erewrite se_read_step by exact Hs. erewrite se_read_step.
  2:{ cbv beta. destruct (0 <? block_number (header b)) eqn:Hz, skip; cbn; bool_to_prop; try done. by apply Hh. }
  erewrite se_read_step by (by rewrite bool_decide_eq_false_2). erewrite se_read_step by exact Hp.
  destruct (validate_and_process_transactions now b c) as [[[]|e] c1] eqn:Hv.
  2:{ by rewrite !(se_bind_fail _ _ _ _ _ Hv). }
  rewrite !(se_bind_step _ _ _ _ _ Hv). destruct (ghostdag_add fuel b c1) as [[[]|e] c2] eqn:Hg.
  2:{ by rewrite !(se_bind_fail _ _ _ _ _ Hg). }
  rewrite !(se_bind_step _ _ _ _ _ Hg), !se_mod_step. cbn [mret SE_ret]. split; [done|].
  set (c3 := periodic_prune _ _).
  pose proof (process_recurring_total (block_number (header b)) (timestamp (header b)) c3) as Ht.
  unfold upkeep. cbv zeta. fold c3. destruct (process_recurring_transactions _ _ c3) as [r c4] eqn:Hr.
  cbn [fst snd] in *. subst r. by rewrite (se_bind_step _ _ _ _ _ Hr).
Qed.

(** After [clear_for_resync] the blocks are gone and the indices are not:
    looking up any block the chain knew, by hash or by height, panics. *)
Theorem clear_for_resync_panics c b :
  index_ok (blocks_data c) → b ∈ blocks (blocks_data c) →
  get_block_by_hash (clear_for_resync c) (block_hash b) = Err (Panic "index out of bounds") ∧
  get_block_by_number (blocks_data (clear_for_resync c)) (block_number (header b))
    = Err (Panic "index out of bounds").
Proof.
  intros Hi [i Hb]%list_elem_of_lookup.
  destruct (clear_blocks_stale_index _ _ i b Hi Hb eq_refl) as (Hf & Hn & _).
  unfold get_block_by_hash. cbn [clear_for_resync blocks_data set_spent set_ghostdag set_ledger set_blocks].
  by rewrite Hf.
Qed.
End ChainTheorems.
