(* ===== verification/ChainAccounts.v ===== *)
(** * ChainAccounts: the accounts of a running chain

    Builds on [Chain]: how consensus, the block index, recurring payments and
    pool withdrawals of [irondag-blockchain/src/blockchain/mod.rs] act on the
    accounts, and what holds of the nonces along any sequence of blocks. *)

From S2P Require Import Prelude Types Block Pow Error.
From S2P Require Import Storage DagStorage GhostDag.
From S2P Require Import Sponsorship PrivacyPool Recurring Governance Wallet Verkle.
From S2P Require Import Ledger BlockIndex Execution AccountFrame Chain.

(** ** The accounts *)

(** What consensus and the index leave alone: the accounts. *)
Record same_accounts `{Evm} (c c' : Blockchain) : Prop := {
  sa_db : keeps (database (ledger c)) (database (ledger c'));
  sa_cache : accounts (ledger c') = accounts (ledger c);
  sa_verkle : verkle_state (ledger c') = verkle_state (ledger c);
  sa_wallets : wallet_registry c' = wallet_registry c;
  sa_evm : evm_enabled c' = evm_enabled c;
  sa_recurring : recurring_manager c' = recurring_manager c }.

#[global] Instance same_accounts_preorder `{Evm} : PreOrder same_accounts.
Proof.
  split; [done|]. intros c1 c2 c3 [] []. split; try congruence. by etransitivity.
Qed.

Section Accounts.
Context `{Hex, Keccak, Blake3, Crypto, Evm, HashIter, SliceSearch}.
Context `{Codec Block, Codec (list Hash), Codec TxReceipt}.

Lemma same_accounts_view c c' a : same_accounts c c' → view (ledger c') a = view (ledger c) a.
Proof.
  intros [Hd Ha Hv _ _ _]. rewrite <- (keeps_view (ledger c) (database (ledger c')) Hd a).
  f_equal. destruct (ledger c'). cbn in *. congruence.
Qed.
Lemma same_accounts_ok c c' : same_accounts c c' → ledger_ok (ledger c) → ledger_ok (ledger c').
Proof.
  intros Hs [Hg Hr]. split.
  - unfold verkle_good in *. by rewrite (sa_verkle _ _ Hs).
  - intros a Ha. rewrite (same_accounts_view _ _ _ Hs). by apply Hr.
Qed.

Lemma ghostdag_add_accounts fuel b : respects same_accounts (ghostdag_add fuel b).
Proof.
  intros c r c'. unfold ghostdag_add. destruct (ghostdag c) as [g|]; [|by intros [= <- <-]].
  destruct (GhostDag.add_block _ _ _) as [r1 [db g']] eqn:Ha. intros [= <- <-].
  apply add_block_keeps in Ha. by split.
Qed.
Lemma put_or_warn_keeps db b : keeps (Some db) (Some (put_or_warn db b)).
Proof. unfold put_or_warn. destruct (bs_put db b) as [db'|] eqn:Hp; [by eapply bs_put_keeps|done]. Qed.
Lemma persist_block_accounts b c : same_accounts c (persist_block b c).
Proof. split; try done. cbn. destruct (database (ledger c)); [apply put_or_warn_keeps|done]. Qed.
Lemma commit_block_accounts b c : same_accounts c (commit_block b c).
Proof. by split. Qed.
Lemma periodic_prune_accounts n c : same_accounts c (periodic_prune n c).
Proof.
  unfold periodic_prune, prune_spent_outputs. destruct (_ =? 0); [|done]. by destruct (_ <=? _).
Qed.

(** *** Recurring payments *)

(** Writing the in-memory entry of an account: the database and the Verkle
    state take precedence over it. *)
Definition overlay (l : Ledger) (v : Accts) (a : Address) (x : u128 * u64) : Accts :=
  if has_verkle l then v
  else put_acct v a (default x.1 (stored_balance l a), default x.2 (stored_nonce l a)).

Lemma cache_account_view c a x n a' :
  view (ledger (cache_account a x n c)) a' = overlay (ledger c) (view (ledger c)) a (x, n) a'.
Proof.
  unfold overlay, has_verkle, put_acct, cache_account, view. cbn [ledger set_ledger verkle_state fst snd].
  destruct (verkle_state (ledger c)) as [vs|] eqn:Hv; [by rewrite bool_decide_eq_true_2|].
  rewrite bool_decide_eq_false_2 by (by intros []). unfold stored_balance, stored_nonce, cached.
  cbn [database accounts]. destruct (decide (a' = a)) as [->|]; [by rewrite lookup_insert_eq|].
  by rewrite lookup_insert_ne.
Qed.

Lemma overlay_ext l l' v v' a x a' :
  database l' = database l → verkle_state l' = verkle_state l → (∀ b, v' b = v b) →
  overlay l' v' a x a' = overlay l v a x a'.
Proof.
  intros Hd Hk Hv. unfold overlay, put_acct, has_verkle. rewrite Hk, (stored_balance_db l l'), (stored_nonce_db l l') by done.
  destruct (bool_decide _); [apply Hv|]. by destruct (decide _).
Qed.

(** The accounts after a due payment. *)
Definition spec_recurring (l : Ledger) (r : RecurringTransaction) (v : Accts) : Accts :=
  if (v (rt_from r)).1 <? rt_value r then v else
  let v1 := overlay l v (rt_from r) ((v (rt_from r)).1 - rt_value r, add64 (v (rt_from r)).2 1) in
  overlay l v1 (rt_to r) (add128 (v (rt_to r)).1 (rt_value r), (v1 (rt_to r)).2).

(** The parts of a chain that a recurring payment leaves alone. *)
Record same_ledger_base (c c' : Blockchain) : Prop := {
  slb_db : database (ledger c') = database (ledger c);
  slb_verkle : verkle_state (ledger c') = verkle_state (ledger c);
  slb_wallets : wallet_registry c' = wallet_registry c;
  slb_evm : evm_enabled c' = evm_enabled c }.
#[global] Instance same_ledger_base_preorder : PreOrder same_ledger_base.
Proof. split; [done|]. intros c1 c2 c3 [] []. split; congruence. Qed.

Lemma pay_recurring_spec n ts r c :
  ∃ l m, pay_recurring n ts r c = (Ok tt, set_recurring m (set_ledger l c)) ∧
    same_ledger_base c (set_ledger l c) ∧
    (∀ a, view l a = spec_recurring (ledger c) r (view (ledger c)) a) ∧
    m = (λ m, fst (if (view (ledger c) (rt_from r)).1 <? rt_value r then mark_failed m (recurring_tx_id r)
                   else mark_executed m (recurring_tx_id r) (exec_hash r n) ts)) <$> recurring_manager c.
Proof.
  unfold pay_recurring, spec_recurring. set (v := view (ledger c)).
  destruct (get_balance_step (rt_from r) c) as (l1 & Hb & Hr1). rewrite (se_bind_step _ _ _ _ _ Hb).
  destruct (_ <? _) eqn:Hlt; bool_to_prop.
  { exists l1, ((λ m, fst (mark_failed m (recurring_tx_id r))) <$> recurring_manager c).
    split; [done|]. split; [by split; [apply Hr1|apply Hr1|..]|]. split; [apply Hr1|done]. }
  destruct (get_nonce_step (rt_from r) (set_ledger l1 c)) as (l2 & Hn & Hr2). rewrite (se_bind_step _ _ _ _ _ Hn).
  destruct (get_balance_step (rt_to r) (set_ledger l2 (set_ledger l1 c))) as (l3 & Hb' & Hr3).
  rewrite (se_bind_step _ _ _ _ _ Hb'). cbn [ledger set_ledger] in *.
  rewrite (rd_view _ _ Hr1), (rd_view _ _ Hr2), (rd_view _ _ Hr1).
  assert (reads (ledger c) l3) as Hr by (by transitivity l2; [transitivity l1|]).
  fold v. set (c3 := set_ledger l3 (set_ledger l2 (set_ledger l1 c))).
  rewrite (se_bind_step _ _ _ _ _ (insert_step (rt_from r) (_ - _) (add64 _ 1) c3)).
  set (c4 := cache_account _ _ _ c3).
  destruct (get_nonce_step (rt_to r) c4) as (l5 & Hn' & Hr5). rewrite (se_bind_step _ _ _ _ _ Hn').
  set (v1 := overlay (ledger c) v (rt_from r) _).
  assert (∀ a, view (ledger c4) a = v1 a) as Hv4.
  { intros a. unfold c4. rewrite cache_account_view. apply overlay_ext; apply Hr. }
  rewrite Hv4. set (c5 := set_ledger l5 c4).
  rewrite (se_bind_step _ _ _ _ _ (insert_step (rt_to r) (add128 _ _) (_).2 c5)).
  set (c6 := cache_account _ _ _ c5).
  exists (ledger c6), ((λ m, fst (mark_executed m (recurring_tx_id r) (exec_hash r n) ts)) <$> recurring_manager c).
  split; [done|]. split; [|split; [|done]].
  - split; cbn; try done; rewrite ?(rd_db _ _ Hr5), ?(rd_verkle _ _ Hr5); cbn; apply Hr.
  - intros a. unfold c6. rewrite cache_account_view. apply overlay_ext.
    + cbn. rewrite (rd_db _ _ Hr5). apply Hr.
    + cbn. rewrite (rd_verkle _ _ Hr5). apply Hr.
    + intros b. cbn [c5 ledger set_ledger]. rewrite (rd_view _ _ Hr5). apply Hv4.
Qed.

(** Accounts that agree with what the database stores. *)
Definition backed (l : Ledger) (v : Accts) : Prop :=
  has_verkle l = false → ∀ a,
    (∀ x, stored_balance l a = Some x → (v a).1 = x) ∧ (∀ n, stored_nonce l a = Some n → (v a).2 = n).

Lemma view_backed l : backed l (view l).
Proof.
  intros Hv a. unfold view. unfold has_verkle in Hv. destruct (verkle_state l); [done|].
  split; intros ? ->; done.
Qed.

Lemma overlay_backed l v a x : backed l v → backed l (overlay l v a x).
Proof.
  intros Hb Hv a'. unfold overlay, put_acct. rewrite Hv. destruct (decide _) as [->|]; [|by apply Hb].
  cbn. by split; intros ? ->.
Qed.

(** A backed account with stored entries is not changed. *)
Lemma overlay_same l v a x :
  backed l v → (is_Some (stored_balance l a) ∨ x.1 = (v a).1) → (is_Some (stored_nonce l a) ∨ x.2 = (v a).2) →
  ∀ a', overlay l v a x a' = v a'.
Proof.
  intros Hb H1' H2' a'. unfold overlay, put_acct. destruct (has_verkle l) eqn:Hv; [done|].
  destruct (decide _) as [->|]; [|done]. destruct (Hb Hv a) as [Hb1 Hb2].
  rewrite (surjective_pairing (v a)). f_equal.
  - destruct (stored_balance l a) as [y|]; [by rewrite (Hb1 y)|]. by destruct H1' as [[]|].
  - destruct (stored_nonce l a) as [y|]; [by rewrite (Hb2 y)|]. by destruct H2' as [[]|].
Qed.

Lemma overlay_ok l v a x :
  backed l v → accts_ok v → (address_wf a = true → in_u128 x.1 ∧ in_u64 x.2) → accts_ok (overlay l v a x).
Proof.
  intros Hb Hv Hx. unfold overlay. destruct (has_verkle l) eqn:Hk; [done|].
  intros a' Ha'. unfold put_acct. destruct (decide _) as [->|]; [|by apply Hv]. cbn.
  destruct (Hv a Ha') as [Hv1 Hv2], (Hx Ha') as [Hx1 Hx2], (Hb Hk a) as [Hb1 Hb2]. split.
  - destruct (stored_balance l a) as [y|]; [|done]. cbn. by rewrite <- (Hb1 y).
  - destruct (stored_nonce l a) as [y|]; [|done]. cbn. by rewrite <- (Hb2 y).
Qed.

Lemma overlay_nonce l v a x a' :
  backed l v → (v a).2 <= x.2 <= (v a).2 + 1 →
  (v a').2 <= (overlay l v a x a').2 <= (v a').2 + 1.
Proof.
  intros Hb Hx. unfold overlay, put_acct. destruct (has_verkle l) eqn:Hk; [lia|].
  destruct (decide _) as [->|]; [|lia]. cbn. destruct (stored_nonce l a) as [y|] eqn:Hs; [|done]. cbn.
  rewrite (proj2 (Hb Hk a) y Hs). lia.
Qed.
Lemma overlay_keeps_nonce l v a x a' :
  backed l v → x.2 = (v a).2 → (overlay l v a x a').2 = (v a').2.
Proof.
  intros Hb Hx. unfold overlay, put_acct. destruct (has_verkle l) eqn:Hk; [done|].
  destruct (decide _) as [->|]; [|done]. cbn. destruct (stored_nonce l a) as [y|] eqn:Hs; [|done]. cbn.
  by rewrite (proj2 (Hb Hk a) y Hs).
Qed.

Lemma spec_recurring_ok l r :
  in_u128 (rt_value r) → accts_ok (view l) → accts_ok (spec_recurring l r (view l)).
Proof.
  intros Hval Hok. unfold spec_recurring. destruct (_ <? _) eqn:Hlt; bool_to_prop; [done|].
  assert (accts_ok (overlay l (view l) (rt_from r)
    ((view l (rt_from r)).1 - rt_value r, add64 (view l (rt_from r)).2 1))) as H1'.
  { apply overlay_ok; [apply view_backed|done|]. intros Ha. cbn. split; [|apply add64_range].
    pose proof (proj1 (Hok _ Ha)). mlia. }
  apply overlay_ok; [apply overlay_backed, view_backed|done|]. intros Ha. cbn.
  split; [apply add128_range|by apply H1'].
Qed.

Lemma spec_recurring_nonce l r a :
  accts_ok (view l) → (address_wf (rt_from r) = true → (view l (rt_from r)).2 < u64_max) → address_wf a = true →
  (view l a).2 <= (spec_recurring l r (view l) a).2 <= (view l a).2 + 1.
Proof.
  intros Hok Hmax Ha. unfold spec_recurring. destruct (_ <? _) eqn:Hlt; bool_to_prop; [lia|].
  rewrite overlay_keeps_nonce; [|apply overlay_backed, view_backed|done].
  destruct (decide (a = rt_from r)) as [->|Hne].
  - apply overlay_nonce; [apply view_backed|]. cbn. specialize (Hmax Ha). pose proof (proj2 (Hok _ Ha)).
    rewrite add64_small; mlia.
  - unfold overlay, put_acct. destruct (has_verkle l); [lia|]. rewrite decide_False by done. lia.
Qed.

(** *** Nonces along a run *)

(** A chain without a registry of contract wallets, as every constructor of the
    source makes it, and with well-formed accounts.  The EVM may be on. *)
Record plain (c : Blockchain) : Prop := {
  pl_wallets : wallet_registry c = None;
  pl_ledger : ledger_ok (ledger c) }.

Definition nonce_of (c : Blockchain) (a : Address) : u64 := (view (ledger c) a).2.

(** From [c] to [c'] no nonce of an account decreased, or grew by more than [k]. *)
Definition nonces_grow (k : Z) (c c' : Blockchain) : Prop :=
  ∀ a, address_wf a = true → nonce_of c a <= nonce_of c' a <= nonce_of c a + k.

Lemma nonces_grow_trans k k' c1 c2 c3 :
  nonces_grow k c1 c2 → nonces_grow k' c2 c3 → nonces_grow (k + k') c1 c3.
Proof. intros Ha Hb a Hwf. specialize (Ha a Hwf). specialize (Hb a Hwf). lia. Qed.

Lemma same_accounts_plain c c' : same_accounts c c' → plain c → plain c' ∧ nonces_grow 0 c c'.
Proof.
  intros Hs [Hw Hl]. split.
  - split; [by rewrite (sa_wallets _ _ Hs)|by eapply same_accounts_ok].
  - intros a _. unfold nonce_of. rewrite (same_accounts_view _ _ _ Hs). lia.
Qed.

Definition room (k : Z) (c : Blockchain) : Prop := ∀ a, address_wf a = true → nonce_of c a + k <= u64_max.

Lemma pay_recurring_plain n ts r c :
  plain c → in_u128 (rt_value r) → room 1 c →
  plain (snd (pay_recurring n ts r c)) ∧ nonces_grow 1 c (snd (pay_recurring n ts r c)).
Proof.
  intros [Hw [Hg Hr]] Hval Hroom. destruct (pay_recurring_spec n ts r c) as (l & m & -> & Hb & Hv & _).
  cbn [snd]. split.
  - split; [done..|]. cbn. split.
    + unfold verkle_good. by rewrite (slb_verkle _ _ Hb : verkle_state l = _).
    + intros a Ha. rewrite Hv. by apply spec_recurring_ok.
  - intros a Ha. unfold nonce_of. cbn. rewrite Hv. apply spec_recurring_nonce; [exact Hr| |done].
    intros Hf. specialize (Hroom _ Hf). unfold nonce_of in Hroom. lia.
Qed.

Lemma pay_all_plain n ts rs c :
  plain c → Forall (λ r, in_u128 (rt_value r)) rs → room (Z.of_nat (length rs)) c →
  plain (snd (se_for rs (pay_recurring n ts) c)) ∧
  nonces_grow (Z.of_nat (length rs)) c (snd (se_for rs (pay_recurring n ts) c)).
Proof.
  intros Hp Hrs. revert c Hp. induction Hrs as [|r rs Hv Hrs IH]; intros c Hp Hroom.
  { split; [done|]. intros a _. cbn. lia. }
  cbn [length] in *. cbn [se_for]. destruct (pay_recurring n ts r c) as [x c1] eqn:Hx.
  pose proof (pay_recurring_total n ts r c) as Ht. rewrite Hx in Ht. cbn in Ht. subst x.
  rewrite (se_bind_step _ _ _ _ _ Hx). destruct (pay_recurring_plain n ts r c Hp Hv) as [Hp1 Hg1].
  { intros a Ha. specialize (Hroom a Ha). lia. }
  rewrite Hx in Hp1, Hg1. cbn [snd] in *. destruct (IH c1 Hp1) as [Hp2 Hg2].
  { intros a Ha. specialize (Hroom a Ha). specialize (Hg1 a Ha). lia. }
  split; [done|]. replace (Z.of_nat (S (length rs))) with (1 + Z.of_nat (length rs)) by lia.
  by eapply nonces_grow_trans.
Qed.

(** The payments due at a time. *)
Definition due (c : Blockchain) (ts : u64) : list RecurringTransaction :=
  match recurring_manager c with Some m => get_ready_to_execute m ts | None => [] end.

Lemma upkeep_plain b c :
  plain c → Forall (λ r, in_u128 (rt_value r)) (due c (timestamp (header b))) →
  room (Z.of_nat (length (due c (timestamp (header b))))) c →
  plain (upkeep b c) ∧ nonces_grow (Z.of_nat (length (due c (timestamp (header b))))) c (upkeep b c).
Proof.
  intros Hp Hval Hroom. set (n := block_number (header b)). set (ts := timestamp (header b)) in *.
  pose proof (periodic_prune_accounts n c) as Hs. destruct (same_accounts_plain _ _ Hs Hp) as [Hp1 Hg1].
  set (c1 := periodic_prune n c) in *.
  assert (snd (process_recurring_transactions n ts c1) = snd (se_for (due c ts) (pay_recurring n ts) c1)) as Hrec.
  { unfold process_recurring_transactions, due. rewrite se_get_step, (sa_recurring _ _ Hs).
    by destruct (recurring_manager c). }
  destruct (pay_all_plain n ts (due c ts) c1 Hp1 Hval) as [Hp2 Hg2].
  { intros a Ha. specialize (Hroom a Ha). specialize (Hg1 a Ha). lia. }
  unfold upkeep. fold n ts c1. rewrite Hrec. split.
  - destruct Hp2 as [?[??]]. split; [done|]. by split.
  - pose proof (nonces_grow_trans _ _ _ _ _ Hg1 Hg2) as Hg. intros a Ha. exact (Hg a Ha).
Qed.

(** Typed input without contract calls, and enough nonces left for the block. *)
Record block_typed (b : Block) (c : Blockchain) : Prop := {
  bt_txs : Forall tx_ok (transactions b);
  bt_native : Forall (native c) (transactions b);
  bt_due : Forall (λ r, in_u128 (rt_value r)) (due c (timestamp (header b)));
  bt_room : room (Z.of_nat (length (transactions b) + length (due c (timestamp (header b))))) c }.

Lemma spec_run_growth txs v v' :
  spec_run v txs = Ok v' →
  (∀ a, (v a).2 + Z.of_nat (length txs) <= u64_max → (v a).2 <= (v' a).2 <= (v a).2 + Z.of_nat (length txs)) ∧
  ∀ t, t ∈ txs → (v (from t)).2 + Z.of_nat (length txs) <= u64_max →
    (v (from t)).2 <= nonce t < (v' (from t)).2.
Proof.
  revert v. induction txs as [|t txs IH]; intros v Hrun.
  { injection Hrun as <-. split; [cbn; lia|]. by intros t Hin%elem_of_nil. }
  unfold spec_run in Hrun. cbn [try_fold] in Hrun. apply bind_Ok in Hrun as (v1 & Hx & Hrun).
  destruct (spec_exec_nonce _ _ _ Hx) as (Hn & Hn1 & Hother). destruct (IH v1 Hrun) as [Hmono Hin]. clear IH.
  cbn [length]. assert (∀ a, (v a).2 + Z.of_nat (S (length txs)) <= u64_max → (v a).2 <= (v1 a).2 <= (v a).2 + 1) as Hstep.
  { intros a Ha. destruct (decide (a = from t)) as [->|Hne]; [|rewrite Hother by done; lia].
    rewrite Hn1, Hn. unfold sat_add64. lia. }
  split.
  - intros a Ha. pose proof (Hstep a Ha). pose proof (Hmono a ltac:(lia)). lia.
  - intros t' [->|Ht']%elem_of_cons Hle.
    + pose proof (Hstep _ Hle). pose proof (Hmono (from t) ltac:(lia)).
      rewrite Hn1 in *. unfold sat_add64 in *. lia.
    + pose proof (Hstep _ Hle). pose proof (Hin t' Ht' ltac:(lia)). lia.
Qed.

(** The transactions used fresh nonces that lie between those of [c] and [c']. *)
Record ran (c c' : Blockchain) (txs : list Transaction) : Prop := {
  ran_NoDup : NoDup (spends <$> txs);
  ran_nonces : ∀ t, t ∈ txs →
    address_wf (from t) = true ∧ nonce_of c (from t) <= nonce t < nonce_of c' (from t) }.

Lemma ran_nil c c' : ran c c' [].
Proof. split; [constructor|]. by intros t Hin%elem_of_nil. Qed.
Lemma ran_grow k c c1 c2 txs : ran c c1 txs → nonces_grow k c1 c2 → ran c c2 txs.
Proof.
  intros [Hn Ht] Hg. split; [done|]. intros t Hin. destruct (Ht t Hin) as [Hwf Hle].
  split; [done|]. specialize (Hg _ Hwf). lia.
Qed.

Lemma execution_plain now b c :
  plain c → Forall tx_ok (transactions b) → Forall (native c) (transactions b) → room (Z.of_nat (length (transactions b))) c →
  ∃ r c', validate_and_process_transactions now b c = (r, c') ∧ plain c' ∧
    recurring_manager c' = recurring_manager c ∧ nonces_grow (Z.of_nat (length (transactions b))) c c' ∧
    ran c c' (executed_of now b c) ∧ (r = Ok tt → executed_of now b c = transactions b).
Proof.
  intros [Hw Hl] Hok Hnat Hroom.
  destruct (block_run now b c Hok Hnat Hl) as (r & c' & k & v' & Hrun & Hx & Hs & Hl' & Hag & Hf & Hr).
  exists r, c'. destruct (spec_run_growth _ _ _ Hs) as [Hg Ht].
  split; [done|]. split; [by destruct Hf|]. split; [by destruct Hf|]. rewrite Hx.
  assert (length (take k (transactions b)) <= length (transactions b))%nat as Hlen by (rewrite length_take; lia).
  assert (∀ a, address_wf a = true → nonce_of c a + Z.of_nat (length (take k (transactions b))) <= u64_max) as Hroom'.
  { intros a Ha. specialize (Hroom a Ha). lia. }
  split_and!.
  - intros a Ha. unfold nonce_of. rewrite Hag by done. specialize (Hg a (Hroom' a Ha)). lia.
  - assert (Forall tx_ok (take k (transactions b))) as Hokk by (by apply Forall_take).
    assert (∀ t, t ∈ take k (transactions b) → address_wf (from t) = true ∧
      nonce_of c (from t) <= nonce t < nonce_of c' (from t)) as Hall.
    { intros t Hin. assert (address_wf (from t) = true) as Hwf by (rewrite Forall_forall in Hokk; by apply Hokk).
      split; [done|]. unfold nonce_of. rewrite Hag by done. apply (Ht t Hin), Hroom', Hwf. }
    split; [|done]. eapply spec_run_NoDup; [done| |exact (lo_range _ Hl)|exact Hs].
    apply Forall_forall. intros t Hin. destruct (Hall t Hin) as [Hwf Hlt].
    pose proof (proj2 (lo_range _ Hl' _ Hwf)) as Hu. unfold nonce_of in Hlt. mlia.
  - intros ->. destruct Hr as [-> _]. apply firstn_all.
Qed.

Lemma nonces_grow_le k k' c c' : k <= k' → nonces_grow k c c' → nonces_grow k' c c'.
Proof. intros Hk Hg a Ha. specialize (Hg a Ha). lia. Qed.

Lemma room_grow j k c c' : nonces_grow j c c' → room (j + k) c → room k c'.
Proof. intros Hg Hr a Ha. specialize (Hg a Ha). specialize (Hr a Ha). lia. Qed.

(** *** What a block does before and after its transactions *)

(** The checks of the two ways to add a block, before anything is executed. *)
Definition add_checks (cpu : CpuFeatures) (buffer : list u8) (now : u64) (b : Block) (skip : bool) (c : Blockchain) :
    result BlockchainError unit :=
  _ ← validate_block_structure now (blocks_data c) b;
  _ ← (if (0 <? block_number (header b)) && negb skip then check_block_hash cpu buffer b else Ok tt);
  _ ← ensure (negb (bool_decide (block_hash b ∈ block_hashes (blocks_data c)))) (InvalidBlock "Block already exists");
  validate_parent_hashes (blocks_data c) b.
Definition sync_checks (cpu : CpuFeatures) (buffer : list u8) (now : u64) (b : Block) (c : Blockchain) : bool :=
  is_ok (validate_block_enhanced cpu buffer now (blocks_data c) b)
  && negb (bool_decide (block_hash b ∈ block_hashes (blocks_data c))).

(** The consensus engine and the commit leave the accounts of the execution. *)
Definition processed (now : u64) (b : Block) (c c' : Blockchain) : Prop :=
  ∃ r c1, validate_and_process_transactions now b c = (r, c1) ∧ same_accounts c1 c'.

Lemma committed_processed fuel now b c c1 c2 :
  validate_and_process_transactions now b c = (Ok tt, c1) → ghostdag_add fuel b c1 = (Ok tt, c2) →
  processed now b c (commit_block b (persist_block b c2)).
Proof.
  intros Hv Hd. exists (Ok tt), c1. split; [done|]. transitivity c2; [by eapply ghostdag_add_accounts|].
  transitivity (persist_block b c2); [apply persist_block_accounts|apply commit_block_accounts].
Qed.

Lemma add_block_processed fuel cpu buffer now b skip c r c' :
  add_block_impl fuel cpu buffer now b skip c = (r, c') →
  match add_checks cpu buffer now b skip c with
  | Err _ => c' = c
  | Ok _ => ∃ c0, processed now b c c0 ∧ (c' = c0 ∨ c' = upkeep b c0)
  end.
Proof.
  unfold add_block_impl, add_checks.
  destruct (validate_block_structure now (blocks_data c) b) as [[]|e] eqn:Hs; cbn [mbind result_bind].
  2:{ erewrite se_read_fail by exact Hs. by intros [= _ <-]. }
  erewrite se_read_step by exact Hs.
  destruct (if (0 <? block_number (header b)) && negb skip then _ else _) as [[]|e] eqn:Hh; cbn [mbind result_bind].
  2:{ erewrite se_read_fail by reflexivity. by intros [= _ <-]. }
  erewrite se_read_step by reflexivity.
  destruct (ensure _ _) as [[]|e] eqn:Hn; cbn [mbind result_bind].
  2:{ erewrite se_read_fail by exact Hn. by intros [= _ <-]. }
  erewrite se_read_step by exact Hn.
  destruct (validate_parent_hashes (blocks_data c) b) as [[]|e] eqn:Hp.
  2:{ erewrite se_read_fail by exact Hp. by intros [= _ <-]. }
  erewrite se_read_step by exact Hp.
  destruct (validate_and_process_transactions now b c) as [[[]|e] c1] eqn:Hv.
  2:{ rewrite (se_bind_fail _ _ _ _ _ Hv). intros [= _ <-]. exists c1. split; [by exists (Err e), c1|by left]. }
  rewrite (se_bind_step _ _ _ _ _ Hv). destruct (ghostdag_add fuel b c1) as [[[]|e] c2] eqn:Hd.
  2:{ rewrite (se_bind_fail _ _ _ _ _ Hd). intros [= _ <-]. exists c2. split; [|by left].
      exists (Ok tt), c1. split; [done|]. by eapply ghostdag_add_accounts. }
  rewrite (se_bind_step _ _ _ _ _ Hd), !se_mod_step. set (c3 := periodic_prune _ _).
  pose proof (process_recurring_total (block_number (header b)) (timestamp (header b)) c3) as Ht.
  destruct (process_recurring_transactions _ _ c3) as [r4 c4] eqn:Hr. cbn [fst] in Ht. subst r4.
  rewrite (se_bind_step _ _ _ _ _ Hr). intros [= _ <-]. eexists. split; [by eapply committed_processed|right].
  unfold upkeep. cbv zeta. fold c3. by rewrite Hr.
Qed.

Lemma add_block_for_sync_processed fuel cpu buffer now b c r c' :
  add_block_for_sync fuel cpu buffer now b c = (r, c') →
  if sync_checks cpu buffer now b c then processed now b c c' else c' = c.
Proof.
  unfold add_block_for_sync, sync_checks.
  destruct (validate_block_enhanced cpu buffer now (blocks_data c) b) as [[]|e] eqn:Hs; cbn [is_ok andb].
  2:{ erewrite se_read_fail by (rewrite Hs; reflexivity). by intros [= _ <-]. }
  erewrite se_read_step by (by rewrite Hs). rewrite se_get_step.
  destruct (bool_decide (block_hash b ∈ block_hashes (blocks_data c))); cbn [negb]; [by intros [= _ <-]|].
  destruct (validate_and_process_transactions now b c) as [[[]|e] c1] eqn:Hv.
  2:{ rewrite (se_bind_fail _ _ _ _ _ Hv). intros [= _ <-]. by exists (Err e), c1. }
  rewrite (se_bind_step _ _ _ _ _ Hv). destruct (ghostdag_add fuel b c1) as [[[]|e] c2] eqn:Hd.
  2:{ rewrite (se_bind_fail _ _ _ _ _ Hd). intros [= _ <-]. exists (Ok tt), c1. split; [done|]. by eapply ghostdag_add_accounts. }
  rewrite (se_bind_step _ _ _ _ _ Hd). intros [= _ <-]. by eapply committed_processed.
Qed.

(** One step of the node: a block is offered, locally or by a peer.  The
    transactions of the step are those that were applied, also when the block
    was refused after some of them. *)
Inductive block_step (fuel : nat) (cpu : CpuFeatures) (buffer : list u8) :
    Blockchain → list Transaction → Blockchain → Prop :=
| StepAdd now b skip c r c' :
    block_typed b c → add_block_impl fuel cpu buffer now b skip c = (r, c') →
    block_step fuel cpu buffer c (if add_checks cpu buffer now b skip c then executed_of now b c else []) c'
| StepSync now b c r c' :
    block_typed b c → add_block_for_sync fuel cpu buffer now b c = (r, c') →
    block_step fuel cpu buffer c (if sync_checks cpu buffer now b c then executed_of now b c else []) c'.

Lemma processed_plain now b c c0 :
  plain c → block_typed b c → processed now b c c0 →
  plain c0 ∧ recurring_manager c0 = recurring_manager c ∧ nonces_grow (Z.of_nat (length (transactions b))) c c0 ∧
  ran c c0 (executed_of now b c).
Proof.
  intros Hp [Htx Hnat _ Hroom] (r & c1 & Hv & Hs).
  destruct (execution_plain now b c Hp Htx Hnat) as (r' & c1' & Hv' & Hp1 & Hm1 & Hg1 & Ht1 & _).
  { intros a Ha. specialize (Hroom a Ha). lia. }
  rewrite Hv in Hv'. injection Hv' as <- <-. destruct (same_accounts_plain _ _ Hs Hp1) as [Hp2 Hg2]. split_and!; [done| | |].
  - by rewrite (sa_recurring _ _ Hs).
  - rewrite <- (Z.add_0_r (Z.of_nat _)). by eapply nonces_grow_trans.
  - by eapply ran_grow.
Qed.

Lemma block_step_plain fuel cpu buffer c txs c' :
  block_step fuel cpu buffer c txs c' → plain c →
  plain c' ∧ (∀ a, address_wf a = true → nonce_of c a <= nonce_of c' a) ∧ ran c c' txs.
Proof.
  intros Hstep Hp. destruct Hstep as [now b skip c r c' Hty Hadd|now b c r c' Hty Hadd].
  - apply add_block_processed in Hadd. destruct (add_checks _ _ _ _ _ _) as [|e].
    2:{ subst c'. split_and!; [done|lia|apply ran_nil]. }
    destruct Hadd as (c0 & Hc0 & Hc'). destruct (processed_plain _ _ _ _ Hp Hty Hc0) as (Hp0 & Hm & Hg & Ht).
    destruct Hc' as [->| ->]; [split_and!; [done| |done]; intros x Hx; specialize (Hg x Hx); lia|].
    destruct Hty as [_ _ Hdue Hroom]. rewrite Nat2Z.inj_add in Hroom.
    assert (due c0 (timestamp (header b)) = due c (timestamp (header b))) as Hd by (unfold due; by rewrite Hm).
    destruct (upkeep_plain b c0 Hp0) as [Hp1 Hg1]; [by rewrite Hd|rewrite Hd; by eapply room_grow|].
    split_and!; [done| |by eapply ran_grow]. intros x Hx. specialize (Hg x Hx). specialize (Hg1 x Hx). lia.
  - apply add_block_for_sync_processed in Hadd. destruct (sync_checks _ _ _ _ _).
    2:{ subst c'. split_and!; [done|lia|apply ran_nil]. }
    destruct (processed_plain _ _ _ _ Hp Hty Hadd) as (Hp0 & _ & Hg & Ht).
    split_and!; [done|intros x Hx; specialize (Hg x Hx); lia|done].
Qed.

(** A run of the node, with the transactions it executed, oldest first. *)
Inductive block_run_trace (fuel : nat) (cpu : CpuFeatures) (buffer : list u8) (c : Blockchain) :
    list Transaction → Blockchain → Prop :=
| TraceNil : block_run_trace fuel cpu buffer c [] c
| TraceStep done_ c1 txs c2 :
    block_run_trace fuel cpu buffer c done_ c1 → block_step fuel cpu buffer c1 txs c2 →
    block_run_trace fuel cpu buffer c (done_ ++ txs) c2.

Lemma trace_ran fuel cpu buffer c txs c' :
  plain c → block_run_trace fuel cpu buffer c txs c' →
  plain c' ∧ (∀ a, address_wf a = true → nonce_of c a <= nonce_of c' a) ∧ ran c c' txs.
Proof.
  intros Hp. induction 1 as [|done_ c1 txs c2 Htr (Hp1 & Hm1 & [Hnd1 Ht1]) Hst]; [split_and!; [done|lia|apply ran_nil]|].
  destruct (block_step_plain _ _ _ _ _ _ Hst Hp1) as (Hp2 & Hm2 & [Hnd2 Ht2]). split_and!; [done| |split].
  - intros a Ha. specialize (Hm1 a Ha). specialize (Hm2 a Ha). lia.
  - rewrite fmap_app. apply NoDup_app. split_and!; [done| |done].
    intros p (t & -> & Hin)%list_elem_of_fmap (t' & Heq & Hin')%list_elem_of_fmap.
    destruct (Ht1 t Hin) as [_ Hlt], (Ht2 t' Hin') as [_ Hlt']. unfold spends in Heq. injection Heq as Hf Hn.
    rewrite Hf, Hn in Hlt. lia.
  - intros t [Hin|Hin]%elem_of_app.
    + destruct (Ht1 t Hin) as [Hwf Hlt]. specialize (Hm2 _ Hwf). split; [done|lia].
    + destruct (Ht2 t Hin) as [Hwf Hlt]. specialize (Hm1 _ Hwf). split; [done|lia].
Qed.

(** *** Durability *)

Lemma upkeep_db b c : database (ledger (upkeep b c)) = database (ledger c).
Proof.
  unfold upkeep. set (n := block_number (header b)). set (ts := timestamp (header b)).
  assert (∀ rs c1, database (ledger (snd (se_for rs (pay_recurring n ts) c1))) = database (ledger c1)) as Hpay.
  { induction rs as [|r rs IH]; intros c1; [done|]. cbn [se_for].
    destruct (pay_recurring_spec n ts r c1) as (l & m & Hx & Hb & _). rewrite (se_bind_step _ _ _ _ _ Hx), IH.
    apply (slb_db _ _ Hb). }
  cbn [set_governance ledger]. unfold process_recurring_transactions. rewrite se_get_step.
  assert (database (ledger (periodic_prune n c)) = database (ledger c)) as <-.
  { unfold periodic_prune, prune_spent_outputs. destruct (_ =? 0); [|done]. by destruct (_ <=? _). }
  destruct (recurring_manager _); [apply Hpay|done].
Qed.

Lemma bs_put_listed db b db' : bs_put db b = Ok db' → block_hash b ∈ block_hash <$> get_all_blocks db'.
Proof.
  unfold bs_put. intros Hput. destruct (serialize b) as [v|] eqn:Hs; [|done].
  cbn in Hput. injection Hput as <-. apply deserialize_serialize in Hs.
  rewrite get_all_blocks_sorted. unfold sort_by_key. rewrite sort_by_perm.
  eapply (proj2 (proj2 (collect_blocks_spec _)) (block_key (block_hash b)) v b);
    [apply lookup_insert_eq | done | left; apply starts_with_make_key].
Qed.

Lemma with_storage_total db k verkle :
  (1 <= k <= 64)%nat → is_Some (ok (with_storage_and_k db k verkle)).
Proof.
  intros Hk. unfold with_storage_and_k, with_database_and_k.
  rewrite (proj2 (Nat.leb_le 1 k)), (proj2 (Nat.leb_le k 64)) by lia. cbn [andb].
  destruct (default _ _) as [[[g bl] sc] o]. by eexists.
Qed.

Lemma structure_serializes now d b : validate_block_structure now d b = Ok tt → is_Some (serialize b).
Proof.
  unfold validate_block_structure, check_size_and_parents, size_of. by destruct (serialize b).
Qed.

(** C28: A block that was accepted is durable: it can be read from the database
    as it was, and a node restarted from that database knows it. *)
Theorem accepted_block_survives_restart fuel cpu buffer now b skip c c' db k verkle :
  add_block_impl fuel cpu buffer now b skip c = (Ok tt, c') →
  database (ledger c') = Some db → hash_wf (block_hash b) = true → (1 <= k <= 64)%nat →
  bs_get db (block_hash b) = Ok (Some b) ∧
  ∃ c2, with_storage_and_k db k verkle = Ok c2 ∧ block_hash b ∈ block_hashes (blocks_data c2).
Proof.
  intros Hadd Hdb Hwf Hk. destruct (add_block_run fuel cpu buffer now b skip c) as (r & c1 & Heq & Hr).
  rewrite Hadd in Heq. injection Heq as <- <-.
  destruct Hr as [(Hs & _) (c0 & (ca & cb & _ & _ & ->) & ->)].
  apply structure_serializes in Hs as [bs Hbs].
  rewrite upkeep_db in Hdb. cbn [commit_block set_blocks set_evm ledger persist_block set_ledger database] in Hdb.
  destruct (database (ledger cb)) as [db0|]; [|done]. cbn in Hdb. injection Hdb as <-.
  assert (bs_put db0 b = Ok (put_or_warn db0 b)) as Hput by (unfold put_or_warn, bs_put; by rewrite Hbs).
  split; [by apply (bs_put_spec _ _ _ Hwf Hput)|].
  destruct (with_storage_total (put_or_warn db0 b) k verkle Hk) as [c2 Hc2].
  destruct (with_storage_and_k (put_or_warn db0 b) k verkle) as [c2'|] eqn:Hw; [|done]. injection Hc2 as ->.
  exists c2. split; [done|]. destruct (with_storage_ok _ _ _ _ Hw) as [Hck Hp].
  apply (io_hashes _ (ck_index _ Hck)). apply bs_put_listed in Hput.
  apply list_elem_of_fmap in Hput as (b' & Hh & Hb'). exists b'. split; [by rewrite Hp|done].
Qed.

(** *** Claims on the accounts *)

(** C1: No replay: along any sequence of blocks without contract calls offered to
    the chain, locally or by peers, accepted or refused, with recurring payments
    in between, no (sender, nonce) pair is executed twice, nonces never
    decrease, and a transaction that was executed has a nonce below its sender's
    current one, so that it is never valid again.  The transactions of a block
    that is refused after some of them count, since they stay applied.  A block
    is without contract calls when its transactions carry no data or the EVM is
    off; the chain has no wallet registry (no constructor gives it one), the
    accounts are well-formed and no nonce comes near its maximum. *)
Theorem no_transaction_replays fuel cpu buffer c txs c' :
  plain c → block_run_trace fuel cpu buffer c txs c' →
  NoDup (spends <$> txs) ∧ plain c' ∧
  (∀ a, address_wf a = true → nonce_of c a <= nonce_of c' a) ∧
  (∀ t, t ∈ txs → nonce t < nonce_of c' (from t)).
Proof.
  intros Hp Htr. destruct (trace_ran _ _ _ _ _ _ Hp Htr) as (Hp' & Hm & [Hnd Ht]). split_and!; [done..|].
  intros t Hin. by destruct (Ht t Hin) as [_ [_ ?]].
Qed.

(** A recurring payment that is due and covered is recorded as executed and
    moves its value between different accounts as long as they live in memory
    only; a payment to oneself creates its value out of nothing; and when the
    accounts are in the database, or in the Verkle tree, it moves nothing. *)
Theorem recurring_payment_effect n ts r c :
  rt_value r <= (view (ledger c) (rt_from r)).1 → 0 <= rt_value r →
  (view (ledger c) (rt_to r)).1 + rt_value r <= u128_max → 0 <= (view (ledger c) (rt_to r)).1 →
  ∃ c', pay_recurring n ts r c = (Ok tt, c') ∧
    recurring_manager c'
      = (λ m, fst (mark_executed m (recurring_tx_id r) (exec_hash r n) ts)) <$> recurring_manager c ∧
    (has_db (ledger c) = false → has_verkle (ledger c) = false →
     (rt_from r ≠ rt_to r →
      (view (ledger c') (rt_from r)).1 = (view (ledger c) (rt_from r)).1 - rt_value r) ∧
     (view (ledger c') (rt_to r)).1 = (view (ledger c) (rt_to r)).1 + rt_value r) ∧
    (has_verkle (ledger c) = true ∨
     is_Some (stored_balance (ledger c) (rt_from r)) ∧ is_Some (stored_balance (ledger c) (rt_to r)) →
     ∀ a, (view (ledger c') a).1 = (view (ledger c) a).1).
Proof.
  intros Hcov Hpos Hmax Hto. destruct (pay_recurring_spec n ts r c) as (l & m & Hpay & _ & Hv & Hm).
  rewrite (proj2 (Z.ltb_ge _ _)) in Hm by lia.
  exists (set_recurring m (set_ledger l c)). split; [done|]. split; [done|]. cbn [ledger set_recurring set_ledger].
  setoid_rewrite Hv. unfold spec_recurring. rewrite (proj2 (Z.ltb_ge _ _)) by lia.
  unfold overlay, put_acct. split.
  - intros Hdb Hvk. rewrite Hvk.
    assert (∀ a, stored_balance (ledger c) a = None) as Hsb.
    { intros a. unfold stored_balance. unfold has_db in Hdb. destruct (database (ledger c)); [done|]. done. }
    split; [intros Hne; rewrite decide_False, decide_True by done|rewrite decide_True by done]; rewrite !Hsb; cbn; [done|].
    apply add128_small. mlia.
  - intros Hst a. destruct (has_verkle (ledger c)) eqn:Hk; [done|]. destruct Hst as [?|[[x Hx] [y Hy]]]; [done|].
    destruct (decide (a = rt_to r)) as [->|]; cbn; [|destruct (decide (a = rt_from r)) as [->|]; [cbn|done]].
    + rewrite Hy. symmetry. by apply (view_backed (ledger c) Hk).
    + rewrite Hx. symmetry. by apply (view_backed (ledger c) Hk).
Qed.
End Accounts.
