(* ===== verification/ChainReference.v ===== *)
(** * ChainReference: a concrete chain

    An executable instance of the chain: toy hashes and signatures, a
    database-backed ledger in which one account holds funds, and a genesis
    block with a signed transfer.  The theorems about the chain are applied to
    it. *)

From S2P Require Import Prelude Types Block Pow Error.
From S2P Require Import Storage DagStorage GhostDag.
From S2P Require Import Sponsorship PrivacyPool Recurring Governance Wallet Verkle.
From S2P Require Import Ledger BlockIndex Execution AccountFrame Chain ChainAccounts.

Module ChainReference.
Import BlockReference.
#[local] Existing Instance Reference.hex.
#[local] Existing Instance Reference.keccak.
#[local] Existing Instance PowReference.blake3.
#[local] Existing Instance BlockReference.crypto.
#[local] Existing Instance canonical_iter.
#[local] Existing Instance canonical_search.

#[local] Instance EvmLog_eq_dec : EqDecision EvmLog.
Proof. solve_decision. Defined.
#[local] Instance TxReceipt_eq_dec : EqDecision TxReceipt.
Proof. solve_decision. Defined.

(** An executor without effects. *)
#[local] Instance evm : Evm := {|
  EvmExecutor := unit;
  evm_execute := λ _ db _ _ _, (Ok (MkExec true 21000 [] []), (tt, db));
  evm_update_block_hash := λ _ _ _, tt |}.

Definition cpu : CpuFeatures := PowReference.avx2.
Definition clock : u64 := 1700000000.
Definition payment : Transaction := tx_sign transfer alice_key.
Definition genesis_header : BlockHeader := MkHeader [] 0 StreamA 1 clock 0 0 1 None None.
Definition genesis_block : Block :=
  let b := MkBlock genesis_header [payment] hash_zero None in
  MkBlock genesis_header [payment] (block_calculate_hash cpu [] b) None.

#[local] Instance block_codec : Codec Block := table_codec [genesis_block].
#[local] Instance hashes_codec : Codec (list Hash) := table_codec [[]].
#[local] Instance receipt_codec : Codec TxReceipt := table_codec [native_receipt].

Definition empty_ledger : Ledger := MkLedger (Some ∅) ∅ None.
Definition funded_ledger : Ledger := snd (set_balance alice 1000 empty_ledger).
Definition start : Blockchain := set_ledger funded_ledger new.

Lemma payment_ok : tx_ok payment.
Proof. split; first [reflexivity | vm_compute; split; discriminate | done]. Qed.

Lemma empty_view a : view empty_ledger a = (0, 0).
Proof. reflexivity. Qed.
Lemma funded_view a : address_wf a = true → view funded_ledger a = if decide (a = alice) then (1000, 0) else (0, 0).
Proof.
  intros Ha. destruct (set_balance_spec alice 1000 empty_ledger) as (l' & Hs & Hw & Hn); [done|reflexivity|mlia|].
  unfold funded_ledger. rewrite Hs. cbn [snd]. rewrite (surjective_pairing (view l' a)), (wr_balance _ _ _ _ Hw a Ha).
  destruct (decide _) as [->|Hne]; [by rewrite Hn|]. by rewrite (wr_nonce _ _ _ _ Hw a Ha Hne).
Qed.
Lemma funded_ok : ledger_ok funded_ledger.
Proof.
  split; [done|]. intros a Ha. rewrite funded_view by done. destruct (decide _); cbn; mlia.
Qed.
Lemma start_plain : plain start.
Proof. split; [done|apply funded_ok]. Qed.
Lemma start_native : Forall (native start) [payment].
Proof. repeat constructor. Qed.
Lemma genesis_typed : block_typed genesis_block start.
Proof.
  split; [repeat constructor; apply payment_ok|apply start_native|constructor|].
  intros a Ha. unfold nonce_of. cbn [start ledger set_ledger]. rewrite funded_view by done.
  destruct (decide _); vm_compute; discriminate.
Qed.

(** What the payment does to the accounts. *)
Lemma start_transfer :
  match spec_transfer payment (view (ledger start)) with
  | Ok v => v alice = (890, 1) ∧ v bob = (100, 0)
  | Err _ => False
  end.
Proof. vm_compute. split; reflexivity. Qed.

(** *** The theorems on this chain *)

Definition gift : GenesisAllocation :=
  {| ga_address := "0x0909090909090909090909090909090909090909"; ga_balance := 5000 |}.

Lemma genesis_allocations_spec_witness :
  view (snd (apply_genesis_allocations [gift] empty_ledger)) bob = (5000, 0).
Proof.
  destruct (apply_genesis_allocations [gift] empty_ledger) as [r l'] eqn:Hrun.
  assert (r = Ok tt) as -> by (change r with (fst (r, l')); rewrite <- Hrun; vm_compute; reflexivity).
  refine (proj1 (genesis_allocations_spec [gift] empty_ledger l' [bob] _ I empty_view _ _ _ _ Hrun) gift _);
    [repeat constructor; vm_compute; discriminate|vm_compute; repeat constructor; set_solver|
     vm_compute; repeat constructor; set_solver|intros ga ->%list_elem_of_singleton; vm_compute; left|
     repeat constructor|left].
Defined.

Lemma process_transaction_refines_witness :
  ∃ l', fst (process_transaction clock payment start) = Ok tt ∧
    snd (process_transaction clock payment start)
      = set_pool (privacy_pool (snd (register_deposit payment start))) (set_ledger l' start) ∧
    view l' alice = (890, 1) ∧ view l' bob = (100, 0).
Proof.
  destruct (process_transaction_refines clock payment start payment_ok (Forall_inv start_native) eq_refl funded_ok)
    as (r & l' & Hrun & Hspec). pose proof start_transfer as Hst.
  destruct (spec_transfer payment (view (ledger start))) as [v|]; [|destruct Hst].
  destruct Hspec as (-> & Hag & _). exists l'. rewrite Hrun. split; [reflexivity|]. split; [reflexivity|].
  rewrite !Hag by reflexivity. exact Hst.
Defined.

Lemma block_execution_refines_witness :
  ∃ c' v', snd (validate_and_process_transactions clock genesis_block start) = c' ∧
    spec_run (view (ledger start)) [payment] = Ok v' ∧ agrees (ledger c') v'.
Proof.
  destruct (block_execution_refines clock genesis_block start
    (Forall_cons_2 _ _ _ payment_ok (Forall_nil_2 _)) start_native funded_ok)
    as (r & c' & k & v' & Hrun & _ & Hs & _ & Hag & Hr).
  assert (fst (validate_and_process_transactions clock genesis_block start) = Ok tt) as Hok by (vm_compute; reflexivity).
  rewrite Hrun in Hok. cbn in Hok. subst r. destruct Hr as [-> _].
  exists c', v'. rewrite Hrun. split; [reflexivity|]. split; [exact Hs|exact Hag].
Defined.

Lemma block_conserves_supply_witness :
  supply (view (ledger (snd (validate_and_process_transactions clock genesis_block start)))) [alice; bob] = 990.
Proof.
  destruct (block_conserves_supply clock genesis_block start [alice; bob]
    (Forall_cons_2 _ _ _ payment_ok (Forall_nil_2 _)) start_native funded_ok) as (r & c' & Hrun & Hs & Hk);
    [vm_compute; repeat constructor; set_solver|repeat constructor|
     repeat constructor; vm_compute; set_solver|vm_compute; discriminate|].
  assert (fst (validate_and_process_transactions clock genesis_block start) = Ok tt) as Hok by (vm_compute; reflexivity).
  rewrite Hrun in Hok |- *. cbn in Hok. rewrite (Hk Hok) in Hs. cbn [snd]. rewrite Hs. vm_compute. reflexivity.
Defined.

(** A transfer out of Alice's account that nobody signed. *)
Definition unsigned : Transaction :=
  rehash (MkTx alice bob 100 10 0 [] 21000 hash_zero None None [] [] None None None None None None (Some [])).

Lemma multisig_list_bypasses_signatures_witness :
  verify_signature unsigned 5 = SigOk false ∧
  fst (execute_tx clock genesis_block unsigned start) = Ok tt.
Proof.
  split; [vm_compute; reflexivity|].
  destruct (multisig_list_bypasses_signatures clock genesis_block unsigned start []) as (c' & Hx & _).
  - split; first [reflexivity | vm_compute; split; discriminate | done].
  - split; [reflexivity|left; reflexivity].
  - apply funded_ok.
  - reflexivity.
  - reflexivity.
  - vm_compute; reflexivity.
  - reflexivity.
  - reflexivity.
  - reflexivity.
  - vm_compute; discriminate.
  - reflexivity.
  - vm_compute; discriminate.
  - split; [reflexivity|vm_compute; discriminate].
  - reflexivity.
  - reflexivity.
  - vm_compute; reflexivity.
  - vm_compute; discriminate.
  - rewrite Hx. reflexivity.
Defined.

Lemma clock_range : in_u64 clock ∧ clock + 602 <= u64_max ∧ clock + MAX_TIMESTAMP_DRIFT <= u64_max.
Proof. vm_compute. repeat split; discriminate. Qed.

Lemma validate_block_structure_spec_witness :
  validate_block_structure clock (blocks_data start) genesis_block = Ok tt.
Proof.
  apply (validate_block_structure_spec clock (blocks_data start) genesis_block); try apply clock_range.
  split; [eexists; split; [vm_compute; reflexivity|vm_compute; discriminate]|].
  split; [vm_compute; discriminate|]. rewrite decide_True by reflexivity. reflexivity.
Defined.

Lemma validate_block_enhanced_spec_witness :
  block_hash genesis_block = block_calculate_hash cpu [] genesis_block ∧
  validate_block_enhanced cpu [] clock (blocks_data start) genesis_block = Ok tt.
Proof.
  assert (validate_block_enhanced cpu [] clock (blocks_data start) genesis_block = Ok tt) as Hv
    by (vm_compute; reflexivity). split; [|exact Hv].
  apply (validate_block_enhanced_spec cpu [] clock (blocks_data start) genesis_block) in Hv;
    [apply Hv|apply clock_range|apply clock_range].
Defined.

(** The chain after its genesis block. *)
Definition grown : Blockchain := snd (add_block_impl 5 cpu [] clock genesis_block false start).
Lemma grown_ok : add_block_impl 5 cpu [] clock genesis_block false start = (Ok tt, grown).
Proof.
  assert (fst (add_block_impl 5 cpu [] clock genesis_block false start) = Ok tt) as Hr by (vm_compute; reflexivity).
  unfold grown. by destruct (add_block_impl 5 cpu [] clock genesis_block false start) as [r c']; cbn in *; subst r.
Qed.
Lemma grown_index : index_ok (blocks_data grown).
Proof.
  pose proof (add_block_run 5 cpu [] clock genesis_block false start) as (r & c' & Heq & Hr).
  rewrite grown_ok in Heq. apply pair_equal_spec in Heq as [<- <-]. destruct Hr as [_ (c0 & Ha & Hu)].
  rewrite Hu, (si_blocks _ _ (upkeep_index _ _)), (cm_blocks _ _ _ (accepted_committed _ _ _ _ _ Ha)).
  apply push_block_ok; [apply index_new|apply not_elem_of_empty].
Qed.


Lemma add_block_outcome_witness :
  get_block_by_hash grown (block_hash genesis_block) = Ok (Some genesis_block).
Proof.
  destruct (add_block_outcome 5 cpu [] clock genesis_block false start index_new) as (r & c' & Heq & Hr).
  rewrite grown_ok in Heq. apply pair_equal_spec in Heq as [<- <-].
  exact (proj1 (proj2 (proj2 Hr))).
Defined.

Lemma genesis_admissible : admissible cpu [] clock genesis_block false start.
Proof.
  split; [vm_compute; reflexivity|]. split; [intros Hn; discriminate Hn|].
  split; [apply not_elem_of_empty|vm_compute; reflexivity].
Qed.
Lemma sync_is_local_without_upkeep_witness :
  fst (add_block_for_sync 5 cpu [] clock genesis_block start) = Ok true.
Proof.
  pose proof (sync_is_local_without_upkeep 5 cpu [] clock genesis_block false start genesis_admissible
    ltac:(vm_compute; reflexivity)) as Hs.
  destruct (add_block_for_sync 5 cpu [] clock genesis_block start) as [[fresh|e] c'].
  - destruct Hs as [-> _]. reflexivity.
  - rewrite grown_ok in Hs. discriminate Hs.
Defined.

Lemma clear_for_resync_panics_witness :
  get_block_by_hash (clear_for_resync grown) (block_hash genesis_block) = Err (Panic "index out of bounds").
Proof.
  refine (proj1 (clear_for_resync_panics grown genesis_block grown_index _)).
  assert (blocks (blocks_data grown) = [genesis_block]) as -> by (vm_compute; reflexivity). left.
Defined.

Lemma grown_db : ∃ db, database (ledger grown) = Some db.
Proof.
  assert (match database (ledger grown) with Some _ => true | None => false end = true) as Hdb by (vm_compute; reflexivity).
  destruct (database (ledger grown)) as [db|]; [by exists db|done].
Qed.
Lemma accepted_block_survives_restart_witness :
  ∃ db, database (ledger grown) = Some db ∧ bs_get db (block_hash genesis_block) = Ok (Some genesis_block).
Proof.
  destruct grown_db as [db Hdb]. exists db. split; [exact Hdb|].
  refine (proj1 (accepted_block_survives_restart 5 cpu [] clock genesis_block false start grown db 4 None
    grown_ok Hdb _ _)); [vm_compute; reflexivity|lia].
Defined.

Lemma no_transaction_replays_witness : nonce payment < nonce_of grown alice.
Proof.
  assert (block_run_trace 5 cpu [] start ([] ++ [payment]) grown) as Htr.
  { eapply TraceStep; [constructor|].
    replace [payment] with (if add_checks cpu [] clock genesis_block false start
      then executed_of clock genesis_block start else []) by (vm_compute; reflexivity).
    exact (StepAdd 5 cpu [] clock genesis_block false start (Ok tt) grown genesis_typed grown_ok). }
  refine (proj2 (proj2 (proj2 (no_transaction_replays 5 cpu [] start _ grown start_plain Htr))) payment _). left.
Defined.

Definition rent : RecurringTransaction :=
  MkRecurring hash_zero alice bob 40 (Daily 0 0) 0 0 None 5 None 0 RtActive None None 0.
Lemma recurring_payment_effect_witness :
  (view (ledger (snd (pay_recurring 1 5 rent (set_ledger (MkLedger None {[alice := MkAccount 100 0]} None) new)))) bob).1 = 40.
Proof.
  set (c := set_ledger (MkLedger None {[alice := MkAccount 100 0]} None) new).
  destruct (recurring_payment_effect 1 5 rent c) as (c' & Hpay & _ & Hmem & _); [vm_compute; discriminate..|].
  rewrite Hpay. cbn [snd]. exact (proj2 (Hmem eq_refl eq_refl)).
Defined.
End ChainReference.
