(* ===== verification/Economics.v ===== *)
(** * Economics: rewards, base fee and block assembly

    Models the pure functions at the top of [irondag-blockchain/src/mining.rs]:
    the halving schedule of the block reward, the EIP-1559 base fee, the tip and
    fee of a transaction, and [trim_block_transactions], which cuts a candidate
    block down to the size limit.  Products and sums on [u128] wrap as in the
    release build; a division by zero is a panic. *)

From S2P Require Import Prelude Types Block Pow Error BlockIndex.

Definition STREAM_A_REWARD : u128 := 50000000000000000000.
Definition STREAM_B_REWARD : u128 := 25000000000000000000.
Definition STREAM_C_REWARD : u128 := 0.
Definition HALVING_INTERVAL : u64 := 12614400.
Definition MAX_SUPPLY : u128 := 10000000000000000000000000000.

Definition get_block_reward (block_height : u64) (stream : StreamType) : u128 :=
  let era := block_height / HALVING_INTERVAL in
  match stream with
  | StreamC => 0
  | StreamA => if 64 <=? era then 0 else Z.shiftr STREAM_A_REWARD era
  | StreamB => if 64 <=? era then 0 else Z.shiftr STREAM_B_REWARD era
  end.

Definition STREAM_A_MAX_TXS : usize := 10000.
Definition STREAM_B_MAX_TXS : usize := 5000.
Definition STREAM_C_MAX_TXS : usize := 1000.

(** ** The base fee *)

Definition BASE_FEE_INITIAL : u128 := 1000000000.
Definition BASE_FEE_MAX_CHANGE_DENOMINATOR : u128 := 8.
Definition ELASTICITY_MULTIPLIER : u64 := 2.
Definition STREAM_A_GAS_LIMIT : u64 := 30000000.
Definition STREAM_B_GAS_LIMIT : u64 := 15000000.
Definition STREAM_C_GAS_LIMIT : u64 := 3000000.

(** [a * b] on [u128] in a release build. *)
Definition mul128 (a b : u128) : u128 := (a * b) mod (u128_max + 1).

Definition calculate_base_fee (parent_base_fee : u128) (parent_gas_used parent_gas_limit : u64) :
    result BlockchainError u128 :=
  let target := parent_gas_limit / ELASTICITY_MULTIPLIER in
  if parent_gas_used =? target then Ok parent_base_fee
  else if target =? 0 then Err (Panic "attempt to divide by zero")
  else if target <? parent_gas_used then
    let delta := mul128 parent_base_fee (parent_gas_used - target) / target / BASE_FEE_MAX_CHANGE_DENOMINATOR in
    Ok (add128 parent_base_fee (Z.max delta 1))
  else
    let delta := mul128 parent_base_fee (target - parent_gas_used) / target / BASE_FEE_MAX_CHANGE_DENOMINATOR in
    Ok (sat_sub parent_base_fee delta).

(** [tx.fee / tx.gas_limit], 0 without gas. *)
Definition gas_price (t : Transaction) : u128 := if 0 <? gas_limit t then fee t / gas_limit t else 0.

Definition calculate_effective_tip (t : Transaction) (base_fee : u128) : u128 :=
  match max_fee_per_gas t with
  | Some max_fee => Z.min (default 0 (max_priority_fee_per_gas t)) (sat_sub max_fee base_fee)
  | None => sat_sub (gas_price t) base_fee
  end.

Definition calculate_total_fee (t : Transaction) (base_fee : u128) : u128 :=
  match max_fee_per_gas t with
  | Some max_fee =>
      mul128 (Z.min max_fee (add128 base_fee (default 0 (max_priority_fee_per_gas t)))) (gas_limit t)
  | None => fee t
  end.

Definition can_afford_base_fee (t : Transaction) (base_fee : u128) : bool :=
  match max_fee_per_gas t with
  | Some max_fee => base_fee <=? max_fee
  | None => base_fee <=? gas_price t
  end.

(** The fees of a mined block: base fee (burned), miner's and burned half of
    the tips. *)
Definition tx_fees (base_fee : u128) (acc : u128 * u128) (t : Transaction) : u128 * u128 :=
  (add128 acc.1 (mul128 base_fee (gas_limit t)),
   add128 acc.2 (mul128 (calculate_effective_tip t base_fee) (gas_limit t))).
Definition block_fees (b : Block) : u128 * u128 :=
  foldl (tx_fees (base_fee_per_gas (header b))) (0, 0) (transactions b).
Definition miner_priority_share (b : Block) : u128 := (block_fees b).2 / 2.
Definition total_burned (b : Block) : u128 :=
  add128 (block_fees b).1 ((block_fees b).2 - miner_priority_share b).
Definition total_miner_reward (b : Block) (number : u64) (stream : StreamType) : u128 :=
  sat_add128 (get_block_reward number stream) (miner_priority_share b).

(** ** Fitting a block into the size limit *)

Section Trim.
Context `{Keccak, Blake3, Codec Block}.

(** [Block::new] *)
Definition block_new (cpu : CpuFeatures) (buffer : list u8) (h : BlockHeader) (txs : list Transaction) : Block :=
  MkBlock h txs (block_calculate_hash cpu buffer (MkBlock h txs hash_zero None)) None.

(** The size of a block with the given transactions; [None] when it cannot
    be encoded. *)
Definition assembled_size (cpu : CpuFeatures) (buffer : list u8) (h : BlockHeader) (txs : list Transaction) :
    option nat :=
  length <$> serialize (block_new cpu buffer h txs).

(** [while low <= high { .. }]; [None] when the fuel runs out. *)
Fixpoint trim_search (size : nat → option nat) (max : nat) (fuel low high best_fit : nat) : option nat :=
  if (high <? low)%nat then Some best_fit else
  match fuel with
  | O => None
  | S fuel' =>
      let mid := ((low + high) / 2)%nat in
      match size mid with
      | None => Some best_fit
      | Some n =>
          if (n <=? max)%nat then trim_search size max fuel' (mid + 1) high mid
          else trim_search size max fuel' low (mid - 1) best_fit
      end
  end.

Definition MAX_SIZE : nat := Z.to_nat MAX_BLOCK_SIZE.

Definition estimated_count (total count : nat) : nat :=
  let avg := (total / count)%nat in
  let header_size := (total - avg * count)%nat in
  Nat.max ((MAX_SIZE - header_size) / Nat.max avg 1) 1.

Definition trim_block_transactions (cpu : CpuFeatures) (buffer : list u8) (h : BlockHeader)
    (txs : list Transaction) : option (list Transaction) :=
  match txs with
  | [] => Some []
  | _ =>
      match assembled_size cpu buffer h txs with
      | Some total =>
          if (total <=? MAX_SIZE)%nat then Some txs else
          let high := Nat.min (estimated_count total (length txs)) (length txs) in
          best_fit ← trim_search (λ n, assembled_size cpu buffer h (take n txs)) MAX_SIZE (S (length txs)) 1 high 1;
          Some (take best_fit txs)
      | None => Some (take (Nat.max (length txs / 2) 1) txs)
      end
  end.
End Trim.

(** ** The emission schedule *)

(** Reward of the heights below [n] on one stream. *)
Definition emitted (stream : StreamType) (n : nat) : Z :=
  foldr (λ h, Z.add (get_block_reward (Z.of_nat h) stream)) 0 (seq 0 n).

Lemma emitted_S s n : emitted s (S n) = emitted s n + get_block_reward (Z.of_nat n) s.
Proof.
  unfold emitted. rewrite seq_S, foldr_app. cbn [foldr].
  change (0 + n)%nat with n. generalize (get_block_reward (Z.of_nat n) s). intros r.
  induction (seq 0 n) as [|h l IH]; cbn [foldr]; [lia|]. rewrite IH. lia.
Qed.

Lemma emitted_le base s n :
  0 <= base →
  (∀ h, 0 <= h → get_block_reward h s <= Z.shiftr base (h / HALVING_INTERVAL)) →
  emitted s n <= 2 * HALVING_INTERVAL * (base - Z.shiftr base (Z.of_nat n / HALVING_INTERVAL))
                 + (Z.of_nat n mod HALVING_INTERVAL) * Z.shiftr base (Z.of_nat n / HALVING_INTERVAL).
Proof.
  intros Hb Hr. set (I := HALVING_INTERVAL) in *. assert (0 < I) as HI by done. induction n as [|n IH].
  { rewrite Z.div_0_l, Z.mod_0_l, Z.shiftr_0_r by lia. change (emitted s 0) with 0. lia. }
  rewrite emitted_S. pose proof (Hr (Z.of_nat n) ltac:(lia)) as Hn.
  set (k := Z.of_nat n / I) in *. set (j := Z.of_nat n mod I) in *.
  assert (Z.of_nat n = I * k + j ∧ 0 <= j < I ∧ 0 <= k) as (Hdiv & Hj & Hk).
  { unfold k, j. split_and!; [apply Z.div_mod; lia|apply Z.mod_pos_bound; lia..|apply Z.div_pos; lia]. }
  assert (0 <= Z.shiftr base k) as Hs by (by apply Z.shiftr_nonneg).
  destruct (decide (j + 1 = I)) as [Heq|Hne].
  - assert (Z.of_nat (S n) = I * (k + 1)) as -> by lia.
    rewrite (Z.mul_comm I (k + 1)), Z.div_mul, Z.mod_mul by lia.
    assert (2 * Z.shiftr base (k + 1) <= Z.shiftr base k) as Hhalf.
    { rewrite <- Z.shiftr_shiftr by lia. rewrite (Z.shiftr_div_pow2 (Z.shiftr base k) 1) by lia.
      pose proof (Z.mul_div_le (Z.shiftr base k) 2). cbn [Z.pow]. change (2 ^ 1) with 2. lia. }
    nia.
  - assert (Z.of_nat (S n) / I = k) as ->.
    { symmetry. apply (Z.div_unique _ _ _ (j + 1)); lia. }
    assert (Z.of_nat (S n) mod I = j + 1) as ->.
    { symmetry. apply (Z.mod_unique _ _ k); lia. }
    nia.
Qed.

Lemma reward_le h s base :
  0 <= h → (s = StreamA ∧ base = STREAM_A_REWARD ∨ s = StreamB ∧ base = STREAM_B_REWARD ∨ s = StreamC ∧ base = 0) →
  get_block_reward h s <= Z.shiftr base (h / HALVING_INTERVAL).
Proof.
  intros Hh Hs. assert (0 <= h / HALVING_INTERVAL) as He by (by apply Z.div_pos).
  destruct Hs as [[-> ->]|[[-> ->]|[-> ->]]]; unfold get_block_reward; [..|by rewrite Z.shiftr_0_l];
    destruct (64 <=? _); try lia; by apply Z.shiftr_nonneg.
Qed.

Lemma emitted_bound s base n :
  0 <= base → (s = StreamA ∧ base = STREAM_A_REWARD ∨ s = StreamB ∧ base = STREAM_B_REWARD ∨ s = StreamC ∧ base = 0) →
  emitted s n <= 2 * HALVING_INTERVAL * base.
Proof.
  intros Hb Hs. pose proof (emitted_le base s n Hb (λ h Hh, reward_le h s base Hh Hs)) as Hle.
  assert (0 <= Z.shiftr base (Z.of_nat n / HALVING_INTERVAL)) by (by apply Z.shiftr_nonneg).
  pose proof (Z.mod_pos_bound (Z.of_nat n) HALVING_INTERVAL ltac:(done)). nia.
Qed.

(** The rewards never increase with the height, and even if every height were
    rewarded on all three streams for ever, they would add up to less than a
    fifth of the maximal supply. *)
Theorem emission_bounded n h1 h2 s :
  0 <= h1 <= h2 →
  0 <= get_block_reward h2 s <= get_block_reward h1 s ∧
  emitted StreamA n + emitted StreamB n + emitted StreamC n < MAX_SUPPLY / 5.
Proof.
  intros Hh. split.
  - assert (0 <= h1 / HALVING_INTERVAL <= h2 / HALVING_INTERVAL) as He
      by (split; [apply Z.div_pos|apply Z.div_le_mono]; unfold HALVING_INTERVAL; lia).
    assert (∀ base, 0 <= base → 0 <= (if 64 <=? h2 / HALVING_INTERVAL then 0 else Z.shiftr base (h2 / HALVING_INTERVAL))
      <= (if 64 <=? h1 / HALVING_INTERVAL then 0 else Z.shiftr base (h1 / HALVING_INTERVAL))) as Hmono.
    { intros base Hb.
      assert (∀ k, 0 <= Z.shiftr base k) as Hpos by (intros k; by apply Z.shiftr_nonneg).
      assert (Z.shiftr base (h2 / HALVING_INTERVAL) <= Z.shiftr base (h1 / HALVING_INTERVAL)) as Hle.
      { rewrite !Z.shiftr_div_pow2 by lia. apply Z.div_le_compat_l; [done|].
        split; [apply Z.pow_pos_nonneg; lia|apply Z.pow_le_mono_r; lia]. }
      destruct (64 <=? h2 / _) eqn:H2, (64 <=? h1 / _) eqn:H1; bool_to_prop;
        pose proof (Hpos (h1 / HALVING_INTERVAL)); pose proof (Hpos (h2 / HALVING_INTERVAL)); lia. }
    destruct s; [apply (Hmono STREAM_A_REWARD)|apply (Hmono STREAM_B_REWARD)|cbn; lia]; vm_compute; discriminate.
  - pose proof (emitted_bound StreamA STREAM_A_REWARD n ltac:(vm_compute; discriminate) ltac:(auto)).
    pose proof (emitted_bound StreamB STREAM_B_REWARD n ltac:(vm_compute; discriminate) ltac:(auto)).
    pose proof (emitted_bound StreamC 0 n ltac:(vm_compute; discriminate) ltac:(auto)).
    assert (2 * HALVING_INTERVAL * STREAM_A_REWARD + 2 * HALVING_INTERVAL * STREAM_B_REWARD < MAX_SUPPLY / 5)
      by reflexivity. lia.
Qed.

(** ** The base fee *)

Lemma mul128_small a b : 0 <= a * b <= u128_max → mul128 a b = a * b.
Proof. intros. unfold mul128. apply Z.mod_small. mlia. Qed.

(** The step of the base fee: unchanged at the target; below it, it falls by
    at most an eighth and does not rise; above it, it rises by at least one
    and, for a parent that used at most its gas limit, by at most an eighth or
    one.  The arithmetic does not overflow for fees below 2^64. *)
Theorem base_fee_step fee used limit :
  0 <= fee <= u64_max → 0 <= used <= u64_max → 2 <= limit <= u64_max →
  ∃ fee', calculate_base_fee fee used limit = Ok fee' ∧
    (used = limit / 2 → fee' = fee) ∧
    (used < limit / 2 → fee - fee / 8 <= fee' <= fee) ∧
    (limit / 2 < used → fee < fee') ∧
    (limit / 2 < used <= 2 * (limit / 2) → fee' <= fee + Z.max (fee / 8) 1).
Proof.
  intros Hf Hu Hl. unfold calculate_base_fee, ELASTICITY_MULTIPLIER, BASE_FEE_MAX_CHANGE_DENOMINATOR.
  assert (1 <= limit / 2 <= u64_max) as Ht.
  { split; [apply Z.div_le_lower_bound; lia|]. apply Z.div_le_upper_bound; mlia. }
  set (t := limit / 2) in *.
  destruct (used =? t) eqn:Heq; bool_to_prop; [exists fee; split; [done|lia]|].
  rewrite (proj2 (Z.eqb_neq t 0)) by lia.
  assert (∀ d, 0 <= d <= u64_max → mul128 fee d / t / 8 = fee * d / t / 8) as Hm.
  { intros d Hd. rewrite mul128_small; [done|]. unfold u128_max, u64_max in *. nia. }
  assert (∀ d, 0 <= d <= t → 0 <= fee * d / t / 8 <= fee / 8) as Hcap.
  { intros d Hd. split.
    - apply Z.div_pos; [|lia]. apply Z.div_pos; [|lia]. nia.
    - apply Z.div_le_mono; [lia|]. apply Z.div_le_upper_bound; [lia|]. nia. }
  destruct (t <? used) eqn:Hlt; bool_to_prop.
  - rewrite Hm by lia. set (delta := fee * (used - t) / t / 8).
    assert (0 <= delta <= u64_max * u64_max) as Hd.
    { unfold delta. split; [apply Z.div_pos; [|lia]; apply Z.div_pos; [|lia]; nia|].
      apply Z.div_le_upper_bound; [lia|]. apply Z.div_le_upper_bound; [lia|]. nia. }
    eexists. split; [done|]. rewrite add128_small by (unfold u128_max, u64_max in *; lia).
    split_and!; try lia. intros Hle. pose proof (Hcap (used - t) ltac:(lia)). fold delta in H. lia.
  - rewrite Hm by lia. pose proof (Hcap (t - used) ltac:(lia)). eexists. split; [done|]. unfold sat_sub. lia.
Qed.

(** Nothing bounds the gas limits a block adds up to: a parent that used [n + 1]
    times its target multiplies the base fee by almost [n / 8]. *)
Lemma base_fee_unbounded_step fee limit n :
  0 <= fee <= u64_max → 2 <= limit <= u64_max → 1 <= n → (n + 1) * (limit / 2) <= u64_max →
  calculate_base_fee fee ((n + 1) * (limit / 2)) limit = Ok (fee + Z.max (fee * n / 8) 1).
Proof.
  intros Hf Hl Hn Hmax. unfold calculate_base_fee, ELASTICITY_MULTIPLIER, BASE_FEE_MAX_CHANGE_DENOMINATOR.
  assert (1 <= limit / 2) as Ht by (apply Z.div_le_lower_bound; lia). set (t := limit / 2) in *.
  rewrite (proj2 (Z.eqb_neq _ t)), (proj2 (Z.eqb_neq t 0)), (proj2 (Z.ltb_lt t _)) by nia.
  replace ((n + 1) * t - t) with (n * t) by lia.
  assert (0 <= fee * n <= u64_max * u64_max) as Hfn by nia.
  rewrite mul128_small by (unfold u128_max, u64_max in *; nia).
  replace (fee * (n * t)) with (fee * n * t) by lia. rewrite Z.div_mul by lia. f_equal.
  apply add128_small. assert (0 <= fee * n / 8 <= fee * n) by (split; [apply Z.div_pos; lia|apply Z.div_le_upper_bound; lia]).
  unfold u128_max, u64_max in *. lia.
Qed.

(** ** Tips and fees *)

(** What a transaction pays per gas never exceeds what its sender offered,
    and covers base fee and tip when it can afford the base fee. *)
Theorem effective_tip_within_offer t base_fee :
  0 <= base_fee → 0 <= fee t → 0 <= gas_limit t →
  (∀ p, max_priority_fee_per_gas t = Some p → 0 <= p) →
  0 <= calculate_effective_tip t base_fee ∧
  (can_afford_base_fee t base_fee = true →
   base_fee + calculate_effective_tip t base_fee
   <= match max_fee_per_gas t with Some m => m | None => gas_price t end) ∧
  (can_afford_base_fee t base_fee = true → max_fee_per_gas t = None →
   (base_fee + calculate_effective_tip t base_fee) * gas_limit t <= fee t).
Proof.
  intros Hb Hf Hg Hp. unfold calculate_effective_tip, can_afford_base_fee, sat_sub.
  assert (0 <= gas_price t ∧ gas_price t * gas_limit t <= fee t) as [Hgp Hgf].
  { unfold gas_price. destruct (0 <? gas_limit t) eqn:Hz; bool_to_prop; [|lia]. split; [by apply Z.div_pos|].
    pose proof (Z.mul_div_le (fee t) (gas_limit t) Hz). lia. }
  destruct (max_fee_per_gas t) as [m|].
  - assert (0 <= default 0 (max_priority_fee_per_gas t)) as Hd.
    { destruct (max_priority_fee_per_gas t) as [p|]; [|done]. cbn. by apply Hp. }
    split_and!; [lia| |done]. intros Ha. bool_to_prop. lia.
  - split_and!; [lia|intros Ha; bool_to_prop; lia|]. intros Ha _. bool_to_prop.
    replace (base_fee + Z.max 0 (gas_price t - base_fee)) with (gas_price t) by lia. done.
Qed.

(** ** Fitting a block into the size limit *)

(** The search ends within the distance of its bounds and returns the start
    value or a probe that fits; with sizes that grow with the number of
    transactions, nothing between the result and [high] fits. *)
Lemma trim_search_spec size max fuel low high best :
  (1 <= low)%nat → (high + 1 - low <= fuel)%nat →
  ∃ k, trim_search size max fuel low high best = Some k ∧
    (k = best ∨ (low <= k <= high)%nat ∧ ∃ n, size k = Some n ∧ (n <= max)%nat) ∧
    ((∀ i, (i <= high)%nat → is_Some (size i)) →
     (∀ i j m n, (i <= j)%nat → size i = Some m → size j = Some n → (m <= n)%nat) →
     ∀ j n, (k < j)%nat → (low <= j <= high)%nat → size j = Some n → (max < n)%nat).
Proof.
  revert low high best. induction fuel as [|fuel IH]; intros low high best Hlow Hfuel.
  { exists best. cbn [trim_search]. rewrite (proj2 (Nat.ltb_lt _ _)) by lia. split_and!; [done|by left|]. intros; lia. }
  cbn [trim_search]. destruct (high <? low)%nat eqn:Hlt.
  { apply Nat.ltb_lt in Hlt. exists best. split_and!; [done|by left|]. intros; lia. }
  apply Nat.ltb_ge in Hlt. set (mid := ((low + high) / 2)%nat).
  assert (low <= mid <= high)%nat as Hmid.
  { unfold mid. split; [apply Nat.div_le_lower_bound; lia|apply Nat.div_le_upper_bound; lia]. }
  destruct (size mid) as [n|] eqn:Hn.
  2:{ exists best. split_and!; [done|by left|]. intros Hall. destruct (Hall mid ltac:(lia)) as [? Hs]. congruence. }
  destruct (n <=? max)%nat eqn:Hfit.
  - apply Nat.leb_le in Hfit. destruct (IH (mid + 1)%nat high mid) as (k & Hk & Hor & Hmax); [lia..|].
    exists k. split; [done|]. split.
    + right. destruct Hor as [->|[Hb Hs]]; [split; [lia|eauto]|split; [lia|done]].
    + intros Hall Hmono j m Hj Hr. apply Hmax; [done..|]. destruct Hor as [->|[? _]]; lia.
  - apply Nat.leb_gt in Hfit. destruct (IH low (mid - 1)%nat best) as (k & Hk & Hor & Hmax); [lia..|].
    exists k. split; [done|]. split; [destruct Hor as [?|[? ?]]; [by left|right; split; [lia|done]]|].
    intros Hall Hmono j m Hj Hr Hm. destruct (decide (j <= mid - 1)%nat) as [Hle|Hgt].
    + eapply Hmax; [|exact Hmono|exact Hj|lia|exact Hm]. intros i Hi. apply Hall. lia.
    + pose proof (Hmono mid j n m ltac:(lia) Hn Hm). lia.
Qed.

Section TrimTheorems.
Context `{Keccak, Blake3, Codec Block}.

(** [trim_block_transactions] terminates and returns a prefix of its input,
    never empty for a non-empty one; the block fits the size limit unless a
    single transaction was kept or the candidate could not be encoded at all,
    and when everything fits nothing is dropped.  When the size of a block
    grows with its transactions, no longer prefix up to the estimated count
    would have fitted. *)
Theorem trim_block_fits cpu buffer h txs :
  ∃ k, trim_block_transactions cpu buffer h txs = Some (take k txs) ∧
    (txs ≠ [] → (1 <= k <= length txs)%nat) ∧
    (∀ total, assembled_size cpu buffer h txs = Some total →
      ((total <= MAX_SIZE)%nat → k = length txs) ∧
      (k = 1%nat ∨ txs = [] ∨ ∃ n, assembled_size cpu buffer h (take k txs) = Some n ∧ (n <= MAX_SIZE)%nat) ∧
      ((∀ i, is_Some (assembled_size cpu buffer h (take i txs))) →
       (∀ i j m n, (i <= j)%nat → assembled_size cpu buffer h (take i txs) = Some m →
          assembled_size cpu buffer h (take j txs) = Some n → (m <= n)%nat) →
       ∀ j n, (k < j <= Nat.min (estimated_count total (length txs)) (length txs))%nat →
         assembled_size cpu buffer h (take j txs) = Some n → (MAX_SIZE < n)%nat)).
Proof.
  unfold trim_block_transactions. destruct txs as [|t txs'].
  { exists 0%nat. split_and!; try done. intros total Ht. split_and!; [done|auto|].
    intros _ _ j n Hj. cbn in Hj. lia. }
  set (txs := t :: txs'). assert (1 <= length txs)%nat as Hlen by (cbn; lia).
  destruct (assembled_size cpu buffer h txs) as [total|] eqn:Hs.
  2:{ exists (Nat.max (length txs / 2) 1). split_and!; [done| |done]. intros _.
      pose proof (Nat.div_le_upper_bound (length txs) 2 (length txs)). lia. }
  destruct (total <=? MAX_SIZE)%nat eqn:Hfit.
  { apply Nat.leb_le in Hfit. exists (length txs). rewrite firstn_all. split_and!; [done|lia|].
    intros total' [= <-]. split_and!; [done| |].
    - right. right. by exists total.
    - intros _ _ j n Hj. lia. }
  apply Nat.leb_gt in Hfit. set (high := Nat.min _ _).
  assert (1 <= high <= length txs)%nat as Hhigh by (unfold high, estimated_count; lia).
  destruct (trim_search_spec (λ n, assembled_size cpu buffer h (take n txs)) MAX_SIZE (S (length txs)) 1 high 1)
    as (k & Hk & Hor & Hmax); [lia..|].
  rewrite Hk. exists k. split; [done|]. split; [intros _; destruct Hor as [->|[? _]]; lia|].
  intros total' [= <-]. split_and!; [intros Hle; clear -Hfit Hle; lia| |].
  - destruct Hor as [->|[_ Hf]]; [by left|by right; right].
  - intros Hall Hmono j n Hj Hn. apply (Hmax (λ i _, Hall i) Hmono j n); [lia|fold high in Hj; destruct Hor; lia|exact Hn].
Qed.
End TrimTheorems.

(** ** Concrete runs *)

Module EconomicsReference.
#[local] Existing Instance Reference.keccak.
#[local] Existing Instance PowReference.blake3.
#[local] Existing Instance BlockReference.crypto.

Lemma emission_bounded_witness : get_block_reward 12614400 StreamA = 25000000000000000000 ∧
  get_block_reward 12614400 StreamA <= get_block_reward 7 StreamA.
Proof.
  split; [vm_compute; reflexivity|].
  refine (proj2 (proj1 (emission_bounded 3 7 12614400 StreamA _))). lia.
Defined.

Lemma base_fee_step_witness : ∃ f, calculate_base_fee 1000 20000000 30000000 = Ok f ∧ f <= 1125.
Proof.
  destruct (base_fee_step 1000 20000000 30000000) as (f & Hf & _ & _ & _ & Hcap); [vm_compute; split; discriminate..|].
  exists f. split; [exact Hf|]. apply Hcap. vm_compute. split; [reflexivity|discriminate].
Defined.

(** A full block of contract calls multiplies the base fee by 1250. *)
Example base_fee_jump : calculate_base_fee 1000 (10000 * 30000000) STREAM_A_GAS_LIMIT = Ok 2500875.
Proof. vm_compute. reflexivity. Qed.

Definition paid : Transaction := tx_new BlockReference.alice BlockReference.bob 100 42000 0.
Lemma effective_tip_within_offer_witness : (1 + calculate_effective_tip paid 1) * 21000 <= 42000.
Proof.
  refine (proj2 (proj2 (effective_tip_within_offer paid 1 _ _ _ _)) _ _);
    [lia|vm_compute; discriminate|vm_compute; discriminate|intros p Hp; discriminate Hp|vm_compute; reflexivity|reflexivity].
Defined.
End EconomicsReference.
