(* ===== verification/Messaging.v ===== *)
(** * Messaging: messages between shards

    Models [irondag-blockchain/src/sharding/async_messaging.rs]: the bounded
    channel of each shard, the receipt store, the write-ahead log of sent
    receipts and its replay, and the batching loop over received messages.

    A [tokio::sync::mpsc] channel is the list of messages not yet received;
    [taken] records that the receiving end was handed out.  The log is the
    content of its file, and its writes succeed. *)

From S2P Require Import Prelude Types Error.

Definition MAX_CHANNEL_DEPTH : usize := 10000.
Definition BATCH_SIZE : usize := 100.

(** The payload of [CrossShardMessage::Receipt]. *)
Record ReceiptMsg := MkReceiptMsg {
  rm_tx_hash : Hash; rm_receipt_id : Hash; rm_source : nat; rm_target : nat;
  rm_value : u128; rm_to : Address; rm_height : u64 }.

Inductive CrossShardMessage :=
  | ReceiptM (m : ReceiptMsg)
  | ReceiptAck (receipt_id : Hash) (success : bool)
  | StateSync (shard_id : nat) (block_number : u64).

Inductive ReceiptStatus := RPending | RProcessed | RFailed.

#[global] Instance ReceiptStatus_eq_dec : EqDecision ReceiptStatus.
Proof. solve_decision. Defined.

Record Receipt := MkStoredReceipt {
  rc_msg : ReceiptMsg; rc_status : ReceiptStatus; rc_created_at : u64 }.

(** ** The receipt store *)

Abbreviation ReceiptStore := (gmap Hash Receipt).

Definition store_receipt_in (r : Receipt) (s : ReceiptStore) : ReceiptStore :=
  <[rm_receipt_id (rc_msg r) := r]> s.
Definition get_receipt (s : ReceiptStore) (id : Hash) : option Receipt := s !! id.

Definition set_status (st : ReceiptStatus) (r : Receipt) : Receipt :=
  MkStoredReceipt (rc_msg r) st (rc_created_at r).
Definition mark_processed (id : Hash) (s : ReceiptStore) : ReceiptStore := alter (set_status RProcessed) id s.
Definition mark_failed (id : Hash) (s : ReceiptStore) : ReceiptStore := alter (set_status RFailed) id s.

Definition store_receipts_batch (rs : list Receipt) (s : ReceiptStore) : ReceiptStore :=
  foldl (λ s r, store_receipt_in r s) s rs.
Definition update_statuses_batch (us : list (Hash * ReceiptStatus)) (s : ReceiptStore) : ReceiptStore :=
  foldl (λ s u, alter (set_status u.2) u.1 s) s us.

(** ** Channels *)

Record Channel := MkChannel { queue : list CrossShardMessage; taken : bool; closed : bool }.

Definition channel_new : Channel := MkChannel [] false false.

Inductive SendError :=
  | ChannelFull (target : nat)
  | ChannelClosed (target : nat)
  | InvalidTarget (target : nat).

(** [sender.try_send(message)] *)
Definition try_send (target : nat) (m : CrossShardMessage) (ch : Channel) : result SendError Channel :=
  if closed ch then Err (ChannelClosed target)
  else if MAX_CHANNEL_DEPTH <=? Z.of_nat (length (queue ch)) then Err (ChannelFull target)
  else Ok (MkChannel (queue ch ++ [m]) (taken ch) (closed ch)).

Record MessageProcessor := MkProcessor {
  receipt_store : ReceiptStore;
  channels : list Channel;
  wal : option (list u8) }.

Definition set_channel (i : nat) (ch : Channel) (p : MessageProcessor) : MessageProcessor :=
  MkProcessor (receipt_store p) (<[i := ch]> (channels p)) (wal p).
Definition set_receipts (s : ReceiptStore) (p : MessageProcessor) : MessageProcessor :=
  MkProcessor s (channels p) (wal p).

Definition new_inner (shard_count : nat) (file : option (list u8)) : MessageProcessor :=
  MkProcessor ∅ (replicate shard_count channel_new) file.
Definition processor_new (shard_count : nat) : MessageProcessor := new_inner shard_count None.
(** The log is appended to: what the file holds already stays. *)
Definition with_wal (shard_count : nat) (file : list u8) : MessageProcessor :=
  new_inner shard_count (Some file).
Definition has_wal (p : MessageProcessor) : bool := bool_decide (is_Some (wal p)).

(** Hand out the receiving end, once. *)
Definition take_receiver (i : nat) (p : MessageProcessor) : option (list CrossShardMessage) * MessageProcessor :=
  match channels p !! i with
  | Some ch =>
      if taken ch then (None, p) else (Some (queue ch), set_channel i (MkChannel (queue ch) true (closed ch)) p)
  | None => (None, p)
  end.

(** [receiver.recv()] on a channel that holds a message. *)
Definition recv (i : nat) (p : MessageProcessor) : option (CrossShardMessage * MessageProcessor) :=
  match channels p !! i with
  | Some (MkChannel (m :: q) t c) => Some (m, set_channel i (MkChannel q t c) p)
  | _ => None
  end.

Abbreviation PM := (SE MessageProcessor SendError).

(** The channel of [target], if there is one, gets [m]. *)
Definition enqueue (target : nat) (m : CrossShardMessage) : PM unit := λ p,
  match channels p !! target with
  | Some ch =>
      match try_send target m ch with
      | Ok ch' => (Ok tt, set_channel target ch' p)
      | Err e => (Err e, p)
      end
  | None => (Err (InvalidTarget target), p)
  end.

Section Wal.
Context `{Codec CrossShardMessage}.

Definition u32_size : Z := 4294967296.

(** [len as u32] in four bytes, then the encoded message. *)
Definition wal_frame (m : CrossShardMessage) : list u8 :=
  match serialize m with
  | Some bytes => to_le_bytes 4 (Z.of_nat (length bytes) mod u32_size) ++ bytes
  | None => []
  end.
Definition append_wal (m : CrossShardMessage) (p : MessageProcessor) : MessageProcessor :=
  MkProcessor (receipt_store p) (channels p) ((λ w, w ++ wal_frame m) <$> wal p).

Definition send_receipt (m : ReceiptMsg) : PM unit :=
  p ← se_get;
  match channels p !! rm_target m with
  | Some _ => _ ← se_mod (append_wal (ReceiptM m)); enqueue (rm_target m) (ReceiptM m)
  | None => λ p, (Err (InvalidTarget (rm_target m)), p)
  end.

Definition send_state_sync (target shard_id : nat) (block_number : u64) : PM unit :=
  enqueue target (StateSync shard_id block_number).

(** The frames of the log, in order, each decoded or not.  A frame takes at
    least four bytes, so the length of the data is enough fuel. *)
Fixpoint wal_entries (fuel : nat) (data : list u8) : list (option CrossShardMessage) :=
  match fuel with
  | O => []
  | S fuel' =>
      if (length data <? 4)%nat then [] else
      let len := Z.to_nat (from_le_bytes (take 4 data)) in
      let rest := drop 4 data in
      if (length rest <? len)%nat then [] else
      deserialize (take len rest) :: wal_entries fuel' (drop len rest)
  end.

Definition replay_entry (acc : nat * MessageProcessor) (e : option CrossShardMessage) : nat * MessageProcessor :=
  match e with
  | Some (ReceiptM m) => (S acc.1, (send_receipt m acc.2).2)
  | _ => acc
  end.
Definition replay_wal (p : MessageProcessor) : nat * MessageProcessor :=
  match wal p with
  | None => (O, p)
  | Some data => foldl replay_entry (O, p) (wal_entries (length data) data)
  end.
End Wal.

(** ** Batches *)

Definition receipt_of (now : u64) (m : CrossShardMessage) : option Receipt :=
  match m with ReceiptM r => Some (MkStoredReceipt r RPending now) | _ => None end.
Definition apply_ack (s : ReceiptStore) (m : CrossShardMessage) : ReceiptStore :=
  match m with
  | ReceiptAck id success => if success then mark_processed id s else mark_failed id s
  | _ => s
  end.
Definition status_update (process_receipt : Receipt → bool) (r : Receipt) : Hash * ReceiptStatus :=
  (rm_receipt_id (rc_msg r), if process_receipt r then RProcessed else RFailed).

(** [process_receipt r] is the outcome of the task spawned for [r]. *)
Definition process_batch (now : u64) (process_receipt : Receipt → bool) (messages : list CrossShardMessage)
    (s : ReceiptStore) : ReceiptStore :=
  let s1 := foldl apply_ack s messages in
  let rs := omap (receipt_of now) messages in
  match rs with
  | [] => s1
  | _ => update_statuses_batch (status_update process_receipt <$> rs) (store_receipts_batch rs s1)
  end.

(** What the loop of [process_messages] waits for. *)
Inductive LoopEvent := Tick | Received (m : CrossShardMessage) | ChannelEnd.

(** One turn of the loop: the batch handed to [process_batch], if any, the
    accumulated batch, and whether the loop goes on. *)
Definition loop_turn (batch : list CrossShardMessage) (e : LoopEvent) :
    option (list CrossShardMessage) * list CrossShardMessage * bool :=
  match e with
  | Tick => match batch with [] => (None, [], true) | _ => (Some batch, [], true) end
  | Received m =>
      let batch' := batch ++ [m] in
      if BATCH_SIZE <=? Z.of_nat (length batch') then (Some batch', [], true) else (None, batch', true)
  | ChannelEnd => match batch with [] => (None, [], false) | _ => (Some batch, batch, false) end
  end.

(** The batches processed over a sequence of events. *)
Fixpoint process_messages (batch : list CrossShardMessage) (es : list LoopEvent) : list (list CrossShardMessage) :=
  match es with
  | [] => []
  | e :: es' =>
      let '(out, batch', go) := loop_turn batch e in
      option_list out ++ (if go then process_messages batch' es' else [])
  end.

(** ** The log and its replay *)

Section WalTheorems.
Context `{Codec CrossShardMessage}.

(** Encodable, and short enough for the length field of a frame. *)
Definition loggable (m : ReceiptMsg) : Prop :=
  ∃ bytes, serialize (ReceiptM m) = Some bytes ∧ Z.of_nat (length bytes) < u32_size.

Definition wal_of (ms : list ReceiptMsg) : list u8 := concat ((λ m, wal_frame (ReceiptM m)) <$> ms).

Lemma wal_of_app ms1 ms2 : wal_of (ms1 ++ ms2) = wal_of ms1 ++ wal_of ms2.
Proof. unfold wal_of. by rewrite fmap_app, concat_app. Qed.

Lemma wal_entries_frame fuel m bytes rest :
  serialize m = Some bytes → Z.of_nat (length bytes) < u32_size →
  wal_entries (S fuel) (wal_frame m ++ rest) = Some m :: wal_entries fuel rest.
Proof.
  intros Hs Hlen. unfold wal_frame. rewrite Hs, <- app_assoc. rewrite Z.mod_small by lia.
  cbn [wal_entries]. set (hd := to_le_bytes 4 _).
  assert (length hd = 4%nat) as Hhd by (pose proof (length_to_le_bytes 4 (Z.of_nat (length bytes))); unfold hd; lia).
  rewrite (proj2 (Nat.ltb_ge _ _)) by (rewrite length_app; lia).
  rewrite <- Hhd, take_app_length, drop_app_length.
  assert (Z.to_nat (from_le_bytes hd) = length bytes) as Hn.
  { unfold hd. rewrite from_to_le_bytes; [lia|done|]. cbn. unfold u32_size in Hlen. lia. }
  rewrite Hn, (proj2 (Nat.ltb_ge _ _)) by (rewrite length_app; lia).
  rewrite take_app_length, drop_app_length. by rewrite (deserialize_serialize _ _ Hs).
Qed.

(** Reading the log back gives the messages that were appended. *)
Lemma wal_entries_of ms fuel :
  Forall loggable ms → (length (wal_of ms) <= fuel)%nat →
  wal_entries fuel (wal_of ms) = (λ m, Some (ReceiptM m)) <$> ms.
Proof.
  intros Hl. revert fuel. induction Hl as [|m ms (bytes & Hs & Hlen) _ IH]; intros fuel Hf.
  { by destruct fuel. }
  change (wal_of (m :: ms)) with (wal_frame (ReceiptM m) ++ wal_of ms) in *.
  assert (4 <= length (wal_frame (ReceiptM m)))%nat as Hfr.
  { unfold wal_frame. rewrite Hs, length_app. pose proof (length_to_le_bytes 4 (Z.of_nat (length bytes) mod u32_size)). lia. }
  rewrite length_app in Hf. destruct fuel as [|fuel]; [lia|].
  rewrite (wal_entries_frame fuel _ bytes) by done. rewrite IH by lia. done.
Qed.

Definition mailbox (i : nat) (ms : list ReceiptMsg) : list CrossShardMessage :=
  ReceiptM <$> filter (λ m, rm_target m = i) ms.

(** The processor after sending [ms] from [n] fresh channels. *)
Definition sent (n : nat) (file : list u8) (ms : list ReceiptMsg) : MessageProcessor :=
  MkProcessor ∅ ((λ i, MkChannel (mailbox i ms) false false) <$> seq 0 n) (Some (file ++ wal_of ms)).

Lemma mailbox_snoc i ms m :
  mailbox i (ms ++ [m]) = mailbox i ms ++ (if decide (rm_target m = i) then [ReceiptM m] else []).
Proof.
  unfold mailbox. rewrite filter_app, fmap_app, filter_cons, filter_nil. by destruct (decide _).
Qed.
Lemma length_mailbox i ms : (length (mailbox i ms) <= length ms)%nat.
Proof. unfold mailbox. rewrite length_fmap. apply length_filter. Qed.

Lemma send_receipt_sent n file ms m :
  (rm_target m < n)%nat → Z.of_nat (length ms) < MAX_CHANNEL_DEPTH →
  send_receipt m (sent n file ms) = (Ok tt, sent n file (ms ++ [m])).
Proof.
  intros Ht Hd. unfold send_receipt. etransitivity; [apply se_get_step|]. cbv beta.
  assert (channels (sent n file ms) !! rm_target m = Some (MkChannel (mailbox (rm_target m) ms) false false)) as Hch.
  { unfold sent. cbn [channels]. rewrite list_lookup_fmap, lookup_seq_lt by done. done. }
  rewrite Hch. etransitivity; [apply se_mod_step|]. unfold enqueue.
  replace (channels (append_wal (ReceiptM m) (sent n file ms))) with (channels (sent n file ms)) by done.
  rewrite Hch. unfold try_send. cbn [closed queue]. pose proof (length_mailbox (rm_target m) ms).
  rewrite (proj2 (Z.leb_gt _ _)) by lia. f_equal.
  unfold set_channel, append_wal, sent. cbn [receipt_store channels wal taken closed].
  rewrite wal_of_app. f_equal.
  - apply list_eq. intros i. destruct (decide (i = rm_target m)) as [->|Hne].
    + rewrite list_lookup_insert_eq by (by rewrite length_fmap, length_seq).
      rewrite list_lookup_fmap, lookup_seq_lt by done. cbn. rewrite mailbox_snoc. by rewrite decide_True.
    + rewrite list_lookup_insert_ne by done. rewrite !list_lookup_fmap.
      destruct (decide (i < n)%nat); [|by rewrite lookup_seq_ge by lia].
      rewrite !lookup_seq_lt by done. cbn. rewrite mailbox_snoc, decide_False by done. by rewrite app_nil_r.
  - cbn [fmap option_fmap option_map]. f_equal. rewrite <- app_assoc. f_equal. f_equal.
    unfold wal_of. cbn. by rewrite app_nil_r.
Qed.

Lemma replay_entries n file ms sofar k :
  Forall (λ m, (rm_target m < n)%nat) ms → Z.of_nat (length (sofar ++ ms)) <= MAX_CHANNEL_DEPTH →
  foldl replay_entry (k, sent n file sofar) ((λ m, Some (ReceiptM m)) <$> ms)
  = ((k + length ms)%nat, sent n file (sofar ++ ms)).
Proof.
  intros Ht. revert sofar k. induction Ht as [|m ms Hm _ IH]; intros sofar k Hd.
  { by rewrite app_nil_r, Nat.add_0_r. }
  rewrite length_app in Hd. cbn [length] in Hd. rewrite fmap_cons. cbn [foldl replay_entry fst snd].
  rewrite send_receipt_sent by (done || lia). cbn [snd].
  rewrite IH by (rewrite !length_app; cbn [length]; lia).
  rewrite <- app_assoc. f_equal. cbn [length]. lia.
Qed.

(** After a restart the receipts of the log are in the channels of their
    targets again, in the order they were sent -- and each of them a second
    time in the log, so the log and what a restart delivers double with every
    restart. *)
Theorem wal_replay_redelivers n ms :
  Forall loggable ms → Forall (λ m, (rm_target m < n)%nat) ms → Z.of_nat (length ms) <= MAX_CHANNEL_DEPTH →
  let p := (replay_wal (with_wal n (wal_of ms))).2 in
  (replay_wal (with_wal n (wal_of ms))).1 = length ms ∧
  (∀ i, (i < n)%nat → queue <$> channels p !! i = Some (mailbox i ms)) ∧
  wal p = Some (wal_of (ms ++ ms)).
Proof.
  intros Hl Ht Hd. unfold replay_wal. cbn [with_wal new_inner wal].
  rewrite wal_entries_of by done.
  assert (with_wal n (wal_of ms) = sent n (wal_of ms) []) as ->.
  { unfold with_wal, new_inner, sent. change (wal_of []) with (@nil u8). rewrite app_nil_r. f_equal.
    apply list_eq. intros i. rewrite list_lookup_fmap.
    destruct (decide (i < n)%nat).
    - by rewrite lookup_replicate_2, lookup_seq_lt.
    - rewrite lookup_seq_ge, lookup_ge_None_2 by (rewrite ?length_replicate; lia). done. }
  rewrite replay_entries by done. cbn [fst snd app]. split_and!; [done| |].
  - intros i Hi. unfold sent. cbn [channels]. by rewrite list_lookup_fmap, lookup_seq_lt.
  - by rewrite wal_of_app.
Qed.
End WalTheorems.

(** ** The batching loop *)

Definition received (es : list LoopEvent) : list CrossShardMessage :=
  omap (λ e, match e with Received m => Some m | _ => None end) es.

Definition batch_ok (b : list CrossShardMessage) : Prop := b ≠ [] ∧ Z.of_nat (length b) <= BATCH_SIZE.

Lemma process_messages_batches batch es :
  Z.of_nat (length batch) < BATCH_SIZE → ChannelEnd ∉ es →
  concat (process_messages batch (es ++ [ChannelEnd])) = batch ++ received es ∧
  Forall batch_ok (process_messages batch (es ++ [ChannelEnd])).
Proof.
  revert batch. induction es as [|e es IH]; intros batch Hb Hes.
  { destruct batch as [|m batch]; [done|]. cbn [process_messages loop_turn app option_list concat].
    split; [by cbn; rewrite !app_nil_r|]. constructor; [|constructor]. split; [done|lia]. }
  apply not_elem_of_cons in Hes as [He Hes]. destruct e as [|m|]; [| |done].
  - destruct batch as [|m batch]; destruct (IH [] eq_refl Hes) as [IH1 IH2]; [done|].
    change (process_messages (m :: batch) ((Tick :: es) ++ [ChannelEnd]))
      with ((m :: batch) :: process_messages [] (es ++ [ChannelEnd])).
    split; [by rewrite concat_cons, IH1|]. constructor; [split; [done|lia]|done].
  - change (received (Received m :: es)) with (m :: received es).
    change (process_messages batch ((Received m :: es) ++ [ChannelEnd]))
      with (let '(out, batch', go) := loop_turn batch (Received m) in
            option_list out ++ (if go then process_messages batch' (es ++ [ChannelEnd]) else [])).
    cbn [loop_turn]. destruct (BATCH_SIZE <=? Z.of_nat (length (batch ++ [m]))) eqn:Hsz.
    + destruct (IH [] eq_refl Hes) as [IH1 IH2]. cbn [option_list].
      change (option_list (Some (batch ++ [m])) ++ ?l) with ((batch ++ [m]) :: l).
      split; [by rewrite concat_cons, IH1, <- app_assoc|]. constructor; [|done].
      split; [by destruct batch|]. rewrite length_app. cbn [length]. lia.
    + bool_to_prop. destruct (IH (batch ++ [m]) Hsz Hes) as [IH1 IH2]. cbn [option_list].
      change (option_list None ++ ?l) with l. split; [by rewrite IH1, <- app_assoc|done].
Qed.

(** Every received message is processed once and in order, in batches of 1 to
    [BATCH_SIZE] messages, and none is left when the channel ends. *)
Theorem batches_are_complete es :
  ChannelEnd ∉ es →
  concat (process_messages [] (es ++ [ChannelEnd])) = received es ∧
  Forall batch_ok (process_messages [] (es ++ [ChannelEnd])).
Proof. intros Hes. by apply (process_messages_batches []). Qed.
