(* ===== verification/Sharding.v ===== *)
(** * Sharding: shards and cross-shard transfers

    Models [irondag-blockchain/src/sharding/mod.rs]: the assignment of addresses
    to shards and its cache, the transaction pool of a shard, the debit of a
    cross-shard transfer on its source shard, the receipt that carries the
    value to the target shard, the wait for the source shard's height, and the
    worker that retries, gives up and refunds.

    Each shard has a [Blockchain] of its own.  A method runs to completion
    before the next one starts: the tasks of the source interleave at [await]
    points only between methods here.  [now] is the value of the clock read. *)

From S2P Require Import Prelude Types Block Pow Error Ledger BlockIndex Execution Chain Messaging.

Definition MAX_SHARD_TX_POOL_SIZE : usize := 50000.
Definition SHARD_CACHE_SIZE : usize := 10000.
Definition CROSS_SHARD_MAX_RETRIES : u32 := 5.
Definition DEFAULT_CROSS_SHARD_TIMEOUT_SECS : u64 := 300.

Inductive AssignmentStrategy := ConsistentHashing | RoundRobin | AddressBased.

(** [cross_shard_wal] is the content of the file at [cross_shard_wal_path],
    [None] when no path is configured or the file cannot be opened. *)
Record ShardConfig := MkShardConfig {
  shard_count : nat;
  enable_cross_shard : bool;
  assignment_strategy : AssignmentStrategy;
  cross_shard_wal : option (list u8);
  cross_shard_timeout_secs : u64 }.

Definition shard_config_default : ShardConfig :=
  MkShardConfig 0 false ConsistentHashing None DEFAULT_CROSS_SHARD_TIMEOUT_SECS.

Inductive CrossShardStatus := Pending | Committed | Failed.

#[global] Instance CrossShardStatus_eq_dec : EqDecision CrossShardStatus.
Proof. solve_decision. Defined.

Record CrossShardTransaction := MkCross {
  cr_tx : Transaction; cr_source : nat; cr_target : nat;
  cr_status : CrossShardStatus; cr_id : Hash; cr_pending_since : option Z }.

Record RetryEntry := MkRetry { re_msg : ReceiptMsg; re_count : u32; re_next : Z }.

(** [PendingReceiptEntry], less the unused time of arrival. *)
Record PendingReceipt := MkPendingReceipt {
  pr_id : Hash; pr_source : nat; pr_value : u128; pr_to : Address; pr_height : u64 }.

Section Shards.
Context `{Hex, Keccak, Blake3, Crypto, Evm, HashIter, SliceSearch}.
Context `{Codec Block, Codec (list Hash), Codec TxReceipt, Codec CrossShardMessage}.

Record Shard := MkShard {
  shard_id : nat;
  blockchain : Blockchain;
  transaction_pool : list Transaction;
  cross_shard_outgoing : list Hash;
  cross_shard_incoming : list Hash }.

Definition shard_new (i : nat) : Shard := MkShard i Chain.new [] [] [].

Definition set_chain (c : Blockchain) (s : Shard) : Shard :=
  MkShard (shard_id s) c (transaction_pool s) (cross_shard_outgoing s) (cross_shard_incoming s).

Definition get_transactions (limit : nat) (s : Shard) : list Transaction := take limit (transaction_pool s).

(** [while len >= MAX { pop_front }; push_back] *)
Definition shard_add_transaction (t : Transaction) (s : Shard) : Shard :=
  let excess := (length (transaction_pool s) + 1 - Z.to_nat MAX_SHARD_TX_POOL_SIZE)%nat in
  MkShard (shard_id s) (blockchain s) (drop excess (transaction_pool s) ++ [t])
    (cross_shard_outgoing s) (cross_shard_incoming s).
Definition remove_transactions (count : nat) (s : Shard) : list Transaction * Shard :=
  (take count (transaction_pool s),
   MkShard (shard_id s) (blockchain s) (drop count (transaction_pool s))
     (cross_shard_outgoing s) (cross_shard_incoming s)).
Definition push_outgoing (h : Hash) (s : Shard) : Shard :=
  MkShard (shard_id s) (blockchain s) (transaction_pool s) (cross_shard_outgoing s ++ [h]) (cross_shard_incoming s).
Definition push_incoming (h : Hash) (s : Shard) : Shard :=
  MkShard (shard_id s) (blockchain s) (transaction_pool s) (cross_shard_outgoing s) (cross_shard_incoming s ++ [h]).

Record ShardManager := MkManager {
  config : ShardConfig;
  shards : list Shard;
  cross_shard_txs : gmap Hash CrossShardTransaction;
  message_processor : MessageProcessor;
  shard_cache : gmap Address nat;
  retry_queue : list RetryEntry;
  unified_state : gmap Address (u128 * u64);
  cross_shard_block_heights : gmap nat u64;
  pending_receipts : list PendingReceipt }.

Definition with_shards (f : list Shard → list Shard) (m : ShardManager) : ShardManager :=
  MkManager (config m) (f (shards m)) (cross_shard_txs m) (message_processor m) (shard_cache m) (retry_queue m)
    (unified_state m) (cross_shard_block_heights m) (pending_receipts m).
Definition with_cross (f : gmap Hash CrossShardTransaction → gmap Hash CrossShardTransaction)
    (m : ShardManager) : ShardManager :=
  MkManager (config m) (shards m) (f (cross_shard_txs m)) (message_processor m) (shard_cache m) (retry_queue m)
    (unified_state m) (cross_shard_block_heights m) (pending_receipts m).
Definition with_processor (p : MessageProcessor) (m : ShardManager) : ShardManager :=
  MkManager (config m) (shards m) (cross_shard_txs m) p (shard_cache m) (retry_queue m)
    (unified_state m) (cross_shard_block_heights m) (pending_receipts m).
Definition with_cache (c : gmap Address nat) (m : ShardManager) : ShardManager :=
  MkManager (config m) (shards m) (cross_shard_txs m) (message_processor m) c (retry_queue m)
    (unified_state m) (cross_shard_block_heights m) (pending_receipts m).
Definition with_retries (q : list RetryEntry) (m : ShardManager) : ShardManager :=
  MkManager (config m) (shards m) (cross_shard_txs m) (message_processor m) (shard_cache m) q
    (unified_state m) (cross_shard_block_heights m) (pending_receipts m).
Definition with_unified (u : gmap Address (u128 * u64)) (m : ShardManager) : ShardManager :=
  MkManager (config m) (shards m) (cross_shard_txs m) (message_processor m) (shard_cache m) (retry_queue m)
    u (cross_shard_block_heights m) (pending_receipts m).
Definition with_heights (h : gmap nat u64) (m : ShardManager) : ShardManager :=
  MkManager (config m) (shards m) (cross_shard_txs m) (message_processor m) (shard_cache m) (retry_queue m)
    (unified_state m) h (pending_receipts m).
Definition with_pending (q : list PendingReceipt) (m : ShardManager) : ShardManager :=
  MkManager (config m) (shards m) (cross_shard_txs m) (message_processor m) (shard_cache m) (retry_queue m)
    (unified_state m) (cross_shard_block_heights m) q.

Definition manager_new (cfg : ShardConfig) : result BlockchainError ShardManager :=
  if (shard_count cfg =? 0)%nat then Err (Panic "Shard count must be greater than 0") else
  let p := match cross_shard_wal cfg with
           | Some file => (replay_wal (with_wal (shard_count cfg) file)).2
           | None => processor_new (shard_count cfg)
           end in
  Ok (MkManager cfg (shard_new <$> seq 0 (shard_count cfg)) ∅ p ∅ [] ∅ ∅ []).

Abbreviation SM := (SE ShardManager BlockchainError).

(** [self.shards[i].write()] *)
Definition on_shard (i : nat) (f : Shard → Shard) : SM unit := λ m,
  match shards m !! i with
  | Some s => (Ok tt, with_shards <[i := f s]> m)
  | None => (Err (Panic "index out of bounds"), m)
  end.
(** A method of the blockchain of shard [i]. *)
Definition on_chain {A} (i : nat) (op : BM A) : SM A := λ m,
  match shards m !! i with
  | Some s => let '(r, c) := op (blockchain s) in (r, with_shards <[i := set_chain c s]> m)
  | None => (Err (Panic "index out of bounds"), m)
  end.
Definition on_processor {E A} (op : PM A) : SE ShardManager E (result SendError A) := λ m,
  let '(r, p) := op (message_processor m) in (Ok r, with_processor p m).

(** ** Which shard an address belongs to *)

(** The constructor refuses a [shard_count] of 0. *)
Definition assign (cfg : ShardConfig) (a : Address) : nat :=
  let bytes := match assignment_strategy cfg with
               | ConsistentHashing | RoundRobin => blake3_digest (addr_bytes a)
               | AddressBased => addr_bytes a
               end in
  Z.to_nat (from_le_bytes (take 8 bytes) mod Z.of_nat (shard_count cfg)).

(** [if cache.len() >= SHARD_CACHE_SIZE { .. cache.keys().next() .. }] *)
Definition evict_one (cache : gmap Address nat) : gmap Address nat :=
  if SHARD_CACHE_SIZE <=? Z.of_nat (size cache) then
    match hm_iter cache with (k, _) :: _ => delete k cache | [] => cache end
  else cache.

Definition get_shard_for_address {E} (a : Address) : SE ShardManager E nat :=
  m ← se_get;
  match shard_cache m !! a with
  | Some i => mret i
  | None =>
      let i := assign (config m) a in
      _ ← se_mod (with_cache (<[a := i]> (evict_one (shard_cache m))));
      mret i
  end.

Definition route_transaction {E} (t : Transaction) : SE ShardManager E nat := get_shard_for_address (from t).
Definition route_transaction_full {E} (t : Transaction) : SE ShardManager E (nat * nat) :=
  source ← get_shard_for_address (from t);
  target ← (if bool_decide (to t ≠ address_zero) then get_shard_for_address (to t) else mret source);
  mret (source, target).

(** ** Submitting a transaction *)

Definition register_cross_shard_transaction {E} (now : Z) (t : Transaction) (source target : nat) :
    SE ShardManager E unit :=
  se_mod (with_cross <[tx_hash t := MkCross t source target Pending (tx_hash t) (Some now)]>).

Definition add_transaction (now : Z) (t : Transaction) : SM unit :=
  st ← route_transaction_full t;
  m ← se_get;
  if negb (st.1 =? st.2)%nat && enable_cross_shard (config m) then
    _ ← register_cross_shard_transaction now t st.1 st.2;
    _ ← on_shard st.1 (λ s, push_outgoing (tx_hash t) (shard_add_transaction t s));
    on_shard st.2 (push_incoming (tx_hash t))
  else on_shard st.1 (shard_add_transaction t).

(** ** The transfer *)

Definition receipt_id_of (h : Hash) (source target : nat) : Hash :=
  keccak256 (hash_bytes h ++ to_le_bytes 8 (Z.of_nat source) ++ to_le_bytes 8 (Z.of_nat target)).

Definition mark_committed (x : CrossShardTransaction) : CrossShardTransaction :=
  MkCross (cr_tx x) (cr_source x) (cr_target x) Committed (cr_id x) None.
(** The retry worker leaves [pending_since], the timeout clears it. *)
Definition mark_gave_up (x : CrossShardTransaction) : CrossShardTransaction :=
  MkCross (cr_tx x) (cr_source x) (cr_target x) Failed (cr_id x) (cr_pending_since x).
Definition mark_timed_out (x : CrossShardTransaction) : CrossShardTransaction :=
  MkCross (cr_tx x) (cr_source x) (cr_target x) Failed (cr_id x) None.

(** [let b = get_balance(a); set_balance(a, f(b))] *)
Definition update_balance (a : Address) (f : u128 → u128) : BM unit :=
  b ← on_ledger (get_balance a); on_ledger (set_balance a (f b)).

Definition debit_source (t : Transaction) : BM unit :=
  b ← on_ledger (get_balance (from t));
  let total_cost := sat_add128 (value t) (fee t) in
  _ ← se_read (λ _, ensure (total_cost <=? b)
                     (InvalidTransaction "Insufficient balance for cross-shard transaction"));
  update_balance (from t) (λ b, sat_sub b total_cost).

(** One step: no other operation comes between the check of the balance and the
    debit, for which the source takes the lock of the shard twice. *)
Definition process_cross_shard_transaction (now : Z) (h : Hash) : SM unit :=
  m ← se_get;
  match cross_shard_txs m !! h with
  | None => mret tt
  | Some x =>
      let t := cr_tx x in
      _ ← on_chain (cr_source x) (debit_source t);
      height ← on_chain (cr_source x) (se_read (λ c, Ok (cached_latest_block_number c)));
      let msg := MkReceiptMsg h (receipt_id_of h (cr_source x) (cr_target x)) (cr_source x) (cr_target x)
                   (value t) (to t) height in
      r ← on_processor (send_receipt msg);
      match r with
      | Ok _ => se_mod (with_cross (alter mark_committed h))
      | Err _ => se_mod (λ m, with_retries (retry_queue m ++ [MkRetry msg 0 (now + from_secs 1)]) m)
      end
  end.

(** ** Receiving *)

Definition process_receipt (value : u128) (to : Address) : SE ShardManager string unit :=
  target ← get_shard_for_address to;
  m ← se_get;
  match shards m !! target with
  | Some _ =>
      se_map_err (λ _, "Failed to process receipt") (on_chain target (update_balance to (λ b, sat_add128 b value)))
  | None => fail "Invalid target shard"
  end.

Definition get_cross_shard_block_height (m : ShardManager) (i : nat) : option u64 :=
  cross_shard_block_heights m !! i.

Definition confirmed (m : ShardManager) (source : nat) (height : u64) : bool :=
  match get_cross_shard_block_height m source with Some h => height <=? h | None => false end.

Definition process_receipt_with_ordering (r : PendingReceipt) : SE ShardManager string unit :=
  m ← se_get;
  if confirmed m (pr_source r) (pr_height r) then process_receipt (pr_value r) (pr_to r)
  else se_mod (λ m, with_pending (pending_receipts m ++ [r]) m).

(** One entry of the drained queue: counted when credited, kept when its
    source is not confirmed yet, dropped when crediting fails. *)
Definition settle_pending {E} (acc : nat * list PendingReceipt) (r : PendingReceipt) :
    SE ShardManager E (nat * list PendingReceipt) :=
  m ← se_get;
  if confirmed m (pr_source r) (pr_height r) then
    ok ← se_try (process_receipt (pr_value r) (pr_to r));
    mret (match ok with Some _ => S acc.1 | None => acc.1 end, acc.2)
  else mret (acc.1, acc.2 ++ [r]).
Fixpoint settle_all {E} (acc : nat * list PendingReceipt) (rs : list PendingReceipt) :
    SE ShardManager E (nat * list PendingReceipt) :=
  match rs with
  | [] => mret acc
  | r :: rs' => acc' ← settle_pending acc r; settle_all acc' rs'
  end.

Definition process_pending_receipts_async {E} : SE ShardManager E nat :=
  m ← se_get;
  _ ← se_mod (with_pending []);
  acc ← settle_all (O, []) (pending_receipts m);
  _ ← se_mod (λ m, with_pending (pending_receipts m ++ acc.2) m);
  mret acc.1.

Definition record_shard_block_height {E} (i : nat) (n : u64) : SE ShardManager E unit :=
  m ← se_get;
  if match cross_shard_block_heights m !! i with Some prev => n <=? prev | None => false end then mret tt
  else
    _ ← se_mod (λ m, with_heights (<[i := n]> (cross_shard_block_heights m)) m);
    _ ← process_pending_receipts_async;
    mret tt.

Definition handle_message {E} (msg : CrossShardMessage) : SE ShardManager E unit :=
  match msg with
  | ReceiptM r =>
      _ ← se_try (process_receipt_with_ordering
                    (MkPendingReceipt (rm_receipt_id r) (rm_source r) (rm_value r) (rm_to r) (rm_height r)));
      mret tt
  | ReceiptAck id success =>
      se_mod (λ m, let p := message_processor m in
        with_processor (set_receipts ((if success then mark_processed id else mark_failed id) (receipt_store p)) p) m)
  | StateSync i n => record_shard_block_height i n
  end.

(** One turn of the task that serves shard [i]; nothing without a message. *)
Definition receive {E} (i : nat) : SE ShardManager E unit :=
  m ← se_get;
  match recv i (message_processor m) with
  | Some (msg, p) => _ ← se_mod (with_processor p); handle_message msg
  | None => mret tt
  end.

(** Hand the receiving end of every channel to a task; the number started. *)
Definition start_one (acc : nat * MessageProcessor) (i : nat) : nat * MessageProcessor :=
  match take_receiver i acc.2 with
  | (Some _, p) => (S acc.1, p)
  | (None, p) => (acc.1, p)
  end.
Definition start_receipt_processing {E} : SE ShardManager E nat := λ m,
  let '(n, p) := foldl start_one (O, message_processor m) (seq 0 (shard_count (config m))) in
  (Ok n, with_processor p m).

(** ** The retry worker *)

Fixpoint due_prefix (now : Z) (q : list RetryEntry) : list RetryEntry * list RetryEntry :=
  match q with
  | e :: q' => if re_next e <=? now then let '(out, rest) := due_prefix now q' in (e :: out, rest) else ([], q)
  | [] => ([], [])
  end.

(** [if let Some(shard) = self.shards.get(i) { .. set_balance(a, b + amount) .. }] *)
Definition refund {E} (i : nat) (a : Address) (amount : u128) : SE ShardManager E unit :=
  _ ← se_try (on_chain i (update_balance a (λ b, sat_add128 b amount))); mret tt.

Definition refund_amount (x : CrossShardTransaction) : u128 := sat_add128 (value (cr_tx x)) (fee (cr_tx x)).

Definition backoff_secs (count : u32) : u64 := Z.min (Z.shiftl 1 count) 60.

Definition retry_one {E} (now : Z) (e : RetryEntry) : SE ShardManager E unit :=
  r ← on_processor (send_receipt (re_msg e));
  match r with
  | Ok _ => se_mod (with_cross (alter mark_committed (rm_tx_hash (re_msg e))))
  | Err _ =>
      let next_count := re_count e + 1 in
      if CROSS_SHARD_MAX_RETRIES <=? next_count then
        m ← se_get;
        match cross_shard_txs m !! rm_tx_hash (re_msg e) with
        | Some x =>
            _ ← se_mod (with_cross (alter mark_gave_up (rm_tx_hash (re_msg e))));
            refund (rm_source (re_msg e)) (from (cr_tx x)) (refund_amount x)
        | None => mret tt
        end
      else
        se_mod (λ m, with_retries
          (retry_queue m ++ [MkRetry (re_msg e) next_count (now + from_secs (backoff_secs next_count))]) m)
  end.

Definition timed_out (now : Z) (timeout_secs : u64) (x : CrossShardTransaction) : bool :=
  bool_decide (cr_status x = Pending) &&
  (timeout_secs <=? match cr_pending_since x with Some t => as_secs (duration_since now t) | None => 0 end).

Definition expire_pending {E} (now : Z) : SE ShardManager E unit :=
  m ← se_get;
  let timeout_secs := cross_shard_timeout_secs (config m) in
  if 0 <? timeout_secs then
    let out := List.filter (λ kv, timed_out now timeout_secs kv.2) (hm_iter (cross_shard_txs m)) in
    _ ← se_mod (with_cross (fmap (λ x, if timed_out now timeout_secs x then mark_timed_out x else x)));
    se_for out (λ kv, refund (cr_source kv.2) (from (cr_tx kv.2)) (refund_amount kv.2))
  else mret tt.

(** One tick of [start_cross_shard_retry_worker]. *)
Definition retry_tick {E} (now : Z) : SE ShardManager E unit :=
  m ← se_get;
  let '(to_retry, rest) := due_prefix now (retry_queue m) in
  _ ← se_mod (with_retries rest);
  _ ← se_for to_retry (retry_one now);
  expire_pending now.

(** ** Queries and maintenance *)

Definition get_shard_transactions (m : ShardManager) (i limit : nat) : list Transaction :=
  match shards m !! i with Some s => get_transactions limit s | None => [] end.

Definition remove_shard_transactions {E} (i count : nat) : SE ShardManager E (list Transaction) := λ m,
  match shards m !! i with
  | Some s => let '(ts, s') := remove_transactions count s in (Ok ts, with_shards <[i := s']> m)
  | None => (Ok [], m)
  end.

Definition get_shard_blocks (m : ShardManager) (i : nat) (from_block : u64) (count : nat) : option (list Block) :=
  s ← shards m !! i;
  Some (take count (List.filter (λ b, from_block <=? block_number (header b)) (blocks (blocks_data (blockchain s))))).

Definition add_block_to_shard (fuel : nat) (cpu : CpuFeatures) (buffer : list u8) (now : u64) (i : nat) (b : Block) :
    SE ShardManager string unit :=
  m ← se_get;
  match shards m !! i with
  | Some _ => _ ← se_map_err (λ _, "add_block_for_sync") (on_chain i (add_block_for_sync fuel cpu buffer now b)); mret tt
  | None => fail "Invalid shard_id"
  end.

Definition get_cross_shard_status (m : ShardManager) (h : Hash) : option CrossShardStatus :=
  cr_status <$> cross_shard_txs m !! h.
Definition has_cross_shard_transaction (m : ShardManager) (h : Hash) : bool :=
  bool_decide (is_Some (cross_shard_txs m !! h)).

(** The accounts of shard [i] that belong to it, merged into [acc]. *)
Definition merge_account {E} (i : nat) (acc : gmap Address (u128 * u64)) (kv : Address * (u128 * u64)) :
    SE ShardManager E (gmap Address (u128 * u64)) :=
  j ← get_shard_for_address kv.1;
  mret (if (j =? i)%nat then <[kv.1 := kv.2]> acc else acc).
Fixpoint merge_accounts {E} (i : nat) (acc : gmap Address (u128 * u64)) (l : list (Address * (u128 * u64))) :
    SE ShardManager E (gmap Address (u128 * u64)) :=
  match l with
  | [] => mret acc
  | kv :: l' => acc' ← merge_account i acc kv; merge_accounts i acc' l'
  end.
Fixpoint merge_shards {E} (i : nat) (acc : gmap Address (u128 * u64)) (ss : list Shard) :
    SE ShardManager E (gmap Address (u128 * u64)) :=
  match ss with
  | [] => mret acc
  | s :: ss' =>
      acc' ← merge_accounts i acc (hm_iter (get_all_accounts (ledger (blockchain s))));
      merge_shards (S i) acc' ss'
  end.
Definition synchronize_shards {E} : SE ShardManager E unit :=
  m ← se_get;
  merged ← merge_shards O ∅ (shards m);
  se_mod (with_unified merged).

Definition get_unified_balance (m : ShardManager) (a : Address) : u128 :=
  match unified_state m !! a with Some (b, _) => b | None => 0 end.
Definition get_unified_nonce (m : ShardManager) (a : Address) : u64 :=
  match unified_state m !! a with Some (_, n) => n | None => 0 end.

(** [if target != from { send_state_sync(..) }], errors logged *)
Definition broadcast_block_height {E} (from_shard : nat) (n : u64) : SE ShardManager E unit :=
  m ← se_get;
  se_for (List.filter (λ t, negb (t =? from_shard)%nat) (seq 0 (shard_count (config m))))
    (λ t, _ ← on_processor (send_state_sync t from_shard n); mret tt).
Definition broadcast_all_shard_block_heights {E} : SE ShardManager E unit :=
  m ← se_get;
  se_for (seq 0 (shard_count (config m))) (λ i,
    m ← se_get;
    match shards m !! i with
    | Some s => broadcast_block_height i (cached_latest_block_number (blockchain s))
    | None => mret tt
    end).

(** The request of [start_shard_sync_task] for one shard: first block and
    number of blocks asked for. *)
Definition catch_up_request (m : ShardManager) (i : nat) : option (u64 * u64) :=
  s ← shards m !! i;
  peer_height ← get_cross_shard_block_height m i;
  let local_height := cached_latest_block_number (blockchain s) in
  if local_height <? peer_height then Some (add64 local_height 1, Z.min (peer_height - local_height) 100) else None.

Record ShardStats := MkStats {
  st_shard_id : nat; st_block_count : nat; st_pool_size : nat; st_outgoing : nat; st_incoming : nat }.
Definition get_shard_stats (m : ShardManager) (i : nat) : option ShardStats :=
  s ← shards m !! i;
  Some (MkStats i (length (blocks (blocks_data (blockchain s)))) (length (transaction_pool s))
          (length (cross_shard_outgoing s)) (length (cross_shard_incoming s))).
Definition get_all_shard_stats (m : ShardManager) : list ShardStats :=
  omap (get_shard_stats m) (seq 0 (shard_count (config m))).
End Shards.
