(* ===== verification/ShardTheorems.v ===== *)
(** * ShardTheorems: what sharding guarantees

    The theorems of [Sharding]: an invariant of the manager that every method
    keeps, the transparency of the address cache, the conservation of value by
    cross-shard transfers, and the cases in which value is not conserved. *)

From S2P Require Import Prelude Types Block Pow Error Ledger BlockIndex Execution Chain Messaging Sharding.

Section Invariant.
Context `{Hex, Keccak, Blake3, Crypto, Evm, HashIter, SliceSearch}.
Context `{Codec Block, Codec (list Hash), Codec TxReceipt, Codec CrossShardMessage}.

(** The shards of sender and receiver; a deployment stays with the sender. *)
Definition route (cfg : ShardConfig) (t : Transaction) : nat * nat :=
  (assign cfg (from t),
   if bool_decide (to t ≠ address_zero) then assign cfg (to t) else assign cfg (from t)).

Definition cross_ok (cfg : ShardConfig) (h : Hash) (x : CrossShardTransaction) : Prop :=
  cr_id x = h ∧ tx_hash (cr_tx x) = h ∧ (cr_source x, cr_target x) = route cfg (cr_tx x).

Definition pool_ok (s : Shard) : Prop := Z.of_nat (length (transaction_pool s)) <= MAX_SHARD_TX_POOL_SIZE.

Definition waiting (heights : gmap nat u64) (r : PendingReceipt) : Prop :=
  match heights !! pr_source r with Some h => h < pr_height r | None => True end.

(** All of the invariant but the state of the waiting receipts. *)
Record manager_base (m : ShardManager) : Prop := {
  mb_count : (0 < shard_count (config m))%nat;
  mb_shards : length (shards m) = shard_count (config m);
  mb_channels : length (channels (message_processor m)) = shard_count (config m);
  mb_cache : ∀ a i, shard_cache m !! a = Some i → i = assign (config m) a;
  mb_cache_size : Z.of_nat (size (shard_cache m)) <= SHARD_CACHE_SIZE;
  mb_pools : Forall pool_ok (shards m);
  mb_cross : map_Forall (cross_ok (config m)) (cross_shard_txs m) }.

(** No receipt waits for a height that is already known. *)
Record manager_ok (m : ShardManager) : Prop := {
  mo_base : manager_base m;
  mo_waiting : Forall (waiting (cross_shard_block_heights m)) (pending_receipts m) }.

Lemma assign_lt cfg a : (0 < shard_count cfg)%nat → (assign cfg a < shard_count cfg)%nat.
Proof.
  intros Hc. unfold assign. set (x := from_le_bytes _).
  pose proof (Z.mod_pos_bound x (Z.of_nat (shard_count cfg))). lia.
Qed.
Lemma route_lt cfg t :
  (0 < shard_count cfg)%nat → ((route cfg t).1 < shard_count cfg)%nat ∧ ((route cfg t).2 < shard_count cfg)%nat.
Proof. intros Hc. unfold route. cbn. split; [by apply assign_lt|]. case_bool_decide; by apply assign_lt. Qed.

(** ** The cache *)

Lemma evict_one_size cache : Z.of_nat (size cache) <= SHARD_CACHE_SIZE →
  Z.of_nat (size (evict_one cache)) < SHARD_CACHE_SIZE.
Proof.
  intros Hs. unfold evict_one. destruct (SHARD_CACHE_SIZE <=? _) eqn:He; bool_to_prop; [|done].
  pose proof (hm_iter_perm cache) as Hp. destruct (hm_iter cache) as [|[k v] l].
  - apply Permutation_nil_l in Hp. symmetry in Hp. apply map_to_list_empty_iff in Hp. subst cache. rewrite map_size_empty. done.
  - assert (cache !! k = Some v) as Hk.
    { apply elem_of_map_to_list. rewrite <- Hp. left. }
    assert (size cache ≠ 0%nat) by (apply (map_size_ne_0_lookup_2 cache k); by eexists).
    rewrite map_size_delete_Some by (by eexists). lia.
Qed.
Lemma evict_one_lookup cache a i : evict_one cache !! a = Some i → cache !! a = Some i.
Proof.
  unfold evict_one. destruct (_ <=? _); [|done]. destruct (hm_iter cache) as [|[k v] l]; [done|].
  intros Hd. by apply lookup_delete_Some in Hd as [_ ?].
Qed.

(** Looking an address up gives its assignment and changes the cache only. *)
Lemma get_shard_spec {E} a m :
  manager_base m →
  ∃ c, get_shard_for_address (E:=E) a m = (Ok (assign (config m) a), with_cache c m) ∧ manager_base (with_cache c m).
Proof.
  intros [Hc Hs Hch Hcache Hsize Hp Hx]. unfold get_shard_for_address.
  destruct (shard_cache m !! a) as [i|] eqn:Ha.
  - exists (shard_cache m). assert (with_cache (shard_cache m) m = m) as Hm by (by destruct m). rewrite Hm.
    split; [|done]. unfold mbind, SE_bind, se_get. rewrite Ha. unfold mret, SE_ret. by rewrite (Hcache a i Ha).
  - exists (<[a := assign (config m) a]> (evict_one (shard_cache m))). split.
    { unfold mbind, SE_bind, se_get. rewrite Ha. done. }
    split; cbn [with_cache config shards message_processor shard_cache cross_shard_txs]; try done.
    + intros a' i. destruct (decide (a' = a)) as [->|Hne].
      * rewrite lookup_insert_eq. by intros [= <-].
      * rewrite lookup_insert_ne by done. intros Hi. by apply Hcache, evict_one_lookup.
    + pose proof (evict_one_size _ Hsize). rewrite map_size_insert.
      destruct (evict_one (shard_cache m) !! a); cbn; lia.
Qed.
(** ** Steps that leave the waiting receipts alone *)

Record quiet (m m' : ShardManager) : Prop := {
  qt_base : manager_base m → manager_base m';
  qt_config : config m' = config m;
  qt_heights : cross_shard_block_heights m' = cross_shard_block_heights m;
  qt_pending : pending_receipts m' = pending_receipts m }.

#[global] Instance quiet_preorder : PreOrder quiet.
Proof.
  split; [done|]. intros m1 m2 m3 [A1 B1 C1 D1] [A2 B2 C2 D2]. split; [auto|congruence..].
Qed.

Definition same_channels (p p' : MessageProcessor) : Prop := length (channels p') = length (channels p).
#[global] Instance same_channels_preorder : PreOrder same_channels.
Proof. split; [done|]. unfold same_channels. intros p1 p2 p3. congruence. Qed.

Lemma enqueue_channels i msg : respects same_channels (enqueue i msg).
Proof.
  intros p r p'. unfold enqueue. destruct (channels p !! i); [|by intros [= _ <-]].
  destruct (try_send i msg c); intros [= _ <-]; [|done]. unfold same_channels. cbn. by rewrite length_insert.
Qed.
Lemma send_receipt_channels msg : respects same_channels (send_receipt msg).
Proof.
  apply respects_bind; [apply _|apply respects_get; apply _|]. intros p.
  destruct (channels p !! rm_target msg); [|by intros ??? [= _ <-]].
  apply respects_bind; [apply _|by apply respects_mod|]. intros _. apply enqueue_channels.
Qed.

Lemma quiet_get_shard {E} a : respects quiet (get_shard_for_address (E:=E) a).
Proof.
  intros m r m' Hm. split.
  - intros Hb. destruct (get_shard_spec (E:=E) a m Hb) as (c & Hc & Hok). congruence.
  - revert Hm. unfold get_shard_for_address, mbind, SE_bind, se_get.
    destruct (shard_cache m !! a); by intros [= _ <-].
  - revert Hm. unfold get_shard_for_address, mbind, SE_bind, se_get.
    destruct (shard_cache m !! a); by intros [= _ <-].
  - revert Hm. unfold get_shard_for_address, mbind, SE_bind, se_get.
    destruct (shard_cache m !! a); by intros [= _ <-].
Qed.

Lemma quiet_with_shard i s s' m :
  shards m !! i = Some s → (pool_ok s → pool_ok s') → quiet m (with_shards <[i := s']> m).
Proof.
  intros Hi Hf. split; try done. intros [Hc Hs Hch Hcache Hsize Hp Hx]. split; try done; cbn [with_shards shards config].
  - by rewrite length_insert.
  - apply Forall_insert; [done|]. apply Hf. by apply (Forall_lookup_1 _ _ _ _ Hp Hi).
Qed.
Lemma quiet_on_shard i f : (∀ s, pool_ok s → pool_ok (f s)) → respects quiet (on_shard i f).
Proof.
  intros Hf m r m'. unfold on_shard. destruct (shards m !! i) as [s|] eqn:Hi; intros [= _ <-]; [|done].
  by apply (quiet_with_shard i s); [|apply Hf].
Qed.
Lemma quiet_on_chain {A} i (op : BM A) : respects quiet (on_chain i op).
Proof.
  intros m r m'. unfold on_chain. destruct (shards m !! i) as [s|] eqn:Hi; [|by intros [= _ <-]].
  destruct (op (blockchain s)) as [r1 c]. intros [= _ <-]. by apply (quiet_with_shard i s).
Qed.
Lemma quiet_on_processor {E A} (op : PM A) : respects same_channels op → respects quiet (on_processor (E:=E) op).
Proof.
  intros Hop m r m'. unfold on_processor. destruct (op (message_processor m)) as [r1 p] eqn:Hp. intros [= _ <-].
  split; try done. intros [Hc Hs Hch Hcache Hsize Hpool Hx]. split; try done.
  cbn [with_processor message_processor config]. rewrite <- Hch. by apply (Hop _ _ _ Hp).
Qed.

Definition keeps_route (f : CrossShardTransaction → CrossShardTransaction) : Prop :=
  ∀ x, cr_id (f x) = cr_id x ∧ cr_tx (f x) = cr_tx x ∧ cr_source (f x) = cr_source x ∧ cr_target (f x) = cr_target x.

Lemma cross_ok_keep cfg h x f : keeps_route f → cross_ok cfg h x → cross_ok cfg h (f x).
Proof. intros Hf. destruct (Hf x) as (E1 & E2 & E3 & E4). unfold cross_ok. by rewrite E1, E2, E3, E4. Qed.

Lemma quiet_with_cross g m :
  (map_Forall (cross_ok (config m)) (cross_shard_txs m) → map_Forall (cross_ok (config m)) (g (cross_shard_txs m))) →
  quiet m (with_cross g m).
Proof. intros Hg. split; try done. intros [Hc Hs Hch Hcache Hsize Hp Hx]. split; try done. by apply Hg. Qed.
Lemma quiet_alter f h m : keeps_route f → quiet m (with_cross (alter f h) m).
Proof.
  intros Hf. apply quiet_with_cross. intros Hx h' x Hl. apply lookup_alter_Some in Hl as [(<- & y & Hy & ->)|[_ Hy]].
  - by apply cross_ok_keep, Hx.
  - by apply Hx.
Qed.
Lemma quiet_fmap f m : keeps_route f → quiet m (with_cross (fmap f) m).
Proof.
  intros Hf. apply quiet_with_cross. intros Hx h' x Hl. apply lookup_fmap_Some in Hl as (y & <- & Hy).
  by apply cross_ok_keep, Hx.
Qed.
Lemma quiet_with_retries q m : quiet m (with_retries q m).
Proof. split; try done. by intros [? ? ? ? ? ? ?]. Qed.
Lemma quiet_with_unified u m : quiet m (with_unified u m).
Proof. split; try done. by intros [? ? ? ? ? ? ?]. Qed.
Lemma quiet_with_processor p m :
  same_channels (message_processor m) p → quiet m (with_processor p m).
Proof.
  intros Hp. split; try done. intros [Hc Hs Hch Hcache Hsize Hpool Hx]. split; try done.
  cbn [with_processor message_processor config]. by rewrite <- Hch.
Qed.

Lemma mark_committed_keeps : keeps_route mark_committed.
Proof. done. Qed.
Lemma mark_gave_up_keeps : keeps_route mark_gave_up.
Proof. done. Qed.
Lemma mark_timed_out_keeps (p : CrossShardTransaction → bool) :
  keeps_route (λ x, if p x then mark_timed_out x else x).
Proof. intros x. by destruct (p x). Qed.

Lemma add_pool_ok t s : pool_ok (shard_add_transaction t s).
Proof.
  unfold pool_ok, shard_add_transaction. cbn [transaction_pool]. rewrite length_app, length_drop. cbn [length].
  assert (1 <= MAX_SHARD_TX_POOL_SIZE) by done. lia.
Qed.
Lemma remove_pool_ok n s : pool_ok s → pool_ok (remove_transactions n s).2.
Proof. unfold pool_ok, remove_transactions. cbn [snd transaction_pool]. rewrite length_drop. lia. Qed.
End Invariant.

#[export] Hint Resolve quiet_get_shard quiet_on_chain quiet_on_processor send_receipt_channels enqueue_channels
  quiet_with_retries quiet_with_unified quiet_alter quiet_fmap mark_committed_keeps mark_gave_up_keeps
  mark_timed_out_keeps : frame.

Section Operations.
Context `{Hex, Keccak, Blake3, Crypto, Evm, HashIter, SliceSearch}.
Context `{Codec Block, Codec (list Hash), Codec TxReceipt, Codec CrossShardMessage}.

Lemma quiet_process_receipt v a : respects quiet (process_receipt v a).
Proof.
  unfold process_receipt. frame_steps; by intros ??? [= _ <-].
Qed.
Lemma quiet_refund {E} i a v : respects quiet (refund (E:=E) i a v).
Proof. unfold refund. frame_steps. Qed.
Lemma quiet_retry_one {E} now e : respects quiet (retry_one (E:=E) now e).
Proof. unfold retry_one. frame_steps; eauto using quiet_refund with frame. Qed.
Lemma quiet_expire {E} now : respects quiet (expire_pending (E:=E) now).
Proof. unfold expire_pending. frame_steps; eauto using quiet_refund with frame. Qed.
Lemma quiet_retry_tick {E} now : respects quiet (retry_tick (E:=E) now).
Proof. unfold retry_tick. frame_steps; eauto using quiet_retry_one, quiet_expire with frame. Qed.
Lemma quiet_process now h : respects quiet (process_cross_shard_transaction now h).
Proof. unfold process_cross_shard_transaction. frame_steps; eauto with frame. Qed.
Lemma quiet_remove {E} i n : respects quiet (remove_shard_transactions (E:=E) i n).
Proof.
  intros m r m'. unfold remove_shard_transactions. destruct (shards m !! i) as [s|] eqn:Hi; intros [= _ <-]; [|done].
  apply (quiet_with_shard i s); [done|]. intros Hp. by apply (remove_pool_ok n s).
Qed.
Lemma quiet_merge_accounts {E} i acc l : respects quiet (merge_accounts (E:=E) i acc l).
Proof.
  revert acc. induction l as [|kv l IH]; intros acc; cbn [merge_accounts]; frame_steps.
  unfold merge_account. frame_steps.
Qed.
Lemma quiet_merge_shards {E} i acc ss : respects quiet (merge_shards (E:=E) i acc ss).
Proof.
  revert i acc. induction ss as [|s ss IH]; intros i acc; cbn [merge_shards]; frame_steps.
  apply quiet_merge_accounts.
Qed.
Lemma quiet_synchronize {E} : respects quiet (synchronize_shards (E:=E)).
Proof. unfold synchronize_shards. frame_steps; eauto using quiet_merge_shards with frame. Qed.
Lemma quiet_broadcast {E} i n : respects quiet (broadcast_block_height (E:=E) i n).
Proof. unfold broadcast_block_height, send_state_sync. frame_steps. Qed.
Lemma quiet_broadcast_all {E} : respects quiet (broadcast_all_shard_block_heights (E:=E)).
Proof. unfold broadcast_all_shard_block_heights. frame_steps. apply quiet_broadcast. Qed.
Lemma quiet_add_block fuel cpu buffer now i b : respects quiet (add_block_to_shard fuel cpu buffer now i b).
Proof. unfold add_block_to_shard. frame_steps; by intros ??? [= _ <-]. Qed.

Lemma quiet_start {E} : respects quiet (start_receipt_processing (E:=E)).
Proof.
  intros m r m'. unfold start_receipt_processing. destruct (foldl _ _ _) as [n p] eqn:Hf. intros [= _ <-].
  apply quiet_with_processor. enough (∀ l acc, same_channels acc.2 (foldl start_one acc l).2) as Hl.
  { specialize (Hl (seq 0 (shard_count (config m))) (O, message_processor m)). by rewrite Hf in Hl. }
  induction l as [|i l IH]; intros acc; cbn [foldl]; [done|]. etransitivity; [|apply IH].
  unfold start_one, take_receiver. destruct (channels acc.2 !! i) as [ch|]; [|done]. destruct (taken ch); [done|].
  unfold same_channels. cbn. by rewrite length_insert.
Qed.

Lemma route_spec {E} t m :
  manager_base m →
  ∃ c, route_transaction_full (E:=E) t m = (Ok (route (config m) t), with_cache c m) ∧ manager_base (with_cache c m).
Proof.
  intros Hb. unfold route_transaction_full, route. destruct (get_shard_spec (E:=E) (from t) m Hb) as (c & Hc & Hb1).
  erewrite se_bind_step by exact Hc. case_bool_decide as Ht.
  - destruct (get_shard_spec (E:=E) (to t) _ Hb1) as (c2 & Hc2 & Hb2). exists c2. erewrite se_bind_step by exact Hc2.
    done.
  - exists c. done.
Qed.
Lemma list_alter_insert {A} (f : A → A) (l : list A) i x : l !! i = Some x → alter f i l = <[i := f x]> l.
Proof.
  intros Hi. apply list_eq. intros j. destruct (decide (i = j)) as [<-|Hne].
  - rewrite list_lookup_alter_eq, Hi, list_lookup_insert_eq by (by apply lookup_lt_Some in Hi). done.
  - by rewrite list_lookup_alter_ne, list_lookup_insert_ne.
Qed.

Lemma on_shard_spec i f m :
  (i < length (shards m))%nat → on_shard i f m = (Ok tt, with_shards (alter f i) m).
Proof.
  intros Hi. unfold on_shard. destruct (shards m !! i) as [s|] eqn:Hs.
  - unfold with_shards. by rewrite (list_alter_insert f _ i s).
  - apply lookup_ge_None_1 in Hs. lia.
Qed.

(** Submitting never fails: the transaction joins the pool of its sender's
    shard, and a cross-shard one is also registered and announced. *)
Lemma add_transaction_spec now t m :
  manager_base m →
  let '(s, d) := route (config m) t in
  ∃ c, add_transaction now t m
    = (Ok tt, if negb (s =? d)%nat && enable_cross_shard (config m)
              then with_shards (alter (push_incoming (tx_hash t)) d)
                     (with_shards (alter (λ x, push_outgoing (tx_hash t) (shard_add_transaction t x)) s)
                       (with_cross <[tx_hash t := MkCross t s d Pending (tx_hash t) (Some now)]> (with_cache c m)))
              else with_shards (alter (shard_add_transaction t) s) (with_cache c m)) ∧
    manager_base (with_cache c m).
Proof.
  intros Hb. destruct (route_spec (E:=BlockchainError) t m Hb) as (c & Hc & Hb1).
  pose proof (route_lt (config m) t (mb_count _ Hb)) as [Hs Hd]. destruct (route (config m) t) as [s d].
  exists c. split; [|done]. unfold add_transaction. erewrite se_bind_step by exact Hc. rewrite se_get_step.
  cbn [fst snd with_cache config] in *. rewrite <- (mb_shards _ Hb) in Hs, Hd.
  destruct (negb (s =? d)%nat && enable_cross_shard (config m)); [|by rewrite on_shard_spec].
  unfold register_cross_shard_transaction. rewrite se_mod_step.
  erewrite se_bind_step by (by apply on_shard_spec). rewrite on_shard_spec; [done|].
  cbn [with_shards shards with_cross with_cache]. by rewrite length_alter.
Qed.

Lemma quiet_register {E} now t m r m' :
  register_cross_shard_transaction (E:=E) now t (route (config m) t).1 (route (config m) t).2 m = (r, m') → quiet m m'.
Proof.
  intros [= _ <-]. apply quiet_with_cross. intros Hx. apply map_Forall_insert_2; [|done].
  split_and!; [done|done|]. cbn [cr_source cr_target cr_tx]. symmetry. apply surjective_pairing.
Qed.
Lemma quiet_alter_shard i f m : (∀ s, pool_ok s → pool_ok (f s)) → quiet m (with_shards (alter f i) m).
Proof.
  intros Hf. destruct (shards m !! i) as [s|] eqn:Hi.
  - assert (with_shards (alter f i) m = with_shards <[i := f s]> m) as ->.
    { unfold with_shards. by rewrite (list_alter_insert f _ i s). }
    by apply (quiet_with_shard i s); [|apply Hf].
  - assert (with_shards (alter f i) m = m) as ->; [|done]. unfold with_shards.
    assert (alter f i (shards m) = shards m) as ->; [|by destruct m].
    apply list_eq. intros j. destruct (decide (i = j)) as [<-|Hne].
    + by rewrite list_lookup_alter_eq, Hi.
    + by rewrite list_lookup_alter_ne.
Qed.
Lemma quiet_add now t m : manager_base m → quiet m (add_transaction now t m).2.
Proof.
  intros Hb. pose proof (add_transaction_spec now t m Hb) as Hs.
  destruct (route (config m) t) as [s d] eqn:Hr. destruct Hs as (c & -> & Hc). cbn [snd].
  assert (quiet m (with_cache c m)) as Hq by done. etransitivity; [exact Hq|].
  destruct (_ && _).
  - etransitivity; [|apply (quiet_alter_shard d); intros x Hx; exact Hx].
    etransitivity; [|apply (quiet_alter_shard s); intros x _; apply (add_pool_ok t)].
    pose proof (quiet_register (E:=string) now t (with_cache c m)) as Hreg. cbn [with_cache config] in Hreg.
    rewrite Hr in Hreg. by eapply Hreg.
  - apply quiet_alter_shard. intros x _. apply add_pool_ok.
Qed.

(** ** The waiting receipts *)

Lemma quiet_ok m m' : quiet m m' → manager_ok m → manager_ok m'.
Proof. intros [Hb Hc Hh Hp] [Hm Hw]. split; [auto|]. by rewrite Hh, Hp. Qed.

Lemma confirmed_waiting m r :
  confirmed m (pr_source r) (pr_height r) = false ↔ waiting (cross_shard_block_heights m) r.
Proof.
  unfold confirmed, get_cross_shard_block_height, waiting. destruct (_ !! _) as [h|]; [|done].
  rewrite Z.leb_gt. done.
Qed.

Lemma ordering_ok r m : manager_ok m → manager_ok (process_receipt_with_ordering r m).2.
Proof.
  intros Hm. unfold process_receipt_with_ordering. rewrite se_get_step.
  destruct (confirmed _ _ _) eqn:Hc.
  - eapply quiet_ok; [|exact Hm]. by eapply quiet_process_receipt, surjective_pairing.
  - cbn [se_mod snd]. destruct Hm as [[? ? ? ? ? ? ?] Hw]. split; [done|].
    cbn [with_pending pending_receipts cross_shard_block_heights]. apply Forall_app_2; [done|].
    constructor; [|done]. by apply confirmed_waiting.
Qed.

Lemma settle_all_spec {E} acc rs m :
  ∃ acc' m', settle_all (E:=E) acc rs m = (Ok acc', m') ∧ quiet m m' ∧
    (Forall (waiting (cross_shard_block_heights m)) acc.2 → Forall (waiting (cross_shard_block_heights m)) acc'.2).
Proof.
  revert acc m. induction rs as [|r rs IH]; intros acc m; [by exists acc, m|]. cbn [settle_all].
  unfold settle_pending at 1. destruct (confirmed m (pr_source r) (pr_height r)) eqn:Hc.
  - destruct (process_receipt (pr_value r) (pr_to r) m) as [res m1] eqn:Hp.
    pose proof (quiet_process_receipt _ _ _ _ _ Hp) as Hq.
    destruct (IH (match ok res with Some _ => S acc.1 | None => acc.1 end, acc.2) m1) as (acc' & m' & He & Hq' & Hw).
    exists acc', m'. rewrite (qt_heights _ _ Hq) in Hw. split; [|split; [by etransitivity|done]].
    rewrite <- He. unfold mbind, SE_bind, se_get, se_try, mret, SE_ret. by rewrite Hc, Hp.
  - destruct (IH (acc.1, acc.2 ++ [r]) m) as (acc' & m' & He & Hq' & Hw). exists acc', m'.
    split; [|split; [done|]].
    + rewrite <- He. unfold mbind, SE_bind, se_get, mret, SE_ret. by rewrite Hc.
    + intros Ha. apply Hw. cbn. apply Forall_app_2; [done|]. constructor; [|done]. by apply confirmed_waiting.
Qed.

Lemma process_pending_ok {E} m : manager_base m → manager_ok (process_pending_receipts_async (E:=E) m).2.
Proof.
  intros Hb. unfold process_pending_receipts_async. rewrite se_get_step, se_mod_step.
  destruct (settle_all_spec (E:=E) (O, []) (pending_receipts m) (with_pending [] m)) as (acc & m1 & He & Hq & Hw).
  erewrite se_bind_step by exact He. rewrite se_mod_step. cbn [mret SE_ret snd].
  destruct (qt_base _ _ Hq) as [? ? ? ? ? ? ?]; [by destruct Hb|]. split; [done|].
  cbn [with_pending pending_receipts cross_shard_block_heights] in *.
  rewrite (qt_heights _ _ Hq), (qt_pending _ _ Hq). apply Hw. constructor.
Qed.

Lemma record_height_ok {E} i n m : manager_ok m → manager_ok (record_shard_block_height (E:=E) i n m).2.
Proof.
  intros Hm. unfold record_shard_block_height. rewrite se_get_step. destruct (match _ with Some _ => _ | None => _ end); [done|].
  rewrite se_mod_step. pose proof (process_pending_ok (E:=E) (with_heights (<[i := n]> (cross_shard_block_heights m)) m)) as Hp.
  destruct (process_pending_receipts_async (E:=E) (with_heights _ m)) as [[k|e] m'] eqn:Hpp;
    unfold mbind, SE_bind; rewrite Hpp; apply Hp; by destruct Hm as [[? ? ? ? ? ? ?] _].
Qed.

Lemma recv_channels i p msg p' : recv i p = Some (msg, p') → same_channels p p'.
Proof.
  unfold recv. destruct (channels p !! i) as [[[|m q] t c]|]; try done. intros [= _ <-].
  unfold same_channels. cbn. by rewrite length_insert.
Qed.

Lemma receive_ok {E} i m : manager_ok m → manager_ok (receive (E:=E) i m).2.
Proof.
  intros Hm. unfold receive. rewrite se_get_step. destruct (recv i _) as [[msg p]|] eqn:Hr; [|done].
  rewrite se_mod_step. assert (manager_ok (with_processor p m)) as Hm1.
  { eapply quiet_ok; [|exact Hm]. apply quiet_with_processor. by eapply recv_channels. }
  destruct msg as [r|id success|j n]; cbn [handle_message].
  - unfold mbind, SE_bind, se_try.
    pose proof (ordering_ok (MkPendingReceipt (rm_receipt_id r) (rm_source r) (rm_value r) (rm_to r) (rm_height r)) _ Hm1) as Ho.
    by destruct (process_receipt_with_ordering _ _) as [? ?].
  - eapply quiet_ok; [|exact Hm1]. by apply quiet_with_processor.
  - by apply record_height_ok.
Qed.

End Operations.

(** ** The invariant over runs *)

Section Runs.
Context `{Hex, Keccak, Blake3, Crypto, Evm, HashIter, SliceSearch}.
Context `{Codec Block, Codec (list Hash), Codec TxReceipt, Codec CrossShardMessage}.

(** The methods that change the manager.  [Register] is called with the
    shards [get_transaction_shards] returns. *)
Inductive ShardOp :=
  | Submit (now : Z) (t : Transaction)
  | Register (now : Z) (t : Transaction)
  | Process (now : Z) (h : Hash)
  | Receive (i : nat)
  | RecordHeight (i : nat) (n : u64)
  | RetryTick (now : Z)
  | RemoveTxs (i count : nat)
  | AddBlock (fuel : nat) (cpu : CpuFeatures) (buffer : list u8) (now : u64) (i : nat) (b : Block)
  | Synchronize
  | Broadcast (i : nat) (n : u64)
  | BroadcastAll
  | StartTasks.

Definition register_routed {E} (now : Z) (t : Transaction) : SE ShardManager E unit :=
  st ← route_transaction_full t; register_cross_shard_transaction now t st.1 st.2.

Definition do_shard_op (m : ShardManager) (op : ShardOp) : ShardManager :=
  match op with
  | Submit now t => (add_transaction now t m).2
  | Register now t => (register_routed (E:=string) now t m).2
  | Process now h => (process_cross_shard_transaction now h m).2
  | Receive i => (receive (E:=string) i m).2
  | RecordHeight i n => (record_shard_block_height (E:=string) i n m).2
  | RetryTick now => (retry_tick (E:=string) now m).2
  | RemoveTxs i count => (remove_shard_transactions (E:=string) i count m).2
  | AddBlock fuel cpu buffer now i b => (add_block_to_shard fuel cpu buffer now i b m).2
  | Synchronize => (synchronize_shards (E:=string) m).2
  | Broadcast i n => (broadcast_block_height (E:=string) i n m).2
  | BroadcastAll => (broadcast_all_shard_block_heights (E:=string) m).2
  | StartTasks => (start_receipt_processing (E:=string) m).2
  end.

Lemma respects_snd {S E A} (R : S → S → Prop) (op : SE S E A) s : respects R op → R s (op s).2.
Proof. intros Hop. by eapply Hop, surjective_pairing. Qed.

Lemma do_shard_op_ok op m : manager_ok m → manager_ok (do_shard_op m op).
Proof.
  intros Hm. pose proof (mo_base _ Hm) as Hb.
  destruct op; cbn [do_shard_op];
    try (eapply quiet_ok; [|exact Hm]; first [by apply quiet_add|apply respects_snd];
      first [apply quiet_process|apply quiet_retry_tick|apply quiet_remove|apply quiet_add_block
            |apply quiet_synchronize|apply quiet_broadcast|apply quiet_broadcast_all|apply quiet_start]; fail).
  - eapply quiet_ok; [|exact Hm]. destruct (route_spec (E:=string) t m Hb) as (c & Hc & Hb1).
    unfold register_routed. erewrite se_bind_step by exact Hc.
    transitivity (with_cache c m); [done|]. by eapply (quiet_register (E:=string) now t (with_cache c m)).
  - by apply receive_ok.
  - by apply record_height_ok.
Qed.

Lemma manager_new_ok cfg m : manager_new cfg = Ok m → manager_ok m.
Proof.
  unfold manager_new. destruct (Nat.eqb_spec (shard_count cfg) 0) as [|Hc]; [done|]. intros [= <-].
  split; [split|]; cbn [config shards message_processor shard_cache cross_shard_txs pending_receipts].
  - lia.
  - by rewrite length_fmap, length_seq.
  - destruct (cross_shard_wal cfg) as [file|]; [|cbn; by rewrite length_replicate].
    unfold replay_wal. cbn [with_wal new_inner wal].
    enough (∀ l acc, same_channels acc.2 (foldl replay_entry acc l).2) as Hl.
    { unfold same_channels in Hl. rewrite Hl. cbn. by rewrite length_replicate. }
    induction l as [|e l IH]; intros acc; cbn [foldl]; [done|]. etransitivity; [|apply IH].
    destruct e as [[r| |]|]; try done. cbn [replay_entry snd]. apply respects_snd, send_receipt_channels.
  - intros a i. by rewrite lookup_empty.
  - by rewrite map_size_empty.
  - apply Forall_fmap, Forall_true. intros i. done.
  - apply map_Forall_empty.
  - constructor.
Qed.

(** C16: From its construction on, whatever methods are called: every cached shard
    is the one the strategy assigns, the cache and the pools are within their
    limits, there is one channel per shard, every registered transfer goes
    between the shards of its sender and receiver, and no receipt is left
    waiting for a height that is already known. *)
Theorem shard_manager_invariant cfg m ops :
  manager_new cfg = Ok m → manager_ok (foldl do_shard_op m ops).
Proof.
  intros Hm. pose proof (manager_new_ok _ _ Hm) as Hok. clear Hm. revert m Hok.
  induction ops as [|op ops IH]; intros m Hok; cbn [foldl]; [done|]. by apply IH, do_shard_op_ok.
Qed.
End Runs.

(** ** The unified view *)

Section Unified.
Context `{Hex, Keccak, Blake3, Crypto, Evm, HashIter, SliceSearch}.
Context `{Codec Block, Codec (list Hash), Codec TxReceipt, Codec CrossShardMessage}.

Definition home_insert (cfg : ShardConfig) (i : nat) (acc : gmap Address (u128 * u64)) (kv : Address * (u128 * u64)) :=
  if (assign cfg kv.1 =? i)%nat then <[kv.1 := kv.2]> acc else acc.

Lemma merge_accounts_spec {E} i acc l m :
  manager_base m →
  ∃ c, merge_accounts (E:=E) i acc l m = (Ok (foldl (home_insert (config m) i) acc l), with_cache c m) ∧
    manager_base (with_cache c m).
Proof.
  revert acc m. induction l as [|kv l IH]; intros acc m Hb.
  { exists (shard_cache m). assert (with_cache (shard_cache m) m = m) as -> by (by destruct m). done. }
  cbn [merge_accounts foldl]. destruct (get_shard_spec (E:=E) kv.1 m Hb) as (c & Hc & Hb1).
  assert (merge_account (E:=E) i acc kv m = (Ok (home_insert (config m) i acc kv), with_cache c m)) as Hm.
  { unfold merge_account. by erewrite se_bind_step by exact Hc. }
  erewrite se_bind_step by exact Hm. destruct (IH (home_insert (config m) i acc kv) (with_cache c m) Hb1) as (c2 & Hc2 & Hb2).
  exists c2. done.
Qed.

Definition accounts_of (s : Shard) : gmap Address (u128 * u64) := get_all_accounts (ledger (blockchain s)).

Fixpoint merged (cfg : ShardConfig) (i : nat) (acc : gmap Address (u128 * u64)) (ss : list Shard) :
    gmap Address (u128 * u64) :=
  match ss with
  | [] => acc
  | s :: ss' => merged cfg (S i) (foldl (home_insert cfg i) acc (hm_iter (accounts_of s))) ss'
  end.

Lemma merge_shards_spec {E} i acc ss m :
  manager_base m →
  ∃ c, merge_shards (E:=E) i acc ss m = (Ok (merged (config m) i acc ss), with_cache c m) ∧ manager_base (with_cache c m).
Proof.
  revert i acc m. induction ss as [|s ss IH]; intros i acc m Hb.
  { exists (shard_cache m). assert (with_cache (shard_cache m) m = m) as -> by (by destruct m). done. }
  cbn [merge_shards merged].
  destruct (merge_accounts_spec (E:=E) i acc (hm_iter (accounts_of s)) m Hb) as (c & Hc & Hb1).
  erewrite se_bind_step by exact Hc.
  destruct (IH (S i) (foldl (home_insert (config m) i) acc (hm_iter (accounts_of s))) (with_cache c m) Hb1) as (c2 & Hc2 & Hb2).
  exists c2. done.
Qed.

Lemma home_insert_lookup cfg i acc l a :
  NoDup l.*1 →
  foldl (home_insert cfg i) acc l !! a
  = if (assign cfg a =? i)%nat
    then match list_to_map (M:=gmap Address (u128 * u64)) l !! a with Some x => Some x | None => acc !! a end
    else acc !! a.
Proof.
  revert acc. induction l as [|[k v] l IH]; intros acc Hnd.
  { cbn. rewrite lookup_empty. by destruct (_ =? _)%nat. }
  rewrite fmap_cons in Hnd. apply NoDup_cons in Hnd as [Hk Hnd]. cbn [foldl]. rewrite IH by done. clear IH.
  cbn [list_to_map foldr fst snd]. unfold home_insert. cbn [fst snd].
  destruct (decide (k = a)) as [->|Hne].
  - rewrite lookup_insert_eq. rewrite (not_elem_of_list_to_map_1 l a) by done.
    destruct (assign cfg a =? i)%nat; [|done]. by rewrite lookup_insert_eq.
  - rewrite lookup_insert_ne by done. destruct (assign cfg k =? i)%nat; [|done]. by rewrite lookup_insert_ne.
Qed.
Lemma home_insert_iter cfg i acc (g : gmap Address (u128 * u64)) a :
  foldl (home_insert cfg i) acc (hm_iter g) !! a
  = if (assign cfg a =? i)%nat then match g !! a with Some x => Some x | None => acc !! a end else acc !! a.
Proof.
  assert (NoDup (hm_iter g).*1) as Hnd by (rewrite hm_iter_perm; apply NoDup_fst_map_to_list).
  rewrite home_insert_lookup by done. by rewrite (list_to_map_proper _ _ Hnd (hm_iter_perm g)), list_to_map_to_list.
Qed.

Lemma merged_lookup cfg i acc ss a :
  (∀ j, (i <= j)%nat → assign cfg a = j → acc !! a = None) →
  merged cfg i acc ss !! a
  = if (i <=? assign cfg a)%nat
    then match ss !! (assign cfg a - i)%nat with Some s => accounts_of s !! a | None => None end
    else acc !! a.
Proof.
  revert i acc. induction ss as [|s ss IH]; intros i acc Hacc.
  { cbn [merged]. destruct (Nat.leb_spec i (assign cfg a)); [|done]. by apply (Hacc (assign cfg a)). }
  cbn [merged]. rewrite IH.
  - rewrite home_insert_iter. destruct (Nat.leb_spec (S i) (assign cfg a)) as [Hle|Hle].
    + rewrite (proj2 (Nat.leb_le i _)) by lia.
      assert (assign cfg a - i = S (assign cfg a - S i))%nat as -> by lia. done.
    + destruct (Nat.eqb_spec (assign cfg a) i) as [Heq|Hne].
      * rewrite (proj2 (Nat.leb_le i _)) by lia. assert (assign cfg a - i = 0)%nat as -> by lia. cbn.
        destruct (accounts_of s !! a); [done|]. by apply (Hacc i).
      * by rewrite (proj2 (Nat.leb_gt i _)) by lia.
  - intros j Hj Ha. rewrite home_insert_iter. destruct (Nat.eqb_spec (assign cfg a) i); [lia|]. by apply (Hacc j); [lia|].
Qed.

(** After synchronizing, the unified view of an address is what its home shard
    holds for it, whatever other shards hold. *)
Theorem synchronize_shards_spec m a :
  manager_ok m →
  let m' := (synchronize_shards (E:=string) m).2 in
  unified_state m' !! a = (s ← shards m !! assign (config m) a; accounts_of s !! a) ∧ shards m' = shards m.
Proof.
  intros [Hb _]. unfold synchronize_shards. rewrite se_get_step.
  destruct (merge_shards_spec (E:=string) 0 ∅ (shards m) m Hb) as (c & Hc & _). erewrite se_bind_step by exact Hc.
  cbn [se_mod snd with_unified unified_state shards with_cache]. split; [|done].
  rewrite merged_lookup by (intros; by rewrite lookup_empty). cbn [Nat.leb]. rewrite Nat.sub_0_r.
  by destruct (shards m !! assign (config m) a).
Qed.
End Unified.
