(* ===== verification/ShardAccounting.v ===== *)
(** * ShardAccounting: value across shards

    The balances of all shards and the value of the receipts on their way are
    one total.  A transfer takes its fee out of it and nothing else; the timeout
    of a transfer adds to it. *)

From S2P Require Import Prelude Types Block Pow Error Ledger BlockIndex Execution Chain Messaging Sharding ShardTheorems.

Section Accounting.
Context `{Hex, Keccak, Blake3, Crypto, Evm, HashIter, SliceSearch}.
Context `{Codec Block, Codec (list Hash), Codec TxReceipt, Codec CrossShardMessage}.

Definition balance_in (s : Shard) (a : Address) : u128 := (view (ledger (blockchain s)) a).1.

(** The accounts that are counted. *)
Record dom_ok (dom : list Address) : Prop := {
  do_nodup : NoDup dom;
  do_wf : Forall (λ a, address_wf a = true) dom }.

Definition chain_worth (dom : list Address) (s : Shard) : Z := supply (view (ledger (blockchain s))) dom.
Definition msg_value (msg : CrossShardMessage) : Z := match msg with ReceiptM r => rm_value r | _ => 0 end.
Definition channel_value (ch : Channel) : Z := zsum msg_value (queue ch).

Definition on_chains (dom : list Address) (m : ShardManager) : Z := zsum (chain_worth dom) (shards m).
Definition in_channels (p : MessageProcessor) : Z := zsum channel_value (channels p).
Definition in_retries (m : ShardManager) : Z := zsum (λ e, rm_value (re_msg e)) (retry_queue m).
Definition in_waiting (m : ShardManager) : Z := zsum pr_value (pending_receipts m).

Definition worth (dom : list Address) (m : ShardManager) : Z :=
  on_chains dom m + in_channels (message_processor m) + in_retries m + in_waiting m.

(** What the types allow, with every receiver among the counted accounts. *)
Definition payable (dom : list Address) (v : u128) (a : Address) : Prop := 0 <= v ∧ a ∈ dom.
Definition msg_ok (dom : list Address) (msg : CrossShardMessage) : Prop :=
  match msg with ReceiptM r => payable dom (rm_value r) (rm_to r) | _ => True end.

Definition ledgers_ok (m : ShardManager) : Prop := Forall (λ s, ledger_ok (ledger (blockchain s))) (shards m).

Record funds_ok (dom : list Address) (m : ShardManager) : Prop := {
  fo_ledgers : ledgers_ok m;
  fo_channels : Forall (λ ch, Forall (msg_ok dom) (queue ch)) (channels (message_processor m));
  fo_retries : Forall (λ e, payable dom (rm_value (re_msg e)) (rm_to (re_msg e))) (retry_queue m);
  fo_waiting : Forall (λ r, payable dom (pr_value r) (pr_to r)) (pending_receipts m) }.

(** ** One account of one chain *)

(** The ledger of [c] with the balance of [a] replaced. *)
Definition rebalanced (a : Address) (b : u128) (c c' : Blockchain) : Prop :=
  ∃ l', c' = set_ledger l' c ∧ ledger_ok l' ∧
    ∀ a', address_wf a' = true → view l' a' = set_bal (view (ledger c)) a b a'.

Lemma update_balance_spec a f c :
  ledger_ok (ledger c) → address_wf a = true → in_u128 (f (view (ledger c) a).1) →
  ∃ c', update_balance a f c = (Ok tt, c') ∧ rebalanced a (f (view (ledger c) a).1) c c'.
Proof.
  intros [Hg Hr] Ha Hf. destruct (get_balance_spec a (ledger c)) as (l1 & Hget & Hrd).
  destruct (set_balance_spec a (f (view (ledger c) a).1) l1 (reads_good _ _ Hrd Hg) Ha Hf) as (l2 & Hset & Hw & Hn).
  exists (set_ledger l2 c). split.
  - unfold update_balance, on_ledger, zoom, mbind, SE_bind. rewrite Hget. cbn [set_ledger ledger]. by rewrite Hset.
  - exists l2. split; [done|].
    assert (∀ a', address_wf a' = true → view l2 a' = set_bal (view (ledger c)) a (f (view (ledger c) a).1) a') as Hv.
    { intros a' Ha'. unfold set_bal, put_acct. destruct (decide (a' = a)) as [->|Hne].
      - rewrite (surjective_pairing (view l2 a)), (wr_balance _ _ _ _ Hw) by done. rewrite decide_True by done.
        by rewrite Hn, (rd_view _ _ Hrd).
      - rewrite (surjective_pairing (view l2 a')), (wr_balance _ _ _ _ Hw), (wr_nonce _ _ _ _ Hw) by done.
        rewrite decide_False by done. rewrite (rd_view _ _ Hrd). by destruct (view (ledger c) a'). }
    split; [|done]. split; [apply (wr_good _ _ _ _ Hw)|]. intros a' Ha'. rewrite (Hv a' Ha').
    unfold set_bal, put_acct. destruct (decide (a' = a)) as [->|]; [|by apply Hr]. cbn. split; [done|by apply Hr].
Qed.

Lemma rebalanced_supply a b c c' dom :
  dom_ok dom → a ∈ dom → rebalanced a b c c' →
  supply (view (ledger c')) dom = supply (view (ledger c)) dom - (view (ledger c) a).1 + b.
Proof.
  intros [Hnd Hwf] Ha (l' & -> & _ & Hv). cbn [set_ledger ledger].
  rewrite (supply_ext (view l') (set_bal (view (ledger c)) a b)).
  - unfold set_bal. by rewrite supply_put.
  - intros a' Ha'. apply Hv. rewrite Forall_forall in Hwf. by apply Hwf.
Qed.

(** ** One chain of the manager *)

Lemma on_chain_step {A} i (op : BM A) m s r c :
  shards m !! i = Some s → op (blockchain s) = (r, c) → on_chain i op m = (r, with_shards <[i := set_chain c s]> m).
Proof. intros Hi Hop. unfold on_chain. by rewrite Hi, Hop. Qed.

Lemma ledgers_ok_insert m i c s :
  ledgers_ok m → ledger_ok (ledger c) → ledgers_ok (with_shards <[i := set_chain c s]> m).
Proof. intros Hm Hc. by apply Forall_insert. Qed.

Lemma on_chains_insert dom m i s s' :
  shards m !! i = Some s →
  on_chains dom (with_shards <[i := s']> m) = on_chains dom m - chain_worth dom s + chain_worth dom s'.
Proof. intros Hi. by apply zsum_insert. Qed.

Lemma chain_worth_nonneg dom s : dom_ok dom → ledger_ok (ledger (blockchain s)) → 0 <= chain_worth dom s.
Proof.
  intros [_ Hwf] [_ Hr]. unfold chain_worth, supply. apply (zsum_nonneg (λ a, (view (ledger (blockchain s)) a).1)).
  eapply Forall_impl; [exact Hwf|]. intros a Ha. apply Hr in Ha as [Hb _]. mlia.
Qed.
Lemma balance_le_worth dom s a :
  dom_ok dom → a ∈ dom → ledger_ok (ledger (blockchain s)) → 0 <= balance_in s a <= chain_worth dom s.
Proof.
  intros [_ Hwf] Ha [_ Hr]. rewrite Forall_forall in Hwf. apply supply_member; [|done].
  intros c Hc. apply Hwf, Hr in Hc as [Hb _]. mlia.
Qed.
Lemma chain_le_chains dom m i s :
  dom_ok dom → ledgers_ok m → shards m !! i = Some s → chain_worth dom s <= on_chains dom m.
Proof.
  intros Hd Hl Hi. apply zsum_elem; [|by eapply list_elem_of_lookup_2].
  eapply Forall_impl; [exact Hl|]. intros s' Hs. by apply chain_worth_nonneg.
Qed.

(** Shard [i] got [v] on account [a], and nothing else of value moved. *)
Record credited (dom : list Address) (v : Z) (m m' : ShardManager) : Prop := {
  cd_quiet : quiet m m';
  cd_ledgers : ledgers_ok m';
  cd_processor : message_processor m' = message_processor m;
  cd_retries : retry_queue m' = retry_queue m;
  cd_cross : cross_shard_txs m' = cross_shard_txs m;
  cd_chains : on_chains dom m' = on_chains dom m + v }.

Lemma chain_credit_spec dom i a v m s :
  dom_ok dom → ledgers_ok m → shards m !! i = Some s → a ∈ dom → 0 <= v → on_chains dom m + v <= u128_max →
  ∃ m', on_chain i (update_balance a (λ b, sat_add128 b v)) m = (Ok tt, m') ∧ credited dom v m m'.
Proof.
  intros Hd Hl Hi Ha Hv Hmax.
  assert (ledger_ok (ledger (blockchain s))) as Hs by (by apply (Forall_lookup_1 _ _ _ _ Hl Hi)).
  pose proof (balance_le_worth dom s a Hd Ha Hs) as Hb. pose proof (chain_le_chains dom m i s Hd Hl Hi).
  unfold balance_in in Hb. set (b := (view (ledger (blockchain s)) a).1) in *.
  assert (sat_add128 b v = b + v) as Hsat by mlia.
  destruct (update_balance_spec a (λ b, sat_add128 b v) (blockchain s) Hs) as (c' & Hup & Hre).
  { destruct Hd as [_ Hwf]. rewrite Forall_forall in Hwf. by apply Hwf. }
  { fold b. rewrite Hsat. mlia. }
  fold b in Hre. rewrite Hsat in Hre. eexists. split; [by eapply on_chain_step|]. split; try done.
  - by apply (quiet_with_shard i s).
  - apply ledgers_ok_insert; [done|]. destruct Hre as (l' & -> & Hl' & _). done.
  - rewrite (on_chains_insert _ _ _ s) by done. unfold chain_worth at 2. cbn [set_chain blockchain].
    rewrite (rebalanced_supply a (b + v) (blockchain s)) by done. fold b. unfold chain_worth. lia.
Qed.

Lemma process_receipt_spec dom v a m :
  dom_ok dom → manager_base m → ledgers_ok m → payable dom v a → on_chains dom m + v <= u128_max →
  ∃ m', process_receipt v a m = (Ok tt, m') ∧ credited dom v m m'.
Proof.
  intros Hd Hb Hl [Hv Ha] Hmax. unfold process_receipt.
  destruct (get_shard_spec (E:=string) a m Hb) as (c & Hc & Hb1). erewrite se_bind_step by exact Hc. rewrite se_get_step.
  cbn [with_cache shards]. pose proof (assign_lt (config m) a (mb_count _ Hb)) as Hlt. rewrite <- (mb_shards _ Hb) in Hlt.
  destruct (lookup_lt_is_Some_2 _ _ Hlt) as [s Hs]. rewrite Hs.
  destruct (chain_credit_spec dom (assign (config m) a) a v (with_cache c m) s) as (m' & Hm' & [Q L P R X W]); try done.
  exists m'. split; [unfold se_map_err; by rewrite Hm'|]. split; try done. by transitivity (with_cache c m).
Qed.

(** ** Receipts that wait *)

Lemma settle_all_worth {E} dom acc rs m :
  dom_ok dom → manager_base m → ledgers_ok m → Forall (λ r, payable dom (pr_value r) (pr_to r)) rs →
  on_chains dom m + zsum pr_value rs <= u128_max →
  ∃ acc' m' v, settle_all (E:=E) acc rs m = (Ok acc', m') ∧ credited dom v m m' ∧
    v + zsum pr_value acc'.2 = zsum pr_value acc.2 + zsum pr_value rs ∧
    (Forall (λ r, payable dom (pr_value r) (pr_to r)) acc.2 → Forall (λ r, payable dom (pr_value r) (pr_to r)) acc'.2).
Proof.
  intros Hd. revert acc m. induction rs as [|r rs IH]; intros acc m Hb Hl Hrs Hmax.
  { exists acc, m, 0. split_and!; try done; [|cbn; lia]. split; try done. lia. }
  apply Forall_cons in Hrs as [Hr Hrs]. rewrite zsum_cons in Hmax.
  assert (0 <= zsum pr_value rs) as Hpos by (apply zsum_nonneg; eapply Forall_impl; [exact Hrs|]; by intros ? []).
  assert (0 <= pr_value r) as Hrv by apply Hr.
  cbn [settle_all]. unfold settle_pending at 1. destruct (confirmed m (pr_source r) (pr_height r)) eqn:Hc.
  - destruct (process_receipt_spec dom (pr_value r) (pr_to r) m) as (m1 & Hp & Hcr); try done; [lia|].
    destruct (IH (S acc.1, acc.2) m1) as (acc' & m' & v & He & Hcr' & Hsum & Hpay); try done.
    { by apply (qt_base _ _ (cd_quiet _ _ _ _ Hcr)). }
    { apply Hcr. }
    { rewrite (cd_chains _ _ _ _ Hcr). lia. }
    exists acc', m', (pr_value r + v). split_and!; [|split|..].
    + rewrite <- He. unfold mbind, SE_bind, se_get, se_try, mret, SE_ret. by rewrite Hc, Hp.
    + transitivity m1; [apply Hcr|apply Hcr'].
    + apply Hcr'.
    + by rewrite (cd_processor _ _ _ _ Hcr'), (cd_processor _ _ _ _ Hcr).
    + by rewrite (cd_retries _ _ _ _ Hcr'), (cd_retries _ _ _ _ Hcr).
    + by rewrite (cd_cross _ _ _ _ Hcr'), (cd_cross _ _ _ _ Hcr).
    + rewrite (cd_chains _ _ _ _ Hcr'), (cd_chains _ _ _ _ Hcr). lia.
    + rewrite zsum_cons. cbn [snd] in Hsum. lia.
    + done.
  - destruct (IH (acc.1, acc.2 ++ [r]) m) as (acc' & m' & v & He & Hcr' & Hsum & Hpay); try done; [lia|].
    exists acc', m', v. split_and!; [|done|..].
    + rewrite <- He. unfold mbind, SE_bind, se_get, mret, SE_ret. by rewrite Hc.
    + cbn [snd] in Hsum. rewrite zsum_snoc in Hsum. rewrite zsum_cons. lia.
    + intros Ha. apply Hpay. cbn. apply Forall_app_2; [done|]. by constructor.
Qed.
(** A step that keeps the total, up to [d], and what the types allow. *)
Record balanced (dom : list Address) (d : Z) (m m' : ShardManager) : Prop := {
  bl_funds : funds_ok dom m';
  bl_worth : worth dom m' = worth dom m + d }.

Lemma in_waiting_nonneg dom m : funds_ok dom m → 0 <= in_waiting m.
Proof. intros Hf. apply zsum_nonneg. eapply Forall_impl; [apply Hf|]. by intros ? []. Qed.
Lemma in_retries_nonneg dom m : funds_ok dom m → 0 <= in_retries m.
Proof. intros Hf. apply zsum_nonneg. eapply Forall_impl; [apply Hf|]. by intros ? []. Qed.
Lemma msg_ok_nonneg dom msg : msg_ok dom msg → 0 <= msg_value msg.
Proof. destruct msg; cbn; [by intros []|done..]. Qed.
Lemma in_channels_nonneg dom m : funds_ok dom m → 0 <= in_channels (message_processor m).
Proof.
  intros Hf. apply zsum_nonneg. eapply Forall_impl; [apply Hf|]. intros ch Hch. apply zsum_nonneg.
  eapply Forall_impl; [exact Hch|]. apply msg_ok_nonneg.
Qed.

Lemma process_pending_worth {E} dom m :
  dom_ok dom → manager_base m → funds_ok dom m → worth dom m <= u128_max →
  balanced dom 0 m (process_pending_receipts_async (E:=E) m).2.
Proof.
  intros Hd Hb Hf Hmax. pose proof (in_channels_nonneg _ _ Hf). pose proof (in_retries_nonneg _ _ Hf).
  unfold worth in Hmax. unfold process_pending_receipts_async. rewrite se_get_step, se_mod_step.
  destruct (settle_all_worth (E:=E) dom (O, []) (pending_receipts m) (with_pending [] m))
    as (acc & m1 & v & He & Hcr & Hsum & Hpay); [done|by destruct Hb|apply Hf|apply Hf| |].
  { change (on_chains dom (with_pending [] m)) with (on_chains dom m). unfold in_waiting in Hmax. lia. }
  erewrite se_bind_step by exact He. rewrite se_mod_step. cbn [mret SE_ret snd fst] in *.
  destruct Hcr as [Hq Hl Hp Hr Hx Hch]. pose proof (qt_pending _ _ Hq) as Hpe.
  cbn [with_pending pending_receipts message_processor retry_queue] in Hp, Hr, Hpe.
  change (on_chains dom (with_pending [] m)) with (on_chains dom m) in Hch. split.
  - split; cbn [with_pending pending_receipts message_processor retry_queue]; try done.
    + rewrite Hp. apply Hf.
    + rewrite Hr. apply Hf.
    + rewrite Hpe. by apply Hpay.
  - unfold worth, in_retries, in_waiting. cbn [with_pending pending_receipts message_processor retry_queue].
    change (on_chains dom (with_pending _ m1)) with (on_chains dom m1). rewrite Hp, Hr, Hpe, Hch.
    change ([] ++ acc.2) with acc.2. cbn [zsum foldr] in Hsum. lia.
Qed.

Lemma record_height_worth {E} dom i n m :
  dom_ok dom → manager_base m → funds_ok dom m → worth dom m <= u128_max →
  balanced dom 0 m (record_shard_block_height (E:=E) i n m).2.
Proof.
  intros Hd Hb Hf Hmax. unfold record_shard_block_height. rewrite se_get_step.
  destruct (match _ with Some _ => _ | None => _ end); [split; [done|cbn; lia]|]. rewrite se_mod_step.
  set (m1 := with_heights _ m). assert (worth dom m1 = worth dom m) as Hw by done.
  destruct (process_pending_worth (E:=E) dom m1) as [Hf' Hw']; [done|by destruct Hb|by destruct Hf|by rewrite Hw|].
  assert (∀ r, ((_ ← process_pending_receipts_async; mret tt) m1 : result E unit * _) = r →
    r.2 = (process_pending_receipts_async (E:=E) m1).2) as Hsnd.
  { intros r <-. unfold mbind, SE_bind. by destruct (process_pending_receipts_async m1) as [[]]. }
  erewrite Hsnd by reflexivity. split; [done|]. lia.
Qed.

Lemma ordering_worth dom r m :
  dom_ok dom → manager_base m → funds_ok dom m → payable dom (pr_value r) (pr_to r) →
  worth dom m + pr_value r <= u128_max →
  balanced dom (pr_value r) m (process_receipt_with_ordering r m).2.
Proof.
  intros Hd Hb Hf Hr Hmax. pose proof (in_channels_nonneg _ _ Hf). pose proof (in_retries_nonneg _ _ Hf).
  pose proof (in_waiting_nonneg _ _ Hf). unfold process_receipt_with_ordering. rewrite se_get_step.
  destruct (confirmed _ _ _).
  - destruct (process_receipt_spec dom (pr_value r) (pr_to r) m) as (m' & Hp & [Q L P R X W]); try done; [apply Hf|unfold worth in Hmax; lia|].
    rewrite Hp. cbn [snd]. split.
    + split; [done|rewrite P; apply Hf|rewrite R; apply Hf|rewrite (qt_pending _ _ Q); apply Hf].
    + unfold worth, in_retries, in_waiting. rewrite W, P, R, (qt_pending _ _ Q). lia.
  - cbn [se_mod snd]. split.
    + split; [apply Hf..|]. cbn [with_pending pending_receipts]. apply Forall_app_2; [apply Hf|by constructor].
    + unfold worth, in_waiting. cbn [with_pending pending_receipts message_processor]. rewrite zsum_snoc.
      change (on_chains dom (with_pending _ m)) with (on_chains dom m). unfold in_retries.
      cbn [with_pending retry_queue]. lia.
Qed.

Lemma recv_spec dom i p msg p' :
  recv i p = Some (msg, p') → Forall (λ ch, Forall (msg_ok dom) (queue ch)) (channels p) →
  in_channels p' = in_channels p - msg_value msg ∧ msg_ok dom msg ∧
  Forall (λ ch, Forall (msg_ok dom) (queue ch)) (channels p').
Proof.
  unfold recv. destruct (channels p !! i) as [[[|m q] t c]|] eqn:Hi; try done. intros [= <- <-] Hok.
  pose proof (Forall_lookup_1 _ _ _ _ Hok Hi) as Hq. apply Forall_cons in Hq as [Hm Hq]. split_and!; [|done|].
  - unfold in_channels. cbn [set_channel channels]. rewrite (zsum_insert _ _ _ _ _ Hi). unfold channel_value.
    cbn [queue]. rewrite zsum_cons. lia.
  - cbn [set_channel channels]. by apply Forall_insert.
Qed.

(** Receiving a message, whatever it is, keeps the total: a receipt is turned
    into a balance or waits, and a height releases receipts that waited. *)
Lemma receive_worth {E} dom i m :
  dom_ok dom → manager_base m → funds_ok dom m → worth dom m <= u128_max →
  balanced dom 0 m (receive (E:=E) i m).2.
Proof.
  intros Hd Hb Hf Hmax. unfold receive. rewrite se_get_step.
  destruct (recv i (message_processor m)) as [[msg p]|] eqn:Hr; [|split; [done|cbn; lia]].
  rewrite se_mod_step. destruct (recv_spec dom i _ _ _ Hr (fo_channels _ _ Hf)) as (Hv & Hm & Hch).
  assert (worth dom (with_processor p m) = worth dom m - msg_value msg) as Hw.
  { unfold worth. cbn [with_processor message_processor]. rewrite Hv.
    change (on_chains dom (with_processor p m)) with (on_chains dom m).
    change (in_retries (with_processor p m)) with (in_retries m).
    change (in_waiting (with_processor p m)) with (in_waiting m). lia. }
  assert (funds_ok dom (with_processor p m)) as Hf1 by (split; [apply Hf|done|apply Hf|apply Hf]).
  assert (manager_base (with_processor p m)) as Hb1.
  { apply (quiet_with_processor p m); [by eapply recv_channels|done]. }
  destruct msg as [r|id success|j n]; cbn [handle_message msg_value msg_ok] in *.
  - set (pr := MkPendingReceipt _ _ _ _ _).
    destruct (ordering_worth dom pr (with_processor p m)) as [Hf2 Hw2]; try done; [cbn; lia|].
    assert (∀ x, ((_ ← se_try (process_receipt_with_ordering pr); mret tt) (with_processor p m) : result E unit * _) = x →
      x.2 = (process_receipt_with_ordering pr (with_processor p m)).2) as Hsnd.
    { intros x <-. unfold mbind, SE_bind, se_try. by destruct (process_receipt_with_ordering pr _). }
    erewrite Hsnd by reflexivity. split; [done|]. cbn in Hw2. lia.
  - cbn [se_mod snd]. split; [split; apply Hf1|]. rewrite <- (Z.add_0_r (worth dom m)).
    transitivity (worth dom (with_processor p m)); [done|lia].
  - destruct (record_height_worth (E:=E) dom j n (with_processor p m)) as [Hf2 Hw2]; try done; [lia|].
    split; [done|]. lia.
Qed.

(** ** The debit and the receipt *)

Lemma debit_source_spec t c :
  ledger_ok (ledger c) → tx_ok t →
  let b := (view (ledger c) (from t)).1 in
  let total := sat_add128 (value t) (fee t) in
  if total <=? b
  then ∃ c', debit_source t c = (Ok tt, c') ∧ rebalanced (from t) (b - total) c c'
  else ∃ l', debit_source t c = (Err (InvalidTransaction "Insufficient balance for cross-shard transaction"),
                                 set_ledger l' c) ∧ reads (ledger c) l'.
Proof.
  intros Hl Ht b total. destruct (get_balance_spec (from t) (ledger c)) as (l1 & Hget & Hrd).
  assert (on_ledger (get_balance (from t)) c = (Ok b, set_ledger l1 c)) as Hg.
  { unfold on_ledger, zoom. by rewrite Hget. }
  assert (0 <= total) as Htot. { pose proof (txo_value _ Ht). pose proof (txo_fee _ Ht). unfold total. mlia. }
  pose proof (lo_range _ Hl (from t) (txo_from _ Ht)) as [Hbr _]. fold b in Hbr.
  unfold debit_source. fold total.
  destruct (total <=? b) eqn:Hle.
  - assert ((view l1 (from t)).1 = b) as Hb1 by (unfold b; by rewrite (rd_view _ _ Hrd)).
    destruct (update_balance_spec (from t) (λ b, sat_sub b total) (set_ledger l1 c)) as (c' & Hup & l' & Hc' & Hl' & Hv).
    { cbn [set_ledger ledger]. split; [eapply reads_good; [exact Hrd|apply Hl]|]. intros a Ha.
      rewrite (rd_view _ _ Hrd). by apply Hl. }
    { apply Ht. }
    { cbn [set_ledger ledger]. rewrite Hb1. bool_to_prop. mlia. }
    exists c'. split.
    + etransitivity; [eapply se_bind_step, Hg|]. etransitivity; [eapply se_read_step; by rewrite Hle|]. exact Hup.
    + exists l'. subst c'. split; [done|]. split; [done|]. intros a Ha. rewrite (Hv a Ha). cbn [set_ledger ledger].
      rewrite Hb1. assert (sat_sub b total = b - total) as -> by (bool_to_prop; mlia).
      unfold set_bal, put_acct. destruct (decide _); by rewrite (rd_view _ _ Hrd).
  - exists l1. split; [|done]. etransitivity; [eapply se_bind_step, Hg|]. eapply se_read_fail. by rewrite Hle.
Qed.

Lemma send_receipt_worth msg p r p' :
  send_receipt msg p = (r, p') →
  in_channels p' = in_channels p + (if is_ok r then rm_value msg else 0) ∧
  ∀ dom, Forall (λ ch, Forall (msg_ok dom) (queue ch)) (channels p) → payable dom (rm_value msg) (rm_to msg) →
    Forall (λ ch, Forall (msg_ok dom) (queue ch)) (channels p').
Proof.
  unfold send_receipt. rewrite se_get_step. destruct (channels p !! rm_target msg) as [ch|] eqn:Hch.
  - rewrite se_mod_step. unfold enqueue. change (channels (append_wal (ReceiptM msg) p)) with (channels p). rewrite Hch.
    unfold try_send. destruct (closed ch); [|destruct (_ <=? _)]; intros [= <- <-]; cbn [is_ok].
    + unfold in_channels. cbn [append_wal channels]. split; [lia|done].
    + unfold in_channels. cbn [append_wal channels]. split; [lia|done].
    + unfold in_channels. cbn [set_channel append_wal channels]. rewrite (zsum_insert _ _ _ _ _ Hch).
      unfold channel_value at 3. cbn [queue]. rewrite zsum_snoc. cbn [msg_value]. unfold channel_value at 2.
      split; [lia|]. intros dom Hok Hp. apply Forall_insert; [done|]. cbn [queue]. apply Forall_app_2.
      * by apply (Forall_lookup_1 _ _ _ _ Hok Hch).
      * by constructor.
  - intros [= <- <-]. cbn [is_ok]. split; [lia|done].
Qed.

Definition charged (x : CrossShardTransaction) : Z := sat_add128 (value (cr_tx x)) (fee (cr_tx x)).

(** Whether the sender can pay for a registered transfer. *)
Definition covers (m : ShardManager) (x : CrossShardTransaction) : bool :=
  match shards m !! cr_source x with Some s => charged x <=? balance_in s (from (cr_tx x)) | None => false end.

Lemma in_retries_snoc m e : in_retries (with_retries (retry_queue m ++ [e]) m) = in_retries m + rm_value (re_msg e).
Proof. unfold in_retries. cbn [with_retries retry_queue]. by rewrite zsum_snoc. Qed.

(** Once the debit is done, the receipt is in a channel or in the retry queue. *)
Lemma dispatch_worth dom now h msg m :
  funds_ok dom m → payable dom (rm_value msg) (rm_to msg) →
  ∃ m', (r ← on_processor (E:=BlockchainError) (send_receipt msg);
         match r with
         | Ok _ => se_mod (with_cross (alter mark_committed h))
         | Err _ => se_mod (λ m, with_retries (retry_queue m ++ [MkRetry msg 0 (now + from_secs 1)]) m)
         end) m = (Ok tt, m') ∧ balanced dom (rm_value msg) m m' ∧ on_chains dom m' = on_chains dom m.
Proof.
  intros Hf Hp. destruct (send_receipt msg (message_processor m)) as [r p] eqn:Hs.
  destruct (send_receipt_worth msg _ _ _ Hs) as [Hv Hok].
  assert (on_processor (E:=BlockchainError) (send_receipt msg) m = (Ok r, with_processor p m)) as Hon.
  { unfold on_processor. by rewrite Hs. }
  erewrite se_bind_step by exact Hon. destruct r as [[]|e]; cbn [is_ok] in Hv.
  - eexists. split; [done|]. split; [|done]. split.
    + split; [apply Hf|by apply Hok; [apply Hf|]|apply Hf|apply Hf].
    + unfold worth. cbn [with_cross with_processor message_processor]. rewrite Hv.
      change (on_chains dom (with_cross _ _)) with (on_chains dom m).
      change (in_retries (with_cross _ _)) with (in_retries m). change (in_waiting (with_cross _ _)) with (in_waiting m).
      lia.
  - eexists. split; [done|]. split; [|done]. split.
    + split; [apply Hf|by apply Hok; [apply Hf|]| |apply Hf]. cbn [with_retries with_processor retry_queue].
      apply Forall_app_2; [apply Hf|by constructor].
    + unfold worth. rewrite in_retries_snoc. cbn [re_msg with_retries with_processor message_processor]. rewrite Hv.
      change (on_chains dom (with_retries _ _)) with (on_chains dom m).
      change (in_retries (with_processor p m)) with (in_retries m).
      change (in_waiting (with_retries _ _)) with (in_waiting m). lia.
Qed.

Lemma chain_reads_worth dom i s l' m :
  ledgers_ok m → shards m !! i = Some s → reads (ledger (blockchain s)) l' →
  let m' := with_shards <[i := set_chain (set_ledger l' (blockchain s)) s]> m in
  ledgers_ok m' ∧ on_chains dom m' = on_chains dom m.
Proof.
  intros Hl Hi Hr m'. pose proof (Forall_lookup_1 _ _ _ _ Hl Hi) as [Hg Hrange]. split.
  - apply ledgers_ok_insert; [done|]. cbn [set_ledger ledger]. split; [by eapply reads_good|]. intros a Ha.
    rewrite (rd_view _ _ Hr). by apply Hrange.
  - unfold m'. rewrite (on_chains_insert _ _ _ s) by done. unfold chain_worth. cbn [set_chain blockchain set_ledger ledger].
    rewrite (supply_ext (view l') (view (ledger (blockchain s)))); [lia|]. intros a _. apply Hr.
Qed.

(** Processing a registered transfer: it succeeds exactly when the sender can
    pay, and then only the fee leaves the total. *)
Lemma process_worth dom now h x m :
  dom_ok dom → manager_base m → funds_ok dom m → cross_shard_txs m !! h = Some x →
  tx_ok (cr_tx x) → from (cr_tx x) ∈ dom → to (cr_tx x) ∈ dom →
  ∃ m', process_cross_shard_transaction now h m
      = (if covers m x then Ok tt
         else Err (InvalidTransaction "Insufficient balance for cross-shard transaction"), m') ∧
    balanced dom (if covers m x then value (cr_tx x) - charged x else 0) m m' ∧
    on_chains dom m' = on_chains dom m - (if covers m x then charged x else 0).
Proof.
  intros Hd Hb Hf Hx Ht Hfrom Hto. unfold process_cross_shard_transaction. rewrite se_get_step, Hx.
  destruct (mb_cross _ Hb h x Hx) as (_ & _ & Hroute).
  pose proof (route_lt (config m) (cr_tx x) (mb_count _ Hb)) as [Hlt _]. rewrite <- Hroute in Hlt.
  cbn [fst] in Hlt. rewrite <- (mb_shards _ Hb) in Hlt. destruct (lookup_lt_is_Some_2 _ _ Hlt) as [s Hs].
  unfold covers, charged, balance_in. rewrite Hs.
  pose proof (Forall_lookup_1 _ _ _ _ (fo_ledgers _ _ Hf) Hs) as Hl. cbn beta in Hl.
  pose proof (debit_source_spec (cr_tx x) (blockchain s) Hl Ht) as Hdebit. cbn zeta in Hdebit.
  set (total := sat_add128 (value (cr_tx x)) (fee (cr_tx x))) in *.
  set (b := (view (ledger (blockchain s)) (from (cr_tx x))).1) in *.
  destruct (total <=? b) eqn:Hle.
  - destruct Hdebit as (c' & Hc' & Hre). set (m1 := with_shards <[cr_source x := set_chain c' s]> m).
    assert (shards m1 !! cr_source x = Some (set_chain c' s)) as Hs1.
    { unfold m1. cbn [with_shards shards]. by rewrite list_lookup_insert_eq. }
    erewrite se_bind_step by (by apply (on_chain_step _ _ _ s)).
    erewrite se_bind_step by (by apply (on_chain_step _ _ m1 (set_chain c' s))). cbn [set_chain blockchain].
    set (m2 := with_shards _ m1).
    assert (funds_ok dom m2 ∧ on_chains dom m2 = on_chains dom m - total) as [Hf2 Hw2].
    { unfold m2. split.
      - split; [|apply Hf..]. apply ledgers_ok_insert; [apply ledgers_ok_insert; [apply Hf|]|];
          destruct Hre as (l' & -> & Hl' & _); done.
      - rewrite (on_chains_insert _ _ _ _ _ Hs1). unfold m1. rewrite (on_chains_insert _ _ _ _ _ Hs).
        unfold chain_worth. cbn [set_chain blockchain]. rewrite (rebalanced_supply _ _ _ _ dom Hd Hfrom Hre).
        fold b. lia. }
    destruct (dispatch_worth dom now h (MkReceiptMsg h (receipt_id_of h (cr_source x) (cr_target x)) (cr_source x)
      (cr_target x) (value (cr_tx x)) (to (cr_tx x)) (cached_latest_block_number c')) m2 Hf2) as (m' & Hm' & Hbal & Hsame).
    { split; [|done]. pose proof (txo_value _ Ht). cbn. mlia. }
    exists m'. split; [exact Hm'|]. destruct Hbal as [F W]. split; [|by rewrite Hsame, Hw2]. split; [done|]. rewrite W. cbn [rm_value].
    unfold worth. rewrite Hw2. unfold m2, m1. change (message_processor (with_shards _ (with_shards _ m))) with (message_processor m).
    change (in_retries (with_shards _ (with_shards _ m))) with (in_retries m).
    change (in_waiting (with_shards _ (with_shards _ m))) with (in_waiting m). lia.
  - destruct Hdebit as (l' & Hc' & Hre).
    erewrite se_bind_fail by (by apply (on_chain_step _ _ _ s)). eexists. split; [done|].
    destruct (chain_reads_worth dom (cr_source x) s l' m (fo_ledgers _ _ Hf) Hs Hre) as [Hl1 Hw1].
    split; [|rewrite Hw1; lia]. split.
    + split; [done|apply Hf..].
    + unfold worth. rewrite Hw1. change (message_processor (with_shards _ m)) with (message_processor m).
      change (in_retries (with_shards _ m)) with (in_retries m). change (in_waiting (with_shards _ m)) with (in_waiting m).
      lia.
Qed.

End Accounting.

(** ** Methods that move no value *)

Section Neutral.
Context `{Hex, Keccak, Blake3, Crypto, Evm, HashIter, SliceSearch}.
Context `{Codec Block, Codec (list Hash), Codec TxReceipt, Codec CrossShardMessage}.
Context (dom : list Address).

Record neutral (m m' : ShardManager) : Prop := {
  nt_funds : funds_ok dom m → funds_ok dom m';
  nt_worth : worth dom m' = worth dom m }.
#[global] Instance neutral_preorder : PreOrder neutral.
Proof. split; [done|]. intros m1 m2 m3 [A1 B1] [A2 B2]. split; [auto|congruence]. Qed.

(** The parts of the manager that count. *)
Lemma neutral_same m m' :
  blockchain <$> shards m' = blockchain <$> shards m → message_processor m' = message_processor m →
  retry_queue m' = retry_queue m → pending_receipts m' = pending_receipts m → neutral m m'.
Proof.
  intros Hs Hp Hr Hw. split.
  - intros [L C R W]. split; [|by rewrite Hp|by rewrite Hr|by rewrite Hw]. 
    change (Forall ((λ c, ledger_ok (ledger c)) ∘ blockchain) (shards m')). by rewrite <- Forall_fmap, Hs, Forall_fmap.
  - unfold worth, on_chains, in_retries, in_waiting. rewrite Hp, Hr, Hw. do 3 f_equal.
    assert (∀ ss, zsum (chain_worth dom) ss = zsum (λ c, supply (view (ledger c)) dom) (blockchain <$> ss)) as Hz.
    { induction ss as [|s ss IH]; [done|]. rewrite fmap_cons, !zsum_cons. by rewrite IH. }
    by rewrite !Hz, Hs.
Qed.

Lemma neutral_get_shard {E} a : respects neutral (get_shard_for_address (E:=E) a).
Proof.
  intros m r m'. unfold get_shard_for_address. rewrite se_get_step.
  destruct (shard_cache m !! a); intros [= _ <-]; [done|]. by apply neutral_same.
Qed.
Lemma neutral_alter i f m : (∀ s, blockchain (f s) = blockchain s) → neutral m (with_shards (alter f i) m).
Proof.
  intros Hf. apply neutral_same; try done. cbn [with_shards shards]. apply list_eq. intros j. rewrite !list_lookup_fmap.
  destruct (decide (i = j)) as [<-|Hne]; [|by rewrite list_lookup_alter_ne].
  rewrite list_lookup_alter_eq. destruct (shards m !! i); [|done]. cbn. by rewrite Hf.
Qed.
Lemma neutral_on_shard i f : (∀ s, blockchain (f s) = blockchain s) → respects neutral (on_shard i f).
Proof.
  intros Hf m r m'. unfold on_shard. destruct (shards m !! i) as [s|] eqn:Hi; intros [= _ <-]; [|done].
  assert (with_shards <[i := f s]> m = with_shards (alter f i) m) as ->; [|by apply neutral_alter].
  unfold with_shards. by rewrite (list_alter_insert f _ i s).
Qed.
Lemma neutral_sync {E} t i n : respects neutral (on_processor (E:=E) (send_state_sync t i n)).
Proof.
  intros m r m'. unfold on_processor, send_state_sync, enqueue. destruct (channels (message_processor m) !! t) as [ch|] eqn:Hch.
  - unfold try_send. destruct (closed ch); [|destruct (_ <=? _)]; intros [= _ <-];
      try (by apply neutral_same).
    split.
    + intros [L C R W]. split; try done. cbn. apply Forall_insert; [done|]. cbn. apply Forall_app_2; [|by constructor].
      by apply (Forall_lookup_1 _ _ _ _ C Hch).
    + unfold worth. cbn [with_processor message_processor]. unfold in_channels. cbn [set_channel channels].
      rewrite (zsum_insert _ _ _ _ _ Hch). unfold channel_value at 3. cbn [queue]. rewrite zsum_snoc.
      unfold channel_value at 2. cbn [msg_value].
      change (on_chains dom (with_processor _ m)) with (on_chains dom m).
      change (in_retries (with_processor _ m)) with (in_retries m). change (in_waiting (with_processor _ m)) with (in_waiting m).
      lia.
  - intros [= _ <-]. by apply neutral_same.
Qed.
Lemma neutral_with_cross f m : neutral m (with_cross f m).
Proof. by apply neutral_same. Qed.
Lemma neutral_with_unified u m : neutral m (with_unified u m).
Proof. by apply neutral_same. Qed.
End Neutral.

#[export] Hint Resolve neutral_get_shard neutral_sync neutral_with_cross neutral_with_unified : frame.

Section Conservation.
Context `{Hex, Keccak, Blake3, Crypto, Evm, HashIter, SliceSearch}.
Context `{Codec Block, Codec (list Hash), Codec TxReceipt, Codec CrossShardMessage}.
Context (dom : list Address).

Lemma neutral_register {E} now t s d : respects (neutral dom) (register_cross_shard_transaction (E:=E) now t s d).
Proof. unfold register_cross_shard_transaction. frame_steps. Qed.
Lemma neutral_route {E} t : respects (neutral dom) (route_transaction_full (E:=E) t).
Proof. unfold route_transaction_full. frame_steps. Qed.
Lemma neutral_add now t : respects (neutral dom) (add_transaction now t).
Proof. unfold add_transaction. frame_steps; auto using neutral_route, neutral_register, neutral_on_shard. Qed.
Lemma neutral_register_routed {E} now t : respects (neutral dom) (register_routed (E:=E) now t).
Proof. unfold register_routed. frame_steps; auto using neutral_route, neutral_register. Qed.
Lemma neutral_merge_accounts {E} i acc l : respects (neutral dom) (merge_accounts (E:=E) i acc l).
Proof.
  revert acc. induction l as [|kv l IH]; intros acc; cbn [merge_accounts]; frame_steps. unfold merge_account. frame_steps.
Qed.
Lemma neutral_synchronize {E} : respects (neutral dom) (synchronize_shards (E:=E)).
Proof.
  unfold synchronize_shards. frame_steps. generalize (O), (∅ : gmap Address (u128 * u64)).
  induction (shards a) as [|s ss IH]; intros i acc; cbn [merge_shards]; frame_steps. apply neutral_merge_accounts.
Qed.
Lemma neutral_broadcast {E} i n : respects (neutral dom) (broadcast_block_height (E:=E) i n).
Proof. unfold broadcast_block_height. frame_steps. Qed.
Lemma neutral_broadcast_all {E} : respects (neutral dom) (broadcast_all_shard_block_heights (E:=E)).
Proof. unfold broadcast_all_shard_block_heights. frame_steps. apply neutral_broadcast. Qed.
Lemma neutral_remove {E} i n : respects (neutral dom) (remove_shard_transactions (E:=E) i n).
Proof.
  intros m r m'. unfold remove_shard_transactions. destruct (shards m !! i) as [s|] eqn:Hi; intros [= _ <-]; [|done].
  assert (with_shards <[i := (remove_transactions n s).2]> m = with_shards (alter (λ s, (remove_transactions n s).2) i) m) as Hw.
  { unfold with_shards. by rewrite (list_alter_insert _ _ i s). }
  change (with_shards <[i := _]> m) with (with_shards <[i := (remove_transactions n s).2]> m). rewrite Hw.
  by apply neutral_alter.
Qed.

Lemma start_one_value acc i :
  in_channels (start_one acc i).2 = in_channels acc.2 ∧
  (Forall (λ ch, Forall (msg_ok dom) (queue ch)) (channels acc.2) →
   Forall (λ ch, Forall (msg_ok dom) (queue ch)) (channels (start_one acc i).2)).
Proof.
  unfold start_one, take_receiver. destruct (channels acc.2 !! i) as [ch|] eqn:Hch; [|done].
  destruct (taken ch); [done|]. cbn [snd]. unfold in_channels. cbn [set_channel channels].
  rewrite (zsum_insert _ _ _ _ _ Hch). unfold channel_value at 3. cbn [queue]. unfold channel_value at 2. split; [lia|].
  intros Hok. apply Forall_insert; [done|]. by apply (Forall_lookup_1 _ _ _ _ Hok Hch).
Qed.
Lemma neutral_start {E} : respects (neutral dom) (start_receipt_processing (E:=E)).
Proof.
  intros m r m'. unfold start_receipt_processing. destruct (foldl _ _ _) as [n p] eqn:Hf. intros [= _ <-].
  assert (∀ l acc, in_channels (foldl start_one acc l).2 = in_channels acc.2 ∧
    (Forall (λ ch, Forall (msg_ok dom) (queue ch)) (channels acc.2) →
     Forall (λ ch, Forall (msg_ok dom) (queue ch)) (channels (foldl start_one acc l).2))) as Hl.
  { induction l as [|i l IH]; intros acc; cbn [foldl]; [done|]. destruct (IH (start_one acc i)) as [I1 I2].
    destruct (start_one_value acc i) as [S1 S2]. split; [by rewrite I1|auto]. }
  destruct (Hl (seq 0 (shard_count (config m))) (O, message_processor m)) as [Hv Hok]. rewrite Hf in Hv, Hok.
  cbn [snd] in Hv, Hok. split.
  - intros [L C R W]. split; try done. by apply Hok.
  - unfold worth. cbn [with_processor message_processor]. rewrite Hv. done.
Qed.
End Conservation.

(** ** Runs *)

Section Ledgers.
Context `{Hex, Keccak, Blake3, Crypto, Evm, HashIter, SliceSearch}.
Context `{Codec Block, Codec (list Hash), Codec TxReceipt, Codec CrossShardMessage}.

(** No transfer was registered. *)
Definition no_new (m m' : ShardManager) : Prop :=
  ∀ h x', cross_shard_txs m' !! h = Some x' → ∃ x, cross_shard_txs m !! h = Some x ∧ cr_tx x' = cr_tx x.
#[global] Instance no_new_preorder : PreOrder no_new.
Proof.
  split; [by intros m h x' Hx; exists x'|]. intros m1 m2 m3 H12 H23 h x Hx.
  destruct (H23 h x Hx) as (y & Hy & ->). by apply H12.
Qed.
Lemma no_new_same m m' : cross_shard_txs m' = cross_shard_txs m → no_new m m'.
Proof. intros Heq h x Hx. exists x. by rewrite <- Heq. Qed.

Lemma no_new_get_shard {E} a : respects no_new (get_shard_for_address (E:=E) a).
Proof.
  intros m r m'. unfold get_shard_for_address. rewrite se_get_step.
  destruct (shard_cache m !! a); intros [= _ <-]; by apply no_new_same.
Qed.
Lemma no_new_on_chain {A} i (op : BM A) : respects no_new (on_chain i op).
Proof.
  intros m r m'. unfold on_chain. destruct (shards m !! i) as [s|]; [|by intros [= _ <-]; apply no_new_same].
  destruct (op (blockchain s)). intros [= _ <-]. by apply no_new_same.
Qed.
Lemma no_new_on_processor {E A} (op : PM A) : respects no_new (on_processor (E:=E) op).
Proof.
  intros m r m'. unfold on_processor. destruct (op (message_processor m)). intros [= _ <-]. by apply no_new_same.
Qed.
Lemma no_new_alter f h m : keeps_route f → no_new m (with_cross (alter f h) m).
Proof.
  intros Hf h' x Hx. cbn in Hx. apply lookup_alter_Some in Hx as [(<- & y & Hy & ->)|[_ Hy]].
  - exists y. split; [done|]. apply Hf.
  - by exists x.
Qed.
#[local] Hint Resolve no_new_get_shard no_new_on_chain no_new_on_processor no_new_alter : frame.
#[local] Hint Extern 2 (no_new _ _) => apply no_new_same; reflexivity : frame.

Lemma no_new_process_receipt v a : respects no_new (process_receipt v a).
Proof. unfold process_receipt. frame_steps; by intros ??? [= _ <-]; apply no_new_same. Qed.
#[local] Hint Resolve no_new_process_receipt : frame.
Lemma no_new_settle {E} acc rs : respects no_new (settle_all (E:=E) acc rs).
Proof.
  revert acc. induction rs as [|r rs IH]; intros acc; cbn [settle_all]; frame_steps. unfold settle_pending. frame_steps.
Qed.
Lemma no_new_record {E} i n : respects no_new (record_shard_block_height (E:=E) i n).
Proof.
  unfold record_shard_block_height. frame_steps. unfold process_pending_receipts_async. frame_steps.
  apply no_new_settle.
Qed.
Lemma no_new_receive {E} i : respects no_new (receive (E:=E) i).
Proof.
  unfold receive. frame_steps. unfold handle_message. frame_steps.
  - apply respects_try. unfold process_receipt_with_ordering. frame_steps.
  - apply no_new_record.
Qed.
Lemma no_new_process now h : respects no_new (process_cross_shard_transaction now h).
Proof. unfold process_cross_shard_transaction. frame_steps; eauto with frame. Qed.
Lemma no_new_synchronize {E} : respects no_new (synchronize_shards (E:=E)).
Proof.
  unfold synchronize_shards. frame_steps. generalize (O), (∅ : gmap Address (u128 * u64)).
  induction (shards a) as [|s ss IH]; intros i acc; cbn [merge_shards]; frame_steps.
  generalize (hm_iter (get_all_accounts (ledger (blockchain s)))). intros l. revert acc.
  induction l as [|kv l IHl]; intros acc; cbn [merge_accounts]; frame_steps. unfold merge_account. frame_steps.
Qed.
Lemma no_new_broadcast {E} i n : respects no_new (broadcast_block_height (E:=E) i n).
Proof. unfold broadcast_block_height. frame_steps. Qed.
Lemma no_new_broadcast_all {E} : respects no_new (broadcast_all_shard_block_heights (E:=E)).
Proof. unfold broadcast_all_shard_block_heights. frame_steps. apply no_new_broadcast. Qed.
Lemma no_new_remove {E} i n : respects no_new (remove_shard_transactions (E:=E) i n).
Proof.
  intros m r m'. unfold remove_shard_transactions. destruct (shards m !! i); intros [= _ <-]; by apply no_new_same.
Qed.
Lemma no_new_start {E} : respects no_new (start_receipt_processing (E:=E)).
Proof.
  intros m r m'. unfold start_receipt_processing. destruct (foldl _ _ _). intros [= _ <-]. by apply no_new_same.
Qed.
Definition tx_typed (dom : list Address) (t : Transaction) : Prop := tx_ok t ∧ from t ∈ dom ∧ to t ∈ dom.
Definition txs_ok (dom : list Address) (m : ShardManager) : Prop :=
  map_Forall (λ _ x, tx_typed dom (cr_tx x)) (cross_shard_txs m).

(** Every method but the retry worker and the blocks of a shard. *)
Definition op_typed (dom : list Address) (op : ShardOp) : Prop :=
  match op with
  | Submit _ t | Register _ t => tx_typed dom t
  | RetryTick _ | AddBlock _ _ _ _ _ _ => False
  | _ => True
  end.

(** What the sender pays on top of the value sent. *)
Definition fee_of (m : ShardManager) (op : ShardOp) : Z :=
  match op with
  | Process _ h =>
      match cross_shard_txs m !! h with
      | Some x => if covers m x then charged x - value (cr_tx x) else 0
      | None => 0
      end
  | _ => 0
  end.
Fixpoint fees (m : ShardManager) (ops : list ShardOp) : Z :=
  match ops with
  | [] => 0
  | op :: ops' => fee_of m op + fees (do_shard_op m op) ops'
  end.

Record run_ok (dom : list Address) (m : ShardManager) : Prop := {
  ro_manager : manager_ok m;
  ro_funds : funds_ok dom m;
  ro_txs : txs_ok dom m;
  ro_max : worth dom m <= u128_max }.

Lemma txs_ok_no_new dom m m' : no_new m m' → txs_ok dom m → txs_ok dom m'.
Proof. intros Hn Ht h x' Hx'. destruct (Hn h x' Hx') as (x & Hx & ->). by apply (Ht h x). Qed.
Lemma txs_ok_add dom now t m : manager_base m → tx_typed dom t → txs_ok dom m → txs_ok dom (add_transaction now t m).2.
Proof.
  intros Hb Ht Hm. pose proof (add_transaction_spec now t m Hb) as Hs. destruct (route (config m) t) as [s d].
  destruct Hs as (c & -> & _). cbn [snd]. destruct (_ && _); [|done]. unfold txs_ok. cbn.
  by apply map_Forall_insert_2.
Qed.
Lemma txs_ok_register {E} dom now t m :
  manager_base m → tx_typed dom t → txs_ok dom m → txs_ok dom (register_routed (E:=E) now t m).2.
Proof.
  intros Hb Ht Hm. destruct (route_spec (E:=E) t m Hb) as (c & Hc & _). unfold register_routed.
  erewrite se_bind_step by exact Hc. unfold txs_ok. cbn. by apply map_Forall_insert_2.
Qed.

Lemma step_worth dom op m :
  dom_ok dom → run_ok dom m → op_typed dom op →
  funds_ok dom (do_shard_op m op) ∧ txs_ok dom (do_shard_op m op) ∧
  worth dom (do_shard_op m op) + fee_of m op = worth dom m ∧ 0 <= fee_of m op.
Proof.
  intros Hd [Hm Hf Ht Hmax] Hop. pose proof (mo_base _ Hm) as Hb.
  assert (∀ m', neutral dom m m' → txs_ok dom m' → fee_of m op = 0 →
    funds_ok dom m' ∧ txs_ok dom m' ∧ worth dom m' + fee_of m op = worth dom m ∧ 0 <= fee_of m op) as Hn.
  { intros m' [N1 N2] Htx ->. split_and!; [auto|done|lia|done]. }
  assert (∀ m', balanced dom 0 m m' → txs_ok dom m' → fee_of m op = 0 →
    funds_ok dom m' ∧ txs_ok dom m' ∧ worth dom m' + fee_of m op = worth dom m ∧ 0 <= fee_of m op) as Hbal.
  { intros m' [N1 N2] Htx ->. split_and!; [auto|done|lia|done]. }
  destruct op; cbn [do_shard_op op_typed] in *; try done.
  - apply Hn; [apply respects_snd, neutral_add|by apply txs_ok_add|done].
  - apply Hn; [apply respects_snd, neutral_register_routed|by apply txs_ok_register|done].
  - assert (txs_ok dom (process_cross_shard_transaction now h m).2) as Htx.
    { eapply txs_ok_no_new; [apply respects_snd, no_new_process|done]. }
    cbn [fee_of]. destruct (cross_shard_txs m !! h) as [x|] eqn:Hx.
    + destruct (Ht h x Hx) as (Hok & Hfrom & Hto).
      destruct (process_worth dom now h x m Hd Hb Hf Hx Hok Hfrom Hto) as (m' & He & [F W] & _). rewrite He in Htx |- *.
      cbn [snd] in *. pose proof (txo_value _ Hok). pose proof (txo_fee _ Hok). unfold charged.
      destruct (covers m x); split_and!; try done; unfold charged in *; mlia.
    + assert (process_cross_shard_transaction now h m = (Ok tt, m)) as ->; [|split_and!; [done|done|cbn; lia|done]].
      unfold process_cross_shard_transaction. by rewrite se_get_step, Hx.
  - apply Hbal; [by apply receive_worth|eapply txs_ok_no_new; [apply respects_snd, no_new_receive|done]|done].
  - apply Hbal; [by apply record_height_worth|eapply txs_ok_no_new; [apply respects_snd, no_new_record|done]|done].
  - apply Hn; [apply respects_snd, neutral_remove|eapply txs_ok_no_new; [apply respects_snd, no_new_remove|done]|done].
  - apply Hn; [apply respects_snd, neutral_synchronize|eapply txs_ok_no_new; [apply respects_snd, no_new_synchronize|done]|done].
  - apply Hn; [apply respects_snd, neutral_broadcast|eapply txs_ok_no_new; [apply respects_snd, no_new_broadcast|done]|done].
  - apply Hn; [apply respects_snd, neutral_broadcast_all|eapply txs_ok_no_new; [apply respects_snd, no_new_broadcast_all|done]|done].
  - apply Hn; [apply respects_snd, neutral_start|eapply txs_ok_no_new; [apply respects_snd, no_new_start|done]|done].
Qed.

Lemma step_run_ok dom op m :
  dom_ok dom → run_ok dom m → op_typed dom op → run_ok dom (do_shard_op m op).
Proof.
  intros Hd Hr Hop. destruct (step_worth dom op m Hd Hr Hop) as (Hf & Ht & Hw & Hp).
  split; [by apply do_shard_op_ok, Hr|done|done|]. pose proof (ro_max _ _ Hr). lia.
Qed.

(** C10: Over any sequence of submissions, debits, deliveries, height updates and
    the other methods (all but the retry worker and blocks added to a shard),
    the balances of all shards plus the value of the receipts on their way
    decrease by exactly the fees of the transfers that were processed. *)
Theorem cross_shard_conservation dom m ops :
  dom_ok dom → run_ok dom m → Forall (op_typed dom) ops →
  worth dom (foldl do_shard_op m ops) + fees m ops = worth dom m ∧ 0 <= fees m ops.
Proof.
  intros Hd. revert m. induction ops as [|op ops IH]; intros m Hr Hops; cbn [foldl fees]; [lia|].
  apply Forall_cons in Hops as [Hop Hops]. destruct (step_worth dom op m Hd Hr Hop) as (Hf & Ht & Hw & Hp).
  destruct (IH (do_shard_op m op)) as [IH1 IH2]; [by apply step_run_ok|done|lia].
Qed.

(** ** Where value is not conserved *)

(** Nothing records that a transfer was processed: processing it once more
    debits the sender again, whatever its status. *)
Theorem processed_transfer_debits_again dom now h x m :
  dom_ok dom → run_ok dom m → cross_shard_txs m !! h = Some x → cr_status x ≠ Pending → covers m x = true →
  (process_cross_shard_transaction now h m).1 = Ok tt ∧
  on_chains dom (process_cross_shard_transaction now h m).2 = on_chains dom m - charged x.
Proof.
  intros Hd [Hm Hf Ht _] Hx _ Hc. destruct (Ht h x Hx) as (Hok & Hfrom & Hto).
  destruct (process_worth dom now h x m Hd (mo_base _ Hm) Hf Hx Hok Hfrom Hto) as (m' & He & _ & Hch).
  rewrite Hc in He, Hch. by rewrite He.
Qed.

Lemma refund_worth {E} dom i a v m s :
  dom_ok dom → ledgers_ok m → shards m !! i = Some s → a ∈ dom → 0 <= v → on_chains dom m + v <= u128_max →
  ∃ m', refund (E:=E) i a v m = (Ok tt, m') ∧ credited dom v m m'.
Proof.
  intros Hd Hl Hi Ha Hv Hmax. destruct (chain_credit_spec dom i a v m s) as (m' & Hm' & Hc); try done.
  exists m'. split; [|done]. unfold refund, mbind, SE_bind, se_try. by rewrite Hm'.
Qed.

Definition refundable (dom : list Address) (m : ShardManager) (x : CrossShardTransaction) : Prop :=
  (cr_source x < length (shards m))%nat ∧ from (cr_tx x) ∈ dom ∧ 0 <= refund_amount x.

Lemma refunds_worth {E} dom (out : list (Hash * CrossShardTransaction)) m :
  dom_ok dom → manager_base m → ledgers_ok m → Forall (λ kv, refundable dom m kv.2) out →
  on_chains dom m + zsum (λ kv, refund_amount kv.2) out <= u128_max →
  ∃ m', se_for out (λ kv, refund (E:=E) (cr_source kv.2) (from (cr_tx kv.2)) (refund_amount kv.2)) m = (Ok tt, m') ∧
    credited dom (zsum (λ kv, refund_amount kv.2) out) m m'.
Proof.
  intros Hd. revert m. induction out as [|kv out IH]; intros m Hb Hl Hout Hmax.
  { exists m. split; [done|]. split; try done. cbn. lia. }
  apply Forall_cons in Hout as [(Hs & Ha & Hv) Hout]. rewrite zsum_cons in Hmax.
  assert (0 <= zsum (λ kv, refund_amount kv.2) out) as Hpos.
  { apply zsum_nonneg. eapply Forall_impl; [exact Hout|]. intros ? Hx. apply Hx. }
  destruct (lookup_lt_is_Some_2 _ _ Hs) as [s Hsh].
  destruct (refund_worth (E:=E) dom (cr_source kv.2) (from (cr_tx kv.2)) (refund_amount kv.2) m s) as (m1 & Hm1 & C1);
    try done; [lia|].
  pose proof (qt_base _ _ (cd_quiet _ _ _ _ C1) Hb) as Hb1.
  destruct (IH m1 Hb1) as (m' & Hm2 & C2).
  { apply C1. }
  { eapply Forall_impl; [exact Hout|]. intros kv' (A1 & A2 & A3). split_and!; try done.
    by rewrite (mb_shards _ Hb1), (qt_config _ _ (cd_quiet _ _ _ _ C1)), <- (mb_shards _ Hb). }
  { rewrite (cd_chains _ _ _ _ C1). lia. }
  exists m'. split; [cbn [se_for]; erewrite se_bind_step by exact Hm1; exact Hm2|].
  destruct C1 as [Q1 L1 P1 R1 X1 W1], C2 as [Q2 L2 P2 R2 X2 W2].
  split; [by transitivity m1|done|by rewrite P2|by rewrite R2|by rewrite X2|]. rewrite zsum_cons. lia.
Qed.

Definition expired (now : Z) (m : ShardManager) : list (Hash * CrossShardTransaction) :=
  List.filter (λ kv, timed_out now (cross_shard_timeout_secs (config m)) kv.2) (hm_iter (cross_shard_txs m)).

Lemma expired_spec now m h x :
  (h, x) ∈ expired now m ↔
  cross_shard_txs m !! h = Some x ∧ timed_out now (cross_shard_timeout_secs (config m)) x = true.
Proof.
  unfold expired. rewrite list_elem_of_In, List.filter_In, <- list_elem_of_In, hm_iter_perm, elem_of_map_to_list. done.
Qed.

(** Each transfer that is still pending after the timeout has its value and
    fee added to the balance of its sender, with nothing taken from anywhere:
    the total grows by what is refunded.  Whether the sender was ever debited is
    not asked, and a receipt in the retry queue stays there. *)
Theorem timeout_refund_mints dom now m :
  dom_ok dom → run_ok dom m → 0 < cross_shard_timeout_secs (config m) →
  worth dom m + zsum (λ kv, refund_amount kv.2) (expired now m) <= u128_max →
  let m' := (expire_pending (E:=string) now m).2 in
  worth dom m' = worth dom m + zsum (λ kv, refund_amount kv.2) (expired now m) ∧
  retry_queue m' = retry_queue m ∧
  ∀ h x, (h, x) ∈ expired now m → get_cross_shard_status m' h = Some Failed.
Proof.
  intros Hd [Hm Hf Ht _] Hto Hmax. pose proof (mo_base _ Hm) as Hb. unfold expire_pending. rewrite se_get_step.
  rewrite (proj2 (Z.ltb_lt _ _) Hto). rewrite se_mod_step.
  set (m1 := with_cross _ m). fold (expired now m).
  pose proof (in_channels_nonneg _ _ Hf). pose proof (in_retries_nonneg _ _ Hf). pose proof (in_waiting_nonneg _ _ Hf).
  destruct (refunds_worth (E:=string) dom (expired now m) m1 Hd) as (m2 & Hm2 & [Q L P R X W]).
  { apply (quiet_fmap _ m); [apply mark_timed_out_keeps|done]. }
  { apply Hf. }
  { apply Forall_forall. intros [h x] Hx. apply expired_spec in Hx as [Hx _]. destruct (Ht h x Hx) as (Hok & Hfrom & _).
    split_and!; [|done|].
    - destruct (mb_cross _ Hb h x Hx) as (_ & _ & Hr). pose proof (route_lt (config m) (cr_tx x) (mb_count _ Hb)) as [Hlt _].
      rewrite <- Hr in Hlt. unfold m1. cbn [with_cross shards snd]. by rewrite (mb_shards _ Hb).
    - pose proof (txo_value _ Hok). pose proof (txo_fee _ Hok). cbn [snd]. unfold refund_amount. mlia. }
  { unfold worth in Hmax. change (on_chains dom m1) with (on_chains dom m). lia. }
  rewrite Hm2. cbn [snd]. split_and!; [|done|].
  - unfold worth, in_retries, in_waiting. rewrite W, P, R, (qt_pending _ _ Q). unfold m1.
    change (on_chains dom (with_cross _ m)) with (on_chains dom m). cbn [with_cross message_processor retry_queue pending_receipts].
    lia.
  - intros h x Hx. apply expired_spec in Hx as [Hx Hex]. unfold get_cross_shard_status. rewrite X. unfold m1.
    cbn [with_cross cross_shard_txs]. rewrite lookup_fmap, Hx. cbn. by rewrite Hex.
Qed.

End Ledgers.
