(* ===== verification/ShardReference.v ===== *)
(** * ShardReference: two shards

    A concrete sharded chain with one funded account and a transfer to the
    other shard; the theorems about sharding are applied to it. *)

From S2P Require Import Prelude Types Block Pow Error Ledger BlockIndex Execution Chain ChainReference.
From S2P Require Import Messaging Sharding ShardTheorems ShardAccounting.

Module ShardReference.
Import BlockReference ChainReference.
#[local] Existing Instance Reference.hex.
#[local] Existing Instance Reference.keccak.
#[local] Existing Instance PowReference.blake3.
#[local] Existing Instance BlockReference.crypto.
#[local] Existing Instance canonical_iter.
#[local] Existing Instance canonical_search.
#[local] Existing Instance ChainReference.evm.
#[local] Existing Instance ChainReference.block_codec.
#[local] Existing Instance ChainReference.hashes_codec.
#[local] Existing Instance ChainReference.receipt_codec.

#[local] Instance ReceiptMsg_eq_dec : EqDecision ReceiptMsg.
Proof. solve_decision. Defined.
#[local] Instance CrossShardMessage_eq_dec : EqDecision CrossShardMessage.
Proof. solve_decision. Defined.

Definition receipt : ReceiptMsg := MkReceiptMsg hash_zero hash_zero 0 1 7 bob 3.
#[local] Instance message_codec : Codec CrossShardMessage := table_codec [ReceiptM receipt].

Definition cfg : ShardConfig := MkShardConfig 3 true AddressBased None 300.
Definition fresh : ShardManager :=
  MkManager cfg (shard_new <$> seq 0 3) ∅ (processor_new 3) ∅ [] ∅ ∅ [].

Lemma fresh_new : manager_new cfg = Ok fresh.
Proof. reflexivity. Qed.

(** The shard of Alice holds her funds. *)
Definition home : nat := assign cfg alice.
Definition bank : ShardManager := with_shards (alter (set_chain start) home) fresh.
Definition dom : list Address := [alice; bob].
Lemma dom_is_ok : dom_ok dom.
Proof. split; [vm_compute; repeat constructor; set_solver|repeat constructor]. Qed.
Lemma payment_typed : tx_typed dom payment.
Proof. split; [apply payment_ok|]. split; vm_compute; [left|right; left]. Qed.
Lemma bank_ok : manager_ok bank.
Proof.
  apply (quiet_ok fresh); [|by apply (manager_new_ok cfg)]. by apply quiet_alter_shard.
Qed.
Lemma bank_run_ok : run_ok dom bank.
Proof.
  split; [apply bank_ok| |apply map_Forall_empty|vm_compute; discriminate].
  split; [|vm_compute; repeat constructor|constructor|constructor]. unfold ledgers_ok.
  assert (ledger_ok (MkLedger None ∅ None)) as He by (split; [done|]; intros a _; split; vm_compute; split; discriminate).
  change (shards bank) with [shard_new 0; set_chain start (shard_new 1); shard_new 2].
  constructor; [exact He|]. constructor; [exact funded_ok|]. constructor; [exact He|constructor].
Qed.

Definition transfer_ops : list ShardOp :=
  [Submit 0 payment; StartTasks; Process 0 (tx_hash payment); RecordHeight 1 0; Receive 0].
Lemma transfer_ops_typed : Forall (op_typed dom) transfer_ops.
Proof. repeat constructor; apply payment_typed. Qed.

Lemma wal_replay_redelivers_witness :
  wal (replay_wal (with_wal 3 (wal_of [receipt]))).2 = Some (wal_of [receipt; receipt]).
Proof.
  refine (proj2 (proj2 (wal_replay_redelivers 3 [receipt] _ _ _))).
  - constructor; [|constructor]. exists [0]. split; [vm_compute; reflexivity|]. vm_compute. reflexivity.
  - constructor; [vm_compute; lia|constructor].
  - vm_compute. discriminate.
Defined.

Lemma batches_are_complete_witness :
  concat (process_messages [] ([Received (StateSync 0 1); Tick; Received (StateSync 0 2)] ++ [ChannelEnd]))
  = [StateSync 0 1; StateSync 0 2].
Proof.
  refine (proj1 (batches_are_complete [Received (StateSync 0 1); Tick; Received (StateSync 0 2)] _)).
  rewrite !not_elem_of_cons. split_and!; [discriminate|discriminate|discriminate|apply not_elem_of_nil].
Defined.

Lemma shard_manager_invariant_witness : manager_ok (foldl do_shard_op fresh transfer_ops).
Proof. exact (shard_manager_invariant cfg fresh transfer_ops fresh_new). Defined.

Lemma synchronize_shards_spec_witness :
  unified_state (synchronize_shards (E:=string) bank).2 !! alice = accounts_of (set_chain start (shard_new 1)) !! alice.
Proof. exact (proj1 (synchronize_shards_spec bank alice bank_ok)). Defined.

(** The value arrives, the fee is gone. *)
Lemma cross_shard_conservation_witness :
  worth dom (foldl do_shard_op bank transfer_ops) = 990 ∧
  balance_in (default (shard_new 0) (shards (foldl do_shard_op bank transfer_ops) !! O)) bob = 100.
Proof.
  split; [|vm_compute; reflexivity].
  pose proof (proj1 (cross_shard_conservation dom bank transfer_ops dom_is_ok bank_run_ok transfer_ops_typed)) as Hw.
  assert (fees bank transfer_ops = 10) as Hf by (vm_compute; reflexivity).
  assert (worth dom bank = 1000) as Hb by (vm_compute; reflexivity). rewrite Hf, Hb in Hw. lia.
Defined.

Definition committed_bank : ShardManager :=
  do_shard_op (do_shard_op bank (Submit 0 payment)) (Process 0 (tx_hash payment)).
Lemma committed_bank_ok : run_ok dom committed_bank.
Proof.
  apply step_run_ok; [apply dom_is_ok| |exact I].
  apply step_run_ok; [apply dom_is_ok|apply bank_run_ok|apply payment_typed].
Qed.

Lemma processed_transfer_debits_again_witness :
  (process_cross_shard_transaction 0 (tx_hash payment) committed_bank).1 = Ok tt ∧
  on_chains dom (process_cross_shard_transaction 0 (tx_hash payment) committed_bank).2 = 780.
Proof.
  destruct (cross_shard_txs committed_bank !! tx_hash payment) as [x|] eqn:Hx; [|vm_compute in Hx; discriminate].
  assert (x = MkCross payment 1 0 Committed (tx_hash payment) None) as ->.
  { vm_compute in Hx. injection Hx as <-. vm_compute. reflexivity. }
  destruct (processed_transfer_debits_again dom 0 (tx_hash payment) _ committed_bank dom_is_ok committed_bank_ok Hx)
    as [Hr Hc]; [discriminate|vm_compute; reflexivity|]. split; [exact Hr|]. rewrite Hc. vm_compute. reflexivity.
Defined.

Definition waiting_bank : ShardManager := do_shard_op bank (Submit 0 payment).

Lemma timeout_refund_mints_witness :
  worth dom bank = 1000 ∧
  worth dom (expire_pending (E:=string) (from_secs 300) waiting_bank).2 = 1110.
Proof.
  split; [vm_compute; reflexivity|].
  refine (eq_trans (proj1 (timeout_refund_mints dom (from_secs 300) waiting_bank dom_is_ok _ _ _)) _).
  - apply step_run_ok; [apply dom_is_ok|apply bank_run_ok|apply payment_typed].
  - vm_compute. reflexivity.
  - vm_compute. discriminate.
  - vm_compute. reflexivity.
Defined.
End ShardReference.
