(* ===== verification/Float64.v ===== *)
(** * Float64: IEEE 754 double precision

    The [f64] arithmetic of the source, by the executable specification of
    floating-point numbers of the standard library, at 53 bits of precision and
    with the exponent range of [f64].  A decimal literal [n/d] is the double
    nearest to it, which the correctly rounded division gives. *)

From Stdlib Require Import SpecFloat.
From S2P Require Import Prelude.

Abbreviation f64 := spec_float.

Definition f_prec : Z := 53.
Definition f_emax : Z := 1024.

(** [n as f64] of an integer, rounded to nearest, ties to even. *)
Definition f_of_Z (n : Z) : f64 := binary_normalize f_prec f_emax n 0 false.
Definition f_add (x y : f64) : f64 := SFadd f_prec f_emax x y.
Definition f_sub (x y : f64) : f64 := SFsub f_prec f_emax x y.
Definition f_mul (x y : f64) : f64 := SFmul f_prec f_emax x y.
Definition f_div (x y : f64) : f64 := SFdiv f_prec f_emax x y.
Definition f_abs (x : f64) : f64 := SFabs x.
Definition f_neg (x : f64) : f64 := SFopp x.
Definition f_lit (n d : Z) : f64 := f_div (f_of_Z n) (f_of_Z d).
Definition f_zero : f64 := f_of_Z 0.
Definition f_one : f64 := f_of_Z 1.

Definition f_is_nan (x : f64) : bool := match x with S754_nan => true | _ => false end.
Definition partial_cmp (x y : f64) : option comparison := SFcompare x y.
Definition f_ltb (x y : f64) : bool := match SFcompare x y with Some Lt => true | _ => false end.
Definition f_leb (x y : f64) : bool := match SFcompare x y with Some Lt | Some Eq => true | _ => false end.

(** [x.max(y)] and [x.min(y)]: the other argument when one is not a number. *)
Definition f_max (x y : f64) : f64 :=
  if f_is_nan x then y else if f_is_nan y then x else if f_ltb x y then y else x.
Definition f_min (x y : f64) : f64 :=
  if f_is_nan x then y else if f_is_nan y then x else if f_ltb y x then y else x.

(** [x.clamp(lo, hi)]: not a number stays what it is. *)
Definition f_clamp (x lo hi : f64) : f64 := if f_ltb x lo then lo else if f_ltb hi x then hi else x.

(** [x as u32] and the like: truncated and saturating, 0 when not a number. *)
Definition f_as_uint (max : Z) (x : f64) : Z :=
  match x with
  | S754_infinity false => max
  | S754_finite false m e => Z.min max (if 0 <=? e then Z.pos m * 2 ^ e else Z.pos m / 2 ^ (- e))
  | _ => 0
  end.

(** [Duration::as_secs_f64] *)
Definition as_secs_f64 (nanos : Z) : f64 :=
  f_add (f_of_Z (nanos / NANOS)) (f_div (f_of_Z (nanos mod NANOS)) (f_of_Z NANOS)).

Lemma f_compare_total x y : f_is_nan x = false → f_is_nan y = false → ∃ c, SFcompare x y = Some c.
Proof. destruct x as [[]|[]| |[]], y as [[]|[]| |[]]; cbn; intros; try done; by eexists. Qed.

Lemma f_compare_refl x : f_is_nan x = false → SFcompare x x = Some Eq.
Proof.
  destruct x as [[]|[]| |[] m e]; cbn; try done; intros _; rewrite Z.compare_refl.
  all: by rewrite Pos.compare_cont_refl.
Qed.
Lemma f_compare_antisym x y : SFcompare y x = CompOpp <$> SFcompare x y.
Proof.
  destruct x as [[]|[]| |[] m e], y as [[]|[]| |[] m' e']; cbn; try done; f_equal;
    rewrite (Z.compare_antisym e e'); destruct (e ?= e')%Z; cbn; try done;
    rewrite <- ?Pos.compare_cont_antisym; try done;
    rewrite (Pos.compare_cont_antisym m m'); cbn; by destruct (Pos.compare_cont _ _ _).
Qed.

(** [min] is not above, [max] not below a number. *)
Lemma f_min_leb x y : f_is_nan y = false → f_leb (f_min x y) y = true.
Proof.
  intros Hy. unfold f_min, f_leb. rewrite Hy. destruct (f_is_nan x) eqn:Hx; [by rewrite f_compare_refl|].
  unfold f_ltb. rewrite (f_compare_antisym x y). destruct (f_compare_total x y Hx Hy) as [c Hc]. rewrite Hc.
  destruct c; cbn; by rewrite ?Hc, ?f_compare_refl.
Qed.
Lemma f_max_leb x y : f_is_nan y = false → f_leb y (f_max x y) = true.
Proof.
  intros Hy. unfold f_max, f_leb. rewrite Hy. destruct (f_is_nan x) eqn:Hx; [by rewrite f_compare_refl|].
  unfold f_ltb. destruct (f_compare_total x y Hx Hy) as [c Hc]. rewrite Hc.
  destruct c; rewrite ?(f_compare_antisym x y), ?Hc, ?f_compare_refl; done.
Qed.

Lemma f_clamp_range x lo hi : f_is_nan x = false → f_is_nan lo = false → f_is_nan hi = false → f_leb lo hi = true →
  f_leb lo (f_clamp x lo hi) = true ∧ f_leb (f_clamp x lo hi) hi = true.
Proof.
  intros Hx Hl Hh Hlh. unfold f_clamp. destruct (f_ltb x lo) eqn:H1; [unfold f_leb in *; by rewrite f_compare_refl|].
  destruct (f_ltb hi x) eqn:H2; [unfold f_leb in *; by rewrite f_compare_refl|].
  unfold f_ltb, f_leb in *. destruct (f_compare_total x lo Hx Hl) as [c Hc]. destruct (f_compare_total hi x Hh Hx) as [d Hd].
  rewrite (f_compare_antisym x lo), Hc, (f_compare_antisym hi x), Hd. rewrite Hc in H1. rewrite Hd in H2.
  by destruct c, d.
Qed.

Lemma f_as_uint_range max x : 0 <= max → 0 <= f_as_uint max x <= max.
Proof.
  intros Hm. destruct x as [|[]| |[] m e]; cbn; try lia.
  assert (0 <= (if 0 <=? e then Z.pos m * 2 ^ e else Z.pos m / 2 ^ (- e))); [|lia].
  destruct (Z.leb_spec 0 e); [apply Z.mul_nonneg_nonneg; lia|]. apply Z.div_pos; lia.
Qed.
