(* ===== verification/Ordering.v ===== *)
(** * Ordering: the order of transactions in a block

    Models [irondag-blockchain/src/mining/ordering.rs] and
    [irondag-blockchain/src/mining/fairness.rs].  The scores of the [Hybrid] policy and
    of the fairness metrics are computed with the exact binary64 operations of
    [Float64].  The [Random] policy takes the numbers drawn by the generator. *)

From S2P Require Import Prelude Types Block Float64.

Inductive OrderingPolicy := Fifo | Random | FeeBased | Hybrid | TimeWeighted.

Definition ordering_policy_default : OrderingPolicy := Fifo.

Definition policy_name (p : OrderingPolicy) : string :=
  match p with
  | Fifo => "FIFO"
  | Random => "Random"
  | FeeBased => "Fee-Based"
  | Hybrid => "Hybrid"
  | TimeWeighted => "Time-Weighted"
  end.

Record OrderingContext := MkContext { arrival_times : gmap Hash u64; current_time : u64 }.

Definition context_new (now : u64) : OrderingContext := MkContext ∅ now.
Definition record_arrival (h : Hash) (ts : u64) (c : OrderingContext) : OrderingContext :=
  MkContext (<[h := ts]> (arrival_times c)) (current_time c).
Definition get_age (c : OrderingContext) (h : Hash) : u64 :=
  match arrival_times c !! h with Some arrival => sat_sub (current_time c) arrival | None => 0 end.
Definition update_time (now : u64) (c : OrderingContext) : OrderingContext := MkContext (arrival_times c) now.

(** [txs.swap(i, j)]; both positions are within bounds where it is used. *)
Definition swap {A} (i j : nat) (l : list A) : list A :=
  match l !! i, l !! j with
  | Some x, Some y => <[j := x]> (<[i := y]> l)
  | _, _ => l
  end.

(** [for i in (1..len).rev() { j = rng.gen_range(0..=i); swap(i, j) }]: the
    generator gives [rng i] for the step at [i], reduced to the range asked for. *)
Fixpoint shuffle_from {A} (rng : nat → nat) (i : nat) (l : list A) : list A :=
  match i with
  | O => l
  | S i' => shuffle_from rng i' (swap i (rng i mod (i + 1)) l)
  end.
Definition shuffle {A} (rng : nat → nat) (l : list A) : list A := shuffle_from rng (length l - 1) l.

Definition priority_fee (t : Transaction) : u128 := default (fee t) (max_priority_fee_per_gas t).

(** [sort_by] with the larger element first; [true] when [a] may stay before [b]. *)
Definition fee_leb (a b : Transaction) : bool :=
  match priority_fee b ?= priority_fee a with
  | Eq => value b <=? value a
  | Lt => true
  | Gt => false
  end.
Definition age_leb (c : OrderingContext) (a b : Transaction) : bool :=
  match get_age c (tx_hash b) ?= get_age c (tx_hash a) with
  | Eq => priority_fee b <=? priority_fee a
  | Lt => true
  | Gt => false
  end.

(** [partial_cmp(..).unwrap_or(Equal)]: incomparable scores count as equal,
    which happens only when every fee is zero. *)
Definition max_priority_fee (txs : list Transaction) : u128 :=
  match txs with [] => 1 | _ => foldl Z.max 0 (priority_fee <$> txs) end.
Definition hybrid_score (c : OrderingContext) (max_fee : f64) (t : Transaction) : f64 :=
  f_add (f_mul (f_div (f_of_Z (priority_fee t)) max_fee) (f_lit 7 10))
        (f_mul (f_div (f_min (f_of_Z (get_age c (tx_hash t))) (f_of_Z 60)) (f_of_Z 60)) (f_lit 3 10)).
Definition hybrid_leb (c : OrderingContext) (max_fee : f64) (a b : Transaction) : bool :=
  match partial_cmp (hybrid_score c max_fee b) (hybrid_score c max_fee a) with
  | Some Gt => false
  | _ => true
  end.

Definition order_transactions (rng : nat → nat) (txs : list Transaction) (p : OrderingPolicy) (c : OrderingContext) :
    list Transaction :=
  match p with
  | Fifo => txs
  | Random => shuffle rng txs
  | FeeBased => sort_by fee_leb txs
  | Hybrid => sort_by (hybrid_leb c (f_of_Z (max_priority_fee txs))) txs
  | TimeWeighted => sort_by (age_leb c) txs
  end.

(** ** Patterns of extraction *)

Record MevCounts := MkMev { sandwiches : u64; backruns : u64; frontruns : u64; mev_value : u128 }.

Definition is_sandwich (t1 t2 t3 : Transaction) : bool :=
  bool_decide (to t1 = to t3) && bool_decide (to t1 ≠ address_zero) && bool_decide (to t2 = to t1)
  && bool_decide (from t2 ≠ from t1) && bool_decide (from t2 ≠ from t3).

Fixpoint detect_sandwiches (m : MevCounts) (txs : list Transaction) : MevCounts :=
  match txs with
  | t1 :: ((t2 :: t3 :: _) as rest) =>
      detect_sandwiches
        (if is_sandwich t1 t2 t3
         then MkMev (add64 (sandwiches m) 1) (backruns m) (frontruns m) (add128 (mev_value m) (add128 (fee t1) (fee t3)))
         else m) rest
  | _ => m
  end.

Definition detect_pair (arrivals : gmap Hash u64) (m : MevCounts) (t1 t2 : Transaction) : MevCounts :=
  if bool_decide (to t1 = to t2) && bool_decide (to t1 ≠ address_zero) && bool_decide (from t1 ≠ from t2) then
    match arrivals !! tx_hash t1, arrivals !! tx_hash t2 with
    | Some time1, Some time2 =>
        if time1 <? time2
        then MkMev (sandwiches m) (add64 (backruns m) 1) (frontruns m) (add128 (mev_value m) (fee t2))
        else if time2 <? time1
        then MkMev (sandwiches m) (backruns m) (add64 (frontruns m) 1) (add128 (mev_value m) (fee t2))
        else m
    | _, _ => m
    end
  else m.
Fixpoint detect_pairs (arrivals : gmap Hash u64) (m : MevCounts) (txs : list Transaction) : MevCounts :=
  match txs with
  | t1 :: ((t2 :: _) as rest) => detect_pairs arrivals (detect_pair arrivals m t1 t2) rest
  | _ => m
  end.

Definition detect_mev_patterns (arrivals : gmap Hash u64) (txs : list Transaction) : MevCounts :=
  if (length txs <? 2)%nat then MkMev 0 0 0 0
  else detect_pairs arrivals (detect_sandwiches (MkMev 0 0 0 0) txs) txs.

(** ** Fairness metrics *)

Record FairnessMetrics := MkMetrics {
  reordering_distance : f64;
  mev : MevCounts;
  fairness_score : f64;
  transaction_total : nat;
  avg_transaction_age : f64;
  fee_concentration : f64 }.

Definition f_sum (l : list f64) : f64 := foldl f_add f_zero l.

(** The positions of the transactions whose arrival is known, by arrival. *)
Definition by_arrival (arrivals : gmap Hash u64) (txs : list Transaction) : list (nat * u64) :=
  sort_by_key snd (omap (λ '(i, t), pair i <$> arrivals !! tx_hash t) (imap pair txs)).
Definition reordering_distances (arrivals : gmap Hash u64) (txs : list Transaction) : list f64 :=
  imap (λ expected p, f_abs (f_sub (f_of_Z (Z.of_nat p.1)) (f_of_Z (Z.of_nat expected)))) (by_arrival arrivals txs).
Definition avg_reordering (arrivals : gmap Hash u64) (txs : list Transaction) : f64 :=
  match reordering_distances arrivals txs with
  | [] => f_zero
  | ds => f_div (f_sum ds) (f_of_Z (Z.of_nat (length ds)))
  end.

Definition known_ages (now : u64) (arrivals : gmap Hash u64) (txs : list Transaction) : list u64 :=
  omap (λ t, sat_sub now <$> arrivals !! tx_hash t) txs.
Definition avg_age (now : u64) (arrivals : gmap Hash u64) (txs : list Transaction) : f64 :=
  match known_ages now arrivals txs with
  | [] => f_zero
  | ages => f_div (f_of_Z (foldl add64 0 ages)) (f_of_Z (Z.of_nat (length ages)))
  end.

(** [for i { for j { gini += |fees[i] - fees[j]| } }] *)
Definition gini_sum (sorted : list u128) : f64 :=
  foldl (λ acc x, foldl (λ acc y, f_add acc (f_abs (f_sub (f_of_Z x) (f_of_Z y)))) acc sorted) f_zero sorted.
Definition calculate_gini_coefficient (fees : list u128) : f64 :=
  let sorted := sort_by_key (λ x, x) fees in
  let n := f_of_Z (Z.of_nat (length sorted)) in
  let sum := foldl add128 0 sorted in
  if bool_decide (fees = []) || (sum =? 0) then f_zero
  else f_div (gini_sum sorted) (f_mul (f_mul (f_mul (f_of_Z 2) n) n) (f_div (f_of_Z sum) n)).

Definition has_mev (m : MevCounts) : bool := (0 <? sandwiches m) || (0 <? backruns m) || (0 <? frontruns m).

Definition score_of (avg_reordering : f64) (count : nat) (m : MevCounts) (concentration : f64) : f64 :=
  let max_expected := f_div (f_of_Z (Z.of_nat count)) (f_of_Z 2) in
  let reordering_penalty := f_min (f_div avg_reordering (f_max max_expected f_one)) f_one in
  let mev_penalty := if has_mev m then f_lit 3 10 else f_zero in
  f_max (f_sub (f_sub (f_sub f_one (f_mul reordering_penalty (f_lit 4 10))) mev_penalty)
           (f_mul concentration (f_lit 2 10))) f_zero.

Definition analyze_block (now : u64) (arrivals : gmap Hash u64) (txs : list Transaction) : FairnessMetrics :=
  match txs with
  | [] => MkMetrics f_zero (MkMev 0 0 0 0) f_one 0 f_zero f_zero
  | _ =>
      let m := detect_mev_patterns arrivals txs in
      let r := avg_reordering arrivals txs in
      let g := calculate_gini_coefficient (fee <$> txs) in
      MkMetrics r m (score_of r (length txs) m g) (length txs) (avg_age now arrivals txs) g
  end.

Definition get_transaction_fairness (arrivals : gmap Hash u64) (h : Hash) (position total_txs : nat) : f64 :=
  match arrivals !! h with
  | Some _ =>
      let distance := f_abs (f_sub (f_of_Z (Z.of_nat position)) (f_of_Z (Z.of_nat position))) in
      let max_distance := f_div (f_of_Z (Z.of_nat total_txs)) (f_of_Z 2) in
      f_sub f_one (f_min (f_div distance (f_max max_distance f_one)) f_one)
  | None => f_lit 1 2
  end.

Definition clear_old_data (before : u64) (arrivals : gmap Hash u64) : gmap Hash u64 :=
  filter (λ kv, before <= kv.2) arrivals.

(** ** No policy loses or invents a transaction *)

Lemma swap_perm {A} i j (l : list A) : swap i j l ≡ₚ l.
Proof.
  unfold swap. destruct (l !! i) as [x|] eqn:Hi; [|done]. destruct (l !! j) as [y|] eqn:Hj; [|done].
  destruct (decide (i = j)) as [->|Hne].
  - rewrite list_insert_insert_eq. rewrite list_insert_id; [done|]. congruence.
  - by apply Permutation_insert_swap.
Qed.
Lemma shuffle_from_perm {A} rng i (l : list A) : shuffle_from rng i l ≡ₚ l.
Proof. revert l. induction i as [|i IH]; intros l; cbn [shuffle_from]; [done|]. by rewrite IH, swap_perm. Qed.

(** A comparison by a first key, then a second one, both descending. *)
Definition lex_leb {A} (k1 k2 : A → Z) (a b : A) : bool :=
  match k1 b ?= k1 a with Eq => k2 b <=? k2 a | Lt => true | Gt => false end.

Lemma lex_leb_spec {A} (k1 k2 : A → Z) a b :
  lex_leb k1 k2 a b = true ↔ k1 b < k1 a ∨ (k1 b = k1 a ∧ k2 b <= k2 a).
Proof. unfold lex_leb. destruct (Z.compare_spec (k1 b) (k1 a)); [rewrite Z.leb_le|..]; split; intros; lia || done. Qed.
Lemma lex_sorted {A} (k1 k2 : A → Z) l :
  StronglySorted (λ a b, k1 b < k1 a ∨ (k1 b = k1 a ∧ k2 b <= k2 a)) (sort_by (lex_leb k1 k2) l).
Proof.
  eapply StronglySorted_mono; [|apply sort_by_sorted].
  - intros x y Hxy. by apply lex_leb_spec.
  - intros x y. rewrite !lex_leb_spec. lia.
  - intros x y z. rewrite !lex_leb_spec. lia.
Qed.

(** Whatever the policy, the numbers drawn and the recorded arrivals, the
    block gets exactly the selected transactions; by fee they are ordered by
    priority fee, then value, and by time by age, then priority fee. *)
Theorem order_transactions_spec rng txs p c :
  order_transactions rng txs p c ≡ₚ txs ∧
  (p = FeeBased → StronglySorted (λ a b, priority_fee b < priority_fee a ∨
     (priority_fee b = priority_fee a ∧ value b <= value a)) (order_transactions rng txs p c)) ∧
  (p = TimeWeighted → StronglySorted (λ a b, get_age c (tx_hash b) < get_age c (tx_hash a) ∨
     (get_age c (tx_hash b) = get_age c (tx_hash a) ∧ priority_fee b <= priority_fee a))
     (order_transactions rng txs p c)).
Proof.
  split_and!.
  - destruct p; cbn [order_transactions]; [done|apply shuffle_from_perm|apply sort_by_perm..].
  - intros ->. apply (lex_sorted priority_fee value).
  - intros ->. apply (lex_sorted (λ t, get_age c (tx_hash t)) priority_fee).
Qed.

(** The clock of the context is only read when the context is created, so a
    transaction that arrives later has age 0 for ever: for such transactions
    the time-weighted order is the order by priority fee. *)
Lemma age_of_late_arrival h now ts c :
  current_time c = now → now <= ts → get_age (record_arrival h ts c) h = 0.
Proof. intros <- Hts. unfold get_age, record_arrival. cbn. rewrite lookup_insert_eq. mlia. Qed.

(** ** The counts of a block *)

Lemma detect_pair_counts arr m t1 t2 :
  0 <= backruns m → 0 <= frontruns m → backruns m + frontruns m < u64_max →
  let m' := detect_pair arr m t1 t2 in
  0 <= backruns m' ∧ 0 <= frontruns m' ∧ backruns m' + frontruns m' <= backruns m + frontruns m + 1 ∧
  sandwiches m' = sandwiches m.
Proof.
  intros Hb Hf Hlt. unfold detect_pair. destruct (_ && _); [|cbn; lia].
  destruct (arr !! tx_hash t1) as [ti1|], (arr !! tx_hash t2) as [ti2|]; try (cbn; lia).
  destruct (ti1 <? ti2); [|destruct (ti2 <? ti1)]; cbn [backruns frontruns sandwiches];
    rewrite ?add64_small by mlia; lia.
Qed.
Lemma detect_pairs_counts arr m txs :
  0 <= backruns m → 0 <= frontruns m → backruns m + frontruns m + Z.of_nat (length txs) <= u64_max →
  let m' := detect_pairs arr m txs in
  0 <= backruns m' ∧ 0 <= frontruns m' ∧
  backruns m' + frontruns m' <= backruns m + frontruns m + Z.of_nat (length txs - 1) ∧ sandwiches m' = sandwiches m.
Proof.
  revert m. induction txs as [|t1 txs IH]; intros m Hb Hf Hlt; [cbn; lia|].
  destruct txs as [|t2 txs]; [cbn; lia|].
  change (detect_pairs arr m (t1 :: t2 :: txs)) with (detect_pairs arr (detect_pair arr m t1 t2) (t2 :: txs)).
  cbn [length] in *. destruct (detect_pair_counts arr m t1 t2) as (B1 & F1 & S1 & E1); [lia..|].
  destruct (IH (detect_pair arr m t1 t2)) as (B2 & F2 & S2 & E2); [lia..|]. cbn zeta. rewrite E2, E1.
  split_and!; [done|done|lia|done].
Qed.
Lemma detect_sandwiches_counts m txs :
  0 <= sandwiches m → sandwiches m + Z.of_nat (length txs) <= u64_max →
  let m' := detect_sandwiches m txs in
  0 <= sandwiches m' <= sandwiches m + Z.of_nat (length txs - 2) ∧ backruns m' = backruns m ∧ frontruns m' = frontruns m.
Proof.
  revert m. induction txs as [|t1 txs IH]; intros m Hs Hlt; [cbn; lia|].
  destruct txs as [|t2 [|t3 txs]]; [cbn; lia..|].
  change (detect_sandwiches m (t1 :: t2 :: t3 :: txs)) with
    (detect_sandwiches (if is_sandwich t1 t2 t3
       then MkMev (add64 (sandwiches m) 1) (backruns m) (frontruns m) (add128 (mev_value m) (add128 (fee t1) (fee t3)))
       else m) (t2 :: t3 :: txs)).
  cbn [length] in *. destruct (is_sandwich t1 t2 t3).
  - rewrite (add64_small (sandwiches m) 1) by mlia.
    destruct (IH (MkMev (sandwiches m + 1) (backruns m) (frontruns m) (add128 (mev_value m) (add128 (fee t1) (fee t3)))))
      as (S1 & B1 & F1); cbn [sandwiches backruns frontruns] in *; [lia..|]. cbn zeta. split_and!; [lia|lia|done|done].
  - destruct (IH m) as (S1 & B1 & F1); [lia..|]. cbn zeta. split_and!; [lia|lia|done|done].
Qed.

(** A block of [n] transactions has at most [n - 2] detected sandwiches, and
    each neighbouring pair counts at most once as a back run or a front run. *)
Theorem mev_counts_bounded arr txs :
  Z.of_nat (length txs) <= u64_max →
  let m := detect_mev_patterns arr txs in
  0 <= sandwiches m <= Z.of_nat (length txs - 2) ∧ 0 <= backruns m ∧ 0 <= frontruns m ∧
  backruns m + frontruns m <= Z.of_nat (length txs - 1).
Proof.
  intros Hlen. unfold detect_mev_patterns. destruct (length txs <? 2)%nat; [cbn; lia|].
  destruct (detect_sandwiches_counts (MkMev 0 0 0 0) txs) as (S1 & B1 & F1); [cbn; lia..|]. cbn in S1, B1, F1.
  destruct (detect_pairs_counts arr (detect_sandwiches (MkMev 0 0 0 0) txs) txs) as (B2 & F2 & T2 & E2); [lia..|].
  cbn zeta. rewrite E2. lia.
Qed.
