(* ===== verification/TxPool.v ===== *)
(** * TxPool: pending transactions

    Models the transaction pools of [MiningManager] in
    [irondag-blockchain/src/mining.rs]: one pool per stream with its size counter,
    the set of known hashes, the set of transactions being assembled, the queue
    of future nonces, and the selection of the transactions of a block.

    A method runs to completion before the next one starts.  [now] is the
    [Instant] read, [wall] the seconds since the epoch. *)

From S2P Require Import Prelude Types Block Pow Error Ledger BlockIndex Execution Chain.
From S2P Require Import Economics Messaging Sharding Ordering.

Definition MAX_TX_POOL_SIZE : usize := 100000.
Definition MAX_STREAM_A_POOL_SIZE : usize := 60000.
Definition MAX_STREAM_B_POOL_SIZE : usize := 30000.
Definition MAX_STREAM_C_POOL_SIZE : usize := 10000.
Definition TX_TTL_SECS : u64 := 600.
Definition MAX_FUTURE_NONCE_GAP : u64 := 16.
Definition MAX_FUTURE_TXS_PER_SENDER : usize := 16.
Definition FUTURE_TX_TTL_SECS : u64 := 300.
Definition MAX_IN_FLIGHT : usize := 10000.

Record PooledTransaction := MkPooled { p_tx : Transaction; submitted_at : Z }.

Definition age_secs (now : Z) (p : PooledTransaction) : u64 := as_secs (duration_since now (submitted_at p)).
Definition is_expired (now : Z) (p : PooledTransaction) : bool := TX_TTL_SECS <? age_secs now p.

(** A pool and its size counter. *)
Record Pool := MkPool { entries : list PooledTransaction; pool_size : usize }.
Definition pool_empty : Pool := MkPool [] 0.

Definition pool_push (p : PooledTransaction) (q : Pool) : Pool := MkPool (entries q ++ [p]) (add64 (pool_size q) 1).

(** [v.swap_remove(i)]: the last element takes the place of the removed one. *)
Definition swap_remove {A} (i : nat) (l : list A) : list A :=
  match last l with Some x => take (length l - 1) (<[i := x]> l) | None => l end.

(** [iter().enumerate().min_by_key(|(_, p)| p.tx.fee)]: the first minimum. *)
Fixpoint lowest_fee (l : list PooledTransaction) : option (nat * PooledTransaction) :=
  match l with
  | [] => None
  | p :: l' =>
      match lowest_fee l' with
      | Some (i, q) => if fee (p_tx p) <=? fee (p_tx q) then Some (O, p) else Some (S i, q)
      | None => Some (O, p)
      end
  end.

(** [pool.retain(keep)] with the counter lowered by what was removed. *)
Definition retain (keep : PooledTransaction → bool) (q : Pool) : Pool :=
  let kept := List.filter keep (entries q) in
  MkPool kept (sub64 (pool_size q) (Z.of_nat (length (entries q) - length kept))).

(** [sort_unstable_by_key]: sorted, but in no particular order among equals. *)
Class UnstableSort := {
  sort_unstable_by_key : ∀ {A}, (A → Z) → list A → list A;
  unstable_perm : ∀ {A} (k : A → Z) l, sort_unstable_by_key k l ≡ₚ l;
  unstable_sorted : ∀ {A} (k : A → Z) l, StronglySorted (λ x y, k x <= k y) (sort_unstable_by_key k l);
}.

Section Pools.
Context `{Hex, Keccak, Blake3, Crypto, Evm, HashIter, SliceSearch, UnstableSort}.
Context `{Codec Block, Codec (list Hash), Codec TxReceipt, Codec CrossShardMessage}.

Record TxPool := MkTxPool {
  chain : Blockchain;
  shard_manager : option ShardManager;
  tx_pool : Pool;
  stream_a_pool : Pool;
  stream_b_pool : Pool;
  stream_c_pool : Pool;
  pool_tx_hashes : gset Hash;
  in_flight_txs : gset Hash;
  future_txs : gmap Address (gmap u64 PooledTransaction);
  tx_distribution_counter : u64;
  single_stream_mode : bool;
  fairness_arrivals : gmap Hash u64;
  ordering_context : OrderingContext }.

Definition txpool_new (c : Blockchain) (sm : option ShardManager) (single : bool) (wall : u64) : TxPool :=
  MkTxPool c sm pool_empty pool_empty pool_empty pool_empty ∅ ∅ ∅ 0 single ∅ (context_new wall).

Definition set_bc (c : Blockchain) (t : TxPool) : TxPool :=
  MkTxPool c (shard_manager t) (tx_pool t) (stream_a_pool t) (stream_b_pool t) (stream_c_pool t) (pool_tx_hashes t)
    (in_flight_txs t) (future_txs t) (tx_distribution_counter t) (single_stream_mode t) (fairness_arrivals t)
    (ordering_context t).
Definition set_shards (sm : option ShardManager) (t : TxPool) : TxPool :=
  MkTxPool (chain t) sm (tx_pool t) (stream_a_pool t) (stream_b_pool t) (stream_c_pool t) (pool_tx_hashes t)
    (in_flight_txs t) (future_txs t) (tx_distribution_counter t) (single_stream_mode t) (fairness_arrivals t)
    (ordering_context t).
Definition set_legacy (q : Pool) (t : TxPool) : TxPool :=
  MkTxPool (chain t) (shard_manager t) q (stream_a_pool t) (stream_b_pool t) (stream_c_pool t) (pool_tx_hashes t)
    (in_flight_txs t) (future_txs t) (tx_distribution_counter t) (single_stream_mode t) (fairness_arrivals t)
    (ordering_context t).
Definition stream_pool (s : StreamType) (t : TxPool) : Pool :=
  match s with StreamA => stream_a_pool t | StreamB => stream_b_pool t | StreamC => stream_c_pool t end.
Definition set_stream (s : StreamType) (q : Pool) (t : TxPool) : TxPool :=
  MkTxPool (chain t) (shard_manager t) (tx_pool t)
    (match s with StreamA => q | _ => stream_a_pool t end)
    (match s with StreamB => q | _ => stream_b_pool t end)
    (match s with StreamC => q | _ => stream_c_pool t end) (pool_tx_hashes t)
    (in_flight_txs t) (future_txs t) (tx_distribution_counter t) (single_stream_mode t) (fairness_arrivals t)
    (ordering_context t).
Definition set_hashes (h : gset Hash) (t : TxPool) : TxPool :=
  MkTxPool (chain t) (shard_manager t) (tx_pool t) (stream_a_pool t) (stream_b_pool t) (stream_c_pool t) h
    (in_flight_txs t) (future_txs t) (tx_distribution_counter t) (single_stream_mode t) (fairness_arrivals t)
    (ordering_context t).
Definition set_in_flight (f : gset Hash) (t : TxPool) : TxPool :=
  MkTxPool (chain t) (shard_manager t) (tx_pool t) (stream_a_pool t) (stream_b_pool t) (stream_c_pool t) (pool_tx_hashes t)
    f (future_txs t) (tx_distribution_counter t) (single_stream_mode t) (fairness_arrivals t)
    (ordering_context t).
Definition set_future (f : gmap Address (gmap u64 PooledTransaction)) (t : TxPool) : TxPool :=
  MkTxPool (chain t) (shard_manager t) (tx_pool t) (stream_a_pool t) (stream_b_pool t) (stream_c_pool t) (pool_tx_hashes t)
    (in_flight_txs t) f (tx_distribution_counter t) (single_stream_mode t) (fairness_arrivals t)
    (ordering_context t).
Definition set_counter (n : u64) (t : TxPool) : TxPool :=
  MkTxPool (chain t) (shard_manager t) (tx_pool t) (stream_a_pool t) (stream_b_pool t) (stream_c_pool t) (pool_tx_hashes t)
    (in_flight_txs t) (future_txs t) n (single_stream_mode t) (fairness_arrivals t)
    (ordering_context t).
Definition set_arrivals (f : gmap Hash u64) (c : OrderingContext) (t : TxPool) : TxPool :=
  MkTxPool (chain t) (shard_manager t) (tx_pool t) (stream_a_pool t) (stream_b_pool t) (stream_c_pool t) (pool_tx_hashes t)
    (in_flight_txs t) (future_txs t) (tx_distribution_counter t) (single_stream_mode t) f c.

Abbreviation TM := (SE TxPool BlockchainError).

Definition forget_hash (h : Hash) (t : TxPool) : TxPool := set_hashes (pool_tx_hashes t ∖ {[h]}) t.
Definition forget_hashes (hs : list Hash) (t : TxPool) : TxPool := set_hashes (pool_tx_hashes t ∖ list_to_set hs) t.

Definition get_sender_nonce (a : Address) : TM u64 := zoom chain set_bc (on_ledger (get_nonce a)).

(** ** Base fee *)

Definition gas_limit_of (s : StreamType) : u64 :=
  match s with StreamA => STREAM_A_GAS_LIMIT | StreamB => STREAM_B_GAS_LIMIT | StreamC => STREAM_C_GAS_LIMIT end.
Definition block_gas (b : Block) : u64 := foldl (λ n t, add64 n (gas_limit t)) 0 (transactions b).

Definition get_current_base_fee (s : StreamType) (t : TxPool) : result BlockchainError u128 :=
  match get_latest_block_for_stream (blocks_data (chain t)) s with
  | Some b => calculate_base_fee (base_fee_per_gas (header b)) (block_gas b) (gas_limit_of s)
  | None => Ok BASE_FEE_INITIAL
  end.

(** ** Eviction *)

Definition evict_lowest_fee_tx_if_higher (s : StreamType) (new_tx_fee : u128) (t : TxPool) : TxPool * bool :=
  match lowest_fee (entries (stream_pool s t)) with
  | Some (i, p) =>
      if fee (p_tx p) <? new_tx_fee then
        (forget_hash (tx_hash (p_tx p))
           (set_stream s (MkPool (swap_remove i (entries (stream_pool s t))) (sub64 (pool_size (stream_pool s t)) 1)) t),
         true)
      else (t, false)
  | None => (t, false)
  end.

Definition fresh_enough (now : Z) (p : PooledTransaction) : bool := age_secs now p <? TX_TTL_SECS.
Definition stale_hashes (now : Z) (q : Pool) : list Hash :=
  (λ p, tx_hash (p_tx p)) <$> List.filter (λ p, TX_TTL_SECS <=? age_secs now p) (entries q).
(** One pool of [evict_expired_transactions]. *)
Definition evict_stream (now : Z) (s : StreamType) (t : TxPool) : TxPool :=
  match stale_hashes now (stream_pool s t) with
  | [] => t
  | hs => forget_hashes hs (set_stream s (retain (fresh_enough now) (stream_pool s t)) t)
  end.
Definition evict_legacy (now : Z) (t : TxPool) : TxPool :=
  match stale_hashes now (tx_pool t) with
  | [] => t
  | hs => forget_hashes hs (set_legacy (retain (fresh_enough now) (tx_pool t)) t)
  end.

Definition stale_future (now : Z) (p : PooledTransaction) : bool := FUTURE_TX_TTL_SECS <=? age_secs now p.
Definition stale_future_hashes (now : Z) (f : gmap Address (gmap u64 PooledTransaction)) : list Hash :=
  (λ p, tx_hash (p_tx p)) <$>
    List.filter (stale_future now) ((λ kv, kv.2) <$> concat ((λ kv, map_to_list kv.2) <$> map_to_list f)).
Definition cleanup_stale_future_txs (now : Z) (t : TxPool) : TxPool :=
  let kept := (λ q, filter (λ kv, stale_future now kv.2 = false) q) <$> future_txs t in
  forget_hashes (stale_future_hashes now (future_txs t))
    (set_future (filter (λ kv, kv.2 ≠ ∅) kept) t).

Definition evict_expired_transactions (now : Z) (t : TxPool) : TxPool :=
  cleanup_stale_future_txs now
    (evict_legacy now (evict_stream now StreamC (evict_stream now StreamB (evict_stream now StreamA t)))).

(** ** Adding *)

Definition stream_cap (s : StreamType) : usize :=
  match s with
  | StreamA => MAX_STREAM_A_POOL_SIZE
  | StreamB => MAX_STREAM_B_POOL_SIZE
  | StreamC => MAX_STREAM_C_POOL_SIZE
  end.
Definition stream_of_counter (n : u64) : StreamType :=
  if n mod 3 =? 0 then StreamA else if n mod 3 =? 1 then StreamB else StreamC.
Definition target_stream (t : TxPool) : StreamType :=
  if single_stream_mode t then StreamA else stream_of_counter (tx_distribution_counter t).

Definition add_to_pool_inner (p : PooledTransaction) (t : TxPool) : TxPool :=
  let s := target_stream t in
  let t := if stream_cap s <=? pool_size (stream_pool s t)
           then (evict_lowest_fee_tx_if_higher s (fee (p_tx p)) t).1 else t in
  if single_stream_mode t then set_stream StreamA (pool_push p (stream_a_pool t)) t
  else set_counter (add64 (tx_distribution_counter t) 1) (set_stream s (pool_push p (stream_pool s t)) t).

(** With sharding a ready transaction goes to its shard instead. *)
Definition admit_ready (now : Z) (p : PooledTransaction) : TM unit := λ t,
  match shard_manager t with
  | Some sm => let '(r, sm') := add_transaction now (p_tx p) sm in (r, set_shards (Some sm') t)
  | None => (Ok tt, add_to_pool_inner p t)
  end.

(** [while let Some(pooled_tx) = sender_queue.remove(&next_nonce) { .. }]; the
    remaining queue.  Each turn shortens the queue. *)
Fixpoint promote_loop (fuel : nat) (now : Z) (next_nonce : u64) (queue : gmap u64 PooledTransaction) :
    TM (gmap u64 PooledTransaction) :=
  match queue !! next_nonce with
  | None => mret queue
  | Some p =>
      match fuel with
      | O => fail OutOfFuel
      | S fuel' =>
          _ ← se_mod (forget_hash (tx_hash (p_tx p)));
          _ ← se_try (F:=BlockchainError) (admit_ready now p);
          promote_loop fuel' now (add64 next_nonce 1) (delete next_nonce queue)
      end
  end.

Definition promote_future_txs (now : Z) (sender : Address) : TM unit :=
  t ← se_get;
  match future_txs t !! sender with
  | None => mret tt
  | Some queue =>
      n ← get_sender_nonce sender;
      rest ← promote_loop (size queue) now n queue;
      se_mod (λ t, set_future (if bool_decide (rest = ∅) then delete sender (future_txs t)
                               else <[sender := rest]> (future_txs t)) t)
  end.

Definition record_arrivals (h : Hash) (wall : u64) (t : TxPool) : TxPool :=
  set_arrivals (<[h := wall]> (fairness_arrivals t)) (record_arrival h wall (ordering_context t)) t.

(** Rejected: the hash may be submitted again. *)
Definition reject (h : Hash) (msg : string) : TM unit :=
  _ ← se_mod (forget_hash h); fail (Validation msg).

Definition queue_future (now : Z) (tx : Transaction) : TM unit :=
  t ← se_get;
  let queue := default ∅ (future_txs t !! from tx) in
  (* [entry(sender).or_insert_with(BTreeMap::new)] *)
  _ ← se_mod (λ t, set_future (<[from tx := queue]> (future_txs t)) t);
  if MAX_FUTURE_TXS_PER_SENDER <=? Z.of_nat (size queue)
  then reject (tx_hash tx) "too many future-nonce transactions queued for sender"
  else if bool_decide (is_Some (queue !! nonce tx))
  then reject (tx_hash tx) "transaction with this nonce already queued"
  else se_mod (λ t, set_future (<[from tx := <[nonce tx := MkPooled tx now]> queue]> (future_txs t)) t).

Definition pool_add_transaction (now : Z) (wall : u64) (tx : Transaction) : TM unit :=
  t ← se_get;
  if bool_decide (tx_hash tx ∈ pool_tx_hashes t) then fail (Validation "duplicate transaction") else
  _ ← se_mod (λ t, set_hashes (pool_tx_hashes t ∪ {[tx_hash tx]}) t);
  _ ← se_mod (record_arrivals (tx_hash tx) wall);
  base_fee ← se_read (get_current_base_fee StreamA);
  if negb (can_afford_base_fee tx base_fee)
  then reject (tx_hash tx) "transaction max fee per gas below base fee" else
  expected_nonce ← get_sender_nonce (from tx);
  if nonce tx =? expected_nonce then
    _ ← admit_ready now (MkPooled tx now);
    promote_future_txs now (from tx)
  else if (expected_nonce <? nonce tx) && (nonce tx <=? sat_add64 expected_nonce MAX_FUTURE_NONCE_GAP)
  then queue_future now tx
  else if nonce tx <? expected_nonce then reject (tx_hash tx) "nonce too low"
  else reject (tx_hash tx) "nonce too far ahead".

(** ** Queries *)

Definition pending_count (t : TxPool) : usize :=
  add64 (add64 (pool_size (stream_a_pool t)) (pool_size (stream_b_pool t))) (pool_size (stream_c_pool t)).
Definition get_mempool_sizes (t : TxPool) : usize * usize * usize * usize :=
  (pending_count t, pool_size (stream_a_pool t), pool_size (stream_b_pool t), pool_size (stream_c_pool t)).
Definition all_pooled (t : TxPool) : list PooledTransaction :=
  entries (tx_pool t) ++ entries (stream_a_pool t) ++ entries (stream_b_pool t) ++ entries (stream_c_pool t).
Definition get_mempool_snapshot (t : TxPool) : gmap Hash Transaction :=
  foldl (λ m p, <[tx_hash (p_tx p) := p_tx p]> m) ∅ (all_pooled t).
Definition get_mempool_hashes (t : TxPool) : gset Hash :=
  foldl (λ s p, s ∪ {[tx_hash (p_tx p)]}) ∅ (all_pooled t).

(** ** Selecting the transactions of a block *)

Definition stream_max_txs (s : StreamType) : usize :=
  match s with StreamA => STREAM_A_MAX_TXS | StreamB => STREAM_B_MAX_TXS | StreamC => STREAM_C_MAX_TXS end.

(** Take the front of the pool out. *)
Definition pop_front (s : StreamType) (t : TxPool) : option (PooledTransaction * TxPool) :=
  match entries (stream_pool s t) with
  | [] => None
  | p :: _ =>
      Some (p, forget_hash (tx_hash (p_tx p))
                 (set_stream s (MkPool (swap_remove 0 (entries (stream_pool s t))) (sub64 (pool_size (stream_pool s t)) 1)) t))
  end.

(** [if in_flight.len() > 10_000 { in_flight.clear() }; in_flight.insert(h)] *)
Definition mark_in_flight (h : Hash) (t : TxPool) : TxPool * bool :=
  let f := if MAX_IN_FLIGHT <? Z.of_nat (size (in_flight_txs t)) then ∅ else in_flight_txs t in
  (set_in_flight (f ∪ {[h]}) t, negb (bool_decide (h ∈ f))).

(** [while drained < count && !pool.is_empty() { .. }]: every turn removes an
    entry, so the length of the pool is enough fuel. *)
Fixpoint drain_loop (fuel : nat) (now : Z) (s : StreamType) (count : nat) (t : TxPool) : list Transaction * TxPool :=
  match fuel, count with
  | S fuel', S count' =>
      match pop_front s t with
      | None => ([], t)
      | Some (p, t1) =>
          if is_expired now p then drain_loop fuel' now s count t1 else
          let '(t2, inserted) := mark_in_flight (tx_hash (p_tx p)) t1 in
          if inserted then
            let '(txs, t3) := drain_loop fuel' now s count' t2 in (p_tx p :: txs, t3)
          else drain_loop fuel' now s count t2
      end
  | _, _ => ([], t)
  end.

(** Drop from another stream what was just selected. *)
Definition drop_selected (hs : list Hash) (s : StreamType) (t : TxPool) : TxPool :=
  set_stream s (retain (λ p, negb (bool_decide (tx_hash (p_tx p) ∈ hs))) (stream_pool s t)) t.
Definition other_streams (s : StreamType) : list StreamType :=
  match s with StreamA => [StreamB; StreamC] | StreamB => [StreamA; StreamC] | StreamC => [StreamA; StreamB] end.

Definition drain (now : Z) (s : StreamType) (t : TxPool) : list Transaction * TxPool :=
  let q := stream_pool s t in
  let count := Z.to_nat (Z.min (pool_size q) (stream_max_txs s)) in
  let sorted := sort_unstable_by_key (λ p, - fee (p_tx p)) (entries q) in
  let '(txs, t1) := drain_loop (length sorted) now s count (set_stream s (MkPool sorted (pool_size q)) t) in
  (txs, foldl (λ t s', drop_selected (tx_hash <$> txs) s' t) t1 (other_streams s)).

(** Without sharding: the selection of a mining round, in the order of the
    policy. *)
Definition select_transactions (rng : nat → nat) (policy : OrderingPolicy) (now : Z) (s : StreamType)
    (t : TxPool) : list Transaction * TxPool :=
  let '(txs, t1) := drain now s t in
  (order_transactions rng txs policy (ordering_context t1), t1).

(** Give the transactions of a failed round back to the pool of the stream. *)
Definition return_transactions (now : Z) (s : StreamType) (txs : list Transaction) (t : TxPool) : TxPool :=
  let t1 := foldl (λ t x, set_stream s (pool_push (MkPooled x now) (stream_pool s t)) t) t txs in
  set_in_flight (in_flight_txs t1 ∖ list_to_set (tx_hash <$> txs)) t1.
End Pools.
