(* ===== verification/TxPoolTheorems.v ===== *)
(** * TxPoolTheorems: what the transaction pools guarantee

    The size counters, the bounds of the future queue and of the in-flight set
    are invariants of every method; a rejected submission leaves no trace in the
    pools; a selection takes what it removes, within its limits.  Three
    theorems state where the pools do not do what their comments say. *)

From S2P Require Import Prelude Types Block Pow Error Ledger BlockIndex Execution Chain.
From S2P Require Import Economics Messaging Sharding Ordering TxPool.

(** ** Vectors *)

Lemma swap_remove_head {A} (x : A) r :
  swap_remove 0 (x :: r) = match last r with Some y => y :: take (length r - 1) r | None => [] end.
Proof.
  unfold swap_remove. destruct r as [|z r] using rev_ind; [done|]. clear IHr.
  change (x :: r ++ [z]) with ((x :: r) ++ [z]). rewrite !last_snoc. rewrite insert_app_l by (cbn; lia).
  rewrite !length_app. cbn [length app insert list_insert]. rewrite !Nat.add_sub. cbn [take].
  by rewrite !take_app_length.
Qed.
Lemma length_swap_remove {A} i (l : list A) : length (swap_remove i l) = (length l - 1)%nat.
Proof.
  unfold swap_remove. destruct (last l) eqn:Hl; [rewrite length_take, length_insert; lia|].
  apply last_None in Hl. by subst.
Qed.
Lemma swap_remove_perm {A} i (x : A) l : l !! i = Some x → x :: swap_remove i l ≡ₚ l.
Proof.
  intros Hi. unfold swap_remove. destruct (last l) as [y|] eqn:Hl; [|by apply last_None in Hl; subst].
  apply last_Some in Hl as [l' ->]. rewrite length_app. cbn [length]. rewrite Nat.add_sub.
  destruct (decide (i < length l')%nat) as [Hlt|Hge].
  - rewrite lookup_app_l in Hi by done. rewrite insert_app_l by done. rewrite take_app_length' by (by rewrite length_insert).
    apply list_elem_of_split_length in Hi as (a & b & -> & ->).
    rewrite insert_app_r_alt by lia. rewrite Nat.sub_diag. cbn [insert list_insert].
    rewrite (Permutation_app_comm (a ++ x :: b) [y]). cbn [app].
    rewrite <- (Permutation_middle a b x), <- (Permutation_middle a b y). apply perm_swap.
  - rewrite lookup_app_r in Hi by lia. destruct (i - length l')%nat as [|k] eqn:Hk; [|by destruct k].
    injection Hi as ->. assert (i = length l') as -> by lia.
    rewrite insert_app_r_alt by lia. rewrite Nat.sub_diag. cbn. rewrite take_app_length.
    by rewrite (Permutation_app_comm l' [x]).
Qed.

Lemma lowest_fee_spec l :
  match lowest_fee l with
  | Some (i, p) => l !! i = Some p ∧ Forall (λ q, fee (p_tx p) <= fee (p_tx q)) l
  | None => l = []
  end.
Proof.
  induction l as [|p l IH]; [done|]. cbn [lowest_fee]. destruct (lowest_fee l) as [[i q]|].
  - destruct IH as [Hi Hall]. destruct (fee (p_tx p) <=? fee (p_tx q)) eqn:Hle; bool_to_prop.
    + split; [done|]. constructor; [lia|]. eapply Forall_impl; [exact Hall|]. cbn. lia.
    + split; [done|]. constructor; [lia|done].
  - subst l. split; [done|]. constructor; [lia|constructor].
Qed.

(** ** Counters *)

(** The counter is the length of the pool, on 64 bits. *)
Definition counted (q : Pool) : Prop := pool_size q = Z.of_nat (length (entries q)) mod (u64_max + 1).

Lemma counted_push p q : counted q → counted (pool_push p q).
Proof.
  unfold counted, pool_push. cbn [pool_size entries]. intros ->. rewrite length_app. cbn [length]. unfold add64.
  rewrite Z.add_mod_idemp_l by done. f_equal. lia.
Qed.
Lemma counted_less q l k :
  counted q → (length l + k = length (entries q))%nat → counted (MkPool l (sub64 (pool_size q) (Z.of_nat k))).
Proof.
  unfold counted. cbn [pool_size entries]. intros -> Hk. unfold sub64. rewrite Zminus_mod_idemp_l. f_equal. lia.
Qed.
Lemma counted_retain f q : counted q → counted (retain f q).
Proof.
  intros Hq. unfold retain. apply counted_less; [done|].
  assert (length (List.filter f (entries q)) <= length (entries q))%nat; [|lia].
  clear Hq. induction (entries q) as [|p l IH]; cbn; [lia|]. destruct (f p); cbn; lia.
Qed.
Lemma counted_perm q l : counted q → l ≡ₚ entries q → counted (MkPool l (pool_size q)).
Proof. unfold counted. cbn. intros -> ->. done. Qed.

Section Invariant.
Context `{Hex, Keccak, Blake3, Crypto, Evm, HashIter, SliceSearch, UnstableSort}.
Context `{Codec Block, Codec (list Hash), Codec TxReceipt, Codec CrossShardMessage}.

Definition queue_ok (s : Address) (q : gmap u64 PooledTransaction) : Prop :=
  Z.of_nat (size q) <= MAX_FUTURE_TXS_PER_SENDER ∧
  map_Forall (λ n p, nonce (p_tx p) = n ∧ from (p_tx p) = s) q.

Record pools_ok (t : TxPool) : Prop := {
  po_legacy : counted (tx_pool t);
  po_streams : ∀ s, counted (stream_pool s t);
  po_future : map_Forall queue_ok (future_txs t);
  po_in_flight : Z.of_nat (size (in_flight_txs t)) <= MAX_IN_FLIGHT + 1 }.

(** A step on one stream pool and on the set of hashes. *)
Lemma pools_ok_stream s q h t : pools_ok t → counted q → pools_ok (set_hashes h (set_stream s q t)).
Proof. intros [A B C D] Hq. split; [done| |done|done]. intros s'. destruct s, s'; first [exact Hq | apply (B StreamA) | apply (B StreamB) | apply (B StreamC)]. Qed.
Lemma pools_ok_set_stream s q t : pools_ok t → counted q → pools_ok (set_stream s q t).
Proof. intros Ht Hq. by apply (pools_ok_stream s q (pool_tx_hashes t) t). Qed.
Lemma pools_ok_hashes h t : pools_ok t → pools_ok (set_hashes h t).
Proof. by intros [A B C D]. Qed.
Lemma stream_pool_set s q t : stream_pool s (set_stream s q t) = q.
Proof. by destruct s. Qed.
Lemma stream_pool_other s s' q t : s ≠ s' → stream_pool s' (set_stream s q t) = stream_pool s' t.
Proof. by destruct s, s'. Qed.

Lemma evict_lowest_ok s f t : pools_ok t → pools_ok (evict_lowest_fee_tx_if_higher s f t).1.
Proof.
  intros Ht. unfold evict_lowest_fee_tx_if_higher. pose proof (lowest_fee_spec (entries (stream_pool s t))) as Hl.
  destruct (lowest_fee _) as [[i p]|]; [|done]. destruct (_ <? f); [|done]. destruct Hl as [Hi _].
  cbn [fst]. apply pools_ok_stream; [done|]. apply (counted_less _ _ 1); [apply Ht|].
  rewrite length_swap_remove. apply lookup_lt_Some in Hi. lia.
Qed.
Lemma add_to_pool_ok p t : pools_ok t → pools_ok (add_to_pool_inner p t).
Proof.
  intros Ht. unfold add_to_pool_inner. set (s := target_stream t). set (t1 := if _ <=? _ then _ else t).
  assert (pools_ok t1) as Ht1 by (unfold t1; destruct (_ <=? _); [by apply evict_lowest_ok|done]).
  destruct (single_stream_mode t1).
  - apply (pools_ok_set_stream StreamA); [done|]. apply counted_push, (po_streams _ Ht1 StreamA).
  - destruct (pools_ok_set_stream s (pool_push p (stream_pool s t1)) t1) as [A B C D]; [done|apply counted_push, Ht1|].
    split; [done| |done|done]. intros s'. destruct s'; [apply (B StreamA)|apply (B StreamB)|apply (B StreamC)].
Qed.
Lemma evict_stream_ok now s t : pools_ok t → pools_ok (evict_stream now s t).
Proof.
  intros Ht. unfold evict_stream. destruct (stale_hashes _ _); [done|]. apply pools_ok_stream; [done|].
  apply counted_retain, Ht.
Qed.
Lemma evict_legacy_ok now t : pools_ok t → pools_ok (evict_legacy now t).
Proof.
  intros Ht. unfold evict_legacy. destruct (stale_hashes _ _); [done|]. destruct Ht as [A B C D].
  split; [by apply counted_retain|exact B|done|done].
Qed.
Lemma queue_ok_subseteq s q q' : q' ⊆ q → queue_ok s q → queue_ok s q'.
Proof.
  intros Hs [Hn Hq]. split; [apply map_subseteq_size in Hs; lia|].
  intros n p Hp. apply Hq. by eapply lookup_weaken.
Qed.
Lemma cleanup_ok now t : pools_ok t → pools_ok (cleanup_stale_future_txs now t).
Proof.
  intros [A B C D]. split; [done|exact B| |done]. cbn. intros s q Hq. apply map_lookup_filter_Some in Hq as [Hq _].
  apply lookup_fmap_Some in Hq as (q0 & <- & Hq0). eapply queue_ok_subseteq; [|by apply C]. apply map_filter_subseteq.
Qed.
Lemma evict_expired_ok now t : pools_ok t → pools_ok (evict_expired_transactions now t).
Proof. intros Ht. unfold evict_expired_transactions. by apply cleanup_ok, evict_legacy_ok, evict_stream_ok, evict_stream_ok, evict_stream_ok. Qed.
(** ** Submission *)

Lemma get_sender_nonce_spec a t :
  ∃ l', get_sender_nonce a t = (Ok (view (ledger (chain t)) a).2, set_bc (set_ledger l' (chain t)) t) ∧
    reads (ledger (chain t)) l'.
Proof.
  destruct (get_nonce_spec a (ledger (chain t))) as (l' & Hg & Hr). exists l'. split; [|done].
  unfold get_sender_nonce, on_ledger, zoom. by rewrite Hg.
Qed.

Lemma admit_ready_ok now p t r t' :
  admit_ready now p t = (r, t') → (pools_ok t → pools_ok t') ∧ future_txs t' = future_txs t.
Proof.
  unfold admit_ready. destruct (shard_manager t) as [sm|].
  - destruct (add_transaction now (p_tx p) sm). intros [= _ <-]. split; [|done]. by intros [A B C D].
  - intros [= _ <-]. split; [apply add_to_pool_ok|]. unfold add_to_pool_inner.
    set (t1 := if _ <=? _ then _ else t). assert (future_txs t1 = future_txs t) as Ht1.
    { unfold t1. destruct (_ <=? _); [|done]. unfold evict_lowest_fee_tx_if_higher.
      destruct (lowest_fee _) as [[i q]|]; [|done]. by destruct (_ <? _). }
    by destruct (single_stream_mode t1).
Qed.

(** Promotion ends with the fuel it is given. *)
Lemma promote_loop_spec fuel now n q t :
  (size q <= fuel)%nat →
  ∃ rest t', promote_loop fuel now n q t = (Ok rest, t') ∧ rest ⊆ q ∧ (pools_ok t → pools_ok t') ∧
    future_txs t' = future_txs t.
Proof.
  revert n q t. induction fuel as [|fuel IH]; intros n q t Hf; cbn [promote_loop].
  - destruct (q !! n) as [p|] eqn:Hq; [|by exists q, t].
    assert (size q ≠ 0%nat) by (apply (map_size_ne_0_lookup_2 q n); by eexists). lia.
  - destruct (q !! n) as [p|] eqn:Hq; [|by exists q, t]. rewrite se_mod_step.
    destruct (admit_ready now p (forget_hash (tx_hash (p_tx p)) t)) as [r t1] eqn:Ha.
    destruct (admit_ready_ok _ _ _ _ _ Ha) as [Hok Hfut].
    destruct (IH (add64 n 1) (delete n q) t1) as (rest & t' & He & Hsub & Hok' & Hfut').
    { rewrite map_size_delete_Some by (by eexists). lia. }
    exists rest, t'. split_and!.
    + rewrite <- He. unfold mbind, SE_bind, se_try. by rewrite Ha.
    + etransitivity; [exact Hsub|apply delete_subseteq].
    + intros Ht. by apply Hok', Hok, pools_ok_hashes.
    + by rewrite Hfut', Hfut.
Qed.

Lemma promote_spec now a t :
  ∃ t', promote_future_txs now a t = (Ok tt, t') ∧ (pools_ok t → pools_ok t').
Proof.
  unfold promote_future_txs. rewrite se_get_step. destruct (future_txs t !! a) as [q|] eqn:Hq; [|by exists t].
  destruct (get_sender_nonce_spec a t) as (l' & Hn & _). erewrite se_bind_step by exact Hn.
  destruct (promote_loop_spec (size q) now (view (ledger (chain t)) a).2 q (set_bc (set_ledger l' (chain t)) t))
    as (rest & t' & He & Hsub & Hok & Hfut); [done|].
  erewrite se_bind_step by exact He. eexists. split; [done|]. intros Ht.
  assert (pools_ok t') as Ht' by (apply Hok; by destruct Ht). destruct Ht' as [A B C D]. split; [done|exact B| |done].
  cbn. case_bool_decide; [by apply map_Forall_delete|]. apply map_Forall_insert_2; [|done].
  eapply queue_ok_subseteq; [exact Hsub|]. by apply (po_future _ Ht).
Qed.

Lemma reject_spec h msg t : reject h msg t = (Err (Validation msg), forget_hash h t).
Proof. done. Qed.

Lemma queue_future_ok now tx t : pools_ok t → pools_ok (queue_future now tx t).2.
Proof.
  intros Ht. unfold queue_future. rewrite se_get_step, se_mod_step. set (q := default ∅ _).
  assert (queue_ok (from tx) q) as Hq.
  { unfold q. destruct (future_txs t !! from tx) as [q0|] eqn:Hq0; [by apply (po_future _ Ht)|].
    split; [done|apply map_Forall_empty]. }
  assert (pools_ok (set_future (<[from tx := q]> (future_txs t)) t)) as Ht1.
  { destruct Ht as [A B C D]. split; [done|exact B| |done]. by apply map_Forall_insert_2. }
  destruct (_ <=? _) eqn:Hsz; [by rewrite reject_spec; apply pools_ok_hashes|].
  case_bool_decide; [by rewrite reject_spec; apply pools_ok_hashes|]. cbn [se_mod snd].
  destruct Ht1 as [A B C D]. split; [done|exact B| |done]. cbn. apply map_Forall_insert_2; [|done]. bool_to_prop.
  destruct Hq as [Hs Hf]. split; [|by apply map_Forall_insert_2].
  rewrite map_size_insert. destruct (q !! nonce tx); cbn; lia.
Qed.

Definition noted (wall : u64) (tx : Transaction) (t : TxPool) : TxPool :=
  record_arrivals (tx_hash tx) wall (set_hashes (pool_tx_hashes t ∪ {[tx_hash tx]}) t).

Lemma base_fee_defined s t : ∃ b, get_current_base_fee s t = Ok b.
Proof.
  unfold get_current_base_fee. destruct (get_latest_block_for_stream _ s) as [b|]; [|by eexists].
  unfold calculate_base_fee. destruct (_ =? _); [by eexists|].
  assert (gas_limit_of s / ELASTICITY_MULTIPLIER =? 0 = false) as -> by (by destruct s).
  destruct (_ <? _); by eexists.
Qed.

(** The cases of a submission. *)
Lemma pool_add_cases now wall tx t :
  tx_hash tx ∉ pool_tx_hashes t →
  ∃ b l', get_current_base_fee StreamA t = Ok b ∧ reads (ledger (chain t)) l' ∧
    let t1 := noted wall tx t in
    let t2 := set_bc (set_ledger l' (chain t1)) t1 in
    let n := (view (ledger (chain t)) (from tx)).2 in
    pool_add_transaction now wall tx t
    = if negb (can_afford_base_fee tx b) then reject (tx_hash tx) "transaction max fee per gas below base fee" t1
      else if nonce tx =? n then (_ ← admit_ready now (MkPooled tx now); promote_future_txs now (from tx)) t2
      else if (n <? nonce tx) && (nonce tx <=? sat_add64 n MAX_FUTURE_NONCE_GAP) then queue_future now tx t2
      else if nonce tx <? n then reject (tx_hash tx) "nonce too low" t2
      else reject (tx_hash tx) "nonce too far ahead" t2.
Proof.
  intros Hh. destruct (base_fee_defined StreamA t) as [b Hb].
  destruct (get_sender_nonce_spec (from tx) (noted wall tx t)) as (l' & Hn & Hr).
  exists b, l'. split; [done|]. split; [done|]. cbn zeta. unfold pool_add_transaction.
  rewrite se_get_step, bool_decide_eq_false_2 by done. rewrite !se_mod_step. fold (noted wall tx t).
  assert (get_current_base_fee StreamA (noted wall tx t) = Ok b) as Hb1 by done.
  erewrite se_read_step by exact Hb1. destruct (negb (can_afford_base_fee tx b)); [done|].
  erewrite se_bind_step by exact Hn. change (chain (noted wall tx t)) with (chain t).
  destruct (nonce tx =? _); [done|]. destruct (_ && _); [done|]. by destruct (nonce tx <? _).
Qed.

Lemma pool_add_ok now wall tx t : pools_ok t → pools_ok (pool_add_transaction now wall tx t).2.
Proof.
  intros Ht. destruct (decide (tx_hash tx ∈ pool_tx_hashes t)) as [Hin|Hin].
  { unfold pool_add_transaction. by rewrite se_get_step, bool_decide_eq_true_2. }
  destruct (pool_add_cases now wall tx t Hin) as (b & l' & _ & _ & Hc). cbn zeta in Hc. rewrite Hc. clear Hc.
  assert (pools_ok (noted wall tx t)) as Ht1 by (by destruct Ht).
  set (t2 := set_bc _ (noted wall tx t)). assert (pools_ok t2) as Ht2 by (by destruct Ht1).
  destruct (negb _); [by rewrite reject_spec; apply pools_ok_hashes|].
  destruct (_ =? _).
  { destruct (admit_ready now (MkPooled tx now) t2) as [[[]|e] t3] eqn:Ha.
    - erewrite se_bind_step by exact Ha. destruct (promote_spec now (from tx) t3) as (t4 & -> & Hok).
      by apply Hok, (admit_ready_ok _ _ _ _ _ Ha).
    - erewrite se_bind_fail by exact Ha. by apply (admit_ready_ok _ _ _ _ _ Ha). }
  destruct (_ && _); [by apply queue_future_ok|].
  destruct (_ <? _); rewrite reject_spec; by apply pools_ok_hashes.
Qed.

(** ** Selection *)

Lemma mark_in_flight_ok h t : pools_ok t → pools_ok (mark_in_flight h t).1.
Proof.
  intros [A B C D]. split; [done|exact B|done|]. unfold mark_in_flight. cbn [fst set_in_flight in_flight_txs].
  assert (∀ f : gset Hash, Z.of_nat (size f) <= MAX_IN_FLIGHT → Z.of_nat (size (f ∪ {[h]})) <= MAX_IN_FLIGHT + 1) as Hf.
  { intros f Hs. pose proof (size_union_alt f {[h]}) as Hu. rewrite Hu.
    assert (size ({[h]} ∖ f : gset Hash) <= 1)%nat; [|lia]. rewrite <- (size_singleton (C:=gset Hash) h).
    apply subseteq_size. set_solver. }
  destruct (MAX_IN_FLIGHT <? _) eqn:Hlt; bool_to_prop; apply Hf; [rewrite size_empty; done|lia].
Qed.

Lemma pop_front_ok s t p t' : pop_front s t = Some (p, t') → pools_ok t → pools_ok t'.
Proof.
  unfold pop_front. destruct (entries (stream_pool s t)) as [|q l] eqn:He; [done|]. intros [= <- <-] Ht.
  apply pools_ok_stream; [done|]. apply (counted_less _ _ 1); [apply Ht|]. rewrite length_swap_remove, He. cbn. lia.
Qed.
Lemma drain_loop_ok fuel now s count t : pools_ok t → pools_ok (drain_loop fuel now s count t).2.
Proof.
  revert count t. induction fuel as [|fuel IH]; intros count t Ht; [done|]. destruct count as [|count]; [done|].
  cbn [drain_loop]. destruct (pop_front s t) as [[p t1]|] eqn:Hp; [|done].
  pose proof (pop_front_ok _ _ _ _ Hp Ht) as Ht1. destruct (is_expired now p); [by apply IH|].
  pose proof (mark_in_flight_ok (tx_hash (p_tx p)) t1 Ht1) as Ht2. destruct (mark_in_flight _ t1) as [t2 [|]]; cbn [fst] in Ht2.
  - pose proof (IH count t2 Ht2) as Ht3. by destruct (drain_loop fuel now s count t2).
  - by apply IH.
Qed.
Lemma drop_selected_ok hs s t : pools_ok t → pools_ok (drop_selected hs s t).
Proof. intros Ht. apply pools_ok_set_stream; [done|]. apply counted_retain, Ht. Qed.
Lemma drain_ok now s t : pools_ok t → pools_ok (drain now s t).2.
Proof.
  intros Ht. unfold drain. set (sorted := sort_unstable_by_key _ _).
  assert (pools_ok (set_stream s (MkPool sorted (pool_size (stream_pool s t))) t)) as Ht1.
  { apply pools_ok_set_stream; [done|]. apply counted_perm; [apply Ht|apply unstable_perm]. }
  pose proof (drain_loop_ok (length sorted) now s (Z.to_nat (Z.min (pool_size (stream_pool s t)) (stream_max_txs s))) _ Ht1) as Hd.
  destruct (drain_loop _ _ _ _ _) as [txs t1]. cbn [snd] in *. revert t1 Hd. clear.
  induction (other_streams s) as [|s' l IH]; intros t1 Hd; cbn [foldl]; [done|]. by apply IH, drop_selected_ok.
Qed.
Lemma return_ok now s txs t : pools_ok t → pools_ok (return_transactions now s txs t).
Proof.
  intros Ht. unfold return_transactions. set (t1 := foldl _ t txs). assert (pools_ok t1) as Ht1.
  { unfold t1. clear t1. revert t Ht. induction txs as [|x txs IH]; intros t Ht; cbn [foldl]; [done|].
    apply IH. apply pools_ok_set_stream; [done|]. apply counted_push, Ht. }
  destruct Ht1 as [A B C D]. split; [done|exact B|done|]. cbn. 
  assert (size (in_flight_txs t1 ∖ list_to_set (tx_hash <$> txs)) <= size (in_flight_txs t1))%nat; [|lia].
  apply subseteq_size. set_solver.
Qed.

Inductive PoolOp :=
  | AddTx (now : Z) (wall : u64) (tx : Transaction)
  | Evict (now : Z)
  | CleanupFuture (now : Z)
  | Promote (now : Z) (sender : Address)
  | Drain (now : Z) (s : StreamType)
  | Return (now : Z) (s : StreamType) (txs : list Transaction).

Definition do_pool_op (t : TxPool) (op : PoolOp) : TxPool :=
  match op with
  | AddTx now wall tx => (pool_add_transaction now wall tx t).2
  | Evict now => evict_expired_transactions now t
  | CleanupFuture now => cleanup_stale_future_txs now t
  | Promote now a => (promote_future_txs now a t).2
  | Drain now s => (drain now s t).2
  | Return now s txs => return_transactions now s txs t
  end.

Lemma do_pool_op_ok t op : pools_ok t → pools_ok (do_pool_op t op).
Proof.
  intros Ht. destruct op; cbn [do_pool_op].
  - by apply pool_add_ok.
  - by apply evict_expired_ok.
  - by apply cleanup_ok.
  - destruct (promote_spec now sender t) as (t' & -> & Hok). by apply Hok.
  - by apply drain_ok.
  - by apply return_ok.
Qed.

Lemma pool_invariant_start c sm single wall : pools_ok (txpool_new c sm single wall).
Proof. split; [done|by intros []|apply map_Forall_empty|]. cbn. by rewrite size_empty. Qed.

(** Whatever is submitted, evicted, promoted, selected and returned: the size
    counters count the pools, every sender has at most
    [MAX_FUTURE_TXS_PER_SENDER] queued transactions, each under its own nonce,
    and the in-flight set stays bounded. *)
Theorem pool_invariant c sm single wall ops : pools_ok (foldl do_pool_op (txpool_new c sm single wall) ops).
Proof.
  generalize (pool_invariant_start c sm single wall). generalize (txpool_new c sm single wall).
  induction ops as [|op ops IH]; intros t Ht; cbn [foldl]; [done|]. by apply IH, do_pool_op_ok.
Qed.

End Invariant.

(** ** Accepted and rejected submissions *)

Section Submission.
Context `{Hex, Keccak, Blake3, Crypto, Evm, HashIter, SliceSearch, UnstableSort}.
Context `{Codec Block, Codec (list Hash), Codec TxReceipt, Codec CrossShardMessage}.

Definition sender_nonce (t : TxPool) (a : Address) : u64 := (view (ledger (chain t)) a).2.
Definition queued (t : TxPool) (a : Address) (n : u64) : option PooledTransaction := future_txs t !! a ≫= (.!! n).
Definition queue_length (t : TxPool) (a : Address) : Z := Z.of_nat (size (default ∅ (future_txs t !! a))).

(** When the pool takes a transaction. *)
Definition acceptable (tx : Transaction) (t : TxPool) : Prop :=
  tx_hash tx ∉ pool_tx_hashes t ∧
  (∃ b, get_current_base_fee StreamA t = Ok b ∧ can_afford_base_fee tx b = true) ∧
  (nonce tx = sender_nonce t (from tx) ∨
   (sender_nonce t (from tx) < nonce tx <= sat_add64 (sender_nonce t (from tx)) MAX_FUTURE_NONCE_GAP ∧
    queue_length t (from tx) < MAX_FUTURE_TXS_PER_SENDER ∧ queued t (from tx) (nonce tx) = None)).

(** Nothing of the pools changed but the record of arrivals and the cache of
    the chain. *)
Record untouched (t t' : TxPool) : Prop := {
  ut_pools : all_pooled t' = all_pooled t;
  ut_hashes : pool_tx_hashes t' = pool_tx_hashes t;
  ut_in_flight : in_flight_txs t' = in_flight_txs t;
  ut_future : ∀ a n, queued t' a n = queued t a n;
  ut_counter : tx_distribution_counter t' = tx_distribution_counter t }.

Lemma noted_untouched wall tx t l :
  tx_hash tx ∉ pool_tx_hashes t →
  untouched t (forget_hash (tx_hash tx) (set_bc l (noted wall tx t))).
Proof.
  intros Hh. split; try done. cbn. apply leibniz_equiv. set_solver.
Qed.

Lemma queue_future_spec now tx t :
  (queue_future now tx t).1 = Ok tt ↔
  queue_length t (from tx) < MAX_FUTURE_TXS_PER_SENDER ∧ queued t (from tx) (nonce tx) = None.
Proof.
  unfold queue_future. rewrite se_get_step, se_mod_step. unfold queue_length, queued.
  set (q := default ∅ (future_txs t !! from tx)).
  assert (future_txs t !! from tx ≫= (.!! nonce tx) = q !! nonce tx) as ->.
  { unfold q. by destruct (future_txs t !! from tx). }
  destruct (MAX_FUTURE_TXS_PER_SENDER <=? _) eqn:Hsz; bool_to_prop; [split; [done|lia]|].
  case_bool_decide as Hs; [|].
  - split; [done|]. intros [_ Hn]. rewrite Hn in Hs. by destruct Hs.
  - split; [|done]. intros _. split; [done|]. by apply eq_None_not_Some.
Qed.
Lemma queue_future_untouched now tx t e :
  (queue_future now tx t).1 = Err e → tx_hash tx ∈ pool_tx_hashes t →
  (∃ msg, e = Validation msg) ∧ untouched (forget_hash (tx_hash tx) t) (queue_future now tx t).2.
Proof.
  unfold queue_future. rewrite se_get_step, se_mod_step. set (q := default ∅ _). intros He Hin.
  assert (untouched (forget_hash (tx_hash tx) t) (forget_hash (tx_hash tx) (set_future (<[from tx := q]> (future_txs t)) t))) as Hu.
  { split; try done. intros a n. unfold queued. cbn. destruct (decide (from tx = a)) as [<-|Hne].
    - rewrite lookup_insert_eq. cbn. unfold q. by destruct (future_txs t !! from tx).
    - by rewrite lookup_insert_ne. }
  revert He. destruct (_ <=? _); [intros [= <-]; split; [by eexists|exact Hu]|].
  case_bool_decide; [intros [= <-]; split; [by eexists|exact Hu]|done].
Qed.

(** Without sharding, a submission succeeds exactly when the transaction is
    acceptable; otherwise it is refused with a validation error, and pools,
    known hashes and future queue are as before. *)
Theorem submission_outcome now wall tx t :
  shard_manager t = None →
  let '(r, t') := pool_add_transaction now wall tx t in
  (r = Ok tt ↔ acceptable tx t) ∧
  (r ≠ Ok tt → (∃ msg, r = Err (Validation msg)) ∧ untouched t t').
Proof.
  intros Hsm. destruct (decide (tx_hash tx ∈ pool_tx_hashes t)) as [Hin|Hin].
  { unfold pool_add_transaction. rewrite se_get_step, bool_decide_eq_true_2 by done. cbn.
    split; [split; [done|by intros []]|]. intros _. split; [by eexists|done]. }
  destruct (pool_add_cases now wall tx t Hin) as (b & l' & Hb & Hr & Hc). cbn zeta in Hc. rewrite Hc. clear Hc.
  fold (sender_nonce t (from tx)). set (n := sender_nonce t (from tx)).
  set (t2 := set_bc _ (noted wall tx t)).
  assert (untouched t (forget_hash (tx_hash tx) t2)) as Hu by (by apply noted_untouched).
  destruct (can_afford_base_fee tx b) eqn:Haf; cbn [negb]; cycle 1.
  { rewrite reject_spec. split.
    - split; [done|]. intros (_ & (b' & Hb' & Haf') & _). rewrite Hb in Hb'. injection Hb' as <-. congruence.
    - intros _. split; [by eexists|]. by apply (noted_untouched wall tx t (chain t)). }
  destruct (nonce tx =? n) eqn:Hn; bool_to_prop.
  { assert (admit_ready now (MkPooled tx now) t2 = (Ok tt, add_to_pool_inner (MkPooled tx now) t2)) as Ha.
    { unfold admit_ready. change (shard_manager t2) with (shard_manager t). by rewrite Hsm. }
    erewrite se_bind_step by exact Ha. destruct (promote_spec now (from tx) (add_to_pool_inner (MkPooled tx now) t2)) as (t3 & -> & _).
    split; [|done]. split; [|done]. intros _. split; [done|]. split; [by exists b|]. by left. }
  destruct ((n <? nonce tx) && (nonce tx <=? sat_add64 n MAX_FUTURE_NONCE_GAP)) eqn:Hfut.
  { bool_to_prop. destruct (queue_future now tx t2) as [r t3] eqn:Hq.
    pose proof (queue_future_spec now tx t2) as Hqs. rewrite Hq in Hqs. cbn [fst] in Hqs. split.
    - rewrite Hqs. split.
      + intros [Hlen Hnone]. split; [done|]. split; [by exists b|]. right. fold n. split_and!; [lia|lia|done|done].
      + intros (_ & _ & [?|(_ & Hlen & Hnone)]); [done|]. done.
    - intros Hne. destruct r as [[]|e]; [done|].
      destruct (queue_future_untouched now tx t2 e) as [(msg & ->) Hu2]; [by rewrite Hq|set_solver|]. rewrite Hq in Hu2.
      cbn [snd] in Hu2. split; [by eexists|]. destruct Hu as [A1 B1 C1 D1 E1], Hu2 as [A2 B2 C2 D2 E2].
      split; [congruence|congruence|congruence|intros; by rewrite D2, D1|congruence]. }
  assert (¬ acceptable tx t) as Hna.
  { intros (_ & _ & [?|(Hrange & _)]); [done|]. fold n in Hrange. apply andb_false_iff in Hfut as [Hf|Hf]; bool_to_prop; lia. }
  destruct (nonce tx <? n); rewrite reject_spec; (split; [by split|]); intros _; (split; [by eexists|done]).
Qed.

(** ** Where the pools depart from their comments *)

(** The cap of a stream is not a cap: a transaction that offers no more than
    the cheapest one of a full pool is added all the same. *)
Theorem full_pool_still_grows p t :
  let s := target_stream t in
  stream_cap s <= pool_size (stream_pool s t) →
  Forall (λ q, fee (p_tx p) <= fee (p_tx q)) (entries (stream_pool s t)) →
  entries (stream_pool s (add_to_pool_inner p t)) = entries (stream_pool s t) ++ [p].
Proof.
  intros s Hcap Hfee. unfold add_to_pool_inner. fold s. rewrite (proj2 (Z.leb_le _ _) Hcap).
  assert ((evict_lowest_fee_tx_if_higher s (fee (p_tx p)) t).1 = t) as ->.
  { unfold evict_lowest_fee_tx_if_higher. pose proof (lowest_fee_spec (entries (stream_pool s t))) as Hl.
    destruct (lowest_fee _) as [[i q]|]; [|done]. destruct Hl as [Hi _].
    rewrite (proj2 (Z.ltb_ge _ _)); [done|]. rewrite Forall_lookup in Hfee. by apply (Hfee i). }
  unfold s, target_stream. destruct (single_stream_mode t); [done|]. cbn [set_counter].
  destruct (stream_of_counter _); done.
Qed.

(** A promoted transaction is in a pool but no longer a known hash, so
    the same transaction can be submitted once more. *)
Theorem promoted_transaction_is_forgotten now a p t :
  shard_manager t = None → future_txs t !! a = Some {[sender_nonce t a := p]} →
  pool_size (stream_pool (target_stream t) t) < stream_cap (target_stream t) →
  let t' := (promote_future_txs now a t).2 in
  p ∈ all_pooled t' ∧ tx_hash (p_tx p) ∉ pool_tx_hashes t' ∧ future_txs t' !! a = None.
Proof.
  intros Hsm Hq Hcap. unfold promote_future_txs. rewrite se_get_step, Hq.
  destruct (get_sender_nonce_spec a t) as (l' & Hn & _). erewrite se_bind_step by exact Hn.
  rewrite map_size_singleton. fold (sender_nonce t a). set (n := sender_nonce t a). set (t1 := set_bc _ t).
  set (t2 := forget_hash (tx_hash (p_tx p)) t1).
  assert (promote_loop 1 now n {[n := p]} t1 = (Ok ∅, add_to_pool_inner p t2)) as Hl.
  { cbn [promote_loop]. rewrite lookup_singleton_eq, se_mod_step. fold t2.
    assert (se_try (F:=BlockchainError) (admit_ready now p) t2 = (Ok (Some tt), add_to_pool_inner p t2)) as Ha.
    { unfold se_try, admit_ready. change (shard_manager t2) with (shard_manager t). by rewrite Hsm. }
    erewrite se_bind_step by exact Ha. rewrite delete_singleton_eq, lookup_empty. done. }
  erewrite se_bind_step by exact Hl. cbn [se_mod snd]. rewrite bool_decide_eq_true_2 by done.
  change (target_stream t) with (target_stream t2) in Hcap.
  change (stream_pool (target_stream t2) t) with (stream_pool (target_stream t2) t2) in Hcap.
  unfold add_to_pool_inner. rewrite (proj2 (Z.leb_gt _ _) Hcap).
  unfold target_stream. destruct (single_stream_mode t2).
  - split_and!; [|cbn; set_solver|cbn; apply lookup_delete_eq]. unfold all_pooled. cbn. set_solver.
  - destruct (stream_of_counter _); (split_and!; [|cbn; set_solver|cbn; apply lookup_delete_eq]);
      unfold all_pooled; cbn; set_solver.
Qed.
End Submission.

(** ** What a selection takes *)

Section Selection.
Context `{Hex, Keccak, Blake3, Crypto, Evm, HashIter, SliceSearch, UnstableSort}.
Context `{Codec Block, Codec (list Hash), Codec TxReceipt, Codec CrossShardMessage}.

Definition hash_of (p : PooledTransaction) : Hash := tx_hash (p_tx p).

(** [ps] was selected from the pool of [s], [dropped] removed from it. *)
Record took (now : Z) (s : StreamType) (count : nat) (t t' : TxPool) (ps dropped : list PooledTransaction) : Prop := {
  tk_perm : entries (stream_pool s t) ≡ₚ ps ++ dropped ++ entries (stream_pool s t');
  tk_live : Forall (λ p, is_expired now p = false) ps;
  tk_count : (length ps <= count)%nat;
  tk_hashes : pool_tx_hashes t' = pool_tx_hashes t ∖ list_to_set (hash_of <$> ps ++ dropped);
  tk_others : ∀ s', s' ≠ s → stream_pool s' t' = stream_pool s' t }.

Lemma pop_front_spec s t p t' :
  pop_front s t = Some (p, t') →
  entries (stream_pool s t) ≡ₚ p :: entries (stream_pool s t') ∧
  length (entries (stream_pool s t)) = S (length (entries (stream_pool s t'))) ∧
  pool_tx_hashes t' = pool_tx_hashes t ∖ {[hash_of p]} ∧ in_flight_txs t' = in_flight_txs t ∧
  ∀ s', s' ≠ s → stream_pool s' t' = stream_pool s' t.
Proof.
  unfold pop_front. destruct (entries (stream_pool s t)) as [|q l] eqn:He; [done|]. intros [= <- <-].
  assert (stream_pool s (forget_hash (tx_hash (p_tx q)) (set_stream s (MkPool (swap_remove 0 (q :: l))
    (sub64 (pool_size (stream_pool s t)) 1)) t)) = MkPool (swap_remove 0 (q :: l)) (sub64 (pool_size (stream_pool s t)) 1)) as Hs
    by (by destruct s).
  rewrite Hs. cbn [entries]. split_and!; [|..|done|done|].
  - symmetry. by apply (swap_remove_perm 0).
  - rewrite length_swap_remove. cbn. lia.
  - intros s' Hne. by destruct s, s'.
Qed.

Lemma list_to_set_cons_diff (X : gset Hash) h l :
  X ∖ {[h]} ∖ list_to_set l = X ∖ list_to_set (h :: l).
Proof. apply leibniz_equiv. rewrite list_to_set_cons. set_solver. Qed.
Lemma list_to_set_middle_diff (X : gset Hash) h l1 l2 :
  X ∖ {[h]} ∖ list_to_set (l1 ++ l2) = X ∖ list_to_set (l1 ++ h :: l2).
Proof. apply leibniz_equiv. rewrite !list_to_set_app, list_to_set_cons. set_solver. Qed.

(** The loop stops only when it has what it wants or the pool is empty. *)
Lemma drain_loop_spec fuel now s count t :
  (length (entries (stream_pool s t)) <= fuel)%nat →
  let '(txs, t') := drain_loop fuel now s count t in
  ∃ ps dropped, txs = p_tx <$> ps ∧ took now s count t t' ps dropped ∧
    (length ps = count ∨ entries (stream_pool s t') = []).
Proof.
  revert count t. induction fuel as [|fuel IH]; intros count t Hf.
  { cbn. exists [], []. split_and!; [done| |right; by apply nil_length_inv, Nat.le_0_r]. split; try done; [cbn; lia|].
    cbn. apply leibniz_equiv. set_solver. }
  destruct count as [|count].
  { exists [], []. split_and!; [done| |by left]. split; try done. cbn. apply leibniz_equiv. set_solver. }
  cbn [drain_loop]. destruct (pop_front s t) as [[p t1]|] eqn:Hp; cycle 1.
  { exists [], []. assert (entries (stream_pool s t) = []) as He.
    { unfold pop_front in Hp. by destruct (entries (stream_pool s t)). }
    split_and!; [done| |by right]. split; try done; [cbn; lia|]. cbn. apply leibniz_equiv. set_solver. }
  destruct (pop_front_spec _ _ _ _ Hp) as (Hperm & Hlen & Hh & _ & Ho).
  assert (∀ t2, stream_pool s t2 = stream_pool s t1 → pool_tx_hashes t2 = pool_tx_hashes t1 →
    (∀ s', stream_pool s' t2 = stream_pool s' t1) → ∀ c t' ps dropped, took now s c t2 t' ps dropped →
    took now s c t t' ps (p :: dropped) ∧ (is_expired now p = false → took now s (S c) t t' (p :: ps) dropped)) as Hlift.
  { intros t2 E1 E2 E3 c t' ps dropped [P L C Hs O]. rewrite E1 in P. rewrite E2, Hh in Hs.
    split; [|intros Hlive]; split; try done.
    - rewrite Hperm, P. change ((p :: dropped) ++ ?k) with (p :: (dropped ++ k)). apply Permutation_middle.
    - rewrite Hs, fmap_app, list_to_set_middle_diff. by rewrite fmap_app, fmap_cons.
    - intros s' Hne. by rewrite O, E3, Ho.
    - by rewrite Hperm, P.
    - by constructor.
    - cbn. lia.
    - by rewrite Hs, list_to_set_cons_diff.
    - intros s' Hne. by rewrite O, E3, Ho. }
  destruct (is_expired now p) eqn:Hexp.
  { pose proof (IH (S count) t1 ltac:(lia)) as IH1. destruct (drain_loop fuel now s (S count) t1) as [txs t'].
    destruct IH1 as (ps & dropped & -> & Ht & Hend). exists ps, (p :: dropped). split_and!; [done| |done].
    by apply (Hlift t1). }
  destruct (mark_in_flight (tx_hash (p_tx p)) t1) as [t2 ins] eqn:Hm.
  assert (∀ s', stream_pool s' t2 = stream_pool s' t1) as E3.
  { intros s'. unfold mark_in_flight in Hm. injection Hm as <- _. by destruct s'. }
  assert (pool_tx_hashes t2 = pool_tx_hashes t1) as E2 by (unfold mark_in_flight in Hm; by injection Hm as <- _).
  destruct ins.
  - pose proof (IH count t2 ltac:(rewrite E3; lia)) as IH1. destruct (drain_loop fuel now s count t2) as [txs t'].
    destruct IH1 as (ps & dropped & -> & Ht & Hend). exists (p :: ps), dropped. split_and!; [done| |].
    + by apply (Hlift t2).
    + destruct Hend as [<-|?]; [by left|by right].
  - pose proof (IH (S count) t2 ltac:(rewrite E3; lia)) as IH1. destruct (drain_loop fuel now s (S count) t2) as [txs t'].
    destruct IH1 as (ps & dropped & -> & Ht & Hend). exists ps, (p :: dropped). split_and!; [done| |done].
    by apply (Hlift t2).
Qed.

Lemma drop_selected_entries hs s t :
  entries (stream_pool s (drop_selected hs s t))
  = List.filter (λ p, negb (bool_decide (hash_of p ∈ hs))) (entries (stream_pool s t)) ∧
  (∀ s', s' ≠ s → stream_pool s' (drop_selected hs s t) = stream_pool s' t) ∧
  pool_tx_hashes (drop_selected hs s t) = pool_tx_hashes t.
Proof. unfold drop_selected. destruct s; (split_and!; [done|intros []; done|done]). Qed.

Lemma filter_out_hash (hs : list Hash) l p :
  p ∈ List.filter (λ p, negb (bool_decide (hash_of p ∈ hs))) l → hash_of p ∉ hs.
Proof. rewrite list_elem_of_In, List.filter_In. intros [_ Hn]. by bool_to_prop. Qed.

(** A selection moves live transactions out of the pool of its stream, no
    more than a block may hold and as many as it can; the two other streams
    keep none of them, their hashes may be submitted again, and what is left of
    the pool stays. *)
Theorem drain_spec now s t :
  counted (stream_pool s t) → Z.of_nat (length (entries (stream_pool s t))) <= u64_max →
  let '(txs, t') := drain now s t in
  ∃ ps dropped,
    txs = p_tx <$> ps ∧
    entries (stream_pool s t) ≡ₚ ps ++ dropped ++ entries (stream_pool s t') ∧
    Forall (λ p, is_expired now p = false) ps ∧
    Z.of_nat (length txs) <= stream_max_txs s ∧
    (Z.of_nat (length txs) = stream_max_txs s ∨ entries (stream_pool s t') = []) ∧
    (∀ s' p, s' ≠ s → p ∈ entries (stream_pool s' t') → hash_of p ∉ tx_hash <$> txs) ∧
    (∀ x, x ∈ txs → tx_hash x ∉ pool_tx_hashes t').
Proof.
  intros Hc Hlen. unfold drain. set (q := stream_pool s t). set (sorted := sort_unstable_by_key _ _).
  set (count := Z.to_nat _). set (t0 := set_stream s _ t).
  assert (stream_pool s t0 = MkPool sorted (pool_size q)) as Hs0 by apply stream_pool_set.
  assert (sorted ≡ₚ entries q) as Hperm by apply unstable_perm.
  pose proof (drain_loop_spec (length sorted) now s count t0) as Hd. rewrite Hs0 in Hd. specialize (Hd (le_n _)).
  destruct (drain_loop (length sorted) now s count t0) as [txs t1]. destruct Hd as (ps & dropped & -> & [P L C Hh O] & Hend).
  rewrite Hs0 in P. cbn [entries] in P. rewrite Hperm in P.
  assert (pool_size q = Z.of_nat (length (entries q))) as Hsz.
  { unfold q. rewrite Hc. apply Z.mod_small. lia. }
  assert (0 <= stream_max_txs s) as Hmax by (by destruct s).
  set (t' := foldl _ t1 (other_streams s)).
  assert (stream_pool s t' = stream_pool s t1 ∧ pool_tx_hashes t' = pool_tx_hashes t1 ∧
    ∀ s' p, s' ≠ s → p ∈ entries (stream_pool s' t') → hash_of p ∉ tx_hash <$> (p_tx <$> ps)) as (Hsame & Hhash & Hother).
  { unfold t'. clear. destruct s; cbn [other_streams foldl].
    all: split_and!; [done|done|]; intros s' p Hne Hp; destruct s'; try done; by apply filter_out_hash in Hp. }
  exists ps, dropped. rewrite Hsame. rewrite length_fmap. split_and!; try done.
  - lia.
  - destruct Hend as [Hend|Hend]; [|by right]. destruct (Z.le_gt_cases (stream_max_txs s) (pool_size q)); [left; lia|].
    right. apply (f_equal Z.of_nat) in Hend. apply Permutation_length in P. rewrite !length_app in P.
    apply length_zero_iff_nil. lia.
  - intros x Hx. rewrite Hhash, Hh. apply list_elem_of_fmap in Hx as (p & -> & Hp).
    rewrite fmap_app, list_to_set_app. intros [_ Hn]%elem_of_difference. apply Hn, elem_of_union. left.
    apply elem_of_list_to_set, list_elem_of_fmap. by exists p.
Qed.

(** ** The order of the selection *)

(** Nothing in the way: live, distinct, and not being assembled elsewhere. *)
Record clear_way (now : Z) (l : list PooledTransaction) (t : TxPool) : Prop := {
  cw_live : Forall (λ p, is_expired now p = false) l;
  cw_nodup : NoDup (hash_of <$> l);
  cw_in_flight : Forall (λ p, hash_of p ∉ in_flight_txs t) l;
  cw_room : Z.of_nat (size (in_flight_txs t)) + Z.of_nat (length l) <= MAX_IN_FLIGHT }.

(** [swap_remove(0)] brings the last element to the front, so after the first
    transaction the loop takes the pool from its end. *)
Lemma drain_loop_order fuel now s count x r t :
  entries (stream_pool s t) = x :: r → clear_way now (x :: r) t → (length (x :: r) <= fuel)%nat →
  (drain_loop fuel now s count t).1 = p_tx <$> take count (x :: reverse r).
Proof.
  revert count x r t. induction fuel as [|fuel IH]; intros count x r t He Hw Hf; [cbn in Hf; lia|].
  destruct count as [|count]; [done|]. cbn [drain_loop].
  unfold pop_front. rewrite He. destruct Hw as [Hlive Hnd Hfl Hroom].
  apply Forall_cons in Hlive as [Hx Hlive]. apply Forall_cons in Hfl as [Hxf Hfl]. rewrite Hx.
  rewrite fmap_cons in Hnd. apply NoDup_cons in Hnd as [Hxr Hnd].
  set (t1 := forget_hash _ _). unfold mark_in_flight.
  change (in_flight_txs t1) with (in_flight_txs t). cbn [length] in Hroom, Hf.
  rewrite (proj2 (Z.ltb_ge _ _)) by lia. rewrite bool_decide_eq_false_2 by done. cbn [negb].
  set (t2 := set_in_flight _ t1).
  assert (entries (stream_pool s t2) = swap_remove 0 (x :: r)) as He2 by (by destruct s).
  rewrite swap_remove_head in He2. destruct r as [|y r] using rev_ind.
  - assert (drain_loop fuel now s count t2 = ([], t2)) as ->.
    { destruct fuel, count; try done. cbn [drain_loop]. unfold pop_front. by rewrite He2. }
    by destruct count.
  - clear IHr. rewrite last_snoc, length_app in He2. cbn [length] in He2. rewrite Nat.add_sub, take_app_length in He2.
    rewrite reverse_snoc. rewrite length_app in Hf, Hroom. cbn [length] in Hf, Hroom.
    pose proof (IH count y r t2 He2) as IH1. destruct (drain_loop fuel now s count t2) as [txs t3]. cbn [fst] in *.
    change (take (S count) (x :: y :: reverse r)) with (x :: take count (y :: reverse r)). rewrite fmap_cons. f_equal.
    apply IH1; [|cbn; lia]. apply Forall_app in Hlive as [Hl1 Hl2]. apply Forall_app in Hfl as [Hf1 Hf2].
    assert (y :: r ≡ₚ r ++ [y]) as Hp by (by rewrite (Permutation_app_comm r [y])).
    split.
    + constructor; [by apply Forall_inv in Hl2|done].
    + by rewrite Hp.
    + rewrite Hp. apply Forall_forall. intros z Hz. change (in_flight_txs t2) with (in_flight_txs t ∪ {[hash_of x]}).
      apply not_elem_of_union. split.
      * rewrite Forall_forall in Hf1, Hf2. apply elem_of_app in Hz as [Hz|Hz]; [by apply Hf1|by apply Hf2].
      * intros Heq%elem_of_singleton. apply Hxr. rewrite <- Heq. by apply list_elem_of_fmap_2.
    + change (in_flight_txs t2) with (in_flight_txs t ∪ {[hash_of x]}).
      rewrite size_union, size_singleton by (apply disjoint_singleton_r; exact Hxf). cbn [length]. lia.
Qed.

(** The pool is sorted by descending fee and then drained with
    [swap_remove(0)]: the selection is the best-paying transaction followed by
    the worst-paying ones, the worst first. *)
Theorem selection_takes_lowest_fees now s t x r :
  sort_unstable_by_key (λ p, - fee (p_tx p)) (entries (stream_pool s t)) = x :: r →
  clear_way now (x :: r) t → counted (stream_pool s t) →
  (drain now s t).1
  = p_tx <$> take (Z.to_nat (Z.min (Z.of_nat (length (x :: r))) (stream_max_txs s))) (x :: reverse r) ∧
  StronglySorted (λ p q, fee (p_tx q) <= fee (p_tx p)) (x :: r).
Proof.
  intros Hsort Hw Hc. split.
  - unfold drain. rewrite Hsort. set (t0 := set_stream s _ t).
    assert (stream_pool s t0 = MkPool (x :: r) (pool_size (stream_pool s t))) as Hs0 by apply stream_pool_set.
    assert (pool_size (stream_pool s t) = Z.of_nat (length (x :: r))) as Hsz.
    { rewrite Hc, <- Hsort, (Permutation_length (unstable_perm _ _)). apply Z.mod_small.
      rewrite <- (Permutation_length (unstable_perm (λ p, - fee (p_tx p)) (entries (stream_pool s t)))), Hsort.
      pose proof (cw_room _ _ _ Hw). unfold MAX_IN_FLIGHT, u64_max in *. lia. }
    pose proof (drain_loop_order (length (x :: r)) now s (Z.to_nat (Z.min (pool_size (stream_pool s t)) (stream_max_txs s))) x r t0) as Hd.
    rewrite Hs0 in Hd. specialize (Hd eq_refl).
    destruct (drain_loop _ _ _ _ t0) as [txs t1]. cbn [fst] in *. rewrite Hd; [by rewrite Hsz| |done].
    destruct Hw as [A B C D]. by split.
  - rewrite <- Hsort. eapply StronglySorted_mono; [|apply unstable_sorted]. cbn. intros. lia.
Qed.
End Selection.
