(* ===== verification/NodeRegistry.v ===== *)
(** * NodeRegistry: node identity and longevity

    Models [irondag-blockchain/src/governance/node_identity.rs],
    [governance/longevity.rs] and [governance/registry.rs]: the hardware
    fingerprint of a node and its placeholder signature and proof, the record of
    a node's activity, and the registry.  [now] is the clock in seconds. *)

From S2P Require Import Prelude Types Block Float64.

(** ** Identity *)

Record HardwareFingerprint := MkFingerprint {
  cpu_model : Hash; bios_serial : Hash; mac_address : Hash; system_uuid : Hash;
  puf_id : option Hash; fingerprint : Hash; fp_signature : list u8 }.

Record ProofMetadata := MkMetadata { pm_timestamp : u64; pm_version : u8; algorithm : string }.
Record ZkUniquenessProof := MkZkProof {
  commitment : Hash; zk_bytes : list u8; verification_key : list u8; metadata : ProofMetadata }.

Record NodeIdentity := MkIdentity {
  node_public_key : list u8;
  ip_address : option IpAddr;
  hardware_fingerprint : HardwareFingerprint;
  zk_uniqueness_proof : option ZkUniquenessProof;
  created_at : u64 }.

#[global] Instance HardwareFingerprint_eq_dec : EqDecision HardwareFingerprint.
Proof. solve_decision. Defined.
#[global] Instance HardwareFingerprint_countable : Countable HardwareFingerprint.
Proof.
  refine (inj_countable' (λ f, (cpu_model f, bios_serial f, mac_address f, system_uuid f, puf_id f, fingerprint f,
    fp_signature f)) (λ '(a, b, c, d, e, f, g), MkFingerprint a b c d e f g) _). by intros [].
Defined.
#[global] Instance ProofMetadata_eq_dec : EqDecision ProofMetadata.
Proof. solve_decision. Defined.
#[global] Instance ProofMetadata_countable : Countable ProofMetadata.
Proof.
  refine (inj_countable' (λ m, (pm_timestamp m, pm_version m, algorithm m)) (λ '(a, b, c), MkMetadata a b c) _).
  by intros [].
Defined.
#[global] Instance ZkUniquenessProof_eq_dec : EqDecision ZkUniquenessProof.
Proof. solve_decision. Defined.
#[global] Instance ZkUniquenessProof_countable : Countable ZkUniquenessProof.
Proof.
  refine (inj_countable' (λ p, (commitment p, zk_bytes p, verification_key p, metadata p))
    (λ '(a, b, c, d), MkZkProof a b c d) _). by intros [].
Defined.
#[global] Instance NodeIdentity_eq_dec : EqDecision NodeIdentity.
Proof. solve_decision. Defined.
#[global] Instance NodeIdentity_countable : Countable NodeIdentity.
Proof.
  refine (inj_countable' (λ n, (node_public_key n, ip_address n, hardware_fingerprint n, zk_uniqueness_proof n, created_at n))
    (λ '(a, b, c, d, e), MkIdentity a b c d e) _). by intros [].
Defined.


Section Identity.
Context `{Keccak}.

Definition get_cpu_model_id : list u8 := bytes_of_string "CPU_MODEL_PLACEHOLDER".
Definition get_bios_serial_number : list u8 := bytes_of_string "BIOS_SERIAL_PLACEHOLDER".
Definition get_primary_mac_address : list u8 := bytes_of_string "MAC_ADDRESS_PLACEHOLDER".
Definition get_system_uuid : list u8 := bytes_of_string "SYSTEM_UUID_PLACEHOLDER".
Definition get_puf_identifier : option Hash := None.
Definition get_verification_key_placeholder : list u8 := bytes_of_string "VERIFICATION_KEY_PLACEHOLDER".

Definition sign_fingerprint (f : Hash) (private_key : list u8) : list u8 := keccak_digest (hash_bytes f ++ private_key).
Definition verify_fingerprint_signature (f : Hash) (signature public_key : list u8) : bool :=
  bool_decide (signature = keccak_digest (hash_bytes f ++ public_key)).

Definition fingerprint_generate (node_private_key : list u8) : HardwareFingerprint :=
  let cpu := keccak256 get_cpu_model_id in
  let bios := keccak256 get_bios_serial_number in
  let mac := keccak256 get_primary_mac_address in
  let uuid := keccak256 get_system_uuid in
  let f := keccak256 (hash_bytes cpu ++ hash_bytes bios ++ hash_bytes mac ++ hash_bytes uuid
                      ++ match get_puf_identifier with Some p => hash_bytes p | None => [] end) in
  MkFingerprint cpu bios mac uuid get_puf_identifier f (sign_fingerprint f node_private_key).
Definition fingerprint_verify (f : HardwareFingerprint) (node_public_key : list u8) : bool :=
  verify_fingerprint_signature (fingerprint f) (fp_signature f) node_public_key.
Definition fingerprint_matches (a b : HardwareFingerprint) : bool := bool_decide (fingerprint a = fingerprint b).

Definition generate_zk_proof_placeholder (f c : Hash) : list u8 := hash_bytes f ++ hash_bytes c.
Definition zk_generate (now : u64) (f : HardwareFingerprint) : ZkUniquenessProof :=
  let c := keccak256 (hash_bytes (fingerprint f)) in
  MkZkProof c (generate_zk_proof_placeholder (fingerprint f) c) get_verification_key_placeholder
    (MkMetadata now 1 "zk-SNARK").
(** Any 64 bytes are a proof. *)
Definition zk_verify (p : ZkUniquenessProof) : bool :=
  negb (bool_decide (zk_bytes p = [])) && (64 <=? length (zk_bytes p))%nat.
End Identity.

(** ** Longevity *)

Inductive ParticipationType :=
  | BlockMined (stream : StreamType) (block_hash : Hash)
  | ZkProofSubmitted (proof_hash : Hash)
  | ConsensusVote (vote_hash : Hash).

Record ActivitySnapshot := MkSnapshot {
  date : u64; participated : bool; participation_type : ParticipationType; participation_proof : Hash }.

Record NodeLongevity := MkLongevity {
  node_identity : NodeIdentity;
  active_days : u64;
  blocks_mined : u64;
  uptime_index : f64;
  last_seen : u64;
  network_age_at_join : u64;
  activity_snapshots : list ActivitySnapshot;
  consecutive_offline_days : u64 }.

Definition DAY : u64 := 86400.

Definition longevity_new (now : u64) (n : NodeIdentity) : NodeLongevity := MkLongevity n 0 0 f_zero now now [] 0.

Definition calculate_weight (l : NodeLongevity) (network_age_days : u64) : f64 :=
  if active_days l <? 30 then f_zero
  else if f_ltb (uptime_index l) (f_lit 8 10) then f_zero
  else if blocks_mined l =? 0 then f_zero
  else f_min (f_mul (f_div (f_of_Z (active_days l)) (f_of_Z network_age_days)) (f_lit 4 10)) (f_lit 1 1000).

Definition calculate_uptime_index (active offline network_age_days : u64) : f64 :=
  if network_age_days =? 0 then f_zero else
  let base_uptime := f_div (f_of_Z active) (f_of_Z network_age_days) in
  let offline_penalty :=
    if 30 <? offline then f_zero
    else if 7 <? offline then f_mul base_uptime (f_sub f_one (f_div (f_of_Z offline) (f_of_Z 30)))
    else f_mul base_uptime (f_lit 95 100) in
  f_max offline_penalty f_zero.

Definition proof_of (p : ParticipationType) : Hash :=
  match p with BlockMined _ h | ZkProofSubmitted h | ConsensusVote h => h end.
Definition is_block (p : ParticipationType) : bool := match p with BlockMined _ _ => true | _ => false end.
Definition today_of (now : u64) : u64 := now - now mod DAY.

(** [last_snapshot.date == today] *)
Definition recorded_today (today : u64) (l : NodeLongevity) : bool :=
  match last (activity_snapshots l) with Some s => date s =? today | None => false end.

Definition record_activity_snapshot (now : u64) (p : ParticipationType) (l : NodeLongevity) : NodeLongevity :=
  let today := today_of now in
  let snapshot := MkSnapshot today true p (proof_of p) in
  if recorded_today today l then
    MkLongevity (node_identity l) (active_days l) (blocks_mined l) (uptime_index l) (last_seen l) (network_age_at_join l)
      (take (length (activity_snapshots l) - 1) (activity_snapshots l) ++ [snapshot]) (consecutive_offline_days l)
  else
    let active := add64 (active_days l) 1 in
    let mined := if is_block p then add64 (blocks_mined l) 1 else blocks_mined l in
    MkLongevity (node_identity l) active mined
      (calculate_uptime_index active 0 (sub64 now (network_age_at_join l) / DAY)) now (network_age_at_join l)
      (activity_snapshots l ++ [snapshot]) 0.

Definition record_no_activity (now : u64) (l : NodeLongevity) : NodeLongevity :=
  let today := today_of now in
  if recorded_today today l then l else
  let offline := add64 (consecutive_offline_days l) 1 in
  let snapshots := activity_snapshots l ++ [MkSnapshot today false (ConsensusVote hash_zero) hash_zero] in
  if 30 <? offline
  then MkLongevity (node_identity l) 0 (blocks_mined l) f_zero (last_seen l) (network_age_at_join l) snapshots offline
  else MkLongevity (node_identity l) (active_days l) (blocks_mined l)
         (calculate_uptime_index (active_days l) offline (sub64 now (network_age_at_join l) / DAY)) (last_seen l)
         (network_age_at_join l) snapshots offline.

Definition is_active (l : NodeLongevity) (now : u64) : bool := sub64 now (last_seen l) <? DAY.

Definition check_reset (now : u64) (l : NodeLongevity) : NodeLongevity :=
  if 2592000 <? sub64 now (last_seen l)
  then MkLongevity (node_identity l) 0 (blocks_mined l) f_zero (last_seen l) (network_age_at_join l)
         (activity_snapshots l) 0
  else l.

(** ** The registry *)

Record NodeRegistry := MkRegistry {
  ip_to_node : gmap IpAddr NodeIdentity;
  node_stats : gmap NodeIdentity NodeLongevity;
  fingerprints : gset Hash;
  commitments : gset Hash }.

Definition registry_new : NodeRegistry := MkRegistry ∅ ∅ ∅ ∅.

Definition has_fingerprint (r : NodeRegistry) (h : Hash) : bool := bool_decide (h ∈ fingerprints r).
Definition has_commitment (r : NodeRegistry) (h : Hash) : bool := bool_decide (h ∈ commitments r).
Definition register_fingerprint (h : Hash) (r : NodeRegistry) : NodeRegistry :=
  MkRegistry (ip_to_node r) (node_stats r) (fingerprints r ∪ {[h]}) (commitments r).
Definition register_commitment (h : Hash) (r : NodeRegistry) : NodeRegistry :=
  MkRegistry (ip_to_node r) (node_stats r) (fingerprints r) (commitments r ∪ {[h]}).
Definition set_ips (m : gmap IpAddr NodeIdentity) (r : NodeRegistry) : NodeRegistry :=
  MkRegistry m (node_stats r) (fingerprints r) (commitments r).
Definition set_stats (m : gmap NodeIdentity NodeLongevity) (r : NodeRegistry) : NodeRegistry :=
  MkRegistry (ip_to_node r) m (fingerprints r) (commitments r).

Abbreviation RM := (SE NodeRegistry string).

Section Registry.
Context `{Keccak}.

Definition claim_ip (n : NodeIdentity) : RM unit :=
  match ip_address n with
  | Some ip =>
      _ ← se_read (λ r, ensure (negb (bool_decide (is_Some (ip_to_node r !! ip)))) "IP address already registered");
      se_mod (λ r, set_ips (<[ip := n]> (ip_to_node r)) r)
  | None => mret tt
  end.

Definition register_node (now : u64) (n : NodeIdentity) : RM unit :=
  _ ← se_read (λ _, ensure (fingerprint_verify (hardware_fingerprint n) (node_public_key n))
                     "Invalid hardware fingerprint signature");
  _ ← claim_ip n;
  _ ← se_read (λ r, ensure (negb (has_fingerprint r (fingerprint (hardware_fingerprint n))))
                     "Hardware fingerprint already registered");
  _ ← match zk_uniqueness_proof n with
      | Some p =>
          _ ← se_read (λ _, ensure (zk_verify p) "Invalid zero-knowledge uniqueness proof");
          se_mod (register_commitment (commitment p))
      | None => se_mod (register_fingerprint (fingerprint (hardware_fingerprint n)))
      end;
  se_mod (λ r, set_stats (<[n := longevity_new now n]> (node_stats r)) r).

Definition get_node_stats (r : NodeRegistry) (n : NodeIdentity) : option NodeLongevity := node_stats r !! n.
Definition update_node (n : NodeIdentity) (l : NodeLongevity) (r : NodeRegistry) : NodeRegistry :=
  set_stats (<[n := l]> (node_stats r)) r.
Definition record_participation (now : u64) (n : NodeIdentity) (p : ParticipationType) (r : NodeRegistry) : NodeRegistry :=
  set_stats (alter (record_activity_snapshot now p) n (node_stats r)) r.
Definition total_nodes (r : NodeRegistry) : nat := size (node_stats r).
Definition active_nodes (now : u64) (r : NodeRegistry) : nat :=
  length (List.filter (λ kv, is_active kv.2 now) (map_to_list (node_stats r))).

(** [get_nodes_with_activity_today] returns the empty set, so the loop of
    [record_daily_snapshot] has no turn: only the snapshot is kept. *)
Definition nodes_with_activity_today (today : u64) : gset NodeIdentity := ∅.
Definition record_daily_snapshot `{HashIter} (now : u64) (snapshots : list u64) (r : NodeRegistry) :
    list u64 * NodeRegistry :=
  (snapshots ++ [today_of now],
   foldl (λ r n, match node_stats r !! n with
                 | Some l => update_node n (MkLongevity (node_identity l) (active_days l) (blocks_mined l)
                     (uptime_index l) now (network_age_at_join l) (activity_snapshots l) (consecutive_offline_days l)) r
                 | None => r
                 end) r (hs_iter (nodes_with_activity_today (today_of now)))).
End Registry.

(** ** What registration guarantees *)

Section RegistryTheorems.
Context `{Keccak}.

Record registry_ok (r : NodeRegistry) : Prop := {
  (** Every node proved its fingerprint, and holds its address alone. *)
  ry_signed : ∀ n l, node_stats r !! n = Some l →
    fingerprint_verify (hardware_fingerprint n) (node_public_key n) = true;
  ry_ip : ∀ n l ip, node_stats r !! n = Some l → ip_address n = Some ip → ip_to_node r !! ip = Some n;
  (** A node without a proof of uniqueness has its fingerprint recorded, and
      no two such nodes share one. *)
  ry_recorded : ∀ n l, node_stats r !! n = Some l → zk_uniqueness_proof n = None →
    fingerprint (hardware_fingerprint n) ∈ fingerprints r;
  ry_unique : ∀ n n' l l', node_stats r !! n = Some l → node_stats r !! n' = Some l' →
    zk_uniqueness_proof n = None → zk_uniqueness_proof n' = None →
    fingerprint (hardware_fingerprint n) = fingerprint (hardware_fingerprint n') → n = n' }.

Lemma register_node_inv now n r r' :
  register_node now n r = (Ok tt, r') →
  fingerprint_verify (hardware_fingerprint n) (node_public_key n) = true ∧
  (∀ ip, ip_address n = Some ip → ip_to_node r !! ip = None) ∧
  fingerprint (hardware_fingerprint n) ∉ fingerprints r ∧
  ip_to_node r' = match ip_address n with Some ip => <[ip := n]> (ip_to_node r) | None => ip_to_node r end ∧
  node_stats r' = <[n := longevity_new now n]> (node_stats r) ∧
  fingerprints r' = match zk_uniqueness_proof n with
                    | Some _ => fingerprints r
                    | None => fingerprints r ∪ {[fingerprint (hardware_fingerprint n)]}
                    end.
Proof.
  unfold register_node, claim_ip, mbind, SE_bind, se_read, se_mod, mret, SE_ret, ensure, has_fingerprint.
  destruct (fingerprint_verify _ _); [|done].
  destruct (ip_address n) as [ip|]; cbv beta iota.
  - destruct (bool_decide (is_Some (ip_to_node r !! ip))) eqn:Hip; cbv beta iota; cbn [negb]; [done|].
    cbn [set_ips fingerprints]. destruct (bool_decide (_ ∈ fingerprints r)) eqn:Hf; cbn [negb]; [done|].
    bool_to_prop. destruct (zk_uniqueness_proof n) as [p|]; [destruct (zk_verify p); [|done]|]; intros [= <-];
      (split_and!; [done|intros ? [= <-]; by apply eq_None_not_Some|done..]).
  - destruct (bool_decide (_ ∈ fingerprints r)) eqn:Hf; cbn [negb]; [done|].
    bool_to_prop. destruct (zk_uniqueness_proof n) as [p|]; [destruct (zk_verify p); [|done]|]; intros [= <-];
      (split_and!; [done|done|done..]).
Qed.

Lemma register_node_ok now n r r' :
  register_node now n r = (Ok tt, r') → registry_ok r → registry_ok r'.
Proof.
  intros Hr [S I R U]. destruct (register_node_inv _ _ _ _ Hr) as (Hv & Hip & Hf & Ei & Es & Ef).
  split; rewrite Es.
  - intros n' l Hn. apply lookup_insert_Some in Hn as [[<- _]|[_ Hn]]; [done|by eapply S].
  - intros n' l ip Hn Hi. rewrite Ei. apply lookup_insert_Some in Hn as [[<- _]|[Hne Hn]].
    + rewrite Hi. apply lookup_insert_eq.
    + pose proof (I _ _ _ Hn Hi) as Hl. destruct (ip_address n) as [ip'|]; [|done].
      rewrite lookup_insert_ne; [done|]. intros <-. by rewrite (Hip ip' eq_refl) in Hl.
  - intros n' l Hn Hz. rewrite Ef. apply lookup_insert_Some in Hn as [[<- _]|[_ Hn]]; [rewrite Hz; set_solver|].
    pose proof (R _ _ Hn Hz). destruct (zk_uniqueness_proof n); set_solver.
  - intros n1 n2 l1 l2 Hn1 Hn2 Hz1 Hz2 Hfp.
    apply lookup_insert_Some in Hn1 as [[<- _]|[_ Hn1]], Hn2 as [[<- _]|[_ Hn2]].
    + done.
    + exfalso. apply Hf. rewrite Hfp. by eapply R.
    + exfalso. apply Hf. rewrite <- Hfp. by eapply R.
    + by eapply U.
Qed.

Inductive RegistryOp := RegisterNode (now : u64) (n : NodeIdentity) | Participate (now : u64) (n : NodeIdentity) (p : ParticipationType).

Definition do_registry_op (r : NodeRegistry) (op : RegistryOp) : NodeRegistry :=
  match op with
  | RegisterNode now n => (register_node now n r).2
  | Participate now n p => record_participation now n p r
  end.

(** A refused registration can leave its address behind, and nothing else. *)
Lemma register_node_err now n r e r' :
  register_node now n r = (Err e, r') →
  r' = r ∨ ∃ ip, ip_address n = Some ip ∧ ip_to_node r !! ip = None ∧ r' = set_ips (<[ip := n]> (ip_to_node r)) r.
Proof.
  unfold register_node, claim_ip, mbind, SE_bind, se_read, se_mod, mret, SE_ret, ensure, has_fingerprint.
  destruct (fingerprint_verify _ _); [|by intros [= _ <-]; left].
  destruct (ip_address n) as [ip|]; cbv beta iota.
  - destruct (bool_decide (is_Some (ip_to_node r !! ip))) eqn:Hip; cbv beta iota; cbn [negb]; [by intros [= _ <-]; left|].
    bool_to_prop. assert (ip_to_node r !! ip = None) as Hnone by (by apply eq_None_not_Some).
    cbn [set_ips fingerprints]. destruct (bool_decide (_ ∈ fingerprints r)); cbn [negb];
      [intros [= _ <-]; right; by exists ip|].
    destruct (zk_uniqueness_proof n) as [p|]; [destruct (zk_verify p)|]; try done. intros [= _ <-]. right. by exists ip.
  - destruct (bool_decide (_ ∈ fingerprints r)); cbn [negb]; [by intros [= _ <-]; left|].
    destruct (zk_uniqueness_proof n) as [p|]; [destruct (zk_verify p)|]; try done. intros [= _ <-]. by left.
Qed.

Lemma do_registry_op_ok op r : registry_ok r → registry_ok (do_registry_op r op).
Proof.
  intros Hr. destruct op as [now n|now n p]; cbn [do_registry_op].
  - destruct (register_node now n r) as [[[]|e] r'] eqn:Hreg; cbn [snd]; [by eapply register_node_ok|].
    destruct (register_node_err _ _ _ _ _ Hreg) as [->|(ip & Hip & Hnone & ->)]; [done|].
    destruct Hr as [S I R U]. split; try done. intros n' l ip' Hn Hi. cbn. rewrite lookup_insert_ne; [by eapply I|].
    intros <-. pose proof (I _ _ _ Hn Hi). congruence.
  - assert (∀ n' l, node_stats (record_participation now n p r) !! n' = Some l → is_Some (node_stats r !! n')) as Hk.
    { intros n' l Hl. change (alter (record_activity_snapshot now p) n (node_stats r) !! n' = Some l) in Hl.
      apply (lookup_alter_is_Some (record_activity_snapshot now p) (node_stats r) n). by exists l. }
    destruct Hr as [S I R U]. split.
    + intros n' l Hl. destruct (Hk _ _ Hl) as [l' Hl']. by eapply S.
    + intros n' l ip Hl. destruct (Hk _ _ Hl) as [l' Hl']. by eapply I.
    + intros n' l Hl. destruct (Hk _ _ Hl) as [l' Hl']. by eapply R.
    + intros n1 n2 l1 l2 H1 H2. destruct (Hk _ _ H1) as [l1' H1'], (Hk _ _ H2) as [l2' H2']. by eapply U.
Qed.

(** Whatever is registered and recorded: every registered node has a valid
    fingerprint, no two registered nodes share an address, and no two of them
    that gave no proof of uniqueness share a fingerprint. *)
Theorem registry_invariant ops : registry_ok (foldl do_registry_op registry_new ops).
Proof.
  assert (registry_ok registry_new) as Hr by (split; intros *; cbn; by rewrite ?lookup_empty).
  revert Hr. generalize registry_new. induction ops as [|op ops IH]; intros r Hr; cbn [foldl]; [done|].
  by apply IH, do_registry_op_ok.
Qed.

(** The fingerprint made for a secret key is accepted under a public key only
    when the two are equal or give the same digest after it, while anyone can
    sign any fingerprint under any public key. *)
Theorem fingerprint_signature_is_not_one sk pk :
  (fingerprint_verify (fingerprint_generate sk) pk = true →
   let f := hash_bytes (fingerprint (fingerprint_generate sk)) in
   digests_distinct [f ++ sk; f ++ pk] → sk = pk) ∧
  (∀ f, verify_fingerprint_signature f (sign_fingerprint f pk) pk = true).
Proof.
  split; [|intros f; by apply bool_decide_eq_true_2].
  unfold fingerprint_verify, verify_fingerprint_signature, fingerprint_generate, sign_fingerprint. cbn [fingerprint fp_signature].
  intros Heq Hd. bool_to_prop. cbn [hash_bytes keccak256] in Hd.
  apply Hd in Heq; [by apply app_inv_head in Heq|left|right; left].
Qed.

(** With a proof of uniqueness -- any 64 bytes -- the fingerprint is not
    recorded, so the same hardware is registered again under another identity. *)
Theorem proof_evades_uniqueness now n n' r :
  fingerprint_verify (hardware_fingerprint n) (node_public_key n) = true →
  hardware_fingerprint n' = hardware_fingerprint n → node_public_key n' = node_public_key n → n' ≠ n →
  ip_address n = None → ip_address n' = None →
  fingerprint (hardware_fingerprint n) ∉ fingerprints r →
  (∃ p p', zk_uniqueness_proof n = Some p ∧ zk_uniqueness_proof n' = Some p' ∧
     length (zk_bytes p) = 64%nat ∧ length (zk_bytes p') = 64%nat) →
  let r1 := (register_node now n r).2 in
  let r2 := (register_node now n' r1).2 in
  (register_node now n r).1 = Ok tt ∧ (register_node now n' r1).1 = Ok tt ∧
  is_Some (node_stats r2 !! n) ∧ is_Some (node_stats r2 !! n').
Proof.
  intros Hv Hhw Hpk Hne Hip Hip' Hf (p & p' & Hz & Hz' & Hl & Hl').
  assert (∀ q, length (zk_bytes q) = 64%nat → zk_verify q = true) as Hzv.
  { intros q Hq. unfold zk_verify. rewrite Hq. cbn. by destruct (zk_bytes q). }
  assert (∀ m q x, fingerprint_verify (hardware_fingerprint m) (node_public_key m) = true → ip_address m = None →
    zk_uniqueness_proof m = Some q → zk_verify q = true → fingerprint (hardware_fingerprint m) ∉ fingerprints x →
    register_node now m x = (Ok tt, set_stats (<[m := longevity_new now m]> (node_stats x)) (register_commitment (commitment q) x))) as Hreg.
  { intros m q x V I Z ZV F.
    unfold register_node, claim_ip, mbind, SE_bind, se_read, se_mod, mret, SE_ret, ensure, has_fingerprint.
    rewrite V, I, bool_decide_eq_false_2, Z, ZV by done. done. }
  cbv zeta. rewrite (Hreg n p r) by auto. cbn [fst snd]. rewrite (Hreg n' p'); [|by rewrite Hhw, Hpk|done|done|auto|by rewrite Hhw].
  cbn [fst snd set_stats register_commitment node_stats]. split_and!; [done|done| |].
  - rewrite lookup_insert_ne, lookup_insert_eq by done. by eexists.
  - rewrite lookup_insert_eq. by eexists.
Qed.

(** ** Longevity *)

(** Within one day only the first participation counts: later blocks of that
    day are not counted as mined. *)
Theorem one_block_a_day now now' s h p l :
  today_of now' = today_of now →
  let l1 := record_activity_snapshot now p l in
  let l2 := record_activity_snapshot now' (BlockMined s h) l1 in
  blocks_mined l2 = blocks_mined l1 ∧ active_days l2 = active_days l1 ∧ last_seen l2 = last_seen l1.
Proof.
  intros Hday. cbv zeta. set (l1 := record_activity_snapshot now p l).
  assert (recorded_today (today_of now') l1 = true) as Hrec.
  { rewrite Hday. unfold l1, record_activity_snapshot. destruct (recorded_today (today_of now) l);
      unfold recorded_today; cbn [activity_snapshots]; rewrite last_snoc; apply Z.eqb_refl. }
  unfold record_activity_snapshot at 1 2 3. by rewrite Hrec.
Qed.

(** A node has weight only after 30 active days with a mined block, and never
    more than a thousandth. *)
Theorem weight_bounds l days :
  f_leb (calculate_weight l days) (f_lit 1 1000) = true ∧
  (active_days l < 30 ∨ blocks_mined l = 0 → calculate_weight l days = f_zero).
Proof.
  unfold calculate_weight. split.
  - destruct (active_days l <? 30); [done|]. destruct (f_ltb _ _); [done|]. destruct (blocks_mined l =? 0); [done|].
    by apply f_min_leb.
  - intros [Hd|Hb].
    + by rewrite (proj2 (Z.ltb_lt _ _) Hd).
    + rewrite Hb. destruct (active_days l <? 30); [done|]. by destruct (f_ltb _ _).
Qed.
End RegistryTheorems.
