(* ===== verification/Miner.v ===== *)
(** * Miner: block production

    Models the rest of [irondag-blockchain/src/mining.rs]: the allocator of block
    numbers, the choice of parents, a mining round of a stream, and the task
    [process_blocks] that adds a mined block to the chain, pays the miner and
    updates pools, shards and the registry of nodes.

    Rounds and submissions run one after the other.  The proof-of-work search
    of a round is an argument: [mine_block] on stream A, the configured backend
    on stream B.  The wait of 10 ms for the ordering context always succeeds.
    Blocks are not signed with a post-quantum key, which only the
    [kyber] feature generates; broadcasting to peers and metrics are left out. *)

From S2P Require Import Prelude Types Block Pow Error DagStorage GhostDag Governance.
From S2P Require Import Ledger BlockIndex Execution Chain.
From S2P Require Import Economics Messaging Sharding Ordering TxPool NodeRegistry.

(** ** Block numbers *)

Record Allocator := MkAllocator {
  next_available : u64;
  pending_reservations : gmap u64 (StreamType * Z);
  failed_reservations : u64;
  free_list : list u64 }.

Definition allocator_new (starting_block : u64) : Allocator := MkAllocator starting_block ∅ 0 [].
Definition set_next_available (n : u64) (a : Allocator) : Allocator :=
  MkAllocator n (pending_reservations a) (failed_reservations a) (free_list a).
Definition reset_to (n : u64) (a : Allocator) : Allocator := MkAllocator n ∅ (failed_reservations a) [].

(** [free_list.pop()] of a heap of [Reverse]: the smallest number. *)
Definition pop_smallest (l : list u64) : option (u64 * list u64) :=
  match sort_by_key (λ n, n) l with n :: rest => Some (n, rest) | [] => None end.

Definition reserve (now : Z) (s : StreamType) (a : Allocator) : u64 * Allocator :=
  match pop_smallest (free_list a) with
  | Some (n, rest) =>
      (n, MkAllocator (next_available a) (<[n := (s, now)]> (pending_reservations a)) (failed_reservations a) rest)
  | None =>
      let n := next_available a in
      (n, MkAllocator (add64 n 1) (<[n := (s, now)]> (pending_reservations a)) (failed_reservations a) (free_list a))
  end.

Definition confirm (n : u64) (a : Allocator) : result string unit * Allocator :=
  match pending_reservations a !! n with
  | None => (Err "Block number was not reserved or already confirmed", a)
  | Some _ =>
      (Ok tt, MkAllocator (next_available a) (delete n (pending_reservations a)) (failed_reservations a) (free_list a))
  end.

Definition release (n : u64) (a : Allocator) : Allocator :=
  match pending_reservations a !! n with
  | None => a
  | Some _ =>
      MkAllocator (next_available a) (delete n (pending_reservations a)) (add64 (failed_reservations a) 1) (free_list a)
  end.

Definition RESERVATION_TIMEOUT : Z := from_secs 300.
Definition stale_reservation (now : Z) (r : StreamType * Z) : bool := RESERVATION_TIMEOUT <? duration_since now r.2.
Definition cleanup_stale_reservations `{HashIter} (now : Z) (a : Allocator) : list u64 * Allocator :=
  let stale := (λ kv, kv.1) <$> List.filter (λ kv, stale_reservation now kv.2) (hm_iter (pending_reservations a)) in
  (stale, MkAllocator (next_available a) (foldl (λ m n, delete n m) (pending_reservations a) stale)
            (failed_reservations a) (free_list a)).
(** One tick of [start_periodic_cleanup], which counts the failures. *)
Definition periodic_cleanup (now : Z) (a : Allocator) : Allocator :=
  let stale := filter (λ kv, stale_reservation now kv.2 = true) (pending_reservations a) in
  if bool_decide (stale = ∅) then a else
  MkAllocator (next_available a) (filter (λ kv, stale_reservation now kv.2 = false) (pending_reservations a))
    (add64 (failed_reservations a) (Z.of_nat (size stale))) (free_list a).
Definition get_stats (a : Allocator) : u64 * nat * u64 :=
  (next_available a, size (pending_reservations a), failed_reservations a).

(** ** Parents *)

Section Miner.
Context `{Hex, Keccak, Blake3, Crypto, Evm, HashIter, SliceSearch, UnstableSort}.
Context `{Codec Block, Codec (list Hash), Codec TxReceipt, Codec CrossShardMessage}.

Definition select_parents (c : Blockchain) : list Hash := block_hash <$> get_blocks_tail (blocks_data c) 3.

Definition are_parents_valid (c : Blockchain) (parents : list Hash) : bool :=
  forallb (λ p, bool_decide (p ∈ block_hashes (blocks_data c))) parents.

(** The tips of the consensus engine, or the last blocks of the chain. *)
Definition round_parents (c : Blockchain) : list Hash :=
  match ghostdag c with
  | Some g =>
      match get_tips (database (ledger c), g) with
      | [] => select_parents c
      | tips => tips
      end
  | None => select_parents c
  end.

(** ** A mining round *)

Record BlockSubmission := MkSubmission { sub_block : Block; sub_stream : StreamType; sub_number : u64 }.

Record Miner := MkMiner {
  pools : TxPool;
  allocator : Allocator;
  miner_address : Address;
  node_registry : option NodeRegistry;
  own_identity : option NodeIdentity;
  local_shard_id : option nat;
  is_mining : bool;
  shutdown_token : bool;
  syncing : bool;
  difficulty_a : u64;
  difficulty_b : u64;
  last_b_block_time : Z }.

Definition set_pools (t : TxPool) (m : Miner) : Miner :=
  MkMiner t (allocator m) (miner_address m) (node_registry m) (own_identity m) (local_shard_id m) (is_mining m)
    (shutdown_token m) (syncing m) (difficulty_a m) (difficulty_b m) (last_b_block_time m).
Definition set_allocator (a : Allocator) (m : Miner) : Miner :=
  MkMiner (pools m) a (miner_address m) (node_registry m) (own_identity m) (local_shard_id m) (is_mining m)
    (shutdown_token m) (syncing m) (difficulty_a m) (difficulty_b m) (last_b_block_time m).
Definition set_registry (r : option NodeRegistry) (m : Miner) : Miner :=
  MkMiner (pools m) (allocator m) (miner_address m) r (own_identity m) (local_shard_id m) (is_mining m)
    (shutdown_token m) (syncing m) (difficulty_a m) (difficulty_b m) (last_b_block_time m).
Definition set_flags (mining stop sync : bool) (m : Miner) : Miner :=
  MkMiner (pools m) (allocator m) (miner_address m) (node_registry m) (own_identity m) (local_shard_id m) mining
    stop sync (difficulty_a m) (difficulty_b m) (last_b_block_time m).
Definition set_difficulties (a b : u64) (last_b : Z) (m : Miner) : Miner :=
  MkMiner (pools m) (allocator m) (miner_address m) (node_registry m) (own_identity m) (local_shard_id m) (is_mining m)
    (shutdown_token m) (syncing m) a b last_b.

Definition stop_mining (m : Miner) : Miner := set_flags false (shutdown_token m) (syncing m) m.
Definition shutdown (m : Miner) : Miner := set_flags (is_mining m) true (syncing m) m.
Definition pause_for_sync (m : Miner) : Miner := set_flags (is_mining m) (shutdown_token m) true m.
Definition resume_after_sync (m : Miner) : Miner := set_flags (is_mining m) (shutdown_token m) false m.
Definition sync_block_allocator_to_chain_height (m : Miner) : Miner :=
  let current_height := add64 (cached_latest_block_number (chain (pools m))) 1 in
  if next_available (allocator m) <? current_height
  then set_allocator (set_next_available current_height (allocator m)) m else m.

(** What a loop iteration waits for, once the chain is loaded. *)
Definition may_mine (m : Miner) : bool := is_mining m && negb (shutdown_token m) && negb (syncing m).

(** [BlockHeader::new], with the active hash version. *)
Definition round_header (wall : u64) (parents : list Hash) (n : u64) (s : StreamType) (diff : u64) (base_fee : u128)
    (version : u8) : BlockHeader :=
  MkHeader parents n s diff wall 0 base_fee version None None.

Definition round_base_fee (s : StreamType) (t : TxPool) : u128 :=
  match get_current_base_fee s t with Ok b => b | Err _ => 0 end.

(** From the selected transactions to a block to mine: parents, number, header
    and trimming, which always returns a list. *)
Definition assemble (cpu : CpuFeatures) (buffer : list u8) (now : Z) (wall : u64) (s : StreamType) (diff : u64)
    (txs : list Transaction) (t : TxPool) (m : Miner) : option (BlockHeader * list Transaction) * Miner :=
  let parents := round_parents (chain t) in
  if bool_decide (parents = []) then (None, set_pools t m)
  else if negb (are_parents_valid (chain t) parents) then (None, set_pools (return_transactions now s txs t) m)
  else
    let '(n, a) := reserve now s (allocator m) in
    let h := round_header wall parents n s diff (round_base_fee s t)
               (active_hash_version (governance_scheduler (chain t))) in
    (Some (h, default [] (trim_block_transactions cpu buffer h txs)), set_allocator a (set_pools t m)).

(** The blocking task of a round. *)
Inductive MiningResult := Mined (nonce : u64) (hash : Hash) | NoSolution | TaskError.

(** The pool of one shard, as streams A and C read it. *)
Definition take_from_shard (rng : nat → nat) (policy : OrderingPolicy) (i max : nat) (sm : ShardManager) (t : TxPool) :
    list Transaction * TxPool :=
  let shard_txs := get_shard_transactions sm i max in
  if bool_decide (shard_txs = []) then ([], t) else
  (order_transactions rng (take max shard_txs) policy (ordering_context t),
   set_shards (Some (remove_shard_transactions (E:=BlockchainError) i (length shard_txs) sm).2) t).

(** The pools of all shards, as stream B reads them. *)
Fixpoint gather_shards (max per_shard : nat) (ids : list nat) (sm : ShardManager) (all_txs : list Transaction) :
    list Transaction :=
  match ids with
  | [] => all_txs
  | i :: ids' =>
      let all_txs := all_txs ++ get_shard_transactions sm i per_shard in
      if (max <=? length all_txs)%nat then all_txs else gather_shards max per_shard ids' sm all_txs
  end.
Definition take_from_shards (rng : nat → nat) (policy : OrderingPolicy) (max : nat) (sm : ShardManager) (t : TxPool) :
    list Transaction * TxPool :=
  let ids := seq 0 (length (shards sm)) in
  let per_shard := (max / Nat.max (length (shards sm)) 1)%nat in
  let all_txs := gather_shards max per_shard ids sm [] in
  if bool_decide (all_txs = []) then ([], t) else
  (order_transactions rng (take max all_txs) policy (ordering_context t),
   set_shards (Some (foldl (λ m i, (remove_shard_transactions (E:=BlockchainError) i per_shard m).2) sm ids)) t).

(** Give up a round: the number is released and the transactions go back. *)
Definition abandon (now : Z) (s : StreamType) (h : BlockHeader) (txs : list Transaction) (m : Miner) : Miner :=
  set_allocator (release (block_number h) (allocator m)) (set_pools (return_transactions now s txs (pools m)) m).
Definition mined_block (h : BlockHeader) (txs : list Transaction) (nonce : u64) (hash : Hash) : Block :=
  MkBlock (set_nonce_hdr nonce h) txs hash None.

Definition STREAM_A_TARGET_TIME : u64 := 10.
Definition STREAM_B_TARGET_TIME : u64 := 5.

(** An iteration of each stream; [elapsed] is the time the search took. *)
Definition mine_stream_a (cpu : CpuFeatures) (buffer : list u8) (now : Z) (wall : u64) (rng : nat → nat)
    (policy : OrderingPolicy) (mine : BlockHeader → Hash → MiningResult) (elapsed : Z) (m : Miner) :
    option BlockSubmission * Miner :=
  if negb (may_mine m) then (None, m) else
  let t0 := evict_expired_transactions now (pools m) in
  let '(txs, t, skip) :=
    match shard_manager t0, local_shard_id m with
    | Some sm, Some i =>
        let '(txs, t) := take_from_shard rng policy i (Z.to_nat STREAM_A_MAX_TXS) sm t0 in
        (txs, t, bool_decide (txs = []))
    | _, _ => let '(txs, t) := select_transactions rng policy now StreamA t0 in (txs, t, false)
    end in
  if skip then (None, set_pools t m) else
  match assemble cpu buffer now wall StreamA (difficulty_a m) txs t m with
  | (None, m1) => (None, m1)
  | (Some (h, txs'), m1) =>
      match mine h (transactions_root (tx_hash <$> txs')) with
      | Mined nonce hash =>
          (Some (MkSubmission (mined_block h txs' nonce hash) StreamA (block_number h)),
           set_difficulties (adjust_difficulty (difficulty_a m) STREAM_A_TARGET_TIME (Z.max 1 (as_secs elapsed)))
             (difficulty_b m1) (last_b_block_time m1) m1)
      | _ => (None, abandon (now + elapsed) StreamA h txs' m1)
      end
  end.

Definition mine_stream_b (cpu : CpuFeatures) (buffer : list u8) (now : Z) (wall : u64) (rng : nat → nat)
    (policy : OrderingPolicy) (mine : BlockHeader → Hash → MiningResult) (elapsed : Z) (m : Miner) :
    option BlockSubmission * Miner :=
  if negb (may_mine m) then (None, m) else
  let t0 := evict_expired_transactions now (pools m) in
  let '(txs, t, skip) :=
    match shard_manager t0 with
    | Some sm =>
        let '(txs, t) := take_from_shards rng policy (Z.to_nat STREAM_B_MAX_TXS) sm t0 in
        (txs, t, bool_decide (txs = []))
    | None => let '(txs, t) := select_transactions rng policy now StreamB t0 in (txs, t, false)
    end in
  if skip then (None, set_pools t m) else
  match assemble cpu buffer now wall StreamB (difficulty_b m) txs t m with
  | (None, m1) => (None, m1)
  | (Some (h, txs'), m1) =>
      let found_at := now + elapsed in
      match mine h (transactions_root (tx_hash <$> txs')) with
      | Mined nonce hash =>
          let actual_time := Z.max 1 (as_secs (duration_since found_at (last_b_block_time m))) in
          (Some (MkSubmission (mined_block h txs' nonce hash) StreamB (block_number h)),
           set_difficulties (difficulty_a m1) (adjust_difficulty (difficulty_b m) STREAM_B_TARGET_TIME actual_time)
             found_at m1)
      | NoSolution =>
          let d := adjust_difficulty (difficulty_b m) STREAM_B_TARGET_TIME (STREAM_B_TARGET_TIME * 6) in
          (None, abandon found_at StreamB h txs' (set_difficulties (difficulty_a m1) d (last_b_block_time m1) m1))
      | TaskError => (None, abandon found_at StreamB h txs' m1)
      end
  end.

(** Stream C has no proof of work, and mines empty blocks as well. *)
Definition mine_stream_c (cpu : CpuFeatures) (buffer : list u8) (now : Z) (wall : u64) (rng : nat → nat)
    (policy : OrderingPolicy) (m : Miner) : option BlockSubmission * Miner :=
  if negb (may_mine m) then (None, m) else
  let t0 := evict_expired_transactions now (pools m) in
  let '(txs, t) :=
    match shard_manager t0, local_shard_id m with
    | Some sm, Some i => take_from_shard rng policy i (Z.to_nat STREAM_C_MAX_TXS) sm t0
    | _, _ => select_transactions rng policy now StreamC t0
    end in
  match assemble cpu buffer now wall StreamC 4 txs t m with
  | (None, m1) => (None, m1)
  | (Some (h, txs'), m1) => (Some (MkSubmission (block_new cpu buffer h txs') StreamC (block_number h)), m1)
  end.

(** ** Processing a mined block *)

Definition MAX_BLOCK_NUMBER_GAP : u64 := 50.

(** Give the transactions of a refused block back, to the legacy pool. *)
Definition recover (now : Z) (txs : list Transaction) (t : TxPool) : TxPool :=
  let t1 := foldl (λ t x, set_legacy (pool_push (MkPooled x now) (tx_pool t)) t) t txs in
  set_in_flight (in_flight_txs t1 ∖ list_to_set (tx_hash <$> txs)) t1.

Definition pow_hash_valid (cpu : CpuFeatures) (buffer : list u8) (b : Block) : bool :=
  if 0 <? block_number (header b) then is_ok (check_block_hash cpu buffer b) else true.

(** [while let Some(p) = sender_queue.remove(&next_nonce) { .. }], into the
    legacy pool. *)
Fixpoint promote_committed (fuel : nat) (next_nonce : u64) (queue : gmap u64 PooledTransaction) (t : TxPool) :
    gmap u64 PooledTransaction * TxPool :=
  match fuel, queue !! next_nonce with
  | S fuel', Some p =>
      promote_committed fuel' (add64 next_nonce 1) (delete next_nonce queue)
        (set_hashes (pool_tx_hashes t ∪ {[tx_hash (p_tx p)]}) (set_legacy (pool_push p (tx_pool t)) t))
  | _, _ => (queue, t)
  end.
Definition promote_sender (t : TxPool) (a : Address) : TxPool :=
  match get_sender_nonce a t with
  | (Ok n, t1) =>
      match future_txs t1 !! a with
      | Some queue =>
          let '(rest, t2) := promote_committed (size queue) n queue t1 in
          set_future (if bool_decide (rest = ∅) then delete a (future_txs t2) else <[a := rest]> (future_txs t2)) t2
      | None => t1
      end
  | (Err _, t1) => t1
  end.

Definition senders (txs : list Transaction) : gset Address := list_to_set (from <$> txs).

(** The transfers of the block that leave their shard. *)
Definition bridge_transaction (now : Z) (t : Transaction) : SE ShardManager BlockchainError unit :=
  st ← route_transaction_full t;
  if (st.1 =? st.2)%nat then mret tt else
  m ← se_get;
  _ ← (if has_cross_shard_transaction m (tx_hash t) then mret tt
       else register_cross_shard_transaction now t st.1 st.2);
  _ ← se_try (F:=BlockchainError) (process_cross_shard_transaction now (tx_hash t)); mret tt.
Definition bridge (now : Z) (txs : list Transaction) (sm : ShardManager) : ShardManager :=
  (se_for txs (bridge_transaction now) (broadcast_all_shard_block_heights (E:=BlockchainError) sm).2).2.

(** Fees, the miner's share and the reward. *)
Definition pay_miner (a : Address) (b : Block) (n : u64) (s : StreamType) (c : Blockchain) : Blockchain :=
  ((bal ← on_ledger (get_balance a); on_ledger (set_balance a (sat_add128 bal (total_miner_reward b n s))))
     (add_burned_fees (total_burned b) c)).2.

(** What follows a block that was added. *)
Definition commit_submission (now : Z) (wall : u64) (sub : BlockSubmission) (m : Miner) : Miner :=
  let b := sub_block sub in
  let txs := transactions b in
  let t := pools m in
  let t := set_in_flight (in_flight_txs t ∖ list_to_set (tx_hash <$> txs)) t in
  let t := forget_hashes (tx_hash <$> txs) t in
  let t := foldl promote_sender t (hs_iter (senders txs)) in
  let t := set_shards (bridge now txs <$> shard_manager t) t in
  let r := match node_registry m, own_identity m with
           | Some r, Some i => Some (record_participation wall i (BlockMined (sub_stream sub) (block_hash b)) r)
           | r, _ => r
           end in
  set_registry r (set_allocator (confirm (sub_number sub) (allocator m)).2 (set_pools t m)).

(** Errors of [add_block] that are no value of its result: nothing catches a
    panic, so it ends the task that called.  (A loop of the model that was cut
    short has no outcome to go on with either.) *)
Definition uncaught (e : BlockchainError) : bool :=
  match e with Panic _ | OutOfFuel => true | _ => false end.

(** One submission of [process_blocks].  It fails when [add_block] panics: the
    chain is as the panic left it, and nothing of the submission is cleaned up. *)
Definition process_submission (fuel : nat) (cpu : CpuFeatures) (buffer : list u8) (now : Z) (wall : u64)
    (sub : BlockSubmission) : SE Miner BlockchainError unit := λ m,
  let b := sub_block sub in
  let n := sub_number sub in
  let c := chain (pools m) in
  let current_height := cached_latest_block_number c in
  let give_back := set_pools (recover now (transactions b) (pools m)) m in
  if negb (block_number (header b) =? n) then (Ok tt, set_allocator (release n (allocator m)) give_back)
  else if add64 current_height MAX_BLOCK_NUMBER_GAP <? n
  then (Ok tt, set_allocator (reset_to (add64 current_height 1) (allocator m)) give_back)
  else if negb (pow_hash_valid cpu buffer b) then (Ok tt, set_allocator (release n (allocator m)) give_back)
  else
    match add_block_impl fuel cpu buffer wall b true c with
    | (Ok _, c') =>
        (Ok tt, commit_submission now wall sub
          (set_pools (set_bc (pay_miner (miner_address m) b n (sub_stream sub) c') (pools m)) m))
    | (Err e, c') =>
        if uncaught e then (Err e, set_pools (set_bc c' (pools m)) m)
        else (Ok tt, set_allocator (release n (allocator m))
               (set_pools (recover now (transactions b) (set_bc c' (pools m))) m))
    end.

(** [process_blocks] before its loop. *)
Definition start_processing (m : Miner) : Miner :=
  set_allocator (set_next_available (add64 (cached_latest_block_number (chain (pools m))) 1) (allocator m)) m.

(** [process_blocks]: the submissions in the order they arrive, each with the
    time it is handled at.  The task ends at the first panic. *)
Definition process_blocks (fuel : nat) (cpu : CpuFeatures) (buffer : list u8)
    (subs : list (Z * u64 * BlockSubmission)) : SE Miner BlockchainError unit := λ m,
  se_for subs (λ '(now, wall, sub), process_submission fuel cpu buffer now wall sub) (start_processing m).
End Miner.
