(* ===== verification/MinerTheorems.v ===== *)
(** * MinerTheorems: block numbers, rewards and the fate of transactions

    The allocator never issues a number twice between resets; a submission is
    settled whatever its outcome; a state invariant of the mining manager; and
    the reward of a block, which only the miner's own node credits. *)

From S2P Require Import Prelude Types Block Pow Error DagStorage GhostDag Governance.
From S2P Require Import Ledger BlockIndex Execution Chain ChainAccounts.
From S2P Require Import Economics Messaging Sharding Ordering TxPool TxPoolTheorems NodeRegistry Miner.

(** ** Block numbers *)

Inductive AllocOp :=
| AReserve (now : Z) (s : StreamType)
| AConfirm (n : u64)
| ARelease (n : u64)
| ACleanup (now : Z)
| APeriodic (now : Z).

Section Numbers.
Context `{HashIter}.

(** The numbers issued so far, oldest first, and the allocator. *)
Definition do_alloc (st : list u64 * Allocator) (op : AllocOp) : list u64 * Allocator :=
  let '(issued, a) := st in
  match op with
  | AReserve now s => let '(n, a') := reserve now s a in (issued ++ [n], a')
  | AConfirm n => (issued, (confirm n a).2)
  | ARelease n => (issued, release n a)
  | ACleanup now => (issued, (cleanup_stale_reservations now a).2)
  | APeriodic now => (issued, periodic_cleanup now a)
  end.
Definition is_reserve (op : AllocOp) : bool := match op with AReserve _ _ => true | _ => false end.
Definition reserves (ops : list AllocOp) : nat := length (List.filter is_reserve ops).

Record numbered (start : u64) (k : nat) (st : list u64 * Allocator) : Prop := {
  nb_issued : st.1 = (λ i, start + Z.of_nat i) <$> seq 0 k;
  nb_next : next_available st.2 = start + Z.of_nat k;
  nb_free : free_list st.2 = [];
  nb_pending : ∀ n, is_Some (pending_reservations st.2 !! n) → n ∈ st.1 }.

Lemma foldl_delete_subseteq {A} (l : list u64) (m : gmap u64 A) : foldl (λ m n, delete n m) m l ⊆ m.
Proof.
  revert m. induction l as [|n l IH]; intros m; [done|]. cbn. etransitivity; [apply IH|apply delete_subseteq].
Qed.

Lemma numbered_shrink start k st a :
  numbered start k st → next_available a = next_available st.2 → free_list a = free_list st.2 →
  pending_reservations a ⊆ pending_reservations st.2 → numbered start k (st.1, a).
Proof.
  intros [Hi Hn Hf Hp] Hn' Hf' Hsub. split; cbn [fst snd]; [done|by rewrite Hn'|by rewrite Hf'|].
  intros n [x Hx]. apply Hp. exists x. by eapply lookup_weaken.
Qed.

Lemma do_alloc_numbered start k st op :
  numbered start k st → 0 <= start → start + Z.of_nat (k + if is_reserve op then 1 else 0) <= u64_max →
  numbered start (k + if is_reserve op then 1 else 0) (do_alloc st op).
Proof.
  intros Hst H0 Hmax. destruct st as [issued a], op; cbn [do_alloc is_reserve] in *.
  2-5: rewrite Nat.add_0_r; apply (numbered_shrink start k (issued, a)); try done; cbn [snd].
  - destruct Hst as [Hi Hn Hf Hp]. cbn [fst snd] in *. unfold reserve. rewrite Hf. cbn [pop_smallest].
    replace (pop_smallest []) with (@None (u64 * list u64)) by reflexivity.
    split; cbn [fst snd next_available free_list pending_reservations].
    + by rewrite seq_app, fmap_app, Hi, Hn.
    + rewrite add64_small by (rewrite Hn; lia). rewrite Hn. lia.
    + done.
    + intros n [x Hx]. apply elem_of_app. destruct (decide (n = next_available a)) as [->|Hne]; [right; left|].
      rewrite lookup_insert_ne in Hx by done. left. apply Hp. by exists x.
  - unfold confirm. by destruct (pending_reservations a !! n).
  - unfold confirm. by destruct (pending_reservations a !! n).
  - unfold confirm. destruct (pending_reservations a !! n); [apply delete_subseteq|done].
  - unfold release. by destruct (pending_reservations a !! n).
  - unfold release. by destruct (pending_reservations a !! n).
  - unfold release. destruct (pending_reservations a !! n); [apply delete_subseteq|done].
  - apply foldl_delete_subseteq.
  - unfold periodic_cleanup. by case_bool_decide.
  - unfold periodic_cleanup. by case_bool_decide.
  - unfold periodic_cleanup. case_bool_decide; [done|apply map_filter_subseteq].
Qed.

(** C32: Between two resets the allocator hands out consecutive numbers, so no
    two blocks share one; a released or expired number is never issued again,
    and every reservation it holds is one it issued. *)
Theorem block_numbers_are_fresh start ops :
  0 <= start → start + Z.of_nat (reserves ops) <= u64_max →
  let '(issued, a) := foldl do_alloc ([], allocator_new start) ops in
  issued = (λ i, start + Z.of_nat i) <$> seq 0 (reserves ops) ∧ NoDup issued ∧
  next_available a = start + Z.of_nat (reserves ops) ∧ free_list a = [] ∧
  (∀ n, is_Some (pending_reservations a !! n) → n ∈ issued).
Proof.
  intros H0. cut (start + Z.of_nat (reserves ops) <= u64_max →
    numbered start (reserves ops) (foldl do_alloc ([], allocator_new start) ops)).
  { intros Hnum Hmax. apply Hnum in Hmax. clear Hnum. destruct (foldl _ _ _) as [issued a]. destruct Hmax as [Hi Hx Hf Hp].
    cbn [fst snd] in *. split_and!; try done. rewrite Hi. apply NoDup_fmap_2; [|apply NoDup_seq].
    intros i j Hij. lia. }
  unfold reserves. induction ops as [|op ops IH] using rev_ind; intros Hmax.
  { split; [done|cbn; lia|done|]. by intros n [x Hx]. }
  rewrite List.filter_app, length_app in *. rewrite foldl_app. cbn [foldl List.filter] in *.
  assert (length (if is_reserve op then [op] else []) = if is_reserve op then 1%nat else 0%nat) as Hl by (by destruct op).
  rewrite Hl in *. apply do_alloc_numbered; [apply IH; lia|done|lia].
Qed.
End Numbers.

(** ** The chain under the pools *)

Section MinerTheorems.
Context `{Hex, Keccak, Blake3, Crypto, Evm, HashIter, SliceSearch, UnstableSort}.
Context `{Codec Block, Codec (list Hash), Codec TxReceipt, Codec CrossShardMessage}.

(** The pools read accounts, and leave the blocks alone. *)
Definition same_blocks (t t' : TxPool) : Prop := same_index (chain t) (chain t').
#[local] Instance same_blocks_preorder : PreOrder same_blocks.
Proof. split; [by intros t|]. intros t1 t2 t3. unfold same_blocks. by transitivity (chain t2). Qed.

Lemma sender_nonce_blocks a : respects same_blocks (get_sender_nonce a).
Proof.
  intros t r t'. destruct (get_sender_nonce_spec a t) as (l' & -> & _). by intros [= _ <-].
Qed.
Lemma evict_lowest_blocks s f t : same_blocks t (evict_lowest_fee_tx_if_higher s f t).1.
Proof. unfold evict_lowest_fee_tx_if_higher. destruct (lowest_fee _) as [[i q]|]; [|done]. by destruct (_ <? _). Qed.
Lemma add_to_pool_blocks p t : same_blocks t (add_to_pool_inner p t).
Proof.
  unfold add_to_pool_inner. set (t1 := if _ <=? _ then _ else t).
  assert (same_blocks t t1) as Ht by (unfold t1; destruct (_ <=? _); [apply evict_lowest_blocks|done]).
  by destruct (single_stream_mode t1).
Qed.
Lemma admit_ready_blocks now p : respects same_blocks (admit_ready now p).
Proof.
  intros t r t'. unfold admit_ready. destruct (shard_manager t) as [sm|].
  - destruct (add_transaction now (p_tx p) sm). by intros [= _ <-].
  - intros [= _ <-]. apply add_to_pool_blocks.
Qed.
Lemma fail_blocks {A} (e : BlockchainError) : respects same_blocks (fail (A:=A) e).
Proof. by intros t r t' [= _ <-]. Qed.
#[local] Hint Resolve sender_nonce_blocks admit_ready_blocks fail_blocks : frame.

Lemma promote_loop_blocks fuel now n q : respects same_blocks (promote_loop fuel now n q).
Proof.
  revert n q. induction fuel as [|fuel IH]; intros n q; cbn [promote_loop]; destruct (q !! n); frame_steps.
Qed.
#[local] Hint Resolve promote_loop_blocks : frame.
Lemma promote_blocks now a : respects same_blocks (promote_future_txs now a).
Proof. unfold promote_future_txs. frame_steps. Qed.
#[local] Hint Resolve promote_blocks : frame.
Lemma reject_blocks h msg : respects same_blocks (reject h msg).
Proof. unfold reject. frame_steps. Qed.
#[local] Hint Resolve reject_blocks : frame.
Lemma queue_future_blocks now tx : respects same_blocks (queue_future now tx).
Proof. unfold queue_future. frame_steps. Qed.
#[local] Hint Resolve queue_future_blocks : frame.
Lemma pool_add_blocks now wall tx : respects same_blocks (pool_add_transaction now wall tx).
Proof. unfold pool_add_transaction. frame_steps. Qed.

Lemma mark_in_flight_blocks h t : same_blocks t (mark_in_flight h t).1.
Proof. done. Qed.
Lemma drain_loop_blocks fuel now s count t : same_blocks t (drain_loop fuel now s count t).2.
Proof.
  revert count t. induction fuel as [|fuel IH]; intros count t; [done|]. cbn [drain_loop]. destruct count as [|count]; [done|].
  destruct (pop_front s t) as [[p t1]|] eqn:Hp; [|done].
  assert (same_blocks t t1) as Ht1.
  { unfold pop_front in Hp. destruct (entries _); [done|]. by injection Hp as _ <-. }
  destruct (is_expired now p); [by etransitivity|].
  destruct (mark_in_flight (tx_hash (p_tx p)) t1) as [t2 [|]] eqn:Hm.
  all: pose proof (mark_in_flight_blocks (tx_hash (p_tx p)) t1) as Ht2; rewrite Hm in Ht2; cbn [fst] in Ht2.
  - destruct (drain_loop fuel now s count t2) as [txs t3] eqn:Hd. pose proof (IH count t2) as Ht3. rewrite Hd in Ht3.
    etransitivity; [exact Ht1|]. by etransitivity.
  - etransitivity; [exact Ht1|]. etransitivity; [exact Ht2|apply IH].
Qed.
Lemma drain_blocks now s t : same_blocks t (drain now s t).2.
Proof.
  unfold drain. set (t0 := set_stream s _ t). assert (same_blocks t t0) as Ht0 by done.
  pose proof (drain_loop_blocks (length (sort_unstable_by_key (λ p, - fee (p_tx p)) (entries (stream_pool s t)))) now s
    (Z.to_nat (Z.min (pool_size (stream_pool s t)) (stream_max_txs s))) t0) as Hd.
  destruct (drain_loop _ _ _ _ _) as [txs t1]. cbn [snd] in *. etransitivity; [exact Ht0|]. etransitivity; [exact Hd|].
  by destruct s.
Qed.
Lemma evict_stream_blocks now s t : same_blocks t (evict_stream now s t).
Proof. unfold evict_stream. by destruct (stale_hashes _ _). Qed.
Lemma evict_expired_blocks now t : same_blocks t (evict_expired_transactions now t).
Proof.
  unfold evict_expired_transactions, evict_legacy. etransitivity; [apply evict_stream_blocks|].
  etransitivity; [apply evict_stream_blocks|]. etransitivity; [apply evict_stream_blocks|]. by destruct (stale_hashes _ _).
Qed.
Lemma return_blocks now s txs t : same_blocks t (return_transactions now s txs t).
Proof.
  unfold return_transactions. set (t1 := foldl _ t txs). assert (same_blocks t t1) as Ht1; [|exact Ht1].
  unfold t1. clear t1. revert t. induction txs as [|x txs IH]; intros t; cbn [foldl]; [done|].
  etransitivity; [|apply IH]. done.
Qed.
Lemma recover_blocks now txs t : same_blocks t (recover now txs t).
Proof.
  unfold recover. set (t1 := foldl _ t txs). assert (same_blocks t t1) as Ht1; [|exact Ht1].
  unfold t1. clear t1. revert t. induction txs as [|x txs IH]; intros t; cbn [foldl]; [done|].
  etransitivity; [|apply IH]. done.
Qed.

Lemma do_pool_op_blocks t op : same_blocks t (do_pool_op t op).
Proof.
  destruct op; cbn [do_pool_op].
  - by eapply pool_add_blocks, surjective_pairing.
  - apply evict_expired_blocks.
  - done.
  - by eapply promote_blocks, surjective_pairing.
  - apply drain_blocks.
  - apply return_blocks.
Qed.

(** ** Processing a submission *)

(** A refused block's transactions go to the legacy pool. *)
Record recovered (now : Z) (txs : list Transaction) (t t' : TxPool) : Prop := {
  rv_chain : chain t' = chain t;
  rv_shards : shard_manager t' = shard_manager t;
  rv_legacy : entries (tx_pool t') = entries (tx_pool t) ++ ((λ x, MkPooled x now) <$> txs);
  rv_streams : ∀ s, stream_pool s t' = stream_pool s t;
  rv_hashes : pool_tx_hashes t' = pool_tx_hashes t;
  rv_flight : in_flight_txs t' = in_flight_txs t ∖ list_to_set (tx_hash <$> txs);
  rv_future : future_txs t' = future_txs t;
  rv_ok : pools_ok t → pools_ok t' }.

Lemma pools_ok_legacy q t : pools_ok t → counted q → pools_ok (set_legacy q t).
Proof. intros [A B C D] Hq. by split. Qed.
Lemma pools_ok_flight f t : pools_ok t → f ⊆ in_flight_txs t → pools_ok (set_in_flight f t).
Proof.
  intros [A B C D] Hf. split; [done|exact B|done|]. cbn. apply subseteq_size in Hf. lia.
Qed.

Lemma recover_spec now txs t : recovered now txs t (recover now txs t).
Proof.
  unfold recover. set (push := λ (t : TxPool) x, set_legacy (pool_push (MkPooled x now) (tx_pool t)) t).
  assert (∃ q, foldl push t txs = set_legacy q t ∧ entries q = entries (tx_pool t) ++ ((λ x, MkPooled x now) <$> txs) ∧
    (counted (tx_pool t) → counted q)) as (q & -> & Hq & Hc).
  { revert t. induction txs as [|x txs IH]; intros t; cbn [foldl].
    - exists (tx_pool t). split_and!; [by destruct t|cbn; by rewrite app_nil_r|done].
    - destruct (IH (push t x)) as (q & Heq & Hq & Hc). exists q. split_and!; [by rewrite Heq| |].
      + rewrite Hq. cbn. by rewrite <- app_assoc.
      + intros Ht. apply Hc, counted_push, Ht. }
  split; try done. intros Ht. apply pools_ok_flight; [apply pools_ok_legacy; [done|]|set_solver].
  apply Hc, Ht.
Qed.

(** Promotion after a block moves queued transactions to the legacy pool. *)
Record requeued (t t' : TxPool) : Prop := {
  rq_chain : ∃ l', reads (ledger (chain t)) l' ∧ chain t' = set_ledger l' (chain t);
  rq_shards : shard_manager t' = shard_manager t;
  rq_legacy : ∃ ps, entries (tx_pool t') = entries (tx_pool t) ++ ps;
  rq_streams : ∀ s, stream_pool s t' = stream_pool s t;
  rq_hashes : pool_tx_hashes t ⊆ pool_tx_hashes t';
  rq_flight : in_flight_txs t' = in_flight_txs t;
  rq_ok : pools_ok t → pools_ok t' }.
Lemma chain_kept (c : Blockchain) : ∃ l', reads (ledger c) l' ∧ c = set_ledger l' c.
Proof. exists (ledger c). split; [done|by destruct c]. Qed.
#[local] Instance requeued_preorder : PreOrder requeued.
Proof.
  split.
  - intros t. split; try done; [apply chain_kept|by exists []; rewrite app_nil_r].
  - intros t1 t2 t3 [(l1 & R1 & C1) A2 (p1 & A3) A4 A5 A6 A7] [(l2 & R2 & C2) B2 (p2 & B3) B4 B5 B6 B7]. split.
    + rewrite C1 in R2, C2. exists l2. split; [by etransitivity|done].
    + congruence.
    + exists (p1 ++ p2). by rewrite B3, A3, app_assoc.
    + intros s. by rewrite B4.
    + by etransitivity.
    + congruence.
    + auto.
Qed.

Lemma promote_committed_spec fuel n q t rest t' :
  promote_committed fuel n q t = (rest, t') → rest ⊆ q ∧ requeued t t' ∧ future_txs t' = future_txs t.
Proof.
  revert n q t. induction fuel as [|fuel IH]; intros n q t; cbn [promote_committed]; [by intros [= <- <-]|].
  destruct (q !! n) as [p|]; [|by intros [= <- <-]]. intros Hp. apply IH in Hp as (Hsub & Hrq & Hf). split_and!.
  - etransitivity; [exact Hsub|apply delete_subseteq].
  - etransitivity; [|exact Hrq]. split; try done.
    + apply chain_kept.
    + by exists [p].
    + cbn. set_solver.
    + intros Ht. apply pools_ok_hashes, pools_ok_legacy; [done|]. apply counted_push, Ht.
  - by rewrite Hf.
Qed.

Lemma promote_sender_requeued t a : requeued t (promote_sender t a).
Proof.
  unfold promote_sender. destruct (get_sender_nonce_spec a t) as (l' & -> & Hr).
  set (t1 := set_bc _ t). assert (requeued t t1) as Ht1.
  { split; try done; [by exists l'|by exists []; rewrite app_nil_r|]. by intros []. }
  destruct (future_txs t1 !! a) as [q|] eqn:Hq; [|done]. etransitivity; [exact Ht1|]. clear Ht1 Hr.
  destruct (promote_committed _ _ q t1) as [rest t2] eqn:Hp. apply promote_committed_spec in Hp as (Hsub & Hrq & Hf).
  destruct Hrq as [A B C D E F G]. split; try done. intros Ht. pose proof (G Ht) as [X Y W V].
  split; [done|exact Y| |done]. cbn. case_bool_decide; [by apply map_Forall_delete|].
  apply map_Forall_insert_2; [|done]. eapply queue_ok_subseteq; [exact Hsub|]. by apply (po_future _ Ht).
Qed.
Lemma promote_senders_requeued l t : requeued t (foldl promote_sender t l).
Proof.
  revert t. induction l as [|a l IH]; intros t; cbn [foldl]; [done|]. etransitivity; [apply promote_sender_requeued|apply IH].
Qed.

(** An accepted block: the reward is paid, nothing of the block is in flight,
    and the number is confirmed. *)
Record committed_sub (sub : BlockSubmission) (m m' : Miner) : Prop := {
  cs_chain : ∃ l', reads (ledger (chain (pools m))) l' ∧ chain (pools m') = set_ledger l' (chain (pools m));
  cs_legacy : ∃ ps, entries (tx_pool (pools m')) = entries (tx_pool (pools m)) ++ ps;
  cs_streams : ∀ s, stream_pool s (pools m') = stream_pool s (pools m);
  cs_flight : in_flight_txs (pools m')
    = in_flight_txs (pools m) ∖ list_to_set (tx_hash <$> transactions (sub_block sub));
  cs_allocator : allocator m' = (confirm (sub_number sub) (allocator m)).2;
  cs_ok : pools_ok (pools m) → pools_ok (pools m') }.
Lemma commit_submission_spec now wall sub m : committed_sub sub m (commit_submission now wall sub m).
Proof.
  unfold commit_submission. set (t0 := forget_hashes _ _).
  pose proof (promote_senders_requeued (hs_iter (senders (transactions (sub_block sub)))) t0) as [A B C D E F G].
  split; try done. cbn [pools]. intros Ht.
  assert (pools_ok t0) as Ht0 by (apply pools_ok_hashes, pools_ok_flight; [done|set_solver]). by destruct (G Ht0).
Qed.

Lemma pay_miner_index a b n s c : same_index c (pay_miner a b n s c).
Proof.
  unfold pay_miner. set (pay := bal ← _; _). assert (respects same_index pay) as Hp.
  { unfold pay. apply respects_bind; [apply _|apply on_ledger_index|intros bal; apply on_ledger_index]. }
  set (c1 := add_burned_fees _ c). assert (same_index c c1) as Hc1 by done.
  etransitivity; [exact Hc1|]. by eapply Hp, surjective_pairing.
Qed.

(** What lets a submission reach the chain. *)
Definition presentable (cpu : CpuFeatures) (buffer : list u8) (sub : BlockSubmission) (c : Blockchain) : Prop :=
  block_number (header (sub_block sub)) = sub_number sub ∧
  sub_number sub <= add64 (cached_latest_block_number c) MAX_BLOCK_NUMBER_GAP ∧
  pow_hash_valid cpu buffer (sub_block sub) = true.
#[local] Instance presentable_dec cpu buffer sub c : Decision (presentable cpu buffer sub c).
Proof. unfold presentable. apply _. Defined.

#[local] Instance is_ok_dec (r : result BlockchainError ()) : Decision (r = Ok ()).
Proof. destruct r as [[]|e]; [by left|by right]. Defined.

(** The cases of a submission. *)
Lemma process_submission_cases fuel cpu buffer now wall sub m :
  let ran := process_submission fuel cpu buffer now wall sub m in
  if decide (presentable cpu buffer sub (chain (pools m))) then
    match add_block_impl fuel cpu buffer wall (sub_block sub) true (chain (pools m)) with
    | (Ok _, c') =>
        ran = (Ok tt, commit_submission now wall sub (set_pools (set_bc
               (pay_miner (miner_address m) (sub_block sub) (sub_number sub) (sub_stream sub) c') (pools m)) m))
    | (Err e, c') =>
        ran = if uncaught e then (Err e, set_pools (set_bc c' (pools m)) m)
              else (Ok tt, set_allocator (release (sub_number sub) (allocator m))
                     (set_pools (recover now (transactions (sub_block sub)) (set_bc c' (pools m))) m))
    end
  else ∃ a, ran = (Ok tt, set_allocator a (set_pools (recover now (transactions (sub_block sub)) (pools m)) m)) ∧
         (a = release (sub_number sub) (allocator m) ∨
          a = reset_to (add64 (cached_latest_block_number (chain (pools m))) 1) (allocator m)).
Proof.
  cbn zeta. unfold process_submission. destruct (decide _) as [(Hn & Hg & Hv)|Hp].
  - rewrite Hn, Z.eqb_refl, Hv, (proj2 (Z.ltb_ge _ _)) by done. cbn [negb].
    by destruct (add_block_impl _ _ _ _ _ _ _) as [[]].
  - destruct (_ =? _) eqn:Hn; [|eexists; split; [done|by left]]. cbn [negb].
    destruct (_ <? _) eqn:Hg; [eexists; split; [done|by right]|].
    destruct (pow_hash_valid cpu buffer (sub_block sub)) eqn:Hv; [|eexists; split; [done|by left]].
    bool_to_prop. destruct Hp. by split.
Qed.

Lemma confirm_clears n a : pending_reservations (confirm n a).2 !! n = None.
Proof. unfold confirm. destruct (pending_reservations a !! n) eqn:Hn; [apply lookup_delete_eq|done]. Qed.
Lemma release_clears n a : pending_reservations (release n a) !! n = None.
Proof. unfold release. destruct (pending_reservations a !! n) eqn:Hn; [apply lookup_delete_eq|done]. Qed.

(** C15: A submission that does not make [add_block] panic is settled: its number
    is no longer reserved and none of its transactions is in flight.  It
    is accepted exactly when its number is the reserved one and not too far
    ahead, its hash is right and the chain adds it; then the block is the last
    of the index.  Otherwise the index is unchanged and all its transactions are
    in the legacy pool.  A panic ends the task: the number stays reserved and the
    transactions stay in flight, in no pool, with the index unchanged.  The pools
    of the streams are never touched. *)
Theorem submission_is_settled fuel cpu buffer now wall sub m :
  let b := sub_block sub in
  let c := chain (pools m) in
  let added := (add_block_impl fuel cpu buffer wall b true c).1 in
  let '(r, m') := process_submission fuel cpu buffer now wall sub m in
  (∀ s, stream_pool s (pools m') = stream_pool s (pools m)) ∧
  match r with
  | Ok _ =>
      in_flight_txs (pools m') = in_flight_txs (pools m) ∖ list_to_set (tx_hash <$> transactions b) ∧
      pending_reservations (allocator m') !! sub_number sub = None ∧
      if decide (presentable cpu buffer sub c ∧ added = Ok tt)
      then blocks (blocks_data (chain (pools m'))) = blocks (blocks_data c) ++ [b]
      else entries (tx_pool (pools m')) = entries (tx_pool (pools m)) ++ ((λ x, MkPooled x now) <$> transactions b) ∧
           same_index c (chain (pools m'))
  | Err e =>
      presentable cpu buffer sub c ∧ added = Err e ∧ uncaught e = true ∧
      in_flight_txs (pools m') = in_flight_txs (pools m) ∧ allocator m' = allocator m ∧
      entries (tx_pool (pools m')) = entries (tx_pool (pools m)) ∧ same_index c (chain (pools m'))
  end.
Proof.
  cbn zeta. pose proof (process_submission_cases fuel cpu buffer now wall sub m) as Hc. cbn zeta in Hc.
  destruct (decide (presentable cpu buffer sub (chain (pools m)))) as [Hp|Hp].
  - destruct (add_block_run fuel cpu buffer wall (sub_block sub) true (chain (pools m))) as (r & c' & Heq & Hr).
    rewrite Heq in *. cbn [fst] in *. destruct r as [[]|e]; rewrite Hc; clear Hc.
    + rewrite decide_True by done. destruct Hr as (_ & c0 & Hacc & ->). set (m1 := set_pools _ m).
      destruct (commit_submission_spec now wall sub m1) as [(l' & _ & Hch) _ Hs Hf Ha _].
      rewrite Hf, Ha, Hch. split_and!; [done|done|apply confirm_clears|]. cbn [blocks_data set_ledger].
      change (chain (pools m1)) with (pay_miner (miner_address m) (sub_block sub) (sub_number sub) (sub_stream sub)
        (upkeep (sub_block sub) c0)).
      rewrite (si_blocks _ _ (pay_miner_index _ _ _ _ _)), (si_blocks _ _ (upkeep_index _ _)).
      by rewrite (cm_blocks _ _ _ (accepted_committed _ _ _ _ _ Hacc)).
    + apply rejected_index in Hr. destruct (uncaught e) eqn:Hu; [by split_and!|]. rewrite decide_False by (intros [_ ?]; done).
      set (t1 := set_bc c' (pools m)). destruct (recover_spec now (transactions (sub_block sub)) t1) as [Hch _ Hl Hs _ Hf _ _].
      cbn [pools set_allocator set_pools allocator]. rewrite Hf, Hl, Hch. by split_and!; [done|done|apply release_clears|..].
  - destruct Hc as (a & -> & Ha). cbn [pools set_allocator set_pools allocator]. rewrite decide_False by (by intros [? _]).
    destruct (recover_spec now (transactions (sub_block sub)) (pools m)) as [Hch _ Hl Hs _ Hf _ _].
    rewrite Hf, Hl, Hch. split_and!; [done|done| |done|done].
    destruct Ha as [->| ->]; [apply release_clears|apply lookup_empty].
Qed.

(** ** The reward *)

(** C14: A mined block pays its miner on the miner's own node only.  The node has
    no wallet registry, which no constructor sets, and the block's transactions
    carry no data, or the EVM is off.  Let [c'] be
    the chain after the block, which is what any other node that holds the same
    chain gets when it adds the block.  On the miner's node every account
    agrees with [c'] but the miner's, which is higher by the reward and the
    miner's half of the tips (up to the largest balance). *)
Theorem only_the_miner_credits_the_reward fuel cpu buffer now wall sub m c' :
  let b := sub_block sub in
  let reward := total_miner_reward b (sub_number sub) (sub_stream sub) in
  plain (chain (pools m)) → block_typed b (chain (pools m)) →
  address_wf (miner_address m) = true → 0 <= reward →
  presentable cpu buffer sub (chain (pools m)) →
  add_block_impl fuel cpu buffer wall b true (chain (pools m)) = (Ok tt, c') →
  let m' := (process_submission fuel cpu buffer now wall sub m).2 in
  ∀ a, address_wf a = true →
    view (ledger (chain (pools m'))) a
    = if decide (a = miner_address m) then (sat_add128 (view (ledger c') a).1 reward, (view (ledger c') a).2)
      else view (ledger c') a.
Proof.
  cbn zeta. intros Hplain Htyped Hwf Hrew Hp Hadd a Ha.
  pose proof (process_submission_cases fuel cpu buffer now wall sub m) as Hc. cbn zeta in Hc.
  rewrite decide_True, Hadd in Hc by done. rewrite Hc. clear Hc. cbn [snd]. set (m1 := set_pools _ m).
  destruct (commit_submission_spec now wall sub m1) as [(l' & Hrd & ->) _ _ _ _ _]. cbn [ledger set_ledger].
  rewrite (rd_view _ _ Hrd). cbn [m1 chain set_bc pools set_pools]. unfold pay_miner.
  destruct (block_step_plain fuel cpu buffer _ _ _ (StepAdd fuel cpu buffer wall _ true _ _ _ Htyped Hadd) Hplain)
    as ([_ [Hg Hok]] & _ & _).
  set (c1 := add_burned_fees _ c'). destruct (get_balance_spec (miner_address m) (ledger c1)) as (l1 & Hgb & Hr1).
  assert (verkle_good l1) as Hg1 by (eapply reads_good; [exact Hr1|exact Hg]).
  set (bal := sat_add128 (view (ledger c') (miner_address m)).1
    (total_miner_reward (sub_block sub) (sub_number sub) (sub_stream sub))).
  destruct (set_balance_spec (miner_address m) bal l1 Hg1 Hwf) as (l2 & Hsb & Hw & Hn).
  { destruct (Hok _ Hwf) as [[] _]. unfold bal, sat_add128, in_u128 in *. lia. }
  unfold mbind, SE_bind, on_ledger, zoom. rewrite Hgb. cbn [ledger set_ledger].
  change (view (ledger c1)) with (view (ledger c')). fold bal. rewrite Hsb. cbn [snd ledger set_ledger].
  rewrite (surjective_pairing (view l2 a)), (wr_balance _ _ _ _ Hw a Ha).
  destruct (decide (a = miner_address m)) as [->|Hne].
  - by rewrite Hn, (rd_view _ _ Hr1).
  - rewrite (wr_nonce _ _ _ _ Hw a Ha Hne), (rd_view _ _ Hr1). symmetry. apply surjective_pairing.
Qed.

(** ** The mining manager over time *)

Inductive MinerOp :=
| MPool (op : PoolOp)
| MStreamA (now : Z) (wall : u64) (rng : nat → nat) (policy : OrderingPolicy)
    (mine : BlockHeader → Hash → MiningResult) (elapsed : Z)
| MStreamB (now : Z) (wall : u64) (rng : nat → nat) (policy : OrderingPolicy)
    (mine : BlockHeader → Hash → MiningResult) (elapsed : Z)
| MStreamC (now : Z) (wall : u64) (rng : nat → nat) (policy : OrderingPolicy)
| MProcess (now : Z) (wall : u64) (sub : BlockSubmission)
| MCleanup (now : Z)
| MStart
| MSyncNumbers
| MPause
| MResume
| MStop
| MShutdown.

Definition do_miner_op (fuel : nat) (cpu : CpuFeatures) (buffer : list u8) (m : Miner) (op : MinerOp) : Miner :=
  match op with
  | MPool op => set_pools (do_pool_op (pools m) op) m
  | MStreamA now wall rng policy mine elapsed => (mine_stream_a cpu buffer now wall rng policy mine elapsed m).2
  | MStreamB now wall rng policy mine elapsed => (mine_stream_b cpu buffer now wall rng policy mine elapsed m).2
  | MStreamC now wall rng policy => (mine_stream_c cpu buffer now wall rng policy m).2
  | MProcess now wall sub => (process_submission fuel cpu buffer now wall sub m).2
  | MCleanup now => set_allocator (periodic_cleanup now (allocator m)) m
  | MStart => start_processing m
  | MSyncNumbers => sync_block_allocator_to_chain_height m
  | MPause => pause_for_sync m
  | MResume => resume_after_sync m
  | MStop => stop_mining m
  | MShutdown => shutdown m
  end.

Record miner_ok (m : Miner) : Prop := {
  mo_chain : chain_ok (chain (pools m));
  mo_pools : pools_ok (pools m);
  mo_free : free_list (allocator m) = [] }.

Lemma reserve_free now s a : free_list a = [] → free_list (reserve now s a).2 = [].
Proof. intros Hf. unfold reserve. by rewrite Hf. Qed.
Lemma release_free n a : free_list (release n a) = free_list a.
Proof. unfold release. by destruct (_ !! n). Qed.
(** A step of the pools that keeps their invariant and the blocks. *)
Definition pools_step (t t' : TxPool) : Prop := same_blocks t t' ∧ (pools_ok t → pools_ok t').
#[local] Instance pools_step_preorder : PreOrder pools_step.
Proof.
  split; [by intros t|]. intros t1 t2 t3 [A1 B1] [A2 B2]. split; [by etransitivity|auto].
Qed.
Lemma evict_step now t : pools_step t (evict_expired_transactions now t).
Proof. split; [apply evict_expired_blocks|apply evict_expired_ok]. Qed.
Lemma return_step now s txs t : pools_step t (return_transactions now s txs t).
Proof. split; [apply return_blocks|apply return_ok]. Qed.
Lemma select_step rng policy now s t : pools_step t (select_transactions rng policy now s t).2.
Proof.
  unfold select_transactions. pose proof (drain_blocks now s t) as Hb. pose proof (drain_ok now s t) as Ho.
  by destruct (drain now s t).
Qed.
Lemma set_shards_step sm t : pools_step t (set_shards sm t).
Proof. split; [done|by intros []]. Qed.
Lemma take_from_shard_step rng policy i max sm t : pools_step t (take_from_shard rng policy i max sm t).2.
Proof. unfold take_from_shard. case_bool_decide; [done|apply set_shards_step]. Qed.
Lemma take_from_shards_step rng policy max sm t : pools_step t (take_from_shards rng policy max sm t).2.
Proof. unfold take_from_shards. case_bool_decide; [done|apply set_shards_step]. Qed.

Lemma miner_ok_step m t a :
  miner_ok m → pools_step (pools m) t → free_list a = [] → miner_ok (set_allocator a (set_pools t m)).
Proof. intros [Hc Hp Hf] [Hb Hok] Ha. split; [by eapply chain_ok_frame|by apply Hok|done]. Qed.
Lemma miner_ok_pools m t : miner_ok m → pools_step (pools m) t → miner_ok (set_pools t m).
Proof. intros Hm Ht. destruct (miner_ok_step m t (allocator m) Hm Ht (mo_free _ Hm)). by split. Qed.
Lemma miner_ok_flags m x y z : miner_ok m → miner_ok (set_flags x y z m).
Proof. by intros []. Qed.
Lemma miner_ok_difficulties m x y z : miner_ok m → miner_ok (set_difficulties x y z m).
Proof. by intros []. Qed.
Lemma abandon_ok now s h txs m : miner_ok m → miner_ok (abandon now s h txs m).
Proof.
  intros Hm. unfold abandon. apply miner_ok_step; [done|apply return_step|]. rewrite release_free. apply Hm.
Qed.
Lemma assemble_ok cpu buffer now wall s diff txs t m :
  miner_ok m → pools_step (pools m) t → miner_ok (assemble cpu buffer now wall s diff txs t m).2.
Proof.
  intros Hm Ht. unfold assemble. case_bool_decide; [by apply miner_ok_pools|].
  destruct (negb _); [apply miner_ok_pools; [done|]; etransitivity; [exact Ht|apply return_step]|].
  pose proof (reserve_free now s _ (mo_free _ Hm)) as Hr. destruct (reserve now s (allocator m)) as [n a].
  by apply miner_ok_step.
Qed.

Lemma mine_stream_a_ok cpu buffer now wall rng policy mine elapsed m :
  miner_ok m → miner_ok (mine_stream_a cpu buffer now wall rng policy mine elapsed m).2.
Proof.
  intros Hm. unfold mine_stream_a. destruct (negb _); [done|]. set (t0 := evict_expired_transactions now (pools m)).
  set (sel := match shard_manager t0 with Some _ => _ | None => _ end). assert (pools_step (pools m) sel.1.2) as Hs.
  { unfold sel. pose proof (select_step rng policy now StreamA t0) as Hp. pose proof (evict_step now (pools m)) as He. fold t0 in He.
    destruct (shard_manager t0) as [sm|], (local_shard_id m) as [i|].
    1: pose proof (take_from_shard_step rng policy i (Z.to_nat STREAM_A_MAX_TXS) sm t0) as Hk; destruct (take_from_shard _ _ _ _ _ _).
    2-4: destruct (select_transactions _ _ _ _ _). all: by etransitivity. }
  destruct sel as [[txs t] [|]]; cbn [fst snd] in Hs; [by apply miner_ok_pools|].
  pose proof (assemble_ok cpu buffer now wall StreamA (difficulty_a m) txs t m Hm Hs) as Ha.
  destruct (assemble _ _ _ _ _ _ _ _ _) as [[[h txs']|] m1]; [|done]. cbn [snd] in Ha.
  destruct (mine _ _); [by apply miner_ok_difficulties|by apply abandon_ok|by apply abandon_ok].
Qed.
Lemma mine_stream_b_ok cpu buffer now wall rng policy mine elapsed m :
  miner_ok m → miner_ok (mine_stream_b cpu buffer now wall rng policy mine elapsed m).2.
Proof.
  intros Hm. unfold mine_stream_b. destruct (negb _); [done|]. set (t0 := evict_expired_transactions now (pools m)).
  set (sel := match shard_manager t0 with Some _ => _ | None => _ end). assert (pools_step (pools m) sel.1.2) as Hs.
  { unfold sel. pose proof (select_step rng policy now StreamB t0) as Hp. pose proof (evict_step now (pools m)) as He. fold t0 in He.
    destruct (shard_manager t0) as [sm|].
    1: pose proof (take_from_shards_step rng policy (Z.to_nat STREAM_B_MAX_TXS) sm t0) as Hk; destruct (take_from_shards _ _ _ _ _).
    2: destruct (select_transactions _ _ _ _ _). all: by etransitivity. }
  destruct sel as [[txs t] [|]]; cbn [fst snd] in Hs; [by apply miner_ok_pools|].
  pose proof (assemble_ok cpu buffer now wall StreamB (difficulty_b m) txs t m Hm Hs) as Ha.
  destruct (assemble _ _ _ _ _ _ _ _ _) as [[[h txs']|] m1]; [|done]. cbn [snd] in Ha.
  destruct (mine _ _); [by apply miner_ok_difficulties|by apply abandon_ok, miner_ok_difficulties|by apply abandon_ok].
Qed.
Lemma mine_stream_c_ok cpu buffer now wall rng policy m :
  miner_ok m → miner_ok (mine_stream_c cpu buffer now wall rng policy m).2.
Proof.
  intros Hm. unfold mine_stream_c. destruct (negb _); [done|]. set (t0 := evict_expired_transactions now (pools m)).
  set (sel := match shard_manager t0 with Some _ => _ | None => _ end). assert (pools_step (pools m) sel.2) as Hs.
  { unfold sel. pose proof (evict_step now (pools m)) as He. fold t0 in He. etransitivity; [exact He|].
    destruct (shard_manager t0), (local_shard_id m); first [apply take_from_shard_step | apply select_step]. }
  destruct sel as [txs t]. cbn [snd] in Hs.
  pose proof (assemble_ok cpu buffer now wall StreamC 4 txs t m Hm Hs) as Ha.
  by destruct (assemble _ _ _ _ _ _ _ _ _) as [[[h txs']|] m1].
Qed.

Lemma add_block_ok fuel cpu buffer now b skip c :
  chain_ok c → chain_ok (add_block_impl fuel cpu buffer now b skip c).2.
Proof. exact (do_op_ok fuel cpu buffer c (OpAdd now b skip)). Qed.

Lemma process_submission_ok fuel cpu buffer now wall sub m :
  miner_ok m → miner_ok (process_submission fuel cpu buffer now wall sub m).2.
Proof.
  intros [Hc Hp Hf]. pose proof (process_submission_cases fuel cpu buffer now wall sub m) as Hcase. cbn zeta in Hcase.
  destruct (decide _).
  - pose proof (add_block_ok fuel cpu buffer wall (sub_block sub) true _ Hc) as Hc'.
    destruct (add_block_impl _ _ _ _ _ _ _) as [[[]|e] c']; cbn [snd] in Hc'; rewrite Hcase; clear Hcase.
    + cbn [snd]. set (m1 := set_pools _ m). destruct (commit_submission_spec now wall sub m1) as [(l' & _ & Hch) _ _ _ Ha Hok].
      split.
      * rewrite Hch. eapply (chain_ok_frame c'); [|done]. etransitivity; [apply pay_miner_index|]. done.
      * apply Hok. by destruct Hp.
      * rewrite Ha. unfold confirm. by destruct (_ !! _).
    + destruct (uncaught e); cbn [snd]; [split; [done|by destruct Hp|done]|].
      set (t1 := set_bc c' (pools m)). destruct (recover_spec now (transactions (sub_block sub)) t1) as [Hch _ _ _ _ _ _ Hok].
      split; cbn [pools allocator set_allocator set_pools]; [by rewrite Hch| |by rewrite release_free].
      apply Hok. by destruct Hp.
  - destruct Hcase as (a & -> & Ha). cbn [snd]. destruct (recover_spec now (transactions (sub_block sub)) (pools m)) as [Hch _ _ _ _ _ _ Hok].
    split; cbn [pools allocator set_allocator set_pools]; [by rewrite Hch|by apply Hok|].
    destruct Ha as [->| ->]; [by rewrite release_free|done].
Qed.

(** C11: Whatever is submitted, mined, processed and cleaned up, in any order:
    the block index of the chain stays consistent, the size counters of the pools
    are exact, the future queues and the in-flight set stay within their limits,
    and the free list of the number allocator stays empty ([release] drops a
    number; only a reset of the counter can issue it again).  The pools of the
    streams have no such bound: returned transactions exceed their caps. *)
Theorem mining_invariant fuel cpu buffer m ops :
  miner_ok m → miner_ok (foldl (do_miner_op fuel cpu buffer) m ops).
Proof.
  revert m. induction ops as [|op ops IH]; intros m Hm; [done|]. cbn [foldl]. apply IH. clear IH.
  destruct op; cbn [do_miner_op].
  - destruct Hm as [Hc Hp Hf]. split; [eapply chain_ok_frame; [apply do_pool_op_blocks|done]|by apply do_pool_op_ok|done].
  - by apply mine_stream_a_ok.
  - by apply mine_stream_b_ok.
  - by apply mine_stream_c_ok.
  - by apply process_submission_ok.
  - destruct Hm as [Hc Hp Hf]. split; [done..|]. unfold periodic_cleanup. cbn. by case_bool_decide.
  - by destruct Hm.
  - unfold sync_block_allocator_to_chain_height. destruct (_ <? _); [|done]. by destruct Hm.
  - by apply miner_ok_flags.
  - by apply miner_ok_flags.
  - by apply miner_ok_flags.
  - by apply miner_ok_flags.
Qed.

(** ** Rounds that lose transactions *)

(** A round that finds no parent has already taken its transactions: it
    neither mines them nor gives them back, and they stay marked as in flight. *)
Lemma parentless_round_loses_transactions cpu buffer now wall s diff txs t m :
  round_parents (chain t) = [] → assemble cpu buffer now wall s diff txs t m = (None, set_pools t m).
Proof. intros Hp. unfold assemble. by rewrite Hp. Qed.
End MinerTheorems.
