(* ===== verification/MinerReference.v ===== *)
(** * MinerReference: a node that mines

    A concrete mining manager over the chain of [ChainReference]; the theorems
    about pools and block production are applied to it. *)

From S2P Require Import Prelude Types Block Pow Error Ledger BlockIndex Execution Chain ChainAccounts ChainReference.
From S2P Require Import Economics Messaging Sharding ShardReference Ordering TxPool TxPoolTheorems NodeRegistry Miner MinerTheorems.

Module MinerReference.
Import BlockReference ChainReference ShardReference.
#[local] Existing Instance Reference.hex.
#[local] Existing Instance Reference.keccak.
#[local] Existing Instance PowReference.blake3.
#[local] Existing Instance BlockReference.crypto.
#[local] Existing Instance canonical_iter.
#[local] Existing Instance canonical_search.
#[local] Existing Instance ChainReference.evm.
#[local] Existing Instance ChainReference.block_codec.
#[local] Existing Instance ChainReference.hashes_codec.
#[local] Existing Instance ChainReference.receipt_codec.
#[local] Existing Instance ShardReference.message_codec.

(** A stable sort is an unstable one. *)
#[local] Instance stable_sort : UnstableSort.
Proof.
  refine {| sort_unstable_by_key A k l := sort_by_key k l |}.
  - intros A k l. apply sort_by_perm.
  - intros A k l. eapply StronglySorted_mono; [|apply sort_by_sorted].
    + intros x y Hxy. by apply Z.leb_le in Hxy.
    + intros x y. unfold key_leb. rewrite !Z.leb_le. lia.
    + intros x y z. unfold key_leb. rewrite !Z.leb_le. lia.
Defined.

Definition offer (fee : u128) (nonce : u64) : Transaction := rehash (tx_new alice bob 1 fee nonce).
Definition cheap : PooledTransaction := MkPooled (offer 5 0) 0.
Definition fair : PooledTransaction := MkPooled (offer 50 1) 0.
Definition rich : PooledTransaction := MkPooled (offer 500 2) 0.

Definition idle : TxPool := txpool_new start None true clock.
Definition filled : TxPool := set_stream StreamA (MkPool [cheap; rich; fair] 3) idle.

Lemma block_numbers_are_fresh_witness :
  (foldl do_alloc ([], allocator_new 7) [AReserve 0 StreamA; AReserve 1 StreamB; ARelease 7; AReserve 2 StreamA]).1 = [7; 8; 9].
Proof.
  pose proof (block_numbers_are_fresh 7 [AReserve 0 StreamA; AReserve 1 StreamB; ARelease 7; AReserve 2 StreamA]
    ltac:(lia) ltac:(vm_compute; discriminate)) as Hn.
  destruct (foldl _ _ _) as [issued a]. cbn [fst]. rewrite (proj1 Hn). reflexivity.
Defined.

Lemma submission_outcome_witness :
  (pool_add_transaction 0 clock (offer 21000000000000000 0) idle).1 = Ok tt.
Proof.
  pose proof (submission_outcome 0 clock (offer 21000000000000000 0) idle eq_refl) as Ho.
  destruct (pool_add_transaction 0 clock (offer 21000000000000000 0) idle) as [r t']. destruct Ho as [[_ Ha] _].
  apply Ha. split; [apply not_elem_of_empty|]. split; [eexists; split; [vm_compute; reflexivity|vm_compute; reflexivity]|].
  left. vm_compute. reflexivity.
Defined.

Lemma drain_spec_witness : ∃ ps dropped, (drain 0 StreamA filled).1 = p_tx <$> ps ∧
  [cheap; rich; fair] ≡ₚ ps ++ dropped ++ entries (stream_pool StreamA (drain 0 StreamA filled).2).
Proof.
  pose proof (drain_spec 0 StreamA filled eq_refl ltac:(vm_compute; discriminate)) as Hd.
  destruct (drain 0 StreamA filled) as [txs t']. destruct Hd as (ps & dropped & Ht & Hp & _).
  exists ps, dropped. split; [exact Ht|exact Hp].
Defined.

Lemma filled_clear : clear_way 0 [rich; fair; cheap] filled.
Proof.
  split.
  - repeat (apply Forall_cons; split; [vm_compute; reflexivity|]). apply Forall_nil. exact I.
  - apply (bool_decide_unpack _). vm_compute. exact I.
  - repeat (apply Forall_cons; split; [apply not_elem_of_empty|]). apply Forall_nil. exact I.
  - vm_compute. discriminate.
Qed.
Lemma filled_sorted :
  sort_unstable_by_key (λ p, - fee (p_tx p)) (entries (stream_pool StreamA filled)) = rich :: [fair; cheap].
Proof. vm_compute. reflexivity. Qed.
Lemma selection_takes_lowest_fees_witness :
  (drain 0 StreamA filled).1 = [p_tx rich; p_tx cheap; p_tx fair].
Proof.
  exact (proj1 (selection_takes_lowest_fees 0 StreamA filled rich [fair; cheap] filled_sorted filled_clear eq_refl)).
Defined.

(** The miner of the first block. *)
Definition miner : Miner := MkMiner idle (allocator_new 1) bob None None None true false false 9 5 0.
Definition first_block : BlockSubmission := MkSubmission genesis_block StreamA 0.
Lemma first_presentable : presentable cpu [] first_block start.
Proof. split; [reflexivity|]. split; [vm_compute; discriminate|reflexivity]. Qed.
Lemma first_added :
  add_block_impl 5 cpu [] clock genesis_block true start = (Ok tt, (add_block_impl 5 cpu [] clock genesis_block true start).2).
Proof.
  assert (fst (add_block_impl 5 cpu [] clock genesis_block true start) = Ok tt) as Hr by (vm_compute; reflexivity).
  by destruct (add_block_impl 5 cpu [] clock genesis_block true start) as [r c']; cbn in *; subst r.
Qed.

Lemma only_the_miner_credits_the_reward_witness :
  (view (ledger (chain (pools (process_submission 5 cpu [] 0 clock first_block miner).2))) bob).1
  = sat_add128 (view (ledger (add_block_impl 5 cpu [] clock genesis_block true start).2) bob).1
      (total_miner_reward genesis_block 0 StreamA).
Proof.
  rewrite (only_the_miner_credits_the_reward 5 cpu [] 0 clock first_block miner _ start_plain genesis_typed eq_refl
    ltac:(vm_compute; discriminate) first_presentable first_added bob eq_refl).
  rewrite decide_True by reflexivity. reflexivity.
Defined.

Lemma miner_ready : miner_ok miner.
Proof.
  split; [|by apply (pool_invariant_start start None true clock)|reflexivity].
  refine (chain_ok_frame new start _ (proj1 new_ok)). split; reflexivity.
Qed.
Lemma mining_invariant_witness :
  chain_ok (chain (pools (foldl (do_miner_op 5 cpu []) miner [MStart; MProcess 0 clock first_block; MCleanup 9]))).
Proof. exact (mo_chain _ (mining_invariant 5 cpu [] miner _ miner_ready)). Defined.
(** A block with an ECDSA-signed transaction of gas limit 0 makes the chain panic
    when it checks the signature.  The task that processes mined blocks ends
    there: the number stays reserved, the transaction stays in flight and in no
    pool, and the block that is next in the channel is never looked at. *)
Definition zero_gas_block : BlockSubmission :=
  MkSubmission (MkBlock genesis_header [ecdsa_transfer 0] hash_zero None) StreamA 0.
Definition busy_miner : Miner :=
  set_allocator (reserve 0 StreamA (allocator_new 0)).2
    (set_pools (set_in_flight {[tx_hash (ecdsa_transfer 0)]} idle) miner).
#[local] Instance two_blocks_codec : Codec Block := table_codec [genesis_block; sub_block zero_gas_block].
Theorem zero_gas_block_ends_processing :
  let '(r, m') := process_blocks 5 cpu [] [(0, clock, zero_gas_block); (0, clock, first_block)] busy_miner in
  r = Err (Panic "signature verification") ∧
  is_Some (pending_reservations (allocator m') !! 0) ∧
  tx_hash (ecdsa_transfer 0) ∈ in_flight_txs (pools m') ∧ entries (tx_pool (pools m')) = [] ∧
  blocks (blocks_data (chain (pools m'))) = [].
Proof.
  vm_compute. split; [reflexivity|]. split; [by eexists|]. split; [|by split].
  apply (bool_decide_unpack _). vm_compute. exact I.
Qed.
End MinerReference.
