(* ===== verification/Multisig.v ===== *)
(** * Multisig: multi-signature payloads

    Models [irondag-blockchain/src/account_abstraction/multisig.rs]: the collection of
    signatures for a payload of a multi-signature wallet, their validation, and
    the manager of pending payloads. *)

From S2P Require Import Prelude Types Block.

Record MultiSigSignature := MkMultiSig { ms_signer : Address; ms_signature : list u8; ms_public_key : list u8 }.

Record MultiSigTransaction := MkMultiSigTx {
  mt_wallet : Address;
  mt_transaction : Transaction;
  mt_signatures : list MultiSigSignature;
  mt_threshold : u8;
  expected_signers : list Address }.

Inductive MultiSigValidationResult :=
| Valid
| InsufficientSignatures (required provided : u8)
| DuplicateSigner (a : Address)
| UnknownSigner (a : Address)
| InvalidSignature (a : Address).

Definition multisig_new (wallet : Address) (t : Transaction) (signers : list Address) (threshold : u8) :
    result string MultiSigTransaction :=
  _ ← ensure (negb (threshold =? 0)) "Threshold cannot be zero";
  _ ← ensure (threshold <=? as_u8 (Z.of_nat (length signers))) "Threshold cannot exceed number of signers";
  _ ← ensure (negb (bool_decide (signers = []))) "Expected signers list cannot be empty";
  Ok (MkMultiSigTx wallet t [] threshold signers).

Definition signed_by (m : MultiSigTransaction) : list Address := ms_signer <$> mt_signatures m.
Definition signature_count (m : MultiSigTransaction) : nat := length (mt_signatures m).
Definition pending_signers (m : MultiSigTransaction) : list Address :=
  filter (λ a, a ∉ signed_by m) (expected_signers m).

Definition add_signature (s : MultiSigSignature) (m : MultiSigTransaction) : result string MultiSigTransaction :=
  _ ← ensure (bool_decide (ms_signer s ∈ expected_signers m)) "Signer is not in expected signers list";
  _ ← ensure (negb (bool_decide (ms_signer s ∈ signed_by m))) "Duplicate signature from signer";
  Ok (MkMultiSigTx (mt_wallet m) (mt_transaction m) (mt_signatures m ++ [s]) (mt_threshold m) (expected_signers m)).

(** The first signer that occurs twice. *)
Fixpoint first_duplicate (seen : gset Address) (l : list Address) : option Address :=
  match l with
  | [] => None
  | a :: l' => if decide (a ∈ seen) then Some a else first_duplicate ({[a]} ∪ seen) l'
  end.

Section Validation.
Context `{Crypto}.

Definition verify_ed25519_signature (message : Hash) (sig key : list u8) : bool :=
  (length key =? 32)%nat && ed25519_key_ok key && (length sig =? 64)%nat
  && ed25519_verify_strict key (hash_bytes message) sig.

Definition signature_good (m : MultiSigTransaction) (s : MultiSigSignature) : bool :=
  negb (bool_decide (ms_signature s = []))
  && verify_ed25519_signature (tx_hash (mt_transaction m)) (ms_signature s) (ms_public_key s).

Definition multisig_validate (m : MultiSigTransaction) : MultiSigValidationResult :=
  if Z.of_nat (length (mt_signatures m)) <? mt_threshold m
  then InsufficientSignatures (mt_threshold m) (as_u8 (Z.of_nat (length (mt_signatures m))))
  else
    match first_duplicate ∅ (signed_by m) with
    | Some a => DuplicateSigner a
    | None =>
        match List.find (λ a, negb (bool_decide (a ∈ expected_signers m))) (signed_by m) with
        | Some a => UnknownSigner a
        | None =>
            match List.find (λ s, negb (signature_good m s)) (mt_signatures m) with
            | Some s => InvalidSignature (ms_signer s)
            | None => Valid
            end
        end
    end.

Definition multisig_is_ready (m : MultiSigTransaction) : bool :=
  match multisig_validate m with Valid => true | _ => false end.
End Validation.

(** ** Pending payloads *)

Abbreviation MultiSigManager := (gmap Address (list MultiSigTransaction)).

Definition add_pending_transaction (tx : MultiSigTransaction) (m : MultiSigManager) : MultiSigManager :=
  <[mt_wallet tx := default [] (m !! mt_wallet tx) ++ [tx]]> m.
Definition get_pending_transactions (m : MultiSigManager) (w : Address) : list MultiSigTransaction := default [] (m !! w).

Definition is_payload (h : Hash) (tx : MultiSigTransaction) : bool := bool_decide (tx_hash (mt_transaction tx) = h).
(** [iter_mut().find(..)]: the first payload with the hash. *)
Fixpoint update_first (h : Hash) (f : MultiSigTransaction → result string MultiSigTransaction)
    (l : list MultiSigTransaction) : result string (list MultiSigTransaction) :=
  match l with
  | [] => Err "Transaction not found"
  | tx :: l' =>
      if is_payload h tx then tx' ← f tx; Ok (tx' :: l')
      else l'' ← update_first h f l'; Ok (tx :: l'')
  end.
Definition add_signature_to_pending (w : Address) (h : Hash) (s : MultiSigSignature) (m : MultiSigManager) :
    result string MultiSigManager :=
  txs ← from_option Ok (Err "No pending transactions for wallet") (m !! w);
  txs' ← update_first h (add_signature s) txs;
  Ok (<[w := txs']> m).

Definition remove_completed (w : Address) (h : Hash) (m : MultiSigManager) : MultiSigManager :=
  match m !! w with
  | Some txs => <[w := List.filter (λ tx, negb (is_payload h tx)) txs]> m
  | None => m
  end.
Definition get_all_pending `{HashIter} (m : MultiSigManager) : list MultiSigTransaction :=
  concat ((λ kv, kv.2) <$> hm_iter m).

(** ** What validation accepts *)

Lemma first_duplicate_spec seen l : first_duplicate seen l = None ↔ NoDup l ∧ ∀ a, a ∈ l → a ∉ seen.
Proof.
  revert seen. induction l as [|a l IH]; intros seen; cbn [first_duplicate].
  - split; [|done]. intros _. split; [constructor|]. intros a Ha. by apply not_elem_of_nil in Ha.
  - destruct (decide (a ∈ seen)) as [Hs|Hs].
    + split; [done|]. intros [_ Hn]. destruct (Hn a); [left|done].
    + rewrite IH, NoDup_cons. set_solver.
Qed.
Lemma find_none {A} (f : A → bool) l : List.find f l = None ↔ Forall (λ x, f x = false) l.
Proof.
  rewrite Forall_forall. split.
  - intros Hn x Hx. apply (List.find_none _ _ Hn). by apply list_elem_of_In.
  - intros Hf. destruct (List.find f l) as [x|] eqn:Hx; [|done]. apply List.find_some in Hx as [Hin Ht].
    rewrite Hf in Ht; [done|]. by apply list_elem_of_In.
Qed.

(** What a collected payload has: every signer expected, and none twice. *)
Definition collected (m : MultiSigTransaction) : Prop := NoDup (signed_by m) ∧ signed_by m ⊆ expected_signers m.

Lemma add_signature_collected s m m' : add_signature s m = Ok m' → collected m → collected m'.
Proof.
  unfold add_signature. intros Ha [Hn Hs]. case_ok. bool_to_prop.
  unfold collected, signed_by in *. cbn [mt_signatures expected_signers]. rewrite fmap_app. split.
  - apply NoDup_app. split_and!; [done| |apply NoDup_singleton]. intros a Ha ->%list_elem_of_singleton. done.
  - intros a [Ha|Ha]%elem_of_app; [by apply Hs|]. apply list_elem_of_singleton in Ha as ->. done.
Qed.

(** Every state of a manager, whatever payloads are created, added, signed
    and removed. *)
Inductive MultisigOp :=
| AddPending (wallet : Address) (t : Transaction) (signers : list Address) (threshold : u8)
| SignPending (wallet : Address) (h : Hash) (s : MultiSigSignature)
| RemoveDone (wallet : Address) (h : Hash).
Definition do_multisig_op (m : MultiSigManager) (op : MultisigOp) : MultiSigManager :=
  match op with
  | AddPending w t signers threshold =>
      match multisig_new w t signers threshold with Ok tx => add_pending_transaction tx m | Err _ => m end
  | SignPending w h s => match add_signature_to_pending w h s m with Ok m' => m' | Err _ => m end
  | RemoveDone w h => remove_completed w h m
  end.

Definition multisig_ok (m : MultiSigManager) : Prop :=
  map_Forall (λ w txs, Forall (λ tx, mt_wallet tx = w ∧ collected tx ∧ mt_threshold tx ≠ 0) txs) m.

Lemma update_first_forall (P : MultiSigTransaction → Prop) h f l l' :
  (∀ tx tx', f tx = Ok tx' → P tx → P tx') → update_first h f l = Ok l' → Forall P l → Forall P l'.
Proof.
  intros Hf. revert l'. induction l as [|tx l IH]; intros l' Hu Hl; cbn in Hu; [done|].
  apply Forall_cons in Hl as [Hx Hl]. destruct (is_payload h tx); case_ok; constructor; eauto.
Qed.

Lemma do_multisig_op_ok m op : multisig_ok m → multisig_ok (do_multisig_op m op).
Proof.
  intros Hm. destruct op as [w t l n|w h s|w h]; cbn [do_multisig_op].
  - destruct (multisig_new w t l n) as [tx|] eqn:Hx; [|done]. unfold multisig_new in Hx. case_ok. bool_to_prop.
    unfold add_pending_transaction. cbn [mt_wallet]. apply map_Forall_insert_2; [|done]. apply Forall_app. split.
    + destruct (m !! w) as [txs|] eqn:Hw; cbn; [by apply (Hm w)|constructor].
    + constructor; [|constructor]. split; [done|]. split; [split; [constructor|intros a Ha; by apply not_elem_of_nil in Ha]|].
      cbn. lia.
  - destruct (add_signature_to_pending w h s m) as [m'|] eqn:Hx; [|done]. unfold add_signature_to_pending in Hx.
    destruct (m !! w) as [txs|] eqn:Hw; cbn in Hx; [|done]. case_ok. apply map_Forall_insert_2; [|done].
    eapply update_first_forall; [|eassumption|by apply (Hm w)]. intros tx tx' Ha (Hwx & Hc & Ht).
    pose proof (add_signature_collected _ _ _ Ha Hc) as Hc'. unfold add_signature in Ha. case_ok. done.
  - unfold remove_completed. destruct (m !! w) as [txs|] eqn:Hw; [|done]. apply map_Forall_insert_2; [|done].
    apply Forall_forall. intros tx Hx. apply list_elem_of_In, List.filter_In in Hx as [Hx _].
    pose proof (Hm w txs Hw) as Hf. rewrite Forall_forall in Hf. apply Hf. by apply list_elem_of_In.
Qed.

(** Whatever is created, signed and removed: pending payloads are filed under
    their wallet, need at least one signature, and hold only signatures of
    distinct expected signers. *)
Theorem multisig_manager_invariant ops : multisig_ok (foldl do_multisig_op ∅ ops).
Proof.
  assert (multisig_ok ∅) as Hm by apply map_Forall_empty. revert Hm. generalize (∅ : MultiSigManager).
  induction ops as [|op ops IH]; intros m Hm; [done|]. by apply IH, do_multisig_op_ok.
Qed.

Section MultisigTheorems.
Context `{Crypto}.

(** Validation succeeds exactly when there are enough signatures, of distinct
    expected signers, and each of them verifies under the key it carries. *)
Theorem multisig_validate_spec m :
  multisig_validate m = Valid ↔
    mt_threshold m <= Z.of_nat (length (mt_signatures m)) ∧ collected m ∧
    Forall (λ s, signature_good m s = true) (mt_signatures m).
Proof.
  unfold multisig_validate, collected. destruct (_ <? _) eqn:Ht; bool_to_prop.
  { split; [done|]. intros (Hle & _). lia. }
  pose proof (first_duplicate_spec ∅ (signed_by m)) as Hd.
  destruct (first_duplicate ∅ (signed_by m)) as [a|].
  { split; [done|]. intros (_ & [Hn _] & _). destruct Hd as [_ Hd]. discriminate Hd. split; [done|]. set_solver. }
  destruct (proj1 Hd eq_refl) as [Hn _]. clear Hd.
  pose proof (find_none (λ a, negb (bool_decide (a ∈ expected_signers m))) (signed_by m)) as Hu.
  destruct (List.find _ (signed_by m)) as [a|].
  { split; [done|]. intros (_ & [_ Hs] & _). destruct Hu as [_ Hu]. discriminate Hu. apply Forall_forall. intros x Hx.
    rewrite bool_decide_eq_true_2; [done|]. by apply Hs. }
  pose proof (proj1 Hu eq_refl) as Hs. clear Hu. rewrite Forall_forall in Hs.
  assert (signed_by m ⊆ expected_signers m) as Hsub.
  { intros x Hx. specialize (Hs x Hx). bool_to_prop. by destruct (decide (x ∈ expected_signers m)). }
  pose proof (find_none (λ s, negb (signature_good m s)) (mt_signatures m)) as Hg.
  destruct (List.find _ (mt_signatures m)) as [s|].
  { split; [done|]. intros (_ & _ & Hf). destruct Hg as [_ Hg]. discriminate Hg. eapply Forall_impl; [exact Hf|].
    cbn. intros x ->. done. }
  split; [|done]. intros _. split_and!; [lia|done..|]. eapply Forall_impl; [by apply Hg|]. cbn. intros x.
  by destruct (signature_good m x).
Qed.

(** The payload with a signature for each of [signers], all made with the
    one key [sk]. *)
Definition forge (sk : list u8) (m : MultiSigTransaction) (signers : list Address) : MultiSigTransaction :=
  MkMultiSigTx (mt_wallet m) (mt_transaction m)
    ((λ a, MkMultiSig a (ed25519_sign sk (hash_bytes (tx_hash (mt_transaction m)))) (ed25519_public sk)) <$> signers)
    (mt_threshold m) (expected_signers m).

(** The key a signature carries is never compared with its signer: whoever
    holds any key completes any payload alone. *)
Theorem multisig_needs_no_signer sk m :
  (∀ x, ed25519_verify_strict (ed25519_public sk) x (ed25519_sign sk x) = true) →
  NoDup (expected_signers m) → mt_threshold m <= Z.of_nat (length (expected_signers m)) →
  multisig_validate (forge sk m (expected_signers m)) = Valid.
Proof.
  intros Hv Hn Ht. apply multisig_validate_spec. unfold collected, signed_by. cbn [forge mt_signatures mt_threshold expected_signers].
  rewrite length_fmap, <- list_fmap_compose. split_and!; [done| | |].
  - by rewrite list_fmap_id.
  - by rewrite list_fmap_id.
  - apply Forall_fmap, Forall_forall. intros a _. cbn. unfold signature_good, verify_ed25519_signature.
    cbn [ms_signature ms_public_key mt_transaction]. rewrite Hv.
    destruct (ed25519_correct sk (hash_bytes (tx_hash (mt_transaction m)))) as (-> & _ & _).
    pose proof (ed25519_sign_length sk (hash_bytes (tx_hash (mt_transaction m)))) as Hl. rewrite Hl, ed25519_public_length.
    by destruct (ed25519_sign sk _).
Qed.
End MultisigTheorems.
