(* ===== verification/Recovery.v ===== *)
(** * Recovery: social recovery of wallets

    Models [irondag-blockchain/src/account_abstraction/social_recovery.rs]: recovery
    requests with guardian approvals and a time delay, and their manager.
    Recovering a public key from a signature is [k256_recover]. *)

From S2P Require Import Prelude Types Block.

Inductive RecoveryStatus := Pending | Approved | Ready | Completed | Cancelled.
#[global] Instance RecoveryStatus_eq_dec : EqDecision RecoveryStatus.
Proof. solve_decision. Defined.

Record SocialRecoveryRequest := MkRequest {
  rr_wallet : Address;
  rr_new_owner : Address;
  rr_guardians : list Address;
  rr_threshold : u8;
  rr_approvals : gmap Address u64;
  rr_initiated_at : u64;
  rr_time_delay : u64;
  rr_status : RecoveryStatus }.

Definition request_new (wallet new_owner : Address) (guardians : list Address) (threshold : u8) (delay now : u64) :
    SocialRecoveryRequest :=
  MkRequest wallet new_owner guardians threshold ∅ now delay Pending.
Definition set_request_status (s : RecoveryStatus) (r : SocialRecoveryRequest) : SocialRecoveryRequest :=
  MkRequest (rr_wallet r) (rr_new_owner r) (rr_guardians r) (rr_threshold r) (rr_approvals r) (rr_initiated_at r)
    (rr_time_delay r) s.
Definition set_approvals (a : gmap Address u64) (r : SocialRecoveryRequest) : SocialRecoveryRequest :=
  MkRequest (rr_wallet r) (rr_new_owner r) (rr_guardians r) (rr_threshold r) a (rr_initiated_at r)
    (rr_time_delay r) (rr_status r).

Definition approval_count (r : SocialRecoveryRequest) : nat := size (rr_approvals r).
Definition threshold_met (r : SocialRecoveryRequest) : bool := rr_threshold r <=? Z.of_nat (approval_count r).

Definition request_is_ready (now : u64) (r : SocialRecoveryRequest) : bool :=
  match rr_status r with
  | Approved => rr_time_delay r <=? sat_sub now (rr_initiated_at r)
  | Ready => true
  | _ => false
  end.
Definition update_status (now : u64) (r : SocialRecoveryRequest) : SocialRecoveryRequest :=
  if bool_decide (rr_status r = Approved) && request_is_ready now r then set_request_status Ready r else r.
Definition request_cancel : SocialRecoveryRequest → SocialRecoveryRequest := set_request_status Cancelled.

Section Recovery.
Context `{Keccak, Crypto}.

(** [if v >= 27 { v - 27 } else { v }]; [RecoveryId::try_from] accepts 0 to 3. *)
Definition recovery_id (v : u8) : option u8 :=
  let id := if 27 <=? v then v - 27 else v in
  if id <=? 3 then Some id else None.
Definition recover_guardian (message_hash : Hash) (r s : list u8) (v : u8) : option Address :=
  id ← recovery_id v;
  key ← k256_recover (hash_bytes message_hash) (r ++ s) id;
  match key with
  | 4 :: point => if (length key =? 65)%nat then Some (derive_eth_address point) else None
  | _ => None
  end.

Definition approval_message (r : SocialRecoveryRequest) (timestamp : u64) : list u8 :=
  bytes_of_string "RECOVER:" ++ addr_bytes (rr_wallet r) ++ addr_bytes (rr_new_owner r) ++ to_le_bytes 8 timestamp.

(** Who signed an approval, when anybody did. *)
Definition approval_signer (r : SocialRecoveryRequest) (timestamp : u64) (sig : list u8) : option Address :=
  recover_guardian (keccak256 (approval_message r timestamp)) (take 32 sig) (take 32 (drop 32 sig)) (nth 64 sig 0).

Definition add_approval (guardian : Address) (sig : list u8) (timestamp : u64) (r : SocialRecoveryRequest) :
    result string SocialRecoveryRequest :=
  _ ← ensure (bool_decide (guardian ∈ rr_guardians r)) "Guardian not in guardian list";
  _ ← ensure (negb (bool_decide (is_Some (rr_approvals r !! guardian)))) "Guardian already approved";
  _ ← ensure (bool_decide (rr_status r = Pending)) "Recovery is not in pending status";
  _ ← ensure (length sig =? 65)%nat "Invalid signature length";
  recovered ← from_option Ok (Err "Invalid signature: could not recover address") (approval_signer r timestamp sig);
  _ ← ensure (bool_decide (recovered = guardian)) "Signature does not match guardian address";
  let r := set_approvals (<[guardian := timestamp]> (rr_approvals r)) r in
  Ok (if threshold_met r then set_request_status Approved r else r).

(** ** The manager *)

Record SocialRecoveryManager := MkRecoveryManager { requests : gmap Address SocialRecoveryRequest; default_time_delay : u64 }.
Definition recovery_manager_new : SocialRecoveryManager := MkRecoveryManager ∅ (7 * 24 * 60 * 60).
Definition set_requests (f : gmap Address SocialRecoveryRequest → gmap Address SocialRecoveryRequest)
    (m : SocialRecoveryManager) : SocialRecoveryManager :=
  MkRecoveryManager (f (requests m)) (default_time_delay m).

Abbreviation RM := (SE SocialRecoveryManager string).

Definition initiate_recovery (wallet new_owner : Address) (guardians : list Address) (threshold : u8)
    (delay : option u64) (now : u64) : RM SocialRecoveryRequest :=
  m ← se_get;
  _ ← se_read (λ _, ensure (negb (bool_decide (is_Some (requests m !! wallet)))) "Recovery request already exists for this wallet");
  _ ← se_read (λ _, ensure (negb ((threshold =? 0) || (as_u8 (Z.of_nat (length guardians)) <? threshold)))
                 "Invalid recovery threshold");
  _ ← se_read (λ _, ensure (negb (bool_decide (guardians = []))) "Guardians list cannot be empty");
  let r := request_new wallet new_owner guardians threshold (default (default_time_delay m) delay) now in
  _ ← se_mod (set_requests <[wallet := r]>);
  mret r.

Definition find_request (wallet : Address) : RM SocialRecoveryRequest :=
  m ← se_get; se_read (λ _, from_option Ok (Err "Recovery request not found") (requests m !! wallet)).

Definition approve_recovery (wallet guardian : Address) (sig : list u8) (now : u64) : RM unit :=
  r ← find_request wallet;
  r' ← se_read (λ _, add_approval guardian sig now r);
  se_mod (set_requests <[wallet := update_status now r']>).

Definition get_recovery_status (m : SocialRecoveryManager) (wallet : Address) : option SocialRecoveryRequest :=
  requests m !! wallet.

Definition complete_recovery (wallet : Address) (now : u64) : RM Address :=
  r ← find_request wallet;
  let r := update_status now r in
  _ ← se_mod (set_requests <[wallet := r]>);
  _ ← se_read (λ _, ensure (bool_decide (rr_status r = Ready)) "Recovery is not ready to complete");
  _ ← se_mod (set_requests <[wallet := set_request_status Completed r]>);
  mret (rr_new_owner r).

Definition cancel_recovery (wallet : Address) : RM unit :=
  r ← find_request wallet; se_mod (set_requests <[wallet := request_cancel r]>).

Definition is_active (r : SocialRecoveryRequest) : bool :=
  match rr_status r with Pending | Approved | Ready => true | _ => false end.
Definition recovery_cleanup : SocialRecoveryManager → SocialRecoveryManager :=
  set_requests (filter (λ kv, is_active kv.2 = true)).
Definition update_all_statuses (now : u64) : SocialRecoveryManager → SocialRecoveryManager :=
  set_requests (fmap (update_status now)).
End Recovery.

(** ** Only approved recoveries complete *)

Section RecoveryTheorems.
Context `{Keccak, Crypto}.

(** What a request has at time [now]: approvals of guardians only, each with
    a signature over this recovery; enough of them once it is approved; and the
    delay has passed once it is ready. *)
Record request_ok (now : u64) (wallet : Address) (r : SocialRecoveryRequest) : Prop := {
  rq_wallet : rr_wallet r = wallet;
  rq_threshold : rr_threshold r ≠ 0;
  rq_signed : map_Forall (λ g t, g ∈ rr_guardians r ∧
    ∃ sig, length sig = 65%nat ∧ approval_signer r t sig = Some g) (rr_approvals r);
  rq_met : rr_status r ∈ [Approved; Ready; Completed] → threshold_met r = true;
  rq_delay : rr_status r ∈ [Ready; Completed] → rr_time_delay r <= sat_sub now (rr_initiated_at r) }.

Lemma request_later now now' w r : now <= now' → request_ok now w r → request_ok now' w r.
Proof.
  intros Hle [A B C D E]. split; try done. intros Hs. specialize (E Hs). unfold sat_sub in *. lia.
Qed.
Lemma update_status_ok now w r : request_ok now w r → request_ok now w (update_status now r).
Proof.
  intros [A B C D E]. unfold update_status. destruct (bool_decide _ && _) eqn:Hb; [|done].
  apply andb_true_iff in Hb as [Hs Hr]. bool_to_prop. unfold request_is_ready in Hr. rewrite Hs in Hr. bool_to_prop.
  split; try done. intros _. apply D. rewrite Hs. set_solver.
Qed.
Lemma add_approval_ok now w g sig t r r' : add_approval g sig t r = Ok r' → request_ok now w r → request_ok now w r'.
Proof.
  unfold add_approval. intros Ha [A B C D E]. case_ok. bool_to_prop.
  destruct (approval_signer r t sig) as [a|] eqn:Hsig; cbn in *; [|done]. case_ok.
  set (r1 := set_approvals _ r). assert (request_ok now (rr_wallet r) r1) as Hr1.
  { assert (rr_status r = Pending) as Hs by done. split; [done|done| | |]; cbn.
    - apply map_Forall_insert_2; [|done]. split; [done|]. exists sig. split; [by apply Nat.eqb_eq|done].
    - rewrite Hs. set_solver.
    - rewrite Hs. set_solver. }
  destruct (threshold_met r1) eqn:Hm; [|done]. destruct Hr1 as [A1 B1 C1 D1 E1]. split; try done. cbn. set_solver.
Qed.

Definition requests_ok (now : u64) (m : SocialRecoveryManager) : Prop := map_Forall (request_ok now) (requests m).

Inductive RecoveryOp :=
| Initiate (wallet new_owner : Address) (guardians : list Address) (threshold : u8) (delay : option u64)
| Approve (wallet guardian : Address) (sig : list u8)
| Complete (wallet : Address)
| Cancel (wallet : Address)
| CleanUp
| Refresh.

Definition do_recovery_op (m : SocialRecoveryManager) (step : u64 * RecoveryOp) : SocialRecoveryManager :=
  let now := step.1 in
  match step.2 with
  | Initiate w o gs n d => (initiate_recovery w o gs n d now m).2
  | Approve w g sig => (approve_recovery w g sig now m).2
  | Complete w => (complete_recovery w now m).2
  | Cancel w => (cancel_recovery w m).2
  | CleanUp => recovery_cleanup m
  | Refresh => update_all_statuses now m
  end.

Lemma find_request_run w m :
  find_request w m = (from_option Ok (Err "Recovery request not found") (requests m !! w), m).
Proof. unfold find_request. by rewrite se_get_step. Qed.

Lemma requests_ok_insert now w r m : requests_ok now m → request_ok now w r → requests_ok now (set_requests <[w := r]> m).
Proof. intros Hm Hr. by apply map_Forall_insert_2. Qed.

(** The operations of the manager, outcome by outcome. *)
Lemma approve_recovery_run w g sig now m :
  match requests m !! w with
  | Some r =>
      match add_approval g sig now r with
      | Ok r' => approve_recovery w g sig now m = (Ok tt, set_requests <[w := update_status now r']> m)
      | Err e => approve_recovery w g sig now m = (Err e, m)
      end
  | None => approve_recovery w g sig now m = (Err "Recovery request not found", m)
  end.
Proof.
  unfold approve_recovery. destruct (requests m !! w) as [r|] eqn:Hr.
  - assert (find_request w m = (Ok r, m)) as Hf by (by rewrite find_request_run, Hr).
    erewrite se_bind_step by exact Hf. destruct (add_approval g sig now r) eqn:Ha.
    + by erewrite se_read_step by reflexivity.
    + by erewrite se_read_fail by reflexivity.
  - erewrite se_bind_fail; [done|]. by rewrite find_request_run, Hr.
Qed.
Lemma complete_recovery_run w now m :
  match requests m !! w with
  | Some r =>
      let r1 := update_status now r in
      complete_recovery w now m
      = if bool_decide (rr_status r1 = Ready)
        then (Ok (rr_new_owner r), set_requests <[w := set_request_status Completed r1]> (set_requests <[w := r1]> m))
        else (Err "Recovery is not ready to complete", set_requests <[w := r1]> m)
  | None => complete_recovery w now m = (Err "Recovery request not found", m)
  end.
Proof.
  unfold complete_recovery. destruct (requests m !! w) as [r|] eqn:Hr.
  - assert (find_request w m = (Ok r, m)) as Hf by (by rewrite find_request_run, Hr).
    erewrite se_bind_step by exact Hf. cbv zeta. set (r1 := update_status now r). rewrite se_mod_step.
    assert (rr_new_owner r1 = rr_new_owner r) as Ho by (unfold r1, update_status; by destruct (_ && _)).
    case_bool_decide as Hs.
    + erewrite se_read_step by reflexivity. rewrite se_mod_step. by rewrite <- Ho.
    + by erewrite se_read_fail by reflexivity.
  - erewrite se_bind_fail; [done|]. by rewrite find_request_run, Hr.
Qed.

Lemma initiate_ok now w o gs n d m : requests_ok now m → requests_ok now (initiate_recovery w o gs n d now m).2.
Proof.
  intros Hm. unfold initiate_recovery. rewrite se_get_step.
  destruct (bool_decide (is_Some (requests m !! w))) eqn:Hw; [by erewrite se_read_fail by reflexivity|].
  erewrite se_read_step by reflexivity.
  destruct (negb ((n =? 0) || (as_u8 (Z.of_nat (length gs)) <? n))) eqn:Hn; [|by erewrite se_read_fail by reflexivity].
  erewrite se_read_step by reflexivity.
  destruct (bool_decide (gs = [])) eqn:Hg; [by erewrite se_read_fail by reflexivity|].
  erewrite se_read_step by reflexivity. cbv zeta. rewrite se_mod_step. cbn [mret SE_ret snd].
  apply requests_ok_insert; [done|]. apply negb_true_iff, orb_false_iff in Hn as [Hn _]. bool_to_prop.
  split; try done; cbn; set_solver.
Qed.

Lemma status_completed_ok now w r :
  rr_status r = Ready → request_ok now w r → request_ok now w (set_request_status Completed r).
Proof.
  intros Hs [A B C D E]. rewrite Hs in D, E. split; try done; cbn; intros _; [apply D|apply E]; set_solver.
Qed.

Lemma do_recovery_op_ok now step m :
  step.1 <= now → requests_ok step.1 m → requests_ok now (do_recovery_op m step).
Proof.
  destruct step as [t op]. cbn [fst]. intros Hle Hm. apply (map_Forall_impl (request_ok t)).
  2:{ intros w r. by apply request_later. }
  unfold do_recovery_op. cbn [fst snd]. destruct op as [w o gs n d|w g sig|w|w| |].
  - by apply initiate_ok.
  - pose proof (approve_recovery_run w g sig t m) as Hr. destruct (requests m !! w) as [r|] eqn:Hw; [|by rewrite Hr].
    destruct (add_approval g sig t r) as [r'|] eqn:Ha; rewrite Hr; [|done].
    apply requests_ok_insert; [done|]. apply update_status_ok. eapply add_approval_ok; [exact Ha|]. by apply (Hm w).
  - pose proof (complete_recovery_run w t m) as Hr. destruct (requests m !! w) as [r|] eqn:Hw; [|by rewrite Hr].
    cbv zeta in Hr. rewrite Hr. assert (request_ok t w (update_status t r)) as Hok by (apply update_status_ok; by apply (Hm w)).
    case_bool_decide; cbn [snd]; repeat apply requests_ok_insert; try done. by apply status_completed_ok.
  - unfold cancel_recovery. destruct (requests m !! w) as [r|] eqn:Hw.
    + assert (find_request w m = (Ok r, m)) as Hf by (by rewrite find_request_run, Hw).
      erewrite se_bind_step by exact Hf. apply requests_ok_insert; [done|].
      destruct (Hm w r Hw) as [A B C D E]. split; try done; cbn; set_solver.
    + erewrite se_bind_fail; [done|]. by rewrite find_request_run, Hw.
  - intros w r [Hw _]%map_lookup_filter_Some. by apply (Hm w).
  - intros w r' Hr. cbn in Hr. rewrite lookup_fmap in Hr. destruct (requests m !! w) as [r|] eqn:Hw; cbn in Hr; [|done].
    injection Hr as <-. apply update_status_ok. by apply (Hm w).
Qed.

(** Steps in the order of their times, none after [now]. *)
Fixpoint ordered (from now : u64) (steps : list (u64 * RecoveryOp)) : Prop :=
  match steps with
  | [] => from <= now
  | (t, _) :: steps' => from <= t ∧ ordered t now steps'
  end.

Lemma run_ok now steps t m : ordered t now steps → requests_ok t m → requests_ok now (foldl do_recovery_op m steps).
Proof.
  revert t m. induction steps as [|[t' op] steps IH]; intros t m Ho Hm; cbn [foldl ordered] in *.
  - eapply map_Forall_impl; [exact Hm|]. intros w r. by apply request_later.
  - destruct Ho as [Hle Ho]. apply (IH t'); [done|]. apply do_recovery_op_ok; [done|].
    eapply map_Forall_impl; [exact Hm|]. intros w r. by apply request_later.
Qed.

(** C30: When a recovery completes, at least its (positive) threshold of distinct
    guardians had each signed for this wallet and this new owner, and its delay
    has passed, whatever happened before. *)
Theorem recovery_is_authorized steps w now owner m' :
  ordered 0 now steps →
  let m := foldl do_recovery_op recovery_manager_new steps in
  complete_recovery w now m = (Ok owner, m') →
  ∃ r, get_recovery_status m w = Some r ∧ rr_new_owner r = owner ∧ rr_wallet r = w ∧
    rr_threshold r ≠ 0 ∧ rr_threshold r <= Z.of_nat (size (rr_approvals r)) ∧
    (∀ g t, rr_approvals r !! g = Some t →
       g ∈ rr_guardians r ∧ ∃ sig, length sig = 65%nat ∧ approval_signer r t sig = Some g) ∧
    rr_time_delay r <= sat_sub now (rr_initiated_at r).
Proof.
  intros Ho m Hc. assert (requests_ok now m) as Hm.
  { apply (run_ok now steps 0); [done|]. apply map_Forall_empty. }
  pose proof (complete_recovery_run w now m) as Hr. destruct (requests m !! w) as [r|] eqn:Hw; cbv zeta in Hr; [|congruence].
  rewrite Hc in Hr. case_bool_decide as Hs; [|done]. injection Hr as -> _.
  pose proof (Hm w r Hw) as Hok. pose proof (update_status_ok now w r Hok) as [_ _ _ D E]. rewrite Hs in D, E.
  assert (threshold_met r = true) as Ht.
  { assert (threshold_met (update_status now r) = threshold_met r) as <-; [unfold update_status; by destruct (_ && _)|].
    apply D. set_solver. }
  assert (rr_time_delay r <= sat_sub now (rr_initiated_at r)) as Hd.
  { unfold update_status in E. destruct (_ && _); apply E; set_solver. }
  destruct Hok as [A B C _ _]. exists r. unfold threshold_met in Ht. bool_to_prop. by split_and!.
Qed.
End RecoveryTheorems.
