(* ===== verification/Batch.v ===== *)
(** * Batch: several operations as one

    Models [irondag-blockchain/src/account_abstraction/batch.rs].  The two callbacks of
    [execute_batch] act on a world [W] the caller chooses; both are parameters.
    The signatures a batch may carry are never read by this code and are left
    out. *)

From S2P Require Import Prelude Types.

Inductive BatchStatus := BPending | BExecuting | BCompleted | BFailed | BCancelled.
#[global] Instance BatchStatus_eq_dec : EqDecision BatchStatus.
Proof. solve_decision. Defined.

Inductive BatchOperation :=
| BTransfer (to : Address) (value : u128)
| BContractCall (contract : Address) (data : list u8) (value : u128)
| BApproval (spender : Address) (amount : u128)
| BCustom (operation_type : string) (data : list u8).

Record BatchOperationResult := MkOpResult {
  operation_index : nat;
  success : bool;
  op_result : option (list u8);
  op_error : option string;
  op_gas_used : u64 }.

Record BatchTransaction := MkBatch {
  batch_id : Hash;
  b_wallet : Address;
  operations : list BatchOperation;
  b_nonce : u64;
  b_gas_limit : u64;
  b_gas_price : u128;
  b_created_at : u64;
  b_status : BatchStatus;
  b_results : list BatchOperationResult;
  b_gas_used : u64 }.

Definition set_outcome (s : BatchStatus) (rs : list BatchOperationResult) (gas : u64) (b : BatchTransaction) : BatchTransaction :=
  MkBatch (batch_id b) (b_wallet b) (operations b) (b_nonce b) (b_gas_limit b) (b_gas_price b) (b_created_at b) s rs gas.
Definition mark_executing (b : BatchTransaction) : BatchTransaction := set_outcome BExecuting (b_results b) (b_gas_used b) b.
Definition batch_completed : list BatchOperationResult → u64 → BatchTransaction → BatchTransaction := set_outcome BCompleted.
Definition batch_failed : list BatchOperationResult → u64 → BatchTransaction → BatchTransaction := set_outcome BFailed.
Definition batch_cancel (b : BatchTransaction) : BatchTransaction := set_outcome BCancelled (b_results b) (b_gas_used b) b.
Definition batch_is_ready (b : BatchTransaction) : bool := bool_decide (b_status b = BPending).
Definition operation_count (b : BatchTransaction) : nat := length (operations b).

Definition batch_validate (b : BatchTransaction) : result string unit :=
  _ ← ensure (negb (bool_decide (operations b = []))) "Batch must contain at least one operation";
  _ ← ensure (length (operations b) <=? 100)%nat "Batch cannot contain more than 100 operations";
  _ ← ensure (negb (b_gas_limit b =? 0)) "Gas limit must be greater than zero";
  ensure (negb (b_gas_price b =? 0)) "Gas price must be greater than zero".

Abbreviation BatchManager := (gmap Hash BatchTransaction).
Definition max_operations : nat := 100.

Section BatchId.
Context `{Keccak}.

Definition operation_bytes (idx : nat) (op : BatchOperation) : list u8 :=
  to_le_bytes 8 (Z.of_nat idx) ++
  match op with
  | BTransfer to value => bytes_of_string "transfer" ++ addr_bytes to ++ to_le_bytes 16 value
  | BContractCall contract data value =>
      bytes_of_string "contract_call" ++ addr_bytes contract ++ data ++ to_le_bytes 16 value
  | BApproval spender amount => bytes_of_string "approval" ++ addr_bytes spender ++ to_le_bytes 16 amount
  | BCustom type data => bytes_of_string "custom" ++ bytes_of_string type ++ data
  end.
Definition calculate_batch_id (wallet : Address) (ops : list BatchOperation) (nonce : u64) : Hash :=
  keccak256 (addr_bytes wallet ++ to_le_bytes 8 nonce ++ concat (imap operation_bytes ops)).

Definition batch_new (wallet : Address) (ops : list BatchOperation) (nonce gas_limit : u64) (gas_price : u128)
    (created_at : u64) : BatchTransaction :=
  MkBatch (calculate_batch_id wallet ops nonce) wallet ops nonce gas_limit gas_price created_at BPending [] 0.

(** ** The manager *)

Definition create_batch (wallet : Address) (ops : list BatchOperation) (nonce gas_limit : u64) (gas_price : u128)
    (created_at : u64) : SE BatchManager string BatchTransaction :=
  _ ← se_read (λ _, ensure (negb (bool_decide (ops = []))) "Batch must contain at least one operation");
  _ ← se_read (λ _, ensure (length ops <=? max_operations)%nat "Batch cannot contain more than 100 operations");
  let b := batch_new wallet ops nonce gas_limit gas_price created_at in
  _ ← se_read (λ _, batch_validate b);
  _ ← se_mod <[batch_id b := b]>;
  mret b.
End BatchId.

Definition get_wallet_batches `{HashIter} (m : BatchManager) (wallet : Address) : list BatchTransaction :=
  List.filter (λ b, bool_decide (b_wallet b = wallet)) ((λ kv, kv.2) <$> hm_iter m).
Definition batch_cleanup (m : BatchManager) : BatchManager :=
  filter (λ kv, b_status kv.2 = BPending ∨ b_status kv.2 = BExecuting) m.

Section Execute.
Context {W : Type} (execute_fn : BatchOperation → nat → W → result string BatchOperationResult * W).
Context (revert_fn : nat → BatchOperationResult → W → W).

(** [for (i, r) in results.iter().enumerate().rev() { if operations.get(i).is_some() { revert_fn(i, r) } }] *)
Definition revert_all (ops : list BatchOperation) (results : list BatchOperationResult) (w : W) : W :=
  foldl (λ w ir, if bool_decide (is_Some (ops !! ir.1)) then revert_fn ir.1 ir.2 w else w) w
    (reverse (imap pair results)).

Definition out_of_gas (idx : nat) (r : BatchOperationResult) : BatchOperationResult :=
  MkOpResult idx false None (Some "Gas limit exceeded") (op_gas_used r).
Definition op_refused (idx : nat) (e : string) : BatchOperationResult := MkOpResult idx false None (Some e) 0.

(** The loop: the results, the gas, and whether an operation failed. *)
Fixpoint execute_loop (gas_limit : u64) (idx : nat) (rest : list BatchOperation) (results : list BatchOperationResult)
    (total_gas : u64) (w : W) : list BatchOperationResult * u64 * option string * W :=
  match rest with
  | [] => (results, total_gas, None, w)
  | op :: rest' =>
      match execute_fn op idx w with
      | (Ok r, w') =>
          let total_gas := add64 total_gas (op_gas_used r) in
          if gas_limit <? total_gas then (results ++ [out_of_gas idx r], total_gas, Some "Batch gas limit exceeded", w')
          else if negb (success r) then (results ++ [r], total_gas, Some "Operation failed", w')
          else execute_loop gas_limit (S idx) rest' (results ++ [r]) total_gas w'
      | (Err e, w') => (results ++ [op_refused idx e], total_gas, Some "Operation failed", w')
      end
  end.

Definition execute_batch (id : Hash) (m : BatchManager) (w : W) :
    result string (list BatchOperationResult * u64) * BatchManager * W :=
  match m !! id with
  | None => (Err "Batch not found", m, w)
  | Some b =>
      if negb (batch_is_ready b) then (Err "Batch is not ready to execute", m, w) else
      let b := mark_executing b in
      match execute_loop (b_gas_limit b) 0 (operations b) [] 0 w with
      | (results, gas, None, w') => (Ok (results, gas), <[id := batch_completed results gas b]> m, w')
      | (results, gas, Some e, w') =>
          (Err e, <[id := batch_failed results gas b]> m, revert_all (operations b) results w')
      end
  end.
End Execute.

(** ** Gas estimation *)

Record GasEstimate := MkEstimate { total_gas : u64; base_gas : u64; operation_gas : u64; optimization_savings : u64 }.

Definition gas_of (op : BatchOperation) : u64 :=
  match op with
  | BTransfer _ _ => 21000
  | BContractCall _ data _ => add64 21000 (Z.of_nat (length data) * 16 mod (u64_max + 1))
  | BApproval _ _ => 46000
  | BCustom _ _ => 21000
  end.
Definition estimate_gas (ops : list BatchOperation) : result string GasEstimate :=
  if bool_decide (ops = []) then Err "Cannot estimate gas for empty batch" else
  let op_gas := foldl (λ n op, add64 n (gas_of op)) 0 ops in
  let savings := if (1 <? length ops)%nat then 21000 * (Z.of_nat (length ops) - 1) mod (u64_max + 1) else 0 in
  Ok (MkEstimate (sub64 (add64 21000 op_gas) savings) 21000 op_gas savings).

(** ** All or nothing *)

Section BatchTheorems.
Context {W : Type} (execute_fn : BatchOperation → nat → W → result string BatchOperationResult * W).
Context (revert_fn : nat → BatchOperationResult → W → W).

(** Running operations one after the other: what each gave, and the world. *)
Fixpoint run_ops (idx : nat) (ops : list BatchOperation) (w : W) : list (result string BatchOperationResult) * W :=
  match ops with
  | [] => ([], w)
  | op :: ops' =>
      let '(o, w1) := execute_fn op idx w in
      let '(os, w2) := run_ops (S idx) ops' w1 in (o :: os, w2)
  end.

(** The loop runs operations in their order up to the first that fails or
    passes the gas limit. *)
Lemma execute_loop_runs gas_limit idx rest results gas w :
  let '(results', gas', e, w') := execute_loop execute_fn gas_limit idx rest results gas w in
  ∃ done_, Forall (λ r, success r = true) done_ ∧
    match e with
    | None => results' = results ++ done_ ∧ run_ops idx rest w = (Ok <$> done_, w') ∧
        gas' = foldl (λ n r, add64 n (op_gas_used r)) gas done_ ∧ gas' <= Z.max gas gas_limit
    | Some _ => ∃ o r, results' = results ++ done_ ++ [r] ∧ success r = false ∧ (length done_ < length rest)%nat ∧
        run_ops idx (take (S (length done_)) rest) w = ((Ok <$> done_) ++ [o], w')
    end.
Proof.
  revert idx results gas w. induction rest as [|op rest IH]; intros idx results gas w; cbn [execute_loop].
  { exists []. split; [done|]. rewrite app_nil_r. cbn. split_and!; [done..|lia]. }
  assert (∀ o w1, execute_fn op idx w = (o, w1) → run_ops idx (take 1 (op :: rest)) w = ([o], w1)) as Hone.
  { intros o w1 Hx. cbn. rewrite Hx. by destruct rest. }
  destruct (execute_fn op idx w) as [[r|err] w1] eqn:Hx.
  2:{ exists []. split; [done|]. exists (Err err), (op_refused idx err). split_and!; [done..|cbn; lia|by apply Hone]. }
  destruct (gas_limit <? add64 gas (op_gas_used r)) eqn:Hgas.
  { exists []. split; [done|]. exists (Ok r), (out_of_gas idx r). split_and!; [done..|cbn; lia|by apply Hone]. }
  destruct (success r) eqn:Hs; cbn [negb].
  2:{ exists []. split; [done|]. exists (Ok r), r. split_and!; [done..|cbn; lia|by apply Hone]. }
  specialize (IH (S idx) (results ++ [r]) (add64 gas (op_gas_used r)) w1).
  destruct (execute_loop _ _ _ _ _ _ _) as [[[results' gas'] e] w']. destruct IH as (done_ & Hok & Hend).
  exists (r :: done_). split; [by constructor|]. destruct e.
  - destruct Hend as (o & r' & -> & Hf & Hl & Hrun). exists o, r'. rewrite <- app_assoc. cbn [length]. split_and!; [done..|lia|].
    change (take (S (S (length done_))) (op :: rest)) with (op :: take (S (length done_)) rest).
    cbn [run_ops]. by rewrite Hx, Hrun.
  - destruct Hend as (-> & Hrun & -> & Hmax). rewrite <- app_assoc. cbn [run_ops]. rewrite Hx, Hrun.
    bool_to_prop. split_and!; [done..|]. cbn [foldl]. lia.
Qed.

(** [revert_all] calls [revert_fn] once for every result, last first. *)
Definition revert_from (results : list BatchOperationResult) (w : W) : W :=
  foldl (λ w ir, revert_fn ir.1 ir.2 w) w (reverse (imap pair results)).
Lemma revert_all_every ops results w :
  (length results <= length ops)%nat → revert_all revert_fn ops results w = revert_from results w.
Proof.
  intros Hl. unfold revert_all, revert_from. assert (∀ ir, ir ∈ reverse (imap pair results) → (ir.1 < length ops)%nat) as Hin.
  { intros ir. rewrite elem_of_reverse. intros (i & r & -> & Hi%lookup_lt_Some)%elem_of_lookup_imap. cbn. lia. }
  revert w Hin. induction (reverse (imap pair results)) as [|ir l IH]; intros w Hin; [done|]. cbn [foldl].
  rewrite bool_decide_eq_true_2 by (apply lookup_lt_is_Some, Hin, elem_of_cons; by left).
  apply IH. intros x Hx. apply Hin, elem_of_cons. by right.
Qed.

(** Reverting an index undoes whatever the operation there did. *)
Definition undoes (ops : list BatchOperation) : Prop :=
  ∀ i op r w, ops !! i = Some op → revert_fn i r (execute_fn op i w).2 = w.

Lemma revert_from_snoc results r w :
  revert_from (results ++ [r]) w = revert_from results (revert_fn (length results) r w).
Proof. unfold revert_from. rewrite imap_app, reverse_app. cbn. by rewrite Nat.add_0_r. Qed.
Lemma run_ops_snoc idx ops op w :
  (run_ops idx (ops ++ [op]) w).2 = (execute_fn op (idx + length ops) (run_ops idx ops w).2).2.
Proof.
  revert idx w. induction ops as [|x ops IH]; intros idx w; cbn [app run_ops length].
  - rewrite Nat.add_0_r. cbn [snd]. by destruct (execute_fn op idx w) as [o w1].
  - destruct (execute_fn x idx w) as [o w1]. specialize (IH (S idx) w1). rewrite Nat.add_succ_comm in IH. cbn [snd] in *.
    destruct (run_ops (S idx) (ops ++ [op]) w1), (run_ops (S idx) ops w1). exact IH.
Qed.
Lemma reverts_to_start ops results w :
  undoes ops → (length results <= length ops)%nat →
  revert_from results (run_ops 0 (take (length results) ops) w).2 = w.
Proof.
  intros Hu. induction results as [|r results IH] using rev_ind; intros Hl; [done|].
  rewrite length_app in *. cbn [length] in *. rewrite Nat.add_1_r, revert_from_snoc in *.
  destruct (lookup_lt_is_Some_2 ops (length results)) as [op Hop]; [lia|].
  rewrite (take_S_r _ _ _ Hop), run_ops_snoc, length_take_le, Nat.add_0_l, (Hu _ _ _ _ Hop) by lia. apply IH. lia.
Qed.

End BatchTheorems.

(** ** Where it departs from its comments *)

Section BatchDefects.
Context `{Keccak}.

(** A batch is identified by wallet, operations and nonce only, and creating
    it once more overwrites it: a batch that was executed is pending again. *)
Theorem batch_can_run_again wallet ops nonce gas_limit price at_ m :
  ops ≠ [] → (length ops <= 100)%nat → gas_limit ≠ 0 → price ≠ 0 →
  let id := calculate_batch_id wallet ops nonce in
  let m' := (create_batch wallet ops nonce gas_limit price at_ m).2 in
  (create_batch wallet ops nonce gas_limit price at_ m).1 = Ok (batch_new wallet ops nonce gas_limit price at_) ∧
  batch_is_ready <$> m' !! id = Some true.
Proof.
  intros Ho Hl Hg Hp. cbv zeta.
  assert (create_batch wallet ops nonce gas_limit price at_ m
    = (Ok (batch_new wallet ops nonce gas_limit price at_),
       <[calculate_batch_id wallet ops nonce := batch_new wallet ops nonce gas_limit price at_]> m)) as ->.
  { unfold create_batch, max_operations. rewrite bool_decide_eq_false_2 by done. erewrite se_read_step by reflexivity.
    rewrite (proj2 (Nat.leb_le _ _) Hl). erewrite se_read_step by reflexivity. cbv zeta.
    erewrite se_read_step; [by rewrite se_mod_step|]. unfold batch_validate. cbn [operations batch_new b_gas_limit b_gas_price].
    rewrite bool_decide_eq_false_2 by done. rewrite (proj2 (Nat.leb_le _ _) Hl).
    rewrite (proj2 (Z.eqb_neq _ _) Hg), (proj2 (Z.eqb_neq _ _) Hp). done. }
  cbn [fst snd]. split; [done|]. by rewrite lookup_insert_eq.
Qed.
End BatchDefects.

(** An estimate never underflows and is at least the cost of one transfer
    with its overhead, as long as the sums fit 64 bits. *)
Lemma gas_of_range op :
  match op with BContractCall _ data _ => Z.of_nat (length data) <= 1000000000 | _ => True end →
  21000 <= gas_of op <= 21000000000.
Proof.
  destruct op; cbn [gas_of]; intros Hd; try lia. rewrite Z.mod_small by (unfold u64_max; lia).
  rewrite add64_small by (unfold u64_max; lia). lia.
Qed.
Theorem estimate_gas_bounds ops :
  ops ≠ [] → (length ops <= 100)%nat →
  Forall (λ op, match op with BContractCall _ data _ => Z.of_nat (length data) <= 1000000000 | _ => True end) ops →
  ∃ e, estimate_gas ops = Ok e ∧ 42000 <= total_gas e ∧
    total_gas e = base_gas e + operation_gas e - optimization_savings e.
Proof.
  intros Ho Hl Hf. unfold estimate_gas. rewrite bool_decide_eq_false_2 by done. cbv zeta.
  assert (foldl (λ n op, add64 n (gas_of op)) 0 ops = zsum gas_of ops) as ->.
  { assert (∀ acc, 0 <= acc <= 21000000000 * (100 - Z.of_nat (length ops)) →
      foldl (λ n op, add64 n (gas_of op)) acc ops = acc + zsum gas_of ops) as Hx; [|rewrite Hx; lia].
    clear Ho. induction ops as [|op ops IH]; intros acc Ha; cbn [foldl length] in *; [unfold zsum; cbn; lia|].
    apply Forall_cons in Hf as [Hop Hf]. apply gas_of_range in Hop. rewrite add64_small by (unfold u64_max; lia).
    rewrite IH by (done || lia). rewrite zsum_cons. lia. }
  assert (21000 * Z.of_nat (length ops) <= zsum gas_of ops <= 21000000000 * Z.of_nat (length ops)) as Hs.
  { clear Ho Hl. induction ops as [|op ops IH]; [unfold zsum; cbn; lia|]. apply Forall_cons in Hf as [Hop Hf].
    apply gas_of_range in Hop. specialize (IH Hf). rewrite zsum_cons. cbn [length]. lia. }
  assert (1 <= length ops)%nat by (destruct ops; [done|cbn; lia]).
  eexists. split; [done|]. cbn [total_gas base_gas operation_gas optimization_savings].
  rewrite add64_small by (unfold u64_max; lia). destruct (1 <? length ops)%nat eqn:Hone.
  - rewrite Z.mod_small by (unfold u64_max; lia). rewrite sub64_small by (unfold u64_max; lia). lia.
  - apply Nat.ltb_ge in Hone. rewrite sub64_small by (unfold u64_max; lia). lia.
Qed.
