(* ===== verification/WalletFactory.v ===== *)
(** * WalletFactory: deterministic wallet addresses

    Models [irondag-blockchain/src/account_abstraction/factory.rs]; the clock is an
    argument. *)

From S2P Require Import Prelude Types Wallet.

Section Factory.
Context `{Keccak}.

Definition kind_label (t : WalletType) : list u8 :=
  match t with
  | WtBasic => bytes_of_string "basic"
  | WtMultiSig _ _ => bytes_of_string "multisig"
  | WtSocialRecovery _ _ => bytes_of_string "social"
  | WtSpendingLimit _ => bytes_of_string "limit"
  | WtCombined _ _ _ _ _ => bytes_of_string "combined"
  end.

Definition wallet_preimage (owner : Address) (salt : u64) (t : WalletType) : list u8 :=
  [25; 1] ++ addr_bytes owner ++ to_le_bytes 8 salt ++ kind_label t.
Definition derive_wallet_address (owner : Address) (salt : u64) (t : WalletType) : Address :=
  MkAddress (drop 12 (hash_bytes (keccak256 (wallet_preimage owner salt t)))).

Definition create_basic_wallet (now : u64) (owner : Address) (salt : u64) : SmartContractWallet :=
  new_basic now (derive_wallet_address owner salt WtBasic) owner.
Definition create_multisig_wallet (now : u64) (owner : Address) (salt : u64) (signers : list Address) (threshold : u8) :
    result string SmartContractWallet :=
  new_multisig now (derive_wallet_address owner salt (WtMultiSig signers threshold)) owner signers threshold.
Definition create_social_recovery_wallet (now : u64) (owner : Address) (salt : u64) (guardians : list Address)
    (threshold : u8) (delay : u64) : result string SmartContractWallet :=
  new_social_recovery now (derive_wallet_address owner salt (WtSocialRecovery guardians threshold)) owner guardians
    threshold delay.
Definition create_spending_limit_wallet (now : u64) (owner : Address) (salt : u64) (daily weekly monthly : u128) :
    SmartContractWallet :=
  let limits := limits_new now daily weekly monthly in
  MkWallet (derive_wallet_address owner salt (WtSpendingLimit limits)) owner (WtSpendingLimit limits)
    (MkWalletConfig SingleSignature (Some limits) None) now 0.

(** Two inputs whose digests agree in the last 20 bytes. *)
Definition address_collision : Prop :=
  ∃ x y, x ≠ y ∧ drop 12 (hash_bytes (keccak256 x)) = drop 12 (hash_bytes (keccak256 y)).

(** A wallet address determines owner, salt and kind of the wallet, up to a
    collision of addresses -- and nothing else: signers, guardians, thresholds
    and limits do not enter it. *)
Theorem wallet_address_binding o1 o2 s1 s2 t1 t2 :
  address_wf o1 = true → address_wf o2 = true → in_u64 s1 → in_u64 s2 →
  derive_wallet_address o1 s1 t1 = derive_wallet_address o2 s2 t2 →
  (o1 = o2 ∧ s1 = s2 ∧ kind_label t1 = kind_label t2) ∨ address_collision.
Proof.
  intros Ho1 Ho2 Hs1 Hs2 [= Heq]. destruct (decide (wallet_preimage o1 s1 t1 = wallet_preimage o2 s2 t2)) as [Hp|Hp].
  - left. unfold wallet_preimage in Hp. apply app_inv_head in Hp.
    apply app_inj_1 in Hp as [Ha Hp]; [|by rewrite !address_wf_length].
    apply app_inj_1 in Hp as [Hs Hk].
    2:{ apply Nat2Z.inj. by rewrite !length_to_le_bytes. }
    split_and!; [by destruct o1, o2; cbn in *; subst| |done].
    apply (to_le_bytes_inj 8); [lia|unfold in_u64 in *; cbn; mlia|unfold in_u64 in *; cbn; mlia|done].
  - right. by exists (wallet_preimage o1 s1 t1), (wallet_preimage o2 s2 t2).
Qed.

(** With the owner and salt of an existing multi-signature wallet no second one
    can be registered, whatever its signers. *)
Theorem one_wallet_per_salt now (owner : Address) salt l1 l2 n1 n2 w1 w2 r r' :
  create_multisig_wallet now owner salt l1 n1 = Ok w1 → create_multisig_wallet now owner salt l2 n2 = Ok w2 →
  register_wallet r w1 = (r', Ok tt) → register_wallet r' w2 = (r', Err "Wallet address already registered").
Proof.
  unfold create_multisig_wallet, new_multisig. intros H1 H2 Hr. case_ok. unfold register_wallet in *. cbn [w_address] in *.
  change (derive_wallet_address owner salt (WtMultiSig l2 n2)) with (derive_wallet_address owner salt (WtMultiSig l1 n1)).
  destruct (wallets r !! _); [done|]. injection Hr as <-. cbn [wallets]. by rewrite lookup_insert_eq.
Qed.
End Factory.
