(* ===== verification/AccountReference.v ===== *)
(** * AccountReference: concrete payloads, recoveries and batches

    The theorems on account abstraction applied with the toy signatures of
    [BlockReference]. *)

From S2P Require Import Prelude Types Block Wallet Multisig Recovery Batch WalletFactory.

Module AccountReference.
Import BlockReference.
#[local] Existing Instance Reference.keccak.
#[local] Existing Instance BlockReference.crypto.

Definition carol : Address := MkAddress (replicate 20 3).
Definition payload : MultiSigTransaction := MkMultiSigTx carol transfer [] 2 [alice; bob].

(** Alice's key signs for Bob as well. *)
Lemma multisig_needs_no_signer_witness : multisig_validate (forge alice_key payload [alice; bob]) = Valid.
Proof.
  apply (multisig_needs_no_signer alice_key payload).
  - intros x. apply bool_decide_eq_true_2. reflexivity.
  - vm_compute. repeat constructor; set_solver.
  - vm_compute. discriminate.
Defined.

(** The guardian whose key the toy recovery yields. *)
Definition approval : list u8 := replicate 65 0.
Definition guardian : Address := derive_eth_address (replicate 64 0).
Definition history : list (u64 * RecoveryOp) :=
  [(10, Initiate carol bob [guardian; alice] 1 (Some 50)); (20, Approve carol guardian approval)].

Lemma recovery_is_authorized_witness :
  (complete_recovery carol 60 (foldl do_recovery_op recovery_manager_new history)).1 = Ok bob ∧
  ∃ r, get_recovery_status (foldl do_recovery_op recovery_manager_new history) carol = Some r ∧
    rr_threshold r <= Z.of_nat (size (rr_approvals r)).
Proof.
  assert ((complete_recovery carol 60 (foldl do_recovery_op recovery_manager_new history)).1 = Ok bob) as Hr
    by (vm_compute; reflexivity). split; [exact Hr|].
  destruct (complete_recovery carol 60 (foldl do_recovery_op recovery_manager_new history)) as [res m'] eqn:Hc.
  cbn [fst] in Hr. subst res.
  destruct (recovery_is_authorized history carol 60 bob m') as (r & Hg & _ & _ & _ & Hn & _).
  - vm_compute. repeat split; discriminate.
  - exact Hc.
  - exists r. split; [exact Hg|exact Hn].
Defined.

(** A ledger in which the second transfer is refused. *)
Definition run_op (op : BatchOperation) (i : nat) (w : list BatchOperation) :
    result string BatchOperationResult * list BatchOperation :=
  match op with
  | BTransfer _ _ => (Ok (MkOpResult i true None None 21000), op :: w)
  | _ => (Err "unsupported", op :: w)
  end.
Definition undo_op (i : nat) (r : BatchOperationResult) (w : list BatchOperation) : list BatchOperation := tail w.
Definition mixed : list BatchOperation := [BTransfer bob 5; BApproval carol 7].
Lemma run_undoes : undoes run_op undo_op mixed.
Proof. intros i op r w _. by destruct op. Qed.
Definition waiting : BatchManager := (create_batch alice mixed 0 100000 1 0 ∅).2.
End AccountReference.
