(* ===== verification/EvmParallel.v ===== *)
(** * EvmParallel: scheduling transactions in parallel batches

    Models [irondag-blockchain/src/evm/parallel.rs]: read and write sets, the dependency
    graph, its batches, and the two ways of executing them.  [ReadSet] and
    [WriteSet] have the same fields and are one record.  A missing entry, on
    which the code would panic, is [None]; so is a loop that runs out of fuel. *)

From S2P Require Import Prelude Types Block Float64.

Record AccessSet := MkAccess { accessed : gset Address; storage_keys : gmap Address (gset (list u8)) }.
Definition access_empty : AccessSet := MkAccess ∅ ∅.
Definition touch (a : Address) (s : AccessSet) : AccessSet := MkAccess (accessed s ∪ {[a]}) (storage_keys s).

Record TransactionDependency := MkDependency {
  dep_hash : Hash;
  read_set : AccessSet;
  write_set : AccessSet;
  depends_on : list Hash }.

Record DependencyGraph := MkGraph {
  g_transactions : list Transaction;
  dependencies : gmap Hash TransactionDependency;
  tx_index : gmap Hash nat }.

Definition graph_new (txs : list Transaction) : DependencyGraph :=
  MkGraph txs ∅ (foldl (λ m it, <[tx_hash it.2 := it.1]> m) ∅ (imap pair txs)).

Definition analyze_transaction (t : Transaction) : TransactionDependency :=
  let r := access_empty in
  let w := touch (from t) access_empty in
  let '(r, w) := if 0 <? value t then (touch (to t) r, touch (to t) w) else (r, w) in
  let '(r, w) :=
    if bool_decide (data t = []) then (r, w)
    else if bool_decide (to t = address_zero) then (r, touch (from t) w)
    else (touch (to t) r, touch (to t) w) in
  MkDependency (tx_hash t) r w [].

(** [for addr in a { if b.contains(addr) { return true } }], then the same for
    the keys of each address. *)
Definition overlap (a b : AccessSet) : bool :=
  negb (bool_decide (accessed a ∩ accessed b = ∅))
  || negb (bool_decide (map_Forall (λ addr keys, keys ∩ default ∅ (storage_keys b !! addr) = ∅) (storage_keys a))).
Definition has_read_write_conflict (r w : AccessSet) : bool := overlap r w.
Definition has_write_write_conflict (w1 w2 : AccessSet) : bool := overlap w1 w2.
Definition has_write_read_conflict (w r : AccessSet) : bool := has_read_write_conflict r w.

Definition conflicting (d1 d2 : TransactionDependency) : bool :=
  has_read_write_conflict (read_set d1) (write_set d2)
  || has_write_write_conflict (write_set d1) (write_set d2)
  || has_write_read_conflict (write_set d1) (read_set d2).

(** The earlier transactions a transaction conflicts with. *)
Fixpoint conflicts_with (ds : gmap Hash TransactionDependency) (h1 : Hash) (earlier : list Hash) : option (list Hash) :=
  match earlier with
  | [] => Some []
  | h2 :: rest =>
      d1 ← ds !! h1;
      d2 ← ds !! h2;
      deps ← conflicts_with ds h1 rest;
      Some (if conflicting d1 d2 then h2 :: deps else deps)
  end.
Definition set_depends (deps : list Hash) (d : TransactionDependency) : TransactionDependency :=
  MkDependency (dep_hash d) (read_set d) (write_set d) deps.
Fixpoint build_from (earlier rest : list Hash) (ds : gmap Hash TransactionDependency) :
    option (gmap Hash TransactionDependency) :=
  match rest with
  | [] => Some ds
  | h :: rest' =>
      deps ← conflicts_with ds h earlier;
      build_from (earlier ++ [h]) rest' (alter (set_depends deps) h ds)
  end.
Definition build_dependencies (g : DependencyGraph) : option DependencyGraph :=
  ds ← build_from [] (tx_hash <$> g_transactions g) (dependencies g);
  Some (MkGraph (g_transactions g) ds (tx_index g)).

Definition analyze (g : DependencyGraph) : option DependencyGraph :=
  build_dependencies
    (MkGraph (g_transactions g)
       (foldl (λ m t, <[tx_hash t := analyze_transaction t]> m) (dependencies g) (g_transactions g)) (tx_index g)).

Definition get_transaction (g : DependencyGraph) (h : Hash) : option Transaction := tx_index g !! h ≫= (g_transactions g !!.).
Definition get_dependency (g : DependencyGraph) (h : Hash) : option TransactionDependency := dependencies g !! h.

(** ** Batches *)

Fixpoint ready_batch (ds : gmap Hash TransactionDependency) (executed : gset Hash) (remaining : list Hash) :
    option (list Hash) :=
  match remaining with
  | [] => Some []
  | h :: rest =>
      batch ← ready_batch ds executed rest;
      if bool_decide (h ∈ executed) then Some batch else
      d ← ds !! h;
      Some (if forallb (λ x, bool_decide (x ∈ executed)) (depends_on d) then h :: batch else batch)
  end.

Fixpoint group_loop (fuel : nat) (ds : gmap Hash TransactionDependency) (executed : gset Hash) (remaining : list Hash) :
    option (list (list Hash)) :=
  match remaining with
  | [] => Some []
  | first :: _ =>
      match fuel with
      | O => None
      | S fuel' =>
          ready ← ready_batch ds executed remaining;
          let batch := match ready with [] => [first] | _ => ready end in
          let executed' := executed ∪ list_to_set batch in
          batches ← group_loop fuel' ds executed' (filter (λ h, h ∉ executed') remaining);
          Some (batch :: batches)
      end
  end.
Definition group_parallel_batches (g : DependencyGraph) : option (list (list Hash)) :=
  group_loop (length (g_transactions g)) (dependencies g) ∅ (tx_hash <$> g_transactions g).

(** ** Execution *)

Record ParallelExecutionResult := MkParallel {
  pr_hash : Hash;
  pr_success : bool;
  pr_gas_used : u64;
  pr_output : list u8;
  executed_in_parallel : bool }.
Record TaskResult := MkTask { task_success : bool; task_gas_used : u64; task_output : list u8 }.

Record ParallelEvmExecutor := MkParallelExecutor { enabled : bool; max_parallel : nat }.
Definition parallel_new : ParallelEvmExecutor := MkParallelExecutor true 100.

Section Executor.
Context {W : Type} (executor : Transaction → W → result string TaskResult * W).

Definition run_one (parallel : bool) (t : Transaction) (w : W) : ParallelExecutionResult * W :=
  match executor t w with
  | (Ok r, w') => (MkParallel (tx_hash t) (task_success r) (task_gas_used r) (task_output r) parallel, w')
  | (Err _, w') => (MkParallel (tx_hash t) false 0 [] parallel, w')
  end.

Definition run_list (parallel : bool) (txs : list Transaction) (w : W) : list ParallelExecutionResult * W :=
  foldl (λ '(rs, w) t, let '(r, w') := run_one parallel t w in (rs ++ [r], w')) ([], w) txs.

Definition batch_transactions (g : DependencyGraph) (batch : list Hash) : list Transaction := omap (get_transaction g) batch.

Definition plan (txs : list Transaction) : option (DependencyGraph * list (list Hash)) :=
  g ← analyze (graph_new txs);
  batches ← group_parallel_batches g;
  Some (g, batches).

Definition execute_parallel_sync (p : ParallelEvmExecutor) (txs : list Transaction) (w : W) :
    option (list ParallelExecutionResult * W) :=
  if negb (enabled p) || (length txs <=? 1)%nat then Some (run_list false txs w) else
  '(g, batches) ← plan txs;
  Some (run_list false (batches ≫= batch_transactions g) w).

(** Tasks of a batch run in an order the runtime chooses; their results are
    collected in the order of the batch. *)
Definition run_tasks (order : list Transaction → list Transaction) (batch : list Transaction) (w : W) :
    list ParallelExecutionResult * W :=
  let '(rs, w') := run_list true (order batch) w in
  (omap (λ t, List.find (λ r, bool_decide (pr_hash r = tx_hash t)) rs) batch, w').
Definition run_batches (order : list Transaction → list Transaction) (batches : list (list Transaction)) (w : W) :
    list ParallelExecutionResult * W :=
  foldl (λ '(all, w) b, let '(rs, w') := run_tasks order b w in (all ++ rs, w')) ([], w) batches.
Definition execute_parallel_async (p : ParallelEvmExecutor) (order : list Transaction → list Transaction)
    (txs : list Transaction) (w : W) : option (list ParallelExecutionResult * W) :=
  if negb (enabled p) || (length txs <=? 1)%nat then Some (run_list false txs w) else
  '(g, batches) ← plan txs;
  Some (run_batches order (batch_transactions g ∘ take (max_parallel p) <$> batches) w).
End Executor.

Definition estimate_improvement (p : ParallelEvmExecutor) (txs : list Transaction) : option f64 :=
  if negb (enabled p) || (length txs <=? 1)%nat then Some f_one else
  '(_, batches) ← plan txs;
  Some (if f_ltb f_zero (f_of_Z (Z.of_nat (length batches)))
        then f_div (f_of_Z (Z.of_nat (length txs))) (f_of_Z (Z.of_nat (length batches))) else f_one).

(** ** The graph *)

Definition conflict (t1 t2 : Transaction) : bool := conflicting (analyze_transaction t1) (analyze_transaction t2).
Definition conflict_hashes (t : Transaction) (earlier : list Transaction) : list Hash :=
  tx_hash <$> List.filter (conflict t) earlier.

Lemma overlap_comm a b : overlap a b = overlap b a.
Proof.
  unfold overlap. f_equal.
  - by rewrite (comm_L (∩) (accessed a)).
  - f_equal. apply bool_decide_ext. split; intros Hm addr keys Hk.
    + destruct (storage_keys a !! addr) as [keys'|] eqn:Ha; cbn; [|set_solver].
      pose proof (Hm addr keys' Ha) as Hx. cbv beta in Hx. rewrite Hk in Hx. cbn in Hx. by rewrite (comm_L (∩)).
    + destruct (storage_keys b !! addr) as [keys'|] eqn:Ha; cbn; [|set_solver].
      pose proof (Hm addr keys' Ha) as Hx. cbv beta in Hx. rewrite Hk in Hx. cbn in Hx. by rewrite (comm_L (∩)).
Qed.
Lemma conflict_comm t1 t2 : conflict t1 t2 = conflict t2 t1.
Proof.
  unfold conflict, conflicting, has_read_write_conflict, has_write_write_conflict, has_write_read_conflict.
  rewrite (overlap_comm (write_set (analyze_transaction t1)) (write_set (analyze_transaction t2))).
  assert (∀ a b c, a || b || c = c || b || a) as Hswap by (by intros [] [] []). apply Hswap.
Qed.

(** Each transaction's entry, with its conflicts among the transactions
    before it. *)
Definition entry (t : Transaction) (earlier : list Transaction) : TransactionDependency :=
  set_depends (conflict_hashes t earlier) (analyze_transaction t).

Lemma conflicts_with_spec ds t earlier :
  (∀ x, x ∈ t :: earlier → ∃ deps, ds !! tx_hash x = Some (set_depends deps (analyze_transaction x))) →
  conflicts_with ds (tx_hash t) (tx_hash <$> earlier) = Some (conflict_hashes t earlier).
Proof.
  intros Hd. induction earlier as [|x earlier IH]; [done|]. cbn [fmap list_fmap conflicts_with].
  destruct (Hd t) as [deps1 ->]; [left|]. destruct (Hd x) as [deps2 ->]; [right; left|]. cbn [mbind option_bind].
  change (list_fmap _ _ tx_hash earlier) with (tx_hash <$> earlier). rewrite IH.
  2:{ intros y [->|Hy]%elem_of_cons; apply Hd; [left|by right; right]. }
  cbn [mbind option_bind]. unfold conflict_hashes. cbn [List.filter].
  assert (conflicting (set_depends deps1 (analyze_transaction t)) (set_depends deps2 (analyze_transaction x)) = conflict t x) as ->
    by done. by destruct (conflict t x).
Qed.

Lemma analyze_transaction_fresh t : set_depends [] (analyze_transaction t) = analyze_transaction t.
Proof. unfold analyze_transaction. by repeat case_match. Qed.

Lemma build_from_spec rest : ∀ earlier ds,
  NoDup (tx_hash <$> earlier ++ rest) →
  (∀ pre x suf, earlier = pre ++ x :: suf → ds !! tx_hash x = Some (entry x pre)) →
  (∀ x, x ∈ rest → ds !! tx_hash x = Some (analyze_transaction x)) →
  ∃ ds', build_from (tx_hash <$> earlier) (tx_hash <$> rest) ds = Some ds' ∧
    ∀ pre x suf, earlier ++ rest = pre ++ x :: suf → ds' !! tx_hash x = Some (entry x pre).
Proof.
  induction rest as [|t rest IH]; intros earlier ds Hnd He Hr.
  - exists ds. split; [done|]. intros pre x suf. rewrite app_nil_r. apply He.
  - assert (∀ x, x ∈ earlier → tx_hash x ≠ tx_hash t) as Hne.
    { intros x Hx Heq. rewrite fmap_app, NoDup_app in Hnd. destruct Hnd as (_ & Hd & _).
      apply (Hd (tx_hash x)); [by apply list_elem_of_fmap_2|]. rewrite Heq. left. }
    cbn [fmap list_fmap build_from]. change (list_fmap _ _ tx_hash rest) with (tx_hash <$> rest).
    rewrite (conflicts_with_spec ds t earlier).
    2:{ intros x [->|Hx]%elem_of_cons.
        - exists []. rewrite analyze_transaction_fresh. apply Hr. left.
        - apply list_elem_of_split in Hx as (pre & suf & ->). eexists. by eapply He. }
    cbn [mbind option_bind].
    destruct (IH (earlier ++ [t]) (alter (set_depends (conflict_hashes t earlier)) (tx_hash t) ds))
      as (ds' & Hb & Hs).
    + by rewrite <- app_assoc.
    + intros pre x suf Heq. destruct suf as [|z suf _] using rev_ind.
      * apply app_inj_tail in Heq as [-> ->]. rewrite lookup_alter_eq, Hr; [done|left].
      * rewrite app_comm_cons, app_assoc in Heq. apply app_inj_tail in Heq as [-> ->].
        rewrite lookup_alter_ne; [by eapply He|]. intros Heq. eapply Hne; [|by symmetry]. set_solver.
    + intros x Hx. rewrite lookup_alter_ne; [apply Hr; by right|].
      rewrite fmap_app, NoDup_app in Hnd. destruct Hnd as (_ & _ & Hnd). cbn in Hnd. apply NoDup_cons in Hnd as [Hn _].
      intros Heq. apply Hn. rewrite Heq. by apply list_elem_of_fmap_2.
    + rewrite fmap_app in Hb. exists ds'. split; [done|]. intros pre x suf Heq. eapply Hs. by rewrite <- app_assoc.
Qed.

(** What [analyze] leaves: every transaction with the earlier ones it
    conflicts with, and every hash leading back to its transaction. *)
Record analyzed (txs : list Transaction) (g : DependencyGraph) : Prop := {
  an_transactions : g_transactions g = txs;
  an_deps : ∀ pre x suf, txs = pre ++ x :: suf → dependencies g !! tx_hash x = Some (entry x pre);
  an_get : ∀ x, x ∈ txs → get_transaction g (tx_hash x) = Some x }.

Lemma tx_index_get txs x :
  NoDup (tx_hash <$> txs) → x ∈ txs → tx_index (graph_new txs) !! tx_hash x ≫= (txs !!.) = Some x.
Proof.
  intros Hnd [i Hi]%list_elem_of_lookup. cbn.
  rewrite (foldl_insert_eq (λ it : nat * Transaction, tx_hash it.2) fst _ _ _ i).
  - done.
  - exists (i, x). split; [|done]. apply elem_of_lookup_imap. by exists i, x.
  - intros [j y] (j' & y' & [= <- <-] & Hj)%elem_of_lookup_imap Heq. cbn in Heq |- *.
    eapply (NoDup_lookup (tx_hash <$> txs) j i (tx_hash x)); [done|by rewrite list_lookup_fmap, Hj, <- Heq|].
    by rewrite list_lookup_fmap, Hi.
Qed.

Lemma analyze_spec txs : NoDup (tx_hash <$> txs) → ∃ g, analyze (graph_new txs) = Some g ∧ analyzed txs g.
Proof.
  intros Hnd. unfold analyze, build_dependencies. cbn [g_transactions dependencies tx_index graph_new].
  destruct (build_from_spec txs [] (foldl (λ m t, <[tx_hash t := analyze_transaction t]> m) ∅ txs)) as (ds & Hb & Hs).
  - done.
  - intros pre x suf Heq. by destruct pre.
  - intros x Hx. apply (foldl_insert_eq tx_hash analyze_transaction); [by exists x|].
    intros y Hy Heq. f_equal. by eapply NoDup_fmap_eq.
  - change (tx_hash <$> []) with (@nil Hash) in Hb. rewrite Hb. cbn [mbind option_bind].
    eexists. split; [done|]. split; cbn [g_transactions dependencies]; [done|done|].
    intros x Hx. by apply tx_index_get.
Qed.

(** ** The batches *)

(** A transaction is ready when everything it depends on was executed. *)
Definition deps_within (ds : gmap Hash TransactionDependency) (executed : gset Hash) (h : Hash) : bool :=
  match ds !! h with
  | Some d => forallb (λ x, bool_decide (x ∈ executed)) (depends_on d)
  | None => false
  end.

(** The invariant of the loop: what is left depends only on what was executed
    or comes before it in the list. *)
Record pending (ds : gmap Hash TransactionDependency) (executed : gset Hash) (rem : list Transaction) : Prop := {
  pe_nodup : NoDup (tx_hash <$> rem);
  pe_fresh : ∀ x, x ∈ rem → tx_hash x ∉ executed;
  pe_deps : ∀ pre x suf, rem = pre ++ x :: suf → ∃ d, ds !! tx_hash x = Some d ∧
    (∀ y, y ∈ pre → conflict x y = true → tx_hash y ∈ depends_on d) ∧
    (∀ h, h ∈ depends_on d → h ∈ executed ∨ h ∈ tx_hash <$> pre) }.

Lemma pending_lookup ds ex rem x : pending ds ex rem → x ∈ rem → is_Some (ds !! tx_hash x).
Proof. intros Hp (pre & suf & ->)%list_elem_of_split. destruct (pe_deps _ _ _ Hp pre x suf) as (d & Hd & _); eauto. Qed.

Lemma ready_batch_spec ds ex (rem : list Transaction) :
  (∀ x, x ∈ rem → tx_hash x ∉ ex) → (∀ x, x ∈ rem → is_Some (ds !! tx_hash x)) →
  ready_batch ds ex (tx_hash <$> rem) = Some (tx_hash <$> List.filter (λ x, deps_within ds ex (tx_hash x)) rem).
Proof.
  induction rem as [|x rem IH]; intros Hf Hl; [done|]. cbn [fmap list_fmap ready_batch].
  change (list_fmap _ _ tx_hash rem) with (tx_hash <$> rem).
  rewrite IH by (intros; (apply Hf || apply Hl); by right). cbn [mbind option_bind].
  rewrite bool_decide_false by (apply Hf; left). destruct (Hl x ltac:(left)) as [d Hd]. rewrite Hd.
  cbn [mbind option_bind List.filter].
  assert (deps_within ds ex (tx_hash x) = forallb (λ h, bool_decide (h ∈ ex)) (depends_on d)) as ->
    by (unfold deps_within; by rewrite Hd).
  by case_match.
Qed.

Lemma ready_deps ds ex x d : deps_within ds ex (tx_hash x) = true → ds !! tx_hash x = Some d →
  ∀ h, h ∈ depends_on d → h ∈ ex.
Proof.
  unfold deps_within. intros Hr Hd h Hh. rewrite Hd in Hr. rewrite forallb_forall in Hr.
  by apply (bool_decide_eq_true (h ∈ ex)), Hr, list_elem_of_In.
Qed.

(** A ready transaction conflicts with nothing that is left before it. *)
Lemma ready_no_conflict ds ex pre x suf y : pending ds ex (pre ++ x :: suf) →
  deps_within ds ex (tx_hash x) = true → y ∈ pre → conflict x y = false.
Proof.
  intros Hp Hr Hy. apply not_true_is_false. intros Hc.
  destruct (pe_deps _ _ _ Hp pre x suf eq_refl) as (d & Hd & Hdep & _).
  apply (pe_fresh _ _ _ Hp y); [set_solver|]. eapply ready_deps; [done|done|by apply Hdep].
Qed.

Lemma ready_head ds ex x rem : pending ds ex (x :: rem) → deps_within ds ex (tx_hash x) = true.
Proof.
  intros Hp. destruct (pe_deps _ _ _ Hp [] x rem eq_refl) as (d & Hd & _ & Hin).
  unfold deps_within. rewrite Hd. apply forallb_forall. intros h Hh%list_elem_of_In.
  apply bool_decide_eq_true. destruct (Hin h Hh) as [?|?%elem_of_nil]; done.
Qed.

(** The transactions left after a batch. *)
Definition unready (ds : gmap Hash TransactionDependency) (ex : gset Hash) : list Transaction → list Transaction :=
  List.filter (λ x, negb (deps_within ds ex (tx_hash x))).

Lemma fmap_filter_hash (p : Hash → bool) (l : list Transaction) :
  List.filter p (tx_hash <$> l) = tx_hash <$> List.filter (λ x, p (tx_hash x)) l.
Proof. induction l as [|x l IH]; [done|]. cbn. rewrite IH. by case_match. Qed.

Lemma unready_pending ds ex rem : pending ds ex rem →
  pending ds (ex ∪ list_to_set (tx_hash <$> List.filter (λ x, deps_within ds ex (tx_hash x)) rem)) (unready ds ex rem).
Proof.
  intros Hp. split.
  - apply NoDup_filter_b, Hp.
  - intros x (Hn & Hx)%elem_of_filter_b. apply not_elem_of_union. split; [by apply Hp|].
    intros (y & Heq & (Hy & Hin)%elem_of_filter_b)%elem_of_list_to_set%list_elem_of_fmap.
    rewrite Heq, Hy in Hn. done.
  - intros pre x suf (pre' & suf' & -> & -> & -> & Hx)%filter_sublist_split.
    destruct (pe_deps _ _ _ Hp pre' x suf' eq_refl) as (d & Hd & Hc & Hin).
    exists d. split; [done|]. split.
    + intros y (_ & Hy)%elem_of_filter_b. by apply Hc.
    + intros h Hh. destruct (Hin h Hh) as [?|Hpre]; [left; set_solver|].
      apply list_elem_of_fmap in Hpre as (y & -> & Hy).
      destruct (deps_within ds ex (tx_hash y)) eqn:Hr.
      * left. apply elem_of_union_r, elem_of_list_to_set, list_elem_of_fmap_2, elem_of_filter_b. set_solver.
      * right. apply list_elem_of_fmap_2, elem_of_filter_b. by rewrite Hr.
Qed.

Lemma remaining_unready ds ex rem : pending ds ex rem →
  filter (λ h, h ∉ ex ∪ list_to_set (tx_hash <$> List.filter (λ x, deps_within ds ex (tx_hash x)) rem)) (tx_hash <$> rem)
  = tx_hash <$> unready ds ex rem.
Proof.
  intros Hp. assert (∀ l, (∀ x, x ∈ l → x ∈ rem) →
    filter (λ h, h ∉ ex ∪ list_to_set (tx_hash <$> List.filter (λ x, deps_within ds ex (tx_hash x)) rem)) (tx_hash <$> l)
    = tx_hash <$> unready ds ex l) as Hl; [|by apply Hl].
  induction l as [|x l IH]; intros Hin; [done|]. cbn [fmap list_fmap unready List.filter].
  destruct (deps_within ds ex (tx_hash x)) eqn:Hr; cbn [negb].
  - rewrite filter_cons_False, IH; [done|set_solver|]. intros Hn. apply Hn.
    apply elem_of_union_r, elem_of_list_to_set, list_elem_of_fmap_2, elem_of_filter_b. split; [done|apply Hin; left].
  - rewrite filter_cons_True, IH; [done|set_solver|]. apply not_elem_of_union. split; [apply Hp, Hin; left|].
    intros (y & Heq & (Hy & _)%elem_of_filter_b)%elem_of_list_to_set%list_elem_of_fmap. rewrite Heq in Hr. congruence.
Qed.

Definition hash_batches (bs : list (list Transaction)) : list (list Hash) := fmap (M:=list) (fmap (M:=list) tx_hash) bs.

(** Splitting a list of transactions in batches: a batch takes transactions
    that conflict with nothing left before them. *)
Inductive batched : list Transaction → list (list Transaction) → Prop :=
| batched_nil : batched [] []
| batched_cons (p : Transaction → bool) rem bs :
    List.filter p rem ≠ [] →
    (∀ pre x suf y, rem = pre ++ x :: suf → p x = true → y ∈ pre → conflict x y = false) →
    batched (List.filter (λ x, negb (p x)) rem) bs →
    batched rem (List.filter p rem :: bs).

Lemma group_loop_spec fuel ds : ∀ ex rem, pending ds ex rem → (length rem <= fuel)%nat →
  ∃ bs, group_loop fuel ds ex (tx_hash <$> rem) = Some (hash_batches bs) ∧ batched rem bs.
Proof.
  induction fuel as [|fuel IH]; intros ex [|x rem] Hp Hlen; cbn in Hlen; try lia.
  1,2: exists []; split; [done|constructor].
  set (all := x :: rem) in *.
  set (ready := List.filter (λ x, deps_within ds ex (tx_hash x)) all).
  assert (ready ≠ []) as Hne.
  { unfold ready, all. cbn. by rewrite (ready_head _ _ _ _ Hp). }
  destruct (IH (ex ∪ list_to_set (tx_hash <$> ready)) (unready ds ex all)) as (bs & Hg & Hb).
  - by apply unready_pending.
  - pose proof (filter_partition_length (λ x, deps_within ds ex (tx_hash x)) all) as Hl. fold ready in Hl.
    assert (length ready ≠ 0%nat) by (by destruct ready). unfold unready. change (length all) with (S (length rem)) in Hl. lia.
  - exists (ready :: bs). split.
    + change (tx_hash <$> all) with (tx_hash x :: (tx_hash <$> rem)). cbn [group_loop].
      change (tx_hash x :: (tx_hash <$> rem)) with (tx_hash <$> all).
      rewrite ready_batch_spec; [|apply Hp|intros; by eapply pending_lookup]. fold ready. cbn [mbind option_bind].
      assert (match tx_hash <$> ready with [] => [tx_hash x] | _ => tx_hash <$> ready end = tx_hash <$> ready) as ->
        by (by destruct ready). cbv zeta.
      pose proof (remaining_unready ds ex all Hp) as Hrem. fold ready in Hrem. by rewrite Hrem, Hg.
    + apply batched_cons; [done| |done]. intros pre y suf z Heq. rewrite Heq in Hp. by eapply ready_no_conflict.
Qed.

Lemma analyzed_pending txs g : NoDup (tx_hash <$> txs) → analyzed txs g → pending (dependencies g) ∅ txs.
Proof.
  intros Hnd Ha. split; [done|set_solver|]. intros pre x suf Heq. exists (entry x pre).
  split; [by eapply an_deps|]. unfold entry, conflict_hashes. cbn [depends_on set_depends]. split.
  - intros y Hy Hc. apply list_elem_of_fmap_2, elem_of_filter_b. done.
  - intros h (y & -> & (_ & Hy)%elem_of_filter_b)%list_elem_of_fmap. right. by apply list_elem_of_fmap_2.
Qed.

Lemma batched_incl txs bs : batched txs bs → ∀ b x, b ∈ bs → x ∈ b → x ∈ txs.
Proof.
  induction 1 as [|p rem bs Hne Hc Hb IH]; intros b x Hin Hx; [by apply elem_of_nil in Hin|].
  apply elem_of_cons in Hin as [->|Hin]; [by apply elem_of_filter_b in Hx as []|].
  by apply (IH b x Hin), elem_of_filter_b in Hx as [].
Qed.

Lemma batch_transactions_hashes g txs b : analyzed txs g → (∀ x, x ∈ b → x ∈ txs) →
  batch_transactions g (tx_hash <$> b) = b.
Proof.
  intros Ha. unfold batch_transactions. induction b as [|x b IH]; intros Hin; [done|]. cbn.
  rewrite (an_get _ _ Ha) by (apply Hin; left). f_equal. apply IH. set_solver.
Qed.

(** The plan exists, and its hashes stand for batches of the transactions. *)
Lemma plan_spec txs : NoDup (tx_hash <$> txs) → ∃ g bs, plan txs = Some (g, hash_batches bs) ∧
  batched txs bs ∧ analyzed txs g.
Proof.
  intros Hnd. destruct (analyze_spec txs Hnd) as (g & Hg & Ha).
  destruct (group_loop_spec (length txs) (dependencies g) ∅ txs) as (bs & Hb & Hbs);
    [by apply analyzed_pending|done|].
  exists g, bs. split; [|done]. unfold plan, group_parallel_batches. rewrite Hg. cbn [mbind option_bind].
  by rewrite (an_transactions _ _ Ha), Hb.
Qed.

(** ** Reordering steps that commute *)

Section Commute.
Context {S : Type} (R : relation S) `{!Equivalence R} (f : S → Transaction → S).
Context `{Hproper : !Proper (R ==> (=) ==> R) f}.

Definition commutes (x y : Transaction) : Prop := ∀ s, R (f (f s x) y) (f (f s y) x).

#[local] Instance foldl_proper_R : Proper (R ==> (=) ==> R) (foldl f).
Proof.
  intros s s' Hs l ? <-. revert s s' Hs. induction l as [|x l IH]; intros s s' Hs; [done|].
  cbn. apply IH. by rewrite Hs.
Qed.

Lemma foldl_move x l s rest : (∀ y, y ∈ l → commutes x y) → R (foldl f s (x :: l ++ rest)) (foldl f s (l ++ x :: rest)).
Proof.
  revert s. induction l as [|y l IH]; intros s Hc; [done|]. cbn.
  rewrite (Hc y ltac:(left) s). apply (IH (f s y)). intros z Hz. apply Hc. by right.
Qed.

(** Bringing forward the elements that commute with what is before them. *)
Lemma foldl_partition p l s :
  (∀ pre x suf y, l = pre ++ x :: suf → p x = true → y ∈ pre → p y = false → commutes y x) →
  R (foldl f s l) (foldl f s (List.filter p l ++ List.filter (λ x, negb (p x)) l)).
Proof.
  revert s. induction l as [|a l IH]; intros s Hc; [done|]. cbn [List.filter].
  assert (∀ s', R (foldl f s' l) (foldl f s' (List.filter p l ++ List.filter (λ x, negb (p x)) l))) as Hl.
  { intros s'. apply IH. intros pre x suf y -> Hx Hy. apply (Hc (a :: pre) x suf y); [done|done|by right]. }
  destruct (p a) eqn:Ha; cbn [negb app foldl]; [apply Hl|].
  rewrite Hl, <- foldl_move; [done|]. intros y (Hy & Hin)%elem_of_filter_b.
  apply list_elem_of_split in Hin as (pre & suf & ->). apply (Hc (a :: pre) y suf a); [done|done|left|done].
Qed.

Lemma foldl_perm l l' s : l ≡ₚ l' → (∀ x y, x ∈ l → y ∈ l → commutes x y) → R (foldl f s l) (foldl f s l').
Proof.
  intros Hp. revert s. induction Hp as [|x l l' Hp IH|x y l|l1 l2 l3 H12 IH12 H23 IH23]; intros s Hc; cbn.
  - done.
  - apply IH. intros; apply Hc; by right.
  - apply foldl_proper_R; [|done]. apply Hc; set_solver.
  - rewrite IH12 by done. apply IH23. intros x y Hx Hy. apply Hc; by rewrite H12.
Qed.

(** The transactions that commute when they do not conflict. *)
Context (D : Transaction → Prop) (Hindep : ∀ x y, D x → D y → conflict x y = false → commutes x y).

Lemma same_batch_commutes p rem : (∀ x, x ∈ rem → D x) →
  (∀ pre x suf y, rem = pre ++ x :: suf → p x = true → y ∈ pre → conflict x y = false) →
  ∀ x y, x ∈ List.filter p rem → y ∈ List.filter p rem → commutes x y.
Proof.
  intros HD Hc x y (Hx & Hinx)%elem_of_filter_b (Hy & Hiny)%elem_of_filter_b.
  pose proof Hinx as [i Hi]%list_elem_of_lookup. pose proof Hiny as [j Hj]%list_elem_of_lookup.
  assert (∀ i j x y, rem !! i = Some x → rem !! j = Some y → p y = true → (i < j)%nat → conflict y x = false) as Hlt.
  { intros i' j' x' y' Hi' Hj' Hp Hl. eapply (Hc (take j' rem) y' (drop (Datatypes.S j') rem)); [|done|].
    - symmetry. by apply take_drop_middle.
    - apply list_elem_of_lookup. exists i'. by rewrite lookup_take_lt. }
  destruct (lt_eq_lt_dec i j) as [[Hl| ->]|Hl].
  - apply Hindep; [by apply HD..|]. rewrite conflict_comm. by eapply Hlt.
  - rewrite Hi in Hj. injection Hj as ->. intros s. done.
  - apply Hindep; [by apply HD..|]. by eapply Hlt.
Qed.

(** Executing the batches one after the other, each in any order, has the
    effect of executing the transactions in their order. *)
Lemma batched_serializable txs bs order : batched txs bs → (∀ l, order l ≡ₚ l) → (∀ x, x ∈ txs → D x) →
  ∀ s, R (foldl f s txs) (foldl f s (concat (order <$> bs))).
Proof.
  intros Hb Ho. induction Hb as [|p rem bs Hne Hc Hb IH]; intros HD s; [done|].
  rewrite (foldl_partition p).
  2:{ intros pre x suf y Heq Hx Hy _. apply Hindep; [apply HD; subst; set_solver..|]. rewrite conflict_comm. eauto. }
  cbn. rewrite !foldl_app, <- IH by (intros x [_ Hx]%elem_of_filter_b; auto). apply foldl_proper_R; [|done].
  apply foldl_perm; [by rewrite Ho|]. by apply same_batch_commutes.
Qed.
End Commute.

(** ** Executing the plan *)

(** Two runs that produced the same results, in whatever order, and the same
    state. *)
Definition same_run {W} (a b : list ParallelExecutionResult * W) : Prop := a.1 ≡ₚ b.1 ∧ a.2 = b.2.
#[export] Instance same_run_equiv {W} : Equivalence (@same_run W).
Proof.
  split.
  - by intros [? ?].
  - intros [? ?] [? ?] [H1 H2]. by split.
  - intros [? ?] [? ?] [? ?] [H1 H2] [H3 H4]. split; cbn in *; [by rewrite H1|congruence].
Qed.

(** A result without the mark of how it was executed. *)
Definition unmarked (r : ParallelExecutionResult) : ParallelExecutionResult :=
  MkParallel (pr_hash r) (pr_success r) (pr_gas_used r) (pr_output r) false.

(** The state is one entry per address: the account, with its storage. *)
Section Execution.
Context {A : Type} (executor : Transaction → gmap Address A → result string TaskResult * gmap Address A).
Notation W := (gmap Address A).

(** Two transactions are independent when neither the results nor the state
    depend on which one runs first. *)
Definition independent (t1 t2 : Transaction) : Prop := ∀ w,
  (executor t1 w).1 = (executor t1 (executor t2 w).2).1 ∧
  (executor t2 (executor t1 w).2).1 = (executor t2 w).1 ∧
  (executor t2 (executor t1 w).2).2 = (executor t1 (executor t2 w).2).2.

Definition run_step (parallel : bool) : list ParallelExecutionResult * W → Transaction → list ParallelExecutionResult * W :=
  λ '(rs, w) t, let '(r, w') := run_one executor parallel t w in (rs ++ [r], w').

#[local] Instance run_step_proper b : Proper (same_run ==> (=) ==> same_run) (run_step b).
Proof.
  intros [rs w] [rs' w'] [Hr Hw] t ? <-. cbn in Hr, Hw. subst w'. unfold run_step.
  destruct (run_one executor b t w). split; cbn; [by rewrite Hr|done].
Qed.

Definition result_of (b : bool) (t : Transaction) (r : result string TaskResult) : ParallelExecutionResult :=
  match r with
  | Ok r => MkParallel (tx_hash t) (task_success r) (task_gas_used r) (task_output r) b
  | Err _ => MkParallel (tx_hash t) false 0 [] b
  end.
Lemma run_one_eq b t w : run_one executor b t w = (result_of b t (executor t w).1, (executor t w).2).
Proof. unfold run_one. by destruct (executor t w) as [[]]. Qed.
Lemma unmarked_result b t r : unmarked (result_of b t r) = result_of false t r.
Proof. by destruct r. Qed.
Lemma result_of_hash b t r : pr_hash (result_of b t r) = tx_hash t.
Proof. by destruct r. Qed.

Lemma independent_commutes b t1 t2 : independent t1 t2 → commutes same_run (run_step b) t1 t2.
Proof.
  intros Hi [rs w]. unfold run_step. rewrite !run_one_eq. destruct (Hi w) as (H1 & H2 & H3).
  rewrite <- H1, H2, <- H3. split; cbn; [|done].
  rewrite <- !app_assoc. cbn. by rewrite Permutation_swap.
Qed.

Lemma run_list_app b l1 l2 w : run_list executor b (l1 ++ l2) w =
  let '(rs, w') := run_list executor b l1 w in
  let '(rs', w'') := run_list executor b l2 w' in (rs ++ rs', w'').
Proof.
  unfold run_list. rewrite foldl_app. destruct (foldl _ ([], w) l1) as [rs w1]. clear w l1.
  induction l2 as [|t l2 IH] using rev_ind; cbn; [by rewrite app_nil_r|].
  rewrite !foldl_app, IH. destruct (foldl _ ([], w1) l2) as [rs' w2]. cbn. rewrite run_one_eq. by rewrite app_assoc.
Qed.

Lemma run_list_hashes b l w : pr_hash <$> (run_list executor b l w).1 = tx_hash <$> l.
Proof.
  induction l as [|t l IH] using rev_ind; [done|]. rewrite run_list_app.
  destruct (run_list executor b l w) as [rs w1]. cbn. rewrite run_one_eq. cbn.
  rewrite !fmap_app. cbn in IH |- *. by rewrite IH, result_of_hash.
Qed.

Lemma run_list_unmarked b l w : run_list executor false l w =
  (unmarked <$> (run_list executor b l w).1, (run_list executor b l w).2).
Proof.
  induction l as [|t l IH] using rev_ind; [done|]. rewrite !run_list_app, IH.
  destruct (run_list executor b l w) as [rs w1]. cbn. rewrite !run_one_eq. cbn.
  by rewrite fmap_app, <- (unmarked_result b).
Qed.

(** Collecting the results of a batch in its order loses and repeats none. *)
Lemma find_result rs r : NoDup (pr_hash <$> rs) → r ∈ rs →
  List.find (λ x, bool_decide (pr_hash x = pr_hash r)) rs = Some r.
Proof.
  induction rs as [|x rs IH]; intros Hnd Hr; [by apply elem_of_nil in Hr|]. cbn in Hnd |- *.
  apply NoDup_cons in Hnd as [Hx Hnd]. apply elem_of_cons in Hr as [->|Hr].
  - by rewrite bool_decide_true.
  - rewrite bool_decide_false; [by apply IH|]. intros Heq. apply Hx. rewrite Heq. by apply list_elem_of_fmap_2.
Qed.
Lemma collect_results (b : list Transaction) rs : NoDup (tx_hash <$> b) → pr_hash <$> rs ≡ₚ tx_hash <$> b →
  omap (λ t, List.find (λ r, bool_decide (pr_hash r = tx_hash t)) rs) b ≡ₚ rs.
Proof.
  intros Hnd Hp. pose proof Hnd as Hnd'. rewrite <- Hp in Hnd'.
  transitivity (omap (λ h, List.find (λ r, bool_decide (pr_hash r = h)) rs) (tx_hash <$> b)).
  { rewrite omap_of_fmap. done. }
  rewrite <- Hp. rewrite omap_of_fmap.
  assert (∀ l : list ParallelExecutionResult, (∀ r, r ∈ l → r ∈ rs) → omap ((λ h, List.find (λ r, bool_decide (pr_hash r = h)) rs) ∘ pr_hash) l = l) as Hl.
  { induction l as [|r l IH]; intros Hin; [done|]. cbn. rewrite find_result; [|done|apply Hin; left].
    f_equal. apply IH. set_solver. }
  by rewrite Hl.
Qed.

Lemma run_batches_snoc order bs b w : run_batches executor order (bs ++ [b]) w =
  let '(all, w') := run_batches executor order bs w in
  let '(rs, w'') := run_tasks executor order b w' in (all ++ rs, w'').
Proof. unfold run_batches. rewrite foldl_app. cbn. by destruct (foldl _ _ bs). Qed.

Lemma run_batches_spec order bs : (∀ l, order l ≡ₚ l) → (∀ b, b ∈ bs → NoDup (tx_hash <$> b)) → ∀ w,
  same_run (run_batches executor order bs w) (run_list executor true (concat (order <$> bs)) w).
Proof.
  intros Ho. induction bs as [|b bs IH] using rev_ind; intros Hnd w; [by split|].
  rewrite fmap_app, concat_app, run_list_app, run_batches_snoc.
  assert (∀ b, b ∈ bs → NoDup (tx_hash <$> b)) as Hbs by (intros; apply Hnd, elem_of_app; by left).
  destruct (IH Hbs w) as [Hr Hw]. destruct (run_batches executor order bs w) as [all w1].
  destruct (run_list executor true (concat (order <$> bs)) w) as [rs w1']. cbn in Hr, Hw. subst w1'.
  cbn [fmap list_fmap concat]. rewrite app_nil_r. unfold run_tasks.
  pose proof (run_list_hashes true (order b) w1) as Hh.
  destruct (run_list executor true (order b) w1) as [rs' w2]. split; cbn; [|done].
  cbn in Hh. rewrite Hr, collect_results; [done|apply Hnd; set_solver|]. by rewrite Hh, Ho.
Qed.

Lemma batched_nodup txs bs : NoDup (tx_hash <$> txs) → batched txs bs → ∀ b, b ∈ bs → NoDup (tx_hash <$> b).
Proof.
  intros Hnd Hb. revert Hnd. induction Hb as [|p rem bs Hne Hc Hb IH]; intros Hnd b Hin; [by apply elem_of_nil in Hin|].
  apply elem_of_cons in Hin as [->|Hin]; [by apply NoDup_filter_b|]. apply IH; [by apply NoDup_filter_b|done].
Qed.

Lemma batched_length txs bs : batched txs bs → ∀ b, b ∈ bs → (length b <= length txs)%nat.
Proof.
  induction 1 as [|p rem bs Hne Hc Hb IH]; intros b Hin; [by apply elem_of_nil in Hin|].
  pose proof (filter_partition_length p rem). apply elem_of_cons in Hin as [->|Hin]; [lia|].
  specialize (IH b Hin). lia.
Qed.

(** *** Transactions that stay within their access sets *)

Definition reads_of (t : Transaction) : gset Address := accessed (read_set (analyze_transaction t)).
Definition writes_of (t : Transaction) : gset Address := accessed (write_set (analyze_transaction t)).

Lemma no_conflict_disjoint t1 t2 : conflict t1 t2 = false →
  reads_of t1 ## writes_of t2 ∧ writes_of t1 ## writes_of t2 ∧ writes_of t1 ## reads_of t2.
Proof.
  unfold conflict, conflicting, has_write_read_conflict, has_read_write_conflict, has_write_write_conflict, overlap.
  rewrite !orb_false_iff, !negb_false_iff, !bool_decide_eq_true. unfold reads_of, writes_of. set_solver.
Qed.

(** The executor keeps a transaction to the accounts the analysis names: the
    result and the new contents of the accounts it may write depend only on
    the accounts it reads or writes, and every other account stays as it was. *)
Record confined (t : Transaction) : Prop := {
  cf_local : ∀ w w', (∀ a, a ∈ reads_of t ∪ writes_of t → w !! a = w' !! a) →
    (executor t w).1 = (executor t w').1 ∧
    ∀ a, a ∈ writes_of t → (executor t w).2 !! a = (executor t w').2 !! a;
  cf_frame : ∀ w a, a ∉ writes_of t → (executor t w).2 !! a = w !! a }.

Lemma confined_skip t1 t2 w : confined t1 → confined t2 → conflict t1 t2 = false →
  (executor t1 w).1 = (executor t1 (executor t2 w).2).1 ∧
  ∀ a, a ∈ writes_of t1 → (executor t1 w).2 !! a = (executor t1 (executor t2 w).2).2 !! a.
Proof.
  intros H1 H2 (Hrw & Hww & Hwr)%no_conflict_disjoint. apply (cf_local _ H1). intros a Ha.
  symmetry. apply (cf_frame _ H2). set_solver.
Qed.

Lemma confined_independent t1 t2 : confined t1 → confined t2 → conflict t1 t2 = false → independent t1 t2.
Proof.
  intros H1 H2 Hc w. pose proof Hc as Hc'. rewrite conflict_comm in Hc'.
  destruct (confined_skip t1 t2 w H1 H2 Hc) as [Hr1 Hs1], (confined_skip t2 t1 w H2 H1 Hc') as [Hr2 Hs2].
  split_and!; [done|done|]. apply no_conflict_disjoint in Hc as (_ & Hww & _). apply map_eq. intros a.
  destruct (decide (a ∈ writes_of t2)) as [Ha|Ha].
  - rewrite <- (Hs2 a Ha). symmetry. apply (cf_frame _ H1). set_solver.
  - rewrite (cf_frame _ H2) by done. destruct (decide (a ∈ writes_of t1)) as [Ha1|Ha1]; [by apply Hs1|].
    by rewrite !(cf_frame _ H1), (cf_frame _ H2).
Qed.

Lemma plan_run_serializable b order txs bs w : batched txs bs → (∀ l, order l ≡ₚ l) → (∀ t, t ∈ txs → confined t) →
  same_run (run_list executor b (concat (order <$> bs)) w) (run_list executor b txs w).
Proof.
  intros Hb Ho HD. symmetry. apply (batched_serializable same_run (run_step b) confined); [|done..].
  intros x y Hx Hy Hc. by apply independent_commutes, confined_independent.
Qed.

Lemma run_list_same b txs l w : same_run (run_list executor b l w) (run_list executor b txs w) →
  (unmarked <$> (run_list executor b l w).1) ≡ₚ (run_list executor false txs w).1 ∧
  (run_list executor b l w).2 = (run_list executor false txs w).2.
Proof. intros [Hr Hw]. rewrite (run_list_unmarked b txs). cbn. by rewrite Hr. Qed.

Lemma plan_batches g txs bs (f : list Hash → list Hash) : analyzed txs g → batched txs bs →
  (∀ b, b ∈ bs → f (tx_hash <$> b) = tx_hash <$> b) →
  (batch_transactions g ∘ f <$> hash_batches bs) = bs.
Proof.
  intros Ha Hb Hf. unfold hash_batches. rewrite <- list_fmap_compose. rewrite <- (list_fmap_id bs) at 2.
  apply list_fmap_ext. intros i b Hi%list_elem_of_lookup_2. cbn. rewrite Hf by done.
  eapply batch_transactions_hashes; [done|]. intros x. by eapply batched_incl.
Qed.

(** C13: Executing in batches changes neither the final state nor any
    transaction's result: whatever order the tasks of a batch run in, the
    outcome is that of the transactions one after the other in their order.
    The transactions have different hashes and are at most [max_parallel], and
    the executor confines each of them to the accounts the analysis derives
    from its sender, recipient, value and data.  (A call that reaches another
    contract is not confined: [nested_calls_not_serializable].) *)
Theorem parallel_execution_serializable p order txs w :
  NoDup (tx_hash <$> txs) → (∀ l, order l ≡ₚ l) → (length txs <= max_parallel p)%nat →
  (∀ t, t ∈ txs → confined t) →
  (∃ rs w', execute_parallel_async executor p order txs w = Some (rs, w') ∧
     w' = (run_list executor false txs w).2 ∧ (unmarked <$> rs) ≡ₚ (run_list executor false txs w).1) ∧
  (∃ rs w', execute_parallel_sync executor p txs w = Some (rs, w') ∧
     w' = (run_list executor false txs w).2 ∧ (unmarked <$> rs) ≡ₚ (run_list executor false txs w).1).
Proof.
  intros Hnd Ho Hm HD. unfold execute_parallel_async, execute_parallel_sync.
  destruct (negb (enabled p) || (length txs <=? 1)%nat).
  { pose proof (run_list_unmarked false txs w) as Hu.
    destruct (run_list executor false txs w) as [rs w']. injection Hu as Hu.
    split; exists rs, w'; cbn; by rewrite <- Hu. }
  destruct (plan_spec txs Hnd) as (g & bs & -> & Hb & Ha). cbn [mbind option_bind]. split.
  - rewrite (plan_batches g txs bs); [|done|done|].
    2:{ intros b Hin. apply take_ge. rewrite length_fmap. pose proof (batched_length _ _ Hb b Hin). lia. }
    pose proof (run_batches_spec order bs Ho (batched_nodup _ _ Hnd Hb) w) as [Hr Hw].
    destruct (run_list_same true txs _ w (plan_run_serializable true order txs bs w Hb Ho HD)) as [Hr' Hw'].
    destruct (run_batches executor order bs w) as [rs w']. cbn in Hr, Hw. exists rs, w'.
    split; [done|]. rewrite Hw, Hw'. split; [done|]. by rewrite Hr, Hr'.
  - pose proof (plan_batches g txs bs id Ha Hb ltac:(done)) as Hbs.
    assert (hash_batches bs ≫= batch_transactions g = concat (id <$> bs)) as ->.
    { rewrite list_fmap_id, bind_concat. by f_equal. }
    destruct (run_list_same false txs _ w (plan_run_serializable false id txs bs w Hb ltac:(done) HD)) as [Hr' Hw'].
    destruct (run_list executor false (concat (id <$> bs)) w) as [rs w']. by exists rs, w'.
Qed.
End Execution.

(** Transactions that do not conflict all land in one batch, of which the
    asynchronous executor runs the first [max_parallel] and drops the rest. *)
Theorem parallel_async_drops {A} (executor : Transaction → gmap Address A → result string TaskResult * gmap Address A) p order txs w :
  NoDup (tx_hash <$> txs) → (∀ l, order l ≡ₚ l) → enabled p = true → (1 < length txs)%nat →
  (∀ pre x suf y, txs = pre ++ x :: suf → y ∈ pre → conflict x y = false) →
  ∃ rs w', execute_parallel_async executor p order txs w = Some (rs, w') ∧
    (pr_hash <$> rs) ≡ₚ take (max_parallel p) (tx_hash <$> txs).
Proof.
  intros Hnd Ho He Hlen Hc. unfold execute_parallel_async. rewrite He. cbn [negb orb].
  destruct (Nat.leb_spec (length txs) 1) as [|_]; [lia|].
  destruct (analyze_spec txs Hnd) as (g & Hg & Ha).
  assert (plan txs = Some (g, [tx_hash <$> txs])) as ->.
  { unfold plan, group_parallel_batches. rewrite Hg. cbn [mbind option_bind].
    rewrite (an_transactions _ _ Ha). destruct txs as [|t txs]; [cbn in Hlen; lia|]. cbn [length group_loop fmap list_fmap].
    change (tx_hash t :: list_fmap _ _ tx_hash txs) with (tx_hash <$> (t :: txs)).
    pose proof (analyzed_pending _ _ Hnd Ha) as Hp.
    assert (List.filter (λ x, deps_within (dependencies g) ∅ (tx_hash x)) (t :: txs) = t :: txs) as Hall.
    { apply List.forallb_filter_id, forallb_forall. intros x (pre & suf & Hx)%list_elem_of_In%list_elem_of_split.
      unfold deps_within. rewrite (an_deps _ _ Ha pre x suf Hx). cbn. unfold conflict_hashes.
      assert (List.filter (conflict x) pre = []) as ->; [|done].
      destruct (List.filter (conflict x) pre) as [|y l] eqn:Hf; [done|].
      assert (y ∈ List.filter (conflict x) pre) as (Hy & Hin)%elem_of_filter_b by (rewrite Hf; left).
      rewrite (Hc pre x suf y Hx Hin) in Hy. done. }
    pose proof (ready_batch_spec (dependencies g) ∅ (t :: txs) (pe_fresh _ _ _ Hp) ltac:(intros; by eapply pending_lookup)) as Hrb.
    rewrite Hall in Hrb. change (tx_hash <$> t :: txs) with (tx_hash t :: (tx_hash <$> txs)) in *. rewrite Hrb. cbn [mbind option_bind].
    assert (∀ f d l, group_loop f d l [] = Some []) as Hnil by (by intros []).
    rewrite list_filter_none, Hnil; [done|]. apply Forall_forall. intros h Hh Hn. apply Hn. set_solver. }
  cbn [mbind option_bind fmap list_fmap compose]. set (b := batch_transactions g _).
  assert (tx_hash <$> b = take (max_parallel p) (tx_hash <$> txs)) as Hb.
  { unfold b. rewrite <- fmap_take. f_equal. eapply batch_transactions_hashes; [done|].
    intros x Hx. rewrite <- (take_drop (max_parallel p) txs). set_solver. }
  assert (NoDup (tx_hash <$> b)) as Hbd.
  { rewrite Hb. rewrite <- (take_drop (max_parallel p) (tx_hash <$> txs)), NoDup_app in Hnd. by destruct Hnd. }
  destruct (run_batches executor order [b] w) as [rs w'] eqn:Hr. exists rs, w'. split; [done|].
  pose proof (run_batches_spec executor order [b] Ho) as Hs.
  destruct (Hs ltac:(intros ? ->%list_elem_of_singleton; done) w) as [Hrs _].
  rewrite Hr in Hrs. cbn [fst concat fmap list_fmap] in Hrs. rewrite Hrs, run_list_hashes, app_nil_r, <- Hb. by rewrite Ho.
Qed.

(** ** Concrete runs *)

(** An executor that moves the value of a transaction, if the sender has it. *)
Definition ex_executor (t : Transaction) (w : gmap Address u128) : result string TaskResult * gmap Address u128 :=
  let b := default 0 (w !! from t) in
  if b <? value t then (Err "insufficient balance", w)
  else if 0 <? value t then
    let w1 := <[from t := b - value t]> w in
    (Ok (MkTask true 21000 []), <[to t := default 0 (w1 !! to t) + value t]> w1)
  else (Ok (MkTask true 21000 []), w).

Lemma analyzed_from t : from t ∈ writes_of t.
Proof. unfold writes_of, analyze_transaction. repeat case_match; cbn; set_solver. Qed.
Lemma analyzed_to t : 0 < value t → to t ∈ writes_of t.
Proof.
  intros Hv. unfold writes_of, analyze_transaction. rewrite (proj2 (Z.ltb_lt _ _) Hv). repeat case_match; cbn; set_solver.
Qed.

Lemma ex_executor_confined t : confined ex_executor t.
Proof.
  pose proof (analyzed_from t) as Hf. split.
  - intros w w' Heq. unfold ex_executor. rewrite (Heq (from t)) by set_solver. destruct (_ <? value t); [split; [done|set_solver]|].
    destruct (Z.ltb_spec 0 (value t)) as [Hv|]; [|split; [done|set_solver]]. pose proof (analyzed_to t Hv) as Ht.
    cbn [fst snd]. split; [done|]. intros a Ha. rewrite !lookup_insert. destruct (decide (to t = a)).
    + f_equal. destruct (decide (from t = to t)); [done|]. by rewrite (Heq (to t)) by set_solver.
    + destruct (decide (from t = a)); [done|]. apply Heq. set_solver.
  - intros w a Ha. unfold ex_executor. destruct (_ <? value t); [done|]. destruct (Z.ltb_spec 0 (value t)) as [Hv|]; [|done].
    pose proof (analyzed_to t Hv). cbn [snd]. rewrite !lookup_insert_ne; [done|set_solver..].
Qed.

Module ParallelReference.
Import BlockReference.

Definition carol : Address := MkAddress (replicate 20 3).
Definition ex_tx (f : Address) (v : u128) (n : u64) (h : Z) : Transaction :=
  MkTx f bob v 1 n [] 21000 (MkHash (h :: replicate 31 0)) None None [] [] None None None None None None None.
Definition ex_txs : list Transaction := [ex_tx alice 5 0 1; ex_tx carol 0 7 2; ex_tx alice 5 1 3].

Definition ex_world : gmap Address u128 := {[alice := 7; carol := 1]}.

Lemma parallel_execution_serializable_witness :
  ∃ rs w', execute_parallel_async ex_executor parallel_new (@rev _) ex_txs ex_world = Some (rs, w') ∧
    w' = (run_list ex_executor false ex_txs ex_world).2.
Proof.
  destruct (parallel_execution_serializable ex_executor parallel_new (@rev _) ex_txs ex_world)
    as [(rs & w' & Hx & Hw & _) _].
  - apply (bool_decide_unpack _). vm_compute. exact I.
  - intros l. symmetry. apply Permutation_rev.
  - cbn. lia.
  - intros t _. apply ex_executor_confined.
  - exists rs, w'. exact (conj Hx Hw).
Defined.

(** Two contracts that both call a third, which records its last caller.  The
    analysis sees no conflict between calls of the two, and the order in which
    the tasks of their batch run decides what the third one holds. *)
Definition shared : Address := MkAddress (replicate 20 4).
Definition calls_shared (t : Transaction) (w : gmap Address u64) : result string TaskResult * gmap Address u64 :=
  (Ok (MkTask true 30000 []), <[shared := nonce t]> w).
Definition ex_call (f c : Address) (n : u64) (h : Z) : Transaction :=
  MkTx f c 0 1 n [1] 50000 (MkHash (h :: replicate 31 0)) None None [] [] None None None None None None None.
Definition ex_calls : list Transaction := [ex_call alice bob 1 1; ex_call carol (MkAddress (replicate 20 8)) 2 2].
Theorem nested_calls_not_serializable :
  snd <$> execute_parallel_async calls_shared parallel_new (@rev _) ex_calls ∅ = Some {[shared := 1]} ∧
  (run_list calls_shared false ex_calls ∅).2 = {[shared := 2]}.
Proof. vm_compute. split; reflexivity. Qed.

(** With room for one transaction per batch, the second of two unrelated
    transactions is never executed. *)
Lemma parallel_async_drops_witness :
  ∃ rs w', execute_parallel_async ex_executor (MkParallelExecutor true 1) id [ex_tx alice 5 0 1; ex_tx carol 0 7 2] ∅
    = Some (rs, w') ∧ (pr_hash <$> rs) ≡ₚ [MkHash (1 :: replicate 31 0)].
Proof.
  apply (parallel_async_drops ex_executor (MkParallelExecutor true 1) id [ex_tx alice 5 0 1; ex_tx carol 0 7 2] ∅).
  - apply (bool_decide_unpack _). vm_compute. exact I.
  - done.
  - done.
  - cbn. lia.
  - intros pre x suf y Heq Hy.
    destruct pre as [|a [|b pre]]; [by apply elem_of_nil in Hy| |].
    + injection Heq as <- <- _. apply list_elem_of_singleton in Hy as ->. vm_compute. reflexivity.
    + injection Heq as _ _ Heq. destruct pre; discriminate Heq.
Defined.
End ParallelReference.
