(* ===== verification/SyncPool.v ===== *)
(** * SyncPool: what a node keeps while it synchronises

    Models the first half of [irondag-blockchain/src/network/sync.rs]: the
    quorum that permits a resync, the headers-first manager, compact blocks and
    the pool of orphan blocks.  Each operation holds its locks for its whole
    body and is one step here.  [now] is the clock in seconds. *)

From S2P Require Import Prelude Types Block Pow Economics.

(** ** The quorum for a resync *)

Definition RESYNC_QUORUM : nat := 3.
Definition RESYNC_COOLDOWN_SECS : u64 := 1800.

(** [env] is the parsed environment variable, if there is one. *)
Definition get_resync_quorum (env : option nat) : nat :=
  match env with Some v => Nat.max v 2 | None => RESYNC_QUORUM end.

Record ResyncState := MkResync { last_resync : u64; attestations : gmap IpAddr u64 }.
Definition resync_init : ResyncState := MkResync 0 ∅.

Definition ahead (local_height : u64) (h : u64) : bool := add64 local_height 50 <? h.
Definition agreeing_peers (local_height : u64) (m : gmap IpAddr u64) : nat :=
  size (filter (λ kv : IpAddr * u64, ahead local_height kv.2 = true) m).

Definition should_trigger_resync (env : option nat) (now : u64) (peer_ip : IpAddr) (peer_height local_height : u64)
    (st : ResyncState) : bool * ResyncState :=
  if sub64 now (last_resync st) <? RESYNC_COOLDOWN_SECS then (false, st) else
  if (peer_height <=? add64 local_height 50) || (local_height =? 0) then (false, st) else
  let m := <[peer_ip := peer_height]> (attestations st) in
  if (get_resync_quorum env <=? agreeing_peers local_height m)%nat
  then (true, MkResync now ∅)
  else (false, MkResync (last_resync st) m).

(** ** Headers first *)

Record BlockHeaderSync := MkHeaderSync { hs_header : BlockHeader; hs_hash : Hash }.

Inductive SyncState :=
| Idle
| DownloadingHeaders (start_height current_height : u64)
| ValidatingHeaders
| Complete.

Record HeadersFirstSync := MkHeadersFirst {
  pending_headers : list BlockHeaderSync;
  headers : gmap Hash BlockHeaderSync;
  hf_requested : gset Hash;
  sync_state : SyncState }.

Definition headers_first_new : HeadersFirstSync := MkHeadersFirst [] ∅ ∅ Idle.

Definition start_sync (local_height : u64) (s : HeadersFirstSync) : u64 * HeadersFirstSync :=
  (local_height, MkHeadersFirst (pending_headers s) (headers s) (hf_requested s)
     (DownloadingHeaders local_height local_height)).

Definition add_headers (hs : list BlockHeaderSync) (s : HeadersFirstSync) : HeadersFirstSync :=
  MkHeadersFirst (pending_headers s ++ hs) (headers s) (hf_requested s) (sync_state s).

Section Headers.
Context `{Keccak, HashIter}.

Definition header_valid (current_time : u64) (h : BlockHeaderSync) : bool :=
  bool_decide (calculate_header_hash (hs_header h) = hs_hash h)
  && negb (difficulty (hs_header h) =? 0)
  && (timestamp (hs_header h) <=? add64 current_time 600)
  && (block_number (hs_header h) <=? 1000000000).

Fixpoint validate_loop (current_time : u64) (pending : list BlockHeaderSync)
    (acc : gmap Hash BlockHeaderSync * nat) : gmap Hash BlockHeaderSync * nat :=
  match pending with
  | [] => acc
  | h :: rest =>
      validate_loop current_time rest
        (if header_valid current_time h then (<[hs_hash h := h]> acc.1, S acc.2) else acc)
  end.
Definition validate_headers (current_time : u64) (s : HeadersFirstSync) : nat * HeadersFirstSync :=
  let '(hs, n) := validate_loop current_time (pending_headers s) (headers s, 0%nat) in
  (n, MkHeadersFirst [] hs (hf_requested s) ValidatingHeaders).

(** [hashes.sort()]: byte strings of one length, as numbers. *)
Definition sort_hashes (l : list Hash) : list Hash := sort_by_key (λ h, from_be_bytes (hash_bytes h)) l.
Definition get_headers_for_download (batch_size : nat) (s : HeadersFirstSync) : list Hash :=
  sort_hashes (take batch_size (fst <$> hm_iter (headers s))).

Definition mark_block_downloaded (h : Hash) (s : HeadersFirstSync) : HeadersFirstSync :=
  let hs := delete h (headers s) in
  let rq := hf_requested s ∖ {[h]} in
  MkHeadersFirst (pending_headers s) hs rq
    (if bool_decide (hs = ∅) && bool_decide (rq = ∅) then Complete else sync_state s).

Definition is_complete (s : HeadersFirstSync) : bool := match sync_state s with Complete => true | _ => false end.
End Headers.

(** ** Compact blocks *)

(** [siphasher::sip::SipHasher13] with its two keys. *)
Class SipHash := { sip13 : u64 → u64 → list u8 → u64 }.

Record CompactBlock := MkCompact {
  cb_header : BlockHeader;
  short_ids : list (list u8);
  prefilled_txs : list Transaction;
  cb_nonce : u64 }.

Section Compact.
Context `{Keccak, Blake3, SipHash, HashIter} (cpu : CpuFeatures) (buffer : list u8).

Definition generate_short_id (h : Hash) (nonce : u64) : list u8 :=
  take 6 (to_le_bytes 8 (sip13 nonce (add64 nonce 1) (hash_bytes h))).

(** [nonce] is drawn at random. *)
Definition from_block (nonce : u64) (b : Block) (mempool_hashes : gset Hash) : CompactBlock :=
  let '(ids, txs) :=
    foldl (λ '(ids, txs) tx,
      if bool_decide (tx_hash tx ∈ mempool_hashes) then (ids ++ [generate_short_id (tx_hash tx) nonce], txs)
      else (ids, txs ++ [tx])) ([], []) (transactions b) in
  MkCompact (header b) ids txs nonce.

Definition short_id_map (mempool : gmap Hash Transaction) (nonce : u64) : gmap (list u8) Transaction :=
  foldl (λ m kv, <[generate_short_id kv.1 nonce := kv.2]> m) ∅ (hm_iter mempool).

Definition to_block (c : CompactBlock) (mempool : gmap Hash Transaction) : option Block * list (list u8) :=
  let m := short_id_map mempool (cb_nonce c) in
  let '(txs, missing) :=
    foldl (λ '(txs, missing) id,
      match m !! id with
      | Some tx => (txs ++ [tx], missing)
      | None => (txs, missing ++ [id])
      end) (prefilled_txs c, []) (short_ids c) in
  match missing with
  | [] => (Some (block_new cpu buffer (cb_header c) txs), [])
  | _ => (None, missing)
  end.

Definition compact_block_hash (c : CompactBlock) : Hash := calculate_header_hash (cb_header c).

Definition find_transactions_by_short_ids (mempool : gmap Hash Transaction) (ids : list (list u8)) (nonce : u64) :
    gmap (list u8) Transaction :=
  foldl (λ m kv, let id := generate_short_id kv.1 nonce in
           if contains id ids then <[id := kv.2]> m else m) ∅ (hm_iter mempool).
End Compact.

(** ** Orphan blocks *)

Record OrphanPool := MkOrphanPool {
  orphans : gmap Hash Block;
  queue : list Hash;
  requested : gmap Hash (list SocketAddr);
  max_orphans : nat }.

Definition orphan_pool_new (n : nat) : OrphanPool := MkOrphanPool ∅ [] ∅ n.

(** [while orphans.len() >= max { match queue.pop_front() .. }] *)
Fixpoint evict_oldest (max : nat) (m : gmap Hash Block) (q : list Hash) : gmap Hash Block * list Hash :=
  if (max <=? size m)%nat then
    match q with
    | [] => (m, [])
    | oldest :: q' => evict_oldest max (delete oldest m) q'
    end
  else (m, q).

Definition add_orphan (b : Block) (p : OrphanPool) : list Hash * OrphanPool :=
  if bool_decide (is_Some (orphans p !! block_hash b)) then (parent_hashes (header b), p) else
  let '(m, q) := evict_oldest (max_orphans p) (orphans p) (queue p) in
  (parent_hashes (header b),
   MkOrphanPool (<[block_hash b := b]> m) (q ++ [block_hash b]) (requested p) (max_orphans p)).

Definition is_orphan (p : OrphanPool) (h : Hash) : bool := bool_decide (is_Some (orphans p !! h)).

Definition try_process_orphan (h : Hash) (p : OrphanPool) : option Block * OrphanPool :=
  match orphans p !! h with
  | Some b => (Some b, MkOrphanPool (delete h (orphans p)) (List.filter (λ x, negb (bool_decide (x = h))) (queue p))
                         (requested p) (max_orphans p))
  | None => (None, p)
  end.

Definition get_orphan_hashes `{HashIter} (p : OrphanPool) : list Hash := fst <$> hm_iter (orphans p).
Definition mark_requested (h : Hash) (peer : SocketAddr) (p : OrphanPool) : OrphanPool :=
  MkOrphanPool (orphans p) (queue p) (<[h := default [] (requested p !! h) ++ [peer]]> (requested p)) (max_orphans p).
Definition unmark_requested (h : Hash) (p : OrphanPool) : OrphanPool :=
  MkOrphanPool (orphans p) (queue p) (delete h (requested p)) (max_orphans p).
Definition orphan_count (p : OrphanPool) : nat := size (orphans p).

(** * The quorum is real *)

Record ResyncCall := MkCall { rc_now : u64; rc_ip : IpAddr; rc_peer : u64; rc_local : u64 }.
Definition do_call (env : option nat) (st : ResyncState) (c : ResyncCall) : ResyncState :=
  (should_trigger_resync env (rc_now c) (rc_ip c) (rc_peer c) (rc_local c) st).2.

Lemma quorum_at_least_two env : (2 <= get_resync_quorum env)%nat.
Proof. destruct env; cbn; unfold RESYNC_QUORUM; lia. Qed.

(** Every attestation was made by a call of that peer. *)
Definition attested (calls : list ResyncCall) (st : ResyncState) : Prop :=
  ∀ ip h, attestations st !! ip = Some h → ∃ c, c ∈ calls ∧ rc_ip c = ip ∧ rc_peer c = h.

Lemma attested_step env calls st c : attested calls st → attested (calls ++ [c]) (do_call env st c).
Proof.
  intros Ha. assert (attested (calls ++ [c]) st) as Hold.
  { intros ip h Hl. destruct (Ha ip h Hl) as (c' & Hc & He). exists c'. set_solver. }
  unfold do_call, should_trigger_resync. repeat case_match; try done.
  intros ip h Hl. cbn in Hl. apply lookup_insert_Some in Hl as [[<- <-]|[_ Hl]]; [|by apply Hold].
  exists c. set_solver.
Qed.

Lemma attested_run env calls : attested calls (foldl (do_call env) resync_init calls).
Proof.
  induction calls as [|c calls IH] using rev_ind; [done|].
  rewrite foldl_app. cbn. by apply attested_step.
Qed.

(** A resync is triggered only when at least two peers, and as many as the
    quorum asks for, have reported a height more than 50 above the local one,
    and not within the cooldown of the one before. *)
Theorem resync_needs_quorum env calls now ip peer_height local_height st' :
  let st := foldl (do_call env) resync_init calls in
  should_trigger_resync env now ip peer_height local_height st = (true, st') →
  (0 <= now - last_resync st <= u64_max → RESYNC_COOLDOWN_SECS <= now - last_resync st) ∧
  ∃ peers, NoDup peers ∧ (2 <= length peers)%nat ∧ (get_resync_quorum env <= length peers)%nat ∧
    ∀ p, p ∈ peers → ∃ c, c ∈ calls ++ [MkCall now ip peer_height local_height] ∧
      rc_ip c = p ∧ add64 local_height 50 < rc_peer c.
Proof.
  intros st Ht. unfold should_trigger_resync in Ht.
  destruct (sub64 now (last_resync st) <? RESYNC_COOLDOWN_SECS) eqn:Hcool; [done|].
  destruct ((peer_height <=? add64 local_height 50) || (local_height =? 0)) eqn:Hh; [done|].
  set (m := <[ip := peer_height]> (attestations st)) in Ht.
  destruct (get_resync_quorum env <=? agreeing_peers local_height m)%nat eqn:Hq; [|done].
  split.
  { intros Hr. rewrite sub64_small in Hcool by done. bool_to_prop. lia. }
  apply Nat.leb_le in Hq. pose proof (quorum_at_least_two env).
  exists (elements (dom (filter (λ kv : IpAddr * u64, ahead local_height kv.2 = true) m))).
  assert (length (elements (dom (filter (λ kv : IpAddr * u64, ahead local_height kv.2 = true) m)))
    = agreeing_peers local_height m) as Hlen by (unfold agreeing_peers; by rewrite <- size_dom).
  split_and!; [apply NoDup_elements|lia|lia|].
  intros p [h Hp]%elem_of_elements%elem_of_dom. apply map_lookup_filter_Some in Hp as [Hp Ha]. cbn in Ha.
  unfold ahead in Ha. bool_to_prop. apply lookup_insert_Some in Hp as [[<- <-]|[_ Hp]].
  - exists (MkCall now ip peer_height local_height). set_solver.
  - destruct (attested_run env calls p h Hp) as (c & Hc & <- & <-). exists c. set_solver.
Qed.

(** * The headers *)

Section HeaderTheorems.
Context `{Keccak}.

Inductive HeaderOp :=
| StartSync (local_height : u64)
| AddHeaders (hs : list BlockHeaderSync)
| ValidateHeaders (current_time : u64)
| MarkDownloaded (h : Hash).
Definition do_header_op (s : HeadersFirstSync) (op : HeaderOp) : HeadersFirstSync :=
  match op with
  | StartSync n => (start_sync n s).2
  | AddHeaders hs => add_headers hs s
  | ValidateHeaders now => (validate_headers now s).2
  | MarkDownloaded h => mark_block_downloaded h s
  end.

(** A validated header is stored under its own hash. *)
Record headers_ok (s : HeadersFirstSync) : Prop := {
  ho_requested : hf_requested s = ∅;
  ho_headers : map_Forall (λ h x, calculate_header_hash (hs_header x) = h ∧ difficulty (hs_header x) ≠ 0
    ∧ block_number (hs_header x) <= 1000000000) (headers s) }.

Lemma header_valid_spec now x : header_valid now x = true →
  calculate_header_hash (hs_header x) = hs_hash x ∧ difficulty (hs_header x) ≠ 0 ∧ block_number (hs_header x) <= 1000000000.
Proof. unfold header_valid. intros. bool_to_prop. done. Qed.

Lemma validate_loop_ok now pending : ∀ m n,
  map_Forall (λ h x, calculate_header_hash (hs_header x) = h ∧ difficulty (hs_header x) ≠ 0
    ∧ block_number (hs_header x) <= 1000000000) m →
  map_Forall (λ h x, calculate_header_hash (hs_header x) = h ∧ difficulty (hs_header x) ≠ 0
    ∧ block_number (hs_header x) <= 1000000000) (validate_loop now pending (m, n)).1.
Proof.
  induction pending as [|x rest IH]; intros m n Hm; [done|]. cbn [validate_loop fst snd].
  destruct (header_valid now x) eqn:Hv; [|by apply IH].
  apply IH, map_Forall_insert_2; [by apply header_valid_spec in Hv|done].
Qed.

Lemma do_header_op_ok s op : headers_ok s → headers_ok (do_header_op s op).
Proof.
  intros [Hr Hh]. destruct op; cbn [do_header_op start_sync add_headers snd]; [by split..| |].
  - unfold validate_headers. pose proof (validate_loop_ok current_time (pending_headers s) (headers s) 0 Hh) as Hv.
    destruct (validate_loop _ _ _). by split.
  - split; cbn; [set_solver|]. by apply map_Forall_delete.
Qed.

Lemma headers_run_ok ops : headers_ok (foldl do_header_op headers_first_new ops).
Proof.
  induction ops as [|op ops IH] using rev_ind; [by split; [|apply map_Forall_empty]|].
  rewrite foldl_app. by apply do_header_op_ok.
Qed.

Lemma foldl_mark_headers ds : ∀ s, headers (foldl (λ s h, mark_block_downloaded h s) s ds) = foldl (λ m h, delete h m) (headers s) ds.
Proof. induction ds as [|d ds IH]; intros s; [done|]. cbn. by rewrite IH. Qed.
Lemma foldl_mark_requested ds : ∀ s, hf_requested s = ∅ → hf_requested (foldl (λ s h, mark_block_downloaded h s) s ds) = ∅.
Proof. induction ds as [|d ds IH]; intros s Hs; [done|]. cbn. apply IH. cbn. set_solver. Qed.
Lemma foldl_delete_none {V} ds : ∀ (m : gmap Hash V) h, m !! h = None → foldl (λ m h, delete h m) m ds !! h = None.
Proof. induction ds as [|d ds IH]; intros m h Hm; [done|]. cbn. apply IH. by rewrite lookup_delete_None; right. Qed.
Lemma foldl_delete_lookup {V} ds : ∀ (m : gmap Hash V) h, h ∈ ds → foldl (λ m h, delete h m) m ds !! h = None.
Proof.
  induction ds as [|d ds IH]; intros m h Hh; [by apply elem_of_nil in Hh|]. cbn.
  apply elem_of_cons in Hh as [->|Hh]; [|by apply IH]. apply foldl_delete_none, lookup_delete_eq.
Qed.

(** Whatever was done before, every header waiting for its block is stored
    under its own hash with a non-zero difficulty; and once the blocks of all
    of them were downloaded, in any order, the synchronisation is complete. *)
Theorem headers_sync_completes ops ds :
  let s := foldl do_header_op headers_first_new ops in
  (∀ h x, headers s !! h = Some x → calculate_header_hash (hs_header x) = h ∧ difficulty (hs_header x) ≠ 0) ∧
  (ds ≠ [] → (∀ h, is_Some (headers s !! h) → h ∈ ds) →
   is_complete (foldl (λ s h, mark_block_downloaded h s) s ds) = true).
Proof.
  intros s. destruct (headers_run_ok ops) as [Hr Hh]. fold s in Hr, Hh. split.
  { intros h x Hx. destruct (Hh h x Hx) as (? & ? & _). done. }
  intros Hne Hall. destruct ds as [|d ds] using rev_ind; [done|]. clear IHds Hne.
  rewrite foldl_app. cbn. set (s' := foldl _ s ds). unfold is_complete, mark_block_downloaded. cbn.
  rewrite bool_decide_true, bool_decide_true; [done| |].
  - unfold s'. rewrite foldl_mark_requested by done. set_solver.
  - unfold s'. rewrite foldl_mark_headers. apply map_eq. intros h. rewrite lookup_empty, lookup_delete_None.
    destruct (decide (d = h)) as [->|Hd]; [by left|]. right.
    destruct (headers s !! h) eqn:Hs; [|by apply foldl_delete_none].
    apply foldl_delete_lookup. assert (h ∈ ds ++ [d]) as Hin by (apply Hall; by eexists). set_solver.
Qed.
End HeaderTheorems.

(** * The orphan pool is a bounded queue *)

(** The specification: a list of blocks, oldest first. *)
Module OrphanSpec.
Definition has (h : Hash) (b : Block) : bool := bool_decide (block_hash b = h).
Definition add (max : nat) (b : Block) (l : list Block) : list Block :=
  if existsb (has (block_hash b)) l then l else drop (S (length l) - max) l ++ [b].
Definition take_out (h : Hash) (l : list Block) : option Block * list Block :=
  (List.find (has h) l, List.filter (λ b, negb (has h b)) l).
End OrphanSpec.

Record represents (p : OrphanPool) (l : list Block) : Prop := {
  rp_queue : queue p = block_hash <$> l;
  rp_nodup : NoDup (block_hash <$> l);
  rp_map : orphans p = list_to_map ((λ b, (block_hash b, b)) <$> l) }.

Abbreviation keyed := (fmap (M:=list) (λ b : Block, (block_hash b, b))).

Lemma keyed_fst (l : list Block) : (keyed l).*1 = block_hash <$> l.
Proof. by rewrite <- list_fmap_compose. Qed.
Lemma keyed_lookup_None (l : list Block) h : h ∉ block_hash <$> l → (list_to_map (keyed l) : gmap Hash Block) !! h = None.
Proof. intros. apply not_elem_of_list_to_map_1. by rewrite keyed_fst. Qed.
Lemma keyed_lookup (l : list Block) h : (list_to_map (keyed l) : gmap Hash Block) !! h = List.find (OrphanSpec.has h) l.
Proof.
  induction l as [|b l IH]; [done|]. cbn. unfold OrphanSpec.has at 1. case_bool_decide as Hb.
  - subst. by rewrite lookup_insert_eq.
  - by rewrite lookup_insert_ne.
Qed.
Lemma keyed_size (l : list Block) : NoDup (block_hash <$> l) → size (list_to_map (keyed l) : gmap Hash Block) = length l.
Proof.
  induction l as [|b l IH]; [done|]. cbn. intros [Hb Hl]%NoDup_cons.
  rewrite map_size_insert_None, IH by (done || by apply keyed_lookup_None). done.
Qed.
Lemma keyed_delete_head (b : Block) l : block_hash b ∉ block_hash <$> l →
  delete (block_hash b) (list_to_map (keyed (b :: l)) : gmap Hash Block) = list_to_map (keyed l).
Proof. intros. cbn. by rewrite delete_insert_id by (by apply keyed_lookup_None). Qed.

Lemma evict_oldest_spec max l : NoDup (block_hash <$> l) →
  evict_oldest max (list_to_map (keyed l)) (block_hash <$> l)
  = (list_to_map (keyed (drop (S (length l) - max) l)), block_hash <$> drop (S (length l) - max) l).
Proof.
  induction l as [|b l IH]; intros Hnd.
  { cbn [evict_oldest fmap list_fmap]. rewrite drop_nil. by case_match. }
  change (block_hash <$> b :: l) with (block_hash b :: (block_hash <$> l)) in *. cbn [evict_oldest].
  rewrite keyed_size by done. apply NoDup_cons in Hnd as [Hb Hnd].
  destruct (Nat.leb_spec max (length (b :: l))) as [Hm|Hm]; cbn [length] in Hm |- *.
  - rewrite keyed_delete_head, IH by done. replace (S (S (length l)) - max)%nat with (S (S (length l) - max)) by lia. done.
  - by replace (S (S (length l)) - max)%nat with 0%nat by lia.
Qed.

Lemma find_existsb {A} (f : A → bool) l : is_Some (List.find f l) ↔ existsb f l = true.
Proof.
  induction l as [|x l IH]; cbn; [split; [by intros []|done]|]. destruct (f x); [|done]. split; [done|by eexists].
Qed.
Lemma existsb_has h (l : list Block) : existsb (OrphanSpec.has h) l = true ↔ h ∈ block_hash <$> l.
Proof.
  rewrite existsb_exists, list_elem_of_fmap. unfold OrphanSpec.has.
  split; intros (b & Hb); exists b; rewrite bool_decide_eq_true, list_elem_of_In in *; by destruct Hb.
Qed.

Lemma NoDup_drop_hash n (l : list Block) : NoDup (block_hash <$> l) → NoDup (block_hash <$> drop n l).
Proof. intros Hn. rewrite <- (take_drop n l), fmap_app, NoDup_app in Hn. by destruct Hn as (_ & _ & Hn). Qed.

Lemma add_orphan_represents b p l : represents p l → represents (add_orphan b p).2 (OrphanSpec.add (max_orphans p) b l).
Proof.
  intros [Hq Hn Hm]. unfold add_orphan, OrphanSpec.add. rewrite Hm, keyed_lookup.
  case_bool_decide as Hs; [rewrite (proj1 (find_existsb _ _)) by done; by split|].
  rewrite find_existsb in Hs. apply not_true_is_false in Hs as Hf. rewrite Hf, Hq, evict_oldest_spec by done.
  assert (block_hash b ∉ block_hash <$> l) as Hb by (by rewrite <- existsb_has).
  set (n := (S (length l) - max_orphans p)%nat).
  assert (block_hash b ∉ block_hash <$> drop n l) as Hb'.
  { intros Hin. apply Hb. rewrite <- (take_drop n l), fmap_app. set_solver. }
  split; cbn.
  - by rewrite fmap_app.
  - rewrite fmap_app, NoDup_app. split_and!; [by apply NoDup_drop_hash| |apply NoDup_singleton].
    intros h Hh ->%list_elem_of_singleton. done.
  - rewrite fmap_app, list_to_map_app. cbn. rewrite <- insert_union_r by (by apply keyed_lookup_None).
    by rewrite map_union_empty.
Qed.

Lemma filter_has_none h (l : list Block) : h ∉ block_hash <$> l → List.filter (λ b, negb (OrphanSpec.has h b)) l = l.
Proof.
  intros Hh. apply List.forallb_filter_id, forallb_forall. intros b Hb%list_elem_of_In. unfold OrphanSpec.has.
  rewrite bool_decide_false; [done|]. intros <-. apply Hh. by apply list_elem_of_fmap_2.
Qed.
Lemma keyed_delete h (l : list Block) : NoDup (block_hash <$> l) →
  delete h (list_to_map (keyed l) : gmap Hash Block) = list_to_map (keyed (List.filter (λ b, negb (OrphanSpec.has h b)) l)).
Proof.
  induction l as [|b l IH]; [intros _; cbn; apply delete_empty|]. cbn. intros [Hb Hl]%NoDup_cons.
  unfold OrphanSpec.has at 1. case_bool_decide as Hh; cbn.
  - subst. rewrite filter_has_none by done. by rewrite delete_insert_id by (by apply keyed_lookup_None).
  - rewrite delete_insert_ne by done. by rewrite IH.
Qed.
Lemma filter_fmap_hash h (l : list Block) :
  List.filter (λ x, negb (bool_decide (x = h))) (block_hash <$> l) = block_hash <$> List.filter (λ b, negb (OrphanSpec.has h b)) l.
Proof. induction l as [|b l IH]; [done|]. cbn. rewrite IH. unfold OrphanSpec.has. by case_match. Qed.

Lemma try_process_represents h p l : represents p l →
  (try_process_orphan h p).1 = (OrphanSpec.take_out h l).1 ∧
  represents (try_process_orphan h p).2 (OrphanSpec.take_out h l).2.
Proof.
  intros [Hq Hn Hm]. unfold try_process_orphan, OrphanSpec.take_out. rewrite Hm, keyed_lookup.
  destruct (List.find (OrphanSpec.has h) l) as [b|] eqn:Hf; cbn; split; try done.
  - split; cbn; [by rewrite Hq, filter_fmap_hash|by apply NoDup_filter_b|by apply keyed_delete].
  - rewrite filter_has_none; [by split|]. rewrite <- existsb_has. intros Hx%find_existsb. rewrite Hf in Hx. by destruct Hx.
Qed.

Inductive OrphanOp :=
| AddOrphan (b : Block) | TryProcess (h : Hash) | MarkRequested (h : Hash) (peer : SocketAddr) | UnmarkRequested (h : Hash).
Definition do_orphan_op (p : OrphanPool) (op : OrphanOp) : OrphanPool :=
  match op with
  | AddOrphan b => (add_orphan b p).2
  | TryProcess h => (try_process_orphan h p).2
  | MarkRequested h peer => mark_requested h peer p
  | UnmarkRequested h => unmark_requested h p
  end.
Definition do_spec_op (max : nat) (l : list Block) (op : OrphanOp) : list Block :=
  match op with
  | AddOrphan b => OrphanSpec.add max b l
  | TryProcess h => (OrphanSpec.take_out h l).2
  | _ => l
  end.

Lemma do_orphan_max p op : max_orphans (do_orphan_op p op) = max_orphans p.
Proof.
  destruct op; cbn; try done; unfold add_orphan, try_process_orphan; repeat case_match; done.
Qed.

Lemma do_orphan_represents p l op : represents p l → represents (do_orphan_op p op) (do_spec_op (max_orphans p) l op).
Proof.
  intros Hr. destruct op; cbn; [by apply add_orphan_represents|by apply try_process_represents|..];
    destruct Hr; by split.
Qed.

Lemma spec_length max l op : (length l <= Nat.max 1 max)%nat → (length (do_spec_op max l op) <= Nat.max 1 max)%nat.
Proof.
  intros Hl. destruct op; cbn; try done.
  - unfold OrphanSpec.add. case_match; [done|]. rewrite length_app, length_drop. cbn. lia.
  - etransitivity; [|exact Hl]. rewrite <- (filter_partition_length (λ b, negb (OrphanSpec.has h b)) l). apply Nat.le_add_r.
Qed.


(** * Compact blocks come back *)

Section CompactTheorems.
Context `{Keccak, Blake3, SipHash, HashIter} (cpu : CpuFeatures) (buffer : list u8).

Definition pooled (mh : gset Hash) (t : Transaction) : bool := bool_decide (tx_hash t ∈ mh).

Lemma from_block_spec nonce b mh : from_block nonce b mh =
  MkCompact (header b) ((λ t, generate_short_id (tx_hash t) nonce) <$> List.filter (pooled mh) (transactions b))
    (List.filter (λ t, negb (pooled mh t)) (transactions b)) nonce.
Proof.
  unfold from_block.
  assert (∀ txs ids pre, foldl (λ '(ids, txs) tx,
    if bool_decide (tx_hash tx ∈ mh) then (ids ++ [generate_short_id (tx_hash tx) nonce], txs) else (ids, txs ++ [tx]))
    (ids, pre) txs = (ids ++ ((λ t, generate_short_id (tx_hash t) nonce) <$> List.filter (pooled mh) txs),
                      pre ++ List.filter (λ t, negb (pooled mh t)) txs)) as Hf.
  { induction txs as [|t txs IH]; intros ids pre; cbn; [by rewrite !app_nil_r|].
    assert (pooled mh t = bool_decide (tx_hash t ∈ mh)) as -> by done.
    case_bool_decide; cbn; rewrite IH; by rewrite <- ?app_assoc. }
  by rewrite Hf.
Qed.

(** No two transactions of the pool share a short identifier. *)
Definition no_collision (nonce : u64) (mempool : gmap Hash Transaction) : Prop :=
  ∀ h1 h2, is_Some (mempool !! h1) → is_Some (mempool !! h2) →
    generate_short_id h1 nonce = generate_short_id h2 nonce → h1 = h2.

Lemma short_id_map_lookup nonce mempool h t : no_collision nonce mempool → mempool !! h = Some t →
  short_id_map mempool nonce !! generate_short_id h nonce = Some t.
Proof.
  intros Hc Ht. unfold short_id_map.
  apply (foldl_insert_eq (λ kv : Hash * Transaction, generate_short_id kv.1 nonce) snd).
  - exists (h, t). split; [|done]. by rewrite hm_iter_perm, elem_of_map_to_list.
  - intros [h' t'] Hin Heq. rewrite hm_iter_perm, elem_of_map_to_list in Hin. cbn in *.
    assert (h' = h) as -> by (eapply Hc; eauto). congruence.
Qed.

Lemma fill_spec (m : gmap (list u8) Transaction) ids : ∀ txs missing,
  (∀ id, id ∈ ids → is_Some (m !! id)) →
  foldl (λ '(txs, missing) id, match m !! id with
    | Some tx => (txs ++ [tx], missing) | None => (txs, missing ++ [id]) end) (txs, missing) ids
  = (txs ++ omap (m !!.) ids, missing).
Proof.
  induction ids as [|id ids IH]; intros txs missing Hs; cbn; [by rewrite app_nil_r|].
  destruct (Hs id ltac:(left)) as [t Ht]. rewrite Ht, IH by (intros; apply Hs; by right).
  by rewrite <- app_assoc.
Qed.

(** A receiver whose pool holds the transactions left out reconstructs a block
    with the same header and the same transactions, the ones sent in full
    first. *)
Theorem compact_block_roundtrip nonce b mh mempool :
  (∀ t, t ∈ transactions b → tx_hash t ∈ mh → mempool !! tx_hash t = Some t) →
  no_collision nonce mempool →
  ∃ b', to_block cpu buffer (from_block nonce b mh) mempool = (Some b', []) ∧
    header b' = header b ∧ transactions b' ≡ₚ transactions b ∧
    transactions b' = List.filter (λ t, negb (pooled mh t)) (transactions b) ++ List.filter (pooled mh) (transactions b).
Proof.
  intros Hm Hc. unfold to_block. rewrite from_block_spec. cbn [cb_nonce prefilled_txs short_ids cb_header].
  assert (∀ t, t ∈ List.filter (pooled mh) (transactions b) →
    short_id_map mempool nonce !! generate_short_id (tx_hash t) nonce = Some t) as Hl.
  { intros t (Hp & Ht)%elem_of_filter_b. unfold pooled in Hp. bool_to_prop. apply short_id_map_lookup; [done|by apply Hm]. }
  rewrite fill_spec.
  2:{ intros id (t & -> & Ht)%list_elem_of_fmap. eexists. by apply Hl. }
  assert (∀ l : list Transaction, (∀ t, t ∈ l → short_id_map mempool nonce !! generate_short_id (tx_hash t) nonce = Some t) →
    omap (short_id_map mempool nonce !!.) ((λ t, generate_short_id (tx_hash t) nonce) <$> l) = l) as Ho.
  { induction l as [|t l IH]; intros Hin; [done|]. cbn. rewrite Hin by left. f_equal. apply IH. intros. apply Hin. by right. }
  rewrite Ho by done. eexists. split; [done|]. cbn. split_and!; [done|apply filter_partition_perm|done].
Qed.
End CompactTheorems.
