(* ===== verification/TopoSort.v ===== *)
(** * TopoSort: parents before children

    Models [topological_sort_blocks] of
    [irondag-blockchain/src/network/sync.rs]: Kahn's algorithm on a batch of
    blocks.  The maps iterate in any order.  In-degrees are [usize] values; that
    the decrement never wraps is part of what is proved. *)

From S2P Require Import Prelude Types Block.

Section Topo.
Context `{HashIter}.

Abbreviation Blocks := (gmap Hash Block).

Definition by_hash_of (bs : list Block) : Blocks := foldl (λ m b, <[block_hash b := b]> m) ∅ bs.

Definition batch_parents (batch : gset Hash) (b : Block) : list Hash :=
  List.filter (λ p, bool_decide (p ∈ batch)) (parent_hashes (header b)).
Definition batch_degrees (batch : gset Hash) (m : Blocks) : gmap Hash usize :=
  (λ b, Z.of_nat (length (batch_parents batch b))) <$> m.

(** [children.entry(parent).or_default().push(hash)] *)
Definition add_child (h : Hash) (m : gmap Hash (list Hash)) (p : Hash) : gmap Hash (list Hash) :=
  <[p := default [] (m !! p) ++ [h]]> m.
Definition children_of (batch : gset Hash) (m : Blocks) : gmap Hash (list Hash) :=
  foldl (λ ch hb, foldl (add_child hb.1) ch (batch_parents batch hb.2)) ∅ (hm_iter m).

(** [deg -= 1; if deg == 0 { queue.push_back(child) }] *)
Definition release_child (st : gmap Hash usize * list Hash) (c : Hash) : gmap Hash usize * list Hash :=
  match st.1 !! c with
  | Some d => let d' := sub64 d 1 in (<[c := d']> st.1, if d' =? 0 then st.2 ++ [c] else st.2)
  | None => st
  end.

Fixpoint topo_loop (fuel : nat) (children : gmap Hash (list Hash)) (m : Blocks) (deg : gmap Hash usize)
    (queue : list Hash) (sorted : list Block) : option (list Block * Blocks) :=
  match queue with
  | [] => Some (sorted, m)
  | h :: q =>
      match fuel with
      | O => None
      | S fuel' =>
          match m !! h with
          | Some b =>
              let '(deg', q') := foldl release_child (deg, q) (default [] (children !! h)) in
              topo_loop fuel' children (delete h m) deg' q' (sorted ++ [b])
          | None => topo_loop fuel' children m deg q sorted
          end
      end
  end.

Definition topological_sort_blocks (bs : list Block) : option (list Block) :=
  let batch := list_to_set (block_hash <$> bs) in
  let m := by_hash_of bs in
  let deg := batch_degrees batch m in
  let queue := fst <$> List.filter (λ hd : Hash * usize, hd.2 =? 0) (hm_iter deg) in
  '(sorted, rest) ← topo_loop (length bs) (children_of batch m) m deg queue [];
  Some (sorted ++ (snd <$> hm_iter rest)).
End Topo.

(** ** Counting edges *)

Definition occ (x : Hash) (l : list Hash) : nat := length (List.filter (λ y, bool_decide (y = x)) l).

Lemma occ_app x l1 l2 : occ x (l1 ++ l2) = (occ x l1 + occ x l2)%nat.
Proof. unfold occ. by rewrite List.filter_app, length_app. Qed.
Lemma occ_cons x y l : occ x (y :: l) = ((if decide (y = x) then 1 else 0) + occ x l)%nat.
Proof. unfold occ. cbn. destruct (decide (y = x)); [rewrite bool_decide_true|rewrite bool_decide_false]; done. Qed.
Lemma occ_pos x l : (0 < occ x l)%nat ↔ x ∈ l.
Proof.
  induction l as [|y l IH]; [split; [cbn; lia|by intros ?%elem_of_nil]|]. rewrite occ_cons, elem_of_cons.
  destruct (decide (y = x)) as [->|Hne]; [split; [by left|lia]|]. rewrite <- IH. split; [by right|]. intros [->|?]; done.
Qed.
Lemma occ_zero x l : occ x l = 0%nat ↔ x ∉ l.
Proof. rewrite <- occ_pos. lia. Qed.

(** Releasing a list of children lowers every degree by the child's number of
    occurrences and queues the ones that reach zero, once each. *)
Lemma release_spec cs : ∀ deg q,
  (∀ c, c ∈ cs → ∃ d, deg !! c = Some d ∧ Z.of_nat (occ c cs) <= d <= u64_max) →
  ∃ deg' new, foldl release_child (deg, q) cs = (deg', q ++ new) ∧
    (∀ c, deg' !! c = (λ d, d - Z.of_nat (occ c cs)) <$> deg !! c) ∧
    NoDup new ∧ ∀ c, c ∈ new ↔ c ∈ cs ∧ deg !! c = Some (Z.of_nat (occ c cs)).
Proof.
  induction cs as [|c0 cs IH]; intros deg q Hd.
  { exists deg, []. rewrite app_nil_r. split_and!; [done| |constructor|].
    - intros c. destruct (deg !! c); cbn; [|done]. f_equal. lia.
    - intros c. split; [by intros ?%elem_of_nil|by intros [?%elem_of_nil _]]. }
  destruct (Hd c0 ltac:(left)) as (d & Hc0 & Hle & Hmax). rewrite occ_cons, decide_True in Hle by done.
  cbn [foldl]. assert (release_child (deg, q) c0 = (<[c0 := d - 1]> deg, if d - 1 =? 0 then q ++ [c0] else q)) as ->.
  { unfold release_child. cbn. rewrite Hc0. rewrite sub64_small by lia. done. }
  set (q1 := if d - 1 =? 0 then q ++ [c0] else q).
  destruct (IH (<[c0 := d - 1]> deg) q1) as (deg' & new & Hf & Hdeg & Hnd & Hnew).
  { intros c Hc. destruct (Hd c ltac:(by right)) as (dc & Hlc & Hrc). rewrite occ_cons in Hrc.
    destruct (decide (c0 = c)) as [->|Hne].
    - rewrite lookup_insert_eq. exists (d - 1). split; [done|]. assert (dc = d) by congruence. lia.
    - rewrite lookup_insert_ne by done. exists dc. split; [done|lia]. }
  assert (c0 ∈ new ↔ c0 ∈ cs ∧ d - 1 = Z.of_nat (occ c0 cs)) as Hc0new.
  { rewrite Hnew, lookup_insert_eq. split; intros [Hin He]; (split; [done|]); congruence. }
  exists deg', (if d - 1 =? 0 then c0 :: new else new). split_and!.
  - rewrite Hf. unfold q1. destruct (d - 1 =? 0); [by rewrite <- app_assoc|done].
  - intros c. rewrite Hdeg, occ_cons. destruct (decide (c0 = c)) as [->|Hne].
    + rewrite lookup_insert_eq, Hc0. cbn. f_equal. lia.
    + by rewrite lookup_insert_ne.
  - destruct (Z.eqb_spec (d - 1) 0) as [He|He]; [|done]. apply NoDup_cons. split; [|done].
    rewrite Hc0new. intros [Hin%occ_pos Heq]. lia.
  - intros c. rewrite occ_cons, elem_of_cons. destruct (decide (c0 = c)) as [->|Hne].
    + rewrite Hc0. destruct (Z.eqb_spec (d - 1) 0) as [He|He].
      * rewrite elem_of_cons. split; [intros _|by left]. split; [by left|]. f_equal.
        assert (occ c cs = 0%nat) by lia. lia.
      * rewrite Hc0new. split; [intros [_ Heq]; split; [by left|f_equal; lia]|].
        intros [_ Heq]. injection Heq as Heq. split; [|lia]. apply occ_pos. lia.
    + assert (c ∈ new ↔ c ∈ cs ∧ deg !! c = Some (Z.of_nat (occ c cs))) as Hcn
        by (by rewrite Hnew, lookup_insert_ne).
      replace (0 + occ c cs)%nat with (occ c cs) by lia.
      destruct (d - 1 =? 0); rewrite ?elem_of_cons, Hcn; naive_solver.
Qed.

Lemma add_children_occ c p h ps : ∀ m,
  occ c (default [] (foldl (add_child h) m ps !! p))
  = (occ c (default [] (m !! p)) + (if decide (h = c) then occ p ps else 0))%nat.
Proof.
  induction ps as [|p0 ps IH]; intros m; [cbn; case_decide; unfold occ; cbn; lia|].
  cbn [foldl]. rewrite IH. unfold add_child. destruct (decide (p0 = p)) as [->|Hne].
  - rewrite lookup_insert_eq. cbn [from_option]. unfold id. rewrite occ_app, !occ_cons. rewrite (decide_True (P := p = p)) by done.
    unfold occ at 2. cbn [List.filter length]. repeat case_decide; lia.
  - rewrite lookup_insert_ne by done. rewrite occ_cons, (decide_False (P := p0 = p)) by done. case_decide; lia.
Qed.

Lemma children_occ batch c p (L : list (Hash * Block)) : NoDup L.*1 → ∀ m,
  (∀ b, (c, b) ∈ L → occ c (default [] (foldl (λ ch hb, foldl (add_child hb.1) ch (batch_parents batch hb.2)) m L !! p))
     = (occ c (default [] (m !! p)) + occ p (batch_parents batch b))%nat) ∧
  (c ∉ L.*1 → occ c (default [] (foldl (λ ch hb, foldl (add_child hb.1) ch (batch_parents batch hb.2)) m L !! p))
     = occ c (default [] (m !! p))).
Proof.
  induction L as [|[h b0] L IH]; intros Hnd m; [split; [by intros b ?%elem_of_nil|done]|].
  cbn [fmap list_fmap fst] in Hnd. apply NoDup_cons in Hnd as [Hh Hnd]. cbn [foldl fst snd].
  destruct (IH Hnd (foldl (add_child h) m (batch_parents batch b0))) as [Hin Hout]. rewrite add_children_occ in Hin, Hout.
  split.
  - intros b [[= -> ->]|Hb]%elem_of_cons.
    + rewrite Hout by done. by rewrite decide_True.
    + rewrite (Hin b Hb). rewrite decide_False; [lia|]. intros ->. apply Hh. by apply (list_elem_of_fmap_2 fst) in Hb.
  - cbn. intros Hc. rewrite Hout by set_solver. rewrite decide_False; [lia|]. intros ->. set_solver.
Qed.

(** ** The invariant *)

(** The parents of a block in the batch that are not placed yet. *)
Definition need (batch : gset Hash) (placed : list Hash) (b : Block) : nat :=
  length (List.filter (λ p, negb (bool_decide (p ∈ placed))) (batch_parents batch b)).

Lemma need_place batch placed h b : h ∉ placed →
  need batch placed b = (need batch (placed ++ [h]) b + occ h (batch_parents batch b))%nat.
Proof.
  intros Hh. unfold need. induction (batch_parents batch b) as [|p l IH]; [done|]. cbn [List.filter]. rewrite occ_cons.
  destruct (decide (p = h)) as [->|Hne].
  - rewrite bool_decide_false by done. rewrite bool_decide_true by set_solver. cbn. lia.
  - destruct (decide (p ∈ placed)).
    + rewrite !bool_decide_true by set_solver. cbn. lia.
    + rewrite !bool_decide_false by set_solver. cbn. lia.
Qed.

Lemma need_zero batch placed b : need batch placed b = 0%nat ↔
  ∀ p, p ∈ parent_hashes (header b) → p ∈ batch → p ∈ placed.
Proof.
  unfold need, batch_parents. split.
  - intros Hl%length_zero_iff_nil p Hp Hb. destruct (decide (p ∈ placed)); [done|].
    assert (p ∈ List.filter (λ p, negb (bool_decide (p ∈ placed)))
      (List.filter (λ p, bool_decide (p ∈ batch)) (parent_hashes (header b)))) as Hin.
    { rewrite !elem_of_filter_b. rewrite bool_decide_false, bool_decide_true by done. done. }
    rewrite Hl in Hin. by apply elem_of_nil in Hin.
  - intros Ha. destruct (List.filter _ _) as [|p l] eqn:Hl; [done|].
    assert (p ∈ p :: l) as Hin by left. rewrite <- Hl, !elem_of_filter_b in Hin. destruct Hin as (Hn & Hb & Hp).
    bool_to_prop. exfalso. by apply Hn, Ha.
Qed.

Section TopoTheorems.
Context `{HashIter} (B : gmap Hash Block) (batch : gset Hash).
Context (Hkey : ∀ h b, B !! h = Some b → block_hash b = h) (Hbatch : ∀ h, h ∈ batch ↔ is_Some (B !! h)).
Context (Hsize : ∀ h b, B !! h = Some b → Z.of_nat (length (parent_hashes (header b))) <= u64_max).

Record topo_inv (m : gmap Hash Block) (deg : gmap Hash usize) (q : list Hash) (sorted : list Block) : Prop := {
  ti_map : ∀ h, m !! h = if bool_decide (h ∈ block_hash <$> sorted) then None else B !! h;
  ti_sorted : ∀ b, b ∈ sorted → B !! block_hash b = Some b;
  ti_nodup : NoDup (block_hash <$> sorted);
  ti_deg : ∀ h, deg !! h = (λ b, Z.of_nat (need batch (block_hash <$> sorted) b)) <$> B !! h;
  ti_queue_nodup : NoDup q;
  ti_queue : ∀ h, h ∈ q ↔ ∃ b, m !! h = Some b ∧ need batch (block_hash <$> sorted) b = 0%nat;
  ti_order : ∀ pre b suf, sorted = pre ++ b :: suf → need batch (block_hash <$> pre) b = 0%nat }.

Lemma children_of_occ c h : occ c (default [] (children_of batch B !! h))
  = match B !! c with Some b => occ h (batch_parents batch b) | None => 0%nat end.
Proof.
  unfold children_of. assert (NoDup (hm_iter B).*1) as Hnd.
  { rewrite hm_iter_perm. apply NoDup_fst_map_to_list. }
  destruct (children_occ batch c h (hm_iter B) Hnd ∅) as [Hin Hout].
  destruct (B !! c) as [b|] eqn:Hc.
  - rewrite (Hin b); [done|]. by rewrite hm_iter_perm, elem_of_map_to_list.
  - rewrite Hout; [done|]. rewrite hm_iter_perm. intros ([c' b] & -> & Hb)%list_elem_of_fmap.
    apply elem_of_map_to_list in Hb. cbn in Hc. congruence.
Qed.

Lemma need_mono placed placed' b : (∀ h, h ∈ placed → h ∈ placed') → need batch placed b = 0%nat → need batch placed' b = 0%nat.
Proof. rewrite !need_zero. naive_solver. Qed.

Lemma need_le placed b : (need batch placed b <= length (parent_hashes (header b)))%nat.
Proof.
  unfold need, batch_parents. etransitivity; [|apply List.filter_length_le]. apply List.filter_length_le.
Qed.

(** Placed blocks have nothing left to wait for. *)
Lemma sorted_need m deg q sorted b : topo_inv m deg q sorted → b ∈ sorted → need batch (block_hash <$> sorted) b = 0%nat.
Proof.
  intros Hi (pre & suf & Hs)%list_elem_of_split. eapply need_mono; [|by eapply (ti_order _ _ _ _ Hi)].
  rewrite Hs, fmap_app. set_solver.
Qed.

(** Placing the first block of the queue. *)
Lemma topo_step m deg h q sorted b : topo_inv m deg (h :: q) sorted → m !! h = Some b →
  ∃ deg' new, foldl release_child (deg, q) (default [] (children_of batch B !! h)) = (deg', q ++ new) ∧
    topo_inv (delete h m) deg' (q ++ new) (sorted ++ [b]).
Proof.
  intros Hi Hm. pose proof (ti_map _ _ _ _ Hi h) as Hmh. rewrite Hm in Hmh.
  case_bool_decide as Hns; [done|]. symmetry in Hmh. pose proof (Hkey _ _ Hmh) as Hbh.
  set (P := block_hash <$> sorted) in *.
  assert (block_hash <$> sorted ++ [b] = P ++ [h]) as HP by (rewrite fmap_app; cbn; by rewrite Hbh).
  set (cs := default [] (children_of batch B !! h)).
  assert (∀ c d, B !! c = Some d → need batch P d = (need batch (P ++ [h]) d + occ c cs)%nat) as Hneed.
  { intros c d Hc. unfold cs. rewrite children_of_occ, Hc. by apply need_place. }
  destruct (release_spec cs deg q) as (deg' & new & Hf & Hdeg & Hnd & Hnew).
  { intros c Hc. apply occ_pos in Hc as Ho. unfold cs in Ho. rewrite children_of_occ in Ho.
    destruct (B !! c) as [d|] eqn:Hd; [|lia]. exists (Z.of_nat (need batch P d)).
    rewrite (ti_deg _ _ _ _ Hi c), Hd. split; [done|].
    pose proof (Hneed c d Hd). pose proof (need_le P d). pose proof (Hsize c d Hd). lia. }
  assert (∀ c, c ∈ new ↔ ∃ d, B !! c = Some d ∧ need batch P d ≠ 0%nat ∧ need batch (P ++ [h]) d = 0%nat) as Hnew'.
  { intros c. rewrite Hnew, <- occ_pos, (ti_deg _ _ _ _ Hi c). fold P.
    destruct (B !! c) as [d|] eqn:Hd; cbn.
    - pose proof (Hneed c d Hd). split.
      + intros [Ho [= He]]. exists d. split; [done|lia].
      + intros (d' & [= <-] & H1 & H2). split; [lia|f_equal; lia].
    - split; [by intros [_ ?]|by intros (? & ? & _)]. }
  pose proof (ti_queue_nodup _ _ _ _ Hi) as [Hhq Hqnd]%NoDup_cons.
  exists deg', new. split; [done|]. split; rewrite ?HP.
  - intros c. destruct (decide (c = h)) as [->|Hne].
    + by rewrite lookup_delete_eq, bool_decide_true by set_solver.
    + rewrite lookup_delete_ne, (ti_map _ _ _ _ Hi c) by done. fold P.
      assert (bool_decide (c ∈ P ++ [h]) = bool_decide (c ∈ P)) as ->; [|done]. apply bool_decide_ext. set_solver.
  - intros x [Hx| ->%list_elem_of_singleton]%elem_of_app; [by apply (ti_sorted _ _ _ _ Hi)|]. by rewrite Hbh.
  - apply NoDup_app. split_and!; [apply Hi| |apply NoDup_singleton]. intros x Hx ->%list_elem_of_singleton. done.
  - intros c. rewrite Hdeg, (ti_deg _ _ _ _ Hi c). fold P. destruct (B !! c) as [d|] eqn:Hd; cbn; [|done].
    rewrite (Hneed c d Hd). f_equal. lia.
  - apply NoDup_app. split_and!; [done| |done]. intros c Hc (d & Hd & Hz & _)%Hnew'.
    assert (c ∈ h :: q) as (d' & Hd' & Hz')%(ti_queue _ _ _ _ Hi) by (by right).
    rewrite (ti_map _ _ _ _ Hi c) in Hd'. fold P in Hz'. case_bool_decide; [done|]. congruence.
  - intros c. rewrite elem_of_app, Hnew'. split.
    + intros [Hc|(d & Hd & Hz & Hz')].
      * assert (c ∈ h :: q) as (d' & Hd' & Hz')%(ti_queue _ _ _ _ Hi) by (by right).
        exists d'. split; [rewrite lookup_delete_ne; [done|by intros ->]|].
        eapply need_mono; [|done]. set_solver.
      * exists d. split; [|done]. rewrite lookup_delete_ne.
        -- rewrite (ti_map _ _ _ _ Hi c). fold P. rewrite bool_decide_false; [done|].
           intros (x & -> & Hx)%list_elem_of_fmap. apply Hz.
           pose proof (ti_sorted _ _ _ _ Hi x Hx) as Hx'. assert (x = d) as -> by congruence. by eapply sorted_need.
        -- intros <-. apply Hz. rewrite Hmh in Hd. injection Hd as <-.
           assert (h ∈ h :: q) as (d' & Hd' & Hz'')%(ti_queue _ _ _ _ Hi) by left. fold P in Hz''. congruence.
    + intros (d & Hd & Hz). apply lookup_delete_Some in Hd as [Hne Hd].
      destruct (decide (need batch P d = 0%nat)) as [Hz0|Hz0].
      * left. assert (c ∈ h :: q) as Hc by (apply (ti_queue _ _ _ _ Hi); by exists d). set_solver.
      * right. exists d. split_and!; [|done|done].
        rewrite (ti_map _ _ _ _ Hi c) in Hd. by case_bool_decide.
  - intros pre x suf Heq. destruct suf as [|z suf _] using rev_ind.
    + apply app_inj_tail in Heq as [-> ->].
      assert (h ∈ h :: q) as (d & Hd & Hz)%(ti_queue _ _ _ _ Hi) by left. fold P in Hz. by simplify_eq.
    + rewrite app_comm_cons, app_assoc in Heq. apply app_inj_tail in Heq as [-> _]. by eapply (ti_order _ _ _ _ Hi).
Qed.

Lemma topo_loop_spec fuel : ∀ m deg q sorted, topo_inv m deg q sorted → (size m <= fuel)%nat →
  ∃ sorted' m' deg', topo_loop fuel (children_of batch B) m deg q sorted = Some (sorted', m') ∧ topo_inv m' deg' [] sorted'.
Proof.
  induction fuel as [|fuel IH]; intros m deg [|h q] sorted Hi Hs; cbn [topo_loop].
  1,3: by exists sorted, m, deg.
  - assert (h ∈ h :: q) as (b & Hb & _)%(ti_queue _ _ _ _ Hi) by left.
    rewrite (map_size_empty_inv m) in Hb by lia. done.
  - assert (h ∈ h :: q) as (b & Hb & _)%(ti_queue _ _ _ _ Hi) by left. rewrite Hb.
    destruct (topo_step _ _ _ _ _ _ Hi Hb) as (deg' & new & -> & Hi').
    apply IH; [done|]. rewrite map_size_delete_Some by done. lia.
Qed.
End TopoTheorems.

Lemma by_hash_lookup bs h b : NoDup (block_hash <$> bs) → by_hash_of bs !! h = Some b ↔ b ∈ bs ∧ block_hash b = h.
Proof.
  intros Hnd. assert (∀ x, x ∈ bs → by_hash_of bs !! block_hash x = Some x) as Hin.
  { intros x Hx. apply (foldl_insert_eq block_hash id); [by exists x|]. intros y Hy He. by eapply NoDup_fmap_eq. }
  split.
  - intros Hb. destruct (decide (h ∈ block_hash <$> bs)) as [(x & -> & Hx)%list_elem_of_fmap|Hn].
    + rewrite (Hin x Hx) in Hb. injection Hb as <-. done.
    + unfold by_hash_of in Hb. rewrite (foldl_insert_ne block_hash id), lookup_empty in Hb; [done|].
      intros x Hx <-. apply Hn. by apply list_elem_of_fmap_2.
  - intros [Hb <-]. by apply Hin.
Qed.

(** The values of a map whose keys are the hashes of its blocks. *)
Lemma hashed_values `{HashIter} (m : gmap Hash Block) : (∀ h b, m !! h = Some b → block_hash b = h) →
  NoDup (snd <$> hm_iter m) ∧ ∀ b, b ∈ snd <$> hm_iter m ↔ m !! block_hash b = Some b.
Proof.
  intros Hk. rewrite hm_iter_perm. split.
  - apply NoDup_fmap_2_strong; [|apply NoDup_map_to_list]. intros [h1 b1] [h2 b2] Hx1 Hx2 Heq. cbn in Heq. subst b2.
    apply elem_of_map_to_list, Hk in Hx1 as <-. by apply elem_of_map_to_list, Hk in Hx2 as <-.
  - intros b. rewrite hm_iter_perm, list_elem_of_fmap. split.
    + intros ([h b'] & -> & Hb). apply elem_of_map_to_list in Hb. cbn. by rewrite (Hk _ _ Hb).
    + intros Hb. exists (block_hash b, b). split; [done|]. by apply elem_of_map_to_list.
Qed.

(** Without that assumption the last block of a hash counts. *)
Lemma by_hash_lookup_in bs h b : by_hash_of bs !! h = Some b → b ∈ bs ∧ block_hash b = h.
Proof.
  unfold by_hash_of. induction bs as [|x bs IH] using rev_ind; [done|]. rewrite foldl_app. cbn.
  intros [[<- <-]|[_ Hb]]%lookup_insert_Some; [set_solver|]. destruct (IH Hb). set_solver.
Qed.
Lemma by_hash_is_Some bs h : h ∈ block_hash <$> bs ↔ is_Some (by_hash_of bs !! h).
Proof.
  split.
  - unfold by_hash_of. induction bs as [|x bs IH] using rev_ind; [by intros ?%elem_of_nil|]. rewrite foldl_app, fmap_app. cbn.
    intros Hh. destruct (decide (block_hash x = h)) as [<-|Hne]; [by rewrite lookup_insert_eq|].
    rewrite lookup_insert_ne by done. apply IH. set_solver.
  - intros [b [Hb <-]%by_hash_lookup_in]. by apply list_elem_of_fmap_2.
Qed.

Section TopoMain.
Context `{HashIter} (bs : list Block).
Context (Hsize : ∀ b, b ∈ bs → Z.of_nat (length (parent_hashes (header b))) <= u64_max).

Abbreviation batch := (list_to_set (block_hash <$> bs) : gset Hash).
Abbreviation B := (by_hash_of bs).

Lemma batch_spec h : h ∈ batch ↔ is_Some (B !! h).
Proof. by rewrite elem_of_list_to_set, by_hash_is_Some. Qed.

Lemma topo_inv_init : topo_inv B batch B (batch_degrees batch B)
  (fst <$> List.filter (λ hd : Hash * usize, hd.2 =? 0) (hm_iter (batch_degrees batch B))) [].
Proof.
  assert (∀ b, need batch [] b = length (batch_parents batch b)) as Hneed.
  { intros b. unfold need. f_equal. apply List.forallb_filter_id, forallb_forall. intros x _. by rewrite bool_decide_false by set_solver. }
  split; cbn.
  - done.
  - by intros b ?%elem_of_nil.
  - constructor.
  - intros h. unfold batch_degrees. rewrite lookup_fmap. destruct (B !! h); cbn; [|done]. by rewrite Hneed.
  - apply NoDup_filter_b. rewrite hm_iter_perm. apply NoDup_fst_map_to_list.
  - intros h. rewrite list_elem_of_fmap. unfold batch_degrees. split.
    + intros ([h' d] & -> & (Hz & Hd)%elem_of_filter_b). rewrite hm_iter_perm, elem_of_map_to_list, lookup_fmap in Hd.
      cbn in *. destruct (B !! h') as [b|]; [|done]. injection Hd as <-. exists b. split; [done|]. rewrite Hneed. bool_to_prop. lia.
    + intros (b & Hb & Hz). exists (h, 0). split; [done|]. apply elem_of_filter_b. split; [done|].
      rewrite hm_iter_perm, elem_of_map_to_list, lookup_fmap, Hb. cbn. rewrite <- Hneed, Hz. done.
  - intros pre b suf Heq. by destruct pre.
Qed.

(** What is left when the queue is empty and the batch has no cycle. *)
Lemma topo_rest_empty (rank : Hash → nat) m deg sorted :
  (∀ b p, b ∈ bs → p ∈ parent_hashes (header b) → p ∈ block_hash <$> bs → (rank p < rank (block_hash b))%nat) →
  topo_inv B batch m deg [] sorted → m = ∅.
Proof.
  intros Hr Hi. apply map_empty. intros h. destruct (m !! h) as [b|] eqn:Hm; [|done]. exfalso. revert h b Hm.
  enough (∀ n h b, m !! h = Some b → (rank h < n)%nat → False) by eauto.
  induction n as [|n IH]; intros h b Hm Hn; [lia|].
  pose proof (ti_map _ _ _ _ _ _ Hi h) as Hh. rewrite Hm in Hh. case_bool_decide; [done|]. symmetry in Hh.
  apply by_hash_lookup_in in Hh as [Hb <-].
  assert (block_hash b ∈ []) as Hnil%elem_of_nil; [|done]. apply (ti_queue _ _ _ _ _ _ Hi). exists b. split; [done|].
  apply need_zero. intros p Hp Hpb. pose proof Hpb as [x Hx]%batch_spec.
  destruct (decide (p ∈ block_hash <$> sorted)) as [|Hns]; [done|]. exfalso.
  assert (p ∈ block_hash <$> bs) as Hpl by (by apply elem_of_list_to_set in Hpb).
  apply (IH p x); [|specialize (Hr b p Hb Hp Hpl); lia].
  rewrite (ti_map _ _ _ _ _ _ Hi p). by rewrite bool_decide_false.
Qed.

Lemma topo_permutation m deg q sorted : NoDup (block_hash <$> bs) → topo_inv B batch m deg q sorted → sorted ++ (snd <$> hm_iter m) ≡ₚ bs.
Proof.
  intros Hnd Hi. assert (∀ h b, m !! h = Some b → block_hash b = h) as Hk.
  { intros h b Hb. rewrite (ti_map _ _ _ _ _ _ Hi h) in Hb. case_bool_decide; [done|].
    by apply by_hash_lookup in Hb as [_ <-]. }
  destruct (hashed_values m Hk) as [Hv Hin]. apply NoDup_Permutation.
  - apply NoDup_app. split_and!; [by apply (NoDup_fmap_1 block_hash), Hi| |done].
    intros b Hb Hm%Hin. rewrite (ti_map _ _ _ _ _ _ Hi) in Hm. rewrite bool_decide_true in Hm; [done|].
    by apply list_elem_of_fmap_2.
  - by apply (NoDup_fmap_1 block_hash).
  - intros b. rewrite elem_of_app, Hin, (ti_map _ _ _ _ _ _ Hi). split.
    + intros [Hb|Hb]; [apply (ti_sorted _ _ _ _ _ _ Hi) in Hb|case_bool_decide; [done|]];
        by apply by_hash_lookup in Hb as [? _].
    + intros Hb. case_bool_decide as Hs; [|right; by apply by_hash_lookup].
      left. apply list_elem_of_fmap in Hs as (x & Heq & Hx).
      apply (ti_sorted _ _ _ _ _ _ Hi) in Hx as Hx'. apply by_hash_lookup in Hx' as [Hx' _]; [|done].
      by rewrite (NoDup_fmap_eq block_hash bs b x).
Qed.

Lemma topo_run : ∃ sorted m deg,
  topological_sort_blocks bs = Some (sorted ++ (snd <$> hm_iter m)) ∧ topo_inv B batch m deg [] sorted.
Proof.
  assert (∀ h b, B !! h = Some b → block_hash b = h) as Hk by (intros h b Hb; by apply by_hash_lookup_in in Hb as [_ <-]).
  assert (∀ h b, B !! h = Some b → Z.of_nat (length (parent_hashes (header b))) <= u64_max) as Hs
    by (intros h b Hb; apply by_hash_lookup_in in Hb as [Hb _]; by apply Hsize).
  destruct (topo_loop_spec B batch Hk batch_spec Hs (length bs) _ _ _ _ topo_inv_init) as (sorted & m & deg & Hl & Hi).
  - clear. unfold by_hash_of. induction bs as [|x l IH] using rev_ind; [done|]. rewrite foldl_app, length_app. cbn.
    rewrite map_size_insert. case_match; cbn; lia.
  - exists sorted, m, deg. unfold topological_sort_blocks. cbv zeta. by rewrite Hl.
Qed.

(** Sorting always ends, and the result holds only blocks of the batch. *)
Lemma topological_sort_total : ∃ out, topological_sort_blocks bs = Some out ∧ ∀ b, b ∈ out → b ∈ bs.
Proof.
  destruct topo_run as (sorted & m & deg & -> & Hi). eexists. split; [done|].
  intros b [Hb|Hb]%elem_of_app.
  - by apply (ti_sorted _ _ _ _ _ _ Hi), by_hash_lookup_in in Hb as [? _].
  - apply list_elem_of_fmap in Hb as ([h b'] & -> & Hb). rewrite hm_iter_perm, elem_of_map_to_list in Hb.
    rewrite (ti_map _ _ _ _ _ _ Hi h) in Hb. case_bool_decide; [done|]. by apply by_hash_lookup_in in Hb as [? _].
Qed.

(** C12: Sorting a batch loses and repeats no block, it puts every sorted block
    after all its parents in the batch, and when the batch has no cycle of
    parents every block is sorted.  The loop always ends, and no in-degree
    wraps around. *)
Theorem topological_sort_correct : NoDup (block_hash <$> bs) →
  ∃ sorted rest, topological_sort_blocks bs = Some (sorted ++ rest) ∧ sorted ++ rest ≡ₚ bs ∧
    (∀ pre b suf p, sorted = pre ++ b :: suf → p ∈ parent_hashes (header b) → p ∈ block_hash <$> bs → p ∈ block_hash <$> pre) ∧
    (∀ rank : Hash → nat,
      (∀ b p, b ∈ bs → p ∈ parent_hashes (header b) → p ∈ block_hash <$> bs → (rank p < rank (block_hash b))%nat) →
      rest = []).
Proof.
  intros Hnd. destruct topo_run as (sorted & m & deg & Hl & Hi).
  exists sorted, (snd <$> hm_iter m). split; [done|]. split_and!.
  - by eapply topo_permutation.
  - intros pre b suf p Heq Hp Hb. pose proof (ti_order _ _ _ _ _ _ Hi pre b suf Heq) as Hz. rewrite need_zero in Hz.
    apply Hz; [done|]. by apply elem_of_list_to_set.
  - intros rank Hr. rewrite (topo_rest_empty rank _ _ _ Hr Hi).
    apply Permutation_nil_r. by rewrite hm_iter_perm, map_to_list_empty.
Qed.
End TopoMain.
