(* ===== verification/SyncProtocol.v ===== *)
(** * SyncProtocol: serving and fetching blocks

    Models the middle of [irondag-blockchain/src/network/sync.rs]: the batch of
    blocks a server selects, signed responses, the request handler with its
    connection limits, and the client's requests over QUIC and TCP with the
    checks on what comes back.  A connection is a function from the bytes sent
    to the bytes received, or an I/O error; timeouts are such errors.  [now] is
    the clock in seconds. *)

From S2P Require Import Prelude Types Block Pow Error.
From S2P Require Import Storage DagStorage GhostDag.
From S2P Require Import Sponsorship PrivacyPool Recurring Governance Wallet Verkle.
From S2P Require Import Ledger BlockIndex Execution AccountFrame Chain.

Definition STREAM_TYPE_SYNC : u8 := 2.
Definition SYNC_MAGIC : list u8 := bytes_of_string "MSHWSYNC".
Definition SYNC_VERSION : u8 := 2.
Definition MAX_SYNC_RESPONSE_SIZE : u64 := 5 * 1024 * 1024.
Definition MAX_BLOCKS_PER_REQUEST : u64 := 500.
Definition MAX_SYNC_PRIMARY_BLOCKS : u64 := 128.
Definition MAX_CONCURRENT_SYNC_CONNECTIONS : nat := 50.
Definition MAX_CONNECTIONS_PER_IP : nat := 3.

(** ** Proof of work *)

(** [u8::leading_zeros] *)
Definition byte_leading_zeros (b : u8) : Z := if b =? 0 then 8 else 7 - Z.log2 b.
Fixpoint count_leading_zeros (bs : list u8) : Z :=
  match bs with
  | [] => 0
  | b :: rest => if b =? 0 then 8 + count_leading_zeros rest else byte_leading_zeros b
  end.

Definition verify_block_pow (b : Block) : bool :=
  if block_number (header b) =? 0 then true else
  if bool_decide (stream_type (header b) = StreamC) then true else
  if difficulty (header b) =? 0 then false else
  difficulty (header b) <=? count_leading_zeros (hash_bytes (block_hash b)).

(** ** Selecting a batch *)

(** [if block_number >= from_block && seen.insert(hash) { all.push(block) }] *)
Definition push_unseen (from_block : u64) (st : gset Hash * list Block) (b : Block) : gset Hash * list Block :=
  if (from_block <=? block_number (header b)) && negb (bool_decide (block_hash b ∈ st.1))
  then ({[block_hash b]} ∪ st.1, st.2 ++ [b]) else st.

(** The filter's closure: [seen] is [first_above_from_seen]. *)
Definition connects (from_block : u64) (seen : bool) (valid : gset Hash) (b : Block) : bool * bool :=
  let n := block_number (header b) in
  if (n =? 0) || (n <? from_block) then (true, seen) else
  let at_from := n =? from_block in
  let is_boundary := at_from || negb seen in
  let seen' := if at_from then seen else true in
  (is_boundary || existsb (λ p, bool_decide (p ∈ valid)) (parent_hashes (header b)), seen').
Fixpoint keep_connected (from_block : u64) (seen : bool) (valid : gset Hash) (bs : list Block) : list Block :=
  match bs with
  | [] => []
  | b :: rest =>
      let '(keep, seen') := connects from_block seen valid b in
      if keep then b :: keep_connected from_block seen' ({[block_hash b]} ∪ valid) rest
      else keep_connected from_block seen' valid rest
  end.

Section Select.
Context `{Hex, Keccak, Crypto, Evm, Codec Block, Codec (list Hash), Codec TxReceipt}.

Definition batch_size (count : u64) : nat :=
  Z.to_nat (Z.min (Z.min count MAX_BLOCKS_PER_REQUEST) MAX_SYNC_PRIMARY_BLOCKS).

Definition select_blocks_for_sync_batch (c : Blockchain) (from_block count : u64) : list Block :=
  let take_n := batch_size count in
  let st := foldl (push_unseen from_block) (∅, []) (get_blocks_from_storage c from_block (take_n * 2)) in
  let '(_, all) := foldl (push_unseen from_block) st (blocks (blocks_data c)) in
  let all := sort_by_key (λ b, block_number (header b)) all in
  let earliest := match all with b :: _ => block_number (header b) | [] => from_block end in
  let pruned_gap := from_block <? earliest in
  take take_n (keep_connected from_block (negb pruned_gap) ∅ all).
End Select.

(** ** Signed responses *)

Record SignedSyncResponse := MkResponse {
  rs_data : list u8;
  rs_signature : list u8;
  rs_public_key : list u8;
  rs_timestamp : u64 }.

Section Responses.
Context `{Crypto}.

Definition signed_bytes (data : list u8) (ts : u64) : list u8 := data ++ to_le_bytes 8 ts.

Definition response_sign (now : u64) (data secret_key : list u8) : SignedSyncResponse :=
  MkResponse data (ed25519_sign secret_key (signed_bytes data now)) (ed25519_public secret_key) now.

Definition response_verify (now : u64) (expected_pubkey : list u8) (r : SignedSyncResponse) : bool :=
  (length (rs_public_key r) =? 32)%nat && bool_decide (rs_public_key r = expected_pubkey)
  && negb ((add64 now 300 <? rs_timestamp r) || (rs_timestamp r <? sat_sub now 300))
  && ed25519_key_ok (rs_public_key r)
  && (length (rs_signature r) =? 64)%nat
  && ed25519_verify (rs_public_key r) (signed_bytes (rs_data r) (rs_timestamp r)) (rs_signature r).
End Responses.

(** ** The server *)

(** [read_exact] on what the peer sent. *)
Definition read_exact (n : nat) (bs : list u8) : result string (list u8 * list u8) :=
  if (length bs <? n)%nat then Err "unexpected end of file"%string else Ok (take n bs, drop n bs).

Lemma read_exact_app n (a b : list u8) : length a = n → read_exact n (a ++ b) = Ok (a, b).
Proof.
  intros <-. unfold read_exact. rewrite length_app. destruct (Nat.ltb_spec (length a + length b) (length a)) as [|_]; [lia|].
  by rewrite take_app_length, drop_app_length.
Qed.

(** [write_all(len as u32); write_all(bytes)] *)
Definition frame (bs : list u8) : list u8 := to_le_bytes 4 (Z.of_nat (length bs) mod 2 ^ 32) ++ bs.

Section Server.
Context `{Hex, Keccak, Crypto, Evm, Codec Block, Codec (list Hash), Codec TxReceipt}.
Context `{Codec (list Block), Codec SignedSyncResponse}.

Definition signed_reply (now : u64) (payload secret_key : list u8) : result string (list u8) :=
  frame <$> ok_or "bincode"%string (serialize (response_sign now payload secret_key)).

(** The bytes written back, none when the connection is dropped. *)
Definition handle_sync_client_secure (now : u64) (c : Blockchain) (secret_key input : list u8) : result string (list u8) :=
  '(head, rest) ← read_exact 10 input;
  if negb (bool_decide (take 8 head = SYNC_MAGIC)) then Ok [] else
  let version := nth 8 head 0 in
  let request_type := nth 9 head 0 in
  if version <? 2 then Ok [] else
  if request_type =? 0 then
    signed_reply now (to_le_bytes 8 (Z.of_nat (length (blocks (blocks_data c))))) secret_key
  else if request_type =? 1 then
    '(params, _) ← read_exact 16 rest;
    let from_block := from_le_bytes (take 8 params) in
    let count := Z.min (from_le_bytes (drop 8 params)) MAX_BLOCKS_PER_REQUEST in
    let bs := select_blocks_for_sync_batch c from_block count in
    blocks_data ← ok_or "bincode"%string (serialize bs);
    signed_reply now (to_le_bytes 8 (Z.of_nat (length bs)) ++ blocks_data) secret_key
  else Ok [].
End Server.

(** *** Connection limits *)

Record Connections := MkConnections { permits : nat; per_ip_counts : gmap IpAddr nat }.
Definition connections_new : Connections := MkConnections MAX_CONCURRENT_SYNC_CONNECTIONS ∅.
(** Accepting a connection takes a permit; one that is over the limit of its
    address drops it again. *)
Definition accept_connection (ip : IpAddr) (s : Connections) : bool * Connections :=
  match permits s with
  | O => (false, s)
  | S free =>
      let count := default 0%nat (per_ip_counts s !! ip) in
      if (MAX_CONNECTIONS_PER_IP <=? count)%nat then (false, MkConnections (S free) (<[ip := count]> (per_ip_counts s)))
      else (true, MkConnections free (<[ip := S count]> (per_ip_counts s)))
  end.
Definition close_connection (ip : IpAddr) (s : Connections) : Connections :=
  MkConnections (S (permits s))
    (match per_ip_counts s !! ip with
     | Some n => if (n - 1 =? 0)%nat then delete ip (per_ip_counts s) else <[ip := (n - 1)%nat]> (per_ip_counts s)
     | None => per_ip_counts s
     end).

(** [p2p_port.checked_add(1).expect(..)] *)
Definition sync_port (p2p_port : Z) : result string Z :=
  if p2p_port =? 65535 then Err "P2P port 65535 is not supported (sync port would overflow)"%string else Ok (p2p_port + 1).

(** ** The client *)

Definition Exchange := list u8 → result string (list u8).

Definition request_bytes (request_type : u8) (params : list u8) : list u8 :=
  SYNC_MAGIC ++ [SYNC_VERSION; request_type] ++ params.

Section Client.
Context `{Keccak, Blake3, Crypto, Codec (list Block), Codec SignedSyncResponse} (cpu : CpuFeatures) (buffer : list u8).

(** Reads a length, checks it against [limit], reads the response and verifies
    it. *)
Definition read_response (now limit : u64) (too_large forged : string) (expected_pubkey received : list u8) :
    result string SignedSyncResponse :=
  '(len_bytes, rest) ← read_exact 4 received;
  let response_len := from_le_bytes len_bytes in
  if limit <? response_len then Err too_large else
  '(response_bytes, _) ← read_exact (Z.to_nat response_len) rest;
  response ← ok_or "bincode"%string (deserialize response_bytes);
  _ ← ensure (response_verify now expected_pubkey response) forged;
  Ok response.

Definition get_height_over (ex : Exchange) (now : u64) (expected_pubkey : list u8) : result string u64 :=
  received ← ex (request_bytes 0 []);
  response ← read_response now 1024 "Height response too large"%string
    "Invalid signature on height response - possible MITM attack"%string expected_pubkey received;
  _ ← ensure (length (rs_data response) =? 8)%nat "Invalid height response length"%string;
  Ok (from_le_bytes (rs_data response)).

(** The hash matches and the proof of work holds. *)
Definition block_intact (b : Block) : bool :=
  bool_decide (block_calculate_hash cpu buffer b = block_hash b) && verify_block_pow b.

Definition download_over (ex : Exchange) (now : u64) (from_block count : u64) (expected_pubkey : list u8) :
    result string (list Block) :=
  received ← ex (request_bytes 1 (to_le_bytes 8 from_block ++ to_le_bytes 8 (Z.min count MAX_BLOCKS_PER_REQUEST)));
  response ← read_response now MAX_SYNC_RESPONSE_SIZE "Response too large"%string
    "Invalid signature on blocks response - possible MITM attack"%string expected_pubkey received;
  _ ← ensure (negb (length (rs_data response) <? 8)%nat) "Response payload too small"%string;
  let block_count := from_le_bytes (take 8 (rs_data response)) in
  bs ← ok_or "bincode"%string (deserialize (drop 8 (rs_data response)));
  _ ← ensure (Z.of_nat (length bs) =? block_count) "Block count mismatch"%string;
  Ok (List.filter block_intact bs).

(** A QUIC stream opens with the type of the stream. *)
Definition on_sync_stream (ex : Exchange) : Exchange := λ request, ex (STREAM_TYPE_SYNC :: request).
Definition quic_get_peer_height (connection : Exchange) (now : u64) (expected_pubkey : list u8) : result string u64 :=
  get_height_over (on_sync_stream connection) now expected_pubkey.
Definition quic_download_blocks (connection : Exchange) (now from_block count : u64) (expected_pubkey : list u8) :
    result string (list Block) :=
  download_over (on_sync_stream connection) now from_block count expected_pubkey.

(** TCP connects to the port after the peer's. *)
Definition sync_addr (peer : SocketAddr) : result string SocketAddr :=
  if socket_port peer =? 65535 then Err "Peer port 65535 is not supported (sync port would overflow)"%string
  else Ok (MkSocket (socket_ip peer) (socket_port peer + 1)).
Definition tcp_get_peer_height (connect : SocketAddr → result string Exchange) (peer : SocketAddr) (now : u64)
    (expected_pubkey : list u8) : result string u64 :=
  addr ← sync_addr peer; ex ← connect addr; get_height_over ex now expected_pubkey.
Definition tcp_download_blocks (connect : SocketAddr → result string Exchange) (peer : SocketAddr)
    (now from_block count : u64) (expected_pubkey : list u8) : result string (list Block) :=
  addr ← sync_addr peer; ex ← connect addr; download_over ex now from_block count expected_pubkey.

(** [SyncClient] repeats both transports as functions of its own. *)
Definition client_get_peer_height := tcp_get_peer_height.
Definition client_download_blocks := tcp_download_blocks.
End Client.
