(* ===== verification/SyncServing.v ===== *)
(** * SyncServing: what the sync protocol guarantees

    Theorems on [SyncProtocol]: the proof-of-work check as arithmetic, the shape
    of a served batch, a client reading a server's answers, and the connection
    limits of the server. *)

From S2P Require Import Prelude Types Block Pow Error.
From S2P Require Import Storage DagStorage GhostDag.
From S2P Require Import Sponsorship PrivacyPool Recurring Governance Wallet Verkle.
From S2P Require Import Ledger BlockIndex Execution AccountFrame Chain SyncProtocol.

(** ** Leading zeros *)

Lemma byte_leading_zeros_spec b d : 0 < b < 256 → 0 <= d <= 8 → d <= byte_leading_zeros b ↔ b < 2 ^ (8 - d).
Proof.
  intros Hb Hd. unfold byte_leading_zeros. destruct (Z.eqb_spec b 0) as [|_]; [lia|].
  pose proof (Z.log2_lt_pow2 b (8 - d) ltac:(lia)). lia.
Qed.

Lemma count_leading_zeros_range bs : bytes_ok bs → 0 <= count_leading_zeros bs <= 8 * Z.of_nat (length bs).
Proof.
  induction 1 as [|b bs Hb Hbs IH]; cbn [count_leading_zeros length]; [lia|]. case_match; [lia|].
  unfold byte_leading_zeros. case_match; [lia|]. pose proof (Z.log2_nonneg b).
  assert (Z.log2 b < 8) by (apply Z.log2_lt_pow2; [bool_to_prop|]; lia). lia.
Qed.

Lemma count_leading_zeros_spec bs : bytes_ok bs → ∀ d, 0 <= d <= 8 * Z.of_nat (length bs) →
  d <= count_leading_zeros bs ↔ from_be_bytes bs < 2 ^ (8 * Z.of_nat (length bs) - d).
Proof.
  induction 1 as [|b bs Hb Hbs IH]; intros d Hd; cbn [count_leading_zeros length] in *.
  { change (from_be_bytes []) with 0. assert (d = 0) as -> by lia. cbn. lia. }
  rewrite from_be_cons by done. pose proof (from_be_range bs Hbs) as Hr.
  set (n := Z.of_nat (length bs)) in *.
  assert (256 ^ n = 2 ^ (8 * n)) as Hpow by (rewrite Z.pow_mul_r by lia; done). rewrite Hpow in *. replace (Z.of_nat (S (length bs))) with (n + 1) in * by lia.
  destruct (Z.eqb_spec b 0) as [->|Hnz].
  - destruct (Z.le_gt_cases d 8) as [Hle|Hgt].
    + pose proof (count_leading_zeros_range bs Hbs). split; [intros _|lia].
      assert (2 ^ (8 * n) <= 2 ^ (8 * (n + 1) - d)) by (apply Z.pow_le_mono_r; lia). lia.
    + specialize (IH (d - 8) ltac:(lia)). replace (8 * (n + 1) - d) with (8 * n - (d - 8)) by lia. lia.
  - destruct (Z.le_gt_cases d 8) as [Hle|Hgt].
    + rewrite byte_leading_zeros_spec by lia. replace (8 * (n + 1) - d) with (8 * n + (8 - d)) by lia.
      rewrite Z.pow_add_r by lia. assert (0 < 2 ^ (8 * n)) by lia. split; nia.
    + assert (byte_leading_zeros b < 8).
      { unfold byte_leading_zeros. rewrite (proj2 (Z.eqb_neq b 0)) by done. pose proof (Z.log2_nonneg b). lia. }
      assert (2 ^ (8 * (n + 1) - d) <= 2 ^ (8 * n)) by (apply Z.pow_le_mono_r; lia).
      split; [lia|]. intros. nia.
Qed.

(** A downloaded block that needs proof of work passes exactly when its
    difficulty is between 1 and 256 and its hash, as a number, is below
    [2^(256 - difficulty)]: the test the miner stops on. *)
Theorem verify_block_pow_spec b :
  hash_wf (block_hash b) = true → 0 <= difficulty (header b) →
  block_number (header b) ≠ 0 → stream_type (header b) ≠ StreamC →
  (verify_block_pow b = true ↔
   1 <= difficulty (header b) <= 256 ∧ from_be_bytes (hash_bytes (block_hash b)) < 2 ^ (256 - difficulty (header b))) ∧
  (verify_block_pow b = true → meets_difficulty (block_hash b) (difficulty (header b)) = true).
Proof.
  intros [Hlen Hok]%bytes_wf_ok Hd Hn Hs.
  assert (verify_block_pow b = true ↔
    1 <= difficulty (header b) <= 256 ∧ from_be_bytes (hash_bytes (block_hash b)) < 2 ^ (256 - difficulty (header b))) as Hv.
  { unfold verify_block_pow. rewrite (proj2 (Z.eqb_neq _ _) Hn), bool_decide_false by done.
    pose proof (count_leading_zeros_range _ Hok) as Hr. rewrite Hlen in Hr.
    destruct (Z.eqb_spec (difficulty (header b)) 0) as [->|Hz]; [split; [done|lia]|]. rewrite Z.leb_le.
    pose proof (count_leading_zeros_spec _ Hok (difficulty (header b))) as Hc. rewrite Hlen in Hc.
    change (8 * Z.of_nat 32) with 256 in *. split.
    - intros Hle. split; [lia|]. apply Hc; lia.
    - intros [Hrange Hlt]. apply Hc; lia. }
  split; [done|]. intros [Hr Hlt]%Hv. rewrite meets_difficulty_leading_zeros by done.
  rewrite leading_zeros_value by (done || apply Z.mod_pos_bound; lia).
  rewrite Hlen, free_bits_difficulty by done. by rewrite Z.min_l by lia.
Qed.

(** ** The served batch *)

Lemma push_unseen_spec from bs : ∀ st,
  (∀ h, h ∈ st.1 ↔ h ∈ block_hash <$> st.2) → NoDup (block_hash <$> st.2) → (∀ b, b ∈ st.2 → from <= block_number (header b)) →
  let st' := foldl (push_unseen from) st bs in
  (∀ h, h ∈ st'.1 ↔ h ∈ block_hash <$> st'.2) ∧ NoDup (block_hash <$> st'.2) ∧
  (∀ b, b ∈ st'.2 → from <= block_number (header b)) ∧
  (∀ b, b ∈ bs → from <= block_number (header b) → block_hash b ∈ st'.1) ∧ (∀ h, h ∈ st.1 → h ∈ st'.1).
Proof.
  induction bs as [|b bs IH]; intros st Hs Hnd Hf; [split_and!; try done; by intros b ?%elem_of_nil|]. cbn [foldl].
  assert (push_unseen from st b = st ∨ (from <= block_number (header b) ∧ block_hash b ∉ st.1 ∧
    push_unseen from st b = ({[block_hash b]} ∪ st.1, st.2 ++ [b]))) as Hstep.
  { unfold push_unseen. destruct (from <=? _) eqn:Hle; cbn; [|by left]. case_bool_decide; cbn; [by left|].
    right. bool_to_prop. done. }
  assert (from <= block_number (header b) → block_hash b ∈ (push_unseen from st b).1) as Hb.
  { intros Hle. unfold push_unseen. apply Z.leb_le in Hle. rewrite Hle. cbn. case_bool_decide; cbn; set_solver. }
  destruct (IH (push_unseen from st b)) as (H1 & H2 & H3 & H4 & H5).
  - destruct Hstep as [->|(_ & _ & ->)]; [done|]. cbn. intros h. rewrite fmap_app. set_solver.
  - destruct Hstep as [->|(_ & Hn & ->)]; [done|]. cbn. rewrite fmap_app, NoDup_app. split_and!; [done| |apply NoDup_singleton].
    intros h Hh ->%list_elem_of_singleton. apply Hn. by apply Hs.
  - destruct Hstep as [->|(Hle & _ & ->)]; [done|]. cbn. intros x [Hx| ->%list_elem_of_singleton]%elem_of_app; [by apply Hf|done].
  - split_and!; [done|done|done| |].
    + intros x [->|Hx]%elem_of_cons Hle; [by apply H5, Hb|by apply H4].
    + intros h Hh. apply H5. destruct Hstep as [->|(_ & _ & ->)]; [done|cbn; set_solver].
Qed.

Lemma keep_connected_sublist from bs : ∀ seen valid, keep_connected from seen valid bs `sublist_of` bs.
Proof.
  induction bs as [|b bs IH]; intros seen valid; [constructor|]. cbn. destruct (connects _ _ _ _) as [[] s]; by constructor.
Qed.

(** Once the boundary was seen, every kept block is at [from], or below, or has
    a parent among the blocks kept before it. *)
Lemma keep_connected_parents from bs : ∀ valid pre b suf, keep_connected from true valid bs = pre ++ b :: suf →
  block_number (header b) = 0 ∨ block_number (header b) <= from ∨
  ∃ p, p ∈ parent_hashes (header b) ∧ (p ∈ valid ∨ p ∈ block_hash <$> pre).
Proof.
  induction bs as [|x bs IH]; intros valid pre b suf Heq; [by destruct pre|]. cbn [keep_connected] in Heq.
  assert ((connects from true valid x).2 = true) as Hseen by (unfold connects; by repeat case_match).
  destruct (connects from true valid x) as [keep seen] eqn:Hc. cbn in Hseen. subst seen.
  destruct keep; [|by eapply IH]. destruct pre as [|y pre]; injection Heq as -> Heq.
  - clear IH Heq. unfold connects in Hc. destruct (_ || _) eqn:Hz.
    { apply orb_true_iff in Hz as [Hz|Hz]; bool_to_prop; [by left|right; left; lia]. }
    injection Hc as Hk _. rewrite orb_false_r in Hk. apply orb_true_iff in Hk as [Hk|Hk]; [bool_to_prop; right; left; lia|].
    right. right. apply existsb_exists in Hk as (p & Hp & Hv). bool_to_prop. exists p. rewrite list_elem_of_In. by split; [|left].
  - destruct (IH _ _ _ _ Heq) as [Hz|[Hf|(p & Hp & Hv)]]; [by left|by right; left|].
    right. right. exists p. split; [done|]. cbn. set_solver.
Qed.

Section Batch.
Context `{Hex, Keccak, Crypto, Evm, Codec Block, Codec (list Hash), Codec TxReceipt}.

(** The blocks a batch is chosen from, by height. *)
Definition candidates (c : Blockchain) (from_block count : u64) : list Block :=
  sort_by_key (λ b, block_number (header b))
    (foldl (push_unseen from_block)
       (foldl (push_unseen from_block) (∅, []) (get_blocks_from_storage c from_block (batch_size count * 2)))
       (blocks (blocks_data c))).2.

Lemma candidates_spec c from_block count :
  NoDup (block_hash <$> candidates c from_block count) ∧
  (∀ b, b ∈ candidates c from_block count → from_block <= block_number (header b)) ∧
  StronglySorted (λ x y, block_number (header x) <= block_number (header y)) (candidates c from_block count) ∧
  (∀ b, b ∈ blocks (blocks_data c) → from_block <= block_number (header b) → candidates c from_block count ≠ []).
Proof.
  destruct (push_unseen_spec from_block (get_blocks_from_storage c from_block (batch_size count * 2)) (∅, []))
    as (H1' & H2' & H3' & _ & _); [set_solver|constructor|by intros b ?%elem_of_nil|].
  destruct (push_unseen_spec from_block (blocks (blocks_data c)) _ H1' H2' H3') as (Hs & Hnd & Hf & Hin & _).
  unfold candidates. set (st := foldl _ _ (blocks (blocks_data c))) in *.
  pose proof (sort_by_perm (key_leb (λ b, block_number (header b))) st.2) as Hp. split_and!.
  - unfold sort_by_key. by rewrite Hp.
  - intros b. unfold sort_by_key. rewrite Hp. apply Hf.
  - eapply StronglySorted_mono; [|apply sort_by_sorted].
    + intros x y Hxy. unfold le_of, key_leb in Hxy. by bool_to_prop.
    + intros x y. apply key_leb_total.
    + intros x y z. apply key_leb_trans.
  - intros b Hb Hle He. specialize (Hin b Hb Hle). apply Hs in Hin. rewrite <- Hp in Hin. unfold sort_by_key in He. rewrite He in Hin.
    by apply elem_of_nil in Hin.
Qed.

(** The blocks kept of the candidates: what a batch is cut from. *)
Definition kept (c : Blockchain) (from_block count : u64) : list Block :=
  let cs := candidates c from_block count in
  keep_connected from_block (negb (from_block <? match cs with b :: _ => block_number (header b) | [] => from_block end)) ∅ cs.

Lemma selected_kept c from_block count :
  select_blocks_for_sync_batch c from_block count = take (batch_size count) (kept c from_block count).
Proof. unfold select_blocks_for_sync_batch, kept, candidates. by destruct (foldl _ _ (blocks _)). Qed.

(** The lowest candidate is always kept, and the boundary is seen after it. *)
Lemma kept_cons c from_block count b cs : 0 <= from_block → candidates c from_block count = b :: cs →
  kept c from_block count = b :: keep_connected from_block true {[block_hash b]} cs.
Proof.
  intros Hfrom Hc. unfold kept. rewrite Hc. cbn [keep_connected].
  assert (from_block <= block_number (header b)) as Hb.
  { destruct (candidates_spec c from_block count) as (_ & Hf & _). apply Hf. rewrite Hc. left. }
  assert (connects from_block (negb (from_block <? block_number (header b))) ∅ b = (true, true)) as ->.
  { unfold connects. destruct (Z.eqb_spec (block_number (header b)) 0) as [Hz|Hz]; cbn [orb].
    - rewrite (proj2 (Z.ltb_ge _ _)) by lia. done.
    - rewrite (proj2 (Z.ltb_ge (block_number (header b)) from_block)) by lia.
      destruct (Z.eqb_spec (block_number (header b)) from_block) as [->|Hne]; [by rewrite Z.ltb_irrefl|].
      rewrite (proj2 (Z.ltb_lt from_block _)) by lia. done. }
  by rewrite (right_id_L ∅ (∪)).
Qed.

Lemma kept_parents c from_block count pre b suf : 0 <= from_block → kept c from_block count = pre ++ b :: suf →
  pre = [] ∨ block_number (header b) <= from_block ∨ ∃ p, p ∈ parent_hashes (header b) ∧ p ∈ block_hash <$> pre.
Proof.
  intros Hfrom Hk. destruct (candidates c from_block count) as [|x cs] eqn:Hc.
  { unfold kept in Hk. rewrite Hc in Hk. by destruct pre. }
  rewrite (kept_cons _ _ _ _ _ Hfrom Hc) in Hk. destruct pre as [|y pre]; [by left|]. right. injection Hk as <- Hk.
  destruct (keep_connected_parents _ _ _ _ _ _ Hk) as [Hz|[Hz|(p & Hp & Hv)]]; [left; lia|by left|].
  right. exists p. split; [done|]. cbn. set_solver.
Qed.

Lemma StronglySorted_sublist {A} (R : A → A → Prop) l l' : l' `sublist_of` l → StronglySorted R l → StronglySorted R l'.
Proof.
  induction 1 as [|x l1 l2 Hs IH|x l1 l2 Hs IH]; intros Hl; [constructor|..]; apply StronglySorted_inv in Hl as [Hl Hx].
  - constructor; [by apply IH|]. rewrite Forall_forall in *. intros y Hy. apply Hx. by eapply elem_of_sublist.
  - by apply IH.
Qed.

(** C23: Every block of a served batch, but the first, is at the requested height or
    has a parent that is served before it (the other parents need not be
    served); the batch has at most as many blocks as requested and at most 128,
    without repetitions, ordered by height, none below the requested height; and
    it is not empty when the server holds a block at or above that height. *)
Theorem sync_batch_connected c from_block count : 0 <= from_block →
  let r := select_blocks_for_sync_batch c from_block count in
  Z.of_nat (length r) <= Z.min (Z.max 0 count) 128 ∧ NoDup (block_hash <$> r) ∧ (∀ b, b ∈ r → from_block <= block_number (header b)) ∧
  StronglySorted (λ x y, block_number (header x) <= block_number (header y)) r ∧
  (∀ pre b suf, r = pre ++ b :: suf → pre = [] ∨ block_number (header b) = from_block ∨
     ∃ p, p ∈ parent_hashes (header b) ∧ p ∈ block_hash <$> pre) ∧
  (∀ b, b ∈ blocks (blocks_data c) → from_block <= block_number (header b) → 0 < count → r ≠ []).
Proof.
  intros Hfrom r. destruct (candidates_spec c from_block count) as (Hnd & Hf & Hs & Hne).
  assert (r `sublist_of` candidates c from_block count) as Hsub.
  { unfold r. rewrite selected_kept. etransitivity; [apply sublist_take|apply keep_connected_sublist]. }
  assert (∀ b, b ∈ r → from_block <= block_number (header b)) as Hge.
  { intros b Hb. apply Hf. by eapply elem_of_sublist. }
  split_and!.
  - unfold r. rewrite selected_kept, length_take. unfold batch_size, MAX_SYNC_PRIMARY_BLOCKS, MAX_BLOCKS_PER_REQUEST. lia.
  - eapply sublist_NoDup; [done|]. clear -Hsub. induction Hsub; cbn; by constructor.
  - done.
  - by eapply StronglySorted_sublist.
  - intros pre b suf Heq. assert (b ∈ r) as Hb by (rewrite Heq; set_solver). specialize (Hge b Hb).
    destruct (kept_parents c from_block count pre b (suf ++ drop (batch_size count) (kept c from_block count)) Hfrom)
      as [?|[?|?]]; [|by left|right; left; lia|by right; right].
    rewrite <- (take_drop (batch_size count) (kept c from_block count)) at 1. rewrite <- selected_kept. fold r.
    rewrite Heq. by rewrite <- app_assoc.
  - intros b Hb Hle Hpos He. specialize (Hne b Hb Hle). destruct (candidates c from_block count) as [|x cs] eqn:Hc; [done|].
    unfold r in He. rewrite selected_kept, (kept_cons _ _ _ _ _ Hfrom Hc) in He.
    assert (batch_size count ≠ 0%nat) as Hz by (unfold batch_size, MAX_SYNC_PRIMARY_BLOCKS, MAX_BLOCKS_PER_REQUEST; lia).
    by destruct (batch_size count).
Qed.
End Batch.

(** ** A client and an honest server *)

Section Exchange.
Context `{Hex, Keccak, Blake3, Crypto, Evm, Codec Block, Codec (list Hash), Codec TxReceipt}.
Context `{Codec (list Block), Codec SignedSyncResponse} (cpu : CpuFeatures) (buffer : list u8).

Lemma response_verify_sign sent now data sk :
  in_u64 now → 0 <= sent → now + 300 <= u64_max → now - 300 <= sent <= now + 300 →
  response_verify now (ed25519_public sk) (response_sign sent data sk) = true.
Proof.
  intros Hn Hs Hmax Hr. unfold response_verify, response_sign. cbn [rs_public_key rs_signature rs_data rs_timestamp].
  destruct (ed25519_correct sk (signed_bytes data sent)) as (-> & _ & ->).
  rewrite ed25519_public_length, ed25519_sign_length, bool_decide_true by done.
  rewrite add64_small by (unfold in_u64 in Hn; lia). unfold sat_sub, in_u64 in *.
  rewrite (proj2 (Z.ltb_ge _ _)) by lia. rewrite (proj2 (Z.ltb_ge _ _)) by lia. done.
Qed.

Lemma length_le4 x : length (to_le_bytes 4 x) = 4%nat.
Proof. pose proof (length_to_le_bytes 4 x ltac:(lia)). lia. Qed.

(** Reading what [signed_reply] wrote. *)
Lemma read_signed_reply sent now limit too_large forged payload sk bytes :
  in_u64 now → 0 <= sent → now + 300 <= u64_max → now - 300 <= sent <= now + 300 →
  serialize (response_sign sent payload sk) = Some bytes → Z.of_nat (length bytes) <= limit → limit < 2 ^ 32 →
  ∃ out, signed_reply sent payload sk = Ok out ∧
    read_response now limit too_large forged (ed25519_public sk) out = Ok (response_sign sent payload sk).
Proof.
  intros Hn Hs0 Hmax Hr Hs Hl Hlim. unfold signed_reply. rewrite Hs. cbn. eexists. split; [done|].
  unfold read_response, frame. rewrite read_exact_app by apply length_le4. cbn.
  rewrite Z.mod_small by lia. rewrite from_to_le_bytes by lia.
  rewrite (proj2 (Z.ltb_ge _ _)) by lia. rewrite Nat2Z.id.
  rewrite <- (app_nil_r bytes). rewrite read_exact_app by (by rewrite app_nil_r). cbn.
  rewrite ?app_nil_r, (deserialize_serialize _ _ Hs). cbn. rewrite response_verify_sign by done. done.
Qed.

(** The header of a request, read back by the server. *)
Lemma handle_request sent c sk t params : t = 0 ∨ t = 1 →
  handle_sync_client_secure sent c sk (request_bytes t params) =
  if t =? 0 then signed_reply sent (to_le_bytes 8 (Z.of_nat (length (blocks (blocks_data c))))) sk
  else '(ps, _) ← read_exact 16 params;
    let bs := select_blocks_for_sync_batch c (from_le_bytes (take 8 ps)) (Z.min (from_le_bytes (drop 8 ps)) MAX_BLOCKS_PER_REQUEST) in
    blocks_data ← ok_or "bincode"%string (serialize bs);
    signed_reply sent (to_le_bytes 8 (Z.of_nat (length bs)) ++ blocks_data) sk.
Proof.
  intros Ht. unfold handle_sync_client_secure, request_bytes.
  change (SYNC_MAGIC ++ [SYNC_VERSION; t] ++ params) with ((SYNC_MAGIC ++ [SYNC_VERSION; t]) ++ params).
  rewrite read_exact_app by done. destruct Ht as [-> | ->]; reflexivity.
Qed.

(** Asking an honest server for its height returns the number of its blocks in
    memory. *)
Lemma get_height_honest sent now c sk bytes :
  in_u64 now → 0 <= sent → now + 300 <= u64_max → now - 300 <= sent <= now + 300 →
  in_u64 (Z.of_nat (length (blocks (blocks_data c)))) →
  serialize (response_sign sent (to_le_bytes 8 (Z.of_nat (length (blocks (blocks_data c))))) sk) = Some bytes →
  Z.of_nat (length bytes) <= 1024 →
  get_height_over (handle_sync_client_secure sent c sk) now (ed25519_public sk) = Ok (Z.of_nat (length (blocks (blocks_data c)))).
Proof.
  intros Hn Hs0 Hmax Hr Hh Hs Hl. unfold get_height_over. rewrite handle_request by (by left). cbn [Z.eqb].
  edestruct (read_signed_reply sent now 1024) as (out & -> & Hread); try done. cbn. rewrite Hread. cbn.
  rewrite length_le8. cbn. by rewrite u64_le_roundtrip.
Qed.

End Exchange.

(** ** Connection limits *)

(** A run of the server: [opened] lists the address of every connection that
    is being served. *)
Inductive serving : Connections → list IpAddr → Prop :=
| serving_start : serving connections_new []
| serving_accept ip s s' opened : serving s opened → accept_connection ip s = (true, s') → serving s' (ip :: opened)
| serving_refuse ip s s' opened : serving s opened → accept_connection ip s = (false, s') → serving s' opened
| serving_close ip s before after : serving s (before ++ ip :: after) → serving (close_connection ip s) (before ++ after).

Definition from_ip (ip : IpAddr) (l : list IpAddr) : nat := length (List.filter (λ x, bool_decide (x = ip)) l).

Lemma from_ip_cons ip x l : from_ip ip (x :: l) = ((if decide (x = ip) then 1 else 0) + from_ip ip l)%nat.
Proof. unfold from_ip. cbn. destruct (decide (x = ip)); [rewrite bool_decide_true|rewrite bool_decide_false]; done. Qed.
Lemma from_ip_app ip l1 l2 : from_ip ip (l1 ++ l2) = (from_ip ip l1 + from_ip ip l2)%nat.
Proof. unfold from_ip. by rewrite List.filter_app, length_app. Qed.

(** The counters are those of the connections being served. *)
Lemma serving_counts s opened : serving s opened →
  (permits s + length opened = MAX_CONCURRENT_SYNC_CONNECTIONS)%nat ∧
  (∀ ip, default 0%nat (per_ip_counts s !! ip) = from_ip ip opened ∧ (from_ip ip opened <= MAX_CONNECTIONS_PER_IP)%nat).
Proof.
  induction 1 as [|ip s s' opened Hs [IHp IHc] Ha|ip s s' opened Hs [IHp IHc] Ha|ip s before after Hs [IHp IHc]].
  - split; [done|]. intros ip. split; [done|]. unfold from_ip, MAX_CONNECTIONS_PER_IP. cbn. lia.
  - unfold accept_connection in Ha. destruct (permits s) as [|free] eqn:Hp; [done|].
    destruct (Nat.leb_spec MAX_CONNECTIONS_PER_IP (default 0%nat (per_ip_counts s !! ip))) as [|Hlt]; [done|].
    injection Ha as <-. cbn [permits per_ip_counts length]. split; [lia|]. intros x. rewrite from_ip_cons. destruct (IHc x) as [IH1 IH2].
    destruct (decide (ip = x)) as [->|Hne]; [rewrite lookup_insert_eq; cbn; lia|]. rewrite lookup_insert_ne by done. lia.
  - unfold accept_connection in Ha. destruct (permits s) as [|free] eqn:Hp; [injection Ha as <-; by rewrite Hp|].
    destruct (Nat.leb_spec MAX_CONNECTIONS_PER_IP (default 0%nat (per_ip_counts s !! ip))) as [|Hlt]; [|done].
    injection Ha as <-. cbn [permits per_ip_counts]. split; [done|]. intros x. destruct (IHc x) as [IH1 IH2].
    destruct (decide (ip = x)) as [->|Hne]; [rewrite lookup_insert_eq; cbn; lia|]. by rewrite lookup_insert_ne.
  - rewrite length_app in IHp |- *. cbn [close_connection permits per_ip_counts length] in IHp |- *. split; [lia|]. intros x. destruct (IHc x) as [IH1 IH2].
    rewrite from_ip_app, from_ip_cons in IH1, IH2. rewrite from_ip_app. destruct (decide (ip = x)) as [->|Hne].
    + destruct (per_ip_counts s !! x) as [n|]; cbn in IH1; [|lia].
      destruct (Nat.eqb_spec (n - 1) 0); [rewrite lookup_delete_eq|rewrite lookup_insert_eq]; cbn; lia.
    + destruct (per_ip_counts s !! ip) as [n|]; [|lia].
      destruct (n - 1 =? 0)%nat; [rewrite lookup_delete_ne|rewrite lookup_insert_ne]; done || lia.
Qed.

(** However connections arrive and end, the sync server never serves more than
    50 at a time, nor more than 3 of one address. *)
Theorem serving_limits s opened : serving s opened →
  (length opened <= MAX_CONCURRENT_SYNC_CONNECTIONS)%nat ∧ ∀ ip, (from_ip ip opened <= MAX_CONNECTIONS_PER_IP)%nat.
Proof. intros [Hp Hc]%serving_counts. split; [lia|]. intros ip. apply Hc. Qed.
