(* ===== verification/FullSync.v ===== *)
(** * FullSync: catching up with a peer

    Models [full_sync_impl] of [irondag-blockchain/src/network/sync.rs] against
    the chain of [Chain] and any transport: the trait [SyncTransportOps] is a
    class whose operations may answer differently each time.  The blockchain's
    lock is taken and released between steps, and mining is paused meanwhile;
    the steps run one after the other here.  A panic is an error value, and
    [Stuck] is the outcome of running out of fuel in the download loop. *)

From S2P Require Import Prelude Types Block Pow Error.
From S2P Require Import Storage DagStorage GhostDag.
From S2P Require Import Sponsorship PrivacyPool Recurring Governance Wallet Verkle.
From S2P Require Import Ledger BlockIndex Execution AccountFrame Chain.
From S2P Require Import SyncPool TopoSort SyncProtocol.

Inductive SyncError := TransportFailed (e : string) | Panicked (e : string) | Stuck.

(** [trait SyncTransportOps] *)
Class SyncTransportOps (T : Type) := {
  tr_get_peer_height : T → result string u64 * T;
  tr_download_blocks : u64 → u64 → T → result string (list Block) * T;
  tr_peer_ip : T → IpAddr;
}.

Definition MAX_ACCUMULATED_ORPHANS : nat := 10000.
Definition MAX_PASSES : nat := 50.
Definition MAX_ORPHAN_PASSES : nat := 51.
Definition CHECKPOINT_GAP_THRESHOLD : u64 := 500.

Record SyncWorld `{Evm} (T : Type) := MkWorld {
  transport : T;
  resync : ResyncState;
  chain : Blockchain;
  mining_paused : option bool }.
Arguments MkWorld {_ _}.
Arguments transport {_ _}.
Arguments resync {_ _}.
Arguments chain {_ _}.
Arguments mining_paused {_ _}.

(** Keeping the orphans of a batch.  Draining more than there is panics. *)
Definition save_orphans (acc still : list Block) : result SyncError (list Block) :=
  let total := (length acc + length still)%nat in
  if (MAX_ACCUMULATED_ORPHANS <? total)%nat then
    let overflow := (total - MAX_ACCUMULATED_ORPHANS)%nat in
    acc ← (if (overflow <? length still)%nat then
             if (length acc <? overflow)%nat then Err (Panicked "drain range out of bounds") else Ok (drop overflow acc)
           else Ok acc);
    Ok (acc ++ take MAX_ACCUMULATED_ORPHANS still)
  else Ok (acc ++ still).

Section FullSync.
Context `{Hex, Keccak, Blake3, Crypto, Evm, HashIter, SliceSearch}.
Context `{Codec Block, Codec (list Hash), Codec TxReceipt}.
Context {T : Type} `{SyncTransportOps T}.
Context (gfuel : nat) (cpu : CpuFeatures) (buffer : list u8) (now : u64) (env : option nat).

Abbreviation World := (SyncWorld T).
Abbreviation SM := (SE (SyncWorld T) SyncError).

Definition set_transport (t : T) (w : World) : World := MkWorld t (resync w) (chain w) (mining_paused w).
Definition set_resync (r : ResyncState) (w : World) : World := MkWorld (transport w) r (chain w) (mining_paused w).
Definition set_chain (c : Blockchain) (w : World) : World := MkWorld (transport w) (resync w) c (mining_paused w).
Definition set_paused (p : bool) (w : World) : World :=
  MkWorld (transport w) (resync w) (chain w) ((λ _, p) <$> mining_paused w).

(** *** The chain *)

(** [bc.get_block_by_hash(h).is_some()] *)
Definition known (c : Blockchain) (h : Hash) : result SyncError bool :=
  match get_block_by_hash c h with
  | Ok o => Ok (bool_decide (is_Some o))
  | Err _ => Err (Panicked "get_block_by_hash")
  end.
Fixpoint any_known (c : Blockchain) (ps : list Hash) : result SyncError bool :=
  match ps with
  | [] => Ok false
  | p :: rest =>
      if bool_decide (p = hash_zero) then Ok true else
      k ← known c p;
      if (k : bool) then Ok true else any_known c rest
  end.

(** A panic ends the synchronisation; every other error is a refusal.  So is a
    loop of the engine that [gfuel] cut short: one unit is enough for a block
    that is admissible to it. *)
Inductive AddOutcome := Added | Duplicate | Refused.
Definition try_add (b : Block) : SM AddOutcome := λ w,
  match add_block_for_sync gfuel cpu buffer now b (chain w) with
  | (Ok true, c) => (Ok Added, set_chain c w)
  | (Ok false, c) => (Ok Duplicate, set_chain c w)
  | (Err (Panic m), c) => (Err (Panicked m), set_chain c w)
  | (Err _, c) => (Ok Refused, set_chain c w)
  end.

(** *** Inserting a batch *)

(** One pass: the number of blocks added and the blocks left. *)
Fixpoint insert_pass (bs : list Block) : SM (nat * list Block) :=
  match bs with
  | [] => mret (0%nat, [])
  | b :: rest =>
      present ← se_read (λ w, known (chain w) (block_hash b));
      if (present : bool) then insert_pass rest else
      parent ← se_read (λ w, any_known (chain w) (parent_hashes (header b)));
      if (parent : bool) then
        outcome ← try_add b;
        '(added, still) ← insert_pass rest;
        mret (match outcome with
              | Added => (S added, still)
              | Duplicate => (added, still)
              | Refused => (added, b :: still)
              end)
      else
        '(added, still) ← insert_pass rest;
        mret (added, b :: still)
  end.

(** Passes while there is progress; returns the blocks added and the orphans. *)
Fixpoint insert_passes (passes : nat) (remaining orphans : list Block) : SM (nat * list Block) :=
  match passes, remaining with
  | O, _ | _, [] => mret (0%nat, orphans)
  | S passes', _ =>
      '(added, still) ← insert_pass remaining;
      if (added =? 0)%nat then
        orphans' ← se_read (λ _, match still with [] => Ok orphans | _ => save_orphans orphans still end);
        mret (0%nat, orphans')
      else
        '(more, orphans') ← insert_passes passes' still orphans;
        mret ((added + more)%nat, orphans')
  end.

Fixpoint orphan_pass (bs : list Block) : SM (nat * list Block) :=
  match bs with
  | [] => mret (0%nat, [])
  | b :: rest =>
      parent ← se_read (λ w, any_known (chain w) (parent_hashes (header b)));
      if (parent : bool) then
        outcome ← try_add b;
        '(added, still) ← orphan_pass rest;
        mret (match outcome with Added => (S added, still) | _ => (added, still) end)
      else
        '(added, still) ← orphan_pass rest;
        mret (added, b :: still)
  end.
Fixpoint resolve_orphans (passes : nat) (orphans : list Block) : SM (nat * list Block) :=
  match passes with
  | O => mret (0%nat, orphans)
  | S passes' =>
      '(added, still) ← orphan_pass orphans;
      match added, still with
      | O, _ | _, [] => mret (added, still)
      | _, _ =>
          '(more, still') ← resolve_orphans passes' still;
          mret ((added + more)%nat, still')
      end
  end.

(** The trusted first block of a batch that is far ahead. *)
Definition install_checkpoint (bs : list Block) : SM (bool * list Block) := λ w,
  match bs with
  | [] => (Ok (false, []), w)
  | b :: rest =>
      let local_tip := cached_latest_block_number (chain w) in
      let first_num := block_number (header b) in
      let large_gap := add64 local_tip CHECKPOINT_GAP_THRESHOLD <? first_num in
      if ((local_tip =? 0) || large_gap) && (100 <? first_num) then
        let '(c, installed) := install_sync_checkpoint b (chain w) in
        (Ok (installed, rest), set_chain c w)
      else (Ok (false, bs), w)
  end.

Definition highest_number (current : u64) (bs : list Block) : u64 :=
  match bs with
  | [] => current
  | b :: rest => foldl (λ m x, Z.max m (block_number (header x))) (block_number (header b)) rest
  end.

(** A batch that arrived: the blocks added, the position reached, the orphans. *)
Definition process_sync_batch (current : u64) (bs orphans : list Block) : SM (nat * u64 * list Block) :=
  let by_number := sort_by_key (λ b, block_number (header b)) bs in
  let highest := highest_number current by_number in
  sorted ← se_read (λ _, ok_or Stuck (topological_sort_blocks by_number));
  '(installed, remaining) ← install_checkpoint sorted;
  '(added, orphans) ← insert_passes MAX_PASSES remaining orphans;
  let synced := ((if (installed : bool) then 1 else 0) + added)%nat in
  '(resolved, orphans) ← (if (0 <? synced)%nat && negb (bool_decide (orphans = []))
                          then resolve_orphans MAX_ORPHAN_PASSES orphans else mret (0%nat, orphans));
  w ← se_get;
  let next := if (synced + resolved =? 0)%nat then add64 highest 1
              else add64 (cached_latest_block_number (chain w)) 1 in
  mret (synced, next, orphans).

(** *** The download loop *)

Definition peer_height_now : SM (result string u64) := λ w,
  let '(r, t) := tr_get_peer_height (transport w) in (Ok r, set_transport t w).
Definition download (from_block count : u64) : SM (result string (list Block)) := λ w,
  let '(r, t) := tr_download_blocks from_block count (transport w) in (Ok r, set_transport t w).

Fixpoint download_loop (fuel : nat) (peer_height current : u64) (total : nat) (orphans : list Block) :
    SM (nat * list Block) :=
  if current <? peer_height then
    match fuel with
    | O => λ w, (Err Stuck, w)
    | S fuel' =>
        refreshed ← peer_height_now;
        let peer_height := match refreshed with Ok h => Z.max peer_height h | Err _ => peer_height end in
        let count := Z.min MAX_BLOCKS_PER_REQUEST (peer_height - current) in
        answer ← download current count;
        match answer with
        | Err _ => mret (total, orphans)
        | Ok [] =>
            if add64 current 1000 <? peer_height
            then download_loop fuel' peer_height (sat_sub peer_height 500) total orphans
            else mret (total, orphans)
        | Ok bs =>
            '(synced, next, orphans) ← process_sync_batch current bs orphans;
            download_loop fuel' peer_height next (total + synced)%nat orphans
        end
    end
  else mret (total, orphans).

Definition sync_range (fuel : nat) (peer_height start_from : u64) : SM nat :=
  '(total, orphans) ← download_loop fuel peer_height start_from 0%nat [];
  _ ← (match orphans with [] => mret (0%nat, []) | _ => resolve_orphans MAX_ORPHAN_PASSES orphans end);
  mret total.

(** [scopeguard]: mining resumes however the body ends. *)
Definition with_mining_paused {A} (m : SM A) : SM A := λ w,
  let '(r, w') := m (set_paused true w) in (r, set_paused false w').

Definition check_resync (peer_height local_height : u64) : SM bool := λ w,
  let '(b, r) := should_trigger_resync env now (tr_peer_ip (transport w)) peer_height local_height (resync w) in
  (Ok b, set_resync r w).

Definition full_sync_impl (fuel : nat) : SM nat :=
  w ← se_get;
  if negb (blockchain_ready (chain w)) then mret 0%nat else
  first ← peer_height_now;
  match first with
  | Err e => λ w, (Err (TransportFailed e), w)
  | Ok peer_height =>
      let local_height := cached_latest_block_number (chain w) in
      if peer_height <=? add64 local_height 1 then mret 0%nat else
      with_mining_paused (
        needs_full_resync ← check_resync peer_height local_height;
        if (needs_full_resync : bool) then
          w ← se_get;
          if local_height + 10 <? Z.of_nat (get_storage_block_count (chain w)) then mret 0%nat else
          _ ← se_mod (λ w, set_chain (clear_for_resync (chain w)) w);
          sync_range fuel peer_height 0
        else sync_range fuel peer_height (add64 local_height 1))
  end.
End FullSync.
