(* ===== verification/FullSyncTheorems.v ===== *)
(** * FullSyncTheorems: synchronisation ends, and only adds

    Theorems on [FullSync]: a synchronisation only appends blocks to a sound
    chain and always resumes mining; with a peer that answers a request with
    blocks of the requested range it ends; a peer that keeps sending one known
    block holds it forever; and the limit on saved orphans. *)

From S2P Require Import Prelude Types Block Pow Error.
From S2P Require Import Storage DagStorage GhostDag.
From S2P Require Import Sponsorship PrivacyPool Recurring Governance Wallet Verkle.
From S2P Require Import Ledger BlockIndex Execution AccountFrame Chain.
From S2P Require Import SyncPool TopoSort SyncProtocol FullSync.

(** A peer that answers within bounds: heights up to [N], and blocks of the
    requested range. *)
Class BoundedPeer (T : Type) `{SyncTransportOps T} (N : u64) (inv : T → Prop) : Prop := {
  bounded_height : ∀ t r t', inv t → tr_get_peer_height t = (r, t') → inv t' ∧ ∀ h, r = Ok h → h <= N;
  bounded_download : ∀ from count t r t', inv t → tr_download_blocks from count t = (r, t') → inv t' ∧
    ∀ bs, r = Ok bs → Forall (λ b, from <= block_number (header b) <= N ∧
      Z.of_nat (length (parent_hashes (header b))) <= u64_max) bs;
}.

Section Theorems.
Context `{Hex, Keccak, Blake3, Crypto, Evm, HashIter, SliceSearch}.
Context `{Codec Block, Codec (list Hash), Codec TxReceipt}.
Context {T : Type} `{SyncTransportOps T}.
Context (gfuel : nat) (cpu : CpuFeatures) (buffer : list u8) (now : u64) (env : option nat).

Abbreviation World := (SyncWorld T).
Abbreviation SM := (SE (SyncWorld T) SyncError).
Abbreviation latest := (λ w : SyncWorld T, cached_latest_block_number (chain w)).

(** *** Weakest preconditions

    [wp m w Q R]: run in [w], [m] ends with a result and a state in [Q], or in
    an error that is not [Stuck] and a state in [R]. *)
Definition wp {A} (m : SM A) (w : World) (Q : A → World → Prop) (R : World → Prop) : Prop :=
  match m w with
  | (Ok a, w') => Q a w'
  | (Err e, w') => e ≠ Stuck ∧ R w'
  end.

Lemma wp_bind {A B} (m : SM A) (k : A → SM B) w Q R :
  wp m w (λ a w', wp (k a) w' Q R) R → wp (m ≫= k) w Q R.
Proof. unfold wp, mbind, SE_bind. by destruct (m w) as [[a|e] w']. Qed.
Lemma wp_mono {A} (m : SM A) w (Q Q' : A → World → Prop) (R R' : World → Prop) :
  wp m w Q R → (∀ a w', Q a w' → Q' a w') → (∀ w', R w' → R' w') → wp m w Q' R'.
Proof. unfold wp. destruct (m w) as [[a|e] w']; [by auto|]. intros [? ?]; auto. Qed.
Lemma wp_ret {A} (a : A) w (Q : A → World → Prop) R : Q a w → wp (mret a) w Q R.
Proof. done. Qed.
Lemma wp_get w (Q : World → World → Prop) R : Q w w → wp se_get w Q R.
Proof. done. Qed.
Lemma wp_read {A} (f : World → result SyncError A) w (Q : A → World → Prop) (R : World → Prop) :
  (∀ a, f w = Ok a → Q a w) → (∀ e, f w = Err e → e ≠ Stuck ∧ R w) → wp (se_read f) w Q R.
Proof. unfold wp, se_read. destruct (f w); auto. Qed.

(** *** How the chain may move *)

Definition grows (c c' : Blockchain) : Prop :=
  chain_ok c → chain_ok c' ∧ ∃ more, blocks (blocks_data c') = blocks (blocks_data c) ++ more.
#[global] Instance grows_preorder : PreOrder grows.
Proof.
  split.
  - intros c Hc. split; [done|]. exists []. by rewrite app_nil_r.
  - intros c1 c2 c3 H12 H23 Hc. destruct (H12 Hc) as [Hc2 [m1 Hm1]]. destruct (H23 Hc2) as [Hc3 [m2 Hm2]].
    split; [done|]. exists (m1 ++ m2). by rewrite Hm2, Hm1, app_assoc.
Qed.

Context (N : u64) (inv : T → Prop).

(** From [w0], with blocks of at most height [N]. *)
Record reached (w0 w : World) : Prop := {
  re_inv : inv (transport w0) → inv (transport w);
  re_resync : resync w = resync w0;
  re_paused : mining_paused w = mining_paused w0;
  re_latest : latest w0 <= latest w <= Z.max (latest w0) N;
  re_grows : grows (chain w0) (chain w) }.

Lemma reached_refl w : reached w w.
Proof. split; [done|done|done|lia|reflexivity]. Qed.
Lemma reached_trans w0 w1 w2 : reached w0 w1 → reached w1 w2 → reached w0 w2.
Proof. intros [] []. split; [naive_solver|congruence|congruence|lia|by etransitivity]. Qed.

Definition within (lo : u64) (bs : list Block) : Prop :=
  Forall (λ b, lo <= block_number (header b) <= N) bs.

Lemma add_latest b c : ∃ r c', add_block_for_sync gfuel cpu buffer now b c = (r, c') ∧
  cached_latest_block_number c <= cached_latest_block_number c' <= Z.max (cached_latest_block_number c) (block_number (header b)) ∧
  (r = Ok true → block_number (header b) <= cached_latest_block_number c') ∧ grows c c'.
Proof.
  destruct (add_block_for_sync_run gfuel cpu buffer now b c) as (r & c' & Ha & Hr). exists r, c'. split; [done|].
  destruct r as [[]|e].
  - destruct Hr as (_ & Hnew & Hacc). apply accepted_committed in Hacc as Hcm. rewrite (cm_latest _ _ _ Hcm).
    split_and!; [lia|lia|lia|]. intros Hc. split; [by eapply committed_ok|]. exists [b]. by rewrite (cm_blocks _ _ _ Hcm).
  - destruct Hr as [-> _]. split_and!; [lia|lia|done|reflexivity].
  - apply rejected_index in Hr as Hi. rewrite (si_latest _ _ Hi). split_and!; [lia|lia|done|].
    intros Hc. split; [by eapply chain_ok_frame|]. exists []. by rewrite (si_blocks _ _ Hi), app_nil_r.
Qed.

Lemma set_chain_reached w c : cached_latest_block_number (chain w) <= cached_latest_block_number c
  <= Z.max (cached_latest_block_number (chain w)) N → grows (chain w) c → reached w (set_chain c w).
Proof. intros. by split. Qed.

Lemma wp_try_add b w0 w : reached w0 w → block_number (header b) <= N →
  wp (try_add gfuel cpu buffer now b) w
    (λ o w', reached w0 w' ∧ (o = Added → block_number (header b) <= latest w') ∧ latest w <= latest w') (reached w0).
Proof.
  intros Hr Hb. unfold wp, try_add. destruct (add_latest b (chain w)) as (r & c' & -> & Hl & Hadd & Hg).
  assert (reached w0 (set_chain c' w)) as Hr' by (eapply reached_trans; [done|]; apply set_chain_reached; [lia|done]).
  destruct r as [[]|e].
  - split_and!; [done|intros _; by apply Hadd|cbn; lia].
  - split_and!; [done|done|cbn; lia].
  - destruct e; first [by split|split_and!; [done|done|cbn; lia]].
Qed.

Lemma known_not_stuck c h e : known c h = Err e → e ≠ Stuck.
Proof. unfold known. destruct (get_block_by_hash c h); [done|]. by intros [= <-]. Qed.
Lemma any_known_not_stuck c ps e : any_known c ps = Err e → e ≠ Stuck.
Proof.
  induction ps as [|p ps IH]; [done|]. cbn. case_bool_decide; [done|].
  destruct (known c p) as [[]|e'] eqn:Hk; cbn; [done|done|]. intros [= <-]. by eapply known_not_stuck.
Qed.

Lemma wp_known h w0 w (Q : bool → World → Prop) : reached w0 w → (∀ b, Q b w) →
  wp (se_read (λ w, known (chain w) h)) w Q (reached w0).
Proof. intros. apply wp_read; [done|]. intros e He. split; [by eapply known_not_stuck|done]. Qed.
Lemma wp_any_known ps w0 w (Q : bool → World → Prop) : reached w0 w → (∀ b, Q b w) →
  wp (se_read (λ w, any_known (chain w) ps)) w Q (reached w0).
Proof. intros. apply wp_read; [done|]. intros e He. split; [by eapply any_known_not_stuck|done]. Qed.

(** One pass over a batch: what is left is part of it, and when a block was
    added the tip is at least as high as the lowest of the batch. *)
Definition pass_post (lo : u64) (w0 : World) (w : World) : nat * list Block → World → Prop :=
  λ '(added, still) w', reached w0 w' ∧ within lo still ∧ latest w <= latest w' ∧ ((0 < added)%nat → lo <= latest w').

Lemma wp_insert_pass lo bs w0 : ∀ w, reached w0 w → within lo bs →
  wp (insert_pass gfuel cpu buffer now bs) w (pass_post lo w0 w) (reached w0).
Proof.
  induction bs as [|b bs IH]; intros w Hw Hbs; cbn [insert_pass].
  { apply wp_ret. split_and!; [done|constructor|lia|lia]. }
  apply Forall_cons in Hbs as [Hb Hbs]. apply wp_bind, wp_known; [done|]. intros [].
  { by apply IH. }
  apply wp_bind, wp_any_known; [done|]. intros [].
  - apply wp_bind. eapply wp_mono; [apply (wp_try_add b w0 w); [done|lia]| |done].
    intros o w1 (Hw1 & Ho & Hl1). apply wp_bind. eapply wp_mono; [by apply IH| |done].
    intros [n still] w2 (Hw2 & Hs & Hl2 & Hn). apply wp_ret. destruct o.
    + split_and!; [done|done|lia|]. intros _. specialize (Ho eq_refl). lia.
    + split_and!; [done|done|lia|done].
    + split_and!; [done|by constructor|lia|done].
  - apply wp_bind. eapply wp_mono; [by apply IH| |done].
    intros [n still] w2 (Hw2 & Hs & Hl2 & Hn). apply wp_ret. split_and!; [done|by constructor|done|done].
Qed.

Lemma wp_orphan_pass bs w0 : ∀ w, reached w0 w → within 0 bs →
  wp (orphan_pass gfuel cpu buffer now bs) w (λ r w', pass_post 0 w0 w r w') (reached w0).
Proof.
  induction bs as [|b bs IH]; intros w Hw Hbs; cbn [orphan_pass].
  { apply wp_ret. split_and!; [done|constructor|lia|lia]. }
  apply Forall_cons in Hbs as [Hb Hbs]. apply wp_bind, wp_any_known; [done|]. intros [].
  - apply wp_bind. eapply wp_mono; [apply (wp_try_add b w0 w); [done|lia]| |done].
    intros o w1 (Hw1 & Ho & Hl1). apply wp_bind. eapply wp_mono; [by apply IH| |done].
    intros [n still] w2 (Hw2 & Hs & Hl2 & Hn). apply wp_ret. destruct o; (split_and!; [done|done|lia|]); [|done..].
    intros _. specialize (Ho eq_refl). lia.
  - apply wp_bind. eapply wp_mono; [by apply IH| |done].
    intros [n still] w2 (Hw2 & Hs & Hl2 & Hn). apply wp_ret. split_and!; [done|by constructor|done|done].
Qed.

Lemma wp_resolve_orphans passes w0 : ∀ orphans w, reached w0 w → within 0 orphans →
  wp (resolve_orphans gfuel cpu buffer now passes orphans) w
    (λ '(_, still) w', reached w0 w' ∧ within 0 still ∧ latest w <= latest w') (reached w0).
Proof.
  induction passes as [|passes IH]; intros orphans w Hw Ho; cbn [resolve_orphans].
  { apply wp_ret. split_and!; [done|done|lia]. }
  apply wp_bind. eapply wp_mono; [by apply wp_orphan_pass| |done]. intros [n still] w1 (Hw1 & Hs & Hl & _).
  destruct n as [|n]; [by apply wp_ret|]. destruct still as [|b still]; [by apply wp_ret|].
  apply wp_bind. eapply wp_mono; [by apply IH| |done]. intros [m still'] w2 (Hw2 & Hs2 & Hl2). apply wp_ret.
  split_and!; [done|done|lia].
Qed.

Lemma within_app lo l1 l2 : within lo l1 → within lo l2 → within lo (l1 ++ l2).
Proof. apply Forall_app_2. Qed.
Lemma within_lower lo bs : 0 <= lo → within lo bs → within 0 bs.
Proof. intros. eapply Forall_impl; [done|]. cbn. lia. Qed.

Lemma save_orphans_spec acc still : within 0 acc → within 0 still →
  match save_orphans acc still with Ok l => within 0 l | Err e => e ≠ Stuck end.
Proof.
  intros Ha Hs. unfold save_orphans. destruct (_ <? _)%nat; [|by apply within_app].
  destruct (_ <? length still)%nat; [destruct (length acc <? _)%nat|]; cbn; [done|..];
    (apply within_app; [try by apply Forall_drop|by apply Forall_take]); done.
Qed.

Lemma wp_insert_passes lo w0 passes : 0 <= lo → ∀ bs orphans w, reached w0 w → within lo bs → within 0 orphans →
  wp (insert_passes gfuel cpu buffer now passes bs orphans) w
    (λ '(n, orphans') w', reached w0 w' ∧ within 0 orphans' ∧ latest w <= latest w' ∧ ((0 < n)%nat → lo <= latest w'))
    (reached w0).
Proof.
  intros Hlo. induction passes as [|passes IH]; intros bs orphans w Hw Hbs Ho; cbn [insert_passes].
  { apply wp_ret. split_and!; [done|done|lia|lia]. }
  destruct bs as [|b bs]; [apply wp_ret; split_and!; [done|done|lia|lia]|].
  apply wp_bind. eapply wp_mono; [by apply (wp_insert_pass lo)| |done]. intros [n still] w1 (Hw1 & Hs & Hl & Hn).
  destruct (Nat.eqb_spec n 0) as [->|Hz].
  - apply wp_bind, wp_read.
    + intros o Hsave. apply wp_ret. split_and!; [done| |lia|lia].
      destruct still as [|x still]; [by injection Hsave as <-|].
      pose proof (save_orphans_spec orphans (x :: still) Ho ltac:(by eapply within_lower)) as Hx. by rewrite Hsave in Hx.
    + intros e He. split; [|done]. destruct still as [|x still]; [done|].
      pose proof (save_orphans_spec orphans (x :: still) Ho ltac:(by eapply within_lower)) as Hx. by rewrite He in Hx.
  - apply wp_bind. eapply wp_mono; [by apply IH| |done]. intros [m orphans'] w2 (Hw2 & Hs2 & Hl2 & _). apply wp_ret.
    split_and!; [done|done|lia|]. intros _. specialize (Hn ltac:(lia)). lia.
Qed.

Lemma wp_install_checkpoint lo bs w0 w : reached w0 w → within lo bs →
  wp (install_checkpoint bs) w (λ '(installed, rest) w', reached w0 w' ∧ within lo rest ∧ latest w <= latest w'
    ∧ (installed = true → lo <= latest w')) (reached w0).
Proof.
  intros Hw Hbs. unfold wp, install_checkpoint. destruct bs as [|b bs]; [split_and!; [done|done|lia|done]|].
  apply Forall_cons in Hbs as Hbs'. destruct Hbs' as [Hb Hrest]. destruct (_ && _); [|split_and!; [done|done|lia|done]].
  pose proof (checkpoint_ok b (chain w)) as Hok. unfold install_sync_checkpoint in *. case_bool_decide as Hd.
  - split_and!; [|done|cbn; lia|done]. eapply reached_trans; [done|]. apply set_chain_reached; [lia|reflexivity].
  - cbn in Hok |- *. split_and!; [|done|cbn; lia|cbn; lia]. eapply reached_trans; [done|].
    apply set_chain_reached; [cbn; lia|]. intros Hc. split; [by apply Hok|]. by exists [b].
Qed.

Lemma highest_number_spec lo current bs : within lo bs → bs ≠ [] → lo <= highest_number current bs <= N.
Proof.
  intros Hbs Hne. destruct bs as [|b bs]; [done|]. apply Forall_cons in Hbs as [Hb Hbs]. cbn. clear Hne.
  revert Hb. generalize (block_number (header b)). induction Hbs as [|x l Hx Hl IH]; intros m Hm; cbn; [done|]. apply IH. lia.
Qed.

Lemma within_perm lo l l' : l ≡ₚ l' → within lo l → within lo l'.
Proof. intros Hp. unfold within. by rewrite Hp. Qed.

(** A batch of the requested range moves the position forward. *)
Lemma wp_process_batch current bs orphans w0 w : 0 <= current → N < u64_max → latest w0 <= N → reached w0 w →
  within current bs → bs ≠ [] → Forall (λ b, Z.of_nat (length (parent_hashes (header b))) <= u64_max) bs → within 0 orphans →
  wp (process_sync_batch gfuel cpu buffer now current bs orphans) w
    (λ '(_, next, orphans') w', reached w0 w' ∧ within 0 orphans' ∧ current < next) (reached w0).
Proof.
  intros Hcur HN Hlat Hw Hbs Hne Hpar Ho. unfold process_sync_batch.
  set (byn := sort_by_key (λ b, block_number (header b)) bs).
  assert (byn ≡ₚ bs) as Hp by apply sort_by_perm.
  assert (within current byn) as Hbyn by (by eapply within_perm).
  assert (byn ≠ []) as Hnb by (intros Heq; rewrite Heq in Hp; by apply Permutation_nil in Hp).
  pose proof (highest_number_spec current current byn Hbyn Hnb) as Hhigh.
  destruct (topological_sort_total byn) as (out & Hout & Hin).
  { intros b Hb. rewrite Hp in Hb. rewrite Forall_forall in Hpar. by apply Hpar. }
  apply wp_bind, wp_read; [|by rewrite Hout]. intros sorted Hs. rewrite Hout in Hs. injection Hs as <-.
  assert (within current out) as Hwo by (unfold within in *; rewrite Forall_forall in *; auto).
  apply wp_bind. eapply wp_mono; [by apply (wp_install_checkpoint current)| |done].
  intros [installed rest] w1 (Hw1 & Hrest & Hl1 & Hinst).
  apply wp_bind. eapply wp_mono; [by apply (wp_insert_passes current)| |done].
  intros [added orphans1] w2 (Hw2 & Ho1 & Hl2 & Hadded).
  apply wp_bind. eapply wp_mono with (Q := λ '(res, orphans2) w3, reached w0 w3 ∧ within 0 orphans2 ∧ latest w2 <= latest w3 ∧
    ((0 < res)%nat → (0 < (if installed then 1 else 0) + added)%nat)); [| |done].
  { destruct (_ && _) eqn:Hc; [|apply wp_ret; split_and!; [done|done|lia|lia]].
    eapply wp_mono; [by apply wp_resolve_orphans| |done]. intros [res o2] w3 (Hw3 & Ho3 & Hl3).
    split_and!; [done|done|done|]. intros _. apply andb_true_iff in Hc as [Hc _]. by apply Nat.ltb_lt in Hc. }
  intros [res orphans2] w3 (Hw3 & Ho3 & Hl3 & Hres). apply wp_bind, wp_get, wp_ret. split_and!; [done|done|].
  pose proof (re_latest _ _ Hw3) as Hlw3. destruct (Nat.eqb_spec ((if installed then 1 else 0) + added + res) 0) as [Hz|Hz].
  - rewrite add64_small by lia. lia.
  - assert (current <= latest w3).
    { destruct installed; [specialize (Hinst eq_refl); lia|]. specialize (Hadded ltac:(lia)). lia. }
    cbv beta in *. rewrite add64_small by lia. lia.
Qed.

(** *** The download loop *)

Lemma set_transport_reached w0 w t : reached w0 w → inv t → reached w0 (set_transport t w).
Proof. intros [] Hi. by split. Qed.

Context `{!BoundedPeer T N inv}.

Lemma wp_peer_height w0 w : inv (transport w) → reached w0 w →
  wp peer_height_now w (λ r w', reached w0 w' ∧ inv (transport w') ∧ ∀ h, r = Ok h → h <= N) (reached w0).
Proof.
  intros Hi Hw. unfold wp, peer_height_now. destruct (tr_get_peer_height (transport w)) as [r t] eqn:Ht.
  destruct (bounded_height _ _ _ Hi Ht) as [Hi' Hh]. split_and!; [by apply set_transport_reached|done|done].
Qed.
Lemma wp_download from count w0 w : inv (transport w) → reached w0 w →
  wp (download from count) w (λ r w', reached w0 w' ∧ inv (transport w') ∧
    ∀ bs, r = Ok bs → within from bs ∧ Forall (λ b, Z.of_nat (length (parent_hashes (header b))) <= u64_max) bs) (reached w0).
Proof.
  intros Hi Hw. unfold wp, download. destruct (tr_download_blocks from count (transport w)) as [r t] eqn:Ht.
  destruct (bounded_download _ _ _ _ _ Hi Ht) as [Hi' Hb]. split_and!; [by apply set_transport_reached|done|].
  intros bs Hr. specialize (Hb bs Hr). split; eapply Forall_impl; [done|by intros b [? ?]|done|by intros b [? ?]].
Qed.

Lemma wp_download_loop fuel w0 : N + 1000 <= u64_max → latest w0 <= N → inv (transport w0) →
  ∀ peer_height current total orphans w, reached w0 w → within 0 orphans → 0 <= current → peer_height <= N →
  N - current <= Z.of_nat fuel →
  wp (download_loop gfuel cpu buffer now fuel peer_height current total orphans) w
    (λ '(_, orphans') w', reached w0 w' ∧ within 0 orphans') (reached w0).
Proof.
  intros HN Hlat Hi0. induction fuel as [|fuel IH]; intros ph current total orphans w Hw Ho Hcur Hph Hfuel; cbn [download_loop].
  all: destruct (Z.ltb_spec current ph) as [Hlt|Hge]; [|by apply wp_ret].
  { lia. }
  assert (inv (transport w)) as Hi by (by apply (re_inv _ _ Hw)).
  apply wp_bind. eapply wp_mono; [by apply wp_peer_height| |done]. intros r w1 (Hw1 & Hi1 & Hh).
  set (ph' := match r with Ok h => Z.max ph h | Err _ => ph end).
  assert (ph <= ph' <= N) as Hph' by (unfold ph'; destruct r as [h|]; [specialize (Hh h eq_refl)|]; lia).
  apply wp_bind. eapply wp_mono; [by apply wp_download| |done]. intros answer w2 (Hw2 & Hi2 & Hb).
  destruct answer as [bs|e]; [|by apply wp_ret]. destruct (Hb bs eq_refl) as [Hbs Hpar]. destruct bs as [|b bs].
  - rewrite add64_small by lia. destruct (Z.ltb_spec (current + 1000) ph'); [|by apply wp_ret].
    apply IH; try done; unfold sat_sub; lia.
  - apply wp_bind. eapply wp_mono; [apply wp_process_batch; try done; lia| |done].
    intros [[synced next] orphans'] w3 (Hw3 & Ho3 & Hnext). apply IH; try done; lia.
Qed.

Lemma wp_sync_range fuel w peer_height start : N + 1000 <= u64_max → latest w <= N → inv (transport w) →
  0 <= start → peer_height <= N → N - start <= Z.of_nat fuel →
  wp (sync_range gfuel cpu buffer now fuel peer_height start) w (λ _ _, True) (λ _, True).
Proof.
  intros HN Hlat Hi Hs Hph Hfuel. unfold sync_range. apply wp_bind.
  eapply wp_mono; [apply (wp_download_loop fuel w); try done; [apply reached_refl|constructor]| |done].
  intros [total orphans] w1 (Hw1 & Ho). apply wp_bind.
  destruct orphans as [|b l]; [by apply wp_ret|]. eapply wp_mono; [by apply (wp_resolve_orphans _ w)|done|done].
Qed.

Lemma wp_with_mining_paused {A} (m : SM A) w (R : World → Prop) :
  wp m (set_paused true w) (λ _ _, True) (λ _, True) → wp (with_mining_paused m) w (λ _ _, True) (λ _, True).
Proof. unfold wp, with_mining_paused. destruct (m (set_paused true w)) as [[a|e] w']; [done|]. by intros []. Qed.

(** C7: A synchronisation with a peer whose heights stay below a bound and which
    answers with blocks of the requested range ends, whatever the blocks, the
    chain and the orphans are: the download loop runs at most as many times as
    the bound. *)
Theorem full_sync_terminates fuel w :
  0 <= N → N + 1000 <= u64_max → 0 <= latest w <= N → inv (transport w) → N <= Z.of_nat fuel →
  (full_sync_impl gfuel cpu buffer now env fuel w).1 ≠ Err Stuck.
Proof.
  intros HN0 HN Hlat Hi Hfuel. assert (wp (full_sync_impl gfuel cpu buffer now env fuel) w (λ _ _, True) (λ _, True)) as Hwp.
  2:{ unfold wp in Hwp. destruct (full_sync_impl _ _ _ _ _ _ w) as [[a|e] w']; [done|]. destruct Hwp as [He _]. by intros [= ->]. }
  unfold full_sync_impl. apply wp_bind, wp_get. destruct (negb _); [by apply wp_ret|].
  apply wp_bind. eapply wp_mono; [apply (wp_peer_height w w Hi), reached_refl| |done].
  intros [ph|e] w1 (Hw1 & Hi1 & Hh); [|by split]. specialize (Hh ph eq_refl).
  destruct (Z.leb_spec ph (add64 (latest w) 1)) as [|Hgt]; [by apply wp_ret|].
  assert (latest w1 <= N) as Hl1 by (pose proof (re_latest _ _ Hw1); cbv beta in *; lia).
  apply (wp_with_mining_paused _ _ (λ _, True)), wp_bind. unfold wp at 1, check_resync.
  destruct (should_trigger_resync _ _ _ _ _ _) as [[] r].
  - apply wp_bind, wp_get. destruct (_ <? _); [by apply wp_ret|]. apply wp_bind. unfold wp at 1, se_mod.
    apply wp_sync_range; try done; cbn; lia.
  - cbv beta in *. rewrite add64_small by lia. apply wp_sync_range; try done; cbn; lia.
Qed.
End Theorems.

(** ** What a synchronisation changes *)

Section Frame.
Context `{Hex, Keccak, Blake3, Crypto, Evm, HashIter, SliceSearch}.
Context `{Codec Block, Codec (list Hash), Codec TxReceipt}.
Context {T : Type} `{SyncTransportOps T}.
Context (gfuel : nat) (cpu : CpuFeatures) (buffer : list u8) (now : u64) (env : option nat).

Definition only_adds (w w' : SyncWorld T) : Prop :=
  mining_paused w' = mining_paused w ∧ resync w' = resync w ∧ grows (chain w) (chain w').
#[local] Instance only_adds_preorder : PreOrder only_adds.
Proof.
  split; [by intros w; split_and!; [| |reflexivity]|]. intros w1 w2 w3 (Hp1 & Hr1 & Hg1) (Hp2 & Hr2 & Hg2).
  split_and!; [congruence|congruence|by etransitivity].
Qed.

Lemma try_add_frame b : respects only_adds (try_add gfuel cpu buffer now b).
Proof.
  intros w r w'. unfold try_add. destruct (add_latest gfuel cpu buffer now b (chain w)) as (r0 & c' & -> & _ & _ & Hg).
  destruct r0 as [[]|[]]; intros [= <- <-]; by split_and!.
Qed.
Lemma insert_pass_frame bs : respects only_adds (insert_pass gfuel cpu buffer now bs).
Proof. pose proof try_add_frame. induction bs as [|b bs IH]; cbn [insert_pass]; frame_steps. Qed.
Lemma orphan_pass_frame bs : respects only_adds (orphan_pass gfuel cpu buffer now bs).
Proof. pose proof try_add_frame. induction bs as [|b bs IH]; cbn [orphan_pass]; frame_steps. Qed.
Lemma insert_passes_frame n : ∀ bs o, respects only_adds (insert_passes gfuel cpu buffer now n bs o).
Proof. pose proof insert_pass_frame. induction n as [|n IH]; intros bs o; cbn [insert_passes]; frame_steps. Qed.
Lemma resolve_orphans_frame n : ∀ o, respects only_adds (resolve_orphans gfuel cpu buffer now n o).
Proof. pose proof orphan_pass_frame. induction n as [|n IH]; intros o; cbn [resolve_orphans]; frame_steps. Qed.
Lemma install_checkpoint_frame bs : respects only_adds (install_checkpoint bs).
Proof.
  intros w r w'. unfold install_checkpoint. destruct bs as [|b bs]; [by intros [= <- <-]|].
  destruct (_ && _); [|by intros [= <- <-]].
  pose proof (checkpoint_ok b (chain w)) as Hok. unfold install_sync_checkpoint in *.
  case_bool_decide; intros [= <- <-]; split_and!; try done.
  intros Hc. split; [by apply Hok|]. by exists [b].
Qed.
Lemma process_sync_batch_frame current bs o : respects only_adds (process_sync_batch gfuel cpu buffer now current bs o).
Proof.
  pose proof install_checkpoint_frame. pose proof insert_passes_frame. pose proof resolve_orphans_frame.
  unfold process_sync_batch. frame_steps.
Qed.
Lemma transport_frame : respects only_adds peer_height_now ∧ ∀ from count, respects only_adds (download from count).
Proof.
  split; [|intros from count]; intros w r w'; unfold peer_height_now, download.
  - destruct (tr_get_peer_height (transport w)). intros [= <- <-]. by split_and!.
  - destruct (tr_download_blocks _ _ _). intros [= <- <-]. by split_and!.
Qed.
Lemma download_loop_frame fuel : ∀ ph current total o, respects only_adds (download_loop gfuel cpu buffer now fuel ph current total o).
Proof.
  pose proof process_sync_batch_frame. destruct transport_frame as [Hh Hd].
  induction fuel as [|fuel IH]; intros ph current total o; cbn [download_loop]; frame_steps.
  by intros w r w' [= <- <-].
Qed.
Lemma sync_range_frame fuel ph start : respects only_adds (sync_range gfuel cpu buffer now fuel ph start).
Proof. pose proof download_loop_frame. pose proof resolve_orphans_frame. unfold sync_range. frame_steps. Qed.

Lemma with_mining_paused_run {A} (m : SE (SyncWorld T) SyncError A) w r w' :
  with_mining_paused m w = (r, w') → ∃ w2, m (set_paused true w) = (r, w2) ∧ w' = set_paused false w2.
Proof. unfold with_mining_paused. destruct (m _) as [r2 w2]. intros [= <- <-]. by exists w2. Qed.

Lemma with_mining_paused_fst {A} (m : SE (SyncWorld T) SyncError A) w :
  (with_mining_paused m w).1 = (m (set_paused true w)).1.
Proof. unfold with_mining_paused. by destruct (m _). Qed.

(** C17: However a synchronisation ends, it leaves mining running if it found it
    so; and unless the height this peer answers with triggers a resync, a chain
    with a consistent index keeps it and its blocks stay where they are, with
    new ones only after them. *)
Theorem full_sync_only_adds fuel w r w' :
  full_sync_impl gfuel cpu buffer now env fuel w = (r, w') →
  (mining_paused w = Some false → mining_paused w' = Some false) ∧
  ((∀ height w1, peer_height_now w = (Ok (Ok height), w1) →
      (should_trigger_resync env now (tr_peer_ip (transport w1)) height
         (cached_latest_block_number (chain w)) (resync w)).1 = false) →
   chain_ok (chain w) →
   chain_ok (chain w') ∧ ∃ more, blocks (blocks_data (chain w')) = blocks (blocks_data (chain w)) ++ more).
Proof.
  intros Hrun. unfold full_sync_impl in Hrun. rewrite se_get_step in Hrun.
  destruct (negb _); [injection Hrun as <- <-; split; [done|]; intros _ Hc; split; [done|]; exists []; by rewrite app_nil_r|].
  destruct (peer_height_now w) as [[first|e] w1] eqn:Hh; [|by unfold peer_height_now in Hh; case_match].
  pose proof (proj1 transport_frame _ _ _ Hh) as (Hp1 & Hr1 & Hg1). rewrite (se_bind_step _ _ _ _ _ Hh) in Hrun.
  assert (∀ w2, only_adds w1 w2 → (mining_paused w = Some false → mining_paused w2 = Some false) ∧
    (chain_ok (chain w) → chain_ok (chain w2) ∧ ∃ more, blocks (blocks_data (chain w2)) = blocks (blocks_data (chain w)) ++ more))
    as Hend.
  { intros w2 (Hp2 & _ & Hg2). split; [congruence|]. intros Hc. assert (grows (chain w) (chain w2)) as Hg by (by etransitivity).
    by apply Hg. }
  destruct first as [ph|e]; [|injection Hrun as <- <-; destruct (Hend w1) as [? ?]; [done|by split]].
  destruct (ph <=? _); [injection Hrun as <- <-; destruct (Hend w1) as [? ?]; [done|by split]|].
  destruct (with_mining_paused_run _ _ _ _ Hrun) as (w2 & Hbody & ->).
  destruct (should_trigger_resync env now (tr_peer_ip (transport w1)) ph (cached_latest_block_number (chain w)) (resync w1))
    as [b rs] eqn:Ht.
  rewrite (se_bind_step _ _ _ b (set_resync rs (set_paused true w1))) in Hbody
    by (unfold check_resync; cbn [transport set_paused resync]; by rewrite Ht).
  assert (mining_paused w2 = mining_paused (set_paused true w1) ∧ (b = false → grows (chain w1) (chain w2))) as [Hp2 Hg2].
  { destruct b.
    - rewrite se_get_step in Hbody. destruct (_ <? _); [injection Hbody as <- <-; done|].
      rewrite se_mod_step in Hbody. apply sync_range_frame in Hbody as (Hp2 & _ & _). by rewrite Hp2.
    - apply sync_range_frame in Hbody as (Hp2 & _ & Hg2). by rewrite Hp2. }
  split.
  - intros Hm. cbn. rewrite Hp2. cbn. by rewrite Hp1, Hm.
  - intros Hno Hc. rewrite Hr1 in Ht. specialize (Hno ph w1 eq_refl). rewrite Ht in Hno.
    assert (grows (chain w) (chain w2)) as Hg by (etransitivity; [done|by apply Hg2]). by apply Hg.
Qed.
End Frame.

(** ** What can go wrong *)

Section Defects.
Context `{Hex, Keccak, Blake3, Crypto, Evm, HashIter, SliceSearch}.
Context `{Codec Block, Codec (list Hash), Codec TxReceipt}.
Context {T : Type} `{SyncTransportOps T}.
Context (gfuel : nat) (cpu : CpuFeatures) (buffer : list u8) (now : u64) (env : option nat).

Lemma topological_sort_single b : Z.of_nat (length (parent_hashes (header b))) <= u64_max →
  topological_sort_blocks [b] = Some [b].
Proof.
  intros Hs. destruct (topo_run [b]) as (sorted & m & deg & -> & Hi); [by intros x ->%list_elem_of_singleton|].
  f_equal. apply Permutation_singleton_r. eapply topo_permutation; [apply NoDup_singleton|done].
Qed.

(** A known block changes nothing and sends the position back to its height. *)
Lemma process_known current g orphans (w : SyncWorld T) :
  known (chain w) (block_hash g) = Ok true → Z.of_nat (length (parent_hashes (header g))) <= u64_max →
  block_number (header g) <= 100 →
  process_sync_batch gfuel cpu buffer now current [g] orphans w = (Ok (0%nat, add64 (block_number (header g)) 1, orphans), w).
Proof.
  intros Hk Hp Hn. unfold process_sync_batch. cbn [sort_by_key sort_by foldr insert_by highest_number foldl].
  erewrite se_read_step by (by rewrite topological_sort_single).
  erewrite se_bind_step.
  2:{ unfold install_checkpoint. rewrite (proj2 (Z.ltb_ge 100 _)), andb_false_r by done. reflexivity. }
  cbn [MAX_PASSES insert_passes]. erewrite se_bind_step.
  2:{ cbn [insert_pass]. erewrite se_bind_step; [|erewrite se_read_step by exact Hk; reflexivity]. cbn. reflexivity. }
  reflexivity.
Qed.

(** A peer that claims a greater height and answers every request with one
    block the node already has holds the synchronisation forever: it ends with
    no amount of fuel. *)
Theorem stalling_peer_never_ends g h (w : SyncWorld T) fuel :
  (∀ t, tr_get_peer_height t = (Ok h, t)) → (∀ from count t, tr_download_blocks from count t = (Ok [g], t)) →
  blockchain_ready (chain w) = true → known (chain w) (block_hash g) = Ok true →
  Z.of_nat (length (parent_hashes (header g))) <= u64_max → 0 <= block_number (header g) <= 100 →
  block_number (header g) + 1 < h → add64 (cached_latest_block_number (chain w)) 1 < h →
  (should_trigger_resync env now (tr_peer_ip (transport w)) h (cached_latest_block_number (chain w)) (resync w)).1 = false →
  (full_sync_impl gfuel cpu buffer now env fuel w).1 = Err Stuck.
Proof.
  intros Hh Hd Hready Hk Hp Hn Hgh Hlh Htrig.
  assert (∀ fuel current total orphans w, current < h → known (chain w) (block_hash g) = Ok true →
    (download_loop gfuel cpu buffer now fuel h current total orphans w).1 = Err Stuck) as Hloop.
  { clear w Hready Hk Hlh Htrig fuel. induction fuel as [|fuel IH]; intros current total orphans w Hlt Hk; cbn [download_loop].
    all: rewrite (proj2 (Z.ltb_lt current h)) by done.
    { done. }
    erewrite se_bind_step by (unfold peer_height_now; rewrite Hh; reflexivity). cbv beta iota zeta. rewrite Z.max_id.
    erewrite se_bind_step by (unfold download; rewrite Hd; reflexivity).
    set (w2 := set_transport _ (set_transport _ w)).
    cbv iota. rewrite (se_bind_step _ _ _ _ _ (process_known current g orphans w2 Hk Hp ltac:(lia))).
    apply IH; [|done]. rewrite add64_small by (unfold u64_max; lia). done. }
  unfold full_sync_impl. rewrite se_get_step, Hready. cbn [negb].
  erewrite se_bind_step by (unfold peer_height_now; rewrite Hh; reflexivity). cbn [set_transport chain].
  rewrite (proj2 (Z.leb_gt _ _)) by done. rewrite with_mining_paused_fst.
  destruct (should_trigger_resync env now (tr_peer_ip (transport w)) h (cached_latest_block_number (chain w)) (resync w))
    as [b rs] eqn:Ht. cbn in Htrig. subst b.
  erewrite se_bind_step by (unfold check_resync; cbn [transport set_paused set_transport resync chain]; rewrite Ht; reflexivity).
  unfold sync_range. specialize (Hloop fuel (add64 (cached_latest_block_number (chain w)) 1) 0%nat []
    (set_resync rs (set_paused true (set_transport (transport w) w))) Hlh Hk).
  destruct (download_loop _ _ _ _ _ _ _ _ _ _) as [r w'] eqn:Hdl. cbn in Hloop. subst r.
  by rewrite (se_bind_fail _ _ _ _ _ Hdl).
Qed.

(** A batch with more than [MAX_ACCUMULATED_ORPHANS] blocks that find no parent
    panics; and once that many orphans are kept, every further orphan is kept
    as well. *)
Theorem orphan_limit_not_kept acc still :
  ((MAX_ACCUMULATED_ORPHANS < length still)%nat → (length acc < MAX_ACCUMULATED_ORPHANS)%nat →
   save_orphans acc still = Err (Panicked "drain range out of bounds")) ∧
  ((MAX_ACCUMULATED_ORPHANS <= length acc)%nat → (0 < length still <= MAX_ACCUMULATED_ORPHANS)%nat →
   save_orphans acc still = Ok (acc ++ still)).
Proof.
  unfold save_orphans. generalize MAX_ACCUMULATED_ORPHANS. intros M. split; intros Hs Ha.
  - rewrite (proj2 (Nat.ltb_lt M (length acc + length still))) by lia.
    rewrite (proj2 (Nat.ltb_lt (length acc + length still - M) (length still))) by lia.
    rewrite (proj2 (Nat.ltb_lt (length acc) (length acc + length still - M))) by lia. done.
  - rewrite (proj2 (Nat.ltb_lt M (length acc + length still))) by lia.
    rewrite (proj2 (Nat.ltb_ge (length acc + length still - M) (length still))) by lia. cbn. by rewrite take_ge by lia.
Qed.

(** After a resync cleared the chain, the first block it knew before that
    arrives again makes the node panic. *)
Theorem resync_panics_on_old_blocks b rest (w : SyncWorld T) :
  index_ok (blocks_data (chain w)) → b ∈ blocks (blocks_data (chain w)) →
  (insert_pass gfuel cpu buffer now (b :: rest) (set_chain (clear_for_resync (chain w)) w)).1
  = Err (Panicked "get_block_by_hash").
Proof.
  intros Hi [i Hb]%list_elem_of_lookup. cbn [insert_pass].
  destruct (clear_blocks_stale_index _ _ i b Hi Hb eq_refl) as (Hf & _ & _).
  erewrite se_read_fail; [done|]. cbn [set_chain chain]. unfold known, get_block_by_hash.
  cbn [clear_for_resync blocks_data set_spent set_ghostdag set_ledger set_blocks]. by rewrite Hf.
Qed.
End Defects.
