(* ===== verification/SyncReference.v ===== *)
(** * SyncReference: concrete peers

    The theorems on synchronisation applied to a small chain, with toy hashes
    and signatures, an honest peer and a stalling one. *)

From S2P Require Import Prelude Types Block Pow Error.
From S2P Require Import Storage DagStorage GhostDag.
From S2P Require Import Sponsorship PrivacyPool Recurring Governance Wallet Verkle.
From S2P Require Import Ledger BlockIndex Execution AccountFrame Chain.
From S2P Require Import SyncPool TopoSort SyncProtocol SyncServing FullSync FullSyncTheorems.

Module SyncReference.
Import BlockReference.
#[local] Existing Instance Reference.hex.
#[local] Existing Instance Reference.keccak.
#[local] Existing Instance BlockReference.crypto.
#[local] Existing Instance PowReference.blake3.
#[local] Existing Instance canonical_iter.
#[local] Existing Instance canonical_search.

#[local] Instance EvmLog_eq_dec : EqDecision EvmLog.
Proof. solve_decision. Defined.
#[local] Instance TxReceipt_eq_dec : EqDecision TxReceipt.
Proof. solve_decision. Defined.
#[local] Instance SignedSyncResponse_eq_dec : EqDecision SignedSyncResponse.
Proof. solve_decision. Defined.

#[local] Instance evm : Evm := {|
  EvmExecutor := unit;
  evm_execute := λ _ db _ _ _, (Ok (MkExec true 21000 [] []), (tt, db));
  evm_update_block_hash := λ _ _ _, tt |}.

Definition cpu : CpuFeatures := PowReference.avx2.
Definition hash_of (n : Z) : Hash := MkHash (n :: replicate 31 0).
Definition block_at (n : u64) (h : Z) (parents : list Hash) : Block :=
  MkBlock (MkHeader parents n StreamA 1 1700000000 0 0 1 None None) [] (hash_of h) None.
Definition genesis : Block := block_at 0 1 [].
Definition child : Block := block_at 1 2 [hash_of 1].

#[local] Instance block_codec : Codec Block := table_codec [genesis; child].
#[local] Instance hashes_codec : Codec (list Hash) := table_codec [[]].
#[local] Instance receipt_codec : Codec TxReceipt := table_codec [native_receipt].

Definition small_chain : Blockchain := (install_sync_checkpoint genesis new).1.

(** *** Data *)

Definition peer_a : IpAddr := MkIp [10; 0; 0; 1].
Definition peer_b : IpAddr := MkIp [10; 0; 0; 2].
Definition resync_run : ResyncState := foldl (do_call (Some 2%nat)) resync_init [MkCall 5000 peer_a 100 10].

Lemma resync_needs_quorum_witness :
  (should_trigger_resync (Some 2%nat) 5001 peer_b 101 10 resync_run).1 = true ∧
  ∃ peers : list IpAddr, NoDup peers ∧ (2 <= length peers)%nat.
Proof.
  destruct (should_trigger_resync (Some 2%nat) 5001 peer_b 101 10 resync_run) as [b st'] eqn:Ht.
  assert (b = true) as -> by (change b with (fst (b, st')); rewrite <- Ht; vm_compute; reflexivity). split; [reflexivity|].
  destruct (resync_needs_quorum (Some 2%nat) [MkCall 5000 peer_a 100 10] 5001 peer_b 101 10 st' Ht)
    as (_ & peers & Hnd & Hl & _). exists peers. exact (conj Hnd Hl).
Defined.

#[local] Instance sip : SipHash := {| sip13 := λ a _ bs, (a + from_le_bytes (take 7 bs)) mod 2 ^ 64 |}.
Definition tx_of (n : Z) : Transaction :=
  MkTx alice bob 1 1 n [] 21000 (hash_of n) None None [] [] None None None None None None None.
Definition two_txs : Block := MkBlock (header child) [tx_of 1; tx_of 2] (hash_of 7) None.

(** The block comes back with its transactions swapped. *)
Lemma compact_block_roundtrip_witness :
  ∃ b', to_block cpu [] (from_block 9 two_txs {[hash_of 1]}) {[hash_of 1 := tx_of 1]} = (Some b', []) ∧
    transactions b' = [tx_of 2; tx_of 1].
Proof.
  destruct (compact_block_roundtrip cpu [] 9 two_txs {[hash_of 1]} {[hash_of 1 := tx_of 1]}) as (b' & Ht & _ & _ & Hx).
  - intros t Ht Hp. apply elem_of_singleton in Hp. rewrite Hp, lookup_singleton_eq. f_equal.
    apply elem_of_cons in Ht as [->|Ht]; [reflexivity|]. apply list_elem_of_singleton in Ht as ->. discriminate Hp.
  - intros h1 h2 [x Hx] [y Hy] _. apply lookup_singleton_Some in Hx as [<- _]. apply lookup_singleton_Some in Hy as [<- _]. reflexivity.
  - exists b'. split; [exact Ht|]. rewrite Hx. vm_compute. reflexivity.
Defined.

Lemma topological_sort_correct_witness : topological_sort_blocks [child; genesis] = Some [genesis; child].
Proof.
  destruct (topological_sort_correct [child; genesis]) as (sorted & rest & Hs & _).
  - intros b [->|[->|Hb%elem_of_nil]%elem_of_cons]%elem_of_cons; [vm_compute; discriminate..|destruct Hb].
  - apply (bool_decide_unpack _). vm_compute. exact I.
  - rewrite Hs. rewrite <- Hs. vm_compute. reflexivity.
Defined.

(** *** Serving *)

Lemma sync_batch_connected_witness :
  select_blocks_for_sync_batch small_chain 0 10 = [genesis] ∧ NoDup (block_hash <$> select_blocks_for_sync_batch small_chain 0 10).
Proof.
  destruct (sync_batch_connected small_chain 0 10) as (_ & Hnd & _); [lia|]. split; [vm_compute; reflexivity|exact Hnd].
Defined.

Definition batch_data : list u8 := [0].
Definition reply : SignedSyncResponse := response_sign 1000 (to_le_bytes 8 1 ++ batch_data) alice_key.
#[local] Instance batch_codec : Codec (list Block) := table_codec [[genesis]].
#[local] Instance reply_codec : Codec SignedSyncResponse := table_codec [reply].


Lemma serving_limits_witness :
  serving (accept_connection peer_a connections_new).2 [peer_a] ∧ (from_ip peer_a [peer_a] <= MAX_CONNECTIONS_PER_IP)%nat.
Proof.
  assert (serving (accept_connection peer_a connections_new).2 [peer_a]) as Hs
    by (eapply serving_accept; [apply serving_start|reflexivity]).
  split; [exact Hs|]. apply (serving_limits _ _ Hs).
Defined.

(** *** Synchronising *)

Inductive HonestPeer := Honest.
#[local] Instance honest_ops : SyncTransportOps HonestPeer := {|
  tr_get_peer_height := λ t, (Ok 3, t);
  tr_download_blocks := λ from _ t, (Ok (if from <=? 1 then [child] else []), t);
  tr_peer_ip := λ _, peer_a |}.
#[local] Instance honest_bounded : BoundedPeer HonestPeer 10 (λ _, True).
Proof.
  split.
  - intros t r t' _ Ht. cbn in Ht. simplify_eq. split; [done|]. intros h ?. simplify_eq. lia.
  - intros from count t r t' _ Ht. cbn in Ht. simplify_eq. split; [done|]. intros bs ?. simplify_eq. destruct (Z.leb_spec from 1); [|constructor].
    repeat constructor; cbn; [lia|lia|unfold u64_max; lia].
Qed.
Inductive Staller := Stalls.
#[local] Instance staller_ops : SyncTransportOps Staller := {|
  tr_get_peer_height := λ t, (Ok 10, t);
  tr_download_blocks := λ _ _ t, (Ok [genesis], t);
  tr_peer_ip := λ _, peer_b |}.

Definition world_with {T} (t : T) : SyncWorld T := MkWorld t resync_init small_chain (Some false).

Lemma full_sync_terminates_witness :
  (full_sync_impl 5 cpu [] 1700000100 None 10 (world_with Honest)).1 ≠ Err Stuck.
Proof.
  apply (full_sync_terminates 5 cpu [] 1700000100 None 10 (λ _, True) 10 (world_with Honest));
    first [exact I | vm_compute; (split; discriminate) || discriminate].
Defined.

Lemma small_chain_ok : chain_ok small_chain.
Proof. apply (checkpoint_ok genesis new), new_ok. Qed.
Lemma full_sync_only_adds_witness :
  let w' := (full_sync_impl 5 cpu [] 1700000100 None 10 (world_with Honest)).2 in
  mining_paused w' = Some false ∧ chain_ok (chain w') ∧ ∃ more, blocks (blocks_data (chain w')) = [genesis] ++ more.
Proof.
  destruct (full_sync_impl 5 cpu [] 1700000100 None 10 (world_with Honest)) as [r w'] eqn:Hr. cbn zeta. cbn [snd].
  destruct (full_sync_only_adds 5 cpu [] 1700000100 None 10 (world_with Honest) r w' Hr) as [Hm Hc].
  split; [exact (Hm eq_refl)|]. apply Hc; [|exact small_chain_ok].
  intros height w1 Hh. injection Hh as <- <-. vm_compute. reflexivity.
Defined.

Lemma stalling_peer_never_ends_witness :
  (full_sync_impl 5 cpu [] 1700000100 None 1000 (world_with Stalls)).1 = Err Stuck.
Proof.
  apply (stalling_peer_never_ends 5 cpu [] 1700000100 None genesis 10 (world_with Stalls) 1000);
    first [reflexivity | intros; reflexivity | vm_compute; (reflexivity || (split; discriminate) || discriminate)].
Defined.

Lemma resync_panics_on_old_blocks_witness :
  (insert_pass 5 cpu [] 1700000100 [genesis]
     (set_chain (clear_for_resync small_chain) (world_with Stalls))).1 = Err (Panicked "get_block_by_hash").
Proof.
  apply (resync_panics_on_old_blocks 5 cpu [] 1700000100 genesis [] (world_with Stalls)).
  - apply (checkpoint_ok genesis new), new_ok.
  - left.
Defined.
End SyncReference.
