(* ===== verification/Oracles.v ===== *)
(** * Oracles: registration, price feeds, staking and randomness

    Models [irondag-blockchain/src/oracles]: the registry of oracle nodes, the
    price feeds and their aggregation, stakes with slashing, and the requests
    for randomness.  Feeds are keyed by their name. *)

From S2P Require Import Prelude Types Block Float64.

Record OracleConfig := MkOracleConfig {
  min_stake : u128; min_oracles_per_feed : nat; slashing_percentage : f64; price_update_frequency : u64 }.
Definition oracle_config_default : OracleConfig := MkOracleConfig 1000000000000000000 3 (f_lit 1 10) 60.

(** ** Registry *)

Inductive FeedType := Price | Randomness | Custom.
#[global] Instance FeedType_eq_dec : EqDecision FeedType.
Proof. solve_decision. Defined.

Record OracleNode := MkOracle {
  or_address : Address;
  feed_types : list FeedType;
  stake_amount : u128;
  reputation_score : f64;
  or_last_update : u64;
  accuracy_rate : f64;
  total_reports : u64;
  accurate_reports : u64;
  registered_at : u64 }.

Definition oracle_new (a : Address) (fs : list FeedType) (stake : u128) (now : u64) : OracleNode :=
  MkOracle a fs stake (f_of_Z 50) now f_one 0 0 now.

Definition report_accuracy (is_accurate : bool) (o : OracleNode) : OracleNode :=
  let total := add64 (total_reports o) 1 in
  let accurate := if is_accurate then add64 (accurate_reports o) 1 else accurate_reports o in
  let rate := if 0 <? total then f_div (f_of_Z accurate) (f_of_Z total) else accuracy_rate o in
  MkOracle (or_address o) (feed_types o) (stake_amount o) (f_clamp (f_mul rate (f_of_Z 100)) f_zero (f_of_Z 100))
    (or_last_update o) rate total accurate (registered_at o).
Definition supports_feed_type (f : FeedType) (o : OracleNode) : bool := contains f (feed_types o).

Record OracleRegistry := MkOracles {
  nodes : gmap Address OracleNode;
  feed_assignments : gmap string (list Address);
  or_config : OracleConfig }.
Definition oracles_new (c : OracleConfig) : OracleRegistry := MkOracles ∅ ∅ c.

Abbreviation OM := (SE OracleRegistry string).
Definition set_nodes (m : gmap Address OracleNode) (r : OracleRegistry) : OracleRegistry :=
  MkOracles m (feed_assignments r) (or_config r).
Definition set_assignments (m : gmap string (list Address)) (r : OracleRegistry) : OracleRegistry :=
  MkOracles (nodes r) m (or_config r).

Definition register_oracle (a : Address) (fs : list FeedType) (stake : u128) (now : u64) : OM unit :=
  r ← se_get;
  if bool_decide (is_Some (nodes r !! a)) then fail "Oracle already registered"%string else
  if stake <? min_stake (or_config r) then fail "Stake amount is below minimum"%string else
  se_mod (set_nodes (<[a := oracle_new a fs stake now]> (nodes r))).

Definition unregister_oracle (a : Address) : OM unit :=
  r ← se_get;
  if bool_decide (nodes r !! a = None) then fail "Oracle not registered"%string else
  se_mod (λ r, set_nodes (delete a (nodes r))
                 (set_assignments (List.filter (λ x, negb (bool_decide (x = a))) <$> feed_assignments r) r)).

Definition get_oracles_for_feed_type `{HashIter} (r : OracleRegistry) (f : FeedType) : list OracleNode :=
  List.filter (supports_feed_type f) (snd <$> hm_iter (nodes r)).

Definition assign_oracles_to_feed (feed : string) (addrs : list Address) : OM unit :=
  r ← se_get;
  if negb (forallb (λ a, bool_decide (is_Some (nodes r !! a))) addrs) then fail "Oracle not registered"%string else
  if (length addrs <? min_oracles_per_feed (or_config r))%nat then fail "Need at least more oracles"%string else
  se_mod (set_assignments (<[feed := addrs]> (feed_assignments r))).

Definition get_feed_oracles (r : OracleRegistry) (feed : string) : option (list Address) := feed_assignments r !! feed.

Definition report_oracle_accuracy (a : Address) (is_accurate : bool) : OM unit :=
  r ← se_get;
  match nodes r !! a with
  | None => fail "Oracle not found"%string
  | Some o => se_mod (set_nodes (<[a := report_accuracy is_accurate o]> (nodes r)))
  end.
Definition oracle_count (r : OracleRegistry) : nat := size (nodes r).

(** ** Price feeds *)

Record PriceUpdate := MkUpdate {
  pu_oracle : Address; pu_feed : string; pu_price : u128; pu_timestamp : u64; pu_signature : option (list u8) }.
Record PriceFeed := MkFeed {
  feed_id : string;
  asset_pair : string * string;
  current_price : u128;
  pf_last_update : u64;
  pf_oracle_count : nat;
  update_frequency : u64;
  price_history : list (u64 * u128) }.

Definition feed_new (id : string) (pair : string * string) (freq : u64) : PriceFeed := MkFeed id pair 0 0 0 freq [].
Definition push_history (h : list (u64 * u128)) (now : u64) (price : u128) : list (u64 * u128) :=
  let h := h ++ [(now, price)] in if (100 <? length h)%nat then drop 1 h else h.

Record PriceFeedManager := MkFeeds {
  feeds : gmap string PriceFeed;
  pending_updates : gmap string (list PriceUpdate) }.
Definition feeds_new : PriceFeedManager := MkFeeds ∅ ∅.

Definition create_feed (id : string) (pair : string * string) (freq : u64) (m : PriceFeedManager) : PriceFeedManager :=
  MkFeeds (<[id := feed_new id pair freq]> (feeds m)) (pending_updates m).

(** The registry is read, not changed. *)
Definition submit_price_update (r : OracleRegistry) (u : PriceUpdate) : SE PriceFeedManager string unit :=
  m ← se_get;
  if bool_decide (nodes r !! pu_oracle u = None) then fail "Oracle not registered"%string else
  if bool_decide (feeds m !! pu_feed u = None) then fail "Price feed not found"%string else
  se_mod (λ m, MkFeeds (feeds m)
    (<[pu_feed u := default [] (pending_updates m !! pu_feed u) ++ [u]]> (pending_updates m))).

(** [prices[i]], only used within range. *)
Definition price_at (l : list u128) (i : nat) : u128 := nth i l 0.
Definition median_price (l : list u128) : u128 :=
  let prices := sort_by_key id l in
  let n := length prices in
  if (n mod 2 =? 0)%nat then add128 (price_at prices (n / 2 - 1)) (price_at prices (n / 2)) / 2
  else price_at prices (n / 2).

Definition valid_prices (assigned : list Address) (us : list PriceUpdate) : list u128 :=
  pu_price <$> List.filter (λ u, contains (pu_oracle u) assigned) us.

Definition aggregate_feed (r : OracleRegistry) (id : string) (now : u64) : SE PriceFeedManager string unit :=
  m ← se_get;
  match pending_updates m !! id with
  | None => fail "No pending updates for feed"%string
  | Some us =>
      _ ← se_mod (λ m, MkFeeds (feeds m) (delete id (pending_updates m)));
      if bool_decide (us = []) then fail "No updates to aggregate"%string else
      match get_feed_oracles r id with
      | None => fail "Feed has no assigned oracles"%string
      | Some assigned =>
          let prices := valid_prices assigned us in
          if bool_decide (prices = []) then fail "No valid oracle updates"%string else
          let price := median_price prices in
          se_mod (λ m, MkFeeds
            (alter (λ f, MkFeed (feed_id f) (asset_pair f) price now (length prices) (update_frequency f)
                           (push_history (price_history f) now price)) id (feeds m))
            (pending_updates m))
      end
  end.

Definition get_price (m : PriceFeedManager) (id : string) : option u128 := current_price <$> feeds m !! id.
Definition get_price_history (m : PriceFeedManager) (id : string) (limit : option nat) : list (u64 * u128) :=
  match feeds m !! id with Some f => take (default 100%nat limit) (rev (price_history f)) | None => [] end.

(** ** Staking *)

Record StakingInfo := MkStake {
  si_address : Address; staked_amount : u128; slashed_amount : u128; total_rewards : u128; slash_count : u64 }.
Record OracleStaking := MkStaking { stakes : gmap Address StakingInfo; percentage : f64 }.
Definition staking_new (p : f64) : OracleStaking := MkStaking ∅ p.

Definition stake (a : Address) (amount : u128) (s : OracleStaking) : OracleStaking :=
  let info := default (MkStake a 0 0 0 0) (stakes s !! a) in
  MkStaking (<[a := MkStake (si_address info) (add128 (staked_amount info) amount) (slashed_amount info)
                      (total_rewards info) (slash_count info)]> (stakes s)) (percentage s).
Definition unstake (a : Address) (amount : u128) : SE OracleStaking string unit :=
  s ← se_get;
  match stakes s !! a with
  | None => fail "Oracle not staked"%string
  | Some info =>
      if staked_amount info <? amount then fail "Insufficient stake"%string else
      se_mod (λ s, MkStaking (<[a := MkStake (si_address info) (staked_amount info - amount) (slashed_amount info)
                                       (total_rewards info) (slash_count info)]> (stakes s)) (percentage s))
  end.
Definition slash_of (s : OracleStaking) (staked : u128) : u128 :=
  f_as_uint u128_max (f_mul (f_of_Z staked) (percentage s)).
Definition slash (a : Address) : SE OracleStaking string u128 :=
  s ← se_get;
  match stakes s !! a with
  | None => fail "Oracle not staked"%string
  | Some info =>
      let amount := slash_of s (staked_amount info) in
      if staked_amount info <? amount then fail "Insufficient stake to slash"%string else
      _ ← se_mod (λ s, MkStaking (<[a := MkStake (si_address info) (staked_amount info - amount)
             (add128 (slashed_amount info) amount) (total_rewards info) (add64 (slash_count info) 1)]> (stakes s)) (percentage s));
      mret amount
  end.

(** ** Randomness *)

Record RandomnessProof := MkRandomnessProof { rp_proof : list u8; rp_public_key : list u8; rp_randomness : Hash }.
Record RandomnessRequest := MkRandomness {
  request_id : Hash; requester : Address; seed : Hash; rq_created_at : u64; fulfilled : bool;
  randomness : option Hash; rq_proof : option RandomnessProof }.
Definition VrfManager := gmap Hash RandomnessRequest.

Section Vrf.
Context `{Keccak}.
Definition calculate_request_id (r : Address) (s : Hash) (ts : u64) : Hash :=
  keccak256 (addr_bytes r ++ hash_bytes s ++ to_le_bytes 8 ts).
Definition generate_randomness (s : Hash) (oracle : Address) : Hash := keccak256 (hash_bytes s ++ addr_bytes oracle).

Definition request_randomness (r : Address) (s : Hash) (now : u64) (m : VrfManager) : Hash * VrfManager :=
  let id := calculate_request_id r s now in
  (id, <[id := MkRandomness id r s now false None None]> m).
Definition fulfill_randomness (id : Hash) (oracle : Address) : SE VrfManager string unit :=
  m ← se_get;
  match m !! id with
  | None => fail "Randomness request not found"%string
  | Some q =>
      if fulfilled q then fail "Request already fulfilled"%string else
      let x := generate_randomness (seed q) oracle in
      se_mod (<[id := MkRandomness (request_id q) (requester q) (seed q) (rq_created_at q) true (Some x)
                        (Some (MkRandomnessProof [] [] x))]>)
  end.
Definition verify_proof (p : RandomnessProof) (s : Hash) : bool := true.
End Vrf.

(** ** The median of the prices *)

(** In an ascending list, an element at position [i] that fails an
    upward closed test has [i] others before it that fail it too. *)
Lemma sorted_take_le (s : list Z) i x :
  StronglySorted (le_of (key_leb id)) s → s !! i = Some x → Forall (λ y, y <= x) (take (S i) s).
Proof.
  intros Hs. revert i. induction Hs as [|y l Hl IH Hy]; intros i Hi; [done|].
  destruct i as [|i]; cbn in Hi |- *; simplify_eq.
  - repeat constructor; lia.
  - constructor; [|by apply IH]. rewrite Forall_lookup in Hy. specialize (Hy i x Hi).
    unfold le_of, key_leb, id in Hy. lia.
Qed.
Lemma sorted_drop_ge (s : list Z) i x :
  StronglySorted (le_of (key_leb id)) s → s !! i = Some x → Forall (λ y, x <= y) (drop i s).
Proof.
  intros Hs. revert i. induction Hs as [|y l Hl IH Hy]; intros i Hi; [done|].
  destruct i as [|i]; cbn in Hi |- *; simplify_eq; [|by apply IH].
  constructor; [lia|]. eapply Forall_impl; [exact Hy|]. intros z. unfold le_of, key_leb, id. lia.
Qed.

Definition in_range (lo hi : Z) (x : Z) : bool := (lo <=? x) && (x <=? hi).
Definition honest (lo hi : Z) (l : list Z) : nat := length (List.filter (in_range lo hi) l).

Lemma honest_app lo hi l1 l2 : honest lo hi (l1 ++ l2) = (honest lo hi l1 + honest lo hi l2)%nat.
Proof. unfold honest. by rewrite List.filter_app, length_app. Qed.
Lemma honest_le lo hi l : (honest lo hi l <= length l)%nat.
Proof. apply List.filter_length_le. Qed.
Lemma honest_none lo hi l : Forall (λ y, y < lo ∨ hi < y) l → honest lo hi l = 0%nat.
Proof.
  unfold honest. induction 1 as [|y l Hy _ IH]; [done|]. cbn.
  by replace (in_range lo hi y) with false by (unfold in_range; lia).
Qed.
Lemma honest_perm lo hi l l' : l ≡ₚ l' → honest lo hi l = honest lo hi l'.
Proof. unfold honest. induction 1; cbn; repeat case_match; cbn; congruence || lia. Qed.

(** A position that is far enough from both ends holds a value in the range. *)
Lemma sorted_middle lo hi s i x :
  StronglySorted (le_of (key_leb id)) s → s !! i = Some x →
  (length s <= honest lo hi s + i)%nat → (i < honest lo hi s)%nat → in_range lo hi x = true.
Proof.
  intros Hs Hi Hlo Hhi. pose proof (lookup_lt_Some _ _ _ Hi).
  destruct (decide (x < lo)) as [Hx|Hx].
  { pose proof (sorted_take_le _ _ _ Hs Hi) as Ht.
    rewrite <- (take_drop (S i) s) in Hlo at 2. rewrite honest_app, (honest_none _ _ (take _ _)) in Hlo.
    - pose proof (honest_le lo hi (drop (S i) s)) as Hd. rewrite length_drop in Hd. lia.
    - eapply Forall_impl; [exact Ht|]. cbn. lia. }
  destruct (decide (hi < x)) as [Hx'|Hx']; [|unfold in_range; lia].
  pose proof (sorted_drop_ge _ _ _ Hs Hi) as Ht.
  rewrite <- (take_drop i s) in Hhi. rewrite honest_app, (honest_none _ _ (drop _ _)) in Hhi.
  - pose proof (honest_le lo hi (take i s)) as Hd. rewrite length_take in Hd. lia.
  - eapply Forall_impl; [exact Ht|]. cbn. lia.
Qed.

Lemma price_at_lookup l i : (i < length l)%nat → l !! i = Some (price_at l i).
Proof. intros [x Hx]%lookup_lt_is_Some_2. unfold price_at. by rewrite nth_lookup, Hx. Qed.

(** When more than half of the prices lie in a range, so does the median, as
    long as the sum of the two middle prices fits. *)
Lemma median_robust lo hi l :
  (length l < 2 * honest lo hi l)%nat → 0 <= lo → hi + hi <= u128_max →
  in_range lo hi (median_price l) = true.
Proof.
  intros Hmaj Hlo Hhi. unfold median_price. set (s := sort_by_key id l).
  assert (Hs : StronglySorted (le_of (key_leb id)) s)
    by (apply sort_by_sorted; [apply key_leb_total|apply key_leb_trans]).
  assert (Hp : s ≡ₚ l) by apply sort_by_perm.
  rewrite <- (Permutation_length Hp), <- (honest_perm lo hi _ _ Hp) in Hmaj. clearbody s. clear Hp l.
  pose proof (honest_le lo hi s). pose proof (Nat.div_mod_eq (length s) 2) as Hd.
  assert (Hm : ∀ i, (length s <= honest lo hi s + i)%nat → (i < honest lo hi s)%nat →
    in_range lo hi (price_at s i) = true).
  { intros i Hi Hi'. eapply sorted_middle; [exact Hs|apply price_at_lookup; lia|done..]. }
  destruct (Nat.eqb_spec (length s mod 2) 0) as [He|He].
  - assert (H1 := Hm (length s / 2 - 1)%nat ltac:(lia) ltac:(lia)).
    assert (H2 := Hm (length s / 2)%nat ltac:(lia) ltac:(lia)).
    revert H1 H2. generalize (price_at s (length s / 2 - 1)) (price_at s (length s / 2)).
    intros a b. unfold in_range. intros. rewrite add128_small by lia.
    apply andb_true_intro. rewrite !Z.leb_le. split.
    + apply Z.div_le_lower_bound; lia.
    + apply Z.div_le_upper_bound; lia.
  - assert (length s mod 2 < 2)%nat by (apply Nat.mod_upper_bound; lia). apply Hm; lia.
Qed.

(** The outcome of an aggregation that has a price to work with. *)
Lemma aggregate_Ok r id now m us assigned f :
  pending_updates m !! id = Some us → get_feed_oracles r id = Some assigned → feeds m !! id = Some f →
  valid_prices assigned us ≠ [] →
  let prices := valid_prices assigned us in
  let price := median_price prices in
  aggregate_feed r id now m =
    (Ok tt, MkFeeds (<[id := MkFeed (feed_id f) (asset_pair f) price now (length prices) (update_frequency f)
                               (push_history (price_history f) now price)]> (feeds m))
                    (delete id (pending_updates m))).
Proof.
  intros Hus Ha Hf Hne prices price. unfold aggregate_feed, mbind, SE_bind, se_get. cbn beta iota. rewrite Hus.
  unfold se_mod at 1. cbn beta iota.
  rewrite bool_decide_eq_false_2 by (intros ->; by apply Hne). rewrite Ha, bool_decide_eq_false_2 by done.
  unfold se_mod. cbn beta iota. cbn [feeds pending_updates]. do 2 f_equal.
  apply map_eq. intros k. destruct (decide (k = id)) as [->|].
  - by rewrite lookup_alter_eq, lookup_insert_eq, Hf.
  - by rewrite lookup_alter_ne, lookup_insert_ne.
Qed.

(** An aggregation in which more than half of the prices of the assigned
    oracles lie in a range succeeds, publishes a price of that range with the
    time of the call, uses the pending updates up and leaves every other feed
    alone, as long as twice the upper end fits 128 bits. *)
Theorem aggregate_price_robust r id now m us assigned f lo hi :
  pending_updates m !! id = Some us → get_feed_oracles r id = Some assigned → feeds m !! id = Some f →
  let prices := valid_prices assigned us in
  (length prices < 2 * honest lo hi prices)%nat → 0 <= lo → hi + hi <= u128_max →
  ∃ m' f', aggregate_feed r id now m = (Ok tt, m') ∧ feeds m' !! id = Some f' ∧
    lo <= current_price f' <= hi ∧ pf_last_update f' = now ∧ pf_oracle_count f' = length prices ∧
    pending_updates m' !! id = None ∧ (∀ k, k ≠ id → feeds m' !! k = feeds m !! k).
Proof.
  intros Hus Ha Hf prices Hmaj Hlo Hhi.
  assert (Hne : prices ≠ []) by (intros He; rewrite He in Hmaj; cbn in Hmaj; lia).
  pose proof (median_robust lo hi prices Hmaj Hlo Hhi) as Hr. unfold in_range in Hr.
  eexists _, _. split_and!; [by apply aggregate_Ok|apply lookup_insert_eq|..];
    cbn [feeds pending_updates current_price]; fold prices; try lia; try done.
  - apply lookup_delete_eq.
  - intros k Hk. by rewrite lookup_insert_ne.
Qed.

(** ** One oracle is enough to set a price *)

Fixpoint submit_all (r : OracleRegistry) (us : list PriceUpdate) : SE PriceFeedManager string unit :=
  match us with [] => mret tt | u :: us' => submit_price_update r u ≫= λ _, submit_all r us' end.

Lemma submit_Ok r u m :
  is_Some (nodes r !! pu_oracle u) → is_Some (feeds m !! pu_feed u) →
  submit_price_update r u m =
    (Ok tt, MkFeeds (feeds m) (<[pu_feed u := default [] (pending_updates m !! pu_feed u) ++ [u]]> (pending_updates m))).
Proof.
  intros [o Ho] [f Hf]. unfold submit_price_update, mbind, SE_bind, se_get. cbn beta iota.
  by rewrite Ho, Hf, !bool_decide_eq_false_2 by done.
Qed.

Lemma submit_copies r u n m :
  is_Some (nodes r !! pu_oracle u) → is_Some (feeds m !! pu_feed u) →
  ∃ m', submit_all r (replicate n u) m = (Ok tt, m') ∧ feeds m' = feeds m ∧
    default [] (pending_updates m' !! pu_feed u) = default [] (pending_updates m !! pu_feed u) ++ replicate n u ∧
    (n ≠ 0%nat → is_Some (pending_updates m' !! pu_feed u)).
Proof.
  intros Ho. revert m. induction n as [|n IH]; intros m Hf; cbn.
  { exists m. by rewrite app_nil_r. }
  unfold mbind, SE_bind. rewrite submit_Ok by done.
  destruct (IH (MkFeeds (feeds m) (<[pu_feed u := default [] (pending_updates m !! pu_feed u) ++ [u]]> (pending_updates m))))
    as (m' & Hm' & Hfs & Hp & Hn); [done|].
  exists m'. rewrite Hm'. cbn [pending_updates feeds] in *. rewrite lookup_insert_eq in Hp. cbn in Hp.
  rewrite Hp, <- app_assoc. split_and!; [done..|]. intros _.
  destruct (pending_updates m' !! pu_feed u) eqn:E; [done|]. by destruct (default [] (pending_updates m !! pu_feed u)).
Qed.

Lemma valid_prices_app a l1 l2 : valid_prices a (l1 ++ l2) = valid_prices a l1 ++ valid_prices a l2.
Proof. unfold valid_prices. by rewrite List.filter_app, fmap_app. Qed.
Lemma valid_prices_copies a u n : pu_oracle u ∈ a → valid_prices a (replicate n u) = replicate n (pu_price u).
Proof.
  intros. unfold valid_prices. induction n as [|n IH]; [done|]. cbn.
  unfold contains. rewrite bool_decide_eq_true_2 by done. cbn. f_equal. exact IH.
Qed.
Lemma valid_prices_le a us : (length (valid_prices a us) <= length us)%nat.
Proof. unfold valid_prices. rewrite length_fmap. apply List.filter_length_le. Qed.
Lemma honest_copies n p : honest p p (replicate n p) = n.
Proof.
  unfold honest. induction n as [|n IH]; [done|]. cbn. unfold in_range at 1.
  rewrite Z.leb_refl. cbn. by rewrite IH.
Qed.

(** One assigned oracle sets the price by itself: whatever the others have
    submitted, after one more copy of its update than there are updates
    pending, the published price is the one it chose. *)
Theorem one_oracle_sets_price r m u assigned f now :
  nodes r !! pu_oracle u ≠ None → get_feed_oracles r (pu_feed u) = Some assigned → pu_oracle u ∈ assigned →
  feeds m !! pu_feed u = Some f → 0 <= pu_price u → pu_price u + pu_price u <= u128_max →
  let pending := default [] (pending_updates m !! pu_feed u) in
  ∃ m', (submit_all r (replicate (S (length pending)) u) ≫= λ _, aggregate_feed r (pu_feed u) now) m = (Ok tt, m') ∧
    get_price m' (pu_feed u) = Some (pu_price u).
Proof.
  intros Ho Ha Hin Hf Hp Hp2 pending. apply not_eq_None_Some in Ho.
  destruct (submit_copies r u (S (length pending)) m) as (m1 & Hm1 & Hfs & Hus & Hsome); [done|by eexists|].
  destruct (Hsome ltac:(done)) as [us Hus']. rewrite Hus' in Hus. cbn [default] in Hus. fold pending in Hus.
  unfold mbind, SE_bind. rewrite Hm1.
  assert (Hmaj : (length (valid_prices assigned us) <
    2 * honest (pu_price u) (pu_price u) (valid_prices assigned us))%nat).
  { unfold id in Hus. rewrite Hus, valid_prices_app, honest_app, valid_prices_copies, honest_copies, length_app, length_replicate by done.
    pose proof (valid_prices_le assigned pending). lia. }
  eexists. split.
  - apply aggregate_Ok; [done|done|by rewrite Hfs|]. intros He. rewrite He in Hmaj. cbn in Hmaj. lia.
  - unfold get_price. cbn [feeds]. rewrite lookup_insert_eq. cbn.
    pose proof (median_robust _ _ _ Hmaj Hp Hp2) as Hr. unfold in_range in Hr. f_equal. lia.
Qed.

(** ** The registry *)

Inductive oracles_step : OracleRegistry → OracleRegistry → Prop :=
| step_register a fs st now r : oracles_step r (snd (register_oracle a fs st now r))
| step_unregister a r : oracles_step r (snd (unregister_oracle a r))
| step_assign feed addrs r : oracles_step r (snd (assign_oracles_to_feed feed addrs r))
| step_report a ok r : oracles_step r (snd (report_oracle_accuracy a ok r)).
Definition oracles_reachable (c : OracleConfig) : OracleRegistry → Prop := rtc oracles_step (oracles_new c).

Record oracles_inv (c : OracleConfig) (r : OracleRegistry) : Prop := {
  oi_config : or_config r = c;
  oi_nodes : map_Forall (λ a o, or_address o = a ∧ min_stake c <= stake_amount o) (nodes r);
  oi_assigned : map_Forall (λ _ l, Forall (λ a, is_Some (nodes r !! a)) l) (feed_assignments r) }.

Lemma oracles_step_inv c r r' : oracles_inv c r → oracles_step r r' → oracles_inv c r'.
Proof.
  intros [Hc Hn Ha] Hs. destruct Hs as [a fs st now r|a r|feed addrs r|a ok r];
    unfold register_oracle, unregister_oracle, assign_oracles_to_feed, report_oracle_accuracy, mbind, SE_bind, se_get;
    cbn beta iota; repeat case_match; try done; bool_to_prop; split; cbn; try done.
  - apply map_Forall_insert_2; [|done]. cbn. rewrite <- Hc. split; [done|lia].
  - eapply map_Forall_impl; [exact Ha|]. intros k l Hl. eapply Forall_impl; [exact Hl|].
    intros x Hx. rewrite lookup_insert_is_Some. destruct (decide (a = x)); auto.
  - by apply map_Forall_delete.
  - intros k l. rewrite lookup_fmap. intros (l' & Hl' & ->)%fmap_Some.
    apply Forall_forall. intros x Hx. apply list_elem_of_In, List.filter_In in Hx as [Hx Hne].
    apply list_elem_of_In in Hx. bool_to_prop.
    specialize (Ha k l' Hl'). rewrite Forall_forall in Ha. rewrite lookup_delete_ne by congruence. auto.
  - apply map_Forall_insert_2; [|done]. apply Forall_forall. intros x Hx.
    match goal with Hb : forallb _ _ = true |- _ => rewrite forallb_forall in Hb;
      apply list_elem_of_In, Hb in Hx end. bool_to_prop. done.
  - apply map_Forall_insert_2; [|done]. exact (Hn _ _ ltac:(eassumption)).
  - eapply map_Forall_impl; [exact Ha|]. intros k l Hl. eapply Forall_impl; [exact Hl|].
    intros x Hx. rewrite lookup_insert_is_Some. destruct (decide (a = x)); auto.
Qed.

(** In every reachable registry each oracle is filed under its own address
    with at least the minimum stake, and only registered oracles are assigned
    to a feed. *)
Theorem oracle_registry_inv c r : oracles_reachable c r → oracles_inv c r.
Proof.
  intros Hr. unfold oracles_reachable in Hr. apply rtc_ind_r with (P := oracles_inv c) (x := oracles_new c) in Hr; [done|..].
  - split; cbn; [done|apply map_Forall_empty..].
  - intros y z _ Hyz Hy. by eapply oracles_step_inv.
Qed.

(** ** Stakes *)

(** Runs of the staking operations on the stake of [a], with what was paid in
    and what was paid out. *)
Inductive staking_run (a : Address) (p : f64) : OracleStaking → Z → Z → Prop :=
| run_new : staking_run a p (staking_new p) 0 0
| run_stake s b x d w : staking_run a p s d w →
    staking_run a p (stake b x s) (if decide (b = a) then d + x else d) w
| run_unstake s b x s' d w : staking_run a p s d w → unstake b x s = (Ok tt, s') →
    staking_run a p s' d (if decide (b = a) then w + x else w)
| run_slash s b x s' d w : staking_run a p s d w → slash b s = (Ok x, s') → staking_run a p s' d w.

Definition held (s : OracleStaking) (a : Address) : Z * Z :=
  match stakes s !! a with Some i => (staked_amount i, slashed_amount i) | None => (0, 0) end.

Lemma unstake_Ok b x s s' : unstake b x s = (Ok tt, s') →
  ∃ i, stakes s !! b = Some i ∧ x <= staked_amount i ∧
    stakes s' = <[b := MkStake (si_address i) (staked_amount i - x) (slashed_amount i) (total_rewards i) (slash_count i)]> (stakes s).
Proof.
  unfold unstake, mbind, SE_bind, se_get. cbn beta iota. intros Hu. repeat case_match; try discriminate Hu.
  unfold se_mod in Hu. simplify_eq. bool_to_prop. eexists. split_and!; [done|lia|done].
Qed.
Lemma slash_Ok b x s s' : slash b s = (Ok x, s') →
  ∃ i, stakes s !! b = Some i ∧ x = slash_of s (staked_amount i) ∧ x <= staked_amount i ∧
    stakes s' = <[b := MkStake (si_address i) (staked_amount i - x) (add128 (slashed_amount i) x) (total_rewards i)
                         (add64 (slash_count i) 1)]> (stakes s).
Proof.
  unfold slash, mbind, SE_bind, se_get. cbn beta iota. intros Hu. repeat case_match; try discriminate Hu.
  unfold se_mod, mret, SE_ret in *. simplify_eq. bool_to_prop. eexists. split_and!; [done|done|lia|done].
Qed.

(** What an oracle has paid in is what it still has at stake, what was
    slashed from it and what it has taken out again, in 128-bit arithmetic. *)
Theorem stake_conserved a p s d w : staking_run a p s d w →
  (fst (held s a) + snd (held s a) + w) mod (u128_max + 1) = d mod (u128_max + 1).
Proof.
  unfold held. induction 1 as [|s b x d w _ IH|s b x s' d w _ IH Hu|s b x s' d w _ IH Hu]; [done|..].
  - unfold stake. cbn [stakes]. destruct (decide (b = a)) as [->|Hne]; [|by rewrite lookup_insert_ne].
    rewrite lookup_insert_eq. cbn [fst snd staked_amount slashed_amount]. unfold add128.
    rewrite <- Z.add_assoc, Zplus_mod_idemp_l.
    rewrite (Z.add_mod d x), <- IH, <- Z.add_mod by (vm_compute; discriminate).
    destruct (stakes s !! a); cbn; f_equal; lia.
  - apply unstake_Ok in Hu as (i & Hi & Hx & ->).
    destruct (decide (b = a)) as [->|Hne]; [|by rewrite lookup_insert_ne].
    rewrite lookup_insert_eq. rewrite Hi in IH. cbn in *. rewrite <- IH. f_equal. lia.
  - apply slash_Ok in Hu as (i & Hi & _ & Hx & ->).
    destruct (decide (b = a)) as [->|Hne]; [|by rewrite lookup_insert_ne].
    rewrite lookup_insert_eq. rewrite Hi in IH. cbn in *. rewrite <- IH.
    unfold add128. rewrite (Z.add_comm (_ - x)), <- Z.add_assoc, Zplus_mod_idemp_l. f_equal. lia.
Qed.

(** ** Requests for randomness *)

Section VrfRuns.
Context `{Keccak}.

Inductive vrf_step : VrfManager → VrfManager → Prop :=
| step_request r s now m : vrf_step m (snd (request_randomness r s now m))
| step_fulfill id oracle m : vrf_step m (snd (fulfill_randomness id oracle m)).

(** A fulfilled request is never answered again. *)
Lemma fulfill_final id q oracle m : m !! id = Some q → fulfilled q = true →
  fulfill_randomness id oracle m = (Err "Request already fulfilled"%string, m).
Proof. intros Hq Hf. unfold fulfill_randomness, mbind, SE_bind, se_get. cbn beta iota. by rewrite Hq, Hf. Qed.

(** Asking again for randomness with the same seed within the same second
    replaces the request by a new one: an answer that was already given is lost
    and the request can be answered a second time, by another oracle. *)
Theorem repeated_request_loses_answer r s now m oracle1 oracle2 :
  let id := calculate_request_id r s now in
  let m1 := snd (fulfill_randomness id oracle1 (snd (request_randomness r s now m))) in
  let m2 := snd (fulfill_randomness id oracle2 (snd (request_randomness r s now m1))) in
  randomness <$> m1 !! id = Some (Some (generate_randomness s oracle1)) ∧
  fulfill_randomness id oracle2 m1 = (Err "Request already fulfilled"%string, m1) ∧
  randomness <$> m2 !! id = Some (Some (generate_randomness s oracle2)).
Proof.
  intros id m1 m2.
  assert (Hf : ∀ o m0, (fulfill_randomness id o (snd (request_randomness r s now m0))).2 !! id =
    Some (MkRandomness id r s now true (Some (generate_randomness s o)) (Some (MkRandomnessProof [] [] (generate_randomness s o))))).
  { intros o m0. unfold request_randomness. cbv zeta. fold id. cbn [snd].
    set (m' := <[id := _]> m0). assert (Hl : m' !! id = Some (MkRandomness id r s now false None None)) by apply lookup_insert_eq.
    unfold fulfill_randomness, mbind, SE_bind, se_get. cbn beta iota. rewrite Hl. unfold se_mod. cbn [fulfilled snd].
    apply lookup_insert_eq. }
  split_and!.
  - unfold m1. by rewrite Hf.
  - eapply fulfill_final; [apply Hf|done].
  - unfold m2. by rewrite Hf.
Qed.
End VrfRuns.

(** ** Concrete runs *)

Module OraclesReference.
Definition oracle (n : Z) : Address := MkAddress (replicate 20 n).
Definition eth : string := "ETH/USD".

Definition ex_registry : OracleRegistry :=
  snd ((register_oracle (oracle 1) [Price] (2 * 10 ^ 18) 0 ≫= λ _,
        register_oracle (oracle 2) [Price] (2 * 10 ^ 18) 0 ≫= λ _,
        register_oracle (oracle 3) [Price; Randomness] (2 * 10 ^ 18) 0 ≫= λ _,
        assign_oracles_to_feed eth [oracle 1; oracle 2; oracle 3]) (oracles_new oracle_config_default)).
Definition update (n : Z) (p : u128) : PriceUpdate := MkUpdate (oracle n) eth p 5 None.
(** Two sound prices and one that is far off. *)
Definition ex_feeds : PriceFeedManager :=
  snd (submit_all ex_registry [update 1 100; update 2 999999; update 3 102] (create_feed eth ("ETH", "USD")%string 60 feeds_new)).

Lemma aggregate_price_robust_witness :
  ∃ m' f', aggregate_feed ex_registry eth 7 ex_feeds = (Ok tt, m') ∧ feeds m' !! eth = Some f' ∧
    90 <= current_price f' <= 110.
Proof.
  destruct (aggregate_price_robust ex_registry eth 7 ex_feeds [update 1 100; update 2 999999; update 3 102]
    [oracle 1; oracle 2; oracle 3] (feed_new eth ("ETH", "USD")%string 60) 90 110) as (m' & f' & Ha & Hf & Hp & _);
    [vm_compute; reflexivity..|apply Nat.ltb_lt; vm_compute; reflexivity|lia|unfold u128_max; lia|].
  exists m', f'. exact (conj Ha (conj Hf Hp)).
Defined.

Lemma one_oracle_sets_price_witness :
  ∃ m', (submit_all ex_registry (replicate 4 (update 2 999999)) ≫= λ _, aggregate_feed ex_registry eth 7) ex_feeds = (Ok tt, m') ∧
    get_price m' eth = Some 999999.
Proof.
  apply (one_oracle_sets_price ex_registry ex_feeds (update 2 999999) [oracle 1; oracle 2; oracle 3]
    (feed_new eth ("ETH", "USD")%string 60) 7).
  - vm_compute. discriminate.
  - vm_compute. reflexivity.
  - apply (bool_decide_unpack _). vm_compute. exact I.
  - vm_compute. reflexivity.
  - cbn. lia.
  - cbn. unfold u128_max. lia.
Defined.

Lemma oracle_registry_inv_witness : oracles_inv oracle_config_default
  (snd (register_oracle (oracle 1) [Price] (2 * 10 ^ 18) 0 (oracles_new oracle_config_default))).
Proof. apply oracle_registry_inv. apply rtc_once, step_register. Defined.

Definition ex_staked : OracleStaking := stake (oracle 1) 1000 (staking_new (f_lit 1 10)).
Lemma stake_conserved_witness :
  let s := snd (slash (oracle 1) ex_staked) in
  (fst (held s (oracle 1)) + snd (held s (oracle 1)) + 0) mod (u128_max + 1) = 1000 mod (u128_max + 1) ∧
  held s (oracle 1) = (900, 100).
Proof.
  split; [|vm_compute; reflexivity].
  apply (stake_conserved (oracle 1) (f_lit 1 10) _ 1000 0).
  apply (run_slash _ _ ex_staked (oracle 1) 100); [|vm_compute; reflexivity].
  exact (run_stake (oracle 1) _ _ (oracle 1) 1000 0 0 (run_new _ _)).
Defined.
End OraclesReference.
