(* ===== verification/StopLoss.v ===== *)
(** * StopLoss: orders that wait for a price

    Models [irondag-blockchain/src/stop_loss]: the manager of stop-loss orders
    and the monitor that reads prices and triggers them.  The manager is behind
    a [tokio::sync::RwLock], which is not reentrant: a task that holds it for
    reading and asks for it for writing waits for itself. *)

From S2P Require Import Prelude Types Block Float64 Oracles.

Inductive StopLossType :=
| PriceAbove (threshold : u128)
| PriceBelow (threshold : u128)
| PercentChangeUp (percent : f64)
| PercentChangeDown (percent : f64)
| PriceRange (min max : u128).
Inductive StopLossStatus := Active | Paused | Triggered | SlCancelled | Expired.
#[global] Instance StopLossStatus_eq_dec : EqDecision StopLossStatus.
Proof. solve_decision. Defined.

Record StopLossOrder := MkOrder {
  stop_loss_id : Hash;
  wallet_address : Address;
  so_asset_pair : string;
  trigger_type : StopLossType;
  so_transaction : Transaction;
  oracle_feed_id : option string;
  so_created_at : u64;
  so_status : StopLossStatus;
  triggered_at : option u64;
  triggered_price : option u128;
  execution_tx_hash : option Hash;
  initial_price : option u128;
  expiration_date : option u64 }.

Definition should_trigger (o : StopLossOrder) (price : u128) (now : u64) : bool :=
  if negb (bool_decide (so_status o = Active)) then false else
  if match expiration_date o with Some e => e <=? now | None => false end then false else
  let initial := default price (initial_price o) in
  match trigger_type o with
  | PriceAbove t => t <=? price
  | PriceBelow t => price <=? t
  | PercentChangeUp p =>
      f_leb p (f_mul (f_div (f_sub (f_of_Z price) (f_of_Z initial)) (f_of_Z initial)) (f_of_Z 100))
  | PercentChangeDown p =>
      f_leb p (f_mul (f_div (f_sub (f_of_Z initial) (f_of_Z price)) (f_of_Z initial)) (f_of_Z 100))
  | PriceRange lo hi => (price <? lo) || (hi <? price)
  end.

Definition set_order_status (s : StopLossStatus) (o : StopLossOrder) : StopLossOrder :=
  MkOrder (stop_loss_id o) (wallet_address o) (so_asset_pair o) (trigger_type o) (so_transaction o) (oracle_feed_id o)
    (so_created_at o) s (triggered_at o) (triggered_price o) (execution_tx_hash o) (initial_price o) (expiration_date o).
Definition set_order_trigger (t : StopLossType) (o : StopLossOrder) : StopLossOrder :=
  MkOrder (stop_loss_id o) (wallet_address o) (so_asset_pair o) t (so_transaction o) (oracle_feed_id o)
    (so_created_at o) (so_status o) (triggered_at o) (triggered_price o) (execution_tx_hash o) (initial_price o) (expiration_date o).

Definition StopLossManager := gmap Hash StopLossOrder.
Abbreviation LM := (SE (gmap Hash StopLossOrder) string).

Section Manager.
Context `{Keccak, Codec StopLossType}.

(** [bincode::serialize(..).unwrap()]: a type that cannot be encoded panics. *)
Definition stop_loss_calculate_id (w : Address) (pair : string) (t : StopLossType) (created : u64) : option Hash :=
  (λ bs, keccak256 (addr_bytes w ++ bytes_of_string pair ++ bs ++ to_le_bytes 8 created)) <$> serialize t.
Definition order_new (w : Address) (pair : string) (t : StopLossType) (tx : Transaction) (feed : option string)
    (created : u64) (expires : option u64) : option StopLossOrder :=
  (λ id, MkOrder id w pair t tx feed created Active None None None None expires) <$> stop_loss_calculate_id w pair t created.
Definition create_stop_loss (w : Address) (pair : string) (t : StopLossType) (tx : Transaction) (feed : option string)
    (created : u64) (expires : option u64) (m : StopLossManager) : option (StopLossOrder * StopLossManager) :=
  (λ o, (o, <[stop_loss_id o := o]> m)) <$> order_new w pair t tx feed created expires.
End Manager.

(** [self.orders.get_mut(id).ok_or("Stop-loss order not found")?] *)
Definition on_order (id : Hash) (f : StopLossOrder → result string StopLossOrder) : LM unit :=
  m ← se_get;
  match m !! id with
  | None => se_read (λ _, Err "Stop-loss order not found"%string)
  | Some o => o' ← se_read (λ _, f o); se_mod (<[id := o']>)
  end.

Definition sl_cancel (id : Hash) : LM unit := on_order id (λ o,
  if bool_decide (so_status o = Triggered) then Err "Cannot cancel triggered order"%string
  else Ok (set_order_status SlCancelled o)).
Definition mark_triggered (id : Hash) (price : u128) (now : u64) : LM unit := on_order id (λ o,
  Ok (MkOrder (stop_loss_id o) (wallet_address o) (so_asset_pair o) (trigger_type o) (so_transaction o) (oracle_feed_id o)
    (so_created_at o) Triggered (Some now) (Some price) (execution_tx_hash o) (initial_price o) (expiration_date o))).
Definition set_execution_tx (id h : Hash) : LM unit := on_order id (λ o,
  Ok (MkOrder (stop_loss_id o) (wallet_address o) (so_asset_pair o) (trigger_type o) (so_transaction o) (oracle_feed_id o)
    (so_created_at o) (so_status o) (triggered_at o) (triggered_price o) (Some h) (initial_price o) (expiration_date o))).
Definition set_initial_price (id : Hash) (price : u128) : LM unit := on_order id (λ o,
  Ok (match initial_price o with
      | Some _ => o
      | None => MkOrder (stop_loss_id o) (wallet_address o) (so_asset_pair o) (trigger_type o) (so_transaction o) (oracle_feed_id o)
          (so_created_at o) (so_status o) (triggered_at o) (triggered_price o) (execution_tx_hash o) (Some price) (expiration_date o)
      end)).
Definition sl_pause (id : Hash) : LM unit := on_order id (λ o,
  if bool_decide (so_status o = Active) then Ok (set_order_status Paused o) else Err "Order is not active"%string).
Definition sl_resume (id : Hash) : LM unit := on_order id (λ o,
  if bool_decide (so_status o = Paused) then Ok (set_order_status Active o) else Err "Order is not paused"%string).
Definition update_trigger_price (id : Hash) (price : u128) : LM unit := on_order id (λ o,
  match trigger_type o with
  | PriceAbove _ => Ok (set_order_trigger (PriceAbove price) o)
  | PriceBelow _ => Ok (set_order_trigger (PriceBelow price) o)
  | _ => Err "Cannot update price for this trigger type"%string
  end).

Section Queries.
Context `{HashIter}.
Definition get_for_address (m : StopLossManager) (a : Address) : list StopLossOrder :=
  List.filter (λ o, bool_decide (wallet_address o = a)) (snd <$> hm_iter m).
Definition get_active_for_feed (m : StopLossManager) (feed : string) : list StopLossOrder :=
  List.filter (λ o, bool_decide (so_status o = Active)
    && match oracle_feed_id o with Some id => bool_decide (id = feed) | None => true end) (snd <$> hm_iter m).
End Queries.

(** ** The monitor *)

(** A lock as one task sees it: the guards it holds for reading. *)
Record RwLock (A : Type) := MkLock { read_guards : nat; locked : A }.
Arguments MkLock {_}.
Arguments read_guards {_}.
Arguments locked {_}.
Inductive Outcome (A : Type) := Finished (a : A) | Deadlock.
Arguments Finished {_}.
Arguments Deadlock {_}.

Definition acquire_read {A} (l : RwLock A) : RwLock A := MkLock (S (read_guards l)) (locked l).
Definition release_read {A} (l : RwLock A) : RwLock A := MkLock (read_guards l - 1) (locked l).
(** [let mut w = lock.write().await; f(&mut w)]: waits for all guards. *)
Definition with_write {A} (f : A → A) (l : RwLock A) : Outcome (RwLock A) :=
  match read_guards l with O => Finished (MkLock O (f (locked l))) | _ => Deadlock end.

(** One order at its price: the lock afterwards, and what it triggered. *)
Definition check_order (now : u64) (id : Hash) (o : StopLossOrder) (price : u128) (l : RwLock StopLossManager) :
    Outcome (RwLock StopLossManager * list (Hash * Transaction)) :=
  match (match initial_price o with
         | None => with_write (λ m, snd (set_initial_price id price m)) l
         | Some _ => Finished l
         end) with
  | Deadlock => Deadlock
  | Finished l =>
      if should_trigger o price now then
        match with_write (λ m, snd (mark_triggered id price now m)) l with
        | Deadlock => Deadlock
        | Finished l => Finished (l, [(id, so_transaction o)])
        end
      else Finished (l, [])
  end.
Fixpoint check_orders (now : u64) (orders : list (Hash * StopLossOrder * option u128)) (l : RwLock StopLossManager) :
    Outcome (RwLock StopLossManager * list (Hash * Transaction)) :=
  match orders with
  | [] => Finished (l, [])
  | (id, o, None) :: rest => check_orders now rest l
  | (id, o, Some price) :: rest =>
      match check_order now id o price l with
      | Deadlock => Deadlock
      | Finished (l, fired) =>
          match check_orders now rest l with
          | Deadlock => Deadlock
          | Finished (l, more) => Finished (l, fired ++ more)
          end
      end
  end.

Section Monitor.
Context `{HashIter}.
(** The read guard lives to the end of the function. *)
Definition check_and_trigger (feeds : PriceFeedManager) (now : u64) (l : RwLock StopLossManager) :
    Outcome (RwLock StopLossManager * list (Hash * Transaction)) :=
  let l := acquire_read l in
  let active := List.filter (λ io : Hash * StopLossOrder, bool_decide (so_status io.2 = Active)) (hm_iter (locked l)) in
  match check_orders now ((λ io, (io.1, io.2, get_price feeds (so_asset_pair io.2))) <$> active) l with
  | Deadlock => Deadlock
  | Finished (l, fired) => Finished (release_read l, fired)
  end.
Definition check_feed (feeds : PriceFeedManager) (feed : string) (now : u64) (l : RwLock StopLossManager) :
    Outcome (RwLock StopLossManager * list (Hash * Transaction)) :=
  let l := acquire_read l in
  let active := get_active_for_feed (locked l) feed in
  match get_price feeds feed with
  | None => Finished (release_read l, [])
  | Some price =>
      match check_orders now ((λ o, (stop_loss_id o, o, Some price)) <$> active) l with
      | Deadlock => Deadlock
      | Finished (l, fired) => Finished (release_read l, fired)
      end
  end.
End Monitor.

(** ** Orders *)

Inductive StopLossOp :=
| Cancel (id : Hash) | MarkTriggered (id : Hash) (price : u128) (now : u64) | SetExecution (id h : Hash)
| SetInitial (id : Hash) (price : u128) | Pause (id : Hash) | Resume (id : Hash) | UpdateTrigger (id : Hash) (price : u128).
Definition do_stop_loss (m : StopLossManager) (op : StopLossOp) : StopLossManager :=
  match op with
  | Cancel id => (sl_cancel id m).2
  | MarkTriggered id p now => (mark_triggered id p now m).2
  | SetExecution id h => (set_execution_tx id h m).2
  | SetInitial id p => (set_initial_price id p m).2
  | Pause id => (sl_pause id m).2
  | Resume id => (sl_resume id m).2
  | UpdateTrigger id p => (update_trigger_price id p m).2
  end.

Lemma on_order_lookup id f m h o : m !! h = Some o →
  ∃ o', (on_order id f m).2 !! h = Some o' ∧ (o' = o ∨ (id = h ∧ f o = Ok o')).
Proof.
  intros Hm. unfold on_order. rewrite se_get_step. destruct (m !! id) as [x|] eqn:Hid; [|exists o; by split; [|left]].
  destruct (f x) as [y|e] eqn:Hf.
  - erewrite se_read_step by reflexivity. cbn. destruct (decide (id = h)) as [->|Hne].
    + rewrite lookup_insert_eq. exists y. split; [done|]. right. by simplify_eq.
    + rewrite lookup_insert_ne by done. exists o. by split; [|left].
  - erewrite se_read_fail by reflexivity. exists o. by split; [|left].
Qed.

(** What an order keeps whatever is done to it. *)
Record order_kept (o o' : StopLossOrder) : Prop := {
  kept_transaction : so_transaction o' = so_transaction o;
  kept_wallet : wallet_address o' = wallet_address o;
  kept_pair : so_asset_pair o' = so_asset_pair o;
  kept_triggered : so_status o = Triggered → so_status o' = Triggered;
  kept_cancelled : so_status o = SlCancelled → so_status o' = SlCancelled ∨ so_status o' = Triggered;
  kept_initial : ∀ p, initial_price o = Some p → initial_price o' = Some p }.

#[global] Instance order_kept_preorder : PreOrder order_kept.
Proof.
  split; [intros o; split; auto|]. intros o1 o2 o3 [] []. split; try congruence; auto.
  intros Hc. destruct (kept_cancelled0 Hc); auto.
Qed.

Lemma on_order_kept id f m h o : (∀ x y, f x = Ok y → order_kept x y) → m !! h = Some o →
  ∃ o', (on_order id f m).2 !! h = Some o' ∧ order_kept o o'.
Proof.
  intros Hf Hm. destruct (on_order_lookup id f m h o Hm) as (o' & Ho & [->|[_ Hok]]); eauto. by exists o.
Qed.
Lemma do_stop_loss_kept op m h o : m !! h = Some o →
  ∃ o', do_stop_loss m op !! h = Some o' ∧ order_kept o o'.
Proof.
  intros Hm. destruct op; (eapply on_order_kept; [|exact Hm]).
  all: intros x y Hf; cbn in Hf; repeat case_match; simplify_eq; bool_to_prop; split; cbn; auto; congruence.
Qed.

(** Whatever is done to an order, it keeps its transaction, its wallet and
    its asset; a triggered order stays triggered, a cancelled one never waits
    for a price again, and an initial price is never replaced. *)
Theorem stop_loss_status_final ops m h o : m !! h = Some o →
  ∃ o', foldl do_stop_loss m ops !! h = Some o' ∧ order_kept o o'.
Proof.
  revert m o. induction ops as [|op ops IH]; intros m o Hm; [by exists o|]. cbn.
  destruct (do_stop_loss_kept op m h o Hm) as (o1 & Hm1 & Hk1).
  destruct (IH _ _ Hm1) as (o2 & Hm2 & Hk2). exists o2. split; [done|]. by transitivity o1.
Qed.

(** ** The monitor deadlocks *)

Lemma check_orders_guarded now orders : ∀ l, read_guards l ≠ 0%nat →
  check_orders now orders l = Deadlock ∨
  (check_orders now orders l = Finished (l, []) ∧
   ∀ id o price, (id, o, Some price) ∈ orders → is_Some (initial_price o) ∧ should_trigger o price now = false).
Proof.
  induction orders as [|[[id o] [price|]] orders IH]; intros l Hg; cbn [check_orders].
  - right. split; [done|]. by intros ? ? ? ?%elem_of_nil.
  - assert (check_order now id o price l = Deadlock ∨ (check_order now id o price l = Finished (l, []) ∧
      is_Some (initial_price o) ∧ should_trigger o price now = false)) as Hc.
    { destruct l as [[|n] m]; [done|]. unfold check_order, with_write. cbn [read_guards locked].
      destruct (initial_price o) eqn:Hi; [|by left].
      cbn [read_guards]. destruct (should_trigger o price now); [by left|right; by split_and!]. }
    destruct Hc as [->|(-> & Hi & Ht)]; [by left|].
    destruct (IH l Hg) as [->|(-> & Hall)]; [by left|]. right. split; [done|].
    intros id' o' price' [[= -> -> ->]|Hin]%elem_of_cons; [done|by eapply Hall].
  - destruct (IH l Hg) as [->|(-> & Hall)]; [by left|]. right. split; [done|].
    intros id' o' price' [?|Hin]%elem_of_cons; [done|by eapply Hall].
Qed.

(** The monitor asks for the manager's lock for writing while it holds it for
    reading: a check never triggers an order, and it hangs as soon as an active
    order with a known price has no initial price yet or should trigger. *)
Theorem stop_loss_monitor_never_triggers `{HashIter} feeds now l :
  check_and_trigger feeds now l = Deadlock ∨
  ∃ l', check_and_trigger feeds now l = Finished (l', []) ∧ locked l' = locked l ∧
    ∀ id o price, locked l !! id = Some o → so_status o = Active → get_price feeds (so_asset_pair o) = Some price →
      is_Some (initial_price o) ∧ should_trigger o price now = false.
Proof.
  unfold check_and_trigger. cbv zeta.
  destruct (check_orders_guarded now
    ((λ io, (io.1, io.2, get_price feeds (so_asset_pair io.2))) <$>
      List.filter (λ io : Hash * StopLossOrder, bool_decide (so_status io.2 = Active)) (hm_iter (locked (acquire_read l))))
    (acquire_read l) ltac:(done)) as [->|(-> & Hall)]; [by left|right].
  eexists. split; [done|]. split; [done|]. intros id o price Hl Hs Hp. apply (Hall id).
  apply list_elem_of_fmap. exists (id, o). cbn. split; [by rewrite Hp|]. apply elem_of_filter_b. cbn.
  rewrite bool_decide_true by done. split; [done|]. by rewrite hm_iter_perm, elem_of_map_to_list.
Qed.

(** ** Concrete runs *)

Module StopLossReference.
Import BlockReference.
Definition ex_id : Hash := MkHash (replicate 32 9).
Definition ex_order : StopLossOrder :=
  MkOrder ex_id alice "ETH/USD" (PriceBelow 90) transfer None 5 Active None None None None None.
Lemma stop_loss_status_final_witness :
  ∃ o', foldl do_stop_loss {[ex_id := ex_order]} [Pause ex_id; MarkTriggered ex_id 80 7; Cancel ex_id; Resume ex_id] !! ex_id = Some o' ∧
    order_kept ex_order o'.
Proof. apply stop_loss_status_final. vm_compute. reflexivity. Defined.
End StopLossReference.
