(* ===== verification/Kzg.v ===== *)
(** * Kzg: polynomial commitments

    Models [irondag-blockchain/src/verkle/kzg.rs]: the reference string, the
    commitment to a polynomial given by its coefficients, openings at a point
    and their verification by a pairing.  The scalar field, the two groups, the
    pairing and their encodings are those of the [ark] libraries: parameters
    with their documented laws. *)

From Stdlib Require Export Field_theory.
From Stdlib Require Import Field.
From S2P Require Import Prelude Types.

(** ** The curve *)

Class Curve := {
  Fr : Type;
  Fr_eq_dec :: EqDecision Fr;
  fr_zero : Fr;
  fr_one : Fr;
  fr_add : Fr → Fr → Fr;
  fr_mul : Fr → Fr → Fr;
  fr_sub : Fr → Fr → Fr;
  fr_opp : Fr → Fr;
  fr_div : Fr → Fr → Fr;
  fr_inv : Fr → Fr;
  (** [Fr::rand(&mut StdRng::seed_from_u64(seed))] *)
  fr_rand : u64 → Fr;
  (** [Fr::from(n)] of an unsigned integer *)
  fr_from_Z : Z → Fr;
  fr_from_be_bytes : list u8 → Fr;
  fr_from_le_bytes : list u8 → Fr;
  (** [fr.into_bigint().to_bytes_le()] *)
  fr_into_bytes_le : Fr → list u8;
  (** [DensePolynomial::from_coefficients_vec(c).evaluate(&z)] *)
  evaluate : list Fr → Fr → Fr;
  G1 : Type;
  G2 : Type;
  GT : Type;
  GT_eq_dec :: EqDecision GT;
  g1_zero : G1;
  g1_generator : G1;
  g1_add : G1 → G1 → G1;
  g1_sub : G1 → G1 → G1;
  g1_mul : G1 → Fr → G1;
  g2_generator : G2;
  g2_sub : G2 → G2 → G2;
  g2_mul : G2 → Fr → G2;
  gt_mul : GT → Fr → GT;
  pairing : G1 → G2 → GT;
  (** [serialize_compressed] and [deserialize_compressed] *)
  g1_serialize : G1 → list u8;
  g1_deserialize : list u8 → option G1 }.

Fixpoint horner `{Curve} (cs : list Fr) (x : Fr) : Fr :=
  match cs with [] => fr_zero | c :: cs' => fr_add c (fr_mul x (horner cs' x)) end.

(** What the libraries document: a field, two groups it acts on, and a
    non-degenerate bilinear map. *)
Class CurveLaws `{Curve} : Prop := {
  fr_field : field_theory fr_zero fr_one fr_add fr_mul fr_sub fr_opp fr_div fr_inv eq;
  evaluate_horner cs z : evaluate cs z = horner cs z;
  fr_bytes_length x : length (fr_into_bytes_le x) = 32%nat;
  fr_bytes_roundtrip x : fr_from_be_bytes (rev (fr_into_bytes_le x)) = x;
  fr_le_bytes_roundtrip x : fr_from_le_bytes (fr_into_bytes_le x) = x;
  fr_from_add a b : fr_from_Z (a + b) = fr_add (fr_from_Z a) (fr_from_Z b);
  fr_from_1 : fr_from_Z 1 = fr_one;
  g1_add_0_l P : g1_add g1_zero P = P;
  g1_mul_0 P : g1_mul P fr_zero = g1_zero;
  g1_mul_1 P : g1_mul P fr_one = P;
  g1_mul_add P a b : g1_mul P (fr_add a b) = g1_add (g1_mul P a) (g1_mul P b);
  g1_mul_sub P a b : g1_mul P (fr_sub a b) = g1_sub (g1_mul P a) (g1_mul P b);
  g1_mul_mul P a b : g1_mul (g1_mul P a) b = g1_mul P (fr_mul a b);
  g2_mul_sub Q a b : g2_mul Q (fr_sub a b) = g2_sub (g2_mul Q a) (g2_mul Q b);
  pairing_l P Q a : pairing (g1_mul P a) Q = gt_mul (pairing P Q) a;
  pairing_r P Q a : pairing P (g2_mul Q a) = gt_mul (pairing P Q) a;
  pairing_inj P P' : pairing P g2_generator = pairing P' g2_generator → P = P';
  g1_roundtrip P : g1_deserialize (g1_serialize P) = Some P }.

Section Kzg.
Context `{Curve}.

(** ** Reference string *)

Record KzgSrs := MkSrs { g1_powers : list G1; g2_gen : G2; g2_tau : G2 }.

(** [for _ in 0..=max_degree { push(g1_gen * tau_power); tau_power *= tau }] *)
Fixpoint powers_from (n : nat) (tau_power tau : Fr) : list G1 :=
  match n with
  | O => []
  | S n' => g1_mul g1_generator tau_power :: powers_from n' (fr_mul tau_power tau) tau
  end.
Definition generate_deterministic (max_degree : nat) (seed : u64) : KzgSrs :=
  let tau := fr_rand seed in
  MkSrs (powers_from (S max_degree) fr_one tau) g2_generator (g2_mul g2_generator tau).

(** ** Commitments and openings *)

(** [for (i, coeff) in .. { if coeff != 0 { acc += g1_powers[i] * coeff } }]; the
    terms past the end of the reference string are skipped. *)
Definition commit_sum (powers : list G1) (coeffs : list Fr) : G1 :=
  foldl (λ acc gc, if decide (gc.2 = fr_zero) then acc else g1_add acc (g1_mul gc.1 gc.2)) g1_zero (zip powers coeffs).
Definition usable (srs : KzgSrs) (coeffs : list Fr) : bool :=
  negb ((length coeffs =? 0)%nat || (length (g1_powers srs) <? length coeffs)%nat).
Definition commit (srs : KzgSrs) (coeffs : list Fr) : option G1 :=
  if usable srs coeffs then Some (commit_sum (g1_powers srs) coeffs) else None.

(** [q_i], with the powers of [z] built up along the coefficients after [i]. *)
Definition quotient_coeff (coeffs : list Fr) (z : Fr) (i : nat) : Fr :=
  (foldl (λ sz a, (fr_add sz.1 (fr_mul a sz.2), fr_mul sz.2 z)) (fr_zero, fr_one) (drop (S i) coeffs)).1.
Definition quotient (coeffs : list Fr) (z : Fr) : list Fr :=
  quotient_coeff coeffs z <$> seq 0 (length coeffs - 1).
Definition compute_quotient_commitment (srs : KzgSrs) (coeffs : list Fr) (z : Fr) : G1 :=
  commit_sum (g1_powers srs) (quotient coeffs z).
Definition kzg_open (srs : KzgSrs) (coeffs : list Fr) (z : Fr) : option (Fr * G1) :=
  if usable srs coeffs then Some (evaluate coeffs z, compute_quotient_commitment srs coeffs z) else None.

(** ** Verification *)

(** [None] is the panic of [srs.g1_powers[0]] on an empty reference string. *)
Definition kzg_verify (c proof : G1) (z v : Fr) (srs : KzgSrs) : option bool :=
  g ← g1_powers srs !! 0%nat;
  let c_minus_v := g1_sub c (g1_mul g v) in
  let tau_minus_z := g2_sub (g2_tau srs) (g2_mul (g2_gen srs) z) in
  Some (bool_decide (pairing c_minus_v (g2_gen srs) = pairing proof tau_minus_z)).

(** ** Algebra *)

Section Laws.
Context `{!CurveLaws}.
Add Field FrField : fr_field.

Lemma quotient_fold cs z s p :
  (foldl (λ sz a, (fr_add sz.1 (fr_mul a sz.2), fr_mul sz.2 z)) (s, p) cs).1 = fr_add s (fr_mul p (horner cs z)).
Proof. revert s p. induction cs as [|c cs IH]; intros s p; cbn; [|rewrite IH]; ring. Qed.
Lemma quotient_coeff_eq cs z i : quotient_coeff cs z i = horner (drop (S i) cs) z.
Proof. unfold quotient_coeff. rewrite quotient_fold. ring. Qed.
Lemma quotient_cons c cs z : cs ≠ [] → quotient (c :: cs) z = horner cs z :: quotient cs z.
Proof.
  intros Hne. unfold quotient. destruct cs as [|d cs]; [done|]. cbn [length]. rewrite !Nat.sub_succ, !Nat.sub_0_r.
  cbn [seq]. rewrite fmap_cons, quotient_coeff_eq, drop_0 || rewrite fmap_cons, quotient_coeff_eq. f_equal.
  rewrite <- seq_shift. change (S <$> seq 0 (length cs)) with (List.map S (seq 0 (length cs))).
  rewrite <- list_fmap_compose. apply list_fmap_ext. intros ? i _. cbn. by rewrite !quotient_coeff_eq.
Qed.

(** Division by [x - z]. *)
Lemma quotient_spec cs x z :
  fr_sub (horner cs x) (horner cs z) = fr_mul (fr_sub x z) (horner (quotient cs z) x).
Proof.
  induction cs as [|c cs IH]; [cbn; ring|]. destruct (decide (cs = [])) as [->|Hne]; [cbn; ring|].
  rewrite quotient_cons by done. cbn [horner].
  transitivity (fr_add (fr_mul x (fr_sub (horner cs x) (horner cs z))) (fr_mul (fr_sub x z) (horner cs z))); [ring|].
  rewrite IH. ring.
Qed.

Lemma commit_fold n t tau cs acc : (length cs <= n)%nat →
  foldl (λ acc gc, if decide (gc.2 = fr_zero) then acc else g1_add acc (g1_mul gc.1 gc.2)) (g1_mul g1_generator acc)
    (zip (powers_from n t tau) cs) = g1_mul g1_generator (fr_add acc (fr_mul t (horner cs tau))).
Proof.
  revert n t acc. induction cs as [|c cs IH]; intros [|n] t acc Hn; cbn in *; try (f_equal; ring); [lia|].
  destruct (decide (c = fr_zero)) as [->|Hc].
  - rewrite IH by lia. f_equal. ring.
  - rewrite g1_mul_mul, <- g1_mul_add, IH by lia. f_equal. ring.
Qed.
(** A commitment is the generator times the value at the secret point. *)
Lemma commit_sum_eq max seed cs : (length cs <= S max)%nat →
  commit_sum (g1_powers (generate_deterministic max seed)) cs = g1_mul g1_generator (horner cs (fr_rand seed)).
Proof.
  intros Hl. unfold commit_sum. rewrite <- (g1_mul_0 g1_generator).
  cbn [g1_powers generate_deterministic]. rewrite commit_fold by done. f_equal. ring.
Qed.
Lemma powers_length n t tau : length (powers_from n t tau) = n.
Proof. revert t. induction n as [|n IH]; intros t; cbn; [|rewrite IH]; done. Qed.
Lemma usable_spec max seed cs :
  usable (generate_deterministic max seed) cs = true ↔ (1 <= length cs <= S max)%nat.
Proof.
  unfold usable. cbn [g1_powers generate_deterministic]. rewrite powers_length.
  rewrite negb_true_iff, orb_false_iff, Nat.eqb_neq, Nat.ltb_ge. lia.
Qed.

(** What the pairing equation says. *)
Lemma kzg_verify_spec max seed c proof z v :
  kzg_verify c proof z v (generate_deterministic max seed) =
    Some (bool_decide (pairing (g1_sub c (g1_mul g1_generator v)) g2_generator =
                       pairing (g1_mul proof (fr_sub (fr_rand seed) z)) g2_generator)).
Proof.
  unfold kzg_verify. cbn [g1_powers g2_gen g2_tau generate_deterministic powers_from lookup list_lookup mbind option_bind].
  by rewrite <- g2_mul_sub, g1_mul_1, pairing_r, pairing_l.
Qed.
Lemma kzg_verify_true max seed c proof z v :
  kzg_verify c proof z v (generate_deterministic max seed) = Some true ↔
  g1_sub c (g1_mul g1_generator v) = g1_mul proof (fr_sub (fr_rand seed) z).
Proof.
  rewrite kzg_verify_spec. split; [|by intros ->; rewrite bool_decide_eq_true_2].
  intros [= He]. apply bool_decide_eq_true in He. by apply pairing_inj.
Qed.

Lemma kzg_opening_complete' max seed cs z : (1 <= length cs <= S max)%nat →
  let srs := generate_deterministic max seed in
  ∃ c v proof, commit srs cs = Some c ∧ kzg_open srs cs z = Some (v, proof) ∧ kzg_verify c proof z v srs = Some true.
Proof.
  intros Hl srs. unfold commit, kzg_open. assert (Hu : usable srs cs = true) by by apply usable_spec. rewrite Hu.
  eexists _, _, _. split_and!; [done|done|].
  apply kzg_verify_true. unfold compute_quotient_commitment, srs. rewrite evaluate_horner, !commit_sum_eq.
  - rewrite <- g1_mul_sub, g1_mul_mul, quotient_spec. f_equal. ring.
  - unfold quotient. rewrite length_fmap, length_seq. lia.
  - lia.
Qed.

(** Every polynomial with up to [max_degree + 1] coefficients can be
    committed to and opened at every point; the opened value is that of the
    polynomial, and the verifier accepts the proof. *)
Theorem kzg_opening_complete max seed cs z : (1 <= length cs <= S max)%nat →
  let srs := generate_deterministic max seed in
  ∃ c v proof, commit srs cs = Some c ∧ kzg_open srs cs z = Some (v, proof) ∧ v = horner cs z ∧
    kzg_verify c proof z v srs = Some true.
Proof.
  intros Hl srs. destruct (kzg_opening_complete' max seed cs z Hl) as (c & v & proof & Hc & Ho & Hv).
  exists c, v, proof. split_and!; [done|done| |done]. fold srs in Ho. unfold kzg_open in Ho.
  destruct (usable srs cs); [|done]. simplify_eq. apply evaluate_horner.
Qed.

(** Whoever knows the secret point, which is a function of the seed in the
    source, opens any commitment to any value at any other point: there is
    exactly one proof the verifier accepts, and it is computed from it. *)
Theorem kzg_seed_forges_openings max seed c z v : z ≠ fr_rand seed →
  let srs := generate_deterministic max seed in
  let forged := g1_mul (g1_sub c (g1_mul g1_generator v)) (fr_inv (fr_sub (fr_rand seed) z)) in
  kzg_verify c forged z v srs = Some true ∧ ∀ proof, kzg_verify c proof z v srs = Some true → proof = forged.
Proof.
  intros Hz srs forged. unfold srs.
  assert (Hne : fr_sub (fr_rand seed) z ≠ fr_zero).
  { intros He. apply Hz. transitivity (fr_sub (fr_rand seed) (fr_sub (fr_rand seed) z)); [ring|]. rewrite He. ring. }
  split.
  - apply kzg_verify_true. unfold forged. rewrite g1_mul_mul.
    replace (fr_mul _ _) with fr_one by (field; done). by rewrite g1_mul_1.
  - intros proof Hp. apply kzg_verify_true in Hp. unfold forged. rewrite Hp, g1_mul_mul.
    replace (fr_mul _ _) with fr_one by (field; done). by rewrite g1_mul_1.
Qed.
End Laws.
End Kzg.

(** ** Concrete runs *)

(** The field of two elements, acting on itself. *)
Module KzgReference.
Definition bit (b : bool) : Z := if b then 1 else 0.
#[local] Instance small_curve : Curve := {
  Fr := bool; fr_zero := false; fr_one := true; fr_add := xorb; fr_mul := andb; fr_sub := xorb; fr_opp := id;
  fr_div := andb; fr_inv := id; fr_rand := Z.odd; fr_from_Z := Z.odd;
  fr_from_be_bytes bs := Z.odd (from_be_bytes bs); fr_from_le_bytes bs := Z.odd (from_le_bytes bs);
  fr_into_bytes_le b := bit b :: replicate 31 0;
  evaluate cs z := foldr (λ c acc, xorb c (andb z acc)) false cs;
  G1 := bool; G2 := bool; GT := bool; g1_zero := false; g1_generator := true; g1_add := xorb; g1_sub := xorb;
  g1_mul := andb; g2_generator := true; g2_sub := xorb; g2_mul := andb; gt_mul := andb; pairing := andb;
  g1_serialize b := [bit b]; g1_deserialize bs := match bs with [0] => Some false | [1] => Some true | _ => None end }.

Lemma small_laws : @CurveLaws small_curve.
Proof.
  split; cbn; try (by intros [] [] []); try (by intros [] []); try (by intros []).
  - repeat split; cbn; try (by intros [] [] []); try (by intros [] []); try (by intros []); try done.
  - intros cs z. induction cs as [|c cs IH]; cbn; [|rewrite <- IH]; done.
  - apply Z.odd_add.
  - done.
Qed.

(** The polynomial [1 + x] over that field, at [1]. *)
Lemma kzg_opening_complete_witness :
  let srs := generate_deterministic 256 42 in
  ∃ c v proof, commit srs [true; true] = Some c ∧ kzg_open srs [true; true] true = Some (v, proof) ∧
    v = horner [true; true] true ∧ kzg_verify c proof true v srs = Some true.
Proof. apply (@kzg_opening_complete small_curve small_laws 256 42 [true; true] true). cbn. lia. Defined.

Lemma kzg_seed_forges_openings_witness :
  ∃ forged, @kzg_verify small_curve false forged true true (@generate_deterministic small_curve 256 42) = Some true.
Proof.
  eexists. apply (@kzg_seed_forges_openings small_curve small_laws 256 42 false true true). vm_compute. discriminate.
Defined.
End KzgReference.
