(* ===== verification/VerkleProofs.v ===== *)
(** * VerkleProofs: state proofs and the light client

    Models the proofs of [irondag-blockchain/src/verkle/tree.rs] and
    [verkle/proof.rs] with and without the [privacy] feature, and
    [light_client.rs], which checks them against the state roots it was told.
    A byte array [[u8; 32]] is a list of bytes. *)

From S2P Require Import Prelude Types Verkle Kzg.

(** ** State proofs *)

Record StateProof := MkStateProof { sp_value : list u8; sp_proof : list Hash; state_root : Hash; sp_address : Address }.

(** The same in both builds: the proof is not recomputed. *)
Definition verify_state_proof (a : Address) (expected_value : list u8) (proof : list Hash) (root : Hash) : bool :=
  if negb (bool_decide (expected_value = [])) && bool_decide (proof = []) then false else negb (hash_is_zero root).

Definition verify_balance_proof (a : Address) (balance : u128) (p : StateProof) : bool :=
  if negb (bool_decide (sp_address p = a)) then false else
  if (length (sp_value p) <? 16)%nat then false else
  if negb (from_le_bytes (take 16 (sp_value p)) =? balance) then false else
  verify_state_proof a (sp_value p) (sp_proof p) (state_root p).
Definition verify_nonce_proof (a : Address) (nonce : u64) (p : StateProof) : bool :=
  if negb (bool_decide (sp_address p = a)) then false else
  if (length (sp_value p) <? 24)%nat then false else
  if negb (from_le_bytes (take 8 (drop 16 (sp_value p))) =? nonce) then false else
  verify_state_proof a (sp_value p) (sp_proof p) (state_root p).

(** ** Light client *)

Record LightClient := MkLight {
  current_state_root : option Hash; state_root_history : gmap u64 Hash; latest_verified_block : u64 }.
Definition light_new : LightClient := MkLight None ∅ 0.
Definition update_state_root (n : u64) (r : Hash) (c : LightClient) : LightClient :=
  MkLight (Some r) (<[n := r]> (state_root_history c))
    (if latest_verified_block c <? n then n else latest_verified_block c).
Definition get_state_root (c : LightClient) (n : u64) : option Hash := state_root_history c !! n.
Definition root_matches (c : LightClient) (p : StateProof) : bool :=
  match current_state_root c with Some r => bool_decide (state_root p = r) | None => true end.
Definition light_verify_balance (c : LightClient) (a : Address) (balance : u128) (p : StateProof) : bool :=
  if root_matches c p then verify_balance_proof a balance p else false.
Definition light_verify_nonce (c : LightClient) (a : Address) (nonce : u64) (p : StateProof) : bool :=
  if root_matches c p then verify_nonce_proof a nonce p else false.
Record LightClientSyncStatus := MkLightStatus {
  ls_synced : bool; ls_block : u64; ls_root : option Hash; ls_count : nat }.
Definition is_synced (c : LightClient) : bool := bool_decide (is_Some (current_state_root c)).
Definition sync_status (c : LightClient) : LightClientSyncStatus :=
  MkLightStatus (is_synced c) (latest_verified_block c) (current_state_root c) (size (state_root_history c)).

(** ** Opening proofs *)

Record KzgVerkleProofStep := MkKzgStep {
  node_commitment : list u8; opening_proof : list u8; child_index : u8; child_value : list u8 }.
Record KzgVerkleProof := MkKzgProof {
  kp_key : list u8; kp_value : list u8; kp_steps : list KzgVerkleProofStep; kp_root : list u8 }.
Record VerkleProofStep := MkStep { vp_commitment : list u8; vp_proof : list u8; vp_index : u8; vp_child : list u8 }.
Record VerkleProof := MkVerkleProof {
  vp_key : list u8; vp_value : list u8; vp_path : list VerkleProofStep; vp_root : list u8 }.

(** Without the feature only the shape is looked at. *)
Definition verify_verkle_proof_basic (p : VerkleProof) (r : list u8) : bool :=
  if negb (bool_decide (vp_root p = r)) then false else
  if bool_decide (vp_key p = []) then false else
  negb (negb (bool_decide (vp_value p = [])) && bool_decide (vp_path p = [])).
Definition verify_with_kzg_basic (p : KzgVerkleProof) (expected_root : list u8) : bool :=
  if bool_decide (kp_key p = []) then false else
  if negb (bool_decide (kp_root p = expected_root)) then false else
  negb (negb (bool_decide (kp_value p = [])) && bool_decide (kp_steps p = [])).

Section Openings.
Context `{Keccak, Curve}.

Definition get_verkle_kzg_srs : KzgSrs := generate_deterministic 256 42.

(** [get_child_hashes]: commitments of the children, overwritten by the hashes
    of the values. *)
Definition child_hash_at (n : VerkleNode) (i : nat) : list u8 :=
  match values n !! i with
  | Some (Some v) => keccak_digest v
  | _ => match children n !! i with Some o => child_bytes o | None => replicate 32 0 end
  end.
Definition get_child_hashes (n : VerkleNode) : list (list u8) := child_hash_at n <$> seq 0 256.
Definition coefficients (hashes : list (list u8)) : list Fr := fr_from_be_bytes <$> hashes.
Definition compute_kzg_commitment (hashes : list (list u8)) : option G1 :=
  commit get_verkle_kzg_srs (coefficients hashes).
Definition field_element_to_bytes (x : Fr) : list u8 :=
  let bs := take 32 (fr_into_bytes_le x) in rev (bs ++ replicate (32 - length bs) 0).
Definition compute_dual_commitment (n : VerkleNode) : option (Hash * G1) :=
  h ← commitment n; g ← compute_kzg_commitment (get_child_hashes n); Some (h, g).

(** The opening of a node at an index. *)
Definition opening_step (n : VerkleNode) (c : G1) (index : nat) : list KzgVerkleProofStep :=
  match kzg_open get_verkle_kzg_srs (coefficients (get_child_hashes n)) (fr_from_Z (Z.of_nat index)) with
  | Some (v, proof) =>
      [MkKzgStep (g1_serialize c) (g1_serialize proof) (Z.of_nat index mod 256) (field_element_to_bytes v)]
  | None => []
  end.
Fixpoint get_kzg_proof_steps (key rest : list u8) (n : VerkleNode) : list KzgVerkleProofStep :=
  match compute_kzg_commitment (get_child_hashes n) with
  | None => []
  | Some c =>
      match rest with
      | [] => opening_step n c (leaf_index (width n) key)
      | b :: rest' =>
          let index := key_index (width n) b in
          opening_step n c index
          ++ match children n !! index with Some (Some child) => get_kzg_proof_steps key rest' child | _ => [] end
      end
  end.
Definition get_root_kzg_commitment (t : VerkleTree) : option G1 := compute_kzg_commitment (get_child_hashes (root t)).
Definition get_kzg_proof (t : VerkleTree) (key : list u8) : option KzgVerkleProof :=
  value ← tree_get t key;
  c ← get_root_kzg_commitment t;
  Some (MkKzgProof key value (get_kzg_proof_steps key key (root t)) (g1_serialize c)).
Definition get_balance_with_kzg_proof (s : VerkleState) (a : Address) : option (u128 * KzgVerkleProof) :=
  p ← get_kzg_proof (tree s) (addr_bytes a); Some (vs_get_balance s a, p).
Definition get_nonce_with_kzg_proof (s : VerkleState) (a : Address) : option (u64 * KzgVerkleProof) :=
  p ← get_kzg_proof (tree s) (addr_bytes a); Some (vs_get_nonce s a, p).

(** *** Checking them *)

(** [for step in .. { if !check(step) { return false; } }]; [None] is a panic. *)
Fixpoint check_steps {A} (check : A → option bool) (steps : list A) : option bool :=
  match steps with
  | [] => Some true
  | s :: steps' => b ← check s; if (b : bool) then check_steps check steps' else Some false
  end.
Definition verify_opening (commitment proof : list u8) (z v : Fr) : option bool :=
  match g1_deserialize commitment with
  | None => Some false
  | Some c => match g1_deserialize proof with
              | None => Some false
              | Some p => kzg_verify c p z v get_verkle_kzg_srs
              end
  end.
Definition hash_to_fr (data : list u8) : Fr := fr_from_le_bytes (take 31 (keccak_digest data) ++ [0]).
Definition verify_kzg_step (s : VerkleProofStep) : option bool :=
  verify_opening (vp_commitment s) (vp_proof s) (fr_from_Z (vp_index s)) (hash_to_fr (vp_child s)).
Definition verify_verkle_proof (p : VerkleProof) (r : list u8) : option bool :=
  if negb (bool_decide (vp_root p = r)) then Some false else check_steps verify_kzg_step (vp_path p).
Definition verify_kzg_verkle_step (s : KzgVerkleProofStep) : option bool :=
  verify_opening (node_commitment s) (opening_proof s) (fr_from_Z (child_index s)) (fr_from_be_bytes (child_value s)).
Definition verify_kzg_verkle_proof (p : KzgVerkleProof) (expected_root : list u8) : option bool :=
  if negb (bool_decide (kp_root p = expected_root)) then Some false else
  if bool_decide (kp_key p = []) then Some false else check_steps verify_kzg_verkle_step (kp_steps p).
End Openings.

(** ** The proofs a node hands out *)

Section Node.
Context `{Keccak}.
Definition chain_balance_with_proof (v : option VerkleState) (a : Address) : option (u128 * StateProof) :=
  s ← v;
  let '(balance, proof, r) := vs_get_balance_with_proof s a in
  Some (balance, MkStateProof (to_le_bytes 16 balance ++ to_le_bytes 8 (vs_get_nonce s a)) proof r a).
Definition chain_nonce_with_proof (v : option VerkleState) (a : Address) : option (u64 * StateProof) :=
  s ← v;
  let '(nonce, proof, r) := vs_get_nonce_with_proof s a in
  Some (nonce, MkStateProof (to_le_bytes 16 (vs_get_balance s a) ++ to_le_bytes 8 nonce) proof r a).
End Node.

(** ** What the light client checks *)

Lemma verify_state_proof_true a v p r :
  verify_state_proof a v p r = true ↔ (v ≠ [] → p ≠ []) ∧ hash_is_zero r = false.
Proof.
  unfold verify_state_proof. destruct (decide (v = [])) as [->|Hv], (decide (p = [])) as [->|Hp];
    rewrite ?bool_decide_eq_true_2, ?bool_decide_eq_false_2 by done; cbn; rewrite ?negb_true_iff; naive_solver.
Qed.

(** Exactly which proofs the light client accepts for a balance: those for
    the address, whose value starts with the balance, that are not empty and
    name a root other than zero, the current one once there is one. *)
Theorem light_verify_balance_spec c a b p :
  light_verify_balance c a b p = true ↔
  (∀ r, current_state_root c = Some r → state_root p = r) ∧ sp_address p = a ∧
  (16 <= length (sp_value p))%nat ∧ from_le_bytes (take 16 (sp_value p)) = b ∧
  sp_proof p ≠ [] ∧ hash_is_zero (state_root p) = false.
Proof.
  unfold light_verify_balance, root_matches, verify_balance_proof.
  assert (Hv : (16 <= length (sp_value p))%nat → sp_value p ≠ []) by (intros Hl He; rewrite He in Hl; cbn in Hl; lia).
  split.
  - destruct (match current_state_root c with Some r => _ | None => _ end) eqn:Hm; [|done].
    destruct (decide (sp_address p = a)) as [Ha|Ha]; [rewrite bool_decide_eq_true_2 by done|by rewrite bool_decide_eq_false_2].
    cbn [negb]. destruct (Nat.ltb_spec (length (sp_value p)) 16) as [Hl|Hl]; [done|].
    destruct (Z.eqb_spec (from_le_bytes (take 16 (sp_value p))) b) as [Hb|Hb]; [|done]. cbn [negb].
    intros [Hp Hz]%verify_state_proof_true. split_and!; auto.
    intros r Hr. rewrite Hr in Hm. by apply bool_decide_eq_true in Hm.
  - intros (Hr & Ha & Hl & Hb & Hp & Hz).
    assert (Hm : match current_state_root c with Some r => bool_decide (state_root p = r) | None => true end = true)
      by (destruct (current_state_root c); [apply bool_decide_eq_true_2|]; auto).
    rewrite Hm, Ha, bool_decide_eq_true_2 by done. cbn [negb].
    assert (Hlt : (length (sp_value p) <? 16)%nat = false) by (apply Nat.ltb_ge; lia).
    rewrite Hlt, Hb, Z.eqb_refl. cbn [negb]. apply verify_state_proof_true. auto.
Qed.

(** The light client can be convinced of any balance: for every address and
    every balance there is a proof under its current root that it accepts. *)
Theorem light_client_forgeable c a b : in_u128 b → current_state_root c ≠ Some hash_zero →
  ∃ p, light_verify_balance c a b p = true ∧ ∀ r, current_state_root c = Some r → state_root p = r.
Proof.
  intros Hb Hr. set (r := default (MkHash (replicate 32 1)) (current_state_root c)).
  exists (MkStateProof (to_le_bytes 16 b ++ to_le_bytes 8 0) [hash_zero] r a). rewrite light_verify_balance_spec. cbn.
  split_and!; try done.
  - intros r' Hr'. unfold r. by rewrite Hr'.
  - rewrite length_app, length_le16. lia.
  - rewrite take_app_le, take_ge by (rewrite length_le16; lia). by apply u128_le_roundtrip.
  - unfold hash_is_zero, r. destruct (current_state_root c) as [x|]; cbn; [|by vm_compute].
    apply bool_decide_eq_false_2. intros He. apply Hr. f_equal. by apply hash_bytes_inj.
  - intros r' Hr'. unfold r. by rewrite Hr'.
Qed.

(** ** Honest proofs *)

Section Honest.
Context `{Keccak}.

Lemma omap_none {A B} (f : A → option B) (l : list A) : Forall (λ x, f x = None) l → omap f l = [].
Proof. induction 1 as [|x l Hx _ IH]; [done|]. cbn. by rewrite Hx. Qed.

(** A vector with one entry has nothing beside it. *)
Lemma lone_entry {A B} (f : A → option B) (n i : nat) (x : A) :
  omap (λ io : nat * option A, if (io.1 =? i)%nat then None else io.2 ≫= f)
    (zip (seq 0 (length (<[i := Some x]> (replicate n None)))) (<[i := Some x]> (replicate n None))) = [].
Proof.
  apply omap_none, Forall_lookup. intros k [j o] Hk. cbn.
  apply lookup_zip_with_Some in Hk as (j' & o' & [= -> ->] & Hj & Ho).
  apply lookup_seq in Hj as [-> _]. destruct (Nat.eqb_spec (0 + k) i) as [|Hne]; [done|].
  rewrite list_lookup_insert_ne in Ho by lia. apply lookup_replicate in Ho as [-> _]. done.
Qed.

Lemma lone_key_proof w key rest v : node_get_proof key rest (node_insert key rest v (node_new w)) = [].
Proof.
  induction rest as [|b rest IH]; cbn [node_insert update_commitment node_get_proof width children values node_new].
  - apply lone_entry with (f := λ v, Some (keccak256 v)).
  - rewrite (lone_entry commitment w (key_index w b)). cbn [app].
    destruct (<[_ := _]> (replicate w None) !! key_index w b) as [[c|]|] eqn:Hc; try done.
    apply list_lookup_insert_Some in Hc as [(_ & [= <-] & _)|[Hne _]]; [|done].
    destruct (replicate w None !! key_index w b) as [[d|]|] eqn:Hd; try done.
    by apply lookup_replicate in Hd as [? _].
Qed.

(** The proof a node hands out when the state holds a single account has
    no siblings in it, and the light client refuses it. *)
Theorem lone_account_proof_rejected a b c :
  ∃ balance p, chain_balance_with_proof (Some (vs_set_balance vs_new a b)) a = Some (balance, p) ∧
    balance = b ∧ sp_proof p = [] ∧ light_verify_balance c a balance p = false.
Proof.
  assert (Hp : tree_get_proof (tree (vs_set_balance vs_new a b)) (addr_bytes a) = []) by apply lone_key_proof.
  eexists _, _. split; [reflexivity|]. split; [|split; [exact Hp|]].
  - unfold vs_get_balance, vs_set_balance. cbn [cache]. by rewrite lookup_insert_eq.
  - apply not_true_is_false. rewrite light_verify_balance_spec. cbn [sp_proof]. tauto.
Qed.
End Honest.

(** ** Opening proofs *)

Section OpeningProofs.
Context `{Keccak, Curve, !CurveLaws}.

Lemma field_element_roundtrip x : fr_from_be_bytes (field_element_to_bytes x) = x.
Proof.
  unfold field_element_to_bytes. cbv zeta. pose proof (fr_bytes_length x).
  rewrite take_ge by lia. rewrite (fr_bytes_length x). cbn [Nat.sub replicate]. rewrite app_nil_r. apply fr_bytes_roundtrip.
Qed.

Lemma opening_step_valid n c index :
  compute_kzg_commitment (get_child_hashes n) = Some c → (index < 256)%nat →
  check_steps verify_kzg_verkle_step (opening_step n c index) = Some true.
Proof.
  unfold compute_kzg_commitment, opening_step, get_verkle_kzg_srs. set (cs := coefficients _). intros Hc Hi.
  assert (Hl : (1 <= length cs <= 257)%nat).
  { unfold cs, coefficients, get_child_hashes. rewrite !length_fmap, length_seq. lia. }
  pose proof (kzg_opening_complete' 256 42 cs (fr_from_Z (Z.of_nat index)) Hl) as (c' & v & proof & Hc' & Ho & Hv).
  rewrite Ho. simplify_eq. cbn [check_steps]. unfold verify_kzg_verkle_step, verify_opening.
  cbn [node_commitment opening_proof child_index child_value].
  rewrite !g1_roundtrip, field_element_roundtrip, Z.mod_small by lia. unfold get_verkle_kzg_srs. by rewrite Hv.
Qed.
Lemma check_steps_app {A} (check : A → option bool) l1 l2 :
  check_steps check l1 = Some true → check_steps check (l1 ++ l2) = check_steps check l2.
Proof. induction l1 as [|x l1 IH]; cbn; [done|]. destruct (check x) as [[]|]; naive_solver. Qed.

Lemma key_index_byte w b : 0 <= b < 256 → (key_index w b < 256)%nat.
Proof. intros Hb. unfold key_index. destruct w as [|w]; [cbn; lia|]. pose proof (Nat.mod_le (Z.to_nat b) (S w)). lia. Qed.
Lemma leaf_index_byte w key : Forall (λ b, 0 <= b < 256) key → (leaf_index w key < 256)%nat.
Proof. destruct 1; cbn; [lia|by apply key_index_byte]. Qed.

Lemma kzg_steps_valid key rest n :
  Forall (λ b, 0 <= b < 256) key → Forall (λ b, 0 <= b < 256) rest →
  check_steps verify_kzg_verkle_step (get_kzg_proof_steps key rest n) = Some true.
Proof.
  intros Hk Hr. revert n. induction Hr as [|b rest Hb _ IH]; intros n; cbn [get_kzg_proof_steps];
    destruct (compute_kzg_commitment (get_child_hashes n)) as [c|] eqn:Hc; try done.
  - apply opening_step_valid; [done|]. by apply leaf_index_byte.
  - rewrite check_steps_app by (apply opening_step_valid; [done|by apply key_index_byte]).
    destruct (children n !! key_index (width n) b) as [[child|]|]; [apply IH|done|done].
Qed.

(** C33: The proof a tree hands out for a key it holds is accepted under the
    commitment of its root. *)
Theorem kzg_proof_roundtrip t key v : Forall (λ b, 0 <= b < 256) key → key ≠ [] → tree_get t key = Some v →
  ∃ c p, get_root_kzg_commitment t = Some c ∧ get_kzg_proof t key = Some p ∧ kp_value p = v ∧
    verify_kzg_verkle_proof p (g1_serialize c) = Some true.
Proof.
  intros Hk Hne Hv. destruct (get_root_kzg_commitment t) as [c|] eqn:Hc.
  - eexists c, _. split; [done|]. unfold get_kzg_proof. rewrite Hv, Hc. split; [done|]. split; [done|].
    unfold verify_kzg_verkle_proof. cbn [kp_root kp_key kp_steps].
    rewrite bool_decide_eq_true_2, bool_decide_eq_false_2 by done. by apply kzg_steps_valid.
  - exfalso. unfold get_root_kzg_commitment, compute_kzg_commitment, commit, get_verkle_kzg_srs in Hc.
    destruct (usable _ _) eqn:Hu; [done|]. apply not_true_iff_false in Hu. apply Hu, usable_spec.
    unfold coefficients, get_child_hashes. rewrite !length_fmap, length_seq. lia.
Qed.
End OpeningProofs.

(** What is checked of an opening proof does not involve its key and its
    value: with the steps of any accepted proof, or with none, every value is
    accepted for every key under every root. *)
Theorem kzg_proof_proves_anything `{Curve} key value r : key ≠ [] →
  verify_kzg_verkle_proof (MkKzgProof key value [] r) r = Some true ∧
  (∀ p key' value', key' ≠ [] → kp_key p ≠ [] →
     verify_kzg_verkle_proof (MkKzgProof key' value' (kp_steps p) (kp_root p)) r = verify_kzg_verkle_proof p r).
Proof.
  intros Hk. unfold verify_kzg_verkle_proof. cbn [kp_root kp_key kp_steps]. split.
  - by rewrite bool_decide_eq_true_2, bool_decide_eq_false_2.
  - intros p key' value' Hk' Hp. by rewrite !(bool_decide_eq_false_2 (_ = [])).
Qed.

(** ** Concrete runs *)

Module VerkleProofsReference.
Import VerkleReference KzgReference.
#[local] Existing Instance Reference.keccak.
#[local] Existing Instance small_curve.
#[local] Existing Instance small_laws.

Lemma light_client_forgeable_witness :
  ∃ p, light_verify_balance (update_state_root 7 (MkHash (replicate 32 3)) light_new) va 1000000 p = true.
Proof.
  destruct (light_client_forgeable (update_state_root 7 (MkHash (replicate 32 3)) light_new) va 1000000) as (p & Hp & _).
  - unfold in_u128, u128_max. lia.
  - vm_compute. discriminate.
  - exists p. exact Hp.
Defined.

(** A tree of width two. *)
Definition narrow : VerkleTree := tree_insert (MkVerkleTree (node_new 2) 0) [1] [7].

Lemma kzg_proof_roundtrip_witness :
  ∃ c p, get_root_kzg_commitment narrow = Some c ∧
    get_kzg_proof narrow [1] = Some p ∧
    verify_kzg_verkle_proof p (g1_serialize c) = Some true.
Proof.
  destruct (kzg_proof_roundtrip narrow [1] [7])
    as (c & p & Hc & Hp & _ & Hv).
  - apply (bool_decide_unpack _). vm_compute. exact I.
  - vm_compute. discriminate.
  - vm_compute. reflexivity.
  - exists c, p. exact (conj Hc (conj Hp Hv)).
Defined.

Lemma kzg_proof_proves_anything_witness :
  verify_kzg_verkle_proof (MkKzgProof [1] [2; 3] [] [9]) [9] = Some true.
Proof. apply (kzg_proof_proves_anything [1] [2; 3] [9]). discriminate. Defined.
End VerkleProofsReference.
