(* ===== verification/Shielded.v ===== *)
(** * Shielded: transactions with hidden amounts

    Models [irondag-blockchain/src/privacy] (the [privacy] feature): Pedersen
    commitments, nullifiers, the transfer circuit as the constraint system it
    generates, the privacy manager, and the validation and processing of such
    transactions in [blockchain/mod.rs].  Groth16 is a parameter: keys, proofs
    and a verifier. *)

From Stdlib Require Import Field.
From S2P Require Import Prelude Types Kzg.

(** ** Pedersen commitments *)

Section Pedersen.
Context `{Keccak, Curve}.

Record PedersenCommitment := MkPedersen { ped_g : G1; ped_h : G1 }.

Definition hash_to_g1 (seed : list u8) : G1 :=
  g1_mul g1_generator (fr_from_le_bytes (take 32 (keccak_digest seed))).
Definition pedersen_new : PedersenCommitment :=
  MkPedersen (hash_to_g1 (bytes_of_string "pedersen_g")) (hash_to_g1 (bytes_of_string "pedersen_h")).
(** [from_verifying_key], on the points [gamma_abc_g1] of the key. *)
Definition pedersen_from_key (points : list G1) : PedersenCommitment :=
  let g := match points with p :: _ => p | [] => hash_to_g1 (bytes_of_string "pedersen_g_fallback") end in
  let h := match points with
           | _ :: p :: _ => p
           | _ => hash_to_g1 (bytes_of_string "pedersen_h_from_g" ++ g1_serialize g)
           end in
  MkPedersen g h.
Definition serialize_generators (s : PedersenCommitment) : list u8 := g1_serialize (ped_g s) ++ g1_serialize (ped_h s).
Definition deserialize_generators (bs : list u8) : result string PedersenCommitment :=
  if (length bs <? 64)%nat then Err "Invalid generator bytes length"%string else
  match g1_deserialize (take 32 bs) with
  | None => Err "Failed to deserialize g"%string
  | Some g => match g1_deserialize (take 32 (drop 32 bs)) with
              | None => Err "Failed to deserialize h"%string
              | Some h => Ok (MkPedersen g h)
              end
  end.
Definition pedersen_commit (amount : u128) (blinding : list u8) : G1 :=
  let scheme := pedersen_new in
  g1_add (g1_mul (ped_g scheme) (fr_from_Z amount)) (g1_mul (ped_h scheme) (fr_from_le_bytes blinding)).
Definition pedersen_verify (c : G1) (amount : u128) (blinding : list u8) : bool := true.
End Pedersen.

(** ** Nullifiers *)

Record NullifierSet := MkNullifiers { nullifiers : gset Hash; max_size : nat }.
Definition nullifiers_new (max : nat) : NullifierSet := MkNullifiers ∅ max.
Definition nullifiers_default : NullifierSet := nullifiers_new (Z.to_nat 1000000).
Definition spent (s : NullifierSet) (n : Hash) : bool := bool_decide (n ∈ nullifiers s).
Definition nullifier_add (n : Hash) : SE NullifierSet string unit :=
  s ← se_get;
  if (max_size s <=? size (nullifiers s))%nat then fail "Nullifier set is full"%string else
  if spent s n then fail "Nullifier already exists (double-spend attempt)"%string else
  se_mod (λ s, MkNullifiers ({[n]} ∪ nullifiers s) (max_size s)).
Definition nullifier_remove (n : Hash) (s : NullifierSet) : NullifierSet :=
  MkNullifiers (nullifiers s ∖ {[n]}) (max_size s).

Section Notes.
Context `{Keccak, Curve}.
Definition nullifier_generate (receiver : Address) (blinding : list u8) : Hash :=
  keccak256 (addr_bytes receiver ++ blinding).
Record PrivacyNote := MkNote {
  note_commitment : G1; note_nullifier : Hash; note_amount : u128; note_receiver : Address; note_blinding : list u8 }.
Definition note_new (amount : u128) (receiver : Address) (blinding : list u8) : PrivacyNote :=
  MkNote (pedersen_commit amount blinding) (nullifier_generate receiver blinding) amount receiver blinding.
End Notes.

(** ** The circuit *)

Inductive R1csVariable := VOne | VInput (i : nat) | VWitness (i : nat).
Inductive SynthesisError := AssignmentMissing.

(** The constraint systems of [ark_relations]: variables are allocated with
    their values, or fail when the value is missing. *)
Class R1cs `{Curve} := {
  CS : Type;
  cs_new : CS;
  new_witness_variable : option Fr → SE CS SynthesisError R1csVariable;
  new_input_variable : option Fr → SE CS SynthesisError R1csVariable;
  enforce_constraint : list (Fr * R1csVariable) → list (Fr * R1csVariable) → list (Fr * R1csVariable) → SE CS SynthesisError unit;
  is_satisfied : CS → bool }.

Section Circuit.
Context `{R1cs}.

Record PrivateTransferCircuit := MkCircuit {
  old_balance : option u128; amount : option u128; new_balance : option u128; nullifier : Fr; commitment : option Fr }.

Definition generate_constraints (c : PrivateTransferCircuit) : SE CS SynthesisError unit :=
  old_var ← new_witness_variable (fr_from_Z <$> old_balance c);
  amount_var ← new_witness_variable (fr_from_Z <$> amount c);
  new_var ← new_input_variable (fr_from_Z <$> new_balance c);
  let one := fr_from_Z 1 in
  _ ← enforce_constraint [(one, old_var)] [(one, VOne)] [(one, amount_var); (one, new_var)];
  _ ← new_input_variable (Some (nullifier c));
  _ ← new_input_variable (commitment c);
  mret tt.
Definition public_inputs (c : PrivateTransferCircuit) : list Fr :=
  [fr_from_Z (default 0 (new_balance c)); nullifier c; default (fr_from_Z 0) (commitment c)].
(** What [prove_private_transfer] hands to the prover. *)
Definition transfer_circuit (old amt new : u128) (n c : Fr) : result string PrivateTransferCircuit :=
  if old <? amt then Err "Insufficient balance for transfer"%string else
  if negb (old - amt =? new) then Err "Invalid balance transition"%string else
  Ok (MkCircuit (Some old) (Some amt) (Some new) n (Some c)).
End Circuit.

(** What the library documents of a system: its assignment, its constraints,
    and that it is satisfied when each [a * b = c] holds. *)
Section R1csSemantics.
Context `{Curve}.
Record Assignment := MkAssignment {
  as_inputs : list Fr; as_witnesses : list Fr;
  as_constraints : list (list (Fr * R1csVariable) * list (Fr * R1csVariable) * list (Fr * R1csVariable)) }.
Definition value_of (s : Assignment) (v : R1csVariable) : Fr :=
  match v with
  | VOne => fr_one
  | VInput i => nth i (as_inputs s) fr_zero
  | VWitness i => nth i (as_witnesses s) fr_zero
  end.
Definition lc_value (s : Assignment) (l : list (Fr * R1csVariable)) : Fr :=
  foldr (λ cv acc, fr_add (fr_mul cv.1 (value_of s cv.2)) acc) fr_zero l.
Definition satisfied (s : Assignment) : bool :=
  forallb (λ abc, bool_decide (fr_mul (lc_value s abc.1.1) (lc_value s abc.1.2) = lc_value s abc.2)) (as_constraints s).
End R1csSemantics.

Class R1csLaws `{R1cs} := {
  view : CS → Assignment;
  view_new : view cs_new = MkAssignment [] [] [];
  witness_missing cs : new_witness_variable None cs = (Err AssignmentMissing, cs);
  witness_law x cs : ∃ cs', new_witness_variable (Some x) cs = (Ok (VWitness (length (as_witnesses (view cs)))), cs') ∧
    view cs' = MkAssignment (as_inputs (view cs)) (as_witnesses (view cs) ++ [x]) (as_constraints (view cs));
  input_missing cs : new_input_variable None cs = (Err AssignmentMissing, cs);
  input_law x cs : ∃ cs', new_input_variable (Some x) cs = (Ok (VInput (length (as_inputs (view cs)))), cs') ∧
    view cs' = MkAssignment (as_inputs (view cs) ++ [x]) (as_witnesses (view cs)) (as_constraints (view cs));
  enforce_law a b c cs : ∃ cs', enforce_constraint a b c cs = (Ok tt, cs') ∧
    view cs' = MkAssignment (as_inputs (view cs)) (as_witnesses (view cs)) (as_constraints (view cs) ++ [(a, b, c)]);
  satisfied_law cs : is_satisfied cs = satisfied (view cs) }.

(** ** Transactions and the manager *)

(** Groth16: keys, proofs, the decoding of a proof and the verifier, where an
    error counts as a failed verification. *)
Class Groth16 `{Curve} := {
  VerifyingKey : Type;
  SnarkProof : Type;
  deserialize_proof : list u8 → option SnarkProof;
  groth16_verify : VerifyingKey → list Fr → SnarkProof → bool }.

Inductive PrivacyTxType := PrivateTransfer | PrivateBalanceQuery | PrivateContractCall.
Record PrivacyTransaction := MkPrivacyTx {
  px_type : PrivacyTxType; px_proof : list u8; px_inputs : list (list u8); px_hash : Hash; encrypted_data : option (list u8) }.
Definition privacy_tx_new `{Keccak} (t : PrivacyTxType) (proof : list u8) (inputs : list (list u8)) : PrivacyTransaction :=
  MkPrivacyTx t proof inputs (keccak256 (proof ++ concat inputs)) None.

(** [extract_nullifier_from_inputs]: short inputs are padded with zeros. *)
Definition extract_nullifier (inputs : list (list u8)) : option Hash :=
  let i := if (2 <=? length inputs)%nat then 1%nat else 0%nat in
  bs ← inputs !! i;
  if (32 <=? length bs)%nat then Some (MkHash (take 32 bs)) else
  if bool_decide (bs = []) then None else Some (MkHash (bs ++ replicate (32 - length bs) 0)).

Section Manager.
Context `{Groth16}.

Record PrivacyManager := MkManager { nullifier_set : NullifierSet; enabled : bool; verifier : option VerifyingKey }.
Definition privacy_manager_new (e : bool) : PrivacyManager := MkManager nullifiers_default e None.
Definition set_verifier (k : VerifyingKey) (m : PrivacyManager) : PrivacyManager := MkManager (nullifier_set m) (enabled m) (Some k).
Definition note_spent (m : PrivacyManager) (n : Hash) : bool := spent (nullifier_set m) n.
Definition add_nullifier (n : Hash) : SE PrivacyManager string unit :=
  zoom nullifier_set (λ s m, MkManager s (enabled m) (verifier m)) (nullifier_add n).
Definition verify_snark (m : PrivacyManager) (p : SnarkProof) (inputs : list Fr) : bool :=
  match verifier m with Some k => groth16_verify k inputs p | None => false end.

Definition process_privacy_transaction (t : PrivacyTransaction) : SE PrivacyManager string unit :=
  m ← se_get;
  if negb (enabled m) then fail "Privacy layer is disabled"%string else
  match verifier m with
  | None => fail "Privacy layer enabled but verifier not loaded"%string
  | Some k =>
      match deserialize_proof (px_proof t) with
      | None => fail "Failed to deserialize proof"%string
      | Some proof =>
          if negb (forallb (λ bs, (length bs =? 32)%nat) (px_inputs t))
          then fail "Privacy input must be exactly 32 bytes"%string else
          if negb (groth16_verify k (fr_from_le_bytes <$> px_inputs t) proof)
          then fail "Privacy proof verification failed"%string else
          match extract_nullifier (px_inputs t) with
          | Some n =>
              if note_spent m n then fail "Nullifier already spent (double-spend attempt)"%string
              else add_nullifier n
          | None => mret tt
          end
      end
  end.

(** ** In a block *)

(** [validate_privacy_transaction]: inputs are cut or padded to 32 bytes. *)
Definition input_bytes (bs : list u8) : list u8 :=
  if (32 <=? length bs)%nat then take 32 bs else bs ++ replicate (32 - length bs) 0.
Definition validate_privacy_transaction (manager : option PrivacyManager) (t : PrivacyTransaction) : result string unit :=
  match manager with
  | None => Err "Privacy manager not available"%string
  | Some m =>
      if bool_decide (px_proof t = []) then Err "Privacy transaction missing proof"%string else
      match deserialize_proof (px_proof t) with
      | None => Err "Failed to deserialize privacy proof"%string
      | Some proof =>
          if negb (verify_snark m proof ((λ bs, fr_from_le_bytes (input_bytes bs)) <$> px_inputs t))
          then Err "Privacy proof verification failed"%string else
          match extract_nullifier (px_inputs t) with
          | None => Err "Could not extract nullifier from privacy transaction"%string
          | Some n => ensure (negb (note_spent m n)) "Nullifier already spent (double-spend attempt)"%string
          end
      end
  end.
(** Processing records the nullifier and ignores whether that worked. *)
Definition apply_privacy_transaction (t : PrivacyTransaction) (manager : option PrivacyManager) : option PrivacyManager :=
  (λ m, match extract_nullifier (px_inputs t) with Some n => (add_nullifier n m).2 | None => m end) <$> manager.
Definition accept_privacy_transaction (t : PrivacyTransaction) : SE (option PrivacyManager) string unit :=
  _ ← se_read (λ m, validate_privacy_transaction m t);
  se_mod (apply_privacy_transaction t).
End Manager.

(** ** Note tree *)

Section Merkle.
Context `{Keccak, Curve}.
Record PrivacyMerkleTree := MkNoteTree { pm_depth : nat; pm_leaves : list G1 }.
Definition note_tree_new (d : nat) : PrivacyMerkleTree := MkNoteTree d [].
(** [1 << depth] on [usize]: the shift amount is reduced to the width. *)
Definition add_commitment (c : G1) : SE PrivacyMerkleTree string unit :=
  t ← se_get;
  if (2 ^ (Z.of_nat (pm_depth t) mod 64) <=? Z.of_nat (length (pm_leaves t))) then fail "Merkle tree is full"%string else
  se_mod (λ t, MkNoteTree (pm_depth t) (pm_leaves t ++ [c])).
(** [to_bytes]: uncompressed, a parameter of its own. *)
Definition note_root (to_bytes : G1 → list u8) (t : PrivacyMerkleTree) : list u8 :=
  match pm_leaves t with [] => replicate 32 0 | ls => keccak_digest (concat (to_bytes <$> ls)) end.
Definition note_proof (t : PrivacyMerkleTree) (i : nat) : option (list (list u8)) :=
  if (length (pm_leaves t) <=? i)%nat then None else Some [].
End Merkle.

(** ** Commitments *)

Section PedersenLaws.
Context `{Keccak, Curve, !CurveLaws}.
Add Field ShieldedField : fr_field.

Definition g_log : Fr := fr_from_le_bytes (take 32 (keccak_digest (bytes_of_string "pedersen_g"))).
Definition h_log : Fr := fr_from_le_bytes (take 32 (keccak_digest (bytes_of_string "pedersen_h"))).

(** The logarithm of a commitment, known to everyone. *)
Lemma pedersen_commit_log a b :
  pedersen_commit a b = g1_mul g1_generator (fr_add (fr_mul g_log (fr_from_Z a)) (fr_mul h_log (fr_from_le_bytes b))).
Proof. unfold pedersen_commit, pedersen_new, hash_to_g1. cbn [ped_g ped_h]. by rewrite !g1_mul_mul, g1_mul_add. Qed.

(** Commitments add up: the sum of two commitments commits to the sum of
    the amounts, under a blinding factor that is the sum of theirs. *)
Theorem pedersen_homomorphic a1 a2 b1 b2 :
  let b := fr_into_bytes_le (fr_add (fr_from_le_bytes b1) (fr_from_le_bytes b2)) in
  length b = 32%nat ∧ pedersen_commit (a1 + a2) b = g1_add (pedersen_commit a1 b1) (pedersen_commit a2 b2).
Proof.
  intros b. split; [apply fr_bytes_length|].
  rewrite !pedersen_commit_log, <- g1_mul_add, fr_from_add. unfold b. rewrite fr_le_bytes_roundtrip. f_equal. ring.
Qed.

(** Commitments do not bind: as the generators are known multiples of one
    point, every commitment can be opened to every amount. *)
Theorem pedersen_not_binding a b a' : h_log ≠ fr_zero →
  ∃ b', length b' = 32%nat ∧ pedersen_commit a' b' = pedersen_commit a b.
Proof.
  intros Hh. exists (fr_into_bytes_le (fr_div (fr_sub (fr_add (fr_mul g_log (fr_from_Z a)) (fr_mul h_log (fr_from_le_bytes b)))
    (fr_mul g_log (fr_from_Z a'))) h_log)).
  split; [apply fr_bytes_length|]. rewrite !pedersen_commit_log, fr_le_bytes_roundtrip. f_equal. field. done.
Qed.
End PedersenLaws.

(** ** What a proof shows *)

Section CircuitLaws.
Context `{R1csLaws, !CurveLaws}.
Add Field CircuitField : fr_field.

Lemma witness_step {A} x cs (k : R1csVariable → SE CS SynthesisError A) : ∃ cs',
  (new_witness_variable (Some x) ≫= k) cs = k (VWitness (length (as_witnesses (view cs)))) cs' ∧
  view cs' = MkAssignment (as_inputs (view cs)) (as_witnesses (view cs) ++ [x]) (as_constraints (view cs)).
Proof. destruct (witness_law x cs) as (cs' & Hw & Hv). exists cs'. unfold mbind, SE_bind. by rewrite Hw. Qed.
Lemma input_step {A} x cs (k : R1csVariable → SE CS SynthesisError A) : ∃ cs',
  (new_input_variable (Some x) ≫= k) cs = k (VInput (length (as_inputs (view cs)))) cs' ∧
  view cs' = MkAssignment (as_inputs (view cs) ++ [x]) (as_witnesses (view cs)) (as_constraints (view cs)).
Proof. destruct (input_law x cs) as (cs' & Hw & Hv). exists cs'. unfold mbind, SE_bind. by rewrite Hw. Qed.
Lemma enforce_step {A} a b c cs (k : unit → SE CS SynthesisError A) : ∃ cs',
  (enforce_constraint a b c ≫= k) cs = k tt cs' ∧
  view cs' = MkAssignment (as_inputs (view cs)) (as_witnesses (view cs)) (as_constraints (view cs) ++ [(a, b, c)]).
Proof. destruct (enforce_law a b c cs) as (cs' & Hw & Hv). exists cs'. unfold mbind, SE_bind. by rewrite Hw. Qed.

(** The assignment and the constraint of a complete circuit. *)
Lemma generate_constraints_view old amt new n c :
  ∃ cs, generate_constraints (MkCircuit (Some old) (Some amt) (Some new) n (Some c)) cs_new = (Ok tt, cs) ∧
    view cs = MkAssignment [fr_from_Z new; n; c] [fr_from_Z old; fr_from_Z amt]
      [([(fr_from_Z 1, VWitness 0)], [(fr_from_Z 1, VOne)], [(fr_from_Z 1, VWitness 1); (fr_from_Z 1, VInput 0)])].
Proof.
  unfold generate_constraints. cbn [old_balance amount new_balance nullifier commitment fmap option_fmap option_map].
  edestruct (@witness_step unit) as (cs1 & Hr1 & Hv1). rewrite Hr1. clear Hr1.
  edestruct (@witness_step unit) as (cs2 & Hr2 & Hv2). rewrite Hr2. clear Hr2.
  edestruct (@input_step unit) as (cs3 & Hr3 & Hv3). rewrite Hr3. clear Hr3. cbv zeta.
  edestruct (@enforce_step unit) as (cs4 & Hr4 & Hv4). rewrite Hr4. clear Hr4.
  edestruct (@input_step unit) as (cs5 & Hr5 & Hv5). rewrite Hr5. clear Hr5.
  edestruct (@input_step unit) as (cs6 & Hr6 & Hv6). rewrite Hr6. clear Hr6.
  exists cs6. split; [done|]. rewrite Hv6, Hv5, Hv4, Hv3, Hv2, Hv1, view_new. reflexivity.
Qed.

(** A complete transfer circuit generates a system that is satisfied
    exactly when the old balance is the sum of the amount and the new one; its
    instance variables are the public inputs. *)
Theorem circuit_satisfied_iff old amt new n c :
  let circuit := MkCircuit (Some old) (Some amt) (Some new) n (Some c) in
  ∃ cs, generate_constraints circuit cs_new = (Ok tt, cs) ∧ as_inputs (view cs) = public_inputs circuit ∧
    (is_satisfied cs = true ↔ fr_from_Z old = fr_from_Z (amt + new)).
Proof.
  intros circuit. destruct (generate_constraints_view old amt new n c) as (cs & Hg & Hv).
  exists cs. split; [exact Hg|]. rewrite satisfied_law, Hv. split; [done|].
  unfold satisfied, lc_value. cbn [as_constraints forallb foldr value_of as_inputs as_witnesses nth fst snd].
  rewrite andb_true_r, bool_decide_eq_true, fr_from_1, fr_from_add.
  split; intros He.
  - transitivity (fr_mul (fr_add (fr_mul fr_one (fr_from_Z old)) fr_zero) (fr_add (fr_mul fr_one fr_one) fr_zero)); [ring|].
    rewrite He. ring.
  - rewrite He. ring.
Qed.

(** No choice of new balance, nullifier and commitment is ruled out by the
    circuit, whatever the amount: a proof about them shows nothing. *)
Theorem circuit_binds_nothing amt new n c :
  ∃ old cs, generate_constraints (MkCircuit (Some old) (Some amt) (Some new) n (Some c)) cs_new = (Ok tt, cs) ∧
    is_satisfied cs = true ∧ as_inputs (view cs) = [fr_from_Z new; n; c].
Proof.
  exists (amt + new). destruct (generate_constraints_view (amt + new) amt new n c) as (cs & Hg & Hv).
  exists cs. split; [exact Hg|]. rewrite satisfied_law, Hv. split; [|done].
  unfold satisfied, lc_value. cbn [as_constraints forallb foldr value_of as_inputs as_witnesses nth fst snd].
  rewrite andb_true_r, bool_decide_eq_true, fr_from_1, fr_from_add. ring.
Qed.
End CircuitLaws.

(** ** Double spending *)

Section DoubleSpending.
Context `{Groth16}.

Lemma add_nullifier_Ok n m u m' : add_nullifier n m = (Ok u, m') →
  n ∉ nullifiers (nullifier_set m) ∧ nullifiers (nullifier_set m') = {[n]} ∪ nullifiers (nullifier_set m) ∧
  enabled m' = enabled m ∧ verifier m' = verifier m.
Proof.
  unfold add_nullifier, zoom, nullifier_add, mbind, SE_bind, se_get, spent. cbn beta iota.
  destruct (_ <=? _)%nat; [discriminate|].
  destruct (decide (n ∈ nullifiers (nullifier_set m))); [by rewrite bool_decide_eq_true_2|].
  rewrite bool_decide_eq_false_2 by done. unfold se_mod. intros Ha. by simplify_eq.
Qed.

(** A transaction that was accepted, and how. *)
Lemma process_Ok t m u m' : process_privacy_transaction t m = (Ok u, m') →
  ∃ k proof, enabled m = true ∧ verifier m = Some k ∧ deserialize_proof (px_proof t) = Some proof ∧
    Forall (λ bs, length bs = 32%nat) (px_inputs t) ∧ groth16_verify k (fr_from_le_bytes <$> px_inputs t) proof = true ∧
    match extract_nullifier (px_inputs t) with
    | Some n => add_nullifier n m = (Ok u, m')
    | None => m' = m
    end.
Proof.
  unfold process_privacy_transaction, mbind, SE_bind, se_get. cbn beta iota. intros Hp.
  destruct (enabled m) eqn:He; [|discriminate Hp]. cbn [negb] in Hp.
  destruct (verifier m) as [k|] eqn:Hk; [|discriminate Hp].
  destruct (deserialize_proof (px_proof t)) as [proof|] eqn:Hd; [|discriminate Hp].
  destruct (forallb _ _) eqn:Hl; [|discriminate Hp]. cbn [negb] in Hp.
  destruct (groth16_verify _ _ _) eqn:Hg; [|discriminate Hp]. cbn [negb] in Hp.
  exists k, proof. split_and!; try done.
  - apply Forall_forall. intros bs Hbs. rewrite forallb_forall in Hl. by apply Nat.eqb_eq, Hl, list_elem_of_In.
  - destruct (extract_nullifier (px_inputs t)) as [n|]; [|by unfold mret, SE_ret in Hp; simplify_eq].
    by destruct (note_spent m n).
Qed.

(** Processing a list of transactions: the nullifiers of those accepted. *)
Fixpoint spend_all (ts : list PrivacyTransaction) (m : PrivacyManager) : list Hash :=
  match ts with
  | [] => []
  | t :: ts' =>
      match process_privacy_transaction t m with
      | (Ok _, m') => match extract_nullifier (px_inputs t) with Some n => [n] | None => [] end ++ spend_all ts' m'
      | (Err _, m') => spend_all ts' m'
      end
  end.

Lemma add_nullifier_keeps n m : nullifiers (nullifier_set m) ⊆ nullifiers (nullifier_set (add_nullifier n m).2).
Proof.
  unfold add_nullifier, zoom, nullifier_add, mbind, SE_bind, se_get, fail, se_mod. cbn beta iota.
  repeat case_match; simplify_eq; cbn; set_solver.
Qed.
Lemma process_keeps t m : nullifiers (nullifier_set m) ⊆ nullifiers (nullifier_set (process_privacy_transaction t m).2).
Proof.
  unfold process_privacy_transaction, mbind, SE_bind, se_get, fail, mret, SE_ret. cbn beta iota.
  repeat case_match; cbn [snd]; try done. apply add_nullifier_keeps.
Qed.
Lemma spend_all_fresh ts m n : n ∈ nullifiers (nullifier_set m) → n ∉ spend_all ts m.
Proof.
  revert m. induction ts as [|t ts IH]; intros m Hn; cbn; [apply not_elem_of_nil|].
  pose proof (process_keeps t m n Hn) as Hn'. destruct (process_privacy_transaction t m) as [[u|e] m'] eqn:Hp; [|by apply IH].
  rewrite elem_of_app. intros [Hin|Hin]; [|by eapply IH]. apply process_Ok in Hp as (_ & _ & _ & _ & _ & _ & _ & Hx).
  destruct (extract_nullifier (px_inputs t)) as [n'|]; [|by apply not_elem_of_nil in Hin].
  apply list_elem_of_singleton in Hin as ->. by apply add_nullifier_Ok in Hx as (? & _).
Qed.

(** Whatever transactions the manager is given, the nullifiers of those it
    accepts are all different. *)
Theorem nullifiers_spent_once ts m : NoDup (spend_all ts m).
Proof.
  revert m. induction ts as [|t ts IH]; intros m; cbn; [constructor|].
  destruct (process_privacy_transaction t m) as [[u|e] m'] eqn:Hp; [|apply IH].
  apply process_Ok in Hp as (_ & _ & _ & _ & _ & _ & _ & Hx).
  destruct (extract_nullifier (px_inputs t)) as [n|]; [|apply IH]. cbn. constructor; [|apply IH].
  apply add_nullifier_Ok in Hx as (_ & Hs & _). apply spend_all_fresh. rewrite Hs. set_solver.
Qed.

Lemma process_accepts t m k proof n :
  enabled m = true → verifier m = Some k → deserialize_proof (px_proof t) = Some proof →
  Forall (λ bs, length bs = 32%nat) (px_inputs t) → groth16_verify k (fr_from_le_bytes <$> px_inputs t) proof = true →
  extract_nullifier (px_inputs t) = Some n → n ∉ nullifiers (nullifier_set m) →
  (size (nullifiers (nullifier_set m)) < max_size (nullifier_set m))%nat →
  process_privacy_transaction t m =
    (Ok tt, MkManager (MkNullifiers ({[n]} ∪ nullifiers (nullifier_set m)) (max_size (nullifier_set m))) (enabled m) (verifier m)).
Proof.
  intros He Hk Hd Hl Hg Hx Hn Hs. unfold process_privacy_transaction, mbind, SE_bind, se_get. cbn beta iota.
  rewrite He, Hk, Hd. cbn [negb].
  assert (forallb (λ bs, (length bs =? 32)%nat) (px_inputs t) = true) as ->.
  { apply forallb_forall. intros bs Hbs. rewrite Forall_forall in Hl. by apply Nat.eqb_eq, Hl, list_elem_of_In. }
  rewrite Hg, Hx. cbn [negb]. unfold note_spent, spent. rewrite bool_decide_eq_false_2 by done.
  unfold add_nullifier, zoom, nullifier_add, mbind, SE_bind, se_get, spent. cbn beta iota.
  assert ((max_size (nullifier_set m) <=? size (nullifiers (nullifier_set m)))%nat = false) as -> by (apply Nat.leb_gt; lia).
  rewrite bool_decide_eq_false_2 by done. unfold se_mod. by rewrite He, Hk.
Qed.

(** One proof can be spent several times: the proof is checked against the
    public inputs as field elements, but the nullifier recorded is their bytes,
    so another encoding of the same elements passes as a new nullifier. *)
Theorem nullifier_encoding_malleable t inputs' m k proof n n' :
  let t' := MkPrivacyTx (px_type t) (px_proof t) inputs' (px_hash t) (encrypted_data t) in
  enabled m = true → verifier m = Some k → deserialize_proof (px_proof t) = Some proof →
  Forall (λ bs, length bs = 32%nat) (px_inputs t) → Forall (λ bs, length bs = 32%nat) inputs' →
  groth16_verify k (fr_from_le_bytes <$> px_inputs t) proof = true →
  fr_from_le_bytes <$> inputs' = fr_from_le_bytes <$> px_inputs t →
  extract_nullifier (px_inputs t) = Some n → extract_nullifier inputs' = Some n' → n' ≠ n →
  n ∉ nullifiers (nullifier_set m) → n' ∉ nullifiers (nullifier_set m) →
  (S (size (nullifiers (nullifier_set m))) < max_size (nullifier_set m))%nat →
  ∃ m', (process_privacy_transaction t ≫= λ _, process_privacy_transaction t') m = (Ok tt, m').
Proof.
  intros t' He Hk Hd Hl Hl' Hg Hf Hx Hx' Hne Hn Hn' Hs. unfold mbind, SE_bind.
  rewrite (process_accepts t m k proof n) by (done || lia). eexists.
  apply process_accepts with (k := k) (proof := proof) (n := n'); try done; cbn [nullifier_set nullifiers max_size px_inputs t'].
  - by rewrite Hf.
  - set_solver.
  - rewrite size_union by set_solver. rewrite size_singleton. lia.
Qed.

(** Once the set of nullifiers is full, a block accepts the same shielded
    transaction again and again: recording its nullifier fails, and the failure
    is ignored. *)
Theorem full_set_allows_double_spend t m : (max_size (nullifier_set m) <= size (nullifiers (nullifier_set m)))%nat →
  validate_privacy_transaction (Some m) t = Ok tt →
  ∀ times, foldr (λ _ k, accept_privacy_transaction t ≫= λ _, k) (mret tt) (seq 0 times) (Some m) = (Ok tt, Some m).
Proof.
  intros Hfull Hv times.
  assert (Ha : accept_privacy_transaction t (Some m) = (Ok tt, Some m)).
  { unfold accept_privacy_transaction, mbind, SE_bind, se_read. rewrite Hv. unfold se_mod, apply_privacy_transaction.
    cbn [fmap option_fmap option_map]. destruct (extract_nullifier (px_inputs t)) as [n|]; [|done].
    unfold add_nullifier, zoom, nullifier_add, mbind, SE_bind, se_get. cbn beta iota.
    assert ((max_size (nullifier_set m) <=? size (nullifiers (nullifier_set m)))%nat = true) as -> by (apply Nat.leb_le; lia).
    unfold fail. cbn. by destruct m. }
  induction (seq 0 times) as [|i l IH]; cbn [foldr]; [done|]. unfold mbind, SE_bind. by rewrite Ha.
Qed.
End DoubleSpending.

(** ** Concrete runs *)

Module ShieldedReference.
Import KzgReference.
#[local] Existing Instance Reference.keccak.
#[local] Existing Instance small_curve.
#[local] Existing Instance small_laws.

(** Proofs that list the inputs they are for. *)
#[local] Instance listing : Groth16 := {
  VerifyingKey := unit; SnarkProof := list bool;
  deserialize_proof bs := Some (Z.odd <$> bs);
  groth16_verify _ inputs p := bool_decide (inputs = p) }.

(** A digest that ends in an odd byte. *)
Definition odd_keccak : Keccak := {| keccak_digest := λ _, replicate 32 7; keccak_digest_wf := λ _, eq_refl |}.
Lemma pedersen_not_binding_witness :
  ∃ b', length b' = 32%nat ∧ @pedersen_commit odd_keccak small_curve 1000000 b' =
    @pedersen_commit odd_keccak small_curve 5 (replicate 32 1).
Proof. apply (@pedersen_not_binding odd_keccak small_curve small_laws 5 (replicate 32 1) 1000000). vm_compute. discriminate. Defined.

(** Nullifiers 1 and 3 are the same element of the field. *)
Definition nul (n : Z) : list u8 := n :: replicate 31 0.
Definition ex_shielded : PrivacyTransaction := privacy_tx_new PrivateTransfer [0; 1; 1] [nul 0; nul 1; nul 1].
Definition ex_manager : PrivacyManager := set_verifier tt (privacy_manager_new true).
Lemma nullifier_encoding_malleable_witness :
  ∃ m', (process_privacy_transaction ex_shielded ≫= λ _, process_privacy_transaction
          (MkPrivacyTx PrivateTransfer [0; 1; 1] [nul 0; nul 3; nul 1] (px_hash ex_shielded) None)) ex_manager = (Ok tt, m').
Proof.
  apply (nullifier_encoding_malleable ex_shielded [nul 0; nul 3; nul 1] ex_manager tt [false; true; true]
    (MkHash (nul 1)) (MkHash (nul 3))); try reflexivity.
  - repeat constructor.
  - repeat constructor.
  - discriminate.
  - set_solver.
  - set_solver.
  - unfold ex_manager, privacy_manager_new, set_verifier, nullifiers_default, nullifiers_new. cbn [nullifier_set nullifiers max_size].
    rewrite size_empty. lia.
Defined.

Definition full_manager : PrivacyManager := MkManager (nullifiers_new 0) true (Some tt).
Lemma full_set_allows_double_spend_witness :
  (accept_privacy_transaction ex_shielded ≫= λ _, accept_privacy_transaction ex_shielded ≫= λ _, mret tt) (Some full_manager)
  = (Ok tt, Some full_manager).
Proof.
  apply (full_set_allows_double_spend ex_shielded full_manager) with (times := 2%nat).
  - cbn. lia.
  - vm_compute. reflexivity.
Defined.
End ShieldedReference.
