(* ===== verification/RateLimit.v ===== *)
(** * RateLimit: token buckets for the RPC interface

    Models [irondag-blockchain/src/rpc/rate_limit.rs]: the global limiter and
    the one with a bucket per client address.  An [Instant] is a number of
    nanoseconds; the operations take the time they read. *)

From S2P Require Import Prelude Types Float64.

Definition u32_max : Z := 2 ^ 32 - 1.
(** [u32] arithmetic of a release build. *)
Definition add32 (a b : u32) : u32 := (a + b) mod (u32_max + 1).
Definition sub32 (a b : u32) : u32 := (a - b) mod (u32_max + 1).

Record RateLimiter := MkLimiter { max_tokens : u32; tokens : u32; refill_rate : f64; last_refill : Z }.
Definition limiter_new (max : u32) (rate : f64) (now : Z) : RateLimiter := MkLimiter max max rate now.

(** [now.duration_since(t)] is zero when [t] is later. *)
Definition tokens_to_add (rate : f64) (last now : Z) : u32 :=
  f_as_uint u32_max (f_mul (as_secs_f64 (Z.max 0 (now - last))) rate).
Definition refill (max : u32) (rate : f64) (now : Z) (b : u32 * Z) : u32 * Z :=
  let add := tokens_to_add rate b.2 now in
  if 0 <? add then (Z.min (add32 b.1 add) max, now) else b.
Definition take_token (b : u32 * Z) : bool * (u32 * Z) :=
  if 0 <? b.1 then (true, (b.1 - 1, b.2)) else (false, b).

Definition try_acquire (now : Z) (l : RateLimiter) : bool * RateLimiter :=
  let '(ok, b) := take_token (refill (max_tokens l) (refill_rate l) now (tokens l, last_refill l)) in
  (ok, MkLimiter (max_tokens l) b.1 (refill_rate l) b.2).
Definition current_tokens (l : RateLimiter) : u32 := tokens l.

Record PerIpRateLimiter := MkPerIp { pi_max_tokens : u32; pi_refill_rate : f64; buckets : gmap IpAddr (u32 * Z) }.
Definition per_ip_new (max : u32) (rate : f64) : PerIpRateLimiter := MkPerIp max rate ∅.
Definition ip_try_acquire (ip : IpAddr) (now : Z) (l : PerIpRateLimiter) : bool * PerIpRateLimiter :=
  match buckets l !! ip with
  | Some b =>
      let '(ok, b) := take_token (refill (pi_max_tokens l) (pi_refill_rate l) now b) in
      (ok, MkPerIp (pi_max_tokens l) (pi_refill_rate l) (<[ip := b]> (buckets l)))
  | None =>
      (true, MkPerIp (pi_max_tokens l) (pi_refill_rate l) (<[ip := (sub32 (pi_max_tokens l) 1, now)]> (buckets l)))
  end.

(** ** Runs *)

(** Requests at the given times: the answers, and the limiter afterwards. *)
Fixpoint acquire_run (times : list Z) (l : RateLimiter) : list bool * RateLimiter :=
  match times with
  | [] => ([], l)
  | t :: ts => let '(ok, l1) := try_acquire t l in let '(oks, l2) := acquire_run ts l1 in (ok :: oks, l2)
  end.
Fixpoint ip_run (reqs : list (IpAddr * Z)) (l : PerIpRateLimiter) : list (IpAddr * bool) * PerIpRateLimiter :=
  match reqs with
  | [] => ([], l)
  | (ip, t) :: rs => let '(ok, l1) := ip_try_acquire ip t l in let '(oks, l2) := ip_run rs l1 in ((ip, ok) :: oks, l2)
  end.
(** The tokens the refills of a run were worth before the cap. *)
Fixpoint refilled (times : list Z) (l : RateLimiter) : Z :=
  match times with
  | [] => 0
  | t :: ts => tokens_to_add (refill_rate l) (last_refill l) t + refilled ts (snd (try_acquire t l))
  end.
Definition allowed (oks : list bool) : Z := Z.of_nat (length (List.filter id oks)).

(** ** Bounds *)

Lemma tokens_to_add_range rate last now : 0 <= tokens_to_add rate last now <= u32_max.
Proof. apply f_as_uint_range. unfold u32_max. lia. Qed.

Lemma add32_le a b : 0 <= a → 0 <= b → 0 <= add32 a b <= a + b.
Proof.
  intros. unfold add32. pose proof (Z.mod_pos_bound (a + b) (u32_max + 1) ltac:(unfold u32_max; lia)).
  pose proof (Z.mod_le (a + b) (u32_max + 1) ltac:(lia) ltac:(unfold u32_max; lia)). lia.
Qed.

Lemma refill_bounds max rate now b : 0 <= b.1 <= max →
  0 <= (refill max rate now b).1 <= max ∧ (refill max rate now b).1 <= b.1 + tokens_to_add rate b.2 now.
Proof.
  intros Hb. unfold refill. cbv zeta. pose proof (tokens_to_add_range rate b.2 now).
  destruct (0 <? _); cbn [fst]; [|lia]. pose proof (add32_le b.1 (tokens_to_add rate b.2 now)). lia.
Qed.

Definition limiter_ok (l : RateLimiter) : Prop := 0 <= tokens l <= max_tokens l.

Lemma try_acquire_spec now l : limiter_ok l →
  let '(ok, l') := try_acquire now l in
  limiter_ok l' ∧ max_tokens l' = max_tokens l ∧ refill_rate l' = refill_rate l ∧
  (if ok then 1 else 0) + tokens l' <= tokens l + tokens_to_add (refill_rate l) (last_refill l) now.
Proof.
  intros Hl. unfold try_acquire. pose proof (refill_bounds (max_tokens l) (refill_rate l) now (tokens l, last_refill l) Hl) as [Hr Ha].
  destruct (refill _ _ _ _) as [t last] eqn:Hf. cbn [fst snd] in *. unfold take_token. cbn [fst snd].
  destruct (Z.ltb_spec 0 t); unfold limiter_ok; cbn [tokens max_tokens refill_rate fst]; split_and!; lia || done.
Qed.

(** Whenever requests arrive, a limiter answers no more of them than it had
    tokens at first plus what its refills were worth, and it never holds more
    than its maximum. *)
Theorem rate_limit_bound times l : limiter_ok l →
  let '(oks, l') := acquire_run times l in
  limiter_ok l' ∧ max_tokens l' = max_tokens l ∧ allowed oks + tokens l' <= tokens l + refilled times l.
Proof.
  revert l. induction times as [|t ts IH]; intros l Hl; cbn [acquire_run refilled]; [unfold allowed, limiter_ok in *; cbn [List.filter length]; split_and!; lia|].
  pose proof (try_acquire_spec t l Hl) as Hs. destruct (try_acquire t l) as [ok l1] eqn:Ha. cbn [snd].
  destruct Hs as (Hl1 & Hm & Hr & Hb). specialize (IH l1 Hl1). destruct (acquire_run ts l1) as [oks l2].
  destruct IH as (Hl2 & Hm2 & Hb2). split_and!; [done|congruence|].
  unfold allowed in *. destruct ok; cbn [List.filter id length]; unfold id; cbn [length]; fold (@id bool); lia.
Qed.

(** A client is answered as if it were alone: the answers to one address in
    any interleaving are those to its own requests. *)
Theorem per_ip_isolated reqs ip l :
  List.filter (λ r : IpAddr * bool, bool_decide (r.1 = ip)) (ip_run reqs l).1 =
  (ip_run (List.filter (λ r : IpAddr * Z, bool_decide (r.1 = ip)) reqs) l).1.
Proof.
  assert (Hg : ∀ l1 l2, pi_max_tokens l1 = pi_max_tokens l2 → pi_refill_rate l1 = pi_refill_rate l2 →
    buckets l1 !! ip = buckets l2 !! ip →
    List.filter (λ r : IpAddr * bool, bool_decide (r.1 = ip)) (ip_run reqs l1).1 =
    (ip_run (List.filter (λ r : IpAddr * Z, bool_decide (r.1 = ip)) reqs) l2).1); [|by apply Hg].
  clear l. induction reqs as [|[ip' t] reqs IH]; intros l1 l2 Hm Hr Hb; [done|].
  cbn [ip_run List.filter fst]. destruct (ip_try_acquire ip' t l1) as [ok l1'] eqn:Ha.
  destruct (ip_run reqs l1') as [oks l1''] eqn:Hrun.
  assert (Hoks : oks = (ip_run reqs l1').1) by by rewrite Hrun. cbn [fst List.filter].
  destruct (decide (ip' = ip)) as [->|Hne].
  - rewrite !bool_decide_eq_true_2 by done. cbn [ip_run]. unfold ip_try_acquire in *. rewrite <- Hm, <- Hr, <- Hb.
    destruct (buckets l1 !! ip) as [b|] eqn:Hb1.
    + destruct (take_token _) as [ok' b'] eqn:Ht. simplify_eq.
      destruct (ip_run _ (MkPerIp _ _ (<[ip:=b']> (buckets l2)))) as [oks2 l2''] eqn:Hrun2. cbn [fst]. f_equal.
      erewrite IH; [by rewrite Hrun2|done|done|]. cbn. by rewrite !lookup_insert_eq.
    + simplify_eq. destruct (ip_run _ (MkPerIp _ _ (<[ip:=_]> (buckets l2)))) as [oks2 l2''] eqn:Hrun2. cbn [fst]. f_equal.
      erewrite IH; [by rewrite Hrun2|done|done|]. cbn. by rewrite !lookup_insert_eq.
  - rewrite !bool_decide_eq_false_2 by done. subst oks.
    assert (pi_max_tokens l1' = pi_max_tokens l1 ∧ pi_refill_rate l1' = pi_refill_rate l1 ∧ buckets l1' !! ip = buckets l1 !! ip)
      as (Hm' & Hr' & Hb').
    { unfold ip_try_acquire in Ha. repeat case_match; simplify_eq; cbn; by rewrite lookup_insert_ne. }
    apply IH; congruence.
Qed.

(** A limiter made for no requests at all lets the first one of each address
    through, and 2^32 - 1 more before its next refill. *)
Theorem zero_limit_lets_through ip now rate :
  let '(ok, l) := ip_try_acquire ip now (per_ip_new 0 rate) in
  ok = true ∧ buckets l !! ip = Some (u32_max, now).
Proof. unfold ip_try_acquire, per_ip_new. cbn [buckets]. rewrite lookup_empty. split; [done|]. cbn. by rewrite lookup_insert_eq. Qed.

(** After an idle time whose refill saturates, the sum wraps around and the
    bucket has one token less than before. *)
Lemma saturated_refill_takes_a_token max rate now t last :
  0 < t <= max → max <= u32_max → tokens_to_add rate last now = u32_max →
  (refill max rate now (t, last)).1 = t - 1.
Proof.
  intros Ht Hm Ha. unfold refill. cbn [fst snd]. rewrite Ha. cbn [fst]. change (0 <? u32_max) with true. cbn [fst].
  unfold add32. replace (t + u32_max) with (t - 1 + 1 * (u32_max + 1)) by lia.
  rewrite Z.mod_add, Z.mod_small by (unfold u32_max in *; lia). lia.
Qed.

Module RateLimitReference.
(** Two tokens, refilled ten times a second. *)
Definition ex_limiter : RateLimiter := limiter_new 2 (f_of_Z 10) 0.
Definition ex_times : list Z := [0; 1; 2; 150000000; 150000001].
Lemma rate_limit_bound_witness :
  let '(oks, l') := acquire_run ex_times ex_limiter in
  (limiter_ok l' ∧ max_tokens l' = 2 ∧ allowed oks + tokens l' <= 2 + refilled ex_times ex_limiter) ∧
  oks = [true; true; false; true; false].
Proof.
  pose proof (rate_limit_bound ex_times ex_limiter ltac:(unfold limiter_ok; cbn; lia)) as Hb.
  destruct (acquire_run ex_times ex_limiter) as [oks l'] eqn:Hr. split; [exact Hb|].
  apply (f_equal fst) in Hr. vm_compute in Hr. symmetry. exact Hr.
Defined.
End RateLimitReference.
