(* ===== verification/Reputation.v ===== *)
(** * Reputation: scores of addresses

    Models [irondag-blockchain/src/reputation.rs]: the counters kept for each
    address and the score in IEEE double arithmetic computed from them.  The
    node registry is the one of NodeRegistry.v. *)

From S2P Require Import Prelude Types Block Float64 NodeRegistry.

(** [ReputationScore::new] *)
Definition score_new (x : f64) : f64 := f_clamp x f_zero (f_of_Z 100).
Definition is_high (s : f64) : bool := f_leb (f_of_Z 70) s.
Definition is_medium (s : f64) : bool := f_leb (f_of_Z 40) s && f_ltb s (f_of_Z 70).
Definition is_low (s : f64) : bool := f_ltb s (f_of_Z 40).

Record ReputationFactors := MkFactors {
  successful_txs : u64;
  failed_txs : u64;
  rf_blocks_mined : u64;
  node_longevity : option f64;
  account_age_days : u64;
  total_value_transacted : u128;
  unique_contacts : u64;
  suspicious_activities : u64 }.
Definition no_factors : ReputationFactors := MkFactors 0 0 0 None 0 0 0 0.

Record ReputationManager := MkReputation {
  reputations : gmap Address f64;
  factors : gmap Address ReputationFactors;
  rm_registry : option NodeRegistry;
  seen_contacts : gmap Address (gset Address) }.
Definition reputation_new (r : option NodeRegistry) : ReputationManager := MkReputation ∅ ∅ r ∅.

(** [score += (x.min(cap) as f64 / cap as f64) * points], for [x > 0]. *)
Definition share (x cap points : Z) : f64 := f_mul (f_div (f_of_Z (Z.min x cap)) (f_of_Z cap)) (f_of_Z points).
Definition score_of (f : ReputationFactors) : f64 :=
  let score := f_of_Z 50 in
  let total := add64 (successful_txs f) (failed_txs f) in
  let score := if 0 <? total
    then f_add score (f_mul (f_div (f_of_Z (successful_txs f)) (f_of_Z total)) (f_of_Z 20)) else score in
  let score := match node_longevity f with Some l => f_add score (f_mul l (f_of_Z 20)) | None => score end in
  let score := if 0 <? account_age_days f then f_add score (share (account_age_days f) 365 15) else score in
  let score := if 0 <? rf_blocks_mined f then f_add score (share (rf_blocks_mined f) 1000 15) else score in
  let score := if 0 <? unique_contacts f then f_add score (share (unique_contacts f) 100 10) else score in
  let score := if 0 <? suspicious_activities f then f_sub score (share (suspicious_activities f) 10 30) else score in
  let score := if 10 <? total
    then let failure_rate := f_div (f_of_Z (failed_txs f)) (f_of_Z total) in
         if f_ltb (f_lit 1 2) failure_rate then f_sub score (f_mul (f_sub failure_rate (f_lit 1 2)) (f_of_Z 40)) else score
    else score in
  score_new score.

(** [entry(a).or_insert_with(..)], changed by [f], then recomputed. *)
Definition with_factors (a : Address) (f : ReputationFactors → ReputationFactors) (m : ReputationManager) : ReputationManager :=
  MkReputation (reputations m) (<[a := f (default no_factors (factors m !! a))]> (factors m)) (rm_registry m) (seen_contacts m).
Definition calculate_reputation (a : Address) (m : ReputationManager) : f64 * ReputationManager :=
  let m := with_factors a id m in
  let s := score_of (default no_factors (factors m !! a)) in
  (s, MkReputation (<[a := s]> (reputations m)) (factors m) (rm_registry m) (seen_contacts m)).
Definition get_reputation (a : Address) (m : ReputationManager) : f64 * ReputationManager :=
  match reputations m !! a with Some s => (s, m) | None => calculate_reputation a m end.

Definition record_successful_tx (a : Address) (value : u128) (dest : Address) (m : ReputationManager) : ReputationManager :=
  let seen := default ∅ (seen_contacts m !! a) in
  let fresh := negb (address_is_zero dest) && negb (bool_decide (dest ∈ seen)) in
  let m1 := with_factors a (λ f, MkFactors (add64 (successful_txs f) 1) (failed_txs f) (rf_blocks_mined f) (node_longevity f)
    (account_age_days f) (sat_add128 (total_value_transacted f) value)
    (if fresh then add64 (unique_contacts f) 1 else unique_contacts f) (suspicious_activities f)) m in
  let m2 := if address_is_zero dest then m1
            else MkReputation (reputations m1) (factors m1) (rm_registry m1) (<[a := {[dest]} ∪ seen]> (seen_contacts m1)) in
  (calculate_reputation a m2).2.
Definition record_failed_tx (a : Address) (m : ReputationManager) : ReputationManager :=
  (calculate_reputation a (with_factors a (λ f, MkFactors (successful_txs f) (add64 (failed_txs f) 1) (rf_blocks_mined f)
    (node_longevity f) (account_age_days f) (total_value_transacted f) (unique_contacts f) (suspicious_activities f)) m)).2.
Definition record_suspicious_activity (a : Address) (m : ReputationManager) : ReputationManager :=
  (calculate_reputation a (with_factors a (λ f, MkFactors (successful_txs f) (failed_txs f) (rf_blocks_mined f)
    (node_longevity f) (account_age_days f) (total_value_transacted f) (unique_contacts f)
    (add64 (suspicious_activities f) 1)) m)).2.
Definition update_node_longevity (a : Address) (n : NodeIdentity) (m : ReputationManager) : ReputationManager :=
  match rm_registry m ≫= λ r, get_node_stats r n with
  | Some st =>
      (calculate_reputation a (with_factors a (λ f, MkFactors (successful_txs f) (failed_txs f) (blocks_mined st)
        (Some (calculate_weight st 365)) (account_age_days f) (total_value_transacted f) (unique_contacts f)
        (suspicious_activities f)) m)).2
  | None => m
  end.
Definition get_factors (m : ReputationManager) (a : Address) : option ReputationFactors := factors m !! a.

(** ** The manager's invariant *)

Inductive reputation_step : ReputationManager → ReputationManager → Prop :=
| rep_get a m : reputation_step m (get_reputation a m).2
| rep_success a v d m : reputation_step m (record_successful_tx a v d m)
| rep_failure a m : reputation_step m (record_failed_tx a m)
| rep_suspicious a m : reputation_step m (record_suspicious_activity a m)
| rep_longevity a n m : reputation_step m (update_node_longevity a n m).
Definition reputation_reachable (r : option NodeRegistry) : ReputationManager → Prop :=
  rtc reputation_step (reputation_new r).

(** Every cached score is that of the current factors, except perhaps one that
    is about to be recomputed; no age is known, and the contacts counted are
    those seen. *)
Record reputation_ok_but (stale : option Address) (m : ReputationManager) : Prop := {
  ro_cached a s : reputations m !! a = Some s → Some a ≠ stale → ∃ f, factors m !! a = Some f ∧ s = score_of f;
  ro_age a f : factors m !! a = Some f → account_age_days f = 0;
  ro_contacts a f : factors m !! a = Some f →
    unique_contacts f = Z.of_nat (size (default ∅ (seen_contacts m !! a))) mod (u64_max + 1);
  ro_seen a x : seen_contacts m !! a = Some x → is_Some (factors m !! a) }.
Abbreviation reputation_ok := (reputation_ok_but None).

Lemma calculate_ok a m : reputation_ok_but (Some a) m →
  reputation_ok (calculate_reputation a m).2 ∧ factors (calculate_reputation a m).2 = <[a := default no_factors (factors m !! a)]> (factors m).
Proof.
  intros [Hc Ha Hu Hs]. unfold calculate_reputation, with_factors. cbv zeta. cbn [factors seen_contacts snd reputations id].
  rewrite lookup_insert_eq. cbn [default]. unfold id. split; [|done]. split; cbn [factors seen_contacts reputations].
  - intros b s Hb _. destruct (decide (b = a)) as [->|Hne].
    + rewrite lookup_insert_eq in Hb; rewrite lookup_insert_eq. simplify_eq. by eexists.
    + rewrite lookup_insert_ne in Hb by congruence. rewrite lookup_insert_ne by congruence. apply Hc; congruence.
  - intros b f. rewrite lookup_insert_Some. intros [[-> <-]|[_ Hb]]; [|eauto].
    destruct (factors m !! b) eqn:Hf; cbn; [eauto|done].
  - intros b f. rewrite lookup_insert_Some. intros [[-> <-]|[_ Hb]]; [|eauto].
    destruct (factors m !! b) as [f|] eqn:Hf; cbn; [eauto|].
    destruct (seen_contacts m !! b) as [x|] eqn:Hx; [|done]. destruct (Hs b x Hx). congruence.
  - intros b x Hx. rewrite lookup_insert_is_Some. destruct (decide (a = b)); [by left|right; eauto].
Qed.

(** Changing the factors of [a] and counting the contacts in step. *)
Lemma touch_ok a f x m : reputation_ok m → account_age_days f = 0 →
  unique_contacts f = Z.of_nat (size (default ∅ (x !! a))) mod (u64_max + 1) →
  (∀ b, b ≠ a → x !! b = seen_contacts m !! b) →
  reputation_ok_but (Some a) (MkReputation (reputations m) (<[a := f]> (factors m)) (rm_registry m) x).
Proof.
  intros [Hc Ha Hu Hs] Hage Hcon Hx. split; cbn [factors seen_contacts reputations].
  - intros b s Hb Hne. rewrite lookup_insert_ne by congruence. by apply Hc.
  - intros b g. rewrite lookup_insert_Some. intros [[-> <-]|[_ Hb]]; eauto.
  - intros b g. rewrite lookup_insert_Some. intros [[-> <-]|[Hne Hb]]; [done|]. rewrite Hx by done. eauto.
  - intros b y Hy. rewrite lookup_insert_is_Some. destruct (decide (a = b)); [by left|right].
    split; [done|]. rewrite Hx in Hy by done. eauto.
Qed.
Lemma known_factors a m : reputation_ok m →
  account_age_days (default no_factors (factors m !! a)) = 0 ∧
  unique_contacts (default no_factors (factors m !! a)) =
    Z.of_nat (size (default ∅ (seen_contacts m !! a))) mod (u64_max + 1).
Proof.
  intros [Hc Ha Hu Hs]. destruct (factors m !! a) as [f|] eqn:Hf; cbn; [eauto|].
  destruct (seen_contacts m !! a) as [x|] eqn:Hx; [|done]. destruct (Hs a x Hx). congruence.
Qed.
Lemma with_factors_ok a g m : reputation_ok m →
  (∀ f, account_age_days (g f) = account_age_days f ∧ unique_contacts (g f) = unique_contacts f) →
  reputation_ok_but (Some a) (with_factors a g m).
Proof.
  intros Hm Hg. destruct (known_factors a m Hm) as [Hage Hcon].
  destruct (Hg (default no_factors (factors m !! a))) as [Hg1 Hg2].
  apply touch_ok; [done|congruence|congruence|done].
Qed.

Lemma success_ok a v d m : reputation_ok m → reputation_ok (record_successful_tx a v d m).
Proof.
  intros Hm. destruct (known_factors a m Hm) as [Hage Hcon]. unfold record_successful_tx. cbv zeta.
  apply calculate_ok. set (seen := default ∅ (seen_contacts m !! a)) in *.
  destruct (address_is_zero d) eqn:Hz; cbn [negb andb].
  { apply touch_ok; try done. }
  unfold with_factors. cbn [reputations factors rm_registry seen_contacts].
  apply touch_ok; cbn [account_age_days unique_contacts]; [done|done| |].
  - rewrite lookup_insert_eq. cbn [default]. unfold id in Hcon |- *. destruct (decide (d ∈ seen)) as [Hin|Hin].
    + rewrite bool_decide_eq_true_2 by done. cbn [negb]. replace ({[d]} ∪ seen) with seen by set_solver. done.
    + rewrite bool_decide_eq_false_2 by done. cbn [negb].
      rewrite size_union by set_solver. rewrite size_singleton, Hcon. unfold add64. rewrite Zplus_mod_idemp_l. f_equal. lia.
  - intros b Hb. by rewrite lookup_insert_ne.
Qed.

Lemma reputation_step_ok m m' : reputation_ok m → reputation_step m m' → reputation_ok m'.
Proof.
  intros Hm. destruct 1 as [a m|a v d m|a m|a m|a n m].
  - unfold get_reputation. destruct (reputations m !! a); [done|]. apply calculate_ok.
    destruct Hm. split; eauto.
  - by apply success_ok.
  - apply calculate_ok, with_factors_ok; done.
  - apply calculate_ok, with_factors_ok; done.
  - unfold update_node_longevity. destruct (rm_registry m ≫= _); [|done]. apply calculate_ok, with_factors_ok; done.
Qed.

Lemma f_clamp_nan_or_range x : f_is_nan (score_new x) = true ∨ (f_leb f_zero (score_new x) = true ∧ f_leb (score_new x) (f_of_Z 100) = true).
Proof.
  destruct (f_is_nan x) eqn:Hx.
  - left. destruct x; try done.
  - right. by apply f_clamp_range.
Qed.

(** Whatever is recorded, the score an address is given is the one computed
    from its factors, it lies between 0 and 100 (unless a longevity weight is
    not a number), the contacts counted are the distinct ones seen, and the age
    of an account is never anything but zero. *)
Theorem reputation_current r m a : reputation_reachable r m →
  let '(s, m') := get_reputation a m in
  ∃ f, factors m' !! a = Some f ∧ s = score_of f ∧ account_age_days f = 0 ∧
    unique_contacts f = Z.of_nat (size (default ∅ (seen_contacts m' !! a))) mod (u64_max + 1) ∧
    (f_is_nan s = true ∨ (f_leb f_zero s = true ∧ f_leb s (f_of_Z 100) = true)).
Proof.
  intros Hr. assert (Hm : reputation_ok m).
  { unfold reputation_reachable in Hr. apply rtc_ind_r with (P := reputation_ok) (x := reputation_new r) in Hr; [done|..].
    - split; cbn; intros ? ? Hl; by rewrite lookup_empty in Hl.
    - intros y z _ Hyz Hy. by eapply reputation_step_ok. }
  pose proof (reputation_step_ok m _ Hm (rep_get a m)) as Hm'.
  destruct (get_reputation a m) as [s m'] eqn:Hg. cbn [snd] in Hm'.
  assert (Hs : reputations m' !! a = Some s).
  { unfold get_reputation in Hg. destruct (reputations m !! a) eqn:Hl; [by simplify_eq|].
    unfold calculate_reputation in Hg. simplify_eq. cbn. by rewrite lookup_insert_eq. }
  destruct (ro_cached _ _ Hm' a s Hs ltac:(done)) as (f & Hf & ->). exists f.
  split_and!; [done|done|by eapply ro_age|by eapply ro_contacts|apply f_clamp_nan_or_range].
Qed.

Module ReputationReference.
Definition rep_alice : Address := MkAddress (replicate 20 1).
Lemma reputation_current_witness :
  let '(s, m') := get_reputation rep_alice (record_failed_tx rep_alice (reputation_new None)) in
  ∃ f, factors m' !! rep_alice = Some f ∧ s = score_of f.
Proof.
  pose proof (reputation_current None (record_failed_tx rep_alice (reputation_new None)) rep_alice
    (rtc_once _ _ (rep_failure _ _))) as Hw.
  destruct (get_reputation _ _) as [s m']. destruct Hw as (f & Hf & Hs & _). exists f. exact (conj Hf Hs).
Defined.
End ReputationReference.
