(* ===== verification/Snapshot.v ===== *)
(** * Snapshot: state snapshots of parallel execution

    Models [irondag-blockchain/src/evm/state_snapshot.rs]: snapshots of balances
    and nonces, a base and its branches, and how branches are merged.  The maps
    are iterated in an unspecified order. *)

From S2P Require Import Prelude Types Block.

Record StateSnapshot := MkSnapshot {
  balances : gmap Address u128; nonces : gmap Address u64; ss_block : u64; ss_timestamp : u64 }.
Definition snapshot_new (n t : u64) : StateSnapshot := MkSnapshot ∅ ∅ n t.
Definition from_state (bs : gmap Address u128) (ns : gmap Address u64) (n t : u64) : StateSnapshot := MkSnapshot bs ns n t.
Definition snap_balance (s : StateSnapshot) (a : Address) : u128 := default 0 (balances s !! a).
Definition snap_nonce (s : StateSnapshot) (a : Address) : u64 := default 0 (nonces s !! a).
Definition snap_set_balance (a : Address) (b : u128) (s : StateSnapshot) : StateSnapshot :=
  MkSnapshot (<[a := b]> (balances s)) (nonces s) (ss_block s) (ss_timestamp s).
Definition snap_set_nonce (a : Address) (n : u64) (s : StateSnapshot) : StateSnapshot :=
  MkSnapshot (balances s) (<[a := n]> (nonces s)) (ss_block s) (ss_timestamp s).

Definition snap_apply (t : Transaction) : SE StateSnapshot string unit :=
  s ← se_get;
  let from_balance := snap_balance s (from t) in
  let total := sat_add128 (value t) (fee t) in
  if from_balance <? total then fail "Insufficient balance"%string else
  let current := snap_nonce s (from t) in
  if negb (nonce t =? current) then fail "Invalid nonce"%string else
  _ ← se_mod (λ s, snap_set_nonce (from t) (sat_add64 current 1) (snap_set_balance (from t) (from_balance - total) s));
  if address_is_zero (to t) then mret tt
  else se_mod (λ s, snap_set_balance (to t) (sat_add128 (snap_balance s (to t)) (value t)) s).

Section Merge.
Context `{HashIter}.
Definition snap_merge (other s : StateSnapshot) : StateSnapshot :=
  let s := foldl (λ s ab, snap_set_balance ab.1 (Z.max (snap_balance s ab.1) ab.2) s) s (hm_iter (balances other)) in
  foldl (λ s an, snap_set_nonce an.1 (Z.max (snap_nonce s an.1) an.2) s) s (hm_iter (nonces other)).

Record StateSnapshotManager := MkSnapshots { base_snapshot : option StateSnapshot; branch_snapshots : gmap nat StateSnapshot }.
Definition snapshots_new : StateSnapshotManager := MkSnapshots None ∅.
Definition create_base_snapshot (bs : gmap Address u128) (ns : gmap Address u64) (n t : u64) (m : StateSnapshotManager) :
    StateSnapshotManager := MkSnapshots (Some (from_state bs ns n t)) (branch_snapshots m).
Definition create_branch_snapshot (id : nat) : SE StateSnapshotManager string StateSnapshot :=
  m ← se_get;
  match base_snapshot m with
  | None => fail "Base snapshot not created"%string
  | Some base => _ ← se_mod (λ m, MkSnapshots (base_snapshot m) (<[id := base]> (branch_snapshots m))); mret base
  end.
(** [get_branch_snapshot_mut(id)], changed by [f]. *)
Definition on_branch (id : nat) (f : StateSnapshot → StateSnapshot) (m : StateSnapshotManager) : StateSnapshotManager :=
  MkSnapshots (base_snapshot m) (alter f id (branch_snapshots m)).
Definition merge_all_branches (m : StateSnapshotManager) : result string StateSnapshot :=
  match base_snapshot m with
  | None => Err "Base snapshot not created"%string
  | Some base => Ok (foldl (λ s ib, snap_merge ib.2 s) base (hm_iter (branch_snapshots m)))
  end.
Definition snapshots_clear (m : StateSnapshotManager) : StateSnapshotManager := snapshots_new.
End Merge.

(** ** Merging *)

Section MergeSpec.
Context `{HashIter}.

Definition max_into (m : gmap Address Z) (ab : Address * Z) : gmap Address Z :=
  <[ab.1 := Z.max (default 0 (m !! ab.1)) ab.2]> m.

Lemma fold_balances l s :
  foldl (λ s (ab : Address * u128), snap_set_balance ab.1 (Z.max (snap_balance s ab.1) ab.2) s) s l =
  MkSnapshot (foldl max_into (balances s) l) (nonces s) (ss_block s) (ss_timestamp s).
Proof. revert s. induction l as [|ab l IH]; intros s; cbn [foldl]; [by destruct s|]. by rewrite IH. Qed.
Lemma fold_nonces l s :
  foldl (λ s (an : Address * u64), snap_set_nonce an.1 (Z.max (snap_nonce s an.1) an.2) s) s l =
  MkSnapshot (balances s) (foldl max_into (nonces s) l) (ss_block s) (ss_timestamp s).
Proof. revert s. induction l as [|ab l IH]; intros s; cbn [foldl]; [by destruct s|]. by rewrite IH. Qed.

Lemma fold_max l m a : NoDup l.*1 →
  default 0 (foldl max_into m l !! a) =
  match (list_to_map l : gmap Address Z) !! a with Some b => Z.max (default 0 (m !! a)) b | None => default 0 (m !! a) end.
Proof.
  revert m. induction l as [|[x b] l IH]; intros m Hn; cbn [foldl]; [done|].
  rewrite fmap_cons in Hn. apply NoDup_cons in Hn as [Hx Hn]. rewrite IH by done. cbn [list_to_map foldr uncurry fst snd].
  unfold max_into. cbn [fst snd]. destruct (decide (a = x)) as [->|Hne].
  - rewrite !lookup_insert_eq. by rewrite not_elem_of_list_to_map_1 by done.
  - by rewrite !lookup_insert_ne by congruence.
Qed.
Lemma hm_iter_keys (m : gmap Address Z) : NoDup (hm_iter m).*1.
Proof. rewrite hm_iter_perm. apply NoDup_fst_map_to_list. Qed.
Lemma hm_iter_map (m : gmap Address Z) : (list_to_map (hm_iter m) : gmap Address Z) = m.
Proof.
  transitivity (list_to_map (map_to_list m) : gmap Address Z); [|apply list_to_map_to_list].
  apply list_to_map_proper; [apply hm_iter_keys|apply hm_iter_perm].
Qed.

Lemma merge_balance o s a : snap_balance (snap_merge o s) a =
  match balances o !! a with Some b => Z.max (snap_balance s a) b | None => snap_balance s a end.
Proof.
  unfold snap_merge. cbv zeta. rewrite fold_nonces, fold_balances. unfold snap_balance at 1. cbn [balances].
  by rewrite fold_max, hm_iter_map by apply hm_iter_keys.
Qed.
Lemma merge_nonce o s a : snap_nonce (snap_merge o s) a =
  match nonces o !! a with Some b => Z.max (snap_nonce s a) b | None => snap_nonce s a end.
Proof.
  unfold snap_merge. cbv zeta. rewrite fold_nonces, fold_balances. unfold snap_nonce at 1. cbn [nonces].
  by rewrite fold_max, hm_iter_map by apply hm_iter_keys.
Qed.

(** What a sequence of merges yields for a quantity that merges by maximum. *)
Lemma merges_max (get : StateSnapshot → Z) (known : StateSnapshot → option Z) (l : list (nat * StateSnapshot)) s :
  (∀ o s, get (snap_merge o s) = match known o with Some b => Z.max (get s) b | None => get s end) →
  let r := get (foldl (λ s ib, snap_merge ib.2 s) s l) in
  get s <= r ∧ (∀ i o b, (i, o) ∈ l → known o = Some b → b <= r) ∧
  (r = get s ∨ ∃ i o, (i, o) ∈ l ∧ known o = Some r).
Proof.
  intros Hm. revert s. induction l as [|[i o] l IH]; intros s; cbn [foldl].
  { split_and!; [lia| |by left]. by intros ??? ?%not_elem_of_nil. }
  destruct (IH (snap_merge o s)) as (Hs & Hl & Hr). specialize (Hm o s). cbn [snd].
  set (r := get (foldl _ (snap_merge o s) l)) in *. split_and!.
  - destruct (known o); lia.
  - intros i' o' b [[= -> ->]|Hin]%elem_of_cons Hb; [rewrite Hb in Hm; lia|by eapply Hl].
  - destruct Hr as [Hr|(i' & o' & Hin & Hk)]; [|right; exists i', o'; split; [by right|done]].
    destruct (known o) as [b|] eqn:Hb; [|left; congruence].
    destruct (Z.max_spec (get s) b) as [[_ Hx]|[_ Hx]]; [right; exists i, o; split; [by left|congruence]|left; congruence].
Qed.

(** The merged snapshot has, for each account, the largest of the balances
    and the largest of the nonces of the base and the branches, in whatever
    order the branches are visited. *)
Theorem merge_takes_maximum m base r a : base_snapshot m = Some base → merge_all_branches m = Ok r →
  snap_balance base a <= snap_balance r a ∧ snap_nonce base a <= snap_nonce r a ∧
  (∀ i o, branch_snapshots m !! i = Some o →
     (∀ b, balances o !! a = Some b → b <= snap_balance r a) ∧ (∀ n, nonces o !! a = Some n → n <= snap_nonce r a)) ∧
  (snap_balance r a = snap_balance base a ∨
   ∃ i o, branch_snapshots m !! i = Some o ∧ balances o !! a = Some (snap_balance r a)) ∧
  (snap_nonce r a = snap_nonce base a ∨ ∃ i o, branch_snapshots m !! i = Some o ∧ nonces o !! a = Some (snap_nonce r a)).
Proof.
  intros Hb Hm. unfold merge_all_branches in Hm. rewrite Hb in Hm. simplify_eq.
  pose proof (merges_max (λ s, snap_balance s a) (λ o, balances o !! a) (hm_iter (branch_snapshots m)) base
    (λ o s, merge_balance o s a)) as (B1 & B2 & B3).
  pose proof (merges_max (λ s, snap_nonce s a) (λ o, nonces o !! a) (hm_iter (branch_snapshots m)) base
    (λ o s, merge_nonce o s a)) as (N1 & N2 & N3).
  assert (Hit : ∀ i o, (i, o) ∈ hm_iter (branch_snapshots m) ↔ branch_snapshots m !! i = Some o)
    by (intros; by rewrite hm_iter_perm, elem_of_map_to_list).
  split_and!; [done|done| | |].
  - intros i o Ho%Hit. split; eauto.
  - destruct B3 as [B3|(i & o & Hi%Hit & Hk)]; eauto.
  - destruct N3 as [N3|(i & o & Hi%Hit & Hk)]; eauto.
Qed.

(** Merging by maximum creates money: after one branch has made a payment,
    the merged snapshot has the recipient's new balance and the sender's old
    one, so the payment is made of nothing. *)
Theorem merge_mints base t branch i r :
  in_u128 (value t) → in_u128 (fee t) → value t + fee t <= u128_max → from t ≠ to t → address_is_zero (to t) = false →
  0 <= snap_balance base (to t) → snap_balance base (to t) + value t <= u128_max →
  snap_apply t base = (Ok tt, branch) →
  merge_all_branches (MkSnapshots (Some base) {[i := branch]}) = Ok r →
  snap_balance r (from t) = snap_balance base (from t) ∧
  snap_balance r (to t) = snap_balance base (to t) + value t.
Proof.
  intros Hv Hf Hsum Hne Hz Hto Hover Ha Hm. unfold merge_all_branches in Hm. cbn [base_snapshot branch_snapshots] in Hm.
  assert (hm_iter {[i := branch]} = [(i, branch)]) as Hi.
  { apply Permutation_singleton_r. by rewrite hm_iter_perm, map_to_list_singleton. }
  rewrite Hi in Hm. cbn [foldl snd] in Hm. injection Hm as <-. rewrite !merge_balance.
  unfold snap_apply, mbind, SE_bind, se_get in Ha. cbn beta iota zeta in Ha.
  destruct (snap_balance base (from t) <? _) eqn:Hlt; [discriminate|].
  destruct (negb _) eqn:Hn; [discriminate|]. unfold se_mod at 1 in Ha. cbn beta iota in Ha. rewrite Hz in Ha.
  unfold se_mod in Ha. simplify_eq. bool_to_prop.
  assert (Hs : sat_add128 (value t) (fee t) = value t + fee t) by (unfold sat_add128; lia). rewrite Hs in *.
  unfold snap_set_nonce, snap_set_balance. cbn [balances].
  rewrite (lookup_insert_ne _ (to t) (from t)) by congruence. rewrite !lookup_insert_eq.
  unfold in_u128 in *. split; [lia|].
  assert (Hto' : ∀ ns n' t', snap_balance (MkSnapshot (<[from t := snap_balance base (from t) - (value t + fee t)]> (balances base)) ns n' t') (to t)
    = snap_balance base (to t)) by (intros; unfold snap_balance; cbn [balances]; by rewrite lookup_insert_ne).
  rewrite Hto'. unfold sat_add128. lia.
Qed.
End MergeSpec.

Module SnapshotReference.
Import BlockReference.
#[local] Existing Instance canonical_iter.
Definition ex_base : StateSnapshot := from_state {[alice := 1000]} ∅ 1 1.
Definition ex_branch : StateSnapshot := (snap_apply transfer ex_base).2.
Lemma merge_mints_witness :
  ∃ r, merge_all_branches (MkSnapshots (Some ex_base) {[1%nat := ex_branch]}) = Ok r ∧
    snap_balance r alice = 1000 ∧ snap_balance r bob = 100.
Proof.
  eexists. split; [reflexivity|].
  apply (merge_mints ex_base transfer ex_branch 1%nat); try reflexivity; try (vm_compute; discriminate);
    try (vm_compute; split; discriminate).
Defined.
Lemma merge_takes_maximum_witness :
  ∃ r, merge_all_branches (MkSnapshots (Some ex_base) {[1%nat := ex_branch]}) = Ok r ∧
    snap_balance ex_base alice <= snap_balance r alice.
Proof.
  eexists. split; [reflexivity|].
  exact (proj1 (merge_takes_maximum (MkSnapshots (Some ex_base) {[1%nat := ex_branch]}) ex_base _ alice eq_refl eq_refl)).
Defined.
End SnapshotReference.
