(* ===== verification/NodePool.v ===== *)
(** * NodePool: the node's transaction pool with time locks

    Models [irondag-blockchain/src/node/pool.rs]. *)

From S2P Require Import Prelude Types Block.

Record NodePool := MkNodePool { np_transactions : gmap Hash Transaction; np_max_size : nat }.
Definition node_pool_new (max : nat) : NodePool := MkNodePool ∅ max.

Definition node_pool_add (t : Transaction) : SE NodePool string unit :=
  p ← se_get;
  if (np_max_size p <=? size (np_transactions p))%nat then fail "Transaction pool is full"%string else
  se_mod (λ p, MkNodePool (<[tx_hash t := t]> (np_transactions p)) (np_max_size p)).
Definition node_pool_get (p : NodePool) (h : Hash) : option Transaction := np_transactions p !! h.
Definition node_pool_remove (h : Hash) (p : NodePool) : option Transaction * NodePool :=
  (np_transactions p !! h, MkNodePool (delete h (np_transactions p)) (np_max_size p)).

(** A lock too far in the future; the sums wrap. *)
Definition lock_expired (current_block current_timestamp max_future : u64) (t : Transaction) : bool :=
  match execute_at_block t with Some b => add64 current_block max_future <? b | None => false end
  || match execute_at_timestamp t with Some ts => add64 current_timestamp 31536000 <? ts | None => false end.
Definition cleanup_expired (current_block current_timestamp max_future : u64) (p : NodePool) : NodePool :=
  MkNodePool (filter (λ ht, lock_expired current_block current_timestamp max_future ht.2 = false) (np_transactions p)) (np_max_size p).

Section Ready.
Context `{HashIter}.
Definition get_ready_transactions (p : NodePool) (current_block current_timestamp : u64) : list Transaction :=
  List.filter (λ t, is_ready_to_execute t current_block current_timestamp) (snd <$> hm_iter (np_transactions p)).
Definition get_all (p : NodePool) : list Transaction := snd <$> hm_iter (np_transactions p).
End Ready.

(** ** Properties *)

Inductive node_pool_step : NodePool → NodePool → Prop :=
| np_add t p : node_pool_step p (node_pool_add t p).2
| np_remove h p : node_pool_step p (node_pool_remove h p).2
| np_cleanup b ts m p : node_pool_step p (cleanup_expired b ts m p).

Definition node_pool_ok (p : NodePool) : Prop :=
  (size (np_transactions p) <= np_max_size p)%nat ∧ map_Forall (λ h t, tx_hash t = h) (np_transactions p).

Lemma node_pool_step_ok p p' : node_pool_ok p → node_pool_step p p' → node_pool_ok p'.
Proof.
  intros [Hs Hk] Hstep. destruct Hstep as [t p|h p|b ts m p].
  - unfold node_pool_add, mbind, SE_bind, se_get. cbn beta iota. destruct (Nat.leb_spec (np_max_size p) (size (np_transactions p))); [done|].
    split; cbn; [|by apply map_Forall_insert_2].
    destruct (np_transactions p !! tx_hash t) eqn:Hl; [rewrite map_size_insert_Some by eauto|rewrite map_size_insert_None by done]; lia.
  - split; cbn; [|by apply map_Forall_delete]. etransitivity; [|exact Hs]. apply map_subseteq_size, delete_subseteq.
  - split; cbn; [|intros h t [Ht _]%map_lookup_filter_Some; by apply Hk]. etransitivity; [|exact Hs]. apply map_subseteq_size, map_filter_subseteq.
Qed.

(** The pool never grows past its limit, keeps each transaction under its
    hash, and hands out for execution exactly the transactions whose time locks
    have passed. *)
Theorem node_pool_sound `{HashIter} max p b ts : rtc node_pool_step (node_pool_new max) p →
  (size (np_transactions p) <= np_max_size p)%nat ∧
  ∀ t, t ∈ get_ready_transactions p b ts ↔ np_transactions p !! tx_hash t = Some t ∧ is_ready_to_execute t b ts = true.
Proof.
  intros Hr. assert (Hok : node_pool_ok p).
  { apply rtc_ind_r with (P := node_pool_ok) in Hr; [done| |].
    - split; cbn; [rewrite map_size_empty; lia|apply map_Forall_empty].
    - intros y z _ Hyz Hy. by eapply node_pool_step_ok. }
  destruct Hok as [Hs Hk]. split; [done|]. intros t. unfold get_ready_transactions.
  rewrite elem_of_filter_b, list_elem_of_fmap. split.
  - intros [Hready ([h t'] & -> & Hin)]. cbn in *. rewrite hm_iter_perm, elem_of_map_to_list in Hin.
    by rewrite (Hk h t' Hin).
  - intros [Hl Hready]. split; [done|]. exists (tx_hash t, t). by rewrite hm_iter_perm, elem_of_map_to_list.
Qed.

(** A transaction that could be executed now is thrown out by the cleanup when
    the sum of the current block and the window wraps around. *)
Lemma cleanup_drops_ready t : execute_at_block t = Some 5 → execute_at_timestamp t = None →
  is_ready_to_execute t u64_max 0 = true → lock_expired u64_max 0 1 t = true.
Proof. intros Hb Ht _. unfold lock_expired. by rewrite Hb, Ht. Qed.

Module NodePoolReference.
Import BlockReference.
#[local] Existing Instance canonical_iter.
Lemma node_pool_sound_witness :
  (size (np_transactions (node_pool_add transfer (node_pool_new 3)).2) <= 3)%nat.
Proof. exact (proj1 (node_pool_sound 3 (node_pool_add transfer (node_pool_new 3)).2 0 0 (rtc_once _ _ (np_add _ _)))). Defined.
End NodePoolReference.
