(* ===== verification/Hardening.v ===== *)
(** * Hardening: request limits, bans and blacklists per client

    Models [irondag-blockchain/src/security/hardening.rs].  An [Instant] is a
    number of nanoseconds; an operation that reads the clock several times takes
    the reading of each place. *)

From S2P Require Import Prelude Types Float64 RateLimit.

Record SecurityConfig := MkSecurity {
  max_requests_per_minute : u32;
  max_requests_per_hour : u32;
  max_concurrent_connections : u32;
  request_timeout_seconds : u64;
  max_request_size : nat;
  enable_whitelist : bool;
  enable_blacklist : bool;
  auto_ban_threshold : u32;
  ban_duration_seconds : u64 }.
Definition security_default : SecurityConfig := MkSecurity 60 1000 10 30 (10 * 1024 * 1024) false true 10 3600.

(** Where the clock is read. *)
Inductive Reading := RNew | RCleanup | RReset | RBanned | RViolation | RPatternNew | RPattern | RRecord.

(** ** One client *)

Record IpRateLimit := MkIpLimit {
  requests_minute : list Z; requests_hour : list Z; concurrent_connections : u32; violations : u32;
  banned_until : option Z; il_last_seen : Z }.
Definition ip_limit_new (now : Z) : IpRateLimit := MkIpLimit [] [] 0 0 None now.

Definition il_cleanup (now : Z) (l : IpRateLimit) : IpRateLimit :=
  MkIpLimit (List.filter (λ t, now - from_secs 60 <? t) (requests_minute l)) (List.filter (λ t, now - from_secs 3600 <? t) (requests_hour l))
    (concurrent_connections l) (violations l) (banned_until l) (il_last_seen l).
Definition is_banned (now : Z) (l : IpRateLimit) : bool := match banned_until l with Some b => now <? b | None => false end.
Definition record_violation (cfg : SecurityConfig) (now : Z) (l : IpRateLimit) : IpRateLimit :=
  let v := add32 (violations l) 1 in
  MkIpLimit (requests_minute l) (requests_hour l) (concurrent_connections l) v
    (if auto_ban_threshold cfg <=? v then Some (now + from_secs (ban_duration_seconds cfg)) else banned_until l) (il_last_seen l).
Definition reset_violations (now : Z) (l : IpRateLimit) : IpRateLimit :=
  match banned_until l with
  | Some b => if b <=? now
      then MkIpLimit (requests_minute l) (requests_hour l) (concurrent_connections l) 0 None (il_last_seen l) else l
  | None => l
  end.
Definition record_request (now : Z) (l : IpRateLimit) : IpRateLimit :=
  MkIpLimit (requests_minute l ++ [now]) (requests_hour l ++ [now]) (concurrent_connections l) (violations l) (banned_until l) now.

Record AttackPattern := MkPattern {
  failed_requests : u32; rate_limit_hits : u32; invalid_requests : u32; ap_first_seen : Z; ap_last_seen : Z }.
Definition pattern_new (now : Z) : AttackPattern := MkPattern 0 0 0 now now.
Definition is_attack (p : AttackPattern) : bool :=
  let total := add32 (add32 (failed_requests p) (rate_limit_hits p)) (invalid_requests p) in
  (10 <? total) && f_ltb (f_lit 1 2) (f_div (f_of_Z (add32 (failed_requests p) (rate_limit_hits p))) (f_of_Z total)).

(** ** The manager *)

Inductive SecurityError := Blacklisted | Banned | RateLimitExceeded | RequestTooLarge | TooManyConnections | SecTimeout.
Inductive AttackEvent := FailedRequest | RateLimitHit | InvalidRequest.

Record SecurityHardening := MkHardening {
  sh_config : SecurityConfig;
  ip_limits : gmap IpAddr IpRateLimit;
  whitelist : gset IpAddr;
  blacklist : gset IpAddr;
  attack_patterns : gmap IpAddr AttackPattern }.
Definition hardening_new (c : SecurityConfig) : SecurityHardening := MkHardening c ∅ ∅ ∅ ∅.
Definition set_limit (ip : IpAddr) (l : IpRateLimit) (h : SecurityHardening) : SecurityHardening :=
  MkHardening (sh_config h) (<[ip := l]> (ip_limits h)) (whitelist h) (blacklist h) (attack_patterns h).

Definition whitelist_ip (ip : IpAddr) (h : SecurityHardening) : SecurityHardening :=
  MkHardening (sh_config h) (ip_limits h) ({[ip]} ∪ whitelist h) (blacklist h) (attack_patterns h).
Definition unwhitelist_ip (ip : IpAddr) (h : SecurityHardening) : SecurityHardening :=
  MkHardening (sh_config h) (ip_limits h) (whitelist h ∖ {[ip]}) (blacklist h) (attack_patterns h).
Definition blacklist_ip (ip : IpAddr) (h : SecurityHardening) : SecurityHardening :=
  MkHardening (sh_config h) (ip_limits h) (whitelist h) ({[ip]} ∪ blacklist h) (attack_patterns h).
Definition unblacklist_ip (ip : IpAddr) (h : SecurityHardening) : SecurityHardening :=
  MkHardening (sh_config h) (ip_limits h) (whitelist h) (blacklist h ∖ {[ip]}) (attack_patterns h).

Definition record_attack_pattern (ip : IpAddr) (e : AttackEvent) (clock : Reading → Z) (h : SecurityHardening) : SecurityHardening :=
  let p := default (pattern_new (clock RPatternNew)) (attack_patterns h !! ip) in
  let p := match e with
           | FailedRequest => MkPattern (add32 (failed_requests p) 1) (rate_limit_hits p) (invalid_requests p) (ap_first_seen p) (clock RPattern)
           | RateLimitHit => MkPattern (failed_requests p) (add32 (rate_limit_hits p) 1) (invalid_requests p) (ap_first_seen p) (clock RPattern)
           | InvalidRequest => MkPattern (failed_requests p) (rate_limit_hits p) (add32 (invalid_requests p) 1) (ap_first_seen p) (clock RPattern)
           end in
  let h := MkHardening (sh_config h) (ip_limits h) (whitelist h) (blacklist h) (<[ip := p]> (attack_patterns h)) in
  if is_attack p && enable_blacklist (sh_config h) then blacklist_ip ip h else h.
Definition record_failed_request (ip : IpAddr) : (Reading → Z) → SecurityHardening → SecurityHardening := record_attack_pattern ip FailedRequest.
Definition record_invalid_request (ip : IpAddr) : (Reading → Z) → SecurityHardening → SecurityHardening := record_attack_pattern ip InvalidRequest.

(** The limit was hit: the violation and the pattern are recorded. *)
Definition limit_hit (ip : IpAddr) (clock : Reading → Z) (l : IpRateLimit) (h : SecurityHardening) : result SecurityError unit * SecurityHardening :=
  (Err RateLimitExceeded,
   record_attack_pattern ip RateLimitHit clock (set_limit ip (record_violation (sh_config h) (clock RViolation) l) h)).

Definition check_ip (ip : IpAddr) (clock : Reading → Z) : SE SecurityHardening SecurityError unit := λ h,
  let cfg := sh_config h in
  if enable_blacklist cfg && bool_decide (ip ∈ blacklist h) then (Err Blacklisted, h) else
  if enable_whitelist cfg && bool_decide (ip ∈ whitelist h) then (Ok tt, h) else
  let l := default (ip_limit_new (clock RNew)) (ip_limits h !! ip) in
  let l := reset_violations (clock RReset) (il_cleanup (clock RCleanup) l) in
  if is_banned (clock RBanned) l then (Err Banned, set_limit ip l h) else
  if max_requests_per_minute cfg <=? Z.of_nat (length (requests_minute l)) then limit_hit ip clock l h else
  if max_requests_per_hour cfg <=? Z.of_nat (length (requests_hour l)) then limit_hit ip clock l h else
  (Ok tt, set_limit ip (record_request (clock RRecord) l) h).

Definition check_request_size (h : SecurityHardening) (size : nat) : result SecurityError unit :=
  if (max_request_size (sh_config h) <? size)%nat then Err RequestTooLarge else Ok tt.

Record IpSecurityStats := MkIpStats {
  requests_per_minute : u32; requests_per_hour : u32; st_connections : u32; st_violations : u32;
  st_banned : bool; st_whitelisted : bool; st_blacklisted : bool; attack_score : f64 }.
Definition get_ip_stats (h : SecurityHardening) (ip : IpAddr) (now : Z) : option IpSecurityStats :=
  l ← ip_limits h !! ip;
  Some (MkIpStats (Z.of_nat (length (requests_minute l)) mod (u32_max + 1)) (Z.of_nat (length (requests_hour l)) mod (u32_max + 1))
    (concurrent_connections l) (violations l) (is_banned now l) (bool_decide (ip ∈ whitelist h)) (bool_decide (ip ∈ blacklist h))
    (match attack_patterns h !! ip with
     | Some p => f_of_Z (add32 (add32 (failed_requests p) (rate_limit_hits p)) (invalid_requests p))
     | None => f_zero
     end)).
Definition hardening_cleanup (now : Z) (h : SecurityHardening) : SecurityHardening :=
  let threshold := now - from_secs (3600 * 24) in
  MkHardening (sh_config h) (filter (λ il, threshold < il_last_seen il.2) (ip_limits h)) (whitelist h) (blacklist h)
    (filter (λ ip, threshold < ap_last_seen ip.2) (attack_patterns h)).
Definition update_config (c : SecurityConfig) (h : SecurityHardening) : SecurityHardening :=
  MkHardening c (ip_limits h) (whitelist h) (blacklist h) (attack_patterns h).

(** ** Sliding windows *)

(** Checks of many clients, one after the other: when the requests of [ip] that
    were let through were recorded. *)
Fixpoint accepted_times (ip : IpAddr) (reqs : list (IpAddr * (Reading → Z))) (h : SecurityHardening) : list Z :=
  match reqs with
  | [] => []
  | (ip', clock) :: reqs' =>
      let '(r, h') := check_ip ip' clock h in
      (if is_ok r && bool_decide (ip' = ip) then [clock RRecord] else []) ++ accepted_times ip reqs' h'
  end.
(** The clock does not run backwards. *)
Fixpoint clocks_ok (last : Z) (reqs : list (IpAddr * (Reading → Z))) : Prop :=
  match reqs with
  | [] => True
  | (_, clock) :: reqs' => last <= clock RCleanup ∧ clock RCleanup <= clock RRecord ∧ clocks_ok (clock RRecord) reqs'
  end.
Definition within (x w : Z) (l : list Z) : nat := length (List.filter (λ t, (x <? t) && (t <=? x + w)) l).
Definition newer (x : Z) (l : list Z) : list Z := List.filter (λ t, x <? t) l.

Lemma times_within_app x w l1 l2 : within x w (l1 ++ l2) = (within x w l1 + within x w l2)%nat.
Proof. unfold within. by rewrite List.filter_app, length_app. Qed.
Lemma newer_newer x y l : x <= y → newer y (newer x l) = newer y l.
Proof.
  intros Hxy. unfold newer. induction l as [|t l IH]; [done|]. cbn.
  destruct (Z.ltb_spec x t), (Z.ltb_spec y t); cbn; rewrite ?IH; try done.
  - by destruct (Z.ltb_spec y t); [|lia].
  - by destruct (Z.ltb_spec y t); [lia|].
  - lia.
Qed.
Lemma newer_app x l1 l2 : newer x (l1 ++ l2) = newer x l1 ++ newer x l2.
Proof. apply List.filter_app. Qed.
Lemma within_newer x w y l : y <= x → (within x w l <= length (newer y l))%nat.
Proof.
  intros Hy. unfold within, newer. induction l as [|t l IH]; [done|]. cbn.
  destruct (Z.ltb_spec x t), (Z.ltb_spec y t), (Z.leb_spec t (x + w)); cbn; lia.
Qed.

(** What is remembered of a client; a client never seen has made no request. *)
Definition remembered (get : IpRateLimit → list Z) (h : SecurityHardening) (ip : IpAddr) : list Z :=
  match ip_limits h !! ip with Some l => get l | None => [] end.

Lemma record_attack_pattern_frame ip e ck h :
  ip_limits (record_attack_pattern ip e ck h) = ip_limits h ∧ sh_config (record_attack_pattern ip e ck h) = sh_config h.
Proof. unfold record_attack_pattern, blacklist_ip. cbv zeta. destruct (_ && _); destruct e; done. Qed.

(** The two windows a check maintains. *)
Inductive window : (IpRateLimit → list Z) → Z → (SecurityConfig → Z) → Prop :=
| window_minute : window requests_minute (from_secs 60) max_requests_per_minute
| window_hour : window requests_hour (from_secs 3600) max_requests_per_hour.

Lemma check_ip_other ip ip' ck h get : ip' ≠ ip → remembered get (check_ip ip' ck h).2 ip = remembered get h ip.
Proof.
  intros Hne. unfold check_ip, limit_hit, remembered. cbv zeta.
  repeat match goal with |- context [if ?b then _ else _] => destruct b end; cbn [snd];
    rewrite ?(proj1 (record_attack_pattern_frame _ _ _ _)); cbn [ip_limits set_limit]; rewrite ?lookup_insert_ne by done; done.
Qed.
Lemma check_ip_config ip ck h : sh_config (check_ip ip ck h).2 = sh_config h.
Proof.
  unfold check_ip, limit_hit. cbv zeta.
  repeat match goal with |- context [if ?b then _ else _] => destruct b end; cbn [snd]; try done;
    by rewrite (proj2 (record_attack_pattern_frame _ _ _ _)).
Qed.

Lemma check_ip_self ip ck h get w max : window get w max → enable_whitelist (sh_config h) = false →
  let '(r, h') := check_ip ip ck h in
  let kept := newer (ck RCleanup - w) (remembered get h ip) in
  match r with
  | Ok _ => remembered get h' ip = kept ++ [ck RRecord] ∧ Z.of_nat (length kept) < max (sh_config h)
  | Err _ => remembered get h' ip = kept ∨ remembered get h' ip = remembered get h ip
  end.
Proof.
  intros Hw Hwl. unfold check_ip. cbv zeta. rewrite Hwl. cbn [andb].
  set (l0 := default (ip_limit_new (ck RNew)) (ip_limits h !! ip)).
  assert (H0 : remembered get h ip = get l0).
  { unfold remembered, l0. destruct (ip_limits h !! ip); [done|]. by destruct Hw. }
  assert (Hl : get (reset_violations (ck RReset) (il_cleanup (ck RCleanup) l0)) = newer (ck RCleanup - w) (get l0)).
  { unfold reset_violations, il_cleanup. cbn [banned_until]. destruct (banned_until l0); [destruct (_ <=? _)|]; by destruct Hw. }
  set (l := reset_violations _ _) in *. rewrite H0, <- Hl. clearbody l. clear Hl.
  destruct (enable_blacklist _ && _); [right; exact H0|]. destruct (is_banned _ l).
  { left. unfold remembered. cbn. by rewrite lookup_insert_eq. }
  assert (Hhit : remembered get (limit_hit ip ck l h).2 ip = get l).
  { unfold limit_hit, remembered. cbn [snd]. rewrite (proj1 (record_attack_pattern_frame _ _ _ _)). cbn [ip_limits set_limit].
    rewrite lookup_insert_eq. by destruct Hw. }
  destruct (Z.leb_spec (max_requests_per_minute (sh_config h)) (Z.of_nat (length (requests_minute l)))); [by left|].
  destruct (Z.leb_spec (max_requests_per_hour (sh_config h)) (Z.of_nat (length (requests_hour l)))); [by left|].
  unfold remembered. cbn [ip_limits set_limit]. rewrite lookup_insert_eq. by destruct Hw.
Qed.

Lemma windows_hold ip get w max reqs : window get w max → ∀ h past c last,
  enable_whitelist (sh_config h) = false → 0 <= max (sh_config h) →
  newer (c - w) (remembered get h ip) = newer (c - w) past → c <= last → clocks_ok last reqs →
  (∀ x, Z.of_nat (within x w past) <= max (sh_config h)) →
  ∀ x, Z.of_nat (within x w (past ++ accepted_times ip reqs h)) <= max (sh_config h).
Proof.
  intros Hw. induction reqs as [|[ip' ck] reqs IH]; intros h past c last Hwl Hm Hinv Hc Hck Hpast x; cbn [accepted_times].
  { by rewrite app_nil_r. }
  destruct Hck as (Hk1 & Hk2 & Hck). pose proof (check_ip_config ip' ck h) as Hcfg.
  assert (Hstep : newer (ck RCleanup - w) (remembered get h ip) = newer (ck RCleanup - w) past).
  { rewrite <- (newer_newer (c - w) (ck RCleanup - w)), Hinv by lia. apply newer_newer. lia. }
  destruct (decide (ip' = ip)) as [->|Hne].
  - pose proof (check_ip_self ip ck h get w max Hw Hwl) as Hself.
    destruct (check_ip ip ck h) as [[u|e] h'] eqn:Hr; cbn [snd] in Hcfg; rewrite <- Hcfg in *.
    + rewrite bool_decide_eq_true_2 by done. cbn [is_ok andb]. destruct Hself as [Hrem Hlt]. rewrite app_assoc.
      apply (IH h' (past ++ [ck RRecord]) (ck RCleanup) (ck RRecord)); try done.
      * rewrite Hrem, !newer_app, newer_newer, Hstep by lia. done.
      * intros y. rewrite times_within_app. rewrite Hstep in Hlt.
        pose proof (within_newer y w (ck RCleanup - w) past) as Hn. specialize (Hpast y).
        unfold within at 2. cbn. destruct (Z.ltb_spec y (ck RRecord)), (Z.leb_spec (ck RRecord) (y + w)); cbn; lia.
    + cbn [is_ok andb app]. apply (IH h' past (ck RCleanup) (ck RRecord)); try done.
      destruct Hself as [->| ->]; [by rewrite newer_newer by lia|done].
  - pose proof (check_ip_other ip ip' ck h get Hne) as Ho.
    destruct (check_ip ip' ck h) as [r h'] eqn:Hr. cbn [snd] in *. rewrite <- Hcfg in *.
    rewrite bool_decide_eq_false_2, andb_false_r by done. cbn [app].
    apply (IH h' past (ck RCleanup) (ck RRecord)); try done. by rewrite Ho.
Qed.


(** ** Bans *)

(** Until a ban ends, every request of the banned client is refused, and
    the ban stays. *)
Theorem ban_refuses ip ck h l b : ip_limits h !! ip = Some l → banned_until l = Some b →
  ck RReset < b → ck RBanned < b → enable_whitelist (sh_config h) = false →
  ∃ e h', check_ip ip ck h = (Err e, h') ∧ (e = Banned ∨ e = Blacklisted) ∧
    ∃ l', ip_limits h' !! ip = Some l' ∧ banned_until l' = Some b.
Proof.
  intros Hl Hb Hr Hn Hwl. unfold check_ip. cbv zeta. rewrite Hwl, Hl. cbn [andb default]. unfold id.
  destruct (enable_blacklist _ && _); [eexists _, _; split; [done|]; split; [by right|eauto]|].
  set (l1 := il_cleanup (ck RCleanup) l). assert (Hb1 : banned_until l1 = Some b) by done.
  assert (Hreset : reset_violations (ck RReset) l1 = l1).
  { unfold reset_violations. rewrite Hb1. by destruct (Z.leb_spec b (ck RReset)); [lia|]. }
  rewrite Hreset. unfold is_banned. rewrite Hb1. destruct (Z.ltb_spec (ck RBanned) b); [|lia].
  eexists _, _. split; [done|]. split; [by left|]. exists l1. cbn. by rewrite lookup_insert_eq.
Qed.
Lemma violation_bans cfg now l : auto_ban_threshold cfg <= add32 (violations l) 1 →
  banned_until (record_violation cfg now l) = Some (now + from_secs (ban_duration_seconds cfg)).
Proof. intros Hv. unfold record_violation. cbv zeta. cbn [banned_until]. by destruct (Z.leb_spec (auto_ban_threshold cfg) (add32 (violations l) 1)); [|lia]. Qed.

Module HardeningReference.
Definition localhost : IpAddr := MkIp [127; 0; 0; 1].
Definition at_time (t : Z) (r : Reading) : Z := t.
Definition strict : SecurityConfig := MkSecurity 2 1000 10 30 1000 false true 10 3600.
Definition ex_reqs : list (IpAddr * (Reading → Z)) :=
  [(localhost, at_time 1); (localhost, at_time 2); (localhost, at_time 3); (localhost, at_time (from_secs 61))].

Definition ban_until : IpRateLimit := MkIpLimit [] [] 0 10 (Some 100) 0.
Lemma ban_refuses_witness :
  ∃ e h', check_ip localhost (at_time 50) (set_limit localhost ban_until (hardening_new strict)) = (Err e, h').
Proof.
  destruct (ban_refuses localhost (at_time 50) (set_limit localhost ban_until (hardening_new strict)) ban_until 100)
    as (e & h' & He & _); try (unfold at_time; lia); try (vm_compute; reflexivity).
  exists e, h'. exact He.
Defined.
End HardeningReference.
