(* ===== verification/Security.v ===== *)
(** * Security: fraud rules, risk scores and policies

    Models [irondag-blockchain/src/security]: [fraud_detection.rs],
    [risk_scoring.rs] and [policies.rs].  Scores are IEEE doubles. *)

From stdpp Require Import pretty.
From S2P Require Import Prelude Types Block Float64.

(** ** Fraud rules *)

Inductive PatternRule := HoneypotPattern | MixerPattern | PhishingPattern | SuspiciousValuePattern.
Record FraudDetector := MkDetector { known_malicious_addresses : gmap Address string; pattern_rules : list PatternRule }.
Definition detector_new : FraudDetector :=
  MkDetector ∅ [HoneypotPattern; MixerPattern; PhishingPattern; SuspiciousValuePattern].
Definition add_malicious_address (a : Address) (reason : string) (d : FraudDetector) : FraudDetector :=
  MkDetector (<[a := reason]> (known_malicious_addresses d)) (pattern_rules d).

Definition rule_matches (r : PatternRule) (t : Transaction) : bool :=
  let empty := bool_decide (data t = []) in
  match r with
  | HoneypotPattern => address_is_zero (to t) && (value t <? 1000) && negb empty
  | MixerPattern => (0 <? value t) && (value t mod 1000 =? 0) && empty
  | PhishingPattern => negb empty && (length (data t) <? 100)%nat && (value t =? 0)
  | SuspiciousValuePattern => (value t =? 0) || (1000000000000000000000000000 <? value t)
  end.
Definition risk_weight (r : PatternRule) : f64 :=
  match r with
  | HoneypotPattern => f_lit 6 10 | MixerPattern => f_lit 7 10 | PhishingPattern => f_lit 9 10 | SuspiciousValuePattern => f_lit 3 10
  end.
Definition rule_label (r : PatternRule) : string :=
  match r with
  | HoneypotPattern => "honeypot_pattern" | MixerPattern => "mixer_pattern"
  | PhishingPattern => "phishing_pattern" | SuspiciousValuePattern => "suspicious_value_pattern"
  end.

Record FraudAnalysis := MkFraud { fa_risk_score : f64; fa_labels : list string }.
(** [if c { score += w; labels.push(l) }] *)
Definition weigh (c : bool) (w : f64) (l : string) (acc : f64 * list string) : f64 * list string :=
  if c then (f_add acc.1 w, acc.2 ++ [l]) else acc.
Definition fraud_analyze (d : FraudDetector) (t : Transaction) : FraudAnalysis :=
  let known a := bool_decide (is_Some (known_malicious_addresses d !! a)) in
  let acc := (f_zero, []) in
  let acc := weigh (known (from t)) (f_lit 8 10) "known_malicious_address" acc in
  let acc := weigh (known (to t)) (f_lit 7 10) "sending_to_malicious_address" acc in
  let acc := foldl (λ acc r, weigh (rule_matches r t) (risk_weight r) (rule_label r) acc) acc (pattern_rules d) in
  MkFraud (f_min acc.1 f_one) acc.2.

(** ** Risk scores *)

Record RiskScore := MkRisk { rs_score : f64; rs_confidence : f64; rs_labels : list string }.
Record AddressHistory := MkHistory {
  suspicious_tx_count : u64; total_tx_count : u64; ah_total_value : u128; ah_first_seen : u64; ah_last_seen : u64;
  unique_recipients : u64 }.
Definition history_new (ts : u64) : AddressHistory := MkHistory 0 0 0 ts ts 0.
Definition history_record (t : Transaction) (suspicious : bool) (ts : u64) (h : AddressHistory) : AddressHistory :=
  MkHistory (if suspicious then add64 (suspicious_tx_count h) 1 else suspicious_tx_count h) (add64 (total_tx_count h) 1)
    (sat_add128 (ah_total_value h) (value t)) (ah_first_seen h) ts (unique_recipients h).

Record RiskScorer := MkScorer { fraud_detector : FraudDetector; address_history : gmap Address AddressHistory }.
Definition scorer_new : RiskScorer := MkScorer detector_new ∅.
(** [get_or_create_history(a, ts)], changed by [f]. *)
Definition on_history (a : Address) (ts : u64) (f : AddressHistory → AddressHistory) (s : RiskScorer) : RiskScorer :=
  MkScorer (fraud_detector s) (<[a := f (default (history_new ts) (address_history s !! a))]> (address_history s)).
Definition scorer_record (t : Transaction) (ts : u64) (s : RiskScorer) : RiskScorer :=
  let suspicious := f_ltb (f_lit 1 2) (fa_risk_score (fraud_analyze (fraud_detector s) t)) in
  let s := on_history (from t) ts (history_record t suspicious ts) s in
  if address_is_zero (to t) then s else on_history (to t) ts (history_record t suspicious ts) s.

Definition score_address (s : RiskScorer) (a : Address) : RiskScore :=
  match address_history s !! a with
  | None => MkRisk (f_min f_zero f_one) (f_lit 3 10) ["no_history"%string]
  | Some h =>
      let ratio := f_div (f_of_Z (suspicious_tx_count h)) (f_of_Z (total_tx_count h)) in
      let acc := (f_zero, []) in
      let acc := if 0 <? total_tx_count h
        then if f_ltb (f_lit 1 2) ratio then weigh true (f_lit 6 10) "high_suspicious_activity" acc
             else weigh (f_ltb (f_lit 2 10) ratio) (f_lit 3 10) "moderate_suspicious_activity" acc
        else acc in
      let acc := weigh (1000000000000000000000 <? ah_total_value h) (f_lit 2 10) "high_value_address" acc in
      let acc := weigh ((total_tx_count h <? 5) && (ah_total_value h <? 1000)) (f_lit 2 10) "new_address" acc in
      let acc := weigh ((100 <? unique_recipients h) && (200 <? total_tx_count h)) (f_lit 4 10) "high_recipient_diversity" acc in
      MkRisk (f_min acc.1 f_one) (f_lit 8 10) acc.2
  end.

(** [labels.sort(); labels.dedup()] *)
Definition string_leb (x y : string) : bool := match String.compare x y with Gt => false | _ => true end.
Fixpoint dedup (l : list string) : list string :=
  match l with
  | [] => []
  | x :: l' => match l' with
               | y :: _ => if bool_decide (x = y) then dedup l' else x :: dedup l'
               | [] => [x]
               end
  end.
Definition score_transaction (s : RiskScorer) (t : Transaction) : RiskScore :=
  let fraud := fraud_analyze (fraud_detector s) t in
  let sender := score_address s (from t) in
  let receiver := if address_is_zero (to t) then MkRisk f_zero f_zero ["contract_deployment"%string] else score_address s (to t) in
  let combined := f_min (f_add (f_add (f_mul (fa_risk_score fraud) (f_lit 1 2)) (f_mul (rs_score sender) (f_lit 3 10)))
                               (f_mul (rs_score receiver) (f_lit 2 10))) f_one in
  MkRisk combined (f_lit 7 10) (dedup (sort_by string_leb (fa_labels fraud ++ rs_labels sender ++ rs_labels receiver))).
Definition score_contract (s : RiskScorer) (a : Address) : RiskScore :=
  let r := score_address s a in
  MkRisk (rs_score r) (f_mul (rs_confidence r) (f_lit 7 10)) (rs_labels r ++ ["contract_address"%string]).

(** ** Policies *)

Inductive PolicyType :=
| MaxRiskScore (threshold : f64)
| RequireRiskSummary (contract_address : Address)
| BlockAddress (addresses : list Address)
| BlockRiskLabels (labels : list string)
| MinConfidence (threshold : f64)
| CustomPolicy (policy_id : string).
Inductive PolicyAction := Reject (reason : string) | Warn (message : string) | RequireConfirmation (message : string) | Log (message : string).
Record SecurityPolicy := MkPolicy {
  sp_id : string; sp_name : string; sp_owner : Address; policy_type : PolicyType; sp_action : PolicyAction; sp_enabled : bool;
  sp_metadata : gmap string string }.
Record PolicyEvaluation := MkEvaluation {
  triggered : bool; pe_policy : option SecurityPolicy; pe_action : option PolicyAction; pe_message : string }.
Record SecurityPolicyManager := MkPolicies {
  policies_by_owner : gmap Address (list SecurityPolicy); global_policies : list SecurityPolicy; policy_counter : u64 }.
Definition policies_new : SecurityPolicyManager := MkPolicies ∅ [] 0.

Definition type_valid (p : PolicyType) : result string unit :=
  match p with
  | MaxRiskScore t => ensure (negb (f_ltb t f_zero || f_ltb f_one t)) "Risk score threshold must be between 0.0 and 1.0"%string
  | MinConfidence t => ensure (negb (f_ltb t f_zero || f_ltb f_one t)) "Confidence threshold must be between 0.0 and 1.0"%string
  | BlockAddress l => ensure (negb (bool_decide (l = []))) "Block address list cannot be empty"%string
  | BlockRiskLabels l => ensure (negb (bool_decide (l = []))) "Block risk labels list cannot be empty"%string
  | _ => Ok tt
  end.
(** The policies kept for an owner; the zero address owns the global ones. *)
Definition policies_of (m : SecurityPolicyManager) (owner : Address) : list SecurityPolicy :=
  if address_is_zero owner then global_policies m else default [] (policies_by_owner m !! owner).
Definition validate_policy (m : SecurityPolicyManager) (p : SecurityPolicy) : result string unit :=
  _ ← type_valid (policy_type p);
  ensure (negb (existsb (λ q, bool_decide (sp_id q = sp_id p)) (policies_of m (sp_owner p)))) "Policy ID already exists"%string.
Definition add_policy (p : SecurityPolicy) : SE SecurityPolicyManager string string :=
  _ ← se_read (λ m, validate_policy m p);
  _ ← se_mod (λ m,
        if address_is_zero (sp_owner p) then MkPolicies (policies_by_owner m) (global_policies m ++ [p]) (policy_counter m)
        else MkPolicies (<[sp_owner p := default [] (policies_by_owner m !! sp_owner p) ++ [p]]> (policies_by_owner m))
               (global_policies m) (policy_counter m));
  mret (sp_id p).
Definition without_id (id : string) (l : list SecurityPolicy) : list SecurityPolicy :=
  List.filter (λ p, negb (bool_decide (sp_id p = id))) l.
Definition remove_policy (owner : Address) (id : string) (m : SecurityPolicyManager) : SecurityPolicyManager :=
  if address_is_zero owner then MkPolicies (policies_by_owner m) (without_id id (global_policies m)) (policy_counter m)
  else MkPolicies (alter (without_id id) owner (policies_by_owner m)) (global_policies m) (policy_counter m).

Definition set_enabled (b : bool) (p : SecurityPolicy) : SecurityPolicy :=
  MkPolicy (sp_id p) (sp_name p) (sp_owner p) (policy_type p) (sp_action p) b (sp_metadata p).
(** [iter_mut().find(|p| p.id == id)]: the first one is changed, if any. *)
Fixpoint enable_first (id : string) (b : bool) (l : list SecurityPolicy) : option (list SecurityPolicy) :=
  match l with
  | [] => None
  | p :: l' => if bool_decide (sp_id p = id) then Some (set_enabled b p :: l') else cons p <$> enable_first id b l'
  end.
Definition set_policy_enabled (owner : Address) (id : string) (b : bool) : SE SecurityPolicyManager string unit :=
  m ← se_get;
  if address_is_zero owner then
    match enable_first id b (global_policies m) with
    | Some l => se_mod (λ m, MkPolicies (policies_by_owner m) l (policy_counter m))
    | None => fail "Policy not found"%string
    end
  else
    match policies_by_owner m !! owner ≫= enable_first id b with
    | Some l => se_mod (λ m, MkPolicies (<[owner := l]> (policies_by_owner m)) (global_policies m) (policy_counter m))
    | None => fail "Policy not found"%string
    end.

Definition generate_policy_id (m : SecurityPolicyManager) : string * SecurityPolicyManager :=
  let n := add64 (policy_counter m) 1 in
  (("policy_" ++ pretty (Z.to_N n))%string, MkPolicies (policies_by_owner m) (global_policies m) n).

Definition get_policies (m : SecurityPolicyManager) (owner : Address) : list SecurityPolicy :=
  global_policies m ++ default [] (policies_by_owner m !! owner).
Definition policy_matches (p : SecurityPolicy) (t : Transaction) (r : RiskScore) : bool :=
  match policy_type p with
  | MaxRiskScore th => f_ltb th (rs_score r)
  | RequireRiskSummary a => bool_decide (to t = a) && f_ltb (rs_confidence r) (f_lit 1 2)
  | BlockAddress l => contains (from t) l || contains (to t) l
  | BlockRiskLabels l => existsb (λ x, contains x (rs_labels r)) l
  | MinConfidence th => f_ltb (rs_confidence r) th
  | CustomPolicy _ => false
  end.
Definition evaluate_transaction (m : SecurityPolicyManager) (t : Transaction) (r : RiskScore) (owner : Address) : PolicyEvaluation :=
  match List.find (λ p, sp_enabled p && policy_matches p t r) (get_policies m owner) with
  | Some p => MkEvaluation true (Some p) (Some (sp_action p)) ("Policy '" ++ sp_name p ++ "' triggered")
  | None => MkEvaluation false None None "No policies triggered"
  end.

(** ** Scores *)

Definition unit_range (x : f64) : bool := f_leb f_zero x && f_leb x f_one.

Lemma fraud_score_range d t : pattern_rules d = pattern_rules detector_new → unit_range (fa_risk_score (fraud_analyze d t)) = true.
Proof.
  intros Hd. unfold fraud_analyze. cbv zeta. rewrite Hd. cbn [pattern_rules detector_new foldl fa_risk_score].
  destruct (bool_decide _), (bool_decide _), (rule_matches HoneypotPattern t), (rule_matches MixerPattern t),
    (rule_matches PhishingPattern t), (rule_matches SuspiciousValuePattern t); vm_compute; reflexivity.
Qed.
Lemma address_score_range s a : unit_range (rs_score (score_address s a)) = true.
Proof.
  unfold score_address. destruct (address_history s !! a) as [h|]; [|vm_compute; reflexivity]. cbv zeta. cbn [rs_score].
  generalize (f_div (f_of_Z (suspicious_tx_count h)) (f_of_Z (total_tx_count h))). intros ratio.
  destruct (0 <? total_tx_count h), (f_ltb (f_lit 1 2) ratio), (f_ltb (f_lit 2 10) ratio),
    (1000000000000000000000 <? ah_total_value h), ((total_tx_count h <? 5) && (ah_total_value h <? 1000)),
    ((100 <? unique_recipients h) && (200 <? total_tx_count h)); vm_compute; reflexivity.
Qed.

Inductive scorer_step : RiskScorer → RiskScorer → Prop :=
| scorer_tx t ts s : scorer_step s (scorer_record t ts s)
| scorer_flag a reason s : scorer_step s (MkScorer (add_malicious_address a reason (fraud_detector s)) (address_history s)).
Lemma scorer_rules s : rtc scorer_step scorer_new s → pattern_rules (fraud_detector s) = pattern_rules detector_new.
Proof.
  intros Hs. apply rtc_ind_r with (P := λ s, pattern_rules (fraud_detector s) = pattern_rules detector_new) in Hs; [done|done|].
  intros y z _ Hyz Hy. destruct Hyz; [|done]. unfold scorer_record. cbv zeta. by destruct (address_is_zero _).
Qed.

(** Whatever was recorded, the fraud score of a transaction and the risk
    score of an address are numbers between 0 and 1, and the combined score of
    a transaction is at most 1. *)
Theorem risk_scores_bounded s t a : rtc scorer_step scorer_new s →
  unit_range (fa_risk_score (fraud_analyze (fraud_detector s) t)) = true ∧ unit_range (rs_score (score_address s a)) = true ∧
  f_leb (rs_score (score_transaction s t)) f_one = true.
Proof.
  intros Hs. split_and!.
  - apply fraud_score_range. by apply scorer_rules.
  - apply address_score_range.
  - unfold score_transaction. cbv zeta. cbn [rs_score]. by apply f_min_leb.
Qed.

(** ** Policies *)

Inductive policy_step : SecurityPolicyManager → SecurityPolicyManager → Prop :=
| step_add p m : policy_step m (add_policy p m).2
| step_remove o id m : policy_step m (remove_policy o id m)
| step_enable o id b m : policy_step m (set_policy_enabled o id b m).2
| step_generate m : policy_step m (generate_policy_id m).2.

Definition bucket_ok (global : bool) (owner : Address) (l : list SecurityPolicy) : Prop :=
  NoDup (sp_id <$> l) ∧ Forall (λ p, type_valid (policy_type p) = Ok tt ∧
    if global then address_is_zero (sp_owner p) = true else sp_owner p = owner ∧ address_is_zero owner = false) l.
Record policies_ok (m : SecurityPolicyManager) : Prop := {
  po_global : bucket_ok true address_zero (global_policies m);
  po_owner : map_Forall (bucket_ok false) (policies_by_owner m) }.

Lemma enable_first_spec id b l l' : enable_first id b l = Some l' →
  sp_id <$> l' = sp_id <$> l ∧ sp_owner <$> l' = sp_owner <$> l ∧ policy_type <$> l' = policy_type <$> l.
Proof.
  revert l'. induction l as [|p l IH]; intros l' Hl; [done|]. cbn in Hl. destruct (bool_decide _); [by simplify_eq|].
  destruct (enable_first id b l) as [l1|]; [|done]. simplify_eq/=. destruct (IH l1 eq_refl) as (-> & -> & ->). done.
Qed.
Lemma bucket_ok_ext g o l l' : sp_id <$> l' = sp_id <$> l → sp_owner <$> l' = sp_owner <$> l →
  policy_type <$> l' = policy_type <$> l → bucket_ok g o l → bucket_ok g o l'.
Proof.
  intros Hi Ho Ht [Hn Hf]. split; [by rewrite Hi|]. apply Forall_lookup. intros i p Hp.
  assert (Hx : ∃ q, l !! i = Some q ∧ sp_owner q = sp_owner p ∧ policy_type q = policy_type p).
  { assert (Ho' : (sp_owner <$> l') !! i = (sp_owner <$> l) !! i) by by rewrite Ho.
    assert (Ht' : (policy_type <$> l') !! i = (policy_type <$> l) !! i) by by rewrite Ht.
    rewrite !list_lookup_fmap, Hp in Ho'. rewrite !list_lookup_fmap, Hp in Ht'. destruct (l !! i) as [q|]; [|done].
    exists q. cbn in *. split; [done|]. split; congruence. }
  destruct Hx as (q & Hq & <- & <-). by eapply Forall_lookup in Hf.
Qed.
Lemma bucket_ok_without g o id l : bucket_ok g o l → bucket_ok g o (without_id id l).
Proof.
  intros [Hn Hf]. unfold without_id. split.
  - eapply sublist_NoDup; [exact Hn|]. clear. induction l as [|p l IH]; cbn; [constructor|].
    destruct (negb _); cbn; by constructor.
  - apply Forall_forall. intros p Hp. apply list_elem_of_In, List.filter_In in Hp as [Hp _].
    rewrite Forall_forall in Hf. by apply Hf, list_elem_of_In.
Qed.
Lemma bucket_ok_snoc g o l p : bucket_ok g o l → existsb (λ q, bool_decide (sp_id q = sp_id p)) l = false →
  type_valid (policy_type p) = Ok tt →
  (if g then address_is_zero (sp_owner p) = true else sp_owner p = o ∧ address_is_zero o = false) → bucket_ok g o (l ++ [p]).
Proof.
  intros [Hn Hf] Hx Ht Ho. split.
  - rewrite fmap_app. apply NoDup_app. split_and!; [done| |apply NoDup_singleton].
    intros id (q & -> & Hq)%list_elem_of_fmap Hin. apply list_elem_of_singleton in Hin.
    apply not_true_iff_false in Hx. apply Hx, existsb_exists. exists q. split; [by apply list_elem_of_In|by apply bool_decide_eq_true].
  - apply Forall_app. split; [done|]. by constructor.
Qed.

Lemma policy_step_ok m m' : policies_ok m → policy_step m m' → policies_ok m'.
Proof.
  intros [Hg Ho]. destruct 1 as [p m|o id m|o id b m|m]; [| | |done].
  - unfold add_policy, mbind, SE_bind, se_read, validate_policy, mbind, result_bind. cbn beta iota.
    destruct (type_valid (policy_type p)) as [[]|e] eqn:Ht; [|done].
    destruct (existsb _ _) eqn:Hx; [done|]. cbn. unfold policies_of in Hx.
    destruct (address_is_zero (sp_owner p)) eqn:Hz; split; cbn; try done.
    + by apply bucket_ok_snoc.
    + apply map_Forall_insert_2; [|done]. apply bucket_ok_snoc; try done.
      destruct (policies_by_owner m !! sp_owner p) as [l|] eqn:Hl; cbn; [by apply Ho in Hl|]. split; constructor.
  - unfold remove_policy. destruct (address_is_zero o); split; cbn; try done.
    + by apply bucket_ok_without.
    + intros a l Hl. destruct (decide (o = a)) as [->|Hne]; [|rewrite lookup_alter_ne in Hl by done; by apply Ho].
      rewrite lookup_alter_eq in Hl. apply fmap_Some in Hl as (l0 & Hl0 & ->). by apply bucket_ok_without, Ho.
  - unfold set_policy_enabled, mbind, SE_bind, se_get. cbn beta iota. destruct (address_is_zero o).
    + destruct (enable_first _ _ _) as [l|] eqn:He; [|done]. apply enable_first_spec in He as (? & ? & ?).
      split; cbn; [by eapply bucket_ok_ext|done].
    + destruct (policies_by_owner m !! o) as [l0|] eqn:Hl0; cbn; [|done].
      destruct (enable_first _ _ _) as [l|] eqn:He; [|done]. apply enable_first_spec in He as (? & ? & ?).
      split; cbn; [done|]. apply map_Forall_insert_2; [|done]. eapply bucket_ok_ext; try done. by apply Ho.
Qed.

(** In every reachable manager the policies of an owner have different
    identifiers and valid settings and belong to that owner; the global ones
    belong to the zero address. *)
Theorem policies_invariant m : rtc policy_step policies_new m → policies_ok m.
Proof.
  intros Hm. apply rtc_ind_r with (P := policies_ok) in Hm; [done| |].
  - split; [split; constructor|apply map_Forall_empty].
  - intros y z _ Hyz Hy. by eapply policy_step_ok.
Qed.

(** An evaluation reports the first enabled matching policy, global ones
    before the owner's, whatever its action: a global policy that only logs
    hides an owner's policy that would reject. *)
Theorem first_policy_decides m t r owner p rest q :
  global_policies m = p :: rest → sp_enabled p = true → policy_matches p t r = true →
  q ∈ default [] (policies_by_owner m !! owner) → sp_enabled q = true → policy_matches q t r = true →
  pe_action (evaluate_transaction m t r owner) = Some (sp_action p) ∧
  triggered (evaluate_transaction m t r owner) = true.
Proof.
  intros Hg He Hm _ _ _. unfold evaluate_transaction, get_policies. rewrite Hg. cbn. by rewrite He, Hm.
Qed.

Module SecurityReference.
Import BlockReference.
Definition ex_policy (id : string) (o : Address) (t : PolicyType) (a : PolicyAction) : SecurityPolicy := MkPolicy id id o t a true ∅.
Definition log_all : SecurityPolicy := ex_policy "log" address_zero (MaxRiskScore f_zero) (Log "seen").
Definition reject_bob : SecurityPolicy := ex_policy "bob" alice (BlockAddress [bob]) (Reject "blocked").
Definition ex_policies : SecurityPolicyManager := (add_policy reject_bob (add_policy log_all policies_new).2).2.
Definition some_risk : RiskScore := MkRisk (f_lit 1 10) f_one [].

Lemma policies_invariant_witness : policies_ok ex_policies.
Proof. apply policies_invariant. eapply rtc_l; [apply step_add|]. apply rtc_once, step_add. Defined.
Lemma first_policy_decides_witness :
  pe_action (evaluate_transaction ex_policies transfer some_risk alice) = Some (Log "seen").
Proof.
  refine (proj1 (first_policy_decides ex_policies transfer some_risk alice log_all [] reject_bob _ _ _ _ _ _)); try (vm_compute; reflexivity).
  vm_compute. left.
Defined.
Lemma risk_scores_bounded_witness :
  unit_range (fa_risk_score (fraud_analyze (fraud_detector (scorer_record transfer 5 scorer_new)) transfer)) = true.
Proof. apply (risk_scores_bounded (scorer_record transfer 5 scorer_new) transfer alice). apply rtc_once, scorer_tx. Defined.
End SecurityReference.
