(* ===== verification/Forensics.v ===== *)
(** * Forensics: transaction index, fund tracing and summaries

    Models [irondag-blockchain/src/security/forensics.rs].  The graph of
    transfers is walked breadth first along simple paths; the order in which
    the targets of an address are visited is that of a hash map. *)

From S2P Require Import Prelude Types Block Float64.

Record ForensicAnalyzer := MkAnalyzer {
  transaction_index : gmap Hash Transaction;
  address_tx_history : gmap Address (list Hash);
  transaction_graph : gmap Address (gmap Address (list Hash)) }.
Definition analyzer_new : ForensicAnalyzer := MkAnalyzer ∅ ∅ ∅.

Definition push_hash (a : Address) (h : Hash) (m : gmap Address (list Hash)) : gmap Address (list Hash) :=
  <[a := default [] (m !! a) ++ [h]]> m.
Definition index_transaction (t : Transaction) (f : ForensicAnalyzer) : ForensicAnalyzer :=
  let h := tx_hash t in
  let hist := push_hash (from t) h (address_tx_history f) in
  if address_is_zero (to t) then MkAnalyzer (<[h := t]> (transaction_index f)) hist (transaction_graph f)
  else MkAnalyzer (<[h := t]> (transaction_index f)) (push_hash (to t) h hist)
         (<[from t := push_hash (to t) h (default ∅ (transaction_graph f !! from t))]> (transaction_graph f)).

(** ** Fund tracing *)

Record FundFlow := MkFlow { ff_path : list Address; ff_transactions : list Hash; ff_total : u128; hop_count : nat }.
(** A path under way, newest address last. *)
Record Trace := MkTrace { tr_path : list Address; tr_txs : list Hash; tr_value : u128; tr_hops : nat }.
(** What the walk has found: complete flows, traces to continue, and the pairs
    of a path and its continuation seen so far (the key is their text). *)
Record Walk := MkWalk { wk_paths : list FundFlow; wk_queue : list Trace; wk_visited : gset (list Address * Address) }.

Section Trace.
Context `{HashIter}.

Definition SIGNIFICANT : u128 := 1000000000000000000.
(** One transaction from the end of a trace to [target]. *)
Definition follow (max_hops : nat) (f : ForensicAnalyzer) (tr : Trace) (target : Address) (w : Walk) (h : Hash) : Walk :=
  match transaction_index f !! h with
  | None => w
  | Some t =>
      if bool_decide ((tr_path tr, target) ∈ wk_visited w) then w else
      let path := tr_path tr ++ [target] in
      let txs := tr_txs tr ++ [h] in
      let total := add128 (tr_value tr) (value t) in
      let visited := {[(tr_path tr, target)]} ∪ wk_visited w in
      if (max_hops <=? tr_hops tr + 1)%nat || (SIGNIFICANT <? total)
      then MkWalk (wk_paths w ++ [MkFlow path txs total (tr_hops tr + 1)]) (wk_queue w) visited
      else MkWalk (wk_paths w) (wk_queue w ++ [MkTrace path txs total (tr_hops tr + 1)]) visited
  end.
Definition follow_target (max_hops : nat) (f : ForensicAnalyzer) (tr : Trace) (w : Walk) (target : Address * list Hash) : Walk :=
  if contains target.1 (tr_path tr) then w else foldl (follow max_hops f tr target.1) w target.2.
(** [current_path.last().unwrap()]: paths are never empty. *)
Definition trace_end (tr : Trace) : option Address := last (tr_path tr).
Definition expand (max_hops : nat) (f : ForensicAnalyzer) (tr : Trace) (w : Walk) : Walk :=
  if (max_hops <=? tr_hops tr)%nat then w else
  match trace_end tr ≫= λ a, transaction_graph f !! a with
  | Some targets => foldl (follow_target max_hops f tr) w (hm_iter targets)
  | None => w
  end.
(** [while !queue.is_empty() && paths.len() < max_paths] *)
Fixpoint trace_loop (fuel : nat) (max_hops max_paths : nat) (f : ForensicAnalyzer) (w : Walk) : option (list FundFlow) :=
  match wk_queue w with
  | [] => Some (wk_paths w)
  | tr :: queue =>
      if (max_paths <=? length (wk_paths w))%nat then Some (wk_paths w) else
      match fuel with
      | O => None
      | S fuel' => trace_loop fuel' max_hops max_paths f (expand max_hops f tr (MkWalk (wk_paths w) queue (wk_visited w)))
      end
  end.
Definition trace_funds (fuel : nat) (f : ForensicAnalyzer) (source : Address) (max_hops max_paths : nat) : option (list FundFlow) :=
  paths ← trace_loop fuel max_hops max_paths f (MkWalk [] [MkTrace [source] [] 0 0] ∅);
  Some (take max_paths (sort_by_key (λ p, - ff_total p) paths)).
End Trace.

(** ** Summaries *)

Record AddressSummary := MkSummary {
  su_address : Address; total_received : u128; total_sent : u128; net_balance : Z; incoming_tx_count : u64;
  outgoing_tx_count : u64; su_contacts : nat; su_first_seen : option u64; su_last_seen : option u64;
  suspicious_patterns : list string; risk_indicators : list string }.
Record Tally := MkTally { ta_received : u128; ta_sent : u128; ta_in : u64; ta_out : u64; ta_contacts : gset Address }.

(** [x as i128] *)
Definition as_i128 (x : Z) : Z := let r := x mod (u128_max + 1) in if r <=? u128_max / 2 then r else r - (u128_max + 1).
Definition tally_tx (f : ForensicAnalyzer) (a : Address) (s : Tally) (h : Hash) : Tally :=
  match transaction_index f !! h with
  | None => s
  | Some t =>
      if bool_decide (to t = a)
      then MkTally (sat_add128 (ta_received s) (value t)) (ta_sent s) (add64 (ta_in s) 1) (ta_out s) ({[from t]} ∪ ta_contacts s)
      else if bool_decide (from t = a)
      then MkTally (ta_received s) (sat_add128 (ta_sent s) (value t)) (ta_in s) (add64 (ta_out s) 1)
             (if address_is_zero (to t) then ta_contacts s else {[to t]} ∪ ta_contacts s)
      else s
  end.
Definition tally (f : ForensicAnalyzer) (a : Address) : Tally :=
  foldl (tally_tx f a) (MkTally 0 0 0 0 ∅) (default [] (address_tx_history f !! a)).
(** [if c { patterns.push(p); indicators.push(i) }] *)
Definition flag (c : bool) (p i : string) (acc : list string * list string) : list string * list string :=
  if c then (acc.1 ++ [p], acc.2 ++ [i]) else acc.
Definition generate_address_summary (f : ForensicAnalyzer) (a : Address) : AddressSummary :=
  let s := tally f a in
  let acc := flag ((0 <? ta_in s) && (0 <? ta_out s) && f_ltb (f_of_Z 10) (f_div (f_of_Z (ta_in s)) (f_of_Z (ta_out s))))
    "high_incoming_to_outgoing_ratio" "Potential mixer or laundering" ([], []) in
  let acc := flag (100 <? size (ta_contacts s))%nat "high_contact_count" "Interacted with many addresses" acc in
  let velocity := f_div (f_of_Z (add128 (ta_received s) (ta_sent s))) (f_of_Z (add64 (ta_in s) (ta_out s))) in
  let acc := flag ((0 <? ta_received s) && (0 <? ta_sent s) && f_ltb (f_of_Z 1000000000000000000000) velocity)
    "high_transaction_velocity" "Very high value per transaction" acc in
  MkSummary a (ta_received s) (ta_sent s) (as_i128 (as_i128 (ta_received s) - as_i128 (ta_sent s))) (ta_in s) (ta_out s)
    (size (ta_contacts s)) None None acc.1 acc.2.

Inductive AnomalyType :=
| RapidFundMovement | CircularTransactions | HighFrequencySmallTxs | SuddenLargeTransfer | ManyToOnePattern | OneToManyPattern
| UnusualTiming | AddressClustering.
Record Anomaly := MkAnomaly { anomaly_type : AnomalyType; an_description : string; severity : f64; related_addresses : list Address }.
Record AnomalyDetection := MkDetection { anomaly_score : f64; anomalies : list Anomaly; ad_confidence : f64 }.

Section Anomalies.
Context `{HashIter}.
Definition report (c : bool) (k : AnomalyType) (d : string) (w : f64) (related : list Address) (acc : f64 * list Anomaly) : f64 * list Anomaly :=
  if c then (f_add acc.1 w, acc.2 ++ [MkAnomaly k d w related]) else acc.
(** The first target that also sent to the address. *)
Definition circular (f : ForensicAnalyzer) (a : Address) : option Address :=
  targets ← transaction_graph f !! a;
  List.find (λ t, bool_decide (is_Some (transaction_graph f !! t ≫= (.!! a)))) (fst <$> hm_iter targets).
Definition detect_anomalies (f : ForensicAnalyzer) (a : Address) : AnomalyDetection :=
  let s := generate_address_summary f a in
  let acc := report ((50 <? incoming_tx_count s) && (50 <? outgoing_tx_count s)) RapidFundMovement
    "Rapid movement of funds detected" (f_lit 7 10) [a] (f_zero, []) in
  let acc := report ((20 <? incoming_tx_count s) && (outgoing_tx_count s =? 1)) ManyToOnePattern
    "Many inputs to single output (potential mixer)" (f_lit 8 10) [a] acc in
  let acc := report ((incoming_tx_count s =? 1) && (20 <? outgoing_tx_count s)) OneToManyPattern
    "Single input to many outputs (potential distribution)" (f_lit 6 10) [a] acc in
  let avg := total_received s / Z.max (incoming_tx_count s) 1 in
  let acc := report ((100 <? incoming_tx_count s) && (avg <? 1000)) HighFrequencySmallTxs
    "High frequency of small transactions (potential spam)" (f_lit 5 10) [a] acc in
  let acc := match circular f a with
             | Some t => report true CircularTransactions "Circular transaction pattern detected" (f_lit 7 10) [a; t] acc
             | None => acc
             end in
  MkDetection (f_min acc.1 f_one) acc.2
    (if 10 <? add64 (incoming_tx_count s) (outgoing_tx_count s) then f_lit 8 10 else f_lit 1 2).

Definition related_tx (f : ForensicAnalyzer) (a : Address) (s : gset Address) (h : Hash) : gset Address :=
  match transaction_index f !! h with
  | None => s
  | Some t =>
      if bool_decide (from t = a) && negb (address_is_zero (to t)) then {[to t]} ∪ s
      else if bool_decide (to t = a) then {[from t]} ∪ s else s
  end.
Definition find_related_addresses (f : ForensicAnalyzer) (a : Address) (max_results : nat) : list Address :=
  take max_results (hs_iter (foldl (related_tx f a) ∅ (default [] (address_tx_history f !! a)))).
End Anomalies.

(** ** The walk *)

(** Paths through the graph: each step is a transaction of the graph to an
    address not on the path yet; the value is the sum along it. *)
Inductive chain (f : ForensicAnalyzer) (source : Address) : list Address → list Hash → u128 → Prop :=
| chain_start : chain f source [source] [] 0
| chain_step path txs v x b targets hs h t :
    chain f source path txs v → last path = Some x → transaction_graph f !! x = Some targets → targets !! b = Some hs →
    h ∈ hs → transaction_index f !! h = Some t → b ∉ path →
    chain f source (path ++ [b]) (txs ++ [h]) (add128 v (value t)).

Section WalkProofs.
Context `{HashIter}.
Context (f : ForensicAnalyzer) (source : Address) (max_hops : nat).

Definition trace_ok (tr : Trace) : Prop := chain f source (tr_path tr) (tr_txs tr) (tr_value tr) ∧ tr_hops tr = length (tr_txs tr).
Definition flow_ok (p : FundFlow) : Prop :=
  chain f source (ff_path p) (ff_transactions p) (ff_total p) ∧ hop_count p = length (ff_transactions p) ∧ (hop_count p <= max_hops)%nat.
Definition walk_ok (w : Walk) : Prop := Forall flow_ok (wk_paths w) ∧ Forall trace_ok (wk_queue w).

(** What following a transaction does: nothing, or one more flow or trace. *)
Lemma follow_cases tr target w h :
  follow max_hops f tr target w h = w ∨
  ∃ t, transaction_index f !! h = Some t ∧
    let path := tr_path tr ++ [target] in let txs := tr_txs tr ++ [h] in let total := add128 (tr_value tr) (value t) in
    (tr_path tr, target) ∈ wk_visited (follow max_hops f tr target w h) ∧
    ((wk_paths (follow max_hops f tr target w h) = wk_paths w ++ [MkFlow path txs total (tr_hops tr + 1)] ∧
      wk_queue (follow max_hops f tr target w h) = wk_queue w) ∨
     (wk_paths (follow max_hops f tr target w h) = wk_paths w ∧
      wk_queue (follow max_hops f tr target w h) = wk_queue w ++ [MkTrace path txs total (tr_hops tr + 1)])).
Proof.
  unfold follow. destruct (transaction_index f !! h) as [t|]; [|by left]. destruct (bool_decide _); [by left|].
  right. exists t. split; [done|]. cbv zeta. destruct (_ || _); cbn; (split; [set_solver|]); auto.
Qed.
Lemma follow_visited tr target w l : (tr_path tr, target) ∈ wk_visited w → foldl (follow max_hops f tr target) w l = w.
Proof.
  intros Hv. induction l as [|h l IH]; [done|]. cbn. replace (follow max_hops f tr target w h) with w; [done|].
  unfold follow. destruct (transaction_index f !! h); [|done]. by rewrite bool_decide_eq_true_2.
Qed.

Definition grows (tr : Trace) (n : nat) (w w' : Walk) : Prop :=
  ∃ new, wk_queue w' = wk_queue w ++ new ∧ (length new <= n)%nat ∧ Forall (λ x, tr_hops x = (tr_hops tr + 1)%nat) new.

Lemma grows_refl tr n w : grows tr n w w.
Proof. exists []. rewrite app_nil_r. split_and!; [done|cbn; lia|done]. Qed.

Lemma follow_target_spec tr x targets w tg : trace_ok tr → (tr_hops tr < max_hops)%nat →
  trace_end tr = Some x → transaction_graph f !! x = Some targets → targets !! tg.1 = Some tg.2 → walk_ok w →
  walk_ok (follow_target max_hops f tr w tg) ∧ grows tr 1 w (follow_target max_hops f tr w tg).
Proof.
  intros [Hc Hh] Hlt Hx Hg Ht Hw. unfold follow_target. destruct (decide (tg.1 ∈ tr_path tr)) as [Hin|Hin].
  { unfold contains. rewrite bool_decide_eq_true_2 by done. split; [done|]. apply grows_refl. }
  unfold contains. rewrite bool_decide_eq_false_2 by done. destruct tg as [b hs]. cbn [fst snd] in *.
  assert (Hsub : ∀ h, h ∈ hs → h ∈ hs) by done. revert Hsub. generalize hs at 1 3 4. intros l.
  induction l as [|h l IH]; intros Hsub; cbn [foldl]; [split; [done|]; apply grows_refl|].
  destruct (follow_cases tr b w h) as [->|(t & Hi & Hv & Hq)]; [apply IH; set_solver|].
  rewrite follow_visited by done.
  assert (Hc' : chain f source (tr_path tr ++ [b]) (tr_txs tr ++ [h]) (add128 (tr_value tr) (value t))).
  { eapply chain_step; try done. apply Hsub. by left. }
  destruct Hw as [Hp Hq0]. destruct Hq as [[Hq1 Hq2]|[Hq1 Hq2]].
  - split; [split; rewrite ?Hq1, ?Hq2; [|done]|exists []; rewrite app_nil_r; split_and!; [done|cbn; lia|done]].
    apply Forall_app. split; [done|]. constructor; [|done]. split_and!; cbn; [done|rewrite length_app; cbn; lia|lia].
  - split; [split; rewrite ?Hq1, ?Hq2; [done|]|].
    + apply Forall_app. split; [done|]. constructor; [|done]. split; cbn; [done|rewrite length_app; cbn; lia].
    + eexists. split; [exact Hq2|]. split; [cbn; lia|]. by constructor.
Qed.

Lemma expand_spec tr w : trace_ok tr → walk_ok w →
  walk_ok (expand max_hops f tr w) ∧
  grows tr (if (max_hops <=? tr_hops tr)%nat then 0 else
            match trace_end tr ≫= λ a, transaction_graph f !! a with Some ts => size ts | None => 0 end) w (expand max_hops f tr w).
Proof.
  intros Htr Hw. unfold expand. destruct (Nat.leb_spec max_hops (tr_hops tr)) as [Hl|Hl].
  { split; [done|]. apply grows_refl. }
  destruct (trace_end tr) as [x|] eqn:Hx; cbn; [|split; [done|]; apply grows_refl].
  destruct (transaction_graph f !! x) as [targets|] eqn:Hg; [|split; [done|]; apply grows_refl].
  assert (Hlen : size targets = length (hm_iter targets)).
  { rewrite (Permutation_length (hm_iter_perm targets)), length_map_to_list. done. }
  rewrite Hlen. assert (Hel : ∀ tg, tg ∈ hm_iter targets → targets !! tg.1 = Some tg.2).
  { intros [b hs]. by rewrite hm_iter_perm, elem_of_map_to_list. }
  revert w Hw Hel. clear Hlen. induction (hm_iter targets) as [|tg l IH]; intros w Hw Hel; cbn [foldl length].
  { split; [done|]. apply grows_refl. }
  destruct (follow_target_spec tr x targets w tg Htr Hl Hx Hg (Hel tg ltac:(by left)) Hw) as [Hw1 (n1 & Hq1 & Hn1 & Hf1)].
  destruct (IH _ Hw1 (λ t' Ht', Hel t' ltac:(by right))) as [Hw2 (n2 & Hq2 & Hn2 & Hf2)].
  split; [done|]. exists (n1 ++ n2). rewrite Hq2, Hq1, app_assoc. split; [done|].
  rewrite length_app. split; [lia|]. by apply Forall_app.
Qed.

(** ** Termination *)

Definition branching : nat := foldr Nat.max 0%nat (size ∘ snd <$> map_to_list (transaction_graph f)).
Lemma branching_bound x targets : transaction_graph f !! x = Some targets → (size targets <= branching)%nat.
Proof.
  intros Hx. unfold branching. apply elem_of_map_to_list in Hx.
  induction (map_to_list (transaction_graph f)) as [|y l IH]; [by apply not_elem_of_nil in Hx|].
  apply elem_of_cons in Hx as [<-|Hx]; cbn; [lia|]. specialize (IH Hx). cbn in IH. lia.
Qed.

(** Traces a trace with [k] hops to go may lead to, itself included. *)
Fixpoint weight (k : nat) : nat := match k with O => 1 | S k' => 1 + branching * weight k' end.
Definition trace_weight (tr : Trace) : nat := weight (max_hops - tr_hops tr).
Definition queue_weight (q : list Trace) : nat := list_sum (trace_weight <$> q).

Lemma new_weight (new : list Trace) h n : Forall (λ x, tr_hops x = h) new → (length new <= n)%nat →
  (queue_weight new <= n * weight (max_hops - h))%nat.
Proof.
  intros Hf. revert n. induction Hf as [|x l Hx Hl IH]; intros n Hn; [apply Nat.le_0_l|].
  destruct n as [|n]; cbn [length] in Hn; [lia|]. specialize (IH n ltac:(lia)).
  change (queue_weight (x :: l)) with (trace_weight x + queue_weight l)%nat.
  unfold trace_weight. rewrite Hx. lia.
Qed.
Lemma queue_weight_app q1 q2 : queue_weight (q1 ++ q2) = (queue_weight q1 + queue_weight q2)%nat.
Proof. unfold queue_weight. by rewrite fmap_app, list_sum_app. Qed.

Lemma expand_weight tr paths queue visited : trace_ok tr → walk_ok (MkWalk paths queue visited) →
  (S (queue_weight (wk_queue (expand max_hops f tr (MkWalk paths queue visited)))) <= trace_weight tr + queue_weight queue)%nat.
Proof.
  intros Htr Hw. destruct (expand_spec tr _ Htr Hw) as [_ (new & -> & Hn & Hf)]. cbn [wk_queue].
  rewrite queue_weight_app. pose proof (new_weight new _ _ Hf Hn) as Hnw. unfold trace_weight.
  destruct (Nat.leb_spec max_hops (tr_hops tr)) as [Hl|Hl].
  { replace (max_hops - tr_hops tr)%nat with 0%nat by lia. cbn [weight Nat.mul] in *. lia. }
  replace (max_hops - tr_hops tr)%nat with (S (max_hops - (tr_hops tr + 1))) by lia. cbn [weight].
  enough ((match trace_end tr ≫= λ a, transaction_graph f !! a with Some ts => size ts | None => 0 end) <= branching)%nat by nia.
  destruct (trace_end tr) as [x|]; cbn; [|lia]. destruct (transaction_graph f !! x) eqn:Hg; [|lia]. by eapply branching_bound.
Qed.

Lemma trace_loop_ok fuel max_paths w : walk_ok w → (queue_weight (wk_queue w) <= fuel)%nat →
  ∃ paths, trace_loop fuel max_hops max_paths f w = Some paths ∧ Forall flow_ok paths.
Proof.
  revert w. induction fuel as [|fuel IH]; intros [paths queue visited] Hw Hf; cbn [wk_queue wk_paths wk_visited] in *;
    destruct queue as [|tr queue]; cbn [trace_loop wk_queue wk_paths]; try (eexists; split; [done|by destruct Hw]);
    (destruct (_ <=? _)%nat; [eexists; split; [done|by destruct Hw]|]).
  { exfalso. change (queue_weight (tr :: queue)) with (trace_weight tr + queue_weight queue)%nat in Hf.
    unfold trace_weight in Hf. destruct (max_hops - tr_hops tr)%nat; cbn in Hf; lia. }
  destruct Hw as [Hp Hq]. inversion_clear Hq as [|?? Htr Hq']. apply IH.
  - apply expand_spec; [done|]. by split.
  - cbn [wk_paths wk_visited]. pose proof (expand_weight tr paths queue visited Htr ltac:(by split)). change (queue_weight (tr :: queue)) with (trace_weight tr + queue_weight queue)%nat in Hf.
    lia.
Qed.
End WalkProofs.

Section TraceFunds.
Context `{HashIter}.

(** Tracing ends, after a number of steps bounded by the branching of the
    graph, and every flow it returns is a simple path of indexed transfers from
    the source within the hop limit, with the sum of their values; there are at
    most as many as asked for, the largest first. *)
Theorem trace_funds_correct f source max_hops max_paths fuel : (weight f max_hops <= fuel)%nat →
  ∃ flows, trace_funds fuel f source max_hops max_paths = Some flows ∧
    Forall (flow_ok f source max_hops) flows ∧ (length flows <= max_paths)%nat ∧
    StronglySorted (λ p q, ff_total q <= ff_total p) flows.
Proof.
  intros Hf. unfold trace_funds.
  destruct (trace_loop_ok f source max_hops fuel max_paths (MkWalk [] [MkTrace [source] [] 0 0] ∅)) as (paths & Hp & Hok).
  { split; cbn; [done|]. constructor; [|done]. split; [constructor|done]. }
  { cbn. unfold trace_weight. cbn [tr_hops]. rewrite Nat.sub_0_r, Nat.add_0_r. done. }
  rewrite Hp. eexists. split; [done|]. set (sorted := sort_by_key _ _).
  assert (Hs : StronglySorted (λ p q, ff_total q <= ff_total p) sorted).
  { eapply StronglySorted_mono; [|apply sort_by_sorted; [apply key_leb_total|apply key_leb_trans]].
    intros p q. unfold le_of, key_leb. lia. }
  split_and!.
  - apply Forall_take. unfold sorted, sort_by_key. by rewrite sort_by_perm.
  - rewrite length_take. lia.
  - clearbody sorted. clear -Hs. revert max_paths. induction Hs as [|p l Hl IH Hp]; intros [|n]; cbn; try constructor; [done|].
    by apply Forall_take.
Qed.
End TraceFunds.

(** ** The index *)

(** Every edge of the graph built from transactions with different hashes
    is one of them, from the one address to the other, and is found in the
    index. *)
Theorem indexed_edges ts a b targets hs h :
  NoDup (tx_hash <$> ts) → let f := foldl (λ f t, index_transaction t f) analyzer_new ts in
  transaction_graph f !! a = Some targets → targets !! b = Some hs → h ∈ hs →
  ∃ t, t ∈ ts ∧ from t = a ∧ to t = b ∧ tx_hash t = h ∧ transaction_index f !! h = Some t.
Proof.
  intros Hn f. unfold f. clear f. revert a b targets hs h.
  induction ts as [|t ts IH] using rev_ind; intros a b targets hs h Ha Hb Hh; [cbn in Ha; by rewrite lookup_empty in Ha|].
  rewrite fmap_app in Hn. apply NoDup_app in Hn as (Hn & Hx & _). specialize (IH Hn).
  rewrite foldl_app in *. cbn [foldl] in *. set (f := foldl _ analyzer_new ts) in *.
  assert (Hold : ∀ targets hs, transaction_graph f !! a = Some targets → targets !! b = Some hs → h ∈ hs →
    ∃ t0, t0 ∈ ts ++ [t] ∧ from t0 = a ∧ to t0 = b ∧ tx_hash t0 = h ∧ transaction_index (index_transaction t f) !! h = Some t0).
  { intros tg hs' H1 H2 H3. destruct (IH a b tg hs' h H1 H2 H3) as (t0 & Hin & Hf & Ht & <- & Hi). exists t0.
    split_and!; try done; [set_solver|].
    assert (tx_hash t ≠ tx_hash t0).
    { intros He. apply (Hx (tx_hash t0)); [by apply list_elem_of_fmap_2|]. rewrite <- He. by left. }
    unfold index_transaction. cbv zeta. destruct (address_is_zero (to t)); cbn; by rewrite lookup_insert_ne. }
  unfold index_transaction in Ha. cbv zeta in Ha. destruct (address_is_zero (to t)) eqn:Hz; cbn [transaction_graph] in Ha; [eauto|].
  destruct (decide (a = from t)) as [->|Hne]; [|rewrite lookup_insert_ne in Ha by congruence; eauto].
  rewrite lookup_insert_eq in Ha. injection Ha as <-. unfold push_hash in Hb.
  destruct (decide (b = to t)) as [->|Hne].
  - rewrite lookup_insert_eq in Hb. injection Hb as <-. apply elem_of_app in Hh as [Hh|Hh%list_elem_of_singleton].
    + destruct (transaction_graph f !! from t) as [tg|] eqn:Hg; cbn in Hh; [|by rewrite lookup_empty in Hh; apply not_elem_of_nil in Hh].
      destruct (tg !! to t) as [l|] eqn:Hl; cbn in Hh; [eauto|by apply not_elem_of_nil in Hh].
    + subst h. exists t. split_and!; try done; [set_solver|].
      unfold index_transaction. cbv zeta. rewrite Hz. cbn. by rewrite lookup_insert_eq.
  - rewrite lookup_insert_ne in Hb by congruence.
    destruct (transaction_graph f !! from t) as [tg|] eqn:Hg; cbn in Hb; [eauto|by rewrite lookup_empty in Hb].
Qed.

(** A transfer to oneself is in the history twice and counted as received
    both times, never as sent. *)
Theorem self_transfer_counted_twice t : to t = from t → address_is_zero (to t) = false → 0 <= value t → 2 * value t <= u128_max →
  let s := generate_address_summary (index_transaction t analyzer_new) (from t) in
  total_received s = 2 * value t ∧ total_sent s = 0 ∧ incoming_tx_count s = 2.
Proof.
  intros Ht Hz Hv Hv2. unfold generate_address_summary. cbv zeta. cbn [total_received total_sent incoming_tx_count].
  assert (Htl : tally (index_transaction t analyzer_new) (from t) =
    MkTally (2 * value t) 0 2 0 ({[from t]} ∪ ({[from t]} ∪ ∅))).
  { unfold tally, index_transaction. cbv zeta. rewrite Hz. cbn [address_tx_history analyzer_new]. unfold push_hash.
    rewrite Ht, lookup_insert_eq, lookup_insert_eq, lookup_empty. cbn [default app foldl]. unfold id. cbn [app foldl].
    unfold tally_tx. cbn [transaction_index]. rewrite lookup_insert_eq. rewrite Ht, !bool_decide_eq_true_2 by done.
    cbn [ta_received ta_sent ta_in ta_out ta_contacts]. f_equal. unfold sat_add128. lia. }
  by rewrite Htl.
Qed.

Module ForensicsReference.
Import BlockReference.
#[local] Existing Instance canonical_iter.
#[local] Existing Instance Reference.keccak.
Definition ex_analyzer : ForensicAnalyzer := index_transaction transfer analyzer_new.
Lemma trace_funds_correct_witness :
  ∃ flows, trace_funds 10 ex_analyzer alice 2 5 = Some flows ∧ Forall (flow_ok ex_analyzer alice 2) flows.
Proof.
  destruct (trace_funds_correct ex_analyzer alice 2 5 10) as (flows & Ht & Hf & _).
  - apply Nat.leb_le. vm_compute. reflexivity.
  - exists flows. exact (conj Ht Hf).
Defined.
Lemma indexed_edges_witness : ∃ t, t ∈ [transfer] ∧ from t = alice ∧ to t = bob.
Proof.
  destruct (indexed_edges [transfer] alice bob {[bob := [tx_hash transfer]]} [tx_hash transfer] (tx_hash transfer))
    as (t & Hin & Hf & Ht & _).
  - apply NoDup_singleton.
  - vm_compute. reflexivity.
  - vm_compute. reflexivity.
  - by left.
  - exists t. exact (conj Hin (conj Hf Ht)).
Defined.
Definition to_self : Transaction := tx_new alice alice 100 10 0.
Lemma self_transfer_counted_twice_witness :
  total_received (generate_address_summary (index_transaction to_self analyzer_new) alice) = 200.
Proof. apply (self_transfer_counted_twice to_self); vm_compute; (reflexivity || discriminate). Defined.
End ForensicsReference.
