(* ===== verification/PeerScore.v ===== *)
(** * PeerScore: quality, limits and bans of a peer

    Models the part of [irondag-blockchain/src/network.rs] that scores peers:
    capabilities, slots, the cache of seen hashes, the score itself with its
    reputation in IEEE double arithmetic, rate limiting and penalties.  An
    [Instant] is a number of nanoseconds; an operation reads the clock once.
    The natural logarithm of the reputation is a parameter. *)

From stdpp Require Import pretty.
From S2P Require Import Prelude Types Float64 RateLimit.

(** ** Constants and capabilities *)

Definition MAX_PEERS_PER_SUBNET_16 : nat := 10.
Definition MAX_TOTAL_PEERS : nat := 500.
Definition CAP_BLAKE3_POW : u32 := Z.shiftl 1 0.
Definition CAP_B3MEMHASH : u32 := Z.shiftl 1 1.
Definition CAP_ML_KEM_768 : u32 := Z.shiftl 1 2.
Definition CAP_DILITHIUM3 : u32 := Z.shiftl 1 3.
Definition CAP_SPHINCS_PLUS : u32 := Z.shiftl 1 4.
Definition CAP_COMPACT_BLOCKS : u32 := Z.shiftl 1 5.
(** Without the [kyber] feature. *)
Definition LOCAL_CAPABILITIES : u32 :=
  Z.lor (Z.lor (Z.lor (Z.lor CAP_BLAKE3_POW CAP_B3MEMHASH) CAP_DILITHIUM3) CAP_SPHINCS_PLUS) CAP_COMPACT_BLOCKS.
Definition REQUIRED_CAPABILITIES : u32 := Z.lor CAP_BLAKE3_POW CAP_B3MEMHASH.
Definition meets_required_capabilities (caps : u32) : bool := Z.land caps REQUIRED_CAPABILITIES =? REQUIRED_CAPABILITIES.

Definition outbound_slots (max_peers : nat) : nat :=
  Z.to_nat (f_as_uint u64_max (f_mul (f_of_Z (Z.of_nat max_peers)) (f_lit 7 10))).
Definition inbound_slots (max_peers : nat) : nat := max_peers - outbound_slots max_peers.

(** First two octets of an IPv4 address outside 127.0.0.0/8. *)
Definition subnet_prefix_16 (a : SocketAddr) : option (u8 * u8) :=
  match ip_bytes (socket_ip a) with
  | [o1; o2; _; _] => if o1 =? 127 then None else Some (o1, o2)
  | _ => None
  end.
Definition jaccard_similarity (a b : gset SocketAddr) : f64 :=
  if bool_decide (a = ∅) && bool_decide (b = ∅) then f_zero else
  let union := size (a ∪ b) in
  if (union =? 0)%nat then f_zero else f_div (f_of_Z (Z.of_nat (size (a ∩ b)))) (f_of_Z (Z.of_nat union)).

(** ** The cache of seen hashes *)

Section SeenCache.
Context `{HashIter}.
Definition evict_seen_cache (max_size : nat) (now : Z) (cache : gmap Hash Z) : gmap Hash Z :=
  if (max_size <? size cache)%nat then
    let cache := filter (λ ht, Z.max 0 (now - ht.2) < from_secs (2 * 60 * 60)) cache in
    if (max_size <? size cache)%nat then
      let to_remove := (size cache - max_size + 1000)%nat in
      foldl (λ c (ht : Hash * Z), delete ht.1 c) cache (take to_remove (sort_by_key snd (hm_iter cache)))
    else cache
  else cache.
End SeenCache.

(** ** Scores *)

Record PeerScore := MkPeerScore {
  ps_connected_at : Z;
  ps_last_seen : Z;
  ps_success_count : u32;
  ps_failure_count : u32;
  ps_messages_this_window : u64;
  ps_window_start : Z;
  ps_banned_until : option Z;
  ps_ban_reason : option string;
  ps_invalid_blocks : u64;
  ps_blocks_delivered : u64;
  ps_invalid_txs : u64;
  ps_invalid_messages : u32;
  ps_latency_ms : option u64;
  ps_ping_sent_at : option Z;
  ps_pending_ping_nonce : option u64;
  ps_latency_samples : list u64;
  ps_last_pong_time : option Z;
  ps_offense_count : u32;
  ps_stale_blocks : u32;
  ps_fresh_blocks : u32;
  ps_last_block_height_delta : Z;
  ps_novel_blocks : u32;
  ps_duplicate_blocks : u32;
  ps_bytes_sent : u64;
  ps_bytes_received : u64;
  ps_last_bandwidth_reset : Z;
  ps_clock_drift_penalties : f64;
  ps_last_clock_drift_check : option Z }.
Definition ps_set_seen (last_seen : Z) (success_count : u32) (s : PeerScore) : PeerScore :=
  MkPeerScore (ps_connected_at s) last_seen success_count (ps_failure_count s) (ps_messages_this_window s)
    (ps_window_start s) (ps_banned_until s) (ps_ban_reason s) (ps_invalid_blocks s) (ps_blocks_delivered s)
    (ps_invalid_txs s) (ps_invalid_messages s) (ps_latency_ms s) (ps_ping_sent_at s) (ps_pending_ping_nonce s)
    (ps_latency_samples s) (ps_last_pong_time s) (ps_offense_count s) (ps_stale_blocks s) (ps_fresh_blocks s)
    (ps_last_block_height_delta s) (ps_novel_blocks s) (ps_duplicate_blocks s) (ps_bytes_sent s) (ps_bytes_received s)
    (ps_last_bandwidth_reset s) (ps_clock_drift_penalties s) (ps_last_clock_drift_check s).
Definition ps_set_failures (failure_count : u32) (s : PeerScore) : PeerScore :=
  MkPeerScore (ps_connected_at s) (ps_last_seen s) (ps_success_count s) failure_count (ps_messages_this_window s)
    (ps_window_start s) (ps_banned_until s) (ps_ban_reason s) (ps_invalid_blocks s) (ps_blocks_delivered s)
    (ps_invalid_txs s) (ps_invalid_messages s) (ps_latency_ms s) (ps_ping_sent_at s) (ps_pending_ping_nonce s)
    (ps_latency_samples s) (ps_last_pong_time s) (ps_offense_count s) (ps_stale_blocks s) (ps_fresh_blocks s)
    (ps_last_block_height_delta s) (ps_novel_blocks s) (ps_duplicate_blocks s) (ps_bytes_sent s) (ps_bytes_received s)
    (ps_last_bandwidth_reset s) (ps_clock_drift_penalties s) (ps_last_clock_drift_check s).
Definition ps_set_window (messages_this_window : u64) (window_start : Z) (s : PeerScore) : PeerScore :=
  MkPeerScore (ps_connected_at s) (ps_last_seen s) (ps_success_count s) (ps_failure_count s) messages_this_window
    window_start (ps_banned_until s) (ps_ban_reason s) (ps_invalid_blocks s) (ps_blocks_delivered s) (ps_invalid_txs s)
    (ps_invalid_messages s) (ps_latency_ms s) (ps_ping_sent_at s) (ps_pending_ping_nonce s) (ps_latency_samples s)
    (ps_last_pong_time s) (ps_offense_count s) (ps_stale_blocks s) (ps_fresh_blocks s) (ps_last_block_height_delta s)
    (ps_novel_blocks s) (ps_duplicate_blocks s) (ps_bytes_sent s) (ps_bytes_received s) (ps_last_bandwidth_reset s)
    (ps_clock_drift_penalties s) (ps_last_clock_drift_check s).
Definition ps_set_ban (banned_until : option Z) (ban_reason : option string) (offense_count : u32) (s : PeerScore) : PeerScore :=
  MkPeerScore (ps_connected_at s) (ps_last_seen s) (ps_success_count s) (ps_failure_count s)
    (ps_messages_this_window s) (ps_window_start s) banned_until ban_reason (ps_invalid_blocks s)
    (ps_blocks_delivered s) (ps_invalid_txs s) (ps_invalid_messages s) (ps_latency_ms s) (ps_ping_sent_at s)
    (ps_pending_ping_nonce s) (ps_latency_samples s) (ps_last_pong_time s) offense_count (ps_stale_blocks s)
    (ps_fresh_blocks s) (ps_last_block_height_delta s) (ps_novel_blocks s) (ps_duplicate_blocks s) (ps_bytes_sent s)
    (ps_bytes_received s) (ps_last_bandwidth_reset s) (ps_clock_drift_penalties s) (ps_last_clock_drift_check s).
Definition ps_set_invalid (invalid_blocks : u64) (invalid_txs : u64) (invalid_messages : u32) (s : PeerScore) : PeerScore :=
  MkPeerScore (ps_connected_at s) (ps_last_seen s) (ps_success_count s) (ps_failure_count s)
    (ps_messages_this_window s) (ps_window_start s) (ps_banned_until s) (ps_ban_reason s) invalid_blocks
    (ps_blocks_delivered s) invalid_txs invalid_messages (ps_latency_ms s) (ps_ping_sent_at s)
    (ps_pending_ping_nonce s) (ps_latency_samples s) (ps_last_pong_time s) (ps_offense_count s) (ps_stale_blocks s)
    (ps_fresh_blocks s) (ps_last_block_height_delta s) (ps_novel_blocks s) (ps_duplicate_blocks s) (ps_bytes_sent s)
    (ps_bytes_received s) (ps_last_bandwidth_reset s) (ps_clock_drift_penalties s) (ps_last_clock_drift_check s).
Definition ps_set_bandwidth (bytes_sent : u64) (bytes_received : u64) (last_bandwidth_reset : Z) (s : PeerScore) : PeerScore :=
  MkPeerScore (ps_connected_at s) (ps_last_seen s) (ps_success_count s) (ps_failure_count s)
    (ps_messages_this_window s) (ps_window_start s) (ps_banned_until s) (ps_ban_reason s) (ps_invalid_blocks s)
    (ps_blocks_delivered s) (ps_invalid_txs s) (ps_invalid_messages s) (ps_latency_ms s) (ps_ping_sent_at s)
    (ps_pending_ping_nonce s) (ps_latency_samples s) (ps_last_pong_time s) (ps_offense_count s) (ps_stale_blocks s)
    (ps_fresh_blocks s) (ps_last_block_height_delta s) (ps_novel_blocks s) (ps_duplicate_blocks s) bytes_sent
    bytes_received last_bandwidth_reset (ps_clock_drift_penalties s) (ps_last_clock_drift_check s).
Definition ps_set_novelty (novel_blocks : u32) (duplicate_blocks : u32) (s : PeerScore) : PeerScore :=
  MkPeerScore (ps_connected_at s) (ps_last_seen s) (ps_success_count s) (ps_failure_count s)
    (ps_messages_this_window s) (ps_window_start s) (ps_banned_until s) (ps_ban_reason s) (ps_invalid_blocks s)
    (ps_blocks_delivered s) (ps_invalid_txs s) (ps_invalid_messages s) (ps_latency_ms s) (ps_ping_sent_at s)
    (ps_pending_ping_nonce s) (ps_latency_samples s) (ps_last_pong_time s) (ps_offense_count s) (ps_stale_blocks s)
    (ps_fresh_blocks s) (ps_last_block_height_delta s) novel_blocks duplicate_blocks (ps_bytes_sent s)
    (ps_bytes_received s) (ps_last_bandwidth_reset s) (ps_clock_drift_penalties s) (ps_last_clock_drift_check s).
Definition ps_set_delivery (blocks_delivered : u64) (stale_blocks : u32) (fresh_blocks : u32) (last_block_height_delta : Z) (s : PeerScore) : PeerScore :=
  MkPeerScore (ps_connected_at s) (ps_last_seen s) (ps_success_count s) (ps_failure_count s)
    (ps_messages_this_window s) (ps_window_start s) (ps_banned_until s) (ps_ban_reason s) (ps_invalid_blocks s)
    blocks_delivered (ps_invalid_txs s) (ps_invalid_messages s) (ps_latency_ms s) (ps_ping_sent_at s)
    (ps_pending_ping_nonce s) (ps_latency_samples s) (ps_last_pong_time s) (ps_offense_count s) stale_blocks
    fresh_blocks last_block_height_delta (ps_novel_blocks s) (ps_duplicate_blocks s) (ps_bytes_sent s)
    (ps_bytes_received s) (ps_last_bandwidth_reset s) (ps_clock_drift_penalties s) (ps_last_clock_drift_check s).
Definition ps_set_ping (latency_ms : option u64) (ping_sent_at : option Z) (pending_ping_nonce : option u64) (latency_samples : list u64) (last_pong_time : option Z) (s : PeerScore) : PeerScore :=
  MkPeerScore (ps_connected_at s) (ps_last_seen s) (ps_success_count s) (ps_failure_count s)
    (ps_messages_this_window s) (ps_window_start s) (ps_banned_until s) (ps_ban_reason s) (ps_invalid_blocks s)
    (ps_blocks_delivered s) (ps_invalid_txs s) (ps_invalid_messages s) latency_ms ping_sent_at pending_ping_nonce
    latency_samples last_pong_time (ps_offense_count s) (ps_stale_blocks s) (ps_fresh_blocks s)
    (ps_last_block_height_delta s) (ps_novel_blocks s) (ps_duplicate_blocks s) (ps_bytes_sent s)
    (ps_bytes_received s) (ps_last_bandwidth_reset s) (ps_clock_drift_penalties s) (ps_last_clock_drift_check s).
Definition ps_set_drift (clock_drift_penalties : f64) (last_clock_drift_check : option Z) (s : PeerScore) : PeerScore :=
  MkPeerScore (ps_connected_at s) (ps_last_seen s) (ps_success_count s) (ps_failure_count s)
    (ps_messages_this_window s) (ps_window_start s) (ps_banned_until s) (ps_ban_reason s) (ps_invalid_blocks s)
    (ps_blocks_delivered s) (ps_invalid_txs s) (ps_invalid_messages s) (ps_latency_ms s) (ps_ping_sent_at s)
    (ps_pending_ping_nonce s) (ps_latency_samples s) (ps_last_pong_time s) (ps_offense_count s) (ps_stale_blocks s)
    (ps_fresh_blocks s) (ps_last_block_height_delta s) (ps_novel_blocks s) (ps_duplicate_blocks s) (ps_bytes_sent s)
    (ps_bytes_received s) (ps_last_bandwidth_reset s) clock_drift_penalties last_clock_drift_check.
Definition peer_score_default (now : Z) : PeerScore :=
  MkPeerScore now now 0 0 0 now None None 0 0 0 0 None None None [] None 0 0 0 0 0 0 0 0 now f_zero None.

Definition MAX_MESSAGES_PER_MINUTE : u64 := 3000.
Definition MAX_INVALID_MESSAGES : u32 := 5.
Definition MAX_INVALID_BLOCKS : u64 := 3.
Definition MAX_INVALID_TXS : u64 := 50.
Definition RATE_WINDOW_SECS : u64 := 60.
Definition FRESHNESS_MIN_SAMPLE_SIZE : u32 := 10.
Definition NOVELTY_MIN_SAMPLE_SIZE : u32 := 10.
Definition sat_add32 (a b : u32) : u32 := Z.min u32_max (a + b).

Definition ban_duration_for_offense (n : u32) : Z :=
  if n <=? 1 then from_secs 600 else if n =? 2 then from_secs 3600 else if n =? 3 then from_secs 21600 else from_secs 86400.

(** [i64] arithmetic on [u32] counts never saturates. *)
Definition eviction_score (s : PeerScore) : Z := ps_success_count s - ps_failure_count s * 2.
Definition ps_is_banned (now : Z) (s : PeerScore) : bool := match ps_banned_until s with Some b => now <? b | None => false end.

Definition ratio_of (part rest : u32) : f64 :=
  let total := sat_add32 part rest in f_div (f_of_Z part) (f_of_Z total).
Definition freshness_ratio (s : PeerScore) : f64 :=
  if sat_add32 (ps_stale_blocks s) (ps_fresh_blocks s) =? 0 then f_lit 1 2 else ratio_of (ps_fresh_blocks s) (ps_stale_blocks s).
Definition novelty_ratio (s : PeerScore) : f64 :=
  if sat_add32 (ps_novel_blocks s) (ps_duplicate_blocks s) =? 0 then f_lit 1 2
  else f_div (f_of_Z (ps_novel_blocks s)) (f_of_Z (sat_add32 (ps_novel_blocks s) (ps_duplicate_blocks s))).
Definition has_high_stale_ratio (s : PeerScore) : bool :=
  let total := sat_add32 (ps_stale_blocks s) (ps_fresh_blocks s) in
  if total <? FRESHNESS_MIN_SAMPLE_SIZE then false else f_ltb (f_lit 1 2) (f_div (f_of_Z (ps_stale_blocks s)) (f_of_Z total)).
Definition has_low_novelty_ratio (s : PeerScore) : bool :=
  let total := sat_add32 (ps_novel_blocks s) (ps_duplicate_blocks s) in
  if total <? NOVELTY_MIN_SAMPLE_SIZE then false else f_ltb (f_div (f_of_Z (ps_novel_blocks s)) (f_of_Z total)) (f_lit 1 10).
Definition bandwidth_efficiency (s : PeerScore) : f64 :=
  f_div (f_mul (novelty_ratio s) (f_of_Z (ps_bytes_received s))) (f_of_Z (Z.max (ps_bytes_sent s) 1)).
Definition should_reset_bandwidth (now : Z) (s : PeerScore) : bool := 600 <=? as_secs (Z.max 0 (now - ps_last_bandwidth_reset s)).
Definition reset_bandwidth_counters (now : Z) : PeerScore → PeerScore := ps_set_bandwidth 0 0 now.

Section Reputation.
Context (ln : f64 → f64).
Definition valid_ratio (s : PeerScore) : f64 :=
  if 0 <? ps_blocks_delivered s
  then f_sub f_one (f_div (f_of_Z (ps_invalid_blocks s)) (f_of_Z (ps_blocks_delivered s))) else f_lit 1 2.
Definition delivery_bonus (s : PeerScore) : f64 :=
  if 0 <? ps_blocks_delivered s
  then f_min (f_mul (f_max (ln (f_of_Z (ps_blocks_delivered s))) f_zero) (f_of_Z 2)) (f_of_Z 20) else f_zero.
Definition latency_bonus (s : PeerScore) : f64 :=
  match ps_latency_ms s with
  | Some l => if l <=? 50 then f_of_Z 20 else if l <=? 100 then f_of_Z 15 else if l <=? 200 then f_of_Z 10
              else if l <=? 500 then f_of_Z 5 else f_zero
  | None => f_of_Z 10
  end.
Definition connection_bonus (now : Z) (s : PeerScore) : f64 :=
  let uptime := as_secs (Z.max 0 (now - ps_connected_at s)) in
  if 3600 <=? uptime then f_of_Z 10 else if 300 <=? uptime then f_of_Z 5 else f_zero.
Definition freshness_adjustment (s : PeerScore) : f64 :=
  let total := sat_add32 (ps_stale_blocks s) (ps_fresh_blocks s) in
  if FRESHNESS_MIN_SAMPLE_SIZE <=? total
  then f_neg (f_min (f_mul (f_mul (f_div (f_of_Z (ps_stale_blocks s)) (f_of_Z total)) (f_lit 1 2)) (f_of_Z 30)) (f_of_Z 15))
  else f_zero.
Definition novelty_adjustment (s : PeerScore) : f64 :=
  let total := sat_add32 (ps_novel_blocks s) (ps_duplicate_blocks s) in
  if NOVELTY_MIN_SAMPLE_SIZE <=? total
  then f_clamp (f_mul (f_sub (f_div (f_of_Z (ps_novel_blocks s)) (f_of_Z total)) (f_lit 3 10)) (f_of_Z 25)) (f_of_Z (-10)) (f_of_Z 10)
  else f_zero.
Definition reputation (now : Z) (s : PeerScore) : f64 :=
  let block_score := f_mul (valid_ratio s) (f_of_Z 50) in
  let tx_penalty := f_min (f_mul (f_of_Z (ps_invalid_txs s)) (f_lit 2 10)) (f_of_Z 10) in
  let drift_penalty := f_min (ps_clock_drift_penalties s) (f_of_Z 20) in
  let score := f_add (f_add (f_add block_score (delivery_bonus s)) (latency_bonus s)) (connection_bonus now s) in
  let score := f_add (f_add (f_sub score tx_penalty) (freshness_adjustment s)) (novelty_adjustment s) in
  f_clamp (f_sub score drift_penalty) f_zero (f_of_Z 100).
End Reputation.

(** ** Rate limit and penalties *)

Abbreviation ScoreTable := (gmap SocketAddr PeerScore).
Definition score_at (now : Z) (a : SocketAddr) (m : ScoreTable) : PeerScore := default (peer_score_default now) (m !! a).

(** The next offense, its ban and the reason for it. *)
Definition ban_peer (now : Z) (reason : string) (s : PeerScore) : PeerScore :=
  let offense := sat_add32 (ps_offense_count s) 1 in
  ps_set_ban (Some (now + ban_duration_for_offense offense)) (Some reason) offense s.

Definition check_peer_rate_limit (now : Z) (a : SocketAddr) (m : ScoreTable) : bool * ScoreTable :=
  let s := score_at now a m in
  if ps_is_banned now s then (false, <[a := s]> m) else
  let s := if from_secs RATE_WINDOW_SECS <=? Z.max 0 (now - ps_window_start s) then ps_set_window 0 now s else s in
  let s := ps_set_window (add64 (ps_messages_this_window s) 1) (ps_window_start s) s in
  if MAX_MESSAGES_PER_MINUTE <? ps_messages_this_window s
  then (false, <[a := ban_peer now ("rate limit exceeded (" ++ pretty (ps_messages_this_window s) ++ " msgs/min)") s]> m)
  else (true, <[a := s]> m).
Definition is_peer_banned (now : Z) (m : ScoreTable) (a : SocketAddr) : bool :=
  match m !! a with Some s => ps_is_banned now s | None => false end.

Inductive PenaltyReason :=
| PInvalidBlock | PInvalidTransaction | PInvalidMessage | PSpam | PTimeout | PProtocolViolation
| PSignatureVerificationFailed | PMalformedMessage.
Definition penalize (now : Z) (r : PenaltyReason) (s : PeerScore) : PeerScore :=
  match r with
  | PInvalidMessage | PSignatureVerificationFailed | PMalformedMessage =>
      let n := sat_add32 (ps_invalid_messages s) 1 in
      let s := ps_set_invalid (ps_invalid_blocks s) (ps_invalid_txs s) n s in
      if MAX_INVALID_MESSAGES <=? n then ban_peer now (pretty n ++ " invalid messages") s else s
  | PInvalidBlock =>
      let n := add64 (ps_invalid_blocks s) 1 in
      let s := ps_set_invalid n (ps_invalid_txs s) (ps_invalid_messages s) s in
      if MAX_INVALID_BLOCKS <=? n then ban_peer now (pretty n ++ " invalid blocks") s else s
  | PInvalidTransaction =>
      let n := add64 (ps_invalid_txs s) 1 in
      let s := ps_set_invalid (ps_invalid_blocks s) n (ps_invalid_messages s) s in
      if MAX_INVALID_TXS <=? n then ban_peer now (pretty n ++ " invalid transactions") s else s
  | PSpam | PTimeout | PProtocolViolation => ps_set_failures (sat_add32 (ps_failure_count s) 1) s
  end.
Definition penalize_peer (now : Z) (a : SocketAddr) (r : PenaltyReason) (m : ScoreTable) : ScoreTable :=
  <[a := penalize now r (score_at now a m)]> m.
Definition record_send_success (now : Z) (a : SocketAddr) (m : ScoreTable) : ScoreTable :=
  alter (λ s, ps_set_seen now (sat_add32 (ps_success_count s) 1) s) a m.
Definition record_send_failure (a : SocketAddr) (m : ScoreTable) : ScoreTable :=
  alter (λ s, ps_set_failures (sat_add32 (ps_failure_count s) 1) s) a m.

(** ** Capabilities *)

Lemma meets_required_spec caps :
  meets_required_capabilities caps = true ↔ Z.testbit caps 0 = true ∧ Z.testbit caps 1 = true.
Proof.
  unfold meets_required_capabilities. change REQUIRED_CAPABILITIES with (Z.ones 2). rewrite Z.eqb_eq. split.
  - intros He. assert (Hb : ∀ i, Z.testbit (Z.land caps (Z.ones 2)) i = Z.testbit (Z.ones 2) i) by by rewrite He.
    split; [specialize (Hb 0)|specialize (Hb 1)]; rewrite Z.land_spec in Hb; cbn in Hb; by rewrite andb_true_r in Hb.
  - intros [H0 H1]. apply Z.bits_inj'. intros i Hi. rewrite Z.land_spec.
    destruct (decide (i < 2)) as [Hlt|Hge].
    + assert (i = 0 ∨ i = 1) as [->| ->] by lia; by rewrite ?H0, ?H1.
    + rewrite Z.ones_spec_high by lia. by rewrite andb_false_r.
Qed.

(** ** Seen hashes *)

Section SeenCacheProofs.
Context `{HashIter}.

Lemma delete_all_size (l : list (Hash * Z)) (m : gmap Hash Z) :
  NoDup l.*1 → (∀ ht, ht ∈ l → m !! ht.1 = Some ht.2) →
  let m' := foldl (λ c (ht : Hash * Z), delete ht.1 c) m l in
  (size m' + length l = size m)%nat ∧ m' ⊆ m ∧ ∀ ht, m' !! ht.1 = Some ht.2 ↔ m !! ht.1 = Some ht.2 ∧ ht.1 ∉ l.*1.
Proof.
  revert m. induction l as [|[h t] l IH]; intros m Hn Hl; cbn [foldl length].
  { split_and!; [lia|done|]. intros ht. set_solver. }
  rewrite fmap_cons in Hn. apply NoDup_cons in Hn as [Hh Hn].
  assert (Hm : m !! h = Some t) by exact (Hl (h, t) ltac:(by left)).
  destruct (IH (delete h m) Hn) as (Hs & Hsub & Hx).
  { intros [h' t'] Hin. cbn. rewrite lookup_delete_ne; [apply (Hl (h', t')); by right|].
    intros ->. apply Hh. by apply (list_elem_of_fmap_2 fst _ (h', t')). }
  cbn [fst]. split_and!.
  - rewrite map_size_delete_Some in Hs by eauto. assert (size m ≠ 0%nat).
    { intros Hz. apply map_size_empty_inv in Hz as ->. by rewrite lookup_empty in Hm. } lia.
  - etransitivity; [exact Hsub|]. apply delete_subseteq.
  - intros [h' t']. rewrite Hx. cbn. rewrite lookup_delete_Some, not_elem_of_cons. set_solver.
Qed.

(** After a cleanup the cache of seen hashes is within its limit, holds
    nothing new, and an entry that was dropped is older than two hours or not
    younger than any that was kept. *)
Theorem seen_cache_bounded max_size now cache :
  let cache' := evict_seen_cache max_size now cache in
  (size cache' <= max_size)%nat ∧ cache' ⊆ cache ∧
  ∀ h t h' t', cache !! h = Some t → cache' !! h = None → cache' !! h' = Some t' →
    from_secs 7200 <= Z.max 0 (now - t) ∨ t <= t'.
Proof.
  unfold evict_seen_cache. destruct (Nat.ltb_spec max_size (size cache)) as [Hlt|Hge]; cbv zeta; [|split_and!; [done|done|congruence]].
  set (fresh := filter _ cache). assert (Hf : fresh ⊆ cache) by apply map_filter_subseteq.
  assert (Hold : ∀ h t, cache !! h = Some t → fresh !! h = None → from_secs 7200 <= Z.max 0 (now - t)).
  { intros h t Hc Hn. destruct (decide (from_secs 7200 <= Z.max 0 (now - t))); [done|]. exfalso.
    assert (fresh !! h = Some t); [|congruence]. apply map_lookup_filter_Some. split; [done|]. cbn. change (2 * 60 * 60) with 7200. lia. }
  destruct (Nat.ltb_spec max_size (size fresh)) as [Hlt2|Hge2]; [|split_and!; [done|done|]].
  2: { intros h t h' t' Hc Hn _. left. by eapply Hold. }
  set (s := sort_by_key snd (hm_iter fresh)). set (n := (size fresh - max_size + 1000)%nat).
  assert (Hp : s ≡ₚ map_to_list fresh) by (unfold s, sort_by_key; rewrite sort_by_perm; apply hm_iter_perm).
  assert (Hss : StronglySorted (le_of (key_leb snd)) s) by (apply sort_by_sorted; [apply key_leb_total|apply key_leb_trans]).
  assert (Hnd : NoDup s.*1) by (rewrite Hp; apply NoDup_fst_map_to_list).
  destruct (delete_all_size (take n s) fresh) as (Hsz & Hsub & Hx).
  { rewrite <- (take_drop n s), fmap_app in Hnd. by apply NoDup_app in Hnd as [? _]. }
  { intros [h t] Hin. apply elem_of_map_to_list. rewrite <- Hp. by eapply subseteq_take. }
  set (c := foldl _ fresh (take n s)) in *. assert (Hlen : length s = size fresh) by (rewrite Hp; apply length_map_to_list).
  split_and!; [rewrite length_take in Hsz; lia|by etransitivity|].
  intros h t h' t' Hc Hn Hk. destruct (fresh !! h) as [u|] eqn:Hfh; [|left; by eapply Hold].
  assert (u = t) as -> by (pose proof (lookup_weaken _ _ _ _ Hfh Hf); congruence). right.
  assert (Hin1 : (h, t) ∈ take n s).
  { assert (Hs' : (h, t) ∈ s) by (rewrite Hp; by apply elem_of_map_to_list).
    rewrite <- (take_drop n s), elem_of_app in Hs'. destruct Hs' as [?|Hd]; [done|]. exfalso.
    assert (c !! (h, t).1 = Some (h, t).2); [|cbn in *; congruence]. apply Hx. split; [done|]. cbn. intros Hin.
    rewrite <- (take_drop n s), fmap_app in Hnd. apply NoDup_app in Hnd as (_ & Hdis & _).
    apply (Hdis h Hin). by apply (list_elem_of_fmap_2 fst _ (h, t)). }
  assert (Hin2 : (h', t') ∈ drop n s).
  { destruct (Hx (h', t')) as [Hx1 _]. destruct (Hx1 Hk) as [Hfk Hnot]. cbn in *.
    assert (Hs' : (h', t') ∈ s) by (rewrite Hp; by apply elem_of_map_to_list).
    rewrite <- (take_drop n s), elem_of_app in Hs'. destruct Hs' as [Ht|?]; [|done]. exfalso. apply Hnot.
    by apply (list_elem_of_fmap_2 fst _ (h', t')). }
  clear -Hss Hin1 Hin2. rewrite <- (take_drop n s) in Hss. revert Hss Hin1 Hin2.
  generalize (take n s) (drop n s). intros l1 l2. induction l1 as [|x l1 IH]; intros Hs H1 H2; [by apply not_elem_of_nil in H1|].
  cbn in Hs. apply StronglySorted_cons in Hs as [Hf Hs]. apply elem_of_cons in H1 as [<-|H1]; [|by apply IH].
  rewrite Forall_forall in Hf. specialize (Hf (h', t') ltac:(apply elem_of_app; by right)).
  unfold le_of, key_leb in Hf. cbn in Hf. lia.
Qed.
End SeenCacheProofs.

(** ** Message rates *)

Fixpoint messages_run (a : SocketAddr) (times : list Z) (m : ScoreTable) : list bool * ScoreTable :=
  match times with
  | [] => ([], m)
  | t :: ts => let '(ok, m1) := check_peer_rate_limit t a m in let '(oks, m2) := messages_run a ts m1 in (ok :: oks, m2)
  end.

Lemma banned_run a times m s b : m !! a = Some s → ps_banned_until s = Some b → Forall (λ t, t < b) times →
  (messages_run a times m).1 = replicate (length times) false.
Proof.
  intros Hm Hb Ht. revert m Hm. induction Ht as [|t ts Ht _ IH]; intros m Hm; [done|]. cbn [messages_run length].
  assert (Hc : check_peer_rate_limit t a m = (false, <[a := s]> m)).
  { unfold check_peer_rate_limit, score_at. cbv zeta. rewrite Hm. cbn [default]. unfold id. unfold ps_is_banned. rewrite Hb.
    by destruct (Z.ltb_spec t b); [|lia]. }
  rewrite Hc. specialize (IH (<[a := s]> m) ltac:(by rewrite lookup_insert_eq)).
  destruct (messages_run a ts _) as [oks m2]. cbn [fst] in *. by rewrite IH.
Qed.

Lemma filter_refused n : List.filter id (replicate n false) = [].
Proof. by induction n. Qed.

(** A peer in a window that started at [w] with [c] messages so far. *)
Lemma window_run a w times : ∀ m s, m !! a = Some s → ps_banned_until s = None → ps_window_start s = w →
  0 <= ps_messages_this_window s <= 3000 → 0 <= ps_offense_count s →
  Forall (λ t, w <= t < w + from_secs 60) times →
  allowed (messages_run a times m).1 = Z.min (Z.of_nat (length times)) (3000 - ps_messages_this_window s).
Proof.
  induction times as [|t ts IH]; intros m s Hm Hb Hw Hc Ho Ht; [unfold allowed; cbn; lia|].
  inversion_clear Ht as [|?? Ht1 Hts]. cbn [messages_run length].
  unfold check_peer_rate_limit, score_at. cbv zeta. rewrite Hm. cbn [default]. unfold id.
  unfold ps_is_banned at 1. rewrite Hb, Hw.
  destruct (Z.leb_spec (from_secs RATE_WINDOW_SECS) (Z.max 0 (t - w))) as [Hx|_]; [unfold RATE_WINDOW_SECS in Hx; lia|].
  rewrite add64_small by mlia. set (s1 := ps_set_window _ _ s).
  change (ps_messages_this_window s1) with (ps_messages_this_window s + 1).
  destruct (Z.ltb_spec MAX_MESSAGES_PER_MINUTE (ps_messages_this_window s + 1)) as [Hlt|Hge]; unfold MAX_MESSAGES_PER_MINUTE in *.
  - match goal with |- context [ban_peer t ?r s1] => set (s2 := ban_peer t r s1) end.
    pose proof (banned_run a ts (<[a := s2]> m) s2 (t + ban_duration_for_offense (sat_add32 (ps_offense_count s1) 1))
      ltac:(by rewrite lookup_insert_eq) eq_refl) as Hr.
    destruct (messages_run a ts _) as [oks m2]. cbn [fst] in *. rewrite Hr.
    + unfold allowed. cbn [List.filter id length]. pose proof (filter_refused (length ts)) as Hz.
      unfold id in *. rewrite Hz. cbn. lia.
    + eapply Forall_impl; [exact Hts|]. intros u Hu. cbn in Hu. unfold ban_duration_for_offense, from_secs, NANOS in *.
      repeat case_match; lia.
  - specialize (IH (<[a := s1]> m) s1 ltac:(by rewrite lookup_insert_eq) Hb Hw).
    change (ps_messages_this_window s1) with (ps_messages_this_window s + 1) in IH.
    change (ps_offense_count s1) with (ps_offense_count s) in IH.
    specialize (IH ltac:(lia) Ho Hts). destruct (messages_run a ts _) as [oks m2]. cbn [fst] in *.
    unfold allowed in *. cbn [List.filter id length]. unfold id in *. cbn [length]. lia.
Qed.

(** Of the messages a new peer sends in its first minute exactly the first
    3000 are let through, and the others are refused. *)
Theorem message_rate_exact a m start times : m !! a = None →
  Forall (λ t, start <= t < start + from_secs 60) times →
  allowed (messages_run a (start :: times) m).1 = Z.min (Z.of_nat (S (length times))) 3000.
Proof.
  intros Hm Ht. cbn [messages_run]. unfold check_peer_rate_limit, score_at. cbv zeta. rewrite Hm. cbn [default].
  unfold id. cbn [ps_is_banned peer_score_default ps_banned_until ps_window_start].
  destruct (Z.leb_spec (from_secs RATE_WINDOW_SECS) (Z.max 0 (start - start))) as [Hx|_]; [unfold RATE_WINDOW_SECS, from_secs, NANOS in Hx; lia|].
  set (s1 := ps_set_window _ _ _). change (MAX_MESSAGES_PER_MINUTE <? ps_messages_this_window s1) with false. cbv iota.
  pose proof (window_run a start times (<[a := s1]> m) s1 ltac:(by rewrite lookup_insert_eq) eq_refl eq_refl) as Hr.
  change (ps_messages_this_window s1) with 1 in Hr. change (ps_offense_count s1) with 0 in Hr.
  specialize (Hr ltac:(lia) ltac:(lia) Ht). destruct (messages_run a times _) as [oks m2]. cbn [fst] in *.
  unfold allowed in *. cbn [List.filter id length]. unfold id in *. cbn [length]. lia.
Qed.

(** ** Bans *)

Lemma ban_duration_mono n k : n <= k → ban_duration_for_offense n <= ban_duration_for_offense k.
Proof. intros. unfold ban_duration_for_offense, from_secs, NANOS. repeat case_match; lia. Qed.

Definition ban_bounded (now : Z) (s : PeerScore) : Prop :=
  ∀ b, ps_banned_until s = Some b → b <= now + ban_duration_for_offense (ps_offense_count s).

(** No further offense shortens a ban: a penalty or a rate check at a later
    time keeps the peer banned at least as long. *)
Theorem bans_never_shorten t now a m s r b : m !! a = Some s → ban_bounded t s → t <= now →
  0 <= ps_offense_count s <= u32_max → ps_banned_until s = Some b → now < b →
  (∃ s' b', penalize_peer now a r m !! a = Some s' ∧ ps_banned_until s' = Some b' ∧ b <= b' ∧ ban_bounded now s') ∧
  check_peer_rate_limit now a m = (false, m).
Proof.
  intros Hm Hbd Ht Ho Hb Hnow. specialize (Hbd b Hb). split.
  - unfold penalize_peer, score_at. rewrite lookup_insert_eq, Hm. cbn [default]. unfold id.
    assert (Hban : ∀ reason s0, ps_offense_count s0 = ps_offense_count s →
      ∃ s' b', Some (ban_peer now reason s0) = Some s' ∧ ps_banned_until s' = Some b' ∧ b <= b' ∧ ban_bounded now s').
    { intros reason s0 Hs0. eexists _, _. split; [done|]. unfold ban_peer. cbv zeta. rewrite Hs0. split; [done|].
      pose proof (ban_duration_mono (ps_offense_count s) (sat_add32 (ps_offense_count s) 1)) as Hd.
      unfold sat_add32 in *. split; [lia|]. intros b' [= <-]. cbn. lia. }
    assert (Hkeep : ∀ s0, ps_offense_count s0 = ps_offense_count s → ps_banned_until s0 = Some b →
      ∃ s' b', Some s0 = Some s' ∧ ps_banned_until s' = Some b' ∧ b <= b' ∧ ban_bounded now s').
    { intros s0 Hs0 Hb0. exists s0, b. split_and!; [done|done|lia|]. intros b' Hb'. rewrite Hs0.
      assert (b' = b) as -> by congruence. lia. }
    unfold penalize. cbv zeta. destruct r; repeat case_match; (apply Hban || apply Hkeep); done.
  - unfold check_peer_rate_limit, score_at. cbv zeta. rewrite Hm. cbn [default]. unfold id. unfold ps_is_banned at 1.
    rewrite Hb. destruct (Z.ltb_spec now b); [|lia]. by rewrite insert_id.
Qed.

Lemma reputation_range ln now s : let x := reputation ln now s in
  f_is_nan x = true ∨ (f_leb f_zero x = true ∧ f_leb x (f_of_Z 100) = true).
Proof.
  cbv zeta. unfold reputation. cbv zeta. match goal with |- context [f_clamp ?y _ _] => generalize y end. intros y.
  destruct (f_is_nan y) eqn:Hy; [left; by destruct y|right; by apply f_clamp_range].
Qed.

Module PeerScoreReference.
Definition ex_peer : SocketAddr := MkSocket (MkIp [10; 0; 0; 7]) 8080.
Lemma message_rate_exact_witness :
  allowed (messages_run ex_peer (5 :: replicate 3001 6) ∅).1 = 3000.
Proof.
  rewrite (message_rate_exact ex_peer ∅ 5 (replicate 3001 6)).
  - rewrite length_replicate. reflexivity.
  - apply lookup_empty.
  - apply Forall_forall. intros t Ht. apply elem_of_replicate in Ht as [-> _]. unfold from_secs, NANOS. lia.
Defined.

Definition banned_score : PeerScore := ban_peer 10 "spam" (peer_score_default 0).
Lemma bans_never_shorten_witness :
  check_peer_rate_limit 20 ex_peer {[ex_peer := banned_score]} = (false, {[ex_peer := banned_score]}).
Proof.
  apply (bans_never_shorten 10 20 ex_peer {[ex_peer := banned_score]} banned_score PSpam
           (10 + ban_duration_for_offense 1)); try lia.
  - apply lookup_singleton_eq.
  - intros b [= <-]. cbn. lia.
  - vm_compute. split; discriminate.
  - reflexivity.
  - unfold ban_duration_for_offense, from_secs, NANOS. cbn. lia.
Defined.
End PeerScoreReference.
