(* ===== verification/Wire.v ===== *)
(** * Wire: messages between peers, their signatures and their framing

    Models the message types of [irondag-blockchain/src/network.rs],
    [sign_message], [sign_message_with_key], [verify_message], and the two ways
    its tasks write bytes to a gossip stream: with the frame byte of protocol
    v2, and without it.  [bincode] is the class [MessageCodec]; the [kyber]
    feature is off, as by default. *)

From S2P Require Import Prelude Types Block Error SyncPool SyncProtocol.

Definition MAX_MESSAGE_SIZE : usize := 10 * 1024 * 1024.
Definition MSG_FRAME_PLAINTEXT : u8 := 0.
Definition MSG_FRAME_KYBER_ENCRYPTED : u8 := 1.

Inductive NetworkMessage :=
| MHandshake (listen_addr : string) (capabilities : u32)
| MNewBlock (block : Block)
| MNewCompactBlock (compact_block : CompactBlock)
| MNewShardBlock (block : Block) (shard_id : nat)
| MNewTransaction (transaction : Transaction)
| MRequestBlocks (from_block count : u64)
| MRequestBlocksByHash (hashes : list Hash)
| MRequestMissingParents (hashes : list Hash)
| MRequestShardBlocks (shard_id : nat) (from_block count : u64)
| MBlocks (blocks : list Block)
| MShardBlocks (shard_id : nat) (blocks : list Block)
| MPing (nonce : u64)
| MPong (nonce : u64)
| MRequestPeers
| MPeers (addresses : list string)
| MGetMissingTransactions (block_hash : Hash) (short_ids : list (list u8)) (nonce : u64)
| MMissingTransactions (block_hash : Hash) (transactions : list Transaction)
| MKyberPublicKey (public_key : list u8)
| MKyberCiphertext (ciphertext : list u8)
| MKyberHandshakeAck.

(** The position of the variant in the declaration. *)
Definition variant (m : NetworkMessage) : u32 :=
  match m with
  | MHandshake _ _ => 0 | MNewBlock _ => 1 | MNewCompactBlock _ => 2 | MNewShardBlock _ _ => 3 | MNewTransaction _ => 4
  | MRequestBlocks _ _ => 5 | MRequestBlocksByHash _ => 6 | MRequestMissingParents _ => 7 | MRequestShardBlocks _ _ _ => 8
  | MBlocks _ => 9 | MShardBlocks _ _ => 10 | MPing _ => 11 | MPong _ => 12 | MRequestPeers => 13 | MPeers _ => 14
  | MGetMissingTransactions _ _ _ => 15 | MMissingTransactions _ _ => 16
  | MKyberPublicKey _ => 17 | MKyberCiphertext _ => 18 | MKyberHandshakeAck => 19
  end.

Record AuthenticatedMessage := MkAuth {
  am_message : NetworkMessage;
  am_signature : list u8;
  am_public_key : list u8;
  am_timestamp : u64 }.

(** [bincode] writes an enum as the index of the variant in four bytes, then
    its fields, and a struct as its fields in order. *)
Class MessageCodec := {
  #[global] message_codec :: Codec NetworkMessage;
  #[global] authenticated_codec :: Codec AuthenticatedMessage;
  variant_first : ∀ m bs, serialize m = Some bs → take 4 bs = to_le_bytes 4 (variant m);
  message_first : ∀ a bs, serialize a = Some bs →
    ∃ mb rest, serialize (am_message a) = Some mb ∧ bs = mb ++ rest }.

Section Signing.
Context `{Crypto, MessageCodec}.

Definition bincode_message (m : NetworkMessage) : result BlockchainError (list u8) :=
  ok_or (Serialization "bincode") (serialize m).
Definition signed_payload (message_bytes : list u8) (timestamp : u64) : list u8 := message_bytes ++ to_le_bytes 8 timestamp.

Definition sign_message (now : u64) (signing_key : list u8) (m : NetworkMessage) : result BlockchainError AuthenticatedMessage :=
  message_bytes ← bincode_message m;
  Ok (MkAuth m (ed25519_sign signing_key (signed_payload message_bytes now)) (ed25519_public signing_key) now).
Definition sign_message_with_key (now : u64) (m : NetworkMessage) (node_secret_key node_public_key : list u8) :
    result BlockchainError AuthenticatedMessage :=
  message_bytes ← bincode_message m;
  Ok (MkAuth m (ed25519_sign node_secret_key (signed_payload message_bytes now)) (ed25519_public node_secret_key) now).

(** The answer to a ping and the first request of [connect_peer] sign the
    message alone. *)
Definition sign_untimed (now : u64) (m : NetworkMessage) (signing_key node_public_key : list u8) :
    result BlockchainError AuthenticatedMessage :=
  message_bytes ← bincode_message m;
  Ok (MkAuth m (ed25519_sign signing_key message_bytes) node_public_key now).

Definition verify_message (now : u64) (msg : AuthenticatedMessage) (pinned_key : option (list u8)) :
    result BlockchainError unit :=
  if (add64 now 300 <? am_timestamp msg) || (am_timestamp msg <? sat_sub now 300)
  then Err (Network "Message timestamp out of acceptable range (possible replay attack)") else
  if bool_decide (am_signature msg = []) || bool_decide (am_public_key msg = [])
  then Err (Network "Message missing signature or public key - unsigned messages are not allowed") else
  if negb (length (am_signature msg) =? 64)%nat then Err (Network "Invalid signature length") else
  if negb (length (am_public_key msg) =? 32)%nat then Err (Network "Invalid public key length") else
  _ ← (match pinned_key with
       | Some expected => ensure (bool_decide (am_public_key msg = expected))
                            (Network "Public key mismatch: peer key changed (possible MITM)")
       | None => Ok tt
       end);
  if negb (ed25519_key_ok (am_public_key msg)) then Err (Network "Invalid public key") else
  if negb (ed25519_sig_ok (am_signature msg)) then Err (Network "Invalid signature") else
  message_bytes ← bincode_message (am_message msg);
  ensure (ed25519_verify (am_public_key msg) (signed_payload message_bytes (am_timestamp msg)) (am_signature msg))
    (Network "Message signature verification failed").

(** ** Frames *)

(** [write_u32] is big-endian; [as u32] truncates. *)
Definition be32 (n : Z) : list u8 := to_be_bytes 4 (n mod 2 ^ 32).
Definition write_framed (data : list u8) : list u8 :=
  be32 (1 + Z.of_nat (length data)) ++ MSG_FRAME_PLAINTEXT :: data.
(** How [process_message] answers. *)
Definition write_unframed (data : list u8) : list u8 := be32 (Z.of_nat (length data)) ++ data.

Inductive FrameRead :=
| FrEnd
| FrOversized (len : Z) (rest : list u8)
| FrEmpty (rest : list u8)
| FrMessage (frame_byte : u8) (payload rest : list u8).

(** How [handle_peer] reads the next message. *)
Definition read_frame (input : list u8) : FrameRead :=
  match read_exact 4 input with
  | Err _ => FrEnd
  | Ok (head, rest) =>
      let len := from_be_bytes head in
      if MAX_MESSAGE_SIZE <? len then FrOversized len rest else
      if len <? 1 then FrEmpty rest else
      match read_exact 1 rest with
      | Err _ => FrEnd
      | Ok (fb, rest) =>
          match read_exact (Z.to_nat (len - 1)) rest with
          | Err _ => FrEnd
          | Ok (payload, rest) => FrMessage (hd 0 fb) payload rest
          end
      end
  end.
End Signing.

(** ** Theorems *)

Lemma read_exact_one b (ys : list u8) : read_exact 1 (b :: ys) = Ok ([b], ys).
Proof. exact (read_exact_app 1 [b] ys eq_refl). Qed.

Lemma length_be32 n : length (be32 n) = 4%nat.
Proof. unfold be32, to_be_bytes. rewrite length_reverse. by pose proof (length_to_le_bytes 4 (n mod 2 ^ 32)); lia. Qed.
Lemma from_be32 n : 0 <= n < 2 ^ 32 → from_be_bytes (be32 n) = n.
Proof. intros Hn. unfold be32. rewrite Z.mod_small by lia. apply from_to_be_bytes; lia. Qed.

Lemma read_framed data more : 1 + Z.of_nat (length data) <= MAX_MESSAGE_SIZE →
  read_frame (write_framed data ++ more) = FrMessage MSG_FRAME_PLAINTEXT data more.
Proof.
  intros Hl. unfold read_frame, write_framed. unfold MAX_MESSAGE_SIZE in *. rewrite <- app_assoc, (read_exact_app 4) by apply length_be32.
  rewrite from_be32 by lia. destruct (Z.ltb_spec (10 * 1024 * 1024) (1 + Z.of_nat (length data))); [lia|].
  destruct (Z.ltb_spec (1 + Z.of_nat (length data)) 1); [lia|]. cbn [app].
  rewrite read_exact_one. cbn [hd].
  by rewrite (read_exact_app _ data more) by lia.
Qed.

(** What is written without a frame byte is read with its first byte as one. *)
Lemma read_unframed b data more : 1 + Z.of_nat (length data) <= MAX_MESSAGE_SIZE →
  read_frame (write_unframed (b :: data) ++ more) = FrMessage b data more.
Proof.
  intros Hl. unfold read_frame, write_unframed. unfold MAX_MESSAGE_SIZE in *. rewrite <- app_assoc, (read_exact_app 4) by apply length_be32.
  cbn [length]. rewrite from_be32 by lia. destruct (Z.ltb_spec (10 * 1024 * 1024) (Z.of_nat (S (length data)))); [lia|].
  destruct (Z.ltb_spec (Z.of_nat (S (length data))) 1); [lia|]. cbn [app].
  rewrite read_exact_one. cbn [hd].
  by rewrite (read_exact_app _ data more) by lia.
Qed.

Section Delivery.
Context `{Crypto, MessageCodec}.

(** Exactly the messages that are accepted. *)
Lemma verify_message_Ok now msg pinned :
  verify_message now msg pinned = Ok tt ↔
  sat_sub now 300 <= am_timestamp msg <= add64 now 300 ∧ length (am_signature msg) = 64%nat ∧
  length (am_public_key msg) = 32%nat ∧ (∀ k, pinned = Some k → am_public_key msg = k) ∧
  ed25519_key_ok (am_public_key msg) = true ∧ ed25519_sig_ok (am_signature msg) = true ∧
  ∃ bs, serialize (am_message msg) = Some bs ∧
    ed25519_verify (am_public_key msg) (signed_payload bs (am_timestamp msg)) (am_signature msg) = true.
Proof.
  unfold verify_message. destruct (am_signature msg) as [|s0 sig] eqn:Hs.
  { split; [|intros (_ & [=] & _)]. by destruct (_ || _). }
  destruct (am_public_key msg) as [|k0 key] eqn:Hk.
  { split; [|intros (_ & _ & [=] & _)]. by destruct (_ || _). }
  rewrite !bool_decide_eq_false_2 by done. cbn [orb].
  destruct (Z.ltb_spec (add64 now 300) (am_timestamp msg)); cbn [orb]; [split; [done|intros [? _]; lia]|].
  destruct (Z.ltb_spec (am_timestamp msg) (sat_sub now 300)); cbn [orb]; [split; [done|intros [? _]; lia]|].
  destruct (Nat.eqb_spec (length (s0 :: sig)) 64); cbn [negb]; [|split; [done|intros (_ & ? & _); done]].
  destruct (Nat.eqb_spec (length (k0 :: key)) 32); cbn [negb]; [|split; [done|intros (_ & _ & ? & _); done]].
  rewrite bind_Ok. split.
  - intros ([] & Hp & Hr). destruct (ed25519_key_ok _) eqn:Hko; [|done]. destruct (ed25519_sig_ok _) eqn:Hso; [|done].
    cbn [negb] in Hr. apply bind_Ok in Hr as (bs & Hb & Hv). unfold bincode_message in Hb.
    destruct (serialize (am_message msg)) as [bs'|] eqn:Hm; [|done]. injection Hb as ->.
    split_and!; try done. { intros k ->. apply ensure_Ok in Hp. by apply bool_decide_eq_true in Hp. }
    exists bs. split; [done|]. by apply ensure_Ok in Hv.
  - intros (_ & _ & _ & Hp & Hko & Hso & bs & Hm & Hv). exists tt. split.
    { destruct pinned as [k|]; [|done]. apply ensure_Ok. apply bool_decide_eq_true. by apply Hp. }
    rewrite Hko, Hso. cbn [negb]. unfold bincode_message. rewrite Hm. cbn. apply ensure_Ok. done.
Qed.

(** A message that is signed, serialised and framed by one node is read,
    decoded and accepted by its peer, in front of whatever follows it, as long
    as the clocks are within five minutes and the key is not another one than
    the pinned one. *)
Theorem message_delivered sent now sk m a data more pinned :
  in_u64 sent → in_u64 now → now + 300 <= u64_max → now - 300 <= sent <= now + 300 →
  sign_message sent sk m = Ok a → serialize a = Some data → 1 + Z.of_nat (length data) <= MAX_MESSAGE_SIZE →
  (∀ k, pinned = Some k → k = ed25519_public sk) →
  read_frame (write_framed data ++ more) = FrMessage MSG_FRAME_PLAINTEXT data more ∧
  deserialize data = Some a ∧ am_message a = m ∧ verify_message now a pinned = Ok tt.
Proof.
  intros Hs Hn Hw Hclock Ha Hd Hl Hp. unfold sign_message, bincode_message in Ha.
  destruct (serialize m) as [bs|] eqn:Hm; [|done]. injection Ha as <-.
  split; [by apply read_framed|]. split; [by apply deserialize_serialize|]. split; [done|].
  apply verify_message_Ok. cbn. destruct (ed25519_correct sk (signed_payload bs sent)) as (Hk & Hsg & Hv).
  split; [rewrite add64_small by mlia; unfold sat_sub; mlia|].
  split; [apply ed25519_sign_length|]. split; [apply ed25519_public_length|].
  split; [intros k Hk'; symmetry; by apply Hp|]. split; [done|]. split; [done|]. by exists bs.
Qed.

(** An answer of [process_message] is not read by the peer: written
    without a frame byte, the number of its variant is taken for one, and only
    the numbers 0 and 1 mean something. *)
Theorem unframed_answer_unread m a data more : 2 <= variant m →
  (serialize m = Some data ∨ (serialize a = Some data ∧ am_message a = m)) →
  Z.of_nat (length data) <= MAX_MESSAGE_SIZE →
  ∃ payload, read_frame (write_unframed data ++ more) = FrMessage (variant m) payload more ∧
    variant m ≠ MSG_FRAME_PLAINTEXT ∧ variant m ≠ MSG_FRAME_KYBER_ENCRYPTED.
Proof.
  intros Hv Hd Hl. assert (Hhd : ∃ rest, data = variant m :: rest).
  { assert (Hm : ∃ mb rest, serialize m = Some mb ∧ data = mb ++ rest).
    { destruct Hd as [Hd|[Hd <-]]; [|by apply message_first]. exists data, []. by rewrite app_nil_r. }
    destruct Hm as (mb & rest & Hm & ->). apply variant_first in Hm.
    assert (Hb : to_le_bytes 4 (variant m) = variant m :: [0; 0; 0]) by by destruct m.
    rewrite Hb in Hm. destruct mb as [|b mb]; [done|]. cbn in Hm. injection Hm as -> _. by exists (mb ++ rest). }
  destruct Hhd as [rest ->]. exists rest. cbn [length] in Hl. split; [apply read_unframed; lia|].
  unfold MSG_FRAME_PLAINTEXT, MSG_FRAME_KYBER_ENCRYPTED. lia.
Qed.

(** The request for blocks with which a connection begins is refused by
    the peer, unless the signature of the message is also one of the message
    followed by the time: every connection begins with an offense. *)
Theorem untimed_signature_refused sent now sk m a bs pinned :
  sign_untimed sent m sk (ed25519_public sk) = Ok a → serialize m = Some bs →
  ed25519_verify (ed25519_public sk) (bs ++ to_le_bytes 8 sent) (ed25519_sign sk bs) = false →
  verify_message now a pinned ≠ Ok tt.
Proof.
  intros Ha Hm Hf Hv. unfold sign_untimed, bincode_message in Ha. rewrite Hm in Ha. injection Ha as <-.
  apply verify_message_Ok in Hv as (_ & _ & _ & _ & _ & _ & bs' & Hm' & Hv). cbn in *.
  rewrite Hm in Hm'. injection Hm' as <-. unfold signed_payload in Hv. congruence.
Qed.
End Delivery.

(** ** A small codec *)

#[global] Instance CompactBlock_eq_dec : EqDecision CompactBlock.
Proof. solve_decision. Defined.
#[global] Instance NetworkMessage_eq_dec : EqDecision NetworkMessage.
Proof. solve_decision. Defined.

Module WireReference.
#[local] Existing Instance BlockReference.crypto.

(** The messages of a table, each as its variant and its index. *)
Definition index_codec (table : list NetworkMessage) : Codec NetworkMessage.
Proof.
  refine {| serialize := λ m, (λ i, to_le_bytes 4 (variant m) ++ [Z.of_nat i]) <$> position (λ x, bool_decide (x = m)) table;
            deserialize := λ bs, match drop 4 bs with [z] => table !! Z.to_nat z | _ => None end |}.
  intros a bs Hs. destruct (position _ table) as [i|] eqn:Hi; [|done]. injection Hs as <-.
  change (table !! Z.to_nat (Z.of_nat i) = Some a). rewrite Nat2Z.id. apply position_Some in Hi as (x & Hx & Hb). bool_to_prop. by subst.
Defined.
Definition envelope_codec (table : list NetworkMessage) : Codec AuthenticatedMessage.
Proof.
  refine {| serialize := λ a,
              mb ← serialize (Codec := index_codec table) (am_message a);
              Some (mb ++ bits_of (encode (am_signature a, am_public_key a, am_timestamp a)));
            deserialize := λ bs,
              m ← deserialize (Codec := index_codec table) (take 5 bs);
              '(sig, key, ts) ← decode (of_bits (drop 5 bs));
              Some (MkAuth m sig key ts) |}.
  intros [m sig key ts] bs Hs. cbn [am_message am_signature am_public_key am_timestamp] in Hs.
  destruct (serialize (Codec := index_codec table) m) as [mb|] eqn:Hm; [|done]. injection Hs as <-.
  assert (Hl : length mb = 5%nat). { cbn in Hm. destruct (position _ table); [|done]. by injection Hm as <-. }
  rewrite take_app_length' by done. rewrite drop_app_length' by done.
  rewrite (deserialize_serialize (Codec := index_codec table) _ _ Hm). cbn [mbind option_bind].
  by rewrite of_bits_of, decode_encode.
Defined.
Definition table_messages (table : list NetworkMessage) : MessageCodec.
Proof.
  refine {| message_codec := index_codec table; authenticated_codec := envelope_codec table |}.
  - intros m bs Hm. cbn in Hm. destruct (position _ table); [|done]. by injection Hm as <-.
  - intros a bs Ha. cbn [serialize envelope_codec] in Ha.
    destruct (serialize (Codec := index_codec table) (am_message a)) as [mb|] eqn:Hm; [|done]. injection Ha as <-. by eexists _, _.
Defined.

#[local] Instance few : MessageCodec := table_messages [MPing 7; MPong 7; MRequestBlocks 1 500].
Definition ex_key : list u8 := [9; 9].
Definition ex_auth : AuthenticatedMessage := default (MkAuth MRequestPeers [] [] 0) (ok (sign_message 1000 ex_key (MPing 7))).

Lemma message_delivered_witness :
  verify_message 1100 ex_auth (Some (ed25519_public ex_key)) = Ok tt.
Proof.
  refine (proj2 (proj2 (proj2 (message_delivered 1000 1100 ex_key (MPing 7) ex_auth (default [] (serialize ex_auth)) []
    (Some (ed25519_public ex_key)) _ _ _ _ _ _ _ _)))); try (unfold in_u64, u64_max; lia); try (vm_compute; reflexivity).
  - vm_compute. discriminate.
  - intros k [= <-]. reflexivity.
Defined.

Lemma unframed_answer_unread_witness :
  ∃ payload, read_frame (write_unframed (default [] (serialize (MPong 7))) ++ []) = FrMessage 12 payload [].
Proof.
  destruct (unframed_answer_unread (MPong 7) ex_auth (default [] (serialize (MPong 7))) []) as (payload & Hp & _).
  - cbn. lia.
  - left. vm_compute. reflexivity.
  - vm_compute. discriminate.
  - exists payload. exact Hp.
Defined.

Definition ex_untimed : AuthenticatedMessage :=
  default (MkAuth MRequestPeers [] [] 0) (ok (sign_untimed 1000 (MRequestBlocks 1 500) ex_key (ed25519_public ex_key))).
Lemma untimed_signature_refused_witness : verify_message 1000 ex_untimed None ≠ Ok tt.
Proof.
  apply (untimed_signature_refused 1000 1000 ex_key (MRequestBlocks 1 500) ex_untimed
           (default [] (serialize (MRequestBlocks 1 500))) None); vm_compute; reflexivity.
Defined.
End WireReference.
