(* ===== verification/PeerTables.v ===== *)
(** * PeerTables: who is connected

    Models the tables [irondag-blockchain/src/network.rs] keeps about its peers
    and the operations that add and remove them: eviction, the accept loop of
    [start], [connect_peer], [cleanup_peer_state_on_error], the registration of
    persisted peers, and the registration of senders in [handle_peer].  Each
    table has a lock of its own in the source; an operation runs without
    interruption here.  The text of a socket address is the class [AddrText].
    A connection and a stream are recorded by their presence. *)

From S2P Require Import Prelude Types Error Storage Float64 RateLimit PeerScore.

Inductive ConnectionType := Inbound | Outbound.
#[global] Instance ConnectionType_eq_dec : EqDecision ConnectionType.
Proof. solve_decision. Defined.

(** [SocketAddr] as text. *)
Class AddrText := {
  addr_text : SocketAddr → string;
  addr_parse : string → option SocketAddr;
  addr_parse_text : ∀ a, addr_parse (addr_text a) = Some a }.

(** [t_db] is the database, of which only the keys of peers are used here. *)
Record Tables := MkTables {
  t_peers : gset SocketAddr;
  t_scores : gmap SocketAddr PeerScore;
  t_count : usize;
  t_types : gmap SocketAddr ConnectionType;
  t_subnets : gmap (u8 * u8) nat;
  t_quic : gset SocketAddr;
  t_streams : gset SocketAddr;
  t_keys : gmap SocketAddr (list u8);
  t_advertised : gmap SocketAddr string;
  t_request_times : gmap SocketAddr Z;
  t_lists : gmap SocketAddr (gset SocketAddr);
  t_fanout : option (Z * list SocketAddr);
  t_identities : gmap SocketAddr (list u8);
  t_db : option Sled;
  t_max_peers : option u32 }.
Definition set_peers (x : gset SocketAddr) (t : Tables) : Tables :=
  MkTables x (t_scores t) (t_count t) (t_types t) (t_subnets t) (t_quic t) (t_streams t) (t_keys t) (t_advertised t)
    (t_request_times t) (t_lists t) (t_fanout t) (t_identities t) (t_db t) (t_max_peers t).
Definition set_scores (x : gmap SocketAddr PeerScore) (t : Tables) : Tables :=
  MkTables (t_peers t) x (t_count t) (t_types t) (t_subnets t) (t_quic t) (t_streams t) (t_keys t) (t_advertised t)
    (t_request_times t) (t_lists t) (t_fanout t) (t_identities t) (t_db t) (t_max_peers t).
Definition set_count (x : usize) (t : Tables) : Tables :=
  MkTables (t_peers t) (t_scores t) x (t_types t) (t_subnets t) (t_quic t) (t_streams t) (t_keys t) (t_advertised t)
    (t_request_times t) (t_lists t) (t_fanout t) (t_identities t) (t_db t) (t_max_peers t).
Definition set_types (x : gmap SocketAddr ConnectionType) (t : Tables) : Tables :=
  MkTables (t_peers t) (t_scores t) (t_count t) x (t_subnets t) (t_quic t) (t_streams t) (t_keys t) (t_advertised t)
    (t_request_times t) (t_lists t) (t_fanout t) (t_identities t) (t_db t) (t_max_peers t).
Definition set_subnets (x : gmap (u8 * u8) nat) (t : Tables) : Tables :=
  MkTables (t_peers t) (t_scores t) (t_count t) (t_types t) x (t_quic t) (t_streams t) (t_keys t) (t_advertised t)
    (t_request_times t) (t_lists t) (t_fanout t) (t_identities t) (t_db t) (t_max_peers t).
Definition set_quic (x : gset SocketAddr) (t : Tables) : Tables :=
  MkTables (t_peers t) (t_scores t) (t_count t) (t_types t) (t_subnets t) x (t_streams t) (t_keys t) (t_advertised t)
    (t_request_times t) (t_lists t) (t_fanout t) (t_identities t) (t_db t) (t_max_peers t).
Definition set_streams (x : gset SocketAddr) (t : Tables) : Tables :=
  MkTables (t_peers t) (t_scores t) (t_count t) (t_types t) (t_subnets t) (t_quic t) x (t_keys t) (t_advertised t)
    (t_request_times t) (t_lists t) (t_fanout t) (t_identities t) (t_db t) (t_max_peers t).
Definition set_keys (x : gmap SocketAddr (list u8)) (t : Tables) : Tables :=
  MkTables (t_peers t) (t_scores t) (t_count t) (t_types t) (t_subnets t) (t_quic t) (t_streams t) x (t_advertised t)
    (t_request_times t) (t_lists t) (t_fanout t) (t_identities t) (t_db t) (t_max_peers t).
Definition set_advertised (x : gmap SocketAddr string) (t : Tables) : Tables :=
  MkTables (t_peers t) (t_scores t) (t_count t) (t_types t) (t_subnets t) (t_quic t) (t_streams t) (t_keys t) x
    (t_request_times t) (t_lists t) (t_fanout t) (t_identities t) (t_db t) (t_max_peers t).
Definition set_request_times (x : gmap SocketAddr Z) (t : Tables) : Tables :=
  MkTables (t_peers t) (t_scores t) (t_count t) (t_types t) (t_subnets t) (t_quic t) (t_streams t) (t_keys t)
    (t_advertised t) x (t_lists t) (t_fanout t) (t_identities t) (t_db t) (t_max_peers t).
Definition set_lists (x : gmap SocketAddr (gset SocketAddr)) (t : Tables) : Tables :=
  MkTables (t_peers t) (t_scores t) (t_count t) (t_types t) (t_subnets t) (t_quic t) (t_streams t) (t_keys t)
    (t_advertised t) (t_request_times t) x (t_fanout t) (t_identities t) (t_db t) (t_max_peers t).
Definition set_fanout (x : option (Z * list SocketAddr)) (t : Tables) : Tables :=
  MkTables (t_peers t) (t_scores t) (t_count t) (t_types t) (t_subnets t) (t_quic t) (t_streams t) (t_keys t)
    (t_advertised t) (t_request_times t) (t_lists t) x (t_identities t) (t_db t) (t_max_peers t).
Definition set_identities (x : gmap SocketAddr (list u8)) (t : Tables) : Tables :=
  MkTables (t_peers t) (t_scores t) (t_count t) (t_types t) (t_subnets t) (t_quic t) (t_streams t) (t_keys t)
    (t_advertised t) (t_request_times t) (t_lists t) (t_fanout t) x (t_db t) (t_max_peers t).
Definition set_db (x : option Sled) (t : Tables) : Tables :=
  MkTables (t_peers t) (t_scores t) (t_count t) (t_types t) (t_subnets t) (t_quic t) (t_streams t) (t_keys t)
    (t_advertised t) (t_request_times t) (t_lists t) (t_fanout t) (t_identities t) x (t_max_peers t).


(** ** Subnets *)

Definition is_localhost (a : SocketAddr) : bool :=
  match ip_bytes (socket_ip a) with [o1; _; _; _] => o1 =? 127 | _ => false end.

(** One peer less; [cleanup_peer_state_on_error] keeps an entry of zero. *)
Definition dec_subnet (drop_zero : bool) (a : SocketAddr) (m : gmap (u8 * u8) nat) : gmap (u8 * u8) nat :=
  match subnet_prefix_16 a with
  | Some p =>
      match m !! p with
      | Some n => let n' := (n - 1)%nat in if drop_zero && (n' =? 0)%nat then delete p m else <[p := n']> m
      | None => m
      end
  | None => m
  end.
(** One more, unless the subnet is full. *)
Definition inc_subnet (a : SocketAddr) (m : gmap (u8 * u8) nat) : option (gmap (u8 * u8) nat) :=
  match subnet_prefix_16 a with
  | Some p =>
      let n := default 0%nat (m !! p) in
      if (MAX_PEERS_PER_SUBNET_16 <=? n)%nat then None else Some (<[p := S n]> m)
  | None => Some m
  end.

(** The counter is decremented when it is positive. *)
Definition dec_count (n : usize) : usize := if 0 <? n then n - 1 else n.
Definition count_type (k : ConnectionType) (t : Tables) : nat := size (filter (λ ac, ac.2 = k) (t_types t)).

(** ** Persistence *)

Section Persistence.
Context `{AddrText}.
Definition PEER_PREFIX : list u8 := bytes_of_string "peer:".
Definition peer_key (a : SocketAddr) : list u8 := PEER_PREFIX ++ bytes_of_string (addr_text a).
Definition persist_peer (a : SocketAddr) (t : Tables) : Tables := set_db ((λ db, <[peer_key a := []]> db) <$> t_db t) t.
Definition remove_persisted_peer (a : SocketAddr) (t : Tables) : Tables := set_db ((λ db, delete (peer_key a) db) <$> t_db t) t.
Definition load_persisted_peers (t : Tables) : list SocketAddr :=
  match t_db t with
  | Some db =>
      omap (λ kv, addr_parse (String.string_of_list_ascii ((λ b, Ascii.ascii_of_nat (Z.to_nat b)) <$> drop 5 kv.1)))
        (scan_prefix db PEER_PREFIX)
  | None => []
  end.
(** The first part of [start]. *)
Definition register_persisted (now : Z) (t : Tables) : Tables :=
  foldl (λ t a, set_scores (<[a := score_at now a (t_scores t)]> (t_scores t)) (set_peers ({[a]} ∪ t_peers t) t))
    t (load_persisted_peers t).
End Persistence.

(** ** Eviction *)

Section Eviction.
Context `{HashIter}.

(** Score and last time seen of a candidate; [now] for a peer without a score. *)
Definition standing (now : Z) (t : Tables) (a : SocketAddr) : Z * Z :=
  match t_scores t !! a with Some s => (eviction_score s, ps_last_seen s) | None => (0, now) end.
Definition worse (x y : Z * Z) : bool := (x.1 <? y.1) || ((x.1 =? y.1) && (x.2 <? y.2)).
Definition worst_step (now : Z) (t : Tables) (worst : option (SocketAddr * (Z * Z))) (a : SocketAddr) :
    option (SocketAddr * (Z * Z)) :=
  let x := standing now t a in
  match worst with
  | None => Some (a, x)
  | Some (_, y) => if worse x y then Some (a, x) else worst
  end.
Definition worst_peer (now : Z) (t : Tables) : option SocketAddr :=
  fst <$> foldl (worst_step now t) None (hs_iter (t_peers t)).

Definition evict_lowest_peer (now : Z) (t : Tables) : option SocketAddr * Tables :=
  match worst_peer now t with
  | None => (None, t)
  | Some a =>
      let was_present := bool_decide (a ∈ t_peers t) in
      let t := set_peers (t_peers t ∖ {[a]}) t in
      let t := if was_present then set_count (dec_count (t_count t)) t else t in
      let t := set_streams (t_streams t ∖ {[a]}) t in
      let t := set_scores (delete a (t_scores t)) t in
      let t := set_types (delete a (t_types t)) t in
      (Some a, set_subnets (dec_subnet true a (t_subnets t)) t)
  end.
Definition evict_if (c : bool) (now : Z) (t : Tables) : Tables := if c then (evict_lowest_peer now t).2 else t.

(** ** Connections *)

Context `{AddrText}.

(** Recording a connected peer, common to both directions. *)
Definition enter_peer (now : Z) (a : SocketAddr) (k : ConnectionType) (t : Tables) : Tables :=
  let t := set_peers ({[a]} ∪ t_peers t) t in
  let t := set_scores (<[a := peer_score_default now]> (t_scores t)) t in
  let t := set_count (add64 (t_count t) 1) t in
  set_types (<[a := k]> (t_types t)) t.
Definition remember_identity (a : SocketAddr) (identity : option (list u8)) (t : Tables) : Tables :=
  match identity with Some pk => set_identities (<[a := pk]> (t_identities t)) t | None => t end.

Definition inbound_full (a : SocketAddr) (t : Tables) : bool :=
  match t_max_peers t with
  | Some max => negb (is_localhost a) && (inbound_slots (Z.to_nat max) <=? count_type Inbound t)%nat
  | None => false
  end.
Definition at_limit (t : Tables) : bool :=
  match t_max_peers t with Some max => (Z.to_nat max <=? size (t_peers t))%nat | None => false end.

(** The accept loop, for one connection; whether it is accepted. *)
Definition accept_connection (now : Z) (a : SocketAddr) (identity : option (list u8)) (t : Tables) : bool * Tables :=
  let '(room, t) := if (MAX_TOTAL_PEERS <=? size (t_peers t))%nat
                    then let '(evicted, t) := evict_lowest_peer now t in (bool_decide (is_Some evicted), t)
                    else (true, t) in
  if negb room then (false, t) else
  if is_peer_banned now (t_scores t) a then (false, t) else
  if bool_decide (a ∈ t_peers t) then (false, t) else
  match inc_subnet a (t_subnets t) with
  | None => (false, t)
  | Some subnets =>
      let t := set_subnets subnets t in
      if inbound_full a t then (false, set_subnets (dec_subnet true a (t_subnets t)) t) else
      let t := evict_if (at_limit t) now t in
      let t := persist_peer a (enter_peer now a Inbound t) in
      let t := remember_identity a identity t in
      (true, set_quic ({[a]} ∪ t_quic t) t)
  end.

(** What the network does with an attempt to connect. *)
Record Attempt := MkAttempt {
  endpoint_ready : bool;
  dials : list bool;
  stream_opened : bool;
  type_sent : bool;
  handshake_sent : bool;
  peer_identity : option (list u8) }.
Definition MAX_ATTEMPTS : nat := 3.
Definition connected (o : Attempt) : bool := existsb id (take MAX_ATTEMPTS (dials o)).

(** The gossip stream could not be opened. *)
Definition undo_connect (a : SocketAddr) (t : Tables) : Tables :=
  let was_present := bool_decide (a ∈ t_peers t) in
  let t := set_peers (t_peers t ∖ {[a]}) t in
  let t := set_scores (delete a (t_scores t)) t in
  let t := set_quic (t_quic t ∖ {[a]}) t in
  let t := set_fanout None (remove_persisted_peer a t) in
  let t := if was_present then set_count (dec_count (t_count t)) t else t in
  set_subnets (dec_subnet true a (t_subnets t)) t.

Definition outbound_full (a : SocketAddr) (max : u32) (t : Tables) : bool :=
  negb (is_localhost a) && (outbound_slots (Z.to_nat max) <=? count_type Outbound t)%nat.
Definition make_room (now : Z) (a : SocketAddr) : SE Tables BlockchainError unit := λ t,
  match t_max_peers t with
  | None => (Ok tt, t)
  | Some max =>
      if outbound_full a max t then (Err (Network "Outbound slot limit reached"), t) else
      if at_limit t then
        match evict_lowest_peer now t with
        | (None, t) => (Err (Network "Max peers limit reached"), t)
        | (Some _, t) => (Ok tt, t)
        end
      else (Ok tt, t)
  end.
Definition take_subnet (a : SocketAddr) : SE Tables BlockchainError unit := λ t,
  match inc_subnet a (t_subnets t) with
  | None => (Err (Network "Subnet limit reached"), t)
  | Some subnets => (Ok tt, set_subnets subnets t)
  end.

Definition connect_peer (now : Z) (a : SocketAddr) (o : Attempt) : SE Tables BlockchainError unit :=
  _ ← make_room now a;
  _ ← take_subnet a;
  if negb (endpoint_ready o) then fail (Network "QUIC endpoint not initialized - call start() first") else
  if negb (connected o) then
    _ ← se_mod (λ t, set_subnets (dec_subnet true a (t_subnets t)) t);
    fail (Network "Failed to connect")
  else
  _ ← se_mod (λ t, persist_peer a (set_fanout None (enter_peer now a Outbound t)));
  _ ← se_mod (remember_identity a (peer_identity o));
  _ ← se_mod (λ t, set_quic ({[a]} ∪ t_quic t) t);
  if negb (stream_opened o) then
    _ ← se_mod (undo_connect a);
    fail (Network "Failed to open gossip stream")
  else if negb (type_sent o) then
    _ ← se_mod (undo_connect a);
    fail (Network "Failed to write stream type byte")
  else if negb (handshake_sent o) then fail (Network "Failed to send handshake")
  else se_mod (λ t, set_streams ({[a]} ∪ t_streams t) t).

(** The fanout cache of the context is not the one of the manager. *)
Definition cleanup_peer_state_on_error (a : SocketAddr) (t : Tables) : bool * Tables :=
  let was_present := bool_decide (a ∈ t_peers t) in
  let t := set_peers (t_peers t ∖ {[a]}) t in
  let t := set_scores (delete a (t_scores t)) t in
  let t := if was_present then set_count (dec_count (t_count t)) t else t in
  let t := set_types (delete a (t_types t)) t in
  let t := set_quic (t_quic t ∖ {[a]}) t in
  let t := set_streams (t_streams t ∖ {[a]}) t in
  let t := set_keys (delete a (t_keys t)) t in
  let t := set_advertised (delete a (t_advertised t)) t in
  let t := set_request_times (delete a (t_request_times t)) t in
  let t := set_lists (delete a (t_lists t)) t in
  (was_present, set_subnets (dec_subnet false a (t_subnets t)) t).

(** [handle_peer] registers the sender of a message that has a key or a
    connection; [None] when the message is dropped. *)
Definition register_sender (now : Z) (a : SocketAddr) (t : Tables) : option Tables :=
  if bool_decide (a ∈ t_peers t) then Some t else
  if bool_decide (is_Some (t_keys t !! a)) || bool_decide (a ∈ t_quic t) then
    let t := set_peers ({[a]} ∪ t_peers t) t in
    let t := set_scores (<[a := score_at now a (t_scores t)]> (t_scores t)) t in
    Some (set_count (add64 (t_count t) 1) t)
  else None.
End Eviction.

(** ** Eviction removes the worst *)

Section EvictionProofs.
Context `{HashIter}.

Lemma worse_irrefl x : worse x x = false.
Proof. unfold worse. rewrite !Z.ltb_irrefl. by rewrite andb_false_r. Qed.

(** Not worse than all that came before. *)
Lemma worst_fold now t l w : w.2 = standing now t w.1 →
  ∃ a, foldl (worst_step now t) (Some w) l = Some (a, standing now t a) ∧ (a = w.1 ∨ a ∈ l) ∧
    ∀ b, b = w.1 ∨ b ∈ l → worse (standing now t b) (standing now t a) = false.
Proof.
  revert w. induction l as [|x l IH]; intros [b y] Hw; cbn in Hw; subst y; cbn [foldl].
  { exists b. split; [done|]. split; [by left|]. intros c [->|Hc]; [apply worse_irrefl|by apply not_elem_of_nil in Hc]. }
  unfold worst_step at 2. destruct (worse (standing now t x) (standing now t b)) eqn:Hx.
  - destruct (IH (x, standing now t x) eq_refl) as (a & Ha & Hin & Hmin). exists a. split; [exact Ha|]. cbn in *. split.
    { right. destruct Hin as [->|?]; [by left|by right]. }
    intros c [->|Hc]; [|apply Hmin; apply elem_of_cons in Hc; tauto].
    pose proof (Hmin x ltac:(by left)) as Hxa. clear -Hx Hxa. unfold worse in *. lia.
  - destruct (IH (b, standing now t b) eq_refl) as (a & Ha & Hin & Hmin). exists a. split; [exact Ha|]. cbn in *. split.
    { destruct Hin as [->|?]; [by left|right; by right]. }
    intros c [->|Hc]; [apply Hmin; by left|]. apply elem_of_cons in Hc as [->|Hc]; [|apply Hmin; by right].
    pose proof (Hmin b ltac:(by left)) as Hba. clear -Hx Hba. unfold worse in *. lia.
Qed.

Lemma worst_peer_spec now t :
  match worst_peer now t with
  | Some a => a ∈ t_peers t ∧ ∀ b, b ∈ t_peers t → worse (standing now t b) (standing now t a) = false
  | None => t_peers t = ∅
  end.
Proof.
  unfold worst_peer. pose proof (elem_of_hs_iter (t_peers t)) as Hin. destruct (hs_iter (t_peers t)) as [|x l] eqn:Hl.
  { cbn. apply elem_of_equiv_empty_L. intros a Ha. apply Hin in Ha. by apply not_elem_of_nil in Ha. }
  cbn [foldl]. change (worst_step now t None x) with (Some (x, standing now t x)).
  destruct (worst_fold now t l (x, standing now t x) eq_refl) as (a & Ha & Hm & Hmin). rewrite Ha. cbn in *. split.
  - apply Hin. destruct Hm as [->|?]; [by left|by right].
  - intros b Hb. apply Hmin. apply Hin, elem_of_cons in Hb. tauto.
Qed.

Lemma evict_shape now t :
  match evict_lowest_peer now t with
  | (Some a, t') => a ∈ t_peers t ∧ t_peers t' = t_peers t ∖ {[a]} ∧ t_scores t' = delete a (t_scores t) ∧
      t_types t' = delete a (t_types t) ∧ t_subnets t' = dec_subnet true a (t_subnets t) ∧
      t_quic t' = t_quic t ∧ t_keys t' = t_keys t ∧ t_max_peers t' = t_max_peers t
  | (None, t') => t_peers t = ∅ ∧ t' = t
  end.
Proof.
  unfold evict_lowest_peer. pose proof (worst_peer_spec now t) as Hw. destruct (worst_peer now t) as [a|]; [|done].
  destruct Hw as [Ha _]. rewrite bool_decide_true by done. done.
Qed.

(** Eviction removes a connected peer with the lowest score, the one unseen
    for longest among equals, from every limit it counted against, and leaves
    the others alone; it fails only when no peer is connected. *)
Theorem eviction_takes_the_worst now t :
  match evict_lowest_peer now t with
  | (Some a, t') => a ∈ t_peers t ∧ (∀ b, b ∈ t_peers t → worse (standing now t b) (standing now t a) = false) ∧
      t_peers t' = t_peers t ∖ {[a]} ∧ t_types t' !! a = None ∧
      ∀ b, b ≠ a → t_scores t' !! b = t_scores t !! b ∧ t_types t' !! b = t_types t !! b
  | (None, t') => t_peers t = ∅ ∧ t' = t
  end.
Proof.
  pose proof (evict_shape now t) as Hs. pose proof (worst_peer_spec now t) as Hw. unfold evict_lowest_peer in *.
  destruct (worst_peer now t) as [a|]; [|done]. destruct Hs as (Ha & Hp & Hsc & Hty & _), Hw as [_ Hmin].
  split_and!; [done|done|done|by rewrite Hty, lookup_delete_eq|].
  intros b Hb. by rewrite Hsc, Hty, !lookup_delete_ne.
Qed.
End EvictionProofs.

(** ** Limits *)

Section Limits.
Context `{HashIter, AddrText}.

(** Connections from outside this machine. *)
Definition remote_of (k : ConnectionType) (t : Tables) : nat :=
  size (filter (λ ac : SocketAddr * ConnectionType, ac.2 = k ∧ is_localhost ac.1 = false) (t_types t)).

Record tables_ok (max : u32) (extra : nat) (t : Tables) : Prop := {
  tok_max : t_max_peers t = Some max;
  tok_peers : (size (t_peers t) <= Z.to_nat max + extra)%nat;
  tok_subnets : ∀ p n, t_subnets t !! p = Some n → (n <= MAX_PEERS_PER_SUBNET_16)%nat;
  tok_inbound : (remote_of Inbound t <= inbound_slots (Z.to_nat max))%nat;
  tok_outbound : (remote_of Outbound t <= outbound_slots (Z.to_nat max))%nat;
  tok_scores : ∀ a, a ∈ t_peers t → is_Some (t_scores t !! a) }.

(** One step of the tables, with the number of peers it may register without
    looking at the limit: the sender of a message that is not yet one (the
    message of a peer changes nothing), and at a start the peers the database
    remembers. *)
Inductive tables_step : nat → Tables → Tables → Prop :=
| step_accept now a identity t : tables_step 0 t (accept_connection now a identity t).2
| step_connect now a o t : tables_step 0 t (connect_peer now a o t).2
| step_evict now t : tables_step 0 t (evict_lowest_peer now t).2
| step_disconnect a t : tables_step 0 t (cleanup_peer_state_on_error a t).2
| step_sender now a t t' : a ∉ t_peers t → register_sender now a t = Some t' → tables_step 1 t t'
| step_persisted now t : tables_step (length (load_persisted_peers t)) t (register_persisted now t).
Inductive tables_run : nat → Tables → Tables → Prop :=
| run_none t : tables_run 0 t t
| run_step k n t t1 t2 : tables_step k t t1 → tables_run n t1 t2 → tables_run (k + n) t t2.

Lemma remote_insert k k' a (m : gmap SocketAddr ConnectionType) :
  (size (filter (λ ac : SocketAddr * ConnectionType, ac.2 = k ∧ is_localhost ac.1 = false) (<[a := k']> m))
   <= size (filter (λ ac : SocketAddr * ConnectionType, ac.2 = k ∧ is_localhost ac.1 = false) m)
      + if bool_decide (k' = k ∧ is_localhost a = false) then 1 else 0)%nat.
Proof.
  rewrite map_filter_insert. case_decide as Hd; cbn in Hd.
  - rewrite bool_decide_true by done. rewrite map_size_insert. destruct (_ !! a); cbn; lia.
  - rewrite bool_decide_false by done. rewrite map_filter_delete, map_size_delete. destruct (_ !! a); cbn; lia.
Qed.
Lemma remote_delete k a (m : gmap SocketAddr ConnectionType) :
  (size (filter (λ ac : SocketAddr * ConnectionType, ac.2 = k ∧ is_localhost ac.1 = false) (delete a m))
   <= size (filter (λ ac : SocketAddr * ConnectionType, ac.2 = k ∧ is_localhost ac.1 = false) m))%nat.
Proof. rewrite map_filter_delete, map_size_delete. destruct (_ !! a); cbn; lia. Qed.
Lemma remote_le k t : (remote_of k t <= count_type k t)%nat.
Proof.
  unfold remote_of, count_type. apply map_subseteq_size, map_filter_subseteq_ext.
  intros a c _ [? _]. done.
Qed.

Lemma dec_subnet_le b a m n0 : (∀ p n, m !! p = Some n → (n <= n0)%nat) →
  ∀ p n, dec_subnet b a m !! p = Some n → (n <= n0)%nat.
Proof.
  intros Hm p n. unfold dec_subnet. destruct (subnet_prefix_16 a) as [q|]; [|apply Hm].
  destruct (m !! q) as [k|] eqn:Hq; [|apply Hm]. case_match.
  - intros [_ Hd]%lookup_delete_Some. by eapply Hm.
  - intros [[<- <-]|[_ Hd]]%lookup_insert_Some; [|by eapply Hm]. specialize (Hm _ _ Hq). lia.
Qed.
Lemma inc_subnet_le a m m' : inc_subnet a m = Some m' →
  (∀ p n, m !! p = Some n → (n <= MAX_PEERS_PER_SUBNET_16)%nat) →
  ∀ p n, m' !! p = Some n → (n <= MAX_PEERS_PER_SUBNET_16)%nat.
Proof.
  unfold inc_subnet. destruct (subnet_prefix_16 a) as [q|]; [|by intros [= <-]].
  destruct (Nat.leb_spec MAX_PEERS_PER_SUBNET_16 (default 0%nat (m !! q))); [done|]. intros [= <-] Hm p n.
  intros [[<- <-]|[_ Hd]]%lookup_insert_Some; [lia|by eapply Hm].
Qed.

(** The part of the invariant that does not mention the limit on peers. *)
Lemma ok_subnets max extra m t : tables_ok max extra t → (∀ p n, m !! p = Some n → (n <= MAX_PEERS_PER_SUBNET_16)%nat) →
  tables_ok max extra (set_subnets m t).
Proof. by intros [] Hm; split. Qed.

Lemma evict_ok max extra now t : tables_ok max extra t → tables_ok max extra (evict_lowest_peer now t).2.
Proof.
  intros Hok. pose proof (evict_shape now t) as Hs. destruct (evict_lowest_peer now t) as [[a|] t']; [|by destruct Hs as [_ ->]].
  destruct Hs as (Ha & Hp & Hsc & Hty & Hsub & _ & _ & Hmax), Hok as [H1 H2 H3 H4 H5 H6]. cbn [snd]. split.
  - congruence.
  - rewrite Hp. etransitivity; [|exact H2]. apply subseteq_size. set_solver.
  - rewrite Hsub. by apply dec_subnet_le.
  - unfold remote_of. rewrite Hty. etransitivity; [apply remote_delete|exact H4].
  - unfold remote_of. rewrite Hty. etransitivity; [apply remote_delete|exact H5].
  - rewrite Hp, Hsc. intros b Hb. rewrite lookup_delete_ne by set_solver. apply H6. set_solver.
Qed.
Lemma evict_below now t max extra : tables_ok max extra t → t_peers t ≠ ∅ →
  (size (t_peers (evict_lowest_peer now t).2) < Z.to_nat max + extra)%nat.
Proof.
  intros Hok Hne. pose proof (evict_shape now t) as Hs. destruct (evict_lowest_peer now t) as [[a|] t']; [|by destruct Hs].
  destruct Hs as (Ha & Hp & _), Hok as [_ H2 _ _ _ _]. cbn. rewrite Hp, size_difference by set_solver.
  rewrite size_singleton. assert (size (t_peers t) ≠ 0%nat); [|lia]. intros Hz. apply Hne, leibniz_equiv. by apply size_empty_inv.
Qed.
Lemma evict_if_ok max extra now t : tables_ok max extra t → tables_ok max extra (evict_if (at_limit t) now t).
Proof. intros Hok. unfold evict_if. destruct (at_limit t); [by apply evict_ok|done]. Qed.
Lemma evict_if_below max extra now t : tables_ok max extra t → (1 <= max) →
  (size (t_peers (evict_if (at_limit t) now t)) < Z.to_nat max + extra)%nat.
Proof.
  intros Hok Hmax. unfold evict_if, at_limit. rewrite (tok_max _ _ _ Hok).
  destruct (Nat.leb_spec (Z.to_nat max) (size (t_peers t))) as [Hl|Hl]; [|lia].
  apply evict_below; [done|]. intros He. rewrite He, size_empty in Hl. lia.
Qed.

Lemma enter_ok max extra now a k t : tables_ok max extra t → (size (t_peers t) < Z.to_nat max + extra)%nat →
  (is_localhost a = true ∨
   (remote_of k t < match k with Inbound => inbound_slots | Outbound => outbound_slots end (Z.to_nat max))%nat) →
  tables_ok max extra (enter_peer now a k t).
Proof.
  intros [H1 H2 H3 H4 H5 H6] Hs Hk. split; cbn; [done| |done| | |].
  - rewrite size_union_alt. etransitivity; [apply Nat.add_le_mono_l, subseteq_size, (subseteq_difference_l _ _ (t_peers t)); reflexivity|].
    rewrite size_singleton. lia.
  - unfold remote_of in *. cbn [t_types enter_peer set_types]. etransitivity; [apply remote_insert|].
    destruct k; [|rewrite bool_decide_false by naive_solver; cbn in *; lia].
    case_bool_decide as Hd; [|cbn in *; lia]. destruct Hk as [?|?]; [naive_solver congruence|]. cbn in *. lia.
  - unfold remote_of in *. cbn [t_types enter_peer set_types]. etransitivity; [apply remote_insert|].
    destruct k; [rewrite bool_decide_false by naive_solver; cbn in *; lia|].
    case_bool_decide as Hd; [|cbn in *; lia]. destruct Hk as [?|?]; [naive_solver congruence|]. cbn in *. lia.
  - intros b Hb. destruct (decide (b = a)) as [->|Hne]; [by rewrite lookup_insert_eq|].
    rewrite lookup_insert_ne by done. apply H6. set_solver.
Qed.

Lemma evict_remote k now t : (remote_of k (evict_lowest_peer now t).2 <= remote_of k t)%nat.
Proof.
  pose proof (evict_shape now t) as Hs. destruct (evict_lowest_peer now t) as [[a|] t']; [|by destruct Hs as [_ ->]].
  destruct Hs as (_ & _ & _ & Hty & _). unfold remote_of. cbn [snd]. rewrite Hty. apply remote_delete.
Qed.
Lemma evict_if_remote k c now t : (remote_of k (evict_if c now t) <= remote_of k t)%nat.
Proof. unfold evict_if. destruct c; [apply evict_remote|done]. Qed.

Lemma forget_ok max extra a t : tables_ok max extra t → tables_ok max extra (cleanup_peer_state_on_error a t).2.
Proof.
  intros [H1 H2 H3 H4 H5 H6]. unfold cleanup_peer_state_on_error. cbn [snd]. case_bool_decide; (split; cbn;
    [done|etransitivity; [apply subseteq_size|exact H2]; set_solver|by apply dec_subnet_le
    |unfold remote_of; cbn; etransitivity; [apply remote_delete|exact H4]|unfold remote_of; cbn; etransitivity; [apply remote_delete|exact H5]
    |intros b Hb; rewrite lookup_delete_ne by set_solver; apply H6; set_solver]).
Qed.
Lemma undo_ok max extra a t : tables_ok max extra t → tables_ok max extra (undo_connect a t).
Proof.
  intros [H1 H2 H3 H4 H5 H6]. unfold undo_connect. case_bool_decide; (split; cbn;
    [done|etransitivity; [apply subseteq_size|exact H2]; set_solver|by apply dec_subnet_le|done|done
    |intros b Hb; rewrite lookup_delete_ne by set_solver; apply H6; set_solver]).
Qed.

(** Steps that touch none of the tables the limits are about. *)
Lemma ok_same max extra t t' : t_peers t' = t_peers t → t_scores t' = t_scores t → t_types t' = t_types t →
  t_subnets t' = t_subnets t → t_max_peers t' = t_max_peers t → tables_ok max extra t → tables_ok max extra t'.
Proof.
  intros Hp Hs Ht Hn Hm [H1 H2 H3 H4 H5 H6]. split; unfold remote_of in *; rewrite ?Hp, ?Hs, ?Ht, ?Hn, ?Hm; done.
Qed.
Lemma remember_ok max extra a i t : tables_ok max extra t → tables_ok max extra (remember_identity a i t).
Proof. unfold remember_identity. destruct i; [by apply ok_same|done]. Qed.

Lemma accept_ok max extra now a i t : 1 <= max → tables_ok max extra t → tables_ok max extra (accept_connection now a i t).2.
Proof.
  intros Hmax Hok. unfold accept_connection.
  assert (Hr : ∃ room t1, (if (MAX_TOTAL_PEERS <=? size (t_peers t))%nat
      then let '(evicted, t') := evict_lowest_peer now t in (bool_decide (is_Some evicted), t') else (true, t)) = (room, t1) ∧ tables_ok max extra t1).
  { case_match; [|by eexists _, _]. pose proof (evict_ok max extra now t Hok). destruct (evict_lowest_peer now t). by eexists _, _. }
  destruct Hr as (room & t1 & -> & Hok1). clear Hok t. destruct room; [|done]. cbn [negb].
  destruct (is_peer_banned _ _ _); [done|]. case_bool_decide; [done|].
  destruct (inc_subnet a (t_subnets t1)) as [m|] eqn:Hi; [|done].
  pose proof (ok_subnets max extra m t1 Hok1 (inc_subnet_le _ _ _ Hi (tok_subnets _ _ _ Hok1))) as Hok2.
  destruct (inbound_full a (set_subnets m t1)) eqn:Hf.
  { apply ok_subnets; [done|]. apply dec_subnet_le, (tok_subnets _ _ _ Hok2). }
  cbn [snd]. apply (ok_same _ _ (enter_peer now a Inbound (evict_if (at_limit (set_subnets m t1)) now (set_subnets m t1))));
    [destruct i; done..|].
  apply enter_ok; [by apply evict_if_ok|by apply evict_if_below|]. unfold inbound_full in Hf. rewrite (tok_max _ _ _ Hok2) in Hf.
  destruct (is_localhost a); [by left|right]. cbn [negb andb] in Hf.
  pose proof (evict_if_remote Inbound (at_limit (set_subnets m t1)) now (set_subnets m t1)).
  pose proof (remote_le Inbound (set_subnets m t1)). apply Nat.leb_gt in Hf. lia.
Qed.

Lemma make_room_ok max extra now a t r t' : 1 <= max → tables_ok max extra t → make_room now a t = (r, t') →
  tables_ok max extra t' ∧ (r = Ok tt → (size (t_peers t') < Z.to_nat max + extra)%nat ∧
    (is_localhost a = true ∨ (remote_of Outbound t' < outbound_slots (Z.to_nat max))%nat)).
Proof.
  intros Hmax Hok. unfold make_room. rewrite (tok_max _ _ _ Hok).
  assert (Hout : ∀ t2, (remote_of Outbound t2 <= remote_of Outbound t)%nat → outbound_full a max t = false →
    is_localhost a = true ∨ (remote_of Outbound t2 < outbound_slots (Z.to_nat max))%nat).
  { intros t2 Hle Hf. unfold outbound_full in Hf. destruct (is_localhost a); [by left|right]. cbn [negb andb] in Hf.
    pose proof (remote_le Outbound t). apply Nat.leb_gt in Hf. lia. }
  destruct (outbound_full a max t) eqn:Hf; [by intros [= <- <-]|].
  pose proof (evict_if_ok max extra now t Hok) as He. pose proof (evict_if_below max extra now t Hok Hmax) as Hb.
  pose proof (evict_if_remote Outbound (at_limit t) now t) as Hrem. unfold evict_if in *.
  destruct (at_limit t) eqn:Hl; [|intros [= <- <-]; auto].
  destruct (evict_lowest_peer now t) as [[b|] t1]; intros [= <- <-]; cbn in *; auto.
Qed.

Lemma connect_ok max extra now a o t : 1 <= max → tables_ok max extra t → tables_ok max extra (connect_peer now a o t).2.
Proof.
  intros Hmax Hok. unfold connect_peer. destruct (make_room now a t) as [[[]|e] t1] eqn:Hr.
  2: { rewrite (se_bind_fail _ _ _ _ _ Hr). by eapply make_room_ok. }
  rewrite (se_bind_step _ _ _ _ _ Hr). destruct (make_room_ok _ _ _ _ _ _ _ Hmax Hok Hr) as [Hok1 Hroom].
  specialize (Hroom eq_refl) as [Hsize Hslot].
  destruct (inc_subnet a (t_subnets t1)) as [m|] eqn:Hi.
  2: { erewrite se_bind_fail; [exact Hok1|]. unfold take_subnet. by rewrite Hi. }
  erewrite se_bind_step; [|unfold take_subnet; rewrite Hi; reflexivity].
  pose proof (ok_subnets max extra m t1 Hok1 (inc_subnet_le _ _ _ Hi (tok_subnets _ _ _ Hok1))) as Hok2.
  assert (Hdone : tables_ok max extra (set_quic ({[a]} ∪ t_quic (remember_identity a (peer_identity o)
      (persist_peer a (set_fanout None (enter_peer now a Outbound (set_subnets m t1))))))
      (remember_identity a (peer_identity o) (persist_peer a (set_fanout None (enter_peer now a Outbound (set_subnets m t1))))))).
  { apply (ok_same _ _ (enter_peer now a Outbound (set_subnets m t1))); [destruct (peer_identity o); done..|]. by apply enter_ok. }
  destruct (endpoint_ready o); [|done]. destruct (connected o); [|by apply ok_subnets; [|apply dec_subnet_le, (tok_subnets _ _ _ Hok2)]].
  destruct (stream_opened o); [|by apply undo_ok]. destruct (type_sent o); [|by apply undo_ok].
  destruct (handshake_sent o); [|done]. by refine (ok_same _ _ _ _ _ _ _ _ _ Hdone).
Qed.

Lemma register_ok max extra now a t : tables_ok max extra t →
  tables_ok max (S extra) (set_scores (<[a := score_at now a (t_scores t)]> (t_scores t)) (set_peers ({[a]} ∪ t_peers t) t)).
Proof.
  intros [K1 K2 K3 K4 K5 K6]. split; cbn; [done| |done..|].
  - rewrite size_union_alt. etransitivity; [apply Nat.add_le_mono_l, subseteq_size, (subseteq_difference_l _ _ (t_peers t)); reflexivity|].
    rewrite size_singleton. lia.
  - intros b Hb. destruct (decide (b = a)) as [->|Hne]; [by rewrite lookup_insert_eq|].
    rewrite lookup_insert_ne by done. apply K6. set_solver.
Qed.
Lemma sender_ok max extra now a t t' : tables_ok max extra t → register_sender now a t = Some t' → tables_ok max (S extra) t'.
Proof.
  intros Hok. unfold register_sender. case_bool_decide.
  - intros [= <-]. destruct Hok as [K1 K2 K3 K4 K5 K6]. split; [done|lia|done..].
  - destruct (_ || _); [|done]. intros [= <-]. refine (ok_same _ _ _ _ _ _ _ _ _ (register_ok max extra now a t Hok)); done.
Qed.
Lemma persisted_ok max extra now t : tables_ok max extra t →
  tables_ok max (length (load_persisted_peers t) + extra) (register_persisted now t).
Proof.
  unfold register_persisted. generalize (load_persisted_peers t). intros l. revert extra t.
  induction l as [|a l IH]; intros extra t Hok; [done|]. cbn [foldl length].
  replace (S (length l) + extra)%nat with (length l + S extra)%nat by lia. by apply IH, register_ok.
Qed.

(** C37: However connections are accepted, dialled, evicted, lost and
    registered again: no /16 subnet counts more than ten, remote connections
    stay within the slots of their direction, every peer has a score, and the
    number of peers exceeds the configured maximum by no more than the number of
    registrations that bypass it, of senders of messages and of remembered peers
    at a start. *)
Theorem peer_limits max extra n t t' :
  1 <= max → tables_run n t t' → tables_ok max extra t → tables_ok max (n + extra) t'.
Proof.
  intros Hmax Hs. revert extra. induction Hs as [|k n t t1 t2 Hst _ IH]; intros extra Hok; [done|].
  replace (k + n + extra)%nat with (n + (k + extra))%nat by lia. apply IH.
  destruct Hst; [by apply accept_ok|by apply connect_ok|by apply evict_ok|by apply forget_ok|by eapply sender_ok|by apply persisted_ok].
Qed.

(** ** What the limits miss *)

(** A peer evicted to make room for another is back with its next message,
    and then the maximum is exceeded: eviction leaves its connection open, and
    the handler of that connection registers the sender again. *)
Theorem evicted_peer_returns now later max b i t t2 : t_max_peers t = Some max → 1 <= max →
  Z.of_nat (size (t_peers t)) = max → (size (t_peers t) < MAX_TOTAL_PEERS)%nat → t_peers t ⊆ t_quic t →
  accept_connection now b i t = (true, t2) →
  ∃ a t3, a ∈ t_peers t ∧ a ∉ t_peers t2 ∧ register_sender later a t2 = Some t3 ∧
    Z.of_nat (size (t_peers t3)) = max + 1.
Proof.
  intros Hmax Hpos Hfull Htot Hq. unfold accept_connection.
  destruct (Nat.leb_spec MAX_TOTAL_PEERS (size (t_peers t))); [lia|]. cbn [negb].
  destruct (is_peer_banned _ _ _); [done|]. case_bool_decide as Hb; [done|].
  destruct (inc_subnet b (t_subnets t)) as [m|]; [|done]. destruct (inbound_full _ _); [done|].
  assert (Hl : at_limit (set_subnets m t) = true) by (unfold at_limit; cbn; rewrite Hmax; apply Nat.leb_le; lia).
  rewrite Hl. unfold evict_if. pose proof (evict_shape now (set_subnets m t)) as Hs.
  destruct (evict_lowest_peer now (set_subnets m t)) as [[a|] t1].
  2: { destruct Hs as [He _]. cbn in He. rewrite He, size_empty in Hfull. lia. }
  destruct Hs as (Ha & Hp & _ & _ & _ & Hqq & _). cbn in Ha, Hp, Hqq. cbn [snd]. intros [= <-].
  set (t2 := set_quic _ _).
  assert (Hp2 : t_peers t2 = {[b]} ∪ t_peers t ∖ {[a]}) by (unfold t2; destruct i; cbn; by rewrite Hp).
  assert (Hq2 : a ∈ t_quic t2) by (unfold t2; destruct i; cbn; rewrite Hqq; set_solver).
  exists a. eexists. split; [done|]. split; [rewrite Hp2; set_solver|]. unfold register_sender.
  rewrite (bool_decide_false (a ∈ t_peers t2)) by (rewrite Hp2; set_solver).
  rewrite (bool_decide_true (a ∈ t_quic t2)), orb_true_r by done. split; [reflexivity|].
  change (t_peers (set_count _ _)) with ({[a]} ∪ t_peers t2).
  assert (He : {[a]} ∪ t_peers t2 = {[b]} ∪ t_peers t).
  { rewrite Hp2. apply set_eq. intros x. destruct (decide (x = a)); set_solver. }
  rewrite He, size_union by set_solver. rewrite size_singleton. lia.
Qed.

Lemma accepted_score now a i t t' : accept_connection now a i t = (true, t') →
  t_scores t' !! a = Some (peer_score_default now).
Proof.
  unfold accept_connection.
  match goal with |- (let '(_, _) := ?x in _) = _ → _ => destruct x as [room t1] end. destruct (negb room); [done|].
  destruct (is_peer_banned _ _ _); [done|]. case_bool_decide; [done|].
  destruct (inc_subnet a _) as [m|]; [|done]. destruct (inbound_full _ _); [done|].
  generalize (evict_if (at_limit (set_subnets m t1)) now (set_subnets m t1)). intros t2 [= <-].
  assert (Hr : ∀ t3, t_scores (remember_identity a i t3) = t_scores t3) by by destruct i.
  change (t_scores (remember_identity a i (persist_peer a (enter_peer now a Inbound t2))) !! a = Some (peer_score_default now)).
  rewrite Hr. apply lookup_insert_eq.
Qed.
Lemma accepted_not_banned now a i t t' : accept_connection now a i t = (true, t') → is_peer_banned now (t_scores t') a = false.
Proof. intros Hacc. unfold is_peer_banned. by rewrite (accepted_score _ _ _ _ _ Hacc). Qed.

(** A ban ends with the connection: the score that records it is removed
    when the banned peer is disconnected, and the same peer may connect again
    at once. *)
Theorem ban_ends_with_connection now a t :
  let t1 := (cleanup_peer_state_on_error a t).2 in
  is_peer_banned now (t_scores t1) a = false ∧ ∀ later i t2,
  accept_connection later a i t1 = (true, t2) → is_peer_banned later (t_scores t2) a = false.
Proof.
  intros t1. split; [|by intros; eapply accepted_not_banned].
  assert (Hsc : t_scores t1 = delete a (t_scores t)) by (unfold t1, cleanup_peer_state_on_error; by case_bool_decide).
  unfold is_peer_banned. by rewrite Hsc, lookup_delete_eq.
Qed.

(** A peer remembered from the last run cannot connect: [start] registers
    it as a peer, and an incoming connection of a registered peer is skipped. *)
Theorem persisted_peer_skipped now later a i t : a ∈ load_persisted_peers t →
  (size (t_peers (register_persisted now t)) < MAX_TOTAL_PEERS)%nat →
  accept_connection later a i (register_persisted now t) = (false, register_persisted now t).
Proof.
  intros Ha Hs. unfold accept_connection. destruct (Nat.leb_spec MAX_TOTAL_PEERS (size (t_peers (register_persisted now t)))); [lia|].
  cbn [negb]. destruct (is_peer_banned _ _ _); [done|]. rewrite bool_decide_true; [done|].
  unfold register_persisted. revert Ha. generalize (load_persisted_peers t). intros l.
  assert (Hm : ∀ l t, a ∈ t_peers t ∨ a ∈ l → a ∈ t_peers (foldl (λ t a, set_scores (<[a := score_at now a (t_scores t)]> (t_scores t)) (set_peers ({[a]} ∪ t_peers t) t)) t l)).
  { clear. induction l as [|x l IH]; intros t Ht; cbn [foldl]; [destruct Ht as [?|Hn]; [done|by apply not_elem_of_nil in Hn]|].
    apply IH. cbn. rewrite elem_of_cons in Ht. destruct Ht as [?|[->|?]]; [left; set_solver|left; set_solver|by right]. }
  intros Hl. apply Hm. by right.
Qed.

(** A stream that cannot be opened leaves its slot taken. *)
Lemma failed_stream_keeps_slot now a o t r t' : connect_peer now a o t = (r, t') → endpoint_ready o = true →
  connected o = true → stream_opened o = false → r = Err (Network "Failed to open gossip stream") →
  t_types t' !! a = Some Outbound ∧ a ∉ t_peers t'.
Proof.
  unfold connect_peer. destruct (make_room now a t) as [[[]|e] t1] eqn:Hr.
  2: { rewrite (se_bind_fail _ _ _ _ _ Hr). intros [= <- _] _ _ _ [= ->]. unfold make_room in Hr. repeat case_match; simplify_eq. }
  rewrite (se_bind_step _ _ _ _ _ Hr). destruct (inc_subnet a (t_subnets t1)) as [m|] eqn:Hi.
  2: { erewrite se_bind_fail; [|unfold take_subnet; rewrite Hi; reflexivity]. by intros [= <- _] _ _ _ [= ?]. }
  erewrite se_bind_step; [|unfold take_subnet; rewrite Hi; reflexivity].
  intros Hc Hep Hco Hso _. rewrite Hep, Hco, Hso in Hc. cbn [negb] in Hc.
  generalize (set_subnets m t1) Hc. clear. intros t2 Hc. injection Hc as _ <-.
  unfold undo_connect. case_bool_decide; destruct (peer_identity o); cbn; rewrite lookup_insert_eq; split; try done; set_solver.
Qed.
End Limits.

(** ** A node with one slot *)

Module PeerTablesReference.
#[local] Existing Instance canonical_iter.

Definition bits_text (p : positive) : string :=
  String.string_of_list_ascii ((λ b, Ascii.ascii_of_nat (Z.to_nat b)) <$> bits_of p).
Definition text_bits (s : string) : positive :=
  of_bits ((λ c, Z.of_nat (Ascii.nat_of_ascii c)) <$> String.list_ascii_of_string s).
Lemma text_bits_text p : text_bits (bits_text p) = p.
Proof.
  unfold text_bits, bits_text. rewrite String.list_ascii_of_string_of_list_ascii, <- list_fmap_compose.
  rewrite <- (of_bits_of p) at 2. f_equal. induction p; cbn; by f_equal.
Qed.
#[local] Instance text : AddrText := {|
  addr_text := λ a, bits_text (encode a);
  addr_parse := λ s, decode (text_bits s);
  addr_parse_text := λ a, eq_trans (f_equal decode (text_bits_text (encode a))) (decode_encode a) |}.

Definition peer_at (n : Z) : SocketAddr := MkSocket (MkIp [127; 0; 0; n]) 8080.
Definition fresh : Tables := MkTables ∅ ∅ 0 ∅ ∅ ∅ ∅ ∅ ∅ ∅ ∅ None ∅ (Some ∅) (Some 1).
Definition one_peer : Tables := (accept_connection 1 (peer_at 1) None fresh).2.
Definition answers : Attempt := MkAttempt true [false; true] true true true None.

Lemma fresh_ok : tables_ok 1 0 fresh.
Proof.
  split; [done|apply Nat.leb_le; vm_compute; reflexivity|cbn; intros p n Hn; by rewrite lookup_empty in Hn
    |apply Nat.leb_le; vm_compute; reflexivity..|cbn; intros a Ha; set_solver].
Qed.

Definition two_peers : Tables := (connect_peer 2 (peer_at 2) answers one_peer).2.
Definition returned : Tables := default two_peers (register_sender 3 (peer_at 1) two_peers).
Lemma peer_limits_witness : tables_ok 1 1 returned ∧ t_peers returned = {[peer_at 1; peer_at 2]}.
Proof.
  split; [|vm_compute; reflexivity].
  refine (peer_limits 1 0 1 fresh returned ltac:(lia) _ fresh_ok).
  apply (run_step 0 1 fresh one_peer); [exact (step_accept 1 (peer_at 1) None fresh)|].
  apply (run_step 0 1 one_peer two_peers); [exact (step_connect 2 (peer_at 2) answers one_peer)|].
  apply (run_step 1 0 two_peers returned); [|apply run_none].
  apply (step_sender 3 (peer_at 1) two_peers); [|vm_compute; reflexivity].
  apply (bool_decide_eq_false_1 (peer_at 1 ∈ t_peers two_peers)). vm_compute. reflexivity.
Defined.

Lemma evicted_peer_returns_witness :
  ∃ a t3, a ∈ t_peers one_peer ∧ register_sender 9 a (accept_connection 2 (peer_at 2) None one_peer).2 = Some t3 ∧
    Z.of_nat (size (t_peers t3)) = 2.
Proof.
  destruct (evicted_peer_returns 2 9 1 (peer_at 2) None one_peer (accept_connection 2 (peer_at 2) None one_peer).2)
    as (a & t3 & Ha & _ & Hr & Hs).
  - reflexivity.
  - lia.
  - vm_compute. reflexivity.
  - apply Nat.ltb_lt. vm_compute. reflexivity.
  - apply (bool_decide_eq_true_1 (t_peers one_peer ⊆ t_quic one_peer)). vm_compute. reflexivity.
  - assert (Hb : (accept_connection 2 (peer_at 2) None one_peer).1 = true) by (vm_compute; reflexivity).
    rewrite <- Hb. apply surjective_pairing.
  - exists a, t3. exact (conj Ha (conj Hr Hs)).
Defined.

Definition remembered_peer : Tables := persist_peer (peer_at 7) fresh.
Lemma persisted_peer_skipped_witness :
  accept_connection 5 (peer_at 7) None (register_persisted 1 remembered_peer) = (false, register_persisted 1 remembered_peer).
Proof.
  apply (persisted_peer_skipped 1 5 (peer_at 7) None remembered_peer).
  - apply (bool_decide_eq_true_1 (peer_at 7 ∈ load_persisted_peers remembered_peer)). vm_compute. reflexivity.
  - apply Nat.ltb_lt. vm_compute. reflexivity.
Defined.
End PeerTablesReference.
