(* ===== verification/Gossip.v ===== *)
(** * Gossip: what a node does with the messages of its peers

    Models [process_message], [relay_block_to_peers] and [handle_peer] of
    [irondag-blockchain/src/network.rs], the broadcast of a block, the periodic
    exchange and the partition checker, on top of the chain, the transaction
    pool, the orphan pool, the shards and the tables of peers.  A message is
    processed without interruption and reads each clock once: [now] is the
    monotonic one in nanoseconds, [wall] the time in seconds.  [opened] says to
    which peers writing succeeds, [shuffle] and [random] are the random
    generator.  The bytes written are collected in [n_sent].

    The lock of the scores matters in one place, where [handle_peer] asks for it
    while it holds it; [n_scores_held] records that the lock is never released
    again, and [FBlocked] is the outcome of waiting for it. *)

From S2P Require Import Prelude Types Block Pow Error.
From S2P Require Import Storage DagStorage GhostDag.
From S2P Require Import Sponsorship PrivacyPool Recurring Governance Wallet Verkle.
From S2P Require Import Ledger BlockIndex Execution AccountFrame Chain.
From S2P Require Import Messaging Sharding Float64 Ordering TxPool.
From S2P Require Import SyncPool SyncProtocol RateLimit PeerScore Wire PeerTables.

Definition PONG_RATE_LIMIT_SECS : u64 := 1.
Definition LATENCY_MIN_MS : u64 := 1.
Definition LATENCY_MAX_MS : u64 := 10000.
Definition STALE_BLOCK_THRESHOLD : u64 := 100.
Definition MAX_ORPHAN_RESOLUTION_PASSES : nat := 50.
Definition PARTITION_DETECTION_THRESHOLD_SECS : u64 := 60.
Definition JACCARD_SYBIL_THRESHOLD : f64 := f_lit 9 10.
Definition JACCARD_REPUTATION_PENALTY : u32 := 5.
Definition SEEN_CACHE_SIZE : nat := Z.to_nat 10000.
Definition CONNECT_QUEUE_SIZE : nat := 64.
Definition f_sqrt (x : f64) : f64 := SpecFloat.SFsqrt f_prec f_emax x.

(** What the handler of a connection was given: [start] captures the fields of
    the manager, [connect_peer] uses the context made by the constructor. *)
Record Ctx := MkCtx {
  cx_mining : bool;
  cx_shards : bool;
  cx_connect : bool;
  cx_max_peers : option u32;
  cx_listen : SocketAddr;
  cx_key : list u8 }.
Definition outbound_ctx (listen : SocketAddr) (key : list u8) : Ctx := MkCtx false false false None listen key.

Section Gossip.
Context `{Hex, Keccak, Blake3, Crypto, Evm, HashIter, SliceSearch, UnstableSort, SipHash, MessageCodec, AddrText}.
Context `{Codec Block, Codec (list Hash), Codec TxReceipt, Codec CrossShardMessage}.

(** The pool holds the blockchain and the shards, which the tasks share. *)
Record Node := MkNode {
  n_tables : Tables;
  n_pool : TxPool;
  n_orphans : OrphanPool;
  n_tx_seen : gmap Hash Z;
  n_block_seen : gmap Hash Z;
  n_partitioned : bool;
  n_partition_start : option Z;
  n_last_block : Z;
  n_tip : u64;
  n_sent : list (SocketAddr * list u8);
  n_dialled : list SocketAddr;
  n_scores_held : bool }.
Abbreviation NM := (SE Node BlockchainError).

Definition set_tables (t : Tables) (n : Node) : Node :=
  MkNode t (n_pool n) (n_orphans n) (n_tx_seen n) (n_block_seen n) (n_partitioned n) (n_partition_start n)
    (n_last_block n) (n_tip n) (n_sent n) (n_dialled n) (n_scores_held n).
Definition set_node_pool (p : TxPool) (n : Node) : Node :=
  MkNode (n_tables n) p (n_orphans n) (n_tx_seen n) (n_block_seen n) (n_partitioned n) (n_partition_start n)
    (n_last_block n) (n_tip n) (n_sent n) (n_dialled n) (n_scores_held n).
Definition set_orphans (o : OrphanPool) (n : Node) : Node :=
  MkNode (n_tables n) (n_pool n) o (n_tx_seen n) (n_block_seen n) (n_partitioned n) (n_partition_start n)
    (n_last_block n) (n_tip n) (n_sent n) (n_dialled n) (n_scores_held n).
Definition set_tx_seen (m : gmap Hash Z) (n : Node) : Node :=
  MkNode (n_tables n) (n_pool n) (n_orphans n) m (n_block_seen n) (n_partitioned n) (n_partition_start n)
    (n_last_block n) (n_tip n) (n_sent n) (n_dialled n) (n_scores_held n).
Definition set_block_seen (m : gmap Hash Z) (n : Node) : Node :=
  MkNode (n_tables n) (n_pool n) (n_orphans n) (n_tx_seen n) m (n_partitioned n) (n_partition_start n)
    (n_last_block n) (n_tip n) (n_sent n) (n_dialled n) (n_scores_held n).
Definition set_partition (p : bool) (start : option Z) (last : Z) (tip : u64) (n : Node) : Node :=
  MkNode (n_tables n) (n_pool n) (n_orphans n) (n_tx_seen n) (n_block_seen n) p start last tip (n_sent n) (n_dialled n) (n_scores_held n).
Definition push_sent (a : SocketAddr) (bytes : list u8) (n : Node) : Node :=
  MkNode (n_tables n) (n_pool n) (n_orphans n) (n_tx_seen n) (n_block_seen n) (n_partitioned n) (n_partition_start n)
    (n_last_block n) (n_tip n) (n_sent n ++ [(a, bytes)]) (n_dialled n) (n_scores_held n).
Definition set_dialled (q : list SocketAddr) (n : Node) : Node :=
  MkNode (n_tables n) (n_pool n) (n_orphans n) (n_tx_seen n) (n_block_seen n) (n_partitioned n) (n_partition_start n)
    (n_last_block n) (n_tip n) (n_sent n) q (n_scores_held n).
Definition hold_scores (n : Node) : Node :=
  MkNode (n_tables n) (n_pool n) (n_orphans n) (n_tx_seen n) (n_block_seen n) (n_partitioned n) (n_partition_start n)
    (n_last_block n) (n_tip n) (n_sent n) (n_dialled n) true.

Definition n_chain (n : Node) : Blockchain := chain (n_pool n).
Definition set_node_chain (c : Blockchain) (n : Node) : Node := set_node_pool (set_bc c (n_pool n)) n.
Definition on_scores (f : ScoreTable → ScoreTable) (n : Node) : Node :=
  set_tables (set_scores (f (t_scores (n_tables n))) (n_tables n)) n.
(** [if let Some(score) = scores.get_mut(&addr)] *)
Definition on_score (a : SocketAddr) (f : PeerScore → PeerScore) : Node → Node := on_scores (alter f a).

Context (gfuel : nat) (cpu : CpuFeatures) (buffer : list u8).
Context (now : Z) (wall : u64) (opened : SocketAddr → bool) (shuffle : list SocketAddr → list SocketAddr) (random : u64).

(** ** Writing *)

Definition write_reply (a : SocketAddr) (data : list u8) : NM unit :=
  if opened a then se_mod (push_sent a (write_unframed data)) else fail (Network "Failed to write length").
Definition bincode_envelope (m : AuthenticatedMessage) : result BlockchainError (list u8) :=
  ok_or (Serialization "bincode") (serialize m).
(** A request or an answer without a signature. *)
Definition reply_plain (a : SocketAddr) (m : NetworkMessage) : NM unit :=
  data ← se_read (λ _, bincode_message m);
  write_reply a data.
Definition reply_signed (cx : Ctx) (a : SocketAddr) (m : NetworkMessage) : NM unit :=
  data ← se_read (λ _, authenticated ← sign_message_with_key wall m (cx_key cx) (ed25519_public (cx_key cx));
                       bincode_envelope authenticated);
  write_reply a data.
(** With a frame byte, on the stored stream of a peer. *)
Definition send_framed (data : list u8) (a : SocketAddr) (n : Node) : Node :=
  if bool_decide (a ∈ t_streams (n_tables n)) && opened a then push_sent a (write_framed data) n else n.

(** ** Blocks *)

(** [bc.add_block_for_sync(block).await], whose error is a value here unless it
    is a panic. *)
Definition node_add_block (b : Block) : NM (result BlockchainError bool) := λ n,
  match add_block_for_sync gfuel cpu buffer wall b (n_chain n) with
  | (Err (Panic m), c) => (Err (Panic m), set_node_chain c n)
  | (r, c) => (Ok r, set_node_chain c n)
  end.
Definition has_block (h : Hash) : NM bool :=
  se_read (λ n, (λ o, bool_decide (is_Some o)) <$> get_block_by_hash (n_chain n) h).
Fixpoint has_blocks (hs : list Hash) : NM bool :=
  match hs with
  | [] => mret true
  | h :: rest =>
      known ← has_block h;
      if (known : bool) then has_blocks rest else mret false
  end.

(** The next entry of a cache of seen hashes; whether it is new. *)
Definition note_block (h : Hash) : NM bool := λ n,
  if bool_decide (is_Some (n_block_seen n !! h)) then (Ok false, n)
  else (Ok true, set_block_seen (evict_seen_cache SEEN_CACHE_SIZE now (<[h := now]> (n_block_seen n))) n).
Definition note_tx (h : Hash) : NM bool := λ n,
  if bool_decide (is_Some (n_tx_seen n !! h)) then (Ok false, n)
  else (Ok true, set_tx_seen (evict_seen_cache SEEN_CACHE_SIZE now (<[h := now]> (n_tx_seen n))) n).

(** The tip, the end of a partition and the time of the last block. *)
Definition block_arrived (number : u64) (n : Node) : Node :=
  set_partition false (if n_partitioned n then None else n_partition_start n) now number n.

(** Storing an orphan and asking for its parents, whether or not that works. *)
Definition keep_orphan (a : SocketAddr) (b : Block) : NM unit := λ n,
  let '(missing, o) := add_orphan b (n_orphans n) in
  let n := set_orphans o n in
  match missing with
  | [] => (Ok tt, n)
  | _ => match bincode_message (MRequestMissingParents missing) with
         | Err e => (Err e, n)
         | Ok data => (Ok tt, (write_reply a data n).2)
         end
  end.

(** Each orphan is taken out and offered to the chain. *)
Definition offer_orphan (h : Hash) : NM unit := λ n,
  let '(found, o) := try_process_orphan h (n_orphans n) in
  match found with
  | Some b => (_ ← node_add_block b; mret tt) (set_orphans o n)
  | None => (Ok tt, n)
  end.
Definition offer_orphans : NM unit :=
  n ← se_get;
  se_for (get_orphan_hashes (n_orphans n)) offer_orphan.

Definition relay_fanout (peer_count : nat) : nat :=
  Nat.max 3 (Z.to_nat (f_as_uint u64_max (f_sqrt (f_of_Z (Z.of_nat peer_count))))).
Definition relay_message (cx : Ctx) (b : Block) (n : Node) : NetworkMessage :=
  if cx_mining cx then MNewCompactBlock (from_block random b (get_mempool_hashes (n_pool n))) else MNewBlock b.
Definition relay_block_to_peers (cx : Ctx) (b : Block) (source : SocketAddr) (n : Node) : Node :=
  let peers := t_peers (n_tables n) in
  if (size peers <=? 1)%nat then n else
  let selected := take (relay_fanout (size peers)) (shuffle (List.filter (λ p, negb (bool_decide (p = source))) (hs_iter peers))) in
  match sign_message_with_key wall (relay_message cx b n) (cx_key cx) (ed25519_public (cx_key cx)) ≫= bincode_envelope with
  | Ok data => foldl (λ n a, send_framed data a n) n selected
  | Err _ => n
  end.

Definition as_i64 (x : u64) : Z := if x <? 2 ^ 63 then x else x - 2 ^ 64.
(** Counting a delivered block as fresh or stale. *)
Definition credit_block (height_delta : u64) (s : PeerScore) : PeerScore :=
  let '(stale, fresh) := if STALE_BLOCK_THRESHOLD <? height_delta
                         then (sat_add32 (ps_stale_blocks s) 1, ps_fresh_blocks s)
                         else (ps_stale_blocks s, sat_add32 (ps_fresh_blocks s) 1) in
  ps_set_delivery (add64 (ps_blocks_delivered s) 1) stale fresh (as_i64 height_delta) s.
Definition note_novelty (novel : bool) (s : PeerScore) : PeerScore :=
  if novel then ps_set_novelty (sat_add32 (ps_novel_blocks s) 1) (ps_duplicate_blocks s) s
  else ps_set_novelty (ps_novel_blocks s) (sat_add32 (ps_duplicate_blocks s) 1) s.

Definition on_new_block (cx : Ctx) (a : SocketAddr) (b : Block) : NM unit :=
  _ ← se_mod (λ n, on_score a (note_novelty (bool_decide (n_block_seen n !! block_hash b = None))) n);
  fresh ← note_block (block_hash b);
  if negb fresh then mret tt else
  n ← se_get;
  let height_delta := sat_sub (n_tip n) (block_number (header b)) in
  connected ← has_blocks (parent_hashes (header b));
  if negb connected then keep_orphan a b else
  added ← node_add_block b;
  match added with
  | Ok true =>
      _ ← se_mod (block_arrived (block_number (header b)));
      _ ← se_mod (on_score a (credit_block height_delta));
      _ ← offer_orphans;
      se_mod (relay_block_to_peers cx b a)
  | Ok false => mret tt
  | Err _ => se_mod (on_scores (penalize_peer now a PInvalidBlock))
  end.

(** The block rebuilt from a compact one; whether it was added. *)
Definition add_rebuilt (a : SocketAddr) (b : Block) : NM bool :=
  connected ← has_blocks (parent_hashes (header b));
  if negb connected then _ ← keep_orphan a b; mret false else
  added ← node_add_block b;
  match added with
  | Ok true =>
      _ ← se_mod (block_arrived (block_number (header b)));
      _ ← offer_orphans;
      mret true
  | _ => mret false
  end.
(** [block.hash = block_hash]: the hash of the header. *)
Definition with_hash (h : Hash) (b : Block) : Block := MkBlock (header b) (transactions b) h (zk_proof b).
Definition on_compact_block (cx : Ctx) (a : SocketAddr) (c : CompactBlock) : NM unit :=
  let block_hash := compact_block_hash c in
  fresh ← note_block block_hash;
  if negb fresh then mret tt else
  rebuilt ← (if cx_mining cx then
     n ← se_get;
     match to_block cpu buffer c (get_mempool_snapshot (n_pool n)) with
     | (Some b, _) =>
         let b := with_hash block_hash b in
         added ← add_rebuilt a b;
         mret (if (added : bool) then Some b else None)
     | (None, []) => mret None
     | (None, missing) => _ ← reply_plain a (MGetMissingTransactions block_hash missing (cb_nonce c)); mret None
     end
   else mret None);
  match rebuilt with
  | Some b => se_mod (relay_block_to_peers cx b a)
  | None => reply_plain a (MRequestBlocksByHash [block_hash])
  end.

Definition on_shard_block (b : Block) : NM unit := _ ← node_add_block b; mret tt.

(** ** Transactions *)

Definition on_transaction (cx : Ctx) (a : SocketAddr) (t : Transaction) : NM unit :=
  fresh ← note_tx (tx_hash t);
  if negb fresh then mret tt else
  if negb (cx_mining cx) then mret tt else
  λ n, match pool_add_transaction now wall t (n_pool n) with
       | (Err (Panic m), p) => (Err (Panic m), set_node_pool p n)
       | (Err _, p) => (Ok tt, on_scores (penalize_peer now a PInvalidTransaction) (set_node_pool p n))
       | (Ok _, p) => (Ok tt, set_node_pool p n)
       end.

(** ** Serving *)

Fixpoint find_blocks (hs : list Hash) : NM (list Block) :=
  match hs with
  | [] => mret []
  | h :: rest =>
      found ← se_read (λ n, get_block_by_hash (n_chain n) h);
      bs ← find_blocks rest;
      mret (match found with Some b => b :: bs | None => bs end)
  end.
Definition serve_hashes (cx : Ctx) (a : SocketAddr) (hs : list Hash) : NM unit :=
  bs ← find_blocks hs;
  reply_signed cx a (MBlocks bs).
Definition blocks_from (c : Blockchain) (from_block count : u64) : list Block :=
  take (Z.to_nat count) (sort_by_key (λ b, block_number (header b))
    (List.filter (λ b, from_block <=? block_number (header b)) (blocks (blocks_data c)))).
Definition serve_range (cx : Ctx) (a : SocketAddr) (from_block count : u64) : NM unit :=
  n ← se_get;
  reply_signed cx a (MBlocks (blocks_from (n_chain n) from_block count)).
Definition serve_shard (cx : Ctx) (a : SocketAddr) (shard_id : nat) (from_block count : u64) : NM unit :=
  n ← se_get;
  let bs := match (if cx_shards cx then shard_manager (n_pool n) else None) with
            | Some sm => default [] (get_shard_blocks sm shard_id from_block (Z.to_nat count))
            | None => blocks_from (n_chain n) from_block count
            end in
  reply_plain a (MShardBlocks shard_id bs).
Definition serve_transactions (cx : Ctx) (a : SocketAddr) (block_hash : Hash) (ids : list (list u8)) (nonce : u64) : NM unit :=
  n ← se_get;
  let txs := if cx_mining cx
             then snd <$> hm_iter (find_transactions_by_short_ids (get_mempool_snapshot (n_pool n)) ids nonce) else [] in
  reply_signed cx a (MMissingTransactions block_hash txs).
Definition on_missing_transactions (cx : Ctx) (a : SocketAddr) (block_hash : Hash) (txs : list Transaction) : NM unit :=
  match txs with
  | [] => reply_plain a (MRequestBlocksByHash [block_hash])
  | _ =>
      if cx_mining cx then
        _ ← se_for txs (λ t n, match pool_add_transaction now wall t (n_pool n) with
                               | (Err (Panic m), p) => (Err (Panic m), set_node_pool p n)
                               | (_, p) => (Ok tt, set_node_pool p n)
                               end);
        reply_plain a (MRequestBlocksByHash [block_hash])
      else mret tt
  end.

(** ** Receiving blocks *)

Inductive Placed := PlAdded | PlOrphaned | PlOther.
Definition place_block (b : Block) : NM Placed :=
  known ← has_block (block_hash b);
  if (known : bool) then mret PlOther else
  connected ← has_blocks (parent_hashes (header b));
  if (connected : bool) then
    added ← node_add_block b;
    mret (match added with Ok true => PlAdded | _ => PlOther end)
  else
    _ ← se_mod (λ n, set_orphans (add_orphan b (n_orphans n)).2 n);
    mret PlOrphaned.
(** Blocks added, blocks orphaned, highest number added. *)
Fixpoint place_blocks (bs : list Block) (added orphaned : nat) (highest : option u64) : NM (nat * nat * option u64) :=
  match bs with
  | [] => mret (added, orphaned, highest)
  | b :: rest =>
      placed ← place_block b;
      let number := block_number (header b) in
      match placed with
      | PlAdded => place_blocks rest (S added) orphaned (Some (match highest with Some h => Z.max h number | None => number end))
      | PlOrphaned => place_blocks rest added (S orphaned) highest
      | PlOther => place_blocks rest added orphaned highest
      end
  end.
(** An orphan whose parents are there is added, any other is put back. *)
Definition retry_orphan (h : Hash) : NM bool := λ n,
  let '(found, o) := try_process_orphan h (n_orphans n) in
  match found with
  | None => (Ok false, n)
  | Some b =>
      (connected ← has_blocks (parent_hashes (header b));
       added ← (if (connected : bool) then node_add_block b else mret (Err (Validation "Missing parents")));
       match added with
       | Ok true => mret true
       | Ok false => mret false
       | Err _ => _ ← se_mod (λ n, set_orphans (add_orphan b (n_orphans n)).2 n); mret false
       end) (set_orphans o n)
  end.
Fixpoint retry_orphans (hs : list Hash) (added : nat) : NM nat :=
  match hs with
  | [] => mret added
  | h :: rest =>
      ok ← retry_orphan h;
      retry_orphans rest (if (ok : bool) then S added else added)
  end.
Fixpoint orphan_passes (passes : nat) (added : nat) : NM nat :=
  match passes with
  | O => mret added
  | S passes' =>
      n ← se_get;
      match get_orphan_hashes (n_orphans n) with
      | [] => mret added
      | hs =>
          more ← retry_orphans hs 0;
          if (more =? 0)%nat then mret added else orphan_passes passes' (added + more)%nat
      end
  end.
Definition highest_in_batch (bs : list Block) : option u64 :=
  match bs with
  | [] => None
  | b :: rest => Some (foldl (λ m b, Z.max m (block_number (header b))) (block_number (header b)) rest)
  end.
Definition on_blocks (a : SocketAddr) (bs : list Block) : NM unit :=
  '(added, orphaned, highest) ← place_blocks (sort_by_key (λ b, block_number (header b)) bs) 0 0 None;
  _ ← se_mod (λ n, match highest with Some h => block_arrived h n | None => n end);
  _ ← se_mod (λ n, if (added =? 0)%nat then n
                   else on_score a (λ s, ps_set_delivery (add64 (ps_blocks_delivered s) (Z.of_nat added)) (ps_stale_blocks s)
                                           (ps_fresh_blocks s) (ps_last_block_height_delta s) s) n);
  added ← (if (added =? 0)%nat then mret 0%nat else orphan_passes MAX_ORPHAN_RESOLUTION_PASSES added);
  if (added =? 0)%nat && (orphaned =? 0)%nat then mret tt else
  n ← se_get;
  let latest := add64 (cached_latest_block_number (n_chain n)) 1 in
  let next_from := if (added =? 0)%nat then match highest_in_batch bs with Some h => add64 h 1 | None => latest end else latest in
  _ ← se_try (reply_plain a (MRequestBlocks next_from MAX_BLOCKS_PER_REQUEST));
  mret tt.
Definition on_shard_blocks (cx : Ctx) (shard_id : nat) (bs : list Block) : NM unit :=
  se_for bs (λ b n,
    match (if cx_shards cx then shard_manager (n_pool n) else None) with
    | Some sm =>
        let '(_, sm') := add_block_to_shard gfuel cpu buffer wall shard_id b sm in
        (Ok tt, set_node_pool (set_shards (Some sm') (n_pool n)) n)
    | None => (_ ← node_add_block b; mret tt) n
    end).

(** ** Latency *)

Definition on_ping (cx : Ctx) (a : SocketAddr) (nonce : u64) : NM unit :=
  data ← se_read (λ _, authenticated ← sign_untimed wall (MPong nonce) (cx_key cx) (ed25519_public (cx_key cx));
                       bincode_envelope authenticated);
  write_reply a data.
Definition take_pong (nonce : u64) (s : PeerScore) : PeerScore :=
  let limited := match ps_last_pong_time s with
                 | Some last => as_secs (Z.max 0 (now - last)) <? PONG_RATE_LIMIT_SECS
                 | None => false
                 end in
  if limited then s else
  match ps_ping_sent_at s with
  | Some sent =>
      if bool_decide (ps_pending_ping_nonce s = Some nonce) then
        let rtt := Z.min LATENCY_MAX_MS (Z.max LATENCY_MIN_MS (Z.max 0 (now - sent) / 1000000)) in
        let samples := ps_latency_samples s ++ [rtt] in
        let samples := if (5 <? length samples)%nat then drop 1 samples else samples in
        ps_set_ping (Some rtt) None None samples (Some now) s
      else s
  | None => s
  end.

(** ** Peer exchange *)

(** Peers of each subnet in turn, until there are twenty or none is left. *)
Fixpoint round_robin (fuel round : nat) (groups : list (list string)) (acc : list string) : list string :=
  match fuel with
  | O => acc
  | S fuel' =>
      if (20 <=? length acc)%nat then acc else
      let acc' := take 20 (acc ++ omap (λ g, g !! round) groups) in
      if (length acc' =? length acc)%nat then acc else round_robin fuel' (S round) groups acc'
  end.
Definition group_by_subnet (l : list (SocketAddr * string)) : gmap (option (u8 * u8)) (list string) :=
  foldl (λ m ca, let p := subnet_prefix_16 ca.1 in <[p := default [] (m !! p) ++ [ca.2]]> m) ∅ l.
Definition peers_to_share (a : SocketAddr) (t : Tables) : list string :=
  let eligible := List.filter (λ ca : SocketAddr * string,
      negb (bool_decide (ca.1 = a)) && negb (is_peer_banned now (t_scores t) ca.1)) (hm_iter (t_advertised t)) in
  let groups := group_by_subnet eligible in
  let special := default [] (groups !! None) in
  round_robin 21 0 (snd <$> hm_iter (delete None groups)) (take 20 special).
Definition on_request_peers (cx : Ctx) (a : SocketAddr) : NM unit :=
  n ← se_get;
  let recent := match t_request_times (n_tables n) !! a with
                | Some last => Z.max 0 (now - last) <? from_secs 60
                | None => false
                end in
  if recent then mret tt else
  _ ← se_mod (λ n, set_tables (set_request_times (<[a := now]> (t_request_times (n_tables n))) (n_tables n)) n);
  n ← se_get;
  reply_signed cx a (MPeers (peers_to_share a (n_tables n))).

Definition subnet_sizes (t : Tables) : gmap (u8 * u8) nat :=
  foldl (λ m a, match subnet_prefix_16 a with Some p => <[p := S (default 0%nat (m !! p))]> m | None => m end) ∅ (hs_iter (t_peers t)).
Definition saturated (m : gmap (u8 * u8) nat) (a : SocketAddr) : bool :=
  match subnet_prefix_16 a with Some p => (MAX_PEERS_PER_SUBNET_16 <=? default 0%nat (m !! p))%nat | None => false end.
Definition exchange_key (m : gmap (u8 * u8) nat) (a : SocketAddr) : Z :=
  match subnet_prefix_16 a with
  | Some p => if saturated m a then u64_max else Z.of_nat (default 0%nat (m !! p))
  | None => 0
  end.
(** Peers of other subnets that sent nearly the same list. *)
Definition sybil_penalty (a : SocketAddr) (received : gset SocketAddr) (scores : ScoreTable) (other : SocketAddr * gset SocketAddr) : ScoreTable :=
  if bool_decide (other.1 = a) then scores else
  if bool_decide (subnet_prefix_16 a = subnet_prefix_16 other.1) then scores else
  if f_ltb JACCARD_SYBIL_THRESHOLD (jaccard_similarity received other.2) then
    let dock := λ s, ps_set_failures (sat_add32 (ps_failure_count s) JACCARD_REPUTATION_PENALTY) s in
    alter dock other.1 (alter dock a scores)
  else scores.
Definition queue_connections (cx : Ctx) (l : list SocketAddr) (n : Node) : Node :=
  if negb (cx_connect cx) then n else
  if match cx_max_peers cx with Some max => (Z.to_nat max <=? size (t_peers (n_tables n)))%nat | None => false end then n else
  set_dialled (n_dialled n ++ take (CONNECT_QUEUE_SIZE - length (n_dialled n)) l) n.
Definition on_peers (cx : Ctx) (a : SocketAddr) (addresses : list string) : NM unit := λ n,
  let t := n_tables n in
  let self_advertise := default (addr_text (cx_listen cx)) (t_advertised t !! cx_listen cx) in
  let received := List.filter (λ p, negb (bool_decide (p = cx_listen cx)) && negb (bool_decide (addr_text p = self_advertise)))
                    (omap addr_parse addresses) in
  let sizes := subnet_sizes t in
  let set : gset SocketAddr := list_to_set received in
  let n := on_scores (λ s, foldl (sybil_penalty a set) s (hm_iter (t_lists t))) n in
  let n := set_tables (set_lists (<[a := set]> (t_lists (n_tables n))) (n_tables n)) n in
  let candidates := List.filter (λ p, negb (bool_decide (p ∈ t_peers t)) && negb (saturated sizes p))
                      (sort_by_key (exchange_key sizes) received) in
  (Ok tt, queue_connections cx candidates n).

Definition on_handshake (a : SocketAddr) (listen_addr : string) (capabilities : u32) : NM unit :=
  if negb (meets_required_capabilities capabilities) then fail (Network "insufficient capabilities") else
  se_mod (λ n, match addr_parse listen_addr with
               | Some _ => set_tables (set_advertised (<[a := listen_addr]> (t_advertised (n_tables n))) (n_tables n)) n
               | None => n
               end).

(** ** All messages *)

Definition process_message (cx : Ctx) (a : SocketAddr) (m : NetworkMessage) : NM unit :=
  match m with
  | MHandshake listen caps => on_handshake a listen caps
  | MNewBlock b => on_new_block cx a b
  | MNewCompactBlock c => on_compact_block cx a c
  | MNewShardBlock b _ => on_shard_block b
  | MNewTransaction t => on_transaction cx a t
  | MRequestBlocks from_block count => serve_range cx a from_block count
  | MRequestBlocksByHash hs | MRequestMissingParents hs => serve_hashes cx a hs
  | MRequestShardBlocks i from_block count => serve_shard cx a i from_block count
  | MBlocks bs => on_blocks a bs
  | MShardBlocks i bs => on_shard_blocks cx i bs
  | MPing nonce => on_ping cx a nonce
  | MPong nonce => se_mod (on_score a (take_pong nonce))
  | MRequestPeers => on_request_peers cx a
  | MPeers l => on_peers cx a l
  | MGetMissingTransactions h ids nonce => serve_transactions cx a h ids nonce
  | MMissingTransactions h txs => on_missing_transactions cx a h txs
  | MKyberPublicKey _ | MKyberCiphertext _ | MKyberHandshakeAck => mret tt
  end.
End Gossip.
