(* ===== verification/PeerLoop.v ===== *)
(** * PeerLoop: the tasks that read from and write to peers

    Models [handle_peer], [handle_connection_streams],
    [process_gossip_handshake], [handle_sync_stream], the broadcasts, the choice
    of peers for relaying, the periodic exchange and the partition checker of
    [irondag-blockchain/src/network.rs].  The input of a stream is the bytes
    that arrive before it ends; the node is running throughout.  The loop of
    [handle_peer] reads the clocks once per message.

    Every task that needs the scores waits for their lock: [FBlocked] is the
    outcome when it is held for ever ([n_scores_held]), which happens when
    [handle_peer] asks for it while it holds it. *)

From S2P Require Import Prelude Types Block Pow Error.
From S2P Require Import Storage DagStorage GhostDag.
From S2P Require Import Sponsorship PrivacyPool Recurring Governance Wallet Verkle.
From S2P Require Import Ledger BlockIndex Execution AccountFrame Chain.
From S2P Require Import Messaging Sharding Float64 Ordering TxPool.
From S2P Require Import SyncPool SyncProtocol RateLimit PeerScore Wire PeerTables Gossip.

Definition STREAM_TYPE_GOSSIP : u8 := 1.
Definition MAX_OVERSIZED_CONSECUTIVE : nat := 5.

(** How the handling of a message ends. *)
Inductive Flow := FContinue | FBreak | FBlocked | FPanicked.
#[global] Instance Flow_eq_dec : EqDecision Flow.
Proof. solve_decision. Defined.

Section PeerLoop.
Context `{Hex, Keccak, Blake3, Crypto, Evm, HashIter, SliceSearch, UnstableSort, SipHash, MessageCodec, AddrText}.
Context `{Codec Block, Codec (list Hash), Codec TxReceipt, Codec CrossShardMessage}.
Context (gfuel : nat) (cpu : CpuFeatures) (buffer : list u8).
Context (opened : SocketAddr → bool) (shuffle : list SocketAddr → list SocketAddr) (random : u64).

Section OneMessage.
Context (now : Z) (wall : u64).

(** [cleanup_peer_state_on_error], which takes the lock of the scores second. *)
Definition drop_peer (a : SocketAddr) (n : Node) : Node := set_tables (set_peers (t_peers (n_tables n) ∖ {[a]}) (n_tables n)) n.
Definition disconnect (a : SocketAddr) (n : Node) : Flow * Node :=
  if n_scores_held n then (FBlocked, drop_peer a n)
  else (FBreak, set_tables (cleanup_peer_state_on_error a (n_tables n)).2 n).

(** A penalty.  When it bans the peer, the same cleanup runs inside the scope of
    the guard of the scores. *)
Definition reject_message (a : SocketAddr) (r : PenaltyReason) (n : Node) : Flow * Node :=
  let n := on_scores (penalize_peer now a r) n in
  if is_peer_banned now (t_scores (n_tables n)) a then disconnect a (hold_scores n) else (FContinue, n).

Definition drift_penalty (drift_secs : u64) : f64 :=
  if 240 <? drift_secs then f_of_Z 15 else if 180 <? drift_secs then f_of_Z 10 else f_of_Z 5.
Definition note_drift (timestamp : u64) (s : PeerScore) : PeerScore :=
  let drift_secs := Z.abs (timestamp - wall) in
  if 120 <? drift_secs then
    if match ps_last_clock_drift_check s with Some last => 60 <=? as_secs (Z.max 0 (now - last)) | None => true end
    then ps_set_drift (f_add (ps_clock_drift_penalties s) (drift_penalty drift_secs)) (Some now) s
    else s
  else s.
Definition pinned_key (a : SocketAddr) (t : Tables) : option (list u8) :=
  k ← t_keys t !! a; if (length k =? 32)%nat then Some k else None.

(** A message whose signature was verified. *)
Definition handle_verified (cx : Ctx) (a : SocketAddr) (m : AuthenticatedMessage) (n : Node) : Flow * Node :=
  let n := on_score a (note_drift (am_timestamp m)) n in
  let n := set_tables (set_keys (<[a := am_public_key m]> (t_keys (n_tables n))) (n_tables n)) n in
  match process_message gfuel cpu buffer now wall opened shuffle random cx a (am_message m) n with
  | (Ok _, n) => (FContinue, on_score a (λ s, ps_set_seen now (sat_add32 (ps_success_count s) 1) s) n)
  | (Err (Panic _), n) => (FPanicked, n)
  | (Err _, n) => (FContinue, n)
  end.

(** Without the [kyber] feature, only plain frames are processed. *)
Definition handle_frame (cx : Ctx) (a : SocketAddr) (frame_byte : u8) (payload : list u8) (n : Node) : Flow * Node :=
  match register_sender now a (n_tables n) with
  | None => (FContinue, n)
  | Some t =>
      if n_scores_held n then (FBlocked, set_tables (set_peers (t_peers t) (n_tables n)) n) else
      let '(allowed, scores) := check_peer_rate_limit now a (t_scores t) in
      let n := set_tables (set_scores scores t) n in
      if negb allowed then (FContinue, n) else
      if negb (frame_byte =? MSG_FRAME_PLAINTEXT) then (FContinue, n) else
      match (deserialize payload : option AuthenticatedMessage) with
      | None => reject_message a PMalformedMessage n
      | Some m =>
          match verify_message wall m (pinned_key a (n_tables n)) with
          | Err _ => reject_message a PSignatureVerificationFailed n
          | Ok _ => handle_verified cx a m n
          end
      end
  end.
End OneMessage.

(** The loop; [clock i] is the time at the [i]-th message. *)
Fixpoint handle_peer (clock : nat → Z * u64) (cx : Ctx) (a : SocketAddr) (fuel i oversized : nat) (input : list u8) (n : Node) :
    Flow * Node :=
  match fuel with
  | O => (FContinue, n)
  | S fuel' =>
      match read_frame input with
      | FrEnd => disconnect a n
      | FrOversized _ rest =>
          if (MAX_OVERSIZED_CONSECUTIVE <=? S oversized)%nat then disconnect a n else
          match read_exact (Z.to_nat MAX_MESSAGE_SIZE) rest with
          | Err _ => disconnect a n
          | Ok (_, rest) => handle_peer clock cx a fuel' (S i) (S oversized) rest n
          end
      | FrEmpty rest => handle_peer clock cx a fuel' (S i) 0 rest n
      | FrMessage frame_byte payload rest =>
          let '(now, wall) := clock i in
          match handle_frame now wall cx a frame_byte payload n with
          | (FContinue, n) => handle_peer clock cx a fuel' (S i) 0 rest n
          | stopped => stopped
          end
      end
  end.

(** ** Streams a peer opens *)

Section Streams.
Context (now : Z) (wall : u64).
Context `{Codec (list Block), Codec SignedSyncResponse}.

(** The handshake of a gossip stream; what follows it on the stream.  An error
    while reading the frame byte or writing the answer is not noticed. *)
Definition read_handshake (input : list u8) : result string (list u8 * list u8) :=
  '(head, rest) ← read_exact 4 input;
  let len := from_be_bytes head in
  if len <? 1 then Err "Handshake too short for frame byte"%string else
  let rest := match read_exact 1 rest with Ok (_, rest) => rest | Err _ => rest end in
  read_exact (Z.to_nat (len - 1)) rest.
Definition take_handshake (a : SocketAddr) (m : AuthenticatedMessage) : SE Node string unit :=
  _ ← se_mod (λ n, if (length (am_public_key m) =? 32)%nat
                   then set_tables (set_keys (<[a := am_public_key m]> (t_keys (n_tables n))) (n_tables n)) n else n);
  match am_message m with
  | MHandshake listen caps =>
      if negb (meets_required_capabilities caps) then fail "insufficient capabilities"%string else
      se_mod (λ n, set_tables (set_advertised (<[a := listen]> (t_advertised (n_tables n))) (n_tables n)) n)
  | _ => mret tt
  end.
Definition process_gossip_handshake (cx : Ctx) (a : SocketAddr) (input : list u8) : SE Node string (list u8) :=
  '(payload, rest) ← se_read (λ _, read_handshake input);
  m ← se_read (λ _, ok_or "Failed to deserialize handshake"%string (deserialize payload : option AuthenticatedMessage));
  _ ← se_read (λ _, map_err (λ _, "Handshake signature invalid"%string) (verify_message wall m None));
  _ ← take_handshake a m;
  data ← se_read (λ _, map_err (λ _, "Failed to serialize handshake"%string)
    (sign_message wall (cx_key cx) (MHandshake (addr_text (cx_listen cx)) LOCAL_CAPABILITIES) ≫= bincode_envelope));
  _ ← se_mod (λ n, if opened a then push_sent a (write_framed data) n else n);
  _ ← se_mod (λ n, set_tables (set_streams ({[a]} ∪ t_streams (n_tables n)) (n_tables n)) n);
  mret rest.

(** What is written back on a sync stream: also to clients of version 1, and
    the highest block number where the TCP server sends a count. *)
Definition handle_sync_stream (c : Blockchain) (secret_key input : list u8) : result string (list u8) :=
  '(head, rest) ← read_exact 10 input;
  if negb (bool_decide (take 8 head = SYNC_MAGIC)) then Ok [] else
  let version := nth 8 head 0 in
  let request_type := nth 9 head 0 in
  if negb (version =? SYNC_VERSION) && negb (version =? 1) then Ok [] else
  let use_signing := 2 <=? version in
  if request_type =? 0 then
    let height := to_le_bytes 8 (cached_latest_block_number c) in
    if use_signing then signed_reply wall height secret_key else Ok height
  else if request_type =? 1 then
    '(params, _) ← read_exact 16 rest;
    let from_block := from_le_bytes (take 8 params) in
    let count := Z.min (from_le_bytes (drop 8 params)) MAX_BLOCKS_PER_REQUEST in
    let bs := select_blocks_for_sync_batch c from_block count in
    blocks_data ← ok_or "bincode"%string (serialize bs);
    let block_count := to_le_bytes 8 (Z.of_nat (length bs)) in
    if use_signing then signed_reply wall (block_count ++ blocks_data) secret_key
    else Ok (block_count ++ to_le_bytes 8 (Z.of_nat (length blocks_data)) ++ blocks_data)
  else Ok [].

(** One stream accepted by [handle_connection_streams]; [done] when the gossip
    handshake was. *)
Inductive Accepted :=
| AIgnored
| AGossip (rest : list u8)
| ASync (answer : result string (list u8))
| AClosed (f : Flow).
Definition handle_stream (cx : Ctx) (a : SocketAddr) (done : bool) (input : list u8) (n : Node) : Accepted * Node :=
  match input with
  | [] => (AIgnored, n)
  | stream_type :: rest =>
      if stream_type =? STREAM_TYPE_GOSSIP then
        if done then (AIgnored, n) else
        match process_gossip_handshake cx a rest n with
        | (Ok rest, n) => (AGossip rest, n)
        | (Err _, n) => let '(f, n) := disconnect a n in (AClosed f, n)
        end
      else if stream_type =? STREAM_TYPE_SYNC then (ASync (handle_sync_stream (n_chain n) (cx_key cx) rest), n)
      else (AIgnored, n)
  end.
End Streams.

(** ** Choosing peers *)

Section Broadcast.
Context (now : Z) (wall : u64).

Record FanoutPeer := MkFanoutPeer { fp_addr : SocketAddr; fp_latency : option u64; fp_efficiency : f64 }.
(** [sort_by] when the comparison is not an order: some order of the same
    peers. *)
Context (order_by : (FanoutPeer → FanoutPeer → comparison) → list FanoutPeer → list FanoutPeer).

Definition better_efficiency (x y : FanoutPeer) : comparison :=
  default Eq (SpecFloat.SFcompare (fp_efficiency y) (fp_efficiency x)).
Definition fanout_cmp (x y : FanoutPeer) : comparison :=
  match fp_latency x, fp_latency y with
  | Some lx, Some ly => if Z.abs (lx - ly) <=? 10 then better_efficiency x y else lx ?= ly
  | Some _, None => Lt
  | None, Some _ => Gt
  | None, None => better_efficiency x y
  end.
Definition refresh_bandwidth (s : PeerScore) : PeerScore :=
  if should_reset_bandwidth now s then reset_bandwidth_counters now s else s.
Definition mean_latency (s : PeerScore) : option u64 :=
  match ps_latency_samples s with
  | [] => ps_latency_ms s
  | l => Some (foldr Z.add 0 l / Z.of_nat (length l))
  end.
Definition fanout_peer (scores : ScoreTable) (a : SocketAddr) : FanoutPeer :=
  match scores !! a with
  | Some s => MkFanoutPeer a (mean_latency s) (bandwidth_efficiency s)
  | None => MkFanoutPeer a None (f_lit 1 2)
  end.
Definition median_latency (l : list FanoutPeer) : option u64 :=
  let sorted := sort_by_key id (omap fp_latency l) in sorted !! (length sorted / 2)%nat.
Definition is_fast (median : option u64) (p : FanoutPeer) : bool :=
  match fp_latency p, median with Some l, Some m => l <=? m | _, _ => false end.
Definition f_ceil_as_uint (x : f64) : Z :=
  let t := f_as_uint u64_max x in if f_leb x (f_of_Z t) then t else t + 1.
(** The first [k] peers of [l] that are not in [selected]. *)
Definition fill (l selected : list SocketAddr) : list SocketAddr := List.filter (λ p, negb (bool_decide (p ∈ selected))) l.
Definition pick (k : nat) (ranked : list FanoutPeer) : list SocketAddr :=
  let median := median_latency ranked in
  let from_fast := Z.to_nat (f_ceil_as_uint (f_mul (f_of_Z (Z.of_nat k)) (f_lit 7 10))) in
  take from_fast (fp_addr <$> List.filter (is_fast median) ranked)
  ++ take (k - from_fast) (fp_addr <$> List.filter (λ p, negb (is_fast median p)) ranked).
(** When the cache is empty or old. *)
Definition select_afresh (k : nat) (t : Tables) : list SocketAddr * Tables :=
  let peers := hs_iter (t_peers t) in
  if (length peers <=? k)%nat then (peers, t) else
  let t := set_scores (foldl (λ m a, alter refresh_bandwidth a m) (t_scores t) peers) t in
  let chosen := pick k (order_by fanout_cmp (fanout_peer (t_scores t) <$> peers)) in
  let selected := if (length chosen <? k)%nat then chosen ++ take (k - length chosen) (fill peers chosen) else chosen in
  (selected, set_fanout (Some (now, selected ++ fill peers selected)) t).
Definition select_peers_for_fanout (k : nat) (t : Tables) : list SocketAddr * Tables :=
  match t_fanout t with
  | Some (time, cached) => if Z.max 0 (now - time) <? from_secs 5 then (take k cached, t) else select_afresh k t
  | None => select_afresh k t
  end.

(** ** Sending *)

Definition send_to_peer (data : list u8) (n : Node) (a : SocketAddr) : Node :=
  if bool_decide (a ∈ t_streams (n_tables n)) then
    if opened a then on_scores (record_send_success now a) (push_sent a (write_framed data) n)
    else on_scores (record_send_failure a) n
  else n.
Abbreviation NetM := (SE Node BlockchainError).
(** Signing, encoding and the limit on the size. *)
Definition encode (cx : Ctx) (m : NetworkMessage) : result BlockchainError (list u8) :=
  sign_message wall (cx_key cx) m ≫= bincode_envelope.
Definition too_large (data : list u8) : bool := MAX_MESSAGE_SIZE <? Z.of_nat (length data).
Definition send_all (peers : list SocketAddr) (data : list u8) : NetM unit :=
  if too_large data then fail (Network "Message size exceeds maximum")
  else se_mod (λ n, foldl (send_to_peer data) n peers).
Definition mark_block (h : Hash) (n : Node) : Node :=
  set_block_seen (evict_seen_cache SEEN_CACHE_SIZE now (<[h := now]> (n_block_seen n))) n.

Definition broadcast_full_block (cx : Ctx) (b : Block) (peers : list SocketAddr) : NetM unit :=
  data ← se_read (λ _, encode cx (MNewBlock b));
  send_all peers data.
(** The shard of the first transaction, when there are shards and one. *)
Definition own_block_message (cx : Ctx) (b : Block) : NetM NetworkMessage := λ n,
  match (if cx_shards cx then shard_manager (n_pool n) else None), transactions b with
  | Some sm, t :: _ =>
      let '(r, sm') := get_shard_for_address (E:=BlockchainError) (from t) sm in
      ((λ i, MNewShardBlock b i) <$> r, set_node_pool (set_shards (Some sm') (n_pool n)) n)
  | _, _ => (Ok (MNewBlock b), n)
  end.
Definition block_fanout (b : Block) (n : Node) : nat :=
  let peer_count := size (t_peers (n_tables n)) in
  let base := relay_fanout peer_count in
  if 10 <? sat_sub (n_tip n) (block_number (header b)) then Nat.min peer_count (base * 2) else base.
Definition choose_peers (k : nat) : NetM (list SocketAddr) := λ n,
  let '(l, t) := select_peers_for_fanout k (n_tables n) in (Ok l, set_tables t n).
Definition broadcast_block (cx : Ctx) (b : Block) (is_own_block : bool) : NetM unit :=
  _ ← se_mod (mark_block (block_hash b));
  n ← se_get;
  if bool_decide (t_peers (n_tables n) = ∅) then mret tt else
  if is_own_block then
    m ← own_block_message cx b;
    data ← se_read (λ _, encode cx m);
    send_all (hs_iter (t_peers (n_tables n))) data
  else
    selected ← choose_peers (block_fanout b n);
    if cx_mining cx then
      data ← se_read (λ n, encode cx (MNewCompactBlock (from_block random b (get_mempool_hashes (n_pool n)))));
      if too_large data then broadcast_full_block cx b selected else send_all selected data
    else broadcast_full_block cx b selected.
Definition broadcast_block_compact (cx : Ctx) (b : Block) (use_compact is_own_block : bool) : NetM unit :=
  if negb use_compact || negb (cx_mining cx) then broadcast_block cx b is_own_block else
  _ ← se_mod (mark_block (block_hash b));
  n ← se_get;
  let peers := hs_iter (t_peers (n_tables n)) in
  if bool_decide (t_peers (n_tables n) = ∅) then mret tt else
  let fanout := Nat.max 3 (2 * Z.to_nat (f_as_uint u64_max (f_sqrt (f_of_Z (Z.of_nat (length peers)))))) in
  let selected := if is_own_block then peers else take fanout (shuffle peers) in
  data ← se_read (λ n, encode cx (MNewCompactBlock (from_block random b (get_mempool_hashes (n_pool n)))));
  if too_large data then broadcast_block cx b is_own_block else send_all selected data.
Definition broadcast_shard_block (cx : Ctx) (b : Block) (shard_id : nat) : NetM unit :=
  n ← se_get;
  if bool_decide (t_peers (n_tables n) = ∅) then mret tt else
  data ← se_read (λ _, encode cx (MNewShardBlock b shard_id));
  send_all (hs_iter (t_peers (n_tables n))) data.
Definition broadcast_transaction (cx : Ctx) (t : Transaction) : NetM unit :=
  _ ← se_mod (λ n, set_tx_seen (evict_seen_cache SEEN_CACHE_SIZE now (<[tx_hash t := now]> (n_tx_seen n))) n);
  n ← se_get;
  let peer_count := size (t_peers (n_tables n)) in
  if (peer_count =? 0)%nat then mret tt else
  selected ← choose_peers (relay_fanout peer_count);
  data ← se_read (λ _, encode cx (MNewTransaction t));
  send_all selected data.
Definition request_shard_blocks (cx : Ctx) (a : SocketAddr) (shard_id : nat) (from_block count : u64) : NetM unit :=
  data ← se_read (λ _, encode cx (MRequestShardBlocks shard_id from_block count));
  se_mod (λ n, send_to_peer data n a).

(** On a stored stream, where a failure to write is an error. *)
Definition write_stored (a : SocketAddr) (data : list u8) : NetM unit :=
  if opened a then se_mod (push_sent a (write_framed data)) else fail (Network "Failed to write").
Definition request_peers_from (cx : Ctx) (a : SocketAddr) : NetM unit :=
  data ← se_read (λ _, encode cx MRequestPeers);
  n ← se_get;
  if bool_decide (a ∈ t_streams (n_tables n)) then write_stored a data else fail (Network "No QUIC stream to peer").
Definition await_pong (nonce : u64) (s : PeerScore) : PeerScore :=
  ps_set_ping (ps_latency_ms s) (Some now) (Some nonce) (ps_latency_samples s) (ps_last_pong_time s) s.
Definition send_ping_to_peer (cx : Ctx) (a : SocketAddr) (nonce : u64) : NetM unit :=
  n ← se_get;
  if negb (bool_decide (is_Some (t_scores (n_tables n) !! a))) then mret tt else
  _ ← se_mod (on_score a (await_pong nonce));
  data ← se_read (λ _, encode cx (MPing nonce));
  if bool_decide (a ∈ t_streams (n_tables n)) then write_stored a data else mret tt.
Definition send_ping_to_all_peers (cx : Ctx) (nonces : SocketAddr → u64) : NetM unit :=
  n ← se_get;
  se_for (hs_iter (t_peers (n_tables n))) (λ a, _ ← se_try (send_ping_to_peer cx a (nonces a)); mret tt).

(** ** Periodic tasks *)

Definition expire_ban (s : PeerScore) : PeerScore :=
  match ps_banned_until s with
  | Some banned_until => if banned_until <=? now then ps_set_invalid 0 0 0 (ps_set_ban None None (ps_offense_count s) s) else s
  | None => s
  end.
(** A message whose signature does not cover the time. *)
Definition send_untimed (cx : Ctx) (m : NetworkMessage) (n : Node) (a : SocketAddr) : Node :=
  match sign_untimed wall m (cx_key cx) (ed25519_public (cx_key cx)) ≫= bincode_envelope with
  | Ok data => send_framed opened data a n
  | Err _ => n
  end.
Definition periodic_exchange (cx : Ctx) (nonces : SocketAddr → u64) (n : Node) : Flow * Node :=
  if n_scores_held n then (FBlocked, n) else
  let n := on_scores (fmap expire_ban) n in
  let peers := hs_iter (t_peers (n_tables n)) in
  let n := on_scores (λ m, foldl (λ m a, alter (await_pong (nonces a)) a m) m peers) n in
  let n := foldl (λ n a, send_untimed cx (MPing (nonces a)) n a) n peers in
  (FContinue, match peers with a :: _ => send_untimed cx MRequestPeers n a | [] => n end).

Definition partition_check (n : Node) : Node :=
  if negb (bool_decide (t_peers (n_tables n) = ∅)) && (PARTITION_DETECTION_THRESHOLD_SECS <=? as_secs (Z.max 0 (now - n_last_block n)))
     && negb (n_partitioned n)
  then set_partition true (Some (n_last_block n)) (n_last_block n) (n_tip n) n else n.

(** ** Statistics *)

Definition banned_count (t : Tables) : nat := size (filter (λ ac : SocketAddr * PeerScore, ps_is_banned now ac.2 = true) (t_scores t)).
Definition get_peer_latencies (t : Tables) : gmap SocketAddr (option u64) :=
  set_to_map (λ a, (a, t_scores t !! a ≫= ps_latency_ms)) (t_peers t).
Definition get_peer_latencies_for_metrics (t : Tables) : list (string * f64) :=
  omap (λ a, (λ l, (addr_text a, f_of_Z l)) <$> (t_scores t !! a ≫= ps_latency_ms)) (hs_iter (t_peers t)).
End Broadcast.
End PeerLoop.
