(* ===== verification/GossipFrame.v ===== *)
(** * GossipFrame: what processing a message may change

    [process_message] of [Gossip] changes a node through a few steps: its
    tables, a block or an orphan, a transaction, the caches, and the bytes it
    writes.  [GossipFrame] states which relations those steps respect, and
    [process_message_frame] that every message then respects them.  Two
    instances follow: a node stays sound and its chain only grows, and what is
    written to the sender is an answer without a frame byte. *)

From S2P Require Import Prelude Types Block Pow Error.
From S2P Require Import Storage DagStorage GhostDag.
From S2P Require Import Sponsorship PrivacyPool Recurring Governance Wallet Verkle.
From S2P Require Import Ledger BlockIndex Execution AccountFrame Chain.
From S2P Require Import Messaging Sharding Float64 Ordering TxPool TxPoolTheorems.
From S2P Require Import SyncPool SyncProtocol FullSync FullSyncTheorems.
From S2P Require Import RateLimit PeerScore Wire PeerTables Gossip PeerLoop.

Section Frame.
Context `{Hex, Keccak, Blake3, Crypto, Evm, HashIter, SliceSearch, UnstableSort, SipHash, MessageCodec, AddrText}.
Context `{Codec Block, Codec (list Hash), Codec TxReceipt, Codec CrossShardMessage}.
Context (gfuel : nat) (cpu : CpuFeatures) (buffer : list u8).
Context (now : Z) (wall : u64) (opened : SocketAddr → bool) (shuffle : list SocketAddr → list SocketAddr) (random : u64).

(** The bytes of a message that is a request or an answer. *)
Definition answer (data : list u8) : Prop :=
  ∃ m au, 5 <= variant m ∧ (serialize m = Some data ∨ (serialize au = Some data ∧ am_message au = m)).

(** The steps other than the caches of seen hashes. *)
Class GossipSteps (a : SocketAddr) (R : Node → Node → Prop) : Prop := {
  #[global] gf_preorder :: PreOrder R;
  gf_tables t n : R n (set_tables t n);
  gf_partition p s l i n : R n (set_partition p s l i n);
  gf_dialled q n : R n (set_dialled q n);
  gf_shards sm n : R n (set_node_pool (set_shards sm (n_pool n)) n);
  gf_add b : respects R (node_add_block gfuel cpu buffer wall b);
  gf_orphan b n : R n (set_orphans (add_orphan b (n_orphans n)).2 n);
  gf_process h n : R n (set_orphans (try_process_orphan h (n_orphans n)).2 n);
  gf_pool t n : R n (set_node_pool (pool_add_transaction now wall t (n_pool n)).2 n);
  gf_answer data : answer data → respects R (write_reply opened a data);
  gf_relay data d n : d ≠ a → R n (send_framed opened data d n) }.
Class GossipFrame (a : SocketAddr) (R : Node → Node → Prop) : Prop := {
  #[global] gf_steps :: GossipSteps a R;
  gf_note h : respects R (note_block now h);
  gf_note_tx h : respects R (note_tx now h) }.

Section Handlers.
Context (a : SocketAddr) (R : Node → Node → Prop) `{!GossipSteps a R}.

Lemma frame_fail {A} (e : BlockchainError) : respects R (fail (A:=A) e).
Proof. intros n r n' [= <- <-]. reflexivity. Qed.
Lemma frame_read f : respects R (se_read (A:=bool) (E:=BlockchainError) f).
Proof. apply respects_read. apply _. Qed.
(** The fields, with the relation fixed. *)
Lemma frame_tables t n : R n (set_tables t n).
Proof. apply gf_tables. Qed.
Lemma frame_partition p s l i n : R n (set_partition p s l i n).
Proof. apply gf_partition. Qed.
Lemma frame_dialled q n : R n (set_dialled q n).
Proof. apply gf_dialled. Qed.
Lemma frame_shards sm n : R n (set_node_pool (set_shards sm (n_pool n)) n).
Proof. apply gf_shards. Qed.
Lemma frame_orphan b n : R n (set_orphans (add_orphan b (n_orphans n)).2 n).
Proof. apply gf_orphan. Qed.
Lemma frame_add b : respects R (node_add_block gfuel cpu buffer wall b).
Proof. apply gf_add. Qed.
#[local] Hint Resolve frame_fail frame_tables frame_partition frame_dialled frame_shards frame_orphan frame_add : frame.

Lemma frame_has_block h : respects R (has_block h).
Proof. apply respects_read. apply _. Qed.
#[local] Hint Resolve frame_has_block : frame.
Lemma frame_has_blocks hs : respects R (has_blocks hs).
Proof. induction hs as [|h hs IH]; cbn [has_blocks]; frame_steps. Qed.
#[local] Hint Resolve frame_has_blocks : frame.

Lemma frame_plain m : 5 <= variant m → respects R (reply_plain opened a m).
Proof.
  intros Hv n r n'. unfold reply_plain, mbind, SE_bind, se_read, bincode_message.
  destruct (serialize m) as [data|] eqn:Hm; cbn; [|by intros [= <- <-]]. apply gf_answer. exists m.
  exists (MkAuth m [] [] 0). auto.
Qed.
Lemma frame_envelope au data n r n' : 5 <= variant (am_message au) → bincode_envelope au = Ok data →
  write_reply opened a data n = (r, n') → R n n'.
Proof.
  unfold bincode_envelope. intros Hv Hd. destruct (serialize au) as [d|] eqn:Hs; [|done]. injection Hd as ->.
  apply gf_answer. exists (am_message au), au. auto.
Qed.
Lemma frame_signed cx m : 5 <= variant m → respects R (reply_signed wall opened cx a m).
Proof.
  intros Hv n r n'. unfold reply_signed, mbind, SE_bind, se_read.
  unfold sign_message_with_key, bincode_message. destruct (serialize m) as [bs|] eqn:Hm; cbn; [|by intros [= <- <-]].
  destruct (bincode_envelope _) as [data|e] eqn:Hd; [|by intros [= <- <-]].
  intros Hr. by eapply frame_envelope; [|exact Hd|exact Hr].
Qed.
Lemma frame_ping cx nonce : respects R (on_ping wall opened cx a nonce).
Proof.
  intros n r n'. unfold on_ping, mbind, SE_bind, se_read.
  unfold sign_untimed, bincode_message. destruct (serialize (MPong nonce)) as [bs|] eqn:Hm; cbn; [|by intros [= <- <-]].
  destruct (bincode_envelope _) as [data|e] eqn:Hd; [|by intros [= <- <-]].
  intros Hr. by eapply frame_envelope; [|exact Hd|exact Hr].
Qed.
#[local] Hint Extern 2 (respects R (reply_plain _ _ _)) => (apply frame_plain; done) : frame.
#[local] Hint Extern 2 (respects R (reply_signed _ _ _ _ _)) => (apply frame_signed; done) : frame.

Lemma frame_try {A} (m : SE Node BlockchainError A) : respects R m → respects R (se_try (F:=BlockchainError) (E:=BlockchainError) m).
Proof. apply respects_try. Qed.

Lemma frame_keep_orphan b : respects R (keep_orphan opened a b).
Proof.
  intros n r n'. unfold keep_orphan. pose proof (gf_orphan b n) as Ho. destruct (add_orphan b (n_orphans n)) as [missing o].
  cbn in Ho. destruct missing as [|h hs]; [by intros [= <- <-]|].
  unfold bincode_message. destruct (serialize _) as [data|] eqn:Hs; cbn; [|by intros [= <- <-]]. intros [= <- <-].
  etransitivity; [exact Ho|]. eapply gf_answer; [|apply surjective_pairing].
  exists (MRequestMissingParents (h :: hs)), (MkAuth (MRequestMissingParents (h :: hs)) [] [] 0). split; [done|by left].
Qed.
#[local] Hint Resolve frame_keep_orphan frame_try : frame.

Lemma frame_offer h : respects R (offer_orphan gfuel cpu buffer wall h).
Proof.
  intros n r n'. unfold offer_orphan. pose proof (gf_process h n) as Ho. destruct (try_process_orphan h (n_orphans n)) as [[b|] o].
  - intros Hr. etransitivity; [exact Ho|]. revert Hr.
    assert (respects R (_ ← node_add_block gfuel cpu buffer wall b; mret tt)) as Hf by frame_steps. apply Hf.
  - by intros [= <- <-].
Qed.
#[local] Hint Resolve frame_offer : frame.
Lemma frame_offers : respects R (offer_orphans gfuel cpu buffer wall).
Proof. unfold offer_orphans. frame_steps. Qed.

Lemma frame_sends data l n : (∀ d, d ∈ l → d ≠ a) → R n (foldl (λ n d, send_framed opened data d n) n l).
Proof.
  revert n. induction l as [|d l IH]; intros n Hl; cbn [foldl]; [reflexivity|].
  etransitivity; [apply gf_relay, Hl; by left|]. apply IH. intros d' Hd'. apply Hl. by right.
Qed.

Context (shuffle_only : ∀ l d, d ∈ shuffle l → d ∈ l).
Lemma frame_relay cx b n : R n (relay_block_to_peers wall opened shuffle random cx b a n).
Proof.
  unfold relay_block_to_peers. destruct (_ <=? 1)%nat; [reflexivity|]. cbv zeta. destruct (_ ≫= _) as [data|e]; [|reflexivity].
  apply frame_sends. intros d Hd. apply list_elem_of_lookup in Hd as [i Hi]. apply lookup_take_Some in Hi as [Hi _].
  apply list_elem_of_lookup_2, shuffle_only, list_elem_of_In, filter_In in Hi as [_ Hd].
  apply negb_true_iff, bool_decide_eq_false in Hd. done.
Qed.
#[local] Hint Resolve frame_offers frame_relay : frame.

Lemma frame_scores f n : R n (on_scores f n).
Proof. apply gf_tables. Qed.
Lemma frame_score d f n : R n (on_score d f n).
Proof. apply gf_tables. Qed.
Lemma frame_arrived i n : R n (block_arrived now i n).
Proof. apply gf_partition. Qed.
#[local] Hint Resolve frame_scores frame_score frame_arrived : frame.

(** What follows the note of a new block. *)
Lemma frame_accept cx b delta : respects R (
  connected ← has_blocks (parent_hashes (header b));
  if negb connected then keep_orphan opened a b else
  added ← node_add_block gfuel cpu buffer wall b;
  match added with
  | Ok true =>
      _ ← se_mod (block_arrived now (block_number (header b)));
      _ ← se_mod (on_score a (credit_block delta));
      _ ← offer_orphans gfuel cpu buffer wall;
      se_mod (relay_block_to_peers wall opened shuffle random cx b a)
  | Ok false => mret tt
  | Err _ => se_mod (on_scores (penalize_peer now a PInvalidBlock))
  end).
Proof. frame_steps. Qed.
Lemma frame_rebuilt b : respects R (add_rebuilt gfuel cpu buffer now wall opened a b).
Proof. unfold add_rebuilt. frame_steps. Qed.

Context `{!GossipFrame a R}.
Lemma frame_note h : respects R (note_block now h).
Proof. apply gf_note. Qed.
Lemma frame_note_tx h : respects R (note_tx now h).
Proof. apply gf_note_tx. Qed.
#[local] Hint Resolve frame_note frame_note_tx frame_accept frame_rebuilt : frame.

Lemma frame_new_block cx b : respects R (on_new_block gfuel cpu buffer now wall opened shuffle random cx a b).
Proof. unfold on_new_block. frame_steps. Qed.
Lemma frame_compact cx c : respects R (on_compact_block gfuel cpu buffer now wall opened shuffle random cx a c).
Proof. unfold on_compact_block. frame_steps. Qed.
Lemma frame_shard_block b : respects R (on_shard_block gfuel cpu buffer wall b).
Proof. unfold on_shard_block. frame_steps. Qed.

Lemma frame_transaction cx t : respects R (on_transaction now wall cx a t).
Proof.
  unfold on_transaction. frame_steps. intros n r n'. pose proof (gf_pool t n) as Hp.
  destruct (pool_add_transaction now wall t (n_pool n)) as [[[]|e] p]; [by intros [= <- <-]|].
  assert (R n (on_scores (penalize_peer now a PInvalidTransaction) (set_node_pool p n))).
  { etransitivity; [exact Hp|apply gf_tables]. }
  destruct e; by intros [= <- <-].
Qed.
Lemma frame_find hs : respects R (find_blocks hs).
Proof. induction hs as [|h hs IH]; cbn [find_blocks]; frame_steps. Qed.
#[local] Hint Resolve frame_find : frame.
Lemma frame_hashes cx hs : respects R (serve_hashes wall opened cx a hs).
Proof. unfold serve_hashes. frame_steps. Qed.
Lemma frame_range cx f c : respects R (serve_range wall opened cx a f c).
Proof. unfold serve_range. frame_steps. Qed.
Lemma frame_shard cx i f c : respects R (serve_shard opened cx a i f c).
Proof. unfold serve_shard. frame_steps. Qed.
Lemma frame_serve_txs cx h ids nonce : respects R (serve_transactions wall opened cx a h ids nonce).
Proof. unfold serve_transactions. frame_steps. Qed.
Lemma frame_missing cx h txs : respects R (on_missing_transactions now wall opened cx a h txs).
Proof.
  unfold on_missing_transactions. frame_steps. intros n r n'.
  match goal with |- context [pool_add_transaction now wall ?t (n_pool n)] => pose proof (gf_pool t n) as Hp end.
  destruct (pool_add_transaction _ _ _ _) as [[[]|[]] p]; by intros [= <- <-].
Qed.

Lemma frame_place b : respects R (place_block gfuel cpu buffer wall b).
Proof. unfold place_block. frame_steps. Qed.
#[local] Hint Resolve frame_place : frame.
Lemma frame_places bs : ∀ added orphaned highest, respects R (place_blocks gfuel cpu buffer wall bs added orphaned highest).
Proof. induction bs as [|b bs IH]; intros; cbn [place_blocks]; frame_steps. Qed.
Lemma frame_retry h : respects R (retry_orphan gfuel cpu buffer wall h).
Proof.
  intros n r n'. unfold retry_orphan. pose proof (gf_process h n) as Ho. destruct (try_process_orphan h (n_orphans n)) as [[b|] o].
  - intros Hr. etransitivity; [exact Ho|]. revert Hr.
    match goal with |- ?m (set_orphans o n) = _ → _ => assert (respects R m) as Hf by frame_steps end. apply Hf.
  - by intros [= <- <-].
Qed.
#[local] Hint Resolve frame_places frame_retry : frame.
Lemma frame_retries hs : ∀ added, respects R (retry_orphans gfuel cpu buffer wall hs added).
Proof. induction hs as [|h hs IH]; intros; cbn [retry_orphans]; frame_steps. Qed.
#[local] Hint Resolve frame_retries : frame.
Lemma frame_passes k : ∀ added, respects R (orphan_passes gfuel cpu buffer wall k added).
Proof. induction k as [|k IH]; intros; cbn [orphan_passes]; frame_steps. Qed.
#[local] Hint Resolve frame_passes : frame.
Lemma frame_blocks bs : respects R (on_blocks gfuel cpu buffer now wall opened a bs).
Proof.
  unfold on_blocks. frame_steps; repeat case_match; auto with frame; reflexivity.
Qed.
Lemma frame_shard_blocks cx i bs : respects R (on_shard_blocks gfuel cpu buffer wall cx i bs).
Proof.
  unfold on_shard_blocks. apply respects_for; [apply _|]. intros b n r n'. destruct (if cx_shards cx then _ else _) as [sm|].
  - destruct (add_block_to_shard _ _ _ _ _ _ _) as [r' sm']. intros [= <- <-]. apply gf_shards.
  - assert (respects R (_ ← node_add_block gfuel cpu buffer wall b; mret tt)) as Hf by frame_steps. apply Hf.
Qed.
Lemma frame_request_peers cx : respects R (on_request_peers now wall opened cx a).
Proof. unfold on_request_peers. frame_steps. Qed.
Lemma frame_peers cx l : respects R (on_peers cx a l).
Proof.
  intros n r n'. unfold on_peers. intros [= <- <-]. unfold queue_connections.
  match goal with |- R n (if _ then ?n1 else _) => assert (R n n1) as Hn end.
  { etransitivity; [apply frame_scores|apply gf_tables]. }
  destruct (negb _); [exact Hn|]. destruct (match cx_max_peers cx with Some _ => _ | None => _ end); [exact Hn|].
  etransitivity; [exact Hn|apply gf_dialled].
Qed.
Lemma frame_handshake l caps : respects R (on_handshake a l caps).
Proof. unfold on_handshake. frame_steps. case_match; [apply gf_tables|reflexivity]. Qed.

(** Every message respects the relation. *)
Lemma process_message_frame cx m : respects R (process_message gfuel cpu buffer now wall opened shuffle random cx a m).
Proof.
  destruct m; cbn [process_message];
    auto using frame_handshake, frame_new_block, frame_compact, frame_shard_block, frame_transaction, frame_range, frame_hashes,
      frame_shard, frame_blocks, frame_shard_blocks, frame_ping, frame_request_peers, frame_peers, frame_serve_txs, frame_missing;
    frame_steps.
Qed.
End Handlers.

(** ** A node stays sound *)

(** Submitting a transaction leaves the blocks alone. *)
Definition pool_frame (t t' : TxPool) : Prop := same_index (TxPool.chain t) (TxPool.chain t').
#[local] Instance pool_frame_preorder : PreOrder pool_frame.
Proof. split; [intros t; unfold pool_frame; reflexivity|]. intros t1 t2 t3. unfold pool_frame. by etransitivity. Qed.

Lemma sender_nonce_frame d : respects pool_frame (get_sender_nonce d).
Proof.
  apply respects_zoom. intros t c [r Hr]. unfold pool_frame. by apply (on_ledger_index (get_nonce d) (TxPool.chain t) r c).
Qed.
Lemma fail_pool_frame {A} (e : BlockchainError) : respects pool_frame (fail (A:=A) e).
Proof. by intros t r t' [= <- <-]. Qed.
Lemma evict_lowest_frame s f t : pool_frame t (evict_lowest_fee_tx_if_higher s f t).1.
Proof. unfold evict_lowest_fee_tx_if_higher. by repeat case_match. Qed.
Lemma add_to_pool_frame p t : pool_frame t (add_to_pool_inner p t).
Proof.
  unfold add_to_pool_inner. cbv zeta. destruct (stream_cap _ <=? _).
  - etransitivity; [apply evict_lowest_frame|]. by case_match.
  - by case_match.
Qed.
Lemma admit_frame p : respects pool_frame (admit_ready now p).
Proof.
  intros t r t'. unfold admit_ready. destruct (shard_manager t) as [sm|].
  - destruct (add_transaction _ _ _) as [r' sm']. by intros [= <- <-].
  - intros [= <- <-]. apply add_to_pool_frame.
Qed.
#[local] Hint Resolve sender_nonce_frame fail_pool_frame admit_frame : frame.
Lemma promote_loop_frame fuel : ∀ n q, respects pool_frame (promote_loop fuel now n q).
Proof.
  induction fuel as [|fuel IH]; intros n q; cbn [promote_loop]; frame_steps.
Qed.
#[local] Hint Resolve promote_loop_frame : frame.
Lemma promote_frame d : respects pool_frame (promote_future_txs now d).
Proof. unfold promote_future_txs. frame_steps. Qed.
Lemma reject_frame h m : respects pool_frame (reject h m).
Proof. unfold reject. frame_steps. Qed.
#[local] Hint Resolve promote_frame reject_frame : frame.
Lemma queue_frame t : respects pool_frame (queue_future now t).
Proof. unfold queue_future. frame_steps. Qed.
#[local] Hint Resolve queue_frame : frame.
Lemma pool_add_frame t : respects pool_frame (pool_add_transaction now wall t).
Proof. unfold pool_add_transaction. frame_steps. Qed.

Definition orphans_ok (p : OrphanPool) : Prop := ∃ l, represents p l ∧ (length l <= Nat.max 1 (max_orphans p))%nat.
Lemma orphan_op_ok p op : orphans_ok p → orphans_ok (do_orphan_op p op).
Proof.
  intros (l & Hr & Hl). exists (do_spec_op (max_orphans p) l op). split; [by apply do_orphan_represents|].
  rewrite do_orphan_max. by apply spec_length.
Qed.

(** The pools of transactions and of orphans are sound, the caches within
    their limit. *)
Record node_ok (n : Node) : Prop := {
  no_pool : pools_ok (n_pool n);
  no_orphans : orphans_ok (n_orphans n);
  no_tx_seen : (size (n_tx_seen n) <= SEEN_CACHE_SIZE)%nat;
  no_block_seen : (size (n_block_seen n) <= SEEN_CACHE_SIZE)%nat }.

Definition lawful (n n' : Node) : Prop := grows (n_chain n) (n_chain n') ∧ (node_ok n → node_ok n').
#[global] Instance lawful_preorder : PreOrder lawful.
Proof. split; [by intros n; split|]. intros n1 n2 n3 [] []. split; [by etransitivity|auto]. Qed.

Lemma cache_bounded c : (size (evict_seen_cache SEEN_CACHE_SIZE now c) <= SEEN_CACHE_SIZE)%nat.
Proof. apply (seen_cache_bounded SEEN_CACHE_SIZE now c). Qed.
Lemma pools_ok_chain c t : pools_ok t → pools_ok (set_bc c t).
Proof. by intros []. Qed.
Lemma grows_index c c' : same_index c c' → grows c c'.
Proof.
  intros Hi Hc. split; [by eapply chain_ok_frame|]. exists []. by rewrite (si_blocks _ _ Hi), app_nil_r.
Qed.

Lemma lawful_add b : respects lawful (node_add_block gfuel cpu buffer wall b).
Proof.
  intros n r n'. unfold node_add_block. destruct (add_latest gfuel cpu buffer wall b (n_chain n)) as (r0 & c' & -> & _ & _ & Hg).
  assert (lawful n (set_node_chain c' n)) as Hl.
  { split; [exact Hg|]. intros [Hp Ho Ht Hb]. split; try done. by apply pools_ok_chain. }
  destruct r0 as [[]|[]]; by intros [= <- <-].
Qed.

#[global] Instance lawful_steps a : GossipSteps a lawful.
Proof.
  split; try (intros; split; [reflexivity|by intros []]).
  - apply _.
  - intros sm n. split; [reflexivity|]. intros [[] Ho Ht Hb]. split; try done.
  - apply lawful_add.
  - intros b n. split; [reflexivity|]. intros []. split; try done. by apply (orphan_op_ok _ (AddOrphan b)).
  - intros h n. split; [reflexivity|]. intros []. split; try done. by apply (orphan_op_ok _ (TryProcess h)).
  - intros t n. split.
    + apply grows_index. by apply (pool_add_frame t (n_pool n) _ _ (surjective_pairing _)).
    + intros []. split; try done. by apply pool_add_ok.
  - intros data _ n r n'. unfold write_reply. destruct (opened a); intros [= <- <-]; [|reflexivity]. split; [reflexivity|by intros []].
  - intros data d n _. unfold send_framed. destruct (_ && _); [|reflexivity]. split; [reflexivity|by intros []].
Qed.
#[global] Instance lawful_frame a : GossipFrame a lawful.
Proof.
  split; [apply _|..].
  - intros h n r n'. unfold note_block. destruct (bool_decide _); intros [= <- <-]; [reflexivity|].
    split; [reflexivity|]. intros []. split; try done. apply cache_bounded.
  - intros h n r n'. unfold note_tx. destruct (bool_decide _); intros [= <- <-]; [reflexivity|].
    split; [reflexivity|]. intros []. split; try done. apply cache_bounded.
Qed.

(** ** What is written to the sender *)

(** To the sender only answers, without a frame byte. *)
Definition plain_answer (a : SocketAddr) (sent : SocketAddr * list u8) : Prop :=
  sent.1 = a → ∃ data, sent.2 = write_unframed data ∧ answer data.
Definition answers (a : SocketAddr) (n n' : Node) : Prop := ∃ l, n_sent n' = n_sent n ++ l ∧ Forall (plain_answer a) l.

Lemma answers_same a n n' : n_sent n' = n_sent n → answers a n n'.
Proof. unfold answers. intros ->. exists []. by rewrite app_nil_r. Qed.
#[global] Instance answers_preorder a : PreOrder (answers a).
Proof.
  split; [intros n; by apply answers_same|]. intros n1 n2 n3 (l1 & Hl1 & Hf1) (l2 & Hl2 & Hf2). exists (l1 ++ l2).
  split; [by rewrite Hl2, Hl1, app_assoc|]. by apply Forall_app.
Qed.
Lemma answers_push a d bytes n : plain_answer a (d, bytes) → answers a n (push_sent d bytes n).
Proof. intros Hp. exists [(d, bytes)]. split; [done|]. by constructor. Qed.

#[global] Instance answers_frame a : GossipFrame a (answers a).
Proof.
  split; [split|..]; try (intros; by apply answers_same); try apply _.
  - intros b n r n'. unfold node_add_block. destruct (add_block_for_sync _ _ _ _ _ _) as [[[]|[]] c]; intros [= <- <-]; by apply answers_same.
  - intros data Ha n r n'. unfold write_reply. destruct (opened a); intros [= <- <-]; [|reflexivity].
    apply answers_push. intros _. by exists data.
  - intros data d n Hd. unfold send_framed. destruct (_ && _); [|reflexivity]. apply answers_push. intros ?. by destruct Hd.
  - intros h n r n'. unfold note_block. destruct (bool_decide _); intros [= <- <-]; by apply answers_same.
  - intros h n r n'. unfold note_tx. destruct (bool_decide _); intros [= <- <-]; by apply answers_same.
Qed.

(** ** The cache of seen blocks *)

Definition same_seen (n n' : Node) : Prop := n_block_seen n' = n_block_seen n.
#[global] Instance same_seen_preorder : PreOrder same_seen.
Proof. split; [done|]. unfold same_seen. intros n1 n2 n3. congruence. Qed.
#[global] Instance same_seen_steps a : GossipSteps a same_seen.
Proof.
  split; try (intros; done); try apply _.
  - intros b n r n'. unfold node_add_block. destruct (add_block_for_sync _ _ _ _ _ _) as [[[]|[]] c]; by intros [= <- <-].
  - intros data Ha n r n'. unfold write_reply. destruct (opened a); by intros [= <- <-].
  - intros data d n Hd. unfold send_framed. by destruct (_ && _).
Qed.
End Frame.
