(* ===== verification/GossipTheorems.v ===== *)
(** * GossipTheorems: what peers can do to a node

    Theorems on the tasks of [PeerLoop]: whatever bytes a peer sends, the node
    stays sound and its chain only grows; the loop that reads them ends with
    its input; a node's own block is processed by the peers it is sent to, the
    QUIC server gives its height, and the peers chosen for relaying are
    distinct and connected.  Then what does not work: answers are
    never read, five bad messages block the node for ever, a claimed hash
    blocks the real block, and an accepted block empties the pool of orphans. *)

From S2P Require Import Prelude Types Block Pow Error.
From S2P Require Import Storage DagStorage GhostDag.
From S2P Require Import Sponsorship PrivacyPool Recurring Governance Wallet Verkle.
From S2P Require Import Ledger BlockIndex Execution AccountFrame Chain.
From S2P Require Import Messaging Sharding Float64 Ordering TxPool TxPoolTheorems.
From S2P Require Import SyncPool SyncProtocol FullSync FullSyncTheorems SyncServing.
From S2P Require Import RateLimit PeerScore Wire PeerTables Gossip PeerLoop GossipFrame.

Section Tasks.
Context `{Hex, Keccak, Blake3, Crypto, Evm, HashIter, SliceSearch, UnstableSort, SipHash, MessageCodec, AddrText}.
Context `{Codec Block, Codec (list Hash), Codec TxReceipt, Codec CrossShardMessage}.
Context (gfuel : nat) (cpu : CpuFeatures) (buffer : list u8).
Context (opened : SocketAddr → bool) (shuffle : list SocketAddr → list SocketAddr) (random : u64).

(** ** Soundness *)

Lemma lawful_same n n' : n_pool n' = n_pool n → n_orphans n' = n_orphans n → n_tx_seen n' = n_tx_seen n →
  n_block_seen n' = n_block_seen n → lawful n n'.
Proof.
  intros Hp Ho Ht Hb. split; [unfold n_chain; rewrite Hp; reflexivity|]. intros []. split; by rewrite ?Hp, ?Ho, ?Ht, ?Hb.
Qed.

Lemma lawful_tables t n : lawful n (set_tables t n).
Proof. by apply lawful_same. Qed.
Lemma lawful_hold n : lawful n (hold_scores n).
Proof. by apply lawful_same. Qed.

Lemma disconnect_lawful a n f n' : disconnect a n = (f, n') → lawful n n'.
Proof.
  unfold disconnect. destruct (cleanup_peer_state_on_error a (n_tables n)) as [p t].
  destruct (n_scores_held n); intros [= <- <-]; apply lawful_tables.
Qed.
Lemma reject_lawful now a r n f n' : reject_message now a r n = (f, n') → lawful n n'.
Proof.
  unfold reject_message. cbv zeta. destruct (is_peer_banned _ _ _).
  - intros Hd. etransitivity; [|by eapply disconnect_lawful]. etransitivity; [apply lawful_tables|apply lawful_hold].
  - intros [= <- <-]. apply lawful_tables.
Qed.

Section Sound.
Context (shuffle_only : ∀ l d, d ∈ shuffle l → d ∈ l).

Lemma handle_frame_lawful now wall cx a fb payload n f n' :
  handle_frame gfuel cpu buffer opened shuffle random now wall cx a fb payload n = (f, n') → lawful n n'.
Proof.
  unfold handle_frame. destruct (register_sender now a (n_tables n)) as [t|]; [|intros [= <- <-]; reflexivity].
  destruct (n_scores_held n); [intros [= <- <-]; apply lawful_tables|].
  destruct (check_peer_rate_limit now a (t_scores t)) as [allowed scores]. cbv zeta.
  assert (lawful n (set_tables (set_scores scores t) n)) as Hs by apply lawful_tables.
  destruct allowed; [|intros [= <- <-]; exact Hs]. destruct (fb =? _); [|intros [= <- <-]; exact Hs]. cbn [negb].
  destruct (deserialize payload) as [m|]; [|intros Hr; etransitivity; [exact Hs|by eapply reject_lawful]].
  destruct (verify_message _ _ _) as [[]|e]; [|intros Hr; etransitivity; [exact Hs|by eapply reject_lawful]].
  intros Hr. etransitivity; [exact Hs|]. revert Hr. unfold handle_verified. cbv zeta.
  match goal with |- context [process_message _ _ _ _ _ _ _ _ _ _ _ ?n1] =>
    destruct (process_message gfuel cpu buffer now wall opened shuffle random cx a (am_message m) n1) as [r n2] eqn:Hp end.
  apply (process_message_frame gfuel cpu buffer now wall opened shuffle random a lawful shuffle_only) in Hp.
  assert (lawful (set_tables (set_scores scores t) n) n2) as Hl by (etransitivity; [|exact Hp]; etransitivity; apply lawful_tables).
  destruct r as [[]|[]]; intros [= <- <-]; try exact Hl. etransitivity; [exact Hl|]. apply lawful_tables.
Qed.

Lemma handle_peer_lawful clock cx a fuel : ∀ i oversized input n f n',
  handle_peer gfuel cpu buffer opened shuffle random clock cx a fuel i oversized input n = (f, n') → lawful n n'.
Proof.
  induction fuel as [|fuel IH]; intros i oversized input n f n'; cbn [handle_peer]; [intros [= <- <-]; reflexivity|].
  destruct (read_frame input) as [|len rest|rest|fb payload rest].
  - apply disconnect_lawful.
  - destruct (_ <=? _)%nat; [apply disconnect_lawful|]. destruct (read_exact _ rest) as [[? rest']|]; [apply IH|apply disconnect_lawful].
  - apply IH.
  - destruct (clock i) as [now wall].
    destruct (handle_frame gfuel cpu buffer opened shuffle random now wall cx a fb payload n) as [f1 n1] eqn:Hm.
    apply handle_frame_lawful in Hm. destruct f1; intros Hr.
    + etransitivity; [exact Hm|by eapply IH].
    + by injection Hr as <- <-.
    + by injection Hr as <- <-.
    + by injection Hr as <- <-.
Qed.
End Sound.

(** C18: Whatever bytes a peer sends, and whatever the clock does meanwhile, a
    sound chain stays sound, its blocks stay where they are with new ones only
    after them, the size counters of the transaction pools stay exact, and the
    future queues, the set of transactions in flight, the pool of orphans and
    the caches of seen hashes stay within their limits.  The stream pools are
    not bounded: a full one still takes a new transaction
    ([full_pool_still_grows]). *)
Theorem peer_keeps_node_sound clock cx a fuel i oversized input n f n' :
  (∀ l d, d ∈ shuffle l → d ∈ l) →
  handle_peer gfuel cpu buffer opened shuffle random clock cx a fuel i oversized input n = (f, n') →
  chain_ok (n_chain n) → node_ok n →
  chain_ok (n_chain n') ∧ node_ok n' ∧ ∃ more, blocks (blocks_data (n_chain n')) = blocks (blocks_data (n_chain n)) ++ more.
Proof.
  intros Hsh Hr Hc Hn. destruct (handle_peer_lawful Hsh clock cx a fuel i oversized input n f n' Hr) as [Hg Hk].
  destruct (Hg Hc) as [Hc' Hb]. auto.
Qed.

(** ** The loop ends *)

Lemma read_exact_rest k (bs xs ys : list u8) : read_exact k bs = Ok (xs, ys) → (length bs = k + length ys)%nat.
Proof.
  unfold read_exact. destruct (Nat.ltb_spec (length bs) k); [done|]. intros [= <- <-]. rewrite length_drop. lia.
Qed.
Lemma read_frame_rest input :
  match read_frame input with
  | FrEnd => True
  | FrOversized _ rest | FrEmpty rest | FrMessage _ _ rest => (length rest < length input)%nat
  end.
Proof.
  unfold read_frame. destruct (read_exact 4 input) as [[head rest]|] eqn:Hh4; [|done]. apply read_exact_rest in Hh4.
  destruct (_ <? _); [lia|]. destruct (_ <? 1); [lia|].
  destruct (read_exact 1 rest) as [[fb r1]|] eqn:Hh1; [|done]. apply read_exact_rest in Hh1.
  destruct (read_exact _ r1) as [[p r2]|] eqn:Hp; [|done]. apply read_exact_rest in Hp. lia.
Qed.
Lemma disconnect_ends a n : (disconnect a n).1 ≠ FContinue.
Proof. unfold disconnect. by destruct (n_scores_held n). Qed.

(** C38: The loop of [handle_peer] ends with its input: every turn consumes bytes,
    so as many turns as there are bytes are enough, and it ends by dropping the
    peer, by waiting for a lock or by a panic. *)
Theorem handle_peer_ends clock cx a : ∀ input fuel i oversized n, (length input < fuel)%nat →
  (handle_peer gfuel cpu buffer opened shuffle random clock cx a fuel i oversized input n).1 ≠ FContinue.
Proof.
  intros input fuel. revert input. induction fuel as [|fuel IH]; intros input i oversized n Hl; [lia|]. cbn [handle_peer].
  pose proof (read_frame_rest input) as Hr. destruct (read_frame input) as [|len rest|rest|fb payload rest].
  - apply disconnect_ends.
  - destruct (_ <=? _)%nat; [apply disconnect_ends|]. destruct (read_exact _ rest) as [[? rest']|] eqn:Hx; [|apply disconnect_ends].
    apply read_exact_rest in Hx. apply IH. lia.
  - apply IH. lia.
  - destruct (clock i) as [now wall]. destruct (handle_frame _ _ _ _ _ _ _ _ _ _ _ _ _) as [[] n1]; try done. apply IH. lia.
Qed.

(** ** What does not reach the peer *)

(** No answer of [process_message] to the sender of a message is ever read:
    the first byte of each is taken for a frame byte of no known kind. *)
Theorem answers_are_unread now wall cx a m n r n' :
  (∀ l d, d ∈ shuffle l → d ∈ l) →
  process_message gfuel cpu buffer now wall opened shuffle random cx a m n = (r, n') →
  ∃ l, n_sent n' = n_sent n ++ l ∧
    ∀ bytes more, (a, bytes) ∈ l → Z.of_nat (length bytes) <= MAX_MESSAGE_SIZE →
      ∃ fb payload, read_frame (bytes ++ more) = FrMessage fb payload more ∧
        fb ≠ MSG_FRAME_PLAINTEXT ∧ fb ≠ MSG_FRAME_KYBER_ENCRYPTED.
Proof.
  intros Hsh Hp. apply (process_message_frame gfuel cpu buffer now wall opened shuffle random a (answers a) Hsh) in Hp.
  destruct Hp as (l & Hl & Hf). exists l. split; [done|]. intros bytes more Hin Hs. rewrite Forall_forall in Hf.
  destruct (Hf _ Hin eq_refl) as (data & Hb & m' & au & Hv & Hd). cbn in Hb. subst bytes.
  unfold write_unframed in Hs. rewrite length_app, length_be32 in Hs.
  destruct (unframed_answer_unread m' au data more) as (payload & Hr & Hk); [lia|done|lia|]. by exists (variant m'), payload.
Qed.

(** ** Five bad messages *)

(** A connected peer with [k] offenses in this window, not banned. *)
Definition tolerated (a : SocketAddr) (k : nat) (n : Node) : Prop :=
  n_scores_held n = false ∧ a ∈ t_peers (n_tables n) ∧
  ∃ s, t_scores (n_tables n) !! a = Some s ∧ ps_banned_until s = None ∧ ps_invalid_messages s = Z.of_nat k ∧
    0 <= ps_messages_this_window s <= Z.of_nat k.

Lemma rate_limit_tolerated now a k s (m : ScoreTable) :
  m !! a = Some s → ps_banned_until s = None → 0 <= ps_messages_this_window s <= Z.of_nat k → (k < 5)%nat →
  ∃ s', check_peer_rate_limit now a m = (true, <[a := s']> m) ∧ ps_banned_until s' = None ∧
    ps_invalid_messages s' = ps_invalid_messages s ∧ 0 <= ps_messages_this_window s' <= Z.of_nat (S k).
Proof.
  intros Hs Hb Hw Hk. unfold check_peer_rate_limit, score_at. rewrite Hs.
  change (default (peer_score_default now) (Some s)) with s. cbv zeta. unfold ps_is_banned. rewrite Hb.
  set (s0 := if _ <=? _ then _ else s).
  assert (0 <= ps_messages_this_window s0 <= Z.of_nat k ∧ ps_banned_until s0 = None ∧ ps_invalid_messages s0 = ps_invalid_messages s)
    as (Hw0 & Hb0 & Hi0) by (unfold s0; destruct (_ <=? _); cbn; (split; [lia|by split])).
  cbn [ps_messages_this_window ps_set_window]. rewrite add64_small by mlia. unfold MAX_MESSAGES_PER_MINUTE.
  destruct (Z.ltb_spec 3000 (ps_messages_this_window s0 + 1)); [lia|]. eexists. split; [done|]. cbn. split; [done|]. split; [done|lia].
Qed.

Lemma penalty_below now k s : ps_banned_until s = None → ps_invalid_messages s = Z.of_nat k → (k < 4)%nat →
  let s' := penalize now PMalformedMessage s in
  ps_banned_until s' = None ∧ ps_invalid_messages s' = Z.of_nat (S k) ∧ ps_messages_this_window s' = ps_messages_this_window s.
Proof.
  intros Hb Hi Hk. cbn [penalize]. rewrite Hi. unfold sat_add32. rewrite Z.min_r by (unfold u32_max; lia).
  unfold MAX_INVALID_MESSAGES. destruct (Z.leb_spec 5 (Z.of_nat k + 1)); [lia|]. cbn. split_and!; [done|lia|done].
Qed.
Lemma penalty_bans now s : ps_invalid_messages s = 4 → ps_is_banned now (penalize now PMalformedMessage s) = true.
Proof.
  intros Hi. cbn [penalize]. rewrite Hi. change (sat_add32 4 1) with 5. cbn. apply Z.ltb_lt.
  unfold ban_duration_for_offense, from_secs, NANOS. repeat case_match; lia.
Qed.

(** A malformed message: an offense, or the fifth. *)
Lemma malformed_step now wall cx a k data n : tolerated a k n → (k < 5)%nat →
  (deserialize data : option AuthenticatedMessage) = None →
  ∃ f n', handle_frame gfuel cpu buffer opened shuffle random now wall cx a MSG_FRAME_PLAINTEXT data n = (f, n') ∧
    if (k <? 4)%nat then f = FContinue ∧ tolerated a (S k) n'
    else f = FBlocked ∧ n_scores_held n' = true ∧ t_peers (n_tables n') = t_peers (n_tables n) ∖ {[a]}.
Proof.
  intros (Hh & Ha & s & Hs & Hb & Hi & Hw) Hk Hd. unfold handle_frame, register_sender. rewrite bool_decide_true by done.
  rewrite Hh. destruct (rate_limit_tolerated now a k s (t_scores (n_tables n)) Hs Hb Hw Hk) as (s' & -> & Hb' & Hi' & Hw').
  cbn [negb]. rewrite Z.eqb_refl, Hd. cbn [negb]. unfold reject_message.
  set (n1 := set_tables _ n). assert (t_scores (n_tables n1) !! a = Some s') as Hs1 by apply lookup_insert_eq.
  assert (t_scores (n_tables (on_scores (penalize_peer now a PMalformedMessage) n1)) !! a
          = Some (penalize now PMalformedMessage s')) as Hs2.
  { cbn. unfold penalize_peer, score_at. rewrite lookup_insert_eq. cbn. by rewrite lookup_insert_eq. }
  unfold is_peer_banned. rewrite Hs2. destruct (Nat.ltb_spec k 4) as [Hlt|Hge].
  - destruct (penalty_below now k s' Hb') as (Hb2 & Hi2 & Hw2); [congruence|done|]. unfold ps_is_banned at 1. rewrite Hb2.
    do 2 eexists. split; [done|]. split; [done|]. split; [done|]. split; [done|]. eexists. split; [exact Hs2|].
    split_and!; [done|done|lia|lia].
  - rewrite penalty_bans by (rewrite Hi', Hi; lia). do 2 eexists. split; [done|]. done.
Qed.

(** Frames that cannot be decoded, as a peer may send them. *)
Fixpoint bad_frames (k : nat) (data : list u8) : list u8 :=
  match k with O => [] | S k' => write_framed data ++ bad_frames k' data end.

Lemma bad_frames_block clock cx a data more : (deserialize data : option AuthenticatedMessage) = None →
  1 + Z.of_nat (length data) <= MAX_MESSAGE_SIZE → ∀ j k fuel i o n, (j + k = 5)%nat → (0 < j)%nat → (j <= fuel)%nat → tolerated a k n →
  ∃ n', handle_peer gfuel cpu buffer opened shuffle random clock cx a fuel i o (bad_frames j data ++ more) n = (FBlocked, n') ∧
    n_scores_held n' = true.
Proof.
  intros Hd Hl. induction j as [|j IH]; intros k fuel i o n Hjk Hj Hf Ht; [lia|]. destruct fuel as [|fuel]; [lia|].
  cbn [bad_frames handle_peer]. rewrite <- app_assoc, read_framed by done. destruct (clock i) as [now wall].
  destruct (malformed_step now wall cx a k data n Ht) as (f & n1 & -> & Hstep); [lia|done|].
  destruct (Nat.ltb_spec k 4).
  - destruct Hstep as [-> Ht1]. destruct (IH (S k) fuel (S i) 0%nat n1) as (n' & Hn' & Hh'); [lia|lia|lia|done|]. by exists n'.
  - destruct Hstep as (-> & Hh & _). by exists n1.
Qed.

(** Five messages that cannot be decoded block the node for ever: the task
    that bans their sender waits for a lock it holds, and so does, from then on,
    every task that handles a message of any peer or runs the periodic
    exchange. *)
Theorem five_bad_messages_block_node clock cx a data more fuel i o n :
  (deserialize data : option AuthenticatedMessage) = None → 1 + Z.of_nat (length data) <= MAX_MESSAGE_SIZE →
  (5 <= fuel)%nat → tolerated a 0 n →
  ∃ n', handle_peer gfuel cpu buffer opened shuffle random clock cx a fuel i o (bad_frames 5 data ++ more) n = (FBlocked, n') ∧
    (∀ now wall cx' b fb payload, b ∈ t_peers (n_tables n') →
       (handle_frame gfuel cpu buffer opened shuffle random now wall cx' b fb payload n').1 = FBlocked) ∧
    (∀ now wall cx' nonces, (periodic_exchange opened now wall cx' nonces n').1 = FBlocked).
Proof.
  intros Hd Hl Hf Ht. destruct (bad_frames_block clock cx a data more Hd Hl 5 0 fuel i o n) as (n' & Hn' & Hh); [done|lia|lia|done|].
  exists n'. split; [done|]. split.
  - intros now wall cx' b fb payload Hb. unfold handle_frame, register_sender. by rewrite bool_decide_true, Hh.
  - intros now wall cx' nonces. unfold periodic_exchange. by rewrite Hh.
Qed.

(** ** A claimed hash *)

Lemma note_block_seen now h n r n' : (size (n_block_seen n) < SEEN_CACHE_SIZE)%nat → note_block now h n = (r, n') →
  is_Some (n_block_seen n' !! h).
Proof.
  intros Hs. unfold note_block. case_bool_decide as Hk; intros [= <- <-]; [done|]. cbn. unfold evict_seen_cache.
  assert (size (<[h := now]> (n_block_seen n)) <= SEEN_CACHE_SIZE)%nat as Hle.
  { rewrite map_size_insert. case_match; cbn; lia. }
  apply Nat.ltb_ge in Hle. rewrite Hle. rewrite lookup_insert_eq. by eexists.
Qed.

Lemma note_block_Ok now h n : ∃ fresh n', note_block now h n = (Ok fresh, n') ∧ n_chain n' = n_chain n.
Proof. unfold note_block. destruct (bool_decide _); eauto. Qed.

(** A block is not accepted from anyone once a peer has announced another
    block under its hash: the hash is noted before the block is looked at. *)
Theorem claimed_hash_shadows_block now wall cx a b n r n' :
  (∀ l d, d ∈ shuffle l → d ∈ l) → (size (n_block_seen n) < SEEN_CACHE_SIZE)%nat →
  process_message gfuel cpu buffer now wall opened shuffle random cx a (MNewBlock b) n = (r, n') →
  ∀ now' wall' cx' a' b', block_hash b' = block_hash b →
    ∃ n'', process_message gfuel cpu buffer now' wall' opened shuffle random cx' a' (MNewBlock b') n' = (Ok tt, n'') ∧
      n_pool n'' = n_pool n' ∧ n_orphans n'' = n_orphans n' ∧ n_sent n'' = n_sent n'.
Proof.
  intros Hsh Hs Hr. assert (is_Some (n_block_seen n' !! block_hash b)) as Hseen.
  { cbn [process_message] in Hr. unfold on_new_block in Hr. rewrite se_mod_step in Hr.
    match type of Hr with (_ ≫= _) ?n1 = _ => destruct (note_block now (block_hash b) n1) as [r1 n2] eqn:Hn end.
    apply note_block_seen in Hn as Hk; [|exact Hs]. destruct r1 as [fresh|e];
      [|erewrite se_bind_fail in Hr by exact Hn; by injection Hr as <- <-].
    erewrite se_bind_step in Hr by exact Hn. destruct fresh; [|by injection Hr as <- <-]. cbn [negb] in Hr.
    rewrite se_get_step in Hr. apply (frame_accept gfuel cpu buffer now wall opened shuffle random a same_seen Hsh) in Hr.
    by rewrite Hr. }
  intros now' wall' cx' a' b' Hb. cbn [process_message]. unfold on_new_block. rewrite se_mod_step. eexists. split.
  - erewrite se_bind_step. 2: { unfold note_block. rewrite bool_decide_true; [reflexivity|]. by rewrite Hb. } reflexivity.
  - done.
Qed.

(** ** Orphans *)

Lemma node_add_orphans wall b n r n' : node_add_block gfuel cpu buffer wall b n = (r, n') → n_orphans n' = n_orphans n.
Proof.
  unfold node_add_block. destruct (add_block_for_sync _ _ _ _ _ _) as [[[]|[]] c]; by intros [= <- <-].
Qed.
Lemma offer_orphan_takes wall h n r n' : offer_orphan gfuel cpu buffer wall h n = (r, n') →
  orphans (n_orphans n') = delete h (orphans (n_orphans n)).
Proof.
  unfold offer_orphan, try_process_orphan. destruct (orphans (n_orphans n) !! h) as [b|] eqn:Hh.
  - set (n1 := set_orphans _ n). destruct (node_add_block gfuel cpu buffer wall b n1) as [r1 n2] eqn:Ha.
    apply node_add_orphans in Ha as Ho. destruct r1.
    + erewrite se_bind_step by exact Ha. intros [= <- <-]. by rewrite Ho.
    + erewrite se_bind_fail by exact Ha. intros [= <- <-]. by rewrite Ho.
  - intros [= <- <-]. by rewrite delete_id.
Qed.
Lemma offer_all_takes wall hs : ∀ n n', se_for hs (offer_orphan gfuel cpu buffer wall) n = (Ok tt, n') →
  orphans (n_orphans n') = foldl (λ m h, delete h m) (orphans (n_orphans n)) hs.
Proof.
  induction hs as [|h hs IH]; intros n n'; cbn [se_for foldl]; [by intros [= <-]|].
  destruct (offer_orphan gfuel cpu buffer wall h n) as [[[]|e] n1] eqn:Hh.
  - erewrite se_bind_step by exact Hh. intros Hr. rewrite (IH _ _ Hr). by rewrite (offer_orphan_takes _ _ _ _ _ Hh).
  - by erewrite se_bind_fail by exact Hh.
Qed.
Lemma delete_all_lookup (hs : list Hash) : ∀ (m : gmap Hash Block) h, foldl (λ m h, delete h m) m hs !! h = None ↔ m !! h = None ∨ h ∈ hs.
Proof.
  induction hs as [|x hs IH]; intros m h; cbn [foldl]; [set_solver|]. rewrite IH, lookup_delete_None, elem_of_cons. naive_solver.
Qed.
Lemma offer_orphans_empties wall n n' : offer_orphans gfuel cpu buffer wall n = (Ok tt, n') → orphans (n_orphans n') = ∅.
Proof.
  unfold offer_orphans. rewrite se_get_step. intros Ho%offer_all_takes. rewrite Ho. apply map_empty. intros h.
  apply delete_all_lookup. destruct (orphans (n_orphans n) !! h) as [b|] eqn:Hh; [right|by left].
  unfold get_orphan_hashes. apply (list_elem_of_fmap_2 fst _ (h, b)). rewrite hm_iter_perm. by apply elem_of_map_to_list.
Qed.
Lemma has_blocks_same hs n r n' : has_blocks hs n = (r, n') → n' = n.
Proof.
  revert r. induction hs as [|h hs IH]; intros r; cbn [has_blocks]; [by intros [= <- <-]|].
  unfold mbind, SE_bind, has_block, se_read. destruct ((λ _, _) <$> _) as [[]|e]; [apply IH|by intros [= <- <-]..].
Qed.
Lemma keep_orphan_chain a b n r n' : keep_orphan opened a b n = (r, n') → n_chain n' = n_chain n.
Proof.
  unfold keep_orphan. destruct (add_orphan b (n_orphans n)) as [[|h hs] o]; [by intros [= <- <-]|].
  destruct (bincode_message _) as [data|e]; [|by intros [= <- <-]]. unfold write_reply. destruct (opened a); by intros [= <- <-].
Qed.
Lemma relay_orphans wall cx b a n : n_orphans (relay_block_to_peers wall opened shuffle random cx b a n) = n_orphans n.
Proof.
  unfold relay_block_to_peers. destruct (_ <=? 1)%nat; [done|]. cbv zeta. destruct (_ ≫= _) as [data|e]; [|done].
  generalize (take (relay_fanout (size (t_peers (n_tables n)))) (shuffle (List.filter (λ p, negb (bool_decide (p = a))) (hs_iter (t_peers (n_tables n)))))).
  intros l. revert n. induction l as [|d l IH]; intros n; cbn [foldl]; [done|]. rewrite IH. unfold send_framed. by destruct (_ && _).
Qed.

(** The index of the blocks after a block was offered and not added. *)
Lemma node_add_refused wall b n r n' : node_add_block gfuel cpu buffer wall b n = (r, n') → r ≠ Ok (Ok true) →
  blocks_data (n_chain n') = blocks_data (n_chain n).
Proof.
  unfold node_add_block. destruct (add_block_for_sync_run gfuel cpu buffer wall b (n_chain n)) as (r0 & c' & -> & Hr).
  destruct r0 as [[]|e].
  - intros [= <- <-] Hne. by destruct Hne.
  - destruct Hr as [-> _]. intros [= <- <-] _. done.
  - apply rejected_index in Hr as Hi. destruct e; intros [= <- <-] _; exact (si_blocks _ _ Hi).
Qed.

(** When a new block is appended, the pool of orphans is empty afterwards:
    each orphan is taken out and offered once, and those that still lack a parent are lost. *)
Theorem accepted_block_drops_orphans now wall cx a b n n' :
  process_message gfuel cpu buffer now wall opened shuffle random cx a (MNewBlock b) n = (Ok tt, n') →
  blocks_data (n_chain n') ≠ blocks_data (n_chain n) → orphans (n_orphans n') = ∅.
Proof.
  intros Hr Hne. cbn [process_message] in Hr. unfold on_new_block in Hr. rewrite se_mod_step in Hr.
  match type of Hr with (_ ≫= _) ?n1 = _ => destruct (note_block_Ok now (block_hash b) n1) as (fresh & n2 & Hn & Hc2) end.
  change (n_chain n2 = n_chain n) in Hc2.
  erewrite se_bind_step in Hr by exact Hn. clear Hn. rewrite <- Hc2 in Hne. clear Hc2.
  destruct fresh; [|by injection Hr as <-]. cbn [negb] in Hr. rewrite se_get_step in Hr.
  destruct (has_blocks (parent_hashes (header b)) n2) as [[conn|e] n3] eqn:Hh; [|by erewrite se_bind_fail in Hr by exact Hh].
  assert (n3 = n2) as -> by by eapply has_blocks_same. erewrite se_bind_step in Hr by exact Hh.
  destruct conn; cbn [negb] in Hr.
  2: { apply keep_orphan_chain in Hr. congruence. }
  destruct (node_add_block gfuel cpu buffer wall b n2) as [[added|e] n4] eqn:Ha; [|by erewrite se_bind_fail in Hr by exact Ha].
  erewrite se_bind_step in Hr by exact Ha. destruct added as [[]|e].
  - rewrite !se_mod_step in Hr. match type of Hr with (_ ≫= _) ?n5 = _ =>
      destruct (offer_orphans gfuel cpu buffer wall n5) as [[[]|e] n6] eqn:Ho end;
      [|by erewrite se_bind_fail in Hr by exact Ho].
    erewrite se_bind_step in Hr by exact Ho. injection Hr as <-. rewrite relay_orphans. by eapply offer_orphans_empties.
  - apply node_add_refused in Ha; [|done]. injection Hr as <-. congruence.
  - apply node_add_refused in Ha; [|done]. injection Hr as <-. unfold n_chain in *. cbn in Hne. congruence.
Qed.

(** ** Compact blocks *)

Lemma validated_hash wall d b : validate_block_enhanced cpu buffer wall d b = Ok tt → block_hash b = block_calculate_hash cpu buffer b.
Proof.
  unfold validate_block_enhanced. intros Hv. repeat (apply bind_Ok in Hv as ([] & _ & Hv)). by apply verify_tx_root_ok in Hv.
Qed.
Lemma wrong_hash_refused wall b n r n' : block_hash b ≠ block_calculate_hash cpu buffer b →
  node_add_block gfuel cpu buffer wall b n = (r, n') → r ≠ Ok (Ok true) ∧ blocks_data (n_chain n') = blocks_data (n_chain n).
Proof.
  intros Hb Ha. assert (r ≠ Ok (Ok true)) as Hne; [|split; [done|by eapply node_add_refused]].
  intros ->. unfold node_add_block in Ha. destruct (add_block_for_sync_run gfuel cpu buffer wall b (n_chain n)) as (r0 & c' & Hrun & Hr).
  rewrite Hrun in Ha. destruct r0 as [[]|[]]; try discriminate Ha. destruct Hr as [Hv _]. by apply validated_hash in Hv.
Qed.
Lemma add_rebuilt_refused now wall a b n r n' : block_hash b ≠ block_calculate_hash cpu buffer b →
  add_rebuilt gfuel cpu buffer now wall opened a b n = (r, n') → r ≠ Ok true ∧ blocks_data (n_chain n') = blocks_data (n_chain n).
Proof.
  intros Hb. unfold add_rebuilt. destruct (has_blocks (parent_hashes (header b)) n) as [[conn|e] n1] eqn:Hh.
  2: { erewrite se_bind_fail by exact Hh. intros [= <- <-]. by rewrite (has_blocks_same _ _ _ _ Hh). }
  erewrite se_bind_step by exact Hh. rewrite (has_blocks_same _ _ _ _ Hh). destruct conn; cbn [negb].
  - destruct (node_add_block gfuel cpu buffer wall b n) as [r1 n2] eqn:Ha. destruct (wrong_hash_refused _ _ _ _ _ Hb Ha) as [Hne Hk].
    destruct r1 as [added|e]; [erewrite se_bind_step by exact Ha|erewrite se_bind_fail by exact Ha; by intros [= <- <-]].
    destruct added as [[]|]; [done|by intros [= <- <-]..].
  - destruct (keep_orphan opened a b n) as [r1 n2] eqn:Hk. pose proof (keep_orphan_chain _ _ _ _ _ Hk) as Hc.
    destruct r1; [erewrite se_bind_step by exact Hk|erewrite se_bind_fail by exact Hk]; intros [= <- <-]; by rewrite Hc.
Qed.
Lemma reply_plain_chain a m n r n' : reply_plain opened a m n = (r, n') → n_chain n' = n_chain n.
Proof.
  unfold reply_plain, mbind, SE_bind, se_read, write_reply. destruct (bincode_message m); [|by intros [= <- <-]].
  destruct (opened a); by intros [= <- <-].
Qed.

(** A block rebuilt from a compact announcement is never added when the hash
    of its header, under which it is announced, is not the hash of the block,
    which covers its transactions too. *)
Theorem compact_block_refused now wall cx a c b missing n r n' :
  to_block cpu buffer c (get_mempool_snapshot (n_pool n)) = (Some b, missing) →
  compact_block_hash c ≠ block_calculate_hash cpu buffer b →
  process_message gfuel cpu buffer now wall opened shuffle random cx a (MNewCompactBlock c) n = (r, n') →
  blocks_data (n_chain n') = blocks_data (n_chain n).
Proof.
  intros Hb Hne. cbn [process_message]. unfold on_compact_block. cbv zeta.
  destruct (note_block_Ok now (compact_block_hash c) n) as (fresh & n1 & Hn & Hc).
  assert (n_pool n1 = n_pool n) as Hp by (unfold note_block in Hn; destruct (bool_decide _); by injection Hn as <- <-).
  erewrite se_bind_step by exact Hn. destruct fresh; [|intros [= <- <-]; by rewrite Hc]. cbn [negb].
  rewrite <- Hc. rewrite <- Hp in Hb. clear Hn Hc Hp n. destruct (cx_mining cx).
  2: { erewrite se_bind_step by reflexivity. intros Hr%reply_plain_chain. by rewrite Hr. }
  set (b' := with_hash (compact_block_hash c) b).
  destruct (add_rebuilt gfuel cpu buffer now wall opened a b' n1) as [r1 n2] eqn:Ha.
  destruct (add_rebuilt_refused now wall a b' n1 r1 n2 Hne Ha) as [Hno Hk]. rewrite <- Hk. clear Hk.
  destruct r1 as [[]|e]; [done|..].
  - erewrite se_bind_step. 2: { rewrite se_get_step, Hb. erewrite se_bind_step by exact Ha. reflexivity. }
    intros Hr%reply_plain_chain. by rewrite Hr.
  - erewrite se_bind_fail. 2: { rewrite se_get_step, Hb. erewrite se_bind_fail by exact Ha. reflexivity. }
    by intros [= <- <-].
Qed.

(** ** Broadcast *)

Lemma send_to_peer_keeps now data n d :
  n_tables (send_to_peer opened now data n d) = set_scores (t_scores (n_tables (send_to_peer opened now data n d))) (n_tables n) ∧
  ∃ l, n_sent (send_to_peer opened now data n d) = n_sent n ++ l.
Proof.
  assert (n_tables n = set_scores (t_scores (n_tables n)) (n_tables n)) by by destruct n as [[]].
  unfold send_to_peer. destruct (bool_decide _); [|split; [done|exists []; by rewrite app_nil_r]].
  destruct (opened d); (split; [done|]); [by exists [(d, write_framed data)]|]. exists []. by rewrite app_nil_r.
Qed.
Lemma send_to_peers_keeps now data l : ∀ n,
  t_streams (n_tables (foldl (send_to_peer opened now data) n l)) = t_streams (n_tables n) ∧
  ∃ sent, n_sent (foldl (send_to_peer opened now data) n l) = n_sent n ++ sent.
Proof.
  induction l as [|d l IH]; intros n; cbn [foldl]; [split; [done|exists []; by rewrite app_nil_r]|].
  destruct (IH (send_to_peer opened now data n d)) as [-> [s1 ->]]. destruct (send_to_peer_keeps now data n d) as [-> [s2 ->]].
  split; [done|]. exists (s2 ++ s1). by rewrite app_assoc.
Qed.
Lemma send_reaches now data l : ∀ n a, a ∈ l → a ∈ t_streams (n_tables n) → opened a = true →
  (a, write_framed data) ∈ n_sent (foldl (send_to_peer opened now data) n l).
Proof.
  intros n a Hin Ha Hop. apply list_elem_of_split in Hin as (l1 & l2 & ->). rewrite foldl_app. cbn [foldl].
  destruct (send_to_peers_keeps now data l1 n) as [Hst _]. set (n1 := foldl _ n l1) in *.
  destruct (send_to_peers_keeps now data l2 (send_to_peer opened now data n1 a)) as [_ [s2 ->]].
  apply elem_of_app. left. unfold send_to_peer. rewrite Hst, bool_decide_true, Hop by done. cbn. apply elem_of_app. right. by left.
Qed.

Context (order_by : (FanoutPeer → FanoutPeer → comparison) → list FanoutPeer → list FanoutPeer).

(** C21: A node without shards sends a block it mined to every connected peer
    with a stream that opens.  The receiver handles exactly that block as a
    message signed by the node, next on the connection, when it already lists
    the node as a peer, the score table is not locked at that moment, the node
    is not over its rate limit there, no other key is pinned for it, and the
    clocks are within five minutes. *)
Theorem own_block_reaches_peers now wall cx b a data n :
  cx_shards cx = false → a ∈ t_peers (n_tables n) → a ∈ t_streams (n_tables n) → opened a = true →
  encode wall cx (MNewBlock b) = Ok data → 1 + Z.of_nat (length data) <= MAX_MESSAGE_SIZE → in_u64 wall →
  ∃ n', broadcast_block opened random now wall order_by cx b true n = (Ok tt, n') ∧ (a, write_framed data) ∈ n_sent n' ∧
    ∀ opened' shuffle' random' clock cx' s fuel i o more r now' wall' scores,
      clock i = (now', wall') → in_u64 wall' → wall' + 300 <= u64_max → wall' - 300 <= wall <= wall' + 300 →
      n_scores_held r = false → s ∈ t_peers (n_tables r) → check_peer_rate_limit now' s (t_scores (n_tables r)) = (true, scores) →
      (∀ k, pinned_key s (n_tables r) = Some k → k = ed25519_public (cx_key cx)) →
      ∃ au, am_message au = MNewBlock b ∧ am_public_key au = ed25519_public (cx_key cx) ∧
        handle_peer gfuel cpu buffer opened' shuffle' random' clock cx' s (S fuel) i o (write_framed data ++ more) r
        = match handle_verified gfuel cpu buffer opened' shuffle' random' now' wall' cx' s au
                  (set_tables (set_scores scores (n_tables r)) r) with
          | (FContinue, r') => handle_peer gfuel cpu buffer opened' shuffle' random' clock cx' s fuel (S i) 0 more r'
          | stopped => stopped
          end.
Proof.
  intros Hsd Ha Hst Hop He Hl Hw. eexists. split; [|split].
  - unfold broadcast_block. rewrite se_mod_step, se_get_step. rewrite bool_decide_false by (cbn; set_solver).
    erewrite se_bind_step. 2: { unfold own_block_message. rewrite Hsd. reflexivity. }
    erewrite se_bind_step. 2: { unfold se_read. rewrite He. reflexivity. }
    unfold send_all, too_large. destruct (Z.ltb_spec MAX_MESSAGE_SIZE (Z.of_nat (length data))); [lia|]. reflexivity.
  - apply send_reaches; [|done|done]. by apply elem_of_hs_iter.
  - intros opened' shuffle' random' clock cx' s fuel i o more r now' wall' scores Hck Hw' Hmax Hclk Hheld Hs Hrate Hpin.
    unfold encode in He. destruct (sign_message wall (cx_key cx) (MNewBlock b)) as [au|] eqn:Hau; [|done].
    assert (serialize au = Some data) as Hser.
    { cbn in He. unfold bincode_envelope in He. destruct (serialize au); [by injection He as ->|done]. }
    destruct (message_delivered wall wall' (cx_key cx) (MNewBlock b) au data more (pinned_key s (n_tables r))) as (Hrd & Hde & Hm & Hv);
      try done.
    exists au. split; [done|]. split.
    { unfold sign_message in Hau. destruct (bincode_message _); [|done]. by injection Hau as <-. }
    cbn [handle_peer]. rewrite Hrd, Hck. unfold handle_frame, register_sender. rewrite bool_decide_true by done.
    rewrite Hheld, Hrate. cbn [negb]. rewrite Z.eqb_refl, Hde. cbn [negb].
    change (pinned_key s (n_tables (set_tables (set_scores scores (n_tables r)) r))) with (pinned_key s (n_tables r)).
    by rewrite Hv.
Qed.

End Tasks.

(** ** Choosing peers *)

Section Choosing.
Context `{HashIter} (order_by : (FanoutPeer → FanoutPeer → comparison) → list FanoutPeer → list FanoutPeer).

(** Seven tenths, rounded up, of what there is. *)
Lemma from_fast_le k : (k <= 1000)%nat → (Z.to_nat (f_ceil_as_uint (f_mul (f_of_Z (Z.of_nat k)) (f_lit 7 10))) <= k)%nat.
Proof.
  intros Hk. apply Nat.leb_le.
  assert (forallb (λ k, (Z.to_nat (f_ceil_as_uint (f_mul (f_of_Z (Z.of_nat k)) (f_lit 7 10))) <=? k)%nat) (seq 0 1001) = true)
    as Hall by (vm_compute; reflexivity).
  rewrite forallb_forall in Hall. apply Hall, in_seq. lia.
Qed.

Lemma NoDup_take {A} k (l : list A) : NoDup l → NoDup (take k l).
Proof. intros Hn. rewrite <- (take_drop k l) in Hn. by apply NoDup_app in Hn as [? _]. Qed.
Lemma elem_of_take_1 {A} k (l : list A) x : x ∈ take k l → x ∈ l.
Proof. intros Hx. rewrite <- (take_drop k l). apply elem_of_app. by left. Qed.

Lemma NoDup_key_inj {A B} (f : A → B) l x y : NoDup (f <$> l) → x ∈ l → y ∈ l → f x = f y → x = y.
Proof.
  induction l as [|z l IH]; cbn; intros Hn Hx Hy He; [by apply not_elem_of_nil in Hx|]. apply NoDup_cons in Hn as [Hz Hn].
  apply elem_of_cons in Hx as [->|Hx], Hy as [->|Hy]; try done; [| |auto]; destruct Hz;
    [rewrite He|rewrite <- He]; by apply list_elem_of_fmap_2.
Qed.
Lemma refill_spec (l sel : list SocketAddr) : NoDup l → NoDup sel → (∀ d, d ∈ sel → d ∈ l) →
  NoDup (fill l sel) ∧ (∀ d, d ∈ fill l sel ↔ d ∈ l ∧ d ∉ sel) ∧ (length (fill l sel) + length sel = length l)%nat.
Proof.
  intros Hl Hs Hsub.
  assert (∀ d, d ∈ fill l sel ↔ d ∈ l ∧ d ∉ sel) as Hin.
  { intros d. unfold fill. rewrite list_elem_of_In, filter_In, <- list_elem_of_In, negb_true_iff, bool_decide_eq_false. done. }
  assert (NoDup (fill l sel)) as Hf.
  { rewrite <- (list_fmap_id (fill l sel)). apply NoDup_filter_b. by rewrite list_fmap_id. }
  split_and!; [done|done|].
  rewrite <- length_app. apply Permutation_length, NoDup_Permutation; [|done|].
  - apply NoDup_app. split_and!; [done| |done]. intros d Hd. by apply Hin in Hd as [_ ?].
  - intros d. rewrite elem_of_app, Hin. destruct (decide (d ∈ sel)); naive_solver.
Qed.

Lemma pick_spec k ranked : (k <= 1000)%nat → NoDup (fp_addr <$> ranked) →
  NoDup (pick k ranked) ∧ (∀ d, d ∈ pick k ranked → d ∈ fp_addr <$> ranked) ∧ (length (pick k ranked) <= k)%nat.
Proof.
  intros Hk Hn. unfold pick. cbv zeta. set (fast := is_fast (median_latency ranked)).
  pose proof (from_fast_le k Hk) as Hff. set (ff := Z.to_nat _) in *.
  assert (∀ f : FanoutPeer → bool, ∀ d, d ∈ fp_addr <$> List.filter f ranked → ∃ p, p ∈ ranked ∧ f p = true ∧ d = fp_addr p) as Hf.
  { intros f d Hd. apply list_elem_of_fmap in Hd as (p & -> & Hp). apply list_elem_of_In, filter_In in Hp as [Hp ?].
    exists p. split_and!; [by apply list_elem_of_In|done|done]. }
  assert (∀ f : FanoutPeer → bool, NoDup (fp_addr <$> List.filter f ranked)) as Hnf.
  { intros f. by apply NoDup_filter_b. }
  split_and!.
  - apply NoDup_app. split_and!; [by apply NoDup_take|  |by apply NoDup_take].
    intros d Hd1%elem_of_take_1 Hd2%elem_of_take_1. apply Hf in Hd1 as (p & Hp & Hfp & ->), Hd2 as (q & Hq & Hfq & He).
    assert (p = q) as -> by (by eapply NoDup_key_inj). by rewrite Hfp in Hfq.
  - intros d Hd. apply elem_of_app in Hd as [Hd|Hd]; apply elem_of_take_1, Hf in Hd as (p & Hp & _ & ->); by apply list_elem_of_fmap_2.
  - rewrite length_app, !length_take. lia.
Qed.

Lemma fmap_addr_peers (m : ScoreTable) l : (fp_addr ∘ fanout_peer m) <$> l ≡ₚ l.
Proof.
  induction l as [|d l IH]; [done|]. cbn. rewrite IH. by assert (fp_addr (fanout_peer m d) = d) as -> by (unfold fanout_peer; by case_match).
Qed.
Lemma top_up_spec k (peers chosen : list SocketAddr) : NoDup peers → NoDup chosen → (∀ d, d ∈ chosen → d ∈ peers) →
  (length chosen <= k)%nat → (k < length peers)%nat →
  let sel := if (length chosen <? k)%nat then chosen ++ take (k - length chosen) (fill peers chosen) else chosen in
  NoDup sel ∧ (∀ d, d ∈ sel → d ∈ peers) ∧ length sel = k.
Proof.
  intros Hp Hc Hsub Hl Hk. cbv zeta. destruct (Nat.ltb_spec (length chosen) k); [|split_and!; [done|done|lia]].
  destruct (refill_spec peers chosen Hp Hc Hsub) as (Hfn & Hfin & Hfl). split_and!.
  - apply NoDup_app. split_and!; [done| |by apply NoDup_take]. intros d Hd Ht%elem_of_take_1. apply Hfin in Ht. naive_solver.
  - intros d Hd. apply elem_of_app in Hd as [Hd|Hd%elem_of_take_1]; [auto|]. by apply Hfin in Hd as [? _].
  - rewrite length_app, length_take. lia.
Qed.

(** The peers chosen for relaying are distinct connected peers, as many as
    were asked for or all of them, whatever order the sort leaves them in; the
    choice is remembered with all other peers behind it. *)
Theorem fanout_selects_peers now k t :
  (∀ cmp l, order_by cmp l ≡ₚ l) → (k <= 1000)%nat →
  (∀ time cached, t_fanout t = Some (time, cached) → from_secs 5 <= Z.max 0 (now - time)) →
  let '(l, t') := select_peers_for_fanout now order_by k t in
  NoDup l ∧ (∀ d, d ∈ l → d ∈ t_peers t) ∧ length l = Nat.min k (size (t_peers t)) ∧ t_peers t' = t_peers t ∧
  (k < size (t_peers t) → ∃ rest, t_fanout t' = Some (now, l ++ rest) ∧ l ++ rest ≡ₚ elements (t_peers t))%nat.
Proof.
  intros Hord Hk Hold. assert (NoDup (hs_iter (t_peers t))) as Hnd by (rewrite hs_iter_perm; apply NoDup_elements).
  assert (∀ d, d ∈ hs_iter (t_peers t) ↔ d ∈ t_peers t) as Hin by (intros; apply elem_of_hs_iter).
  assert (length (hs_iter (t_peers t)) = size (t_peers t)) as Hlen by (by rewrite hs_iter_perm).
  assert (select_peers_for_fanout now order_by k t = select_afresh now order_by k t) as ->.
  { unfold select_peers_for_fanout. destruct (t_fanout t) as [[time cached]|]; [|done]. specialize (Hold _ _ eq_refl).
    by destruct (Z.ltb_spec (Z.max 0 (now - time)) (from_secs 5)); [lia|]. }
  unfold select_afresh. cbv zeta.
  destruct (Nat.leb_spec (length (hs_iter (t_peers t))) k) as [Hle|Hgt]; [split_and!; [done|naive_solver|lia|done|lia]|].
  set (m := foldl _ _ _). set (ranked := order_by _ _).
  assert (fp_addr <$> ranked ≡ₚ hs_iter (t_peers t)) as Hrk.
  { unfold ranked. rewrite Hord, <- list_fmap_compose. apply fmap_addr_peers. }
  destruct (pick_spec k ranked Hk) as (Hn & Hsub & Hl); [by rewrite Hrk|]. set (chosen := pick k ranked) in *.
  assert (∀ d, d ∈ chosen → d ∈ hs_iter (t_peers t)) as Hsub' by (intros d Hd; rewrite <- Hrk; auto).
  set (sel := if (length chosen <? k)%nat then _ else chosen).
  assert (NoDup sel ∧ (∀ d, d ∈ sel → d ∈ hs_iter (t_peers t)) ∧ length sel = k) as (Hsn & Hss & Hsl) by (by apply top_up_spec).
  destruct (refill_spec (hs_iter (t_peers t)) sel) as (Hfn & Hfin & Hfl); [done..|].
  split_and!; [done|naive_solver|lia|done|]. intros _. exists (fill (hs_iter (t_peers t)) sel). split; [done|].
  rewrite <- hs_iter_perm. apply NoDup_Permutation; [|done|].
  - apply NoDup_app. split_and!; [done| |done]. intros d Hd. rewrite Hfin. naive_solver.
  - intros d. rewrite elem_of_app, Hfin. destruct (decide (d ∈ sel)); naive_solver.
Qed.

End Choosing.

(** ** Serving blocks over QUIC *)

Section Quic.
Context `{Hex, Keccak, Blake3, Crypto, Evm, HashIter, SliceSearch, UnstableSort, SipHash, MessageCodec, AddrText}.
Context `{Codec Block, Codec (list Hash), Codec TxReceipt, Codec CrossShardMessage}.
Context `{Codec (list Block), Codec SignedSyncResponse}.
Context (cpu : CpuFeatures) (buffer : list u8) (opened : SocketAddr → bool).

(** What a client that opens a stream to the node gets back. *)
Definition stream_exchange (wall : u64) (cx : Ctx) (a : SocketAddr) (done : bool) (n : Node) : Exchange := λ input,
  match (handle_stream opened wall cx a done input n).1 with
  | ASync answer => answer
  | _ => Err "stream closed"%string
  end.

Lemma sync_stream_request wall c sk t params : t = 0 ∨ t = 1 →
  handle_sync_stream wall c sk (request_bytes t params) =
  if t =? 0 then signed_reply wall (to_le_bytes 8 (cached_latest_block_number c)) sk
  else handle_sync_client_secure wall c sk (request_bytes t params).
Proof.
  intros Ht. unfold handle_sync_stream, handle_sync_client_secure, request_bytes.
  change (SYNC_MAGIC ++ [SYNC_VERSION; t] ++ params) with ((SYNC_MAGIC ++ [SYNC_VERSION; t]) ++ params).
  rewrite read_exact_app by done. destruct Ht as [-> | ->]; reflexivity.
Qed.

End Quic.
