(* ===== verification/GossipReference.v ===== *)
(** * GossipReference: two nodes that talk

    A concrete node over the chain of [ChainReference], with two peers; the
    theorems of [GossipTheorems] are applied to it. *)

From S2P Require Import Prelude Types Block Pow Error Ledger BlockIndex Execution Chain ChainReference.
From S2P Require Import Messaging Sharding ShardReference Ordering TxPool TxPoolTheorems Miner MinerReference.
From S2P Require Import SyncPool SyncProtocol SyncServing.
From S2P Require Import RateLimit PeerScore Wire PeerTables Gossip PeerLoop GossipFrame GossipTheorems.

Module GossipReference.
Import BlockReference ChainReference ShardReference.
#[local] Existing Instance Reference.hex.
#[local] Existing Instance Reference.keccak.
#[local] Existing Instance PowReference.blake3.
#[local] Existing Instance BlockReference.crypto.
#[local] Existing Instance canonical_iter.
#[local] Existing Instance canonical_search.
#[local] Existing Instance ChainReference.evm.
#[local] Existing Instance ChainReference.block_codec.
#[local] Existing Instance ChainReference.hashes_codec.
#[local] Existing Instance ChainReference.receipt_codec.
#[local] Existing Instance ShardReference.message_codec.
#[local] Existing Instance MinerReference.stable_sort.
#[local] Existing Instance PeerTablesReference.text.

#[local] Instance sip : SipHash := {| sip13 := λ a _ bs, (a + from_le_bytes (take 7 bs)) mod 2 ^ 64 |}.
#[local] Instance messages : MessageCodec :=
  WireReference.table_messages [MNewBlock genesis_block; MRequestBlocks 1 500; MPing 7; MPong 7; MBlocks []].

Definition here : SocketAddr := MkSocket (MkIp [10; 0; 0; 1]) 8080.
Definition peer : SocketAddr := MkSocket (MkIp [10; 0; 0; 2]) 8080.
Definition other : SocketAddr := MkSocket (MkIp [10; 0; 0; 3]) 8080.
Definition both : gset SocketAddr := {[peer; other]}.
Definition tables : Tables :=
  MkTables both {[peer := peer_score_default 0]} 2 ∅ ∅ both both ∅ ∅ ∅ ∅ None ∅ None None.
Definition node : Node :=
  MkNode tables MinerReference.idle (orphan_pool_new 100) ∅ ∅ false None 0 0 [] [] false.
Definition cx : Ctx := MkCtx true false true None here alice_key.
Definition yes : SocketAddr → bool := λ _, true.
Definition times : nat → Z * u64 := λ _, (5, clock).

Lemma shuffle_id : ∀ (l : list SocketAddr) d, d ∈ id l → d ∈ l.
Proof. done. Qed.
Lemma node_ready : node_ok node.
Proof.
  split; [by apply (pool_invariant_start start None true clock)|exists []; split; [by split; [|constructor|]|cbn; lia]|..];
    apply Nat.leb_le; vm_compute; reflexivity.
Qed.
Lemma node_chain_ready : chain_ok (n_chain node).
Proof. refine (chain_ok_frame new start _ (proj1 new_ok)). split; reflexivity. Qed.

(** The message in which a peer announces the first block. *)
Definition block_data : list u8 := default [] (ok (encode clock cx (MNewBlock genesis_block))).
Definition block_frame : list u8 := write_framed block_data.
Definition after_block : Flow * Node := handle_peer 5 cpu [] yes id 3 times cx peer 100 0 0 block_frame node.

Lemma peer_keeps_node_sound_witness :
  blocks (blocks_data (n_chain after_block.2)) = [genesis_block] ∧ chain_ok (n_chain after_block.2) ∧ node_ok after_block.2.
Proof.
  destruct (peer_keeps_node_sound 5 cpu [] yes id 3 times cx peer 100 0 0 block_frame node after_block.1 after_block.2
    shuffle_id (surjective_pairing _) node_chain_ready node_ready) as (Hc & Hn & _).
  split; [vm_compute; reflexivity|]. exact (conj Hc Hn).
Defined.

Lemma handle_peer_ends_witness : (handle_peer 5 cpu [] yes id 3 times cx peer 6 0 0 [0; 0; 0; 0; 9] node).1 ≠ FContinue.
Proof. apply (handle_peer_ends 5 cpu [] yes id 3 times cx peer [0; 0; 0; 0; 9] 6 0 0 node). cbn. lia. Defined.

Lemma answers_are_unread_witness :
  ∃ bytes fb payload, n_sent (process_message 5 cpu [] 5 clock yes id 3 cx peer (MPing 7) node).2 = [(peer, bytes)] ∧
    read_frame (bytes ++ []) = FrMessage fb payload [] ∧ fb ≠ MSG_FRAME_PLAINTEXT.
Proof.
  destruct (process_message 5 cpu [] 5 clock yes id 3 cx peer (MPing 7) node) as [r n'] eqn:Hp.
  destruct (answers_are_unread 5 cpu [] yes id 3 5 clock cx peer (MPing 7) node r n' shuffle_id Hp) as (l & Hl & Hr).
  assert (n_sent n' = n_sent (process_message 5 cpu [] 5 clock yes id 3 cx peer (MPing 7) node).2) as Hs by by rewrite Hp.
  assert (∃ bytes, l = [(peer, bytes)] ∧ Z.of_nat (length bytes) <= MAX_MESSAGE_SIZE) as (bytes & -> & Hlen).
  { rewrite Hs in Hl. cbn [node n_sent app] in Hl. rewrite <- Hl.
    eexists. split; [vm_compute; reflexivity|vm_compute; discriminate]. }
  destruct (Hr bytes [] ltac:(by left) Hlen) as (fb & payload & Hread & Hk & _).
  exists bytes, fb, payload. cbn [snd]. rewrite Hl. exact (conj eq_refl (conj Hread Hk)).
Defined.

Definition junk : list u8 := [1; 2; 3].
Lemma five_bad_messages_block_node_witness :
  ∃ n', handle_peer 5 cpu [] yes id 3 times cx peer 9 0 0 (bad_frames 5 junk ++ []) node = (FBlocked, n') ∧
    (handle_frame 5 cpu [] yes id 3 7 clock cx other 0 [] n').1 = FBlocked.
Proof.
  destruct (five_bad_messages_block_node 5 cpu [] yes id 3 times cx peer junk [] 9 0 0 node) as (n' & Hp & Hm & _).
  - vm_compute. reflexivity.
  - vm_compute. discriminate.
  - lia.
  - split; [reflexivity|]. split; [apply (bool_decide_eq_true_1 (peer ∈ both)); vm_compute; reflexivity|].
    exists (peer_score_default 0). split; [reflexivity|]. split; [reflexivity|]. split; [reflexivity|]. cbn. lia.
  - exists n'. split; [exact Hp|]. apply Hm.
    assert (n' = (handle_peer 5 cpu [] yes id 3 times cx peer 9 0 0 (bad_frames 5 junk ++ []) node).2) as -> by by rewrite Hp.
    apply (bool_decide_eq_true_1 (other ∈ _)). vm_compute. reflexivity.
Defined.

(** A block that claims the hash of the first one, without its transactions. *)
Definition forged : Block := MkBlock genesis_header [] (block_hash genesis_block) None.
Lemma claimed_hash_shadows_block_witness :
  ∃ n', process_message 5 cpu [] 6 clock yes id 3 cx other (MNewBlock genesis_block)
          (process_message 5 cpu [] 5 clock yes id 3 cx peer (MNewBlock forged) node).2 = (Ok tt, n') ∧
    blocks (blocks_data (n_chain n')) = [].
Proof.
  destruct (claimed_hash_shadows_block 5 cpu [] yes id 3 5 clock cx peer forged node _ _ shuffle_id
    ltac:(apply Nat.ltb_lt; vm_compute; reflexivity) (surjective_pairing _) 6 clock cx other genesis_block eq_refl) as (n' & Hp & Hpool & _).
  exists n'. split; [exact Hp|]. unfold n_chain. rewrite Hpool. vm_compute. reflexivity.
Defined.

(** A block whose parent nobody has. *)
Definition lost : Block := MkBlock (MkHeader [MkHash (replicate 32 7)] 9 StreamA 1 clock 0 0 1 None None) [] (MkHash (replicate 32 8)) None.
Definition waiting : Node := set_orphans (add_orphan lost (orphan_pool_new 100)).2 node.
Lemma accepted_block_drops_orphans_witness :
  orphan_count (n_orphans waiting) = 1%nat ∧
  orphans (n_orphans (process_message 5 cpu [] 5 clock yes id 3 cx peer (MNewBlock genesis_block) waiting).2) = ∅.
Proof.
  split; [vm_compute; reflexivity|].
  apply (accepted_block_drops_orphans 5 cpu [] yes id 3 5 clock cx peer genesis_block waiting).
  - assert (Hr : (process_message 5 cpu [] 5 clock yes id 3 cx peer (MNewBlock genesis_block) waiting).1 = Ok tt)
      by (vm_compute; reflexivity). rewrite <- Hr. apply surjective_pairing.
  - intros He. assert (Hl : length (blocks (blocks_data (n_chain
      (process_message 5 cpu [] 5 clock yes id 3 cx peer (MNewBlock genesis_block) waiting).2))) = 1%nat) by (vm_compute; reflexivity).
    rewrite He in Hl. vm_compute in Hl. discriminate Hl.
Defined.

(** The first block, announced compactly. *)
Definition announced : CompactBlock := from_block 9 genesis_block ∅.
Definition rebuilt : Block := default genesis_block (to_block cpu [] announced (get_mempool_snapshot (n_pool node))).1.
Lemma compact_block_refused_witness :
  blocks_data (n_chain (process_message 5 cpu [] 5 clock yes id 3 cx peer (MNewCompactBlock announced) node).2) = blocks_data (n_chain node) ∧
  block_calculate_hash cpu [] rebuilt = block_hash genesis_block.
Proof.
  split; [|vm_compute; reflexivity].
  apply (compact_block_refused 5 cpu [] yes id 3 5 clock cx peer announced rebuilt [] node
    (process_message 5 cpu [] 5 clock yes id 3 cx peer (MNewCompactBlock announced) node).1).
  - vm_compute. reflexivity.
  - apply (bool_decide_eq_false_1 (compact_block_hash announced = block_calculate_hash cpu [] rebuilt)). vm_compute. reflexivity.
  - apply surjective_pairing.
Defined.

Definition keep_order : (FanoutPeer → FanoutPeer → comparison) → list FanoutPeer → list FanoutPeer := λ _ l, l.
Lemma own_block_reaches_peers_witness :
  (peer, block_frame) ∈ n_sent (broadcast_block yes 3 5 clock keep_order cx genesis_block true node).2 ∧
  ∃ au, am_message au = MNewBlock genesis_block ∧
    handle_peer 5 cpu [] yes id 3 times cx peer 2 0 0 (block_frame ++ []) node
    = match handle_verified 5 cpu [] yes id 3 5 clock cx peer au
              (set_tables (set_scores (check_peer_rate_limit 5 peer (t_scores tables)).2 tables) node) with
      | (FContinue, r') => handle_peer 5 cpu [] yes id 3 times cx peer 1 1 0 [] r'
      | stopped => stopped
      end.
Proof.
  destruct (own_block_reaches_peers 5 cpu [] yes 3 keep_order 5 clock cx genesis_block peer block_data node) as (n' & -> & Hs & Hr).
  - reflexivity.
  - apply (bool_decide_eq_true_1 (peer ∈ both)). vm_compute. reflexivity.
  - apply (bool_decide_eq_true_1 (peer ∈ both)). vm_compute. reflexivity.
  - reflexivity.
  - vm_compute. reflexivity.
  - vm_compute. discriminate.
  - unfold in_u64, u64_max, clock. lia.
  - split; [exact Hs|].
    destruct (Hr yes id 3 times cx peer 1%nat 0%nat 0%nat [] node 5 clock (check_peer_rate_limit 5 peer (t_scores tables)).2)
      as (au & Hm & _ & Heq);
      [reflexivity|unfold in_u64, u64_max, clock; lia|vm_compute; discriminate|lia|reflexivity|apply (bool_decide_eq_true_1 (peer ∈ both)); vm_compute; reflexivity|
       vm_compute; reflexivity|intros k Hk; vm_compute in Hk; discriminate Hk|].
    exists au. exact (conj Hm Heq).
Defined.

Lemma fanout_selects_peers_witness : ∃ d, (select_peers_for_fanout 5 keep_order 1 tables).1 = [d] ∧ d ∈ both.
Proof.
  pose proof (fanout_selects_peers keep_order 5 1 tables (λ _ _, reflexivity _) ltac:(lia) ltac:(discriminate)) as Hf.
  destruct (select_peers_for_fanout 5 keep_order 1 tables) as [l t']. destruct Hf as (_ & Hin & Hl & _). cbn [fst].
  assert (length l = 1%nat) as Hl1 by (rewrite Hl; vm_compute; reflexivity).
  destruct l as [|d [|]]; try discriminate Hl1. exists d. split; [reflexivity|]. apply Hin. by left.
Defined.

#[local] Instance SignedSyncResponse_eq_dec : EqDecision SignedSyncResponse.
Proof. solve_decision. Defined.
#[local] Instance batch_codec : Codec (list Block) := table_codec [[]].
#[local] Instance reply_codec : Codec SignedSyncResponse := table_codec [response_sign clock (to_le_bytes 8 0) alice_key].
End GossipReference.
