(* ===== verification/Json.v ===== *)
(** * Json: JSON values, numbers as text and the parameters of RPC methods

    Models the values of [serde_json] and the helpers at the top and at the end
    of [irondag-blockchain/src/rpc.rs]: error codes and constructors, extraction
    of parameters, validation and parsing of addresses, hashes and numbers.

    A string is the sequence of its bytes.  The fields of an object have
    distinct names; [VObject] keeps them in a list.  As in [Error], a message is
    kept as its constant text. *)

From Stdlib Require Import Ascii Floats.SpecFloat.
From S2P Require Import Prelude Types Float64.

Inductive Number := PosInt (n : u64) | NegInt (n : Z) | NFloat (f : f64).
Inductive Value :=
  | VNull
  | VBool (b : bool)
  | VNumber (n : Number)
  | VString (s : string)
  | VArray (l : list Value)
  | VObject (m : list (string * Value)).

Definition as_str (v : Value) : option string := match v with VString s => Some s | _ => None end.
Definition as_bool (v : Value) : option bool := match v with VBool b => Some b | _ => None end.
Definition as_u64 (v : Value) : option u64 := match v with VNumber (PosInt n) => Some n | _ => None end.
Definition as_array (v : Value) : option (list Value) := match v with VArray l => Some l | _ => None end.
Definition as_object (v : Value) : option (list (string * Value)) := match v with VObject m => Some m | _ => None end.
(** [map.get(k)] *)
Fixpoint obj_get (k : string) (m : list (string * Value)) : option Value :=
  match m with
  | [] => None
  | (k', v) :: m' => if bool_decide (k = k') then Some v else obj_get k m'
  end.
(** [value.get(k)] *)
Definition value_get (k : string) (v : Value) : option Value := as_object v ≫= obj_get k.

(** What [json!] makes of the values of the source. *)
Definition vint (n : Z) : Value := VNumber (PosInt n).
Definition vnat (n : nat) : Value := vint (Z.of_nat n).
Definition vopt {A} (f : A → Value) (o : option A) : Value := match o with Some a => f a | None => VNull end.

(** ** Numbers as text *)

Definition digit_char (d : Z) : ascii := ascii_of_nat (Z.to_nat (if d <? 10 then 48 + d else 87 + d)).
(** [c.to_digit(radix)] *)
Definition to_digit (radix : Z) (c : ascii) : option Z :=
  let n := Z.of_nat (nat_of_ascii c) in
  d ← (if (48 <=? n) && (n <=? 57) then Some (n - 48)
       else if (65 <=? n) && (n <=? 90) then Some (n - 55)
       else if (97 <=? n) && (n <=? 122) then Some (n - 87)
       else None);
  if d <? radix then Some d else None.

(** A number has at most one digit more than its binary logarithm. *)
Fixpoint digits_of (fuel : nat) (radix n : Z) (s : string) : string :=
  let s := String (digit_char (n mod radix)) s in
  match fuel with
  | O => s
  | S fuel' => if n / radix =? 0 then s else digits_of fuel' radix (n / radix) s
  end.
Definition in_radix (radix n : Z) : string := digits_of (Z.to_nat (Z.log2 n)) radix n EmptyString.
(** [n.to_string()] *)
Definition to_decimal (n : Z) : string := in_radix 10 n.
(** [format!("0x{:x}", n)] *)
Definition format_hex (n : Z) : string := ("0x" +:+ in_radix 16 n)%string.

(** [format!("{:.2}", x)]: the exact value in hundredths, rounded to even. *)
Definition round_div (n d : Z) : Z :=
  let q := n / d in
  match 2 * (n mod d) ?= d with Lt => q | Gt => q + 1 | Eq => if Z.even q then q else q + 1 end.
Definition hundredths (n : Z) : string :=
  (to_decimal (n / 100) +:+ "." +:+ to_decimal (n / 10 mod 10) +:+ to_decimal (n mod 10))%string.
Definition format_two (x : f64) : string :=
  let sign (s : bool) t := if s then ("-" +:+ t)%string else t in
  match x with
  | S754_nan => "NaN"
  | S754_infinity s => sign s "inf"%string
  | S754_zero s => sign s "0.00"%string
  | S754_finite s m e =>
      sign s (hundredths (if 0 <=? e then 100 * Z.pos m * 2 ^ e else round_div (100 * Z.pos m) (2 ^ (- e))))
  end.

(** [uN::from_str_radix] and, for radix 10, [str::parse]: a leading plus sign
    is skipped; [checked_mul] and [checked_add] catch an overflow. *)
Fixpoint parse_digits (radix max acc : Z) (s : string) : option Z :=
  match s with
  | EmptyString => Some acc
  | String c s' =>
      d ← to_digit radix c;
      let x := acc * radix + d in
      if x <=? max then parse_digits radix max x s' else None
  end.
Definition from_str_radix (radix max : Z) (s : string) : option Z :=
  match s with
  | EmptyString => None
  | String "+"%char EmptyString => None
  | String "+"%char s' => parse_digits radix max 0 s'
  | _ => parse_digits radix max 0 s
  end.

(** ** Errors *)

Record JsonRpcError := MkRpcError { code : Z; message : string; err_data : option Value }.

Definition RPC_PARSE_ERROR : Z := -32700.
Definition RPC_INVALID_REQUEST : Z := -32600.
Definition RPC_METHOD_NOT_FOUND : Z := -32601.
Definition RPC_INVALID_PARAMS : Z := -32602.
Definition RPC_INTERNAL_ERROR : Z := -32603.
Definition RPC_INVALID_ADDRESS : Z := -32003.
Definition RPC_RATE_LIMITED : Z := -32005.
Definition HEX_ADDRESS_LEN : nat := 42.
Definition HEX_HASH_LEN : nat := 66.

Definition rpc_error (c : Z) (msg : string) : JsonRpcError := MkRpcError c msg None.
Definition missing_params_error : JsonRpcError := rpc_error RPC_INVALID_PARAMS "Invalid params".
Definition missing_param_error (name : string) : JsonRpcError :=
  rpc_error RPC_INVALID_PARAMS ("Missing " +:+ name +:+ " parameter").
Definition invalid_param_error (name : string) : JsonRpcError :=
  rpc_error RPC_INVALID_PARAMS ("Invalid " +:+ name +:+ " parameter").
Definition internal_error (msg : string) : JsonRpcError := rpc_error RPC_INTERNAL_ERROR msg.

(** ** Validation *)

Abbreviation RpcResult := (result JsonRpcError).

Definition starts_0x (s : string) : bool := String.prefix "0x" s.
(** [&s[2..]] *)
Definition skip2 (s : string) : string := match s with String _ (String _ s') => s' | _ => EmptyString end.

Definition validate_hex (value : string) : RpcResult unit :=
  if negb (starts_0x value)
  then Err (MkRpcError RPC_INVALID_PARAMS "Hex string must start with 0x" (Some (VObject [("value", VString value)]))) else
  if negb (all_hexdigits (skip2 value))
  then Err (MkRpcError RPC_INVALID_PARAMS "Invalid hex characters" (Some (VObject [("value", VString value)])))
  else Ok tt.
Definition validate_address (address : string) : RpcResult unit :=
  _ ← validate_hex address;
  if negb (String.length address =? HEX_ADDRESS_LEN)%nat
  then Err (MkRpcError RPC_INVALID_ADDRESS "Address must be 20 bytes" (Some (VObject [("address", VString address)])))
  else Ok tt.
Definition validate_hash (hash : string) : RpcResult unit :=
  _ ← validate_hex hash;
  if negb (String.length hash =? HEX_HASH_LEN)%nat
  then Err (MkRpcError RPC_INVALID_PARAMS "Hash must be 32 bytes" (Some (VObject [("hash", VString hash)])))
  else Ok tt.
Definition is_block_tag (s : string) : bool :=
  bool_decide (s = "latest" ∨ s = "earliest" ∨ s = "pending" ∨ s = "safe" ∨ s = "finalized")%string.
Definition validate_block_param (value : string) : RpcResult unit :=
  if is_block_tag value then Ok tt else
  _ ← validate_hex value;
  num ← ok_or (MkRpcError RPC_INVALID_PARAMS "Invalid block number" (Some (VObject [("value", VString value)])))
          (from_str_radix 16 u64_max (skip2 value));
  if 10000000000 <? num
  then Err (MkRpcError RPC_INVALID_PARAMS "Block number unreasonably high"
              (Some (VObject [("value", VString value); ("max", vint 10000000000)])))
  else Ok tt.

(** ** Parsing *)

Section Parsing.
Context `{Hex}.

Definition parse_hex_bytes (s : string) : RpcResult (list u8) :=
  ok_or (rpc_error RPC_INVALID_PARAMS "Failed to decode hex") (hex_decode (skip2 s)).
(** [copy_from_slice] finds the right length after the validation. *)
Definition parse_address (address : string) : RpcResult Address :=
  _ ← validate_address address;
  bytes ← parse_hex_bytes address;
  Ok (MkAddress bytes).
Definition parse_hash (hash : string) : RpcResult Hash :=
  _ ← validate_hash hash;
  bytes ← parse_hex_bytes hash;
  Ok (MkHash bytes).

Definition extract_str_param (params : list Value) (i : nat) : option string := params !! i ≫= as_str.
Definition extract_hex_param (params : list Value) (i : nat) : option (list u8) :=
  extract_str_param params i ≫= λ s, hex_decode (if starts_0x s then skip2 s else s).
Definition extract_address_param (params : list Value) (i : nat) : RpcResult Address :=
  s ← ok_or (invalid_param_error "address") (extract_str_param params i);
  parse_address s.
Definition extract_hash_param (params : list Value) (i : nat) : RpcResult Hash :=
  s ← ok_or (invalid_param_error "hash") (extract_str_param params i);
  parse_hash s.

(** [if s.starts_with("0x") { hex::decode(&s[2..]) } else { hex::decode(s) }] *)
Definition decode_hex_text (s : string) : option (list u8) := hex_decode (if starts_0x s then skip2 s else s).
End Parsing.

Definition is_pending_tag (s : string) : bool := bool_decide (s = "latest" ∨ s = "pending")%string.
Definition parse_hex_number (s : string) : RpcResult u64 :=
  let s := strip_0x s in
  if is_pending_tag s
  then Err (rpc_error (-32602) "latest/pending not yet supported - use parse_block_number instead")
  else ok_or (rpc_error (-32602) "Invalid number format") (from_str_radix 16 u64_max s).
Definition parse_hex_u128 (s : string) : RpcResult u128 :=
  let s := strip_0x s in
  if is_pending_tag s
  then Err (rpc_error (-32602) "Block tags (latest/pending) not supported for this parameter")
  else ok_or (rpc_error (-32602) "Invalid number format") (from_str_radix 16 u128_max s).
Definition parse_block_number (value : Value) (latest_block : u64) : RpcResult u64 :=
  match as_str value with
  | Some s =>
      if is_pending_tag s then Ok latest_block
      else if bool_decide (s = "earliest"%string) then Ok 0
      else ok_or (rpc_error (-32602) "Invalid block number format") (from_str_radix 16 u64_max (strip_0x s))
  | None => ok_or (rpc_error (-32602) "Invalid block number") (as_u64 value)
  end.
(** [s.parse::<u128>().or_else(|_| u128::from_str_radix(s without 0x, 16))] *)
Definition parse_u128_either (s : string) : option u128 :=
  match from_str_radix 10 u128_max s with
  | Some n => Some n
  | None => from_str_radix 16 u128_max (strip_0x s)
  end.
Definition bytes_to_u128 (bytes : list u8) : RpcResult u128 :=
  if (16 <? length bytes)%nat then Err (rpc_error (-32602) "Value too large")
  else Ok (foldl (λ r b, Z.lor (Z.shiftl r 8) b) 0 bytes).

(** ** Round trips *)

Lemma digit_cases d : 0 <= d < 16 →
  d = 0 ∨ d = 1 ∨ d = 2 ∨ d = 3 ∨ d = 4 ∨ d = 5 ∨ d = 6 ∨ d = 7 ∨ d = 8 ∨ d = 9 ∨ d = 10 ∨ d = 11 ∨ d = 12 ∨ d = 13 ∨ d = 14 ∨ d = 15.
Proof. lia. Qed.
Lemma to_digit_char radix d : 0 <= d < radix → radix <= 16 → to_digit radix (digit_char d) = Some d.
Proof.
  intros Hd Hr. assert (Hv : to_digit 16 (digit_char d) = Some d).
  { pose proof (digit_cases d ltac:(lia)) as Hc. by repeat destruct Hc as [-> | Hc]; subst. }
  unfold to_digit in *. cbv zeta in *. revert Hv.
  match goal with |- context [if ?b then ?x else ?y] => destruct (if b then x else y) as [d'|]; [|done] end. cbn.
  destruct (Z.ltb_spec d' 16); [|done]. intros [= ->]. by destruct (Z.ltb_spec d radix); [|lia].
Qed.

Lemma digits_of_head fuel radix n s : 0 < radix →
  ∃ d s', digits_of fuel radix n s = String (digit_char d) s' ∧ 0 <= d < radix.
Proof.
  intros Hr. revert n s. induction fuel as [|fuel IH]; intros n s; cbn [digits_of].
  - pose proof (Z.mod_pos_bound n radix). eauto.
  - destruct (_ =? 0); [|apply IH]. pose proof (Z.mod_pos_bound n radix). eauto.
Qed.

Lemma parse_digits_of fuel radix max n s : 2 <= radix <= 16 → 0 <= n <= max → n < radix ^ (Z.of_nat fuel + 1) →
  parse_digits radix max 0 (digits_of fuel radix n s) = parse_digits radix max n s.
Proof.
  intros Hr. revert n s. induction fuel as [|fuel IH]; intros n s Hn Hf; cbn [digits_of];
    pose proof (Z.mod_pos_bound n radix); pose proof (Z.div_mod n radix ltac:(lia)).
  - cbn [parse_digits]. rewrite to_digit_char by lia. cbn [mbind option_bind].
    change (Z.of_nat 0 + 1) with 1 in Hf. rewrite Z.pow_1_r in Hf. rewrite (Z.mod_small n), Z.mul_0_l, Z.add_0_l by lia.
    by destruct (Z.leb_spec n max); [|lia].
  - destruct (Z.eqb_spec (n / radix) 0) as [Hz|Hz].
    + cbn [parse_digits]. rewrite to_digit_char by lia. cbn [mbind option_bind].
      replace (0 * radix + n mod radix) with n by nia. by destruct (Z.leb_spec n max); [|lia].
    + assert (Hle : n / radix <= n) by (apply Z.div_le_upper_bound; nia). pose proof (Z.div_pos n radix ltac:(lia) ltac:(lia)).
      rewrite IH; [|lia|].
      * cbn [parse_digits]. rewrite to_digit_char by lia. cbn [mbind option_bind].
        replace (n / radix * radix + n mod radix) with n by lia. by destruct (Z.leb_spec n max); [|lia].
      * apply Z.div_lt_upper_bound; [lia|]. rewrite <- Z.pow_succ_r by lia.
        by replace (Z.succ (Z.of_nat fuel + 1)) with (Z.of_nat (S fuel) + 1) by lia.
Qed.

Lemma digits_enough radix n : 2 <= radix → 0 <= n → n < radix ^ (Z.of_nat (Z.to_nat (Z.log2 n)) + 1).
Proof.
  intros Hr Hn. rewrite Z2Nat.id by apply Z.log2_nonneg. pose proof (Z.log2_nonneg n).
  destruct (decide (n = 0)) as [->|]; [by apply Z.pow_pos_nonneg; [lia|]|].
  apply Z.lt_le_trans with (2 ^ (Z.log2 n + 1)); [apply (Z.log2_spec n); lia|]. apply Z.pow_le_mono_l. lia.
Qed.

(** A number written in a radix is read back. *)
Lemma radix_roundtrip radix max n : 2 <= radix <= 16 → 0 <= n <= max → from_str_radix radix max (in_radix radix n) = Some n.
Proof.
  intros Hr Hn. pose proof (parse_digits_of (Z.to_nat (Z.log2 n)) radix max n EmptyString Hr Hn (digits_enough radix n ltac:(lia) ltac:(lia))) as Hp.
  destruct (digits_of_head (Z.to_nat (Z.log2 n)) radix n EmptyString ltac:(lia)) as (d & s' & Hd & Hb).
  unfold in_radix in *. rewrite Hd in *. cbn [parse_digits] in Hp |- *. unfold from_str_radix.
  pose proof (digit_cases d ltac:(lia)) as Hc. repeat destruct Hc as [-> | Hc]; subst; exact Hp.
Qed.
Lemma in_radix_no_tag radix n : 2 <= radix <= 16 → 0 <= n → is_pending_tag (in_radix radix n) = false.
Proof.
  intros Hr Hn. apply bool_decide_eq_false_2.
  pose proof (radix_roundtrip radix n n Hr ltac:(lia)) as Hp.
  destruct (digits_of_head (Z.to_nat (Z.log2 n)) radix n EmptyString ltac:(lia)) as (d & s' & Hd & Hb).
  unfold in_radix in *. rewrite Hd. pose proof (digit_cases d ltac:(lia)) as Hc.
  repeat destruct Hc as [-> | Hc]; subst; intros [?|?]; discriminate.
Qed.
(** Numbers of answers are accepted as parameters. *)
Lemma hex_number_roundtrip n : 0 <= n <= u64_max → parse_hex_number (format_hex n) = Ok n.
Proof.
  intros Hn. unfold parse_hex_number, format_hex. rewrite strip_0x_prefixed, in_radix_no_tag, radix_roundtrip by lia. done.
Qed.
Lemma hex_u128_roundtrip n : 0 <= n <= u128_max → parse_hex_u128 (format_hex n) = Ok n.
Proof.
  intros Hn. unfold parse_hex_u128, format_hex. rewrite strip_0x_prefixed, in_radix_no_tag, radix_roundtrip by lia. done.
Qed.
Lemma decimal_roundtrip n : 0 <= n <= u128_max → parse_u128_either (to_decimal n) = Some n.
Proof. intros Hn. unfold parse_u128_either, to_decimal. by rewrite radix_roundtrip by lia. Qed.

Section TextParsing.
Context `{Hex}.

Lemma prefixed s : ("0x" +:+ s)%string = String "0" (String "x" s).
Proof. reflexivity. Qed.
Lemma validate_encoded bs : forallb is_u8 bs = true → validate_hex (String "0" (String "x" (hex_encode bs))) = Ok tt.
Proof.
  intros Hb. unfold validate_hex, starts_0x. cbn -[all_hexdigits]. rewrite hex_encode_digits by done.
  by destruct (hex_encode bs).
Qed.
Lemma parse_address_hex a : address_wf a = true → parse_address (address_to_hex a) = Ok a.
Proof.
  unfold address_wf. rewrite bytes_wf_spec. intros [Hl Hb]. unfold parse_address, validate_address, address_to_hex.
  rewrite prefixed, validate_encoded by done. cbn -[Nat.eqb]. rewrite hex_encode_length, Hl.
  unfold parse_hex_bytes. cbn. rewrite hex_decode_encode by done. by destruct a.
Qed.
Lemma parse_hash_hex h : hash_wf h = true → parse_hash (hash_to_hex h) = Ok h.
Proof.
  unfold hash_wf. rewrite bytes_wf_spec. intros [Hl Hb]. unfold parse_hash, validate_hash, hash_to_hex.
  rewrite prefixed, validate_encoded by done. cbn -[Nat.eqb]. rewrite hex_encode_length, Hl.
  unfold parse_hex_bytes. cbn. rewrite hex_decode_encode by done. by destruct h.
Qed.

Lemma skip2_length s : String.length (skip2 s) = (String.length s - 2)%nat.
Proof. destruct s as [|a [|b s]]; cbn; lia. Qed.
(** A text that passes the validation is decoded, to the right length. *)
Lemma parse_address_wf s a : parse_address s = Ok a → address_wf a = true.
Proof.
  unfold parse_address, validate_address, validate_hex, parse_hex_bytes. intros Hp. case_ok.
  destruct (negb (starts_0x s)); [done|]. destruct (all_hexdigits (skip2 s)) eqn:Hd; [|done]. cbn in *.
  destruct (Nat.eqb_spec (String.length s) HEX_ADDRESS_LEN) as [Hl|]; [|done].
  destruct (hex_decode_digits (skip2 s) 20) as (bs & Hb & Hbl & Hu); [by rewrite skip2_length, Hl|done|].
  simplify_eq. rewrite Hb in *. simplify_eq/=. unfold address_wf. by apply bytes_wf_spec.
Qed.
End TextParsing.
