(* ===== verification/RpcServer.v ===== *)
(** * RpcServer: the server behind the JSON-RPC interface and its gates

    Models the [RpcServer] of [irondag-blockchain/src/rpc.rs]: its constructors
    and setters, the key, and what [handle_request] checks before it runs a
    method.  The server the node builds is that of
    [irondag-blockchain/src/node/mod.rs].

    The chain, the pools and the peers are those of [Node], shared with the
    other tasks.  [blockchain_cached_block_number] and [accounts_cache] are the
    fields of the chain they point to.  A request is handled without
    interruption; [Env] holds what it reads from outside: the clocks, the
    connections that accept data and whether writers kept the lock of the chain
    for the 30 seconds [acquire_blockchain_read] tries.  The lengths of
    serialized values come from [JsonText] ([serde_json]).

    [Failed] is the error a handler returns, [Panicked] a panic of the task,
    after which the connection closes without an answer. *)

From S2P Require Import Prelude Types Block Pow Error.
From S2P Require Import Storage DagStorage GhostDag.
From S2P Require Import Sponsorship PrivacyPool Recurring Governance Wallet Verkle.
From S2P Require Import Ledger BlockIndex Execution AccountFrame Chain.
From S2P Require Import Messaging Sharding Float64 Ordering TxPool.
From S2P Require Import SyncPool SyncProtocol RateLimit PeerScore Wire PeerTables Gossip PeerLoop.
From S2P Require Import Security Multisig Recovery Hardening Json.

Definition FAUCET_RATE_LIMIT_SECONDS : u64 := 60.
Definition RPC_DEFAULT_TIMEOUT_SECS : u64 := 30.
Definition RPC_READ_TIMEOUT_SECS : u64 := 15.
Definition RPC_MAX_RESPONSE_SIZE : nat := Z.to_nat (10 * 1024 * 1024).
Definition RPC_MAX_BATCH_SIZE : nat := 100.

Class JsonText := {
  (** [serde_json::to_string(v).map(|s| s.len()).unwrap_or(0)] *)
  json_len : Value → nat;
  (** [serde_json::to_vec(v)] *)
  json_bytes : Value → list u8 }.

Record JsonRpcRequest := MkReq { rq_jsonrpc : string; rq_method : string; rq_params : option Value; rq_id : option Value }.
Record JsonRpcResponse := MkResp { rp_jsonrpc : string; rp_result : option Value; rp_error : option JsonRpcError; rp_id : option Value }.

(** ** Methods and keys *)

Definition is_state_changing_method (m : string) : bool :=
  bool_decide (m ∈ ["eth_sendRawTransaction"; "eth_sendTransaction"; "irondag_faucet"]%string).
Definition is_read_method (m : string) : bool := negb (is_state_changing_method m).
Definition public_methods : list string :=
  ["eth_blockNumber"; "net_version"; "eth_chainId"; "eth_syncing"; "irondag_getDagStats"; "irondag_getTps";
   "irondag_getBlocksByStream"; "irondag_getStreamCounts"; "irondag_faucet"]%string.
Definition is_public_method (m : string) : bool := bool_decide (m ∈ public_methods).

(** [for (x, y) in a.iter().zip(b.iter()) { diff |= x ^ y; }] *)
Definition constant_time_eq (a b : list u8) : bool :=
  if negb (length a =? length b)%nat then false
  else foldl (λ diff xy, Z.lor diff (Z.lxor xy.1 xy.2)) 0 (zip a b) =? 0.

Definition hash_api_key `{Blake3} (key : string) : list u8 := blake3_digest (bytes_of_string key).
(** [bytes]: 32 random bytes. *)
Definition generate_random_api_key `{Hex} (bytes : list u8) : string := hex_encode bytes.

(** ** The server *)

Record RpcConfig := MkRpcConfig {
  api_key_hash : option (list u8);
  allow_unsigned_eth_send : bool;
  rpc_chain_id : u64;
  rpc_miner_address : Address }.
Record RpcLimits := MkRpcLimits {
  rate_limiter : option RateLimiter;
  per_ip_rate_limiter : option PerIpRateLimiter;
  tx_submission_rate_limiter : option PerIpRateLimiter;
  security_hardening : option SecurityHardening }.
Record RpcManagers := MkRpcManagers {
  rm_policies : option SecurityPolicyManager;
  rm_wallets : option WalletRegistry;
  rm_multisig : option MultiSigManager;
  rm_recovery : option SocialRecoveryManager;
  rm_recurring : option Recurring.Manager }.

Record Env := MkEnv {
  e_now : Z;
  e_wall : u64;
  e_clock : Reading → Z;
  e_busy : bool;
  e_opened : SocketAddr → bool;
  e_order : (FanoutPeer → FanoutPeer → comparison) → list FanoutPeer → list FanoutPeer }.

Inductive Failure := Failed (e : JsonRpcError) | Panicked (msg : string).

Section Server.
Context `{Hex, Blake3, Evm, JsonText}.

(** [rs_mining], [rs_network] and [rs_shards] say which managers were set;
    [faucet_times] is the static map of the faucet.  One key is ever written to
    [response_cache], so the cache is an [option] and its bound is not reached. *)
Record RpcServer := MkServer {
  rs_config : RpcConfig;
  rs_limits : RpcLimits;
  rs_managers : RpcManagers;
  rs_node : Node;
  rs_mining : bool;
  rs_network : option Ctx;
  rs_shards : bool;
  faucet_times : gmap Address Z;
  rpc_requests_total : u64;
  rpc_errors_total : u64;
  trace_id_counter : u64;
  response_cache : option (Value * Z * u64) }.
Abbreviation RM := (SE RpcServer Failure).

Definition with_config (c : RpcConfig) (s : RpcServer) : RpcServer :=
  MkServer c (rs_limits s) (rs_managers s) (rs_node s) (rs_mining s) (rs_network s) (rs_shards s) (faucet_times s)
    (rpc_requests_total s) (rpc_errors_total s) (trace_id_counter s) (response_cache s).
Definition with_limits (l : RpcLimits) (s : RpcServer) : RpcServer :=
  MkServer (rs_config s) l (rs_managers s) (rs_node s) (rs_mining s) (rs_network s) (rs_shards s) (faucet_times s)
    (rpc_requests_total s) (rpc_errors_total s) (trace_id_counter s) (response_cache s).
Definition with_managers (m : RpcManagers) (s : RpcServer) : RpcServer :=
  MkServer (rs_config s) (rs_limits s) m (rs_node s) (rs_mining s) (rs_network s) (rs_shards s) (faucet_times s)
    (rpc_requests_total s) (rpc_errors_total s) (trace_id_counter s) (response_cache s).
Definition with_node (n : Node) (s : RpcServer) : RpcServer :=
  MkServer (rs_config s) (rs_limits s) (rs_managers s) n (rs_mining s) (rs_network s) (rs_shards s) (faucet_times s)
    (rpc_requests_total s) (rpc_errors_total s) (trace_id_counter s) (response_cache s).
Definition with_tasks (mining : bool) (network : option Ctx) (s : RpcServer) : RpcServer :=
  MkServer (rs_config s) (rs_limits s) (rs_managers s) (rs_node s) mining network (rs_shards s) (faucet_times s)
    (rpc_requests_total s) (rpc_errors_total s) (trace_id_counter s) (response_cache s).
Definition with_faucet (f : gmap Address Z) (s : RpcServer) : RpcServer :=
  MkServer (rs_config s) (rs_limits s) (rs_managers s) (rs_node s) (rs_mining s) (rs_network s) (rs_shards s) f
    (rpc_requests_total s) (rpc_errors_total s) (trace_id_counter s) (response_cache s).
Definition with_cache (c : option (Value * Z * u64)) (s : RpcServer) : RpcServer :=
  MkServer (rs_config s) (rs_limits s) (rs_managers s) (rs_node s) (rs_mining s) (rs_network s) (rs_shards s) (faucet_times s)
    (rpc_requests_total s) (rpc_errors_total s) (trace_id_counter s) c.
(** [trace_id_counter.fetch_add(1)], [rpc_requests_total.fetch_add(1)] *)
Definition count_request (s : RpcServer) : RpcServer :=
  MkServer (rs_config s) (rs_limits s) (rs_managers s) (rs_node s) (rs_mining s) (rs_network s) (rs_shards s) (faucet_times s)
    (add64 (rpc_requests_total s) 1) (rpc_errors_total s) (add64 (trace_id_counter s) 1) (response_cache s).
Definition count_error (s : RpcServer) : RpcServer :=
  MkServer (rs_config s) (rs_limits s) (rs_managers s) (rs_node s) (rs_mining s) (rs_network s) (rs_shards s) (faucet_times s)
    (rpc_requests_total s) (add64 (rpc_errors_total s) 1) (trace_id_counter s) (response_cache s).

Definition rs_chain (s : RpcServer) : Blockchain := n_chain (rs_node s).
Definition accounts_cache (s : RpcServer) : gmap Address Account := accounts (ledger (rs_chain s)).

(** ** Constructors and setters *)

Definition set_key (h : option (list u8)) (s : RpcServer) : RpcServer :=
  with_config (MkRpcConfig h (allow_unsigned_eth_send (rs_config s)) (rpc_chain_id (rs_config s)) (rpc_miner_address (rs_config s))) s.
Definition set_api_key (key : string) : RpcServer → RpcServer := set_key (Some (hash_api_key key)).
Definition set_allow_unsigned_eth_send (allow : bool) (s : RpcServer) : RpcServer :=
  with_config (MkRpcConfig (api_key_hash (rs_config s)) allow (rpc_chain_id (rs_config s)) (rpc_miner_address (rs_config s))) s.
Definition set_miner_address (a : Address) (s : RpcServer) : RpcServer :=
  with_config (MkRpcConfig (api_key_hash (rs_config s)) (allow_unsigned_eth_send (rs_config s)) (rpc_chain_id (rs_config s)) a) s.
Definition set_per_ip_rate_limiter (l : PerIpRateLimiter) (s : RpcServer) : RpcServer :=
  with_limits (MkRpcLimits (rate_limiter (rs_limits s)) (Some l) (tx_submission_rate_limiter (rs_limits s)) (security_hardening (rs_limits s))) s.
Definition set_tx_submission_rate_limiter (l : PerIpRateLimiter) (s : RpcServer) : RpcServer :=
  with_limits (MkRpcLimits (rate_limiter (rs_limits s)) (per_ip_rate_limiter (rs_limits s)) (Some l) (security_hardening (rs_limits s))) s.
Definition set_security_hardening (h : SecurityHardening) (s : RpcServer) : RpcServer :=
  with_limits (MkRpcLimits (rate_limiter (rs_limits s)) (per_ip_rate_limiter (rs_limits s)) (tx_submission_rate_limiter (rs_limits s)) (Some h)) s.
Definition set_mining_manager (s : RpcServer) : RpcServer := with_tasks true (rs_network s) s.
Definition set_network_manager (c : Ctx) (s : RpcServer) : RpcServer := with_tasks (rs_mining s) (Some c) s.
Definition set_policy_manager (p : SecurityPolicyManager) (s : RpcServer) : RpcServer :=
  with_managers (MkRpcManagers (Some p) (rm_wallets (rs_managers s)) (rm_multisig (rs_managers s)) (rm_recovery (rs_managers s)) (rm_recurring (rs_managers s))) s.
Definition with_wallet_registry (r : WalletRegistry) (s : RpcServer) : RpcServer :=
  with_managers (MkRpcManagers (rm_policies (rs_managers s)) (Some r) (rm_multisig (rs_managers s)) (rm_recovery (rs_managers s)) (rm_recurring (rs_managers s))) s.
Definition with_multisig_manager (m : MultiSigManager) (s : RpcServer) : RpcServer :=
  with_managers (MkRpcManagers (rm_policies (rs_managers s)) (rm_wallets (rs_managers s)) (Some m) (rm_recovery (rs_managers s)) (rm_recurring (rs_managers s))) s.
Definition with_social_recovery_manager (m : SocialRecoveryManager) (s : RpcServer) : RpcServer :=
  with_managers (MkRpcManagers (rm_policies (rs_managers s)) (rm_wallets (rs_managers s)) (rm_multisig (rs_managers s)) (Some m) (rm_recurring (rs_managers s))) s.
(** The server has its own manager of recurring payments, which no setter sets. *)
Definition set_server_recurring (m : Recurring.Manager) (s : RpcServer) : RpcServer :=
  with_managers (MkRpcManagers (rm_policies (rs_managers s)) (rm_wallets (rs_managers s)) (rm_multisig (rs_managers s)) (rm_recovery (rs_managers s)) (Some m)) s.

Definition make_server (n : Node) (chain_id : u64) (limiter : option RateLimiter) (shards : bool) : RpcServer :=
  MkServer (MkRpcConfig None false chain_id address_zero) (MkRpcLimits limiter None None None) (MkRpcManagers None None None None None)
    n false None shards ∅ 0 0 0 None.
Definition with_chain_id (n : Node) (chain_id : u64) : RpcServer := make_server n chain_id None false.
Definition new_with_chain_id (random : list u8) (n : Node) (chain_id : u64) : RpcServer :=
  set_api_key (generate_random_api_key random) (with_chain_id n chain_id).
Definition rpc_new (random : list u8) (n : Node) : RpcServer := new_with_chain_id random n DEFAULT_CHAIN_ID.
Definition without_auth (n : Node) : RpcServer := with_chain_id n DEFAULT_CHAIN_ID.
Definition without_auth_with_chain_id (n : Node) (chain_id : u64) : RpcServer := with_chain_id n chain_id.
Definition with_auth (random : list u8) (n : Node) (key : string) : RpcServer := set_api_key key (rpc_new random n).
Definition with_chain_id_and_auth (n : Node) (chain_id : u64) (key : string) : RpcServer := set_api_key key (with_chain_id n chain_id).
Definition with_chain_id_and_rate_limit (now : Z) (n : Node) (chain_id : u64) (max : u32) (rate : f64) : RpcServer :=
  make_server n chain_id (Some (limiter_new max rate now)) false.
Definition with_rate_limit (now : Z) (n : Node) (max : u32) (rate : f64) : RpcServer :=
  with_chain_id_and_rate_limit now n DEFAULT_CHAIN_ID max rate.
Definition with_rate_limit_and_auth (now : Z) (n : Node) (max : u32) (rate : f64) (key : string) : RpcServer :=
  set_api_key key (with_rate_limit now n max rate).
Definition with_chain_id_and_sharding (n : Node) (chain_id : u64) : RpcServer := make_server n chain_id None true.
Definition with_sharding (n : Node) : RpcServer := with_chain_id_and_sharding n DEFAULT_CHAIN_ID.
Definition without_auth_with_chain_id_and_sharding (n : Node) (chain_id : u64) : RpcServer := with_chain_id_and_sharding n chain_id.
Definition with_chain_id_rate_limit_and_sharding (now : Z) (n : Node) (chain_id : u64) (max : u32) (rate : f64) : RpcServer :=
  make_server n chain_id (Some (limiter_new max rate now)) true.
Definition with_rate_limit_and_sharding (now : Z) (n : Node) (max : u32) (rate : f64) : RpcServer :=
  with_chain_id_rate_limit_and_sharding now n 1297303639 max rate.
Definition with_rate_limit_sharding_and_auth (now : Z) (n : Node) (max : u32) (rate : f64) (key : string) : RpcServer :=
  set_api_key key (with_rate_limit_and_sharding now n max rate).
Definition with_security_hardening (random : list u8) (n : Node) (c : SecurityConfig) : RpcServer :=
  set_security_hardening (hardening_new c) (rpc_new random n).

(** The part of [NodeConfig] the server depends on, and the server a node
    serves requests with. *)
Record NodeRpcConfig := MkNodeRpc {
  nc_chain_id : u64;
  nc_rpc_no_auth : bool;
  nc_rpc_api_key : option string;
  nc_allow_unsigned_eth_send : bool;
  nc_miner_address : Address;
  nc_rpc_rate_limit : u32;
  nc_rpc_burst_size : u32 }.
Definition node_rpc_server (random : list u8) (c : NodeRpcConfig) (cx : Ctx) (policies : SecurityPolicyManager) (shards : bool)
    (n : Node) : RpcServer :=
  let s :=
    if nc_rpc_no_auth c then
      if shards then without_auth_with_chain_id_and_sharding n (nc_chain_id c) else without_auth_with_chain_id n (nc_chain_id c)
    else if shards then with_chain_id_and_sharding n (nc_chain_id c) else new_with_chain_id random n (nc_chain_id c) in
  let s := if nc_rpc_no_auth c then s else match nc_rpc_api_key c with Some key => set_api_key key s | None => s end in
  let s := set_miner_address (nc_miner_address c) (set_allow_unsigned_eth_send (nc_allow_unsigned_eth_send c) s) in
  let s := set_policy_manager policies (set_network_manager cx (set_mining_manager s)) in
  set_per_ip_rate_limiter (per_ip_new (nc_rpc_burst_size c) (f_div (f_of_Z (nc_rpc_rate_limit c)) (f_of_Z 60))) s.

(** ** Access *)

(** [Err(JsonRpcError { .. })] *)
Definition refuse {A} (c : Z) (msg : string) : RM A := fail (Failed (rpc_error c msg)).
Definition need {A} (r : RpcResult A) : RM A := se_read (λ _, map_err Failed r).
Definition need_some {A} (o : option A) (c : Z) (msg : string) : RM A := need (ok_or (rpc_error c msg) o).
(** An error of the chain, reported with the given text. *)
Definition chain_failure (c : Z) (msg : string) (e : BlockchainError) : Failure :=
  match e with
  | Panic m => Panicked m
  | OutOfFuel => Panicked "out of fuel"
  | _ => Failed (rpc_error c msg)
  end.
(** An operation that returns no error of its own. *)
Definition query {A} (f : Blockchain → result BlockchainError A) : RM A :=
  λ s, (map_err (chain_failure RPC_INTERNAL_ERROR "unreachable") (f (rs_chain s)), s).
Definition on_node {A} (c : Z) (msg : string) (m : SE Node BlockchainError A) : RM A :=
  zoom rs_node with_node (se_map_err (chain_failure c msg) m).
Definition on_chain {A} (c : Z) (msg : string) (m : BM A) : RM A := on_node c msg (zoom n_chain set_node_chain m).

Definition acquire_blockchain_read (env : Env) : RM unit :=
  if e_busy env then refuse (-32000) "Node busy (mining in progress), please retry" else mret tt.

Definition requires_auth (s : RpcServer) (method : string) : bool :=
  match api_key_hash (rs_config s) with None => false | Some _ => negb (is_public_method method) end.
Definition verify_api_key (s : RpcServer) (header : option string) : bool :=
  match api_key_hash (rs_config s) with
  | None => true
  | Some stored => match header with None => false | Some key => constant_time_eq (hash_api_key key) stored end
  end.

(** ** What a request has to pass *)

(** [if let Some(ref hardening) = self.security_hardening { .. }] *)
Definition with_hardening (f : SecurityHardening → SecurityHardening) (s : RpcServer) : RpcServer :=
  match security_hardening (rs_limits s) with Some h => set_security_hardening (f h) s | None => s end.

Section Guards.
Context (env : Env) (req : JsonRpcRequest) (key : option string) (ip : option IpAddr).

Definition guard_ip : RM unit := λ s,
  match ip, security_hardening (rs_limits s) with
  | Some a, Some h =>
      let '(r, h') := check_ip a (e_clock env) h in
      match r with
      | Err Blacklisted => refuse (-32003) "Access denied: IP is blacklisted" (set_security_hardening h' s)
      | Err Banned => refuse (-32004) "Access denied: IP is temporarily banned" (set_security_hardening h' s)
      | Err RateLimitExceeded =>
          refuse (-32005) "Rate limit exceeded" (set_security_hardening (record_failed_request a (e_clock env) h') s)
      | _ => (Ok tt, set_security_hardening h' s)
      end
  | _, _ => (Ok tt, s)
  end.
Definition request_size : nat :=
  (String.length (rq_method req) + match rq_params req with Some p => json_len p | None => 0 end)%nat.
Definition guard_size : RM unit := λ s,
  match security_hardening (rs_limits s) with
  | Some h =>
      match check_request_size h request_size with
      | Err _ =>
          let s := match ip with Some a => set_security_hardening (record_invalid_request a (e_clock env) h) s | None => s end in
          refuse (-32600) "Request too large" s
      | Ok _ => (Ok tt, s)
      end
  | None => (Ok tt, s)
  end.
Definition guard_auth : RM unit := λ s,
  if requires_auth s (rq_method req) && negb (verify_api_key s key) then
    let s := match ip with Some a => with_hardening (record_failed_request a (e_clock env)) s | None => s end in
    (Err (Failed (MkRpcError (-32001) "Unauthorized: Invalid or missing API key"
                    (Some (VString "Provide API key via X-API-Key header")))), s)
  else (Ok tt, s).
Definition guard_rate : RM unit := λ s,
  let l := rs_limits s in
  let '(ok, l') :=
    match per_ip_rate_limiter l, ip with
    | Some p, Some a =>
        let '(ok, p') := ip_try_acquire a (e_now env) p in
        (ok, MkRpcLimits (rate_limiter l) (Some p') (tx_submission_rate_limiter l) (security_hardening l))
    | _, _ =>
        match rate_limiter l with
        | Some g =>
            let '(ok, g') := try_acquire (e_now env) g in
            (ok, MkRpcLimits (Some g') (per_ip_rate_limiter l) (tx_submission_rate_limiter l) (security_hardening l))
        | None => (true, l)
        end
    end in
  if ok then (Ok tt, with_limits l' s) else refuse (-32005) "Rate limit exceeded" (with_limits l' s).
Definition is_submission (m : string) : bool :=
  bool_decide (m ∈ ["eth_sendRawTransaction"; "irondag_sendRawTransaction"]%string).
Definition guard_submission : RM unit := λ s,
  let l := rs_limits s in
  match (if is_submission (rq_method req) then tx_submission_rate_limiter l else None), ip with
  | Some p, Some a =>
      let '(ok, p') := ip_try_acquire a (e_now env) p in
      let s := with_limits (MkRpcLimits (rate_limiter l) (per_ip_rate_limiter l) (Some p') (security_hardening l)) s in
      if ok then (Ok tt, s) else refuse (-32005) "Transaction submission rate limit exceeded" s
  | _, _ => (Ok tt, s)
  end.
Definition guard_version : RM unit :=
  if bool_decide (rq_jsonrpc req = "2.0"%string) then mret tt else refuse (-32600) "Invalid Request".

Definition guards : RM unit :=
  _ ← guard_ip; _ ← guard_size; _ ← guard_auth; _ ← guard_rate; _ ← guard_submission; guard_version.
End Guards.

(** ** Batches, timeouts and sizes *)

Definition check_batch_limit (batch : list JsonRpcRequest) : RpcResult unit :=
  if (RPC_MAX_BATCH_SIZE <? length batch)%nat
  then Err (MkRpcError RPC_INVALID_REQUEST "Batch too large, maximum 100 requests"
              (Some (VObject [("received", vnat (length batch)); ("max", vnat RPC_MAX_BATCH_SIZE)])))
  else Ok tt.
Definition error_response (e : JsonRpcError) (id : option Value) : JsonRpcResponse := MkResp "2.0" None (Some e) id.
Definition timeout_secs (m : string) : u64 := if is_read_method m then RPC_READ_TIMEOUT_SECS else RPC_DEFAULT_TIMEOUT_SECS.
(** [#[derive(Serialize)]] with [skip_serializing_if] *)
Definition error_value (e : JsonRpcError) : Value :=
  VObject ([("code", if code e <? 0 then VNumber (NegInt (code e)) else vint (code e)); ("message", VString (message e))]
           ++ match err_data e with Some d => [("data", d)] | None => [] end).
Definition response_value (r : JsonRpcResponse) : Value :=
  VObject ([("jsonrpc", VString (rp_jsonrpc r))]
           ++ match rp_result r with Some v => [("result", v)] | None => [] end
           ++ match rp_error r with Some e => [("error", error_value e)] | None => [] end
           ++ [("id", vopt id (rp_id r))]).
(** Values of these types always serialize. *)
Definition check_response_size (r : JsonRpcResponse) (method : string) : RpcResult (list u8) :=
  let bytes := json_bytes (response_value r) in
  if (RPC_MAX_RESPONSE_SIZE <? length bytes)%nat
  then Err (MkRpcError (-32000) "Response too large"
              (Some (VObject [("method", VString method); ("size_bytes", vnat (length bytes));
                              ("max_size_bytes", vnat RPC_MAX_RESPONSE_SIZE)])))
  else Ok bytes.
Definition serialize_response_checked (r : JsonRpcResponse) (method : string) : list u8 :=
  match check_response_size r method with
  | Ok bytes => bytes
  | Err e => json_bytes (response_value (error_response e None))
  end.
Definition get_health_status (s : RpcServer) (mining : bool) (version : string) : Value :=
  VObject [("status", VString "ok"); ("block_height", vint (cached_latest_block_number (rs_chain s)));
           ("peer_count", vint (match rs_network s with Some _ => t_count (n_tables (rs_node s)) | None => 0 end));
           ("mining", VBool (rs_mining s && mining)); ("version", VString version)].
End Server.
