(* ===== verification/RpcEth.v ===== *)
(** * RpcEth: Ethereum methods, transaction submission and the faucet

    Models the Ethereum methods of [irondag-blockchain/src/rpc.rs] that read
    accounts and blocks or submit transactions, [irondag_sendRawTransaction],
    the faucet, and the conversion of blocks and transactions to JSON.
    [recover_ecdsa_address] is that of [blockchain/block.rs].

    [Rlp] is the decoder of [alloy-rlp] for [Vec<u8>], which the crate decodes
    as a list of integers: it returns the vector and the bytes left, and of a
    text that is one whole list it leaves nothing.  [TxJson] is
    [serde_json::from_value::<Transaction>]; [Layout] holds what
    [std::mem::size_of] returns for the two types the statistics weigh. *)

From S2P Require Import Prelude Types Block Pow Error.
From S2P Require Import Storage DagStorage GhostDag.
From S2P Require Import Sponsorship PrivacyPool Recurring Governance Wallet Verkle.
From S2P Require Import Ledger BlockIndex Execution AccountFrame Chain.
From S2P Require Import Economics Messaging Sharding Float64 Ordering TxPool.
From S2P Require Import SyncPool SyncProtocol RateLimit PeerScore Wire PeerTables Gossip PeerLoop.
From S2P Require Import Security Multisig Recovery Hardening Json RpcServer.

(** One RLP list: a header and exactly its payload. *)
Definition be_num (bs : list u8) : Z := foldl (λ n b, 256 * n + b) 0 bs.
Definition is_rlp_list (bs : list u8) : bool :=
  match bs with
  | [] => false
  | b :: rest =>
      if (192 <=? b) && (b <=? 247) then Z.of_nat (length rest) =? b - 192
      else if (248 <=? b) && (b <=? 255) then
        let k := Z.to_nat (b - 247) in
        (k <=? length rest)%nat && (Z.of_nat (length rest - k) =? be_num (take k rest))
      else false
  end.
Class Rlp := {
  rlp_decode_vec : list u8 → option (list u8 * list u8);
  rlp_decode_nil : rlp_decode_vec [] = None;
  rlp_decode_list : ∀ bs v rest, is_rlp_list bs = true → rlp_decode_vec bs = Some (v, rest) → rest = [] }.
Class Layout := { size_of_block : usize; size_of_transaction : usize }.
Class TxJson := tx_of_json : Value → option Transaction.

Section Eth.
Context `{Hex, Keccak, Blake3, Crypto, Evm, HashIter, SliceSearch, UnstableSort, SipHash, MessageCodec, AddrText}.
Context `{Codec Block, Codec (list Hash), Codec TxReceipt, Codec CrossShardMessage, JsonText, Rlp, TxJson, Layout}.
Abbreviation RM := (SE RpcServer Failure).

(** ** Answers *)

Definition hex_text (bs : list u8) : Value := VString ("0x" +:+ hex_encode bs).
Definition hash_value (h : Hash) : Value := hex_text (hash_bytes h).
Definition addr_value (a : Address) : Value := hex_text (addr_bytes a).
Definition num_value (n : Z) : Value := VString (format_hex n).

Definition EMPTY_TRIE_ROOT : string := "0x56e81f171bcc55a6ff8345e692c0f86e5b48e01b996cadc001622fb5e363b421".
Definition compute_transactions_root (txs : list Transaction) : Value :=
  match txs with
  | [] => VString EMPTY_TRIE_ROOT
  | _ => hash_value (keccak256 (concat ((λ t, hash_bytes (tx_hash t)) <$> txs)))
  end.
Definition stream_text (s : StreamType) : string := match s with StreamA => "A" | StreamB => "B" | StreamC => "C" end.
Definition tx_gas (t : Transaction) : u64 := match data t with [] => 21000 | _ => gas_limit t end.
Definition block_gas_used (b : Block) : u64 := foldl (λ n t, add64 n (tx_gas t)) 0 (transactions b).
Definition block_json_size (b : Block) : Z := 512 + foldr (λ t n, 200 + Z.of_nat (length (data t)) + n) 0 (transactions b).
Definition zeros (n : nat) : string := String.concat "" (replicate n "0"%string).
Definition block_to_json_with_shard (block : option Block) (shard_id : option nat) (miner : Address) : Value :=
  match block with
  | None => VNull
  | Some b =>
      let h := header b in
      VObject ([("number", num_value (block_number h)); ("hash", hash_value (block_hash b));
        ("parentHash", match parent_hashes h with p :: _ => hash_value p | [] => VString ("0x" +:+ zeros 64) end);
        ("parentHashes", VArray (hash_value <$> parent_hashes h)); ("streamType", VString (stream_text (stream_type h)));
        ("nonce", VString "0x0000000000000000");
        ("sha3Uncles", VString "0x1dcc4de8dec75d7aab85b567b6ccd41ad312451b948a7413f0a142fd40d49347");
        ("logsBloom", VString ("0x" +:+ zeros 512)); ("transactionsRoot", compute_transactions_root (transactions b));
        ("stateRoot", hash_value (keccak256 (hash_bytes (block_hash b))));
        ("receiptsRoot", match transactions b with
                         | [] => VString EMPTY_TRIE_ROOT
                         | _ => hash_value (keccak256 (hash_bytes (block_hash b) ++ bytes_of_string "receipts"))
                         end);
        ("miner", addr_value miner); ("difficulty", VString "0x0"); ("totalDifficulty", VString "0x0"); ("extraData", VString "0x");
        ("size", num_value (block_json_size b)); ("gasLimit", VString "0x1fffffffffffff"); ("gasUsed", num_value (block_gas_used b));
        ("timestamp", num_value (timestamp h)); ("transactions", VArray ((λ t, hash_value (tx_hash t)) <$> transactions b));
        ("uncles", VArray []); ("transactionCount", vnat (length (transactions b)))]
        ++ match shard_id with Some i => [("shardId", vnat i)] | None => [] end)
  end.
Definition block_to_json (block : option Block) (miner : Address) : Value := block_to_json_with_shard block None miner.
Definition tx_to_json_with_shard (t : Transaction) (n : u64) (shards : option (nat * nat)) : Value :=
  VObject ([("hash", hash_value (tx_hash t)); ("from", addr_value (from t)); ("to", addr_value (to t)); ("value", num_value (value t));
    ("gas", num_value (gas_limit t)); ("gasPrice", num_value (fee t)); ("nonce", num_value (nonce t)); ("blockNumber", num_value n);
    ("input", hex_text (data t))]
    ++ match shards with
       | Some (i, j) => [("fromShard", vnat i); ("toShard", vnat j); ("isCrossShard", VBool (negb (i =? j)%nat))]
       | None => []
       end
    ++ match execute_at_block t with Some k => [("executeAtBlock", num_value k)] | None => [] end
    ++ match execute_at_timestamp t with Some k => [("executeAtTimestamp", num_value k)] | None => [] end
    ++ match execute_at_block t, execute_at_timestamp t with None, None => [] | _, _ => [("isTimeLocked", VBool true)] end
    ++ match sponsor t with Some a => [("sponsor", addr_value a); ("isGasless", VBool true)] | None => [] end).
Definition tx_to_json (t : Transaction) (n : u64) : Value := tx_to_json_with_shard t n None.

(** ** Accounts and blocks *)

Definition cached_balance (s : RpcServer) (a : Address) : u128 :=
  match accounts_cache s !! a with Some acc => balance acc | None => 0 end.
Definition cached_nonce (s : RpcServer) (a : Address) : u64 :=
  match accounts_cache s !! a with Some acc => acc_nonce acc | None => 0 end.

Context (env : Env).

(** [params.ok_or_else(missing_params_error)?.as_array().ok_or_else(..)?] *)
Definition array_params (params : option Value) : RpcResult (list Value) :=
  p ← ok_or missing_params_error params;
  ok_or missing_params_error (as_array p).
(** [params.as_array().and_then(|arr| arr.get(0)).and_then(|v| v.as_str())] *)
Definition first_str (params : option Value) (missing : JsonRpcError) : RpcResult string :=
  p ← ok_or missing_params_error params;
  ok_or missing (as_array p ≫= λ arr, extract_str_param arr 0).

Definition eth_get_balance (params : option Value) : RM Value :=
  arr ← need (array_params params);
  address ← need (extract_address_param arr 0);
  s ← se_get;
  mret (num_value (cached_balance s address)).
Definition eth_get_transaction_count (params : option Value) : RM Value :=
  arr ← need (array_params params);
  address ← need (extract_address_param arr 0);
  s ← se_get;
  mret (num_value (cached_nonce s address)).
Definition eth_block_number : RM Value :=
  s ← se_get; mret (num_value (cached_latest_block_number (rs_chain s))).

(** [blockchain.get_finalized_block_number()] *)
Definition chain_finalized (c : Blockchain) : result BlockchainError (option u64) :=
  match ghostdag c with
  | Some g => get_finalized_block_number (database (ledger c), g)
  | None => Ok None
  end.
(** An error of the consensus engine is treated as no block. *)
Definition finalized_number (c : Blockchain) : result BlockchainError (option u64) :=
  match chain_finalized c with
  | Ok o => Ok o
  | Err (Panic m) => Err (Panic m)
  | Err OutOfFuel => Err OutOfFuel
  | Err _ => Ok None
  end.
Definition is_final_tag (t : string) : bool := bool_decide (t = "finalized" ∨ t = "safe")%string.
Definition eth_get_block_by_number (params : option Value) : RM Value :=
  text ← need (first_str params (invalid_param_error "block number"));
  _ ← acquire_blockchain_read env;
  block ← (if is_pending_tag text then query (λ c, Ok (get_latest_block (blocks_data c)))
           else if is_final_tag text then
             o ← query finalized_number;
             match o with Some n => query (λ c, get_block_by_number (blocks_data c) n) | None => mret None end
           else n ← need (parse_hex_number text); query (λ c, get_block_by_number (blocks_data c) n));
  s ← se_get;
  mret (block_to_json block (rpc_miner_address (rs_config s))).
Definition eth_get_block_by_hash (params : option Value) : RM Value :=
  arr ← need (array_params params);
  h ← need (extract_hash_param arr 0);
  _ ← acquire_blockchain_read env;
  block ← query (λ c, get_block_by_hash c h);
  s ← se_get;
  mret (block_to_json block (rpc_miner_address (rs_config s))).

(** [shard_manager.get_transaction_shards(&tx)] *)
Definition get_transaction_shards (t : Transaction) : SE ShardManager Failure (nat * nat) :=
  from_shard ← get_shard_for_address (from t);
  to_shard ← (if bool_decide (to t = address_zero) then mret from_shard else get_shard_for_address (to t));
  mret (from_shard, to_shard).
Definition tx_shards (t : Transaction) : RM (option (nat * nat)) := λ s,
  match (if rs_shards s then shard_manager (n_pool (rs_node s)) else None) with
  | Some sm =>
      let '(r, sm') := get_transaction_shards t sm in
      (Some <$> r, with_node (set_node_pool (set_shards (Some sm') (n_pool (rs_node s))) (rs_node s)) s)
  | None => (Ok None, s)
  end.
Definition eth_get_transaction_by_hash (params : option Value) : RM Value :=
  text ← need (first_str params (invalid_param_error "hash"));
  h ← need (parse_hash text);
  _ ← acquire_blockchain_read env;
  found ← query (λ c, get_transaction_by_hash (blocks_data c) h);
  match found with
  | Some (b, t, _) => shards ← tx_shards t; mret (tx_to_json_with_shard t (block_number (header b)) shards)
  | None => mret VNull
  end.
Definition eth_get_block_transaction_count_by_number (params : option Value) : RM Value :=
  text ← need (first_str params (invalid_param_error "block number"));
  _ ← acquire_blockchain_read env;
  n ← (if is_pending_tag text then query (λ c, Ok (Z.of_nat (length (blocks (blocks_data c)) - 1)))
       else if is_final_tag text then o ← query finalized_number; mret (default 0 o)
       else need (parse_hex_number text));
  block ← query (λ c, get_block_by_number (blocks_data c) n);
  mret (num_value (match block with Some b => Z.of_nat (length (transactions b)) | None => 0 end)).
Definition net_peer_count : RM Value :=
  s ← se_get;
  mret (match rs_network s with Some _ => num_value (t_count (n_tables (rs_node s))) | None => VString "0x0" end).
Definition eth_gas_price : RM Value :=
  _ ← acquire_blockchain_read env;
  latest ← query (λ c, Ok (get_latest_block (blocks_data c)));
  mret (num_value (add128 (match latest with Some b => base_fee_per_gas (header b) | None => BASE_FEE_INITIAL end) 100000000)).
Definition eth_max_priority_fee_per_gas : RM Value := mret (num_value 100000000).

(** *** Statistics *)

Record DAGStats := MkStats {
  total_blocks : usize; blue_blocks : usize; red_blocks : usize; total_transactions : usize;
  total_size_bytes : usize; avg_block_size : usize; avg_txs_per_block : f64 }.
(** Blue and red blocks are those of the consensus engine; the rest is counted
    on the chain. *)
Definition get_dag_stats (c : Blockchain) : DAGStats :=
  let total := Z.of_nat (length (blocks (blocks_data c))) in
  let txs := cached_total_tx_count c in
  let size := (total * size_of_block + txs * size_of_transaction) mod (u64_max + 1) in
  let '(blue, red) := match ghostdag c with Some g => let '(_, b, r, _) := GhostDag.get_stats g in (b, r) | None => (0, 0) end in
  MkStats total blue red txs size (if total =? 0 then 0 else size / total)
    (if total =? 0 then f_zero else f_div (f_of_Z txs) (f_of_Z total)).
(** The blocks of the ordering that can be read and are recent. *)
Definition recent_blocks (st : DagState) (now duration : u64) : list Block :=
  omap (λ h, match get_block st h with
             | Ok (Some b) => if sat_sub now (timestamp (header b)) <=? duration then Some b else None
             | _ => None
             end) (ordering st.2).
Definition dag_tps (st : DagState) (now duration : u64) : f64 :=
  match recent_blocks st now duration with
  | [] => f_zero
  | b :: bs =>
      let ts := (λ b, timestamp (header b)) <$> bs in
      let t := timestamp (header b) in
      let span := foldl Z.max t ts - foldl Z.min t ts in
      let txs := foldr (λ b n, Z.of_nat (length (transactions b)) + n) 0 (b :: bs) in
      if span =? 0 then f_zero else f_div (f_of_Z txs) (f_of_Z span)
  end.
Definition get_tps (c : Blockchain) (now duration : u64) : f64 :=
  match ghostdag c with Some g => dag_tps (database (ledger c), g) now duration | None => f_zero end.

Definition AGGRESSIVE_CACHE_TTL_SECS : u64 := 10.
Definition stats_value (d : DAGStats) : Value :=
  VObject [("total_blocks", vint (total_blocks d)); ("blue_blocks", vint (blue_blocks d)); ("red_blocks", vint (red_blocks d));
           ("total_transactions", vint (total_transactions d)); ("total_size_bytes", vint (total_size_bytes d));
           ("avg_block_size", vint (avg_block_size d)); ("avg_txs_per_block", VNumber (NFloat (avg_txs_per_block d)))].
Definition fresh_answer (s : RpcServer) : option Value :=
  '(v, at_, _) ← response_cache s;
  if as_secs (duration_since (e_now env) at_) <? AGGRESSIVE_CACHE_TTL_SECS then Some v else None.
Definition irondag_get_dag_stats : RM Value :=
  s ← se_get;
  match fresh_answer s with
  | Some v => mret v
  | None =>
      _ ← acquire_blockchain_read env;
      let v := stats_value (get_dag_stats (rs_chain s)) in
      _ ← se_mod (with_cache (Some (v, e_now env, cached_latest_block_number (rs_chain s))));
      mret v
  end.
Definition tps_window (params : option Value) : u64 :=
  match (p ← params; arr ← as_array p; arr !! 0%nat) with
  | Some v => default 60 (match as_str v ≫= λ t, ok (parse_hex_number t) with Some n => Some n | None => as_u64 v end)
  | None => 60
  end.
Definition irondag_get_tps (params : option Value) : RM Value :=
  _ ← acquire_blockchain_read env;
  s ← se_get;
  mret (VString (format_two (get_tps (rs_chain s) (e_wall env) (tps_window params)))).

(** [s.to_uppercase()] on the letters that matter. *)
Definition to_upper (c : Ascii.ascii) : Ascii.ascii :=
  let n := Ascii.nat_of_ascii c in
  if ((97 <=? n) && (n <=? 122))%nat then Ascii.ascii_of_nat (n - 32) else c.
Fixpoint to_uppercase (s : string) : string :=
  match s with EmptyString => EmptyString | String c s' => String (to_upper c) (to_uppercase s') end.
Definition stream_params (params : option Value) : string * nat :=
  match params ≫= as_array with
  | Some (v :: c :: _) =>
      (to_uppercase (default "A"%string (as_str v)), Z.to_nat (Z.min (default 10 (as_u64 c)) 100))
  | Some [v] => (to_uppercase (default "A"%string (as_str v)), 10%nat)
  | _ => ("A"%string, 10%nat)
  end.
Definition irondag_get_blocks_by_stream (params : option Value) : RM Value :=
  let '(filter_, count) := stream_params params in
  if negb (bool_decide (filter_ ∈ ["A"; "B"; "C"]%string)) then refuse (-32602) "Invalid stream type. Must be A, B, or C" else
  _ ← acquire_blockchain_read env;
  s ← se_get;
  let matching := List.filter (λ b, bool_decide (stream_text (stream_type (header b)) = filter_)) (blocks (blocks_data (rs_chain s))) in
  let latest := take count (sort_by_key (λ b, - block_number (header b)) matching) in
  mret (VArray ((λ b, block_to_json_with_shard (Some b) None (rpc_miner_address (rs_config s))) <$> latest)).
Definition count_stream (t : StreamType) (l : list Block) : nat := length (List.filter (λ b, bool_decide (stream_type (header b) = t)) l).
Definition irondag_get_stream_counts : RM Value :=
  _ ← acquire_blockchain_read env;
  s ← se_get;
  let l := blocks (blocks_data (rs_chain s)) in
  mret (VObject [("A", vnat (count_stream StreamA l)); ("B", vnat (count_stream StreamB l)); ("C", vnat (count_stream StreamC l))]).
Definition irondag_get_blue_score (params : option Value) : RM Value :=
  arr ← need (array_params params);
  h ← need (extract_hash_param arr 0);
  _ ← acquire_blockchain_read env;
  s ← se_get;
  mret (num_value (match ghostdag (rs_chain s) with Some g => default 0 (blue_score g !! h) | None => 0 end)).

(** ** Submitting a transaction *)

Definition set_tx_from (a : Address) (t : Transaction) : Transaction :=
  MkTx a (to t) (value t) (fee t) (nonce t) (data t) (gas_limit t) (tx_hash t)
    (max_fee_per_gas t) (max_priority_fee_per_gas t) (signature t) (public_key t)
    (pq_signature t) (ecdsa_signature t) (chain_id t) (execute_at_block t)
    (execute_at_timestamp t) (sponsor t) (multisig_signatures t).
Definition set_tx_ecdsa (e : EcdsaSignature) (t : Transaction) : Transaction :=
  MkTx (from t) (to t) (value t) (fee t) (nonce t) (data t) (gas_limit t) (tx_hash t)
    (max_fee_per_gas t) (max_priority_fee_per_gas t) (signature t) (public_key t)
    (pq_signature t) (Some e) (chain_id t) (execute_at_block t)
    (execute_at_timestamp t) (sponsor t) (multisig_signatures t).
(** [tx.chain_id = c], without a new hash. *)
Definition set_tx_chain (c : option u64) (t : Transaction) : Transaction :=
  MkTx (from t) (to t) (value t) (fee t) (nonce t) (data t) (gas_limit t) (tx_hash t)
    (max_fee_per_gas t) (max_priority_fee_per_gas t) (signature t) (public_key t)
    (pq_signature t) (ecdsa_signature t) c (execute_at_block t)
    (execute_at_timestamp t) (sponsor t) (multisig_signatures t).

(** [if !tx.verify_signature(self.chain_id).unwrap_or(false) { .. }] *)
Definition check_signature (t : Transaction) (msg : string) : RM unit := λ s,
  match verify_signature t (rpc_chain_id (rs_config s)) with
  | SigOk true => (Ok tt, s)
  | SigPanic => (Err (Panicked "attempt to divide by zero"), s)
  | _ => refuse (-32000) msg s
  end.
Definition submit (t : Transaction) : RM unit := λ s,
  if rs_mining s
  then on_node (-32603) "Failed to add transaction" (zoom n_pool set_node_pool (pool_add_transaction (e_now env) (e_wall env) t)) s
  else refuse (-32603) "Mining manager not available" s.
(** [let _ = network_manager.broadcast_transaction(&tx).await] *)
Definition announce (t : Transaction) : RM unit := λ s,
  match rs_network s with
  | Some cx => (Ok tt, with_node (broadcast_transaction (e_opened env) (e_now env) (e_wall env) (e_order env) cx t (rs_node s)).2 s)
  | None => (Ok tt, s)
  end.
Definition make_tx (from to : Address) (value fee : u128) (nonce : u64) (data : list u8) (gas_limit : u64) : Transaction :=
  match data with [] => tx_new from to value fee nonce | _ => tx_with_data from to value fee nonce data gas_limit end.
(** [gas_price.checked_mul(gas_limit)] *)
Definition checked_fee (gas_price : u128) (gas_limit : u64) : RpcResult u128 :=
  ok_or (rpc_error (-32000) "Gas price * gas limit overflow")
    (if gas_price * gas_limit <=? u128_max then Some (gas_price * gas_limit) else None).
Definition total_cost_of (value fee : u128) : RpcResult u128 :=
  ok_or (rpc_error (-32000) "Transaction value + fee overflow") (checked_add128 value fee).

(** [obj.get(k).and_then(|v| v.as_str())] *)
Definition field_str (k : string) (obj : list (string * Value)) : option string := obj_get k obj ≫= as_str.

Definition eth_send_transaction (params : option Value) : RM Value :=
  p ← need (ok_or missing_params_error params);
  obj ← need (ok_or (invalid_param_error "transaction") (as_array p ≫= λ arr, arr !! 0%nat ≫= as_object));
  s ← se_get;
  let sig := (r ← field_str "r" obj; s ← field_str "s" obj; v ← obj_get "v" obj ≫= as_u64; Some (r, s, v)) in
  _ ← (if negb (allow_unsigned_eth_send (rs_config s)) && bool_decide (sig = None)
       then refuse (-32602) "Unsigned eth_sendTransaction is disabled in production. Use eth_sendRawTransaction with a signed payload."
       else mret tt);
  from_str ← need (ok_or (missing_param_error "from") (field_str "from" obj));
  from ← need (parse_address from_str);
  to ← need (parse_address (default "0x0000000000000000000000000000000000000000"%string (field_str "to" obj)));
  value ← need (parse_hex_u128 (default "0x0"%string (field_str "value" obj)));
  data ← need_some (decode_hex_text (default "0x"%string (field_str "data" obj))) (-32602) "Invalid data hex";
  gas_price ← need (parse_hex_u128 (default "0x4a817c800"%string
                (match obj_get "gasPrice" obj with Some v => as_str v | None => field_str "maxFeePerGas" obj end)));
  gas_limit ← need (parse_hex_number (default "0x5208"%string (field_str "gas" obj)));
  fee ← need (checked_fee gas_price gas_limit);
  nonce ← match field_str "nonce" obj with Some n => need (parse_hex_number n) | None => mret (cached_nonce s from) end;
  let tx := make_tx from to value fee nonce data gas_limit in
  total_cost ← need (total_cost_of value fee);
  if cached_balance s from <? total_cost then refuse (-32000) "Insufficient balance" else
  match sig with
  | Some (r_str, s_str, v) =>
      r_bytes ← need_some (decode_hex_text r_str) (-32602) "Invalid r signature";
      s_bytes ← need_some (decode_hex_text s_str) (-32602) "Invalid s signature";
      if negb ((length r_bytes =? 32)%nat && (length s_bytes =? 32)%nat)
      then refuse (-32602) "Invalid signature: r and s must be 32 bytes each" else
      let tx := set_tx_ecdsa (MkEcdsa r_bytes s_bytes v) tx in
      _ ← check_signature tx "Invalid ECDSA signature";
      _ ← submit tx;
      mret (VObject [("hash", hash_value (tx_hash tx)); ("from", addr_value from); ("to", addr_value to); ("value", num_value value);
                     ("gas", num_value gas_limit); ("gasPrice", num_value gas_price); ("nonce", num_value nonce)])
  | None => refuse (-32602) "Missing signature (r, s, v). Metamask should provide these fields."
  end.

(** *** Raw transactions *)

(** [Err] is the division by zero of [fee / gas_limit]. *)
Definition recover_ecdsa_address (t : Transaction) (es : EcdsaSignature) : result string (option Address) :=
  let '(v_chain_id, recovery_id) := split_v (ecdsa_v es) in
  if 4 <=? recovery_id then Ok None else
  message_hash ← match option_or (chain_id t) v_chain_id with
                 | Some cid => ok_or "attempt to divide by zero"%string (ecdsa_message t (Some cid))
                 | None => Ok (tx_hash t)
                 end;
  Ok (match k256_recover (hash_bytes message_hash) (ecdsa_r es ++ ecdsa_s es) recovery_id with
      | Some (b0 :: pub_key) =>
          if (length (b0 :: pub_key) =? 65)%nat && (b0 =? 4) then Some (derive_eth_address pub_key) else None
      | _ => None
      end).

(** A field, and the bytes after it. *)
Definition decode_rlp_item (data : list u8) (field : string) : RpcResult (list u8 * list u8) :=
  ok_or (rpc_error (-32602) ("Invalid " +:+ field)) (rlp_decode_vec data).
(** [buf[n - len..].copy_from_slice(&bytes)], [from_be_bytes(buf)] *)
Definition decode_uint_from_bytes (width : nat) (data : list u8) (field : string) : RpcResult (Z * list u8) :=
  '(bytes, rest) ← decode_rlp_item data field;
  if (width <? length bytes)%nat then Err (rpc_error (-32602) (field +:+ " too large")) else Ok (be_num bytes, rest).
Definition decode_u64_from_bytes : list u8 → string → RpcResult (Z * list u8) := decode_uint_from_bytes 8.
Definition decode_u128_from_bytes : list u8 → string → RpcResult (Z * list u8) := decode_uint_from_bytes 16.

Definition split_type (raw : list u8) : u8 * list u8 :=
  match raw with
  | b :: rest => if b <=? 127 then (b, rest) else (0, raw)
  | [] => (0, raw)
  end.
(** Nonce, gas price and gas limit, and the bytes after them. *)
Definition decode_fees (tx_type : u8) (data : list u8) : RpcResult (u64 * u128 * u64 * list u8) :=
  if tx_type =? 2 then
    '(_, data) ← decode_u64_from_bytes data "chainId";
    '(nonce, data) ← decode_u64_from_bytes data "nonce";
    '(_, data) ← decode_u128_from_bytes data "maxPriorityFeePerGas";
    '(max_fee, data) ← decode_u128_from_bytes data "maxFeePerGas";
    '(gas_limit, data) ← decode_u64_from_bytes data "gasLimit";
    Ok (nonce, max_fee, gas_limit, data)
  else
    '(nonce, data) ← decode_u64_from_bytes data "nonce";
    '(gas_price, data) ← decode_u128_from_bytes data "gasPrice";
    '(gas_limit, data) ← decode_u64_from_bytes data "gasLimit";
    Ok (nonce, gas_price, gas_limit, data).
Definition decode_to (bytes : list u8) : RpcResult Address :=
  if (length bytes =? 0)%nat then Ok address_zero
  else if (length bytes =? 20)%nat then Ok (MkAddress bytes)
  else Err (rpc_error (-32602) "Invalid to address length").
(** [r[32 - r_bytes.len()..].copy_from_slice(&r_bytes)] *)
Definition pad_left (bytes : list u8) : list u8 := replicate (32 - length bytes) 0 ++ bytes.
Definition raw_chain_id (tx_type : u8) (v chain_id : u64) : RpcResult (option u64) :=
  if tx_type =? 2 then Ok (Some chain_id)
  else if 35 <=? v then
    if (v - 35) / 2 =? chain_id then Ok (Some chain_id)
    else Err (MkRpcError (-32000) "Invalid Chain ID"
                (Some (VObject [("expected_chain_id", vint chain_id); ("received_chain_id", vint ((v - 35) / 2));
                                ("hint", VString "Make sure MetaMask is connected to the correct network")])))
  else Ok None.

(** The transaction a raw text stands for, before its sender is known. *)
Definition decode_raw (raw : list u8) (chain_id : u64) : RpcResult (Transaction * EcdsaSignature) :=
  let '(tx_type, data) := split_type raw in
  '(nonce, gas_price, gas_limit, data) ← decode_fees tx_type data;
  '(to_bytes, data) ← decode_rlp_item data "to";
  to ← decode_to to_bytes;
  '(value, data) ← decode_u128_from_bytes data "value";
  '(tx_data, data) ← decode_rlp_item data "data";
  data ← (if tx_type =? 2 then snd <$> decode_rlp_item data "accessList" else Ok data);
  '(v, data) ← decode_u64_from_bytes data "yParity/v";
  '(r_bytes, data) ← decode_rlp_item data "r";
  '(s_bytes, data) ← decode_rlp_item data "s";
  if (32 <? length r_bytes)%nat || (32 <? length s_bytes)%nat
  then Err (rpc_error (-32602) "Invalid signature: r or s too long") else
  cid ← raw_chain_id tx_type v chain_id;
  fee ← checked_fee gas_price gas_limit;
  let sig := MkEcdsa (pad_left r_bytes) (pad_left s_bytes) v in
  Ok (set_tx_ecdsa sig (set_tx_chain cid (make_tx address_zero to value fee nonce tx_data gas_limit)), sig).

(** What both submission methods check of the sender. *)
Definition check_funds (t : Transaction) : RM unit := λ s,
  match total_cost_of (value t) (fee t) with
  | Err e => (Err (Failed e), s)
  | Ok total_cost =>
      if negb (nonce t =? cached_nonce s (from t)) then refuse (-32000) "Invalid nonce" s
      else if cached_balance s (from t) <? total_cost then refuse (-32000) "Insufficient balance" s
      else (Ok tt, s)
  end.

Definition eth_send_raw_transaction (params : option Value) : RM Value :=
  text ← need (first_str params (invalid_param_error "raw transaction"));
  raw ← need_some (decode_hex_text text) (-32602) "Invalid hex encoding";
  s ← se_get;
  '(tx, sig) ← need (decode_raw raw (rpc_chain_id (rs_config s)));
  recovered ← match recover_ecdsa_address tx sig with
              | Err m => fail (Panicked m)
              | Ok o => need_some o (-32000) "Invalid signature: could not recover sender address"
              end;
  let tx := set_tx_hash (keccak256 raw) (set_tx_from recovered tx) in
  _ ← check_signature tx "Invalid signature: verification failed";
  _ ← check_funds tx;
  _ ← submit tx;
  _ ← announce tx;
  mret (hash_value (tx_hash tx)).

(** The nonce is checked before the sum, which only changes which error is
    returned. *)
Definition check_funds_native (t : Transaction) : RM unit := λ s,
  if negb (nonce t =? cached_nonce s (from t)) then refuse (-32000) "Invalid nonce" s else check_funds t s.
Definition irondag_send_raw_transaction (params : option Value) : RM Value :=
  p ← need_some params (-32602) "Invalid params";
  v ← need_some (as_array p ≫= λ arr, arr !! 0%nat) (-32602) "Missing transaction parameter";
  tx ← need_some (tx_of_json v) (-32602) "Invalid transaction format";
  _ ← check_signature tx "Invalid transaction signature";
  _ ← check_funds_native tx;
  _ ← submit tx;
  mret (VObject [("hash", hash_value (tx_hash tx))]).

(** ** The faucet *)

Definition FAUCET_AMOUNT : u128 := 10 * 10 ^ 18.
Definition faucet_waiting (s : RpcServer) (a : Address) : bool :=
  match faucet_times s !! a with
  | Some last => duration_since (e_now env) last <? from_secs FAUCET_RATE_LIMIT_SECONDS
  | None => false
  end.
Definition credit_faucet (a : Address) : RM unit := λ s,
  match on_chain (-32603) "Failed to credit faucet balance"
          (b ← on_ledger (get_balance a); on_ledger (set_balance a (sat_add128 b FAUCET_AMOUNT))) s with
  | (Ok _, s) => (Ok tt, s)
  | (Err e, s) => (Err e, with_faucet (delete a (faucet_times s)) s)
  end.
Definition irondag_faucet (params : option Value) : RM Value :=
  p ← need_some params (-32602) "Invalid params: expected [address]";
  arr ← need_some (as_array p) (-32602) "Invalid params format: expected array";
  text ← need_some (extract_str_param arr 0) (-32602) "Missing recipient address";
  recipient ← need (parse_address text);
  s ← se_get;
  if faucet_waiting s recipient then refuse RPC_RATE_LIMITED "Faucet rate limit exceeded" else
  _ ← se_mod (λ s, with_faucet (<[recipient := e_now env]> (faucet_times s)) s);
  _ ← credit_faucet recipient;
  mret (VObject [("amount", VString (to_decimal FAUCET_AMOUNT)); ("recipient", VString text)]).
End Eth.
