(* ===== verification/RpcFeatures.v ===== *)
(** * RpcFeatures: the methods for payments, the pool, wallets and snapshots

    Models the methods of [irondag-blockchain/src/rpc.rs] for time-locked,
    sponsored and recurring transactions, the privacy pool, security policies,
    wallets, multi-signature payloads, social recovery and the restoring of a
    snapshot, on top of the components they call.

    [FeatureJson] is the [serde] conversion of schedules and policies.  A
    snapshot is read by [open_snapshot]: the resolution of the path, the test
    that it lies in the directory of snapshots, and [load_from_file]. *)

From S2P Require Import Prelude Types Block Pow Error.
From S2P Require Import Storage DagStorage GhostDag.
From S2P Require Import Sponsorship PrivacyPool Recurring Governance Wallet WalletFactory Verkle.
From S2P Require Import Ledger BlockIndex Execution AccountFrame Chain.
From S2P Require Import Economics Messaging Sharding Float64 Ordering TxPool.
From S2P Require Import SyncPool SyncProtocol RateLimit PeerScore Wire PeerTables Gossip PeerLoop.
From S2P Require Import Security Multisig Recovery Hardening Json RpcServer RpcEth.

Class FeatureJson := {
  schedule_of_json : Value → option Schedule;
  schedule_to_json : Schedule → Value;
  policy_of_json : Value → option SecurityPolicy;
  policy_to_json : SecurityPolicy → Value }.

(** Whole handlers run on one component of the server. *)
Section Features.
Context `{Hex, Keccak, Blake3, Crypto, Evm, HashIter, SliceSearch, UnstableSort, SipHash, MessageCodec, AddrText}.
Context `{Codec Block, Codec (list Hash), Codec TxReceipt, Codec CrossShardMessage, JsonText, Rlp, TxJson, ScheduleJson, FeatureJson}.
Abbreviation RM := (SE RpcServer Failure).
Context (env : Env).

(** ** Parameters *)

Abbreviation Fields := (list (string * Value)).

(** [params.ok_or_else(..)?.as_object().ok_or_else(..)?] *)
Definition object_params (params : option Value) (missing wrong : string) : RpcResult Fields :=
  p ← ok_or (rpc_error (-32602) missing) params;
  ok_or (rpc_error (-32602) wrong) (as_object p).
Definition str_field (obj : Fields) (k missing : string) : RpcResult string :=
  ok_or (rpc_error (-32602) missing) (field_str k obj).
Definition addr_field (obj : Fields) (k missing : string) : RpcResult Address := str_field obj k missing ≫= parse_address.
Definition hash_field (obj : Fields) (k missing : string) : RpcResult Hash := str_field obj k missing ≫= parse_hash.
(** [parse_hex_number(obj.get(k).and_then(|v| v.as_str()).unwrap_or("0x0"))? as u128] *)
Definition number_field (obj : Fields) (k : string) : RpcResult u128 := parse_hex_number (default "0x0"%string (field_str k obj)).
(** [.map(parse).transpose()?.unwrap_or(0)] *)
Definition opt_number {A} (parse : string → RpcResult A) (d : A) (o : option string) : RpcResult A :=
  match o with Some s => parse s | None => Ok d end.
Definition first_address (params : option Value) (missing : string) : RpcResult Address :=
  p ← ok_or (rpc_error (-32602) "Invalid params") params;
  s ← ok_or (rpc_error (-32602) missing) (as_array p ≫= λ arr, extract_str_param arr 0);
  parse_address s.
Fixpoint addresses_of (missing : string) (l : list Value) : RpcResult (list Address) :=
  match l with
  | [] => Ok []
  | v :: l' =>
      s ← ok_or (rpc_error (-32602) missing) (as_str v);
      a ← parse_address s;
      rest ← addresses_of missing l';
      Ok (a :: rest)
  end.
Definition addr_list (l : list Address) : Value := VArray (addr_value <$> l).
(** [tx.execute_at_block.map(|b| format!("0x{:x}", b))] *)
Definition num_opt (o : option Z) : Value := vopt num_value o.
Definition dec_value (n : Z) : Value := VString (to_decimal n).

(** ** Time-locked and sponsored transactions *)

Definition chain_nonce (a : Address) : RM u64 := on_chain RPC_INTERNAL_ERROR "unreachable" (on_ledger (get_nonce a)).
Definition chain_balance (a : Address) : RM u128 := on_chain RPC_INTERNAL_ERROR "unreachable" (on_ledger (get_balance a)).

Definition tx_fields (t : Transaction) : Fields :=
  [("hash", hash_value (tx_hash t)); ("from", addr_value (from t)); ("to", addr_value (to t)); ("value", num_value (value t))].

Definition irondag_create_time_locked_transaction (params : option Value) : RM Value :=
  obj ← need (object_params params "Invalid params" "Params must be an object");
  from ← need (addr_field obj "from" "Missing 'from' address");
  to ← need (addr_field obj "to" "Missing 'to' address");
  value ← need (number_field obj "value");
  fee ← need (number_field obj "fee");
  _ ← acquire_blockchain_read env;
  nonce ← chain_nonce from;
  let tx := tx_new from to value fee nonce in
  tx ← match field_str "executeAtBlock" obj with Some s => n ← need (parse_hex_number s); mret (with_execute_at_block tx n) | None => mret tx end;
  tx ← match field_str "executeAtTimestamp" obj with Some s => n ← need (parse_hex_number s); mret (with_execute_at_timestamp tx n) | None => mret tx end;
  mret (VObject [("transaction", VObject (tx_fields tx ++ [("fee", num_value (Block.fee tx)); ("nonce", num_value (Block.nonce tx));
                    ("executeAtBlock", num_opt (execute_at_block tx)); ("executeAtTimestamp", num_opt (execute_at_timestamp tx))]));
                 ("message", VString "Transaction created. Must be signed before sending.")]).

Definition is_time_locked (t : Transaction) : bool :=
  bool_decide (is_Some (execute_at_block t) ∨ is_Some (execute_at_timestamp t)).
Definition irondag_get_time_locked_transactions : RM Value :=
  _ ← acquire_blockchain_read env;
  s ← se_get;
  let current := cached_latest_block_number (rs_chain s) in
  let locked := (λ t, VObject (tx_fields t ++ [("executeAtBlock", num_opt (execute_at_block t));
                    ("executeAtTimestamp", num_opt (execute_at_timestamp t)); ("isReady", VBool (is_ready_to_execute t current (e_wall env)));
                    ("currentBlock", num_value current); ("currentTimestamp", num_value (e_wall env))]))
                <$> List.filter is_time_locked (concat (transactions <$> blocks (blocks_data (rs_chain s)))) in
  mret (VObject [("timeLockedTransactions", VArray locked); ("count", vnat (length locked))]).

Definition irondag_create_gasless_transaction (params : option Value) : RM Value :=
  obj ← need (object_params params "Invalid params" "Params must be an object");
  from ← need (addr_field obj "from" "Missing 'from' address");
  to ← need (addr_field obj "to" "Missing 'to' address");
  sponsor ← need (addr_field obj "sponsor" "Missing 'sponsor' address");
  value ← need (number_field obj "value");
  fee ← need (number_field obj "fee");
  _ ← acquire_blockchain_read env;
  nonce ← chain_nonce from;
  let tx := with_sponsor (tx_new from to value fee nonce) sponsor in
  sponsor_balance ← chain_balance sponsor;
  if sponsor_balance <? fee then refuse (-32603) "Insufficient sponsor balance" else
  mret (VObject [("transaction", VObject (tx_fields tx ++ [("fee", num_value (Block.fee tx)); ("sponsor", addr_value sponsor);
                    ("nonce", num_value (Block.nonce tx))]));
                 ("sponsorBalance", num_value sponsor_balance); ("message", VString "Transaction created. Must be signed before sending.")]).
Definition irondag_get_sponsored_transactions (params : option Value) : RM Value :=
  sponsor ← need (first_address params "Missing sponsor address");
  _ ← acquire_blockchain_read env;
  s ← se_get;
  let found := concat ((λ b, (λ t, VObject (tx_fields t ++ [("fee", num_value (Block.fee t)); ("sponsor", addr_value sponsor);
                                 ("blockNumber", num_value (block_number (header b)))]))
                             <$> List.filter (λ t, bool_decide (Block.sponsor t = Some sponsor)) (transactions b))
                       <$> blocks (blocks_data (rs_chain s))) in
  mret (VObject [("sponsoredTransactions", VArray found); ("count", vnat (length found)); ("sponsor", addr_value sponsor)]).

(** ** Sponsor policies *)

Definition set_chain_of (f : Blockchain → Blockchain) (s : RpcServer) : RpcServer :=
  with_node (set_node_chain (f (rs_chain s)) (rs_node s)) s.

(** [null], a number, or a decimal or hexadecimal text; anything else is 0. *)
Definition amount_field (obj : Fields) (k wrong : string) : RpcResult (option u128) :=
  match obj_get k obj with
  | None | Some VNull => Ok None
  | Some v =>
      match as_u64 v with
      | Some n => Ok (Some n)
      | None => n ← ok_or (rpc_error (-32602) wrong) (parse_u128_either (default "0"%string (as_str v))); Ok (Some n)
      end
  end.
Definition senders_field (obj : Fields) : RpcResult (option (list Address)) :=
  match obj_get "allowedSenders" obj with
  | None | Some VNull => Ok None
  | Some (VArray l) => Some <$> addresses_of "allowedSenders entries must be hex address strings" l
  | Some _ => Err (rpc_error (-32602) "allowedSenders must be null or an array of address strings")
  end.
Definition expiry_field (obj : Fields) : RpcResult (option u64) :=
  match obj_get "expiresAtBlock" obj with
  | None | Some VNull => Ok None
  | Some v => n ← ok_or (rpc_error (-32602) "expiresAtBlock must be a uint") (as_u64 v); Ok (Some n)
  end.
Definition irondag_register_sponsor_policy (params : option Value) : RM Value :=
  obj ← need (object_params params "params required" "params must be a JSON object");
  sponsor ← need (addr_field obj "sponsor" "Missing field: sponsor");
  let active := default true (obj_get "active" obj ≫= as_bool) in
  allowed ← need (senders_field obj);
  max_fee ← need (amount_field obj "maxFeePerTx" "maxFeePerTx must be a decimal or 0x-hex string");
  expires ← need (expiry_field obj);
  daily ← need (amount_field obj "dailySpendLimit" "dailySpendLimit must be a decimal or 0x-hex string");
  let policy := Sponsorship.MkPolicy active allowed max_fee expires daily 0 0 in
  _ ← acquire_blockchain_read env;
  _ ← se_mod (set_chain_of (λ c, set_sponsors (register (sponsor_registry c) sponsor policy) c));
  mret (VObject [("success", VBool true); ("sponsor", addr_value sponsor); ("message", VString "Sponsor policy registered")]).
Definition irondag_deregister_sponsor_policy (params : option Value) : RM Value :=
  obj ← need (object_params params "params required" "params must be a JSON object");
  sponsor ← need (addr_field obj "sponsor" "Missing field: sponsor");
  _ ← acquire_blockchain_read env;
  s ← se_get;
  let '(r, existed) := deregister (sponsor_registry (rs_chain s)) sponsor in
  _ ← se_mod (set_chain_of (set_sponsors r));
  mret (VObject [("success", VBool existed); ("sponsor", addr_value sponsor);
                 ("message", VString (if existed then "Policy removed" else "No policy was registered for this sponsor"))]).
Definition irondag_get_sponsor_policy (params : option Value) : RM Value :=
  obj ← need (object_params params "params required" "params must be a JSON object");
  sponsor ← need (addr_field obj "sponsor" "Missing field: sponsor");
  _ ← acquire_blockchain_read env;
  s ← se_get;
  mret (match sponsor_registry (rs_chain s) !! sponsor with
        | None => VObject [("sponsor", addr_value sponsor); ("registered", VBool false)]
        | Some p =>
            VObject [("sponsor", addr_value sponsor); ("registered", VBool true); ("active", VBool (active p));
                     ("allowedSenders", vopt addr_list (allowed_senders p)); ("maxFeePerTx", vopt dec_value (max_fee_per_tx p));
                     ("expiresAtBlock", vopt vint (expires_at_block p)); ("dailySpendLimit", vopt dec_value (daily_spend_limit p));
                     ("spentInWindow", dec_value (spent_in_window p)); ("windowStartBlock", vint (window_start_block p))]
        end).

(** ** Recurring payments *)

Definition status_text (s : RecurringTxStatus) : string :=
  match s with RtActive => "Active" | RtPaused => "Paused" | RtCancelled => "Cancelled" | RtCompleted => "Completed" | RtFailed => "Failed" end.
Definition format_recurring_tx (r : RecurringTransaction) : Value :=
  VObject [("recurringTxId", hash_value (recurring_tx_id r)); ("from", addr_value (rt_from r)); ("to", addr_value (rt_to r));
    ("value", dec_value (rt_value r)); ("schedule", schedule_to_json (Recurring.schedule r)); ("createdAt", vint (rt_created_at r));
    ("startDate", vint (start_date r)); ("endDate", vopt vint (end_date r)); ("nextExecution", vint (next_execution r));
    ("maxExecutions", vopt vint (max_executions r)); ("executionCount", vint (execution_count r));
    ("status", VString (status_text (status r))); ("lastExecution", vopt vint (last_execution r));
    ("lastExecutionTxHash", vopt hash_value (last_execution_tx_hash r)); ("failureCount", vint (failure_count r))].
(** [bc.recurring_manager.as_ref().ok_or_else(..)?] *)
Definition chain_recurring : RM Recurring.Manager :=
  s ← se_get; need_some (recurring_manager (rs_chain s)) (-32603) "Recurring transaction manager not initialized".
Definition irondag_create_recurring_transaction (params : option Value) : RM Value :=
  obj ← need (object_params params "params required" "params must be a JSON object");
  from ← need (addr_field obj "from" "Missing field: from");
  to ← need (addr_field obj "to" "Missing field: to");
  value_str ← need (str_field obj "value" "Missing field: value");
  value ← need_some (parse_u128_either value_str) (-32602) "value must be a decimal or 0x-hex string";
  schedule_val ← need_some (obj_get "schedule" obj) (-32602) "Missing field: schedule";
  sched ← need_some (schedule_of_json schedule_val) (-32602) "Invalid schedule";
  start ← need_some (obj_get "startDate" obj ≫= as_u64) (-32602) "Missing field: startDate (Unix timestamp)";
  let end_ := obj_get "endDate" obj ≫= as_u64 in
  let max := obj_get "maxExecutions" obj ≫= as_u64 in
  _ ← acquire_blockchain_read env;
  m ← chain_recurring;
  let '(m, r) := create_recurring m from to value sched start end_ max (e_wall env) in
  _ ← se_mod (set_chain_of (set_recurring (Some m)));
  mret (VObject [("recurringTxId", hash_value (recurring_tx_id r)); ("from", addr_value from); ("to", addr_value to);
                 ("value", dec_value value); ("startDate", vint start); ("endDate", vopt vint end_); ("maxExecutions", vopt vint max);
                 ("nextExecution", vint (next_execution r)); ("status", VString (status_text (status r)))]).
Definition parse_recurring_id (params : option Value) : RpcResult Hash :=
  obj ← object_params params "params required" "params must be a JSON object";
  hash_field obj "recurringTxId" "Missing field: recurringTxId".
Definition irondag_cancel_recurring_transaction (params : option Value) : RM Value :=
  id ← need (parse_recurring_id params);
  _ ← acquire_blockchain_read env;
  m ← chain_recurring;
  let '(m, r) := cancel m id in
  _ ← se_mod (set_chain_of (set_recurring (Some m)));
  _ ← need (map_err (rpc_error (-32603)) r);
  mret (VObject [("success", VBool true); ("recurringTxId", hash_value id); ("status", VString "Cancelled")]).
Definition irondag_get_recurring_transaction (params : option Value) : RM Value :=
  id ← need (parse_recurring_id params);
  _ ← acquire_blockchain_read env;
  m ← chain_recurring;
  match m !! id with
  | None => refuse (-32603) "Recurring transaction not found"
  | Some r => mret (format_recurring_tx r)
  end.
Definition irondag_get_recurring_transactions (params : option Value) : RM Value :=
  obj ← need (object_params params "params required" "params must be a JSON object");
  address ← need (addr_field obj "address" "Missing field: address");
  _ ← acquire_blockchain_read env;
  m ← chain_recurring;
  let txs := format_recurring_tx <$> get_for_address m address in
  mret (VObject [("address", addr_value address); ("count", vnat (length txs)); ("transactions", VArray txs)]).
(** These two use the manager of the server. *)
Definition on_server_recurring (params : option Value) (f : Recurring.Manager → Hash → Recurring.Manager * result string unit)
    (failed done_ : string) : RM Value :=
  s ← se_get;
  m ← need_some (rm_recurring (rs_managers s)) (-32603) "Recurring transaction manager not available";
  p ← need_some params (-32602) "Invalid params";
  text ← need_some (value_get "recurring_tx_id" p ≫= as_str) (-32602) "Missing recurring_tx_id parameter";
  id ← need (parse_hash text);
  let '(m, r) := f m id in
  _ ← se_mod (set_server_recurring m);
  match r with
  | Ok _ => mret (VObject [("success", VBool true); ("recurring_tx_id", hash_value id); ("message", VString done_)])
  | Err e => refuse (-32603) (failed +:+ e)
  end.
Definition irondag_pause_recurring_transaction (params : option Value) : RM Value :=
  on_server_recurring params pause "Failed to pause: " "Recurring transaction paused".
Definition irondag_resume_recurring_transaction (params : option Value) : RM Value :=
  on_server_recurring params resume "Failed to resume: " "Recurring transaction resumed".

(** ** The privacy pool *)

Definition irondag_get_pool_info : RM Value :=
  _ ← acquire_blockchain_read env;
  s ← se_get;
  let p := privacy_pool (rs_chain s) in
  mret (VObject [("denomination", dec_value (denomination p)); ("commitmentCount", vnat (length (deposits p)));
                 ("spentCount", vnat (size (spent_nullifiers p))); ("availableBalance", dec_value (available_balance p));
                 ("commitmentRoot", hash_value (commitment_root p)); ("stubMode", VBool true);
                 ("poolAddress", addr_value PRIVACY_POOL_ADDRESS)]).
(** [params.ok_or_else(..)?], then a hash among the fields *)
Definition one_hash (params : option Value) (k missing : string) : RpcResult Hash :=
  p ← ok_or (rpc_error (-32602) "params required") params;
  s ← ok_or (rpc_error (-32602) missing) (value_get k p ≫= as_str);
  parse_hash s.
Definition irondag_get_pool_deposit_params (params : option Value) : RM Value :=
  c ← need (one_hash params "commitment" "Missing field: commitment");
  _ ← acquire_blockchain_read env;
  s ← se_get;
  if contains_commitment (privacy_pool (rs_chain s)) c then refuse (-32602) "Commitment already exists in the pool" else
  mret (VObject [("to", addr_value PRIVACY_POOL_ADDRESS); ("value", dec_value (denomination (privacy_pool (rs_chain s))));
                 ("data", hash_value c);
                 ("note", VString "Send this transaction to register your commitment. Keep your nullifier and secret private.")]).
Definition irondag_pool_withdraw (params : option Value) : RM Value :=
  obj ← need (object_params params "params required" "params must be a JSON object");
  nullifier ← need (hash_field obj "nullifier" "Missing field: nullifier");
  recipient ← need (addr_field obj "recipient" "Missing field: recipient");
  let proof := (λ s, default [] (hex_decode (strip_0x s))) <$> field_str "proof" obj in
  _ ← acquire_blockchain_read env;
  amount ← on_chain (-32603) "Withdrawal failed" (pool_withdraw nullifier recipient proof);
  mret (VObject [("success", VBool true); ("nullifier", hash_value nullifier); ("recipient", addr_value recipient);
                 ("amount", dec_value amount)]).
Definition irondag_is_nullifier_spent (params : option Value) : RM Value :=
  n ← need (one_hash params "nullifier" "Missing field: nullifier");
  _ ← acquire_blockchain_read env;
  s ← se_get;
  mret (VObject [("nullifier", hash_value n); ("spent", VBool (is_nullifier_spent (privacy_pool (rs_chain s)) n))]).

(** ** Security policies *)

(** An operation of a manager that may be missing; an error keeps what it did. *)
Definition on_policies {A} (failed : string) (m : SE SecurityPolicyManager string A) : RM A := λ s,
  match rm_policies (rs_managers s) with
  | None => refuse (-32603) "Policy manager not available" s
  | Some p => let '(r, p') := m p in (map_err (λ e, Failed (rpc_error (-32603) (failed +:+ e))) r, set_policy_manager p' s)
  end.
Definition have_policies : RM SecurityPolicyManager :=
  s ← se_get; need_some (rm_policies (rs_managers s)) (-32603) "Policy manager not available".
Definition irondag_add_security_policy (params : option Value) : RM Value :=
  _ ← have_policies;
  p ← need_some params (-32602) "Invalid params";
  v ← need_some (as_array p ≫= λ arr, arr !! 0%nat) (-32602) "Invalid policy parameter";
  policy ← need_some (policy_of_json v) (-32602) "Invalid policy format";
  id ← on_policies "Failed to add policy: " (add_policy policy);
  mret (VObject [("policy_id", VString id); ("message", VString "Policy added successfully"); ("policy", policy_to_json policy)]).
(** [params.as_array().and_then(|arr| arr.get(i)).and_then(..)] *)
Definition param_at {A} (p : Value) (i : nat) (f : Value → option A) : option A := as_array p ≫= λ arr, arr !! i ≫= f.
Definition irondag_remove_security_policy (params : option Value) : RM Value :=
  _ ← have_policies;
  p ← need_some params (-32602) "Invalid params";
  owner_str ← need_some (param_at p 0 as_str) (-32602) "Invalid owner address parameter";
  owner ← need (parse_address owner_str);
  id ← need_some (param_at p 1 as_str) (-32602) "Invalid policy_id parameter";
  _ ← on_policies "Failed to remove policy: " (se_mod (remove_policy owner id));
  mret (VObject [("message", VString "Policy removed successfully")]).
Definition irondag_get_security_policies (params : option Value) : RM Value :=
  m ← have_policies;
  owner ← match params ≫= λ p, param_at p 0 as_str with
          | Some s => need (map_err (λ e, rpc_error (-32602) ("Invalid owner address: " +:+ message e)) (parse_address s))
          | None => mret address_zero
          end;
  let policies := get_policies m owner in
  mret (VObject [("owner", addr_value owner); ("policy_count", vnat (length policies)); ("policies", VArray (policy_to_json <$> policies))]).
Definition irondag_set_policy_enabled (params : option Value) : RM Value :=
  _ ← have_policies;
  p ← need_some params (-32602) "Invalid params";
  owner_str ← need_some (param_at p 0 as_str) (-32602) "Invalid owner address parameter";
  owner ← need (parse_address owner_str);
  id ← need_some (param_at p 1 as_str) (-32602) "Invalid policy_id parameter";
  enabled ← need_some (param_at p 2 as_bool) (-32602) "Invalid enabled parameter";
  _ ← on_policies "Failed to update policy: " (set_policy_enabled owner id enabled);
  mret (VObject [("message", VString ("Policy " +:+ id +:+ (if (enabled : bool) then " enabled" else " disabled")))]).

(** ** Wallets *)

Definition have_wallets : RM WalletRegistry :=
  s ← se_get; need_some (rm_wallets (rs_managers s)) (-32603) "Wallet registry not available".
Definition limit_field (obj : Fields) (k : string) : RpcResult u128 := opt_number parse_hex_number 0 (field_str k obj).
Definition members_field (obj : Fields) (k missing wrong : string) : RpcResult (list Address) :=
  l ← ok_or (rpc_error (-32602) missing) (obj_get k obj ≫= as_array);
  addresses_of wrong l.
Definition group_threshold (obj : Fields) (k missing : string) : RpcResult u8 :=
  n ← ok_or (rpc_error (-32602) missing) (obj_get k obj ≫= as_u64);
  Ok (as_u8 n).
Definition make_wallet (now : u64) (kind : string) (obj : Fields) (owner : Address) (salt : u64) : RpcResult SmartContractWallet :=
  if bool_decide (kind = "basic"%string) then Ok (create_basic_wallet now owner salt)
  else if bool_decide (kind = "multisig"%string) then
    signers ← members_field obj "signers" "Missing 'signers' array for multisig wallet" "Invalid signer address";
    threshold ← group_threshold obj "threshold" "Missing 'threshold' for multisig wallet";
    map_err (λ e, rpc_error (-32603) ("Failed to create multisig wallet: " +:+ e)) (create_multisig_wallet now owner salt signers threshold)
  else if bool_decide (kind = "socialRecovery"%string) then
    guardians ← members_field obj "guardians" "Missing 'guardians' array for social recovery wallet" "Invalid guardian address";
    threshold ← group_threshold obj "recoveryThreshold" "Missing 'recoveryThreshold' for social recovery wallet";
    let delay := default 604800 (obj_get "timeDelay" obj ≫= as_u64) in
    map_err (λ e, rpc_error (-32603) ("Failed to create social recovery wallet: " +:+ e))
      (create_social_recovery_wallet now owner salt guardians threshold delay)
  else if bool_decide (kind = "spendingLimit"%string) then
    daily ← limit_field obj "dailyLimit"; weekly ← limit_field obj "weeklyLimit"; monthly ← limit_field obj "monthlyLimit";
    Ok (create_spending_limit_wallet now owner salt daily weekly monthly)
  else Err (rpc_error (-32602) ("Unknown wallet type: " +:+ kind)).
Definition irondag_create_wallet (params : option Value) : RM Value :=
  _ ← have_wallets;
  obj ← need (object_params params "Invalid params" "Params must be an object");
  owner ← need (addr_field obj "owner" "Missing 'owner' address");
  let kind := default "basic"%string (field_str "walletType" obj) in
  salt ← need (opt_number parse_hex_number 0 (field_str "salt" obj));
  wallet ← need (make_wallet (e_wall env) kind obj owner salt);
  registry ← have_wallets;
  let '(registry, r) := register_wallet registry wallet in
  _ ← se_mod (with_wallet_registry registry);
  match r with
  | Ok _ => mret (VObject [("walletAddress", addr_value (w_address wallet)); ("owner", addr_value (Wallet.owner wallet));
                           ("walletType", VString kind); ("nonce", num_value (w_nonce wallet)); ("createdAt", vint (w_created_at wallet));
                           ("message", VString "Wallet created successfully")])
  | Err e => refuse (-32603) ("Failed to register wallet: " +:+ e)
  end.
Definition wallet_kind (w : SmartContractWallet) : string :=
  match wallet_type w with
  | WtBasic => "basic" | WtMultiSig _ _ => "multisig" | WtSocialRecovery _ _ => "socialRecovery"
  | WtSpendingLimit _ => "spendingLimit" | WtCombined _ _ _ _ _ => "combined"
  end.
Definition wallet_fields (w : SmartContractWallet) : Fields :=
  [("walletType", VString (wallet_kind w)); ("nonce", num_value (w_nonce w)); ("createdAt", vint (w_created_at w))].
Definition irondag_get_wallet (params : option Value) : RM Value :=
  registry ← have_wallets;
  address ← need (first_address params "Missing wallet address");
  match get_wallet registry address with
  | Some w => mret (VObject ([("walletAddress", addr_value (w_address w)); ("owner", addr_value (Wallet.owner w))] ++ wallet_fields w))
  | None => refuse (-32602) "Wallet not found"
  end.
Definition irondag_get_owner_wallets (params : option Value) : RM Value :=
  registry ← have_wallets;
  owner ← need (first_address params "Missing owner address");
  let l := (λ w, VObject (("walletAddress", addr_value (w_address w)) :: wallet_fields w)) <$> get_owner_wallets registry owner in
  mret (VObject [("owner", addr_value owner); ("wallets", VArray l); ("count", vnat (length l))]).
Definition irondag_is_contract_wallet (params : option Value) : RM Value :=
  registry ← have_wallets;
  address ← need (first_address params "Missing address");
  mret (VObject [("address", addr_value address); ("isContractWallet", VBool (is_contract_wallet registry address))]).

(** ** Multi-signature payloads *)

(** The payload made is not given to the manager. *)
Definition irondag_create_multisig_transaction (params : option Value) : RM Value :=
  registry ← have_wallets;
  obj ← need (object_params params "Invalid params" "Params must be an object");
  wallet_address ← need (addr_field obj "walletAddress" "Missing 'walletAddress'");
  wallet ← need_some (get_wallet registry wallet_address) (-32602) "Wallet not found";
  if negb (is_multisig wallet) then refuse (-32602) "Wallet is not a multi-signature wallet" else
  '(signers, threshold) ← match wallet_type wallet with
                          | WtMultiSig s t => mret (s, t)
                          | WtCombined s t _ _ _ => mret (s, t)
                          | _ => refuse (-32602) "Wallet is not a multi-signature wallet"
                          end;
  to ← need (addr_field obj "to" "Missing 'to' address");
  value ← need (opt_number parse_hex_u128 0 (field_str "value" obj));
  fee ← need (opt_number parse_hex_u128 0 (field_str "fee" obj));
  let tx := tx_new wallet_address to value fee (w_nonce wallet) in
  payload ← need (map_err (λ e, rpc_error (-32603) ("Failed to create multi-sig transaction: " +:+ e))
                   (multisig_new wallet_address tx signers threshold));
  mret (VObject [("walletAddress", addr_value wallet_address); ("transactionHash", hash_value (tx_hash (mt_transaction payload)));
                 ("threshold", vint threshold); ("signaturesRequired", vint threshold); ("signaturesCollected", vint 0);
                 ("expectedSigners", addr_list signers);
                 ("message", VString "Multi-sig transaction created. Add signatures using irondag_addMultisigSignature")]).

Definition have_multisig : RM MultiSigManager :=
  s ← se_get; need_some (rm_multisig (rs_managers s)) (-32603) "Multi-sig manager not available".
Definition hex_field (obj : Fields) (k missing wrong : string) : RpcResult (list u8) :=
  s ← str_field obj k missing;
  ok_or (rpc_error (-32602) wrong) (hex_decode (strip_0x s)).
Definition payload_fields (t : MultiSigTransaction) : Fields :=
  [("signaturesCollected", vnat (signature_count t)); ("signaturesRequired", vint (mt_threshold t)); ("isReady", VBool (multisig_is_ready t));
   ("signedBy", addr_list (signed_by t)); ("pendingSigners", addr_list (pending_signers t))].
Definition irondag_add_multisig_signature (params : option Value) : RM Value :=
  m ← have_multisig;
  obj ← need (object_params params "Invalid params" "Params must be an object");
  wallet_address ← need (addr_field obj "walletAddress" "Missing 'walletAddress'");
  h ← need (hash_field obj "transactionHash" "Missing 'transactionHash'");
  signer ← need (addr_field obj "signer" "Missing 'signer' address");
  signature ← need (hex_field obj "signature" "Missing 'signature'" "Invalid signature format");
  public_key ← need (hex_field obj "publicKey" "Missing 'publicKey'" "Invalid public key format");
  match add_signature_to_pending wallet_address h (MkMultiSig signer signature public_key) m with
  | Err e => refuse (-32603) ("Failed to add signature: " +:+ e)
  | Ok m =>
      _ ← se_mod (with_multisig_manager m);
      t ← need_some (List.find (is_payload h) (get_pending_transactions m wallet_address)) (-32602) "Transaction not found";
      mret (VObject ([("walletAddress", addr_value wallet_address); ("transactionHash", hash_value h)] ++ payload_fields t
              ++ [("message", VString (if multisig_is_ready t then "Transaction ready to execute" else "More signatures needed"))]))
  end.
Definition irondag_get_pending_multisig_transactions (params : option Value) : RM Value :=
  m ← have_multisig;
  wallet_address ← need (first_address params "Missing wallet address");
  let l := (λ p, let t := mt_transaction p in
                 VObject ([("transactionHash", hash_value (tx_hash t)); ("to", addr_value (to t)); ("value", num_value (value t));
                           ("fee", num_value (fee t)); ("nonce", num_value (nonce t))] ++ payload_fields p))
           <$> get_pending_transactions m wallet_address in
  mret (VObject [("walletAddress", addr_value wallet_address); ("pendingTransactions", VArray l); ("count", vnat (length l))]).
Definition irondag_validate_multisig_transaction : RM Value :=
  refuse (-32601) "irondag_validateMultisigTransaction is not available in this version (planned for V2)".

(** ** Social recovery *)

Definition have_recovery : RM SocialRecoveryManager :=
  s ← se_get; need_some (rm_recovery (rs_managers s)) (-32603) "Social recovery manager not available".
(** The error of the manager is the message. *)
Definition on_recovery {A} (m : SE SocialRecoveryManager string A) : RM A := λ s,
  match rm_recovery (rs_managers s) with
  | None => refuse (-32603) "Social recovery manager not available" s
  | Some p => let '(r, p') := m p in (map_err (λ e, Failed (rpc_error (-32603) e)) r, with_social_recovery_manager p' s)
  end.
Definition chain_time : RM u64 :=
  _ ← acquire_blockchain_read env;
  latest ← query (λ c, Ok (get_latest_block (blocks_data c)));
  mret (match latest with Some b => timestamp (header b) | None => 0 end).
Definition value_addr (p : Value) (k missing : string) : RpcResult Address :=
  s ← ok_or (rpc_error (-32602) missing) (value_get k p ≫= as_str);
  parse_address s.
Definition recovery_status_text (s : RecoveryStatus) : string :=
  match s with Pending => "pending" | Approved => "approved" | Ready => "ready" | Completed => "completed" | Cancelled => "cancelled" end.
(** [.map(|v| v.as_str().and_then(|s| parse_address(s).ok())).collect::<Option<Vec<_>>>()] *)
Definition guardian_list (l : list Value) : option (list Address) := mapM (λ v, as_str v ≫= λ s, ok (parse_address s)) l.

Definition irondag_initiate_recovery (params : option Value) : RM Value :=
  _ ← have_recovery;
  p ← need_some params (-32602) "Missing parameters";
  wallet_address ← need (value_addr p "walletAddress" "Missing 'walletAddress'");
  new_owner ← need (value_addr p "newOwner" "Missing 'newOwner'");
  l ← need_some (value_get "guardians" p ≫= as_array) (-32602) "Missing 'guardians' array";
  guardians ← need_some (guardian_list l) (-32602) "Invalid guardian addresses";
  n ← need_some (value_get "recoveryThreshold" p ≫= as_u64) (-32602) "Missing 'recoveryThreshold'";
  let threshold := as_u8 n in
  let delay := value_get "timeDelay" p ≫= as_u64 in
  now ← chain_time;
  r ← on_recovery (initiate_recovery wallet_address new_owner guardians threshold delay now);
  mret (VObject [("walletAddress", addr_value wallet_address); ("newOwner", addr_value new_owner); ("guardians", addr_list guardians);
                 ("recoveryThreshold", vint threshold); ("timeDelay", vint (rr_time_delay r)); ("initiatedAt", vint (rr_initiated_at r));
                 ("status", VString (recovery_status_text (rr_status r))); ("approvalCount", vnat (approval_count r))]).
Definition find_recovery (wallet : Address) : RM SocialRecoveryRequest :=
  m ← have_recovery; need_some (get_recovery_status m wallet) (-32603) "Recovery request not found".
Definition irondag_approve_recovery (params : option Value) : RM Value :=
  _ ← have_recovery;
  p ← need_some params (-32602) "Missing parameters";
  wallet_address ← need (value_addr p "walletAddress" "Missing 'walletAddress'");
  guardian ← need (value_addr p "guardian" "Missing 'guardian'");
  text ← need_some (value_get "signature" p ≫= as_str) (-32602) "Missing 'signature'";
  signature ← need_some (hex_decode (strip_0x text)) (-32602) "Invalid signature format";
  now ← chain_time;
  _ ← on_recovery (approve_recovery wallet_address guardian signature now);
  r ← find_recovery wallet_address;
  mret (VObject [("walletAddress", addr_value wallet_address); ("status", VString (recovery_status_text (rr_status r)));
                 ("approvalCount", vnat (approval_count r)); ("thresholdMet", VBool (threshold_met r))]).
Definition irondag_get_recovery_status (params : option Value) : RM Value :=
  _ ← have_recovery;
  p ← need_some params (-32602) "Missing parameters";
  wallet_address ← need (value_addr p "walletAddress" "Missing 'walletAddress'");
  now ← chain_time;
  _ ← on_recovery (se_mod (update_all_statuses now));
  r ← find_recovery wallet_address;
  mret (VObject [("walletAddress", addr_value wallet_address); ("newOwner", addr_value (rr_new_owner r)); ("guardians", addr_list (rr_guardians r));
                 ("recoveryThreshold", vint (rr_threshold r)); ("timeDelay", vint (rr_time_delay r)); ("initiatedAt", vint (rr_initiated_at r));
                 ("status", VString (recovery_status_text (rr_status r))); ("approvalCount", vnat (approval_count r));
                 ("thresholdMet", VBool (threshold_met r));
                 ("approvals", VArray ((λ at_, VObject [("guardian", addr_value at_.1); ("approvedAt", vint at_.2)]) <$> hm_iter (rr_approvals r)));
                 ("isReady", VBool (request_is_ready now r))]).
Definition irondag_complete_recovery (params : option Value) : RM Value :=
  _ ← have_recovery;
  p ← need_some params (-32602) "Missing parameters";
  wallet_address ← need (value_addr p "walletAddress" "Missing 'walletAddress'");
  now ← chain_time;
  new_owner ← on_recovery (complete_recovery wallet_address now);
  mret (VObject [("walletAddress", addr_value wallet_address); ("newOwner", addr_value new_owner); ("status", VString "completed");
                 ("message", VString "Recovery completed successfully")]).
Definition irondag_cancel_recovery (params : option Value) : RM Value :=
  _ ← have_recovery;
  p ← need_some params (-32602) "Missing parameters";
  wallet_address ← need (value_addr p "walletAddress" "Missing 'walletAddress'");
  _ ← on_recovery (cancel_recovery wallet_address);
  mret (VObject [("walletAddress", addr_value wallet_address); ("status", VString "cancelled"); ("message", VString "Recovery request cancelled")]).

(** ** Restoring a snapshot *)

Context (gfuel : nat) (cpu : CpuFeatures) (buffer : list u8) (open_snapshot : string → RpcResult BlockchainSnapshot).

(** [let _ = blockchain.set_balance(..); let _ = blockchain.set_nonce(..);] *)
Definition restore_account (a : AccountState) : BM unit :=
  _ ← on_ledger (set_balance (as_address a) (as_balance a)); on_ledger (set_nonce (as_address a) (as_nonce a)).
Fixpoint numbered_from (n : u64) (l : list Block) : bool :=
  match l with [] => true | b :: l' => (block_number (header b) =? n) && numbered_from (n + 1) l' end.
(** [let _ = blockchain.add_block(block.clone()).await;] *)
Definition restore_block (b : Block) : BM unit := λ c,
  match get_block_by_hash c (block_hash b) with
  | Err e => (Err e, c)
  | Ok (Some _) => (Ok tt, c)
  | Ok None =>
      match add_block_impl gfuel cpu buffer (e_wall env) b false c with
      | (Err (Panic m), c') => (Err (Panic m), c')
      | (_, c') => (Ok tt, c')
      end
  end.
Definition irondag_restore_snapshot (params : option Value) (key : option string) : RM Value :=
  s ← se_get;
  _ ← (if verify_api_key s key then mret tt
       else refuse (-32001) "Unauthorized: Admin authentication required for snapshot restore");
  p ← need_some params (-32602) "Missing params";
  filename ← need_some (value_get "filename" p ≫= as_str) (-32602) "Missing filename parameter";
  snap ← need (open_snapshot filename);
  _ ← on_chain RPC_INTERNAL_ERROR "unreachable" (se_for (Storage.accounts snap) restore_account);
  if negb (numbered_from 0 (snap_blocks snap)) then refuse (-32000) "Snapshot block chain discontinuity" else
  _ ← on_chain RPC_INTERNAL_ERROR "unreachable" (se_for (snap_blocks snap) restore_block);
  mret (VObject [("success", VBool true); ("restoredBlockNumber", num_value (snap_block_number (metadata snap)));
                 ("restoredAccounts", vnat (length (Storage.accounts snap))); ("restoredBlocks", vnat (length (snap_blocks snap)));
                 ("message", VString "Snapshot restored successfully")]).
End Features.
