(* ===== verification/Rpc.v ===== *)
(** * Rpc: dispatch and the life of a request

    Models [handle_request] of [irondag-blockchain/src/rpc.rs], the batches, and
    what [irondag-blockchain/src/node/mod.rs] does with a parsed body.

    [others] stands for the methods of
    [other_methods], which are not modelled.  The feature [privacy] is off. *)

From S2P Require Import Prelude Types Block Pow Error.
From S2P Require Import Storage DagStorage GhostDag.
From S2P Require Import Sponsorship PrivacyPool Recurring Governance Wallet WalletFactory Verkle.
From S2P Require Import Ledger BlockIndex Execution AccountFrame Chain.
From S2P Require Import Economics Messaging Sharding Float64 Ordering TxPool.
From S2P Require Import SyncPool SyncProtocol RateLimit PeerScore Wire PeerTables Gossip PeerLoop.
From S2P Require Import Security Multisig Recovery Hardening Json RpcServer RpcEth RpcFeatures.

Definition other_methods : list string :=
  ["eth_feeHistory"; "eth_getCode"; "eth_estimateGas"; "eth_call"; "eth_getStorageAt"; "eth_getTransactionReceipt";
   "irondag_getShardStats"; "irondag_getShardForAddress"; "irondag_getRiskScore"; "irondag_getRiskLabels";
   "irondag_getTransactionRisk"; "irondag_getFairnessMetrics"; "irondag_getStateRoot"; "irondag_getStateProof";
   "irondag_verifyStateProof"; "irondag_getCrossShardTransaction"; "irondag_getCrossShardTransactions";
   "irondag_getShardBlock"; "irondag_getShardTransactions"; "irondag_getShardBalance"; "irondag_getOrderingPolicy";
   "irondag_setOrderingPolicy"; "irondag_getMevMetrics"; "irondag_getBlockFairness"; "irondag_traceFunds";
   "irondag_getAddressSummary"; "irondag_getAddressTransactions"; "irondag_detectAnomalies"; "irondag_findRelatedAddresses";
   "irondag_getStateRootHistory"; "irondag_getLightClientSyncStatus"; "irondag_enableLightClientMode";
   "irondag_generatePqAccount"; "irondag_getPqAccountType"; "irondag_exportPqKey"; "irondag_importPqKey";
   "irondag_createPqTransaction"; "irondag_evaluateTransactionPolicy"; "irondag_getNodeRegistry";
   "irondag_getNodeLongevity"; "irondag_registerNode"; "irondag_startMining"; "irondag_stopMining";
   "irondag_getMiningStatus"; "irondag_getMiningDashboard"; "irondag_getNodeStatus"; "irondag_getReputation";
   "irondag_getReputationFactors"; "irondag_createBatchTransaction"; "irondag_executeBatchTransaction";
   "irondag_getBatchStatus"; "irondag_estimateBatchGas"; "irondag_enableParallelEVM"; "irondag_getParallelEVMStats";
   "irondag_estimateParallelImprovement"; "irondag_registerOracle"; "irondag_unregisterOracle"; "irondag_getOracleInfo";
   "irondag_getOracleList"; "irondag_getPrice"; "irondag_getPriceHistory"; "irondag_getPriceFeeds";
   "irondag_requestRandomness"; "irondag_getRandomness"; "irondag_createStopLoss"; "irondag_cancelStopLoss";
   "irondag_getStopLoss"; "irondag_getStopLossOrders"; "irondag_updateStopLossPrice"; "irondag_pauseStopLoss";
   "irondag_resumeStopLoss"; "irondag_createPrivateTransaction"; "irondag_verifyPrivacyProof"; "irondag_proveBalance";
   "irondag_getPrivacyStats"; "irondag_createSnapshot"; "irondag_listSnapshots"; "irondag_getSnapshotInfo"]%string.

Section Dispatch.
Context `{Hex, Keccak, Blake3, Crypto, Evm, HashIter, SliceSearch, UnstableSort, SipHash, MessageCodec, AddrText}.
Context `{Codec Block, Codec (list Hash), Codec TxReceipt, Codec CrossShardMessage, JsonText, Rlp, TxJson, ScheduleJson, FeatureJson, Layout}.
Abbreviation RM := (SE RpcServer Failure).
Context (gfuel : nat) (cpu : CpuFeatures) (buffer : list u8) (open_snapshot : string → RpcResult BlockchainSnapshot).
Context (others : string → option Value → RM Value).

(** A method takes the parameters and the key of the request. *)
Definition methods (env : Env) : list (string * (option Value → option string → RM Value)) :=
  [ ("eth_getBalance", λ p _, eth_get_balance p);
    ("eth_getTransactionCount", λ p _, eth_get_transaction_count p);
    ("eth_getBlockByNumber", λ p _, eth_get_block_by_number env p);
    ("eth_getBlockByHash", λ p _, eth_get_block_by_hash env p);
    ("eth_getTransactionByHash", λ p _, eth_get_transaction_by_hash env p);
    ("eth_sendTransaction", λ p _, eth_send_transaction env p);
    ("eth_sendRawTransaction", λ p _, eth_send_raw_transaction env p);
    ("eth_blockNumber", λ _ _, eth_block_number);
    ("eth_getBlockTransactionCountByNumber", λ p _, eth_get_block_transaction_count_by_number env p);
    ("net_peerCount", λ _ _, net_peer_count);
    ("net_version", λ _ _, s ← se_get; mret (VString (to_decimal (rpc_chain_id (rs_config s)))));
    ("eth_chainId", λ _ _, s ← se_get; mret (num_value (rpc_chain_id (rs_config s))));
    ("eth_gasPrice", λ _ _, eth_gas_price env);
    ("eth_syncing", λ _ _, mret (VBool false));
    ("eth_maxPriorityFeePerGas", λ _ _, eth_max_priority_fee_per_gas);
    ("irondag_getDagStats", λ _ _, irondag_get_dag_stats env);
    ("irondag_getTps", λ p _, irondag_get_tps env p);
    ("irondag_getBlueScore", λ p _, irondag_get_blue_score env p);
    ("irondag_getBlocksByStream", λ p _, irondag_get_blocks_by_stream env p);
    ("irondag_getStreamCounts", λ _ _, irondag_get_stream_counts env);
    ("irondag_addSecurityPolicy", λ p _, irondag_add_security_policy p);
    ("irondag_removeSecurityPolicy", λ p _, irondag_remove_security_policy p);
    ("irondag_getSecurityPolicies", λ p _, irondag_get_security_policies p);
    ("irondag_setPolicyEnabled", λ p _, irondag_set_policy_enabled p);
    ("irondag_addTestBlock", λ _ _, refuse (-32601) "Method not available in production build");
    ("irondag_createTestTransaction", λ _ _, refuse (-32601) "Method not available in production build");
    ("irondag_sendRawTransaction", λ p _, irondag_send_raw_transaction env p);
    ("irondag_createTimeLockedTransaction", λ p _, irondag_create_time_locked_transaction env p);
    ("irondag_getTimeLockedTransactions", λ _ _, irondag_get_time_locked_transactions env);
    ("irondag_createRecurringTransaction", λ p _, irondag_create_recurring_transaction env p);
    ("irondag_cancelRecurringTransaction", λ p _, irondag_cancel_recurring_transaction env p);
    ("irondag_getRecurringTransaction", λ p _, irondag_get_recurring_transaction env p);
    ("irondag_getRecurringTransactions", λ p _, irondag_get_recurring_transactions env p);
    ("irondag_createGaslessTransaction", λ p _, irondag_create_gasless_transaction env p);
    ("irondag_getSponsoredTransactions", λ p _, irondag_get_sponsored_transactions env p);
    ("irondag_registerSponsorPolicy", λ p _, irondag_register_sponsor_policy env p);
    ("irondag_deregisterSponsorPolicy", λ p _, irondag_deregister_sponsor_policy env p);
    ("irondag_getSponsorPolicy", λ p _, irondag_get_sponsor_policy env p);
    ("irondag_createWallet", λ p _, irondag_create_wallet env p);
    ("irondag_getWallet", λ p _, irondag_get_wallet p);
    ("irondag_getOwnerWallets", λ p _, irondag_get_owner_wallets p);
    ("irondag_isContractWallet", λ p _, irondag_is_contract_wallet p);
    ("irondag_createMultisigTransaction", λ p _, irondag_create_multisig_transaction p);
    ("irondag_addMultisigSignature", λ p _, irondag_add_multisig_signature p);
    ("irondag_getPendingMultisigTransactions", λ p _, irondag_get_pending_multisig_transactions p);
    ("irondag_validateMultisigTransaction", λ _ _, irondag_validate_multisig_transaction);
    ("irondag_initiateRecovery", λ p _, irondag_initiate_recovery env p);
    ("irondag_approveRecovery", λ p _, irondag_approve_recovery env p);
    ("irondag_getRecoveryStatus", λ p _, irondag_get_recovery_status env p);
    ("irondag_completeRecovery", λ p _, irondag_complete_recovery env p);
    ("irondag_cancelRecovery", λ p _, irondag_cancel_recovery p);
    ("irondag_pauseRecurringTransaction", λ p _, irondag_pause_recurring_transaction p);
    ("irondag_resumeRecurringTransaction", λ p _, irondag_resume_recurring_transaction p);
    ("irondag_getPoolInfo", λ _ _, irondag_get_pool_info env);
    ("irondag_getPoolDepositParams", λ p _, irondag_get_pool_deposit_params env p);
    ("irondag_poolWithdraw", λ p _, irondag_pool_withdraw env p);
    ("irondag_isNullifierSpent", λ p _, irondag_is_nullifier_spent env p);
    ("irondag_restoreSnapshot", λ p k, irondag_restore_snapshot env gfuel cpu buffer open_snapshot p k);
    ("irondag_faucet", λ p _, irondag_faucet env p) ].

Fixpoint find_method {A} (m : string) (l : list (string * A)) : option A :=
  match l with
  | [] => None
  | (n, h) :: l' => if bool_decide (m = n) then Some h else find_method m l'
  end.
Definition run_method (env : Env) (m : string) (params : option Value) (key : option string) : RM Value :=
  match find_method m (methods env) with
  | Some h => h params key
  | None =>
      if bool_decide (m ∈ other_methods) then others m params
      else refuse (-32601) ("Method not found: " +:+ m)
  end.

(** [None]: the task panicked and the client gets no answer. *)
Definition handle_request (env : Env) (req : JsonRpcRequest) (key : option string) (ip : option IpAddr) (s : RpcServer) :
    option JsonRpcResponse * RpcServer :=
  match guards env req key ip (count_request s) with
  | (Err (Failed e), s) => (Some (error_response e (rq_id req)), s)
  | (Err (Panicked _), s) => (None, s)
  | (Ok _, s) =>
      match run_method env (rq_method req) (rq_params req) key s with
      | (Ok v, s) => (Some (MkResp "2.0" (Some v) None (rq_id req)), s)
      | (Err (Failed e), s) => (Some (error_response e (rq_id req)), count_error s)
      | (Err (Panicked _), s) => (None, s)
      end
  end.
(** [join_all] of the requests of a batch, each with its own readings. *)
Fixpoint handle_all (reqs : list (Env * JsonRpcRequest)) (key : option string) (ip : option IpAddr) (s : RpcServer) :
    list (option JsonRpcResponse) * RpcServer :=
  match reqs with
  | [] => ([], s)
  | (env, req) :: reqs' =>
      let '(r, s) := handle_request env req key ip s in
      let '(rs, s) := handle_all reqs' key ip s in
      (r :: rs, s)
  end.
(** No request of the batch runs into its timeout. *)
Definition handle_batch_requests (reqs : list (Env * JsonRpcRequest)) (key : option string) (ip : option IpAddr) (s : RpcServer) :
    RpcResult (list (option JsonRpcResponse)) * RpcServer :=
  match check_batch_limit (snd <$> reqs) with
  | Err e => (Err e, s)
  | Ok _ => let '(rs, s) := handle_all reqs key ip s in (Ok rs, s)
  end.
(** The answer to a request that was not ready in time. *)
Definition timeout_response (m : string) : JsonRpcResponse :=
  error_response (MkRpcError (-32000) ("Request timed out after " +:+ to_decimal (timeout_secs m) +:+ "s")
                    (Some (VObject [("method", VString m)]))) None.

(** The bodies the HTTP server of the node accepts; a batch of the node goes
    neither through [check_batch_limit] nor through a timeout. *)
Inductive JsonRpcRequestType := Single (req : JsonRpcRequest) | BatchOf (reqs : list JsonRpcRequest).
Definition serve_body (env : Env) (body : JsonRpcRequestType) (key : option string) (ip : IpAddr) (s : RpcServer) :
    list (option JsonRpcResponse) * RpcServer :=
  match body with
  | Single req => let '(r, s) := handle_request env req key (Some ip) s in ([r], s)
  | BatchOf reqs => handle_all ((λ r, (env, r)) <$> reqs) key (Some ip) s
  end.
End Dispatch.
