(* ===== verification/RpcTheorems.v ===== *)
(** * RpcTheorems: what a client can do

    Which requests need the key and what the others can change, what a
    submitted transaction must satisfy, how often the faucet pays, and where the
    methods depart from what they announce. *)

From S2P Require Import Prelude Types Block Pow Error.
From S2P Require Import Storage DagStorage GhostDag.
From S2P Require Import Sponsorship PrivacyPool Recurring Governance Wallet WalletFactory Verkle.
From S2P Require Import Ledger BlockIndex Execution AccountFrame Chain.
From S2P Require Import Economics Messaging Sharding Float64 Ordering TxPool TxPoolTheorems.
From S2P Require Import SyncPool SyncProtocol RateLimit PeerScore Wire PeerTables Gossip PeerLoop.
From S2P Require Import Security Multisig Recovery Hardening Json RpcServer RpcEth RpcFeatures Rpc.

(** ** Keys *)

Lemma xor_fold_zero l acc :
  foldl (λ d xy, Z.lor d (Z.lxor xy.1 xy.2)) acc l = 0 ↔ acc = 0 ∧ Forall (λ xy : u8 * u8, xy.1 = xy.2) l.
Proof.
  revert acc. induction l as [|[x y] l IH]; intros acc; cbn [foldl]; [by rewrite Forall_nil; naive_solver|].
  rewrite IH, Z.lor_eq_0_iff, Z.lxor_eq_0_iff, Forall_cons. cbn. naive_solver.
Qed.
(** The comparison without early exit is equality. *)
Lemma constant_time_eq_spec a b : constant_time_eq a b = bool_decide (a = b).
Proof.
  apply eq_true_iff_eq. rewrite bool_decide_eq_true. unfold constant_time_eq.
  destruct (Nat.eqb_spec (length a) (length b)) as [Hl|Hl]; cbn [negb]; [|split; [done|by intros ->]].
  rewrite Z.eqb_eq, xor_fold_zero. split; [|intros ->; split; [done|]].
  - intros [_ Hf]. revert b Hl Hf. induction a as [|x a IH]; intros [|y b] Hl Hf; try done. cbn in *.
    apply Forall_cons in Hf as [Hxy Hf]. cbn in Hxy. subst. f_equal. apply IH; [lia|done].
  - clear Hl. induction b; constructor; done.
Qed.

(** The header carries the key the server was given. *)
Definition has_key `{Blake3, Evm} (s : RpcServer) (key : option string) : Prop :=
  ∃ k, key = Some k ∧ api_key_hash (rs_config s) = Some (hash_api_key k).
Lemma verify_api_key_spec `{Blake3, Evm} s key h :
  api_key_hash (rs_config s) = Some h → verify_api_key s key = true ↔ has_key s key.
Proof.
  intros Hh. unfold verify_api_key, has_key. rewrite Hh. destruct key as [k|]; [|split; [done|naive_solver]].
  rewrite constant_time_eq_spec, bool_decide_eq_true. split; [intros <-; eauto|]. by intros (k' & [= <-] & [= ->]).
Qed.

(** ** What the gates change *)

Section Frames.
Context `{Hex, Keccak, Blake3, Crypto, Evm, HashIter, SliceSearch, UnstableSort, SipHash, MessageCodec, AddrText}.
Context `{Codec Block, Codec (list Hash), Codec TxReceipt, Codec CrossShardMessage, JsonText, Rlp, TxJson, ScheduleJson, FeatureJson, Layout}.

(** Everything but the limits and the counters is as before. *)
Record same_core (s s' : RpcServer) : Prop := {
  sc_config : rs_config s' = rs_config s;
  sc_managers : rs_managers s' = rs_managers s;
  sc_node : rs_node s' = rs_node s;
  sc_mining : rs_mining s' = rs_mining s;
  sc_network : rs_network s' = rs_network s;
  sc_shards : rs_shards s' = rs_shards s;
  sc_faucet : faucet_times s' = faucet_times s }.
#[global] Instance same_core_preorder : PreOrder same_core.
Proof. split; [by split|]. intros s1 s2 s3 [] []. split; congruence. Qed.

Lemma limits_core l s : same_core s (with_limits l s).
Proof. by split. Qed.
Lemma hardening_core h s : same_core s (set_security_hardening h s).
Proof. by split. Qed.
Lemma count_request_core s : same_core s (count_request s).
Proof. by split. Qed.
Lemma count_error_core s : same_core s (count_error s).
Proof. by split. Qed.
#[local] Hint Resolve limits_core hardening_core : core.

Context (env : Env) (req : JsonRpcRequest) (key : option string) (ip : option IpAddr).

Ltac gate_frame := intros ???; unfold refuse, fail, with_hardening; cbv zeta; repeat case_match; intros [= <- <-]; done.
Lemma guard_ip_core : respects same_core (guard_ip env ip).
Proof. unfold guard_ip. gate_frame. Qed.
Lemma guard_size_core : respects same_core (guard_size env req ip).
Proof. unfold guard_size. gate_frame. Qed.
Lemma guard_auth_core : respects same_core (guard_auth env req key ip).
Proof. unfold guard_auth. gate_frame. Qed.
Lemma guard_rate_core : respects same_core (guard_rate env ip).
Proof. unfold guard_rate. gate_frame. Qed.
Lemma guard_submission_core : respects same_core (guard_submission env req ip).
Proof. unfold guard_submission. gate_frame. Qed.
Lemma guard_version_core : respects same_core (guard_version req).
Proof. unfold guard_version. gate_frame. Qed.
#[local] Hint Resolve guard_ip_core guard_size_core guard_auth_core guard_rate_core guard_submission_core guard_version_core : frame.

Lemma guards_core : respects same_core (guards env req key ip).
Proof. unfold guards. repeat (apply respects_bind; [apply _|auto with frame|intros _]). auto with frame. Qed.

(** A request that passes the gates has the key, if it needs one. *)
Lemma guard_auth_Ok s u s' : guard_auth env req key ip s = (Ok u, s') → requires_auth s (rq_method req) = true → verify_api_key s key = true.
Proof. unfold guard_auth. intros Hg Hr. rewrite Hr in Hg. destruct (verify_api_key s key); [done|]. by cbv zeta in Hg. Qed.
Lemma core_requires_auth s s' m : same_core s s' → requires_auth s' m = requires_auth s m.
Proof. intros Hc. unfold requires_auth. by rewrite (sc_config _ _ Hc). Qed.
Lemma core_verify s s' k : same_core s s' → verify_api_key s' k = verify_api_key s k.
Proof. intros Hc. unfold verify_api_key. by rewrite (sc_config _ _ Hc). Qed.
Lemma guards_Ok s u s' : guards env req key ip s = (Ok u, s') → requires_auth s (rq_method req) = true → verify_api_key s key = true.
Proof.
  unfold guards. intros Hg Hr. destruct (guard_ip env ip s) as [[u1|e1] s1] eqn:G1; [|by rewrite (se_bind_fail _ _ _ _ _ G1) in Hg].
  rewrite (se_bind_step _ _ _ _ _ G1) in Hg.
  destruct (guard_size env req ip s1) as [[u2|e2] s2] eqn:G2; [|by rewrite (se_bind_fail _ _ _ _ _ G2) in Hg].
  rewrite (se_bind_step _ _ _ _ _ G2) in Hg.
  assert (Hc : same_core s s2) by (transitivity s1; [by eapply guard_ip_core|by eapply guard_size_core]).
  destruct (guard_auth env req key ip s2) as [[u3|e3] s3] eqn:G3; [|by rewrite (se_bind_fail _ _ _ _ _ G3) in Hg].
  rewrite <- (core_verify s s2 key Hc). eapply guard_auth_Ok; [exact G3|]. by rewrite (core_requires_auth s s2).
Qed.
Ltac gate_error :=
  intros ???; unfold refuse, fail; cbv zeta; repeat case_match; intros [= <- <-]; eexists; (split; [done|]); set_solver.
(** The gates answer with an error, and never panic. *)
Lemma guards_fail s f s' : guards env req key ip s = (Err f, s') →
  ∃ e, f = Failed e ∧ code e ∈ [-32001; -32003; -32004; -32005; -32600].
Proof.
  assert (Hbad : ∀ {A B} (m : SE RpcServer Failure A) (k : A → SE RpcServer Failure B) (P : Failure → Prop),
    (∀ s f s', m s = (Err f, s') → P f) → (∀ a s f s', k a s = (Err f, s') → P f) → ∀ s f s', (m ≫= k) s = (Err f, s') → P f).
  { intros A B m k P Hm Hk t g t'. unfold mbind, SE_bind. destruct (m t) as [[a|e] t1] eqn:Ht; [apply Hk|].
    intros [= <- <-]. by eapply Hm. }
  revert s f s'. unfold guards.
  apply Hbad; [unfold guard_ip; gate_error|intros _]. apply Hbad; [unfold guard_size; gate_error|intros _].
  apply Hbad; [unfold guard_auth; gate_error|intros _]. apply Hbad; [unfold guard_rate; gate_error|intros _].
  apply Hbad; [unfold guard_submission; gate_error|intros _]. unfold guard_version. gate_error.
Qed.
End Frames.

(** Steps that only read keep any relation. *)
Section Reading.
Context `{Evm} (R : RpcServer → RpcServer → Prop) `{!PreOrder R}.

Lemma refuse_frame {A} c msg : respects (A:=A) R (refuse c msg).
Proof. by intros s r s' [= <- <-]. Qed.
Lemma need_frame {A} (r : RpcResult A) : respects R (need r).
Proof. apply respects_read, _. Qed.
Lemma need_some_frame {A} (o : option A) c msg : respects R (need_some o c msg).
Proof. apply need_frame. Qed.
Lemma acquire_frame env : respects R (acquire_blockchain_read env).
Proof. unfold acquire_blockchain_read. destruct (e_busy env); [apply refuse_frame|apply respects_ret, _]. Qed.
Lemma query_frame {A} (f : Blockchain → result BlockchainError A) : respects R (query f).
Proof. by intros s r s' [= <- <-]. Qed.
End Reading.
#[export] Hint Resolve refuse_frame need_frame need_some_frame acquire_frame query_frame : frame.

(** Walk through a handler; what is left are the steps that write. *)
Ltac walk :=
  repeat first
    [ apply respects_ret; exact _
    | apply respects_get; exact _
    | apply need_frame; exact _ | apply need_some_frame; exact _ | apply refuse_frame; exact _
    | apply acquire_frame; exact _ | apply query_frame; exact _
    | apply respects_bind; [exact _| |intros ?]
    | progress cbv zeta
    | match goal with |- respects _ (if ?b then _ else _) => destruct b end
    | match goal with |- respects _ (match ?x with _ => _ end) => destruct x end ].

(** ** Requests without the key *)

Section Requests.
Context `{Hex, Keccak, Blake3, Crypto, Evm, HashIter, SliceSearch, UnstableSort, SipHash, MessageCodec, AddrText}.
Context `{Codec Block, Codec (list Hash), Codec TxReceipt, Codec CrossShardMessage, JsonText, Rlp, TxJson, ScheduleJson, FeatureJson, Layout}.
Context (gfuel : nat) (cpu : CpuFeatures) (buffer : list u8) (open_snapshot : string → RpcResult BlockchainSnapshot).
Context (others : string → option Value → SE RpcServer Failure Value).
Abbreviation run := (run_method gfuel cpu buffer open_snapshot others).
Abbreviation handle := (handle_request gfuel cpu buffer open_snapshot others).

Lemma stream_core env p : respects same_core (irondag_get_blocks_by_stream env p).
Proof.
  unfold irondag_get_blocks_by_stream. walk.
Qed.
Lemma dag_stats_core env : respects same_core (irondag_get_dag_stats env).
Proof. unfold irondag_get_dag_stats. walk. by intros s r s' [= <- <-]. Qed.
Lemma public_reads env m p k : is_public_method m = true → m ≠ "irondag_faucet"%string → respects same_core (run env m p k).
Proof.
  unfold is_public_method. rewrite bool_decide_eq_true. intros Hm Hf.
  repeat (apply elem_of_cons in Hm as [->|Hm]; [|]); [..|by apply not_elem_of_nil in Hm]; try done.
  - change (run env "eth_blockNumber" p k) with eth_block_number. unfold eth_block_number. walk.
  - intros s r s' [= <- <-]. done.
  - intros s r s' [= <- <-]. done.
  - intros s r s' [= <- <-]. done.
  - change (run env "irondag_getDagStats" p k) with (irondag_get_dag_stats env). apply dag_stats_core.
  - change (run env "irondag_getTps" p k) with (irondag_get_tps env p). unfold irondag_get_tps. walk.
  - change (run env "irondag_getBlocksByStream" p k) with (irondag_get_blocks_by_stream env p). apply stream_core.
  - change (run env "irondag_getStreamCounts" p k) with (irondag_get_stream_counts env).
    unfold irondag_get_stream_counts. walk.
Qed.

(** C19: The key.  On a server that has a key, a request that does not carry it
    leaves the chain, the pools, the peers and every manager as they are, unless
    it asks the faucet; and if its method is not one of the nine public ones,
    the answer is an error.  Apart from counters, only the records of limits and
    bans change. *)
Theorem requests_need_the_key env req key ip s h :
  api_key_hash (rs_config s) = Some h → ¬ has_key s key →
  let '(resp, s') := handle env req key ip s in
  (rq_method req ≠ "irondag_faucet"%string → same_core s s') ∧
  (is_public_method (rq_method req) = false →
   same_core s s' ∧ ∃ e, resp = Some (error_response e (rq_id req)) ∧ code e ∈ [-32001; -32003; -32004; -32005; -32600]).
Proof.
  intros Hh Hk. pose proof (verify_api_key_spec s key h Hh) as Hv. unfold handle_request.
  destruct (guards env req key ip (count_request s)) as [[u|f] s1] eqn:Hg.
  - assert (Hc : same_core s s1) by (transitivity (count_request s); [apply count_request_core|by eapply guards_core]).
    assert (Hp : is_public_method (rq_method req) = true).
    { destruct (is_public_method _) eqn:Hp; [done|]. exfalso. apply Hk, Hv.
      eapply (guards_Ok env req key ip (count_request s)); [exact Hg|]. unfold requires_auth. cbn [rs_config count_request]. by rewrite Hh, Hp. }
    rewrite Hp. destruct (run env (rq_method req) (rq_params req) key s1) as [r s2] eqn:Hr.
    assert (Hs2 : rq_method req ≠ "irondag_faucet"%string → same_core s s2).
    { intros Hf. transitivity s1; [done|]. by eapply public_reads. }
    destruct r as [v|[e|m]]; (split; [|done]); intros Hf; try by apply Hs2.
    transitivity s2; [by apply Hs2|apply count_error_core].
  - assert (Hc : same_core s s1) by (transitivity (count_request s); [apply count_request_core|by eapply guards_core]).
    destruct (guards_fail env req key ip _ _ _ Hg) as (e & -> & He). eauto 6.
Qed.
End Requests.

(** ** Submitted transactions *)

Lemma se_bind_inv {S E A B} (m : SE S E A) (k : A → SE S E B) s b s' :
  (m ≫= k) s = (Ok b, s') → ∃ a s1, m s = (Ok a, s1) ∧ k a s1 = (Ok b, s').
Proof. unfold mbind, SE_bind. destruct (m s) as [[a|e] s1] eqn:Hm; [eauto|done]. Qed.

Section Submitted.
Context `{Hex, Keccak, Blake3, Crypto, Evm, HashIter, SliceSearch, UnstableSort, SipHash, MessageCodec, AddrText}.
Context `{Codec Block, Codec (list Hash), Codec TxReceipt, Codec CrossShardMessage, JsonText, Rlp, TxJson, ScheduleJson, FeatureJson, Layout}.

Lemma need_inv {A} (r : RpcResult A) s a s' : need r s = (Ok a, s') → r = Ok a ∧ s' = s.
Proof. unfold need, se_read. intros [= Hr <-]. split; [by apply map_err_Ok in Hr|done]. Qed.
Lemma need_some_inv {A} (o : option A) c msg s a s' : need_some o c msg s = (Ok a, s') → o = Some a ∧ s' = s.
Proof. unfold need_some. intros [Ho ->]%need_inv. by destruct o; simplify_eq/=. Qed.
Lemma check_signature_inv t msg s u s' :
  check_signature t msg s = (Ok u, s') → verify_signature t (rpc_chain_id (rs_config s)) = SigOk true ∧ s' = s.
Proof. unfold check_signature, refuse, fail. repeat case_match; by intros [= <- <-]. Qed.
Lemma check_funds_inv t s u s' : check_funds t s = (Ok u, s') →
  nonce t = cached_nonce s (from t) ∧ value t + fee t <= cached_balance s (from t) ∧ s' = s.
Proof.
  unfold check_funds, total_cost_of, checked_add128, refuse, fail. destruct (Z.leb_spec (value t + fee t) u128_max); cbn [ok_or]; [|done].
  destruct (Z.eqb_spec (nonce t) (cached_nonce s (from t))); cbn [negb]; [|done].
  destruct (Z.ltb_spec (cached_balance s (from t)) (value t + fee t)); [done|]. by intros [= _ <-].
Qed.
Lemma submit_inv env t s u s' : submit env t s = (Ok u, s') →
  rs_mining s = true ∧ (shard_manager (n_pool (rs_node s)) = None → acceptable t (n_pool (rs_node s))).
Proof.
  unfold submit, on_node, refuse, fail, zoom, se_map_err. destruct (rs_mining s); [|done].
  pose proof (submission_outcome (e_now env) (e_wall env) t (n_pool (rs_node s))) as Ho.
  destruct (pool_add_transaction _ _ _ _) as [[[]|e] t']; [|done]. intros _. split; [done|]. intros Hsh. by apply Ho.
Qed.

Lemma make_tx_pq a b v f n d g : pq_signature (make_tx a b v f n d g) = None.
Proof. by destruct d. Qed.
(** The first parameter, when it is a text. *)
Definition text_param (params : option Value) : option string := p ← params; arr ← as_array p; extract_str_param arr 0.
Lemma first_str_inv params e text : first_str params e = Ok text → text_param params = Some text.
Proof. unfold first_str, text_param. destruct params as [p|]; [|done]. cbn.
  destruct (as_array p) as [arr|]; cbn; [|done]. by destruct (extract_str_param arr 0); intros [= ->]. Qed.

Ltac run_inv Hx := let a := fresh "a" in let s1 := fresh "s" in let Hy := fresh "Hy" in
  apply se_bind_inv in Hx as (a & s1 & Hy & Hx).

(** C20: Raw transactions.  The hash in the answer to
    [eth_sendRawTransaction] is that of a transaction that was decoded from the
    text, is signed by its sender, has the sender's next nonce and is covered by
    the sender's balance, both as the account cache has them, and was handed to
    the pool of a node with a mining manager; on a node without shards the pool
    found it acceptable. *)
Theorem raw_transaction_sound env params s v s' :
  eth_send_raw_transaction env params s = (Ok v, s') →
  ∃ text raw tx0 sig tx, text_param params = Some text ∧ decode_hex_text text = Some raw ∧
    decode_raw raw (rpc_chain_id (rs_config s)) = Ok (tx0, sig) ∧ tx = set_tx_hash (keccak256 raw) (set_tx_from (from tx) tx0) ∧
    v = hash_value (tx_hash tx) ∧ authenticated tx ∧
    nonce tx = cached_nonce s (from tx) ∧ value tx + fee tx <= cached_balance s (from tx) ∧
    rs_mining s = true ∧ (shard_manager (n_pool (rs_node s)) = None → acceptable tx (n_pool (rs_node s))).
Proof.
  intros Hx. unfold eth_send_raw_transaction in Hx. run_inv Hx. apply need_inv in Hy as [Ht ->].
  run_inv Hx. apply need_some_inv in Hy as [Hraw ->]. rewrite se_get_step in Hx. run_inv Hx.
  apply need_inv in Hy as [Hdec ->]. destruct a1 as [tx0 sig]. run_inv Hx.
  destruct (recover_ecdsa_address tx0 sig) as [o|m]; [|done]. apply need_some_inv in Hy as [Hrec ->]. cbv zeta in Hx.
  set (tx := set_tx_hash (keccak256 a0) (set_tx_from a1 tx0)) in *.
  run_inv Hx. apply check_signature_inv in Hy as [Hsig ->]. run_inv Hx. apply check_funds_inv in Hy as (Hn & Hb & ->).
  run_inv Hx. apply (submit_inv env tx s) in Hy as [Hm Hacc]. run_inv Hx.
  assert (He : ecdsa_signature tx ≠ None ∧ pq_signature tx = None).
  { unfold decode_raw in Hdec. destruct (split_type a0) as [ty d]. case_ok. destruct (_ || _); [done|]. case_ok.
    split; [done|]. apply make_tx_pq. }
  destruct He as [He Hpq]. exists a, a0, tx0, sig, tx. split_and!; try done.
  - by eapply first_str_inv.
  - by injection Hx as <- _.
  - destruct (ecdsa_signature tx) as [es|] eqn:Hes; [|done]. apply (ecdsa_authenticates tx es Hes).
    unfold verify_signature in Hsig. by rewrite Hpq, Hes in Hsig.
Qed.
End Submitted.

(** ** What the decoder makes of Ethereum's encoding *)

Section Encodings.
Context `{Hex, Keccak, Blake3, Crypto, Evm, HashIter, SliceSearch, UnstableSort, SipHash, MessageCodec, AddrText}.
Context `{Codec Block, Codec (list Hash), Codec TxReceipt, Codec CrossShardMessage, JsonText, Rlp, TxJson, ScheduleJson, FeatureJson, Layout}.

(** The two encodings wallets use: a list, or a type and a list. *)
Inductive standard_encoding : list u8 → Prop :=
| legacy_encoding raw : is_rlp_list raw = true → standard_encoding raw
| typed_encoding payload : is_rlp_list payload = true → standard_encoding (2 :: payload).

Lemma decode_nothing width field : ∃ e, decode_uint_from_bytes width [] field = Err e ∧ code e = -32602.
Proof. unfold decode_uint_from_bytes, decode_rlp_item. rewrite rlp_decode_nil. cbn. by eexists. Qed.
Lemma decode_whole width bs field : is_rlp_list bs = true →
  (∃ e, decode_uint_from_bytes width bs field = Err e ∧ code e = -32602) ∨ ∃ n, decode_uint_from_bytes width bs field = Ok (n, []).
Proof.
  intros Hl. unfold decode_uint_from_bytes, decode_rlp_item. destruct (rlp_decode_vec bs) as [[v rest]|] eqn:Hd; cbn [ok_or mbind result_bind]; [|by left; eexists].
  pose proof (rlp_decode_list bs v rest Hl Hd) as ->. destruct (width <? length v)%nat; [by left; eexists|by right; eexists].
Qed.
Lemma list_is_legacy raw : is_rlp_list raw = true → split_type raw = (0, raw).
Proof.
  destruct raw as [|b raw]; [done|]. unfold is_rlp_list, split_type. destruct (Z.leb_spec b 127); [|done].
  destruct (Z.leb_spec 192 b); [lia|]. destruct (Z.leb_spec 248 b); [lia|done].
Qed.
Lemma decode_fees_standard raw : standard_encoding raw → ∃ e, (let '(ty, d) := split_type raw in decode_fees ty d) = Err e ∧ code e = -32602.
Proof.
  unfold decode_fees, decode_u64_from_bytes, decode_u128_from_bytes. intros [raw' Hl|p Hl].
  - rewrite (list_is_legacy _ Hl). cbn [Z.eqb]. destruct (decode_whole 8 raw' "nonce" Hl) as [(e & -> & He)|(n & ->)]; cbn; [by exists e|].
    destruct (decode_nothing 16 "gasPrice") as (e & -> & He). by exists e.
  - cbn [split_type Z.leb Z.compare Pos.compare Pos.compare_cont Z.eqb Pos.eqb].
    destruct (decode_whole 8 p "chainId" Hl) as [(e & -> & He)|(n & ->)]; cbn; [by exists e|].
    destruct (decode_nothing 8 "nonce") as (e & -> & He). by exists e.
Qed.
(** A transaction in the encoding the wallets and the comments of the method
    use is refused: the list is taken for the first of the fields. *)
Theorem standard_transactions_refused env text raw s :
  decode_hex_text text = Some raw → standard_encoding raw →
  ∃ e, eth_send_raw_transaction env (Some (VArray [VString text])) s = (Err (Failed e), s) ∧ code e = -32602.
Proof.
  intros Hraw Hstd. destruct (decode_fees_standard raw Hstd) as (e & Hf & He). exists e. split; [|done].
  assert (Ht : need (first_str (Some (VArray [VString text])) (invalid_param_error "raw transaction")) s = (Ok text, s)) by done.
  unfold eth_send_raw_transaction. rewrite (se_bind_step _ _ _ _ _ Ht), Hraw.
  assert (Hr : need_some (Some raw) (-32602) "Invalid hex encoding" s = (Ok raw, s)) by done.
  rewrite (se_bind_step _ _ _ _ _ Hr), se_get_step. apply se_bind_fail. unfold need, se_read, decode_raw.
  destruct (split_type raw) as [ty d]. by rewrite Hf.
Qed.
End Encodings.

(** ** The faucet *)

Section Faucet.
Context `{Hex, Keccak, Blake3, Crypto, Evm, HashIter, SliceSearch, UnstableSort, SipHash, MessageCodec, AddrText}.
Context `{Codec Block, Codec (list Hash), Codec TxReceipt, Codec CrossShardMessage, JsonText, Rlp, TxJson, ScheduleJson, FeatureJson, Layout}.

(** Calls of the faucet, and whatever else happens between them. *)
Inductive FaucetStep := FaucetCall (env : Env) (params : option Value) | Elsewhere (f : RpcServer → RpcServer).
Definition step_ok (st : FaucetStep) : Prop :=
  match st with FaucetCall _ _ => True | Elsewhere f => ∀ s, faucet_times (f s) = faucet_times s end.
Definition faucet_recipient (params : option Value) : option Address := t ← text_param params; ok (parse_address t).
(** When [a] was credited. *)
Fixpoint faucet_credits (a : Address) (steps : list FaucetStep) (s : RpcServer) : list Z :=
  match steps with
  | [] => []
  | FaucetCall env params :: rest =>
      let '(r, s') := irondag_faucet env params s in
      (if is_ok r && bool_decide (faucet_recipient params = Some a) then [e_now env] else []) ++ faucet_credits a rest s'
  | Elsewhere f :: rest => faucet_credits a rest (f s)
  end.
(** The clock does not run backwards. *)
Fixpoint call_times (steps : list FaucetStep) : list Z :=
  match steps with [] => [] | FaucetCall env _ :: rest => e_now env :: call_times rest | Elsewhere _ :: rest => call_times rest end.

Lemma credit_faucet_times a s r s' : credit_faucet a s = (r, s') →
  faucet_times s' = match r with Ok _ => faucet_times s | Err _ => delete a (faucet_times s) end.
Proof.
  unfold credit_faucet, on_chain, on_node, zoom, se_map_err. repeat case_match; intros [= <- <-]; simplify_eq; done.
Qed.
(** A call records the time of the credit, and leaves the other addresses. *)
Lemma faucet_step env params s r s' : irondag_faucet env params s = (r, s') →
  match r with
  | Ok _ => ∃ a, faucet_recipient params = Some a ∧ faucet_waiting env s a = false ∧ faucet_times s' = <[a := e_now env]> (faucet_times s)
  | Err _ => faucet_times s' = faucet_times s ∨ ∃ a, faucet_recipient params = Some a ∧ faucet_waiting env s a = false ∧
               faucet_times s' = delete a (faucet_times s)
  end.
Proof.
  unfold irondag_faucet, need_some, need, faucet_recipient, text_param, mbind, SE_bind, option_bind, se_read, se_get, se_mod, refuse, fail.
  destruct params as [p|]; cbn [ok_or map_err]; [|intros [= <- <-]; by left].
  destruct (as_array p) as [arr|]; cbn [ok_or map_err]; [|intros [= <- <-]; by left].
  destruct (extract_str_param arr 0) as [t|]; cbn [ok_or map_err]; [|intros [= <- <-]; by left].
  destruct (parse_address t) as [a|e]; cbn [map_err ok]; [|intros [= <- <-]; by left].
  destruct (faucet_waiting env s a) eqn:Hw; [intros [= <- <-]; by left|].
  set (s1 := with_faucet _ s). destruct (credit_faucet a s1) as [r2 s2] eqn:Hc. apply credit_faucet_times in Hc.
  change (faucet_times s1) with (<[a:=e_now env]> (faucet_times s)) in Hc. destruct r2 as [u|e]; intros [= <- <-].
  - exists a. by rewrite Hc.
  - right. exists a. rewrite Hc, delete_insert_eq. done.
Qed.
Lemma faucet_waiting_false env s a last : faucet_times s !! a = Some last → faucet_waiting env s a = false → last <= e_now env →
  last + from_secs FAUCET_RATE_LIMIT_SECONDS <= e_now env.
Proof. unfold faucet_waiting, duration_since, sat_sub. intros ->. rewrite Z.ltb_ge. lia. Qed.

Lemma faucet_credits_spec a steps s now0 : Forall step_ok steps → StronglySorted Z.le (call_times steps) →
  Forall (Z.le now0) (call_times steps) → (∀ l, faucet_times s !! a = Some l → l <= now0) →
  let R t1 t2 := t1 + from_secs FAUCET_RATE_LIMIT_SECONDS <= t2 in
  StronglySorted R (faucet_credits a steps s) ∧ Forall (Z.le now0) (faucet_credits a steps s) ∧
  ∀ l, faucet_times s !! a = Some l → Forall (R l) (faucet_credits a steps s).
Proof.
  intros Hok Hc Hn Hl R. revert s now0 Hok Hc Hn Hl. induction steps as [|[env params|f] steps IH]; intros s now0 Hok Hc Hn Hl; cbn [faucet_credits].
  { split_and!; intros; constructor. }
  2: { apply Forall_cons in Hok as [Hf Hok]. destruct (IH (f s) now0 Hok Hc Hn) as (Hs & Hle & Hr); [by rewrite Hf|]. rewrite Hf in Hr. done. }
  apply Forall_cons in Hok as [_ Hok]. apply StronglySorted_inv in Hc as [Hc Hle]. apply Forall_cons in Hn as [Hn0 Hn].
  destruct (irondag_faucet env params s) as [r s'] eqn:Hf. apply faucet_step in Hf.
  assert (Hw : faucet_waiting env s a = false → ∀ l, faucet_times s !! a = Some l → R l (e_now env)).
  { intros Hw l Ha. unfold R. eapply faucet_waiting_false; [exact Ha|exact Hw|]. apply Hl in Ha. lia. }
  assert (Hkeep : faucet_times s' !! a = faucet_times s !! a → StronglySorted R (faucet_credits a steps s') ∧
      Forall (Z.le now0) (faucet_credits a steps s') ∧ ∀ l, faucet_times s !! a = Some l → Forall (R l) (faucet_credits a steps s')).
  { intros Ha. rewrite <- Ha. apply IH; try done. by rewrite Ha. }
  assert (Hlate : ∀ x, R x (e_now env) → ∀ l, Forall (Z.le (e_now env)) l → Forall (R x) l).
  { intros x Hx l Hall. eapply Forall_impl; [exact Hall|]. unfold R in *. intros y Hy. cbn in Hy. lia. }
  destruct r as [v|e].
  - destruct Hf as (b & Hb & Hwb & Ht). cbn [is_ok andb]. rewrite Hb. destruct (decide (b = a)) as [->|Hne].
    + rewrite bool_decide_eq_true_2 by done. cbn [app].
      destruct (IH s' (e_now env) Hok Hc Hle) as (Hs & Hge & Hr).
      { intros l. rewrite Ht, lookup_insert_eq. intros [= <-]. lia. }
      pose proof (Hr (e_now env) ltac:(by rewrite Ht, lookup_insert_eq)) as Hr1. split_and!.
      * by constructor.
      * constructor; [done|]. eapply Forall_impl; [exact Hge|]. cbn. intros x Hx. lia.
      * intros l Ha. constructor; [by apply Hw|]. apply Hlate; [by apply Hw|done].
    + rewrite bool_decide_eq_false_2 by congruence. cbn [app]. apply Hkeep. by rewrite Ht, lookup_insert_ne.
  - cbn [is_ok andb app]. destruct Hf as [Ht|(b & Hb & Hwb & Ht)]; [apply Hkeep; by rewrite Ht|].
    destruct (decide (b = a)) as [->|Hne]; [|apply Hkeep; by rewrite Ht, lookup_delete_ne].
    destruct (IH s' (e_now env) Hok Hc Hle) as (Hs & Hge & _); [by rewrite Ht, lookup_delete_eq|]. split_and!; [done| |].
    + eapply Forall_impl; [exact Hge|]. cbn. intros x Hx. lia.
    + intros l Ha. apply Hlate; [by apply Hw|done].
Qed.

(** C35: The faucet.  Whatever else happens in between, an address is credited
    at most once a minute: any two credits are at least 60 seconds apart. *)
Theorem faucet_pays_once_a_minute a steps s : Forall step_ok steps → StronglySorted Z.le (call_times steps) →
  faucet_times s !! a = None →
  StronglySorted (λ t1 t2, t1 + from_secs FAUCET_RATE_LIMIT_SECONDS <= t2) (faucet_credits a steps s).
Proof.
  intros Hok Hc Ha. destruct (call_times steps) as [|t ts] eqn:Ht.
  - eapply (faucet_credits_spec a steps s 0); rewrite ?Ht, ?Ha; try done; constructor.
  - eapply (faucet_credits_spec a steps s t); rewrite ?Ht, ?Ha; try done. constructor; [done|]. by apply StronglySorted_inv in Hc as [_ ?].
Qed.
End Faucet.

(** ** Answers about accounts *)

Section Answers.
Context `{Hex, Keccak, Blake3, Crypto, Evm, HashIter, SliceSearch, UnstableSort, SipHash, MessageCodec, AddrText}.
Context `{Codec Block, Codec (list Hash), Codec TxReceipt, Codec CrossShardMessage, JsonText, Rlp, TxJson, ScheduleJson, FeatureJson, Layout}.

(** The numbers of the cached account. *)
Definition account_in_range (s : RpcServer) (a : Address) : Prop :=
  0 <= cached_balance s a <= u128_max ∧ 0 <= cached_nonce s a <= u64_max.

(** C36: Queries.  Asked for an account by the text of its address, the server
    changes nothing and answers with texts that the parsers of parameters read
    back as its cached balance and nonce. *)
Theorem account_queries s a : address_wf a = true → account_in_range s a →
  let params := Some (VArray [VString (address_to_hex a)]) in
  (∃ t, eth_get_balance params s = (Ok (VString t), s) ∧ parse_hex_u128 t = Ok (cached_balance s a)) ∧
  (∃ t, eth_get_transaction_count params s = (Ok (VString t), s) ∧ parse_hex_number t = Ok (cached_nonce s a)).
Proof.
  intros Ha [Hb Hn] params.
  assert (Hp : need (array_params params) s = (Ok [VString (address_to_hex a)], s)) by done.
  assert (Hx : need (extract_address_param [VString (address_to_hex a)] 0) s = (Ok a, s)).
  { unfold extract_address_param, need, se_read. cbn [extract_str_param lookup list_lookup]. cbn. by rewrite parse_address_hex. }
  split; (eexists; split; [|first [by apply hex_u128_roundtrip|by apply hex_number_roundtrip]]).
  - unfold eth_get_balance. by rewrite (se_bind_step _ _ _ _ _ Hp), (se_bind_step _ _ _ _ _ Hx), se_get_step.
  - unfold eth_get_transaction_count. by rewrite (se_bind_step _ _ _ _ _ Hp), (se_bind_step _ _ _ _ _ Hx), se_get_step.
Qed.

Lemma set_balance_cache a b l v : verkle_state l = Some v → accounts (set_balance a b l).2 = accounts l.
Proof. intros Hv. unfold set_balance, mbind, SE_bind, se_get. by rewrite Hv. Qed.
Lemma get_balance_verkle a l v : verkle_state l = Some v → get_balance a l = (Ok (vs_get_balance v a), l).
Proof. intros Hv. unfold get_balance, mbind, SE_bind, se_get. by rewrite Hv. Qed.
(** With a Verkle state the balances are kept there, and the map the queries
    read is not told: the credit of the faucet reaches the account and changes
    no answer. *)
Theorem verkle_balances_are_not_reported a v s :
  let l := ledger (rs_chain s) in
  verkle_state l = Some v → verkle_good l → address_wf a = true → in_u128 (view l a).1 →
  ∃ s', credit_faucet a s = (Ok tt, s') ∧ (view (ledger (rs_chain s')) a).1 = sat_add128 (view l a).1 FAUCET_AMOUNT ∧
    ∀ params, (eth_get_balance params s').1 = (eth_get_balance params s).1.
Proof.
  intros l Hv Hg Ha Hb. set (b := sat_add128 (view l a).1 FAUCET_AMOUNT).
  assert (Hb' : in_u128 b) by (unfold b, FAUCET_AMOUNT; mlia).
  destruct (set_balance_spec a b l Hg Ha Hb') as (l' & Hs & Hw & _).
  pose proof (set_balance_cache a b l v Hv) as Hc. rewrite Hs in Hc. cbn [snd] in Hc.
  assert (Hview : vs_get_balance v a = (view l a).1) by (unfold view; by rewrite Hv).
  eexists. split; [|split].
  - unfold credit_faucet, on_chain, on_node, zoom, se_map_err, on_ledger.
    unfold mbind, SE_bind, zoom. change (ledger (n_chain (rs_node s))) with l.
    rewrite (get_balance_verkle a l v Hv), Hview. cbn [set_ledger ledger]. fold b. rewrite Hs. reflexivity.
  - cbn. rewrite (wr_balance _ _ _ _ Hw a Ha). by rewrite decide_True.
  - intros params. unfold eth_get_balance, need, se_read, mbind, SE_bind, se_get.
    destruct (map_err Failed (array_params params)) as [arr|e]; [|done].
    destruct (map_err Failed (extract_address_param arr 0)) as [x|e]; [|done]. cbn. unfold cached_balance, accounts_cache.
    cbn. by rewrite Hc.
Qed.
End Answers.

(** ** Managers that are missing or not told *)

Section Managers.
Context `{Hex, Keccak, Blake3, Crypto, Evm, HashIter, SliceSearch, UnstableSort, SipHash, MessageCodec, AddrText}.
Context `{Codec Block, Codec (list Hash), Codec TxReceipt, Codec CrossShardMessage, JsonText, Rlp, TxJson, ScheduleJson, FeatureJson, Layout}.

(** A sharded node without a static key serves every method to everybody,
    although authentication was not switched off; the same node without shards
    asks for the generated key. *)
Theorem sharded_node_has_no_key random c cx policies n m :
  nc_rpc_no_auth c = false → nc_rpc_api_key c = None → is_public_method m = false →
  requires_auth (node_rpc_server random c cx policies true n) m = false ∧
  requires_auth (node_rpc_server random c cx policies false n) m = true.
Proof. intros Ha Hk Hm. unfold node_rpc_server, requires_auth. rewrite Ha, Hk. cbn. by rewrite Hm. Qed.

(** The server of a node has no managers for wallets, multi-signature
    payloads, recovery and recurring payments: their methods always fail. *)
Theorem node_server_lacks_managers random c cx policies shards n env params :
  let s := node_rpc_server random c cx policies shards n in
  let missing {A} (r : result Failure A * RpcServer) := ∃ msg, r = (Err (Failed (rpc_error (-32603) msg)), s) in
  missing (irondag_create_wallet env params s) ∧ missing (irondag_get_wallet params s) ∧
  missing (irondag_create_multisig_transaction params s) ∧ missing (irondag_add_multisig_signature params s) ∧
  missing (irondag_initiate_recovery env params s) ∧ missing (irondag_approve_recovery env params s) ∧
  missing (irondag_complete_recovery env params s) ∧ missing (irondag_cancel_recovery params s) ∧
  missing (irondag_pause_recurring_transaction params s) ∧ missing (irondag_resume_recurring_transaction params s).
Proof.
  cbv zeta. set (s := node_rpc_server random c cx policies shards n).
  assert (Hm : rm_wallets (rs_managers s) = None ∧ rm_multisig (rs_managers s) = None ∧ rm_recovery (rs_managers s) = None ∧ rm_recurring (rs_managers s) = None).
  { unfold s, node_rpc_server. by destruct (nc_rpc_no_auth c), shards, (nc_rpc_api_key c). }
  clearbody s. destruct Hm as (Hw & Hms & Hr & Hrec).
  assert (Ew : have_wallets s = (Err (Failed (rpc_error (-32603) "Wallet registry not available")), s)) by (unfold have_wallets; by rewrite se_get_step, Hw).
  assert (Em : have_multisig s = (Err (Failed (rpc_error (-32603) "Multi-sig manager not available")), s)) by (unfold have_multisig; by rewrite se_get_step, Hms).
  assert (Er : have_recovery s = (Err (Failed (rpc_error (-32603) "Social recovery manager not available")), s)) by (unfold have_recovery; by rewrite se_get_step, Hr).
  split_and!; eexists;
    first [apply (se_bind_fail _ _ _ _ _ Ew)|apply (se_bind_fail _ _ _ _ _ Em)|apply (se_bind_fail _ _ _ _ _ Er)
          |unfold irondag_pause_recurring_transaction, irondag_resume_recurring_transaction, on_server_recurring; rewrite se_get_step;
           apply se_bind_fail; by rewrite Hrec].
Qed.

(** Creating a multi-signature payload changes nothing, so no signature can
    ever be added to one. *)
Theorem multisig_payloads_are_lost params s : rm_multisig (rs_managers s) = Some ∅ →
  (irondag_create_multisig_transaction params s).2 = s ∧
  ∃ e, irondag_add_multisig_signature params s = (Err e, s).
Proof.
  intros Hm. split.
  - assert (Hf : respects eq (irondag_create_multisig_transaction params)) by (unfold irondag_create_multisig_transaction, have_wallets; walk).
    destruct (irondag_create_multisig_transaction params s) as [r s'] eqn:Hr. symmetry. by eapply Hf.
  - unfold irondag_add_multisig_signature, have_multisig, need_some, need, se_read, mbind, SE_bind, se_get, refuse, fail. rewrite Hm. cbn [ok_or map_err].
    repeat match goal with |- context [match map_err Failed ?x with _ => _ end] => destruct x; cbn [map_err]; [|by eexists] end.
    unfold add_signature_to_pending. rewrite lookup_empty. by eexists.
Qed.

(** The answer to a completed recovery names the new owner, but the wallet
    keeps the old one: the registry and the chain are not told. *)
Definition keeps_wallets (s s' : RpcServer) : Prop :=
  rm_wallets (rs_managers s') = rm_wallets (rs_managers s) ∧ rs_node s' = rs_node s.
#[global] Instance keeps_wallets_preorder : PreOrder keeps_wallets.
Proof. split; [by split|]. intros s1 s2 s3 [] []. split; congruence. Qed.
Theorem recovery_leaves_the_wallet env params : respects keeps_wallets (irondag_complete_recovery env params).
Proof.
  unfold irondag_complete_recovery, have_recovery, chain_time. walk.
  intros t r t'. unfold on_recovery, refuse, fail. repeat case_match; intros [= <- <-]; by split.
Qed.

(** A snapshot whose blocks are not numbered from 0 is refused, but the
    balances and nonces it holds are in the ledger. *)
Theorem refused_snapshot_replaces_accounts env gfuel cpu buffer open_snapshot file snap s :
  api_key_hash (rs_config s) = None → open_snapshot file = Ok snap → numbered_from 0 (snap_blocks snap) = false →
  irondag_restore_snapshot env gfuel cpu buffer open_snapshot (Some (VObject [("filename"%string, VString file)])) None s
  = match on_chain RPC_INTERNAL_ERROR "unreachable" (se_for (Storage.accounts snap) restore_account) s with
    | (Ok _, s') => (Err (Failed (rpc_error (-32000) "Snapshot block chain discontinuity")), s')
    | (Err e, s') => (Err e, s')
    end.
Proof.
  intros Hk Ho Hn. unfold irondag_restore_snapshot. rewrite se_get_step.
  assert (Hv : verify_api_key s None = true) by (unfold verify_api_key; by rewrite Hk). rewrite Hv.
  assert (Hf : need (open_snapshot file) s = (Ok snap, s)) by (unfold need, se_read; by rewrite Ho).
  erewrite se_bind_step by reflexivity. erewrite se_bind_step by reflexivity. erewrite se_bind_step by reflexivity.
  rewrite (se_bind_step _ _ _ _ _ Hf).
  destruct (on_chain _ _ _ s) as [[u|e] s1] eqn:Hc; [|by rewrite (se_bind_fail _ _ _ _ _ Hc)].
  rewrite (se_bind_step _ _ _ _ _ Hc). by rewrite Hn.
Qed.
End Managers.
