(* ===== verification/RpcReference.v ===== *)
(** * RpcReference: a server that answers

    A concrete server over the chain of [ChainReference]; the theorems of
    [RpcTheorems] are applied to it. *)

From S2P Require Import Prelude Types Block Pow Error Ledger BlockIndex Execution Chain ChainReference.
From S2P Require Import Storage Recurring Security Messaging Sharding ShardReference Ordering TxPool TxPoolTheorems Miner MinerReference.
From S2P Require Import SyncPool SyncProtocol SyncServing.
From S2P Require Import RateLimit PeerScore Wire PeerTables Gossip PeerLoop GossipReference.
From S2P Require Import Json RpcServer RpcEth RpcFeatures Rpc RpcTheorems.

Module RpcReference.
Import BlockReference ChainReference ShardReference GossipReference.
#[local] Existing Instance Reference.hex.
#[local] Existing Instance Reference.keccak.
#[local] Existing Instance PowReference.blake3.
#[local] Existing Instance BlockReference.crypto.
#[local] Existing Instance canonical_iter.
#[local] Existing Instance canonical_search.
#[local] Existing Instance ChainReference.evm.
#[local] Existing Instance ChainReference.block_codec.
#[local] Existing Instance ChainReference.hashes_codec.
#[local] Existing Instance ChainReference.receipt_codec.
#[local] Existing Instance ShardReference.message_codec.
#[local] Existing Instance MinerReference.stable_sort.
#[local] Existing Instance PeerTablesReference.text.
#[local] Existing Instance GossipReference.sip.
#[local] Existing Instance GossipReference.messages.

#[local] Instance json_text : JsonText := {| json_len := λ _, 2%nat; json_bytes := λ _, [123; 125] |}.
#[local] Instance layout : Layout := {| size_of_block := 256; size_of_transaction := 512 |}.
#[local] Instance tx_json : TxJson := λ _, None.
#[local] Instance schedule_text : ScheduleJson := λ _, [].
#[local] Instance feature_json : FeatureJson :=
  {| schedule_of_json := λ _, None; schedule_to_json := λ _, VNull; policy_of_json := λ _, None; policy_to_json := λ _, VNull |}.

(** Short lists of bytes. *)
Fixpoint rlp_items (bs : list u8) : option (list u8) :=
  match bs with
  | [] => Some []
  | 129 :: b :: rest => (b ::.) <$> rlp_items rest
  | b :: rest => if b =? 128 then (0 ::.) <$> rlp_items rest else if b <? 128 then (b ::.) <$> rlp_items rest else None
  end.
Definition rlp_short (bs : list u8) : option (list u8 * list u8) :=
  match bs with
  | b :: rest =>
      if (192 <=? b) && (b <=? 247) && (b - 192 <=? Z.of_nat (length rest))
      then (λ v, (v, drop (Z.to_nat (b - 192)) rest)) <$> rlp_items (take (Z.to_nat (b - 192)) rest) else None
  | [] => None
  end.
#[local] Instance rlp : Rlp.
Proof.
  refine {| rlp_decode_vec := rlp_short |}; [done|]. intros [|b l] v rest; [done|].
  unfold is_rlp_list, rlp_short. destruct (_ && (b <=? 247)); [|by rewrite ?andb_false_l]. intros Hl%Z.eqb_eq.
  destruct (_ <=? _); [|done]. destruct (rlp_items _); [|done]. intros [= _ <-]. apply drop_ge. lia.
Defined.

Definition rlp_byte (b : u8) : list u8 := if b =? 0 then [128] else if b <? 128 then [b] else [129; b].
Definition rlp_field (bs : list u8) : list u8 := let p := bs ≫= rlp_byte in (192 + Z.of_nat (length p)) :: p.

(** The account that signs, its funds, and the server. *)
Definition signer : Address := derive_eth_address (pad 64 (replicate 32 5 ++ replicate 32 6)).
Definition rich_ledger : Ledger := snd (set_balance signer (10 ^ 17) funded_ledger).
Definition rpc_node : Node :=
  MkNode tables (txpool_new (set_ledger rich_ledger new) None true clock) (orphan_pool_new 100) ∅ ∅ false None 0 0 [] [] false.
Definition open_server : RpcServer := set_mining_manager (with_chain_id rpc_node 11567).
Definition closed_server : RpcServer := set_api_key "secret" open_server.
Definition at_time (now : Z) : Env := MkEnv now clock (λ _, 0) false yes (λ _ l, l).

(** A transfer of 7 to [bob]: nonce, gas price, gas limit, recipient, value, data, v, r and s. *)
Definition raw_transfer : list u8 :=
  [[]; [232; 212; 165; 16; 0]; [82; 8]; addr_bytes bob; [7]; []; [27]; replicate 32 5; replicate 32 6] ≫= rlp_field.
Definition raw_params : option Value := Some (VArray [VString ("0x" +:+ hex_encode raw_transfer)]).

Lemma raw_transaction_sound_witness :
  ∃ tx, authenticated tx ∧ value tx + fee tx <= cached_balance open_server (from tx) ∧
    acceptable tx (n_pool (rs_node open_server)) ∧
    (eth_send_raw_transaction (at_time 0) raw_params open_server).1 = Ok (hash_value (tx_hash tx)).
Proof.
  destruct (eth_send_raw_transaction (at_time 0) raw_params open_server) as [r s'] eqn:Hr.
  assert (∃ v, r = Ok v) as [v ->].
  { assert (r = (eth_send_raw_transaction (at_time 0) raw_params open_server).1) as -> by by rewrite Hr.
    eexists. vm_compute. reflexivity. }
  destruct (raw_transaction_sound (at_time 0) raw_params open_server v s' Hr)
    as (text & raw & tx0 & sig & tx & _ & _ & _ & _ & -> & Ha & _ & Hb & _ & Hacc).
  exists tx. split; [exact Ha|]. split; [exact Hb|]. split; [exact (Hacc eq_refl)|reflexivity].
Defined.

Definition intruder : JsonRpcRequest := MkReq "2.0" "eth_sendRawTransaction" raw_params None.
Definition no_snapshot (_ : string) : RpcResult Storage.BlockchainSnapshot := Err (rpc_error (-32000) "missing").
Definition no_others (_ : string) (_ : option Value) (s : RpcServer) : result Failure Value * RpcServer := (Ok VNull, s).

Lemma requests_need_the_key_witness :
  same_core closed_server (handle_request 5 cpu [] no_snapshot no_others (at_time 0) intruder None None closed_server).2.
Proof.
  pose proof (requests_need_the_key 5 cpu [] no_snapshot no_others (at_time 0) intruder None None closed_server
    (hash_api_key "secret") eq_refl ltac:(intros (k & Hk & _); discriminate Hk)) as Hn.
  destruct (handle_request _ _ _ _ _ _ _ _ _ _) as [resp s']. apply (proj2 Hn). vm_compute. reflexivity.
Defined.

Definition ask (now : Z) : FaucetStep := FaucetCall (at_time now) (Some (VArray [VString (address_to_hex bob)])).
Lemma faucet_pays_once_a_minute_witness :
  let credits := faucet_credits bob [ask 0; ask 5; Elsewhere count_request; ask (from_secs 60)] open_server in
  credits = [0; from_secs 60] ∧ StronglySorted (λ t1 t2, t1 + from_secs FAUCET_RATE_LIMIT_SECONDS <= t2) credits.
Proof.
  split; [vm_compute; reflexivity|]. apply faucet_pays_once_a_minute.
  - repeat constructor.
  - repeat constructor; vm_compute; discriminate.
  - reflexivity.
Defined.

Lemma account_queries_witness :
  ∃ t, eth_get_balance (Some (VArray [VString (address_to_hex signer)])) open_server = (Ok (VString t), open_server) ∧
    parse_hex_u128 t = Ok (10 ^ 17).
Proof.
  destruct (account_queries open_server signer ltac:(vm_compute; reflexivity)
    ltac:(split; vm_compute; split; discriminate)) as [(t & Ht & Hp) _].
  exists t. split; [exact Ht|]. rewrite Hp. vm_compute. reflexivity.
Defined.
End RpcReference.
